(* ===== verification/_CoqProject ===== *)
-Q . S2P
Prelude.v
StackMachine.v
PdaState.v
PdaStep.v
Pda.v
PdaLanguage.v
Mask.v
BTree.v
Spec.v
Compile.v
CompileGoto.v
CompileCorrect.v
Rtn.v
EmittedSubset.v
Compiled.v
Session.v
SessionCorrect.v
SessionProps.v
Codes.v
StableSort.v
Utf8.v
StrOps.v
FixPlan.v
FixPlanProps.v
Kinds.v
Green.v
Builder.v
BuilderLaws.v
EventStream.v
Parsing.v
Lexing.v
SyntaxProps.v
M3.v
M3Laws.v
M3Operators.v
ParserProps.v
Domain.v
DomainLaws.v
DomainProps.v
Trie.v
Document.v
DocumentProps.v
Frame.v
FrameProps.v
Cancellation.v
Server.v
ServerInv.v
ServerProps.v
Schema.v
SchemaProps.v
Position.v
Narrow.v
Scope.v
ScopeNest.v
ScopeWalk.v
NarrowSpec.v
NarrowLaws.v
Overlay.v
OverlayProps.v
ScopeProps.v
Model.v
Pmcd.v
PureLowering.v
ModelLaws.v
Loader.v
LoaderLaws.v
TypeText.v
LoaderProps.v
Resolver.v
ResolverProps.v
Navigation.v
NavigationProps.v
Relational.v
Normalizer.v
NormalForms.v
Rewrites.v
Comparison.v
Engine.v
Locals.v
Lints.v
