(* ===== verification/Prelude.v ===== *)
(** * Verification of the PureCARD decoder and of the Pure analyzer

    The repository is a workspace of Rust crates around the Pure query language:
    a constrained decoder ([crates/pure-analyzer-purecard]) that masks the tokens
    a language model may emit so that its output is a query of a given schema,
    and an analyzer (lexer, parsers, model loader, resolver, passes, language
    server, command line) that reports diagnostics and applies fixes.  This
    library models the decoder as a whole, and of the analyzer the syntax trees
    and parsers, the model loader, the resolver, the relational queries with their
    normal forms, the passes with the engine that runs them, the language server and the part
    that rewrites user files.  All paths below are under [src/crates].

    ** The program's parts and their files

    _The decoder_ ([pure-analyzer-purecard/src]).  A byte automaton keeps a query
    prefix alive or kills it; a compiled grammar holds a vocabulary and, per
    automaton state, a lazily built partition of its tokens (admissible whatever
    the stack, refused, or to be probed against the live stack); a decode session
    drives the automaton, hands out the mask of the next tokens and consumes the
    chosen one.  The grammar is either hand-written or compiled from a
    declarative spec.  A session may carry a schema: a tracker follows the tokens
    and says which rule governs the current point, and narrowing clears from the
    mask what the rule's names do not allow.

    - [StackMachine]: what the two automata share.  [Step], [Probe]; streams of
      bytes over a pure transition function ([run]); the laws [PopHasFrame] and
      [AmbientBlind], and what a probe over an empty stack says about live
      stacks.
    - [PdaState], [PdaStep], [Pda]: [grammar/pda.rs].  Enums, byte classes, one
      definition per [step_*] function, [step], and the driver ([advance],
      [is_accepting], [admits], [probe]).
    - [PdaLanguage]: which frame each state permits on top of the
      stack, and what the accepted language is like.
    - [Mask]: [mask.rs] and [vocab.rs].
    - [BTree]: [BTreeMap] as the code uses it, over a class of ordered keys.
    - [Spec], [Compile], [Rtn]: [grammar/spec.rs] and [grammar/compile.rs]: the
      spec's data and errors; [compile_v1] with its validation passes; the
      table's [step] and its driver.  [CompileGoto] and [CompileCorrect] verify
      the goto-cycle search, the lowering and the reachability check.
    - [EmittedSubset]: [grammar/emitted_subset.rs], the shipped spec.
    - [Compiled]: [grammar/compiled.rs].  The cells of the cache are filled
      through a shared reference, so the grammar is a store: reading it returns
      the grammar left behind.
    - [Session]: [session.rs] and [error.rs], over the shared grammar.  The schema
      overlay the session may carry is the class [Overlay].  [SessionCorrect] holds
      the lemmas, [SessionProps] the contract: the step
      relation [sys_step] interleaves any operations of any number of sessions
      over one grammar, and the theorems quantify over what it reaches.
    - [Trie], [Schema], [Position]: [schema/trie.rs], [schema/model.rs] and the
      stateless part of [schema/scope.rs]; [SchemaProps] is about the members of
      a class.
    - [Scope]: the tracker of [schema/scope.rs], [observe] and [position] with
      everything they call.  [ScopeNest] and [ScopeWalk] hold the lemmas,
      [ScopeProps] the contract.
    - [Narrow]: [schema/narrow.rs], with its memo.  [NarrowSpec] says what
      narrowing means without tries or memo, [NarrowLaws] that the code does
      that.
    - [Overlay]: the composition of narrowing with any tracker (the class
      [ScopeTracker], which that of [Scope] is) as an instance of the session's
      [Overlay]; [OverlayProps] has the properties of a session with a schema.

    _Diagnostics_ ([pure-analyzer-diagnostics/src]).  Passes report diagnostics
    with structured fixes; a front end builds a plan from them and applies it to
    the sources it analysed.

    - [Codes]: [code.rs] and [verdict.rs], the registries of identifiers.
    - [StableSort]: the derived orders of tuples and options, [sort_by],
      [sort_by_key] and [min_by_key].
    - [Utf8]: the bytes of a [str].
    - [FixPlan]: [fix.rs], [file.rs], [diagnostic.rs] and [fix_plan.rs].
      [FixPlanProps] verifies validation and conflict detection, and states what
      [build] and [apply] guarantee.

    _Syntax_ ([pure-analyzer-lexer/src], [pure-analyzer-syntax/src],
    [pure-analyzer-parser/src]).  A parser reads the tokens of a text and emits
    events, from which the builder folds a lossless tree.

    - [Kinds]: the kinds of tokens and nodes, their raw encoding, and [lex] over
      the spans of the generated automaton (the class [Logos]).  [Lexing] says
      what the parsers get of it, has an automaton for the examples, and what the
      two parsers report alike.
    - [Green], [Builder]: [green.rs], [ast.rs] and [builder.rs].  [BuilderLaws]
      relates events and trees, [SyntaxProps] is the builder's contract.
    - [Parsing]: methods on [&mut self] as a state monad with panics, loops, and
      the rules of total correctness ([wp]).
    - [EventStream], [M3]: [m3.rs], the query parser with its event arena.
      [M3Laws] states what a method does to the parser ([moves]) and has the
      tactic [steps] that proves it, and the contract of every method;
      [ParserProps] has that of [parse_query].
    - [M3Operators]: what the query parser makes of operator expressions.
    - [Domain]: [domain.rs], the parser of model files.  [DomainLaws] verifies
      its methods in the same way, [DomainProps] states the contract of
      [parse_domain].

    _Models_ ([pure-analyzer-model/src]).  PMCD documents and Pure files are
    lowered to fragments of classes and associations, the fragments merged, the
    associations put on the classes they relate, and the classes numbered.

    - [StrOps]: the order of texts and what the code uses of [str]; lookup laws
      of ordered maps.
    - [Model]: [types.rs], [error.rs] and [stereotypes.rs].
    - [Pmcd]: [raw.rs] and the half of [loader.rs] that lowers PMCD records, over
      the class [PmcdJson].
    - [PureLowering]: [pure.rs], which reads the trees of [Domain].
    - [Loader]: the rest of [loader.rs].  [ModelLaws] and [LoaderLaws] hold the
      lemmas, [LoaderProps] the contract; [TypeText] verifies the reader of type
      texts against their writing.

    _Resolution_ ([pure-analyzer-resolve/src]).

    - [Resolver]: [lib.rs], classes with their hierarchies and members.
      [ResolverProps] verifies the walks of a hierarchy and what a lookup
      concludes.
    - [Navigation]: [local.rs], the values, scopes and property chains of a
      query; [NavigationProps].

    _Analysis_ ([pure-analyzer-analysis/src]).  Queries are lowered to relational
    terms, which are normalized and compared; passes report diagnostics, which an
    engine collects.

    - [Relational]: [relational.rs], the terms with the checks of their
      constructors.
    - [Normalizer]: [normalizer.rs], the rewrites under a budget and the encoder of
      keys.  [NormalForms] says what a key keeps of a term, its form, and that
      texts of forms delimit themselves; [Rewrites] has the rewrites as a function
      without a budget, and the rows of a form under a [Meaning] of its classes,
      members and literals.
    - [Comparison]: [comparison.rs], and the theorems about normalization and
      comparison.
    - [Engine]: [pass.rs], the engine and its policy over any passes.
    - [Locals]: [local.rs] and [cst_util.rs], the walk over the tree of a query
      that resolves its class sources and navigations.  [Lints]: [validate.rs] and
      [lint.rs], the three passes of the engine that the code has, and a query
      that goes from its text to a fixed text through parser, resolver, passes,
      engine and plan.

    _The language server_ ([pure-analyzer-lsp/src]).

    - [Frame]: [frame.rs], the framing of messages; [FrameProps] its contract.
    - [Document]: [document.rs] and the edit of [state.rs]; [DocumentProps].
    - [Cancellation], [Server]: [serde_json] as an interface; [cancellation.rs], [server.rs], [dispatch.rs],
      [scheduler.rs], [workspace.rs], [response.rs] and the handlers of
      [state.rs].  [World] is the state of the reader, the coordinator, the pool
      threads and the queues between them, and the relation [step] lets any of
      them move; [ServerInv] and [ServerProps] hold the moves with the invariants,
      and the guarantees over every interleaving.

    ** What the theorems show

    - Automaton: delegation in [step] ends; the driver's probes classify tokens
      correctly for every live stack; frames obey a per-state discipline; the
      automaton refines an independent delimiter scanner; every live stream can
      be completed; openings, string literals and the milestone keyword have the
      intended shape; the auxiliary tables ([index], [TERM_END_BYTES],
      [opens_refvar_sigil]) agree with the transitions they summarise.
    - Specs: validation decides what it names (goto cycles, reachable
      acceptance), an accepted spec is lowered to a well-formed table that steps
      as the spec read by name does, and the shipped spec is equivalent to the
      hand-written automaton on every byte stream.
    - Sessions: the mask is exact for schema-free sessions, over grammars that
      take a byte over every stack as over the empty one (the hand-written
      automaton, the shipped spec; [spec_mask_offers_rejected] is about others);
      an overlay only narrows it; rejection changes nothing and reports the right error; a token
      is its bytes; the shared cache is transparent under any interleaving;
      [reset] is indistinguishable from [new]; decoding can always finish.
    - Schema: the mask of a session with a schema is the syntactic mask less
      exactly what the rule at the point refuses; names admitted are names of the
      schema, and stay spellable; the memo is transparent; the walk over a class
      hierarchy ends and finds each class once.
    - Tracker: in step with the automaton on live streams, with variables that are
      names a [$] can precede; indifferent to cuts
      inside lexemes; binders and lambdas restore what they shadow; the rule
      predicted for a fused token is the rule the tracker then has.
    - Masks: every operation changes the ids it names; packing and iteration are
      exact.
    - Fix plans: what [build] accepts, and that its verdict and its plan do not
      depend on the order of the diagnostics; [apply] cannot panic, splices
      exactly the planned edits into the analysed sources, keeps them well-formed
      UTF-8, and refuses every other source.
    - Trees: the builder accepts exactly the event streams of the trees of its
      source; checkpoints wrap what follows them; raw kinds round-trip.
    - Parsers: every text has a parse (no panic, no endless loop, no exhausted
      recursion) with a tree of the whole text and diagnostics in source order;
      without diagnostics there is no error node and no unrecognised byte, without
      coverage gaps there is no opaque node; operator expressions are read by
      precedence.
    - Models: loading never panics; a loaded graph is well formed; the last source
      wins, and classes that their sources leave closed are open only if an
      association is left out, which has a reason and is reported; associations are put on both of their classes or nowhere, and what is
      put where is settled before anything changes; a member of a Pure class is a
      fact exactly when it is declared once and was read whole; PMCD models are
      closed; type texts round-trip.
    - Resolution: validation separates the hierarchies that are in the graph and
      end from those that are not; levels are distances; a lookup finds the
      preferred declaration of a nearest class and concludes that there is none
      only when there can be none; navigation reads a chain step by step, and
      scopes are lexical.
    - Relational queries: a query normalizes exactly when it is within the budget,
      to a term with its schema, facts and rows that is its own normal form; keys
      are equal exactly when forms are; queries that are called equivalent have
      the same rows under every meaning, those that are called not equivalent have
      schemas that conflict, and swapping the queries changes nothing.
    - Passes: findings are canonical, whatever the order of passes and reports;
      the local analysis ends, leaves no binding behind and computes the relation
      [flows], which says without state what the receiver of each navigation is;
      an unknown property is reported exactly where a receiver of a class lacks
      it, and that class's whole hierarchy is read; the fix
      of a milestoned navigation inserts one argument where it is missing.
    - Server: every request is answered exactly once, and none is left when the
      server returns without an error; stale results are withheld and cancelled
      ones answered as such; cancellation is exact; batches of changes are applied
      whole or not at all; positions round-trip, and so do frames of values that
      the JSON reader reads back; what a peer makes the reader hold is bounded;
      the life cycle is obeyed and exit drains the work in flight.
    - Where code and documentation part, or the code falls short of what it is
      for: [spec_mask_offers_rejected], [eos_accepted_when_incomplete],
      [copy_from_leaks_padding], [conflict_pair_depends_on_order],
      [shutdown_drops_notifications], [trim_line_keeps_bare_newline],
      [qualified_filter_is_filter], [typed_parameter_is_receiver],
      [relation_column_dead_end], [fused_tilde_bracket_missed],
      [argument_dot_leaves_variable], [element_binder_forgets_class],
      [unary_over_trivia], [type_argument_separator_uncovered],
      [incomplete_association_elsewhere], [package_and_name_ambiguous] and
      [depth_limit_by_names] exhibit the behaviour.

    ** Modelling choices, bounds and fuel

    A [u8] is the 256-constructor [byte].  Mask words are [N] below [2^64] and
    token ids [N] below [2^32], with the casts written out.  State and frame ids
    of a compiled spec are [nat]: the code casts an index to [u32] after the
    counts were checked against [MAX_STATES] and [MAX_FRAMES], where the cast
    is exact.  A session's byte offset is a [nat], as no vocabulary and stream
    reaches [2^64] bytes; so is the tracker's depth.  [Vec] stacks are lists whose
    head is the top.  [&mut self] methods return the new value with their result.
    A [HashMap] is an association list where its order is iterated ([Schema],
    [Narrow]) and a [gmap] where it is only looked up ([Scope]).

    [step] re-dispatches a byte through its own recursion; [step_bounded] takes
    the number of re-entries and [step_bounded_stable] shows that two are enough
    for every state, stack top and byte.  [goto_loop] runs at most one iteration
    per state and one more, as in the code.  The search of
    [check_goto_acyclic] carries the code's own [GRAPH_TRAVERSAL_BUDGET];
    [goto_check_decides] shows that no spec within the declared maxima exhausts
    it.  The walk of [check_reachable_accept] is bounded, there as here, by
    [MAX_STATES] pops and one more; each state is pushed once, and
    [reach_check_decides] shows that the bound is never what stops it.  The walk
    over a class's super types has one call per class and one more as fuel
    ([members_fuel]), and [member_names_exact] shows that it ends; [flush_gap]
    has the length of the gap.  Reading a frame has the length of the input and
    one more.  All other recursion of these parts is structural.

    The parsers' loops run at most once per token and once more, and their
    recursion is bounded by the depth the code allows ([MAX_RECURSION_DEPTH],
    [MAX_PARSE_DEPTH]), which is the fuel; that neither bound is met is part of
    total correctness, as a loop or a recursion that exhausts it is a panic.

    The reader of type texts has the length of the text and one more as fuel,
    which [type_text_roundtrip] shows is more than it uses.  The walk that
    validates a hierarchy is bounded by the code's own [MAX_GENERALIZATION_DEPTH];
    the loop over its levels has one round per class and one more, and
    [levels_are_distances] shows that it ends before.

    The normalizer carries the code's own bounds of steps and depth, and
    [normalization_outcome] says exactly which queries are within them.  The rows
    of a term are a specification: the code gives terms no meaning, so [Meaning]
    has what classes, members, literals, truth and order may mean, and the
    theorems hold for all of them.  The methods of the local analysis call one
    another on what is inside a node; [evaluators] nests the calls as deep as its
    fuel, three calls per node of the tree, and [evaluators_ok] shows that no call
    is deeper.

    In [FixPlan], [Green], the parsers, the model and the resolver a [String] is the list of its bytes and
    [utf8] the invariant Rust keeps of it; in [Document] it is the list of its
    scalar values.  An operation that can panic returns [None].  Offsets are only
    compared, so they are [nat].  An [Arc] compared by address is an address taken
    from a counter.

    Code outside the repository is a parameter: [serde_json]'s verdict on a
    spec's text is an argument of [GrammarSpec_parse] and [from_spec], its
    values are the class of [Json], and its values with the readers that [serde]
    derives for PMCD records the class [PmcdJson]; reading a file is an argument
    of [load_model_files]; the [TextRange] of the [text-size] crate is the
    classes [TextRangeModel] and [TextRangeNew], whose laws are its documented
    ones and which [span_model] and [span_model_new] instantiate; the automaton
    that [logos] generates is the class [Logos], which [sample_lexer]
    instantiates.  What a request handler computes from a snapshot of the
    documents is the class [Analysis].

    ** What is not modelled

    The Python bindings and the self-check of the decoder; the explanation texts;
    the token rules of the lexer (regular expressions for a third-party engine);
    of the analysis crate the lowering of queries to relational terms, the
    emission of canonical text, the column selectors and the formatter, and the
    worklist that drops a term (a term is never freed here); the renderers,
    library driver, command line and repository tasks of the analyzer. *)

From stdpp Require Export prelude strings.
From Corelib Require Export Init.Byte.
From Stdlib Require Strings.Byte.

(** ** Bytes

    A Rust [u8] is Rocq's 256-constructor [byte]: every match the code makes
    on a byte is then a total function on a finite type, and a property of
    all bytes can be decided by running it. *)

Declare Scope u8_scope.
Delimit Scope u8_scope with u8.
Notation "a =? b" := (Byte.eqb a b%byte) (at level 70, no associativity) : u8_scope.
#[global] Instance byte_eq_dec : EqDecision byte := Byte.byte_eq_dec.

(** Every byte, in numeric order. *)
Definition all_bytes : list byte :=
  omap (λ n, Byte.of_nat n) (seq 0 256).

Lemma all_bytes_complete (b : byte) : In b all_bytes.
Proof.
  apply list_elem_of_In, list_elem_of_omap. exists (Byte.to_nat b). split; [|apply Byte.of_to_nat].
  apply list_elem_of_In, in_seq. pose proof (Byte.to_nat_bounded b). lia.
Qed.

(** A boolean predicate that holds of every enumerated byte holds of all. *)
Lemma forallb_bytes (P : byte → bool) :
  forallb P all_bytes = true → ∀ b, P b = true.
Proof. rewrite forallb_forall. eauto using all_bytes_complete. Qed.

Lemma byte_eqb_eq (a b : byte) : (a =? b)%u8 = true ↔ a = b.
Proof. split; [apply Byte.byte_dec_bl | intros ->; by apply Byte.byte_dec_lb]. Qed.

Lemma byte_eqb_refl (b : byte) : (b =? b)%u8 = true.
Proof. by apply byte_eqb_eq. Qed.

Lemma byte_eqb_neq (a b : byte) : (a =? b)%u8 = false ↔ a ≠ b.
Proof. rewrite <-byte_eqb_eq. by destruct (a =? b)%u8. Qed.

(** ** Results

    [Result A E] is Rust's [Result<A, E>]; [x ← r ;; k] below is the code's
    [r?]. *)

Inductive Result (A E : Type) : Type :=
| Ok (a : A)
| Err (e : E).
Arguments Ok {A E} a.
Arguments Err {A E} e.

Definition res_bind {A B E} (r : Result A E) (k : A → Result B E) : Result B E :=
  match r with Ok a => k a | Err e => Err e end.

Declare Scope result_scope.
Delimit Scope result_scope with result.
Notation "'let?' x ':=' r 'in' k" := (res_bind r (λ x, k))
  (at level 10, x pattern, r at level 100, k at level 200,
   format "'[v' 'let?'  x  ':='  r  'in' '/' k ']'") : result_scope.
#[global] Open Scope result_scope.

Definition is_ok {A E} (r : Result A E) : bool :=
  match r with Ok _ => true | Err _ => false end.

Lemma res_bind_ok {A B E} (r : Result A E) (k : A → Result B E) (b : B) :
  res_bind r k = Ok b ↔ ∃ a, r = Ok a ∧ k a = Ok b.
Proof. destruct r; simpl; split; [eauto| |done|]; by intros (?&[= ]&?); subst. Qed.

Lemma res_bind_err {A B E} (r : Result A E) (k : A → Result B E) (e : E) :
  res_bind r k = Err e ↔ r = Err e ∨ ∃ a, r = Ok a ∧ k a = Err e.
Proof.
  destruct r; simpl; split; intros H; [eauto| | |]; try by destruct H as [[= ]|(?&[= ]&?)]; subst.
  left. congruence.
Qed.

(** [Result::map_err] and [Result::ok]. *)
Definition map_err {A E F} (f : E → F) (r : Result A E) : Result A F :=
  match r with Ok a => Ok a | Err e => Err (f e) end.

Definition result_ok {A E} (r : Result A E) : option A :=
  match r with Ok a => Some a | Err _ => None end.

Lemma map_err_ok {A E F} (f : E → F) (r : Result A E) (a : A) : map_err f r = Ok a ↔ r = Ok a.
Proof. destruct r; simpl; naive_solver. Qed.

Lemma result_ok_Some {A E} (r : Result A E) (a : A) : result_ok r = Some a ↔ r = Ok a.
Proof. destruct r; simpl; naive_solver. Qed.

(** [map(f).collect::<Result<Vec<_>, _>>()]: all results in order, or the first
    error. *)
Section collect.
Context {A B E : Type} (f : A → Result B E).

Fixpoint res_collect (l : list A) : Result (list B) E :=
  match l with
  | [] => Ok []
  | x :: l => let? y := f x in let? ys := res_collect l in Ok (y :: ys)
  end.

Lemma res_collect_ok l ys : res_collect l = Ok ys ↔ Forall2 (λ x y, f x = Ok y) l ys.
Proof.
  revert ys. induction l as [|x l IH]; intros ys; simpl.
  - split; [by intros [= <-]|]. by inversion 1.
  - rewrite res_bind_ok. setoid_rewrite res_bind_ok. setoid_rewrite IH. split.
    + intros (y & Hy & zs & Hzs & [= <-]). by constructor.
    + inversion 1; subst; eauto 6.
Qed.

Lemma res_collect_err l e :
  res_collect l = Err e ↔
  ∃ before x after ys, l = before ++ x :: after ∧ res_collect before = Ok ys ∧ f x = Err e.
Proof.
  induction l as [|x l IH]; simpl.
  - split; [done|]. by intros ([|] & ? & ? & ? & ? & ?).
  - rewrite res_bind_err. setoid_rewrite res_bind_err. split.
    + intros [Hx|(y & Hy & [He|(ys & _ & ?)])]; [|apply IH in He|done].
      * by exists [], x, l, [].
      * destruct He as (before & x' & after & ys & -> & Hb & Hx').
        exists (x :: before), x', after, (y :: ys). simpl. rewrite Hy. simpl. by rewrite Hb.
    + intros ([|x' before] & x0 & after & ys & [= -> ->] & Hb & Hx0); [by left|].
      right. simpl in Hb. apply res_bind_ok in Hb as (y & Hy & Hb).
      apply res_bind_ok in Hb as (zs & Hzs & [= <-]). exists y. split; [done|]. left. apply IH.
      by exists before, x0, after, zs.
Qed.
End collect.

(** ** Machine integers *)

Definition U32_MAX : N := 4294967295.

(** ** Functional record update

    [t <| f := v |>] is the record [t] with its field [f] set to [v]: how a
    definition writes what the code does with [self.f = v].  A record opts in
    with an instance of [Rebuild], the eta-expansion of its constructor; the
    update of a field is derived from it. *)

Class Rebuild (R : Type) := rebuild : R → R.

(** [update f g t] applies [g] to the field [f] of [t]. *)
Class Update {R T : Type} (proj : R → T) := update : (T → T) → R → R.
#[global] Arguments update {R T} proj {_} _ _.

(** Conversion compares updates field by field only as a last resort. *)
#[global] Strategy 1000 [update].

Ltac derive_update :=
  lazymatch goal with
  | |- @Update ?R ?T ?proj =>
      let H := constr:(_ : Rebuild R) in
      let body := constr:(λ (g : T → T) (t : R), ltac:(
        let e := eval red in (H t) in
        let e := eval pattern (proj t) in e in
        lazymatch e with ?k _ => let e' := eval cbv beta in (k (g (proj t))) in exact e' end)) in
      exact body
  end.

#[global] Hint Extern 1 (Update _) => derive_update : typeclass_instances.

Declare Scope update_scope.
Delimit Scope update_scope with update.
Notation "t <| f := v |>" := (update f (λ _, v) t)
  (at level 1, f at level 0, v at level 200, left associativity, format "t  <| f  :=  v |>") : update_scope.
#[global] Open Scope update_scope.
