(* ===== verification/StackMachine.v ===== *)
(** * Byte-driven stack machines

    The interface the two automata of the decoder share: the hand-written
    [grammar/pda.rs] and the data-driven [grammar/compile.rs] both give a pure
    transition function over a state, the frame on top of the stack and one
    byte.  This file holds the common outcome type [Step], the semantics of a
    stream of bytes ([run]), the two laws a transition function may satisfy,
    and the theory of token probing that the mask cache rests on: what a probe
    over an empty stack says about the same token over every live stack.

    A stack is a list whose head is its top (the last element of the code's
    [Vec]). *)

From S2P Require Import Prelude.

(** ** Steps and configurations *)

(** The outcome of feeding one byte: [pda.rs] instantiates it with its [State]
    and [Frame] enums, [compile.rs] with dense [u32] ids. *)
Inductive Step (S F : Type) : Type :=
| Next (s : S)
| Push (f : F) (s : S)
| Pop (s : S)
| Dead.
Arguments Next {S F} s.
Arguments Push {S F} f s.
Arguments Pop {S F} s.
Arguments Dead {S F}.

#[global] Instance Step_eq_dec {S F} `{EqDecision S, EqDecision F} : EqDecision (Step S F).
Proof. solve_decision. Defined.

Definition is_dead {S F} (st : Step S F) : bool :=
  match st with Dead => true | _ => false end.

(** The verdict of a probe: whether every byte was accepted, and whether that
    verdict consulted the ambient stack. *)
Record Probe := { alive : bool; consulted_ambient : bool }.

#[global] Instance Probe_eq_dec : EqDecision Probe.
Proof. solve_decision. Defined.

(** What an automaton promises to the code that drives it. *)
Class StackMachine (S F : Type) := sm_step : S → option F → byte → Step S F.

(** The laws. [pop_has_frame] is what lets a driver pop unconditionally;
    [ambient_blind] says that a byte accepted over an empty stack is accepted
    in the same way over any frame of the alphabet [frames]. *)
Class PopHasFrame (S F : Type) `{StackMachine S F} : Prop :=
  pop_has_frame s b s' : sm_step s None b ≠ Pop s'.
Class AmbientBlind (S F : Type) `{StackMachine S F} (frames : list F) : Prop :=
  ambient_blind s f b :
    f ∈ frames → sm_step s None b ≠ Dead → sm_step s (Some f) b = sm_step s None b.

Section machine.
Context {S F : Type} `{!StackMachine S F}.

(** One byte over a configuration; [None] is a dead byte. *)
Definition step1 (c : S * list F) (b : byte) : option (S * list F) :=
  match sm_step c.1 (head c.2) b with
  | Next s => Some (s, c.2)
  | Push f s => Some (s, f :: c.2)
  | Pop s => Some (s, tail c.2)
  | Dead => None
  end.

(** A stream of bytes. *)
Fixpoint run (c : S * list F) (bs : list byte) : option (S * list F) :=
  match bs with
  | [] => Some c
  | b :: bs => match step1 c b with Some c' => run c' bs | None => None end
  end.

(** Reference form of a token probe from a scratch stack: the first dead byte
    is ambient when the scratch is empty and some frame would keep it
    alive. *)
Fixpoint probe_from (frames : list F) (s : S) (scratch : list F) (bs : list byte) : Probe :=
  match bs with
  | [] => {| alive := true; consulted_ambient := false |}
  | b :: bs =>
      match sm_step s (head scratch) b with
      | Next s' => probe_from frames s' scratch bs
      | Push f s' => probe_from frames s' (f :: scratch) bs
      | Pop s' => probe_from frames s' (tail scratch) bs
      | Dead =>
          {| alive := false;
             consulted_ambient :=
               match scratch with
               | [] => existsb (λ f, negb (is_dead (sm_step s (Some f) b))) frames
               | _ :: _ => false
               end |}
      end
  end.

Lemma run_app c bs1 bs2 :
  run c (bs1 ++ bs2) = match run c bs1 with Some c' => run c' bs2 | None => None end.
Proof.
  revert c. induction bs1 as [|b bs1 IH]; intros c; simpl; [done|].
  by destruct (step1 c b).
Qed.

Lemma run_snoc c bs b :
  run c (bs ++ [b]) = match run c bs with Some c' => step1 c' b | None => None end.
Proof.
  rewrite run_app. destruct (run c bs) as [c'|]; simpl; [|done].
  by destruct (step1 c' b).
Qed.

(** A stream dies only at one of its bytes: every prefix of a live stream is
    live. *)
Lemma run_prefix c bs1 bs2 : is_Some (run c (bs1 ++ bs2)) → is_Some (run c bs1).
Proof. rewrite run_app. destruct (run c bs1); [by eauto|by intros [? [=]]]. Qed.

(** An invariant of single steps is an invariant of streams. *)
Lemma run_invariant (I : S * list F → Prop) :
  (∀ c b c', I c → step1 c b = Some c' → I c') →
  ∀ bs c c', I c → run c bs = Some c' → I c'.
Proof.
  intros Hstep bs. induction bs as [|b bs IH]; intros c c' Hc Hrun; simplify_eq/=; [done|].
  destruct (step1 c b) as [c1|] eqn:E; [|done]. eauto.
Qed.

(** The probe is alive exactly when the stream lives over its own scratch. *)
Lemma probe_alive_run frames s scratch bs :
  alive (probe_from frames s scratch bs) = true ↔ is_Some (run (s, scratch) bs).
Proof.
  revert s scratch. induction bs as [|b bs IH]; intros s scratch; simpl; [by split; eauto|].
  unfold step1; simpl.
  destruct (sm_step s (head scratch) b) eqn:E; simpl; by rewrite ?IH.
Qed.

Lemma probe_consulted_dead frames s scratch bs :
  consulted_ambient (probe_from frames s scratch bs) = true → run (s, scratch) bs = None.
Proof.
  intros Hc. apply eq_None_not_Some. rewrite <-(probe_alive_run frames). intros Ha.
  revert s scratch Hc Ha. induction bs as [|b bs IH]; intros s scratch; simpl; [done|].
  destruct (sm_step s (head scratch) b); simpl; eauto; done.
Qed.

Section laws.
Context (frames : list F) `{!PopHasFrame S F, !AmbientBlind S F frames}.

(** A step that lives over a scratch stack is the same step over the scratch
    with anything below it. *)
Lemma step1_ambient s scratch amb b s' scratch' :
  Forall (λ f, f ∈ frames) amb →
  step1 (s, scratch) b = Some (s', scratch') →
  step1 (s, scratch ++ amb) b = Some (s', scratch' ++ amb).
Proof.
  intros Hamb. unfold step1; simpl. destruct scratch as [|f scratch]; simpl.
  - destruct amb as [|f amb]; simpl; [by destruct (sm_step s None b); intros; simplify_eq|].
    apply Forall_cons in Hamb as [Hf _].
    pose proof (ambient_blind s f b Hf) as Hb. pose proof (pop_has_frame s b) as Hp.
    destruct (sm_step s None b); intros; simplify_eq/=; try rewrite Hb; try done.
    by destruct (Hp s').
  - by destruct (sm_step s (Some f) b); intros; simplify_eq.
Qed.

Lemma run_ambient s scratch amb bs s' scratch' :
  Forall (λ f, f ∈ frames) amb →
  run (s, scratch) bs = Some (s', scratch') →
  run (s, scratch ++ amb) bs = Some (s', scratch' ++ amb).
Proof.
  intros Hamb. revert s scratch. induction bs as [|b bs IH]; intros s scratch; simpl.
  - by intros [= -> ->].
  - destruct (step1 (s, scratch) b) as [[s1 scr1]|] eqn:E; [|done].
    rewrite (step1_ambient _ _ _ _ _ _ Hamb E). apply IH.
Qed.

(** Context independence: a token that survives a probe over its own scratch
    survives over every ambient stack. *)
Lemma probe_alive_everywhere s scratch amb bs :
  alive (probe_from frames s scratch bs) = true →
  Forall (λ f, f ∈ frames) amb →
  is_Some (run (s, scratch ++ amb) bs).
Proof.
  rewrite probe_alive_run. intros [[s' scratch'] Hr] Hamb.
  by rewrite (run_ambient _ _ _ _ _ _ Hamb Hr).
Qed.

(** Outright death: a token that dies without consulting the ambient stack
    dies over every ambient stack drawn from the alphabet. *)
Lemma probe_dead_everywhere s scratch amb bs :
  alive (probe_from frames s scratch bs) = false →
  consulted_ambient (probe_from frames s scratch bs) = false →
  Forall (λ f, f ∈ frames) amb →
  run (s, scratch ++ amb) bs = None.
Proof.
  revert s scratch. induction bs as [|b bs IH]; intros s scratch; simpl; [done|].
  intros Ha Hc Hamb.
  destruct (step1 (s, scratch) b) as [[s1 scr1]|] eqn:E.
  { rewrite (step1_ambient _ _ amb _ _ _ Hamb E). revert E Ha Hc. unfold step1; simpl.
    destruct (sm_step s (head scratch) b) eqn:Es; intros; simplify_eq; by apply IH. }
  revert E Ha Hc. unfold step1; simpl.
  destruct (sm_step s (head scratch) b) eqn:Es; intros E Ha Hc; try done.
  destruct scratch as [|f scratch]; simpl in *; [|by rewrite Es].
  destruct amb as [|f amb]; simpl; [by rewrite Es|].
  apply Forall_cons in Hamb as [Hf _].
  assert (is_dead (sm_step s (Some f) b) = true) as Hd.
  { apply not_false_iff_true. intros Hd. apply not_true_iff_false in Hc. apply Hc.
    apply existsb_exists. exists f. rewrite Hd. split; [|done]. by apply list_elem_of_In. }
  by destruct (sm_step s (Some f) b).
Qed.
End laws.
End machine.
