(* ===== verification/PdaState.v ===== *)
(** * The states, frames and character classes of the byte automaton

    The data of [grammar/pda.rs]: the [State] and [Frame] enums with their
    names, dense indices and classifications, and the byte classes the
    transition function tests.  The two [InStrLit]/[InRelColStrLit]
    configurations of the code are one constructor with a flag here, as there,
    and take two indices each. *)

From S2P Require Import Prelude StackMachine.
Open Scope u8_scope.

(** ** States *)

Inductive State : Set :=
| Start
| ExpectSource
| AfterBraceOpen
| BlockStmt
| BlockStmtClose
| InSourceIdent
| SourceColon
| SourceColon2
| SourceDash
| LetL
| LetLe
| LetLet
| ExpectBinder
| InBinder
| AfterBinder
| InMultiplicity
| ExpectBraceBinder
| AfterColonWs
| ExpectValue
| ExpectValueReq
| AfterValue
| AfterName
| AfterMemberName
| AfterStrLit
| InIdent
| InMemberIdent
| SawNumSign
| InNumberInt
| NeedFracDigit
| InNumberFrac
| SawExp
| NeedExpDigit
| InExp
| InStrLit (escaped : bool)
| SawPercent
| InDateLit
| DateSep
| InDateTime
| DateTimeSep
| DateFrac
| InDateFrac
| MilestoneL
| MilestoneLa
| MilestoneLat
| MilestoneLate
| MilestoneLates
| InMilestoneLit
| AfterDollar
| AfterDot
| AfterArrow
| AfterColon
| AfterValueColon
| AfterColon2
| InBinderType
| AfterBinderType
| BinderTypeColon
| BinderTypeColon2
| InBinderTypePath
| AfterBinderTypePath
| ExpectBinderMult
| InBinderMult
| AfterBinderMultToken
| AfterBinderMult
| ExpectLambdaBody
| SawDash
| SawPipe
| SawValuePipe
| SawEq
| SawBang
| SawGt
| SawLt
| SawAmp
| SawTilde
| ExpectBinderValue
| InBinderValueIdent
| ExpectBinderCallClose
| InRelColIdent
| InRelColStrLit (escaped : bool)
| AfterRelColName
| ExpectRelColSpec
| ExpectRelColSpecReq
| AfterRelColColon
| InRelColLambdaBinder
| AfterRelColLambdaBinder
| InArrowIdent
| AfterArrowName
| InRelAggReduceBinder
| AfterRelAggReduceBinder.

#[global] Instance State_eq_dec : EqDecision State.
Proof. solve_decision. Defined.

(** [State::name]. *)
Definition State_name (s : State) : string :=
  match s with
  | Start => "Start"
  | ExpectSource => "ExpectSource"
  | AfterBraceOpen => "AfterBraceOpen"
  | BlockStmt => "BlockStmt"
  | BlockStmtClose => "BlockStmtClose"
  | InSourceIdent => "InSourceIdent"
  | SourceColon => "SourceColon"
  | SourceColon2 => "SourceColon2"
  | SourceDash => "SourceDash"
  | LetL => "LetL"
  | LetLe => "LetLe"
  | LetLet => "LetLet"
  | ExpectBinder => "ExpectBinder"
  | InBinder => "InBinder"
  | AfterBinder => "AfterBinder"
  | ExpectBinderValue => "ExpectBinderValue"
  | InBinderValueIdent => "InBinderValueIdent"
  | ExpectBinderCallClose => "ExpectBinderCallClose"
  | InMultiplicity => "InMultiplicity"
  | ExpectBraceBinder => "ExpectBraceBinder"
  | AfterColonWs => "AfterColonWs"
  | ExpectValue => "ExpectValue"
  | ExpectValueReq => "ExpectValueReq"
  | AfterValue => "AfterValue"
  | AfterName => "AfterName"
  | AfterMemberName => "AfterMemberName"
  | AfterStrLit => "AfterStrLit"
  | InIdent => "InIdent"
  | InMemberIdent => "InMemberIdent"
  | SawNumSign => "SawNumSign"
  | InNumberInt => "InNumberInt"
  | NeedFracDigit => "NeedFracDigit"
  | InNumberFrac => "InNumberFrac"
  | SawExp => "SawExp"
  | NeedExpDigit => "NeedExpDigit"
  | InExp => "InExp"
  | InStrLit false => "InStrLit"
  | InStrLit true => "InStrLit(pendingQuote)"
  | SawPercent => "SawPercent"
  | InDateLit => "InDateLit"
  | DateSep => "DateSep"
  | InDateTime => "InDateTime"
  | DateTimeSep => "DateTimeSep"
  | DateFrac => "DateFrac"
  | InDateFrac => "InDateFrac"
  | MilestoneL => "MilestoneL"
  | MilestoneLa => "MilestoneLa"
  | MilestoneLat => "MilestoneLat"
  | MilestoneLate => "MilestoneLate"
  | MilestoneLates => "MilestoneLates"
  | InMilestoneLit => "InMilestoneLit"
  | AfterDollar => "AfterDollar"
  | AfterDot => "AfterDot"
  | AfterArrow => "AfterArrow"
  | AfterColon => "AfterColon"
  | AfterValueColon => "AfterValueColon"
  | AfterColon2 => "AfterColon2"
  | InBinderType => "InBinderType"
  | AfterBinderType => "AfterBinderType"
  | BinderTypeColon => "BinderTypeColon"
  | BinderTypeColon2 => "BinderTypeColon2"
  | InBinderTypePath => "InBinderTypePath"
  | AfterBinderTypePath => "AfterBinderTypePath"
  | ExpectBinderMult => "ExpectBinderMult"
  | InBinderMult => "InBinderMult"
  | AfterBinderMultToken => "AfterBinderMultToken"
  | AfterBinderMult => "AfterBinderMult"
  | ExpectLambdaBody => "ExpectLambdaBody"
  | SawDash => "SawDash"
  | SawPipe => "SawPipe"
  | SawValuePipe => "SawValuePipe"
  | SawEq => "SawEq"
  | SawBang => "SawBang"
  | SawGt => "SawGt"
  | SawLt => "SawLt"
  | SawAmp => "SawAmp"
  | SawTilde => "SawTilde"
  | InRelColIdent => "InRelColIdent"
  | InRelColStrLit false => "InRelColStrLit"
  | InRelColStrLit true => "InRelColStrLit(pendingQuote)"
  | AfterRelColName => "AfterRelColName"
  | ExpectRelColSpec => "ExpectRelColSpec"
  | ExpectRelColSpecReq => "ExpectRelColSpecReq"
  | AfterRelColColon => "AfterRelColColon"
  | InRelColLambdaBinder => "InRelColLambdaBinder"
  | AfterRelColLambdaBinder => "AfterRelColLambdaBinder"
  | InArrowIdent => "InArrowIdent"
  | AfterArrowName => "AfterArrowName"
  | InRelAggReduceBinder => "InRelAggReduceBinder"
  | AfterRelAggReduceBinder => "AfterRelAggReduceBinder"
  end.

(** [State::index], the key of the per-state mask cache. *)
Definition index (s : State) : nat :=
  match s with
  | Start => 0
  | ExpectSource => 1
  | AfterBraceOpen => 2
  | BlockStmt => 3
  | BlockStmtClose => 4
  | InSourceIdent => 5
  | SourceColon => 6
  | SourceColon2 => 7
  | SourceDash => 8
  | LetL => 9
  | LetLe => 10
  | LetLet => 11
  | ExpectBinder => 12
  | InBinder => 13
  | AfterBinder => 14
  | InMultiplicity => 15
  | ExpectBraceBinder => 16
  | AfterColonWs => 17
  | ExpectValue => 18
  | ExpectValueReq => 19
  | AfterValue => 20
  | InIdent => 21
  | SawNumSign => 22
  | InNumberInt => 23
  | NeedFracDigit => 24
  | InNumberFrac => 25
  | InStrLit false => 26
  | InStrLit true => 27
  | SawPercent => 28
  | InDateLit => 29
  | AfterDollar => 30
  | AfterDot => 31
  | AfterArrow => 32
  | AfterColon => 33
  | AfterColon2 => 34
  | SawDash => 35
  | SawPipe => 36
  | SawEq => 37
  | SawBang => 38
  | SawGt => 39
  | SawLt => 40
  | SawAmp => 41
  | InMilestoneLit => 42
  | SawTilde => 43
  | SawExp => 44
  | NeedExpDigit => 45
  | InExp => 46
  | AfterName => 47
  | MilestoneL => 48
  | MilestoneLa => 49
  | MilestoneLat => 50
  | MilestoneLate => 51
  | MilestoneLates => 52
  | InBinderType => 53
  | AfterBinderType => 54
  | BinderTypeColon => 55
  | BinderTypeColon2 => 56
  | ExpectBinderMult => 57
  | InBinderMult => 58
  | AfterBinderMultToken => 59
  | AfterBinderMult => 60
  | ExpectLambdaBody => 61
  | AfterMemberName => 62
  | InMemberIdent => 63
  | AfterStrLit => 64
  | DateSep => 65
  | InDateTime => 66
  | DateTimeSep => 67
  | DateFrac => 68
  | InDateFrac => 69
  | SawValuePipe => 70
  | InBinderTypePath => 71
  | AfterBinderTypePath => 72
  | AfterValueColon => 73
  | ExpectBinderValue => 74
  | InBinderValueIdent => 75
  | ExpectBinderCallClose => 76
  | InRelColIdent => 77
  | InRelColStrLit false => 78
  | InRelColStrLit true => 79
  | AfterRelColName => 80
  | ExpectRelColSpec => 81
  | ExpectRelColSpecReq => 82
  | AfterRelColColon => 83
  | InRelColLambdaBinder => 84
  | AfterRelColLambdaBinder => 85
  | InArrowIdent => 86
  | AfterArrowName => 87
  | InRelAggReduceBinder => 88
  | AfterRelAggReduceBinder => 89
  end.

(** [State::COUNT]. *)
Definition COUNT : nat := 90.

(** [ALL_STATES]. *)
Definition ALL_STATES : list State :=
  [
   Start; ExpectSource; AfterBraceOpen; BlockStmt; BlockStmtClose; InSourceIdent;
   SourceColon; SourceColon2; SourceDash; LetL; LetLe; LetLet; ExpectBinder; InBinder;
   AfterBinder; ExpectBinderValue; InBinderValueIdent; ExpectBinderCallClose;
   InMultiplicity; ExpectBraceBinder; AfterColonWs; ExpectValue; ExpectValueReq;
   AfterValue; AfterName; AfterMemberName; AfterStrLit; InIdent; InMemberIdent; SawNumSign;
   InNumberInt; NeedFracDigit; InNumberFrac; SawExp; NeedExpDigit; InExp; InStrLit false;
   InStrLit true; SawPercent; InDateLit; DateSep; InDateTime; DateTimeSep; DateFrac;
   InDateFrac; MilestoneL; MilestoneLa; MilestoneLat; MilestoneLate; MilestoneLates;
   InMilestoneLit; AfterDollar; AfterDot; AfterArrow; AfterColon; AfterValueColon;
   AfterColon2; InBinderType; AfterBinderType; BinderTypeColon; BinderTypeColon2;
   InBinderTypePath; AfterBinderTypePath; ExpectBinderMult; InBinderMult;
   AfterBinderMultToken; AfterBinderMult; ExpectLambdaBody; SawDash; SawPipe; SawValuePipe;
   SawEq; SawBang; SawGt; SawLt; SawAmp; SawTilde; InRelColIdent; InRelColStrLit false;
   InRelColStrLit true; AfterRelColName; ExpectRelColSpec; ExpectRelColSpecReq;
   AfterRelColColon; InRelColLambdaBinder; AfterRelColLambdaBinder; InArrowIdent;
   AfterArrowName; InRelAggReduceBinder; AfterRelAggReduceBinder
  ].

(** [State::completes_a_term]. *)
Definition completes_a_term (s : State) : bool :=
  match s with
  | AfterValue | AfterName | AfterMemberName | AfterStrLit | AfterRelColName => true
  | _ => false
  end.

(** [State::opens_refvar_sigil]. *)
Definition opens_refvar_sigil (s : State) : bool :=
  match s with
  | ExpectValue | ExpectValueReq | ExpectLambdaBody | BlockStmt | BlockStmtClose
  | SawDash | SawPipe | SawLt | SawGt => true
  | _ => false
  end.

(** [LexKind]: the lexeme classes a partial query token can be inside. *)
Inductive LexKind : Set := Ident | Number | Str | Date.

#[global] Instance LexKind_eq_dec : EqDecision LexKind.
Proof. solve_decision. Defined.

(** [State::lexeme_kind]. *)
Definition lexeme_kind (s : State) : option LexKind :=
  match s with
  | InIdent | InMemberIdent | InSourceIdent | InBinderValueIdent | InBinder
  | InBinderType | SourceColon | SourceColon2 | BinderTypeColon | BinderTypeColon2
  | InBinderTypePath | LetL | LetLe | LetLet | InRelColIdent | InRelColLambdaBinder
  | InArrowIdent | InRelAggReduceBinder => Some Ident
  | SawNumSign | InNumberInt | NeedFracDigit | InNumberFrac | SawExp | NeedExpDigit
  | InExp => Some Number
  | SawPercent | InDateLit | DateSep | InDateTime | DateTimeSep | DateFrac | InDateFrac
  | MilestoneL | MilestoneLa | MilestoneLat | MilestoneLate | MilestoneLates
  | InMilestoneLit => Some Date
  | InStrLit _ | InRelColStrLit _ => Some Str
  | _ => None
  end.

(** ** Frames *)

Inductive Frame : Set := Paren | Group | Bracket | Brace | BraceLambda | RelColBracket.

#[global] Instance Frame_eq_dec : EqDecision Frame.
Proof. solve_decision. Defined.

(** [ALL_FRAMES], the whole stack alphabet. *)
Definition ALL_FRAMES : list Frame :=
  [Paren; Group; Bracket; Brace; BraceLambda; RelColBracket].

(** [Frame::name]. *)
Definition Frame_name (f : Frame) : string :=
  match f with
  | Paren => "Paren"
  | Group => "Group"
  | Bracket => "Bracket"
  | Brace => "Brace"
  | BraceLambda => "BraceLambda"
  | RelColBracket => "RelColBracket"
  end.

(** ** Byte classes *)

Definition WS : list byte := [" "; x09; x0a; x0d]%byte.
Definition VALUE_BOUNDARY : byte := " "%byte.
Definition MILESTONE_LATEST : list byte := ["l"; "a"; "t"; "e"; "s"; "t"]%byte.
Definition TERM_END_BYTES : list byte := [")"; ","; ";"; "]"; "}"]%byte.

Definition in_range (lo hi b : byte) : bool :=
  ((Byte.to_N lo <=? Byte.to_N b)%N && (Byte.to_N b <=? Byte.to_N hi)%N)%bool.

(** [u8::is_ascii_digit], [is_ascii_alphabetic] and [is_ascii_alphanumeric]. *)
Definition is_ascii_digit (b : byte) : bool := in_range "0" "9" b.
Definition is_ascii_alphabetic (b : byte) : bool := in_range "A" "Z" b || in_range "a" "z" b.
Definition is_ascii_alphanumeric (b : byte) : bool := is_ascii_alphabetic b || is_ascii_digit b.

Definition is_ws (b : byte) : bool := existsb (Byte.eqb b) WS.
Definition is_ident_start (b : byte) : bool := is_ascii_alphabetic b || (b =? "_").
Definition is_ident_tail (b : byte) : bool := is_ascii_alphanumeric b || (b =? "_").

(** ** Enumeration lemmas *)

Lemma ALL_STATES_complete (s : State) : In s ALL_STATES.
Proof. destruct s as []; try destruct escaped; vm_compute; tauto. Qed.

Lemma ALL_FRAMES_complete (f : Frame) : f ∈ ALL_FRAMES.
Proof. destruct f; set_solver. Qed.

(** Every stack top: empty, or one of the frames. *)
Definition ALL_TOPS : list (option Frame) := None :: map Some ALL_FRAMES.

Lemma ALL_TOPS_complete (t : option Frame) : In t ALL_TOPS.
Proof. destruct t as [[]|]; vm_compute; tauto. Qed.

(** Decide a property of every transition by running it on all of them. *)
Definition forall_transitions (P : State → option Frame → byte → bool) : bool :=
  forallb (λ s, forallb (λ t, forallb (P s t) all_bytes) ALL_TOPS) ALL_STATES.

Lemma forall_transitions_spec (P : State → option Frame → byte → bool) :
  forall_transitions P = true → ∀ s t b, P s t b = true.
Proof.
  unfold forall_transitions. rewrite forallb_forall. intros H s t b.
  specialize (H s (ALL_STATES_complete s)). rewrite forallb_forall in H.
  specialize (H t (ALL_TOPS_complete t)). by apply forallb_bytes.
Qed.

(** ** Properties of the enumeration *)

(** The first enumerated state with the key of [s]; a key that always finds
    [s] itself is injective. *)
Definition find_key {K} `{EqDecision K} (key : State → K) (s : State) : option State :=
  snd <$> list_find (λ x, key x = key s) ALL_STATES.

Lemma find_key_injective {K} `{EqDecision K} (key : State → K) :
  (∀ s, find_key key s = Some s) → ∀ s1 s2, key s1 = key s2 → s1 = s2.
Proof.
  intros Hf s1 s2 H. pose proof (Hf s1) as H1. unfold find_key in *.
  rewrite H, (Hf s2) in H1. by simplify_eq.
Qed.

(** Run a closed equation at each of the enumerated states. *)
Ltac each_state :=
  intros s; destruct s; repeat match goal with b : bool |- _ => destruct b end;
  vm_compute; reflexivity.

Lemma index_surjective i : i < COUNT → ∃ s, index s = i.
Proof.
  intros Hi.
  assert (forallb (λ j, existsb (λ s, (index s =? j)%nat) ALL_STATES) (seq 0 COUNT) = true)
    as Hall by (vm_compute; reflexivity).
  rewrite forallb_forall in Hall. specialize (Hall i).
  rewrite in_seq, existsb_exists in Hall.
  destruct Hall as (s & _ & Hs); [lia|]. exists s. by apply Nat.eqb_eq.
Qed.

Lemma index_is_bijection :
  (∀ s, index s < COUNT) ∧
  (∀ s1 s2, index s1 = index s2 → s1 = s2) ∧
  (∀ i, i < COUNT → ∃ s, index s = i).
Proof.
  split_and!.
  - intros s. apply Nat.ltb_lt. revert s. each_state.
  - apply find_key_injective. each_state.
  - apply index_surjective.
Qed.

(** No two states, and no two frames, share a name in an error. *)
Theorem names_injective :
  (∀ s1 s2, State_name s1 = State_name s2 → s1 = s2) ∧
  (∀ f1 f2, Frame_name f1 = Frame_name f2 → f1 = f2).
Proof.
  split.
  - apply find_key_injective. each_state.
  - by intros [] [].
Qed.

(** The map from states to cache slots is a bijection onto [0..COUNT]. *)
Theorem index_bijection :
  (∀ s, index s < COUNT) ∧
  (∀ s1 s2, index s1 = index s2 → s1 = s2) ∧
  (∀ i, i < COUNT → ∃ s, index s = i).
Proof. apply index_is_bijection. Qed.
