(* ===== verification/PdaStep.v ===== *)
(** * The transition function of the byte automaton

    Every [step_*] function of [grammar/pda.rs], then [step] itself.  A Rust
    [match] on the byte is the same chain of tests in the same order.  The
    functions that re-dispatch a byte call back into [step]; they are written
    over that callback, [step] ties the knot, and [step_unfold] proves that the
    result satisfies the code's own recursive definition. *)

From S2P Require Import Prelude StackMachine PdaState.
Open Scope u8_scope.

(** ** Frame classes and closers *)

(** [separates_elements]. *)
Definition separates_elements (top : option Frame) : bool :=
  match top with
  | Some (Paren | Bracket | BraceLambda | RelColBracket) => true
  | _ => false
  end.

(** [holds_a_lambda_slot]. *)
Definition holds_a_lambda_slot (top : option Frame) : bool :=
  separates_elements top || match top with Some Group => true | _ => false end.

(** [close_to]. *)
Definition close_to (top : option Frame) (b : byte) (resume : State) : Step State Frame :=
  match top with
  | Some (Paren | Group) => if b =? ")" then Pop resume else Dead
  | Some (Bracket | RelColBracket) => if b =? "]" then Pop resume else Dead
  | Some (Brace | BraceLambda) => if b =? "}" then Pop resume else Dead
  | None => Dead
  end.

(** [close]. *)
Definition close (top : option Frame) (b : byte) : Step State Frame := close_to top b AfterValue.

Definition is_closer (b : byte) : bool := (b =? ")") || (b =? "]") || (b =? "}").

(** ** Shared hub bodies *)

(** [value_position]. *)
Definition value_position (top : option Frame) (b : byte) (allow_close : bool)
    : Step State Frame :=
  let ws_state := if allow_close then ExpectValue else ExpectValueReq in
  if is_ws b then Next ws_state
  else if is_ident_start b then Next InIdent
  else if is_ascii_digit b then Next InNumberInt
  else if b =? "-" then Next SawNumSign
  else if b =? "." then Next NeedFracDigit
  else if b =? "'" then Next (InStrLit false)
  else if b =? "%" then Next SawPercent
  else if b =? "$" then Next AfterDollar
  else if b =? "~" then Next SawTilde
  else if b =? "(" then Push Group ExpectValue
  else if b =? "[" then Push Bracket ExpectValue
  else if b =? "{" then Push BraceLambda ExpectBraceBinder
  else if b =? "|" then Next ExpectValueReq
  else if b =? "!" then Next ExpectValueReq
  else if (b =? "*") && allow_close && bool_decide (top = Some Bracket) then Next InMultiplicity
  else if is_closer b && allow_close then close top b
  else Dead.

(** [rel_col_spec_position]. *)
Definition rel_col_spec_position (top : option Frame) (b : byte) (allow_close : bool)
    : Step State Frame :=
  let ws_state := if allow_close then ExpectRelColSpec else ExpectRelColSpecReq in
  if is_ws b then Next ws_state
  else if is_ident_start b then Next InRelColIdent
  else if b =? "'" then Next (InRelColStrLit false)
  else if (b =? "]") && allow_close then close top b
  else Dead.

Definition step_expect_rel_col_spec (top : option Frame) (b : byte) : Step State Frame :=
  rel_col_spec_position top b true.

Definition step_expect_rel_col_spec_req (top : option Frame) (b : byte) : Step State Frame :=
  rel_col_spec_position top b false.

(** [block_stmt]. *)
Definition block_stmt (top : option Frame) (b : byte) (allow_close : bool) : Step State Frame :=
  let ws_state := if allow_close then BlockStmtClose else BlockStmt in
  if is_ws b then Next ws_state
  else if b =? "l" then Next LetL
  else if is_ident_start b then Next InSourceIdent
  else if b =? "$" then Next AfterDollar
  else if (b =? "}") && allow_close then close top b
  else Dead.

(** ** Query openings *)

Definition step_start (b : byte) : Step State Frame :=
  if is_ws b then Next Start
  else if b =? "|" then Next ExpectSource
  else if b =? "{" then Push Brace AfterBraceOpen
  else Dead.

Definition step_expect_source (b : byte) : Step State Frame :=
  if is_ws b then Next ExpectSource
  else if is_ident_start b then Next InSourceIdent
  else Dead.

Definition step_after_brace_open (b : byte) : Step State Frame :=
  if is_ws b then Next AfterBraceOpen
  else if b =? "|" then Next BlockStmt
  else Dead.

Definition step_block_stmt (top : option Frame) (b : byte) : Step State Frame :=
  block_stmt top b false.

Definition step_block_stmt_close (top : option Frame) (b : byte) : Step State Frame :=
  block_stmt top b true.

Definition step_expect_value (top : option Frame) (b : byte) : Step State Frame :=
  value_position top b true.

Definition step_expect_value_req (top : option Frame) (b : byte) : Step State Frame :=
  value_position top b false.

(** ** Completed terms *)

Definition step_after_value (top : option Frame) (b : byte) : Step State Frame :=
  if is_ws b then Next AfterValue
  else if b =? "-" then Next SawDash
  else if b =? ">" then Next SawGt
  else if b =? "<" then Next SawLt
  else if b =? "=" then Next SawEq
  else if b =? "!" then Next SawBang
  else if b =? "&" then Next SawAmp
  else if b =? "|" then Next SawValuePipe
  else if (b =? "+") || (b =? "*") || (b =? "/") then Next ExpectValueReq
  else if b =? "." then Next AfterDot
  else if (b =? ":") && holds_a_lambda_slot top then Next AfterValueColon
  else if (b =? ",") && bool_decide (top = Some RelColBracket) then Next ExpectRelColSpecReq
  else if (b =? ",") && separates_elements top then Next ExpectValueReq
  else if (b =? ";") && bool_decide (top = Some Brace) then Next BlockStmtClose
  else if is_closer b then close top b
  else Dead.

Definition step_after_name (top : option Frame) (b : byte) : Step State Frame :=
  if is_ws b then Next AfterName
  else if b =? "(" then Push Paren ExpectValue
  else if b =? "|" then Next SawPipe
  else if b =? ":" then Next AfterColon
  else step_after_value top b.

Definition step_after_member_name (top : option Frame) (b : byte) : Step State Frame :=
  if is_ws b then Next AfterMemberName
  else if b =? "(" then Push Paren ExpectValue
  else step_after_value top b.

Definition step_after_arrow_name (b : byte) : Step State Frame :=
  if is_ws b then Next AfterArrowName
  else if b =? "(" then Push Paren ExpectValue
  else Dead.

Definition step_after_str_lit (top : option Frame) (b : byte) : Step State Frame :=
  if is_ws b then Next AfterStrLit
  else if b =? "|" then Next SawPipe
  else if b =? ":" then Next AfterColon
  else step_after_value top b.

(** ** Relation columns *)

Definition step_after_rel_col_name (top : option Frame) (b : byte) : Step State Frame :=
  if is_ws b then Next AfterRelColName
  else if b =? ":" then Next AfterRelColColon
  else if b =? "|" then Dead
  else step_after_value top b.

Definition step_after_rel_col_colon (b : byte) : Step State Frame :=
  if is_ws b then Next AfterRelColColon
  else if b =? "{" then Push BraceLambda ExpectBraceBinder
  else if is_ident_start b then Next InRelColLambdaBinder
  else Dead.

Definition step_after_rel_col_lambda_binder (b : byte) : Step State Frame :=
  if is_ws b then Next AfterRelColLambdaBinder
  else if b =? "|" then Next SawPipe
  else Dead.

Definition step_in_rel_col_lambda_binder (b : byte) : Step State Frame :=
  if is_ident_tail b then Next InRelColLambdaBinder else step_after_rel_col_lambda_binder b.

Definition step_after_value_colon (b : byte) : Step State Frame :=
  if is_ws b then Next AfterValueColon
  else if is_ident_start b then Next InRelAggReduceBinder
  else Dead.

Definition step_after_rel_agg_reduce_binder (b : byte) : Step State Frame :=
  if is_ws b then Next AfterRelAggReduceBinder
  else if b =? "|" then Next SawPipe
  else Dead.

Definition step_in_rel_agg_reduce_binder (b : byte) : Step State Frame :=
  if is_ident_tail b then Next InRelAggReduceBinder else step_after_rel_agg_reduce_binder b.

(** ** Sources and [let] binders *)

(** [source_ident]. *)
Definition source_ident (b : byte) (allow_call : bool) : Step State Frame :=
  let self_state := if allow_call then InBinderValueIdent else InSourceIdent in
  if is_ident_tail b then Next self_state
  else if b =? "." then Next AfterDot
  else if b =? "-" then Next SourceDash
  else if b =? ":" then Next SourceColon
  else if (b =? "(") && allow_call then Push Paren ExpectBinderCallClose
  else Dead.

Definition step_in_source_ident (b : byte) : Step State Frame := source_ident b false.

Definition step_in_binder_value_ident (b : byte) : Step State Frame := source_ident b true.

Definition step_source_colon (b : byte) : Step State Frame :=
  if b =? ":" then Next SourceColon2 else Dead.

Definition step_source_colon2 (b : byte) : Step State Frame :=
  if is_ident_start b then Next InSourceIdent else Dead.

Definition step_source_dash (b : byte) : Step State Frame :=
  if b =? ">" then Next AfterArrow else Dead.

Definition step_expect_binder (b : byte) : Step State Frame :=
  if is_ws b then Next ExpectBinder
  else if is_ident_start b then Next InBinder
  else Dead.

Definition step_in_binder (b : byte) : Step State Frame :=
  if is_ident_tail b then Next InBinder
  else if is_ws b then Next AfterBinder
  else if b =? "=" then Next ExpectBinderValue
  else Dead.

Definition step_after_binder (b : byte) : Step State Frame :=
  if is_ws b then Next AfterBinder
  else if b =? "=" then Next ExpectBinderValue
  else Dead.

Definition step_expect_binder_value (b : byte) : Step State Frame :=
  if is_ws b then Next ExpectBinderValue
  else if is_ident_start b then Next InBinderValueIdent
  else if b =? "%" then Next SawPercent
  else Dead.

Definition step_expect_binder_call_close (top : option Frame) (b : byte) : Step State Frame :=
  if is_ws b then Next ExpectBinderCallClose
  else if b =? ")" then close top b
  else Dead.

(** ** Multiplicities and brace lambdas *)

Definition step_in_multiplicity (top : option Frame) (b : byte) : Step State Frame :=
  if b =? "]" then close top b else Dead.

Definition step_expect_brace_binder (b : byte) : Step State Frame :=
  if is_ws b then Next ExpectBraceBinder
  else if is_ident_start b then Next InIdent
  else Dead.

(** ** Number literals that do not close *)

Definition step_saw_num_sign (b : byte) : Step State Frame :=
  if is_ascii_digit b then Next InNumberInt
  else if b =? "." then Next NeedFracDigit
  else Dead.

Definition step_need_frac_digit (b : byte) : Step State Frame :=
  if is_ascii_digit b then Next InNumberFrac else Dead.

Definition step_saw_exp (b : byte) : Step State Frame :=
  if (b =? "+") || (b =? "-") then Next NeedExpDigit
  else if is_ascii_digit b then Next InExp
  else Dead.

Definition step_need_exp_digit (b : byte) : Step State Frame :=
  if is_ascii_digit b then Next InExp else Dead.

(** ** Dates and milestones *)

(** [MILESTONE_LATEST[i]]. *)
Definition milestone_byte (i : nat) : byte := nth i MILESTONE_LATEST x00.

Definition step_saw_percent (b : byte) : Step State Frame :=
  if is_ascii_digit b then Next InDateLit
  else if b =? milestone_byte 0 then Next MilestoneL
  else Dead.

(** [milestone_link]. *)
Definition milestone_link (expected : byte) (next : State) (b : byte) : Step State Frame :=
  if b =? expected then Next next else Dead.

(** [date_field]. *)
Definition date_field (next : State) (b : byte) : Step State Frame :=
  if is_ascii_digit b then Next next else Dead.

Definition step_date_sep (b : byte) : Step State Frame := date_field InDateLit b.
Definition step_date_time_sep (b : byte) : Step State Frame := date_field InDateTime b.
Definition step_date_frac (b : byte) : Step State Frame := date_field InDateFrac b.

(** ** Navigation *)

Definition step_after_dollar (b : byte) : Step State Frame :=
  if is_ident_start b then Next InMemberIdent else Dead.

Definition step_after_dot (b : byte) : Step State Frame :=
  if is_ws b then Next AfterDot
  else if is_ident_start b then Next InMemberIdent
  else if b =? "'" then Next (InStrLit false)
  else Dead.

Definition step_after_arrow (b : byte) : Step State Frame :=
  if is_ws b then Next AfterArrow
  else if is_ident_start b then Next InArrowIdent
  else Dead.

(** ** Typed binders *)

Definition step_after_colon (top : option Frame) (b : byte) : Step State Frame :=
  if b =? ":" then Next AfterColon2
  else if negb (holds_a_lambda_slot top) then Dead
  else if is_ws b then Next AfterColonWs
  else if is_ident_start b then Next InBinderType
  else if b =? "{" then Push BraceLambda ExpectBraceBinder
  else Dead.

Definition step_after_colon_ws (b : byte) : Step State Frame :=
  if is_ws b then Next AfterColonWs
  else if is_ident_start b then Next InBinderType
  else if b =? "{" then Push BraceLambda ExpectBraceBinder
  else Dead.

Definition step_after_colon2 (b : byte) : Step State Frame :=
  if is_ident_start b then Next InIdent else Dead.

Definition step_in_binder_type (b : byte) : Step State Frame :=
  if is_ident_tail b then Next InBinderType
  else if b =? ":" then Next BinderTypeColon
  else if is_ws b then Next AfterBinderType
  else if b =? "[" then Push Bracket ExpectBinderMult
  else if b =? "|" then Next ExpectLambdaBody
  else Dead.

Definition step_after_binder_type (b : byte) : Step State Frame :=
  if is_ws b then Next AfterBinderType
  else if b =? ":" then Next BinderTypeColon
  else if b =? "[" then Push Bracket ExpectBinderMult
  else if b =? "|" then Next ExpectLambdaBody
  else Dead.

Definition step_binder_type_colon (b : byte) : Step State Frame :=
  if b =? ":" then Next BinderTypeColon2 else Dead.

Definition step_binder_type_colon2 (b : byte) : Step State Frame :=
  if is_ident_start b then Next InBinderTypePath else Dead.

Definition step_in_binder_type_path (b : byte) : Step State Frame :=
  if is_ident_tail b then Next InBinderTypePath
  else if b =? ":" then Next BinderTypeColon
  else if is_ws b then Next AfterBinderTypePath
  else if b =? "[" then Push Bracket ExpectBinderMult
  else Dead.

Definition step_after_binder_type_path (b : byte) : Step State Frame :=
  if is_ws b then Next AfterBinderTypePath
  else if b =? ":" then Next BinderTypeColon
  else if b =? "[" then Push Bracket ExpectBinderMult
  else Dead.

Definition step_expect_binder_mult (b : byte) : Step State Frame :=
  if is_ws b then Next ExpectBinderMult
  else if is_ascii_digit b then Next InBinderMult
  else if b =? "*" then Next AfterBinderMultToken
  else Dead.

Definition step_in_binder_mult (top : option Frame) (b : byte) : Step State Frame :=
  if is_ascii_digit b then Next InBinderMult
  else if is_ws b then Next AfterBinderMultToken
  else if b =? "]" then close_to top b AfterBinderMult
  else Dead.

Definition step_after_binder_mult_token (top : option Frame) (b : byte) : Step State Frame :=
  if is_ws b then Next AfterBinderMultToken
  else if b =? "]" then close_to top b AfterBinderMult
  else Dead.

Definition step_after_binder_mult (top : option Frame) (b : byte) : Step State Frame :=
  if is_ws b then Next AfterBinderMult
  else if b =? "|" then Next ExpectLambdaBody
  else if (b =? ",") && bool_decide (top = Some BraceLambda) then Next ExpectBraceBinder
  else Dead.

(** ** Operators that do not re-dispatch *)

Definition step_saw_value_pipe (b : byte) : Step State Frame :=
  if b =? "|" then Next ExpectValueReq else Dead.

Definition step_saw_eq (b : byte) : Step State Frame :=
  if b =? "=" then Next ExpectValueReq else Dead.

Definition step_saw_bang (b : byte) : Step State Frame :=
  if b =? "=" then Next ExpectValueReq else Dead.

Definition step_saw_amp (b : byte) : Step State Frame :=
  if b =? "&" then Next ExpectValueReq else Dead.

Definition step_saw_tilde (b : byte) : Step State Frame :=
  if b =? "[" then Push RelColBracket ExpectRelColSpec
  else if b =? "'" then Next (InRelColStrLit false)
  else if is_ident_start b then Next InRelColIdent
  else Dead.

(** ** Transitions that hand the byte to another state *)

Section delegation.
(** The code's own [step], called back. *)
Variable step : State → option Frame → byte → Step State Frame.

Definition step_in_ident (top : option Frame) (b : byte) : Step State Frame :=
  if is_ident_tail b then Next InIdent else step AfterName top b.

Definition step_in_member_ident (top : option Frame) (b : byte) : Step State Frame :=
  if is_ident_tail b then Next InMemberIdent else step AfterMemberName top b.

Definition step_in_arrow_ident (top : option Frame) (b : byte) : Step State Frame :=
  if is_ident_tail b then Next InArrowIdent else step AfterArrowName top b.

Definition step_in_rel_col_ident (top : option Frame) (b : byte) : Step State Frame :=
  if is_ident_tail b then Next InRelColIdent else step AfterRelColName top b.

Definition step_in_rel_col_str_lit (escaped : bool) (top : option Frame) (b : byte)
    : Step State Frame :=
  if escaped then
    if b =? "'" then Next (InRelColStrLit false) else step AfterRelColName top b
  else if b =? "'" then Next (InRelColStrLit true)
  else Next (InRelColStrLit false).

Definition step_let_l (top : option Frame) (b : byte) : Step State Frame :=
  if b =? "e" then Next LetLe else step InSourceIdent top b.

Definition step_let_le (top : option Frame) (b : byte) : Step State Frame :=
  if b =? "t" then Next LetLet else step InSourceIdent top b.

Definition step_let_let (top : option Frame) (b : byte) : Step State Frame :=
  if is_ws b then Next ExpectBinder else step InSourceIdent top b.

Definition step_in_number_int (top : option Frame) (b : byte) : Step State Frame :=
  if is_ascii_digit b then Next InNumberInt
  else if b =? "." then Next NeedFracDigit
  else step AfterValue top b.

Definition step_in_number_frac (top : option Frame) (b : byte) : Step State Frame :=
  if is_ascii_digit b then Next InNumberFrac
  else if (b =? "e") || (b =? "E") then Next SawExp
  else step AfterValue top b.

Definition step_in_exp (top : option Frame) (b : byte) : Step State Frame :=
  if is_ascii_digit b then Next InExp else step AfterValue top b.

Definition step_in_str_lit (escaped : bool) (top : option Frame) (b : byte)
    : Step State Frame :=
  if escaped then
    if b =? "'" then Next (InStrLit false) else step AfterStrLit top b
  else if b =? "'" then Next (InStrLit true)
  else Next (InStrLit false).

Definition step_in_date_lit (top : option Frame) (b : byte) : Step State Frame :=
  if is_ascii_digit b then Next InDateLit
  else if (b =? "-") || (b =? "T") then Next DateSep
  else if b =? ":" then Next DateTimeSep
  else step AfterValue top b.

Definition step_in_date_time (top : option Frame) (b : byte) : Step State Frame :=
  if is_ascii_digit b then Next InDateTime
  else if (b =? "-") || (b =? ":") then Next DateTimeSep
  else if b =? "." then Next DateFrac
  else step AfterValue top b.

Definition step_in_date_frac (top : option Frame) (b : byte) : Step State Frame :=
  if is_ascii_digit b then Next InDateFrac else step AfterValue top b.

Definition step_in_milestone_lit (top : option Frame) (b : byte) : Step State Frame :=
  step AfterValue top b.

Definition step_expect_lambda_body (top : option Frame) (b : byte) : Step State Frame :=
  if b =? "|" then Dead else step ExpectValueReq top b.

Definition step_saw_dash (top : option Frame) (b : byte) : Step State Frame :=
  if b =? ">" then Next AfterArrow else step ExpectValueReq top b.

Definition step_saw_pipe (top : option Frame) (b : byte) : Step State Frame :=
  if b =? "|" then Next ExpectValueReq
  else if negb (holds_a_lambda_slot top) then Dead
  else step ExpectValueReq top b.

Definition step_saw_gt (top : option Frame) (b : byte) : Step State Frame :=
  if b =? "=" then Next ExpectValueReq else step ExpectValueReq top b.

Definition step_saw_lt (top : option Frame) (b : byte) : Step State Frame :=
  if b =? "=" then Next ExpectValueReq else step ExpectValueReq top b.

(** The dispatch of [step]. *)
Definition step_body (s : State) (top : option Frame) (b : byte) : Step State Frame :=
  match s with
  | Start => step_start b
  | ExpectSource => step_expect_source b
  | AfterBraceOpen => step_after_brace_open b
  | BlockStmt => step_block_stmt top b
  | BlockStmtClose => step_block_stmt_close top b
  | InSourceIdent => step_in_source_ident b
  | SourceColon => step_source_colon b
  | SourceColon2 => step_source_colon2 b
  | SourceDash => step_source_dash b
  | LetL => step_let_l top b
  | LetLe => step_let_le top b
  | LetLet => step_let_let top b
  | ExpectBinder => step_expect_binder b
  | InBinder => step_in_binder b
  | AfterBinder => step_after_binder b
  | ExpectBinderValue => step_expect_binder_value b
  | InBinderValueIdent => step_in_binder_value_ident b
  | ExpectBinderCallClose => step_expect_binder_call_close top b
  | InMultiplicity => step_in_multiplicity top b
  | ExpectBraceBinder => step_expect_brace_binder b
  | AfterColonWs => step_after_colon_ws b
  | ExpectValue => step_expect_value top b
  | ExpectValueReq => step_expect_value_req top b
  | AfterValue => step_after_value top b
  | AfterName => step_after_name top b
  | AfterMemberName => step_after_member_name top b
  | AfterStrLit => step_after_str_lit top b
  | InIdent => step_in_ident top b
  | InMemberIdent => step_in_member_ident top b
  | SawNumSign => step_saw_num_sign b
  | InNumberInt => step_in_number_int top b
  | NeedFracDigit => step_need_frac_digit b
  | InNumberFrac => step_in_number_frac top b
  | SawExp => step_saw_exp b
  | NeedExpDigit => step_need_exp_digit b
  | InExp => step_in_exp top b
  | InStrLit escaped => step_in_str_lit escaped top b
  | SawPercent => step_saw_percent b
  | InDateLit => step_in_date_lit top b
  | DateSep => step_date_sep b
  | InDateTime => step_in_date_time top b
  | DateTimeSep => step_date_time_sep b
  | DateFrac => step_date_frac b
  | InDateFrac => step_in_date_frac top b
  | MilestoneL => milestone_link (milestone_byte 1) MilestoneLa b
  | MilestoneLa => milestone_link (milestone_byte 2) MilestoneLat b
  | MilestoneLat => milestone_link (milestone_byte 3) MilestoneLate b
  | MilestoneLate => milestone_link (milestone_byte 4) MilestoneLates b
  | MilestoneLates => milestone_link (milestone_byte 5) InMilestoneLit b
  | InMilestoneLit => step_in_milestone_lit top b
  | AfterDollar => step_after_dollar b
  | AfterDot => step_after_dot b
  | AfterArrow => step_after_arrow b
  | AfterColon => step_after_colon top b
  | AfterValueColon => step_after_value_colon b
  | AfterColon2 => step_after_colon2 b
  | InBinderType => step_in_binder_type b
  | AfterBinderType => step_after_binder_type b
  | BinderTypeColon => step_binder_type_colon b
  | BinderTypeColon2 => step_binder_type_colon2 b
  | InBinderTypePath => step_in_binder_type_path b
  | AfterBinderTypePath => step_after_binder_type_path b
  | ExpectBinderMult => step_expect_binder_mult b
  | InBinderMult => step_in_binder_mult top b
  | AfterBinderMultToken => step_after_binder_mult_token top b
  | AfterBinderMult => step_after_binder_mult top b
  | ExpectLambdaBody => step_expect_lambda_body top b
  | SawDash => step_saw_dash top b
  | SawPipe => step_saw_pipe top b
  | SawValuePipe => step_saw_value_pipe b
  | SawEq => step_saw_eq b
  | SawBang => step_saw_bang b
  | SawGt => step_saw_gt top b
  | SawLt => step_saw_lt top b
  | SawAmp => step_saw_amp b
  | SawTilde => step_saw_tilde b
  | InRelColIdent => step_in_rel_col_ident top b
  | InRelColStrLit escaped => step_in_rel_col_str_lit escaped top b
  | AfterRelColName => step_after_rel_col_name top b
  | ExpectRelColSpec => step_expect_rel_col_spec top b
  | ExpectRelColSpecReq => step_expect_rel_col_spec_req top b
  | AfterRelColColon => step_after_rel_col_colon b
  | InRelColLambdaBinder => step_in_rel_col_lambda_binder b
  | AfterRelColLambdaBinder => step_after_rel_col_lambda_binder b
  | InArrowIdent => step_in_arrow_ident top b
  | AfterArrowName => step_after_arrow_name b
  | InRelAggReduceBinder => step_in_rel_agg_reduce_binder b
  | AfterRelAggReduceBinder => step_after_rel_agg_reduce_binder b
  end.
End delegation.

(** [step] with a bound on the number of re-dispatches. *)
Fixpoint step_bounded (fuel : nat) (s : State) (top : option Frame) (b : byte)
    : Step State Frame :=
  match fuel with
  | O => Dead
  | S fuel => step_body (step_bounded fuel) s top b
  end.

(** [step]: no byte is re-dispatched more than once, so two levels do. *)
Definition step (s : State) (top : option Frame) (b : byte) : Step State Frame :=
  step_bounded 2 s top b.

#[global] Arguments step : simpl never.

#[global] Instance pda_machine : StackMachine State Frame := step.

(** Case on the state and unfold the functions that re-dispatch. *)
Ltac solve_dispatch s :=
  destruct s; try reflexivity; simpl;
  unfold step_in_ident, step_in_member_ident, step_in_arrow_ident, step_in_rel_col_ident,
    step_in_rel_col_str_lit, step_let_l, step_let_le, step_let_let, step_in_number_int,
    step_in_number_frac, step_in_exp, step_in_str_lit, step_in_date_lit, step_in_date_time,
    step_in_date_frac, step_in_milestone_lit, step_expect_lambda_body, step_saw_dash,
    step_saw_pipe, step_saw_gt, step_saw_lt, step;
  simpl; reflexivity.

(** The states a transition hands its byte to do not hand it on. *)
Lemma delegates_once (r1 r2 : State → option Frame → byte → Step State Frame) s top b :
  s ∈ [AfterName; AfterMemberName; AfterArrowName; AfterRelColName; AfterStrLit;
       AfterValue; ExpectValueReq; InSourceIdent] →
  step_body r1 s top b = step_body r2 s top b.
Proof. set_unfold. by intros Hs; destruct_or! Hs; subst. Qed.

(** [step] satisfies the recursive equation of the code, so the bound is never
    felt. *)
Lemma step_unfold s top b : step s top b = step_body step s top b.
Proof.
  unfold step at 1. simpl step_bounded.
  solve_dispatch s.
Qed.

(** The re-entry of [step] through delegation ends: two levels reach the value
    any deeper bound gives. *)
Theorem step_bounded_stable n s top b : step_bounded (S (S n)) s top b = step s top b.
Proof.
  rewrite step_unfold. simpl.
  solve_dispatch s.
Qed.
