(* ===== verification/Pda.v ===== *)
(** * The driver of the byte automaton

    [Pda] of [grammar/pda.rs]: a state and a stack of frames over [step], with
    the operations the decoder session calls.  The code's [&mut self] methods
    return the new automaton with their result; a reused scratch buffer is an
    argument and a result.  The stack's head is its top. *)

From S2P Require Import Prelude StackMachine PdaState PdaStep.

(** ** The laws of the transition function *)

(** Both laws at one transition, as a test. *)
Definition lawful_at (s : State) (top : option Frame) (b : byte) : bool :=
  match top with
  | None => match step s None b with Pop _ => false | _ => true end
  | Some f => is_dead (step s None b) || bool_decide (step s (Some f) b = step s None b)
  end.

Lemma step_lawful : forall_transitions lawful_at = true.
Proof. vm_compute. reflexivity. Qed.

#[global] Instance step_pop_has_frame : PopHasFrame State Frame.
Proof.
  intros s b s' H. unfold sm_step, pda_machine in H.
  pose proof (forall_transitions_spec _ step_lawful s None b) as HL.
  unfold lawful_at in HL. by rewrite H in HL.
Qed.

#[global] Instance step_ambient_blind : AmbientBlind State Frame ALL_FRAMES.
Proof.
  intros s f b _ H. unfold sm_step, pda_machine in *.
  pose proof (forall_transitions_spec _ step_lawful s (Some f) b) as HL.
  unfold lawful_at in HL. apply orb_true_iff in HL as [HL|HL].
  - by destruct (step s None b).
  - by apply bool_decide_eq_true in HL.
Qed.

(** ** The automaton *)

(** [grammar::DeadState]: the names at the point a byte was rejected. *)
Record DeadState := { dead_state : string; dead_stack_top : string }.

(** [Pda]. *)
Record Pda := { pda_state : State; pda_stack : list Frame }.

#[global] Instance Pda_eq_dec : EqDecision Pda.
Proof. solve_decision. Defined.

(** [Pda::new]. *)
Definition Pda_new : Pda := {| pda_state := Start; pda_stack := [] |}.

(** [Pda::at]. *)
Definition Pda_at (s : State) : Pda := {| pda_state := s; pda_stack := [] |}.

(** [Pda::stack_top]. *)
Definition stack_top (p : Pda) : option Frame := head (pda_stack p).

(** [Pda::advance]. *)
Definition advance (p : Pda) (b : byte) : Pda * Result () DeadState :=
  let top := head (pda_stack p) in
  match step (pda_state p) top b with
  | Next next => ({| pda_state := next; pda_stack := pda_stack p |}, Ok ())
  | Push frame next => ({| pda_state := next; pda_stack := frame :: pda_stack p |}, Ok ())
  | Pop next => ({| pda_state := next; pda_stack := tail (pda_stack p) |}, Ok ())
  | Dead =>
      (p, Err {| dead_state := State_name (pda_state p);
                 dead_stack_top := match top with None => "none" | Some f => Frame_name f end |})
  end.

(** [Pda::is_accepting]. *)
Definition is_accepting (p : Pda) : bool :=
  match pda_stack p with
  | [] => match step (pda_state p) None VALUE_BOUNDARY with
          | Next next => completes_a_term next
          | _ => false
          end
  | _ :: _ => false
  end.

(** [Pda::reset]. *)
Definition Pda_reset (p : Pda) : Pda := {| pda_state := Start; pda_stack := [] |}.

(** [Pda::admits]: the loop over the candidate's bytes, then the method, which
    refills the scratch stack it is handed. *)
Fixpoint admits_loop (state : State) (scratch : list Frame) (bytes : list byte)
    : bool * list Frame :=
  match bytes with
  | [] => (true, scratch)
  | b :: bytes =>
      match step state (head scratch) b with
      | Next next => admits_loop next scratch bytes
      | Push frame next => admits_loop next (frame :: scratch) bytes
      | Pop next => admits_loop next (tail scratch) bytes
      | Dead => (false, scratch)
      end
  end.

Definition admits (p : Pda) (bytes : list byte) (scratch : list Frame) : bool * list Frame :=
  let scratch := [] in
  let scratch := scratch ++ pda_stack p in
  admits_loop (pda_state p) scratch bytes.

(** [Pda::probe]: the same walk, classifying the byte it dies at. *)
Fixpoint probe_loop (state : State) (scratch : list Frame) (bytes : list byte)
    : Probe * list Frame :=
  match bytes with
  | [] => ({| alive := true; consulted_ambient := false |}, scratch)
  | b :: bytes =>
      match step state (head scratch) b with
      | Next next => probe_loop next scratch bytes
      | Push frame next => probe_loop next (frame :: scratch) bytes
      | Pop next => probe_loop next (tail scratch) bytes
      | Dead =>
          ({| alive := false;
              consulted_ambient :=
                bool_decide (scratch = [])
                && existsb (λ f, negb (is_dead (step state (Some f) b))) ALL_FRAMES |},
           scratch)
      end
  end.

Definition probe (p : Pda) (bytes : list byte) (scratch : list Frame) : Probe * list Frame :=
  let scratch := [] in
  let scratch := scratch ++ pda_stack p in
  probe_loop (pda_state p) scratch bytes.

(** ** The driver against the stream semantics *)

Definition config (p : Pda) : State * list Frame := (pda_state p, pda_stack p).
Definition of_config (c : State * list Frame) : Pda := {| pda_state := c.1; pda_stack := c.2 |}.

Lemma of_config_config p : of_config (config p) = p.
Proof. by destruct p. Qed.

Lemma config_of_config c : config (of_config c) = c.
Proof. by destruct c. Qed.

Lemma advance_step1 p b :
  match step1 (config p) b with
  | Some c => advance p b = (of_config c, Ok ())
  | None => ∃ e, advance p b = (p, Err e)
  end.
Proof.
  unfold advance, step1, config; simpl. unfold sm_step, pda_machine.
  destruct (step (pda_state p) (head (pda_stack p)) b); eauto.
Qed.

(** Folding [advance] over a stream, stopping at the first dead byte. *)
Fixpoint advance_all (p : Pda) (bytes : list byte) : Pda * Result () DeadState :=
  match bytes with
  | [] => (p, Ok ())
  | b :: bytes => match advance p b with
                  | (p', Ok _) => advance_all p' bytes
                  | (p', Err e) => (p', Err e)
                  end
  end.

Lemma advance_all_run p bytes :
  match run (config p) bytes with
  | Some c => advance_all p bytes = (of_config c, Ok ())
  | None => is_ok (advance_all p bytes).2 = false
  end.
Proof.
  revert p. induction bytes as [|b bytes IH]; intros p; [by destruct p|].
  change (run (config p) (b :: bytes)) with
    (match step1 (config p) b with Some c => run c bytes | None => None end).
  simpl advance_all. pose proof (advance_step1 p b) as Hb.
  destruct (step1 (config p) b) as [c|].
  - rewrite Hb. specialize (IH (of_config c)). by rewrite config_of_config in IH.
  - destruct Hb as [e ->]. done.
Qed.

Lemma admits_loop_run s scratch bytes :
  (admits_loop s scratch bytes).1 = bool_decide (is_Some (run (s, scratch) bytes)).
Proof.
  revert s scratch. induction bytes as [|b bytes IH]; intros s scratch; simpl; [done|].
  unfold step1; simpl. unfold sm_step, pda_machine.
  destruct (step s (head scratch) b); auto.
Qed.

(** The verdict of [admits] does not see the scratch it was handed. *)
Lemma admits_run p bytes scratch :
  (admits p bytes scratch).1 = bool_decide (is_Some (run (config p) bytes)).
Proof. apply admits_loop_run. Qed.

Lemma probe_loop_from s scratch bytes :
  (probe_loop s scratch bytes).1 = probe_from ALL_FRAMES s scratch bytes.
Proof.
  revert s scratch. induction bytes as [|b bytes IH]; intros s scratch; simpl; [done|].
  unfold sm_step, pda_machine.
  destruct (step s (head scratch) b); auto. simpl.
  by destruct scratch.
Qed.

Lemma probe_run p bytes scratch :
  (probe p bytes scratch).1 = probe_from ALL_FRAMES (pda_state p) (pda_stack p) bytes.
Proof. apply probe_loop_from. Qed.

Lemma all_frames_forall (stk : list Frame) : Forall (λ f, f ∈ ALL_FRAMES) stk.
Proof. apply Forall_forall. intros; apply ALL_FRAMES_complete. Qed.

(** ** Properties *)

Lemma probe_classified p bytes scratch scratch' :
  let verdict := (probe (Pda_at (pda_state p)) bytes scratch).1 in
  (alive verdict = true → (admits p bytes scratch').1 = true) ∧
  (alive verdict = false → consulted_ambient verdict = false →
     (admits p bytes scratch').1 = false) ∧
  (consulted_ambient verdict = true → pda_stack p = [] → (admits p bytes scratch').1 = false).
Proof.
  cbv zeta. rewrite probe_run, admits_run. simpl. unfold config.
  split_and!.
  - intros Ha. apply bool_decide_true.
    exact (probe_alive_everywhere _ _ [] _ _ Ha (all_frames_forall _)).
  - intros Ha Hc.
    pose proof (probe_dead_everywhere ALL_FRAMES _ [] (pda_stack p) _ Ha Hc (all_frames_forall _)) as E.
    simpl in E. rewrite E.
    by rewrite bool_decide_false by (intros [? [=]]).
  - intros Hc%probe_consulted_dead ->. rewrite Hc.
    by rewrite bool_decide_false by (intros [? [=]]).
Qed.

(** [admits] decides whether folding [advance] over the token succeeds. *)
Lemma admits_advance p bytes scratch :
  (admits p bytes scratch).1 = is_ok (advance_all p bytes).2.
Proof.
  rewrite admits_run. pose proof (advance_all_run p bytes) as H.
  destruct (run (config p) bytes) as [c|].
  - rewrite H. by rewrite bool_decide_true by eauto.
  - rewrite H. by rewrite bool_decide_false by (intros [? [=]]).
Qed.

(** A rejected byte leaves the automaton as it was, and names its
    configuration; an accepted one never pops an empty stack. *)
Lemma advance_spec p b :
  match advance p b with
  | (p', Err e) =>
      p' = p ∧ step (pda_state p) (stack_top p) b = Dead ∧
      dead_state e = State_name (pda_state p) ∧
      dead_stack_top e = from_option Frame_name "none" (stack_top p)
  | (p', Ok _) =>
      match step (pda_state p) (stack_top p) b with
      | Next s => p' = {| pda_state := s; pda_stack := pda_stack p |}
      | Push f s => p' = {| pda_state := s; pda_stack := f :: pda_stack p |}
      | Pop s => ∃ f stk, pda_stack p = f :: stk ∧ p' = {| pda_state := s; pda_stack := stk |}
      | Dead => False
      end
  end.
Proof.
  unfold advance, stack_top.
  pose proof (pop_has_frame (pda_state p) b) as Hpop.
  unfold sm_step, pda_machine in Hpop.
  destruct (step (pda_state p) (head (pda_stack p)) b) as [| |s'|] eqn:E; try done.
  destruct (pda_stack p) as [|f stk]; [by destruct (Hpop s')|by eauto].
Qed.

(** The build-time probe over an empty stack classifies every token against
    every live stack of its state. *)
Theorem probe_classifies p bytes scratch scratch' :
  let verdict := (probe (Pda_at (pda_state p)) bytes scratch).1 in
  (alive verdict = true → (admits p bytes scratch').1 = true) ∧
  (alive verdict = false → consulted_ambient verdict = false →
     (admits p bytes scratch').1 = false) ∧
  (consulted_ambient verdict = true → pda_stack p = [] → (admits p bytes scratch').1 = false).
Proof. apply probe_classified. Qed.
