(* ===== verification/PdaLanguage.v ===== *)
(** * The stack discipline of the byte automaton

    Which frames may be on top of the stack in each state of [grammar/pda.rs].
    The code has no such table; it is the invariant its states are named
    after (a state inside a block statement sits over the block's brace, a
    binder multiplicity over its bracket, and so on), and what makes
    configurations that [step] alone would not refuse unreachable. *)

From S2P Require Import Prelude StackMachine PdaState PdaStep Pda.

(** ** The invariant *)

Definition allowed_top (s : State) (top : option Frame) : bool :=
  match s with
  | Start | ExpectSource => bool_decide (top = None)
  | AfterBraceOpen | BlockStmt | BlockStmtClose | LetL | LetLe | LetLet | ExpectBinder
  | InBinder | AfterBinder | ExpectBinderValue | InBinderValueIdent =>
      bool_decide (top = Some Brace)
  | InSourceIdent | SourceColon | SourceColon2 | SourceDash =>
      bool_decide (top = None) || bool_decide (top = Some Brace)
  | ExpectBinderCallClose => bool_decide (top = Some Paren)
  | InMultiplicity | ExpectBinderMult | InBinderMult | AfterBinderMultToken =>
      bool_decide (top = Some Bracket)
  | ExpectBraceBinder => bool_decide (top = Some BraceLambda)
  | ExpectValue =>
      match top with Some (Paren | Group | Bracket) => true | _ => false end
  | ExpectRelColSpec | ExpectRelColSpecReq => bool_decide (top = Some RelColBracket)
  | AfterColonWs | AfterValueColon | InBinderType | AfterBinderType | BinderTypeColon
  | BinderTypeColon2 | InBinderTypePath | AfterBinderTypePath | InRelAggReduceBinder
  | AfterRelAggReduceBinder =>
      negb (bool_decide (top = None)) && negb (bool_decide (top = Some Brace))
  | _ => true
  end.

(** A block's brace is opened at the bottom of the stack only. *)
Fixpoint brace_at_bottom (stk : list Frame) : bool :=
  match stk with
  | f :: stk => (bool_decide (stk = []) || negb (bool_decide (f = Brace))) && brace_at_bottom stk
  | [] => true
  end.

Definition disciplined (c : State * list Frame) : bool :=
  allowed_top c.1 (head c.2) && brace_at_bottom c.2.

(** ** It is preserved by every byte *)

(** The frames that may be uncovered by popping [top]. *)
Definition may_uncover (top g : option Frame) : bool :=
  negb (bool_decide (top = Some Brace)) || bool_decide (g = None).

Definition preserved_at (s : State) (top : option Frame) (b : byte) : bool :=
  negb (allowed_top s top) ||
  match step s top b with
  | Next s' => allowed_top s' top
  | Push f s' =>
      allowed_top s' (Some f) && (negb (bool_decide (f = Brace)) || bool_decide (top = None))
  | Pop s' => forallb (λ g, negb (may_uncover top g) || allowed_top s' g) ALL_TOPS
  | Dead => true
  end.

Lemma preserved_everywhere : forall_transitions preserved_at = true.
Proof. vm_compute. reflexivity. Qed.

Lemma disciplined_step c b c' : disciplined c = true → step1 c b = Some c' → disciplined c' = true.
Proof.
  destruct c as [s stk]. unfold disciplined, step1; cbn [fst snd].
  intros [Hs Hb]%andb_true_iff. unfold sm_step, pda_machine.
  pose proof (forall_transitions_spec _ preserved_everywhere s (head stk) b) as Hp.
  unfold preserved_at in Hp. rewrite Hs in Hp. cbn [negb orb] in Hp.
  destruct (step s (head stk) b) as [s'|f s'|s'|]; intros; simplify_eq; cbn [fst snd head].
  - by rewrite Hp, Hb.
  - apply andb_true_iff in Hp as [Hp1 Hp2]. cbn [brace_at_bottom]. rewrite Hp1, Hb, andb_true_r.
    destruct stk as [|g stk]; [done|]. apply orb_true_iff. right.
    apply orb_true_iff in Hp2 as [Hp2|Hp2%bool_decide_eq_true]; done.
  - rewrite forallb_forall in Hp. specialize (Hp _ (ALL_TOPS_complete (head (tail stk)))).
    apply andb_true_iff. destruct stk as [|f stk]; cbn [tail head brace_at_bottom] in *.
    { split; [|done]. by apply orb_true_iff in Hp as [Hp|Hp]. }
    apply andb_true_iff in Hb as [Hb1 Hb2]. split; [|done].
    apply orb_true_iff in Hp as [Hp|Hp]; [|done]. exfalso.
    apply negb_true_iff, orb_false_iff in Hp as [Hp1%negb_false_iff%bool_decide_eq_true Hp2].
    simplify_eq. by destruct stk.
Qed.

(** Stack discipline: in every configuration a stream of bytes can reach, the
    state permits the frame on top, and a block's brace is at the bottom. *)
Theorem stack_discipline bytes s stk :
  run (Start, []) bytes = Some (s, stk) →
  allowed_top s (head stk) = true ∧ brace_at_bottom stk = true.
Proof.
  intros Hr. apply andb_true_iff.
  change (disciplined (s, stk) = true).
  refine (run_invariant (λ c, disciplined c = true) _ bytes (Start, []) (s, stk) _ Hr).
  - intros c b c'. apply disciplined_step.
  - reflexivity.
Qed.

Lemma stack_discipline_witness :
  allowed_top BlockStmtClose (Some Brace) = true ∧ brace_at_bottom [Brace] = true.
Proof.
  exact (stack_discipline (String.list_byte_of_string "{|let x = X.all(); ") BlockStmtClose
           [Brace] eq_refl).
Defined.

(** * The language of the byte automaton

    What the hand-written automaton of [grammar/pda.rs] guarantees about the
    streams it keeps alive: it refines a plain delimiter scanner, it never
    reaches a configuration with no continuation, a query opens with its pipe
    and source, string literals are read by quote doubling, and the milestone
    keyword is spelled exactly. *)

Open Scope u8_scope.

(** ** The delimiter scanner: an abstract specification

    It knows nothing of Pure but three pairs of brackets and single-quoted
    strings with doubled quotes.  Its stack holds the closers it waits for. *)

Inductive Mode : Set := Code | Quoted | QuoteEnd.

#[global] Instance Mode_eq_dec : EqDecision Mode.
Proof. solve_decision. Defined.

Definition scan_code (stk : list byte) (b : byte) : option (Mode * list byte) :=
  if b =? "'" then Some (Quoted, stk)
  else if b =? "(" then Some (Code, ")"%byte :: stk)
  else if b =? "[" then Some (Code, "]"%byte :: stk)
  else if b =? "{" then Some (Code, "}"%byte :: stk)
  else if is_closer b then
    match stk with
    | c :: stk => if b =? c then Some (Code, stk) else None
    | [] => None
    end
  else Some (Code, stk).

Definition scan1 (c : Mode * list byte) (b : byte) : option (Mode * list byte) :=
  match c.1 with
  | Quoted => Some (if b =? "'" then QuoteEnd else Quoted, c.2)
  | QuoteEnd => if b =? "'" then Some (Quoted, c.2) else scan_code c.2 b
  | Code => scan_code c.2 b
  end.

Fixpoint scan (c : Mode * list byte) (bs : list byte) : option (Mode * list byte) :=
  match bs with
  | [] => Some c
  | b :: bs => match scan1 c b with Some c' => scan c' bs | None => None end
  end.

(** The abstraction: the string mode of a state, the closer of a frame. *)
Definition mode_of (s : State) : Mode :=
  match s with
  | InStrLit false | InRelColStrLit false => Quoted
  | InStrLit true | InRelColStrLit true => QuoteEnd
  | _ => Code
  end.

Definition closer_of (f : Frame) : byte :=
  match f with
  | Paren | Group => ")"
  | Bracket | RelColBracket => "]"
  | Brace | BraceLambda => "}"
  end.

Definition abstract (c : State * list Frame) : Mode * list byte :=
  (mode_of c.1, map closer_of c.2).

(** One transition against one scanner step, over a stack of the top alone. *)
Definition scans_at (s : State) (top : option Frame) (b : byte) : bool :=
  let stk := option_list top in
  match step1 (s, stk) b with
  | Some c => bool_decide (scan1 (abstract (s, stk)) b = Some (abstract c))
  | None => true
  end.

Lemma step_scans : forall_transitions scans_at = true.
Proof. vm_compute. reflexivity. Qed.

(** The scanner only looks at the top of its stack, and a step that lives over
    an empty one does not pop. *)
Lemma scan1_below m stk b m' stk' below :
  scan1 (m, stk) b = Some (m', stk') → scan1 (m, stk ++ below) b = Some (m', stk' ++ below).
Proof.
  unfold scan1, scan_code; simpl.
  destruct m, stk; simpl; repeat case_match; intros; simplify_eq/=; done.
Qed.

Lemma step1_scan1 c b c' :
  step1 c b = Some c' → scan1 (abstract c) b = Some (abstract c').
Proof.
  destruct c as [s stk]. intros Hstep.
  pose proof (forall_transitions_spec _ step_scans s (head stk) b) as Hs.
  unfold scans_at in Hs. destruct stk as [|f stk]; simpl in Hs.
  { rewrite Hstep in Hs. by apply bool_decide_eq_true in Hs. }
  unfold step1 in Hs, Hstep. simpl in Hs, Hstep.
  destruct (sm_step s (Some f) b); simplify_eq/=; apply bool_decide_eq_true in Hs;
    unfold abstract in *; simpl in *;
    by apply (scan1_below _ _ _ _ _ (map closer_of stk)) in Hs.
Qed.

Lemma run_scan bs c c' : run c bs = Some c' → scan (abstract c) bs = Some (abstract c').
Proof.
  revert c. induction bs as [|b bs IH]; intros c; simpl; [by intros [= ->]|].
  destruct (step1 c b) as [c1|] eqn:E; [|done].
  rewrite (step1_scan1 _ _ _ E). apply IH.
Qed.

(** Accepting configurations have an empty stack and no string open. *)
Lemma accepting_closed p : is_accepting p = true → pda_stack p = [] ∧ mode_of (pda_state p) ≠ Quoted.
Proof.
  unfold is_accepting. destruct p as [s [|f stk]]; simpl; [|done].
  intros H. split; [done|].
  destruct s; try done; destruct escaped; done.
Qed.

(** C4. Refinement: every live stream is a live stream of the delimiter scanner, in
    the configuration the automaton's own state and frames abstract to; so the
    brackets of an accepted query match and its strings are closed. *)
Theorem delimiters_refined bytes p :
  advance_all Pda_new bytes = (p, Ok ()) →
  scan (Code, []) bytes = Some (mode_of (pda_state p), map closer_of (pda_stack p)) ∧
  (is_accepting p = true →
     scan (Code, []) bytes = Some (mode_of (pda_state p), []) ∧ mode_of (pda_state p) ≠ Quoted).
Proof.
  intros H. pose proof (advance_all_run Pda_new bytes) as Hr. rewrite H in Hr.
  destruct (run (config Pda_new) bytes) as [c|] eqn:E; [|done]. simplify_eq.
  apply run_scan in E. unfold abstract in E. simpl in *. split; [done|].
  intros [Hs Hm]%accepting_closed. simpl in *. by rewrite E, Hs.
Qed.

(** ** No black holes *)

Definition bytes_of (s : string) : list byte := String.list_byte_of_string s.

(** A string of bytes that takes each state to a completed term. *)
Definition finish_term (s : State) : string :=
  match s with
  | Start => "|a.b"
  | ExpectSource => "a.b"
  | AfterBraceOpen => "|$a"
  | BlockStmt | BlockStmtClose => "$a"
  | InSourceIdent | InBinderValueIdent | LetL | LetLe | LetLet => ".a"
  | SourceColon => ":a.b"
  | SourceColon2 => "a.b"
  | SourceDash => ">a()"
  | ExpectBinder => "a=a.b"
  | InBinder | AfterBinder => "=a.b"
  | ExpectBinderValue => "a.b"
  | ExpectBinderCallClose => ")"
  | InMultiplicity => "]"
  | ExpectBraceBinder => "a"
  | AfterColonWs => "a|1"
  | AfterArrow => "a()"
  | AfterColon => ":a"
  | AfterValueColon | AfterRelColColon => "a||1"
  | AfterColon2 => "a"
  | InBinderType | AfterBinderType => "|1"
  | BinderTypeColon => ":a[1]|1"
  | BinderTypeColon2 => "a[1]|1"
  | InBinderTypePath | AfterBinderTypePath => "[1]|1"
  | ExpectBinderMult => "1]|1"
  | InBinderMult | AfterBinderMultToken => "]|1"
  | AfterBinderMult => "|1"
  | SawPipe | SawValuePipe => "|1"
  | SawEq | SawBang => "=1"
  | SawAmp => "&1"
  | SawTilde => "a"
  | InRelColLambdaBinder | AfterRelColLambdaBinder
  | InRelAggReduceBinder | AfterRelAggReduceBinder => "||1"
  | InArrowIdent | AfterArrowName => "()"
  | ExpectRelColSpec | ExpectRelColSpecReq | AfterDollar | AfterDot => "a"
  | InStrLit false | InRelColStrLit false => "'"
  | MilestoneL => "atest"
  | MilestoneLa => "test"
  | MilestoneLat => "est"
  | MilestoneLate => "st"
  | MilestoneLates => "t"
  | DateSep | DateTimeSep | DateFrac | SawPercent => "1"
  | SawNumSign | NeedFracDigit | SawExp | NeedExpDigit => "1"
  | ExpectValue | ExpectValueReq | ExpectLambdaBody | SawDash | SawGt | SawLt => "1"
  | _ => ""
  end.

(** The states that only exist inside a bracket of their own. *)
Definition top_ok (s : State) (top : option Frame) : bool :=
  match s with
  | InMultiplicity | ExpectBinderMult | InBinderMult | AfterBinderMultToken =>
      bool_decide (top = Some Bracket)
  | ExpectBinderCallClose => bool_decide (top = Some Paren)
  | _ => true
  end.

Definition config_ok (c : State * list Frame) : Prop := top_ok c.1 (head c.2) = true.

(** Finishing the term ends on a completed-term state, with no frame added. *)
Definition finishes_at (s : State) (top : option Frame) (b : byte) : bool :=
  let stk := option_list top in
  negb (top_ok s top) ||
  match run (s, stk) (bytes_of (finish_term s) ++ [VALUE_BOUNDARY]) with
  | Some (s', stk') => completes_a_term s'
  | None => false
  end.

Definition finishes_everywhere : bool :=
  forallb (λ s, forallb (λ t, finishes_at s t VALUE_BOUNDARY) ALL_TOPS) ALL_STATES.

Lemma step_finishes : finishes_everywhere = true.
Proof. vm_compute. reflexivity. Qed.

(** No transition but the openings that push a frame enters a bracketed state,
    and none leaves it with another top. *)
Definition keeps_top_ok_at (s : State) (top : option Frame) (b : byte) : bool :=
  negb (top_ok s top) ||
  match step s top b with
  | Next s' => top_ok s' top
  | Push f s' => top_ok s' (Some f)
  | Pop s' => forallb (top_ok s') ALL_TOPS
  | Dead => true
  end.

Lemma step_keeps_top_ok : forall_transitions keeps_top_ok_at = true.
Proof. vm_compute. reflexivity. Qed.

Lemma config_ok_step c b c' : config_ok c → step1 c b = Some c' → config_ok c'.
Proof.
  destruct c as [s stk]. unfold config_ok, step1; simpl. intros Hok.
  pose proof (forall_transitions_spec _ step_keeps_top_ok s (head stk) b) as Hk.
  unfold keeps_top_ok_at in Hk. rewrite Hok in Hk. cbn [negb orb] in Hk.
  unfold sm_step, pda_machine.
  destruct (step s (head stk) b); intros; simplify_eq; try done.
  rewrite forallb_forall in Hk. apply Hk, ALL_TOPS_complete.
Qed.

(** Closing every open frame from a completed term. *)
Lemma close_frames s stk :
  completes_a_term s = true →
  ∃ s', run (s, stk) (map closer_of stk) = Some (s', []) ∧ completes_a_term s' = true.
Proof.
  revert s. induction stk as [|f stk IH]; intros s Hs; simpl; [by eauto|].
  assert (step1 (s, f :: stk) (closer_of f) = Some (AfterValue, stk)) as ->.
  { by destruct s, f. }
  by apply IH.
Qed.

Lemma completed_accepts s : completes_a_term s = true → is_accepting (Pda_at s) = true.
Proof. by destruct s. Qed.

Lemma finish_from c :
  config_ok c →
  ∃ s stk, run c (bytes_of (finish_term c.1) ++ [VALUE_BOUNDARY]) = Some (s, stk) ∧
           completes_a_term s = true.
Proof.
  destruct c as [s stk]. unfold config_ok; simpl. intros Hok.
  pose proof step_finishes as Hf. unfold finishes_everywhere in Hf.
  rewrite forallb_forall in Hf. specialize (Hf s (ALL_STATES_complete s)). cbv beta in Hf.
  rewrite forallb_forall in Hf. specialize (Hf _ (ALL_TOPS_complete (head stk))).
  unfold finishes_at in Hf. rewrite Hok in Hf. simpl in Hf.
  destruct (run (s, option_list (head stk)) _) as [[s' stk']|] eqn:E; [|done].
  exists s', (stk' ++ tail stk). split; [|done].
  apply (run_ambient ALL_FRAMES _ _ (tail stk)) in E; [|apply all_frames_forall]. by destruct stk.
Qed.

Lemma never_stuck_from bytes p :
  advance_all Pda_new bytes = (p, Ok ()) →
  ∃ more p', advance_all p more = (p', Ok ()) ∧ is_accepting p' = true.
Proof.
  intros H. pose proof (advance_all_run Pda_new bytes) as Hr. rewrite H in Hr.
  destruct (run (config Pda_new) bytes) as [c|] eqn:E; [|done]. simplify_eq.
  assert (config_ok c) as Hok by (eapply run_invariant, E; [exact config_ok_step|done]).
  destruct (finish_from c Hok) as (s & stk & Hrun & Hs).
  destruct (close_frames s stk Hs) as (s' & Hclose & Hs').
  exists ((bytes_of (finish_term c.1) ++ [VALUE_BOUNDARY]) ++ map closer_of stk), (Pda_at s').
  split; [|by apply completed_accepts].
  pose proof (advance_all_run (of_config c)
    ((bytes_of (finish_term c.1) ++ [VALUE_BOUNDARY]) ++ map closer_of stk)) as Ha.
  by rewrite config_of_config, run_app, Hrun, Hclose in Ha.
Qed.

(** C39. Liveness: every live stream has a continuation that completes the query. *)
Theorem never_stuck bytes p :
  advance_all Pda_new bytes = (p, Ok ()) →
  ∃ more p', advance_all p more = (p', Ok ()) ∧ is_accepting p' = true.
Proof. apply never_stuck_from. Qed.

(** ** Classifications agree with the transitions *)

Definition is_next (st : Step State Frame) (s : State) : bool := bool_decide (st = Next s).

(** [opens_refvar_sigil] is exactly the set of states whose [$] transition opens
    a variable reference under some stack top. *)
Theorem refvar_sigil_exact s :
  opens_refvar_sigil s = true ↔ ∃ top, step s top "$" = Next AfterDollar.
Proof.
  assert (opens_refvar_sigil s
          = existsb (λ top, is_next (step s top "$") AfterDollar) ALL_TOPS) as ->.
  { revert s. each_state. }
  rewrite existsb_exists. unfold is_next. split.
  - intros (top & _ & H%bool_decide_eq_true). eauto.
  - intros (top & H). exists top. split; [apply ALL_TOPS_complete|]. by apply bool_decide_eq_true.
Qed.

(** [TERM_END_BYTES] lists, in order, the bytes the completed-value hub refuses
    over an empty stack and takes under some frame, the binder colon aside. *)
Theorem term_end_bytes_exact :
  TERM_END_BYTES =
  base.filter (λ b, b ≠ ":"%byte ∧ step AfterValue None b = Dead ∧
                    existsb (λ f, negb (is_dead (step AfterValue (Some f) b))) ALL_FRAMES = true)
    all_bytes.
Proof. vm_compute. reflexivity. Qed.

(** ** How a query opens *)

Lemma run_one c b bs c' :
  run c (b :: bs) = Some c' → ∃ c1, step1 c b = Some c1 ∧ run c1 bs = Some c'.
Proof. simpl. destruct (step1 c b); eauto; done. Qed.

(** A state that loops on whitespace is left at the first other byte. *)
Lemma run_skips_ws s stk bs c :
  (∀ b, is_ws b = true → step s (head stk) b = Next s) →
  run (s, stk) bs = Some c → c.1 ≠ s →
  ∃ ws b rest c1, bs = ws ++ b :: rest ∧ forallb is_ws ws = true ∧ is_ws b = false ∧
                  step1 (s, stk) b = Some c1 ∧ run c1 rest = Some c.
Proof.
  intros Hws. induction bs as [|b bs IH]; intros Hr Hc; [by simplify_eq/=|].
  apply run_one in Hr as (c1 & H1 & Hr). destruct (is_ws b) eqn:Eb.
  - assert (c1 = (s, stk)) as ->.
    { unfold step1, sm_step, pda_machine in H1; simpl in H1. rewrite (Hws b Eb) in H1.
      by simplify_eq. }
    destruct (IH Hr Hc) as (ws & b' & rest & c1 & -> & ? & ? & ? & ?).
    exists (b :: ws), b', rest, c1. simpl. rewrite Eb. by split_and!.
  - exists [], b, bs, c1. by split_and!.
Qed.

(** The two openings of the grammar: [| source] and [{ | statement]. *)
Inductive opens_query : list byte → Prop :=
| opens_simple ws1 ws2 c rest :
    forallb is_ws ws1 = true → forallb is_ws ws2 = true → is_ident_start c = true →
    opens_query (ws1 ++ "|"%byte :: ws2 ++ c :: rest)
| opens_block ws1 ws2 ws3 c rest :
    forallb is_ws ws1 = true → forallb is_ws ws2 = true → forallb is_ws ws3 = true →
    is_ident_start c = true ∨ c = "$"%byte →
    opens_query (ws1 ++ "{"%byte :: ws2 ++ "|"%byte :: ws3 ++ c :: rest).

(** The transitions of the four opening states off whitespace. *)
Definition opening_at (s : State) (top : option Frame) (b : byte) : bool :=
  is_ws b ||
  match s, step s top b with
  | Start, Next s' => (b =? "|") && bool_decide (s' = ExpectSource)
  | Start, Push f s' => (b =? "{") && bool_decide (f = Brace) && bool_decide (s' = AfterBraceOpen)
  | AfterBraceOpen, Next s' => (b =? "|") && bool_decide (s' = BlockStmt)
  | (ExpectSource | BlockStmt), Next _ =>
      is_ident_start b || ((b =? "$") && bool_decide (s = BlockStmt))
  | (AfterBraceOpen | ExpectSource | BlockStmt), Push _ _ => false
  | (Start | AfterBraceOpen | ExpectSource | BlockStmt), Pop _ => false
  | _, _ => true
  end.

Lemma step_opening s top b :
  s ∈ [Start; AfterBraceOpen; ExpectSource; BlockStmt] → opening_at s top b = true.
Proof.
  intros Hs. revert top b.
  assert (forallb (λ s, forallb (λ t, forallb (opening_at s t) all_bytes) ALL_TOPS)
            [Start; AfterBraceOpen; ExpectSource; BlockStmt] = true) as H
    by (vm_compute; reflexivity).
  rewrite forallb_forall in H. specialize (H s). rewrite <-list_elem_of_In in H.
  intros top. specialize (H Hs). rewrite forallb_forall in H.
  specialize (H top (ALL_TOPS_complete top)). by apply forallb_bytes.
Qed.

Ltac opening_step s :=
  match goal with
  | Hw : is_ws ?b = false, H : step1 (s, ?stk) ?b = Some ?c |- _ =>
      let Ho := fresh "Ho" in
      pose proof (step_opening s (head stk) b ltac:(set_solver)) as Ho;
      unfold opening_at in Ho; rewrite Hw in Ho; unfold step1, sm_step, pda_machine in H;
      cbn [fst snd] in H; cbn [orb] in Ho;
      destruct (step s (head stk) b); simplify_eq;
      repeat (apply andb_true_iff in Ho as [Ho ?]);
      repeat match goal with
             | E : (_ =? _) = true |- _ => apply byte_eqb_eq in E
             | E : bool_decide _ = true |- _ => apply bool_decide_eq_true in E
             end; simplify_eq
  end.

Lemma accepting_not_opening p :
  is_accepting p = true → pda_state p ∉ [Start; AfterBraceOpen; ExpectSource; BlockStmt].
Proof.
  destruct p as [s [|f stk]]; [|done]. intros H Hin. simpl in Hin. set_unfold in Hin.
  by destruct_or! Hin; subst.
Qed.

(** Every accepted query opens in one of the two ways of the grammar. *)
Theorem accepted_opens bytes p :
  advance_all Pda_new bytes = (p, Ok ()) → is_accepting p = true → opens_query bytes.
Proof.
  intros H Hacc%accepting_not_opening. pose proof (advance_all_run Pda_new bytes) as Hr.
  rewrite H in Hr. destruct (run (config Pda_new) bytes) as [c|] eqn:E; [|done]. simplify_eq.
  simpl in Hacc. unfold config in E; simpl in E.
  apply run_skips_ws in E as (ws1 & b1 & r1 & c1 & -> & Hws1 & Hb1 & H1 & E); cycle 1.
  { intros b Hb. unfold step; simpl. unfold step_start. by rewrite Hb. }
  { set_solver. }
  opening_step Start.
  - apply run_skips_ws in E as (ws2 & b2 & r2 & c2 & -> & Hws2 & Hb2 & H2 & E); cycle 1.
    { intros b Hb. unfold step; simpl. unfold step_expect_source. by rewrite Hb. }
    { set_solver. }
    opening_step ExpectSource. rewrite andb_false_r, orb_false_r in Ho.
    by constructor.
  - apply run_skips_ws in E as (ws2 & b2 & r2 & c2 & -> & Hws2 & Hb2 & H2 & E); cycle 1.
    { intros b Hb. unfold step; simpl. unfold step_after_brace_open. by rewrite Hb. }
    { set_solver. }
    opening_step AfterBraceOpen.
    apply run_skips_ws in E as (ws3 & b3 & r3 & c3 & -> & Hws3 & Hb3 & H3 & E); cycle 1.
    { intros b Hb. unfold step; simpl. unfold step_block_stmt, block_stmt. by rewrite Hb. }
    { set_solver. }
    opening_step BlockStmt. constructor; try done.
    rewrite andb_true_r in Ho. apply orb_true_iff in Ho as [?|?%byte_eqb_eq]; auto.
Qed.

(** ** Literals *)

(** The quoting a string literal's content takes: every quote doubled. *)
Definition double_quotes (w : list byte) : list byte :=
  flat_map (λ b, if b =? "'" then ["'"%byte; "'"%byte] else [b]) w.

(** The literal body of the two string states, with [lit] the state family. *)
Lemma run_string_body (lit : bool → State) stk w bs :
  lit ∈ [InStrLit; InRelColStrLit] →
  run (lit false, stk) (double_quotes w ++ bs) = run (lit false, stk) bs.
Proof.
  intros Hl. induction w as [|b w IH]; simpl; [done|].
  destruct (b =? "'") eqn:Eb; simpl; rewrite <-IH; unfold step1, sm_step, pda_machine; simpl.
  - set_unfold in Hl. by destruct_or! Hl; subst.
  - set_unfold in Hl. destruct_or! Hl; subst; unfold step; simpl;
      unfold step_in_str_lit, step_in_rel_col_str_lit; by rewrite Eb.
Qed.

(** A quoted literal at a value position is consumed whole, whatever its
    content, leaves the stack alone, and hands the byte after it to the
    completed-string state. *)
Theorem string_literal_consumed stk w b rest s :
  s ∈ [ExpectValue; ExpectValueReq; ExpectLambdaBody; AfterDot] → b ≠ "'"%byte →
  run (s, stk) ("'"%byte :: double_quotes w ++ "'"%byte :: b :: rest)
  = run (AfterStrLit, stk) (b :: rest).
Proof.
  intros Hs Hb%byte_eqb_neq.
  assert (step1 (s, stk) "'" = Some (InStrLit false, stk)) as H1.
  { set_unfold in Hs. by destruct_or! Hs; subst. }
  simpl. rewrite H1, (run_string_body InStrLit) by set_solver.
  simpl. unfold step1, sm_step, pda_machine; simpl.
  assert (step (InStrLit true) (head stk) b = step AfterStrLit (head stk) b) as ->.
  { rewrite step_unfold. simpl. unfold step_in_str_lit. by rewrite Hb. }
  done.
Qed.

(** The links of the milestone chain: the letter a state waits for and the state
    it leads to. *)
Definition next_letter (s : State) : option (byte * State) :=
  match s with
  | MilestoneL => Some ("a"%byte, MilestoneLa)
  | MilestoneLa => Some ("t"%byte, MilestoneLat)
  | MilestoneLat => Some ("e"%byte, MilestoneLate)
  | MilestoneLate => Some ("s"%byte, MilestoneLates)
  | MilestoneLates => Some ("t"%byte, InMilestoneLit)
  | _ => None
  end.

Lemma run_letter s stk b bs c m s' :
  next_letter s = Some (m, s') → run (s, stk) (b :: bs) = Some c →
  b = m ∧ run (s', stk) bs = Some c.
Proof.
  intros Hn (c1 & H1 & Hr)%run_one. revert H1. unfold step1, sm_step, pda_machine, step; simpl.
  destruct s; simplify_eq/=; unfold milestone_link, milestone_byte; simpl;
    destruct (b =? _) eqn:E; try done; apply byte_eqb_eq in E as ->; intros; by simplify_eq.
Qed.

Ltac spell_letter bs Hr k :=
  destruct bs as [|? bs]; [left; by exists k|];
  eapply run_letter in Hr as [-> Hr]; [|reflexivity].

(** [%] followed by a letter is the one milestone symbol: a live stream spells a
    prefix of [latest], or [latest] and then what may follow it. *)
Theorem milestone_exact stk b bs c :
  run (SawPercent, stk) (b :: bs) = Some c → is_ascii_digit b = false →
  (∃ k, b :: bs = take k MILESTONE_LATEST) ∨
  (∃ rest, b :: bs = MILESTONE_LATEST ++ rest ∧ run (InMilestoneLit, stk) rest = Some c).
Proof.
  intros (c1 & H1 & Hr)%run_one Hd. revert H1. unfold step1, sm_step, pda_machine, step; simpl.
  unfold step_saw_percent, milestone_byte; simpl. rewrite Hd.
  destruct (b =? "l") eqn:E; [|done]. apply byte_eqb_eq in E as ->. intros [= <-].
  spell_letter bs Hr 1. spell_letter bs Hr 2. spell_letter bs Hr 3. spell_letter bs Hr 4.
  spell_letter bs Hr 5. right. by exists bs.
Qed.

(** ** Witnesses *)

Lemma delimiters_refined_witness :
  scan (Code, []) (bytes_of "|X.all()->filter(c|$c.n == '(") = Some (Quoted, [")"%byte]).
Proof.
  destruct (delimiters_refined (bytes_of "|X.all()->filter(c|$c.n == '(")
    {| pda_state := InStrLit false; pda_stack := [Paren] |}) as [Hs _]; [by vm_compute|].
  exact Hs.
Defined.

Lemma never_stuck_witness :
  ∃ more p', advance_all {| pda_state := InStrLit false; pda_stack := [Paren] |} more = (p', Ok ()) ∧
             is_accepting p' = true.
Proof. apply (never_stuck (bytes_of "|X.all()->filter(c|$c.n == '(")). by vm_compute. Defined.

Lemma accepted_opens_witness : opens_query (bytes_of "|X.all()").
Proof.
  apply (accepted_opens (bytes_of "|X.all()") {| pda_state := AfterValue; pda_stack := [] |});
    by vm_compute.
Defined.

Lemma string_literal_consumed_witness :
  run (ExpectValueReq, [Paren]) (bytes_of "'it''s')") = run (AfterStrLit, [Paren]) (bytes_of ")").
Proof.
  apply (string_literal_consumed [Paren] (bytes_of "it's") ")" [] ExpectValueReq);
    [set_solver|done].
Defined.

Lemma milestone_exact_witness :
  ∃ k, bytes_of "late" = take k MILESTONE_LATEST.
Proof.
  destruct (milestone_exact [Paren] "l" (bytes_of "ate") (MilestoneLate, [Paren])) as [Hk|(rest & Hr & _)];
    [by vm_compute|by vm_compute|exact Hk|].
  by vm_compute in Hr.
Defined.
