(* ===== verification/Mask.v ===== *)
(** * The token mask and the vocabulary

    [BitMask] of [mask.rs], a bitset of 64-bit words over token ids, and the
    [Vocab] table of [vocab.rs].  Words are [N] below [2^64], token ids [N]
    below [2^32], lengths and indices [nat]. *)

From S2P Require Import Prelude.
#[local] Open Scope N_scope.

Create HintDb mask.

(** ** The mask *)

Definition WORD_BITS : N := 64.
Definition U32_MOD : N := 2 ^ 32.

(** [usize::div_ceil]. *)
Definition div_ceil (n d : N) : N := (n + d - 1) / d.

(** [BitMask]. *)
Record BitMask := { words : list N; mlen : nat }.

#[global] Instance BitMask_eq_dec : EqDecision BitMask.
Proof. solve_decision. Defined.

(** [locate]. *)
Definition locate (id : N) : nat * N := (N.to_nat (id / WORD_BITS), id mod WORD_BITS).

(** [BitMask::with_len]. *)
Definition with_len (len : nat) : BitMask :=
  {| words := replicate (N.to_nat (div_ceil (N.of_nat len) WORD_BITS)) 0; mlen := len |}.

(** [BitMask::is_empty]. *)
Definition is_empty (m : BitMask) : bool := (mlen m =? 0)%nat.

(** [1u64 << bit] and its complement. *)
Definition bit_word (bit : N) : N := N.shiftl 1 bit.
Definition not64 (w : N) : N := N.lnot w WORD_BITS.

(** [BitMask::set]. *)
Definition set (m : BitMask) (id : N) : BitMask :=
  if N.of_nat (mlen m) <=? id then m
  else let '(word, bit) := locate id in
       {| words := alter (λ w, N.lor w (bit_word bit)) word (words m); mlen := mlen m |}.

(** [BitMask::clear]. *)
Definition clear (m : BitMask) (id : N) : BitMask :=
  if N.of_nat (mlen m) <=? id then m
  else let '(word, bit) := locate id in
       {| words := alter (λ w, N.land w (not64 (bit_word bit))) word (words m); mlen := mlen m |}.

(** [BitMask::test]. *)
Definition test (m : BitMask) (id : N) : bool :=
  if N.of_nat (mlen m) <=? id then false
  else let '(word, bit) := locate id in
       N.land (N.shiftr (nth word (words m) 0) bit) 1 =? 1.

(** [BitMask::clear_all]. *)
Definition clear_all (m : BitMask) : BitMask :=
  {| words := map (λ _, 0) (words m); mlen := mlen m |}.

(** Word by word over the overlap of two masks, as [iter_mut().zip]. *)
Fixpoint zip_words (f : N → N → N) (ws vs : list N) : list N :=
  match ws, vs with
  | w :: ws, v :: vs => f w v :: zip_words f ws vs
  | ws, _ => ws
  end.

(** [BitMask::intersect]. *)
Definition intersect (m other : BitMask) : BitMask :=
  {| words := zip_words N.land (words m) (words other); mlen := mlen m |}.

(** [BitMask::copy_from]. *)
Definition copy_from (m other : BitMask) : BitMask :=
  {| words := zip_words (λ _ src, src) (words m) (words other); mlen := mlen m |}.

(** [u64::to_le_bytes]. *)
Definition to_le_bytes (w : N) : list byte :=
  map (λ i, match Byte.of_N (N.land (N.shiftr w (8 * N.of_nat i)) 255) with
            | Some b => b | None => x00 end) (seq 0 8).

(** Writing one byte through [buf.get_mut]: out of range it is skipped. *)
Definition write_slot (buf : list byte) (at_ : nat) (b : byte) : list byte := <[at_:=b]> buf.

Definition write_word (buf : list byte) (word_idx : nat) (w : N) : list byte :=
  let base := (word_idx * 8)%nat in
  foldl (λ buf '(offset, b), write_slot buf (base + offset) b) buf
    (imap (λ offset b, (offset, b)) (to_le_bytes w)).

(** [BitMask::pack_le_bytes_into]: the buffer is cleared and resized with
    zeroes, whatever it held. *)
Definition pack_le_bytes_into (m : BitMask) (buf : list byte) : list byte :=
  let buf := replicate (N.to_nat (div_ceil (N.of_nat (mlen m)) 8)) x00 in
  foldl (λ buf '(word_idx, w), write_word buf word_idx w) buf
    (imap (λ word_idx w, (word_idx, w)) (words m)).

(** [BitMask::iter_ones]: the word index is truncated to [u32] and the id
    computed at that width. *)
Definition word_ones (word : nat) (bits : N) : list N :=
  let base := (N.of_nat word mod U32_MOD * WORD_BITS) mod U32_MOD in
  omap (λ bit, if N.land bits (bit_word bit) =? 0 then None
               else Some ((base + bit) mod U32_MOD))
       (map N.of_nat (seq 0 (N.to_nat WORD_BITS))).

Definition iter_ones (m : BitMask) : list N := concat (imap word_ones (words m)).

(** ** The vocabulary *)

(** [Vocab]. *)
Record Vocab := { tokens : list (list byte) }.

(** [Vocab::from_byte_tokens]. *)
Definition from_byte_tokens (ts : list (list byte)) : Vocab := {| tokens := ts |}.

(** [Vocab::bytes]. *)
Definition vocab_bytes (v : Vocab) (id : N) : option (list byte) := tokens v !! N.to_nat id.

(** [Vocab::len] and [Vocab::is_empty]. *)
Definition vocab_len (v : Vocab) : nat := length (tokens v).
Definition vocab_is_empty (v : Vocab) : bool := (vocab_len v =? 0)%nat.

(** Ids fit in [u32] with room for the EOS bit. *)
Definition vocab_fits (v : Vocab) : Prop := (N.of_nat (vocab_len v) < U32_MOD)%N.

(** ** Well-formed masks *)

(** The bit at [id], read straight from the words. *)
Definition bit_at (ws : list N) (id : N) : bool :=
  match ws !! N.to_nat (id / WORD_BITS) with
  | Some w => N.testbit w (id mod WORD_BITS)
  | None => false
  end.

(** One word per 64 ids, words at their width, no bit set at or past [len]. *)
Record mask_ok (m : BitMask) : Prop := {
  ok_words : length (words m) = N.to_nat (div_ceil (N.of_nat (mlen m)) WORD_BITS);
  ok_width : Forall (λ w, w < 2 ^ 64) (words m);
  ok_padding : ∀ id, N.of_nat (mlen m) ≤ id → bit_at (words m) id = false;
}.

Lemma locate_bounds id : (N.to_nat (id / 64) * 64 + N.to_nat (id mod 64) = N.to_nat id)%nat.
Proof. pose proof (N.div_mod id 64). lia. Qed.

Lemma locate_inj i j : i / 64 = j / 64 → i mod 64 = j mod 64 → i = j.
Proof. intros H1 H2. rewrite (N.div_mod i 64), (N.div_mod j 64) by done. congruence. Qed.

Lemma div_ceil_lt n d i : 0 < d → i < n → i / d < div_ceil n d.
Proof.
  intros Hd Hi. unfold div_ceil. apply N.Div0.div_lt_upper_bound.
  pose proof (N.div_mod (n + d - 1) d). pose proof (N.mod_lt (n + d - 1) d). nia.
Qed.

Lemma div_ceil_ge n d i : 0 < d → div_ceil n d ≤ i / d → n ≤ i.
Proof.
  intros Hd Hi. destruct (N.lt_ge_cases i n) as [H|]; [|done].
  pose proof (div_ceil_lt n d i Hd H). lia.
Qed.

(** A set id lands in a word that exists: indexing the words never panics. *)
Lemma locate_in_range m id :
  mask_ok m → id < N.of_nat (mlen m) → is_Some (words m !! N.to_nat (id / WORD_BITS)).
Proof.
  intros Hok Hid. apply lookup_lt_is_Some. rewrite (ok_words m Hok).
  pose proof (div_ceil_lt (N.of_nat (mlen m)) WORD_BITS id eq_refl Hid). lia.
Qed.

Lemma bit_at_lookup ws id w :
  ws !! N.to_nat (id / WORD_BITS) = Some w → bit_at ws id = N.testbit w (id mod WORD_BITS).
Proof. unfold bit_at. by intros ->. Qed.

Lemma land_shiftr_testbit w k : (N.land (N.shiftr w k) 1 =? 1) = N.testbit w k.
Proof.
  change 1 with (N.ones 1) at 1. rewrite N.land_ones, N.shiftr_div_pow2, <-N.testbit_spec'.
  by destruct (N.testbit w k).
Qed.

(** [test] reads the bit. *)
Lemma test_bit m id : mask_ok m → test m id = bit_at (words m) id.
Proof.
  intros Hok. unfold test. destruct (N.leb_spec (N.of_nat (mlen m)) id) as [H|H].
  - by rewrite (ok_padding m Hok).
  - cbn [locate]. destruct (locate_in_range m id Hok H) as [w Hw].
    by rewrite (nth_lookup_Some _ _ _ _ Hw), (bit_at_lookup _ _ _ Hw), land_shiftr_testbit.
Qed.

Lemma bit_word_testbit k j : N.testbit (bit_word k) j = (j =? k).
Proof.
  unfold bit_word. rewrite N.shiftl_1_l. destruct (N.eqb_spec j k) as [->|H].
  - apply N.pow2_bits_true.
  - apply N.pow2_bits_false. congruence.
Qed.

Lemma mod_word_lt id : id mod WORD_BITS < 64.
Proof. by apply N.mod_lt. Qed.

(** How an update of the word of [id] shows at every other id. *)
Lemma bit_at_alter (f : N → N) ws id j :
  is_Some (ws !! N.to_nat (id / WORD_BITS)) →
  (∀ w k, k < 64 → k ≠ id mod WORD_BITS → N.testbit (f w) k = N.testbit w k) →
  bit_at (alter f (N.to_nat (id / WORD_BITS)) ws) j =
  if j =? id then N.testbit (f (nth (N.to_nat (id / WORD_BITS)) ws 0)) (id mod WORD_BITS)
  else bit_at ws j.
Proof.
  intros [w Hw] Hf. unfold bit_at. rewrite (nth_lookup_Some _ _ _ _ Hw).
  destruct (N.eqb_spec j id) as [->|Hne]; [by rewrite list_lookup_alter_eq, Hw|].
  destruct (decide (N.to_nat (id / WORD_BITS) = N.to_nat (j / WORD_BITS))) as [E|E].
  - rewrite E, list_lookup_alter_eq, <-E, Hw. simpl. apply Hf; [apply mod_word_lt|].
    intros Hm. apply Hne, locate_inj; [unfold WORD_BITS in *; lia | done].
  - by rewrite list_lookup_alter_ne.
Qed.

Lemma testbit_lt_pow2 w n : (∀ k, n ≤ k → N.testbit w k = false) → w < 2 ^ n.
Proof.
  intros H. enough (w = w mod 2 ^ n) as Hw.
  { rewrite Hw. apply N.mod_lt. by apply N.pow_nonzero. }
  rewrite <-N.land_ones. apply N.bits_inj. intros k. rewrite N.land_spec.
  destruct (N.lt_ge_cases k n) as [Hk|Hk].
  - by rewrite N.ones_spec_low, andb_true_r.
  - by rewrite N.ones_spec_high, H.
Qed.

Lemma lt_pow2_testbit w n k : w < 2 ^ n → n ≤ k → N.testbit w k = false.
Proof.
  intros Hw Hk. destruct (N.eq_dec w 0) as [->|Hz]; [apply N.bits_0|].
  apply N.bits_above_log2. apply N.log2_lt_pow2 in Hw; lia.
Qed.

Lemma lor_width w v : w < 2 ^ 64 → v < 2 ^ 64 → N.lor w v < 2 ^ 64.
Proof.
  intros Hw Hv. apply testbit_lt_pow2. intros k Hk.
  by rewrite N.lor_spec, (lt_pow2_testbit w 64), (lt_pow2_testbit v 64).
Qed.

Lemma land_width w v : w < 2 ^ 64 → N.land w v < 2 ^ 64.
Proof.
  intros Hw. apply testbit_lt_pow2. intros k Hk.
  by rewrite N.land_spec, (lt_pow2_testbit w 64).
Qed.

Lemma bit_word_width k : k < 64 → bit_word k < 2 ^ 64.
Proof. intros. unfold bit_word. rewrite N.shiftl_1_l. apply N.pow_lt_mono_r; [lia|done]. Qed.

Lemma not64_testbit w k : k < 64 → N.testbit (not64 w) k = negb (N.testbit w k).
Proof. intros. unfold not64, WORD_BITS. by apply N.lnot_spec_low. Qed.

(** ** The operations preserve well-formedness *)

Lemma bit_at_width ws id :
  Forall (λ w, w < 2 ^ 64) ws → bit_at ws id = true → is_Some (ws !! N.to_nat (id / WORD_BITS)).
Proof. unfold bit_at. destruct (ws !! _); [by eauto|done]. Qed.

Lemma with_len_ok len : mask_ok (with_len len).
Proof.
  split; simpl.
  - by rewrite length_replicate.
  - apply Forall_replicate. lia.
  - intros id _. unfold bit_at. destruct (_ !! _) as [w|] eqn:E; [|done].
    apply lookup_replicate in E as [-> _]. apply N.bits_0.
Qed.

(** An in-range update of one word keeps the mask well formed when it is local
    to the bit of [id]. *)
Lemma alter_ok (f : N → N) m id :
  mask_ok m → id < N.of_nat (mlen m) →
  (∀ w, w < 2 ^ 64 → f w < 2 ^ 64) →
  (∀ w k, k < 64 → k ≠ id mod WORD_BITS → N.testbit (f w) k = N.testbit w k) →
  mask_ok {| words := alter f (N.to_nat (id / WORD_BITS)) (words m); mlen := mlen m |}.
Proof.
  intros Hok Hid Hw Hf. split; simpl.
  - rewrite length_alter. apply Hok.
  - apply Forall_alter; [apply Hok|eauto].
  - intros j Hj. rewrite bit_at_alter; [|by apply locate_in_range|done].
    rewrite (proj2 (N.eqb_neq _ _)) by lia. by apply Hok.
Qed.

Lemma set_local id w k :
  k < 64 → k ≠ id mod WORD_BITS →
  N.testbit (N.lor w (bit_word (id mod WORD_BITS))) k = N.testbit w k.
Proof.
  intros Hk Hne. rewrite N.lor_spec, bit_word_testbit.
  by rewrite (proj2 (N.eqb_neq _ _) Hne), orb_false_r.
Qed.

Lemma clear_local id w k :
  k < 64 → k ≠ id mod WORD_BITS →
  N.testbit (N.land w (not64 (bit_word (id mod WORD_BITS)))) k = N.testbit w k.
Proof.
  intros Hk Hne. rewrite N.land_spec, not64_testbit, bit_word_testbit by done.
  by rewrite (proj2 (N.eqb_neq _ _) Hne), andb_true_r.
Qed.

Lemma set_ok m id : mask_ok m → mask_ok (set m id).
Proof.
  intros Hok. unfold set. destruct (N.leb_spec (N.of_nat (mlen m)) id) as [|H]; [done|].
  apply alter_ok; auto using set_local.
  intros w Hw. apply lor_width, bit_word_width; [done|apply mod_word_lt].
Qed.

Lemma clear_ok m id : mask_ok m → mask_ok (clear m id).
Proof.
  intros Hok. unfold clear. destruct (N.leb_spec (N.of_nat (mlen m)) id) as [|H]; [done|].
  apply alter_ok; auto using clear_local, land_width.
Qed.

Lemma zip_words_length f ws vs : length (zip_words f ws vs) = length ws.
Proof. revert vs. induction ws as [|w ws IH]; intros [|v vs]; simpl; auto. Qed.

Lemma zip_words_lookup f ws vs i :
  zip_words f ws vs !! i =
  match ws !! i, vs !! i with Some w, Some v => Some (f w v) | w, _ => w end.
Proof.
  revert vs i. induction ws as [|w ws IH]; intros [|v vs] [|i]; simpl; try done.
  by destruct (ws !! i).
Qed.

Lemma zip_words_src ws vs : length ws = length vs → zip_words (λ _ src, src) ws vs = vs.
Proof.
  revert vs. induction ws as [|w ws IH]; intros [|v vs] Hl; simpl in *; try done.
  f_equal. apply IH. lia.
Qed.

Lemma intersect_bit m n id :
  length (words m) = length (words n) →
  bit_at (words (intersect m n)) id = bit_at (words m) id && bit_at (words n) id.
Proof.
  intros Hl. unfold bit_at. simpl. rewrite zip_words_lookup.
  destruct (words m !! _) as [w|] eqn:Ew; [|done].
  destruct (words n !! _) as [v|] eqn:Ev; [by rewrite N.land_spec|].
  apply lookup_ge_None in Ev. apply lookup_lt_Some in Ew. lia.
Qed.

Lemma same_len_words m n :
  mask_ok m → mask_ok n → mlen m = mlen n → length (words m) = length (words n).
Proof. intros Hm Hn Hl. by rewrite (ok_words m Hm), (ok_words n Hn), Hl. Qed.

Lemma intersect_ok m n : mask_ok m → mask_ok n → mlen m = mlen n → mask_ok (intersect m n).
Proof.
  intros Hm Hn Hl. split.
  - simpl. rewrite zip_words_length. apply Hm.
  - apply Forall_lookup. intros i x. simpl. rewrite zip_words_lookup.
    destruct (words m !! i) as [w|] eqn:Ew; [|done].
    pose proof (Forall_lookup_1 _ _ _ _ (ok_width m Hm) Ew).
    destruct (words n !! i); intros; simplify_eq; [by apply land_width|done].
  - intros id Hid. rewrite intersect_bit by auto using same_len_words.
    by rewrite (ok_padding m Hm).
Qed.

Lemma clear_all_eq m : clear_all m = {| words := replicate (length (words m)) 0; mlen := mlen m |}.
Proof. unfold clear_all. f_equal. induction (words m); simpl; congruence. Qed.

Lemma clear_all_with_len m : mask_ok m → clear_all m = with_len (mlen m).
Proof. intros Hok. rewrite clear_all_eq. unfold with_len. by rewrite (ok_words m Hok). Qed.

#[export] Hint Resolve with_len_ok set_ok clear_ok intersect_ok : mask.

(** ** What the operations mean, id by id *)

Lemma test_set m id j :
  mask_ok m →
  test (set m id) j = ((j =? id) && (id <? N.of_nat (mlen m))) || test m j.
Proof.
  intros Hok. rewrite (test_bit (set m id)), (test_bit m) by auto with mask.
  unfold set. destruct (N.leb_spec (N.of_nat (mlen m)) id) as [H|H].
  { by rewrite (proj2 (N.ltb_ge _ _) H), andb_false_r. }
  rewrite (proj2 (N.ltb_lt _ _) H), andb_true_r. cbn [locate words].
  rewrite bit_at_alter by auto using locate_in_range, set_local.
  destruct (N.eqb_spec j id) as [->|]; simpl; [|done].
  by rewrite N.lor_spec, bit_word_testbit, N.eqb_refl, orb_true_r.
Qed.

Lemma test_clear m id j :
  mask_ok m → test (clear m id) j = negb (j =? id) && test m j.
Proof.
  intros Hok. rewrite (test_bit (clear m id)), (test_bit m) by auto with mask.
  unfold clear. destruct (N.leb_spec (N.of_nat (mlen m)) id) as [H|H].
  { destruct (N.eqb_spec j id) as [->|]; simpl; [by apply Hok|done]. }
  cbn [locate words]. rewrite bit_at_alter by auto using locate_in_range, clear_local.
  destruct (N.eqb_spec j id) as [->|]; simpl; [|done].
  rewrite N.land_spec, not64_testbit, bit_word_testbit, N.eqb_refl by apply mod_word_lt.
  apply andb_false_r.
Qed.

Lemma test_intersect m n id :
  mask_ok m → mask_ok n → mlen m = mlen n →
  test (intersect m n) id = test m id && test n id.
Proof.
  intros Hm Hn Hl. rewrite !test_bit by auto with mask.
  by apply intersect_bit, same_len_words.
Qed.

Lemma copy_from_eq m n : mask_ok m → mask_ok n → mlen m = mlen n → copy_from m n = n.
Proof.
  intros Hm Hn Hl. unfold copy_from. rewrite zip_words_src by auto using same_len_words.
  rewrite Hl. by destruct n.
Qed.

Lemma test_with_len len id : test (with_len len) id = false.
Proof.
  rewrite test_bit by auto with mask. unfold bit_at, with_len. simpl.
  destruct (_ !! _) as [w|] eqn:E; [|done].
  apply lookup_replicate in E as [-> _]. apply N.bits_0.
Qed.

Lemma test_out_of_range m id : N.of_nat (mlen m) ≤ id → test m id = false.
Proof. intros H. unfold test. by rewrite (proj2 (N.leb_le _ _) H). Qed.

Lemma mlen_set m id : mlen (set m id) = mlen m.
Proof. unfold set. by destruct (_ <=? _). Qed.

Lemma mlen_clear m id : mlen (clear m id) = mlen m.
Proof. unfold clear. by destruct (_ <=? _). Qed.

Lemma bit_at_word ws i w k :
  ws !! i = Some w → k < 64 → bit_at ws (64 * N.of_nat i + k) = N.testbit w k.
Proof.
  intros Hw Hk. rewrite (N.mul_comm 64).
  assert (N.to_nat ((N.of_nat i * 64 + k) / WORD_BITS) = i ∧
          (N.of_nat i * 64 + k) mod WORD_BITS = k) as [E1 E2].
  { unfold WORD_BITS. rewrite N.div_add_l, N.div_small, N.add_0_r, Nat2N.id by done.
    rewrite N.add_comm, N.Div0.mod_add. by rewrite N.mod_small. }
  rewrite (bit_at_lookup _ _ w), E2; [done|by rewrite E1].
Qed.

(** Two well-formed masks of one length are equal when they agree id by id. *)
Lemma mask_ext m n :
  mask_ok m → mask_ok n → mlen m = mlen n → (∀ id, test m id = test n id) → m = n.
Proof.
  intros Hm Hn Hl Ht.
  enough (words m = words n) as E by (destruct m, n; simpl in *; congruence).
  apply list_eq_same_length with (length (words n)); auto using same_len_words.
  intros i w v Hi Hw Hv. apply N.bits_inj. intros k.
  destruct (N.lt_ge_cases k 64) as [Hk|Hk].
  - specialize (Ht (64 * N.of_nat i + k)). rewrite !test_bit in Ht by done.
    by rewrite (bit_at_word _ _ w), (bit_at_word _ _ v) in Ht.
  - pose proof (Forall_lookup_1 _ _ _ _ (ok_width m Hm) Hw).
    pose proof (Forall_lookup_1 _ _ _ _ (ok_width n Hn) Hv).
    by rewrite (lt_pow2_testbit w 64), (lt_pow2_testbit v 64).
Qed.

(** ** Enumerating the set bits *)

Lemma land_bit_word w k : (N.land w (bit_word k) =? 0) = negb (N.testbit w k).
Proof.
  assert (N.testbit (N.land w (bit_word k)) k = N.testbit w k) as Hk.
  { by rewrite N.land_spec, bit_word_testbit, N.eqb_refl, andb_true_r. }
  destruct (N.testbit w k) eqn:E; simpl.
  - apply N.eqb_neq. intros H0. by rewrite H0, N.bits_0 in Hk.
  - apply N.eqb_eq, N.bits_inj. intros j. rewrite N.land_spec, bit_word_testbit, N.bits_0.
    destruct (N.eqb_spec j k) as [->|]; [by rewrite E|apply andb_false_r].
Qed.

Lemma seq_omap_filter (f : N → option N) (g : N → bool) (a c n : nat) :
  (∀ i, (i < n)%nat →
    f (N.of_nat (a + i)) = if g (N.of_nat (c + i)) then Some (N.of_nat (c + i)) else None) →
  omap f (map N.of_nat (seq a n)) = List.filter g (map N.of_nat (seq c n)).
Proof.
  revert a c. induction n as [|n IH]; intros a c Hf; [done|].
  assert (omap f (map N.of_nat (seq (S a) n)) = List.filter g (map N.of_nat (seq (S c) n))) as E.
  { apply IH. intros i Hi. rewrite !Nat.add_succ_comm. apply Hf. lia. }
  pose proof (Hf 0%nat) as H0. rewrite !Nat.add_0_r in H0.
  change (omap f (map N.of_nat (seq a (S n)))) with
    (match f (N.of_nat a) with
     | Some y => y :: omap f (map N.of_nat (seq (S a) n))
     | None => omap f (map N.of_nat (seq (S a) n))
     end).
  rewrite E, H0 by lia. simpl. by destruct (g (N.of_nat c)).
Qed.

(** Below [2^32] the wrapped arithmetic is exact, word by word. *)
Lemma word_ones_exact k w (g : N → bool) :
  N.of_nat (64 * k) + 64 ≤ U32_MOD →
  (∀ j, j < 64 → g (64 * N.of_nat k + j) = N.testbit w j) →
  word_ones k w = List.filter g (map N.of_nat (seq (64 * k) 64)).
Proof.
  intros Hk Hg. unfold word_ones. apply seq_omap_filter. intros i Hi.
  change (N.to_nat WORD_BITS) with 64%nat in Hi.
  rewrite land_bit_word, Nat.add_0_l.
  replace (N.of_nat (64 * k + i)) with (64 * N.of_nat k + N.of_nat i) by lia.
  rewrite Hg by lia. unfold U32_MOD, WORD_BITS in *.
  rewrite (N.mod_small (N.of_nat k)), (N.mod_small (_ * 64)), (N.mod_small (_ + _)) by lia.
  rewrite (N.mul_comm 64). by destruct (N.testbit w (N.of_nat i)).
Qed.

Lemma iter_words_exact ws k (g : N → bool) :
  N.of_nat (64 * (k + length ws)) ≤ U32_MOD →
  (∀ i w j, ws !! i = Some w → j < 64 → g (64 * N.of_nat (k + i) + j) = N.testbit w j) →
  concat (imap (λ i, word_ones (k + i)) ws) =
  List.filter g (map N.of_nat (seq (64 * k) (64 * length ws))).
Proof.
  revert k. induction ws as [|w ws IH]; intros k Hk Hg; simpl length in *.
  { by rewrite Nat.mul_0_r. }
  rewrite imap_cons. cbn [concat]. rewrite Nat.mul_succ_r, (Nat.add_comm _ 64), seq_app.
  rewrite map_app, List.filter_app. f_equal.
  - rewrite Nat.add_0_r. apply word_ones_exact; [lia|].
    intros j Hj. rewrite <-(Hg 0%nat w j) by done. by rewrite Nat.add_0_r.
  - replace (64 * k + 64)%nat with (64 * S k)%nat by lia. etrans; [|apply (IH (S k))].
    + rewrite (imap_ext _ (λ i, word_ones (S k + i))); [done|].
      intros i x _. unfold compose. by replace (S k + i)%nat with (k + S i)%nat by lia.
    + by replace (S k + length ws)%nat with (k + S (length ws))%nat by lia.
    + intros i v j Hi Hj. replace (S k + i)%nat with (k + S i)%nat by lia. by apply Hg.
Qed.

Lemma filter_none {A} (g : A → bool) l : (∀ x, In x l → g x = false) → List.filter g l = [].
Proof.
  induction l as [|x l IH]; intros Hg; simpl; [done|].
  rewrite (Hg x) by (by left). apply IH. intros y Hy. apply Hg. by right.
Qed.

Lemma filter_seq_split (g : N → bool) n m :
  (n ≤ m)%nat → (∀ id, N.of_nat n ≤ id → g id = false) →
  List.filter g (map N.of_nat (seq 0 m)) = List.filter g (map N.of_nat (seq 0 n)).
Proof.
  intros Hnm Hg. replace m with (n + (m - n))%nat by lia.
  rewrite seq_app, map_app, List.filter_app, (filter_none g (map _ (seq (0 + n) _))).
  - apply app_nil_r.
  - intros x Hx. apply in_map_iff in Hx as (i & <- & Hi). apply in_seq in Hi. apply Hg. lia.
Qed.

(** ** Packing for the foreign boundary *)

Lemma write_word_length buf i w : length (write_word buf i w) = length buf.
Proof.
  unfold write_word. generalize (imap (λ offset b, (offset, b)) (to_le_bytes w)).
  intros l. revert buf. induction l as [|[o b] l IH]; intros buf; simpl; [done|].
  rewrite IH. apply length_insert.
Qed.

Lemma to_le_bytes_length w : length (to_le_bytes w) = 8%nat.
Proof. done. Qed.

(** One word's write: its eight bytes, cut off at the end of the buffer. *)
Lemma write_slots_lookup (bs : list byte) buf base p :
  foldl (λ buf '(offset, b), write_slot buf (base + offset) b) buf
    (imap (λ offset b, (offset, b)) bs) !! p =
  if decide (base ≤ p < base + length bs ∧ p < length buf)%nat
  then bs !! (p - base)%nat else buf !! p.
Proof.
  induction bs as [|b bs IH] using rev_ind; simpl.
  { by rewrite decide_False by lia. }
  rewrite imap_app, foldl_app. simpl. unfold write_slot at 1. rewrite Nat.add_0_r, length_app. simpl.
  assert (length (foldl (λ buf '(offset, b), write_slot buf (base + offset) b) buf
    (imap (λ offset b, (offset, b)) bs)) = length buf) as Hl.
  { clear IH. generalize (imap (λ offset b, (offset, b)) bs). intros l.
    revert buf. induction l as [|[o c] l IHl]; intros buf; simpl; [done|].
    rewrite IHl. apply length_insert. }
  rewrite list_lookup_insert, Hl, IH. repeat case_decide; try lia; try done.
  all: rewrite ?lookup_app_l by lia; rewrite ?lookup_app_r by lia; try done.
  by replace (p - base - length bs)%nat with 0%nat by lia.
Qed.

Lemma write_word_lookup buf i w p :
  write_word buf i w !! p =
  if decide (i * 8 ≤ p < i * 8 + 8 ∧ p < length buf)%nat
  then to_le_bytes w !! (p - i * 8)%nat else buf !! p.
Proof. apply write_slots_lookup. Qed.

Lemma write_words_length ws k buf :
  length (foldl (λ buf '(word_idx, w), write_word buf word_idx w) buf
    (imap (λ i w, ((k + i)%nat, w)) ws)) = length buf.
Proof.
  revert k buf. induction ws as [|w ws IH]; intros k buf; simpl; [done|].
  rewrite (imap_ext _ (λ i w, ((S k + i)%nat, w))) by (intros; unfold compose; f_equal; lia).
  rewrite IH. apply write_word_length.
Qed.

(** All the words: position [p] ends up with the byte of the word it lies in. *)
Lemma write_words_lookup ws k buf p i w :
  ws !! i = Some w → ((k + i) * 8 ≤ p < (k + i) * 8 + 8)%nat → (p < length buf)%nat →
  foldl (λ buf '(word_idx, w), write_word buf word_idx w) buf
    (imap (λ i w, ((k + i)%nat, w)) ws) !! p = to_le_bytes w !! (p - (k + i) * 8)%nat.
Proof.
  revert i. induction ws as [|v ws IH] using rev_ind; intros i Hi Hp Hl; [done|].
  rewrite imap_app, foldl_app. simpl. rewrite write_word_lookup, write_words_length.
  rewrite Nat.add_0_r. apply lookup_snoc_Some in Hi as [[Hi Hw]|[-> ->]].
  - rewrite decide_False by lia. by apply IH.
  - by rewrite decide_True by lia.
Qed.

Lemma to_le_bytes_lookup w o :
  (o < 8)%nat →
  ∃ b, to_le_bytes w !! o = Some b ∧ Byte.to_N b = N.land (N.shiftr w (8 * N.of_nat o)) 255.
Proof.
  intros Ho. unfold to_le_bytes.
  set (n := N.land (N.shiftr w (8 * N.of_nat o)) 255).
  assert (n < 256) as Hn.
  { unfold n. change 255 with (N.ones 8). rewrite N.land_ones. by apply N.mod_lt. }
  destruct (Byte.of_N n) as [b|] eqn:E; [|apply Byte.of_N_None_iff in E; lia].
  exists b. split; [|by apply Byte.to_of_N].
  rewrite (list_lookup_fmap _ (seq 0 8)), lookup_seq_lt by done. simpl. fold n. by rewrite E.
Qed.

(** ** Properties *)

(** Every operation keeps a mask well formed, and its effect is exactly the one
    its name says at every id, in or out of range. *)
Theorem mask_operations m n id j :
  mask_ok m → mask_ok n → mlen m = mlen n →
  (mask_ok (set m id) ∧
   test (set m id) j = ((j =? id) && (id <? N.of_nat (mlen m))) || test m j) ∧
  (mask_ok (clear m id) ∧ test (clear m id) j = negb (j =? id) && test m j) ∧
  (mask_ok (intersect m n) ∧ test (intersect m n) j = test m j && test n j) ∧
  copy_from m n = n ∧ clear_all m = with_len (mlen m).
Proof.
  intros Hm Hn Hl.
  split_and!; auto using test_set, test_clear, test_intersect, copy_from_eq, clear_all_with_len with mask.
Qed.

Lemma mask_operations_witness :
  let m := set (set (with_len 70) 3) 69 in
  let n := set (with_len 70) 3 in
  test (intersect m n) 69 = false ∧ test (intersect m n) 3 = true.
Proof.
  intros m n.
  assert (mask_ok m ∧ mask_ok n) as [Hm Hn] by (unfold m, n; auto 8 with mask).
  destruct (mask_operations m n 0 69 Hm Hn eq_refl) as (_ & _ & [_ ->] & _).
  destruct (mask_operations m n 0 3 Hm Hn eq_refl) as (_ & _ & [_ ->] & _).
  by split.
Defined.

(** [iter_ones] lists the set ids of a mask, ascending and each once, as long as
    the mask fits the [u32] id space. *)
Theorem iter_ones_exact m :
  mask_ok m → N.of_nat (64 * length (words m)) ≤ U32_MOD →
  iter_ones m = List.filter (test m) (map N.of_nat (seq 0 (mlen m))).
Proof.
  intros Hm Hl. unfold iter_ones. etrans; [apply (iter_words_exact (words m) 0 (test m))|].
  - done.
  - intros i w j Hw Hj. rewrite test_bit by done. by apply bit_at_word.
  - apply filter_seq_split; [|intros; by apply test_out_of_range].
    rewrite (ok_words m Hm). unfold div_ceil, WORD_BITS.
    pose proof (N.div_mod (N.of_nat (mlen m) + 64 - 1) 64).
    pose proof (N.mod_lt (N.of_nat (mlen m) + 64 - 1) 64). lia.
Qed.

Lemma iter_ones_exact_witness :
  iter_ones (set (set (with_len 70) 69) 3) = [3; 69].
Proof.
  rewrite iter_ones_exact; [by vm_compute|auto with mask|by vm_compute].
Defined.

(** The packed form the host unpacks: [ceil(len / 8)] bytes, and bit [id % 8] of
    byte [id / 8] is the mask's bit for [id], whatever the buffer held. *)
Theorem pack_le_bytes_exact m buf :
  mask_ok m →
  length (pack_le_bytes_into m buf) = N.to_nat (div_ceil (N.of_nat (mlen m)) 8) ∧
  ∀ id, id < N.of_nat (mlen m) →
    ∃ b, pack_le_bytes_into m buf !! N.to_nat (id / 8) = Some b ∧
         N.testbit (Byte.to_N b) (id mod 8) = test m id.
Proof.
  intros Hm. unfold pack_le_bytes_into.
  set (z := replicate _ x00). pose proof (write_words_length (words m) 0 z) as Hlen. simpl in Hlen.
  split; [by rewrite Hlen; apply length_replicate|].
  intros id Hid. destruct (locate_in_range m id Hm Hid) as [w Hw].
  set (o := N.to_nat ((id / 8) mod 8)).
  assert (N.to_nat (id / 8) = N.to_nat (id / WORD_BITS) * 8 + o)%nat as Hp.
  { unfold o, WORD_BITS. change 64 with (8 * 8). rewrite <-N.Div0.div_div.
    pose proof (N.div_mod (id / 8) 8). lia. }
  assert (o < 8)%nat as Ho. { unfold o. pose proof (N.mod_lt (id / 8) 8). lia. }
  destruct (to_le_bytes_lookup w o Ho) as (b & Hb & Hbn). exists b. split.
  - pose proof (write_words_lookup (words m) 0 z (N.to_nat (id / 8)) _ w Hw) as Hl.
    simpl in Hl. rewrite Hl; [|lia|].
    + rewrite <-Hb. f_equal. lia.
    + unfold z. rewrite length_replicate. pose proof (div_ceil_lt (N.of_nat (mlen m)) 8 id). lia.
  - rewrite test_bit, (bit_at_lookup _ _ w), Hbn by done.
    change 255 with (N.ones 8). rewrite N.land_spec, N.ones_spec_low, andb_true_r
      by (by apply N.mod_lt).
    rewrite N.shiftr_spec'. f_equal. unfold o, WORD_BITS.
    rewrite N2Nat.id. change 64 with (8 * 8). rewrite (N.Div0.mod_mul_r id 8 8). lia.
Qed.

Lemma pack_le_bytes_exact_witness :
  pack_le_bytes_into (set (with_len 9) 8) [xff; xff; xff] = [x00; x01].
Proof.
  destruct (pack_le_bytes_exact (set (with_len 9) 8) [xff; xff; xff]) as [_ _];
    [auto with mask|by vm_compute].
Defined.

(** The documented padding contract fails for a public call: copying from a
    longer mask of as many words sets bits at and past [len], which [test]
    reports absent and [iter_ones] still yields. *)
Theorem copy_from_leaks_padding :
  let longer := set (with_len 64) 5 in
  let m := copy_from (with_len 1) longer in
  mlen m = 1%nat ∧ test m 5 = false ∧ iter_ones m = [5] ∧ ¬ mask_ok m.
Proof.
  cbv zeta. split; [done|]. split; [done|]. split; [by vm_compute|].
  intros Hok. by pose proof (ok_padding _ Hok 5 ltac:(done)).
Qed.
