(* ===== verification/BTree.v ===== *)
(** * Ordered maps

    Rust's [BTreeMap], which the code iterates in key order: an association
    list kept strictly ascending by its keys.  The key order is an interface
    ([OrdKey] with its laws); strings carry Rust's byte-lexicographic order. *)

From Stdlib Require Import Sorting.Sorted.
From S2P Require Import Prelude.

(** ** Ordered keys *)

Class OrdKey (K : Type) := key_cmp : K → K → comparison.
Class OrdKeyLaws (K : Type) `{OrdKey K} : Prop := {
  key_cmp_eq a b : key_cmp a b = Eq ↔ a = b;
  key_cmp_antisym a b : key_cmp b a = CompOpp (key_cmp a b);
  key_cmp_trans a b c : key_cmp a b = Lt → key_cmp b c = Lt → key_cmp a c = Lt;
}.

#[global] Instance string_ord : OrdKey string := String.compare.
#[global] Instance nat_ord : OrdKey nat := Nat.compare.

Lemma ascii_compare_trans a b c :
  Ascii.compare a b = Lt → Ascii.compare b c = Lt → Ascii.compare a c = Lt.
Proof. unfold Ascii.compare. rewrite !N.compare_lt_iff. lia. Qed.

Lemma ascii_compare_eq a b : Ascii.compare a b = Eq → a = b.
Proof. apply Ascii.compare_eq_iff. Qed.

#[global] Instance string_ord_laws : OrdKeyLaws string.
Proof.
  split.
  - intros a b. split; [apply String.compare_eq_iff|]. intros ->.
    unfold key_cmp, string_ord. induction b as [|x b IH]; simpl; [done|].
    unfold Ascii.compare. by rewrite N.compare_refl.
  - intros a b. apply (String.compare_antisym b a).
  - unfold key_cmp, string_ord. intros a. induction a as [|x a IH]; intros [|y b] [|z c]; simpl; try done.
    destruct (Ascii.compare x y) eqn:E1, (Ascii.compare y z) eqn:E2; try done.
    + apply ascii_compare_eq in E1 as ->. rewrite E2. apply IH.
    + apply ascii_compare_eq in E1 as ->. by rewrite E2.
    + apply ascii_compare_eq in E2 as ->. by rewrite E1.
    + by rewrite (ascii_compare_trans _ _ _ E1 E2).
Qed.

#[global] Instance nat_ord_laws : OrdKeyLaws nat.
Proof.
  split; unfold key_cmp, nat_ord.
  - apply Nat.compare_eq_iff.
  - intros a b. apply Nat.compare_antisym.
  - intros a b c. rewrite !Nat.compare_lt_iff. lia.
Qed.

(** ** The map *)

Section btree.
Context {K V : Type} `{OrdKey K}.

Definition key_lt (a b : K) : Prop := key_cmp a b = Lt.

Fixpoint bt_get (m : list (K * V)) (k : K) : option V :=
  match m with
  | [] => None
  | (k', v) :: m => match key_cmp k k' with Eq => Some v | Lt => None | Gt => bt_get m k end
  end.

(** [BTreeMap::insert]: the new map; the old value is [bt_get]. *)
Fixpoint bt_insert (m : list (K * V)) (k : K) (v : V) : list (K * V) :=
  match m with
  | [] => [(k, v)]
  | (k', v') :: m' =>
      match key_cmp k k' with
      | Eq => (k, v) :: m'
      | Lt => (k, v) :: m
      | Gt => (k', v') :: bt_insert m' k v
      end
  end.

(** [entry(k).or_insert(v)]: an occupied entry is kept. *)
Definition bt_or_insert (m : list (K * V)) (k : K) (v : V) : list (K * V) :=
  match bt_get m k with Some _ => m | None => bt_insert m k v end.

Definition bt_of_list (l : list (K * V)) : list (K * V) :=
  foldl (λ m '(k, v), bt_insert m k v) [] l.

(** [BTreeMap::remove]: the map that is left; the old value is [bt_get]. *)
Definition bt_remove (m : list (K * V)) (k : K) : list (K * V) :=
  List.filter (λ x, match key_cmp x.1 k with Eq => false | _ => true end) m.

Definition bt_sorted (m : list (K * V)) : Prop := StronglySorted key_lt m.*1.

Context `{!OrdKeyLaws K}.

Lemma key_cmp_refl a : key_cmp a a = Eq.
Proof. by apply key_cmp_eq. Qed.

Lemma key_cmp_gt a b : key_cmp a b = Gt ↔ key_lt b a.
Proof. unfold key_lt. rewrite (key_cmp_antisym a b). by destruct (key_cmp a b). Qed.

Lemma key_lt_irrefl a : ¬ key_lt a a.
Proof. unfold key_lt. by rewrite key_cmp_refl. Qed.

Lemma key_lt_nodup (l : list K) : StronglySorted key_lt l → NoDup l.
Proof.
  induction 1 as [|p l Hs IH Hp]; constructor; [|done]. intros Hin. rewrite Forall_forall in Hp.
  by apply (key_lt_irrefl p), Hp.
Qed.

Lemma bt_get_below m k : Forall (key_lt k) m.*1 → bt_get m k = None.
Proof.
  destruct m as [|[k' v] m]; simpl; [done|]. intros Hf. inversion Hf as [|?? Hlt]; subst.
  unfold key_lt in Hlt. by rewrite Hlt.
Qed.

(** On a sorted map, lookup is membership. *)
Lemma bt_get_elem m k v : bt_sorted m → bt_get m k = Some v ↔ (k, v) ∈ m.
Proof.
  unfold bt_sorted. induction m as [|[k' v'] m IH]; simpl; intros Hs.
  { split; [done|]. by intros ?%not_elem_of_nil. }
  inversion Hs as [|?? Hs' Hf]; subst. rewrite elem_of_cons.
  destruct (key_cmp k k') eqn:E.
  - apply key_cmp_eq in E as ->. split; [intros [= ->]; by left|].
    intros [[= ->]|Hin]; [done|]. exfalso. apply (key_lt_irrefl k').
    rewrite Forall_forall in Hf. apply Hf. apply list_elem_of_fmap. by exists (k', v).
  - split; [done|]. intros [[= -> ->]|Hin]; [by rewrite key_cmp_refl in E|].
    exfalso. rewrite Forall_forall in Hf. apply (key_lt_irrefl k).
    apply (key_cmp_trans k k' k E), Hf. apply list_elem_of_fmap. by exists (k, v).
  - rewrite IH by done. split; [by right|]. intros [[= -> ->]|?]; [by rewrite key_cmp_refl in E|done].
Qed.

Lemma bt_get_insert m k v k' :
  bt_sorted m →
  bt_get (bt_insert m k v) k' = if key_cmp k' k is Eq then Some v else bt_get m k'.
Proof.
  unfold bt_sorted. induction m as [|[k1 v1] m IH]; simpl; intros Hs.
  { by destruct (key_cmp k' k). }
  inversion Hs as [|?? Hs' Hf]; subst. specialize (IH Hs').
  destruct (key_cmp k k1) eqn:E; simpl.
  - apply key_cmp_eq in E as ->. by destruct (key_cmp k' k1).
  - destruct (key_cmp k' k) eqn:E'; [done| |done].
    by rewrite (key_cmp_trans k' k k1).
  - rewrite IH. apply key_cmp_gt in E.
    destruct (key_cmp k' k1) eqn:E1, (key_cmp k' k) eqn:E2; try done; exfalso.
    + apply key_cmp_eq in E1 as ->. apply key_cmp_eq in E2 as ->. by apply (key_lt_irrefl k).
    + apply key_cmp_eq in E2 as ->. apply (key_lt_irrefl k). by apply (key_cmp_trans k k1 k).
Qed.

Lemma bt_insert_keys m k v j : j ∈ (bt_insert m k v).*1 ↔ j = k ∨ j ∈ m.*1.
Proof.
  induction m as [|[k1 v1] m IH]; simpl; [set_solver|].
  destruct (key_cmp k k1) eqn:E; simpl.
  - apply key_cmp_eq in E as ->. set_solver.
  - set_solver.
  - rewrite !elem_of_cons, IH. set_solver.
Qed.

Lemma bt_insert_sorted m k v : bt_sorted m → bt_sorted (bt_insert m k v).
Proof.
  unfold bt_sorted. induction m as [|[k1 v1] m IH]; simpl; intros Hs.
  { repeat constructor. }
  inversion Hs as [|?? Hs' Hf]; subst. destruct (key_cmp k k1) eqn:E; simpl.
  - apply key_cmp_eq in E as ->. by constructor.
  - constructor; [done|]. constructor; [done|].
    eapply Forall_impl; [exact Hf|]. intros j Hj. by apply (key_cmp_trans k k1 j).
  - constructor; [by apply IH|]. apply Forall_forall. intros j [->|Hj]%bt_insert_keys.
    + by apply key_cmp_gt.
    + by apply (Forall_forall (key_lt k1) m.*1).
Qed.

Lemma bt_or_insert_sorted m k v : bt_sorted m → bt_sorted (bt_or_insert m k v).
Proof. unfold bt_or_insert. destruct (bt_get m k); auto using bt_insert_sorted. Qed.

Lemma bt_nil_sorted : bt_sorted [].
Proof. constructor. Qed.

Lemma bt_of_list_sorted l : bt_sorted (bt_of_list l).
Proof.
  unfold bt_of_list. assert (bt_sorted []) as Hs by constructor. revert Hs.
  generalize (@nil (K * V)). induction l as [|[k v] l IH]; intros m Hs; simpl; [done|].
  by apply IH, bt_insert_sorted.
Qed.

Lemma bt_get_Some_in m k v : bt_get m k = Some v → (k, v) ∈ m.
Proof.
  induction m as [|[k' v'] m IH]; simpl; [done|]. destruct (key_cmp k k') eqn:E; try done.
  - apply key_cmp_eq in E as ->. intros [= ->]. by left.
  - intros. right. auto.
Qed.

Lemma bt_get_is_Some m k : bt_sorted m → is_Some (bt_get m k) ↔ k ∈ m.*1.
Proof.
  intros Hs. split.
  - intros [v Hv%bt_get_Some_in]. apply list_elem_of_fmap. by exists (k, v).
  - intros ([k' v] & -> & Hin)%list_elem_of_fmap. exists v. by apply bt_get_elem.
Qed.

(** Distinct keys sit at distinct positions. *)
Lemma bt_sorted_nodup m : bt_sorted m → NoDup m.*1.
Proof.
  unfold bt_sorted. induction 1 as [|k ks Hs IH Hf]; constructor; [|done].
  intros Hin. rewrite Forall_forall in Hf. by apply (key_lt_irrefl k), Hf.
Qed.

Lemma bt_remove_in m k j v : (j, v) ∈ bt_remove m k ↔ (j, v) ∈ m ∧ j ≠ k.
Proof.
  unfold bt_remove. rewrite !list_elem_of_In, filter_In. simpl.
  assert (key_cmp j k = Eq ↔ j = k) as Hjk.
  { split; [apply key_cmp_eq|intros ->; apply key_cmp_refl]. }
  destruct (key_cmp j k); (split; intros [? Hn]; (split; [done|])); try done.
  - by destruct Hn; apply Hjk.
  - by intros Hk%Hjk.
  - by intros Hk%Hjk.
Qed.

Lemma bt_remove_sorted m k : bt_sorted m → bt_sorted (bt_remove m k).
Proof.
  unfold bt_sorted, bt_remove. induction m as [|[k' v] m IH]; simpl; [done|]. intros Hs.
  inversion Hs as [|? ? Hs' Hf]; subst.
  assert (StronglySorted key_lt ((k', v) :: bt_remove m k).*1) as Hcons.
  { simpl. constructor; [by apply IH|]. rewrite Forall_forall in *. intros j Hj. apply Hf.
    apply list_elem_of_fmap in Hj as ([j' w] & -> & Hx). apply bt_remove_in in Hx as [Hx _].
    apply list_elem_of_fmap. by exists (j', w). }
  destruct (key_cmp k' k); simpl; [by apply IH|exact Hcons..].
Qed.

Lemma bt_get_remove m k k' :
  bt_sorted m → bt_get (bt_remove m k) k' = match key_cmp k' k with Eq => None | _ => bt_get m k' end.
Proof.
  intros Hs. apply option_eq. intros v. rewrite bt_get_elem by by apply bt_remove_sorted.
  rewrite bt_remove_in. destruct (key_cmp k' k) eqn:E.
  { apply key_cmp_eq in E as ->. split; [by intros [_ []]|done]. }
  all: rewrite bt_get_elem by done; (split; [by intros [? _]|]); intros ?; (split; [done|]);
    intros ->; by rewrite key_cmp_refl in E.
Qed.

Lemma bt_insert_perm m k v : bt_get m k = None → bt_sorted m → bt_insert m k v ≡ₚ (k, v) :: m.
Proof.
  unfold bt_sorted. induction m as [|[k' v'] m IH]; [done|]. simpl. intros Hg Hs.
  inversion Hs; subst. destruct (key_cmp k k'); [done|done|]. rewrite IH by done. constructor.
Qed.

Lemma bt_remove_perm m k v : bt_get m k = Some v → bt_sorted m → m ≡ₚ (k, v) :: bt_remove m k.
Proof.
  intros Hg Hs. apply NoDup_Permutation.
  - eapply NoDup_fmap_1, bt_sorted_nodup, Hs.
  - constructor.
    + rewrite bt_remove_in. by intros [_ ?].
    + eapply NoDup_fmap_1, bt_sorted_nodup, bt_remove_sorted, Hs.
  - intros [j w]. rewrite elem_of_cons, bt_remove_in. split.
    + intros Hj. destruct (key_cmp j k) eqn:E.
      * apply key_cmp_eq in E as ->. left. apply bt_get_elem in Hj; [|done]. congruence.
      * right. split; [done|]. intros ->. by rewrite key_cmp_refl in E.
      * right. split; [done|]. intros ->. by rewrite key_cmp_refl in E.
    + intros [[= -> ->]|[? _]]; [by apply bt_get_elem|done].
Qed.

Lemma bt_insert_last m k v : Forall (λ j, key_lt j k) m.*1 → bt_insert m k v = m ++ [(k, v)].
Proof.
  induction m as [|[k1 v1] m IH]; simpl; [done|]. intros [Hk Hm]%Forall_cons.
  apply key_cmp_gt in Hk. rewrite Hk. by rewrite IH.
Qed.

(** Collecting a list already in key order changes nothing. *)
Lemma bt_of_list_id l : bt_sorted l → bt_of_list l = l.
Proof.
  unfold bt_of_list. assert (∀ m, bt_sorted (m ++ l) →
    foldl (λ m '(k, v), bt_insert m k v) m l = m ++ l) as Hgen; [|apply (Hgen [])].
  induction l as [|[k v] l IH]; intros m Hs; simpl; [by rewrite app_nil_r|].
  assert (bt_insert m k v = m ++ [(k, v)]) as E.
  { apply bt_insert_last. unfold bt_sorted in Hs. clear IH.
    induction m as [|[k1 v1] m IHm]; simpl in *; [constructor|].
    inversion Hs as [|?? Hs' Hf]; subst. constructor; [|by apply IHm].
    rewrite Forall_forall in Hf. apply Hf. rewrite fmap_app. apply elem_of_app. right. by left. }
  rewrite E, IH; rewrite <-(assoc_L (++)); done.
Qed.

Lemma bt_insert_length m k v : bt_get m k = None → bt_sorted m →
  length (bt_insert m k v) = S (length m).
Proof.
  unfold bt_sorted. induction m as [|[k1 v1] m IH]; simpl; intros Hn Hs; [done|].
  inversion Hs; subst. destruct (key_cmp k k1); simpl; [done|done|]. by rewrite IH.
Qed.
End btree.

#[export] Hint Resolve bt_insert_sorted bt_or_insert_sorted bt_of_list_sorted bt_nil_sorted : core.
