(* ===== verification/Spec.v ===== *)
(** * The declarative grammar spec

    The data model of [grammar/spec.rs]: a versioned, JSON-deserialized
    transition table with named states and frames, byte tests, stack guards
    and actions, and the errors of its validation.  The JSON parser itself
    ([serde_json]) is a parameter of [GrammarSpec_parse]. *)

From S2P Require Import Prelude PdaState BTree.

(** ** Bounds *)

Definition MAX_STATES : nat := 512.
Definition MAX_RULES_PER_STATE : nat := 64.
Definition MAX_TOTAL_RULES : nat := Nat.mul 8 1024.
Definition MAX_FRAMES : nat := 64.

(** [default_boundary_byte]. *)
Definition default_boundary_byte : byte := " "%byte.

(** ** Byte tests *)

Inductive ByteTest :=
| Whitespace
| IdentStart
| IdentTail
| Digit
| Exact (want : byte)
| OneOf (bytes : list byte)
| NoneOf (bytes : list byte)
| Any.

#[global] Instance ByteTest_eq_dec : EqDecision ByteTest.
Proof. solve_decision. Defined.

(** [slice::contains]. *)
Definition contains (bytes : list byte) (b : byte) : bool := existsb (λ x, (b =? x)%u8) bytes.

(** [ByteTest::matches]. *)
Definition byte_matches (t : ByteTest) (b : byte) : bool :=
  match t with
  | Whitespace => match b with " "%byte | x09 | x0a | x0d => true | _ => false end
  | IdentStart => is_ascii_alphabetic b || (b =? "_")%u8
  | IdentTail => is_ascii_alphanumeric b || (b =? "_")%u8
  | Digit => is_ascii_digit b
  | Exact want => (b =? want)%u8
  | OneOf bytes => contains bytes b
  | NoneOf bytes => negb (contains bytes b)
  | Any => true
  end.

(** [ByteTest::is_subsumed_by]. *)
Definition is_subsumed_by (t other : ByteTest) : bool :=
  forallb (λ b, negb (byte_matches t b) || byte_matches other b) all_bytes.

(** ** Guards, actions, rules, states *)

Inductive Guard :=
| Always
| StackTopIs (frame : string)
| StackTopIsNot (frame : string)
| StackNonEmpty
| StackEmpty.

Inductive Action :=
| ANext (state : string)
| APush (frame state : string)
| APop (state : string)
| AGoto (state : string)
| ADead.

Record TransitionRule := { byte_test : ByteTest; guard : Guard; action : Action }.
Record StateSpec := { accepting : bool; rules : list TransitionRule }.

(** [GrammarSpecV1]: [states] is a [BTreeMap], so a value of the code is
    always sorted ([spec_ok] below). *)
Record GrammarSpecV1 := {
  start : string;
  boundary_byte : byte;
  frames : list string;
  states : list (string * StateSpec);
}.

(** [GrammarSpec]: one variant per version tag. *)
Inductive GrammarSpec := V1 (v1 : GrammarSpecV1).

Definition spec_ok (v1 : GrammarSpecV1) : Prop := bt_sorted (states v1).

(** ** Errors *)

Inductive SpecError :=
| Malformed (line column : nat) (message : string)
| UnknownStartState (start : string)
| UnknownTargetState (state : string) (rule_index : nat) (target : string)
| UnknownFrame (state : string) (rule_index : nat) (frame : string)
| TooManyStates (count max : nat)
| TooManyRules (state : string) (count max : nat)
| TooManyTotalRules (count max : nat)
| TooManyFrames (count max : nat)
| DuplicateFrame (frame : string)
| AmbiguousTransition (state : string) (first_index rule_index : nat)
| UnreachableRule (state : string) (rule_index shadowed_by : nat)
| UnguardedPop (state : string) (rule_index : nat)
| CyclicGoto (state : string) (rule_index : nat)
| NoReachableAccept (start : string).

#[global] Instance SpecError_eq_dec : EqDecision SpecError.
Proof. solve_decision. Defined.

(** The position and message of a [serde_json::Error]. *)
Record JsonError := { line : nat; column : nat; message : string }.

(** [From<serde_json::Error> for SpecError]. *)
Definition SpecError_from (e : JsonError) : SpecError :=
  Malformed (line e) (column e) (message e).

(** [GrammarSpec::parse], over the JSON deserializer. *)
Definition GrammarSpec_parse (from_str : string → Result GrammarSpec JsonError) (text : string)
    : Result GrammarSpec SpecError :=
  match from_str text with Ok s => Ok s | Err e => Err (SpecError_from e) end.

(** ** Byte tests decide byte sets *)

Lemma contains_elem bytes b : contains bytes b = true ↔ b ∈ bytes.
Proof.
  unfold contains. rewrite existsb_exists. split.
  - intros (x & Hin & ->%byte_eqb_eq). by apply list_elem_of_In.
  - intros Hin. exists b. split; [by apply list_elem_of_In|apply byte_eqb_refl].
Qed.

Lemma is_subsumed_by_spec t other :
  is_subsumed_by t other = true ↔ ∀ b, byte_matches t b = true → byte_matches other b = true.
Proof.
  unfold is_subsumed_by. split.
  - intros H b Hb. pose proof (forallb_bytes _ H b) as Hi. cbv beta in Hi.
    by rewrite Hb in Hi.
  - intros H. apply forallb_forall. intros b _.
    destruct (byte_matches t b) eqn:E; simpl; auto.
Qed.

(** The spec's classes are the hand-written automaton's. *)
Lemma byte_classes_agree b :
  byte_matches Whitespace b = is_ws b ∧ byte_matches IdentStart b = is_ident_start b ∧
  byte_matches IdentTail b = is_ident_tail b.
Proof. by destruct b. Qed.
