(* ===== verification/Compile.v ===== *)
(** * Lowering a grammar spec

    [grammar/compile.rs]: validation of a [GrammarSpec] and its lowering into
    the dense table [CompiledAutomaton], with the table's transition function
    [step] and its driver [RtnPda].

    Ids are [nat]: the code casts an index to [u32] only after the counts were
    checked against [MAX_STATES] and [MAX_FRAMES], where the cast is exact. *)

From stdpp Require Import gmap.
From S2P Require Import Prelude StackMachine PdaState BTree Spec.

Definition GRAPH_TRAVERSAL_BUDGET : nat := Nat.mul 100 1000.

(** ** The compiled table *)

Inductive CompiledGuard :=
| CAlways
| CStackTopIs (frame : nat)
| CStackTopIsNot (frame : nat)
| CStackNonEmpty
| CStackEmpty.

#[global] Instance CompiledGuard_eq_dec : EqDecision CompiledGuard.
Proof. solve_decision. Defined.

(** [CompiledGuard::matches]. *)
Definition guard_matches (g : CompiledGuard) (stack_top : option nat) : bool :=
  match g with
  | CAlways => true
  | CStackTopIs frame => bool_decide (stack_top = Some frame)
  | CStackTopIsNot frame =>
      match stack_top with Some top => negb (top =? frame)%nat | None => false end
  | CStackNonEmpty => bool_decide (is_Some stack_top)
  | CStackEmpty => bool_decide (stack_top = None)
  end.

Inductive CompiledAction :=
| CNext (state : nat)
| CPush (frame state : nat)
| CPop (state : nat)
| CGoto (state : nat)
| CDead.

Record CompiledRule := {
  c_byte_test : ByteTest;
  c_guard : CompiledGuard;
  c_action : CompiledAction;
}.

Record CompiledState := { c_accepting : bool; c_rules : list CompiledRule }.

(** [CompiledAutomaton]. *)
Record CompiledAutomaton := {
  a_states : list CompiledState;
  a_start : nat;
  frame_count : nat;
  a_boundary_byte : byte;
  state_names : list string;
  frame_names : list string;
}.

(** [CompiledAutomaton::state_name] and [frame_name]. *)
Definition state_name (a : CompiledAutomaton) (id : nat) : string :=
  default "unknown" (state_names a !! id).
Definition frame_name (a : CompiledAutomaton) (id : option nat) : string :=
  match id with None => "none" | Some id => default "unknown" (frame_names a !! id) end.

(** [CompiledAutomaton::state_count]. *)
Definition state_count (a : CompiledAutomaton) : nat := length (a_states a).

(** ** The transition function *)

(** The first rule whose test and guard both match. *)
Definition select_rule (rs : list CompiledRule) (stack_top : option nat) (b : byte)
    : option CompiledRule :=
  List.find (λ r, byte_matches (c_byte_test r) b && guard_matches (c_guard r) stack_top) rs.

(** The body of [CompiledAutomaton::step]'s loop, run a bounded number of
    times. *)
Fixpoint goto_loop (a : CompiledAutomaton) (fuel : nat) (state : nat) (stack_top : option nat)
    (b : byte) : Step nat nat :=
  match fuel with
  | O => Dead
  | S fuel =>
      match a_states a !! state with
      | None => Dead
      | Some compiled =>
          match c_action <$> select_rule (c_rules compiled) stack_top b with
          | Some (CNext next) => Next next
          | Some (CPush frame next) => Push frame next
          | Some (CPop next) =>
              match stack_top with None => Dead | Some _ => Pop next end
          | Some (CGoto next) => goto_loop a fuel next stack_top b
          | Some CDead | None => Dead
          end
      end
  end.

(** [CompiledAutomaton::step]: the range is [0..=states.len()]. *)
Definition step (a : CompiledAutomaton) (state : nat) (stack_top : option nat) (b : byte)
    : Step nat nat :=
  goto_loop a (S (length (a_states a))) state stack_top b.

(** [CompiledAutomaton::is_accepting_state]. *)
Definition is_accepting_state (a : CompiledAutomaton) (state : nat) : bool :=
  match a_states a !! state with
  | None => false
  | Some compiled =>
      c_accepting compiled ||
      match step a state None (a_boundary_byte a) with
      | Next landed => from_option c_accepting false (a_states a !! landed)
      | _ => false
      end
  end.

(** ** Lowering rules *)

Definition Ids : Type := list (string * nat).

Definition ok_or {A E} (o : option A) (e : E) : Result A E :=
  match o with Some a => Ok a | None => Err e end.

(** [compile_guard]. *)
Definition compile_guard (state : string) (rule_index : nat) (g : Guard) (frame_ids : Ids)
    : Result CompiledGuard SpecError :=
  let resolve frame := ok_or (bt_get frame_ids frame) (UnknownFrame state rule_index frame) in
  match g with
  | Always => Ok CAlways
  | StackTopIs frame => let? f := resolve frame in Ok (CStackTopIs f)
  | StackTopIsNot frame => let? f := resolve frame in Ok (CStackTopIsNot f)
  | StackNonEmpty => Ok CStackNonEmpty
  | StackEmpty => Ok CStackEmpty
  end.

(** [compile_action]: a pop is legal only behind a guard that proves the stack
    non-empty. *)
Definition compile_action (state : string) (rule_index : nat) (act : Action)
    (state_ids frame_ids : Ids) (g : CompiledGuard) : Result CompiledAction SpecError :=
  let resolve_state target :=
    ok_or (bt_get state_ids target) (UnknownTargetState state rule_index target) in
  let resolve_frame frame :=
    ok_or (bt_get frame_ids frame) (UnknownFrame state rule_index frame) in
  match act with
  | ANext target => let? s := resolve_state target in Ok (CNext s)
  | APush frame target =>
      let? f := resolve_frame frame in let? s := resolve_state target in Ok (CPush f s)
  | APop target =>
      match g with
      | CStackTopIs _ | CStackNonEmpty => let? s := resolve_state target in Ok (CPop s)
      | _ => Err (UnguardedPop state rule_index)
      end
  | AGoto target => let? s := resolve_state target in Ok (CGoto s)
  | ADead => Ok CDead
  end.

(** [same_guard]. *)
Definition same_guard (a b : CompiledGuard) : bool :=
  match a, b with
  | CAlways, CAlways | CStackNonEmpty, CStackNonEmpty | CStackEmpty, CStackEmpty => true
  | CStackTopIs x, CStackTopIs y | CStackTopIsNot x, CStackTopIsNot y => (x =? y)%nat
  | _, _ => false
  end.

(** [check_shadowing]: its loop over the earlier rules, from [earlier_index]. *)
Fixpoint check_shadowing_from (state : string) (rule_index : nat) (t : ByteTest)
    (g : CompiledGuard) (earlier_index : nat) (earlier : list CompiledRule)
    : Result () SpecError :=
  match earlier with
  | [] => Ok ()
  | r :: earlier =>
      if negb (same_guard (c_guard r) g) then
        check_shadowing_from state rule_index t g (S earlier_index) earlier
      else if bool_decide (t = c_byte_test r) then
        Err (AmbiguousTransition state earlier_index rule_index)
      else if is_subsumed_by t (c_byte_test r) then
        Err (UnreachableRule state rule_index earlier_index)
      else check_shadowing_from state rule_index t g (S earlier_index) earlier
  end.

Definition check_shadowing (state : string) (rule_index : nat) (t : ByteTest)
    (g : CompiledGuard) (earlier : list CompiledRule) : Result () SpecError :=
  check_shadowing_from state rule_index t g 0 earlier.

(** The per-rule loop of [compile_v1]: [done] holds the rules compiled so
    far. *)
Fixpoint compile_rules (name : string) (state_ids frame_ids : Ids) (rule_index : nat)
    (todo : list TransitionRule) (done : list CompiledRule)
    : Result (list CompiledRule) SpecError :=
  match todo with
  | [] => Ok done
  | rule :: todo =>
      let? g := compile_guard name rule_index (guard rule) frame_ids in
      let? act := compile_action name rule_index (action rule) state_ids frame_ids g in
      let? _ := check_shadowing name rule_index (byte_test rule) g done in
      compile_rules name state_ids frame_ids (S rule_index) todo
        (done ++ [{| c_byte_test := byte_test rule; c_guard := g; c_action := act |}])
  end.

(** [state_ids[name]], which the code indexes: the name is a key. *)
Definition state_id (state_ids : Ids) (name : string) : nat :=
  default 0 (bt_get state_ids name).

(** The per-state loop of [compile_v1]. *)
Fixpoint compile_states (state_ids frame_ids : Ids) (todo : list (string * StateSpec))
    : Result (list (nat * CompiledState)) SpecError :=
  match todo with
  | [] => Ok []
  | (name, state_spec) :: todo =>
      if MAX_RULES_PER_STATE <? length (rules state_spec) then
        Err (TooManyRules name (length (rules state_spec)) MAX_RULES_PER_STATE)
      else
        let? rs := compile_rules name state_ids frame_ids 0 (rules state_spec) [] in
        let? rest := compile_states state_ids frame_ids todo in
        Ok ((state_id state_ids name, {| c_accepting := accepting state_spec; c_rules := rs |})
            :: rest)
  end.

(** [sort_by_key(|(id, _)| *id)], stable. *)
Fixpoint insert_by_key {A} (x : nat * A) (l : list (nat * A)) : list (nat * A) :=
  match l with
  | [] => [x]
  | y :: l' => if fst x <=? fst y then x :: l else y :: insert_by_key x l'
  end.
Definition sort_by_key {A} (l : list (nat * A)) : list (nat * A) := foldr insert_by_key [] l.

(** The frame table of [compile_v1]: a repeated insert is a duplicate. *)
Fixpoint collect_frames (index : nat) (fs : list string) (frame_ids : Ids)
    : Result Ids SpecError :=
  match fs with
  | [] => Ok frame_ids
  | f :: fs =>
      match bt_get frame_ids f with
      | Some _ => Err (DuplicateFrame f)
      | None => collect_frames (S index) fs (bt_insert frame_ids f index)
      end
  end.

(** The state table: the keys numbered in map order, collected in a map. *)
Definition collect_state_ids (ss : list (string * StateSpec)) : Ids :=
  bt_of_list (imap (λ index s, (fst s, index)) ss).

(** ** Graph checks *)

Inductive Mark := Unvisited | InProgress | Done.

#[global] Instance Mark_eq_dec : EqDecision Mark.
Proof. solve_decision. Defined.

(** The goto edges with the first rule that owns each. *)
Record GotoGraph := {
  edges : list (list nat);
  owning_rule : gmap (nat * nat) (string * nat);
}.

(** The inner loop that collects one state's goto edges. *)
Fixpoint collect_edges (state_ids : Ids) (name : string) (from : nat) (rule_index : nat)
    (rs : list TransitionRule) (g : GotoGraph) : GotoGraph :=
  match rs with
  | [] => g
  | r :: rs =>
      let g' :=
        match action r with
        | AGoto target =>
            match bt_get state_ids target with
            | None => g
            | Some to =>
                {| edges := alter (λ es, es ++ [to]) from (edges g);
                   owning_rule :=
                     match owning_rule g !! (from, to) with
                     | Some _ => owning_rule g
                     | None => <[(from, to) := (name, rule_index)]> (owning_rule g)
                     end |}
            end
        | _ => g
        end in
      collect_edges state_ids name from (S rule_index) rs g'
  end.

Definition goto_graph (v1 : GrammarSpecV1) (state_ids : Ids) : GotoGraph :=
  foldl (λ g '(name, state_spec),
      collect_edges state_ids name (state_id state_ids name) 0 (rules state_spec) g)
    {| edges := replicate (length state_ids) []; owning_rule := ∅ |} (states v1).

(** How one traversal from a start ends: the stack drained, a cycle closed by
    the edge it names, or the iteration budget gone. *)
Inductive Traversal :=
| Drained (marks : list Mark)
| Cyclic (node neighbor : nat)
| Exhausted.

(** The bounded loop of [check_goto_acyclic].  The stack's head is its top. *)
Fixpoint dfs (es : list (list nat)) (fuel : nat) (marks : list Mark) (stack : list (nat * nat))
    : Traversal :=
  match fuel with
  | O => Exhausted
  | S fuel =>
      match stack with
      | [] => Drained marks
      | (node, next_edge) :: stack =>
          if length (nth node es []) <=? next_edge
          then dfs es fuel (<[node := Done]> marks) stack
          else
            let stack := (node, next_edge + 1) :: stack in
            let neighbor := nth next_edge (nth node es []) 0 in
            match nth neighbor marks Done with
            | InProgress => Cyclic node neighbor
            | Unvisited => dfs es fuel (<[neighbor := InProgress]> marks) ((neighbor, 0) :: stack)
            | Done => dfs es fuel marks stack
            end
      end
  end.

(** The loop over the starts. *)
Fixpoint dfs_starts (v1 : GrammarSpecV1) (g : GotoGraph) (marks : list Mark) (starts : list nat)
    : Result () SpecError :=
  match starts with
  | [] => Ok ()
  | s :: starts =>
      if negb (bool_decide (nth s marks Done = Unvisited)) then dfs_starts v1 g marks starts
      else
        match dfs (edges g) (S GRAPH_TRAVERSAL_BUDGET) (<[s := InProgress]> marks) [(s, 0)] with
        | Drained marks => dfs_starts v1 g marks starts
        | Cyclic node neighbor =>
            let '(state, rule_index) := default ("", 0) (owning_rule g !! (node, neighbor)) in
            Err (CyclicGoto state rule_index)
        | Exhausted => Err (CyclicGoto (start v1) 0)
        end
  end.

(** [check_goto_acyclic]. *)
Definition check_goto_acyclic (v1 : GrammarSpecV1) (state_ids : Ids) : Result () SpecError :=
  dfs_starts v1 (goto_graph v1 state_ids) (replicate (length state_ids) Unvisited)
    (seq 0 (length state_ids)).

(** The target of a rule's action, whatever its guard. *)
Definition action_target (act : CompiledAction) : option nat :=
  match act with
  | CNext s | CPush _ s | CPop s => Some s
  | CGoto s => Some s
  | CDead => None
  end.

(** One rule of the reachability walk: mark and push an unseen target. *)
Definition visit (ss : list bool * list nat) (r : CompiledRule) : list bool * list nat :=
  let '(seen, stack) := ss in
  match action_target (c_action r) with
  | Some next => if nth next seen true then (seen, stack) else (<[next := true]> seen, next :: stack)
  | None => (seen, stack)
  end.

(** The bounded loop of [check_reachable_accept]. *)
Fixpoint reach_loop (a : CompiledAutomaton) (fuel : nat) (seen : list bool) (stack : list nat)
    : bool :=
  match fuel with
  | O => false
  | S fuel =>
      match stack with
      | [] => false
      | state :: stack =>
          if is_accepting_state a state then true
          else match a_states a !! state with
               | None => reach_loop a fuel seen stack
               | Some compiled =>
                   let '(seen, stack) := foldl visit (seen, stack) (c_rules compiled) in
                   reach_loop a fuel seen stack
               end
      end
  end.

(** [check_reachable_accept]. *)
Definition check_reachable_accept (a : CompiledAutomaton) (start_name : string)
    : Result () SpecError :=
  let seen := <[a_start a := true]> (replicate (length (a_states a)) false) in
  if reach_loop a (S MAX_STATES) seen [a_start a] then Ok ()
  else Err (NoReachableAccept start_name).

(** ** [compile] *)

Definition compile_v1 (v1 : GrammarSpecV1) : Result CompiledAutomaton SpecError :=
  if MAX_FRAMES <? length (frames v1) then
    Err (TooManyFrames (length (frames v1)) MAX_FRAMES)
  else
  let? frame_ids := collect_frames 0 (frames v1) [] in
  if MAX_STATES <? length (states v1) then
    Err (TooManyStates (length (states v1)) MAX_STATES)
  else
  let state_ids := collect_state_ids (states v1) in
  let? start_id := ok_or (bt_get state_ids (start v1)) (UnknownStartState (start v1)) in
  let total_rules := sum_list (map (λ s, length (rules (snd s))) (states v1)) in
  if MAX_TOTAL_RULES <? total_rules then
    Err (TooManyTotalRules total_rules MAX_TOTAL_RULES)
  else
  let? compiled := compile_states state_ids frame_ids (states v1) in
  let automaton := {|
    a_states := map snd (sort_by_key compiled);
    a_start := start_id;
    frame_count := length frame_ids;
    a_boundary_byte := boundary_byte v1;
    state_names := map fst (states v1);
    frame_names := frames v1 |} in
  let? _ := check_goto_acyclic v1 state_ids in
  let? _ := check_reachable_accept automaton (start v1) in
  Ok automaton.

(** [CompiledAutomaton::compile]. *)
Definition compile (spec : GrammarSpec) : Result CompiledAutomaton SpecError :=
  match spec with V1 v1 => compile_v1 v1 end.
