(* ===== verification/CompileGoto.v ===== *)
(** * The goto check decides acyclicity

    The iterative, budgeted depth-first search of [check_goto_acyclic]: its
    stack invariant, the measure that bounds its iterations well below
    [GRAPH_TRAVERSAL_BUDGET], and the verdict it reaches. *)

From stdpp Require Import relations gmap.
From S2P Require Import Prelude StackMachine PdaState BTree Spec Compile.

(** ** Graphs *)

Section graph.
Context (es : list (list nat)).

Definition edge (n m : nat) : Prop := m ∈ nth n es [].

(** Every walk from [n] ends. *)
Definition ends (n : nat) : Prop := Acc (λ m n, edge n m) n.

Definition edges_in_range : Prop := ∀ n m, edge n m → m < length es.

Lemma edge_in_range_source n m : edge n m → n < length es.
Proof.
  unfold edge. intros Hm. destruct (decide (n < length es)) as [|Hge]; [done|].
  rewrite nth_overflow in Hm by lia. by apply not_elem_of_nil in Hm.
Qed.

Lemma edge_nth n k : k < length (nth n es []) → edge n (nth k (nth n es []) 0).
Proof. intros Hk. apply list_elem_of_In, nth_In. done. Qed.

Lemma ends_no_cycle n : ends n → ¬ tc edge n n.
Proof.
  intros He. induction He as [n _ IH]. intros Ht.
  assert (∃ m, edge n m ∧ rtc edge m n) as (m & Hm & Hr).
  { inversion Ht; subst; [by exists n|]. eexists; split; [done|by apply tc_rtc]. }
  apply (IH m Hm). eapply tc_rtc_l; [exact Hr|]. by apply tc_once.
Qed.
End graph.

(** ** The search's invariant *)

Section search.
Context (es : list (list nat)) (Hrange : edges_in_range es).

Definition targets_done (marks : list Mark) (n k : nat) : Prop :=
  ∀ j t, j < k → nth n es [] !! j = Some t → marks !! t = Some Done.

(** Read from the top: each frame's scanned targets are done, but for the
    child it is waiting on. *)
Fixpoint frames_ok (marks : list Mark) (child : option nat) (stack : list (nat * nat)) : Prop :=
  match stack with
  | [] => True
  | (n, k) :: stack =>
      match child with
      | None => targets_done marks n k
      | Some c => ∃ k', k = S k' ∧ nth n es [] !! k' = Some c ∧ targets_done marks n k'
      end ∧ frames_ok marks (Some n) stack
  end.

Record search_inv (marks : list Mark) (stack : list (nat * nat)) : Prop := {
  inv_length : length marks = length es;
  inv_done : ∀ n, marks !! n = Some Done → ends es n;
  inv_progress : ∀ n, marks !! n = Some InProgress ↔ n ∈ stack.*1;
  inv_nodup : NoDup stack.*1;
  inv_frames : frames_ok marks None stack;
}.

(** Marks only ever move forward. *)
Definition advances (marks marks' : list Mark) : Prop :=
  ∀ n, (marks !! n = Some Done → marks' !! n = Some Done) ∧
       (marks' !! n = Some Unvisited → marks !! n = Some Unvisited).

Lemma frames_ok_advances marks marks' child stack :
  advances marks marks' → frames_ok marks child stack → frames_ok marks' child stack.
Proof.
  intros Ha. revert child. induction stack as [|[n k] stack IH]; intros child; simpl; [done|].
  intros [Hn Hs]. split; [|by apply IH].
  assert (∀ k', targets_done marks n k' → targets_done marks' n k') as Hmono.
  { intros k' Hd j t Hj Ht. apply Ha. by eapply Hd. }
  destruct child as [c|]; [destruct Hn as (k' & ? & ? & ?); eauto|eauto].
Qed.

Lemma advances_refl marks : advances marks marks.
Proof. by split. Qed.

Lemma advances_trans m1 m2 m3 : advances m1 m2 → advances m2 m3 → advances m1 m3.
Proof. intros H1 H2 n. destruct (H1 n), (H2 n). auto. Qed.

Lemma advances_insert marks n m :
  marks !! n = Some Unvisited ∧ m = InProgress ∨ m = Done →
  advances marks (<[n := m]> marks).
Proof.
  intros Hm k. rewrite list_lookup_insert. case_decide as Hk; [destruct Hk as [-> Hk]|done].
  destruct Hm as [[Hu ->]| ->]; rewrite ?Hu; naive_solver.
Qed.

(** The path the stack spells leads from each of its nodes to its top. *)
Lemma frames_path marks stack c x :
  frames_ok marks (Some c) stack → x ∈ stack.*1 → tc (edge es) x c.
Proof.
  revert c. induction stack as [|[n k] stack IH]; intros c; simpl.
  { by intros _ ?%not_elem_of_nil. }
  intros [(k' & -> & Hc & _) Hs] Hx.
  assert (edge es n c) as Hnc by (by eapply list_elem_of_lookup_2).
  apply elem_of_cons in Hx as [->|Hx]; [by apply tc_once|].
  apply tc_r with n; [by eapply IH|done].
Qed.

(** ** One iteration *)

Lemma inv_pop marks n k stack :
  search_inv marks ((n, k) :: stack) → length (nth n es []) ≤ k →
  search_inv (<[n := Done]> marks) stack.
Proof.
  intros [Hl Hd Hp Hnd Hf] Hk. simpl in *. destruct Hf as [Ht Hf].
  assert (marks !! n = Some InProgress) as Hn by (apply Hp; by left).
  apply NoDup_cons in Hnd as [Hnot Hnd].
  assert (advances marks (<[n:=Done]> marks)) as Ha by (apply advances_insert; by right).
  assert (ends es n) as Hends.
  { constructor. intros m (j & Hj)%list_elem_of_lookup_1. apply Hd, (Ht j); [|done].
    apply lookup_lt_Some in Hj. lia. }
  split.
  - by rewrite length_insert.
  - intros x. rewrite list_lookup_insert. case_decide as Hx; [by destruct Hx as [-> _]|apply Hd].
  - intros x. rewrite list_lookup_insert. case_decide as Hx.
    + destruct Hx as [-> _]. split; [done|]. intros; done.
    + rewrite Hp, elem_of_cons. split; [|by right]. intros [->|]; [|done].
      exfalso. apply Hx. split; [done|]. by eapply lookup_lt_Some.
  - done.
  - apply (frames_ok_advances _ _ _ _ Ha) in Hf. destruct stack as [|[p kp] stack]; simpl in *; [done|].
    destruct Hf as [(k' & -> & Hc & Htd) Hf]. split; [|done].
    intros j t Hj Hjt. destruct (decide (j = k')) as [->|]; [|apply (Htd j); [lia|done]].
    simplify_eq. rewrite list_lookup_insert_eq; [done|]. by eapply lookup_lt_Some.
Qed.

Lemma inv_skip marks n k stack :
  search_inv marks ((n, k) :: stack) → k < length (nth n es []) →
  marks !! nth k (nth n es []) 0 = Some Done →
  search_inv marks ((n, k + 1) :: stack).
Proof.
  intros [Hl Hd Hp Hnd Hf] Hk Hm. split; try done. simpl in *. destruct Hf as [Ht Hf].
  split; [|done]. intros j t Hj Hjt. destruct (decide (j = k)) as [->|].
  - by rewrite (nth_lookup_Some _ _ _ _ Hjt) in Hm.
  - apply (Ht j); [lia|done].
Qed.

Lemma inv_push marks n k stack nb :
  search_inv marks ((n, k) :: stack) → k < length (nth n es []) →
  nb = nth k (nth n es []) 0 → marks !! nb = Some Unvisited →
  search_inv (<[nb := InProgress]> marks) ((nb, 0) :: (n, k + 1) :: stack).
Proof.
  intros [Hl Hd Hp Hnd Hf] Hk -> Hm. set (nb := nth k (nth n es []) 0) in *.
  assert (nb < length marks) as Hlt by (by eapply lookup_lt_Some).
  assert (advances marks (<[nb:=InProgress]> marks)) as Ha by (apply advances_insert; by left).
  split.
  - by rewrite length_insert.
  - intros x. rewrite list_lookup_insert. case_decide; [done|apply Hd].
  - intros x. rewrite list_lookup_insert. simpl. rewrite elem_of_cons. case_decide as Hx.
    + destruct Hx as [<- _]. split; [by left|done].
    + rewrite Hp. simpl. split; [by right|]. intros [->|]; [|done]. by destruct Hx.
  - simpl in *. constructor; [|done]. intros Hin. apply Hp in Hin. by simplify_eq.
  - simpl in *. destruct Hf as [Ht Hf]. split; [by intros j t ?; lia|].
    apply (frames_ok_advances _ _ _ _ Ha) in Hf. split; [|done].
    exists k. split; [lia|]. split.
    + unfold nb. destruct (nth_lookup_or_length (nth n es []) k 0) as [->|]; [done|lia].
    + intros j t Hj Hjt. apply Ha. by eapply Ht.
Qed.

(** ** The budget *)

(** What is left to do: each unvisited node will take one iteration per edge
    and one to leave it, each frame the rest of that. *)
Fixpoint unvisited_work (es : list (list nat)) (marks : list Mark) : nat :=
  match es, marks with
  | e :: es, m :: marks =>
      (match m with Unvisited => S (length e) | _ => 0 end) + unvisited_work es marks
  | _, _ => 0
  end.

Definition frame_work (f : nat * nat) : nat := S (length (nth (fst f) es []) - snd f).

Definition work (marks : list Mark) (stack : list (nat * nat)) : nat :=
  unvisited_work es marks + sum_list (map frame_work stack).

Lemma unvisited_work_insert l marks n m :
  m ≠ Unvisited → length marks = length l →
  unvisited_work l (<[n := m]> marks) +
    (if decide (marks !! n = Some Unvisited) then S (length (nth n l [])) else 0) =
  unvisited_work l marks.
Proof.
  intros Hm. revert marks n. induction l as [|e l IH]; intros [|m' marks] [|n] Hl; simplify_eq/=; try done.
  - destruct m, m'; simpl; try done; lia.
  - specialize (IH marks n Hl). repeat case_decide; simpl in *; try congruence; lia.
Qed.

Lemma dfs_unfold fuel marks n k stack :
  dfs es (S fuel) marks ((n, k) :: stack) =
  if length (nth n es []) <=? k then dfs es fuel (<[n := Done]> marks) stack
  else match nth (nth k (nth n es []) 0) marks Done with
       | InProgress => Cyclic n (nth k (nth n es []) 0)
       | Unvisited => dfs es fuel (<[nth k (nth n es []) 0 := InProgress]> marks)
                        ((nth k (nth n es []) 0, 0) :: (n, k + 1) :: stack)
       | Done => dfs es fuel marks ((n, k + 1) :: stack)
       end.
Proof. done. Qed.

(** With fuel for the work left, the traversal drains with every started node
    accounted for, or exhibits a cycle; the budget is never the reason. *)
Lemma dfs_spec fuel marks stack :
  search_inv marks stack → work marks stack < fuel →
  match dfs es fuel marks stack with
  | Drained marks' => search_inv marks' [] ∧ advances marks marks'
  | Cyclic n nb => edge es n nb ∧ rtc (edge es) nb n
  | Exhausted => False
  end.
Proof.
  revert marks stack. induction fuel as [|fuel IH]; intros marks stack Hinv Hw; [lia|].
  destruct stack as [|[n k] stack]; [by split|]. rewrite dfs_unfold.
  unfold work in Hw. cbn [map sum_list] in Hw. unfold frame_work at 1 in Hw. simpl in Hw.
  destruct (Nat.leb_spec (length (nth n es [])) k) as [Hk|Hk].
  - pose proof (inv_pop _ _ _ _ Hinv Hk) as Hinv'.
    assert (advances marks (<[n:=Done]> marks)) as Ha by (apply advances_insert; by right).
    pose proof (unvisited_work_insert es marks n Done ltac:(done) (inv_length _ _ Hinv)) as Hu.
    specialize (IH _ _ Hinv'). unfold work in IH.
    destruct (dfs es fuel _ stack); [|apply IH; lia|apply IH; lia].
    destruct IH as [? ?]; [lia|]. eauto using advances_trans.
  - set (nb := nth k (nth n es []) 0). assert (edge es n nb) as He by (by apply edge_nth).
    destruct (lookup_lt_is_Some_2 marks nb) as [m Hm].
    { rewrite (inv_length _ _ Hinv). by eapply Hrange. }
    rewrite (nth_lookup_Some _ _ _ _ Hm). destruct m.
    + assert (advances marks (<[nb:=InProgress]> marks)) as Ha by (apply advances_insert; by left).
      pose proof (inv_push _ _ _ _ nb Hinv Hk eq_refl Hm) as Hinv'.
      pose proof (unvisited_work_insert es marks nb InProgress ltac:(done) (inv_length _ _ Hinv)) as Hu.
      rewrite decide_True in Hu by done.
      specialize (IH _ _ Hinv'). unfold work in IH. cbn [map sum_list] in IH.
      unfold frame_work at 1 2 in IH. simpl in IH.
      destruct (dfs es fuel _ _); [|apply IH; lia|apply IH; lia].
      destruct IH as [? ?]; [lia|]. eauto using advances_trans.
    + split; [done|]. apply (inv_progress _ _ Hinv) in Hm. simpl in Hm.
      apply elem_of_cons in Hm as [->|Hm]; [done|].
      pose proof (inv_frames _ _ Hinv) as [_ Hf].
      by eapply tc_rtc, frames_path.
    + apply IH; [by apply inv_skip|].
      unfold work. cbn [map sum_list]. unfold frame_work at 1. simpl. lia.
Qed.
End search.

(** ** Every start *)

Lemma unvisited_work_le es marks :
  unvisited_work es marks ≤ length es + sum_list (map length es).
Proof.
  revert marks. induction es as [|e es IH]; intros [|m marks]; simpl; try lia.
  specialize (IH marks). destruct m; lia.
Qed.

Lemma budget_enough : MAX_STATES + MAX_TOTAL_RULES ≤ GRAPH_TRAVERSAL_BUDGET.
Proof. unfold MAX_STATES, MAX_TOTAL_RULES, GRAPH_TRAVERSAL_BUDGET. lia. Qed.

#[local] Opaque GRAPH_TRAVERSAL_BUDGET.

Lemma replicate_inv es :
  search_inv es (replicate (length es) Unvisited) [].
Proof.
  split; simpl.
  - apply length_replicate.
  - by intros n [? _]%lookup_replicate.
  - intros n. split; [by intros [? _]%lookup_replicate|by intros ?%not_elem_of_nil].
  - constructor.
  - done.
Qed.

Lemma start_inv es marks s :
  search_inv es marks [] → marks !! s = Some Unvisited →
  search_inv es (<[s := InProgress]> marks) [(s, 0)].
Proof.
  intros [Hl Hd Hp Hnd Hf] Hs. split; simpl.
  - by rewrite length_insert.
  - intros n. rewrite list_lookup_insert. case_decide; [done|apply Hd].
  - intros n. rewrite list_lookup_insert, list_elem_of_singleton. case_decide as Hn.
    + destruct Hn as [-> _]. done.
    + rewrite Hp. split; [by intros ?%not_elem_of_nil|]. intros ->.
      destruct Hn. split; [done|]. by eapply lookup_lt_Some.
  - repeat constructor. by intros ?%not_elem_of_nil.
  - split; [|done]. intros j t Hj. lia.
Qed.

(** On a graph within the budget the loop over the starts says [Ok] exactly when
    every walk ends, and otherwise blames the owner of an edge into a node on a
    cycle. *)
Lemma dfs_starts_spec v1 g marks starts :
  edges_in_range (edges g) →
  length (edges g) + sum_list (map length (edges g)) ≤ GRAPH_TRAVERSAL_BUDGET →
  search_inv (edges g) marks [] →
  Forall (λ s, s < length (edges g)) starts →
  (∀ n, marks !! n = Some Unvisited → n ∈ starts) →
  match dfs_starts v1 g marks starts with
  | Ok _ => ∀ n, ends (edges g) n
  | Err e => ∃ n nb, edge (edges g) n nb ∧ rtc (edge (edges g)) nb n ∧
      e = let '(state, i) := default ("", 0) (owning_rule g !! (n, nb)) in CyclicGoto state i
  end.
Proof.
  intros Hrange Hbudget. revert marks.
  induction starts as [|s starts IH]; intros marks Hinv Hstarts Hun; cbn [dfs_starts].
  { intros n. destruct (marks !! n) as [m|] eqn:Hm.
    - destruct m; [by apply Hun, not_elem_of_nil in Hm| |by eapply inv_done].
      apply (inv_progress _ _ _ Hinv) in Hm. by apply not_elem_of_nil in Hm.
    - constructor. intros k Hk%edge_in_range_source. apply lookup_ge_None in Hm.
      rewrite (inv_length _ _ _ Hinv) in Hm. lia. }
  apply Forall_cons in Hstarts as [Hs Hstarts].
  destruct (lookup_lt_is_Some_2 marks s) as [m Hm]; [by rewrite (inv_length _ _ _ Hinv)|].
  rewrite (nth_lookup_Some _ _ _ _ Hm). case_bool_decide as Hd; cbn [negb].
  - subst m. pose proof (start_inv _ _ _ Hinv Hm) as Hinv'.
    pose proof (unvisited_work_insert (edges g) marks s InProgress ltac:(done)
      (inv_length _ _ _ Hinv)) as Hw. rewrite decide_True in Hw by done.
    pose proof (unvisited_work_le (edges g) marks) as Hle.
    pose proof (dfs_spec _ Hrange (S GRAPH_TRAVERSAL_BUDGET) _ _ Hinv') as Hdfs.
    unfold work in Hdfs. cbn [map sum_list] in Hdfs. unfold frame_work, id in Hdfs. cbn [fst snd] in Hdfs.
    destruct (dfs (edges g) (S _) _ _) as [marks'|n nb|].
    + destruct Hdfs as [Hinv'' Ha]; [lia|]. apply IH; [done..|].
      intros n Hn. apply Ha in Hn. rewrite list_lookup_insert in Hn.
      case_decide as Hns; [done|]. apply Hun, elem_of_cons in Hn as [->|?]; [|done].
      destruct Hns. split; [done|]. by eapply lookup_lt_Some.
    + destruct Hdfs as [He Ht]; [lia|].
      destruct (default ("", 0) (owning_rule g !! (n, nb))) as [state i] eqn:Eo.
      exists n, nb. by rewrite Eo.
    + destruct Hdfs. lia.
  - apply IH; [done..|]. intros n Hn. apply Hun in Hn as Hn'.
    apply elem_of_cons in Hn' as [->|?]; [congruence|done].
Qed.

(** ** The graph of a spec *)

(** The resolved goto targets of a state's rules. *)
Definition goto_target (state_ids : Ids) (r : TransitionRule) : option nat :=
  match action r with AGoto t => bt_get state_ids t | _ => None end.

Lemma collect_edges_edges ids name from i rs g :
  edges (collect_edges ids name from i rs g) =
  alter (λ es, es ++ omap (goto_target ids) rs) from (edges g).
Proof.
  revert i g. induction rs as [|r rs IH]; intros i g; cbn [collect_edges].
  { rewrite list_alter_id; [done|]. intros. apply app_nil_r. }
  rewrite IH. change (omap (goto_target ids) (r :: rs)) with
    (match goto_target ids r with Some y => y :: omap (goto_target ids) rs
     | None => omap (goto_target ids) rs end).
  unfold goto_target at 2. destruct (action r); try done.
  destruct (bt_get ids state) as [to|]; [|done]. cbn [edges].
  rewrite list_alter_alter_eq. apply list_alter_ext; [|done]. intros es _. simpl.
  by rewrite <-app_assoc.
Qed.

(** ** Name tables *)

Lemma collect_state_ids_eq ss :
  bt_sorted ss → collect_state_ids ss = imap (λ index s, (s.1, index)) ss.
Proof.
  intros Hs. apply bt_of_list_id. unfold bt_sorted in *.
  replace ((imap (λ index (s : string * StateSpec), (s.1, index)) ss).*1) with ss.*1; [done|].
  rewrite fmap_imap. symmetry. apply imap_const.
Qed.

Lemma collect_state_ids_length ss : bt_sorted ss → length (collect_state_ids ss) = length ss.
Proof. intros Hs. by rewrite collect_state_ids_eq, length_imap. Qed.

Lemma imap_keys_sorted (ss : list (string * StateSpec)) :
  bt_sorted ss → bt_sorted (collect_state_ids ss).
Proof. intros. apply bt_of_list_sorted. Qed.

(** A name's id is its position in the map. *)
Lemma collect_state_ids_get ss name i :
  bt_sorted ss → bt_get (collect_state_ids ss) name = Some i ↔ ss.*1 !! i = Some name.
Proof.
  intros Hs. rewrite bt_get_elem by by apply imap_keys_sorted.
  rewrite collect_state_ids_eq by done. rewrite list_elem_of_lookup. split.
  - intros (j & Hj). rewrite list_lookup_imap in Hj.
    destruct (ss !! j) as [s|] eqn:E; simplify_eq/=. by rewrite list_lookup_fmap, E.
  - rewrite list_lookup_fmap. destruct (ss !! i) as [s|] eqn:E; intros; simplify_eq/=.
    exists i. by rewrite list_lookup_imap, E.
Qed.

Lemma state_id_position v1 name i :
  spec_ok v1 → (states v1).*1 !! i = Some name →
  state_id (collect_state_ids (states v1)) name = i.
Proof.
  intros Hok Hi. apply collect_state_ids_get in Hi; [|done].
  unfold state_id. by rewrite Hi.
Qed.

(** The edges of a spec, state by state. *)
Lemma goto_graph_edges v1 :
  spec_ok v1 →
  edges (goto_graph v1 (collect_state_ids (states v1))) =
  map (λ s, omap (goto_target (collect_state_ids (states v1))) (rules s.2)) (states v1).
Proof.
  intros Hok. set (ids := collect_state_ids (states v1)). set (f := λ s, _).
  unfold goto_graph. rewrite (collect_state_ids_length _ Hok : length ids = _).
  assert (∀ pre suf g, states v1 = pre ++ suf →
    edges g = map f pre ++ replicate (length suf) [] →
    edges (foldl (λ g '(name, st), collect_edges ids name (state_id ids name) 0 (rules st) g) g suf)
    = map f (pre ++ suf)) as Hgen; [|by apply (Hgen [])].
  intros pre suf. revert pre. induction suf as [|[name st] suf IH]; intros pre g Hpre Hg; simpl.
  { by rewrite Hg, !app_nil_r. }
  assert (state_id ids name = length pre) as Hid.
  { apply state_id_position; [done|]. by rewrite Hpre, fmap_app, fmap_cons, list_lookup_middle
      by by rewrite length_fmap. }
  rewrite (cons_middle _ pre), (assoc_L (++)). apply IH.
  { by rewrite Hpre, <-(assoc_L (++)). }
  rewrite collect_edges_edges, Hg, Hid, map_app, <-(assoc_L (++)).
  rewrite alter_app_r_alt by by rewrite length_map.
  by rewrite length_map, Nat.sub_diag.
Qed.

Lemma nth_goto_graph v1 n :
  spec_ok v1 →
  nth n (edges (goto_graph v1 (collect_state_ids (states v1)))) [] =
  match states v1 !! n with
  | Some s => omap (goto_target (collect_state_ids (states v1))) (rules s.2)
  | None => []
  end.
Proof.
  intros Hok. rewrite goto_graph_edges by done. rewrite nth_lookup.
  rewrite (list_lookup_fmap _ (states v1)). by destruct (states v1 !! n).
Qed.

Lemma goto_graph_in_range v1 :
  spec_ok v1 → edges_in_range (edges (goto_graph v1 (collect_state_ids (states v1)))).
Proof.
  intros Hok n m. unfold edge. rewrite nth_goto_graph by done.
  destruct (states v1 !! n) as [s|]; [|by intros ?%not_elem_of_nil].
  intros (r & _ & Hr)%list_elem_of_omap. unfold goto_target in Hr.
  destruct (action r); try done. apply collect_state_ids_get in Hr; [|done].
  apply lookup_lt_Some in Hr. rewrite length_fmap in Hr.
  by rewrite goto_graph_edges, length_map.
Qed.

Lemma length_omap_le {A B} (f : A → option B) l : length (omap f l) ≤ length l.
Proof.
  induction l as [|x l IH]; [done|].
  change (omap f (x :: l)) with
    (match f x with Some y => y :: omap f l | None => omap f l end).
  destruct (f x); simpl; lia.
Qed.

Definition total_rules (v1 : GrammarSpecV1) : nat :=
  sum_list (map (λ s, length (rules s.2)) (states v1)).

Lemma goto_graph_size v1 :
  spec_ok v1 →
  sum_list (map length (edges (goto_graph v1 (collect_state_ids (states v1))))) ≤ total_rules v1.
Proof.
  intros Hok. rewrite goto_graph_edges by done. unfold total_rules. rewrite map_map.
  generalize (collect_state_ids (states v1)). intros ids.
  induction (states v1) as [|s ss IH]; [done|].
  pose proof (length_omap_le (goto_target ids) (rules s.2)). cbn [map sum_list sum_list_with] in *.
  unfold id in *. lia.
Qed.

(** ** Who owns an edge *)

Definition goto_rule (ss : list (string * StateSpec)) (ids : Ids) (n m : nat) (name : string)
    (i : nat) : Prop :=
  ∃ st r t, (name, st) ∈ ss ∧ state_id ids name = n ∧ rules st !! i = Some r ∧
            action r = AGoto t ∧ bt_get ids t = Some m.

Record owners_ok (ss : list (string * StateSpec)) (ids : Ids) (g : GotoGraph) : Prop := {
  owners_total n m : edge (edges g) n m → is_Some (owning_rule g !! (n, m));
  owners_sound n m name i :
    owning_rule g !! (n, m) = Some (name, i) → goto_rule ss ids n m name i;
}.

Lemma nth_alter_app es n k (ys : list nat) x :
  x ∈ nth k (alter (λ e, e ++ ys) n es) [] → x ∈ nth k es [] ∨ (k = n ∧ x ∈ ys).
Proof.
  rewrite !nth_lookup, list_lookup_alter. case_decide as Hn; [|by left]. subst k.
  destruct (es !! n); simpl; [|by left]. rewrite elem_of_app. naive_solver.
Qed.

Lemma collect_edges_owners ss ids name st i rs g :
  (name, st) ∈ ss → drop i (rules st) = rs → owners_ok ss ids g →
  owners_ok ss ids (collect_edges ids name (state_id ids name) i rs g).
Proof.
  intros Hst. revert i g. induction rs as [|r rs IH]; intros i g Hdrop Hg; cbn [collect_edges]; [done|].
  assert (rules st !! i = Some r) as Hr.
  { rewrite <-(Nat.add_0_r i), <-lookup_drop. by rewrite Hdrop. }
  apply IH.
  { replace (S i) with (i + 1) by lia. rewrite <-drop_drop, Hdrop. done. }
  destruct (action r) eqn:Ha; try done. destruct (bt_get ids state) as [to|] eqn:Ht; [|done].
  destruct Hg as [Htot Hs]. split; cbn [edges owning_rule].
  - intros n m Hnm. unfold edge in Hnm. cbn [edges] in Hnm. apply nth_alter_app in Hnm.
    destruct (decide ((n, m) = (state_id ids name, to))) as [[= -> ->]|Hne].
    + destruct (owning_rule g !! (state_id ids name, to)) eqn:E; [by rewrite E|].
      by rewrite lookup_insert_eq.
    + assert (is_Some (owning_rule g !! (n, m))) as Hown.
      { apply Htot. destruct Hnm as [|[-> ->%list_elem_of_singleton]]; done. }
      destruct (owning_rule g !! (state_id ids name, to)); [done|].
      by rewrite lookup_insert_ne by done.
  - intros n m name' j Hown. destruct (owning_rule g !! (state_id ids name, to)); [by apply Hs|].
    apply lookup_insert_Some in Hown as [[? ?]|[_ ?]]; [|by apply Hs].
    simplify_eq. exists st, r, state. by split_and!.
Qed.

Lemma goto_graph_owners v1 ids :
  owners_ok (states v1) ids (goto_graph v1 ids).
Proof.
  unfold goto_graph.
  assert (∀ suf g, suf ⊆ states v1 → owners_ok (states v1) ids g →
    owners_ok (states v1) ids
      (foldl (λ g '(name, st), collect_edges ids name (state_id ids name) 0 (rules st) g) g suf))
    as Hgen.
  { induction suf as [|[name st] suf IH]; intros g Hsub Hg; simpl; [done|].
    apply IH; [set_solver|]. apply (collect_edges_owners _ _ _ st); [set_solver|done|done]. }
  apply Hgen; [done|]. split; cbn [edges owning_rule].
  - intros n m Hnm. unfold edge in Hnm. cbn [edges] in Hnm. rewrite nth_lookup in Hnm.
    destruct (replicate _ _ !! n) eqn:E; simpl in Hnm.
    + apply lookup_replicate in E as [-> _]. by apply not_elem_of_nil in Hnm.
    + by apply not_elem_of_nil in Hnm.
  - intros n m name i. by rewrite lookup_empty.
Qed.

(** ** The verdict *)

(** State [n] has a rule that re-evaluates its byte at state [m]. *)
Definition goto_edge (v1 : GrammarSpecV1) (n m : nat) : Prop :=
  ∃ s r, states v1 !! n = Some s ∧ r ∈ rules s.2 ∧
         goto_target (collect_state_ids (states v1)) r = Some m.

Lemma goto_graph_edge v1 n m :
  spec_ok v1 → edge (edges (goto_graph v1 (collect_state_ids (states v1)))) n m ↔ goto_edge v1 n m.
Proof.
  intros Hok. unfold edge, goto_edge. rewrite nth_goto_graph by done.
  destruct (states v1 !! n) as [s|] eqn:E.
  - rewrite list_elem_of_omap. naive_solver.
  - split; [by intros ?%not_elem_of_nil|naive_solver].
Qed.

Lemma check_goto_spec v1 :
  spec_ok v1 → length (states v1) ≤ MAX_STATES → total_rules v1 ≤ MAX_TOTAL_RULES →
  let ids := collect_state_ids (states v1) in
  let E := edge (edges (goto_graph v1 ids)) in
  match check_goto_acyclic v1 ids with
  | Ok _ => ∀ n, ends (edges (goto_graph v1 ids)) n
  | Err e => ∃ n m, E n m ∧ rtc E m n ∧
      e = let '(state, i) := default ("", 0) (owning_rule (goto_graph v1 ids) !! (n, m)) in
          CyclicGoto state i
  end.
Proof.
  intros Hok Hs Ht ids E. subst E. unfold check_goto_acyclic.
  set (g := goto_graph v1 ids).
  assert (length (edges g) = length ids) as Hlen.
  { unfold g, ids. by rewrite goto_graph_edges, length_map, collect_state_ids_length. }
  rewrite <-Hlen. apply dfs_starts_spec.
  - by apply goto_graph_in_range.
  - pose proof (goto_graph_size v1 Hok) as Hsize. fold ids in Hsize. fold g in Hsize.
    rewrite Hlen. unfold ids. rewrite collect_state_ids_length by done.
    pose proof budget_enough. lia.
  - apply replicate_inv.
  - apply Forall_forall. intros x Hx%elem_of_seq. lia.
  - intros n [_ Hn]%lookup_replicate. apply elem_of_seq. lia.
Qed.

(** Validation accepts the goto rules of a spec exactly when no chain of them
    can cycle; a rejection names a goto rule that lies on a cycle.  The
    traversal budget is never what decides. *)
Theorem goto_check_decides v1 :
  spec_ok v1 → length (states v1) ≤ MAX_STATES → total_rules v1 ≤ MAX_TOTAL_RULES →
  let ids := collect_state_ids (states v1) in
  match check_goto_acyclic v1 ids with
  | Ok _ => ∀ n, ¬ tc (goto_edge v1) n n
  | Err e => ∃ n m name i, e = CyclicGoto name i ∧
      goto_rule (states v1) ids n m name i ∧ goto_edge v1 n m ∧ rtc (goto_edge v1) m n
  end.
Proof.
  intros Hok Hs Ht ids. pose proof (check_goto_spec v1 Hok Hs Ht) as Hc. cbv zeta in Hc.
  fold ids in Hc. destruct (check_goto_acyclic v1 ids) as [[]|e].
  - intros n Hn. apply (ends_no_cycle _ n (Hc n)).
    eapply (tc_congruence (λ x, x)); [|exact Hn]. intros x y. by apply goto_graph_edge.
  - destruct Hc as (n & m & He & Hr & ->).
    destruct (owners_total _ _ _ (goto_graph_owners v1 ids) n m He) as [[name i] Ho].
    rewrite Ho. exists n, m, name, i. split; [done|].
    split; [by eapply owners_sound, Ho; apply goto_graph_owners|].
    split; [by apply goto_graph_edge|].
    eapply (rtc_congruence (λ x, x)); [|exact Hr]. intros x y. by apply goto_graph_edge.
Qed.

(** A spec for the examples: an identifier in parentheses, closed through a
    goto. *)
Definition demo_spec : GrammarSpecV1 := {|
  start := "s";
  boundary_byte := default_boundary_byte;
  frames := ["P"];
  states := bt_of_list
    [("s", {| accepting := false;
              rules := [{| byte_test := Exact "("; guard := Always; action := APush "P" "s" |};
                        {| byte_test := IdentStart; guard := Always; action := ANext "id" |}] |});
     ("id", {| accepting := true;
               rules := [{| byte_test := IdentTail; guard := Always; action := ANext "id" |};
                         {| byte_test := Any; guard := Always; action := AGoto "end" |}] |});
     ("end", {| accepting := true;
                rules := [{| byte_test := Exact ")"; guard := StackTopIs "P"; action := APop "end" |}]
             |})];
|}.

Lemma demo_spec_ok : spec_ok demo_spec.
Proof. apply bt_of_list_sorted. Qed.

Lemma goto_check_decides_witness :
  check_goto_acyclic demo_spec (collect_state_ids (states demo_spec)) = Ok () ∧
  ¬ tc (goto_edge demo_spec) 1 1.
Proof.
  pose proof (goto_check_decides demo_spec demo_spec_ok) as Hd.
  specialize (Hd ltac:(apply Nat.leb_le; vm_compute; reflexivity)
                 ltac:(apply Nat.leb_le; vm_compute; reflexivity)).
  split; [vm_compute; reflexivity|].
  vm_compute check_goto_acyclic in Hd. exact (Hd 1).
Defined.
