(* ===== verification/CompileCorrect.v ===== *)
(** * Lowering is correct

    What [compile] promises: an accepted spec is well formed and its compiled
    table steps exactly as the spec, read name by name and rule by rule, says.
    The reference semantics [spec_step] is the prose of [grammar/spec.rs]:
    rules are tried in order, the first whose test and guard match wins, a
    goto re-evaluates the byte at its target. *)

From stdpp Require Import relations gmap.
From S2P Require Import Prelude StackMachine PdaState BTree Spec Compile CompileGoto.

(** ** The reference semantics *)

Definition guard_holds (g : Guard) (top : option string) : bool :=
  match g, top with
  | Always, _ => true
  | StackTopIs f, Some t => bool_decide (t = f)
  | StackTopIsNot f, Some t => negb (bool_decide (t = f))
  | StackNonEmpty, Some _ => true
  | StackEmpty, None => true
  | _, _ => false
  end.

Definition first_rule (st : StateSpec) (top : option string) (b : byte) : option TransitionRule :=
  List.find (λ r, byte_matches (byte_test r) b && guard_holds (guard r) top) (rules st).

Inductive spec_step (v1 : GrammarSpecV1) (name : string) (top : option string) (b : byte)
    : Step string string → Prop :=
| spec_none st :
    (name, st) ∈ states v1 → first_rule st top b = None → spec_step v1 name top b Dead
| spec_dead st r :
    (name, st) ∈ states v1 → first_rule st top b = Some r → action r = ADead →
    spec_step v1 name top b Dead
| spec_next st r s :
    (name, st) ∈ states v1 → first_rule st top b = Some r → action r = ANext s →
    spec_step v1 name top b (Next s)
| spec_push st r f s :
    (name, st) ∈ states v1 → first_rule st top b = Some r → action r = APush f s →
    spec_step v1 name top b (Push f s)
| spec_pop st r s :
    (name, st) ∈ states v1 → first_rule st top b = Some r → action r = APop s → is_Some top →
    spec_step v1 name top b (Pop s)
| spec_goto st r s out :
    (name, st) ∈ states v1 → first_rule st top b = Some r → action r = AGoto s →
    spec_step v1 s top b out → spec_step v1 name top b out.

(** ** What the rule loop produces *)

Section rules.
Context (fs : list string) (state_ids frame_ids : Ids).
Context (Hframes : ∀ f i, bt_get frame_ids f = Some i ↔ fs !! i = Some f).

Definition guard_rel (g : Guard) (cg : CompiledGuard) : Prop :=
  match g, cg with
  | Always, CAlways | StackNonEmpty, CStackNonEmpty | StackEmpty, CStackEmpty => True
  | StackTopIs f, CStackTopIs i | StackTopIsNot f, CStackTopIsNot i => fs !! i = Some f
  | _, _ => False
  end.

Definition action_rel (act : Action) (ca : CompiledAction) : Prop :=
  match act, ca with
  | ANext s, CNext i | APop s, CPop i | AGoto s, CGoto i => bt_get state_ids s = Some i
  | APush f s, CPush j i => fs !! j = Some f ∧ bt_get state_ids s = Some i
  | ADead, CDead => True
  | _, _ => False
  end.

(** A pop sits behind a guard that fails on an empty stack. *)
Definition pop_guarded (cr : CompiledRule) : Prop :=
  match c_action cr with CPop _ => guard_matches (c_guard cr) None = false | _ => True end.

Record rule_rel (r : TransitionRule) (cr : CompiledRule) : Prop := {
  rel_test : c_byte_test cr = byte_test r;
  rel_guard : guard_rel (guard r) (c_guard cr);
  rel_action : action_rel (action r) (c_action cr);
  rel_pop : pop_guarded cr;
}.

Lemma compile_guard_rel name i g cg :
  compile_guard name i g frame_ids = Ok cg → guard_rel g cg.
Proof.
  destruct g; simpl; intros H; simplify_eq; try done;
    destruct (bt_get frame_ids frame) eqn:E; simplify_eq/=; by apply Hframes.
Qed.

Lemma compile_action_rel name i r cg ca :
  compile_action name i (action r) state_ids frame_ids cg = Ok ca →
  action_rel (action r) ca ∧
  pop_guarded {| c_byte_test := byte_test r; c_guard := cg; c_action := ca |}.
Proof.
  destruct (action r) as [s|f s|s|s|]; simpl.
  - destruct (bt_get state_ids s); intros; by simplify_eq/=.
  - destruct (bt_get frame_ids f) eqn:Ef; intros; simplify_eq/=.
    destruct (bt_get state_ids s); simplify_eq/=. split; [split; [by apply Hframes|done]|done].
  - destruct cg; try done; destruct (bt_get state_ids s); intros; by simplify_eq/=.
  - destruct (bt_get state_ids s); intros; by simplify_eq/=.
  - intros; by simplify_eq/=.
Qed.

Lemma compile_rules_rel name i todo done out :
  compile_rules name state_ids frame_ids i todo done = Ok out →
  ∃ cs, out = done ++ cs ∧ Forall2 rule_rel todo cs.
Proof.
  revert i done. induction todo as [|r todo IH]; intros i done; cbn [compile_rules].
  { intros [= ->]. exists []. by rewrite app_nil_r. }
  intros (cg & Hg & H)%res_bind_ok. apply res_bind_ok in H as (ca & Ha & H).
  apply res_bind_ok in H as (u & _ & H). apply IH in H as (cs & -> & Hcs).
  eexists (_ :: cs). rewrite <-(assoc_L (++)). split; [done|]. constructor; [|done].
  apply compile_guard_rel in Hg. apply compile_action_rel in Ha as [? ?].
  by split.
Qed.

Definition state_rel (s : string * StateSpec) (cs : CompiledState) : Prop :=
  c_accepting cs = accepting s.2 ∧ Forall2 rule_rel (rules s.2) (c_rules cs) ∧
  length (rules s.2) ≤ MAX_RULES_PER_STATE.

Lemma compile_states_rel todo out :
  compile_states state_ids frame_ids todo = Ok out →
  out.*1 = map (λ s, state_id state_ids s.1) todo ∧ Forall2 state_rel todo out.*2.
Proof.
  revert out. induction todo as [|[name st] todo IH]; intros out; cbn [compile_states].
  { intros [= <-]. by split. }
  destruct (Nat.ltb_spec MAX_RULES_PER_STATE (length (rules st))) as [|Hle]; [done|].
  intros (rs & Hrs & H)%res_bind_ok. apply res_bind_ok in H as (rest & Hrest & [= <-]).
  apply IH in Hrest as [H1 H2]. apply compile_rules_rel in Hrs as (cs & -> & Hcs).
  csimpl. split; [by rewrite H1|]. constructor; [|done]. by split_and!.
Qed.
End rules.

(** ** The frame table *)

Lemma collect_frames_spec index fs ids out (pre : list string) :
  collect_frames index fs ids = Ok out → index = length pre → bt_sorted ids →
  (∀ f i, bt_get ids f = Some i ↔ pre !! i = Some f) → length ids = length pre →
  bt_sorted out ∧ (∀ f i, bt_get out f = Some i ↔ (pre ++ fs) !! i = Some f) ∧
  length out = length (pre ++ fs).
Proof.
  revert index ids pre. induction fs as [|f fs IH]; intros index ids pre; simpl.
  { intros [= ->] _ Hs Hg Hl. by rewrite app_nil_r. }
  destruct (bt_get ids f) as [j|] eqn:E; [done|]. intros Hc -> Hs Hg Hl.
  rewrite (cons_middle f pre), (assoc_L (++)).
  apply (IH _ _ (pre ++ [f])) in Hc; [done| | | |].
  - rewrite length_app. simpl. lia.
  - by apply bt_insert_sorted.
  - intros f' i. rewrite bt_get_insert by done.
    rewrite lookup_snoc_Some. destruct (decide (f' = f)) as [->|Hne].
    + rewrite key_cmp_refl. split; [intros [= <-]; by right|].
      intros [[_ Hi]|[-> _]]; [|done]. apply Hg in Hi. by rewrite E in Hi.
    + transitivity (bt_get ids f' = Some i).
      { destruct (key_cmp f' f) eqn:Ec; [by apply key_cmp_eq in Ec|done..]. }
      rewrite Hg. split; [|by intros [[_ ?]|[_ ?]]; [|congruence]].
      intros Hi. left. split; [by eapply lookup_lt_Some|done].
  - rewrite bt_insert_length by done. rewrite length_app. simpl. lia.
Qed.

(** ** Sorting by id *)

Lemma sort_by_key_id {A} (l : list (nat * A)) k :
  l.*1 = seq k (length l) → sort_by_key l = l.
Proof.
  revert k. induction l as [|x l IH]; intros k; simpl; [done|]. intros [= Hx Hl].
  unfold sort_by_key in *. simpl. rewrite (IH _ Hl). destruct l as [|y l]; simpl in *; [done|].
  simplify_eq. rewrite (proj2 (Nat.leb_le _ _)); [done|lia].
Qed.

Lemma imap_seq {A B} (f : A → B) (g : nat → B) l :
  (∀ i x, l !! i = Some x → f x = g i) → map f l = map g (seq 0 (length l)).
Proof.
  revert g. induction l as [|x l IH]; intros g Hf; simpl; [done|]. f_equal; [by apply (Hf 0)|].
  rewrite (IH (λ i, g (S i))); [|intros i y Hi; by apply (Hf (S i))].
  by rewrite <-seq_shift, map_map.
Qed.

(** ** No rule is shadowed *)

Definition unshadowed (rs : list CompiledRule) : Prop :=
  ∀ i j ri rj, i < j → rs !! i = Some ri → rs !! j = Some rj →
    same_guard (c_guard ri) (c_guard rj) = true →
    ∃ b, byte_matches (c_byte_test rj) b = true ∧ byte_matches (c_byte_test ri) b = false.

Lemma not_subsumed t other :
  is_subsumed_by t other = false → ∃ b, byte_matches t b = true ∧ byte_matches other b = false.
Proof.
  unfold is_subsumed_by. intros H.
  destruct (List.existsb (λ b, byte_matches t b && negb (byte_matches other b)) all_bytes) eqn:E.
  - apply existsb_exists in E as (b & _ & [H1 H2%negb_true_iff]%andb_true_iff). by exists b.
  - exfalso. assert (forallb (λ b, negb (byte_matches t b) || byte_matches other b) all_bytes = true)
      as Hall; [|congruence].
    apply forallb_forall. intros b Hb. apply not_false_iff_true. intros Hf.
    apply orb_false_iff in Hf as [H1%negb_false_iff H2].
    apply not_true_iff_false in E. apply E, existsb_exists. exists b. by rewrite H1, H2.
Qed.

Lemma check_shadowing_ok name ri t g k earlier i r :
  check_shadowing_from name ri t g k earlier = Ok () → earlier !! i = Some r →
  same_guard (c_guard r) g = true → is_subsumed_by t (c_byte_test r) = false.
Proof.
  revert k i. induction earlier as [|r' earlier IH]; intros k i; cbn [check_shadowing_from]; [done|].
  intros H Hi Hg. destruct i as [|i].
  - simpl in Hi. simplify_eq. rewrite Hg in H. simpl in H. case_bool_decide; [done|].
    by destruct (is_subsumed_by t (c_byte_test r)).
  - destruct (negb (same_guard (c_guard r') g)); [by eapply IH|].
    case_bool_decide; [done|]. destruct (is_subsumed_by t (c_byte_test r')); [done|by eapply IH].
Qed.

Lemma compile_rules_unshadowed name sids fids i todo done out :
  compile_rules name sids fids i todo done = Ok out → unshadowed done → unshadowed out.
Proof.
  revert i done. induction todo as [|r todo IH]; intros i done; cbn [compile_rules].
  { by intros [= ->]. }
  intros (cg & Hg & H)%res_bind_ok. apply res_bind_ok in H as (ca & Ha & H).
  apply res_bind_ok in H as ([] & Hs & H). intros Hd. eapply IH; [exact H|].
  intros x y rx ry Hxy Hx Hy Hsg. apply lookup_snoc_Some in Hy as [[Hly Hy]|[-> <-]].
  - rewrite lookup_app_l in Hx by lia. exact (Hd x y rx ry Hxy Hx Hy Hsg).
  - rewrite lookup_app_l in Hx by done. apply not_subsumed.
    by eapply check_shadowing_ok.
Qed.

Lemma compile_states_unshadowed sids fids todo out :
  compile_states sids fids todo = Ok out → Forall (λ cs, unshadowed (c_rules cs)) out.*2.
Proof.
  revert out. induction todo as [|[name st] todo IH]; intros out; cbn [compile_states].
  { intros [= <-]. constructor. }
  destruct (MAX_RULES_PER_STATE <? length (rules st)); [done|].
  intros (rs & Hrs & H)%res_bind_ok. apply res_bind_ok in H as (rest & Hrest & [= <-]).
  csimpl. constructor; [|by apply IH]. eapply compile_rules_unshadowed; [exact Hrs|].
  intros ????? Hx. by rewrite lookup_nil in Hx.
Qed.

(** ** An accepted spec *)

Record compiled_from (v1 : GrammarSpecV1) (a : CompiledAutomaton) : Prop := {
  cf_states : Forall2 (state_rel (frames v1) (collect_state_ids (states v1)))
                      (states v1) (a_states a);
  cf_start : (states v1).*1 !! a_start a = Some (start v1);
  cf_frame_count : frame_count a = length (frames v1);
  cf_boundary : a_boundary_byte a = boundary_byte v1;
  cf_state_names : state_names a = map fst (states v1);
  cf_frame_names : frame_names a = frames v1;
  cf_acyclic n : ends (edges (goto_graph v1 (collect_state_ids (states v1)))) n;
  cf_reach : check_reachable_accept a (start v1) = Ok ();
  cf_max_states : length (states v1) ≤ MAX_STATES;
  cf_max_frames : length (frames v1) ≤ MAX_FRAMES;
  cf_max_rules : total_rules v1 ≤ MAX_TOTAL_RULES;
  cf_frames_nodup : NoDup (frames v1);
  cf_unshadowed : Forall (λ cs, unshadowed (c_rules cs)) (a_states a);
}.

Lemma ok_or_ok {A E} (o : option A) (e : E) x : ok_or o e = Ok x → o = Some x.
Proof. destruct o; simpl; congruence. Qed.

Lemma compile_v1_ok v1 a : spec_ok v1 → compile_v1 v1 = Ok a → compiled_from v1 a.
Proof.
  intros Hok. unfold compile_v1.
  destruct (Nat.ltb_spec MAX_FRAMES (length (frames v1))) as [|Hmf]; [done|].
  intros (fids & Hf & H)%res_bind_ok. revert H.
  destruct (Nat.ltb_spec MAX_STATES (length (states v1))) as [|Hms]; [done|].
  intros (sid & Hsid%ok_or_ok & H)%res_bind_ok. revert H.
  destruct (Nat.ltb_spec MAX_TOTAL_RULES (sum_list (map (λ s, length (rules s.2)) (states v1))))
    as [|Hmr]; [done|].
  intros (cs & Hcs & H)%res_bind_ok. apply res_bind_ok in H as ([] & Hgoto & H).
  apply res_bind_ok in H as ([] & Hreach & [= <-]).
  pose proof (check_goto_spec v1 Hok Hms Hmr) as Hends. cbv zeta in Hends. rewrite Hgoto in Hends.
  destruct (collect_frames_spec _ _ _ _ [] Hf) as (Hfs & Hfg & Hfl); try done; try apply bt_nil_sorted.
  simpl in Hfg, Hfl. pose proof (compile_states_unshadowed _ _ _ _ Hcs) as Hun.
  apply (compile_states_rel (frames v1)) in Hcs as [Hids Hrel]; [|done].
  assert (sort_by_key cs = cs) as Hsort.
  { apply (sort_by_key_id _ 0). rewrite Hids. rewrite (imap_seq _ (λ i, i)).
    - rewrite map_id. f_equal. apply (f_equal length) in Hids.
      by rewrite length_map, length_fmap in Hids.
    - intros i s Hi. apply state_id_position; [done|]. by rewrite list_lookup_fmap, Hi. }
  split; cbn [a_states a_start frame_count a_boundary_byte state_names frame_names]; try done.
  - by rewrite Hsort.
  - by apply collect_state_ids_get.
  - apply NoDup_alt. intros i j f Hi Hj. apply Hfg in Hi, Hj. congruence.
  - by rewrite Hsort.
Qed.

(** ** The table steps as the spec says *)

Definition names (a : CompiledAutomaton) (st : Step nat nat) : Step string string :=
  match st with
  | Next s => Next (state_name a s)
  | Push f s => Push (frame_name a (Some f)) (state_name a s)
  | Pop s => Pop (state_name a s)
  | Dead => Dead
  end.

(** A frame id on the stack and the frame it stands for. *)
Definition top_rel (v1 : GrammarSpecV1) (top : option nat) (name : option string) : Prop :=
  match top, name with
  | Some i, Some f => frames v1 !! i = Some f
  | None, None => True
  | _, _ => False
  end.

Section refinement.
Context (v1 : GrammarSpecV1) (a : CompiledAutomaton).
Context (Hok : spec_ok v1) (Hcf : compiled_from v1 a).

Lemma compiled_length : length (a_states a) = length (states v1).
Proof. symmetry. eapply Forall2_length, Hcf. Qed.

Lemma compiled_state i s :
  states v1 !! i = Some s →
  ∃ cs, a_states a !! i = Some cs ∧ state_rel (frames v1) (collect_state_ids (states v1)) s cs.
Proof. intros Hi. by eapply Forall2_lookup_l in Hi; [|apply Hcf]. Qed.

Lemma state_name_position i s : states v1 !! i = Some s → state_name a i = s.1.
Proof.
  intros Hi. unfold state_name. rewrite (cf_state_names _ _ Hcf).
  rewrite (list_lookup_fmap _ (states v1)), Hi. done.
Qed.

Lemma state_name_id name i :
  bt_get (collect_state_ids (states v1)) name = Some i →
  state_name a i = name ∧ is_Some (states v1 !! i).
Proof.
  intros Hi%collect_state_ids_get; [|done]. rewrite list_lookup_fmap in Hi.
  destruct (states v1 !! i) as [s|] eqn:E; simplify_eq/=.
  split; [by apply state_name_position|by eexists].
Qed.

Lemma frame_name_id f i : frames v1 !! i = Some f → frame_name a (Some i) = f.
Proof. intros Hi. simpl. by rewrite (cf_frame_names _ _ Hcf), Hi. Qed.

Lemma guard_rel_holds g cg top name :
  guard_rel (frames v1) g cg → top_rel v1 top name →
  guard_matches cg top = guard_holds g name.
Proof.
  destruct g as [|f|f| |], cg as [|i|i| |], top as [t|], name as [n|]; simpl; try done.
  - intros Hi Ht. destruct (decide (n = f)) as [->|Hne].
    + rewrite !bool_decide_true; [done|done|]. f_equal.
      eapply (NoDup_lookup _ _ _ _ (cf_frames_nodup _ _ Hcf)); eauto.
    + rewrite !bool_decide_false; [done|done|]. intros [= ->]. congruence.
  - intros Hi Ht. destruct (Nat.eqb_spec t i) as [->|Hne].
    + rewrite bool_decide_true by congruence. done.
    + rewrite bool_decide_false; [done|]. intros ->. apply Hne.
      eapply (NoDup_lookup _ _ _ _ (cf_frames_nodup _ _ Hcf)); eauto.
Qed.

Lemma select_rule_rel rs cs top name b :
  Forall2 (rule_rel (frames v1) (collect_state_ids (states v1))) rs cs →
  top_rel v1 top name →
  match select_rule cs top b,
        List.find (λ r, byte_matches (byte_test r) b && guard_holds (guard r) name) rs with
  | Some cr, Some r => rule_rel (frames v1) (collect_state_ids (states v1)) r cr ∧ r ∈ rs ∧
                       guard_matches (c_guard cr) top = true
  | None, None => True
  | _, _ => False
  end.
Proof.
  intros Hrs Ht. induction Hrs as [|r cr rs cs Hr Hrs IH]; [done|].
  unfold select_rule in *. cbn [List.find].
  rewrite (rel_test _ _ _ _ Hr), (guard_rel_holds _ _ _ _ (rel_guard _ _ _ _ Hr) Ht).
  destruct (byte_matches (byte_test r) b && guard_holds (guard r) name) eqn:E.
  - apply andb_true_iff in E as [_ E]. rewrite (guard_rel_holds _ _ _ _ (rel_guard _ _ _ _ Hr) Ht).
    split_and!; [done|by left|done].
  - destruct (List.find _ cs), (List.find _ rs); try done.
    destruct IH as (? & ? & ?). split_and!; [done|by right|done].
Qed.

(** With more iterations left than states unvisited, the bounded goto chase
    ends by a rule, not by its bound. *)
Lemma goto_loop_spec fuel seen i s top name b :
  states v1 !! i = Some s → top_rel v1 top name →
  NoDup (i :: seen) → Forall (λ x, x < length (states v1)) seen →
  Forall (λ x, tc (goto_edge v1) x i) seen →
  length (states v1) < fuel + length seen →
  spec_step v1 s.1 name b (names a (goto_loop a fuel i top b)).
Proof.
  revert seen i s. induction fuel as [|fuel IH]; intros seen i s Hi Ht Hnd Hlt Hpath Hfuel.
  { exfalso. apply NoDup_cons in Hnd as [_ Hnd].
    assert (length seen ≤ length (seq 0 (length (states v1)))) as Hle.
    { apply submseteq_length, NoDup_submseteq; [done|]. intros x Hx. apply elem_of_seq.
      rewrite Forall_forall in Hlt. specialize (Hlt x Hx). lia. }
    rewrite length_seq in Hle. lia. }
  destruct (compiled_state i s Hi) as (cs & Hcs & Hacc & Hrules & _).
  cbn [goto_loop]. rewrite Hcs. destruct s as [nm st]; simpl in *.
  assert ((nm, st) ∈ states v1) as Hin by (by eapply list_elem_of_lookup_2).
  pose proof (select_rule_rel _ _ _ _ b Hrules Ht) as Hsel.
  destruct (select_rule (c_rules cs) top b) as [cr|] eqn:Ecr;
    destruct (List.find _ (rules st)) as [r|] eqn:Er; try done;
    [|by eapply spec_none].
  destruct Hsel as ([_ _ Hact Hpop] & Hr & Hgm). cbn [fmap option_fmap option_map].
  unfold pop_guarded in Hpop.
  destruct (c_action cr) as [j|f j|j|j|], (action r) as [n|f' n|n|n|] eqn:Ea; simpl in Hact; try done.
  - apply state_name_id in Hact as [Hj _]. simpl. rewrite Hj. by eapply spec_next.
  - destruct Hact as [Hf [Hj _]%state_name_id]. cbn [names].
    rewrite Hj, (frame_name_id _ _ Hf). by eapply spec_push.
  - destruct top as [t|]; [|congruence]. destruct name as [tn|]; [|done].
    apply state_name_id in Hact as [Hj _]. simpl. rewrite Hj. by eapply spec_pop.
  - apply state_name_id in Hact as Hact'. destruct Hact' as [Hj [s' Hs']].
    assert (goto_edge v1 i j) as He.
    { exists (nm, st), r. unfold goto_target. by rewrite Ea. }
    assert (∀ n, ¬ tc (goto_edge v1) n n) as Hac.
    { intros x Hx. apply (ends_no_cycle _ x (cf_acyclic _ _ Hcf x)).
      eapply (tc_congruence (λ x, x)); [|exact Hx]. intros. by apply goto_graph_edge. }
    assert (Forall (λ x, tc (goto_edge v1) x j) (i :: seen)) as Hpath'.
    { constructor; [by apply tc_once|]. eapply Forall_impl; [exact Hpath|].
      intros x Hx. by apply tc_r with i. }
    eapply (spec_goto _ _ _ _ st r n); [done..|].
    pose proof (state_name_position _ _ Hs') as Hn. rewrite Hj in Hn. rewrite Hn.
    apply (IH (i :: seen)); [done|done| | |done|simpl; lia].
    + constructor; [|done]. intros Hjin. rewrite Forall_forall in Hpath'. by apply (Hac j), Hpath'.
    + constructor; [by eapply lookup_lt_Some|done].
  - by eapply spec_dead.
Qed.

Lemma step_spec i s top name b :
  states v1 !! i = Some s → top_rel v1 top name →
  spec_step v1 s.1 name b (names a (step a i top b)).
Proof.
  intros Hi Ht. unfold step. apply (goto_loop_spec _ []); try done.
  - repeat constructor. by intros ?%not_elem_of_nil.
  - rewrite compiled_length. simpl. lia.
Qed.
End refinement.

(** The reference semantics is a function. *)
Lemma spec_step_det v1 name top b o1 o2 :
  spec_ok v1 → spec_step v1 name top b o1 → spec_step v1 name top b o2 → o1 = o2.
Proof.
  intros Hok H1. revert o2.
  assert (∀ n st st', (n, st) ∈ states v1 → (n, st') ∈ states v1 → st = st') as Huniq.
  { intros n st st' Hs Hs'. apply (bt_get_elem _ _ _ Hok) in Hs, Hs'. congruence. }
  induction H1; intros o2 Hs2; inversion Hs2; subst;
    match goal with
    | Hs : (?n, ?st) ∈ states v1, Hs' : (?n, ?st') ∈ states v1 |- _ =>
        first [constr_eq st st'; fail 1 | pose proof (Huniq _ _ _ Hs Hs'); subst]
    end; simplify_eq; try done; try congruence.
  match goal with
  | Ha : action ?r = AGoto ?s, Hb : action ?r = AGoto ?t |- _ => assert (s = t) as -> by congruence
  end. eauto.
Qed.

(** ** Reachability of an accepting state *)

(** Some rule of state [n] acts into state [m], whatever its guard. *)
Definition rule_edge (a : CompiledAutomaton) (n m : nat) : Prop :=
  ∃ cs r, a_states a !! n = Some cs ∧ r ∈ c_rules cs ∧ action_target (c_action r) = Some m.

Definition table_ok (a : CompiledAutomaton) : Prop :=
  a_start a < length (a_states a) ∧ ∀ n m, rule_edge a n m → m < length (a_states a).

Definition unseen (seen : list bool) : nat := length (List.filter negb seen).

Lemma unseen_insert seen n :
  seen !! n = Some false → S (unseen (<[n := true]> seen)) = unseen seen.
Proof.
  revert n. unfold unseen. induction seen as [|[] seen IH]; intros [|n]; simpl; try done.
  - apply IH.
  - intros Hn. by rewrite (IH n Hn).
Qed.

Lemma visit_fold rs seen stack seen' stack' :
  foldl visit (seen, stack) rs = (seen', stack') →
  Forall (λ r, ∀ m, action_target (c_action r) = Some m → m < length seen) rs →
  ∃ new, stack' = new ++ stack ∧ length seen' = length seen ∧
    unseen seen' + length new = unseen seen ∧
    (∀ n, seen' !! n = Some true ↔ seen !! n = Some true ∨ n ∈ new) ∧
    (∀ n, n ∈ new → ∃ r, r ∈ rs ∧ action_target (c_action r) = Some n) ∧
    (∀ r m, r ∈ rs → action_target (c_action r) = Some m → seen' !! m = Some true).
Proof.
  revert seen stack. induction rs as [|r rs IH]; intros seen stack; simpl.
  { intros [= <- <-] _. exists []. simpl. split_and!; try done; try lia.
    - intros n. split; [by left|]. by intros [|?%not_elem_of_nil].
    - by intros n ?%not_elem_of_nil.
    - by intros r m ?%not_elem_of_nil. }
  intros Hf [Hr Hrs]%Forall_cons. destruct (action_target (c_action r)) as [next|] eqn:Et.
  - destruct (lookup_lt_is_Some_2 seen next (Hr next eq_refl)) as [sv Hsv].
    rewrite (nth_lookup_Some _ _ _ _ Hsv) in Hf. destruct sv.
    + destruct (IH _ _ Hf Hrs) as (new & H1 & H2 & H3 & H4 & H5 & H6).
      exists new. split_and!; try done.
      * intros n Hn. destruct (H5 n Hn) as (r' & ? & ?). exists r'. split; [by right|done].
      * intros r' m [->|Hin]%elem_of_cons Hm; [|by eapply H6]. simplify_eq. apply H4. by left.
    + destruct (IH _ _ Hf) as (new & H1 & H2 & H3 & H4 & H5 & H6).
      { eapply Forall_impl; [exact Hrs|]. intros r' Hr' m Hm. rewrite length_insert. auto. }
      rewrite length_insert in H2. pose proof (unseen_insert _ _ Hsv) as Hu.
      assert (∀ n, seen' !! n = Some true ↔ seen !! n = Some true ∨ n ∈ new ++ [next]) as H4'.
      { intros n. rewrite H4, elem_of_app, list_elem_of_singleton, list_lookup_insert.
        pose proof (lookup_lt_Some _ _ _ Hsv). case_decide as Hd; [destruct Hd as [-> _]|].
        - split; [by right; right|by left].
        - split; [naive_solver|]. intros [?|[?| ->]]; [by left|by right|by destruct Hd]. }
      exists (new ++ [next]). split_and!; try done.
      * by rewrite <-(assoc_L (++)).
      * rewrite length_app. simpl. lia.
      * intros n [Hn| ->%list_elem_of_singleton]%elem_of_app.
        -- destruct (H5 n Hn) as (r' & ? & ?). exists r'. split; [by right|done].
        -- exists r. split; [by left|done].
      * intros r' m [->|Hin]%elem_of_cons Hm; [|by eapply H6]. simplify_eq.
        apply H4'. right. apply elem_of_app. right. by left.
  - destruct (IH _ _ Hf Hrs) as (new & H1 & H2 & H3 & H4 & H5 & H6).
    exists new. split_and!; try done.
    + intros n Hn. destruct (H5 n Hn) as (r' & ? & ?). exists r'. split; [by right|done].
    + intros r' m [->|Hin]%elem_of_cons Hm; [congruence|by eapply H6].
Qed.

Section reach.
Context (a : CompiledAutomaton) (Ha : table_ok a).

Record reach_inv (seen : list bool) (stack : list nat) : Prop := {
  ri_length : length seen = length (a_states a);
  ri_start : seen !! a_start a = Some true;
  ri_reached n : seen !! n = Some true → rtc (rule_edge a) (a_start a) n;
  ri_stack n : n ∈ stack → seen !! n = Some true;
  ri_closed n : seen !! n = Some true → n ∉ stack →
    is_accepting_state a n = false ∧ ∀ m, rule_edge a n m → seen !! m = Some true;
}.

Lemma reach_loop_spec fuel seen stack :
  reach_inv seen stack → unseen seen + length stack < fuel →
  reach_loop a fuel seen stack = true ↔
  ∃ n, rtc (rule_edge a) (a_start a) n ∧ is_accepting_state a n = true.
Proof.
  revert seen stack. induction fuel as [|fuel IH]; intros seen stack Hinv Hf; [lia|].
  destruct stack as [|s stack]; cbn [reach_loop].
  - split; [done|]. intros (n & Hn & Hacc). exfalso.
    assert (seen !! n = Some true) as Hs.
    { clear Hacc. revert Hn. generalize (ri_start _ _ Hinv). generalize (a_start a).
      intros x Hx Hr. induction Hr as [|x y z Hxy Hr IHr]; [done|]. apply IHr.
      eapply (ri_closed _ _ Hinv); [exact Hx| |exact Hxy]. by intros ?%not_elem_of_nil. }
    destruct (ri_closed _ _ Hinv n Hs) as [Hn' _]; [by intros ?%not_elem_of_nil|congruence].
  - assert (seen !! s = Some true) as Hs by (apply (ri_stack _ _ Hinv); by left).
    destruct (is_accepting_state a s) eqn:Hacc.
    { split; [|done]. intros _. exists s. split; [by apply (ri_reached _ _ Hinv)|done]. }
    destruct (lookup_lt_is_Some_2 (a_states a) s) as [cs Hcs].
    { rewrite <-(ri_length _ _ Hinv). by eapply lookup_lt_Some. }
    rewrite Hcs. destruct (foldl visit (seen, stack) (c_rules cs)) as [seen' stack'] eqn:Hv.
    destruct (visit_fold _ _ _ _ _ Hv) as (new & -> & Hl & Hu & Hseen & Hnew & Htgt).
    { apply Forall_forall. intros r Hr m Hm. rewrite (ri_length _ _ Hinv).
      apply (proj2 Ha s). by exists cs, r. }
    apply IH; [|rewrite length_app; simpl in Hf; lia].
    assert (∀ m, m ∈ new → rule_edge a s m) as Hedge.
    { intros m Hm. destruct (Hnew m Hm) as (r & ? & ?). by exists cs, r. }
    split.
    + rewrite Hl. apply Hinv.
    + apply Hseen. left. apply Hinv.
    + intros n [Hn|Hn]%Hseen; [by apply Hinv|]. eapply rtc_r; [|by apply Hedge].
      by apply Hinv.
    + intros n [Hn|Hn]%elem_of_app; apply Hseen; [by right|left]. apply Hinv. by right.
    + intros n Hn Hnot. rewrite elem_of_app in Hnot.
      destruct (decide (n = s)) as [->|Hne].
      * split; [done|]. intros m (cs' & r & ? & Hr & Hm). simplify_eq. by eapply Htgt.
      * apply Hseen in Hn as [Hn|Hn]; [|by destruct Hnot; left].
        destruct (ri_closed _ _ Hinv n Hn) as [? Hcl].
        { rewrite elem_of_cons. intros [|]; [done|]. apply Hnot. by right. }
        split; [done|]. intros m Hm. apply Hseen. left. by apply Hcl.
Qed.

Lemma unseen_replicate n : unseen (replicate n false) = n.
Proof. unfold unseen. induction n; simpl; congruence. Qed.

Lemma reach_start_spec :
  length (a_states a) ≤ MAX_STATES →
  reach_loop a (S MAX_STATES) (<[a_start a := true]> (replicate (length (a_states a)) false))
    [a_start a] = true ↔
  ∃ n, rtc (rule_edge a) (a_start a) n ∧ is_accepting_state a n = true.
Proof.
  intros Hmax.
  assert (replicate (length (a_states a)) false !! a_start a = Some false) as Hst.
  { apply lookup_replicate. split; [done|apply Ha]. }
  apply reach_loop_spec.
  - assert (∀ n, <[a_start a:=true]> (replicate (length (a_states a)) false) !! n = Some true ↔
                 n = a_start a) as Hseen.
    { intros n. rewrite list_lookup_insert, length_replicate. case_decide as Hd.
      - destruct Hd as [<- _]. done.
      - rewrite lookup_replicate. split; [by intros [? _]|]. intros ->.
        destruct Hd. split; [done|apply Ha]. }
    split.
    + by rewrite length_insert, length_replicate.
    + by apply Hseen.
    + intros n ->%Hseen. done.
    + intros n ->%list_elem_of_singleton. by apply Hseen.
    + intros n ->%Hseen Hnot. destruct Hnot. by left.
  - pose proof (unseen_insert _ _ Hst) as Hu. rewrite unseen_replicate in Hu. simpl. lia.
Qed.
End reach.

(** ** Properties *)

Section accepted.
Context (v1 : GrammarSpecV1) (a : CompiledAutomaton).
Context (Hok : spec_ok v1) (Hcf : compiled_from v1 a).

Lemma compiled_rule n cs r :
  a_states a !! n = Some cs → r ∈ c_rules cs →
  ∃ r', rule_rel (frames v1) (collect_state_ids (states v1)) r' r.
Proof.
  intros Hn Hr.
  destruct (Forall2_lookup_r _ _ _ _ _ (cf_states _ _ Hcf) Hn) as (s & _ & _ & Hrules & _).
  apply list_elem_of_lookup in Hr as (i & Hi).
  destruct (Forall2_lookup_r _ _ _ _ _ Hrules Hi) as (r' & _ & Hrel). by exists r'.
Qed.

Lemma compiled_table_ok : table_ok a.
Proof.
  split.
  - rewrite (compiled_length _ _ Hcf). pose proof (cf_start _ _ Hcf) as Hs.
    apply lookup_lt_Some in Hs. by rewrite length_fmap in Hs.
  - intros n m (cs & r & Hn & Hr & Hm). rewrite (compiled_length _ _ Hcf).
    destruct (compiled_rule _ _ _ Hn Hr) as (r' & [_ _ Hact _]).
    assert (∀ s, bt_get (collect_state_ids (states v1)) s = Some m → m < length (states v1)) as Hb.
    { intros s [_ [? ?%lookup_lt_Some]]%(state_name_id _ _ Hok Hcf). done. }
    destruct (c_action r), (action r'); simpl in *; simplify_eq; naive_solver.
Qed.
End accepted.

(** C2. Refinement: the compiled table's step, read back through its name tables,
    is the step the spec describes, for every state, stack top and byte. *)
Theorem compile_refines v1 a i s top name b :
  spec_ok v1 → compile (V1 v1) = Ok a → states v1 !! i = Some s → top_rel v1 top name →
  state_name a i = s.1 ∧
  ∀ out, spec_step v1 s.1 name b out ↔ out = names a (step a i top b).
Proof.
  intros Hok Hc%compile_v1_ok Hi Ht; [|done].
  split; [by eapply state_name_position|]. intros out.
  pose proof (step_spec v1 a Hok Hc i s top name b Hi Ht) as Hs. split.
  - intros Ho. by eapply spec_step_det.
  - by intros ->.
Qed.

(** Well-formedness of what [compile] returns: every id a rule mentions is
    declared and small enough for the code's [u32] casts, every pop is guarded
    against the empty stack, and no rule is shadowed by an earlier one of the
    same guard. *)
Theorem compile_wellformed v1 a :
  spec_ok v1 → compile (V1 v1) = Ok a →
  a_start a < length (a_states a) ≤ MAX_STATES ∧ frame_count a ≤ MAX_FRAMES ∧
  state_name a (a_start a) = start v1 ∧
  ∀ n cs, a_states a !! n = Some cs →
    length (c_rules cs) ≤ MAX_RULES_PER_STATE ∧ unshadowed (c_rules cs) ∧
    ∀ r, r ∈ c_rules cs →
      pop_guarded r ∧
      (∀ m, action_target (c_action r) = Some m → m < length (a_states a)) ∧
      (∀ f m, c_action r = CPush f m → f < frame_count a).
Proof.
  intros Hok Hc%compile_v1_ok; [|done].
  pose proof (compiled_table_ok _ _ Hok Hc) as [Hst Htgt].
  pose proof (cf_max_states _ _ Hc) as Hms. rewrite <-(compiled_length _ _ Hc) in Hms.
  rewrite (cf_frame_count _ _ Hc). split; [done|]. split; [apply Hc|]. split.
  { pose proof (cf_start _ _ Hc) as Hs. rewrite list_lookup_fmap in Hs.
    destruct (states v1 !! a_start a) as [s|] eqn:E; simplify_eq/=.
    by rewrite (state_name_position _ _ Hc _ _ E). }
  intros n cs Hn. split_and!.
  - destruct (Forall2_lookup_r _ _ _ _ _ (cf_states _ _ Hc) Hn) as (s & _ & _ & Hrules & Hle).
    by rewrite <-(Forall2_length _ _ _ Hrules).
  - eapply Forall_lookup_1 in Hn; [|apply (cf_unshadowed _ _ Hc)]. done.
  - intros r Hr. destruct (compiled_rule _ _ Hc _ _ _ Hn Hr) as (r' & [_ _ Hact Hpop]).
    split_and!; [done|intros m Hm; apply (Htgt n); by exists cs, r|].
    intros f m Hp. rewrite Hp in Hact. destruct (action r'); simpl in Hact; try done.
    destruct Hact as [Hf _]. by eapply lookup_lt_Some.
Qed.

(** The reachability check decides whether any accepting state can be reached
    from the start along the rules' targets; its iteration bound never decides. *)
Theorem reach_check_decides a name :
  table_ok a → length (a_states a) ≤ MAX_STATES →
  (check_reachable_accept a name = Ok () ↔
   ∃ n, rtc (rule_edge a) (a_start a) n ∧ is_accepting_state a n = true) ∧
  (∀ e, check_reachable_accept a name = Err e → e = NoReachableAccept name).
Proof.
  intros Ha Hmax. rewrite <-(reach_start_spec a Ha Hmax). unfold check_reachable_accept.
  destruct (reach_loop a _ _ _); [done|]. split; [done|]. by intros e [= <-].
Qed.

(** ** Witnesses *)

Lemma compile_refines_witness :
  spec_step demo_spec "id" (Some "P") ")" (Pop "end").
Proof.
  destruct (compile (V1 demo_spec)) as [a|e] eqn:Hc; [|by vm_compute in Hc].
  destruct (states demo_spec !! 1) as [s|] eqn:Hs; [|by vm_compute in Hs].
  destruct (compile_refines demo_spec a 1 s (Some 0) (Some "P") ")" demo_spec_ok Hc Hs eq_refl)
    as [_ Href].
  vm_compute in Hc, Hs. injection Hc as <-. injection Hs as <-. apply Href. vm_compute. reflexivity.
Defined.

Lemma compile_wellformed_witness :
  match compile (V1 demo_spec) with Ok a => a_start a < length (a_states a) | Err _ => False end.
Proof.
  destruct (compile (V1 demo_spec)) as [a|e] eqn:Hc; [|by vm_compute in Hc].
  apply (compile_wellformed demo_spec a demo_spec_ok Hc).
Defined.

Lemma reach_check_decides_witness :
  match compile (V1 demo_spec) with
  | Ok a => ∃ n, rtc (rule_edge a) (a_start a) n ∧ is_accepting_state a n = true
  | Err _ => False
  end.
Proof.
  destruct (compile (V1 demo_spec)) as [a|e] eqn:Hc; [|by vm_compute in Hc].
  pose proof (compile_v1_ok demo_spec a demo_spec_ok Hc) as Hcf.
  apply (reach_check_decides a "s" (compiled_table_ok _ _ demo_spec_ok Hcf)).
  - rewrite (compiled_length _ _ Hcf). apply Hcf.
  - apply Hcf.
Defined.
