(* ===== verification/Rtn.v ===== *)
(** * The driver of a compiled spec

    [RtnPda] of [grammar/compile.rs], the data-driven twin of [Pda]: the same
    operations over [Compile.step] and [nat] frames.  The automaton it borrows
    is an argument of each operation. *)

From stdpp Require Import relations gmap.
From S2P Require Import Prelude StackMachine PdaState BTree Spec Compile CompileGoto CompileCorrect.

(** [RtnPda]: its [automaton] field is the argument [a] below. *)
Record RtnPda := { rtn_state : nat; rtn_stack : list nat }.

#[global] Instance RtnPda_eq_dec : EqDecision RtnPda.
Proof. solve_decision. Defined.

(** [RtnPda::new], [RtnPda::at] and [RtnPda::reset]. *)
Definition Rtn_new (a : CompiledAutomaton) : RtnPda := {| rtn_state := a_start a; rtn_stack := [] |}.
Definition Rtn_at (a : CompiledAutomaton) (state : nat) : RtnPda :=
  {| rtn_state := state; rtn_stack := [] |}.
Definition Rtn_reset (a : CompiledAutomaton) (p : RtnPda) : RtnPda :=
  {| rtn_state := a_start a; rtn_stack := [] |}.

(** [RtnPda::stack_top]. *)
Definition rtn_stack_top (p : RtnPda) : option nat := head (rtn_stack p).

(** [RtnPda::advance]: [false] leaves the automaton unchanged. *)
Definition rtn_advance (a : CompiledAutomaton) (p : RtnPda) (b : byte) : RtnPda * bool :=
  let top := head (rtn_stack p) in
  match step a (rtn_state p) top b with
  | Next next => ({| rtn_state := next; rtn_stack := rtn_stack p |}, true)
  | Push frame next => ({| rtn_state := next; rtn_stack := frame :: rtn_stack p |}, true)
  | Pop next => ({| rtn_state := next; rtn_stack := tail (rtn_stack p) |}, true)
  | Dead => (p, false)
  end.

(** [RtnPda::is_accepting]. *)
Definition rtn_is_accepting (a : CompiledAutomaton) (p : RtnPda) : bool :=
  bool_decide (rtn_stack p = []) && is_accepting_state a (rtn_state p).

(** [RtnPda::admits]. *)
Fixpoint rtn_admits_loop (a : CompiledAutomaton) (state : nat) (scratch : list nat)
    (bytes : list byte) : bool * list nat :=
  match bytes with
  | [] => (true, scratch)
  | b :: bytes =>
      match step a state (head scratch) b with
      | Next next => rtn_admits_loop a next scratch bytes
      | Push frame next => rtn_admits_loop a next (frame :: scratch) bytes
      | Pop next => rtn_admits_loop a next (tail scratch) bytes
      | Dead => (false, scratch)
      end
  end.

Definition rtn_admits (a : CompiledAutomaton) (p : RtnPda) (bytes : list byte)
    (scratch : list nat) : bool * list nat :=
  let scratch := [] in
  let scratch := scratch ++ rtn_stack p in
  rtn_admits_loop a (rtn_state p) scratch bytes.

(** [RtnPda::probe]. *)
Fixpoint rtn_probe_loop (a : CompiledAutomaton) (state : nat) (scratch : list nat)
    (bytes : list byte) : Probe * list nat :=
  match bytes with
  | [] => ({| alive := true; consulted_ambient := false |}, scratch)
  | b :: bytes =>
      match step a state (head scratch) b with
      | Next next => rtn_probe_loop a next scratch bytes
      | Push frame next => rtn_probe_loop a next (frame :: scratch) bytes
      | Pop next => rtn_probe_loop a next (tail scratch) bytes
      | Dead =>
          ({| alive := false;
              consulted_ambient :=
                bool_decide (scratch = [])
                && existsb (λ f, negb (is_dead (step a state (Some f) b))) (seq 0 (frame_count a)) |},
           scratch)
      end
  end.

Definition rtn_probe (a : CompiledAutomaton) (p : RtnPda) (bytes : list byte)
    (scratch : list nat) : Probe * list nat :=
  let scratch := [] in
  let scratch := scratch ++ rtn_stack p in
  rtn_probe_loop a (rtn_state p) scratch bytes.

(** ** The driver against the stream semantics *)

Section driver.
Context (a : CompiledAutomaton).

#[local] Instance rtn_machine : StackMachine nat nat := step a.

Definition rtn_config (p : RtnPda) : nat * list nat := (rtn_state p, rtn_stack p).
Definition rtn_of_config (c : nat * list nat) : RtnPda := {| rtn_state := c.1; rtn_stack := c.2 |}.

(** A [Pop] over an empty stack is turned into [Dead], whatever the table. *)
#[local] Instance rtn_pop_has_frame : PopHasFrame nat nat.
Proof.
  intros s b s'. unfold sm_step, rtn_machine, step. generalize (S (length (a_states a))).
  intros n. revert s. induction n as [|n IH]; intros s; simpl; [done|].
  destruct (a_states a !! s) as [cs|]; [|done].
  destruct (select_rule (c_rules cs) None b) as [r|]; simpl; [|done].
  by destruct (c_action r).
Qed.

Lemma rtn_advance_step1 p b :
  rtn_advance a p b =
  match step1 (rtn_config p) b with Some c => (rtn_of_config c, true) | None => (p, false) end.
Proof.
  unfold rtn_advance, step1, rtn_config; cbn [fst snd].
  change (sm_step (rtn_state p) (head (rtn_stack p)) b)
    with (step a (rtn_state p) (head (rtn_stack p)) b).
  by destruct (step a (rtn_state p) (head (rtn_stack p)) b).
Qed.

(** Folding [advance] over a token, stopping at the first dead byte. *)
Fixpoint rtn_advance_all (p : RtnPda) (bytes : list byte) : RtnPda * bool :=
  match bytes with
  | [] => (p, true)
  | b :: bytes => match rtn_advance a p b with
                  | (p', true) => rtn_advance_all p' bytes
                  | (p', false) => (p', false)
                  end
  end.

Lemma rtn_advance_all_run p bytes :
  match run (rtn_config p) bytes with
  | Some c => rtn_advance_all p bytes = (rtn_of_config c, true)
  | None => (rtn_advance_all p bytes).2 = false
  end.
Proof.
  revert p. induction bytes as [|b bytes IH]; intros p; [by destruct p|].
  change (run (rtn_config p) (b :: bytes)) with
    (match step1 (rtn_config p) b with Some c => run c bytes | None => None end).
  cbn [rtn_advance_all]. rewrite rtn_advance_step1.
  destruct (step1 (rtn_config p) b) as [c|]; [|done].
  specialize (IH (rtn_of_config c)). by destruct c.
Qed.

Lemma rtn_admits_loop_run s scratch bytes :
  (rtn_admits_loop a s scratch bytes).1 = bool_decide (is_Some (run (s, scratch) bytes)).
Proof.
  revert s scratch. induction bytes as [|b bytes IH]; intros s scratch; [done|].
  cbn [rtn_admits_loop run]. unfold step1; cbn [fst snd].
  change (sm_step s (head scratch) b) with (step a s (head scratch) b).
  destruct (step a s (head scratch) b); auto.
Qed.

Lemma rtn_admits_run p bytes scratch :
  (rtn_admits a p bytes scratch).1 = bool_decide (is_Some (run (rtn_config p) bytes)).
Proof. apply rtn_admits_loop_run. Qed.

Lemma rtn_probe_loop_from s scratch bytes :
  (rtn_probe_loop a s scratch bytes).1 = probe_from (seq 0 (frame_count a)) s scratch bytes.
Proof.
  revert s scratch. induction bytes as [|b bytes IH]; intros s scratch; [done|].
  cbn [rtn_probe_loop probe_from].
  change (sm_step s (head scratch) b) with (step a s (head scratch) b).
  destruct (step a s (head scratch) b); auto. simpl. by destruct scratch.
Qed.

Lemma rtn_probe_run p bytes scratch :
  (rtn_probe a p bytes scratch).1 =
  probe_from (seq 0 (frame_count a)) (rtn_state p) (rtn_stack p) bytes.
Proof. apply rtn_probe_loop_from. Qed.

(** ** Stack blindness, decided by enumeration *)

(** Every byte accepted over an empty stack is accepted alike over each
    declared frame. *)
Definition stack_blind : bool :=
  forallb (λ s, forallb (λ f, forallb (λ b,
    is_dead (step a s None b) || bool_decide (step a s (Some f) b = step a s None b))
    all_bytes) (seq 0 (frame_count a))) (seq 0 (length (a_states a))).

Definition declared (stk : list nat) : Prop := Forall (λ f, f ∈ seq 0 (frame_count a)) stk.

Lemma stack_blind_spec : stack_blind = true → AmbientBlind nat nat (seq 0 (frame_count a)).
Proof.
  unfold stack_blind. rewrite forallb_forall. intros H s f b Hf Hlive.
  unfold sm_step, rtn_machine in *.
  destruct (decide (s < length (a_states a))) as [Hs|Hs].
  - assert (In s (seq 0 (length (a_states a)))) as Hin by (apply in_seq; lia).
    specialize (H s Hin). cbv beta in H.
    rewrite forallb_forall in H. apply list_elem_of_In in Hf. specialize (H f Hf). cbv beta in H.
    pose proof (forallb_bytes _ H b) as Hb. cbv beta in Hb.
    apply orb_true_iff in Hb as [Hb|Hb%bool_decide_eq_true]; [|done].
    by destruct (step a s None b).
  - exfalso. apply Hlive. unfold step. simpl.
    by rewrite (proj2 (lookup_ge_None (a_states a) s)) by lia.
Qed.
End driver.

(** ** Properties *)

Lemma rtn_probe_classified a p bytes scratch scratch' :
  stack_blind a = true → declared a (rtn_stack p) →
  let verdict := (rtn_probe a (Rtn_at a (rtn_state p)) bytes scratch).1 in
  (alive verdict = true → (rtn_admits a p bytes scratch').1 = true) ∧
  (alive verdict = false → consulted_ambient verdict = false →
     (rtn_admits a p bytes scratch').1 = false) ∧
  (consulted_ambient verdict = true → rtn_stack p = [] → (rtn_admits a p bytes scratch').1 = false).
Proof.
  intros Hblind Hdecl. cbv zeta. rewrite rtn_probe_run, rtn_admits_run.
  pose proof (stack_blind_spec a Hblind) as Hab. pose proof (rtn_pop_has_frame a) as Hpf.
  unfold rtn_config. split_and!.
  - intros Ha. apply bool_decide_true.
    exact (probe_alive_everywhere _ _ [] _ _ Ha Hdecl).
  - intros Ha Hc. pose proof (probe_dead_everywhere _ _ [] _ _ Ha Hc Hdecl) as E. simpl in E.
    rewrite E. by rewrite bool_decide_false by (intros [? [=]]).
  - intros Hc%probe_consulted_dead ->. simpl in Hc. rewrite Hc.
    by rewrite bool_decide_false by (intros [? [=]]).
Qed.

(** [RtnPda::advance] over a compiled table: a rejected byte changes nothing,
    an accepted one moves as the table says, and a pop finds a frame. *)
Lemma rtn_advance_spec a p b :
  match rtn_advance a p b with
  | (p', false) => p' = p ∧ step a (rtn_state p) (rtn_stack_top p) b = Dead
  | (p', true) =>
      match step a (rtn_state p) (rtn_stack_top p) b with
      | Next s => p' = {| rtn_state := s; rtn_stack := rtn_stack p |}
      | Push f s => p' = {| rtn_state := s; rtn_stack := f :: rtn_stack p |}
      | Pop s => ∃ f stk, rtn_stack p = f :: stk ∧ p' = {| rtn_state := s; rtn_stack := stk |}
      | Dead => False
      end
  end.
Proof.
  unfold rtn_advance, rtn_stack_top.
  pose proof (rtn_pop_has_frame a (rtn_state p) b) as Hpop. unfold sm_step, rtn_machine in Hpop.
  destruct (step a (rtn_state p) (head (rtn_stack p)) b) as [| |s'|] eqn:E; try done.
  destruct (rtn_stack p) as [|f stk]; [by destruct (Hpop s')|by eauto].
Qed.

(** Over a stack-blind table, the build-time probe classifies every token
    against every live stack of declared frames. *)
Theorem rtn_probe_classifies a p bytes scratch scratch' :
  stack_blind a = true → declared a (rtn_stack p) →
  let verdict := (rtn_probe a (Rtn_at a (rtn_state p)) bytes scratch).1 in
  (alive verdict = true → (rtn_admits a p bytes scratch').1 = true) ∧
  (alive verdict = false → consulted_ambient verdict = false →
     (rtn_admits a p bytes scratch').1 = false) ∧
  (consulted_ambient verdict = true → rtn_stack p = [] → (rtn_admits a p bytes scratch').1 = false).
Proof. apply rtn_probe_classified. Qed.

Lemma rtn_probe_classifies_witness :
  match compile (V1 demo_spec) with
  | Ok a => let p := {| rtn_state := a_start a; rtn_stack := [0] |} in
            (rtn_admits a p [x28; x61; x29] []).1 = true
  | Err _ => False
  end.
Proof.
  destruct (compile (V1 demo_spec)) as [a|e] eqn:Hc; [|by vm_compute in Hc].
  cbv zeta. vm_compute in Hc. injection Hc as <-.
  set (a := {| a_states := _ |}). set (p := {| rtn_state := _ |}).
  assert (stack_blind a = true) as Hb by (vm_compute; reflexivity).
  assert (declared a (rtn_stack p)) as Hd.
  { constructor; [|constructor]. apply elem_of_seq. vm_compute. lia. }
  destruct (rtn_probe_classifies a p [x28; x61; x29] [] [] Hb Hd) as (Ha & _).
  apply Ha. by vm_compute.
Defined.
