(* ===== verification/EmittedSubset.v ===== *)
(** * The shipped grammar as a declarative spec

    [EMITTED_SUBSET_SPEC] of [grammar/emitted_subset.rs]: the spec the crate
    ships in [grammar/emitted_subset.json], as the value its deserialization
    yields ([rule] abbreviates a JSON rule; bytes are written in hex).  The
    theorem at the end is the claim the file makes for it: the table compiled
    from it and the hand-written automaton of [grammar/pda.rs] take the same
    step in every state, over every stack top, on every byte. *)

From S2P Require Import Prelude StackMachine PdaState PdaStep Pda PdaLanguage.
From S2P Require Import BTree Spec Compile CompileGoto CompileCorrect Rtn.

(** ** The spec *)

Definition rule (t : ByteTest) (g : Guard) (act : Action) : TransitionRule :=
  {| byte_test := t; guard := g; action := act |}.
Definition state (acc : bool) (rs : list TransitionRule) : StateSpec :=
  {| accepting := acc; rules := rs |}.

Definition emitted_states_1 : list (string * StateSpec) :=
  [
   ("AfterArrow", state false
     [rule Whitespace Always (ANext "AfterArrow");
      rule IdentStart Always (ANext "InArrowIdent")]);
   ("AfterArrowName", state false
     [rule Whitespace Always (ANext "AfterArrowName");
      rule (Exact x28) Always (APush "Paren" "ExpectValue")]);
   ("AfterBinder", state false
     [rule Whitespace Always (ANext "AfterBinder");
      rule (Exact x3d) Always (ANext "ExpectBinderValue")]);
   ("AfterBinderMult", state false
     [rule Whitespace Always (ANext "AfterBinderMult");
      rule (Exact x7c) Always (ANext "ExpectLambdaBody");
      rule (Exact x2c) (StackTopIs "BraceLambda") (ANext "ExpectBraceBinder")]);
   ("AfterBinderMultToken", state false
     [rule Whitespace Always (ANext "AfterBinderMultToken");
      rule (Exact x5d) (StackTopIs "Bracket") (APop "AfterBinderMult")]);
   ("AfterBinderType", state false
     [rule Whitespace Always (ANext "AfterBinderType");
      rule (Exact x3a) Always (ANext "BinderTypeColon");
      rule (Exact x5b) Always (APush "Bracket" "ExpectBinderMult");
      rule (Exact x7c) Always (ANext "ExpectLambdaBody")]);
   ("AfterBinderTypePath", state false
     [rule Whitespace Always (ANext "AfterBinderTypePath");
      rule (Exact x3a) Always (ANext "BinderTypeColon");
      rule (Exact x5b) Always (APush "Bracket" "ExpectBinderMult")]);
   ("AfterBraceOpen", state false
     [rule Whitespace Always (ANext "AfterBraceOpen");
      rule (Exact x7c) Always (ANext "BlockStmt")]);
   ("AfterColon", state false
     [rule (Exact x3a) Always (ANext "AfterColon2");
      rule Whitespace (StackTopIsNot "Brace") (ANext "AfterColonWs");
      rule IdentStart (StackTopIsNot "Brace") (ANext "InBinderType");
      rule (Exact x7b) (StackTopIsNot "Brace") (APush "BraceLambda" "ExpectBraceBinder")]);
   ("AfterColon2", state false
     [rule IdentStart Always (ANext "InIdent")]);
   ("AfterColonWs", state false
     [rule Whitespace Always (ANext "AfterColonWs");
      rule IdentStart Always (ANext "InBinderType");
      rule (Exact x7b) Always (APush "BraceLambda" "ExpectBraceBinder")]);
   ("AfterDollar", state false
     [rule IdentStart Always (ANext "InMemberIdent")]);
   ("AfterDot", state false
     [rule Whitespace Always (ANext "AfterDot");
      rule IdentStart Always (ANext "InMemberIdent");
      rule (Exact x27) Always (ANext "InStrLit")]);
   ("AfterMemberName", state true
     [rule Whitespace Always (ANext "AfterMemberName");
      rule (Exact x28) Always (APush "Paren" "ExpectValue");
      rule Any Always (AGoto "AfterValue")]);
   ("AfterName", state true
     [rule Whitespace Always (ANext "AfterName");
      rule (Exact x28) Always (APush "Paren" "ExpectValue");
      rule (Exact x7c) Always (ANext "SawPipe");
      rule (Exact x3a) Always (ANext "AfterColon");
      rule Any Always (AGoto "AfterValue")]);
   ("AfterRelAggReduceBinder", state false
     [rule Whitespace Always (ANext "AfterRelAggReduceBinder");
      rule (Exact x7c) Always (ANext "SawPipe")]);
   ("AfterRelColColon", state false
     [rule Whitespace Always (ANext "AfterRelColColon");
      rule (Exact x7b) Always (APush "BraceLambda" "ExpectBraceBinder");
      rule IdentStart Always (ANext "InRelColLambdaBinder")]);
   ("AfterRelColLambdaBinder", state false
     [rule Whitespace Always (ANext "AfterRelColLambdaBinder");
      rule (Exact x7c) Always (ANext "SawPipe")]);
   ("AfterRelColName", state true
     [rule Whitespace Always (ANext "AfterRelColName");
      rule (Exact x3a) Always (ANext "AfterRelColColon");
      rule (Exact x7c) Always ADead;
      rule Any Always (AGoto "AfterValue")]);
   ("AfterStrLit", state true
     [rule Whitespace Always (ANext "AfterStrLit");
      rule (Exact x7c) Always (ANext "SawPipe");
      rule (Exact x3a) Always (ANext "AfterColon");
      rule Any Always (AGoto "AfterValue")]);
   ("AfterValue", state true
     [rule Whitespace Always (ANext "AfterValue");
      rule (Exact x2d) Always (ANext "SawDash");
      rule (Exact x3e) Always (ANext "SawGt");
      rule (Exact x3c) Always (ANext "SawLt");
      rule (Exact x3d) Always (ANext "SawEq");
      rule (Exact x21) Always (ANext "SawBang");
      rule (Exact x26) Always (ANext "SawAmp");
      rule (Exact x7c) Always (ANext "SawValuePipe");
      rule (OneOf [x2b; x2a; x2f]) Always (ANext "ExpectValueReq");
      rule (Exact x2e) Always (ANext "AfterDot");
      rule (Exact x3a) (StackTopIsNot "Brace") (ANext "AfterValueColon");
      rule (Exact x2c) (StackTopIs "Group") ADead;
      rule (Exact x2c) (StackTopIs "RelColBracket") (ANext "ExpectRelColSpecReq");
      rule (Exact x2c) (StackTopIsNot "Brace") (ANext "ExpectValueReq");
      rule (Exact x3b) (StackTopIs "Brace") (ANext "BlockStmtClose");
      rule (Exact x29) (StackTopIs "Paren") (APop "AfterValue");
      rule (Exact x29) (StackTopIs "Group") (APop "AfterValue");
      rule (Exact x5d) (StackTopIs "Bracket") (APop "AfterValue");
      rule (Exact x5d) (StackTopIs "RelColBracket") (APop "AfterValue");
      rule (Exact x7d) (StackTopIs "Brace") (APop "AfterValue");
      rule (Exact x7d) (StackTopIs "BraceLambda") (APop "AfterValue")]);
   ("AfterValueColon", state false
     [rule Whitespace Always (ANext "AfterValueColon");
      rule IdentStart Always (ANext "InRelAggReduceBinder")]);
   ("BinderTypeColon", state false
     [rule (Exact x3a) Always (ANext "BinderTypeColon2")]);
   ("BinderTypeColon2", state false
     [rule IdentStart Always (ANext "InBinderTypePath")]);
   ("BlockStmt", state false
     [rule Whitespace Always (ANext "BlockStmt");
      rule (Exact x6c) Always (ANext "LetL");
      rule IdentStart Always (ANext "InSourceIdent");
      rule (Exact x24) Always (ANext "AfterDollar")]);
   ("BlockStmtClose", state false
     [rule Whitespace Always (ANext "BlockStmtClose");
      rule (Exact x6c) Always (ANext "LetL");
      rule IdentStart Always (ANext "InSourceIdent");
      rule (Exact x24) Always (ANext "AfterDollar");
      rule (Exact x7d) (StackTopIs "Brace") (APop "AfterValue");
      rule (Exact x7d) (StackTopIs "BraceLambda") (APop "AfterValue")]);
   ("DateFrac", state false
     [rule Digit Always (ANext "InDateFrac")]);
   ("DateSep", state false
     [rule Digit Always (ANext "InDateLit")]);
   ("DateTimeSep", state false
     [rule Digit Always (ANext "InDateTime")]);
   ("ExpectBinder", state false
     [rule Whitespace Always (ANext "ExpectBinder");
      rule IdentStart Always (ANext "InBinder")])
  ].

Definition emitted_states_2 : list (string * StateSpec) :=
  [
   ("ExpectBinderCallClose", state false
     [rule Whitespace Always (ANext "ExpectBinderCallClose");
      rule (Exact x29) (StackTopIs "Paren") (APop "AfterValue")]);
   ("ExpectBinderMult", state false
     [rule Whitespace Always (ANext "ExpectBinderMult");
      rule Digit Always (ANext "InBinderMult");
      rule (Exact x2a) Always (ANext "AfterBinderMultToken")]);
   ("ExpectBinderValue", state false
     [rule Whitespace Always (ANext "ExpectBinderValue");
      rule IdentStart Always (ANext "InBinderValueIdent");
      rule (Exact x25) Always (ANext "SawPercent")]);
   ("ExpectBraceBinder", state false
     [rule Whitespace Always (ANext "ExpectBraceBinder");
      rule IdentStart Always (ANext "InIdent")]);
   ("ExpectLambdaBody", state false
     [rule (Exact x7c) Always ADead;
      rule Any Always (AGoto "ExpectValueReq")]);
   ("ExpectRelColSpec", state false
     [rule Whitespace Always (ANext "ExpectRelColSpec");
      rule IdentStart Always (ANext "InRelColIdent");
      rule (Exact x27) Always (ANext "InRelColStrLit");
      rule (Exact x5d) (StackTopIs "RelColBracket") (APop "AfterValue")]);
   ("ExpectRelColSpecReq", state false
     [rule Whitespace Always (ANext "ExpectRelColSpecReq");
      rule IdentStart Always (ANext "InRelColIdent");
      rule (Exact x27) Always (ANext "InRelColStrLit")]);
   ("ExpectSource", state false
     [rule Whitespace Always (ANext "ExpectSource");
      rule IdentStart Always (ANext "InSourceIdent")]);
   ("ExpectValue", state false
     [rule Whitespace Always (ANext "ExpectValue");
      rule IdentStart Always (ANext "InIdent");
      rule Digit Always (ANext "InNumberInt");
      rule (Exact x2d) Always (ANext "SawNumSign");
      rule (Exact x2e) Always (ANext "NeedFracDigit");
      rule (Exact x27) Always (ANext "InStrLit");
      rule (Exact x25) Always (ANext "SawPercent");
      rule (Exact x24) Always (ANext "AfterDollar");
      rule (Exact x7e) Always (ANext "SawTilde");
      rule (Exact x28) Always (APush "Group" "ExpectValue");
      rule (Exact x5b) Always (APush "Bracket" "ExpectValue");
      rule (Exact x7b) Always (APush "BraceLambda" "ExpectBraceBinder");
      rule (Exact x7c) Always (ANext "ExpectValueReq");
      rule (Exact x21) Always (ANext "ExpectValueReq");
      rule (Exact x2a) (StackTopIs "Bracket") (ANext "InMultiplicity");
      rule (Exact x29) (StackTopIs "Paren") (APop "AfterValue");
      rule (Exact x29) (StackTopIs "Group") (APop "AfterValue");
      rule (Exact x5d) (StackTopIs "Bracket") (APop "AfterValue");
      rule (Exact x7d) (StackTopIs "Brace") (APop "AfterValue");
      rule (Exact x7d) (StackTopIs "BraceLambda") (APop "AfterValue")]);
   ("ExpectValueReq", state false
     [rule Whitespace Always (ANext "ExpectValueReq");
      rule IdentStart Always (ANext "InIdent");
      rule Digit Always (ANext "InNumberInt");
      rule (Exact x2d) Always (ANext "SawNumSign");
      rule (Exact x2e) Always (ANext "NeedFracDigit");
      rule (Exact x27) Always (ANext "InStrLit");
      rule (Exact x25) Always (ANext "SawPercent");
      rule (Exact x24) Always (ANext "AfterDollar");
      rule (Exact x7e) Always (ANext "SawTilde");
      rule (Exact x28) Always (APush "Group" "ExpectValue");
      rule (Exact x5b) Always (APush "Bracket" "ExpectValue");
      rule (Exact x7b) Always (APush "BraceLambda" "ExpectBraceBinder");
      rule (Exact x7c) Always (ANext "ExpectValueReq");
      rule (Exact x21) Always (ANext "ExpectValueReq")]);
   ("InArrowIdent", state false
     [rule IdentTail Always (ANext "InArrowIdent");
      rule Any Always (AGoto "AfterArrowName")]);
   ("InBinder", state false
     [rule IdentTail Always (ANext "InBinder");
      rule Whitespace Always (ANext "AfterBinder");
      rule (Exact x3d) Always (ANext "ExpectBinderValue")]);
   ("InBinderMult", state false
     [rule Digit Always (ANext "InBinderMult");
      rule Whitespace Always (ANext "AfterBinderMultToken");
      rule (Exact x5d) (StackTopIs "Bracket") (APop "AfterBinderMult")]);
   ("InBinderType", state false
     [rule IdentTail Always (ANext "InBinderType");
      rule (Exact x3a) Always (ANext "BinderTypeColon");
      rule Whitespace Always (ANext "AfterBinderType");
      rule (Exact x5b) Always (APush "Bracket" "ExpectBinderMult");
      rule (Exact x7c) Always (ANext "ExpectLambdaBody")]);
   ("InBinderTypePath", state false
     [rule IdentTail Always (ANext "InBinderTypePath");
      rule (Exact x3a) Always (ANext "BinderTypeColon");
      rule Whitespace Always (ANext "AfterBinderTypePath");
      rule (Exact x5b) Always (APush "Bracket" "ExpectBinderMult")]);
   ("InBinderValueIdent", state false
     [rule IdentTail Always (ANext "InBinderValueIdent");
      rule (Exact x2e) Always (ANext "AfterDot");
      rule (Exact x2d) Always (ANext "SourceDash");
      rule (Exact x3a) Always (ANext "SourceColon");
      rule (Exact x28) Always (APush "Paren" "ExpectBinderCallClose")]);
   ("InDateFrac", state false
     [rule Digit Always (ANext "InDateFrac");
      rule Any Always (AGoto "AfterValue")]);
   ("InDateLit", state false
     [rule Digit Always (ANext "InDateLit");
      rule (OneOf [x2d; x54]) Always (ANext "DateSep");
      rule (Exact x3a) Always (ANext "DateTimeSep");
      rule Any Always (AGoto "AfterValue")]);
   ("InDateTime", state false
     [rule Digit Always (ANext "InDateTime");
      rule (OneOf [x2d; x3a]) Always (ANext "DateTimeSep");
      rule (Exact x2e) Always (ANext "DateFrac");
      rule Any Always (AGoto "AfterValue")]);
   ("InExp", state false
     [rule Digit Always (ANext "InExp");
      rule Any Always (AGoto "AfterValue")]);
   ("InIdent", state false
     [rule IdentTail Always (ANext "InIdent");
      rule Any Always (AGoto "AfterName")]);
   ("InMemberIdent", state false
     [rule IdentTail Always (ANext "InMemberIdent");
      rule Any Always (AGoto "AfterMemberName")]);
   ("InMilestoneLit", state false
     [rule Any Always (AGoto "AfterValue")]);
   ("InMultiplicity", state false
     [rule (Exact x5d) (StackTopIs "Bracket") (APop "AfterValue")]);
   ("InNumberFrac", state false
     [rule Digit Always (ANext "InNumberFrac");
      rule (OneOf [x65; x45]) Always (ANext "SawExp");
      rule Any Always (AGoto "AfterValue")]);
   ("InNumberInt", state false
     [rule Digit Always (ANext "InNumberInt");
      rule (Exact x2e) Always (ANext "NeedFracDigit");
      rule Any Always (AGoto "AfterValue")]);
   ("InRelAggReduceBinder", state false
     [rule IdentTail Always (ANext "InRelAggReduceBinder");
      rule Any Always (AGoto "AfterRelAggReduceBinder")]);
   ("InRelColIdent", state false
     [rule IdentTail Always (ANext "InRelColIdent");
      rule Any Always (AGoto "AfterRelColName")]);
   ("InRelColLambdaBinder", state false
     [rule IdentTail Always (ANext "InRelColLambdaBinder");
      rule Any Always (AGoto "AfterRelColLambdaBinder")]);
   ("InRelColStrLit", state false
     [rule (Exact x27) Always (ANext "InRelColStrLitPending");
      rule Any Always (ANext "InRelColStrLit")])
  ].

Definition emitted_states_3 : list (string * StateSpec) :=
  [
   ("InRelColStrLitPending", state false
     [rule (Exact x27) Always (ANext "InRelColStrLit");
      rule Any Always (AGoto "AfterRelColName")]);
   ("InSourceIdent", state false
     [rule IdentTail Always (ANext "InSourceIdent");
      rule (Exact x2e) Always (ANext "AfterDot");
      rule (Exact x2d) Always (ANext "SourceDash");
      rule (Exact x3a) Always (ANext "SourceColon")]);
   ("InStrLit", state false
     [rule (Exact x27) Always (ANext "InStrLitPending");
      rule Any Always (ANext "InStrLit")]);
   ("InStrLitPending", state false
     [rule (Exact x27) Always (ANext "InStrLit");
      rule Any Always (AGoto "AfterStrLit")]);
   ("LetL", state false
     [rule (Exact x65) Always (ANext "LetLe");
      rule Any Always (AGoto "InSourceIdent")]);
   ("LetLe", state false
     [rule (Exact x74) Always (ANext "LetLet");
      rule Any Always (AGoto "InSourceIdent")]);
   ("LetLet", state false
     [rule Whitespace Always (ANext "ExpectBinder");
      rule Any Always (AGoto "InSourceIdent")]);
   ("MilestoneL", state false
     [rule (Exact x61) Always (ANext "MilestoneLa")]);
   ("MilestoneLa", state false
     [rule (Exact x74) Always (ANext "MilestoneLat")]);
   ("MilestoneLat", state false
     [rule (Exact x65) Always (ANext "MilestoneLate")]);
   ("MilestoneLate", state false
     [rule (Exact x73) Always (ANext "MilestoneLates")]);
   ("MilestoneLates", state false
     [rule (Exact x74) Always (ANext "InMilestoneLit")]);
   ("NeedExpDigit", state false
     [rule Digit Always (ANext "InExp")]);
   ("NeedFracDigit", state false
     [rule Digit Always (ANext "InNumberFrac")]);
   ("SawAmp", state false
     [rule (Exact x26) Always (ANext "ExpectValueReq")]);
   ("SawBang", state false
     [rule (Exact x3d) Always (ANext "ExpectValueReq")]);
   ("SawDash", state false
     [rule (Exact x3e) Always (ANext "AfterArrow");
      rule Any Always (AGoto "ExpectValueReq")]);
   ("SawEq", state false
     [rule (Exact x3d) Always (ANext "ExpectValueReq")]);
   ("SawExp", state false
     [rule (OneOf [x2b; x2d]) Always (ANext "NeedExpDigit");
      rule Digit Always (ANext "InExp")]);
   ("SawGt", state false
     [rule (Exact x3d) Always (ANext "ExpectValueReq");
      rule Any Always (AGoto "ExpectValueReq")]);
   ("SawLt", state false
     [rule (Exact x3d) Always (ANext "ExpectValueReq");
      rule Any Always (AGoto "ExpectValueReq")]);
   ("SawNumSign", state false
     [rule Digit Always (ANext "InNumberInt");
      rule (Exact x2e) Always (ANext "NeedFracDigit")]);
   ("SawPercent", state false
     [rule Digit Always (ANext "InDateLit");
      rule (Exact x6c) Always (ANext "MilestoneL")]);
   ("SawPipe", state false
     [rule (Exact x7c) Always (ANext "ExpectValueReq");
      rule Any (StackTopIsNot "Brace") (AGoto "ExpectValueReq")]);
   ("SawTilde", state false
     [rule (Exact x5b) Always (APush "RelColBracket" "ExpectRelColSpec");
      rule (Exact x27) Always (ANext "InRelColStrLit");
      rule IdentStart Always (ANext "InRelColIdent")]);
   ("SawValuePipe", state false
     [rule (Exact x7c) Always (ANext "ExpectValueReq")]);
   ("SourceColon", state false
     [rule (Exact x3a) Always (ANext "SourceColon2")]);
   ("SourceColon2", state false
     [rule IdentStart Always (ANext "InSourceIdent")]);
   ("SourceDash", state false
     [rule (Exact x3e) Always (ANext "AfterArrow")]);
   ("Start", state false
     [rule Whitespace Always (ANext "Start");
      rule (Exact x7c) Always (ANext "ExpectSource");
      rule (Exact x7b) Always (APush "Brace" "AfterBraceOpen")])
  ].

Definition EMITTED_SUBSET_SPEC : GrammarSpecV1 := {|
  start := "Start";
  boundary_byte := x20;
  frames := ["Paren"; "Group"; "Bracket"; "Brace"; "BraceLambda"; "RelColBracket"];
  states := emitted_states_1 ++ emitted_states_2 ++ emitted_states_3;
|}.

(** ** The correspondence of states and frames *)

(** The spec's name for a state: the two states that carry an escape flag are
    two spec states each. *)
Definition spec_state (s : State) : string :=
  match s with
  | InStrLit true => "InStrLitPending"
  | InRelColStrLit true => "InRelColStrLitPending"
  | s => State_name s
  end.

(** Its dense id: the position of that name in the spec's map. *)
Definition spec_id (s : State) : nat :=
  match s with
  | AfterArrow => 0 | AfterArrowName => 1 | AfterBinder => 2 | AfterBinderMult => 3
  | AfterBinderMultToken => 4 | AfterBinderType => 5 | AfterBinderTypePath => 6
  | AfterBraceOpen => 7 | AfterColon => 8 | AfterColon2 => 9 | AfterColonWs => 10
  | AfterDollar => 11 | AfterDot => 12 | AfterMemberName => 13 | AfterName => 14
  | AfterRelAggReduceBinder => 15 | AfterRelColColon => 16 | AfterRelColLambdaBinder => 17
  | AfterRelColName => 18 | AfterStrLit => 19 | AfterValue => 20 | AfterValueColon => 21
  | BinderTypeColon => 22 | BinderTypeColon2 => 23 | BlockStmt => 24 | BlockStmtClose => 25
  | DateFrac => 26 | DateSep => 27 | DateTimeSep => 28 | ExpectBinder => 29
  | ExpectBinderCallClose => 30 | ExpectBinderMult => 31 | ExpectBinderValue => 32
  | ExpectBraceBinder => 33 | ExpectLambdaBody => 34 | ExpectRelColSpec => 35
  | ExpectRelColSpecReq => 36 | ExpectSource => 37 | ExpectValue => 38 | ExpectValueReq => 39
  | InArrowIdent => 40 | InBinder => 41 | InBinderMult => 42 | InBinderType => 43
  | InBinderTypePath => 44 | InBinderValueIdent => 45 | InDateFrac => 46 | InDateLit => 47
  | InDateTime => 48 | InExp => 49 | InIdent => 50 | InMemberIdent => 51 | InMilestoneLit => 52
  | InMultiplicity => 53 | InNumberFrac => 54 | InNumberInt => 55 | InRelAggReduceBinder => 56
  | InRelColIdent => 57 | InRelColLambdaBinder => 58 | InRelColStrLit false => 59
  | InRelColStrLit true => 60 | InSourceIdent => 61 | InStrLit false => 62
  | InStrLit true => 63 | LetL => 64 | LetLe => 65 | LetLet => 66 | MilestoneL => 67
  | MilestoneLa => 68 | MilestoneLat => 69 | MilestoneLate => 70 | MilestoneLates => 71
  | NeedExpDigit => 72 | NeedFracDigit => 73 | SawAmp => 74 | SawBang => 75 | SawDash => 76
  | SawEq => 77 | SawExp => 78 | SawGt => 79 | SawLt => 80 | SawNumSign => 81
  | SawPercent => 82 | SawPipe => 83 | SawTilde => 84 | SawValuePipe => 85 | SourceColon => 86
  | SourceColon2 => 87 | SourceDash => 88 | Start => 89
  end.

Definition spec_frame (f : Frame) : nat :=
  match f with
  | Paren => 0 | Group => 1 | Bracket => 2 | Brace => 3 | BraceLambda => 4 | RelColBracket => 5
  end.

Definition spec_step_of (st : Step State Frame) : Step nat nat :=
  match st with
  | Next s => Next (spec_id s)
  | Push f s => Push (spec_frame f) (spec_id s)
  | Pop s => Pop (spec_id s)
  | Dead => Dead
  end.

Lemma emitted_spec_ok : spec_ok EMITTED_SUBSET_SPEC.
Proof.
  unfold spec_ok. replace (states EMITTED_SUBSET_SPEC) with (bt_of_list (states EMITTED_SUBSET_SPEC))
    by (vm_compute; reflexivity).
  apply bt_of_list_sorted.
Qed.

(** The compiled table. *)
Definition emitted_automaton : CompiledAutomaton :=
  Eval vm_compute in
    match compile (V1 EMITTED_SUBSET_SPEC) with
    | Ok a => a
    | Err _ => {| a_states := []; a_start := 0; frame_count := 0; a_boundary_byte := x00;
                  state_names := []; frame_names := [] |}
    end.

Lemma emitted_compiles : compile (V1 EMITTED_SUBSET_SPEC) = Ok emitted_automaton.
Proof. vm_compute. reflexivity. Qed.

Lemma spec_id_position :
  forallb (λ s, bool_decide ((states EMITTED_SUBSET_SPEC).*1 !! spec_id s = Some (spec_state s)))
    ALL_STATES = true.
Proof. vm_compute. reflexivity. Qed.

(** ** The two automata step alike *)

(** Checked at every transition the stack discipline does not rule out. *)
Definition steps_agree (s : State) (top : option Frame) (b : byte) : bool :=
  negb (allowed_top s top) ||
  bool_decide (Compile.step emitted_automaton (spec_id s) (spec_frame <$> top) b =
               spec_step_of (PdaStep.step s top b)).

Lemma steps_agree_everywhere : forall_transitions steps_agree = true.
Proof. vm_compute. reflexivity. Qed.

Lemma accepting_agrees :
  forallb (λ s, bool_decide (is_accepting_state emitted_automaton (spec_id s) = is_accepting (Pda_at s)))
    ALL_STATES = true.
Proof. vm_compute. reflexivity. Qed.

(** Six transitions over unreachable stack tops are refused by the spec and
    taken by the code: the agreement needs the discipline. *)
Lemma steps_differ_off_discipline :
  Compile.step emitted_automaton (spec_id ExpectBinderCallClose) (Some (spec_frame Group)) x29 = Dead ∧
  PdaStep.step ExpectBinderCallClose (Some Group) x29 = Pop AfterValue.
Proof. by vm_compute. Qed.

Lemma step_agrees s top b :
  allowed_top s top = true →
  Compile.step emitted_automaton (spec_id s) (spec_frame <$> top) b =
  spec_step_of (PdaStep.step s top b).
Proof.
  intros Ha. pose proof (forall_transitions_spec _ steps_agree_everywhere s top b) as H.
  unfold steps_agree in H. rewrite Ha in H. cbn [negb orb] in H. by apply bool_decide_eq_true in H.
Qed.

(** ** The simulation *)

(** The configuration of the compiled table that mirrors one of the code. *)
Definition mirror (p : Pda) : RtnPda :=
  {| rtn_state := spec_id (pda_state p); rtn_stack := map spec_frame (pda_stack p) |}.

Lemma mirror_advance p b :
  disciplined (config p) = true →
  rtn_advance emitted_automaton (mirror p) b =
  (mirror (advance p b).1, is_ok (advance p b).2).
Proof.
  unfold disciplined. intros [Ha _]%andb_true_iff. destruct p as [s stk]. cbn [config fst snd] in Ha.
  unfold rtn_advance, advance, mirror. cbn [rtn_state rtn_stack pda_state pda_stack].
  replace (head (map spec_frame stk)) with (spec_frame <$> head stk) by by destruct stk.
  rewrite step_agrees by done.
  destruct (PdaStep.step s (head stk) b); cbn [spec_step_of fst snd is_ok]; try done.
  by destruct stk.
Qed.

(** C36. The shipped spec is the shipped automaton: on every stream of bytes the
    compiled table and the hand-written code die at the same byte or reach
    mirrored configurations, and agree on whether the query is complete. *)
Theorem emitted_subset_equivalent bytes :
  rtn_advance_all emitted_automaton (Rtn_new emitted_automaton) bytes =
    (mirror (advance_all Pda_new bytes).1, is_ok (advance_all Pda_new bytes).2) ∧
  rtn_is_accepting emitted_automaton (mirror (advance_all Pda_new bytes).1) =
    is_accepting (advance_all Pda_new bytes).1.
Proof.
  split.
  - change (Rtn_new emitted_automaton) with (mirror Pda_new).
    assert (disciplined (config Pda_new) = true) as Hd by done. revert Hd.
    generalize Pda_new. induction bytes as [|b bytes IH]; intros p Hd; [done|].
    cbn [rtn_advance_all advance_all]. rewrite mirror_advance by done.
    pose proof (advance_step1 p b) as Hs. destruct (step1 (config p) b) as [c|] eqn:Es.
    + rewrite Hs. cbn [fst snd is_ok]. apply IH. rewrite config_of_config.
      by eapply disciplined_step.
    + destruct Hs as [e ->]. done.
  - generalize (advance_all Pda_new bytes).1. intros [s stk].
    unfold rtn_is_accepting, mirror. cbn [rtn_state rtn_stack pda_state pda_stack].
    pose proof accepting_agrees as Hacc. rewrite forallb_forall in Hacc.
    specialize (Hacc s (ALL_STATES_complete s)). apply bool_decide_eq_true in Hacc.
    destruct stk as [|f stk]; [|done]. rewrite Hacc. done.
Qed.

(** The cache split is sound for the shipped spec: its table is stack-blind. *)
Lemma emitted_stack_blind : stack_blind emitted_automaton = true.
Proof. vm_compute. reflexivity. Qed.
