(* ===== verification/Compiled.v ===== *)
(** * The compiled grammar and its mask cache

    [grammar/compiled.rs]: a vocabulary, an engine (the hand-written automaton
    or a compiled spec) and one lazily filled vocabulary partition per state.
    The code fills the cache through a shared reference ([OnceCell]); here the
    grammar is the store the sessions share, so a lookup returns the grammar
    it leaves behind.  The invariant [grammar_ok] says that whatever is cached
    is what the build would give, and it makes the cache transparent. *)

From S2P Require Import Prelude StackMachine PdaState PdaStep Pda Mask.
From S2P Require Import BTree Spec Compile CompileGoto CompileCorrect Rtn.

(** ** Data *)

Inductive Engine := EngineFixed | EngineSpec (a : CompiledAutomaton).

(** [Cached]: the stack-independent survivors at a state, and the tokens to
    probe again against the live stack. *)
Record Cached := { indep : BitMask; deferred : list N }.

Record CompiledGrammar := {
  vocab : Vocab;
  engine : Engine;
  cache : list (option Cached);
}.

(** [CompiledGrammar::compile]. *)
Definition CompiledGrammar_compile (v : Vocab) : CompiledGrammar :=
  {| vocab := v; engine := EngineFixed; cache := replicate COUNT None |}.

(** [CompiledGrammar::from_spec], over the JSON deserializer. *)
Definition from_spec (from_str : string → Result GrammarSpec JsonError) (spec : string) (v : Vocab)
    : Result CompiledGrammar SpecError :=
  let? parsed := GrammarSpec_parse from_str spec in
  let? automaton := compile parsed in
  Ok {| vocab := v; engine := EngineSpec automaton;
        cache := replicate (state_count automaton) None |}.

(** [eos_bit] and [mask_len]: the cast of the length to [u32] wraps. *)
Definition eos_bit (g : CompiledGrammar) : N := (N.of_nat (vocab_len (vocab g)) mod U32_MOD)%N.
Definition mask_len (g : CompiledGrammar) : nat := N.to_nat (eos_bit g) + 1.

(** ** Building a partition *)

Section build.
Context {F : Type} (probe : list byte → list F → Probe * list F) (v : Vocab).

(** One token of the build loop, over the survivors, the deferred ids and the
    reused scratch stack. *)
Definition build_token (acc : BitMask * list N * list F) (id : N) : BitMask * list N * list F :=
  let '(indep, deferred, scratch) := acc in
  let bytes := default [] (vocab_bytes v id) in
  let '(pr, scratch) := probe bytes scratch in
  if consulted_ambient pr then (indep, deferred ++ [id], scratch)
  else if alive pr then (set indep id, deferred, scratch)
  else (indep, deferred, scratch).

(** The ids [0..vocab.len() as u32]. *)
Definition token_ids : list N :=
  map N.of_nat (seq 0 (N.to_nat (N.of_nat (vocab_len v) mod U32_MOD))).

Definition build_with (mask_len : nat) : Cached :=
  let '(indep, deferred, _) := foldl build_token (with_len mask_len, [], []) token_ids in
  {| indep := indep; deferred := deferred |}.
End build.

(** [build_fixed] and [build_spec]. *)
Definition build_fixed (state : State) (v : Vocab) (mask_len : nat) : Cached :=
  build_with (probe (Pda_at state)) v mask_len.
Definition build_spec (a : CompiledAutomaton) (id : nat) (v : Vocab) (mask_len : nat) : Cached :=
  build_with (rtn_probe a (Rtn_at a id)) v mask_len.

(** ** The lazy cache *)

(** [self.cache[i].get_or_init(build)].  An index out of range, at which the
    code panics, is excluded by [grammar_ok]. *)
Definition get_or_init (g : CompiledGrammar) (i : nat) (build : Cached) : CompiledGrammar * Cached :=
  match cache g !! i with
  | Some (Some c) => (g, c)
  | Some None =>
      ({| vocab := vocab g; engine := engine g; cache := <[i := Some build]> (cache g) |}, build)
  | None => (g, build)
  end.

(** [CompiledGrammar::cached] and [cached_spec]. *)
Definition cached (g : CompiledGrammar) (s : State) : CompiledGrammar * Cached :=
  get_or_init g (index s) (build_fixed s (vocab g) (mask_len g)).
Definition cached_spec (g : CompiledGrammar) (a : CompiledAutomaton) (id : nat)
    : CompiledGrammar * Cached :=
  get_or_init g id (build_spec a id (vocab g) (mask_len g)).

(** ** What a partition holds *)

Definition token_bytes (v : Vocab) (id : N) : list byte := default [] (vocab_bytes v id).

Record partition_of {F} (probe : list byte → list F → Probe * list F) (v : Vocab) (len : nat)
    (c : Cached) : Prop := {
  part_ok : mask_ok (indep c);
  part_len : mlen (indep c) = len;
  part_indep id : test (indep c) id = true ↔
    id ∈ token_ids v ∧ (id < N.of_nat len)%N ∧
    ∀ scr, consulted_ambient (probe (token_bytes v id) scr).1 = false ∧
           alive (probe (token_bytes v id) scr).1 = true;
  part_deferred id : id ∈ deferred c ↔
    id ∈ token_ids v ∧ ∀ scr, consulted_ambient (probe (token_bytes v id) scr).1 = true;
}.

Lemma or_cons_skip (P : N → Prop) (A : Prop) id i ids :
  ¬ P i → (A ∨ id ∈ ids ∧ P id) ↔ (A ∨ id ∈ i :: ids ∧ P id).
Proof.
  intros Hi. rewrite elem_of_cons. split; (intros [?|[H ?]]; [by left|right]).
  - split; [by right|done].
  - split; [|done]. by destruct H as [->|].
Qed.

Lemma or_cons_take (P : N → Prop) (A : Prop) id i ids :
  P i → ((id = i ∨ A) ∨ id ∈ ids ∧ P id) ↔ (A ∨ id ∈ i :: ids ∧ P id).
Proof.
  intros Hi. rewrite elem_of_cons. split.
  - intros [[->|?]|[? ?]]; [right; by split; [left|]|by left|right; by split; [right|]].
  - intros [?|[[->|?] ?]]; [left; by right|left; by left|by right].
Qed.

Section build_spec.
Context {F : Type} (probe : list byte → list F → Probe * list F) (v : Vocab).
(** The verdict does not depend on the scratch stack handed in. *)
Context (Hscratch : ∀ bytes scr scr', (probe bytes scr).1 = (probe bytes scr').1).

Lemma build_fold ids indep0 deferred0 scratch0 indep1 deferred1 scratch1 :
  foldl (build_token probe v) (indep0, deferred0, scratch0) ids = (indep1, deferred1, scratch1) →
  mask_ok indep0 →
  mask_ok indep1 ∧ mlen indep1 = mlen indep0 ∧
  (∀ id, test indep1 id = true ↔ test indep0 id = true ∨
     id ∈ ids ∧ (id < N.of_nat (mlen indep0))%N ∧
     consulted_ambient (probe (token_bytes v id) []).1 = false ∧
     alive (probe (token_bytes v id) []).1 = true) ∧
  (∀ id, id ∈ deferred1 ↔ id ∈ deferred0 ∨
     id ∈ ids ∧ consulted_ambient (probe (token_bytes v id) []).1 = true).
Proof.
  revert indep0 deferred0 scratch0. induction ids as [|i ids IH]; intros m d scr Hf Hm.
  { simpl in Hf. simplify_eq. split_and!; try done; intros id;
      (split; [by left|by intros [|[?%not_elem_of_nil _]]]). }
  cbn [foldl] in Hf. unfold build_token at 2 in Hf. cbv beta iota zeta in Hf. fold (token_bytes v i) in Hf.
  destruct (probe (token_bytes v i) scr) as [pr scr'] eqn:Ep.
  assert (pr = (probe (token_bytes v i) []).1) as Hpr by (by rewrite (Hscratch _ [] scr), Ep).
  set (surv := λ id, (id < N.of_nat (mlen m))%N ∧
     consulted_ambient (probe (token_bytes v id) []).1 = false ∧
     alive (probe (token_bytes v id) []).1 = true).
  set (defer := λ id, consulted_ambient (probe (token_bytes v id) []).1 = true).
  destruct (consulted_ambient pr) eqn:Ec; [|destruct (alive pr) eqn:Ea].
  - destruct (IH _ _ _ Hf Hm) as (H1 & H2 & H3 & H4). split_and!; [done..| |]; intros id.
    + rewrite H3. apply (or_cons_skip surv). unfold surv. rewrite <-Hpr, Ec. by intros (? & ? & ?).
    + rewrite H4, elem_of_app, list_elem_of_singleton, (or_comm (id ∈ d)).
      apply (or_cons_take defer). unfold defer. by rewrite <-Hpr.
  - destruct (IH _ _ _ Hf (set_ok _ _ Hm)) as (H1 & H2 & H3 & H4). rewrite mlen_set in H2, H3.
    split_and!; [done..| |]; intros id.
    + rewrite H3, test_set, orb_true_iff, andb_true_iff, N.eqb_eq, N.ltb_lt by done.
      destruct (decide (i < N.of_nat (mlen m))%N) as [Hi|Hi].
      * etrans; [|apply (or_cons_take surv); unfold surv; by rewrite <-Hpr].
        fold (surv id). intuition (subst; auto).
      * etrans; [|apply (or_cons_skip surv); unfold surv; by intros [? _]].
        fold (surv id). intuition.
    + rewrite H4. apply (or_cons_skip defer). unfold defer. by rewrite <-Hpr, Ec.
  - destruct (IH _ _ _ Hf Hm) as (H1 & H2 & H3 & H4). split_and!; [done..| |]; intros id.
    + rewrite H3. apply (or_cons_skip surv). unfold surv. rewrite <-Hpr, Ea. by intros (? & ? & ?).
    + rewrite H4. apply (or_cons_skip defer). unfold defer. by rewrite <-Hpr, Ec.
Qed.

Lemma build_partition len : partition_of probe v len (build_with probe v len).
Proof.
  unfold build_with. destruct (foldl _ _ _) as [[m d] scr] eqn:E.
  destruct (build_fold _ _ _ _ _ _ _ E (with_len_ok len)) as (H1 & H2 & H3 & H4).
  split; cbn [indep deferred]; [done|done| |].
  - intros id. rewrite H3, test_with_len. simpl. split.
    + intros [|(? & ? & ? & ?)]; [done|]. split_and!; [done..|]. intros scr'.
      by rewrite (Hscratch _ scr' []).
    + intros (? & ? & Hs). right. split_and!; [done|done|apply (Hs [])..].
  - intros id. rewrite H4. split.
    + intros [?%not_elem_of_nil|[? ?]]; [done|]. split; [done|]. intros scr'.
      by rewrite (Hscratch _ scr' []).
    + intros [? Hs]. right. split; [done|apply (Hs [])].
Qed.
End build_spec.

Lemma build_fixed_partition s v len : partition_of (probe (Pda_at s)) v len (build_fixed s v len).
Proof. apply build_partition. intros. by rewrite !probe_run. Qed.

Lemma build_spec_partition a id v len :
  partition_of (rtn_probe a (Rtn_at a id)) v len (build_spec a id v len).
Proof. apply build_partition. intros. by rewrite !rtn_probe_run. Qed.

(** ** The invariant of the shared grammar *)

Definition build_at (g : CompiledGrammar) (i : nat) (c : Cached) : Prop :=
  match engine g with
  | EngineFixed => ∃ s, index s = i ∧ c = build_fixed s (vocab g) (mask_len g)
  | EngineSpec a => c = build_spec a i (vocab g) (mask_len g)
  end.

Record grammar_ok (g : CompiledGrammar) : Prop := {
  g_fits : vocab_fits (vocab g);
  g_slots : length (cache g) =
    match engine g with EngineFixed => COUNT | EngineSpec a => length (a_states a) end;
  g_coherent i c : cache g !! i = Some (Some c) → build_at g i c;
}.

Lemma eos_bit_fits g : vocab_fits (vocab g) → eos_bit g = N.of_nat (vocab_len (vocab g)).
Proof. intros. unfold eos_bit. by apply N.mod_small. Qed.

Lemma token_ids_elem v id :
  vocab_fits v → id ∈ token_ids v ↔ (id < N.of_nat (vocab_len v))%N.
Proof.
  intros Hf. unfold token_ids. rewrite N.mod_small, Nat2N.id by done.
  rewrite list_elem_of_fmap. split.
  - intros (i & -> & Hi%elem_of_seq). lia.
  - intros Hi. exists (N.to_nat id). rewrite N2Nat.id. split; [done|]. apply elem_of_seq. lia.
Qed.

Lemma get_or_init_ok g i build :
  grammar_ok g → build_at g i build → i < length (cache g) →
  let '(g', c) := get_or_init g i build in
  grammar_ok g' ∧ vocab g' = vocab g ∧ engine g' = engine g ∧ build_at g i c ∧
  cache g' !! i = Some (Some c).
Proof.
  intros [Hf Hl Hc] Hb Hi. unfold get_or_init.
  destruct (lookup_lt_is_Some_2 (cache g) i Hi) as [[c|] E]; rewrite E.
  - split_and!; try done. by apply Hc.
  - cbn [vocab engine cache]. split_and!; try done; [|by apply list_lookup_insert_eq].
    split; cbn [vocab engine cache]; [done|by rewrite length_insert|].
    intros j c. rewrite list_lookup_insert. case_decide as Hj; [|apply Hc].
    destruct Hj as [-> _]. by intros [= <-].
Qed.
