(* ===== verification/Session.v ===== *)
(** * The decode session

    [session.rs] over the shared [CompiledGrammar]: the cursor, the per-step
    mask, whole-token and byte-wise acceptance, completion and reset.  The
    grammar is borrowed by every session and mutated through its cache, so
    the operations that read the cache take it and return it.

    The L2 schema overlay ([schema/]) is an interface, the class [Overlay]:
    the tracker, the narrow functions and the end-of-stream verdict the
    session calls.  Nothing proved here needs a law of it. *)

From S2P Require Import Prelude StackMachine PdaState PdaStep Pda Mask.
From S2P Require Import BTree Spec Compile CompileGoto CompileCorrect Rtn Compiled.

(** ** Errors *)

(** [DecodeError] of [error.rs]. *)
Inductive DecodeError :=
| DeadStateErr (offset : nat) (b : byte) (state stack_top : string)
| InadmissibleToken (id : N)
| UnknownToken (id : N)
| UnexpectedEos
| SchemaRequiresFixedGrammar.

#[global] Instance DecodeError_eq_dec : EqDecision DecodeError.
Proof. solve_decision. Defined.

(** ** The overlay interface *)

(** What [session.rs] uses of [schema::scope::ScopeTracker] and of
    [schema::narrow].  A narrow refills the buffer and the memo it is given
    and says whether it applies. *)
Class Overlay := {
  Schema : Type;
  Tracker : Type;
  NarrowCache : Type;
  L2Position : Type;
  tracker_new : Tracker;
  narrow_cache_new : NarrowCache;
  narrow_cache_clear : NarrowCache → NarrowCache;
  position : Tracker → State → L2Position;
  position_is_none : L2Position → bool;
  masks_unbound_sigil : Tracker → State → bool;
  fused_nav_position : Tracker → Schema → option L2Position;
  observe : Tracker → list byte → Pda → Schema → Tracker;
  narrow_into : BitMask → NarrowCache → Schema → L2Position → Tracker → Vocab → N →
                BitMask * NarrowCache * bool;
  narrow_sigil_into : BitMask → NarrowCache → Vocab → N → BitMask * NarrowCache * bool;
  narrow_fused_into : BitMask → NarrowCache → Schema → L2Position → Tracker → Vocab → N →
                      BitMask * NarrowCache * bool;
  admits_eos : NarrowCache → Schema → L2Position → Tracker → NarrowCache * bool;
}.

(** ** The cursor *)

(** [Cursor]: the live automaton with its reused scratch stack; the spec
    variant borrows its table. *)
Inductive Cursor :=
| CursorFixed (p : Pda) (scratch : list Frame)
| CursorSpec (a : CompiledAutomaton) (p : RtnPda) (scratch : list nat).

(** [Cursor::new]. *)
Definition Cursor_new (g : CompiledGrammar) : Cursor :=
  match engine g with
  | EngineFixed => CursorFixed Pda_new []
  | EngineSpec a => CursorSpec a (Rtn_new a) []
  end.

(** [Cursor::cached]. *)
Definition cursor_cached (c : Cursor) (g : CompiledGrammar) : CompiledGrammar * Cached :=
  match c with
  | CursorFixed p _ => cached g (pda_state p)
  | CursorSpec a p _ => cached_spec g a (rtn_state p)
  end.

(** [Cursor::stack_top_present]. *)
Definition stack_top_present (c : Cursor) : bool :=
  match c with
  | CursorFixed p _ => bool_decide (is_Some (stack_top p))
  | CursorSpec _ p _ => bool_decide (is_Some (rtn_stack_top p))
  end.

(** [Cursor::admits]. *)
Definition cursor_admits (c : Cursor) (bytes : list byte) : Cursor * bool :=
  match c with
  | CursorFixed p scratch =>
      let '(r, scratch) := admits p bytes scratch in (CursorFixed p scratch, r)
  | CursorSpec a p scratch =>
      let '(r, scratch) := rtn_admits a p bytes scratch in (CursorSpec a p scratch, r)
  end.

(** [Cursor::is_accepting] and [Cursor::reset]. *)
Definition cursor_accepting (c : Cursor) : bool :=
  match c with
  | CursorFixed p _ => is_accepting p
  | CursorSpec a p _ => rtn_is_accepting a p
  end.
Definition cursor_reset (c : Cursor) : Cursor :=
  match c with
  | CursorFixed p scratch => CursorFixed (Pda_reset p) scratch
  | CursorSpec a p scratch => CursorSpec a (Rtn_reset a p) scratch
  end.

(** [Cursor::advance_byte]: the names of the dead configuration on rejection. *)
Definition advance_byte (c : Cursor) (b : byte) : Cursor * Result () (string * string) :=
  match c with
  | CursorFixed p scratch =>
      match advance p b with
      | (p', Ok _) => (CursorFixed p' scratch, Ok ())
      | (p', Err dead) => (CursorFixed p' scratch, Err (dead_state dead, dead_stack_top dead))
      end
  | CursorSpec a p scratch =>
      match rtn_advance a p b with
      | (p', true) => (CursorSpec a p' scratch, Ok ())
      | (p', false) =>
          (CursorSpec a p' scratch,
           Err (state_name a (rtn_state p'), frame_name a (rtn_stack_top p')))
      end
  end.

(** [Cursor::try_accept_token]: the fold runs on a clone, committed only when
    every byte survives. *)
Definition try_accept_token (c : Cursor) (bytes : list byte) : Cursor * bool :=
  match c with
  | CursorFixed p scratch =>
      match advance_all p bytes with
      | (pr, Ok _) => (CursorFixed pr scratch, true)
      | (_, Err _) => (c, false)
      end
  | CursorSpec a p scratch =>
      match rtn_advance_all a p bytes with
      | (pr, true) => (CursorSpec a pr scratch, true)
      | (_, false) => (c, false)
      end
  end.

(** ** The session *)

Section session.
Context `{Overlay}.

(** [DecoderSession], less the borrowed grammar. *)
Record DecoderSession := {
  cursor : Cursor;
  offset : nat;
  mask : BitMask;
  narrow_buf : BitMask;
  schema : option Schema;
  tracker : Tracker;
  narrow_cache : NarrowCache;
  l2_eos : bool;
}.

(** [DecoderSession::build], [new] and [with_schema]. *)
Definition build (g : CompiledGrammar) (sch : option Schema) : DecoderSession :=
  {| cursor := Cursor_new g; offset := 0; mask := with_len (mask_len g);
     narrow_buf := with_len (mask_len g); schema := sch; tracker := tracker_new;
     narrow_cache := narrow_cache_new; l2_eos := true |}.
Definition session_new (g : CompiledGrammar) : DecoderSession := build g None.
Definition with_schema (g : CompiledGrammar) (sch : Schema) : Result DecoderSession DecodeError :=
  match engine g with
  | EngineSpec _ => Err SchemaRequiresFixedGrammar
  | EngineFixed => Ok (build g (Some sch))
  end.

(** Field updates. *)
Definition with_cursor (s : DecoderSession) (c : Cursor) : DecoderSession :=
  {| cursor := c; offset := offset s; mask := mask s; narrow_buf := narrow_buf s;
     schema := schema s; tracker := tracker s; narrow_cache := narrow_cache s;
     l2_eos := l2_eos s |}.
Definition with_mask (s : DecoderSession) (m : BitMask) : DecoderSession :=
  {| cursor := cursor s; offset := offset s; mask := m; narrow_buf := narrow_buf s;
     schema := schema s; tracker := tracker s; narrow_cache := narrow_cache s;
     l2_eos := l2_eos s |}.
Definition with_narrow (s : DecoderSession) (buf : BitMask) (nc : NarrowCache) : DecoderSession :=
  {| cursor := cursor s; offset := offset s; mask := mask s; narrow_buf := buf;
     schema := schema s; tracker := tracker s; narrow_cache := nc; l2_eos := l2_eos s |}.
Definition with_offset (s : DecoderSession) (o : nat) : DecoderSession :=
  {| cursor := cursor s; offset := o; mask := mask s; narrow_buf := narrow_buf s;
     schema := schema s; tracker := tracker s; narrow_cache := narrow_cache s;
     l2_eos := l2_eos s |}.

(** One deferred token of [allowed_mask]. *)
Definition probe_deferred (g : CompiledGrammar) (acc : Cursor * BitMask) (id : N)
    : Cursor * BitMask :=
  let '(c, m) := acc in
  let bytes := default [] (vocab_bytes (vocab g) id) in
  let '(c, r) := cursor_admits c bytes in
  (c, if r then set m id else m).

(** The syntactic half of [allowed_mask]. *)
Definition l1_mask (g : CompiledGrammar) (s : DecoderSession)
    : CompiledGrammar * DecoderSession :=
  let '(g, cch) := cursor_cached (cursor s) g in
  let m := copy_from (mask s) (indep cch) in
  let '(c, m) :=
    if stack_top_present (cursor s)
    then foldl (probe_deferred g) (cursor s, m) (deferred cch) else (cursor s, m) in
  let eos := eos_bit g in
  let m := if cursor_accepting c then set m eos else clear m eos in
  (g, with_mask (with_cursor s c) m).

(** A narrow that applied is intersected into the mask. *)
Definition apply_narrow (s : DecoderSession) (out : BitMask * NarrowCache * bool)
    : DecoderSession :=
  let '(buf, nc, applies) := out in
  let s := with_narrow s buf nc in
  if applies then with_mask s (intersect (mask s) buf) else s.

(** The schema half: three narrows, each into the reused buffer. *)
Definition l2_narrow (g : CompiledGrammar) (s : DecoderSession) (sch : Schema) (p : Pda)
    : DecoderSession :=
  let pos := position (tracker s) (pda_state p) in
  let s := apply_narrow s (narrow_into (narrow_buf s) (narrow_cache s) sch pos (tracker s)
                             (vocab g) (eos_bit g)) in
  let s := if masks_unbound_sigil (tracker s) (pda_state p)
           then apply_narrow s (narrow_sigil_into (narrow_buf s) (narrow_cache s)
                                  (vocab g) (eos_bit g))
           else s in
  match fused_nav_position (tracker s) sch with
  | Some fused =>
      apply_narrow s (narrow_fused_into (narrow_buf s) (narrow_cache s) sch fused (tracker s)
                        (vocab g) (eos_bit g))
  | None => s
  end.

(** [DecoderSession::allowed_mask]: the returned mask is the session's
    buffer. *)
Definition allowed_mask (g : CompiledGrammar) (s : DecoderSession)
    : CompiledGrammar * DecoderSession :=
  let '(g, s) := l1_mask g s in
  match schema s, cursor s with
  | Some sch, CursorFixed p _ => (g, l2_narrow g s sch p)
  | _, _ => (g, s)
  end.

(** [DecoderSession::active_l2_position]. *)
Definition active_l2_position (s : DecoderSession) : option L2Position :=
  match schema s, cursor s with
  | Some _, CursorFixed p _ =>
      let pos := position (tracker s) (pda_state p) in
      if position_is_none pos then None else Some pos
  | _, _ => None
  end.

(** [DecoderSession::refresh_l2_eos]. *)
Definition refresh_l2_eos (s : DecoderSession) : DecoderSession :=
  match schema s, cursor s with
  | Some sch, CursorFixed p _ =>
      let pos := position (tracker s) (pda_state p) in
      let '(nc, eos) := admits_eos (narrow_cache s) sch pos (tracker s) in
      {| cursor := cursor s; offset := offset s; mask := mask s; narrow_buf := narrow_buf s;
         schema := schema s; tracker := tracker s; narrow_cache := nc; l2_eos := eos |}
  | _, _ => s
  end.

(** [DecoderSession::accept_token]. *)
Definition accept_token (g : CompiledGrammar) (s : DecoderSession) (id : N)
    : DecoderSession * Result () DecodeError :=
  if (id =? eos_bit g)%N then
    (s, if cursor_accepting (cursor s) then Ok () else Err UnexpectedEos)
  else
    match vocab_bytes (vocab g) id with
    | None => (s, Err (UnknownToken id))
    | Some bytes =>
        match schema s, cursor s with
        | Some sch, CursorFixed p scratch =>
            match advance_all p bytes with
            | (_, Err _) => (s, Err (InadmissibleToken id))
            | (pr, Ok _) =>
                let s := {| cursor := CursorFixed pr scratch; offset := offset s; mask := mask s;
                            narrow_buf := narrow_buf s; schema := schema s;
                            tracker := observe (tracker s) bytes p sch;
                            narrow_cache := narrow_cache s; l2_eos := l2_eos s |} in
                let s := refresh_l2_eos s in
                (with_offset s (offset s + length bytes), Ok ())
            end
        | _, _ =>
            match try_accept_token (cursor s) bytes with
            | (c, true) => (with_offset (with_cursor s c) (offset s + length bytes), Ok ())
            | (c, false) => (with_cursor s c, Err (InadmissibleToken id))
            end
        end
    end.

(** [DecoderSession::is_complete], [pda] and [reset]. *)
Definition is_complete (s : DecoderSession) : bool := cursor_accepting (cursor s) && l2_eos s.
Definition session_pda (s : DecoderSession) : option Pda :=
  match cursor s with CursorFixed p _ => Some p | CursorSpec _ _ _ => None end.
Definition session_reset (s : DecoderSession) : DecoderSession :=
  {| cursor := cursor_reset (cursor s); offset := 0; mask := mask s;
     narrow_buf := narrow_buf s; schema := schema s; tracker := tracker_new;
     narrow_cache := narrow_cache_clear (narrow_cache s); l2_eos := true |}.

(** [ByteRecognizer::accept_byte]. *)
Definition accept_byte (s : DecoderSession) (b : byte) : DecoderSession * Result () DecodeError :=
  let off := offset s in
  match advance_byte (cursor s) b with
  | (c, Ok _) => (with_offset (with_cursor s c) (off + 1), Ok ())
  | (c, Err (st, top)) => (with_cursor s c, Err (DeadStateErr off b st top))
  end.
End session.
