(* ===== verification/SessionCorrect.v ===== *)
(** * The per-step mask is exact

    What [allowed_mask] of [session.rs] computes through the cached partition
    and the re-probe of its deferred tokens, against the definition of the
    allowed set: a token's bit is set exactly when its bytes keep the live
    automaton alive, the EOS bit exactly when the automaton accepts. *)

From stdpp Require Import relations gmap.
From S2P Require Import Prelude StackMachine PdaState PdaStep Pda PdaLanguage Mask BTree Spec Compile CompileGoto CompileCorrect Rtn Compiled Session.

(** ** Well-formed tables *)

Record automaton_ok (a : CompiledAutomaton) : Prop := {
  auto_table : table_ok a;
  auto_frames n cs r f m :
    a_states a !! n = Some cs → r ∈ c_rules cs → c_action r = CPush f m → f < frame_count a;
}.

Lemma compile_automaton_ok v1 a : spec_ok v1 → compile (V1 v1) = Ok a → automaton_ok a.
Proof.
  intros Hok Hc%compile_v1_ok; [|done]. split; [by eapply compiled_table_ok|].
  intros n cs r f m Hn Hr Hp. destruct (compiled_rule _ _ Hc _ _ _ Hn Hr) as (r' & [_ _ Hact _]).
  rewrite Hp in Hact. destruct (action r'); simpl in Hact; try done.
  rewrite (cf_frame_count _ _ Hc). destruct Hact as [Hf _]. by eapply lookup_lt_Some.
Qed.

Lemma select_rule_elem rs top b r : select_rule rs top b = Some r → r ∈ rs.
Proof. intros Hf%find_some. apply list_elem_of_In. tauto. Qed.

(** Ids stay declared along a step. *)
Lemma step_declared a s top b :
  automaton_ok a →
  match step a s top b with
  | Next s' | Pop s' => s' < length (a_states a)
  | Push f s' => f < frame_count a ∧ s' < length (a_states a)
  | Dead => True
  end.
Proof.
  intros [[_ Ht] Hf]. unfold step. generalize (S (length (a_states a))). intros n.
  revert s. induction n as [|n IH]; intros s; [done|]. cbn [goto_loop].
  destruct (a_states a !! s) as [cs|] eqn:Ecs; [|done].
  destruct (select_rule (c_rules cs) top b) as [r|] eqn:Er; [|done].
  cbn [fmap option_fmap option_map]. apply select_rule_elem in Er.
  assert (∀ m, action_target (c_action r) = Some m → m < length (a_states a)) as Hm.
  { intros m Hm. apply (Ht s). by exists cs, r. }
  destruct (c_action r) eqn:Ea; cbn [action_target] in Hm.
  - by apply Hm.
  - split; [by eapply Hf|by apply Hm].
  - destruct top; [by apply Hm|done].
  - apply IH.
  - done.
Qed.

(** ** Cursors *)

(** The live configuration, without the scratch buffer. *)
Definition same_core (c c' : Cursor) : Prop :=
  match c, c' with
  | CursorFixed p _, CursorFixed p' _ => p = p'
  | CursorSpec a p _, CursorSpec a' p' _ => a = a' ∧ p = p'
  | _, _ => False
  end.

#[global] Instance same_core_equiv : Equivalence same_core.
Proof. split; repeat intros []; naive_solver. Qed.

(** Whether the live configuration survives the bytes. *)
Definition cursor_lives (c : Cursor) (bytes : list byte) : bool :=
  match c with
  | CursorFixed p _ => is_ok (advance_all p bytes).2
  | CursorSpec a p _ => (rtn_advance_all a p bytes).2
  end.

(** The verdict of the build-time probe at the cursor's state. *)
Definition verdict (c : Cursor) (bytes : list byte) : Probe :=
  match c with
  | CursorFixed p _ => (probe (Pda_at (pda_state p)) bytes []).1
  | CursorSpec a p _ => (rtn_probe a (Rtn_at a (rtn_state p)) bytes []).1
  end.

#[global] Instance cursor_lives_proper : Proper (same_core ==> eq ==> eq) cursor_lives.
Proof. intros [] []; simpl; intros; destruct_and?; by subst. Qed.
#[global] Instance cursor_accepting_proper : Proper (same_core ==> eq) cursor_accepting.
Proof. intros [] []; simpl; intros; destruct_and?; by subst. Qed.
#[global] Instance stack_top_present_proper : Proper (same_core ==> eq) stack_top_present.
Proof. intros [] []; simpl; intros; destruct_and?; by subst. Qed.

(** A cursor over the engine of its grammar, inside its table. *)
Definition cursor_ok (g : CompiledGrammar) (c : Cursor) : Prop :=
  match c, engine g with
  | CursorFixed _ _, EngineFixed => True
  | CursorSpec a p _, EngineSpec a' =>
      a = a' ∧ rtn_state p < length (a_states a) ∧ declared a (rtn_stack p)
  | _, _ => False
  end.

(** What the cache split needs of the engine; see [stack_blind]. *)
Definition engine_blind (g : CompiledGrammar) : Prop :=
  match engine g with EngineFixed => True | EngineSpec a => stack_blind a = true end.

Lemma cursor_admits_spec c bytes :
  same_core c (cursor_admits c bytes).1 ∧ (cursor_admits c bytes).2 = cursor_lives c bytes.
Proof.
  destruct c as [p scr|a p scr]; simpl.
  - pose proof (admits_advance p bytes scr) as Ha. by destruct (admits p bytes scr).
  - pose proof (rtn_admits_run a p bytes scr) as Ha. pose proof (rtn_advance_all_run a p bytes) as Hr.
    destruct (rtn_admits a p bytes scr) as [r scr']. simpl in *. split; [done|]. rewrite Ha.
    destruct (run (rtn_config p) bytes) as [c|].
    + rewrite Hr. by rewrite bool_decide_true by eauto.
    + rewrite Hr. by rewrite bool_decide_false by (intros [? [=]]).
Qed.

(** The build-time verdict classifies the live configuration. *)
Lemma verdict_classifies g c bytes :
  cursor_ok g c → engine_blind g →
  (alive (verdict c bytes) = true → cursor_lives c bytes = true) ∧
  (alive (verdict c bytes) = false → consulted_ambient (verdict c bytes) = false →
     cursor_lives c bytes = false) ∧
  (consulted_ambient (verdict c bytes) = true → stack_top_present c = false →
     cursor_lives c bytes = false).
Proof.
  unfold cursor_ok, engine_blind. intros Hc Hb. rewrite <-(proj2 (cursor_admits_spec c bytes)).
  destruct c as [p scr|a p scr]; cbn [verdict cursor_admits stack_top_present].
  - destruct (admits p bytes scr) as [r scr'] eqn:Ea.
    destruct (probe_classified p bytes [] scr) as (H1 & H2 & H3). rewrite Ea in *. simpl in *.
    split_and!; [done..|]. intros Hcon Hst. apply H3; [done|].
    unfold stack_top in Hst. by destruct (pda_stack p).
  - destruct (engine g) as [|a']; [done|]. destruct Hc as (-> & _ & Hd).
    destruct (rtn_admits a' p bytes scr) as [r scr'] eqn:Ea.
    destruct (rtn_probe_classified a' p bytes [] scr Hb Hd) as (H1 & H2 & H3).
    rewrite Ea in *. simpl in *. split_and!; [done..|]. intros Hcon Hst. apply H3; [done|].
    unfold rtn_stack_top in Hst. by destruct (rtn_stack p).
Qed.

(** A dead verdict is never also alive. *)
Lemma verdict_consulted c bytes :
  consulted_ambient (verdict c bytes) = true → alive (verdict c bytes) = false.
Proof.
  destruct c as [p scr|a p scr]; cbn [verdict]; rewrite ?probe_run, ?rtn_probe_run.
  - intros Hc. apply not_true_iff_false. rewrite probe_alive_run.
    rewrite (probe_consulted_dead _ _ _ _ Hc). by intros [? [=]].
  - pose proof (rtn_machine a). intros Hc. apply not_true_iff_false. rewrite probe_alive_run.
    rewrite (probe_consulted_dead _ _ _ _ Hc). by intros [? [=]].
Qed.

(** ** The partition at the cursor *)

Record cursor_partition (g : CompiledGrammar) (c : Cursor) (cch : Cached) : Prop := {
  cp_ok : mask_ok (indep cch);
  cp_len : mlen (indep cch) = mask_len g;
  cp_indep id : test (indep cch) id = true ↔
    (id < N.of_nat (vocab_len (vocab g)))%N ∧
    consulted_ambient (verdict c (token_bytes (vocab g) id)) = false ∧
    alive (verdict c (token_bytes (vocab g) id)) = true;
  cp_deferred id : id ∈ deferred cch ↔
    (id < N.of_nat (vocab_len (vocab g)))%N ∧
    consulted_ambient (verdict c (token_bytes (vocab g) id)) = true;
}.

Lemma partition_cursor {F} (pr : list byte → list F → Probe * list F) g c cch :
  vocab_fits (vocab g) →
  (∀ bytes scr, (pr bytes scr).1 = verdict c bytes) →
  partition_of pr (vocab g) (mask_len g) cch → cursor_partition g c cch.
Proof.
  intros Hf Hv [H1 H2 H3 H4]. split; [done|done| |].
  - intros id. rewrite H3, token_ids_elem by done. split.
    + intros (Hid & _ & Hs). specialize (Hs []). by rewrite Hv in Hs.
    + intros (Hid & Hs). split; [done|]. split.
      * unfold mask_len. rewrite eos_bit_fits by done. lia.
      * intros scr. by rewrite Hv.
  - intros id. rewrite H4, token_ids_elem by done. split.
    + intros (Hid & Hs). specialize (Hs []). by rewrite Hv in Hs.
    + intros (Hid & Hs). split; [done|]. intros scr. by rewrite Hv.
Qed.

(** Looking the cursor's partition up, or building it, keeps the shared grammar
    coherent and gives the right partition either way. *)
Lemma cursor_cached_spec g c :
  grammar_ok g → cursor_ok g c →
  let '(g', cch) := cursor_cached c g in
  grammar_ok g' ∧ vocab g' = vocab g ∧ engine g' = engine g ∧ cursor_partition g c cch.
Proof.
  intros Hg Hc. destruct index_is_bijection as (Hi1 & Hi2 & _).
  destruct c as [p scr|a p scr]; cbn [cursor_cached].
  - unfold cached. unfold cursor_ok in Hc. destruct (engine g) eqn:Ee; [|done].
    pose proof (get_or_init_ok g (index (pda_state p))
      (build_fixed (pda_state p) (vocab g) (mask_len g)) Hg) as Hget.
    destruct (get_or_init _ _ _) as [g' cch].
    destruct Hget as (Hg' & Hv & He & Hb & _).
    { unfold build_at. rewrite Ee. by eexists. }
    { rewrite (g_slots g Hg), Ee. apply Hi1. }
    rewrite Ee in He. split_and!; [done..|].
    unfold build_at in Hb. rewrite Ee in Hb. destruct Hb as (s & Hs & ->).
    apply Hi2 in Hs as ->. eapply partition_cursor; [apply Hg| |apply build_fixed_partition].
    intros. simpl. by rewrite !probe_run.
  - unfold cached_spec. unfold cursor_ok in Hc. destruct (engine g) as [|a'] eqn:Ee; [done|].
    destruct Hc as (-> & Hs & Hd).
    pose proof (get_or_init_ok g (rtn_state p)
      (build_spec a' (rtn_state p) (vocab g) (mask_len g)) Hg) as Hget.
    destruct (get_or_init _ _ _) as [g' cch].
    destruct Hget as (Hg' & Hv & He & Hb & _).
    { unfold build_at. by rewrite Ee. }
    { by rewrite (g_slots g Hg), Ee. }
    rewrite Ee in He. split_and!; [done..|].
    unfold build_at in Hb. rewrite Ee in Hb. subst cch.
    eapply partition_cursor; [apply Hg| |apply build_spec_partition].
    intros. simpl. by rewrite !rtn_probe_run.
Qed.

(** ** The syntactic mask *)

Section exact.
Context `{Overlay}.

(** A session of the grammar: its cursor runs the grammar's engine, its
    buffers have the mask's length. *)
Record session_ok (g : CompiledGrammar) (s : DecoderSession) : Prop := {
  s_cursor : cursor_ok g (cursor s);
  s_mask : mask_ok (mask s);
  s_mask_len : mlen (mask s) = mask_len g;
  s_schema : engine g = EngineFixed ∨ schema s = None;
}.

(** The allowed set, by definition: the tokens that keep the configuration
    alive, and EOS when it accepts. *)
Definition allowed (g : CompiledGrammar) (c : Cursor) (id : N) : bool :=
  if (id =? eos_bit g)%N then cursor_accepting c
  else match vocab_bytes (vocab g) id with
       | Some bytes => cursor_lives c bytes
       | None => false
       end.

#[global] Instance allowed_proper g : Proper (same_core ==> eq ==> eq) (allowed g).
Proof.
  intros c c' Hc id ? <-. unfold allowed. rewrite Hc. destruct (_ =? _)%N; [done|].
  destruct (vocab_bytes (vocab g) id); [by rewrite Hc|done].
Qed.

Lemma token_bytes_lookup v id :
  (id < N.of_nat (vocab_len v))%N → vocab_bytes v id = Some (token_bytes v id).
Proof.
  intros Hid. unfold token_bytes, vocab_bytes, vocab_len in *.
  destruct (lookup_lt_is_Some_2 (tokens v) (N.to_nat id)) as [x ->]; [lia|done].
Qed.

Lemma vocab_bytes_None v id : (N.of_nat (vocab_len v) ≤ id)%N → vocab_bytes v id = None.
Proof. intros Hid. apply lookup_ge_None. unfold vocab_len in Hid. lia. Qed.

Lemma probe_deferred_fold g ids c m c' m' :
  foldl (probe_deferred g) (c, m) ids = (c', m') → mask_ok m →
  same_core c c' ∧ mask_ok m' ∧ mlen m' = mlen m ∧
  ∀ id, test m' id = true ↔ test m id = true ∨
    id ∈ ids ∧ (id < N.of_nat (mlen m))%N ∧ cursor_lives c (token_bytes (vocab g) id) = true.
Proof.
  revert c m. induction ids as [|i ids IH]; intros c m Hf Hm.
  { simpl in Hf. simplify_eq. split_and!; try done. intros id.
    split; [by left|by intros [|[?%not_elem_of_nil _]]]. }
  cbn [foldl] in Hf. unfold probe_deferred at 2 in Hf. cbv beta iota zeta in Hf.
  fold (token_bytes (vocab g) i) in Hf.
  pose proof (cursor_admits_spec c (token_bytes (vocab g) i)) as [Hsame Hr].
  destruct (cursor_admits c (token_bytes (vocab g) i)) as [c1 r]. cbn [fst snd] in Hsame, Hr.
  subst r. set (P := λ id, (id < N.of_nat (mlen m))%N ∧
                           cursor_lives c (token_bytes (vocab g) id) = true).
  destruct (cursor_lives c (token_bytes (vocab g) i)) eqn:El.
  - destruct (IH _ _ Hf (set_ok _ _ Hm)) as (H1 & H2 & H3 & H4). rewrite mlen_set in H3, H4.
    split_and!; [by rewrite Hsame|done|done|]. intros id. rewrite H4, <-Hsame.
    rewrite test_set, orb_true_iff, andb_true_iff, N.eqb_eq, N.ltb_lt by done.
    destruct (decide (i < N.of_nat (mlen m))%N) as [Hi|Hi].
    + etrans; [|apply (or_cons_take P); by split]. fold (P id). intuition (subst; auto).
    + etrans; [|apply (or_cons_skip P); by intros [? _]]. fold (P id). intuition.
  - destruct (IH _ _ Hf Hm) as (H1 & H2 & H3 & H4).
    split_and!; [by rewrite Hsame|done|done|]. intros id. rewrite H4, <-Hsame.
    apply (or_cons_skip P). unfold P. rewrite El. by intros [_ ?].
Qed.

Lemma eos_bit_lt g : (eos_bit g < N.of_nat (mask_len g))%N.
Proof. unfold mask_len. lia. Qed.

(** Every bit of the syntactic mask, whatever the buffers held before. *)
Lemma l1_mask_spec g s :
  grammar_ok g → session_ok g s → engine_blind g →
  let '(g', s') := l1_mask g s in
  grammar_ok g' ∧ vocab g' = vocab g ∧ engine g' = engine g ∧
  same_core (cursor s) (cursor s') ∧ mask_ok (mask s') ∧ mlen (mask s') = mask_len g ∧
  s' = with_mask (with_cursor s (cursor s')) (mask s') ∧
  ∀ id, test (mask s') id = allowed g (cursor s) id.
Proof.
  intros Hg [Hc Hm Hl _] Hb. unfold l1_mask.
  pose proof (cursor_cached_spec g (cursor s) Hg Hc) as Hcch.
  destruct (cursor_cached (cursor s) g) as [g' cch].
  destruct Hcch as (Hg' & Hv & He & [P1 P2 P3 P4]).
  assert (eos_bit g' = eos_bit g) as Heos by (unfold eos_bit; by rewrite Hv).
  rewrite copy_from_eq by (rewrite ?P2; done).
  set (start := if stack_top_present (cursor s) then _ else _).
  assert (∃ c m, start = (c, m) ∧ same_core (cursor s) c ∧ mask_ok m ∧ mlen m = mask_len g ∧
    ∀ id, test m id = true ↔ (id < N.of_nat (vocab_len (vocab g)))%N ∧
          cursor_lives (cursor s) (token_bytes (vocab g) id) = true)
    as (c & m & -> & Hsame & Hmok & Hmlen & Hbits).
  { unfold start. destruct (stack_top_present (cursor s)) eqn:Est.
    - destruct (foldl _ _ _) as [c m] eqn:Ef.
      destruct (probe_deferred_fold _ _ _ _ _ _ Ef P1) as (H1 & H2 & H3 & H4).
      exists c, m. rewrite P2 in H3, H4. split_and!; [done..|]. intros id.
      rewrite H4, P3, P4, Hv.
      destruct (verdict_classifies g (cursor s) (token_bytes (vocab g) id) Hc Hb) as (V1 & V2 & V3).
      split.
      + intros [(? & _ & ?)|([? _] & _ & ?)]; split; auto.
      + intros [Hid Hlive]. destruct (consulted_ambient _) eqn:Ec.
        * right. split_and!; try done. pose proof (g_fits g Hg) as Hfit.
          unfold mask_len. rewrite eos_bit_fits by done. lia.
        * left. split_and!; [done..|]. destruct (alive _); [done|].
          by rewrite V2 in Hlive.
    - exists (cursor s), (indep cch). split_and!; [done..|]. intros id. rewrite P3.
      destruct (verdict_classifies g (cursor s) (token_bytes (vocab g) id) Hc Hb) as (V1 & V2 & V3).
      split; [intros (? & _ & ?); split; auto|]. intros [Hid Hlive].
      destruct (consulted_ambient _) eqn:Ec; [by rewrite V3 in Hlive|].
      split_and!; [done..|]. destruct (alive _); [done|]. by rewrite V2 in Hlive. }
  cbn [cursor mask with_mask with_cursor].
  pose proof (cursor_accepting_proper _ _ Hsame) as Hacc. rewrite Heos, <-Hacc.
  pose proof (eos_bit_lt g) as Hlt. pose proof (eos_bit_fits g (g_fits g Hg)) as Hfit.
  split_and!; [done..| | | |].
  - destruct (cursor_accepting (cursor s)); auto with mask.
  - destruct (cursor_accepting (cursor s)); by rewrite ?mlen_set, ?mlen_clear.
  - done.
  - intros id. unfold allowed.
    assert (id ≠ eos_bit g → test m id = match vocab_bytes (vocab g) id with
      Some bytes => cursor_lives (cursor s) bytes | None => false end) as Htok.
    { intros Hne. apply eq_true_iff_eq. rewrite Hbits.
      destruct (decide (id < N.of_nat (vocab_len (vocab g)))%N) as [Hid|Hid].
      - rewrite token_bytes_lookup by done. tauto.
      - rewrite vocab_bytes_None by lia. by split; [intros [? _]|]. }
    destruct (N.eqb_spec id (eos_bit g)) as [->|Hne].
    + destruct (cursor_accepting (cursor s)).
      * rewrite test_set, Hmlen, N.eqb_refl by done. by rewrite (proj2 (N.ltb_lt _ _) Hlt).
      * by rewrite test_clear, N.eqb_refl by done.
    + rewrite <-Htok by done. destruct (cursor_accepting (cursor s)).
      * rewrite test_set by done. by rewrite (proj2 (N.eqb_neq _ _) Hne).
      * rewrite test_clear by done. by rewrite (proj2 (N.eqb_neq _ _) Hne).
Qed.

(** ** The schema overlay only narrows *)

Lemma intersect_any_ok m n : mask_ok m → mask_ok (intersect m n).
Proof.
  intros Hm. split.
  - simpl. rewrite zip_words_length. apply Hm.
  - apply Forall_lookup. intros i x. simpl. rewrite zip_words_lookup.
    destruct (words m !! i) as [w|] eqn:Ew; [|done].
    pose proof (Forall_lookup_1 _ _ _ _ (ok_width m Hm) Ew).
    destruct (words n !! i); intros; simplify_eq; [by apply land_width|done].
  - intros id Hid. pose proof (ok_padding m Hm id Hid) as Hp. unfold bit_at in *. simpl.
    rewrite zip_words_lookup. destruct (words m !! _) as [w|]; [|done].
    destruct (words n !! _); [|done]. by rewrite N.land_spec, Hp.
Qed.

Lemma intersect_any_le m n id : mask_ok m → test (intersect m n) id = true → test m id = true.
Proof.
  intros Hm. rewrite (test_bit (intersect m n)), (test_bit m) by first [done|by apply intersect_any_ok]. unfold bit_at. simpl.
  rewrite zip_words_lookup. destruct (words m !! _) as [w|]; [|done].
  destruct (words n !! _); [|done]. rewrite N.land_spec. by intros [? _]%andb_true_iff.
Qed.

(** What a narrow leaves of the session. *)
Definition narrowed (s s' : DecoderSession) : Prop :=
  cursor s' = cursor s ∧ offset s' = offset s ∧ schema s' = schema s ∧ tracker s' = tracker s ∧
  l2_eos s' = l2_eos s ∧ mlen (mask s') = mlen (mask s) ∧
  (mask_ok (mask s) → mask_ok (mask s') ∧
   ∀ id, test (mask s') id = true → test (mask s) id = true).

Lemma narrowed_refl s : narrowed s s.
Proof. unfold narrowed. by split_and!. Qed.

Lemma narrowed_trans s1 s2 s3 : narrowed s1 s2 → narrowed s2 s3 → narrowed s1 s3.
Proof.
  intros (? & ? & ? & ? & ? & ? & Hm1) (? & ? & ? & ? & ? & ? & Hm2). unfold narrowed.
  split_and!; try congruence. intros Hm. destruct (Hm1 Hm) as [Hm' Hle1].
  destruct (Hm2 Hm') as [? Hle2]. split; [done|auto].
Qed.

Lemma apply_narrow_narrowed s out : narrowed s (apply_narrow s out).
Proof.
  destruct out as [[buf nc] []]; unfold narrowed; [|by split_and!]. cbn.
  split_and!; try done. intros Hm. split; [by apply intersect_any_ok|].
  intros id. by apply intersect_any_le.
Qed.

Lemma l2_narrow_narrowed g s sch p : narrowed s (l2_narrow g s sch p).
Proof.
  unfold l2_narrow. set (s1 := apply_narrow s _).
  assert (narrowed s s1) as H1 by apply apply_narrow_narrowed.
  set (s2 := if masks_unbound_sigil _ _ then _ else _).
  assert (narrowed s s2) as H2.
  { unfold s2. destruct (masks_unbound_sigil _ _); [|done].
    eapply narrowed_trans; [exact H1|apply apply_narrow_narrowed]. }
  destruct (fused_nav_position _ _); [|done].
  eapply narrowed_trans; [exact H2|apply apply_narrow_narrowed].
Qed.
End exact.

(** * What a decode session promises

    The contract of [session.rs]: the mask and the acceptor agree token by
    token, a rejection changes nothing, a token is its bytes, the schema
    overlay only removes bits, and any interleaving of any number of sessions
    over one shared grammar keeps all of it true. *)

Section contract.
Context `{Overlay}.

(** ** The acceptor, token by token *)

Lemma try_accept_spec c bytes :
  let '(c', r) := try_accept_token c bytes in
  r = cursor_lives c bytes ∧ (r = false → c' = c).
Proof.
  destruct c as [p scr|a p scr]; cbn [try_accept_token cursor_lives].
  - by destruct (advance_all p bytes) as [pr [|]].
  - by destruct (rtn_advance_all a p bytes) as [pr []].
Qed.

Lemma refresh_l2_eos_schema s : schema (refresh_l2_eos s) = schema s.
Proof.
  unfold refresh_l2_eos. destruct (schema s) eqn:Es, (cursor s); try by rewrite Es.
  by destruct (admits_eos _ _ _ _).
Qed.

Lemma accept_token_allowed g s id :
  is_ok (accept_token g s id).2 = allowed g (cursor s) id.
Proof.
  unfold accept_token, allowed. destruct (id =? eos_bit g)%N.
  { by destruct (cursor_accepting (cursor s)). }
  destruct (vocab_bytes (vocab g) id) as [bytes|]; [|done].
  pose proof (try_accept_spec (cursor s) bytes) as Ht.
  destruct (try_accept_token (cursor s) bytes) as [c r]. destruct Ht as [-> _].
  destruct (schema s) as [sch|]; [|by destruct (cursor_lives (cursor s) bytes)].
  destruct (cursor s) as [p scr|a p scr] eqn:Ec; [|by destruct (cursor_lives _ bytes)].
  cbn [cursor_lives]. by destruct (advance_all p bytes) as [pr []].
Qed.

(** The whole step, error by error. *)
Lemma accept_token_rejects g s id s' e :
  accept_token g s id = (s', Err e) →
  s' = s ∧ ((id = eos_bit g ∧ cursor_accepting (cursor s) = false ∧ e = UnexpectedEos) ∨
            (id ≠ eos_bit g ∧ vocab_bytes (vocab g) id = None ∧ e = UnknownToken id) ∨
            (id ≠ eos_bit g ∧ (∃ bytes, vocab_bytes (vocab g) id = Some bytes ∧
               cursor_lives (cursor s) bytes = false) ∧ e = InadmissibleToken id)).
Proof.
  unfold accept_token. destruct (N.eqb_spec id (eos_bit g)) as [->|Hne].
  { destruct (cursor_accepting (cursor s)) eqn:Ea; intros [= <- <-]. split; [done|by left]. }
  destruct (vocab_bytes (vocab g) id) as [bytes|] eqn:Eb.
  2:{ intros [= <- <-]. split; [done|right; by left]. }
  pose proof (try_accept_spec (cursor s) bytes) as Ht.
  destruct (try_accept_token (cursor s) bytes) as [c r] eqn:Et. destruct Ht as [-> Hsame].
  assert ((if cursor_lives (cursor s) bytes
           then (with_offset (with_cursor s c) (offset s + length bytes), Ok ())
           else (with_cursor s c, Err (InadmissibleToken id))) = (s', Err e) →
          s' = s ∧ cursor_lives (cursor s) bytes = false ∧ e = InadmissibleToken id) as Hfall.
  { destruct (cursor_lives (cursor s) bytes); [done|]. intros [= <- <-].
    rewrite Hsame by done. by destruct s. }
  intros Hr. cut (s' = s ∧ cursor_lives (cursor s) bytes = false ∧ e = InadmissibleToken id).
  { intros (-> & ? & ->). split; [done|]. right; right. split_and!; [done|by eexists|done]. }
  destruct (schema s) as [sch|]; [|by apply Hfall].
  destruct (cursor s) as [p scr|a p scr] eqn:Ec; [|by apply Hfall].
  cbn [cursor_lives]. destruct (advance_all p bytes) as [pr [|]]; [done|].
  by simplify_eq.
Qed.

(** ** Folding bytes *)

Fixpoint accept_bytes (s : DecoderSession) (bytes : list byte)
    : DecoderSession * Result () DecodeError :=
  match bytes with
  | [] => (s, Ok ())
  | b :: bytes => match accept_byte s b with
                  | (s', Ok _) => accept_bytes s' bytes
                  | (s', Err e) => (s', Err e)
                  end
  end.

Lemma with_offset_cursor s c c' o o' :
  with_offset (with_cursor (with_offset (with_cursor s c) o) c') o' =
  with_offset (with_cursor s c') o'.
Proof. done. Qed.

Lemma accept_byte_live s b :
  match advance_byte (cursor s) b with
  | (c, Ok _) => accept_byte s b = (with_offset (with_cursor s c) (offset s + 1), Ok ())
  | (c, Err (st, top)) =>
      accept_byte s b = (with_cursor s c, Err (DeadStateErr (offset s) b st top))
  end.
Proof. unfold accept_byte. by destruct (advance_byte (cursor s) b) as [c [[]|[st top]]]. Qed.

Lemma accept_bytes_live s bytes :
  match try_accept_token (cursor s) bytes with
  | (c, true) =>
      accept_bytes s bytes = (with_offset (with_cursor s c) (offset s + length bytes), Ok ())
  | (_, false) => is_ok (accept_bytes s bytes).2 = false
  end.
Proof.
  revert s. induction bytes as [|b bytes IH]; intros s.
  { destruct s as [[p scr|a p scr] ??????]; cbn; by rewrite Nat.add_0_r. }
  pose proof (accept_byte_live s b) as Hb. cbn [accept_bytes].
  destruct (cursor s) as [p scr|a p scr] eqn:Ec; cbn [advance_byte try_accept_token] in *.
  - cbn [advance_all]. destruct (advance p b) as [p1 [[]|e]].
    + rewrite Hb. specialize (IH (with_offset (with_cursor s (CursorFixed p1 scr)) (offset s + 1))).
      cbn [cursor with_offset with_cursor try_accept_token] in IH.
      destruct (advance_all p1 bytes) as [pr [[]|]]; [|done].
      cbn [offset with_offset with_cursor] in *. rewrite IH. cbn [length].
      replace (offset s + 1 + length bytes) with (offset s + S (length bytes)) by lia. done.
    + by rewrite Hb.
  - cbn [rtn_advance_all]. destruct (rtn_advance a p b) as [p1 []].
    + rewrite Hb. specialize (IH (with_offset (with_cursor s (CursorSpec a p1 scr)) (offset s + 1))).
      cbn [cursor with_offset with_cursor try_accept_token] in IH.
      destruct (rtn_advance_all a p1 bytes) as [pr []]; [|done].
      cbn [offset with_offset with_cursor] in *. rewrite IH. cbn [length].
      replace (offset s + 1 + length bytes) with (offset s + S (length bytes)) by lia. done.
    + by rewrite Hb.
Qed.

Lemma accept_token_l1 g s id bytes :
  id ≠ eos_bit g → vocab_bytes (vocab g) id = Some bytes → schema s = None →
  accept_token g s id =
  match try_accept_token (cursor s) bytes with
  | (c, true) => (with_offset (with_cursor s c) (offset s + length bytes), Ok ())
  | (c, false) => (with_cursor s c, Err (InadmissibleToken id))
  end.
Proof.
  intros Hne Hb Hs. unfold accept_token.
  by rewrite (proj2 (N.eqb_neq _ _) Hne), Hb, Hs.
Qed.

(** ** Invariants of the operations *)

Lemma same_core_ok g c c' : same_core c c' → cursor_ok g c → cursor_ok g c'.
Proof. destruct c, c'; simpl; try done. by intros [-> ->]. Qed.

Lemma declared_cons a f stk : f < frame_count a → declared a stk → declared a (f :: stk).
Proof. intros Hf Hd. constructor; [|done]. apply elem_of_seq. lia. Qed.

Definition engine_ok (g : CompiledGrammar) : Prop :=
  match engine g with EngineFixed => True | EngineSpec a => automaton_ok a end.

Lemma rtn_advance_ok a p b p' :
  automaton_ok a → rtn_state p < length (a_states a) → declared a (rtn_stack p) →
  rtn_advance a p b = (p', true) →
  rtn_state p' < length (a_states a) ∧ declared a (rtn_stack p').
Proof.
  intros Ha Hs Hd. unfold rtn_advance.
  pose proof (step_declared a (rtn_state p) (head (rtn_stack p)) b Ha) as Hstep.
  destruct (step a (rtn_state p) (head (rtn_stack p)) b); intros; simplify_eq; simpl.
  - done.
  - split; [tauto|]. apply declared_cons; tauto.
  - split; [done|]. unfold declared in *. destruct (rtn_stack p); [done|].
    by apply Forall_cons in Hd as [_ ?].
Qed.

Lemma rtn_advance_all_ok a p bytes p' :
  automaton_ok a → rtn_state p < length (a_states a) → declared a (rtn_stack p) →
  rtn_advance_all a p bytes = (p', true) →
  rtn_state p' < length (a_states a) ∧ declared a (rtn_stack p').
Proof.
  intros Ha. revert p. induction bytes as [|b bytes IH]; intros p Hs Hd; cbn [rtn_advance_all].
  { by intros [= <-]. }
  destruct (rtn_advance a p b) as [p1 []] eqn:E; [|done].
  destruct (rtn_advance_ok _ _ _ _ Ha Hs Hd E). by apply IH.
Qed.

Lemma try_accept_ok g c bytes c' r :
  engine_ok g → cursor_ok g c → try_accept_token c bytes = (c', r) → cursor_ok g c'.
Proof.
  unfold engine_ok, cursor_ok. intros He Hc.
  destruct c as [p scr|a p scr]; cbn [try_accept_token].
  - destruct (advance_all p bytes) as [pr []]; intros; by simplify_eq.
  - destruct (rtn_advance_all a p bytes) as [pr []] eqn:E; intros; simplify_eq; [|done].
    destruct (engine g) as [|a']; [done|]. destruct Hc as (-> & Hs & Hd). split; [done|].
    by eapply rtn_advance_all_ok.
Qed.

Lemma advance_byte_ok g c b c' r :
  engine_ok g → cursor_ok g c → advance_byte c b = (c', r) → cursor_ok g c'.
Proof.
  unfold engine_ok, cursor_ok. intros He Hc.
  destruct c as [p scr|a p scr]; cbn [advance_byte].
  - destruct (advance p b) as [pr []]; intros; by simplify_eq.
  - pose proof (rtn_advance_spec a p b) as Hs. destruct (rtn_advance a p b) as [pr []] eqn:E;
      intros; simplify_eq; destruct (engine g) as [|a']; try done;
      destruct Hc as (-> & Hst & Hd); (split; [done|]).
    + by eapply rtn_advance_ok.
    + by destruct Hs as [-> _].
Qed.

Lemma session_ok_cursor g s s' :
  session_ok g s → cursor_ok g (cursor s') → mask s' = mask s → schema s' = schema s →
  session_ok g s'.
Proof. intros [Hc Hm Hl Hs] Hc' Em Es. split; rewrite ?Em, ?Es; done. Qed.

Lemma cursor_new_ok g : engine_ok g → cursor_ok g (Cursor_new g).
Proof.
  unfold engine_ok, cursor_ok, Cursor_new. destruct (engine g) as [|a]; [done|].
  intros [[? _] _]. simpl. split_and!; [done|done|constructor].
Qed.

Lemma build_ok g sch :
  engine_ok g → engine g = EngineFixed ∨ sch = None → session_ok g (build g sch).
Proof. intros He Hs. split; cbn; [by apply cursor_new_ok|apply with_len_ok|done|done]. Qed.

Lemma session_reset_ok g s : engine_ok g → session_ok g s → session_ok g (session_reset s).
Proof.
  intros He Hs. apply (session_ok_cursor g s); [done| |done..].
  destruct Hs as [Hc _ _ _]. cbn [session_reset cursor].
  unfold engine_ok, cursor_ok in *. destruct (cursor s) as [p scr|a p scr]; simpl; [done|].
  destruct (engine g); [done|]. destruct Hc as (-> & ? & ?). destruct He as [[? _] _].
  split_and!; [done|done|constructor].
Qed.

Lemma accept_byte_ok g s b : engine_ok g → session_ok g s → session_ok g (accept_byte s b).1.
Proof.
  intros He Hs. pose proof (accept_byte_live s b) as Hb.
  destruct (advance_byte (cursor s) b) as [c [[]|[st top]]] eqn:E; rewrite Hb;
    (apply (session_ok_cursor g s); [done| |done..]);
    (eapply advance_byte_ok; [done|apply Hs|exact E]).
Qed.

Lemma refresh_l2_eos_ok g s : session_ok g s → session_ok g (refresh_l2_eos s).
Proof.
  intros Hs. unfold refresh_l2_eos. destruct (schema s) eqn:Es; [|done].
  destruct (cursor s) eqn:Ec; [|done]. destruct (admits_eos _ _ _ _).
  destruct Hs as [? ? ? ?]. split; cbn; by rewrite ?Ec, ?Es in *.
Qed.

Lemma accept_token_ok g s id :
  engine_ok g → session_ok g s → session_ok g (accept_token g s id).1.
Proof.
  intros He Hs. unfold accept_token. destruct (id =? eos_bit g)%N; [done|].
  destruct (vocab_bytes (vocab g) id) as [bytes|]; [|done].
  assert (session_ok g (match try_accept_token (cursor s) bytes with
    | (c, true) => (with_offset (with_cursor s c) (offset s + length bytes), Ok ())
    | (c, false) => (with_cursor s c, Err (InadmissibleToken id))
    end : DecoderSession * Result () DecodeError).1) as Hfall.
  { destruct (try_accept_token (cursor s) bytes) as [c []] eqn:E;
      (apply (session_ok_cursor g s); [done| |done..]);
      (eapply try_accept_ok; [done|apply Hs|exact E]). }
  destruct (schema s) as [sch|] eqn:Es; [|done]. destruct (cursor s) as [p scr|] eqn:Ec; [|done].
  destruct (advance_all p bytes) as [pr []] eqn:E; [|done].
  set (s1 := {| cursor := CursorFixed pr scr |}).
  assert (session_ok g s1) as H1.
  { apply (session_ok_cursor g s); [done| |done|by rewrite Es]. subst s1. cbn [cursor].
    pose proof (s_cursor _ _ Hs) as Hc. unfold cursor_ok in *. by rewrite Ec in Hc. }
  apply refresh_l2_eos_ok in H1. cbn [fst].
  by apply (session_ok_cursor g (refresh_l2_eos s1)); [|apply H1|..].
Qed.

Lemma allowed_mask_ok g s :
  grammar_ok g → session_ok g s → engine_blind g →
  let '(g', s') := allowed_mask g s in
  grammar_ok g' ∧ vocab g' = vocab g ∧ engine g' = engine g ∧
  mask_ok (mask s') ∧ mlen (mask s') = mask_len g ∧
  same_core (cursor s) (cursor s') ∧ schema s' = schema s ∧ offset s' = offset s ∧
  (∀ id, test (mask s') id = true → allowed g (cursor s) id = true) ∧
  (schema s = None → s' = with_mask (with_cursor s (cursor s')) (mask s') ∧
    ∀ id, test (mask s') id = allowed g (cursor s) id).
Proof.
  intros Hg Hs Hb. pose proof (l1_mask_spec g s Hg Hs Hb) as Hl. unfold allowed_mask.
  destruct (l1_mask g s) as [g' s1]. destruct Hl as (H1 & H2 & H3 & H4 & H5 & H6 & H7 & H8).
  assert (schema s1 = schema s ∧ offset s1 = offset s) as [Hsch Hoff] by (by rewrite H7).
  rewrite Hsch. destruct (schema s) as [sch|] eqn:Es.
  2:{ split_and!; try done. intros id Hid. by rewrite <-H8. }
  destruct (cursor s1) as [p scr|a p scr] eqn:Ec1.
  2:{ rewrite Ec1. split_and!; try done. intros id Hid. by rewrite <-H8. }
  destruct (l2_narrow_narrowed g' s1 sch p) as (N1 & N2 & N3 & N4 & N5 & N6 & N7).
  destruct (N7 H5) as [N8 N9]. rewrite N1, Ec1.
  split_and!; try done; try congruence. intros id Hid. rewrite <-H8. by apply N9.
Qed.
End contract.

(** ** Fresh grammars *)

Lemma cache_empty_ok n (P : nat → Cached → Prop) i c :
  (replicate n (@None Cached)) !! i = Some (Some c) → P i c.
Proof. by intros [[=] _]%lookup_replicate. Qed.

Lemma compile_grammar_ok v :
  vocab_fits v →
  grammar_ok (CompiledGrammar_compile v) ∧ engine_ok (CompiledGrammar_compile v) ∧
  engine_blind (CompiledGrammar_compile v).
Proof.
  intros Hv. split; [|done]. split; [done|apply length_replicate|].
  intros i c. apply cache_empty_ok.
Qed.

Lemma from_spec_grammar_ok from_str text v g :
  (∀ t v1, from_str t = Ok (V1 v1) → spec_ok v1) → vocab_fits v →
  from_spec from_str text v = Ok g → grammar_ok g ∧ engine_ok g.
Proof.
  intros Hsorted Hv. unfold from_spec. intros (parsed & Hp & Ha)%res_bind_ok.
  apply res_bind_ok in Ha as (a & Hc & [= <-]). unfold GrammarSpec_parse in Hp.
  destruct (from_str text) as [[v1]|] eqn:E; simplify_eq. split.
  - split; [done|apply length_replicate|]. intros i c. apply cache_empty_ok.
  - unfold engine_ok. cbn. eapply compile_automaton_ok; [by eapply Hsorted|done].
Qed.

(** ** Sessions sharing a grammar *)

Section shared.
Context `{Overlay}.

Record System := { grammar : CompiledGrammar; sessions : list DecoderSession }.

(** One operation of one session; the grammar is the store they share. *)
Inductive sys_step (sys : System) : System → Prop :=
| sys_new : sys_step sys {| grammar := grammar sys;
                            sessions := sessions sys ++ [session_new (grammar sys)] |}
| sys_with_schema sch s :
    with_schema (grammar sys) sch = Ok s →
    sys_step sys {| grammar := grammar sys; sessions := sessions sys ++ [s] |}
| sys_mask i s g' s' :
    sessions sys !! i = Some s → allowed_mask (grammar sys) s = (g', s') →
    sys_step sys {| grammar := g'; sessions := <[i := s']> (sessions sys) |}
| sys_token i s id :
    sessions sys !! i = Some s →
    sys_step sys {| grammar := grammar sys;
                    sessions := <[i := (accept_token (grammar sys) s id).1]> (sessions sys) |}
| sys_byte i s b :
    sessions sys !! i = Some s →
    sys_step sys {| grammar := grammar sys;
                    sessions := <[i := (accept_byte s b).1]> (sessions sys) |}
| sys_reset i s :
    sessions sys !! i = Some s →
    sys_step sys {| grammar := grammar sys;
                    sessions := <[i := session_reset s]> (sessions sys) |}.

Record system_ok (sys : System) : Prop := {
  sys_grammar : grammar_ok (grammar sys);
  sys_engine : engine_ok (grammar sys);
  sys_blind : engine_blind (grammar sys);
  sys_sessions : Forall (session_ok (grammar sys)) (sessions sys);
}.

Lemma session_ok_same_engine g g' s :
  vocab g' = vocab g → engine g' = engine g → session_ok g s → session_ok g' s.
Proof.
  intros Hv He [Hc Hm Hl Hs]. split; [|done| |by rewrite He].
  - unfold cursor_ok in *. by rewrite He.
  - unfold mask_len, eos_bit in *. by rewrite Hv.
Qed.

Lemma with_schema_spec g sch :
  match with_schema g sch with
  | Ok s => engine g = EngineFixed ∧ s = build g (Some sch)
  | Err e => (∃ a, engine g = EngineSpec a) ∧ e = SchemaRequiresFixedGrammar
  end.
Proof. unfold with_schema. destruct (engine g) as [|a]; [done|]. split; [by exists a|done]. Qed.

Lemma sys_step_ok sys sys' : system_ok sys → sys_step sys sys' → system_ok sys'.
Proof.
  intros [Hg He Hb Hs] Hstep.
  assert (∀ i s, sessions sys !! i = Some s → session_ok (grammar sys) s) as Hget.
  { intros i s Hi. by eapply Forall_lookup_1 in Hi. }
  destruct Hstep as [|sch s Hsch|i s g' s' Hi Hm|i s id Hi|i s b Hi|i s Hi];
    split; cbn [grammar sessions]; try done.
  - apply Forall_app. split; [done|]. constructor; [|done]. apply build_ok; auto.
  - pose proof (with_schema_spec (grammar sys) sch) as Hw. rewrite Hsch in Hw.
    destruct Hw as [Hf ->]. apply Forall_app. split; [done|]. constructor; [|done].
    apply build_ok; auto.
  - pose proof (allowed_mask_ok _ _ Hg (Hget _ _ Hi) Hb) as Ha. rewrite Hm in Ha. tauto.
  - pose proof (allowed_mask_ok _ _ Hg (Hget _ _ Hi) Hb) as Ha. rewrite Hm in Ha.
    destruct Ha as (_ & _ & Heng & _). unfold engine_ok in *. by rewrite Heng.
  - pose proof (allowed_mask_ok _ _ Hg (Hget _ _ Hi) Hb) as Ha. rewrite Hm in Ha.
    destruct Ha as (_ & _ & Heng & _). unfold engine_blind in *. by rewrite Heng.
  - pose proof (allowed_mask_ok _ _ Hg (Hget _ _ Hi) Hb) as Ha. rewrite Hm in Ha.
    destruct Ha as (_ & Hv & Heng & Hok & Hl & Hcore & Hsch & _).
    apply Forall_insert.
    + eapply Forall_impl; [exact Hs|]. intros x. by apply session_ok_same_engine.
    + eapply session_ok_same_engine; [done..|]. destruct (Hget _ _ Hi) as [Hc _ _ Hsc].
      split; [by eapply same_core_ok|done|done|by rewrite Hsch].
  - apply Forall_insert; [done|]. apply accept_token_ok; eauto.
  - apply Forall_insert; [done|]. apply accept_byte_ok; eauto.
  - apply Forall_insert; [done|]. apply session_reset_ok; eauto.
Qed.

Lemma system_reachable_ok g sys :
  grammar_ok g → engine_ok g → engine_blind g →
  rtc sys_step {| grammar := g; sessions := [] |} sys → system_ok sys.
Proof.
  intros Hg He Hb Hr. assert (system_ok {| grammar := g; sessions := [] |}) as H0 by (split; done).
  revert H0. induction Hr; [done|]. intros. eauto using sys_step_ok.
Qed.

(** No operation changes the shared vocabulary or engine. *)
Lemma system_reachable_same g sys :
  grammar_ok g → engine_ok g → engine_blind g →
  rtc sys_step {| grammar := g; sessions := [] |} sys →
  vocab (grammar sys) = vocab g ∧ engine (grammar sys) = engine g.
Proof.
  intros Hg He Hb Hr.
  assert (system_ok {| grammar := g; sessions := [] |}) as H0 by (split; done).
  change g with (grammar {| grammar := g; sessions := [] |}). revert H0.
  clear Hg He Hb. induction Hr as [|x y z Hxy _ IH]; [done|]. intros Hx.
  destruct (IH (sys_step_ok _ _ Hx Hxy)) as [-> ->].
  destruct Hx as [Hg He Hb Hs]. destruct Hxy as [| |i s g' s' Hi Hm| | |]; try done.
  eapply Forall_lookup_1 in Hi; [|done].
  pose proof (allowed_mask_ok _ _ Hg Hi Hb) as Ha. rewrite Hm in Ha. tauto.
Qed.

(** ** Equivalent sessions *)

(** Equal but for the reused buffers. *)
Definition session_equiv (s s' : DecoderSession) : Prop :=
  same_core (cursor s) (cursor s') ∧ offset s = offset s' ∧ schema s = None ∧ schema s' = None ∧
  l2_eos s = l2_eos s'.

Lemma try_accept_core c c' bytes :
  same_core c c' →
  same_core (try_accept_token c bytes).1 (try_accept_token c' bytes).1 ∧
  (try_accept_token c bytes).2 = (try_accept_token c' bytes).2.
Proof.
  destruct c as [p scr|a p scr], c' as [p' scr'|a' p' scr']; simpl; try done.
  - intros <-. by destruct (advance_all p bytes) as [pr [|]].
  - intros [<- <-]. by destruct (rtn_advance_all a p bytes) as [pr []].
Qed.

Lemma advance_byte_core c c' b :
  same_core c c' →
  same_core (advance_byte c b).1 (advance_byte c' b).1 ∧
  (advance_byte c b).2 = (advance_byte c' b).2.
Proof.
  destruct c as [p scr|a p scr], c' as [p' scr'|a' p' scr']; simpl; try done.
  - intros <-. by destruct (advance p b) as [pr [|]].
  - intros [<- <-]. by destruct (rtn_advance a p b) as [pr []].
Qed.

Lemma accept_token_equiv g s s' id :
  session_equiv s s' →
  session_equiv (accept_token g s id).1 (accept_token g s' id).1 ∧
  (accept_token g s id).2 = (accept_token g s' id).2.
Proof.
  intros (Hc & Ho & Hs & Hs' & Hl). unfold accept_token. rewrite Hs, Hs'.
  destruct (id =? eos_bit g)%N.
  { split; [by split_and!|]. by rewrite (cursor_accepting_proper _ _ Hc). }
  destruct (vocab_bytes (vocab g) id) as [bytes|]; [|by split_and!].
  destruct (try_accept_core _ _ bytes Hc) as [H1 H2].
  destruct (try_accept_token (cursor s) bytes) as [c r], (try_accept_token (cursor s') bytes) as [c' r'].
  cbn [fst snd] in *. subst r'. unfold session_equiv.
  destruct r; cbn; split_and!; try done. by rewrite Ho.
Qed.

Lemma accept_byte_equiv s s' b :
  session_equiv s s' →
  session_equiv (accept_byte s b).1 (accept_byte s' b).1 ∧ (accept_byte s b).2 = (accept_byte s' b).2.
Proof.
  intros (Hc & Ho & Hs & Hs' & Hl). unfold accept_byte.
  destruct (advance_byte_core _ _ b Hc) as [H1 H2].
  destruct (advance_byte (cursor s) b) as [c r], (advance_byte (cursor s') b) as [c' r'].
  cbn [fst snd] in *. subst r'. unfold session_equiv.
  destruct r as [[]|[st top]]; cbn; split_and!; try done; by rewrite Ho.
Qed.
End shared.
