(* ===== verification/SessionProps.v ===== *)
(** * The session's properties

    The contract of [session.rs] and [grammar/compiled.rs] stated over systems
    of sessions that share one grammar, with their witnesses at a small
    vocabulary, and the two places where the code and its promise part. *)

From stdpp Require Import relations gmap.
From S2P Require Import Prelude StackMachine PdaState PdaStep Pda PdaLanguage Mask.
From S2P Require Import BTree Spec Compile CompileGoto CompileCorrect Rtn Compiled Session.
From S2P Require Import SessionCorrect.

(** ** Example data *)

(** An overlay that constrains nothing but the end of the stream: the stream
    may never end. *)
Definition endless_overlay : Overlay := {|
  Schema := (); Tracker := (); NarrowCache := (); L2Position := ();
  tracker_new := (); narrow_cache_new := (); narrow_cache_clear := λ _, ();
  position := λ _ _, (); position_is_none := λ _, true;
  masks_unbound_sigil := λ _ _, false; fused_nav_position := λ _ _, None;
  observe := λ _ _ _ _, ();
  narrow_into := λ buf nc _ _ _ _ _, (buf, nc, false);
  narrow_sigil_into := λ buf nc _ _, (buf, nc, false);
  narrow_fused_into := λ buf nc _ _ _ _ _, (buf, nc, false);
  admits_eos := λ nc _ _ _, (nc, false);
|}.

Definition text (s : string) : list byte := String.list_byte_of_string s.

Definition demo_vocab : Vocab := from_byte_tokens (map text ["|"; "X"; ".all()"; ")"; "->take(1)"]).
Definition demo_grammar : CompiledGrammar := CompiledGrammar_compile demo_vocab.

Lemma demo_fits : vocab_fits demo_vocab.
Proof. by vm_compute. Qed.

Section properties.
Context `{Overlay}.

Lemma allowed_grammar g g' c id :
  vocab g' = vocab g → allowed g' c id = allowed g c id.
Proof. intros Hv. unfold allowed, eos_bit. by rewrite Hv. Qed.

Lemma mask_agrees g s g' s' :
  grammar_ok g → session_ok g s → engine_blind g → schema s = None →
  allowed_mask g s = (g', s') →
  ∀ id, test (mask s') id = is_ok (accept_token g' s' id).2.
Proof.
  intros Hg Hs Hb Hn Hm id. pose proof (allowed_mask_ok g s Hg Hs Hb) as Ha. rewrite Hm in Ha.
  destruct Ha as (_ & Hv & _ & _ & _ & Hcore & _ & _ & _ & Hl1). destruct (Hl1 Hn) as [_ ->].
  rewrite accept_token_allowed, (allowed_grammar g g') by done.
  by apply allowed_proper.
Qed.
End properties.

(** C1. The mask is exact over a grammar that takes a byte over every stack as it
    takes it over the empty one ([engine_blind]), as do the hand-written
    automaton and the shipped spec ([emitted_stack_blind]).  In any interleaving of any sessions over such a grammar, a
    schema-free session's mask has the bit of an id set exactly when submitting
    that id is accepted; EOS and ids outside the vocabulary included.  Validation
    does not ask this of a spec, and of one without it the theorem does not hold:
    [spec_mask_offers_rejected]. *)
Theorem mask_is_exact `{Overlay} g sys i s g' s' :
  grammar_ok g → engine_ok g → engine_blind g →
  rtc sys_step {| grammar := g; sessions := [] |} sys →
  sessions sys !! i = Some s → schema s = None →
  allowed_mask (grammar sys) s = (g', s') →
  ∀ id, test (mask s') id = is_ok (accept_token g' s' id).2.
Proof.
  intros Hg He Hb Hr Hi Hn Hm.
  destruct (system_reachable_ok g sys Hg He Hb Hr) as [Hg' _ Hb' Hs].
  eapply mask_agrees; try done. by eapply Forall_lookup_1 in Hi.
Qed.

Lemma mask_is_exact_witness :
  let H := endless_overlay in
  let s := session_new demo_grammar in
  let '(g', s') := allowed_mask demo_grammar s in
  test (mask s') 0 = true ∧ test (mask s') 1 = false ∧ test (mask s') 5 = false.
Proof.
  intros H s. destruct (allowed_mask demo_grammar s) as [g' s'] eqn:E.
  destruct (compile_grammar_ok demo_vocab demo_fits) as (Hg & He & Hb).
  pose proof (mask_is_exact demo_grammar {| grammar := demo_grammar; sessions := [s] |} 0 s g' s'
    Hg He Hb (rtc_once _ _ (sys_new {| grammar := demo_grammar; sessions := [] |}))
    eq_refl eq_refl E) as Hx.
  rewrite !Hx. vm_compute in E. injection E as <- <-. by vm_compute.
Defined.

(** C5. The overlay only narrows: under any schema overlay, a set bit is still a
    token the acceptor takes. *)
Theorem overlay_only_narrows `{Overlay} g sys i s g' s' id :
  grammar_ok g → engine_ok g → engine_blind g →
  rtc sys_step {| grammar := g; sessions := [] |} sys →
  sessions sys !! i = Some s → allowed_mask (grammar sys) s = (g', s') →
  test (mask s') id = true → is_ok (accept_token g' s' id).2 = true.
Proof.
  intros Hg He Hb Hr Hi Hm Ht.
  destruct (system_reachable_ok g sys Hg He Hb Hr) as [Hg' _ Hb' Hs].
  eapply Forall_lookup_1 in Hi; [|done].
  pose proof (allowed_mask_ok _ _ Hg' Hi Hb') as Ha. rewrite Hm in Ha.
  destruct Ha as (_ & Hv & _ & _ & _ & Hcore & _ & _ & Hle & _).
  rewrite accept_token_allowed, (allowed_grammar _ _ _ _ Hv).
  rewrite <-(allowed_proper _ _ _ Hcore id id eq_refl). by apply Hle.
Qed.

Lemma overlay_only_narrows_witness :
  let H := endless_overlay in
  let s := build demo_grammar (Some tt) in
  let '(g', s') := allowed_mask demo_grammar s in is_ok (accept_token g' s' 0).2 = true.
Proof.
  intros H s. destruct (allowed_mask demo_grammar s) as [g' s'] eqn:E.
  destruct (compile_grammar_ok demo_vocab demo_fits) as (Hg & He & Hb).
  apply (overlay_only_narrows demo_grammar {| grammar := demo_grammar; sessions := [s] |} 0 s g' s' 0
    Hg He Hb (rtc_once _ _ (sys_with_schema {| grammar := demo_grammar; sessions := [] |}
      (tt : @Schema endless_overlay) s eq_refl))
    eq_refl E).
  vm_compute in E. injection E as <- <-. by vm_compute.
Defined.

(** C3. Rejection is a rollback: a refused token leaves the session as it was, and
    the error says which of the three refusals it is. *)
Theorem rejection_changes_nothing `{Overlay} g s id s' e :
  accept_token g s id = (s', Err e) →
  s' = s ∧
  ((id = eos_bit g ∧ cursor_accepting (cursor s) = false ∧ e = UnexpectedEos) ∨
   (id ≠ eos_bit g ∧ vocab_bytes (vocab g) id = None ∧ e = UnknownToken id) ∨
   (id ≠ eos_bit g ∧ (∃ bytes, vocab_bytes (vocab g) id = Some bytes ∧
      cursor_lives (cursor s) bytes = false) ∧ e = InadmissibleToken id)).
Proof. apply accept_token_rejects. Qed.

Lemma rejection_changes_nothing_witness :
  let H := endless_overlay in
  let s := session_new demo_grammar in
  (accept_token demo_grammar s 3).1 = s ∧ (accept_token demo_grammar s 9).1 = s.
Proof.
  intros H s. split.
  - apply (rejection_changes_nothing demo_grammar s 3 _ (InadmissibleToken 3)). by vm_compute.
  - apply (rejection_changes_nothing demo_grammar s 9 _ (UnknownToken 9)). by vm_compute.
Defined.

(** A token is its bytes: without a schema, accepting a token succeeds exactly
    when accepting its bytes one by one does, and leaves the same session. *)
Theorem token_is_its_bytes `{Overlay} g s id bytes :
  id ≠ eos_bit g → vocab_bytes (vocab g) id = Some bytes → schema s = None →
  is_ok (accept_token g s id).2 = is_ok (accept_bytes s bytes).2 ∧
  (is_ok (accept_token g s id).2 = true → accept_token g s id = accept_bytes s bytes).
Proof.
  intros Hne Hb Hs. rewrite (accept_token_l1 g s id bytes) by done.
  pose proof (accept_bytes_live s bytes) as Hl.
  destruct (try_accept_token (cursor s) bytes) as [c []]; rewrite Hl; done.
Qed.

Lemma token_is_its_bytes_witness :
  let H := endless_overlay in
  let s := (accept_bytes (session_new demo_grammar) (text "|X")).1 in
  accept_token demo_grammar s 2 = accept_bytes s (text ".all()").
Proof.
  intros H s. apply (token_is_its_bytes demo_grammar s 2 (text ".all()")); by vm_compute.
Defined.

(** A byte advances the offset by one or reports the offset, the byte and the
    names of the configuration it died in, which it leaves in place. *)
Theorem accept_byte_reports `{Overlay} s b :
  match accept_byte s b with
  | (s', Ok _) => offset s' = S (offset s)
  | (s', Err e) =>
      s' = s ∧
      match cursor s with
      | CursorFixed p _ =>
          PdaStep.step (pda_state p) (stack_top p) b = Dead ∧
          e = DeadStateErr (offset s) b (State_name (pda_state p))
                (from_option Frame_name "none" (stack_top p))
      | CursorSpec a p _ =>
          Compile.step a (rtn_state p) (rtn_stack_top p) b = Dead ∧
          e = DeadStateErr (offset s) b (state_name a (rtn_state p)) (frame_name a (rtn_stack_top p))
      end
  end.
Proof.
  unfold accept_byte. destruct (cursor s) as [p scr|a p scr] eqn:Ec; cbn [advance_byte].
  - pose proof (advance_spec p b) as Ha. destruct (advance p b) as [p' [[]|e]]; cbn.
    + lia.
    + destruct Ha as (-> & Hd & -> & ->). split; [|done]. unfold with_cursor. rewrite <-Ec. by destruct s.
  - pose proof (rtn_advance_spec a p b) as Ha. destruct (rtn_advance a p b) as [p' []]; cbn.
    + lia.
    + destruct Ha as (-> & Hd). split; [|done]. unfold with_cursor. rewrite <-Ec. by destruct s.
Qed.

(** The cache is transparent: whatever other sessions have filled it with, the
    mask read through it is the mask read through the grammar as first built. *)
Theorem cache_transparent `{Overlay} g sys i s g1 s1 g2 s2 :
  grammar_ok g → engine_ok g → engine_blind g →
  rtc sys_step {| grammar := g; sessions := [] |} sys →
  sessions sys !! i = Some s → schema s = None →
  allowed_mask (grammar sys) s = (g1, s1) → allowed_mask g s = (g2, s2) →
  mask s1 = mask s2.
Proof.
  intros Hg He Hb Hr Hi Hn H1 H2.
  destruct (system_reachable_ok g sys Hg He Hb Hr) as [Hg' _ Hb' Hs].
  destruct (system_reachable_same g sys Hg He Hb Hr) as [Hv Heng].
  eapply Forall_lookup_1 in Hi; [|done].
  assert (session_ok g s) as Hs0 by (by eapply session_ok_same_engine).
  pose proof (allowed_mask_ok _ _ Hg' Hi Hb') as Ha. rewrite H1 in Ha.
  pose proof (allowed_mask_ok _ _ Hg Hs0 Hb) as Ha2. rewrite H2 in Ha2.
  destruct Ha as (_ & _ & _ & Ho1 & Hl1 & _ & _ & _ & _ & E1).
  destruct Ha2 as (_ & _ & _ & Ho2 & Hl2 & _ & _ & _ & _ & E2).
  destruct (E1 Hn) as [_ B1], (E2 Hn) as [_ B2].
  apply mask_ext; [done|done| |].
  - rewrite Hl1, Hl2. unfold mask_len, eos_bit. by rewrite Hv.
  - intros id. rewrite B1, B2. by apply allowed_grammar.
Qed.

Lemma cache_transparent_witness :
  let H := endless_overlay in
  let s := session_new demo_grammar in
  let '(g1, s1) := allowed_mask demo_grammar s in
  mask (allowed_mask g1 s).2 = mask (allowed_mask demo_grammar s).2.
Proof.
  intros H s. destruct (allowed_mask demo_grammar s) as [g1 s1] eqn:E.
  destruct (compile_grammar_ok demo_vocab demo_fits) as (Hg & He & Hb).
  destruct (allowed_mask g1 s) as [g2 s2] eqn:E2.
  refine (cache_transparent demo_grammar {| grammar := g1; sessions := [s1; s] |} 1 s g2 s2 g1 s1
    Hg He Hb _ eq_refl eq_refl E2 E).
  eapply rtc_l; [apply sys_new|]. eapply rtc_l; [apply sys_new|]. apply rtc_once.
  apply (sys_mask {| grammar := demo_grammar; sessions := [s; s] |} 0 s g1 s1 eq_refl E).
Defined.

(** [reset] gives back a fresh session: from then on it is indistinguishable
    from a new one by any run of tokens and bytes, whatever the reused buffers
    hold. *)
Theorem reset_is_fresh `{Overlay} g s (ops : list (N + byte)) :
  session_ok g s → schema s = None →
  let act s op := match op with inl id => accept_token g s id | inr b => accept_byte s b end in
  let go s := foldl (λ s op, (act s op).1) s ops in
  session_equiv (go (session_reset s)) (go (session_new g)) ∧
  (∀ op, (act (go (session_reset s)) op).2 = (act (go (session_new g)) op).2) ∧
  is_complete (go (session_reset s)) = is_complete (go (session_new g)).
Proof.
  intros Hs Hn act go.
  assert (∀ s1 s2 op, session_equiv s1 s2 →
    session_equiv (act s1 op).1 (act s2 op).1 ∧ (act s1 op).2 = (act s2 op).2) as Hact.
  { intros s1 s2 [id|b] He; [by apply accept_token_equiv|by apply accept_byte_equiv]. }
  assert (session_equiv (session_reset s) (session_new g)) as H0.
  { unfold session_equiv. cbn. split_and!; try done. destruct Hs as [Hc _ _ _].
    unfold cursor_ok, Cursor_new in *. destruct (cursor s) as [p scr|a p scr], (engine g); try done.
    by destruct Hc as (-> & _). }
  assert (session_equiv (go (session_reset s)) (go (session_new g))) as Hgo.
  { unfold go. clear Hs Hn go. revert H0. generalize (session_reset s), (session_new g).
    induction ops as [|op ops IH]; intros s1 s2 He; [done|]. cbn [foldl].
    apply IH. by apply Hact. }
  split_and!; [done|intros op; by apply Hact|].
  destruct Hgo as (Hc & _ & _ & _ & Hl). unfold is_complete.
  by rewrite (cursor_accepting_proper _ _ Hc), Hl.
Qed.

Lemma reset_is_fresh_witness :
  let H := endless_overlay in
  let s := (accept_token demo_grammar (session_new demo_grammar) 0).1 in
  is_complete (session_reset s) = is_complete (session_new demo_grammar).
Proof.
  intros H s. apply (reset_is_fresh demo_grammar s []); [|done].
  apply accept_token_ok; [done|]. apply build_ok; [done|by right].
Defined.

(** [with_schema] takes the built-in grammar only, and starts as [new] does but
    for the schema. *)
Theorem with_schema_fixed_only `{Overlay} g sch :
  match with_schema g sch with
  | Ok s => engine g = EngineFixed ∧ schema s = Some sch ∧
            cursor s = cursor (session_new g) ∧ offset s = 0 ∧ l2_eos s = true ∧
            mask s = mask (session_new g)
  | Err e => (∃ a, engine g = EngineSpec a) ∧ e = SchemaRequiresFixedGrammar
  end.
Proof.
  pose proof (with_schema_spec g sch) as Hw. destruct (with_schema g sch); [|done].
  by destruct Hw as [? ->].
Qed.

(** ** Decoding can always finish *)

(** A vocabulary that has every byte as a token. *)
Definition byte_token (v : Vocab) (b : byte) : Prop :=
  ∃ id, (id < N.of_nat (vocab_len v))%N ∧ vocab_bytes v id = Some [b].

(** Over such a vocabulary a schema-free session of the built-in grammar is
    never cornered: from wherever accepted bytes have led it, there are tokens
    to accept, one after the other, that end in a complete query. *)
Theorem decoding_can_finish `{Overlay} g s p scr bytes :
  vocab_fits (vocab g) → (∀ b, byte_token (vocab g) b) →
  cursor s = CursorFixed p scr → schema s = None → l2_eos s = true →
  advance_all Pda_new bytes = (p, Ok ()) →
  ∃ ids s', foldl (λ acc id, match acc with
                             | (s, Ok _) => accept_token g s id
                             | _ => acc
                             end) (s, Ok ()) ids = (s', Ok ()) ∧
            is_complete s' = true ∧ accept_token g s' (eos_bit g) = (s', Ok ()).
Proof.
  intros Hf Htok Hc Hn Hl Hb.
  destruct (never_stuck_from bytes p Hb) as (more & p' & Hmore & Hacc). clear Hb bytes.
  revert s p scr Hc Hn Hl Hmore. induction more as [|b more IH]; intros s p scr Hc Hn Hl Hmore.
  - simpl in Hmore. simplify_eq. exists [], s. split; [done|]. unfold is_complete, accept_token.
    rewrite N.eqb_refl, Hc. cbn [cursor_accepting]. by rewrite Hacc, Hl.
  - cbn [advance_all] in Hmore. destruct (advance p b) as [p1 [[]|]] eqn:E; [|done].
    destruct (Htok b) as (id & Hid & Hbytes).
    assert (accept_token g s id =
      (with_offset (with_cursor s (CursorFixed p1 scr)) (offset s + 1), Ok ())) as Ha.
    { rewrite (accept_token_l1 g s id [b]); [|rewrite eos_bit_fits by done; lia|done|done].
      rewrite Hc. cbn [try_accept_token advance_all]. by rewrite E. }
    destruct (IH (with_offset (with_cursor s (CursorFixed p1 scr)) (offset s + 1)) p1 scr)
      as (ids & s' & Hfold & Hcomp & Heos); try done.
    exists (id :: ids), s'. cbn [foldl]. by rewrite Ha.
Qed.

Definition byte_vocab : Vocab := from_byte_tokens (map (λ b, [b]) all_bytes).

Lemma byte_vocab_tokens b : byte_token byte_vocab b.
Proof.
  exists (Byte.to_N b). destruct b; by vm_compute.
Qed.

Lemma decoding_can_finish_witness :
  let H := endless_overlay in
  let g := CompiledGrammar_compile byte_vocab in
  ∃ ids s', foldl (λ acc id, match acc with
                             | (s, Ok _) => accept_token g s id
                             | _ => acc
                             end) (session_new g, Ok ()) ids = (s', Ok ()) ∧
            is_complete s' = true ∧ accept_token g s' (eos_bit g) = (s', Ok ()).
Proof.
  intros H g.
  apply (decoding_can_finish g (session_new g) Pda_new [] []); try done.
  apply byte_vocab_tokens.
Defined.

(** ** Where the code and its promise part *)

(** A spec that validation accepts: inside a parenthesis a rule on the empty
    stack does not apply. *)
Definition leaky_spec : GrammarSpecV1 := {|
  start := "s";
  boundary_byte := default_boundary_byte;
  frames := ["P"];
  states := bt_of_list
    [("s", {| accepting := false;
              rules := [{| byte_test := Exact "("; guard := Always; action := APush "P" "s" |};
                        {| byte_test := Exact "x"; guard := StackEmpty; action := ANext "e" |};
                        {| byte_test := Exact ")"; guard := StackTopIs "P"; action := APop "e" |}] |});
     ("e", {| accepting := true; rules := [] |})];
|}.

Definition leaky_vocab : Vocab := from_byte_tokens (map text ["("; "x"; ")"]).

(** For a spec-compiled grammar the cache split is not sound in general: a rule
    guarded by the empty stack survives the build-time probe, is cached as
    context-independent, and is offered over a live frame, where the acceptor
    refuses it.  The grammar is not [engine_blind], as the mask theorems
    require. *)
Theorem spec_mask_offers_rejected `{Overlay} :
  spec_ok leaky_spec ∧
  ∃ g, from_spec (λ _, Ok (V1 leaky_spec)) "" leaky_vocab = Ok g ∧ ¬ engine_blind g ∧
    let s := (accept_token g (session_new g) 0).1 in
    let '(g', s') := allowed_mask g s in
    test (mask s') 1 = true ∧ accept_token g' s' 1 = (s', Err (InadmissibleToken 1)).
Proof.
  split; [apply bt_of_list_sorted|]. eexists. split; [vm_compute; reflexivity|].
  split; [by vm_compute|]. vm_compute. by split.
Qed.

(** The documentation of [accept_token] says EOS is accepted exactly when the
    stream is complete; the code asks the automaton only, so under an overlay
    that forbids ending here EOS is accepted of an incomplete stream. *)
Theorem eos_accepted_when_incomplete `{Overlay} g s :
  cursor_accepting (cursor s) = true → l2_eos s = false →
  is_complete s = false ∧ accept_token g s (eos_bit g) = (s, Ok ()).
Proof.
  intros Ha Hl. unfold is_complete, accept_token. by rewrite Ha, Hl, N.eqb_refl.
Qed.

Lemma eos_accepted_when_incomplete_witness :
  let H := endless_overlay in
  let s := foldl (λ s id, (accept_token demo_grammar s id).1)
             (build demo_grammar (Some tt)) [0%N; 1%N; 2%N] in
  is_complete s = false ∧ accept_token demo_grammar s 5 = (s, Ok ()).
Proof.
  intros H s. apply (eos_accepted_when_incomplete demo_grammar s); by vm_compute.
Defined.
