(* ===== verification/Codes.v ===== *)
(** * Stable identifiers

    The registries of [pure-analyzer-diagnostics]: the diagnostic codes of
    [code.rs] and the reason codes of [verdict.rs], with their wire names,
    their parsers and their families. *)

From Stdlib Require Import Strings.Ascii.
From S2P Require Import Prelude.

(** ** Diagnostic codes *)

Inductive DiagCode :=
| UnterminatedIsland
| BadToken
| MalformedSyntax
| ParenthesizedTuple
| IllegalBracketIndex
| MalformedMilestoningArguments
| UnknownJoinKind
| WrongMilestoningArity
| UnknownProperty
| UnknownSource
| ModelMergeConflict
| DuplicateModelDeclaration
| UnresolvedModelAssociation.

#[global] Instance DiagCode_eq_dec : EqDecision DiagCode.
Proof. solve_decision. Defined.

(** [ALL_DIAG_CODES]. *)
Definition ALL_DIAG_CODES : list DiagCode :=
  [UnterminatedIsland; BadToken; MalformedSyntax; ParenthesizedTuple; IllegalBracketIndex;
   MalformedMilestoningArguments; UnknownJoinKind; WrongMilestoningArity; UnknownProperty;
   UnknownSource; ModelMergeConflict; DuplicateModelDeclaration; UnresolvedModelAssociation].

(** [DiagCode::as_str]. *)
Definition DiagCode_as_str (c : DiagCode) : string :=
  match c with
  | UnterminatedIsland => "PUR0101"
  | BadToken => "PUR0102"
  | MalformedSyntax => "PUR1200"
  | ParenthesizedTuple => "PUR1201"
  | IllegalBracketIndex => "PUR1202"
  | MalformedMilestoningArguments => "PUR1204"
  | UnknownJoinKind => "PUR1210"
  | WrongMilestoningArity => "PUR2001"
  | UnknownProperty => "PUR2002"
  | UnknownSource => "PUR2101"
  | ModelMergeConflict => "PUR9000"
  | DuplicateModelDeclaration => "PUR9002"
  | UnresolvedModelAssociation => "PUR9003"
  end.

(** [DiagFamily] and [DiagCode::family]. *)
Inductive DiagFamily := Lexer | Parser | Lint | Tool.

#[global] Instance DiagFamily_eq_dec : EqDecision DiagFamily.
Proof. solve_decision. Defined.

Definition family (c : DiagCode) : DiagFamily :=
  match c with
  | UnterminatedIsland | BadToken => Lexer
  | MalformedSyntax | ParenthesizedTuple | IllegalBracketIndex | MalformedMilestoningArguments
  | UnknownJoinKind => Parser
  | WrongMilestoningArity | UnknownProperty | UnknownSource => Lint
  | ModelMergeConflict | DuplicateModelDeclaration | UnresolvedModelAssociation => Tool
  end.

(** [FromStr for DiagCode]: the error holds the rejected text. *)
Definition DiagCode_from_str (value : string) : Result DiagCode string :=
  match List.find (λ c, String.eqb (DiagCode_as_str c) value) ALL_DIAG_CODES with
  | Some c => Ok c
  | None => Err value
  end.

(** ** Reason codes *)

Inductive ReasonBucket := Fundamental | Recoverable.

Inductive ReasonCode :=
| IndWindow
| IndPareto
| IndMultistepFiscal
| IndDivisionRatio
| IndMilestoningAsof
| IndOrderUnderdetermined
| IndOpaquePredicate
| IndDifferentSources
| IndMissingRewrite
| IndUnmodeledOp
| IndOpaqueFunctionInWitness
| IndUnresolvedSchema
| IndWitnessBudgetExhausted
| IndPredicateNormalFormGap
| IndUnparseable
| ModelIncomplete
| RelationRowTypeUnknown.

#[global] Instance ReasonCode_eq_dec : EqDecision ReasonCode.
Proof. solve_decision. Defined.

(** [ALL_REASON_CODES]. *)
Definition ALL_REASON_CODES : list ReasonCode :=
  [IndWindow; IndPareto; IndMultistepFiscal; IndDivisionRatio; IndMilestoningAsof;
   IndOrderUnderdetermined; IndOpaquePredicate; IndDifferentSources; IndMissingRewrite;
   IndUnmodeledOp; IndOpaqueFunctionInWitness; IndUnresolvedSchema; IndWitnessBudgetExhausted;
   IndPredicateNormalFormGap; IndUnparseable; ModelIncomplete; RelationRowTypeUnknown].

(** [ReasonCode::id], [bucket] and [blurb]. *)
Definition ReasonCode_id (r : ReasonCode) : string :=
  match r with
  | IndWindow => "IND_WINDOW"
  | IndPareto => "IND_PARETO"
  | IndMultistepFiscal => "IND_MULTISTEP_FISCAL"
  | IndDivisionRatio => "IND_DIVISION_RATIO"
  | IndMilestoningAsof => "IND_MILESTONING_ASOF"
  | IndOrderUnderdetermined => "IND_ORDER_UNDERDETERMINED"
  | IndOpaquePredicate => "IND_OPAQUE_PREDICATE"
  | IndDifferentSources => "IND_DIFFERENT_SOURCES"
  | IndMissingRewrite => "IND_MISSING_REWRITE"
  | IndUnmodeledOp => "IND_UNMODELED_OP"
  | IndOpaqueFunctionInWitness => "IND_OPAQUE_FUNCTION_IN_WITNESS"
  | IndUnresolvedSchema => "IND_UNRESOLVED_SCHEMA"
  | IndWitnessBudgetExhausted => "IND_WITNESS_BUDGET_EXHAUSTED"
  | IndPredicateNormalFormGap => "IND_PREDICATE_NORMAL_FORM_GAP"
  | IndUnparseable => "IND_UNPARSEABLE"
  | ModelIncomplete => "MODEL_INCOMPLETE"
  | RelationRowTypeUnknown => "RELATION_ROW_TYPE_UNKNOWN"
  end.

Definition bucket (r : ReasonCode) : ReasonBucket :=
  match r with
  | IndWindow | IndPareto | IndMultistepFiscal | IndDivisionRatio | IndMilestoningAsof
  | IndOrderUnderdetermined | IndOpaquePredicate | IndDifferentSources => Fundamental
  | IndMissingRewrite | IndUnmodeledOp | IndOpaqueFunctionInWitness | IndUnresolvedSchema
  | IndWitnessBudgetExhausted | IndPredicateNormalFormGap | IndUnparseable | ModelIncomplete
  | RelationRowTypeUnknown => Recoverable
  end.

Definition blurb (r : ReasonCode) : string :=
  match r with
  | IndWindow =>
      "window/OLAP frame equivalence is outside the sound core"
  | IndPareto =>
      "pareto/top-per-group equivalence needs modeled tie semantics"
  | IndMultistepFiscal =>
      "multi-step fiscal accumulation equivalence is outside the sound core"
  | IndDivisionRatio =>
      "division and ratio equivalence is outside the sound core"
  | IndMilestoningAsof =>
      "bitemporal as-of equivalence is outside the sound core"
  | IndOrderUnderdetermined =>
      "the available facts do not prove a total order"
  | IndOpaquePredicate =>
      "the predicate is outside the sound interpreted whitelist"
  | IndDifferentSources =>
      "the queries read different named sources"
  | IndMissingRewrite =>
      "the normalizer lacks a sound rewrite for this difference"
  | IndUnmodeledOp =>
      "a relational operator has no sound semantic model"
  | IndOpaqueFunctionInWitness =>
      "witness evaluation encountered an uninterpreted function"
  | IndUnresolvedSchema =>
      "the available model facts do not resolve the schema"
  | IndWitnessBudgetExhausted =>
      "deterministic witness enumeration exhausted its budget"
  | IndPredicateNormalFormGap =>
      "the predicate did not reach a proven canonical form"
  | IndUnparseable =>
      "an input or deep-parsed island did not parse"
  | ModelIncomplete =>
      "model coverage is insufficient for a hard conclusion"
  | RelationRowTypeUnknown =>
      "the relation row's column types are unavailable"
  end.

(** [FromStr for ReasonCode]. *)
Definition ReasonCode_from_str (value : string) : Result ReasonCode string :=
  match List.find (λ r, String.eqb (ReasonCode_id r) value) ALL_REASON_CODES with
  | Some r => Ok r
  | None => Err value
  end.

(** ** Properties *)

(** What the two registries have in common: a complete enumeration and names
    that tell the codes apart. *)
Class Registry (A : Type) (name : A → string) (all : list A) := {
  registry_complete a : In a all;
  registry_name_inj a b : name a = name b → a = b;
}.

#[global] Instance DiagCode_registry : Registry DiagCode DiagCode_as_str ALL_DIAG_CODES.
Proof. split; [intros []; vm_compute; tauto|by intros [] []]. Qed.

#[global] Instance ReasonCode_registry : Registry ReasonCode ReasonCode_id ALL_REASON_CODES.
Proof. split; [intros []; vm_compute; tauto|by intros [] []]. Qed.

Section Parsing.
Context {A : Type} {name : A → string} {all : list A} `{!Registry A name all}.

(** The shape of both [FromStr] implementations. *)
Let parse (value : string) : Result A string :=
  match List.find (λ a, String.eqb (name a) value) all with
  | Some a => Ok a
  | None => Err value
  end.

Lemma parse_ok value a : parse value = Ok a ↔ name a = value.
Proof.
  unfold parse. destruct (List.find _ all) as [b|] eqn:E.
  - apply find_some in E as [_ Hb]. apply String.eqb_eq in Hb. split; [by intros [= <-]|].
    intros Ha. f_equal. apply (registry_name_inj (all := all)). congruence.
  - split; [done|]. intros Ha. pose proof (find_none _ _ E a (registry_complete a)) as Hne. cbv beta in Hne.
    by rewrite Ha, String.eqb_refl in Hne.
Qed.

Lemma parse_err value e : parse value = Err e ↔ e = value ∧ ∀ a, name a ≠ value.
Proof.
  split.
  - intros He. split; [unfold parse in He; destruct (List.find _ all); by simplify_eq|].
    intros a Ha. apply parse_ok in Ha. congruence.
  - intros [-> Hno]. unfold parse. destruct (List.find _ all) as [b|] eqn:E; [|done].
    apply find_some in E as [_ Hb]. apply String.eqb_eq in Hb. by destruct (Hno b).
Qed.
End Parsing.

(** Parsing inverts printing on both registries: a wire name parses to the code
    that prints it and to no other, and any other text is refused with itself
    as the error. *)
Theorem codes_roundtrip value :
  (∀ c, DiagCode_from_str value = Ok c ↔ DiagCode_as_str c = value) ∧
  (∀ e, DiagCode_from_str value = Err e ↔ e = value ∧ ∀ c, DiagCode_as_str c ≠ value) ∧
  (∀ r, ReasonCode_from_str value = Ok r ↔ ReasonCode_id r = value) ∧
  (∀ e, ReasonCode_from_str value = Err e ↔ e = value ∧ ∀ r, ReasonCode_id r ≠ value).
Proof.
  split_and!; intros x; [apply parse_ok|apply parse_err|apply parse_ok|apply parse_err].
Qed.

(** The fourth character of a code is the digit of its family, and the
    identifiers are [PUR] and four digits, in ascending order. *)
Theorem families_and_order :
  (∀ c, ∃ a b d, DiagCode_as_str c = String.append "PUR"
      (String (match family c with Lexer => "0" | Parser => "1" | Lint => "2" | Tool => "9" end)
        (String a (String b (String d ""))))%char) ∧
  ∀ i j ci cj, i < j → ALL_DIAG_CODES !! i = Some ci → ALL_DIAG_CODES !! j = Some cj →
    String.ltb (DiagCode_as_str ci) (DiagCode_as_str cj) = true.
Proof.
  split; [intros []; by repeat eexists|].
  assert (forallb (λ j, forallb (λ i,
    match ALL_DIAG_CODES !! i, ALL_DIAG_CODES !! j with
    | Some ci, Some cj => String.ltb (DiagCode_as_str ci) (DiagCode_as_str cj)
    | _, _ => true
    end) (seq 0 j)) (seq 0 (length ALL_DIAG_CODES)) = true) as Hall by (by vm_compute).
  intros i j ci cj Hij Hi Hj. rewrite forallb_forall in Hall.
  specialize (Hall j). cbv beta in Hall. rewrite forallb_forall in Hall.
  pose proof (lookup_lt_Some _ _ _ Hj) as Hlt.
  specialize (Hall ltac:(apply in_seq; lia) i ltac:(apply in_seq; lia)).
  cbv beta in Hall. by rewrite Hi, Hj in Hall.
Qed.
