(* ===== verification/StableSort.v ===== *)
(** * Orders and stable sorting

    The derived orders of tuples and options (lexicographic, [None] first), and
    Rust's [sort_by]/[sort_by_key] and [min_by_key]: a stable sort, and the
    first of the least elements. *)

From Stdlib Require Import Sorting.Sorted.
From stdpp Require Import sorting.
From S2P Require Import Prelude BTree.

(** ** Derived orders *)

#[global] Instance prod_ord {A B} `{OrdKey A, OrdKey B} : OrdKey (A * B) := λ x y,
  match key_cmp x.1 y.1 with Eq => key_cmp x.2 y.2 | c => c end.

#[global] Instance option_ord {A} `{OrdKey A} : OrdKey (option A) := λ x y,
  match x, y with
  | None, None => Eq
  | None, Some _ => Lt
  | Some _, None => Gt
  | Some a, Some b => key_cmp a b
  end.

Lemma key_cmp_pair {A B} `{OrdKey A, OrdKey B} (a a' : A) (b b' : B) :
  key_cmp (a, b) (a', b') = match key_cmp a a' with Eq => key_cmp b b' | c => c end.
Proof. done. Qed.

#[global] Instance prod_ord_laws {A B} `{OrdKeyLaws A, OrdKeyLaws B} : OrdKeyLaws (A * B).
Proof.
  split.
  - intros [a b] [a' b']. rewrite key_cmp_pair, pair_equal_spec, <-!key_cmp_eq.
    destruct (key_cmp a a'); [tauto| |]; by split; [|intros []].
  - intros [a b] [a' b']. rewrite !key_cmp_pair, (key_cmp_antisym a a').
    destruct (key_cmp a a'); simpl; [apply key_cmp_antisym|done|done].
  - intros [a b] [a' b'] [a'' b'']. rewrite !key_cmp_pair.
    destruct (key_cmp a a') eqn:E, (key_cmp a' a'') eqn:E'; try done.
    + apply key_cmp_eq in E as ->. rewrite E'. apply key_cmp_trans.
    + apply key_cmp_eq in E as ->. by rewrite E'.
    + apply key_cmp_eq in E' as ->. by rewrite E.
    + by rewrite (key_cmp_trans _ _ _ E E').
Qed.

#[global] Instance option_ord_laws {A} `{OrdKeyLaws A} : OrdKeyLaws (option A).
Proof.
  split.
  - intros [a|] [b|]; try done. unfold key_cmp at 1; simpl. rewrite key_cmp_eq.
    split; [by intros ->|by intros [= ->]].
  - intros [a|] [b|]; try done. unfold key_cmp; simpl. apply key_cmp_antisym.
  - intros [a|] [b|] [c|]; try done. unfold key_cmp; simpl. apply key_cmp_trans.
Qed.

(** ** Sorting *)

Section sort.
Context {A : Type} (cmp : A → A → comparison).

(** An element goes before the elements it does not exceed: those are the ones
    that followed it. *)
Fixpoint sort_insert (x : A) (l : list A) : list A :=
  match l with
  | [] => [x]
  | y :: l' => match cmp x y with Gt => y :: sort_insert x l' | _ => x :: l end
  end.

(** [slice::sort_by]. *)
Definition stable_sort (l : list A) : list A := foldr sort_insert [] l.

Lemma sort_insert_perm x l : sort_insert x l ≡ₚ x :: l.
Proof.
  induction l as [|y l IH]; simpl; [done|]. destruct (cmp x y); [done|done|].
  rewrite IH. constructor.
Qed.

Lemma stable_sort_perm l : stable_sort l ≡ₚ l.
Proof. induction l as [|x l IH]; simpl; [done|]. by rewrite sort_insert_perm, IH. Qed.
End sort.

Section by_key.
Context {A K : Type} `{OrdKeyLaws K} (key : A → K).

Definition cmp_by (x y : A) : comparison := key_cmp (key x) (key y).

(** [slice::sort_by_key]. *)
Definition sort_by_key (l : list A) : list A := stable_sort cmp_by l.

(** [Iterator::min_by_key]: of equal minima, the first. *)
Definition min_by_key (l : list A) : option A :=
  match l with
  | [] => None
  | x :: l => Some (foldl (λ m y, match key_cmp (key y) (key m) with Lt => y | _ => m end) x l)
  end.

Definition key_le (x y : A) : Prop := key_cmp (key x) (key y) ≠ Gt.

Lemma key_le_trans x y z : key_le x y → key_le y z → key_le x z.
Proof.
  unfold key_le. intros Hxy Hyz. destruct (key_cmp (key x) (key y)) eqn:E; [|clear Hxy|done].
  - apply key_cmp_eq in E as ->. done.
  - destruct (key_cmp (key y) (key z)) eqn:E'; [|clear Hyz|done].
    + apply key_cmp_eq in E' as <-. by rewrite E.
    + by rewrite (key_cmp_trans _ _ _ E E').
Qed.

Lemma sort_insert_sorted x l :
  StronglySorted key_le l → StronglySorted key_le (sort_insert cmp_by x l).
Proof.
  induction 1 as [|y l Hs IH Hf]; simpl; [by repeat constructor|].
  unfold cmp_by at 1. destruct (key_cmp (key x) (key y)) eqn:E.
  1,2: assert (key_le x y) as Hxy by (unfold key_le; by rewrite E);
    constructor; [by constructor|]; constructor; [done|];
    eapply Forall_impl; [exact Hf|]; intros z; by apply key_le_trans.
  constructor; [done|]. rewrite sort_insert_perm. constructor; [|done].
  unfold key_le. rewrite (key_cmp_antisym (key x) (key y)), E. done.
Qed.

Lemma sort_by_key_sorted l : StronglySorted key_le (sort_by_key l).
Proof. induction l as [|x l IH]; simpl; [constructor|]. by apply sort_insert_sorted. Qed.

Lemma sort_by_key_perm l : sort_by_key l ≡ₚ l.
Proof. apply stable_sort_perm. Qed.

(** The sort is stable: elements of one key keep their order. *)
Lemma sort_by_key_stable k l :
  filter (λ x, key_cmp (key x) k = Eq) (sort_by_key l) = filter (λ x, key_cmp (key x) k = Eq) l.
Proof.
  assert (∀ x l, filter (λ x, key_cmp (key x) k = Eq) (sort_insert cmp_by x l) =
    filter (λ x, key_cmp (key x) k = Eq) (x :: l)) as Hins.
  { clear l. intros x l. induction l as [|y l IH]; simpl; [done|]. unfold cmp_by at 1.
    destruct (key_cmp (key x) (key y)) eqn:E; [done|done|].
    rewrite !filter_cons in *. rewrite IH.
    destruct (decide (key_cmp (key x) k = Eq)) as [Hx|]; [|done].
    destruct (decide (key_cmp (key y) k = Eq)) as [Hy|]; [|done].
    apply key_cmp_eq in Hx, Hy. rewrite Hx, Hy, key_cmp_refl in E. done. }
  induction l as [|x l IH]; [done|]. simpl. rewrite Hins, !filter_cons.
  by rewrite <-IH.
Qed.
End by_key.

(** ** Removal of repetitions *)

(** [Vec::dedup]. *)
Fixpoint vec_dedup {A} `{EqDecision A} (l : list A) : list A :=
  match l with
  | x :: ((y :: _) as rest) => if decide (x = y) then vec_dedup rest else x :: vec_dedup rest
  | _ => l
  end.

Section dedup.
Context {A K : Type} `{EqDecision A} `{OrdKeyLaws K} (key : A → K) `{!Inj (=) (=) key}.

Definition key_before (x y : A) : Prop := key_cmp (key x) (key y) = Lt.

Lemma vec_dedup_elem (l : list A) x : x ∈ vec_dedup l ↔ x ∈ l.
Proof.
  induction l as [|y [|z l] IH]; [done..|]. change (vec_dedup (y :: z :: l)) with
    (if decide (y = z) then vec_dedup (z :: l) else y :: vec_dedup (z :: l)).
  destruct (decide (y = z)) as [->|Hne]; [rewrite IH|rewrite elem_of_cons, IH]; set_solver.
Qed.

(** A sorted list without neighbours that are equal is strictly sorted. *)
Lemma vec_dedup_sorted (l : list A) : StronglySorted (key_le key) l → StronglySorted key_before (vec_dedup l).
Proof.
  induction 1 as [|x l Hs IH Hf]; [constructor|]. destruct l as [|y l]; [by repeat constructor|].
  change (vec_dedup (x :: y :: l)) with (if decide (x = y) then vec_dedup (y :: l) else x :: vec_dedup (y :: l)).
  destruct (decide (x = y)) as [_|Hne]; [done|]. constructor; [done|]. rewrite Forall_forall. intros z Hz. rewrite vec_dedup_elem in Hz.
  rewrite Forall_forall in Hf. pose proof (Hf z Hz) as Hxz. unfold key_le in Hxz. unfold key_before.
  destruct (key_cmp (key x) (key z)) eqn:E; try done. apply key_cmp_eq, (inj key) in E as <-.
  exfalso. apply Hne. apply elem_of_cons in Hz as [?|Hz]; [done|]. inversion Hs as [|?? _ Hy]; subst.
  rewrite Forall_forall in Hy. specialize (Hy x Hz). specialize (Hf y ltac:(by left)). unfold key_le in Hf, Hy.
  rewrite (key_cmp_antisym (key x) (key y)) in Hy.
  destruct (key_cmp (key x) (key y)) eqn:E; [|done..]. by apply key_cmp_eq, (inj key) in E.
Qed.

(** Strictly sorted lists with the same elements are equal. *)
Lemma key_before_unique (l l' : list A) :
  StronglySorted key_before l → StronglySorted key_before l' → (∀ x, x ∈ l ↔ x ∈ l') → l = l'.
Proof.
  assert (∀ m, StronglySorted key_before m → NoDup m) as Hnd.
  { induction 1 as [|x m Hs IH Hf]; constructor; [|done]. intros Hx. rewrite Forall_forall in Hf.
    specialize (Hf x Hx). unfold key_before in Hf. by rewrite key_cmp_refl in Hf. }
  intros Hl Hl' E. apply (StronglySorted_unique_strong key_before); [|done..|by apply NoDup_Permutation; auto].
  intros x y _ _ Hxy Hyx. unfold key_before in *. rewrite (key_cmp_antisym (key x)), Hxy in Hyx. done.
Qed.
End dedup.
