(* ===== verification/Utf8.v ===== *)
(** * UTF-8

    The bytes of a Rust [str]: character boundaries, the well-formed byte
    sequences of the Unicode standard, and their decoding. *)

From S2P Require Import Prelude.

Abbreviation Text := (list byte).

(** ** Boundaries *)

Definition is_continuation (b : byte) : bool :=
  let n := Byte.to_nat b in (128 <=? n) && (n <? 192).

(** [str::is_char_boundary]. *)
Definition is_char_boundary (s : Text) (index : nat) : bool :=
  if Nat.eqb index 0 then true
  else match s !! index with
  | Some b => negb (is_continuation b)
  | None => Nat.eqb index (length s)
  end.

(** ** Characters *)

Definition between (lo hi : nat) (b : byte) : bool :=
  let n := Byte.to_nat b in (lo <=? n) && (n <=? hi).

Definition utf8_char (c : Text) : bool :=
  match c with
  | [a] => between 0 127 a
  | [a; b] => between 194 223 a && is_continuation b
  | [a; b; c] =>
      (between 224 224 a && between 160 191 b || between 225 236 a && is_continuation b
       || between 237 237 a && between 128 159 b || between 238 239 a && is_continuation b)
      && is_continuation c
  | [a; b; c; d] =>
      (between 240 240 a && between 144 191 b || between 241 243 a && is_continuation b
       || between 244 244 a && between 128 143 b)
      && is_continuation c && is_continuation d
  | _ => false
  end.

Inductive utf8 : Text → Prop :=
| utf8_nil : utf8 []
| utf8_cons c s : utf8_char c = true → utf8 s → utf8 (c ++ s).

(** The scalar value of a character: the payload bits of its bytes. *)
Definition scalar (c : Text) : N :=
  let low b := (Byte.to_N b mod 64)%N in
  match c with
  | [a] => Byte.to_N a
  | [a; b] => (Byte.to_N a mod 32 * 64 + low b)%N
  | [a; b; c] => (Byte.to_N a mod 16 * 4096 + low b * 64 + low c)%N
  | [a; b; c; d] => (Byte.to_N a mod 8 * 262144 + low b * 4096 + low c * 64 + low d)%N
  | _ => 0%N
  end.

(** [str::from_utf8], as the scalar values of the string. *)
Fixpoint from_utf8 (s : Text) : option (list N) :=
  match s with
  | [] => Some []
  | a :: s1 =>
      if utf8_char [a] then cons (scalar [a]) <$> from_utf8 s1
      else match s1 with
      | [] => None
      | b :: s2 =>
          if utf8_char [a; b] then cons (scalar [a; b]) <$> from_utf8 s2
          else match s2 with
          | [] => None
          | c :: s3 =>
              if utf8_char [a; b; c] then cons (scalar [a; b; c]) <$> from_utf8 s3
              else match s3 with
              | [] => None
              | d :: s4 =>
                  if utf8_char [a; b; c; d] then cons (scalar [a; b; c; d]) <$> from_utf8 s4
                  else None
              end
          end
      end
  end.

(** ** Lemmas *)

Lemma utf8_app s t : utf8 s → utf8 t → utf8 (s ++ t).
Proof. induction 1 as [|c s Hc Hs IH]; intros Ht; [done|]. rewrite <-(assoc_L (++)). constructor; auto. Qed.

Lemma between_spec lo hi b : between lo hi b = true ↔ lo ≤ Byte.to_nat b ∧ Byte.to_nat b ≤ hi.
Proof. unfold between. by rewrite andb_true_iff, !Nat.leb_le. Qed.

Lemma continuation_spec b :
  is_continuation b = true ↔ 128 ≤ Byte.to_nat b ∧ Byte.to_nat b ≤ 191.
Proof. unfold is_continuation. rewrite andb_true_iff, Nat.leb_le, Nat.ltb_lt. lia. Qed.

(** A character is a byte that is no continuation, and continuations. *)
Lemma utf8_char_shape c :
  utf8_char c = true →
  ∃ a t, c = a :: t ∧ is_continuation a = false ∧ Forall (λ b, is_continuation b = true) t.
Proof.
  destruct c as [|a [|b [|c [|d [|]]]]]; simpl; try done;
    rewrite ?andb_true_iff, ?orb_true_iff, ?andb_true_iff, ?continuation_spec, ?between_spec;
    intros Hc; exists a; eexists; (split; [reflexivity|]);
    rewrite <-not_true_iff_false, continuation_spec; (split; [lia|]);
    repeat (constructor; [apply continuation_spec; lia|]); constructor.
Qed.

Lemma boundary_prefix s t i :
  i < length s → is_char_boundary (s ++ t) i = is_char_boundary s i.
Proof.
  intros Hi. unfold is_char_boundary. rewrite lookup_app_l by done.
  destruct (lookup_lt_is_Some_2 s i Hi) as [b ->]. done.
Qed.

(** The end of a string is a boundary, whatever string follows. *)
Lemma boundary_app s t : utf8 t → is_char_boundary (s ++ t) (length s) = true.
Proof.
  intros Ht. unfold is_char_boundary. destruct (Nat.eqb (length s) 0); [done|].
  rewrite lookup_app_r, Nat.sub_diag by done. destruct Ht as [|c t Hc Ht].
  - simpl. apply Nat.eqb_eq. by rewrite app_nil_r.
  - apply utf8_char_shape in Hc as (a & c' & -> & Ha & _). simpl. by rewrite Ha.
Qed.

Lemma boundary_suffix s t i :
  0 < i → is_char_boundary (s ++ t) (length s + i) = is_char_boundary t i.
Proof.
  intros Hi. unfold is_char_boundary. rewrite lookup_app_r by lia.
  replace (length s + i - length s) with i by lia. rewrite length_app.
  destruct (Nat.eqb_spec (length s + i) 0), (Nat.eqb_spec i 0); try lia.
  destruct (t !! i); [done|]. destruct (Nat.eqb_spec i (length t)); [|apply Nat.eqb_neq]; [subst|lia].
  apply Nat.eqb_refl.
Qed.

(** Cutting a string at a boundary gives two strings. *)
Lemma utf8_split s i :
  utf8 s → i ≤ length s → is_char_boundary s i = true → utf8 (take i s) ∧ utf8 (drop i s).
Proof.
  intros Hs. revert i. induction Hs as [|c s Hc Hs IH]; intros i Hi Hb.
  { rewrite take_nil, drop_nil. repeat constructor. }
  destruct (decide (i = 0)) as [->|Hi0]; [split; [constructor|by constructor]|].
  destruct (decide (i < length c)) as [Hlt|Hge].
  - exfalso. rewrite boundary_prefix in Hb by done. unfold is_char_boundary in Hb.
    destruct (Nat.eqb_spec i 0); [done|]. apply utf8_char_shape in Hc as (a & c' & -> & _ & Hcont).
    destruct i as [|i]; [done|]. simpl in *. destruct (c' !! i) as [b|] eqn:E.
    + rewrite Forall_lookup in Hcont. by rewrite (Hcont _ _ E) in Hb.
    + apply lookup_ge_None in E. lia.
  - assert (i = length c + (i - length c)) as Ei by lia. remember (i - length c) as j eqn:Ej. clear Ej.
    subst i. rewrite length_app in Hi. rewrite take_app_add, drop_app_add.
    destruct (IH j) as [IHt IHd]; [lia| |by split; [constructor|]].
    destruct (decide (j = 0)) as [->|]; [done|]. by rewrite boundary_suffix in Hb by lia.
Qed.

(** A boundary below a cut is a boundary of what is left of the cut. *)
Lemma boundary_take s i j :
  i ≤ j → j ≤ length s → is_char_boundary s i = true → is_char_boundary (take j s) i = true.
Proof.
  intros Hij Hj Hb. destruct (decide (i < j)) as [Hlt|].
  - rewrite <-(boundary_prefix (take j s) (drop j s)) by (rewrite length_take; lia).
    by rewrite take_drop.
  - assert (i = j) as -> by lia. rewrite <-(app_nil_r (take j s)).
    pose proof (boundary_app (take j s) [] utf8_nil) as H.
    by rewrite length_take, Nat.min_l in H.
Qed.

Lemma ascii_utf8 s : forallb (between 0 127) s = true → utf8 s.
Proof.
  induction s as [|b s IH]; simpl; [constructor|]. intros [Hb Hs]%andb_true_iff.
  apply (utf8_cons [b]); auto.
Qed.

Lemma from_utf8_ascii s :
  forallb (between 0 127) s = true → from_utf8 s = Some (Byte.to_N <$> s).
Proof.
  induction s as [|b s IH]; [done|]. simpl. intros [Hb Hs]%andb_true_iff.
  by rewrite Hb, (IH Hs).
Qed.
