(* ===== verification/StrOps.v ===== *)
(** * String operations

    The order and the operations of Rust's [str] that the model crate uses, on
    the bytes of the string: prefixes and suffixes, searches and splits. *)

From stdpp Require Import pretty.
From Stdlib Require Import Sorting.Sorted.
From S2P Require Import Prelude BTree StableSort Utf8.

(** ** Order

    [Ord for str] compares bytes, [Ord for Vec] elements, the shorter first. *)

#[global] Instance byte_ord : OrdKey byte := λ a b, N.compare (Byte.to_N a) (Byte.to_N b).

#[global] Instance byte_ord_laws : OrdKeyLaws byte.
Proof.
  split; unfold key_cmp, byte_ord.
  - intros a b. rewrite N.compare_eq_iff. split; [|by intros ->].
    intros E. apply (f_equal Byte.of_N) in E. rewrite !Byte.of_to_N in E. by injection E.
  - intros a b. apply N.compare_antisym.
  - intros a b c. rewrite !N.compare_lt_iff. lia.
Qed.

Fixpoint list_compare {A} `{OrdKey A} (x y : list A) : comparison :=
  match x, y with
  | [], [] => Eq
  | [], _ => Lt
  | _, [] => Gt
  | a :: x, b :: y => match key_cmp a b with Eq => list_compare x y | c => c end
  end.

#[global] Instance list_ord {A} `{OrdKey A} : OrdKey (list A) := list_compare.

#[global] Instance list_ord_laws {A} `{OrdKeyLaws A} : OrdKeyLaws (list A).
Proof.
  split; unfold key_cmp, list_ord.
  - intros x. induction x as [|a x IH]; intros [|b y]; simpl; try done.
    destruct (key_cmp a b) eqn:E; [apply key_cmp_eq in E as ->; rewrite IH; naive_solver|..];
      (split; [done|]; intros [= -> ->]; by rewrite key_cmp_refl in E).
  - intros x. induction x as [|a x IH]; intros [|b y]; simpl; try done.
    rewrite (key_cmp_antisym a b). destruct (key_cmp a b); simpl; [apply IH|done|done].
  - intros x. induction x as [|a x IH]; intros [|b y] [|c z]; simpl; try done.
    destruct (key_cmp a b) eqn:E1; try done.
    + apply key_cmp_eq in E1 as ->. destruct (key_cmp b c); [apply IH|done|done].
    + intros _. destruct (key_cmp b c) eqn:E2; try done.
      * apply key_cmp_eq in E2 as ->. by rewrite E1.
      * by rewrite (key_cmp_trans _ _ _ E1 E2).
Qed.

(** ** Literals and formatting *)

(** The bytes of a literal, and the text of bytes in a message. *)
Definition txt (s : string) : Text := String.list_byte_of_string s.
Definition str (t : Text) : string := String.string_of_list_byte t.

(** [format!]: the pieces in order. *)
Definition format (pieces : list string) : string := String.concat "" pieces.

(** A number in decimal. *)
Definition decimal (n : N) : string := pretty n.

(** ** Searches *)

Definition text_eqb (s t : Text) : bool := bool_decide (s = t).

(** [str::strip_prefix]. *)
Fixpoint strip_prefix (prefix s : Text) : option Text :=
  match prefix, s with
  | [], _ => Some s
  | _, [] => None
  | p :: prefix, b :: s => if (p =? b)%u8 then strip_prefix prefix s else None
  end.

(** [str::strip_suffix] and [str::ends_with]. *)
Definition strip_suffix (suffix s : Text) : option Text :=
  reverse <$> strip_prefix (reverse suffix) (reverse s).

Definition ends_with (suffix s : Text) : bool := bool_decide (is_Some (strip_suffix suffix s)).

(** [str::split_once]: around the first occurrence. *)
Fixpoint split_once (sep s : Text) : option (Text * Text) :=
  match strip_prefix sep s with
  | Some rest => Some ([], rest)
  | None => match s with
    | [] => None
    | b :: s => prod_map (cons b) id <$> split_once sep s
    end
  end.

(** [str::contains]. *)
Definition contains (sep s : Text) : bool := bool_decide (is_Some (split_once sep s)).

(** [str::rsplit_once]: around the last occurrence. *)
Fixpoint rsplit_once (sep s : Text) : option (Text * Text) :=
  match s with
  | [] => pair [] <$> strip_prefix sep []
  | b :: t => match rsplit_once sep t with
    | Some (l, r) => Some (b :: l, r)
    | None => pair [] <$> strip_prefix sep s
    end
  end.

(** [str::split]: the pieces between the occurrences from left to right.  Each
    piece is shorter than what is left to split, for a separator that is not
    empty. *)
Fixpoint split_fuel (fuel : nat) (sep s : Text) : list Text :=
  match fuel with
  | 0 => [s]
  | S fuel => match split_once sep s with
    | Some (l, r) => l :: split_fuel fuel sep r
    | None => [s]
    end
  end.

Definition split (sep s : Text) : list Text := split_fuel (length s) sep s.

(** [char::is_ascii_alphabetic], [is_ascii_digit] and [is_ascii_alphanumeric]. *)
Definition is_ascii_digit (b : byte) : bool := between 48 57 b.
Definition is_ascii_alphabetic (b : byte) : bool := between 65 90 b || between 97 122 b.
Definition is_ascii_alphanumeric (b : byte) : bool := is_ascii_alphabetic b || is_ascii_digit b.

(** [char::is_control]: the general category Cc. *)
Definition is_control (c : N) : bool := (c <? 32)%N || (127 <=? c)%N && (c <? 160)%N.

(** [str::parse::<u32>] of a text of digits: empty texts and values out of range
    are refused. *)
Fixpoint digits_value (acc : N) (s : Text) : option N :=
  match s with
  | [] => Some acc
  | b :: s =>
      let acc := (acc * 10 + (Byte.to_N b - 48))%N in
      if (U32_MAX <? acc)%N then None else digits_value acc s
  end.

Definition parse_u32_digits (s : Text) : option N :=
  match s with [] => None | _ => digits_value 0 s end.

(** ** Lemmas *)

Lemma strip_prefix_Some p s r : strip_prefix p s = Some r ↔ s = p ++ r.
Proof.
  revert s. induction p as [|b p IH]; intros s; simpl; [naive_solver|].
  destruct s as [|c s]; [done|]. destruct (b =? c)%u8 eqn:E.
  - apply byte_eqb_eq in E as ->. rewrite IH. naive_solver.
  - apply byte_eqb_neq in E. naive_solver.
Qed.

Lemma strip_prefix_None p s : strip_prefix p s = None ↔ ∀ r, s ≠ p ++ r.
Proof.
  destruct (strip_prefix p s) as [r|] eqn:E.
  - apply strip_prefix_Some in E as ->. split; [done|]. intros H. by destruct (H r).
  - split; [|done]. intros _ r Hr. apply strip_prefix_Some in Hr. congruence.
Qed.

Lemma strip_suffix_Some p s l : strip_suffix p s = Some l ↔ s = l ++ p.
Proof.
  unfold strip_suffix. rewrite fmap_Some. split.
  - intros (r & E & ->). apply strip_prefix_Some in E. apply (f_equal reverse) in E.
    by rewrite reverse_app, !reverse_involutive in E.
  - intros ->. exists (reverse l). rewrite reverse_involutive. split; [|done].
    apply strip_prefix_Some. by rewrite reverse_app.
Qed.

Lemma split_once_Some sep s l r : split_once sep s = Some (l, r) → s = l ++ sep ++ r.
Proof.
  revert l r. induction s as [|b s IH]; intros l r; simpl;
    destruct (strip_prefix sep _) as [t|] eqn:E; try done.
  - intros [= <- <-]. by apply strip_prefix_Some in E.
  - intros [= <- <-]. by apply strip_prefix_Some in E.
  - destruct (split_once sep s) as [[l' r']|] eqn:E'; simpl; [|done].
    intros [= <- <-]. by rewrite (IH l' r').
Qed.

Lemma split_once_None sep s : split_once sep s = None ↔ ∀ l r, s ≠ l ++ sep ++ r.
Proof.
  split.
  - induction s as [|b s IH]; simpl; destruct (strip_prefix sep _) as [t|] eqn:E; try done.
    + rewrite strip_prefix_None in E. intros _ [|c l] r; [apply E|done].
    + rewrite strip_prefix_None in E. destruct (split_once sep s) as [[]|]; [done|]. intros _ [|c l] r; [apply E|].
      intros [= -> Hs]. by apply (IH eq_refl l r).
  - intros H. destruct (split_once sep s) as [[l r]|] eqn:E; [|done].
    apply split_once_Some in E. by destruct (H l r).
Qed.

Lemma contains_spec sep s : contains sep s = true ↔ ∃ l r, s = l ++ sep ++ r.
Proof.
  unfold contains. rewrite bool_decide_eq_true. split.
  - intros [[l r] E]. exists l, r. by apply split_once_Some.
  - intros (l & r & ->). destruct (split_once sep _) as [[]|] eqn:E; [done|].
    rewrite split_once_None in E. by destruct (E l r).
Qed.

Lemma rsplit_once_Some sep s l r : rsplit_once sep s = Some (l, r) → s = l ++ sep ++ r.
Proof.
  revert l r. induction s as [|b s IH]; intros l r; cbn [rsplit_once].
  - destruct (strip_prefix sep []) as [t|] eqn:E; [|done]. intros [= <- <-]. by apply strip_prefix_Some in E.
  - destruct (rsplit_once sep s) as [[l' r']|] eqn:E'.
    + intros [= <- <-]. by rewrite (IH l' r').
    + destruct (strip_prefix sep _) as [t|] eqn:E; [|done]. intros [= <- <-]. by apply strip_prefix_Some in E.
Qed.

Lemma rsplit_once_None sep s : rsplit_once sep s = None → ∀ l r, s ≠ l ++ sep ++ r.
Proof.
  induction s as [|b s IH]; cbn [rsplit_once].
  - destruct (strip_prefix sep []) as [t|] eqn:E; [done|]. rewrite strip_prefix_None in E.
    intros _ [|c l] r; [apply E|done].
  - destruct (rsplit_once sep s) as [[l' r']|] eqn:E'; [done|].
    destruct (strip_prefix sep _) as [t|] eqn:E; [done|]. rewrite strip_prefix_None in E.
    intros _ [|c l] r; [apply E|]. intros [= -> Hs]. by apply (IH eq_refl l r).
Qed.

(** The pieces joined by the separator are the text. *)
Fixpoint join (sep : Text) (pieces : list Text) : Text :=
  match pieces with
  | [] => []
  | [p] => p
  | p :: pieces => p ++ sep ++ join sep pieces
  end.

Lemma split_fuel_nonempty fuel sep s : split_fuel fuel sep s ≠ [].
Proof. destruct fuel; simpl; [done|]. by destruct (split_once sep s) as [[]|]. Qed.

Lemma join_cons sep p pieces : pieces ≠ [] → join sep (p :: pieces) = p ++ sep ++ join sep pieces.
Proof. by destruct pieces. Qed.

Lemma join_split sep s : join sep (split sep s) = s.
Proof.
  unfold split. generalize (length s) as fuel. intros fuel. revert s.
  induction fuel as [|fuel IH]; intros s; simpl; [done|].
  destruct (split_once sep s) as [[l r]|] eqn:E; [|done].
  apply split_once_Some in E as ->. by rewrite join_cons, IH by apply split_fuel_nonempty.
Qed.

(** No piece holds the separator. *)
Lemma split_fuel_pieces fuel sep s :
  sep ≠ [] → length s ≤ fuel → Forall (λ p, split_once sep p = None) (split_fuel fuel sep s).
Proof.
  intros Hne. revert s. induction fuel as [|fuel IH]; intros s Hl; simpl.
  - constructor; [|done]. destruct s; [|simpl in Hl; lia]. simpl.
    destruct sep; [done|]. done.
  - destruct (split_once sep s) as [[l r]|] eqn:E; [|by constructor].
    constructor.
    + clear -E Hne. revert l r E. induction s as [|b s IHs]; intros l r; simpl;
        destruct (strip_prefix sep _) as [t|] eqn:E; try done.
      * intros [= <- <-]. simpl. by destruct sep.
      * intros [= <- <-]. simpl. by destruct sep.
      * destruct (split_once sep s) as [[l' r']|] eqn:E'; simpl; [|done]. intros [= <- <-].
        specialize (IHs _ _ eq_refl). simpl. rewrite strip_prefix_None in E.
        destruct (strip_prefix sep (b :: l')) as [t|] eqn:E''.
        -- apply strip_prefix_Some in E''. apply split_once_Some in E' as ->.
           destruct (E (t ++ sep ++ r')). rewrite (app_comm_cons l' _ b), E''. by rewrite <-!(assoc_L (++)).
        -- by rewrite IHs.
    + apply IH. apply split_once_Some in E as ->. rewrite !length_app in Hl.
      destruct sep; [done|]. simpl in Hl. lia.
Qed.

Lemma split_pieces sep s : sep ≠ [] → Forall (λ p, split_once sep p = None) (split sep s).
Proof. intros. by apply split_fuel_pieces. Qed.

(** * Ordered maps, lookup and fold laws

    [BTree] with its equations stated by decidable equality of keys, and what
    folds that only insert keep. *)

Lemma list_elem_of_concat {A} (x : A) ls : x ∈ concat ls ↔ ∃ l, x ∈ l ∧ l ∈ ls.
Proof.
  rewrite list_elem_of_In, in_concat. setoid_rewrite <-list_elem_of_In. naive_solver.
Qed.

Section laws.
Context {K V : Type} `{OrdKeyLaws K, !EqDecision K}.
Implicit Types m : list (K * V).

Lemma bt_lookup_insert m k v k' :
  bt_sorted m → bt_get (bt_insert m k v) k' = if decide (k' = k) then Some v else bt_get m k'.
Proof.
  intros Hs. rewrite bt_get_insert by done. destruct (decide (k' = k)) as [->|Hne]; [by rewrite key_cmp_refl|].
  destruct (key_cmp k' k) eqn:E; [|done..]. by apply key_cmp_eq in E.
Qed.

Lemma bt_lookup_insert_eq m k v : bt_sorted m → bt_get (bt_insert m k v) k = Some v.
Proof. intros. rewrite bt_lookup_insert by done. by rewrite decide_True. Qed.

Lemma bt_lookup_insert_ne m k v k' : bt_sorted m → k' ≠ k → bt_get (bt_insert m k v) k' = bt_get m k'.
Proof. intros. rewrite bt_lookup_insert by done. by rewrite decide_False. Qed.

Lemma bt_lookup_remove m k k' :
  bt_sorted m → bt_get (bt_remove m k) k' = if decide (k' = k) then None else bt_get m k'.
Proof.
  intros Hs. rewrite bt_get_remove by done. destruct (decide (k' = k)) as [->|Hne]; [by rewrite key_cmp_refl|].
  destruct (key_cmp k' k) eqn:E; [|done..]. by apply key_cmp_eq in E.
Qed.

(** Two sorted maps with the same lookups are the same map. *)
Lemma bt_ext m m' : bt_sorted m → bt_sorted m' → (∀ k, bt_get m k = bt_get m' k) → m = m'.
Proof.
  unfold bt_sorted. revert m'. induction m as [|[k v] m IH]; intros m' Hs Hs' Heq.
  - destruct m' as [|[k' v'] m']; [done|]. specialize (Heq k'). simpl in Heq. by rewrite key_cmp_refl in Heq.
  - destruct m' as [|[k' v'] m'].
    { specialize (Heq k). simpl in Heq. by rewrite key_cmp_refl in Heq. }
    simpl in Hs, Hs'. apply StronglySorted_inv in Hs as [Hs Hf]. apply StronglySorted_inv in Hs' as [Hs' Hf'].
    assert (k = k' ∧ v = v') as [-> ->].
    { pose proof (Heq k) as Hk. pose proof (Heq k') as Hk'. simpl in Hk, Hk'. rewrite key_cmp_refl in Hk, Hk'.
      destruct (key_cmp k k') eqn:E; [apply key_cmp_eq in E as ->; naive_solver|done|].
      apply key_cmp_gt in E. unfold key_lt in E. by rewrite E in Hk'. }
    f_equal. apply IH; [done..|]. intros j. specialize (Heq j). simpl in Heq.
    destruct (key_cmp j k') eqn:E; [|by rewrite !bt_get_below by (eapply Forall_impl; [done|];
      intros x Hx; by eapply key_cmp_trans)|done].
    apply key_cmp_eq in E as ->. by rewrite !bt_get_below.
Qed.

Lemma bt_sorted_map {W} (f : V → W) m : bt_sorted m → bt_sorted (prod_map id f <$> m).
Proof.
  unfold bt_sorted. intros Hs. rewrite <-list_fmap_compose.
  by replace ((fst ∘ prod_map id f) <$> m) with m.*1 by (by apply list_fmap_ext; intros ? [??]).
Qed.

Lemma bt_get_map {W} (f : V → W) m k : bt_get (prod_map id f <$> m) k = f <$> bt_get m k.
Proof. induction m as [|[k' v] m IH]; [done|]. csimpl. by destruct (key_cmp k k'). Qed.

(** A property of every entry of a map. *)
Definition bt_Forall (P : K → V → Prop) m : Prop := ∀ k v, bt_get m k = Some v → P k v.

Lemma bt_Forall_nil (P : K → V → Prop) : bt_Forall P [].
Proof. by intros ??. Qed.

Lemma bt_Forall_insert (P : K → V → Prop) m k v :
  bt_sorted m → bt_Forall P m → P k v → bt_Forall P (bt_insert m k v).
Proof.
  intros Hs Hm Hk k' v'. rewrite bt_lookup_insert by done. destruct (decide (k' = k)) as [->|]; [|apply Hm].
  by intros [= <-].
Qed.

Lemma bt_Forall_remove (P : K → V → Prop) m k : bt_sorted m → bt_Forall P m → bt_Forall P (bt_remove m k).
Proof.
  intros Hs Hm k' v'. rewrite bt_lookup_remove by done. destruct (decide (k' = k)) as [->|]; [done|apply Hm].
Qed.

Lemma bt_Forall_elem (P : K → V → Prop) m k v : bt_sorted m → bt_Forall P m → (k, v) ∈ m → P k v.
Proof. intros Hs Hm Hin. apply Hm. by apply bt_get_elem. Qed.
End laws.

(** A map whose entries are those of another, filtered and changed, in the order
    of the other. *)
Lemma bt_sorted_omap {K V W} `{OrdKeyLaws K} (f : K * V → option (K * W)) (m : list (K * V)) :
  (∀ x y, f x = Some y → y.1 = x.1) → bt_sorted m → bt_sorted (omap f m).
Proof.
  intros Hf. unfold bt_sorted. induction m as [|x m IH]; intros Hs; [done|]. csimpl in *.
  apply StronglySorted_inv in Hs as [Hs Hlt].
  destruct (f x) as [y|] eqn:E; csimpl; [|by apply IH]. constructor; [by apply IH|].
  rewrite (Hf x y E). apply Forall_forall. intros k Hk. rewrite Forall_forall in Hlt. apply Hlt.
  apply list_elem_of_fmap in Hk as (z & -> & Hz). apply list_elem_of_omap in Hz as (w & Hw & E').
  rewrite (Hf w z E'). apply list_elem_of_fmap. by exists w.
Qed.
