(* ===== verification/FixPlan.v ===== *)
(** * The fix planner

    [pure-analyzer-diagnostics]: fixes and diagnostics ([fix.rs], [file.rs],
    [diagnostic.rs]), and [FixPlan] ([fix_plan.rs]) which selects the
    machine-applicable fixes, validates them against the analysed sources and
    applies them.  A [String] is the list of its UTF-8 bytes; an operation that
    can panic returns an [option].  Offsets are only compared, so a [TextSize]
    is a [nat].  [TextRange] comes from the [text-size] crate: the interface
    [TextRangeModel] states what the planner uses of it. *)

From S2P Require Import Prelude Utf8 BTree StableSort Codes.

(** ** Strings *)

(** [String::replace_range]: a range out of order or out of bounds, or one that
    splits a character, panics. *)
Definition replace_range (s : Text) (start end_ : nat) (new_text : Text) : option Text :=
  if (start <=? end_) && (end_ <=? length s) && is_char_boundary s start && is_char_boundary s end_
  then Some (take start s ++ new_text ++ drop end_ s)
  else None.

(** ** Ranges *)

Class TextRangeModel (R : Type) := {
  start : R → nat;
  end_ : R → nat;
  span_is_empty : R → bool;
  range_eq_dec :: EqDecision R;
  start_le_end r : start r ≤ end_ r;
  span_is_empty_spec r : span_is_empty r = Nat.eqb (start r) (end_ r);
  range_ext r r' : start r = start r' → end_ r = end_ r' → r = r';
}.

(** ** Fixes and diagnostics *)

(** [FileId]: an index. *)
Definition FileId := nat.

Inductive Applicability := MachineApplicable | Suggested | Unsafe.

#[global] Instance Applicability_eq_dec : EqDecision Applicability.
Proof. solve_decision. Defined.

Inductive FixProvenance := SyntaxOnly | ModelDependent | SingleArityProven.

(** [FixProvenance::permits_machine_application]. *)
Definition permits_machine_application (p : FixProvenance) : bool :=
  match p with SyntaxOnly | SingleArityProven => true | ModelDependent => false end.

Section model.
Context {R : Type} `{TextRangeModel R}.

Record TextEdit := { te_file : FileId; te_span : R; te_new_text : Text }.

Record Fix := {
  fix_title : string;
  fix_applicability : Applicability;
  fix_provenance : FixProvenance;
  fix_edits : list TextEdit;
}.

Inductive Severity := Error | Warning | Info | Hint.

Record Label := { label_file : FileId; label_span : R; label_note : string }.

Record Diagnostic := {
  diag_code : DiagCode;
  diag_severity : Severity;
  diag_message : string;
  diag_primary : Label;
  diag_secondary : list Label;
  diag_fix : option Fix;
  diag_url : option string;
}.

(** [Fix::model_dependent] and [Fix::single_arity_proven]. *)
Definition model_dependent (title : string) (edits : list TextEdit) : Fix :=
  {| fix_title := title; fix_applicability := Suggested; fix_provenance := ModelDependent;
     fix_edits := edits |}.

Definition single_arity_proven (title : string) (edits : list TextEdit) : Fix :=
  {| fix_title := title; fix_applicability := MachineApplicable;
     fix_provenance := SingleArityProven; fix_edits := edits |}.

(** ** Plans *)

Record PlannedFile := { pf_file : FileId; pf_source : Text }.

Record PlannedChange := { pc_file : FileId; before : Text; after : Text }.

(** The two maps of a plan are in [FileId] order. *)
Record FixPlan := {
  files : list (FileId * PlannedFile);
  edits : list (FileId * list TextEdit);
}.

Inductive FixPlanError :=
| DuplicateFile (file : FileId)
| EmptyFix (title : string)
| ApplicabilityPolicy (title : string) (provenance : FixProvenance)
| UnknownFile (title : string) (file : FileId)
| UnorderedEdits (title : string) (file : FileId)
| OutOfBounds (title : string) (file : FileId) (span : R)
| InvalidUtf8Boundary (title : string) (file : FileId) (span : R)
| Conflict (file : FileId) (first second : string)
| StaleSource (file : FileId)
| UnexpectedSource (file : FileId).

Record Candidate := { cand_title : string; cand_edits : list TextEdit }.

Record AcceptedEdit := { acc_title : string; acc_edit : TextEdit }.

(** [entry(k).or_default().push(x)]. *)
Definition bt_push {X} (m : list (FileId * list X)) (k : FileId) (x : X) : list (FileId * list X) :=
  bt_insert m k (default [] (bt_get m k) ++ [x]).

(** [validate_fix], its first loop: bounds and boundaries of every edit, which
    it groups by file. *)
Fixpoint validate_spans (title : string) (files : list (FileId * PlannedFile))
    (by_file : list (FileId * list TextEdit)) (edits : list TextEdit)
  : Result (list (FileId * list TextEdit)) FixPlanError :=
  match edits with
  | [] => Ok by_file
  | edit :: rest =>
      match bt_get files (te_file edit) with
      | None => Err (UnknownFile title (te_file edit))
      | Some snapshot =>
          let source := pf_source snapshot in
          let s := start (te_span edit) in
          let e := end_ (te_span edit) in
          if (length source <? s) || (length source <? e)
          then Err (OutOfBounds title (te_file edit) (te_span edit))
          else if negb (is_char_boundary source s) || negb (is_char_boundary source e)
          then Err (InvalidUtf8Boundary title (te_file edit) (te_span edit))
          else validate_spans title files (bt_push by_file (te_file edit) edit) rest
      end
  end.

(** Its second loop, on one file: every edit against the previous one. *)
Fixpoint validate_order (title : string) (file : FileId) (previous : option TextEdit)
    (file_edits : list TextEdit) : Result () FixPlanError :=
  match file_edits with
  | [] => Ok ()
  | edit :: rest =>
      let unordered :=
        match previous with
        | Some prior =>
            (start (te_span edit) <? end_ (te_span prior))
            || bool_decide (te_span edit = te_span prior) && span_is_empty (te_span edit)
        | None => false
        end in
      if unordered then Err (UnorderedEdits title file)
      else validate_order title file (Some edit) rest
  end.

Fixpoint validate_orders (title : string) (by_file : list (FileId * list TextEdit))
  : Result () FixPlanError :=
  match by_file with
  | [] => Ok ()
  | (file, file_edits) :: rest =>
      let? _ := validate_order title file None file_edits in
      validate_orders title rest
  end.

Definition validate_fix (title : string) (files : list (FileId * PlannedFile))
    (edits : list TextEdit) : Result () FixPlanError :=
  let? by_file := validate_spans title files [] edits in
  validate_orders title by_file.

Definition edits_overlap (left right : TextEdit) : bool :=
  (start (te_span left) <? end_ (te_span right)) && (start (te_span right) <? end_ (te_span left))
  || bool_decide (te_span left = te_span right) && span_is_empty (te_span left).

Definition edit_key (edit : TextEdit) : FileId * nat * nat :=
  (te_file edit, start (te_span edit), end_ (te_span edit)).

Definition first_key (candidate : Candidate) : option (FileId * nat * nat * string) :=
  match min_by_key edit_key (cand_edits candidate) with
  | Some first =>
      Some (te_file first, start (te_span first), end_ (te_span first), cand_title candidate)
  | None => None
  end.

(** [FixPlan::build], its first loop: the source snapshots by file. *)
Fixpoint files_by_id (acc : list (FileId * PlannedFile)) (fs : list PlannedFile)
  : Result (list (FileId * PlannedFile)) FixPlanError :=
  match fs with
  | [] => Ok acc
  | file :: rest =>
      match bt_get acc (pf_file file) with
      | Some _ => Err (DuplicateFile (pf_file file))
      | None => files_by_id (bt_insert acc (pf_file file) file) rest
      end
  end.

(** Its second loop: the selected fixes, validated. *)
Fixpoint collect_candidates (files : list (FileId * PlannedFile)) (candidates : list Candidate)
    (diagnostics : list Diagnostic) : Result (list Candidate) FixPlanError :=
  match diagnostics with
  | [] => Ok candidates
  | diagnostic :: rest =>
      match diag_fix diagnostic with
      | None => collect_candidates files candidates rest
      | Some fix_ =>
          match fix_applicability fix_ with
          | MachineApplicable =>
              if negb (permits_machine_application (fix_provenance fix_))
              then Err (ApplicabilityPolicy (fix_title fix_) (fix_provenance fix_))
              else match fix_edits fix_ with
              | [] => Err (EmptyFix (fix_title fix_))
              | _ :: _ =>
                  let? _ := validate_fix (fix_title fix_) files (fix_edits fix_) in
                  collect_candidates files
                    (candidates ++ [{| cand_title := fix_title fix_; cand_edits := fix_edits fix_ |}])
                    rest
              end
          | _ => collect_candidates files candidates rest
          end
      end
  end.

(** Its third loop, over the edits of the sorted candidates: an edit that
    overlaps an accepted one rejects the plan. *)
Fixpoint accept_edits (title : string) (edits : list (FileId * list TextEdit))
    (accepted : list (FileId * list AcceptedEdit)) (es : list TextEdit)
  : Result (list (FileId * list TextEdit) * list (FileId * list AcceptedEdit)) FixPlanError :=
  match es with
  | [] => Ok (edits, accepted)
  | edit :: rest =>
      let accepted := bt_or_insert accepted (te_file edit) [] in
      let accepted_in_file := default [] (bt_get accepted (te_file edit)) in
      match List.find (λ prior, edits_overlap (acc_edit prior) edit) accepted_in_file with
      | Some prior => Err (Conflict (te_file edit) (acc_title prior) title)
      | None =>
          accept_edits title (bt_push edits (te_file edit) edit)
            (bt_push accepted (te_file edit) {| acc_title := title; acc_edit := edit |}) rest
      end
  end.

Fixpoint accept_candidates (edits : list (FileId * list TextEdit))
    (accepted : list (FileId * list AcceptedEdit)) (candidates : list Candidate)
  : Result (list (FileId * list TextEdit)) FixPlanError :=
  match candidates with
  | [] => Ok edits
  | candidate :: rest =>
      let? (edits, accepted) := accept_edits (cand_title candidate) edits accepted (cand_edits candidate) in
      accept_candidates edits accepted rest
  end.

Definition span_key (edit : TextEdit) : nat * nat := (start (te_span edit), end_ (te_span edit)).

(** [FixPlan::build]. *)
Definition build (fs : list PlannedFile) (diagnostics : list Diagnostic)
  : Result FixPlan FixPlanError :=
  let? files := files_by_id [] fs in
  let? candidates := collect_candidates files [] diagnostics in
  let? edits := accept_candidates [] [] (sort_by_key first_key candidates) in
  Ok {| files := files; edits := prod_map id (sort_by_key span_key) <$> edits |}.

(** [FixPlan::is_empty]. *)
Definition plan_is_empty (plan : FixPlan) : bool :=
  match edits plan with [] => true | _ => false end.

(** [FixPlan::validate_sources]. *)
Fixpoint stale_source (sources : list (FileId * Text)) (fs : list (FileId * PlannedFile))
  : Result () FixPlanError :=
  match fs with
  | [] => Ok ()
  | (file, snapshot) :: rest =>
      if bool_decide (bt_get sources file = Some (pf_source snapshot))
      then stale_source sources rest
      else Err (StaleSource file)
  end.

Definition validate_sources (plan : FixPlan) (sources : list (FileId * Text))
  : Result () FixPlanError :=
  match List.find (λ file, bool_decide (bt_get (files plan) file = None)) sources.*1 with
  | Some file => Err (UnexpectedSource file)
  | None => stale_source sources (files plan)
  end.

(** The edits of one file, last first. *)
Definition apply_edits (source : Text) (file_edits : list TextEdit) : option Text :=
  foldl (λ after edit, after ≫= λ after,
    replace_range after (start (te_span edit)) (end_ (te_span edit)) (te_new_text edit))
    (Some source) (reverse file_edits).

Definition changed_file (plan : FixPlan) (entry : FileId * PlannedFile) : option PlannedChange :=
  after ← match bt_get (edits plan) entry.1 with
          | Some file_edits => apply_edits (pf_source entry.2) file_edits
          | None => Some (pf_source entry.2)
          end;
  Some {| pc_file := entry.1; before := pf_source entry.2; after := after |}.

(** [FixPlan::transformed_changes]; [None] is a panic. *)
Definition transformed_changes (plan : FixPlan) (sources : list (FileId * Text))
  : option (Result (list PlannedChange) FixPlanError) :=
  match validate_sources plan sources with
  | Err e => Some (Err e)
  | Ok _ => Ok <$> mapM (changed_file plan) (files plan)
  end.

(** [FixPlan::apply], [preview] and [check]. *)
Definition apply (plan : FixPlan) (sources : list (FileId * Text))
  : option (Result (list (FileId * Text)) FixPlanError) :=
  r ← transformed_changes plan sources;
  Some (let? changes := r in
        Ok (bt_of_list ((λ c, (pc_file c, after c)) <$> changes))).

Definition preview (plan : FixPlan) (sources : list (FileId * Text))
  : option (Result (list PlannedChange) FixPlanError) :=
  r ← transformed_changes plan sources;
  Some (let? changes := r in Ok (filter (λ c, before c ≠ after c) changes)).

Definition check (plan : FixPlan) (sources : list (FileId * Text)) : option (Result bool FixPlanError) :=
  r ← preview plan sources;
  Some (let? changes := r in
        Ok (negb (match changes with [] => true | _ => false end))).
End model.

Arguments TextEdit R : clear implicits.
Arguments Fix R : clear implicits.
Arguments Label R : clear implicits.
Arguments Diagnostic R : clear implicits.
Arguments FixPlan R : clear implicits.
Arguments FixPlanError R : clear implicits.
Arguments Candidate R : clear implicits.
Arguments AcceptedEdit R : clear implicits.
