(* ===== verification/FixPlanProps.v ===== *)
(** * Building and applying a fix plan

    What [FixPlan.build] accepts, the plan it returns, and what applying the
    plan does to the sources. *)

From stdpp Require Import sorting.
From S2P Require Import Prelude BTree Codes StableSort Utf8 StrOps FixPlan.

(** ** Lists of pairwise related elements *)

Lemma StronglySorted_perm {A} (R : A → A → Prop) `{!Symmetric R} (l k : list A) :
  l ≡ₚ k → StronglySorted R l → StronglySorted R k.
Proof.
  induction 1 as [|x l k Hp IH|x y l|l k m Hp1 IH1 Hp2 IH2]; [done| | |by auto].
  - inversion 1; subst. constructor; [by apply IH|by rewrite <-Hp].
  - inversion 1 as [|? ? Hs Hy]; subst. inversion Hs as [|? ? Hl Hx]; subst.
    apply Forall_cons in Hy as [Hyx Hyl]. constructor; [by constructor|].
    constructor; [by symmetry|done].
Qed.

Lemma StronglySorted_filter {A} (R : A → A → Prop) (P : A → Prop) `{!∀ x, Decision (P x)} l :
  StronglySorted R l → StronglySorted R (filter P l).
Proof.
  induction 1 as [|x l Hs IH Hf]; [constructor|]. rewrite filter_cons.
  destruct (decide (P x)); [|done]. constructor; [done|].
  rewrite Forall_forall in *. intros y [_ Hy]%list_elem_of_filter. by apply Hf.
Qed.

Lemma StronglySorted_impl {A} (R R' : A → A → Prop) l :
  (∀ x y, x ∈ l → y ∈ l → R x y → R' x y) → StronglySorted R l → StronglySorted R' l.
Proof.
  intros Himp Hs. induction Hs as [|x l Hs IH Hf]; constructor.
  - apply IH. intros y z ??. apply Himp; by right.
  - rewrite Forall_forall in *. intros y Hy. apply Himp; [by left|by right|by apply Hf].
Qed.

(** Two lists sorted by a transitive relation that is also pairwise true. *)
Lemma StronglySorted_and {A} (R R' : A → A → Prop) l :
  StronglySorted R l → StronglySorted R' l → StronglySorted (λ x y, R x y ∧ R' x y) l.
Proof.
  induction 1 as [|x l Hs IH Hf]; inversion 1; subst; constructor; [by auto|].
  by apply Forall_and.
Qed.

(** ** Ordered maps of lists *)

Lemma bt_push_sorted {X} (m : list (FileId * list X)) k x : bt_sorted m → bt_sorted (bt_push m k x).
Proof. apply bt_insert_sorted. Qed.

Lemma bt_get_push {X} (m : list (FileId * list X)) k x j :
  bt_sorted m →
  bt_get (bt_push m k x) j = if decide (j = k) then Some (default [] (bt_get m k) ++ [x]) else bt_get m j.
Proof.
  intros Hs. unfold bt_push. rewrite bt_get_insert by done. destruct (key_cmp j k) eqn:E.
  - apply key_cmp_eq in E. by rewrite decide_True.
  - rewrite decide_False; [done|]. intros ->. by rewrite key_cmp_refl in E.
  - rewrite decide_False; [done|]. intros ->. by rewrite key_cmp_refl in E.
Qed.

(** ** Edits of one file *)

Section edits.
Context {R : Type} `{TextRangeModel R}.
Implicit Types (e prior : TextEdit R) (es seen : list (TextEdit R)).

Lemma start_end e : start (te_span e) ≤ end_ (te_span e).
Proof. apply start_le_end. Qed.

(** One edit ends before the next starts; two insertions at one place are not
    ordered. *)
Definition precedes e e' : Prop :=
  end_ (te_span e) ≤ start (te_span e') ∧ ¬ (te_span e' = te_span e ∧ span_is_empty (te_span e') = true).

Definition precedesb e e' : bool :=
  negb ((start (te_span e') <? end_ (te_span e))
        || bool_decide (te_span e' = te_span e) && span_is_empty (te_span e')).

Lemma precedesb_spec e e' : precedesb e e' = true ↔ precedes e e'.
Proof.
  unfold precedesb, precedes. rewrite negb_true_iff, orb_false_iff, Nat.ltb_ge.
  destruct (decide (te_span e' = te_span e)).
  - rewrite bool_decide_true by done. simpl. rewrite <-not_true_iff_false. tauto.
  - rewrite bool_decide_false by done. simpl. tauto.
Qed.

Lemma same_span e e' :
  start (te_span e) = start (te_span e') → end_ (te_span e) = end_ (te_span e') →
  te_span e = te_span e'.
Proof. apply range_ext. Qed.

#[local] Instance precedes_trans : Transitive precedes.
Proof.
  intros e1 e2 e3 [H12 Hn12] [H23 Hn23].
  pose proof (start_end e1). pose proof (start_end e2). pose proof (start_end e3).
  split; [lia|]. intros [Heq Hemp]. apply Hn12. rewrite span_is_empty_spec in *. apply Nat.eqb_eq in Hemp.
  rewrite Heq in *. split; [apply same_span; lia|apply Nat.eqb_eq; lia].
Qed.

Lemma precedes_asym e e' : precedes e e' → precedes e' e → False.
Proof.
  intros [H1 Hn1] [H2 Hn2]. pose proof (start_end e). pose proof (start_end e').
  apply Hn1. rewrite span_is_empty_spec. split; [apply same_span; lia|apply Nat.eqb_eq; lia].
Qed.

(** Two edits do not overlap exactly when one precedes the other. *)
Lemma edits_overlap_false e e' : edits_overlap e e' = false ↔ precedes e e' ∨ precedes e' e.
Proof.
  unfold edits_overlap, precedes. rewrite !span_is_empty_spec. pose proof (start_end e). pose proof (start_end e').
  rewrite orb_false_iff, andb_false_iff, !Nat.ltb_ge.
  destruct (decide (te_span e = te_span e')) as [Heq|Hne].
  - rewrite bool_decide_true, Heq by done. simpl. rewrite Nat.eqb_neq, Nat.eqb_eq.
    rewrite Heq in *. split; [intros [? ?]; exfalso; lia|]. intros [[? Hn]|[? Hn]]; exfalso;
      apply Hn; split; auto; lia.
  - rewrite bool_decide_false by done. split.
    + intros [[?|?] _]; [right|left]; (split; [lia|]); intros [? _]; congruence.
    + intros [[? _]|[? _]]; split; auto.
Qed.

Lemma edits_overlap_sym e e' : edits_overlap e e' = false → edits_overlap e' e = false.
Proof. rewrite !edits_overlap_false. tauto. Qed.

(** Edits of different files never compete. *)
Definition compatible e e' : Prop := te_file e = te_file e' → edits_overlap e e' = false.

#[local] Instance compatible_sym : Symmetric compatible.
Proof. intros e e' Hc Hf. by apply edits_overlap_sym, Hc. Qed.

(** In the order of their spans, edits that do not overlap precede one another. *)
Lemma precedes_of_key e e' : edits_overlap e e' = false → key_le span_key e e' → precedes e e'.
Proof.
  intros [Hp|[Hle Hn]]%edits_overlap_false Hk; [done|]. exfalso. apply Hk.
  pose proof (start_end e). pose proof (start_end e'). unfold span_key. rewrite key_cmp_pair.
  unfold key_cmp, nat_ord.
  destruct (Nat.compare_spec (start (te_span e)) (start (te_span e'))) as [Hs|?|?]; [|lia|done].
  apply Nat.compare_gt_iff.
  assert (end_ (te_span e') = start (te_span e')) as He by lia. rewrite He.
  destruct (decide (end_ (te_span e) = start (te_span e'))); [|lia].
  exfalso. apply Hn. rewrite span_is_empty_spec. split; [apply same_span; lia|apply Nat.eqb_eq; lia].
Qed.

Definition of_file (f : FileId) (es : list (TextEdit R)) : list (TextEdit R) :=
  filter (λ e, te_file e = f) es.

(** Sorting the edits of a file gives the list in which each precedes the
    following ones, and there is only one. *)
Lemma sort_precedes f es :
  StronglySorted compatible es → StronglySorted precedes (sort_by_key span_key (of_file f es)).
Proof.
  intros Hc. pose proof (sort_by_key_sorted span_key (of_file f es)) as Hk.
  pose proof (sort_by_key_perm span_key (of_file f es)) as Hp.
  assert (StronglySorted compatible (sort_by_key span_key (of_file f es))) as Hc'.
  { eapply StronglySorted_perm; [by apply _|by symmetry|]. by apply StronglySorted_filter. }
  eapply StronglySorted_impl; [|by apply (StronglySorted_and _ _ _ Hc' Hk)].
  intros e e' He He' [Hcc Hkk]. apply precedes_of_key; [|done]. apply Hcc.
  rewrite Hp in He, He'. apply list_elem_of_filter in He as [-> _]. by apply list_elem_of_filter in He' as [-> _].
Qed.

Lemma precedes_unique es es' :
  StronglySorted precedes es → StronglySorted precedes es' → es ≡ₚ es' → es = es'.
Proof.
  apply StronglySorted_unique_strong. intros e e' _ _ ??. exfalso. by apply (precedes_asym e e').
Qed.

(** Grouping by file. *)
Definition group (m : list (FileId * list (TextEdit R))) es : list (FileId * list (TextEdit R)) :=
  foldl (λ m e, bt_push m (te_file e) e) m es.

Lemma group_sorted m es : bt_sorted m → bt_sorted (group m es).
Proof. revert m. induction es as [|e es IH]; intros m Hm; simpl; auto using bt_push_sorted. Qed.

Lemma group_get m es f :
  bt_sorted m →
  bt_get (group m es) f =
    match of_file f es with
    | [] => bt_get m f
    | l => Some (default [] (bt_get m f) ++ l)
    end.
Proof.
  revert m. induction es as [|e es IH]; intros m Hm; simpl; [done|].
  rewrite IH by auto using bt_push_sorted. rewrite bt_get_push by done.
  unfold of_file. rewrite filter_cons. destruct (decide (te_file e = f)) as [<-|Hne].
  - rewrite decide_True by done. fold (of_file (te_file e) es).
    destruct (of_file (te_file e) es); simpl; [done|]. by rewrite <-(assoc_L (++)).
  - rewrite decide_False by congruence. done.
Qed.

Lemma group_get_default es f : default [] (bt_get (group [] es) f) = of_file f es.
Proof. rewrite group_get by apply bt_nil_sorted. simpl. by destruct (of_file f es). Qed.
End edits.

#[export] Hint Resolve bt_push_sorted group_sorted : core.
#[export] Existing Instances precedes_trans compatible_sym.

(** ** Validation *)

Section validation.
Context {R : Type} `{TextRangeModel R}.
Implicit Types (e : TextEdit R) (es seen : list (TextEdit R)).

(** An edit of a supplied file, within its source and between characters. *)
Definition edit_in_source (files : list (FileId * PlannedFile)) e : Prop :=
  ∃ snapshot, bt_get files (te_file e) = Some snapshot ∧
    end_ (te_span e) ≤ length (pf_source snapshot) ∧
    is_char_boundary (pf_source snapshot) (start (te_span e)) = true ∧
    is_char_boundary (pf_source snapshot) (end_ (te_span e)) = true.

Lemma validate_spans_spec title files m es :
  (Forall (edit_in_source files) es ∧ validate_spans title files m es = Ok (group m es)) ∨
  (¬ Forall (edit_in_source files) es ∧ is_ok (validate_spans title files m es) = false).
Proof.
  revert m. induction es as [|e es IH]; intros m; simpl; [left; by split|].
  destruct (bt_get files (te_file e)) as [snap|] eqn:E.
  2: { right. split; [|done]. intros [(s & Hs & _) _]%Forall_cons. congruence. }
  pose proof (start_le_end (te_span e)) as Hle.
  destruct ((length (pf_source snap) <? start (te_span e)) || (length (pf_source snap) <? end_ (te_span e))) eqn:Eb.
  { right. split; [|done]. intros [(s & Hs & Hb & _) _]%Forall_cons.
    rewrite orb_true_iff, !Nat.ltb_lt in Eb. simplify_eq. lia. }
  rewrite orb_false_iff, !Nat.ltb_ge in Eb.
  destruct (_ || _) eqn:Ec.
  { right. split; [|done]. intros [(s & Hs & _ & Hb1 & Hb2) _]%Forall_cons. simplify_eq.
    by rewrite Hb1, Hb2 in Ec. }
  rewrite orb_false_iff, !negb_false_iff in Ec. destruct Ec as [Hb1 Hb2].
  destruct (IH (bt_push m (te_file e) e)) as [[Hf ->]|[Hf He]]; [left|right]; (split; [|done]).
  - constructor; [|done]. exists snap. split_and!; [done|lia|done|done].
  - by intros [_ ?]%Forall_cons.
Qed.

Lemma validate_order_ok title file prev es :
  is_ok (validate_order title file prev es) = true ↔
  Sorted precedes (match prev with Some p => p :: es | None => es end).
Proof.
  revert prev. induction es as [|e es IH]; intros prev; simpl.
  { destruct prev; split; auto using Sorted_cons. }
  destruct prev as [p|]; [|by rewrite IH].
  pose proof (precedesb_spec p e) as Hpb. unfold precedesb in Hpb.
  destruct (_ || _); simpl in *.
  - split; [done|]. intros Hs. apply Sorted_inv in Hs as [_ Hh]. inversion Hh; subst. tauto.
  - rewrite IH. split; [intros Hs; constructor; [done|]; constructor; tauto|].
    by intros [? _]%Sorted_inv.
Qed.

Lemma validate_orders_ok title m :
  is_ok (validate_orders title m) = true ↔ Forall (λ x, StronglySorted precedes x.2) m.
Proof.
  induction m as [|[f es] m IH]; simpl; [by split|]. rewrite Forall_cons, <-IH. simpl.
  assert (is_ok (validate_order title f None es) = true ↔ StronglySorted precedes es) as <-.
  { rewrite validate_order_ok. split; [intros Hs; apply Sorted_StronglySorted; [apply _|done]|apply StronglySorted_Sorted]. }
  destruct (validate_order title f None es); simpl; [tauto|]. split; [done|by intros []].
Qed.

(** [validate_fix] accepts the edits that lie in their sources and, file by
    file, are in strictly increasing order. *)
Definition edits_valid (files : list (FileId * PlannedFile)) es : Prop :=
  Forall (edit_in_source files) es ∧ ∀ f, StronglySorted precedes (of_file f es).

Lemma validate_fix_ok title files es :
  is_ok (validate_fix title files es) = true ↔ edits_valid files es.
Proof.
  unfold validate_fix, edits_valid.
  destruct (validate_spans_spec title files [] es) as [[Hf ->]|[Hf He]]; simpl.
  2: { destruct (validate_spans title files [] es); [done|]. split; [done|by intros [? _]]. }
  rewrite validate_orders_ok, Forall_forall.
  assert (bt_sorted (group [] es)) as Hs by (apply group_sorted, bt_nil_sorted).
  split.
  - intros Hall. split; [done|]. intros f. rewrite <-group_get_default.
    destruct (bt_get (group [] es) f) as [l|] eqn:E; [|constructor].
    apply (Hall (f, l)). by apply bt_get_elem.
  - intros [_ Hall] [f l] Hin. apply bt_get_elem in Hin; [|done]. simpl.
    specialize (Hall f). rewrite <-group_get_default, Hin in Hall. done.
Qed.

(** The fixes [build] selects. *)
Definition selected (ds : list (Diagnostic R)) : list (Fix R) :=
  filter (λ x, fix_applicability x = MachineApplicable) (omap diag_fix ds).

Definition fix_ok (files : list (FileId * PlannedFile)) (x : Fix R) : Prop :=
  permits_machine_application (fix_provenance x) = true ∧ fix_edits x ≠ [] ∧
  edits_valid files (fix_edits x).

Definition candidate_of (x : Fix R) : Candidate R :=
  {| cand_title := fix_title x; cand_edits := fix_edits x |}.

Lemma collect_candidates_spec files cs ds :
  (Forall (fix_ok files) (selected ds) ∧
   collect_candidates files cs ds = Ok (cs ++ (candidate_of <$> selected ds))) ∨
  (¬ Forall (fix_ok files) (selected ds) ∧ is_ok (collect_candidates files cs ds) = false).
Proof.
  unfold selected. revert cs. induction ds as [|d ds IH]; intros cs; simpl; [left; by rewrite app_nil_r|].
  destruct (diag_fix d) as [x|]; [|apply IH]. simpl. rewrite filter_cons.
  destruct (fix_applicability x); [|by apply IH..]. rewrite decide_True by done.
  rewrite Forall_cons. unfold fix_ok at 1 3.
  destruct (permits_machine_application (fix_provenance x)); simpl; [|right; split; [by intros [[]]|done]].
  destruct (fix_edits x) as [|e es] eqn:Ee; [right; split; [by intros [(_&?&_) _]|done]|].
  pose proof (validate_fix_ok (fix_title x) files (e :: es)) as Hv.
  destruct (validate_fix (fix_title x) files (e :: es)) as [[]|err]; simpl in *.
  2: { right. split; [|done]. intros [(_&_&Hv') _]. apply Hv in Hv'. done. }
  destruct (IH (cs ++ [{| cand_title := fix_title x; cand_edits := e :: es |}])) as [[Hf ->]|[Hf He]].
  - left. split; [split; [|done]; by split_and!; [..|apply Hv]|].
    rewrite <-(assoc_L (++)). simpl. unfold candidate_of. by rewrite Ee.
  - right. split; [tauto|done].
Qed.

(** ** Acceptance *)

(** After the edits [seen], both maps hold them by file. *)
Definition accepted_seen (accepted : list (FileId * list (AcceptedEdit R))) seen : Prop :=
  bt_sorted accepted ∧ ∀ f, acc_edit <$> default [] (bt_get accepted f) = of_file f seen.

Lemma accepted_seen_entry accepted seen f :
  accepted_seen accepted seen → accepted_seen (bt_or_insert accepted f []) seen.
Proof.
  intros [Hs Hget]. split; [by apply bt_or_insert_sorted|]. intros g. unfold bt_or_insert.
  destruct (bt_get accepted f) as [l|] eqn:E; [by apply Hget|].
  rewrite bt_get_insert by done. destruct (key_cmp g f) eqn:Ec; [|by apply Hget..].
  apply key_cmp_eq in Ec as ->. rewrite <-Hget, E. done.
Qed.

Lemma accepted_seen_push accepted seen title e :
  accepted_seen accepted seen →
  accepted_seen (bt_push accepted (te_file e) {| acc_title := title; acc_edit := e |}) (seen ++ [e]).
Proof.
  intros [Hs Hget]. split; [by apply bt_push_sorted|]. intros g. rewrite bt_get_push by done.
  unfold of_file in *. rewrite filter_app, filter_cons. simpl.
  destruct (decide (g = te_file e)) as [->|].
  - rewrite decide_True by done. simpl. by rewrite fmap_app, Hget.
  - rewrite decide_False by done. rewrite Hget. by rewrite app_nil_r.
Qed.

(** The search of the code finds a competing edit when there is one. *)
Lemma find_overlap accepted seen e :
  accepted_seen accepted seen →
  match List.find (λ prior, edits_overlap (acc_edit prior) e) (default [] (bt_get accepted (te_file e))) with
  | Some _ => ¬ Forall (λ e', compatible e' e) seen
  | None => Forall (λ e', compatible e' e) seen
  end.
Proof.
  intros [_ Hget]. specialize (Hget (te_file e)).
  destruct (List.find _ _) as [p|] eqn:E.
  - apply find_some in E as [Hin Ho]. rewrite Forall_forall. intros Hall.
    assert (acc_edit p ∈ of_file (te_file e) seen) as Hp.
    { rewrite <-Hget. apply list_elem_of_fmap. exists p. split; [done|]. by apply list_elem_of_In. }
    apply list_elem_of_filter in Hp as [Hf Hp]. specialize (Hall _ Hp Hf). congruence.
  - apply Forall_forall. intros e' He' Hf. assert (e' ∈ of_file (te_file e) seen) as Hp.
    { by apply list_elem_of_filter. }
    rewrite <-Hget in Hp. apply list_elem_of_fmap in Hp as (p & -> & Hp).
    apply (find_none _ _ E). by apply list_elem_of_In.
Qed.

Lemma accept_edits_spec title m accepted seen es :
  accepted_seen accepted seen → StronglySorted compatible seen →
  (StronglySorted compatible (seen ++ es) ∧
   ∃ accepted', accept_edits title m accepted es = Ok (group m es, accepted') ∧
     accepted_seen accepted' (seen ++ es)) ∨
  (¬ StronglySorted compatible (seen ++ es) ∧ is_ok (accept_edits title m accepted es) = false).
Proof.
  revert m accepted seen. induction es as [|e es IH]; intros m accepted seen Hacc Hs; simpl.
  { left. rewrite app_nil_r. split; [done|]. by eexists. }
  pose proof (accepted_seen_entry accepted seen (te_file e) Hacc) as Hacc'.
  pose proof (find_overlap _ _ e Hacc') as Hfind.
  destruct (List.find _ _) as [p|].
  - right. split; [|done]. intros Hc. apply Hfind. apply StronglySorted_app in Hc as (Hc & _ & _).
    apply Forall_forall. intros e' He'. apply Hc; [done|by left].
  - replace (seen ++ e :: es) with ((seen ++ [e]) ++ es) by by rewrite <-(assoc_L (++)).
    apply IH; [by apply accepted_seen_push|].
    apply StronglySorted_app. split_and!; [|done|by repeat constructor].
    intros x y Hx ->%list_elem_of_singleton. rewrite Forall_forall in Hfind. by apply Hfind.
Qed.

Lemma accept_candidates_spec m accepted seen cs :
  accepted_seen accepted seen → StronglySorted compatible seen →
  (StronglySorted compatible (seen ++ concat (cand_edits <$> cs)) ∧
   accept_candidates m accepted cs = Ok (group m (concat (cand_edits <$> cs)))) ∨
  (¬ StronglySorted compatible (seen ++ concat (cand_edits <$> cs)) ∧
   is_ok (accept_candidates m accepted cs) = false).
Proof.
  revert m accepted seen. induction cs as [|c cs IH]; intros m accepted seen Hacc Hs; simpl.
  { left. by rewrite app_nil_r. }
  unfold group at 1. rewrite foldl_app. fold (group m (cand_edits c)).
  rewrite (assoc_L (++)).
  destruct (accept_edits_spec (cand_title c) m accepted seen (cand_edits c) Hacc Hs)
    as [(Hc & acc' & -> & Hacc')|[Hc He]]; simpl.
  - by apply IH.
  - right. split; [|by destruct (accept_edits _ _ _ _)].
    intros Hcc. apply Hc. apply StronglySorted_app in Hcc. tauto.
Qed.
End validation.

(** * The guarantees of a fix plan

    When [build] succeeds and with which plan, and that [apply] performs exactly
    the selected edits: it does not panic, it splices the replacements into the
    analysed sources, and it refuses any other source. *)

(** The left-to-right reading of a list of replacements: [source] from [pos] on,
    with each range replaced. *)
Fixpoint splice {R} `{TextRangeModel R} (source : Text) (pos : nat) (es : list (TextEdit R)) : Text :=
  match es with
  | [] => drop pos source
  | e :: es =>
      take (start (te_span e) - pos) (drop pos source) ++ te_new_text e
      ++ splice source (end_ (te_span e)) es
  end.

Section props.
Context {R : Type} `{TextRangeModel R}.
Implicit Types (e : TextEdit R) (es : list (TextEdit R)).

(** ** Application *)

Lemma apply_edits_cons source e es :
  apply_edits source (e :: es) =
    (after ← apply_edits source es;
     replace_range after (start (te_span e)) (end_ (te_span e)) (te_new_text e)).
Proof. unfold apply_edits. by rewrite reverse_cons, foldl_app. Qed.

(** An edit that ends within the source and cuts it between characters. *)
Definition in_text (source : Text) e : Prop :=
  end_ (te_span e) ≤ length source ∧
  is_char_boundary source (start (te_span e)) = true ∧
  is_char_boundary source (end_ (te_span e)) = true.

Lemma replace_range_prefix source X e :
  in_text source e → utf8 X →
  replace_range (take (end_ (te_span e)) source ++ X)
    (start (te_span e)) (end_ (te_span e)) (te_new_text e) =
  Some (take (start (te_span e)) source ++ te_new_text e ++ X).
Proof.
  intros (Hlen & Hbs & Hbe) HX. pose proof (start_le_end (te_span e)) as Hle.
  assert (length (take (end_ (te_span e)) source) = end_ (te_span e)) as Hl
    by (rewrite length_take; lia).
  unfold replace_range. rewrite length_app, Hl.
  rewrite (proj2 (Nat.leb_le _ _) Hle), (proj2 (Nat.leb_le _ _)) by lia. simpl.
  assert (is_char_boundary (take (end_ (te_span e)) source ++ X) (end_ (te_span e)) = true) as Hb.
  { rewrite <-Hl at 2. by apply boundary_app. }
  assert (is_char_boundary (take (end_ (te_span e)) source ++ X) (start (te_span e)) = true) as ->.
  { destruct (decide (start (te_span e) = end_ (te_span e))) as [->|]; [done|].
    rewrite boundary_prefix by lia. apply boundary_take; [lia|done|done]. }
  rewrite Hb. simpl. f_equal. rewrite take_app_le by lia.
  rewrite take_take, Nat.min_l by lia. by rewrite drop_app_length' by lia.
Qed.

(** Applying ordered edits last first is splicing them first to last. *)
Lemma apply_edits_splice source es pos :
  utf8 source → Forall (in_text source) es → Forall (λ e, utf8 (te_new_text e)) es →
  StronglySorted precedes es →
  pos ≤ length source → is_char_boundary source pos = true →
  Forall (λ e, pos ≤ start (te_span e)) es →
  apply_edits source es = Some (take pos source ++ splice source pos es) ∧
  utf8 (splice source pos es).
Proof.
  intros Hu. revert pos. induction es as [|e es IH]; intros pos Hin Hnew Hs Hpos Hb Hge; simpl.
  { split; [by rewrite take_drop|]. by apply utf8_split. }
  apply Forall_cons in Hin as [He Hin], Hnew as [Hn Hnew], Hge as [Hp Hge].
  inversion Hs as [|? ? Hs' Hprec]; subst. pose proof He as (Hlen & Hbs & Hbe).
  pose proof (start_le_end (te_span e)) as Hle.
  destruct (IH (end_ (te_span e))) as [Ha Hx]; [done..| |].
  { eapply Forall_impl; [exact Hprec|]. by intros e' [? _]. }
  rewrite apply_edits_cons, Ha. simpl. rewrite replace_range_prefix by done.
  split.
  - f_equal. rewrite (assoc_L (++) (take pos source)), take_take_drop.
    do 2 f_equal. lia.
  - assert (utf8 (drop pos (take (start (te_span e)) source))) as Hmid.
    { apply utf8_split; [apply utf8_split; [done|lia|done]|rewrite length_take; lia|].
      apply boundary_take; [done|lia|done]. }
    rewrite take_drop_commute, Nat.add_comm, Nat.sub_add by done.
    by repeat apply utf8_app.
Qed.

(** The new text of one file under a plan. *)
Definition new_source (plan : FixPlan R) (entry : FileId * PlannedFile) : Text :=
  splice (pf_source entry.2) 0 (default [] (bt_get (edits plan) entry.1)).

(** A plan whose edits are ordered and fit their sources. *)
Record plan_wf (plan : FixPlan R) : Prop := {
  wf_files : bt_sorted (files plan);
  wf_edits : ∀ f es, bt_get (edits plan) f = Some es →
    StronglySorted precedes es ∧ Forall (λ e, te_file e = f) es ∧
    ∃ x, bt_get (files plan) f = Some x ∧ Forall (in_text (pf_source x)) es;
}.

(** The strings of a plan hold well-formed UTF-8. *)
Definition plan_utf8 (plan : FixPlan R) : Prop :=
  (∀ f x, bt_get (files plan) f = Some x → utf8 (pf_source x)) ∧
  (∀ f es, bt_get (edits plan) f = Some es → Forall (λ e, utf8 (te_new_text e)) es).

Lemma changed_file_some plan entry :
  plan_wf plan → plan_utf8 plan → entry ∈ files plan →
  changed_file plan entry =
    Some {| pc_file := entry.1; before := pf_source entry.2; after := new_source plan entry |} ∧
  utf8 (new_source plan entry).
Proof.
  intros [Hwf Hedits] [Huf Hue] Hin. destruct entry as [f x]. simpl.
  apply bt_get_elem in Hin; [|done]. unfold changed_file, new_source. simpl.
  destruct (bt_get (edits plan) f) as [es|] eqn:E; simpl; [|by eauto].
  destruct (Hedits _ _ E) as (Hs & _ & x' & Hx' & Hfit). simplify_eq.
  destruct (apply_edits_splice (pf_source x) es 0) as [Ha Hu']; [by eauto..|lia|done| |].
  { apply Forall_forall. lia. }
  by rewrite Ha.
Qed.

Lemma mapM_total {A B} (f : A → option B) (g : A → B) l :
  (∀ x, x ∈ l → f x = Some (g x)) → mapM f l = Some (g <$> l).
Proof.
  induction l as [|x l IH]; intros Hf; simpl; [done|].
  rewrite Hf by (by left). simpl. rewrite IH; [done|]. intros y Hy. apply Hf. by right.
Qed.

(** The sources are the analysed ones, file for file. *)
Definition sources_match (plan : FixPlan R) (sources : list (FileId * Text)) : Prop :=
  ∀ f, bt_get sources f = pf_source <$> bt_get (files plan) f.

Lemma stale_source_spec (sources : list (FileId * Text)) (fs : list (FileId * PlannedFile)) :
  match stale_source (R := R) sources fs with
  | Ok _ => ∀ f x, (f, x) ∈ fs → bt_get sources f = Some (pf_source x)
  | Err e => ∃ f x, e = StaleSource f ∧ (f, x) ∈ fs ∧ bt_get sources f ≠ Some (pf_source x)
  end.
Proof.
  induction fs as [|[f x] fs IH]; simpl; [by intros ? ? ?%not_elem_of_nil|].
  case_bool_decide as Hd.
  - destruct (stale_source sources fs) as [[]|e].
    + intros g y [[= -> ->]|?]%elem_of_cons; auto.
    + destruct IH as (g & y & -> & Hin & Hne). exists g, y. split_and!; [done|by right|done].
  - exists f, x. split_and!; [done|by left|done].
Qed.

(** The check of the sources before anything is produced. *)
Lemma validate_sources_spec plan sources :
  bt_sorted (files plan) → bt_sorted sources →
  match validate_sources plan sources with
  | Ok _ => sources_match plan sources
  | Err e => ¬ sources_match plan sources ∧
      ((∃ f, e = UnexpectedSource f ∧ is_Some (bt_get sources f) ∧ bt_get (files plan) f = None) ∨
       (∃ f x, e = StaleSource f ∧ bt_get (files plan) f = Some x ∧ bt_get sources f ≠ Some (pf_source x)))
  end.
Proof.
  intros Hf Hs. unfold validate_sources. destruct (List.find _ _) as [f|] eqn:E.
  - apply find_some in E as [Hin%list_elem_of_In Hn%bool_decide_eq_true].
    apply bt_get_is_Some in Hin; [|done].
    split; [|by eauto 6]. intros Hm. rewrite Hm, Hn in Hin. by destruct Hin.
  - pose proof (stale_source_spec sources (files plan)) as Hst.
    destruct (stale_source sources (files plan)) as [[]|e].
    + intros f. destruct (bt_get (files plan) f) as [x|] eqn:Ef; simpl.
      * apply Hst. by apply bt_get_elem.
      * destruct (bt_get sources f) as [t|] eqn:Es; [|done]. exfalso.
        assert (f ∈ sources.*1) as Hin by (by apply bt_get_is_Some; [|rewrite Es]).
        apply list_elem_of_In in Hin. pose proof (find_none _ _ E f Hin) as Hd.
        by apply bool_decide_eq_false in Hd.
    + destruct Hst as (f & x & -> & Hin & Hne). apply bt_get_elem in Hin; [|done].
      split; [|by eauto 6]. intros Hm. apply Hne. by rewrite Hm, Hin.
Qed.

(** ** Building *)

(** The snapshots as a map. *)
Definition files_map (fs : list PlannedFile) : list (FileId * PlannedFile) :=
  bt_of_list ((λ x, (pf_file x, x)) <$> fs).

Lemma files_by_id_spec acc fs :
  bt_sorted acc →
  (NoDup (pf_file <$> fs) ∧ (∀ x, x ∈ fs → bt_get acc (pf_file x) = None) ∧
   files_by_id (R := R) acc fs =
     Ok (foldl (λ m '(k, v), bt_insert m k v) acc ((λ x, (pf_file x, x)) <$> fs))) ∨
  (¬ (NoDup (pf_file <$> fs) ∧ ∀ x, x ∈ fs → bt_get acc (pf_file x) = None) ∧
   is_ok (files_by_id (R := R) acc fs) = false).
Proof.
  revert acc. induction fs as [|x fs IH]; intros acc Hs; simpl.
  { left. split_and!; [constructor| |done]. by intros ? ?%not_elem_of_nil. }
  destruct (bt_get acc (pf_file x)) as [y|] eqn:E.
  { right. split; [|done]. intros [_ Hx]. by rewrite (Hx x) in E by (by left). }
  assert (∀ y, bt_get (bt_insert acc (pf_file x) x) (pf_file y) = None ↔
    pf_file y ≠ pf_file x ∧ bt_get acc (pf_file y) = None) as Hget.
  { intros y. rewrite bt_get_insert by done. destruct (key_cmp (pf_file y) (pf_file x)) eqn:Ec.
    - apply key_cmp_eq in Ec. split; [done|by intros []].
    - split; [|tauto]. split; [|done]. intros Heq. by rewrite Heq, key_cmp_refl in Ec.
    - split; [|tauto]. split; [|done]. intros Heq. by rewrite Heq, key_cmp_refl in Ec. }
  rewrite NoDup_cons.
  destruct (IH (bt_insert acc (pf_file x) x)) as [(Hn & Hall & ->)|[Hn He]];
    [by apply bt_insert_sorted|left|right]; split_and!; [|done| |done| |done].
  - intros (y & Hy & Hin)%list_elem_of_fmap. apply Hall, Hget in Hin as [? _]. congruence.
  - intros y [->|Hy]%elem_of_cons; [done|]. by apply Hall, Hget in Hy as [_ ?].
  - intros [[Hnx Hnd] Hall]. apply Hn. split; [done|]. intros y Hy. apply Hget.
    split; [|apply Hall; by right]. intros Heq. apply Hnx. apply list_elem_of_fmap. eauto.
Qed.

Lemma files_map_get fs f x :
  NoDup (pf_file <$> fs) → bt_get (files_map fs) f = Some x ↔ x ∈ fs ∧ pf_file x = f.
Proof.
  intros Hn. unfold files_map, bt_of_list.
  assert (∀ acc, bt_sorted acc → (∀ y, y ∈ fs → bt_get acc (pf_file y) = None) →
    bt_get (foldl (λ m '(k, v), bt_insert m k v) acc ((λ x, (pf_file x, x)) <$> fs)) f = Some x ↔
    (x ∈ fs ∧ pf_file x = f) ∨ bt_get acc f = Some x) as Hgen.
  2: { rewrite Hgen; [simpl; by split; [intros [?|]|auto]|apply bt_nil_sorted|done]. }
  induction fs as [|y fs IH]; intros acc Hs Hacc; simpl.
  { split; [by right|]. by intros [[?%not_elem_of_nil _]|?]. }
  apply NoDup_cons in Hn as [Hny Hn]. rewrite IH; [|done|by apply bt_insert_sorted|].
  - rewrite bt_get_insert, elem_of_cons by done. destruct (key_cmp f (pf_file y)) eqn:Ec.
    + apply key_cmp_eq in Ec as ->. rewrite Hacc by (by left). split.
      * intros [[? ?]|[= ->]]; auto.
      * intros [[[->|?] ?]|?]; simplify_eq; auto.
    + split; [intros [[? ?]|?]; auto|]. intros [[[->|?] <-]|?]; auto. by rewrite key_cmp_refl in Ec.
    + split; [intros [[? ?]|?]; auto|]. intros [[[->|?] <-]|?]; auto. by rewrite key_cmp_refl in Ec.
  - intros z Hz. rewrite bt_get_insert by done. destruct (key_cmp (pf_file z) (pf_file y)) eqn:Ec.
    + apply key_cmp_eq in Ec. destruct Hny. rewrite <-Ec. apply list_elem_of_fmap. eauto.
    + apply Hacc. by right.
    + apply Hacc. by right.
Qed.

Lemma files_map_sorted fs : bt_sorted (files_map fs).
Proof. apply bt_of_list_sorted. Qed.

(** The edits the selected fixes ask for. *)
Definition selected_edits (ds : list (Diagnostic R)) : list (TextEdit R) :=
  concat (fix_edits <$> selected ds).

(** What [build] accepts: one snapshot per file, selected fixes that may be
    applied automatically, have edits, and whose edits fit their sources in
    increasing order; and no two selected edits compete. *)
Definition buildable (fs : list PlannedFile) (ds : list (Diagnostic R)) : Prop :=
  NoDup (pf_file <$> fs) ∧ Forall (fix_ok (files_map fs)) (selected ds) ∧
  StronglySorted compatible (selected_edits ds).

(** The plan it returns: the edits of every file in the order of their spans. *)
Definition sorted_groups es : list (FileId * list (TextEdit R)) :=
  prod_map id (sort_by_key span_key) <$> group [] es.

Definition plan_of (fs : list PlannedFile) (ds : list (Diagnostic R)) : FixPlan R :=
  {| files := files_map fs; edits := sorted_groups (selected_edits ds) |}.

Lemma sorted_groups_get es f :
  bt_get (sorted_groups es) f =
    match of_file f es with [] => None | l => Some (sort_by_key span_key l) end.
Proof.
  unfold sorted_groups. rewrite bt_get_map, group_get by apply bt_nil_sorted. simpl.
  by destruct (of_file f es).
Qed.

Lemma sorted_groups_default es f :
  default [] (bt_get (sorted_groups es) f) = sort_by_key span_key (of_file f es).
Proof. rewrite sorted_groups_get. by destruct (of_file f es). Qed.

(** Edits that do not compete are planned alike in whatever order they come. *)
Lemma sorted_groups_perm es es' :
  es ≡ₚ es' → StronglySorted compatible es → sorted_groups es = sorted_groups es'.
Proof.
  intros Hp Hc. apply bt_ext.
  1,2: apply bt_sorted_map, group_sorted, bt_nil_sorted.
  intros f. rewrite !sorted_groups_get.
  assert (of_file f es ≡ₚ of_file f es') as Hpf by (unfold of_file; by rewrite Hp).
  assert (sort_by_key span_key (of_file f es) = sort_by_key span_key (of_file f es')) as Heq.
  { apply precedes_unique; [by apply sort_precedes| |].
    - apply sort_precedes. eapply StronglySorted_perm; [apply _|exact Hp|done].
    - by rewrite !sort_by_key_perm. }
  destruct (of_file f es) as [|a l] eqn:E1, (of_file f es') as [|b l'] eqn:E2; [done| | |].
  - by apply Permutation_nil_cons in Hpf.
  - symmetry in Hpf. by apply Permutation_nil_cons in Hpf.
  - by f_equal.
Qed.

Lemma build_spec fs ds :
  (buildable fs ds ∧ build fs ds = Ok (plan_of fs ds)) ∨
  (¬ buildable fs ds ∧ is_ok (build fs ds) = false).
Proof.
  unfold buildable, build.
  destruct (files_by_id_spec [] fs bt_nil_sorted) as [(Hn & _ & ->)|[Hn He]].
  2: { right. split; [|by destruct (files_by_id [] fs)]. intros (Hn' & _). apply Hn. by split. }
  fold (bt_of_list ((λ x, (pf_file x, x)) <$> fs)). fold (files_map fs). simpl.
  destruct (collect_candidates_spec (files_map fs) [] ds) as [[Hf ->]|[Hf He]].
  2: { right. split; [tauto|]. by destruct (collect_candidates _ _ _). }
  simpl. set (cs := sort_by_key first_key (candidate_of <$> selected ds)).
  assert (concat (cand_edits <$> cs) ≡ₚ selected_edits ds) as Hp.
  { unfold cs, selected_edits. rewrite sort_by_key_perm, <-list_fmap_compose. done. }
  assert (accepted_seen (R := R) [] []) as Hacc by (split; [apply bt_nil_sorted|done]).
  destruct (accept_candidates_spec [] [] [] cs Hacc) as [[Hc ->]|[Hc He]]; [constructor| |]; simpl in Hc.
  - left. split.
    + split_and!; [done..|]. eapply StronglySorted_perm; [apply _|exact Hp|done].
    + simpl. unfold plan_of. do 2 f_equal. by apply sorted_groups_perm.
  - right. split; [|by destruct (accept_candidates _ _ _)]. intros (_ & _ & Hs). apply Hc.
    eapply StronglySorted_perm; [apply _|symmetry; exact Hp|done].
Qed.

Lemma plan_build_ok fs ds plan : build fs ds = Ok plan ↔ buildable fs ds ∧ plan = plan_of fs ds.
Proof.
  destruct (build_spec fs ds) as [[Hb ->]|[Hb He]].
  - split; [by intros [= <-]|by intros [_ ->]].
  - split; [|tauto]. intros Hok. by rewrite Hok in He.
Qed.

Lemma plan_of_wf fs ds : buildable fs ds → plan_wf (plan_of fs ds).
Proof.
  intros (Hn & Hf & Hc). split; [apply files_map_sorted|]. simpl. intros f es Hget.
  assert (es = sort_by_key span_key (of_file f (selected_edits ds)) ∧ of_file f (selected_edits ds) ≠ [])
    as [-> Hne].
  { rewrite sorted_groups_get in Hget. destruct (of_file f (selected_edits ds)); by simplify_eq. }
  assert (Forall (λ e, te_file e = f ∧ edit_in_source (files_map fs) e)
    (sort_by_key span_key (of_file f (selected_edits ds)))) as Hall.
  { rewrite sort_by_key_perm. apply Forall_forall. intros e [Hef He]%list_elem_of_filter.
    split; [done|]. unfold selected_edits in He. apply list_elem_of_In, in_concat in He as (l & Hl & He).
    apply list_elem_of_In, list_elem_of_fmap in Hl as (x & -> & Hx). apply list_elem_of_In in He.
    rewrite Forall_forall in Hf. destruct (Hf _ Hx) as (_ & _ & Hv & _).
    rewrite Forall_forall in Hv. by apply Hv. }
  split; [by apply sort_precedes|]. split.
  { eapply Forall_impl; [exact Hall|]. by intros ? []. }
  destruct (of_file f (selected_edits ds)) as [|e0 l] eqn:E; [done|].
  assert (∃ x, bt_get (files_map fs) f = Some x) as [x Hx].
  { rewrite sort_by_key_perm in Hall. apply Forall_cons in Hall as [[<- (x & Hx & _)] _]. eauto. }
  exists x. split; [done|]. eapply Forall_impl; [exact Hall|].
  intros e (<- & y & Hy & Hfit). by simplify_eq.
Qed.

Lemma build_plan_facts fs ds plan :
  build fs ds = Ok plan →
  (∀ f x, bt_get (files plan) f = Some x ↔ x ∈ fs ∧ pf_file x = f) ∧
  ∀ f, default [] (bt_get (edits plan) f) ≡ₚ of_file f (selected_edits ds) ∧
       StronglySorted precedes (default [] (bt_get (edits plan) f)) ∧
       ∀ e, e ∈ default [] (bt_get (edits plan) f) →
         ∃ x, x ∈ fs ∧ pf_file x = f ∧ in_text (pf_source x) e.
Proof.
  intros [Hb ->]%plan_build_ok. pose proof Hb as (Hn & Hf & Hc).
  split; [intros; by apply files_map_get|]. intros f. simpl.
  rewrite sorted_groups_default. split; [by rewrite sort_by_key_perm|]. split; [by apply sort_precedes|].
  destruct (plan_of_wf fs ds Hb) as [_ Hwf]. specialize (Hwf f). simpl in Hwf.
  rewrite sorted_groups_get in Hwf. destruct (of_file f (selected_edits ds)) as [|a l] eqn:E.
  - by intros e ?%not_elem_of_nil.
  - destruct (Hwf _ eq_refl) as (_ & _ & x & Hx & Hfit). apply files_map_get in Hx as [Hx <-]; [|done].
    rewrite Forall_forall in Hfit. eauto.
Qed.

Lemma plan_of_utf8 fs ds :
  buildable fs ds → Forall (λ x, utf8 (pf_source x)) fs →
  Forall (λ e, utf8 (te_new_text e)) (selected_edits ds) → plan_utf8 (plan_of fs ds).
Proof.
  intros (Hn & _) Hfs Hes. rewrite !Forall_forall in *. split; simpl.
  - intros f x [Hx _]%files_map_get; auto.
  - intros f es Hget. apply Forall_forall. intros e He. apply Hes.
    assert (es = sort_by_key span_key (of_file f (selected_edits ds))) as ->.
    { rewrite sorted_groups_get in Hget. destruct (of_file f (selected_edits ds)); by simplify_eq. }
    rewrite sort_by_key_perm in He. by apply list_elem_of_filter in He as [_ He].
Qed.

(** The change the plan makes to one file. *)
Definition change_of (plan : FixPlan R) (entry : FileId * PlannedFile) : PlannedChange :=
  {| pc_file := entry.1; before := pf_source entry.2; after := new_source plan entry |}.

Lemma transformed_changes_spec plan sources :
  plan_wf plan → plan_utf8 plan → bt_sorted sources →
  (sources_match plan sources ∧
   transformed_changes plan sources = Some (Ok (change_of plan <$> files plan))) ∨
  (¬ sources_match plan sources ∧
   ∃ err, validate_sources plan sources = Err err ∧
     transformed_changes plan sources = Some (Err err)).
Proof.
  intros Hwf Hu Hs. pose proof (validate_sources_spec plan sources (wf_files _ Hwf) Hs) as Hv.
  unfold transformed_changes. destruct (validate_sources plan sources) as [[]|e].
  - left. split; [done|]. rewrite (mapM_total _ (change_of plan)); [done|].
    intros x Hx. by apply changed_file_some.
  - right. destruct Hv as [? _]. eauto.
Qed.

Lemma applied_sorted plan :
  plan_wf plan → bt_sorted ((λ c, (pc_file c, after c)) <$> (change_of plan <$> files plan)).
Proof.
  intros [Hs _]. unfold bt_sorted in *. rewrite <-!list_fmap_compose. exact Hs.
Qed.

(** C32. [build] succeeds exactly when the snapshots name distinct files, every
    machine-applicable fix carries provenance that permits automation and has
    edits that fit their sources in increasing order, and no two selected edits
    compete.  The plan then holds the snapshots and, for every file, exactly the
    selected edits of that file, each inside its source, between characters,
    and ending before the next one starts. *)
Theorem build_selects_compatible_fixes fs ds :
  (is_ok (build fs ds) = true ↔ buildable fs ds) ∧
  ∀ plan, build fs ds = Ok plan →
    (∀ f x, bt_get (files plan) f = Some x ↔ x ∈ fs ∧ pf_file x = f) ∧
    ∀ f, default [] (bt_get (edits plan) f) ≡ₚ of_file f (selected_edits ds) ∧
         StronglySorted precedes (default [] (bt_get (edits plan) f)) ∧
         ∀ e, e ∈ default [] (bt_get (edits plan) f) →
           ∃ x, x ∈ fs ∧ pf_file x = f ∧ in_text (pf_source x) e.
Proof.
  split; [|by apply build_plan_facts].
  destruct (build_spec fs ds) as [[Hb ->]|[Hb ->]]; by split.
Qed.

(** Whether a plan is built, and which, does not depend on the order of the
    snapshots or of the diagnostics. *)
Theorem build_order_independent fs fs' ds ds' plan :
  fs ≡ₚ fs' → ds ≡ₚ ds' → build fs ds = Ok plan → build fs' ds' = Ok plan.
Proof.
  intros Hfs Hds [(Hn & Hf & Hc) ->]%plan_build_ok. apply plan_build_ok.
  assert (selected ds ≡ₚ selected ds') as Hsel by (unfold selected; by rewrite Hds).
  assert (selected_edits ds ≡ₚ selected_edits ds') as Hes by (unfold selected_edits; by rewrite Hsel).
  assert (NoDup (pf_file <$> fs')) as Hn' by (by rewrite <-Hfs).
  assert (files_map fs = files_map fs') as Hmap.
  { apply bt_ext; [apply files_map_sorted..|]. intros f. apply option_eq. intros x.
    by rewrite !files_map_get, Hfs. }
  split; [split_and!|].
  - done.
  - by rewrite <-Hmap, <-Hsel.
  - eapply StronglySorted_perm; [apply _|exact Hes|done].
  - unfold plan_of. by rewrite Hmap, (sorted_groups_perm _ _ Hes).
Qed.

(** C31. Applying a plan to the analysed sources never panics: every file becomes its
    source with each planned range replaced, which is well-formed UTF-8 again;
    [preview] lists the files that change and [check] says whether any does.  On
    any other set of sources the three report the file that is stale or was not
    planned and produce nothing. *)
Theorem apply_exact fs ds plan sources :
  build fs ds = Ok plan →
  Forall (λ x, utf8 (pf_source x)) fs → Forall (λ e, utf8 (te_new_text e)) (selected_edits ds) →
  bt_sorted sources →
  (sources_match plan sources →
   apply plan sources = Some (Ok ((λ x, (x.1, new_source plan x)) <$> files plan)) ∧
   Forall (λ x, utf8 (new_source plan x)) (files plan) ∧
   preview plan sources =
     Some (Ok (filter (λ c, before c ≠ after c) (change_of plan <$> files plan))) ∧
   (check plan sources = Some (Ok true) ↔
    ∃ x, x ∈ files plan ∧ new_source plan x ≠ pf_source x.2)) ∧
  (¬ sources_match plan sources →
   ∃ err, apply plan sources = Some (Err err) ∧ preview plan sources = Some (Err err) ∧
     check plan sources = Some (Err err) ∧
     ((∃ f, err = UnexpectedSource f ∧ is_Some (bt_get sources f) ∧ bt_get (files plan) f = None) ∨
      (∃ f x, err = StaleSource f ∧ bt_get (files plan) f = Some x ∧
         bt_get sources f ≠ Some (pf_source x)))).
Proof.
  intros [Hb ->]%plan_build_ok Hfs Hes Hs. pose proof (plan_of_wf _ _ Hb) as Hwf.
  pose proof (plan_of_utf8 _ _ Hb Hfs Hes) as Hu. set (plan := plan_of fs ds) in *.
  unfold apply, check, preview.
  destruct (transformed_changes_spec plan sources Hwf Hu Hs) as [[Hm ->]|(Hm & e & Hv & ->)].
  - split; [intros _|done]. simpl. split_and!.
    + rewrite bt_of_list_id by by apply applied_sorted. by rewrite <-list_fmap_compose.
    + apply Forall_forall. intros x Hx. by apply changed_file_some.
    + done.
    + transitivity (filter (λ c, before c ≠ after c) (change_of plan <$> files plan) ≠ []).
      { destruct (filter _ _); simpl; split; congruence. }
      split.
      * intros Hne. destruct (filter _ _) as [|c l] eqn:E; [done|].
        assert (c ∈ filter (λ c, before c ≠ after c) (change_of plan <$> files plan)) as Hc
          by (rewrite E; by left).
        apply list_elem_of_filter in Hc as [Hc (x & -> & Hx)%list_elem_of_fmap].
        exists x. split; [done|]. by apply not_eq_sym.
      * intros (x & Hx & Hne) E. apply (not_elem_of_nil (change_of plan x)). rewrite <-E.
        apply list_elem_of_filter. split; [by apply not_eq_sym|].
        apply list_elem_of_fmap. eauto.
  - split; [done|intros _]. simpl. exists e. split_and!; [done..|].
    pose proof (validate_sources_spec plan sources (wf_files _ Hwf) Hs) as Hspec.
    rewrite Hv in Hspec. tauto.
Qed.
End props.

(** ** Examples

    A range as its start and its length. *)

#[global, program] Instance span_model : TextRangeModel (nat * nat) := {
  start r := r.1;
  end_ r := r.1 + r.2;
  span_is_empty r := Nat.eqb r.2 0;
}.
Next Obligation. intros [s l]. simpl. lia. Qed.
Next Obligation. intros [s l]. simpl. destruct l; symmetry; [apply Nat.eqb_eq|apply Nat.eqb_neq]; lia. Qed.
Next Obligation. intros [s l] [s' l']. simpl. intros -> ?. f_equal. lia. Qed.

Definition text (s : string) : Text := String.list_byte_of_string s.

Definition edit (f s l : nat) (new_text : string) : TextEdit (nat * nat) :=
  {| te_file := f; te_span := (s, l); te_new_text := text new_text |}.

Definition diagnostic (f : nat) (title : string) (a : Applicability) (es : list (TextEdit (nat * nat)))
  : Diagnostic (nat * nat) :=
  {| diag_code := WrongMilestoningArity; diag_severity := Error; diag_message := "wrong arity";
     diag_primary := {| label_file := f; label_span := (0, 1); label_note := "" |};
     diag_secondary := [];
     diag_fix := Some {| fix_title := title; fix_applicability := a; fix_provenance := SyntaxOnly;
                         fix_edits := es |};
     diag_url := None |}.

(** Two files, the second ["é!"] in UTF-8. *)
Definition demo_files : list PlannedFile :=
  [{| pf_file := 2; pf_source := [xc3; xa9; x21] |}; {| pf_file := 1; pf_source := text "alpha" |}].

Definition demo_sources : list (FileId * Text) := [(1, text "alpha"); (2, [xc3; xa9; x21])].

Definition demo_diagnostics : list (Diagnostic (nat * nat)) :=
  [diagnostic 1 "later" MachineApplicable [edit 1 4 1 "B"; edit 2 2 1 "?"];
   diagnostic 1 "ignored" Suggested [edit 1 0 5 ""];
   diagnostic 1 "earlier" MachineApplicable [edit 1 0 1 "A"; edit 1 4 0 "-"]].

Definition demo_plan : FixPlan (nat * nat) :=
  {| files := [(1, {| pf_file := 1; pf_source := text "alpha" |});
               (2, {| pf_file := 2; pf_source := [xc3; xa9; x21] |})];
     edits := [(1, [edit 1 0 1 "A"; edit 1 4 0 "-"; edit 1 4 1 "B"]); (2, [edit 2 2 1 "?"])] |}.

Lemma build_selects_compatible_fixes_witness :
  buildable demo_files demo_diagnostics ∧
  ¬ buildable demo_files [diagnostic 2 "splits a character" MachineApplicable [edit 2 1 1 ""]].
Proof.
  split.
  - apply (proj1 (build_selects_compatible_fixes demo_files demo_diagnostics)). vm_compute. reflexivity.
  - intros Hb. apply (proj1 (build_selects_compatible_fixes _ _)) in Hb. vm_compute in Hb. discriminate.
Defined.

Lemma build_order_independent_witness :
  build (reverse demo_files) (reverse demo_diagnostics) = Ok demo_plan.
Proof.
  apply (build_order_independent demo_files _ demo_diagnostics).
  - symmetry. apply reverse_Permutation.
  - symmetry. apply reverse_Permutation.
  - vm_compute. reflexivity.
Defined.

Lemma demo_utf8 : utf8 [xc3; xa9; x21].
Proof. apply (utf8_cons [xc3; xa9] [x21]); [done|]. by apply ascii_utf8. Qed.

Lemma apply_exact_witness :
  apply demo_plan demo_sources = Some (Ok [(1, text "Alph-B"); (2, [xc3; xa9; x3f])]) ∧
  ∃ err, apply demo_plan [(1, text "alpha"); (2, text "e")] = Some (Err err).
Proof.
  assert (build demo_files demo_diagnostics = Ok demo_plan) as Hb by (vm_compute; reflexivity).
  assert (Forall (λ x, utf8 (pf_source x)) demo_files) as Hf.
  { repeat constructor; simpl; [apply demo_utf8|by apply ascii_utf8]. }
  assert (Forall (λ e, utf8 (te_new_text e)) (selected_edits demo_diagnostics)) as He.
  { repeat constructor; simpl; by apply ascii_utf8. }
  split.
  - destruct (apply_exact demo_files demo_diagnostics demo_plan demo_sources Hb Hf He) as [Hok _].
    { repeat constructor. }
    destruct Hok as [Ha _]; [|exact Ha]. intros [|[|[|f]]]; reflexivity.
  - destruct (apply_exact demo_files demo_diagnostics demo_plan [(1, text "alpha"); (2, text "e")]
      Hb Hf He) as [_ Hbad].
    { repeat constructor. }
    destruct Hbad as (err & Ha & _); [|by exists err]. intros Hm. by specialize (Hm 2).
Defined.

(** The pair of titles in a conflict does depend on the order of the
    diagnostics: two fixes with one title and one first span have equal sort
    keys, so the stable sort leaves them in the order they came. *)
Theorem conflict_pair_depends_on_order :
  ∃ ds ds' : list (Diagnostic (nat * nat)), ds ≡ₚ ds' ∧
    build demo_files ds = Err (Conflict 1 "first" "twin") ∧
    build demo_files ds' = Err (Conflict 1 "twin" "twin").
Proof.
  exists [diagnostic 1 "first" MachineApplicable [edit 1 0 1 ""; edit 1 4 1 ""];
     diagnostic 1 "twin" MachineApplicable [edit 1 2 1 ""; edit 1 3 2 ""];
     diagnostic 1 "twin" MachineApplicable [edit 1 2 1 ""]],
    [diagnostic 1 "first" MachineApplicable [edit 1 0 1 ""; edit 1 4 1 ""];
     diagnostic 1 "twin" MachineApplicable [edit 1 2 1 ""];
     diagnostic 1 "twin" MachineApplicable [edit 1 2 1 ""; edit 1 3 2 ""]].
  split; [|by split; vm_compute]. constructor. constructor.
Qed.
