(* ===== verification/Kinds.v ===== *)
(** * Syntax kinds

    [pure-analyzer-lexer/src/lib.rs]: the token kinds and [lex].
    [pure-analyzer-syntax/src/kind.rs]: the kinds of tokens and nodes of a tree,
    and their raw [u16] encoding.  The automaton of the lexer is generated by
    the [logos] crate: the class [Logos] states what [lex] relies on. *)

From S2P Require Import Prelude Utf8 FixPlan.

(** ** Token kinds *)

Module TokenKind.
Inductive t :=
| DATE_TIME | STRICT_DATE | LATEST_DATE | PERCENT | TILDE | DOLLAR | ARROW | PIPE | AT
| NEW_SYMBOL | DOT | COMMA | PATH_SEPARATOR | COLON | PAREN_OPEN | PAREN_CLOSE | BRACKET_OPEN
| BRACKET_CLOSE | EQ | NEQ | PLUS | MINUS | STAR | SLASH | LE | LT | GE | GT | SEMICOLON
| BRACE_OPEN | BRACE_CLOSE | ALL_KW | LET_KW | ALL_VERSIONS_KW | ALL_VERSIONS_IN_RANGE_KW
| TO_BYTES_KW | IDENT | INTEGER | BOOLEAN | STRING | HASH_STORE_OPEN | HASH_ISLAND_OPEN
| NAV_PATH_BLOCK | ISLAND_END | HASH | WHITESPACE | LINE_COMMENT | BLOCK_COMMENT | ERROR
| ASSIGN.

(** [SyntaxKind as u16], in declaration order. *)
Definition discriminant (k : t) : N :=
  match k with
  | DATE_TIME => 0 | STRICT_DATE => 1 | LATEST_DATE => 2 | PERCENT => 3 | TILDE => 4
  | DOLLAR => 5 | ARROW => 6 | PIPE => 7 | AT => 8 | NEW_SYMBOL => 9 | DOT => 10 | COMMA => 11
  | PATH_SEPARATOR => 12 | COLON => 13 | PAREN_OPEN => 14 | PAREN_CLOSE => 15
  | BRACKET_OPEN => 16 | BRACKET_CLOSE => 17 | EQ => 18 | NEQ => 19 | PLUS => 20 | MINUS => 21
  | STAR => 22 | SLASH => 23 | LE => 24 | LT => 25 | GE => 26 | GT => 27 | SEMICOLON => 28
  | BRACE_OPEN => 29 | BRACE_CLOSE => 30 | ALL_KW => 31 | LET_KW => 32 | ALL_VERSIONS_KW => 33
  | ALL_VERSIONS_IN_RANGE_KW => 34 | TO_BYTES_KW => 35 | IDENT => 36 | INTEGER => 37
  | BOOLEAN => 38 | STRING => 39 | HASH_STORE_OPEN => 40 | HASH_ISLAND_OPEN => 41
  | NAV_PATH_BLOCK => 42 | ISLAND_END => 43 | HASH => 44 | WHITESPACE => 45
  | LINE_COMMENT => 46 | BLOCK_COMMENT => 47 | ERROR => 48 | ASSIGN => 49
  end%N.

Definition all : list t :=
  [DATE_TIME; STRICT_DATE; LATEST_DATE; PERCENT; TILDE; DOLLAR; ARROW; PIPE; AT; NEW_SYMBOL;
  DOT; COMMA; PATH_SEPARATOR; COLON; PAREN_OPEN; PAREN_CLOSE; BRACKET_OPEN; BRACKET_CLOSE; EQ;
  NEQ; PLUS; MINUS; STAR; SLASH; LE; LT; GE; GT; SEMICOLON; BRACE_OPEN; BRACE_CLOSE; ALL_KW;
  LET_KW; ALL_VERSIONS_KW; ALL_VERSIONS_IN_RANGE_KW; TO_BYTES_KW; IDENT; INTEGER; BOOLEAN;
  STRING; HASH_STORE_OPEN; HASH_ISLAND_OPEN; NAV_PATH_BLOCK; ISLAND_END; HASH; WHITESPACE;
  LINE_COMMENT; BLOCK_COMMENT; ERROR; ASSIGN].

Lemma decode_discriminant k : List.find (λ k', N.eqb (discriminant k') (discriminant k)) all = Some k.
Proof. by destruct k. Qed.

#[global] Instance discriminant_inj : Inj (=) (=) discriminant.
Proof. intros k k' E. apply (inj Some). by rewrite <-!decode_discriminant, E. Qed.

#[global] Instance t_eq_dec : EqDecision t :=
  λ k k', match decide (discriminant k = discriminant k') with
          | left E => left (discriminant_inj k k' E)
          | right N => right (λ E, N (f_equal discriminant E))
          end.
End TokenKind.
Abbreviation TokenKind := TokenKind.t.

(** ** Tree kinds *)

Module SyntaxKind.
Inductive t :=
| DATE_TIME | STRICT_DATE | LATEST_DATE | PERCENT | TILDE | DOLLAR | ARROW | PIPE | AT
| NEW_SYMBOL | DOT | COMMA | PATH_SEPARATOR | COLON | PAREN_OPEN | PAREN_CLOSE | BRACKET_OPEN
| BRACKET_CLOSE | EQ | NEQ | PLUS | MINUS | STAR | SLASH | LE | LT | GE | GT | SEMICOLON
| BRACE_OPEN | BRACE_CLOSE | ALL_KW | LET_KW | ALL_VERSIONS_KW | ALL_VERSIONS_IN_RANGE_KW
| TO_BYTES_KW | IDENT | INTEGER | BOOLEAN | STRING | HASH_STORE_OPEN | HASH_ISLAND_OPEN
| NAV_PATH_BLOCK | ISLAND_END | HASH | WHITESPACE | LINE_COMMENT | BLOCK_COMMENT | ERROR
| ASSIGN
| ROOT | ERROR_NODE | BINARY_EXPR | QUERY_EXPR | ALL_EXPR | QUALIFIED_NAME | VARIABLE_EXPR
| LITERAL_EXPR | PAREN_EXPR | UNARY_EXPR | ARROW_CALL | PROPERTY_NAV | BRACKET_INDEX
| CALL_ARGS | LAMBDA_EXPR | LAMBDA_PARAMS | CODE_BLOCK | LET_STMT | COLUMN_SPEC
| COLUMN_SPEC_ARRAY | NEW_INSTANCE_EXPR | CAST_EXPR | RELATION_TYPE | COLUMN_INFO | ISLAND
| STORE_TABLE_POINTER | NAV_PATH_ISLAND | OPAQUE_ISLAND | TYPE_REF | MULTIPLICITY
| FUNCTION_CALL | COLLECTION_LITERAL | COLUMN_NAME | DOMAIN_FILE | DOMAIN_CLASS_DECL
| DOMAIN_ASSOCIATION_DECL | DOMAIN_PROFILE_DECL | DOMAIN_STEREOTYPE_DECL
| DOMAIN_STEREOTYPE_APPLICATIONS | DOMAIN_EXTENDS_CLAUSE | DOMAIN_PROPERTY_DECL
| DOMAIN_QUALIFIED_PROPERTY_DECL | DOMAIN_PARAMETER_DECL | DOMAIN_TYPE_REF
| DOMAIN_MULTIPLICITY | DOMAIN_QUALIFIED_NAME | DOMAIN_OPAQUE_NODE | DOMAIN_OPAQUE_BODY
| DOMAIN_PROFILE_SECTION | DOMAIN_IGNORED_TOP_LEVEL.

(** [SyntaxKind as u16], the assigned values. *)
Definition discriminant (k : t) : N :=
  match k with
  | DATE_TIME => 0x0000 | STRICT_DATE => 0x0001 | LATEST_DATE => 0x0002 | PERCENT => 0x0003
  | TILDE => 0x0004 | DOLLAR => 0x0005 | ARROW => 0x0006 | PIPE => 0x0007 | AT => 0x0008
  | NEW_SYMBOL => 0x0009 | DOT => 0x000a | COMMA => 0x000b | PATH_SEPARATOR => 0x000c
  | COLON => 0x000d | PAREN_OPEN => 0x000e | PAREN_CLOSE => 0x000f | BRACKET_OPEN => 0x0010
  | BRACKET_CLOSE => 0x0011 | EQ => 0x0012 | NEQ => 0x0013 | PLUS => 0x0014 | MINUS => 0x0015
  | STAR => 0x0016 | SLASH => 0x0017 | LE => 0x0018 | LT => 0x0019 | GE => 0x001a
  | GT => 0x001b | SEMICOLON => 0x001c | BRACE_OPEN => 0x001d | BRACE_CLOSE => 0x001e
  | ALL_KW => 0x001f | LET_KW => 0x0020 | ALL_VERSIONS_KW => 0x0021
  | ALL_VERSIONS_IN_RANGE_KW => 0x0022 | TO_BYTES_KW => 0x0023 | IDENT => 0x0024
  | INTEGER => 0x0025 | BOOLEAN => 0x0026 | STRING => 0x0027 | HASH_STORE_OPEN => 0x0028
  | HASH_ISLAND_OPEN => 0x0029 | NAV_PATH_BLOCK => 0x002a | ISLAND_END => 0x002b
  | HASH => 0x002c | WHITESPACE => 0x002d | LINE_COMMENT => 0x002e | BLOCK_COMMENT => 0x002f
  | ERROR => 0x0030 | ASSIGN => 0x0031 | ROOT => 0x8000 | ERROR_NODE => 0x8001
  | BINARY_EXPR => 0x8002 | QUERY_EXPR => 0x8003 | ALL_EXPR => 0x8004
  | QUALIFIED_NAME => 0x8005 | VARIABLE_EXPR => 0x8006 | LITERAL_EXPR => 0x8007
  | PAREN_EXPR => 0x8008 | UNARY_EXPR => 0x8009 | ARROW_CALL => 0x800a | PROPERTY_NAV => 0x800b
  | BRACKET_INDEX => 0x800c | CALL_ARGS => 0x800d | LAMBDA_EXPR => 0x800e
  | LAMBDA_PARAMS => 0x800f | CODE_BLOCK => 0x8010 | LET_STMT => 0x8011 | COLUMN_SPEC => 0x8012
  | COLUMN_SPEC_ARRAY => 0x8013 | NEW_INSTANCE_EXPR => 0x8014 | CAST_EXPR => 0x8015
  | RELATION_TYPE => 0x8016 | COLUMN_INFO => 0x8017 | ISLAND => 0x8018
  | STORE_TABLE_POINTER => 0x8019 | NAV_PATH_ISLAND => 0x801a | OPAQUE_ISLAND => 0x801b
  | TYPE_REF => 0x801c | MULTIPLICITY => 0x801d | FUNCTION_CALL => 0x801e
  | COLLECTION_LITERAL => 0x801f | COLUMN_NAME => 0x8020 | DOMAIN_FILE => 0x8021
  | DOMAIN_CLASS_DECL => 0x8022 | DOMAIN_ASSOCIATION_DECL => 0x8023
  | DOMAIN_PROFILE_DECL => 0x8024 | DOMAIN_STEREOTYPE_DECL => 0x8025
  | DOMAIN_STEREOTYPE_APPLICATIONS => 0x8026 | DOMAIN_EXTENDS_CLAUSE => 0x8027
  | DOMAIN_PROPERTY_DECL => 0x8028 | DOMAIN_QUALIFIED_PROPERTY_DECL => 0x8029
  | DOMAIN_PARAMETER_DECL => 0x802a | DOMAIN_TYPE_REF => 0x802b | DOMAIN_MULTIPLICITY => 0x802c
  | DOMAIN_QUALIFIED_NAME => 0x802d | DOMAIN_OPAQUE_NODE => 0x802e
  | DOMAIN_OPAQUE_BODY => 0x802f | DOMAIN_PROFILE_SECTION => 0x8030
  | DOMAIN_IGNORED_TOP_LEVEL => 0x8031
  end%N.

(** [SyntaxKind::all]. *)
Definition all : list t :=
  [DATE_TIME; STRICT_DATE; LATEST_DATE; PERCENT; TILDE; DOLLAR; ARROW; PIPE; AT; NEW_SYMBOL;
  DOT; COMMA; PATH_SEPARATOR; COLON; PAREN_OPEN; PAREN_CLOSE; BRACKET_OPEN; BRACKET_CLOSE; EQ;
  NEQ; PLUS; MINUS; STAR; SLASH; LE; LT; GE; GT; SEMICOLON; BRACE_OPEN; BRACE_CLOSE; ALL_KW;
  LET_KW; ALL_VERSIONS_KW; ALL_VERSIONS_IN_RANGE_KW; TO_BYTES_KW; IDENT; INTEGER; BOOLEAN;
  STRING; HASH_STORE_OPEN; HASH_ISLAND_OPEN; NAV_PATH_BLOCK; ISLAND_END; HASH; WHITESPACE;
  LINE_COMMENT; BLOCK_COMMENT; ERROR; ASSIGN; ROOT; ERROR_NODE; BINARY_EXPR; QUERY_EXPR;
  ALL_EXPR; QUALIFIED_NAME; VARIABLE_EXPR; LITERAL_EXPR; PAREN_EXPR; UNARY_EXPR; ARROW_CALL;
  PROPERTY_NAV; BRACKET_INDEX; CALL_ARGS; LAMBDA_EXPR; LAMBDA_PARAMS; CODE_BLOCK; LET_STMT;
  COLUMN_SPEC; COLUMN_SPEC_ARRAY; NEW_INSTANCE_EXPR; CAST_EXPR; RELATION_TYPE; COLUMN_INFO;
  ISLAND; STORE_TABLE_POINTER; NAV_PATH_ISLAND; OPAQUE_ISLAND; TYPE_REF; MULTIPLICITY;
  FUNCTION_CALL; COLLECTION_LITERAL; COLUMN_NAME; DOMAIN_FILE; DOMAIN_CLASS_DECL;
  DOMAIN_ASSOCIATION_DECL; DOMAIN_PROFILE_DECL; DOMAIN_STEREOTYPE_DECL;
  DOMAIN_STEREOTYPE_APPLICATIONS; DOMAIN_EXTENDS_CLAUSE; DOMAIN_PROPERTY_DECL;
  DOMAIN_QUALIFIED_PROPERTY_DECL; DOMAIN_PARAMETER_DECL; DOMAIN_TYPE_REF; DOMAIN_MULTIPLICITY;
  DOMAIN_QUALIFIED_NAME; DOMAIN_OPAQUE_NODE; DOMAIN_OPAQUE_BODY; DOMAIN_PROFILE_SECTION;
  DOMAIN_IGNORED_TOP_LEVEL].

Definition is_node (k : t) : bool :=
  match k with
  | ROOT | ERROR_NODE | BINARY_EXPR | QUERY_EXPR | ALL_EXPR | QUALIFIED_NAME | VARIABLE_EXPR
  | LITERAL_EXPR | PAREN_EXPR | UNARY_EXPR | ARROW_CALL | PROPERTY_NAV | BRACKET_INDEX
  | CALL_ARGS | LAMBDA_EXPR | LAMBDA_PARAMS | CODE_BLOCK | LET_STMT | COLUMN_SPEC
  | COLUMN_SPEC_ARRAY | NEW_INSTANCE_EXPR | CAST_EXPR | RELATION_TYPE | COLUMN_INFO | ISLAND
  | STORE_TABLE_POINTER | NAV_PATH_ISLAND | OPAQUE_ISLAND | TYPE_REF | MULTIPLICITY
  | FUNCTION_CALL | COLLECTION_LITERAL | COLUMN_NAME | DOMAIN_FILE | DOMAIN_CLASS_DECL
  | DOMAIN_ASSOCIATION_DECL | DOMAIN_PROFILE_DECL | DOMAIN_STEREOTYPE_DECL
  | DOMAIN_STEREOTYPE_APPLICATIONS | DOMAIN_EXTENDS_CLAUSE | DOMAIN_PROPERTY_DECL
  | DOMAIN_QUALIFIED_PROPERTY_DECL | DOMAIN_PARAMETER_DECL | DOMAIN_TYPE_REF
  | DOMAIN_MULTIPLICITY | DOMAIN_QUALIFIED_NAME | DOMAIN_OPAQUE_NODE | DOMAIN_OPAQUE_BODY
  | DOMAIN_PROFILE_SECTION | DOMAIN_IGNORED_TOP_LEVEL => true
  | _ => false
  end.

Definition is_token (k : t) : bool :=
  match k with
  | DATE_TIME | STRICT_DATE | LATEST_DATE | PERCENT | TILDE | DOLLAR | ARROW | PIPE | AT
  | NEW_SYMBOL | DOT | COMMA | PATH_SEPARATOR | COLON | PAREN_OPEN | PAREN_CLOSE | BRACKET_OPEN
  | BRACKET_CLOSE | EQ | NEQ | PLUS | MINUS | STAR | SLASH | LE | LT | GE | GT | SEMICOLON
  | BRACE_OPEN | BRACE_CLOSE | ALL_KW | LET_KW | ALL_VERSIONS_KW | ALL_VERSIONS_IN_RANGE_KW
  | TO_BYTES_KW | IDENT | INTEGER | BOOLEAN | STRING | HASH_STORE_OPEN | HASH_ISLAND_OPEN
  | NAV_PATH_BLOCK | ISLAND_END | HASH | WHITESPACE | LINE_COMMENT | BLOCK_COMMENT | ERROR
  | ASSIGN => true
  | _ => false
  end.

(** [From<pure_analyzer_lexer::SyntaxKind>]. *)
Definition from_lexer (k : TokenKind) : t :=
  match k with
  | TokenKind.DATE_TIME => DATE_TIME | TokenKind.STRICT_DATE => STRICT_DATE
  | TokenKind.LATEST_DATE => LATEST_DATE | TokenKind.PERCENT => PERCENT
  | TokenKind.TILDE => TILDE | TokenKind.DOLLAR => DOLLAR | TokenKind.ARROW => ARROW
  | TokenKind.PIPE => PIPE | TokenKind.AT => AT | TokenKind.NEW_SYMBOL => NEW_SYMBOL
  | TokenKind.DOT => DOT | TokenKind.COMMA => COMMA
  | TokenKind.PATH_SEPARATOR => PATH_SEPARATOR | TokenKind.COLON => COLON
  | TokenKind.PAREN_OPEN => PAREN_OPEN | TokenKind.PAREN_CLOSE => PAREN_CLOSE
  | TokenKind.BRACKET_OPEN => BRACKET_OPEN | TokenKind.BRACKET_CLOSE => BRACKET_CLOSE
  | TokenKind.EQ => EQ | TokenKind.NEQ => NEQ | TokenKind.PLUS => PLUS
  | TokenKind.MINUS => MINUS | TokenKind.STAR => STAR | TokenKind.SLASH => SLASH
  | TokenKind.LE => LE | TokenKind.LT => LT | TokenKind.GE => GE | TokenKind.GT => GT
  | TokenKind.SEMICOLON => SEMICOLON | TokenKind.BRACE_OPEN => BRACE_OPEN
  | TokenKind.BRACE_CLOSE => BRACE_CLOSE | TokenKind.ALL_KW => ALL_KW
  | TokenKind.LET_KW => LET_KW | TokenKind.ALL_VERSIONS_KW => ALL_VERSIONS_KW
  | TokenKind.ALL_VERSIONS_IN_RANGE_KW => ALL_VERSIONS_IN_RANGE_KW
  | TokenKind.TO_BYTES_KW => TO_BYTES_KW | TokenKind.IDENT => IDENT
  | TokenKind.INTEGER => INTEGER | TokenKind.BOOLEAN => BOOLEAN | TokenKind.STRING => STRING
  | TokenKind.HASH_STORE_OPEN => HASH_STORE_OPEN
  | TokenKind.HASH_ISLAND_OPEN => HASH_ISLAND_OPEN | TokenKind.NAV_PATH_BLOCK => NAV_PATH_BLOCK
  | TokenKind.ISLAND_END => ISLAND_END | TokenKind.HASH => HASH
  | TokenKind.WHITESPACE => WHITESPACE | TokenKind.LINE_COMMENT => LINE_COMMENT
  | TokenKind.BLOCK_COMMENT => BLOCK_COMMENT | TokenKind.ERROR => ERROR
  | TokenKind.ASSIGN => ASSIGN
  end.

(** [From<SyntaxKind> for RawSyntaxKind] and [TryFrom<RawSyntaxKind>]: the error
    is the rejected value. *)
Definition to_raw (k : t) : N := discriminant k.

Definition try_from (raw : N) : Result t N :=
  match List.find (λ k, N.eqb (to_raw k) raw) all with
  | Some k => Ok k
  | None => Err raw
  end.

Lemma decode_syntax_discriminant k : List.find (λ k', N.eqb (discriminant k') (discriminant k)) all = Some k.
Proof. by destruct k. Qed.

#[global] Instance discriminant_inj : Inj (=) (=) discriminant.
Proof. intros k k' E. apply (inj Some). by rewrite <-!decode_syntax_discriminant, E. Qed.

#[global] Instance t_eq_dec : EqDecision t :=
  λ k k', match decide (discriminant k = discriminant k') with
          | left E => left (discriminant_inj k k' E)
          | right N => right (λ E, N (f_equal discriminant E))
          end.

(** The tokens are the kinds below [0x8000], the nodes the others. *)
Lemma is_node_token k : is_node k = negb (is_token k).
Proof. by destruct k. Qed.

Lemma is_node_value k : is_node k = N.leb 0x8000 (discriminant k).
Proof. by destruct k. Qed.

Lemma from_lexer_token k : is_token (from_lexer k) = true.
Proof. by destruct k. Qed.

Lemma from_lexer_value k : discriminant (from_lexer k) = TokenKind.discriminant k.
Proof. by destruct k. Qed.

#[global] Instance from_lexer_inj : Inj (=) (=) from_lexer.
Proof. intros k k' E. apply (inj TokenKind.discriminant). by rewrite <-!from_lexer_value, E. Qed.

Lemma try_from_to_raw k : try_from (to_raw k) = Ok k.
Proof. unfold try_from, to_raw. by rewrite decode_syntax_discriminant. Qed.

Lemma try_from_exact raw :
  match try_from raw with
  | Ok k => to_raw k = raw
  | Err e => e = raw ∧ ∀ k, to_raw k ≠ raw
  end.
Proof.
  unfold try_from. destruct (List.find _ _) as [k|] eqn:E.
  - by apply find_some in E as [_ ->%N.eqb_eq].
  - split; [done|]. intros k <-. unfold to_raw in E. by rewrite decode_syntax_discriminant in E.
Qed.
End SyntaxKind.
Abbreviation SyntaxKind := SyntaxKind.t.

(** ** Ranges

    What the code uses of [TextRange::new], which panics on a range out of
    order, beyond [TextRangeModel]; and [TextSize::try_from]. *)

Class TextRangeNew (R : Type) `{TextRangeModel R} := {
  range_new : nat → nat → option R;
  range_new_ordered s e : s ≤ e → ∃ r, range_new s e = Some r ∧ start r = s ∧ end_ r = e;
  range_new_disordered s e : e < s → range_new s e = None;
}.

Definition TextSize_try_from (n : nat) : option nat :=
  if N.leb (N.of_nat n) U32_MAX then Some n else None.

(** ** The lexer *)

(** Ranges that follow each other from one offset to another, none empty. *)
Fixpoint tiles (spans : list (nat * nat)) (from to : nat) : Prop :=
  match spans with
  | [] => from = to
  | (s, e) :: rest => s = from ∧ s < e ∧ tiles rest e to
  end.

(** [SyntaxKind::lexer(text).spanned()]: [None] is a span no rule matches.  The
    generated automaton reads a [str] and reports every byte of it in one span,
    each of whole characters. *)
Class Logos := {
  spanned : Text → list (option TokenKind * (nat * nat));
  spanned_tiles text : utf8 text → tiles (spanned text).*2 0 (length text);
  spanned_boundaries text k s e :
    utf8 text → (k, (s, e)) ∈ spanned text →
    is_char_boundary text s = true ∧ is_char_boundary text e = true;
}.

Section lex.
Context {R : Type} `{TextRangeNew R} `{Logos}.

(** [u32::try_from(offset).unwrap_or(u32::MAX)]. *)
Definition clamp_u32 (n : nat) : nat := N.to_nat (N.min (N.of_nat n) U32_MAX).

Definition lex_span (token : option TokenKind * (nat * nat)) : option (TokenKind * R) :=
  range ← range_new (clamp_u32 token.2.1) (clamp_u32 token.2.2);
  Some (default TokenKind.ERROR token.1, range).

Definition lex (text : Text) : option (list (TokenKind * R)) := mapM lex_span (spanned text).

Lemma clamp_small n : (N.of_nat n ≤ U32_MAX)%N → clamp_u32 n = n.
Proof. unfold clamp_u32. intros. rewrite N.min_l by done. apply Nat2N.id. Qed.

Lemma clamp_mono n m : n ≤ m → clamp_u32 n ≤ clamp_u32 m.
Proof. unfold clamp_u32. lia. Qed.
End lex.
