(* ===== verification/Green.v ===== *)
(** * Green trees

    [pure-analyzer-syntax/src/green.rs] and [ast.rs]: the immutable tree, the
    iterator over its tokens, and the typed views.  An [Arc] is the value it
    shares. *)

From S2P Require Import Prelude Utf8 FixPlan Kinds.

(** [str::get(start..end)]. *)
Definition str_get (s : Text) (start end_ : nat) : option Text :=
  if (start <=? end_) && (end_ <=? length s) && is_char_boundary s start && is_char_boundary s end_
  then Some (take (end_ - start) (drop start s)) else None.

Section green.
Context {R : Type} `{TextRangeModel R}.

Record GreenToken := { gt_kind : SyntaxKind; gt_source : Text; gt_range : R }.

(** [GreenToken::text]. *)
Definition gt_text (t : GreenToken) : Text :=
  default [] (str_get (gt_source t) (start (gt_range t)) (end_ (gt_range t))).

(** [PartialEq for GreenToken]. *)
Definition GreenToken_eqb (a b : GreenToken) : bool :=
  bool_decide (gt_kind a = gt_kind b) && bool_decide (gt_range a = gt_range b)
  && bool_decide (gt_text a = gt_text b).

Inductive GreenElement :=
| Node (n : GreenNode)
| Token (t : GreenToken)
with GreenNode :=
| GreenNodeData (kind : SyntaxKind) (children : list GreenElement) (range : R).

Definition node_kind (n : GreenNode) : SyntaxKind := let '(GreenNodeData k _ _) := n in k.
Definition node_children (n : GreenNode) : list GreenElement := let '(GreenNodeData _ cs _) := n in cs.
Definition node_range (n : GreenNode) : R := let '(GreenNodeData _ _ r) := n in r.

Definition element_kind (e : GreenElement) : SyntaxKind :=
  match e with Node n => node_kind n | Token t => gt_kind t end.

Definition element_range (e : GreenElement) : R :=
  match e with Node n => node_range n | Token t => gt_range t end.

Definition as_node (e : GreenElement) : option GreenNode :=
  match e with Node n => Some n | Token _ => None end.

Definition as_token (e : GreenElement) : option GreenToken :=
  match e with Node _ => None | Token t => Some t end.

(** [TokenIter]: the siblings left to visit, the innermost list first.  One
    [TokenIter_next] pushes a node's children and pops a finished list at most
    as often as the siblings hold nodes and lists. *)
Record TokenIter := { iter_stack : list (list GreenElement) }.

Fixpoint element_weight (e : GreenElement) : nat :=
  match e with
  | Token _ => 1
  | Node (GreenNodeData _ children _) => 2 + sum_list (element_weight <$> children)
  end.

Definition list_weight (children : list GreenElement) : nat :=
  S (sum_list (element_weight <$> children)).

Definition iter_weight (i : TokenIter) : nat := sum_list (list_weight <$> iter_stack i).

Fixpoint iter_next (fuel : nat) (i : TokenIter) : option (option GreenToken * TokenIter) :=
  match fuel with
  | 0 => None
  | S fuel =>
      match iter_stack i with
      | [] => Some (None, i)
      | (Node node :: rest) :: outer =>
          iter_next fuel {| iter_stack := node_children node :: rest :: outer |}
      | (Token token :: rest) :: outer => Some (Some token, {| iter_stack := rest :: outer |})
      | [] :: outer => iter_next fuel {| iter_stack := outer |}
      end
  end.

(** [Iterator for TokenIter]. *)
Definition TokenIter_next (i : TokenIter) : option (option GreenToken * TokenIter) :=
  iter_next (S (iter_weight i)) i.

Fixpoint iter_collect (fuel : nat) (i : TokenIter) : option (list GreenToken) :=
  match fuel with
  | 0 => None
  | S fuel =>
      '(next, i) ← TokenIter_next i;
      match next with
      | None => Some []
      | Some token => cons token <$> iter_collect fuel i
      end
  end.

(** [GreenNode::tokens], collected, and [GreenNode::text]. *)
Definition node_iter (n : GreenNode) : TokenIter := {| iter_stack := [node_children n] |}.

Definition node_tokens (n : GreenNode) : option (list GreenToken) :=
  iter_collect (S (iter_weight (node_iter n))) (node_iter n).

Definition node_text (n : GreenNode) : option Text :=
  (λ tokens, concat (gt_text <$> tokens)) <$> node_tokens n.

(** ** Typed views

    [ast_node!]: a wrapper accepts the nodes of its kind. *)

Definition can_cast (view kind : SyntaxKind) : bool := bool_decide (kind = view).

Definition cast (view : SyntaxKind) (syntax : GreenNode) : option GreenNode :=
  if can_cast view (node_kind syntax) then Some syntax else None.

(** ** The tokens of a tree *)

Fixpoint element_tokens (e : GreenElement) : list GreenToken :=
  match e with
  | Token t => [t]
  | Node (GreenNodeData _ children _) => concat (element_tokens <$> children)
  end.

Definition leaves (n : GreenNode) : list GreenToken := concat (element_tokens <$> node_children n).

(** A property of every node whose children's nodes have it. *)
Lemma green_ind (P : GreenNode → Prop) (Q : GreenElement → Prop) :
  (∀ n, P n → Q (Node n)) → (∀ t, Q (Token t)) →
  (∀ k cs r, Forall Q cs → P (GreenNodeData k cs r)) → ∀ n, P n.
Proof.
  intros HN HT HC. fix IH 1. intros [k cs r]. apply HC.
  induction cs as [|[n|t] cs IHcs]; constructor; auto.
Qed.

Lemma element_tokens_node n : element_tokens (Node n) = leaves n.
Proof. by destruct n. Qed.

Definition pending (i : TokenIter) : list GreenToken :=
  concat ((λ children, concat (element_tokens <$> children)) <$> iter_stack i).

(** With enough fuel, the iterator yields the first token of what it has left to
    visit, and strictly less is left to visit. *)
Lemma iter_next_spec fuel i :
  iter_weight i < fuel →
  ∃ i', iter_next fuel i = Some (head (pending i), i') ∧ pending i' = tail (pending i) ∧
        (pending i ≠ [] → iter_weight i' < iter_weight i).
Proof.
  revert i. induction fuel as [|fuel IH]; intros [[|[|[n|t] rest] outer]] Hw; try lia;
    unfold iter_weight in *; csimpl in *.
  - exists {| iter_stack := [] |}. by split_and!.
  - destruct (IH {| iter_stack := outer |}) as (i' & E & Hp & Hlt); csimpl in *; [lia|].
    exists i'. split_and!; [done..|]. intros Hne. specialize (Hlt Hne). lia.
  - destruct n as [k cs r]. csimpl in *.
    destruct (IH {| iter_stack := cs :: rest :: outer |}) as (i' & E & Hp & Hlt);
      csimpl in *; [unfold list_weight in *; csimpl in *; lia|].
    assert (pending {| iter_stack := cs :: rest :: outer |}
            = pending {| iter_stack := (Node (GreenNodeData k cs r) :: rest) :: outer |}) as Ep.
    { unfold pending. csimpl. by rewrite (assoc_L (++)). }
    rewrite Ep in *. exists i'. split_and!; [done..|]. intros Hne. specialize (Hlt Hne).
    unfold list_weight in *. csimpl in *. lia.
  - exists {| iter_stack := rest :: outer |}. split_and!; [done..|]. intros _.
    unfold list_weight. csimpl. lia.
Qed.

Lemma iter_collect_spec fuel i : iter_weight i < fuel → iter_collect fuel i = Some (pending i).
Proof.
  revert i. induction fuel as [|fuel IH]; intros i Hw; [lia|]. csimpl. unfold TokenIter_next.
  destruct (iter_next_spec (S (iter_weight i)) i) as (i' & -> & Hp & Hlt); [lia|]. csimpl.
  destruct (pending i) as [|t ts]; csimpl in *; [done|].
  rewrite IH, Hp; [done|]. specialize (Hlt ltac:(done)). lia.
Qed.

Lemma node_tokens_leaves n : node_tokens n = Some (leaves n).
Proof.
  unfold node_tokens. rewrite iter_collect_spec by lia. unfold pending. simpl. by rewrite app_nil_r.
Qed.

Lemma node_text_leaves n : node_text n = Some (concat (gt_text <$> leaves n)).
Proof. unfold node_text. by rewrite node_tokens_leaves. Qed.
End green.
Arguments GreenToken : clear implicits.
Arguments GreenElement : clear implicits.
Arguments GreenNode : clear implicits.
Arguments TokenIter : clear implicits.
