(* ===== verification/Builder.v ===== *)
(** * The tree builder

    [pure-analyzer-syntax/src/builder.rs]: events are collected, possibly
    inserted at earlier checkpoints, and folded into a green tree once the
    token stream has been validated.  An [Arc::new(())] is an address taken from
    a counter; [None] is a panic, of [TextRange::new]. *)

From S2P Require Import Prelude Utf8 FixPlan Kinds Green.

Inductive Event := Open (kind : SyntaxKind) | Advance | Close.

Record Checkpoint := { cp_owner : nat; cp_marker : nat }.

Section builder.
Context {R : Type} `{TextRangeNew R}.

Inductive BuildError :=
| SourceTooLong (length : nat)
| EmptyTokenRange (token_index : nat) (offset : nat)
| NonContiguousTokenRange (token_index : nat) (expected actual : nat)
| TokenRangeOutsideSource (token_index : nat) (range : R) (source_end : nat)
| InvalidUtf8Boundary (token_index : nat) (offset : nat)
| IncompleteTokenCoverage (expected actual : nat)
| ExpectedNodeKind (event_index : nat) (kind : SyntaxKind)
| NestedRoot (event_index : nat)
| ForeignCheckpoint
| InvalidCheckpoint
| AdvanceOutsideNode (event_index : nat)
| AdvancePastTokens (event_index : nat) (token_count : nat)
| CloseWithoutOpen (event_index : nat)
| UnclosedNodes (count : nat)
| UnconsumedTokens (consumed total : nat)
| MissingRoot
| MultipleRoots (count : nat)
| ExpectedRootKind (actual : SyntaxKind).

(** ** Collecting events *)

Inductive BuilderEvent := BEvent (event : Event) | BCheckpoint (marker : nat).

(** [BuilderEvent::event]. *)
Definition be_event (e : BuilderEvent) : option Event :=
  match e with BEvent event => Some event | BCheckpoint _ => None end.

Record GreenNodeBuilder := {
  b_source : Text;
  b_tokens : list (TokenKind * R);
  b_events : list BuilderEvent;
  b_owner : nat;
}.

Definition with_events (b : GreenNodeBuilder) (events : list BuilderEvent) : GreenNodeBuilder :=
  {| b_source := b_source b; b_tokens := b_tokens b; b_events := events; b_owner := b_owner b |}.

(** [GreenNodeBuilder::new], at the next address. *)
Definition builder_new (heap : nat) (source : Text) (tokens : list (TokenKind * R))
  : GreenNodeBuilder * nat :=
  ({| b_source := source; b_tokens := tokens; b_events := []; b_owner := heap |}, S heap).

Definition push (b : GreenNodeBuilder) (event : Event) : GreenNodeBuilder :=
  with_events b (b_events b ++ [BEvent event]).

Definition checkpoint (heap : nat) (b : GreenNodeBuilder) : Checkpoint * GreenNodeBuilder * nat :=
  ({| cp_owner := b_owner b; cp_marker := heap |},
   with_events b (b_events b ++ [BCheckpoint heap]), S heap).

Definition is_marker (marker : nat) (e : BuilderEvent) : bool :=
  match e with BCheckpoint m => Nat.eqb m marker | BEvent _ => false end.

(** [events.iter().position(..)]. *)
Fixpoint marker_position (marker : nat) (events : list BuilderEvent) : option nat :=
  match events with
  | [] => None
  | e :: rest => if is_marker marker e then Some 0 else S <$> marker_position marker rest
  end.

(** [GreenNodeBuilder::open_at]. *)
Definition open_at (b : GreenNodeBuilder) (checkpoint : Checkpoint) (kind : SyntaxKind)
  : Result GreenNodeBuilder BuildError :=
  if negb (Nat.eqb (b_owner b) (cp_owner checkpoint)) then Err ForeignCheckpoint
  else match marker_position (cp_marker checkpoint) (b_events b) with
  | None => Err InvalidCheckpoint
  | Some marker_index =>
      if SyntaxKind.is_node kind
      then Ok (with_events b (take marker_index (b_events b) ++ BEvent (Open kind)
                              :: drop marker_index (b_events b)))
      else Err (ExpectedNodeKind (length (omap be_event (take marker_index (b_events b)))) kind)
  end.

(** ** Validating the tokens *)

Definition source_end (source : Text) : Result nat BuildError :=
  match TextSize_try_from (length source) with
  | Some n => Ok n
  | None => Err (SourceTooLong (length source))
  end.

Definition validate_token_range (source : Text) (token_index : nat) (range : R)
    (expected source_end : nat) : Result unit BuildError :=
  if negb (Nat.eqb (start range) expected)
  then Err (NonContiguousTokenRange token_index expected (start range))
  else if span_is_empty range then Err (EmptyTokenRange token_index (start range))
  else if source_end <? end_ range then Err (TokenRangeOutsideSource token_index range source_end)
  else if negb (is_char_boundary source (start range))
  then Err (InvalidUtf8Boundary token_index (start range))
  else if negb (is_char_boundary source (end_ range))
  then Err (InvalidUtf8Boundary token_index (end_ range))
  else Ok ().

Fixpoint validate_ranges (source : Text) (source_end token_index expected : nat)
    (tokens : list (TokenKind * R)) : Result nat BuildError :=
  match tokens with
  | [] => Ok expected
  | (_, range) :: rest =>
      let? _ := validate_token_range source token_index range expected source_end in
      validate_ranges source source_end (S token_index) (end_ range) rest
  end.

Definition validate_tokens (source : Text) (tokens : list (TokenKind * R)) : Result nat BuildError :=
  let? source_end := source_end source in
  let? expected := validate_ranges source source_end 0 0 tokens in
  if Nat.eqb expected source_end then Ok source_end
  else Err (IncompleteTokenCoverage source_end expected).

(** ** Folding the events *)

Record PendingNode := { pn_kind : SyntaxKind; pn_children : list (GreenElement R); pn_start : nat }.

(** The locals of [fold_events]; the top of the stack is its head. *)
Record Fold := {
  stack : list PendingNode;
  roots : list (GreenNode R);
  token_index : nat;
  offset : nat;
}.

Definition open_node (event_index : nat) (kind : SyntaxKind) (f : Fold) : Result Fold BuildError :=
  if negb (SyntaxKind.is_node kind) then Err (ExpectedNodeKind event_index kind)
  else if bool_decide (kind = SyntaxKind.ROOT) && negb (Nat.eqb (length (stack f)) 0)
  then Err (NestedRoot event_index)
  else Ok {| stack := {| pn_kind := kind; pn_children := []; pn_start := offset f |} :: stack f;
             roots := roots f; token_index := token_index f; offset := offset f |}.

(** [parent.children.push(child)]. *)
Definition push_child (child : GreenElement R) (parent : PendingNode) : PendingNode :=
  {| pn_kind := pn_kind parent; pn_children := pn_children parent ++ [child];
     pn_start := pn_start parent |}.

(** A token of the tree. *)
Definition green_token (source : Text) (token : TokenKind * R) : GreenToken R :=
  {| gt_kind := SyntaxKind.from_lexer token.1; gt_source := source; gt_range := token.2 |}.

Definition advance_token (source : Text) (tokens : list (TokenKind * R)) (event_index : nat)
    (f : Fold) : Result Fold BuildError :=
  match stack f with
  | [] => Err (AdvanceOutsideNode event_index)
  | parent :: outer =>
      match tokens !! token_index f with
      | None => Err (AdvancePastTokens event_index (length tokens))
      | Some token =>
          Ok {| stack := push_child (Token (green_token source token)) parent :: outer;
                roots := roots f; token_index := S (token_index f); offset := end_ token.2 |}
      end
  end.

Definition close_node (event_index : nat) (f : Fold) : option (Result Fold BuildError) :=
  match stack f with
  | [] => Some (Err (CloseWithoutOpen event_index))
  | pending :: outer =>
      range ← range_new (pn_start pending) (offset f);
      let node := GreenNodeData (pn_kind pending) (pn_children pending) range in
      Some (Ok match outer with
      | parent :: outer =>
          {| stack := push_child (Node node) parent :: outer; roots := roots f;
             token_index := token_index f; offset := offset f |}
      | [] =>
          {| stack := []; roots := roots f ++ [node]; token_index := token_index f;
             offset := offset f |}
      end)
  end.

Definition fold_event (source : Text) (tokens : list (TokenKind * R)) (event_index : nat)
    (event : Event) (f : Fold) : option (Result Fold BuildError) :=
  match event with
  | Open kind => Some (open_node event_index kind f)
  | Advance => Some (advance_token source tokens event_index f)
  | Close => close_node event_index f
  end.

Fixpoint fold_loop (source : Text) (tokens : list (TokenKind * R)) (event_index : nat)
    (events : list Event) (f : Fold) : option (Result Fold BuildError) :=
  match events with
  | [] => Some (Ok f)
  | event :: rest =>
      r ← fold_event source tokens event_index event f;
      match r with
      | Ok f => fold_loop source tokens (S event_index) rest f
      | Err e => Some (Err e)
      end
  end.

Definition finish_root (f : Fold) (total source_end : nat) : option (Result (GreenNode R) BuildError) :=
  if negb (Nat.eqb (length (stack f)) 0) then Some (Err (UnclosedNodes (length (stack f))))
  else if negb (Nat.eqb (token_index f) total) then Some (Err (UnconsumedTokens (token_index f) total))
  else match roots f with
  | [] => Some (Err MissingRoot)
  | [root] =>
      if negb (bool_decide (node_kind root = SyntaxKind.ROOT))
      then Some (Err (ExpectedRootKind (node_kind root)))
      else
        whole ← range_new 0 source_end;
        Some (if negb (bool_decide (node_range root = whole))
              then Err (IncompleteTokenCoverage source_end (end_ (node_range root)))
              else Ok root)
  | roots => Some (Err (MultipleRoots (length roots)))
  end.

Definition fold_events (source : Text) (tokens : list (TokenKind * R)) (events : list Event)
    (source_end : nat) : option (Result (GreenNode R) BuildError) :=
  r ← fold_loop source tokens 0 events {| stack := []; roots := []; token_index := 0; offset := 0 |};
  match r with
  | Ok f => finish_root f (length tokens) source_end
  | Err e => Some (Err e)
  end.

(** [GreenNodeBuilder::finish]. *)
Definition finish (b : GreenNodeBuilder) : option (Result (GreenNode R) BuildError) :=
  match validate_tokens (b_source b) (b_tokens b) with
  | Err e => Some (Err e)
  | Ok source_end => fold_events (b_source b) (b_tokens b) (omap be_event (b_events b)) source_end
  end.
End builder.
Arguments BuildError : clear implicits.
Arguments GreenNodeBuilder : clear implicits.
Arguments PendingNode : clear implicits.
Arguments Fold : clear implicits.
