(* ===== verification/BuilderLaws.v ===== *)
(** * What the tree builder builds

    The events of a tree and its place in the source, and that folding events is
    the inverse of listing them: the lemmas behind [SyntaxProps] and the
    parsers. *)

From S2P Require Import Prelude Utf8 FixPlan Kinds Green Builder.

Section laws.
Context {R : Type} `{TextRangeNew R}.

(** ** Trees as events *)

Fixpoint element_events (e : GreenElement R) : list Event :=
  match e with
  | Token _ => [Advance]
  | Node (GreenNodeData kind children _) =>
      Open kind :: concat (element_events <$> children) ++ [Close]
  end.

Definition tree_events (n : GreenNode R) : list Event := element_events (Node n).

(** Where an element placed at an offset ends: a token is the range after the
    offset, a node is the range of its children. *)
Fixpoint place (e : GreenElement R) (from : nat) : option nat :=
  match e with
  | Token t => if Nat.eqb (start (gt_range t)) from then Some (end_ (gt_range t)) else None
  | Node (GreenNodeData _ children range) =>
      to ← foldl (λ at_ e, at_ ≫= place e) (Some from) children;
      if Nat.eqb (start range) from && Nat.eqb (end_ range) to then Some to else None
  end.

Definition place_list (es : list (GreenElement R)) (from : nat) : option nat :=
  foldl (λ at_ e, at_ ≫= place e) (Some from) es.

(** The kinds of an element below the root: a node has a node kind other than
    [ROOT]. *)
Fixpoint inner_kinds (e : GreenElement R) : bool :=
  match e with
  | Token _ => true
  | Node (GreenNodeData kind children _) =>
      SyntaxKind.is_node kind && negb (bool_decide (kind = SyntaxKind.ROOT))
      && forallb inner_kinds children
  end.

Definition top_kinds (n : GreenNode R) : bool :=
  SyntaxKind.is_node (node_kind n) && forallb inner_kinds (node_children n).

(** ** Balance

    The depth of open nodes after events that close none that was open before,
    [None] if they do. *)
Fixpoint balance (depth : nat) (events : list Event) : option nat :=
  match events with
  | [] => Some depth
  | Open _ :: rest => balance (S depth) rest
  | Advance :: rest => balance depth rest
  | Close :: rest => match depth with 0 => None | S depth => balance depth rest end
  end.

Definition is_advance (e : Event) : bool := match e with Advance => true | _ => false end.

(** How many tokens the events consume. *)
Fixpoint advances (events : list Event) : nat :=
  match events with
  | [] => 0
  | e :: rest => (if is_advance e then 1 else 0) + advances rest
  end.

Definition opens (P : SyntaxKind → bool) (events : list Event) : bool :=
  forallb (λ e, match e with Open kind => P kind | _ => true end) events.

Definition inner_kind (kind : SyntaxKind) : bool :=
  SyntaxKind.is_node kind && negb (bool_decide (kind = SyntaxKind.ROOT)).

Lemma balance_app d d' a b : balance d a = Some d' → balance d (a ++ b) = balance d' b.
Proof.
  revert d. induction a as [|[k| |] a IH]; intros d; simpl; [by intros [= ->]|by apply IH..|].
  destruct d; [done|apply IH].
Qed.

Lemma balance_shift c d d' a : balance d a = Some d' → balance (d + c) a = Some (d' + c).
Proof.
  revert d. induction a as [|[k| |] a IH]; intros d; simpl; [by intros [= ->]|by apply (IH (S d))|apply IH|].
  destruct d; [done|apply IH].
Qed.

Lemma advances_app a b : advances (a ++ b) = advances a + advances b.
Proof. induction a; simpl; [done|]. rewrite IHa. lia. Qed.

Lemma opens_app P a b : opens P (a ++ b) = opens P a && opens P b.
Proof. apply forallb_app. Qed.

(** ** Placement *)

Lemma place_list_cons e es from :
  place_list (e :: es) from = (place e from ≫= place_list es).
Proof.
  unfold place_list. simpl. destruct (place e from) as [to|]; simpl; [done|].
  induction es; simpl; [done|]. by rewrite IHes.
Qed.

Lemma place_list_app es es' from :
  place_list (es ++ es') from = (place_list es from ≫= place_list es').
Proof.
  revert from. induction es as [|e es IH]; intros from; [done|]. simpl.
  rewrite !place_list_cons. destruct (place e from); simpl; [apply IH|done].
Qed.

Lemma place_list_snoc es e from mid to :
  place_list es from = Some mid → place e mid = Some to → place_list (es ++ [e]) from = Some to.
Proof. intros Hl He. rewrite place_list_app, Hl. simpl. by rewrite place_list_cons, He. Qed.

Lemma place_node kind children range from :
  place (Node (GreenNodeData kind children range)) from =
  (to ← place_list children from;
   if Nat.eqb (start range) from && Nat.eqb (end_ range) to then Some to else None).
Proof. done. Qed.

Lemma place_mono e from to : place e from = Some to → from ≤ to.
Proof.
  destruct e as [[k cs r]|t].
  - rewrite place_node. destruct (place_list cs from); simpl; [|done].
    destruct (Nat.eqb_spec (start r) from), (Nat.eqb_spec (end_ r) n); simpl; try done.
    intros [= <-]. subst. apply start_le_end.
  - simpl. destruct (Nat.eqb_spec (start (gt_range t)) from); [|done]. intros [= <-]. subst. apply start_le_end.
Qed.

Lemma place_list_mono es from to : place_list es from = Some to → from ≤ to.
Proof.
  revert from. induction es as [|e es IH]; intros from; [intros [= ->]; lia|].
  rewrite place_list_cons. destruct (place e from) eqn:E; simpl; [|done].
  intros Hl%IH. apply place_mono in E. lia.
Qed.

(** ** The folding as the inverse of listing *)

Context (source : Text) (tokens : list (TokenKind * R)).

Definition pn_events (p : PendingNode R) : list Event :=
  Open (pn_kind p) :: concat (element_events <$> pn_children p).

Definition pn_leaves (p : PendingNode R) : list (GreenToken R) :=
  concat (element_tokens <$> pn_children p).

Definition fold_listing (f : Fold R) : list Event :=
  concat (tree_events <$> roots f) ++ concat (pn_events <$> reverse (stack f)).

Definition fold_leaves (f : Fold R) : list (GreenToken R) :=
  concat (leaves <$> roots f) ++ concat (pn_leaves <$> reverse (stack f)).

(** Every pending node's children reach to where the next one starts. *)
Fixpoint stacked (ps : list (PendingNode R)) (top bottom : nat) : Prop :=
  match ps with
  | [] => top = bottom
  | p :: outer => place_list (pn_children p) (pn_start p) = Some top ∧ stacked outer (pn_start p) bottom
  end.

(** Only the outermost pending node can be a [ROOT]. *)
Fixpoint stack_kinds (ps : list (PendingNode R)) : bool :=
  match ps with
  | [] => true
  | [p] => SyntaxKind.is_node (pn_kind p) && forallb inner_kinds (pn_children p)
  | p :: outer => inner_kind (pn_kind p) && forallb inner_kinds (pn_children p) && stack_kinds outer
  end.

(** Where the tokens before an index end. *)
Definition token_end (index : nat) : nat :=
  match index with 0 => 0 | S i => default 0 ((λ t, end_ t.2) <$> tokens !! i) end.

Definition contiguous : Prop := ∀ j k r, tokens !! j = Some (k, r) → start r = token_end j.

Record fold_ok (f : Fold R) : Prop := {
  fo_leaves : fold_leaves f = green_token source <$> take (token_index f) tokens;
  fo_placed : ∃ bottom, stacked (stack f) (offset f) bottom ∧
                        place_list (Node <$> roots f) 0 = Some bottom;
  fo_kinds : stack_kinds (stack f) = true ∧ forallb top_kinds (roots f) = true;
  fo_index : token_index f ≤ length tokens;
  fo_offset : offset f = token_end (token_index f);
}.

Definition fold_init : Fold R := {| stack := []; roots := []; token_index := 0; offset := 0 |}.

Lemma fold_init_ok : fold_ok fold_init.
Proof. split; simpl; [done|by exists 0|done|lia|done]. Qed.

Lemma concat_snoc {A} (ls : list (list A)) l : concat (ls ++ [l]) = concat ls ++ l.
Proof. rewrite concat_app. simpl. by rewrite app_nil_r. Qed.

Lemma stack_kinds_cons p ps :
  stack_kinds (p :: ps) = true →
  SyntaxKind.is_node (pn_kind p) = true ∧ forallb inner_kinds (pn_children p) = true ∧
  stack_kinds ps = true ∧ (ps ≠ [] → inner_kind (pn_kind p) = true).
Proof.
  destruct ps; simpl; rewrite ?andb_true_iff; [naive_solver|]. unfold inner_kind. rewrite andb_true_iff.
  naive_solver.
Qed.

Lemma stack_kinds_push p ps child :
  stack_kinds (p :: ps) = true → inner_kinds child = true →
  stack_kinds (push_child child p :: ps) = true.
Proof.
  destruct ps; simpl; rewrite !forallb_app; simpl; rewrite !andb_true_iff; naive_solver.
Qed.

Lemma open_node_sound i kind f f' :
  fold_ok f → open_node i kind f = Ok f' → fold_ok f' ∧ fold_listing f' = fold_listing f ++ [Open kind].
Proof.
  intros [Hl (b & Hst & Hr) [Hks Hkr] Hi Ho]. unfold open_node.
  destruct (SyntaxKind.is_node kind) eqn:Ek; simpl; [|done].
  destruct (bool_decide _ && _) eqn:Er; [done|]. intros [= <-]. split; [split; simpl|].
  - rewrite <-Hl. unfold fold_leaves. simpl. rewrite reverse_cons, fmap_app. simpl.
    by rewrite concat_snoc, app_nil_r.
  - exists b. by rewrite Nat.eqb_refl || split_and!.
  - split; [|done]. destruct (stack f) as [|p ps] eqn:Es; [by rewrite Ek|].
    unfold inner_kind. rewrite Ek, Hks. simpl in Er |- *. by destruct (bool_decide _).
  - done.
  - done.
  - unfold fold_listing. simpl. rewrite reverse_cons, fmap_app. simpl.
    by rewrite concat_snoc, (assoc_L (++)).
Qed.

Lemma pn_events_push child p :
  pn_events (push_child child p) = pn_events p ++ element_events child.
Proof. unfold pn_events. simpl. by rewrite fmap_app, concat_app; simpl; rewrite app_nil_r. Qed.

Lemma pn_leaves_push child p :
  pn_leaves (push_child child p) = pn_leaves p ++ element_tokens child.
Proof. unfold pn_leaves. simpl. by rewrite fmap_app, concat_app; simpl; rewrite app_nil_r. Qed.

Lemma advance_token_sound i f f' :
  contiguous → fold_ok f → advance_token source tokens i f = Ok f' →
  fold_ok f' ∧ fold_listing f' = fold_listing f ++ [Advance].
Proof.
  intros Hat [Hl (b & Hst & Hr) [Hks Hkr] Hi Ho]. unfold advance_token.
  destruct (stack f) as [|p ps] eqn:Es; [done|].
  destruct (tokens !! token_index f) as [[k r]|] eqn:Et; [|done]. intros [= <-].
  pose proof (lookup_lt_Some _ _ _ Et). split; [split; simpl|].
  - unfold fold_leaves in *. simpl. rewrite Es, !reverse_cons, !fmap_app in *. simpl in *.
    rewrite !concat_snoc, pn_leaves_push, !(assoc_L (++)) in *.
    rewrite Hl, (take_S_r _ _ _ Et), fmap_app. done.
  - exists b. split; [|done]. destruct Hst as [Hp Hst]. split; [|done].
    eapply place_list_snoc; [exact Hp|]. simpl. by rewrite (Hat _ _ _ Et), Ho, Nat.eqb_refl.
  - split; [|done]. by apply stack_kinds_push.
  - lia.
  - by rewrite Et.
  - unfold fold_listing. simpl. rewrite Es, !reverse_cons, !fmap_app. simpl.
    by rewrite !concat_snoc, pn_events_push, !(assoc_L (++)).
Qed.

Lemma close_node_sound i f r :
  fold_ok f → close_node i f = r →
  match r with
  | None => False
  | Some (Err e) => stack f = [] ∧ e = CloseWithoutOpen i
  | Some (Ok f') => fold_ok f' ∧ fold_listing f' = fold_listing f ++ [Close]
  end.
Proof.
  intros [Hl (b & Hst & Hr) [Hks Hkr] Hi Ho] <-. unfold close_node.
  destruct (stack f) as [|p ps] eqn:Es; [done|]. destruct Hst as [Hp Hst].
  destruct (range_new_ordered (pn_start p) (offset f)) as (rg & -> & Hs & He);
    [by eapply place_list_mono|]. simpl.
  assert (place (Node (GreenNodeData (pn_kind p) (pn_children p) rg)) (pn_start p) = Some (offset f)) as Hpl.
  { by rewrite place_node, Hp; simpl; rewrite Hs, He, !Nat.eqb_refl. }
  apply stack_kinds_cons in Hks as (Hk & Hc & Hks & Hin).
  assert (fold_listing f ++ [Close] = concat (tree_events <$> roots f) ++ concat (pn_events <$> reverse ps)
          ++ tree_events (GreenNodeData (pn_kind p) (pn_children p) rg)) as El.
  { unfold fold_listing. rewrite Es, reverse_cons, fmap_app. simpl.
    by rewrite concat_snoc, <-!(assoc_L (++)). }
  assert (fold_leaves f = concat (leaves <$> roots f) ++ concat (pn_leaves <$> reverse ps)
          ++ leaves (GreenNodeData (pn_kind p) (pn_children p) rg)) as Elv.
  { unfold fold_leaves. rewrite Es, reverse_cons, fmap_app. simpl. by rewrite concat_snoc. }
  rewrite El. rewrite Elv in Hl. destruct ps as [|q ps]; (split; [split; simpl|]); try done.
  - rewrite <-Hl. unfold fold_leaves. simpl. by rewrite fmap_app, concat_app; simpl; rewrite !app_nil_r.
  - exists (offset f). split; [done|]. rewrite fmap_app. simpl in Hst. subst.
    by eapply place_list_snoc.
  - split; [done|]. rewrite forallb_app, Hkr. simpl. unfold top_kinds. simpl. by rewrite Hk, Hc.
  - unfold fold_listing. simpl. by rewrite fmap_app, concat_app; simpl; rewrite !app_nil_r.
  - rewrite <-Hl. unfold fold_leaves. simpl. rewrite !reverse_cons, !fmap_app. simpl.
    by rewrite !concat_snoc, pn_leaves_push, !(assoc_L (++)), element_tokens_node.
  - exists b. split; [|done]. destruct Hst as [Hq Hst]. split; [|done]. by eapply place_list_snoc.
  - split; [|done]. apply stack_kinds_push; [done|]. unfold inner_kind in Hin. simpl.
    by rewrite Hin, Hc.
  - unfold fold_listing. simpl. rewrite !reverse_cons, !fmap_app. simpl.
    by rewrite !concat_snoc, pn_events_push, !(assoc_L (++)).
Qed.

Lemma fold_event_sound i ev f f' :
  contiguous → fold_ok f → fold_event source tokens i ev f = Some (Ok f') →
  fold_ok f' ∧ fold_listing f' = fold_listing f ++ [ev].
Proof.
  intros Hat Hf. destruct ev as [k| |]; simpl.
  - intros [= ?]. by eapply open_node_sound.
  - intros [= ?]. by eapply advance_token_sound.
  - intros E. exact (close_node_sound _ _ _ Hf E).
Qed.

Lemma fold_event_total i ev f : fold_ok f → is_Some (fold_event source tokens i ev f).
Proof.
  intros Hf. destruct ev; simpl; [eauto..|]. pose proof (close_node_sound i f _ Hf eq_refl).
  destruct (close_node i f); [eauto|done].
Qed.

Lemma fold_loop_sound i evs f :
  contiguous → fold_ok f →
  match fold_loop source tokens i evs f with
  | None => False
  | Some (Err e) => True
  | Some (Ok f') => fold_ok f' ∧ fold_listing f' = fold_listing f ++ evs
  end.
Proof.
  intros Hat. revert i f. induction evs as [|ev evs IH]; intros i f Hf; simpl.
  { by rewrite app_nil_r. }
  destruct (fold_event_total i ev f Hf) as [[f'|e] E]; rewrite E; simpl; [|done].
  destruct (fold_event_sound _ _ _ _ Hat Hf E) as [Hf' El].
  specialize (IH (S i) f' Hf'). destruct (fold_loop _ _ _ _ _) as [[f''|e]|]; try done.
  by rewrite El, <-(assoc_L (++)) in IH.
Qed.

(** ** Valid tokens *)

Definition token_span (t : TokenKind * R) : nat * nat := (start t.2, end_ t.2).

Record valid_tokens : Prop := {
  vt_size : (N.of_nat (length source) ≤ U32_MAX)%N;
  vt_tiles : tiles (token_span <$> tokens) 0 (length source);
  vt_boundaries : Forall (λ t, is_char_boundary source (start t.2) = true ∧
                               is_char_boundary source (end_ t.2) = true) tokens;
}.
End laws.

Section tokens.
Context {R : Type} `{TextRangeNew R}.

Lemma tiles_le spans from to : tiles spans from to → from ≤ to.
Proof.
  revert from. induction spans as [|[s e] spans IH]; intros from; simpl; [lia|].
  intros (-> & Hlt & Ht%IH). lia.
Qed.

Lemma tiles_contiguous (tokens : list (TokenKind * R)) to :
  tiles (token_span <$> tokens) 0 to →
  contiguous tokens ∧ token_end tokens (length tokens) = to.
Proof.
  intros Ht. assert (∀ done_ rest from, tokens = done_ ++ rest → tiles (token_span <$> rest) from to →
    from = token_end tokens (length done_) →
    (∀ j k r, length done_ ≤ j → tokens !! j = Some (k, r) → start r = token_end tokens j) ∧
    token_end tokens (length tokens) = to) as Hgen.
  { intros done_ rest. revert done_. induction rest as [|[k r] rest IH]; intros done_ from -> Hr Hf; simpl in *.
    - rewrite app_nil_r in *. split; [|congruence]. intros j k r Hj E%lookup_lt_Some. lia.
    - destruct Hr as (Hs & Hlt & Hr).
      assert (token_end (done_ ++ (k, r) :: rest) (length (done_ ++ [(k, r)])) = end_ r) as Hend.
      { rewrite length_app, Nat.add_comm. simpl. by rewrite list_lookup_middle. }
      destruct (IH (done_ ++ [(k, r)]) (end_ r)) as [IHc IHe]; [by rewrite <-(assoc_L (++))|done|by rewrite Hend|].
      split; [|done]. intros j k' r' Hj E. destruct (decide (j = length done_)) as [->|].
      + rewrite list_lookup_middle in E by done. injection E as [= <- <-]. by rewrite Hs.
      + eapply IHc; [|done]. rewrite length_app. simpl. lia. }
  destruct (Hgen [] tokens 0) as [Hc He]; [done..|]. split; [|done]. intros j k r. apply Hc. simpl. lia.
Qed.

Lemma valid_contiguous source (tokens : list (TokenKind * R)) :
  valid_tokens source tokens →
  contiguous tokens ∧ token_end tokens (length tokens) = length source.
Proof. intros [_ Ht _]. by apply tiles_contiguous. Qed.

Lemma validate_token_range_spec source i (r : R) expected send :
  validate_token_range source i r expected send = Ok () ↔
  start r = expected ∧ start r < end_ r ∧ end_ r ≤ send ∧
  is_char_boundary source (start r) = true ∧ is_char_boundary source (end_ r) = true.
Proof.
  unfold validate_token_range. rewrite span_is_empty_spec.
  destruct (Nat.eqb_spec (start r) expected); simpl; [|naive_solver].
  pose proof (start_le_end r). destruct (Nat.eqb_spec (start r) (end_ r)); simpl; [split; [done|lia]|].
  destruct (Nat.ltb_spec send (end_ r)); [split; [done|lia]|].
  destruct (is_char_boundary source (start r)); simpl; [|naive_solver].
  destruct (is_char_boundary source (end_ r)); simpl; [|naive_solver].
  split; [|done]. intros _. split_and!; try done; lia.
Qed.

Lemma validate_ranges_spec source send i from (tokens : list (TokenKind * R)) to :
  validate_ranges source send i from tokens = Ok to ∧ from ≤ send →
  tiles (token_span <$> tokens) from to ∧ to ≤ send ∧
  Forall (λ t, is_char_boundary source (start t.2) = true ∧
               is_char_boundary source (end_ t.2) = true) tokens.
Proof.
  revert i from. induction tokens as [|[k r] tokens IH]; intros i from; simpl.
  { intros [[= ->] ?]. repeat constructor; done. }
  intros [([] & Hv & Hr)%res_bind_ok Hle]. apply validate_token_range_spec in Hv as (? & ? & ? & ? & ?).
  destruct (IH (S i) (end_ r)) as (Ht & Hto & Hb); [done|]. split_and!; try done. by constructor.
Qed.

Lemma validate_ranges_complete source send i from (tokens : list (TokenKind * R)) to :
  tiles (token_span <$> tokens) from to → to ≤ send →
  Forall (λ t, is_char_boundary source (start t.2) = true ∧
               is_char_boundary source (end_ t.2) = true) tokens →
  validate_ranges source send i from tokens = Ok to.
Proof.
  intros Ht Hto Hb. revert i from Ht. induction Hb as [|[k r] tokens [Hs He] Hb IH]; intros i from; simpl.
  { by intros ->. }
  intros (Hf & Hlt & Ht). apply res_bind_ok. exists (). split; [|by apply IH].
  apply validate_token_range_spec. apply tiles_le in Ht. split_and!; try done. lia.
Qed.

Lemma validate_tokens_spec source (tokens : list (TokenKind * R)) n :
  validate_tokens source tokens = Ok n ↔ n = length source ∧ valid_tokens source tokens.
Proof.
  unfold validate_tokens, source_end, TextSize_try_from.
  destruct (N.leb_spec (N.of_nat (length source)) U32_MAX) as [Hle|Hlt]; simpl.
  2:{ split; [done|]. intros [_ [? _ _]]. lia. }
  rewrite res_bind_ok. split.
  - intros (to & Hv & Hn). destruct (Nat.eqb_spec to (length source)) as [->|]; [|done].
    injection Hn as [= <-]. destruct (validate_ranges_spec source (length source) 0 0 tokens (length source));
      [split; [done|lia]|]. split; [done|]. constructor; naive_solver.
  - intros [-> [? Ht Hb]]. exists (length source). split; [by apply validate_ranges_complete|].
    by rewrite Nat.eqb_refl.
Qed.
End tokens.

(** ** The trees of a source *)

Section trees.
Context {R : Type} `{TextRangeNew R} (source : Text) (tokens : list (TokenKind * R)).

(** A tree of the source: its root and its nodes have the right kinds, its
    tokens are those of the source, and its ranges are where these lie. *)
Record tree_of (g : GreenNode R) : Prop := {
  to_kind : node_kind g = SyntaxKind.ROOT;
  to_inner : forallb inner_kinds (node_children g) = true;
  to_leaves : leaves g = green_token source <$> tokens;
  to_place : place (Node g) 0 = Some (length source);
}.

Lemma place_range g from to : place (Node g) from = Some to → start (node_range g) = from ∧ end_ (node_range g) = to.
Proof.
  destruct g as [k cs r]. rewrite place_node. simpl. destruct (place_list cs from); simpl; [|done].
  destruct (Nat.eqb_spec (start r) from), (Nat.eqb_spec (end_ r) n); simpl; naive_solver.
Qed.

Lemma fold_root_ok (f : Fold R) root :
  contiguous tokens → fold_ok source tokens f → stack f = [] → roots f = [root] →
  token_index f = length tokens →
  leaves root = green_token source <$> tokens ∧
  place (Node root) 0 = Some (token_end tokens (length tokens)) ∧
  fold_listing f = tree_events root ∧ top_kinds root = true.
Proof.
  intros Hc [Hl (b & Hst & Hr) [_ Hk] _ Ho] Es Er Ei.
  unfold fold_leaves, fold_listing in *. rewrite Es, Er, Ei in *. simpl in *. rewrite !app_nil_r in *.
  split_and!; [by rewrite Hl, firstn_all| |done|by apply andb_true_iff in Hk as [? _]].
  unfold place_list in Hr. simpl in Hr. by rewrite Hr, <-Hst, Ho.
Qed.

Lemma finish_root_sound (f : Fold R) g :
  valid_tokens source tokens → fold_ok source tokens f →
  finish_root f (length tokens) (length source) = Some (Ok g) →
  tree_of g ∧ fold_listing f = tree_events g.
Proof.
  intros Hv Hf. pose proof (valid_contiguous _ _ Hv) as [Hc He]. unfold finish_root.
  destruct (stack f) as [|] eqn:Es; simpl; [|done].
  destruct (Nat.eqb_spec (token_index f) (length tokens)) as [Ei|]; simpl; [|done].
  destruct (roots f) as [|root [|]] eqn:Er; try done.
  case_bool_decide as Ek; simpl; [|done].
  destruct (range_new_ordered 0 (length source)) as (w & -> & _ & _); [lia|]. simpl.
  case_bool_decide; simpl; [|done]. intros [= <-].
  destruct (fold_root_ok f root Hc Hf Es Er Ei) as (Hl & Hp & Hlist & Hk).
  unfold top_kinds in Hk. apply andb_true_iff in Hk as [_ Hk]. split; [|done]. split; try done. by rewrite Hp, He.
Qed.

Lemma finish_sound b g :
  b_source b = source → b_tokens b = tokens → finish b = Some (Ok g) →
  valid_tokens source tokens ∧ omap be_event (b_events b) = tree_events g ∧ tree_of g.
Proof.
  intros Hs Ht. unfold finish, fold_events. rewrite Hs, Ht.
  destruct (validate_tokens source tokens) as [n|] eqn:Ev; [|done].
  apply validate_tokens_spec in Ev as [-> Hv]. pose proof (valid_contiguous _ _ Hv) as [Hc _].
  pose proof (fold_loop_sound source tokens 0 (omap be_event (b_events b)) _ Hc
    (fold_init_ok source tokens)) as Hl. unfold fold_init in Hl.
  destruct (fold_loop _ _ _ _ _) as [[f|e]|]; simpl; [|done..]. destruct Hl as [Hf Hlist].
  intros Hg. destruct (finish_root_sound _ _ Hv Hf Hg) as [Ho El]. by rewrite <-El, Hlist.
Qed.

(** ** Folding the events of a tree *)

Lemma element_ind (P : GreenElement R → Prop) :
  (∀ t, P (Token t)) → (∀ k cs r, Forall P cs → P (Node (GreenNodeData k cs r))) → ∀ e, P e.
Proof.
  intros HT HN. fix IH 1. intros [[k cs r]|t]; [|apply HT]. apply HN. induction cs; constructor; auto.
Qed.

(** What folding one complete element does. *)
Definition push_element (e : GreenElement R) (to : nat) (f : Fold R) (p : PendingNode R) ps : Fold R :=
  {| stack := push_child e p :: ps; roots := roots f;
     token_index := token_index f + length (element_tokens e); offset := to |}.

Definition folds (e : GreenElement R) : Prop := ∀ i evs f p ps to post,
  stack f = p :: ps → inner_kinds e = true → place e (offset f) = Some to →
  drop (token_index f) (green_token source <$> tokens) = element_tokens e ++ post →
  fold_loop source tokens i (element_events e ++ evs) f =
  fold_loop source tokens (i + length (element_events e)) evs (push_element e to f p ps).

(** What folding complete siblings does. *)
Definition push_elements (es : list (GreenElement R)) (to : nat) (f : Fold R) (p : PendingNode R) ps : Fold R :=
  {| stack := {| pn_kind := pn_kind p; pn_children := pn_children p ++ es; pn_start := pn_start p |} :: ps;
     roots := roots f; token_index := token_index f + length (concat (element_tokens <$> es));
     offset := to |}.

Lemma fold_elements es i evs f p ps to post :
  Forall folds es → stack f = p :: ps → forallb inner_kinds es = true →
  place_list es (offset f) = Some to →
  drop (token_index f) (green_token source <$> tokens) = concat (element_tokens <$> es) ++ post →
  fold_loop source tokens i (concat (element_events <$> es) ++ evs) f =
  fold_loop source tokens (i + length (concat (element_events <$> es))) evs (push_elements es to f p ps).
Proof.
  intros HF. revert i f p. induction HF as [|c es Hc HF IH]; intros i f p Es Hk Hp Ht.
  - cbn in Hp. injection Hp as Hp. destruct f as [st rs ti o], p. unfold push_elements. simpl in *.
    by rewrite app_nil_r, !Nat.add_0_r, Es, Hp.
  - rewrite place_list_cons in Hp. destruct (place c (offset f)) as [m|] eqn:Ec; [|done]. simpl in Hp.
    simpl in Hk. apply andb_true_iff in Hk as [Hk1 Hk2].
    rewrite !fmap_cons in *. cbn [concat] in *. rewrite <-!(assoc_L (++)) in *.
    rewrite (Hc _ _ _ _ _ _ _ Es Hk1 Ec Ht).
    rewrite (IH _ (push_element c m f p ps) (push_child c p) eq_refl Hk2 Hp);
      [|by simpl; rewrite <-drop_drop, Ht, drop_app_length].
    unfold push_elements. simpl. by rewrite !length_app, <-(assoc_L (++)), !Nat.add_assoc.
Qed.

Lemma fold_element e : folds e.
Proof.
  induction e as [t|k cs r IH] using element_ind; intros i evs f p ps to post Es Hk Hp Ht.
  - simpl in *. unfold advance_token. rewrite Es.
    assert ((green_token source <$> tokens) !! token_index f = Some t) as Hlk.
    { rewrite <-(Nat.add_0_r (token_index f)), <-lookup_drop, Ht. done. }
    rewrite list_lookup_fmap in Hlk. destruct (tokens !! token_index f) as [tok|]; [|done].
    simpl in Hlk. injection Hlk as <-. simpl in *. destruct (Nat.eqb _ _); [|done].
    injection Hp as <-. unfold push_element. simpl. by rewrite !(Nat.add_comm _ 1).
  - rewrite place_node in Hp. destruct (place_list cs (offset f)) as [mid|] eqn:Hcs; [|done]. simpl in Hp.
    destruct (Nat.eqb_spec (start r) (offset f)) as [Hr1|]; [|done].
    destruct (Nat.eqb_spec (end_ r) mid) as [Hr2|]; [|done]. simpl in Hp. injection Hp as ->.
    simpl in Hk. apply andb_true_iff in Hk as [Hk Hks]. apply andb_true_iff in Hk as [Hk Hroot].
    simpl. unfold open_node. rewrite Hk. simpl.
    destruct (bool_decide (k = SyntaxKind.ROOT)); [done|]. simpl. rewrite <-(assoc_L (++)).
    erewrite fold_elements; [|done|reflexivity|done..].
    unfold push_elements. simpl. unfold close_node. simpl.
    destruct (range_new_ordered (offset f) to) as (rg & -> & Hg1 & Hg2);
      [by eapply place_list_mono|]. simpl. rewrite Es.
    assert (rg = r) as -> by (apply range_ext; congruence).
    rewrite !length_app. simpl. f_equal. lia.
Qed.

Lemma finish_complete g :
  valid_tokens source tokens → tree_of g →
  fold_events source tokens (tree_events g) (length source) = Some (Ok g).
Proof.
  intros Hv [Hk Hi Hl Hp]. destruct g as [k cs r]. cbn [node_kind node_children] in Hk, Hi. subst k.
  pose proof (place_range _ _ _ Hp) as [Hr1 Hr2]. rewrite place_node in Hp.
  destruct (place_list cs 0) as [mid|] eqn:Hcs; [|done]. simpl in Hp, Hr1, Hr2.
  rewrite Hr1, Nat.eqb_refl in Hp. destruct (Nat.eqb_spec (end_ r) mid) as [<-|]; [|done].
  unfold fold_events, tree_events. simpl. unfold leaves in Hl. simpl in Hl.
  erewrite (fold_elements cs 1 [Close] _ _ [] _ []);
    [|apply Forall_forall; intros; apply fold_element|reflexivity|done|exact Hcs|by rewrite Hl, app_nil_r].
  unfold push_elements. simpl. rewrite Hl, length_fmap. unfold close_node. simpl. rewrite Hr2.
  destruct (range_new_ordered 0 (length source)) as (w & Hw & Hw1 & Hw2); [lia|]. rewrite Hw. simpl.
  assert (w = r) as -> by (apply range_ext; congruence).
  unfold finish_root. simpl. rewrite Nat.eqb_refl. simpl. rewrite Hw. simpl.
  by rewrite bool_decide_true by done.
Qed.

(** ** Balanced events build a tree *)

Lemma fold_balanced evs i f c d d' :
  fold_ok source tokens f → contiguous tokens →
  length (stack f) = d + S c → balance d evs = Some d' → opens inner_kind evs = true →
  token_index f + advances evs ≤ length tokens →
  ∃ f', fold_loop source tokens i evs f = Some (Ok f') ∧ fold_ok source tokens f' ∧
        length (stack f') = d' + S c ∧ token_index f' = token_index f + advances evs ∧
        roots f' = roots f.
Proof.
  intros Hf Hc. revert i f d Hf. induction evs as [|ev evs IH]; intros i f d Hf Hlen Hb Ho Ha.
  { simpl in *. injection Hb as ->. exists f. split_and!; done || lia. }
  assert (∀ f1 d1, fold_event source tokens i ev f = Some (Ok f1) → length (stack f1) = d1 + S c →
    balance d1 evs = Some d' → token_index f1 = token_index f + (if is_advance ev then 1 else 0) →
    roots f1 = roots f →
    ∃ f', fold_loop source tokens i (ev :: evs) f = Some (Ok f') ∧ fold_ok source tokens f' ∧
        length (stack f') = d' + S c ∧ token_index f' = token_index f + advances (ev :: evs) ∧
        roots f' = roots f) as Hstep.
  { intros f1 d1 E Hl1 Hb1 Ht1 Hr1. destruct (fold_event_sound _ _ _ _ _ _ Hc Hf E) as [Hf1 _].
    simpl in Ho. apply andb_true_iff in Ho as [_ Ho].
    destruct (IH (S i) f1 d1 Hf1 Hl1 Hb1 Ho) as (f' & E' & Hf' & Hl' & Ht' & Hr').
    { simpl in Ha. rewrite Ht1. lia. }
    exists f'. simpl. rewrite E. simpl. split_and!; [done..| |congruence]. rewrite Ht', Ht1. lia. }
  destruct ev as [k| |]; simpl in Hb, Ho, Ha |- *.
  - apply andb_true_iff in Ho as [Ho _]. unfold inner_kind in Ho. apply andb_true_iff in Ho as [Hk Hr].
    assert (fold_event source tokens i (Open k) f = Some (Ok {| stack :=
      {| pn_kind := k; pn_children := []; pn_start := offset f |} :: stack f; roots := roots f;
      token_index := token_index f; offset := offset f |})) as E.
    { simpl. unfold open_node. rewrite Hk. simpl. by destruct (bool_decide (k = SyntaxKind.ROOT)). }
    eapply (Hstep _ (S d)); [exact E|simpl; lia|done|simpl; lia|done].
  - destruct (stack f) as [|p ps] eqn:Es; [simpl in Hlen; lia|].
    destruct (lookup_lt_is_Some_2 tokens (token_index f)) as [t Et]; [lia|].
    eapply (Hstep _ d); [simpl; unfold advance_token; by rewrite Es, Et|simpl in *; lia|done|simpl; lia|done].
  - destruct d as [|d]; [done|]. destruct (stack f) as [|p [|q ps]] eqn:Es; simpl in Hlen; try lia.
    destruct (fold_event_total source tokens i Close f Hf) as [[f1|e] E].
    + assert (length (stack f1) = d + S c ∧ token_index f1 = token_index f ∧ roots f1 = roots f) as (?&?&?).
      { simpl in E. unfold close_node in E. rewrite Es in E. destruct (range_new _ _); [|done]. simpl in E.
        injection E as <-. simpl. split_and!; [lia|done..]. }
      eapply (Hstep _ d); [exact E|done|done|simpl; lia|done].
    + pose proof (close_node_sound _ _ i f _ Hf E) as [? _]. congruence.
Qed.

Lemma finish_balanced evs :
  valid_tokens source tokens → balance 0 evs = Some 0 → opens inner_kind evs = true →
  advances evs = length tokens →
  ∃ g, fold_events source tokens (Open SyntaxKind.ROOT :: evs ++ [Close]) (length source) = Some (Ok g) ∧
       tree_of g ∧ tree_events g = Open SyntaxKind.ROOT :: evs ++ [Close].
Proof.
  intros Hv Hb Ho Ha. pose proof (valid_contiguous _ _ Hv) as [Hc He].
  set (f0 := {| stack := [{| pn_kind := SyntaxKind.ROOT; pn_children := []; pn_start := 0 |}];
                roots := []; token_index := 0; offset := 0 |} : Fold R).
  destruct (fold_event_sound source tokens 0 (Open SyntaxKind.ROOT) (fold_init) f0 Hc
    (fold_init_ok _ _) eq_refl) as [Hf0 Hl0].
  destruct (fold_balanced (evs) 1 f0 0 0 0 Hf0 Hc) as (f1 & E1 & Hf1 & Hl1 & Ht1 & Hr1); try done.
  { simpl. lia. }
  destruct (stack f1) as [|p [|]] eqn:Es1; simpl in Hl1; try lia.
  assert (∀ i, ∃ f2, fold_loop source tokens i [Close] f1 = Some (Ok f2) ∧ stack f2 = [] ∧
    token_index f2 = length tokens ∧ ∃ root, roots f2 = [root]) as Hclose.
  { intros i. simpl. unfold close_node. rewrite Es1.
    destruct (fo_placed _ _ _ Hf1) as (b & Hst & _). rewrite Es1 in Hst. destruct Hst as [Hst _].
    destruct (range_new_ordered (pn_start p) (offset f1)) as (w & -> & _); [by eapply place_list_mono|].
    simpl. eexists. split_and!; [done..| |]; simpl; [by rewrite Ht1|]. rewrite Hr1. simpl. eauto. }
  assert (∃ f2, fold_loop source tokens 0 (Open SyntaxKind.ROOT :: evs ++ [Close]) fold_init = Some (Ok f2)
    ∧ stack f2 = [] ∧ token_index f2 = length tokens ∧ ∃ root, roots f2 = [root]) as (f2 & E2 & Hs2 & Ht2 & root & Hr2).
  { assert (∀ i g h, fold_loop source tokens i evs g = Some (Ok h) →
      ∃ j, fold_loop source tokens i (evs ++ [Close]) g = fold_loop source tokens j [Close] h) as Happ.
    { clear. induction evs as [|ev evs IH]; intros i g h; [intros [= ->]; by exists i|].
      simpl. destruct (fold_event _ _ _ _ _) as [[g'|]|]; simpl; try done. apply IH. }
    destruct (Happ 1 f0 f1 E1) as (j & Ej). destruct (Hclose j) as (f2 & E2 & ?).
    exists f2. split; [|done]. simpl. fold f0. by rewrite Ej. }
  pose proof (fold_loop_sound source tokens 0 (Open SyntaxKind.ROOT :: evs ++ [Close]) _ Hc (fold_init_ok _ _)) as Hs.
  rewrite E2 in Hs. destruct Hs as [Hf2 Hlist].
  destruct (fold_root_ok f2 root Hc Hf2 Hs2 Hr2 Ht2) as (Hlv & Hp & Hev & Hk).
  assert (node_kind root = SyntaxKind.ROOT) as Hroot.
  { rewrite Hev in Hlist. destruct root as [k cs r]. by injection Hlist. }
  assert (tree_of root) as Hto.
  { unfold top_kinds in Hk. apply andb_true_iff in Hk as [_ Hk]. split; try done. by rewrite Hp, He. }
  assert (tree_events root = Open SyntaxKind.ROOT :: evs ++ [Close]) as Hte by by rewrite <-Hev, Hlist.
  exists root. split_and!; try done. rewrite <-Hte. by apply finish_complete.
Qed.

(** ** What the tree says of the source *)

Lemma take_drop_piece (s : Text) a b : a ≤ b → take a s ++ take (b - a) (drop a s) = take b s.
Proof. intros. rewrite <-(take_drop a (take b s)), take_take, Nat.min_l by done. by rewrite skipn_firstn_comm. Qed.

Lemma tokens_text ts from to :
  tiles (token_span <$> ts) from to → to ≤ length source →
  Forall (λ t, is_char_boundary source (start t.2) = true ∧ is_char_boundary source (end_ t.2) = true) ts →
  take from source ++ concat (gt_text <$> (green_token source <$> ts)) = take to source.
Proof.
  intros Ht Hto Hb. revert from Ht. induction Hb as [|[k r] ts [Hs He] Hb IH]; intros from; simpl.
  { intros ->. by rewrite app_nil_r. }
  intros (Hf & Hlt & Ht). rewrite <-(IH _ Ht), (assoc_L (++)). f_equal.
  pose proof (tiles_le _ _ _ Ht). unfold gt_text, str_get. simpl in *.
  rewrite Hs, He, !(proj2 (Nat.leb_le _ _)) by lia. simpl. subst. apply take_drop_piece. lia.
Qed.

Lemma tree_of_text g : valid_tokens source tokens → tree_of g → node_text g = Some source.
Proof.
  intros [_ Ht Hb] [_ _ Hl _]. rewrite node_text_leaves, Hl. f_equal.
  rewrite <-(firstn_all source) at 2. rewrite <-(tokens_text tokens 0 (length source)); done.
Qed.
End trees.

Section reach.
Context {R : Type} `{TextRangeNew R}.
Implicit Types tokens : list (TokenKind * R).

Lemma token_end_S tokens i k r : tokens !! i = Some (k, r) → token_end tokens (S i) = end_ r.
Proof. simpl. by intros ->. Qed.

Lemma token_end_mono tokens i j :
  contiguous tokens → i ≤ j → j ≤ length tokens → token_end tokens i ≤ token_end tokens j.
Proof.
  intros Hc Hij. induction Hij as [|j Hij IH]; intros Hj; [done|]. etransitivity; [apply IH; lia|].
  destruct (lookup_lt_is_Some_2 tokens j) as [[k r] E]; [lia|].
  rewrite (token_end_S _ _ _ _ E), <-(Hc _ _ _ E). apply start_le_end.
Qed.
End reach.
