(* ===== verification/EventStream.v ===== *)
(** * The parser's event stream

    [EventStream] of [pure-analyzer-parser/src/m3.rs]: a linked arena in which
    an event can be inserted after an earlier one in constant time.  [None] is
    an index out of bounds.  The stream refines a list of named events. *)

From S2P Require Import Prelude Utf8 FixPlan Kinds Green Builder.

Record EventLink := { link_event : Event; next : option nat }.

Record EventStream := { nodes : list EventLink; es_head : option nat; es_tail : option nat }.

Definition with_capacity : EventStream := {| nodes := []; es_head := None; es_tail := None |}.

(** [self.nodes[index].next = next]. *)
Definition set_next (nodes : list EventLink) (index : nat) (next : option nat) : option (list EventLink) :=
  link ← nodes !! index;
  Some (<[index := {| link_event := link_event link; next := next |}]> nodes).

Definition append (s : EventStream) (event : Event) : option EventStream :=
  let index := length (nodes s) in
  let pushed := nodes s ++ [{| link_event := event; next := None |}] in
  match es_tail s with
  | Some tail =>
      linked ← set_next pushed tail (Some index);
      Some {| nodes := linked; es_head := es_head s; es_tail := Some index |}
  | None => Some {| nodes := pushed; es_head := Some index; es_tail := Some index |}
  end.

Definition anchor (s : EventStream) : option nat := es_tail s.

Definition insert_after (s : EventStream) (anchor : nat) (event : Event) : option EventStream :=
  let index := length (nodes s) in
  link ← nodes s !! anchor;
  linked ← set_next (nodes s ++ [{| link_event := event; next := next link |}]) anchor (Some index);
  Some {| nodes := linked; es_head := es_head s;
          es_tail := if bool_decide (es_tail s = Some anchor) then Some index else es_tail s |}.

(** The walk of [into_events] visits a link once. *)
Fixpoint walk (fuel : nat) (nodes : list EventLink) (current : option nat) : option (list Event) :=
  match current with
  | None => Some []
  | Some index =>
      match fuel with
      | 0 => None
      | S fuel =>
          link ← nodes !! index;
          cons (link_event link) <$> walk fuel nodes (next link)
      end
  end.

Definition into_events (s : EventStream) : option (list Event) :=
  walk (length (nodes s)) (nodes s) (es_head s).

(** ** The list behind the arena *)

Abbreviation Path := (list (nat * Event)).

(** The links from one index to another, with their events. *)
Fixpoint segment (nodes : list EventLink) (from : option nat) (path : Path) (to : option nat) : Prop :=
  match path with
  | [] => from = to
  | (i, e) :: rest =>
      from = Some i ∧ ∃ n, nodes !! i = Some {| link_event := e; next := n |} ∧ segment nodes n rest to
  end.

Record represents (s : EventStream) (path : Path) : Prop := {
  rp_linked : segment (nodes s) (es_head s) path None;
  rp_nodup : NoDup path.*1;
  rp_tail : es_tail s = fst <$> last path;
}.

Lemma segment_app nodes from a b to :
  segment nodes from (a ++ b) to ↔ ∃ mid, segment nodes from a mid ∧ segment nodes mid b to.
Proof.
  revert from. induction a as [|[i e] a IH]; intros from; simpl; [naive_solver|].
  setoid_rewrite IH. naive_solver.
Qed.

Lemma segment_frame nodes nodes' from path to :
  (∀ i, i ∈ path.*1 → nodes' !! i = nodes !! i) → segment nodes from path to → segment nodes' from path to.
Proof.
  revert from. induction path as [|[i e] path IH]; intros from Hf; simpl; [done|].
  intros (-> & n & E & Hs). split; [done|]. exists n. split; [by rewrite Hf by left|].
  apply IH; [|done]. intros j Hj. apply Hf. by right.
Qed.

Lemma segment_bound nodes from path to i : segment nodes from path to → i ∈ path.*1 → i < length nodes.
Proof.
  revert from. induction path as [|[j e] path IH]; intros from; simpl; [by intros _ ?%not_elem_of_nil|].
  intros (-> & n & E & Hs) [->|Hi]%elem_of_cons; [by eapply lookup_lt_Some|eauto].
Qed.

Lemma represents_empty : represents with_capacity [].
Proof. split; simpl; [done|constructor|done]. Qed.

Lemma walk_segment nodes fuel from path :
  segment nodes from path None → length path ≤ fuel → walk fuel nodes from = Some path.*2.
Proof.
  revert fuel from. induction path as [|[i e] path IH]; intros fuel from; simpl.
  { intros -> _. by destruct fuel. }
  intros (-> & n & E & Hs) Hl. destruct fuel as [|fuel]; [lia|]. simpl. rewrite E. simpl.
  rewrite (IH fuel); [done|done|lia].
Qed.

Lemma represents_length s path : represents s path → length path ≤ length (nodes s).
Proof.
  intros [Hs Hn _]. rewrite <-(length_fmap fst path).
  assert (path.*1 ⊆ seq 0 (length (nodes s))) as Hsub.
  { intros i Hi. apply elem_of_seq. pose proof (segment_bound _ _ _ _ _ Hs Hi). lia. }
  apply NoDup_submseteq, submseteq_length in Hsub; [by rewrite length_seq in Hsub|done].
Qed.

Lemma into_events_represents s path : represents s path → into_events s = Some path.*2.
Proof. intros H. apply walk_segment; [apply H|by apply represents_length]. Qed.

(** Linking a new event after the [anchor] of the path. *)
Lemma relink nodes from a i e b event n :
  segment nodes from (a ++ (i, e) :: b) None → NoDup (a ++ (i, e) :: b).*1 →
  nodes !! i = Some {| link_event := e; next := n |} →
  ∃ linked, set_next (nodes ++ [{| link_event := event; next := n |}]) i (Some (length nodes)) = Some linked ∧
    segment linked from (a ++ (i, e) :: (length nodes, event) :: b) None.
Proof.
  intros Hs Hn Hi. unfold set_next. pose proof (lookup_lt_Some _ _ _ Hi) as Hlt.
  rewrite lookup_app_l by done. rewrite Hi. simpl. eexists. split; [done|].
  rewrite segment_app in Hs. destruct Hs as (mid & Ha & -> & n' & Hi' & Hb).
  rewrite Hi in Hi'. injection Hi' as ->.
  rewrite fmap_app in Hn. simpl in Hn. apply NoDup_app in Hn as (_ & Hai & Hib).
  apply NoDup_cons in Hib as [Hib _].
  assert (∀ j, j < length nodes → j ≠ i →
    <[i:={| link_event := e; next := Some (length nodes) |}]>
      (nodes ++ [{| link_event := event; next := n' |}]) !! j = nodes !! j) as Hframe.
  { intros j Hj Hne. rewrite list_lookup_insert_ne by done. by apply lookup_app_l. }
  apply segment_app. exists (Some i). split; [|split; [done|]].
  - eapply segment_frame; [|exact Ha]. intros j Hj. apply Hframe; [exact (segment_bound _ _ _ _ _ Ha Hj)|].
    intros ->. apply (Hai i Hj). by left.
  - exists (Some (length nodes)). split.
    { rewrite list_lookup_insert_eq; [done|]. rewrite length_app. simpl. lia. }
    split; [done|]. exists n'. split.
    { rewrite list_lookup_insert_ne by lia. by rewrite list_lookup_middle. }
    eapply segment_frame; [|exact Hb]. intros j Hj. apply Hframe; [exact (segment_bound _ _ _ _ _ Hb Hj)|].
    by intros ->.
Qed.

Lemma nodup_fresh nodes from (a b : Path) event to :
  segment nodes from (a ++ b) to → NoDup (a ++ b).*1 → NoDup (a ++ (length nodes, event) :: b).*1.
Proof.
  intros Hs Hn. rewrite !fmap_app, fmap_cons in *. apply NoDup_app in Hn as (Ha & Hab & Hb).
  assert (∀ j, j ∈ (a ++ b).*1 → j < length nodes) as Hlt by (intros j Hj; exact (segment_bound _ _ _ _ _ Hs Hj)).
  rewrite fmap_app in Hlt. apply NoDup_app. split_and!; [done| |].
  - intros j Hj [->|Hjb]%elem_of_cons; [|by apply (Hab j)].
    specialize (Hlt (length nodes) ltac:(apply elem_of_app; by left)). simpl in Hlt. lia.
  - apply NoDup_cons. split; [|done]. intros Hj.
    specialize (Hlt (length nodes) ltac:(apply elem_of_app; by right)). lia.
Qed.

Lemma insert_after_represents s a i e b event :
  represents s (a ++ (i, e) :: b) →
  ∃ s', insert_after s i event = Some s' ∧
        represents s' (a ++ (i, e) :: (length (nodes s), event) :: b).
Proof.
  intros [Hs Hn Ht]. assert (∃ n, nodes s !! i = Some {| link_event := e; next := n |}) as [n Hi].
  { apply segment_app in Hs as (mid & _ & _ & n & E & _). eauto. }
  destruct (relink _ _ _ _ _ _ event n Hs Hn Hi) as (linked & E & Hl).
  unfold insert_after. rewrite Hi. simpl. rewrite E. simpl. eexists. split; [done|].
  split; simpl; [done| |].
  - pose proof (nodup_fresh (nodes s) (es_head s) (a ++ [(i, e)]) b event None) as Hf.
    rewrite <-!(assoc_L (++)) in Hf. by apply Hf.
  - rewrite Ht. rewrite !last_app, !last_cons. destruct (last b) as [[j e']|] eqn:El; simpl.
    + rewrite bool_decide_false; [done|]. intros [= ->].
      apply last_Some in El as [b' ->]. rewrite fmap_app in Hn. simpl in Hn.
      apply NoDup_app in Hn as (_ & _ & Hn). apply NoDup_cons in Hn as [Hn _]. apply Hn.
      rewrite fmap_app. apply elem_of_app. right. by left.
    + by rewrite bool_decide_true.
Qed.

Lemma append_represents s path event :
  represents s path →
  ∃ s', append s event = Some s' ∧ represents s' (path ++ [(length (nodes s), event)]).
Proof.
  intros Hr. destruct path as [|x path _] using rev_ind.
  - destruct Hr as [Hs _ Ht]. simpl in Ht. unfold append. rewrite Ht. eexists. split; [done|].
    split; simpl; [|apply NoDup_singleton|done]. split; [done|]. exists None. split; [|done].
    by rewrite list_lookup_middle.
  - destruct x as [i e]. assert (nodes s !! i = Some {| link_event := e; next := None |}) as Hi.
    { pose proof (rp_linked _ _ Hr) as Hs. apply segment_app in Hs as (mid & _ & -> & n & E & Hn).
      simpl in Hn. by subst. }
    destruct (insert_after_represents s path i e [] event Hr) as (s' & E & Hr').
    rewrite <-(assoc_L (++)). simpl. exists s'. split; [|done].
    unfold append, insert_after in *. rewrite (rp_tail _ _ Hr), last_snoc, Hi in *. simpl in *.
    by rewrite bool_decide_true in E.
Qed.
