(* ===== verification/Parsing.v ===== *)
(** * Parsers as state transformers

    What the two parsers of [pure-analyzer-parser] share: a method on [&mut
    self] is a function from the parser to a result and the parser left behind,
    [None] when it panics; a [while] or [loop] is [looping], which runs its body
    at most once per token and once more; and [wp], under which a method
    terminates without a panic and its result satisfies a predicate. *)

From S2P Require Import Prelude Utf8 Codes FixPlan Kinds.

(** ** Methods *)

Definition M (S A : Type) : Type := S → option (A * S).

#[global] Instance M_ret {S} : MRet (M S) := λ A a s, Some (a, s).
#[global] Instance M_bind {S} : MBind (M S) := λ A B k m s, '(a, s) ← m s; k a s.

Definition gets {S A} (f : S → A) : M S A := λ s, Some (f s, s).
Definition update_self {S} (f : S → S) : M S unit := λ s, Some ((), f s).
Definition panic {S A} : M S A := λ _, None.

(** What an iteration of a loop decides. *)
Definition continue {S T A} (t : T) : M S (T + A) := mret (inl t).
Definition break {S T A} (a : A) : M S (T + A) := mret (inr a).

Fixpoint loop {S T A} (fuel : nat) (body : T → M S (T + A)) (t : T) : M S A :=
  match fuel with
  | 0 => panic
  | Datatypes.S fuel =>
      r ← body t;
      match r with
      | inl t => loop fuel body t
      | inr a => mret a
      end
  end.

(** A [for] loop over a budget of iterations; [done] is its result when the
    budget is spent. *)
Fixpoint for_loop {S T A} (budget : nat) (body : T → M S (T + A)) (done : T → A) (t : T) : M S A :=
  match budget with
  | 0 => mret (done t)
  | Datatypes.S budget =>
      r ← body t;
      match r with
      | inl t => for_loop budget body done t
      | inr a => mret a
      end
  end.

(** ** Total correctness *)

Definition wp {S A} (m : M S A) (Q : A → S → Prop) (s : S) : Prop :=
  match m s with Some (a, s') => Q a s' | None => False end.

Section wp.
Context {S : Type}.
Implicit Types s : S.

Lemma wp_ret {A} (a : A) (Q : A → S → Prop) s : Q a s → wp (mret a) Q s.
Proof. done. Qed.

Lemma wp_gets {A} (f : S → A) (Q : A → S → Prop) s : Q (f s) s → wp (gets f) Q s.
Proof. done. Qed.

Lemma wp_update (f : S → S) (Q : unit → S → Prop) s : Q () (f s) → wp (update_self f) Q s.
Proof. done. Qed.

Lemma wp_bind {A B} (m : M S A) (k : A → M S B) (Q : B → S → Prop) s :
  wp m (λ a s', wp (k a) Q s') s → wp (m ≫= k) Q s.
Proof. unfold wp, mbind, M_bind. destruct (m s) as [[a s']|]; done. Qed.

Lemma wp_mono {A} (m : M S A) (Q Q' : A → S → Prop) s :
  wp m Q s → (∀ a s', Q a s' → Q' a s') → wp m Q' s.
Proof. unfold wp. destruct (m s) as [[a s']|]; auto. Qed.

(** Sequencing after a method with a known specification. *)
Lemma wp_seq {A B} (m : M S A) (k : A → M S B) (P : A → S → Prop) (Q : B → S → Prop) s :
  wp m P s → (∀ a s', P a s' → wp (k a) Q s') → wp (m ≫= k) Q s.
Proof. intros Hm Hk. eapply wp_bind, wp_mono; eauto. Qed.

(** A loop whose measure falls with every iteration that continues. *)
Lemma wp_loop {T A} (I : T → S → Prop) (mu : S → nat) (body : T → M S (T + A)) (Q : A → S → Prop) fuel t s :
  (∀ t s, I t s → wp (body t) (λ r s', match r with
                                       | inl t' => I t' s' ∧ mu s' < mu s
                                       | inr a => Q a s' end) s) →
  I t s → mu s < fuel → wp (loop fuel body t) Q s.
Proof.
  intros Hbody. revert t s. induction fuel as [|fuel IH]; intros t s HI Hmu; [lia|].
  simpl. eapply wp_seq; [by apply Hbody|]. intros [t'|a] s'; [|done].
  intros [HI' Hlt]. apply IH; [done|lia].
Qed.

(** A [for] loop whose budget covers its measure ends by itself, or with nothing
    left to do. *)
Lemma wp_for {T A} (I : T → S → Prop) (mu : S → nat) (body : T → M S (T + A)) (done_ : T → A)
    (Q : A → S → Prop) budget t s :
  (∀ t s, I t s → wp (body t) (λ r s', match r with
                                       | inl t' => I t' s' ∧ mu s' < mu s
                                       | inr a => Q a s' end) s) →
  (∀ t s, I t s → mu s = 0 → Q (done_ t) s) →
  I t s → mu s ≤ budget → wp (for_loop budget body done_ t) Q s.
Proof.
  intros Hbody Hdone. revert t s. induction budget as [|budget IH]; intros t s HI Hmu; simpl.
  - apply wp_ret, Hdone; [done|lia].
  - eapply wp_seq; [by apply Hbody|]. intros [t'|a] s'; [|done].
    intros [HI' Hlt]. apply IH; [done|lia].
Qed.

Lemma wp_elim {A} (m : M S A) (Q : A → S → Prop) s :
  wp m Q s → ∃ a s', m s = Some (a, s') ∧ Q a s'.
Proof. unfold wp. destruct (m s) as [[a s']|]; [eauto|done]. Qed.

Lemma wp_intro {A} (m : M S A) (Q : A → S → Prop) s a s' : m s = Some (a, s') → Q a s' → wp m Q s.
Proof. unfold wp. by intros ->. Qed.
End wp.

(** ** Tokens

    The functions on tokens and kinds that [m3.rs] and [domain.rs] each have a
    copy of. *)

Definition is_trivia (kind : TokenKind) : bool :=
  match kind with
  | TokenKind.WHITESPACE | TokenKind.LINE_COMMENT | TokenKind.BLOCK_COMMENT => true
  | _ => false
  end.

Definition is_name (kind : TokenKind) : bool :=
  match kind with
  | TokenKind.IDENT | TokenKind.ALL_KW | TokenKind.LET_KW | TokenKind.ALL_VERSIONS_KW
  | TokenKind.ALL_VERSIONS_IN_RANGE_KW | TokenKind.TO_BYTES_KW => true
  | _ => false
  end.

Section tokens.
Context {R : Type}.

(** The first token of [tokens.iter().position(..)] that is no trivia. *)
Fixpoint significant_position (tokens : list (TokenKind * R)) : option nat :=
  match tokens with
  | [] => None
  | (kind, _) :: rest => if is_trivia kind then S <$> significant_position rest else Some 0
  end.

(** [tokens.get(start..)] is [None] beyond the end. *)
Definition next_significant_index_from (tokens : list (TokenKind * R)) (start : nat) : option nat :=
  if start <=? length tokens
  then (λ offset, start + offset) <$> significant_position (drop start tokens) else None.

Definition kind_at (tokens : list (TokenKind * R)) (index : nat) : option TokenKind :=
  fst <$> tokens !! index.

(** An index found is one of a token: [self.tokens[index]] does not panic. *)
Definition next_significant_kind (tokens : list (TokenKind * R)) (start : nat) : option TokenKind :=
  next_significant_index_from tokens start ≫= kind_at tokens.

Lemma significant_position_lt tokens i : significant_position tokens = Some i → i < length tokens.
Proof.
  revert i. induction tokens as [|[k r] tokens IH]; intros i; simpl; [done|].
  destruct (is_trivia k); [|intros [= <-]; lia].
  destruct (significant_position tokens) as [j|]; simpl; [|done]. intros [= <-].
  specialize (IH j eq_refl). lia.
Qed.

Lemma next_significant_bounds tokens from i :
  next_significant_index_from tokens from = Some i → from ≤ i < length tokens.
Proof.
  unfold next_significant_index_from. destruct (Nat.leb_spec from (length tokens)); [|done].
  destruct (significant_position _) as [j|] eqn:E; simpl; [|done]. intros [= <-].
  apply significant_position_lt in E. rewrite length_drop in E. lia.
Qed.

(** At a token that is no trivia, the next significant token is that token. *)
Lemma next_significant_here tokens i k r :
  tokens !! i = Some (k, r) → is_trivia k = false → next_significant_index_from tokens i = Some i.
Proof.
  intros E Hk. pose proof (lookup_lt_Some _ _ _ E). unfold next_significant_index_from.
  rewrite (proj2 (Nat.leb_le _ _)) by lia. rewrite (drop_S _ _ _ E). simpl. rewrite Hk. simpl.
  f_equal. lia.
Qed.

Lemma next_significant_skip tokens i k :
  kind_at tokens i = Some k → is_trivia k = true →
  next_significant_index_from tokens i = next_significant_index_from tokens (S i).
Proof.
  unfold kind_at. destruct (tokens !! i) as [[k' r]|] eqn:E; [|done]. intros [= ->] Hk.
  pose proof (lookup_lt_Some _ _ _ E). unfold next_significant_index_from.
  rewrite !(proj2 (Nat.leb_le _ _)) by lia. rewrite (drop_S _ _ _ E). simpl. rewrite Hk.
  destruct (significant_position (drop (S i) tokens)); simpl; [|done]. f_equal. lia.
Qed.

Lemma kind_at_lt tokens i k : kind_at tokens i = Some k → i < length tokens.
Proof. unfold kind_at. destruct (tokens !! i) eqn:E; [|done]. intros _. by apply lookup_lt_Some in E. Qed.

Lemma kind_at_ge tokens i : kind_at tokens i = None ↔ length tokens ≤ i.
Proof. unfold kind_at. rewrite <-lookup_ge_None. by destruct (tokens !! i). Qed.
End tokens.

(** ** Diagnostics *)

Section diagnostics.
Context {R : Type}.

(** [Diagnostic::builder(code, Severity::Error, message, Label::new(file, span)).build()]. *)
Definition error_diagnostic (code : DiagCode) (message : string) (file : FileId) (span : R)
  : Diagnostic R :=
  {| diag_code := code; diag_severity := Error; diag_message := message;
     diag_primary := {| label_file := file; label_span := span; label_note := "" |};
     diag_secondary := []; diag_fix := None; diag_url := None |}.
End diagnostics.
