(* ===== verification/Lexing.v ===== *)
(** * What the lexer promises the parsers

    [lex] of [Kinds] gives every source its tokens: they follow each other from
    the start of the source, and up to the size a [TextSize] holds they are the
    spans of the automaton, which is what the tree builder asks for.

    The automaton itself is generated, and a parameter here; the examples have a
    small one that keeps its laws. *)

From Stdlib Require Import Sorted.
From S2P Require Import Prelude Codes Utf8 FixPlan FixPlanProps Kinds Green Builder BuilderLaws Parsing.

Section lexing.
Context {R : Type} `{TextRangeNew R} `{Logos}.

(** The tokens of the spans. *)
Definition token_of (lexed : option TokenKind * (nat * nat)) (token : TokenKind * R) : Prop :=
  token.1 = default TokenKind.ERROR lexed.1 ∧
  start token.2 = clamp_u32 lexed.2.1 ∧ end_ token.2 = clamp_u32 lexed.2.2.

Lemma lex_span_total lexed :
  lexed.2.1 ≤ lexed.2.2 → ∃ token, lex_span lexed = Some token ∧ token_of lexed token.
Proof.
  intros Hle. unfold lex_span. destruct (range_new_ordered _ _ (clamp_mono _ _ Hle)) as (r & -> & Hs & He).
  simpl. eexists. by split; [|split_and!].
Qed.

Lemma tiles_ordered spans from to : tiles spans from to → Forall (λ s, s.1 ≤ s.2) spans.
Proof.
  revert from. induction spans as [|[s e] spans IH]; simpl; intros from; [constructor|].
  intros (-> & Hlt & Ht). constructor; [simpl; lia|]. by eapply IH.
Qed.

Lemma lex_total source :
  utf8 source → ∃ tokens, lex source = Some tokens ∧ Forall2 token_of (spanned source) tokens.
Proof.
  intros Hu. pose proof (tiles_ordered _ _ _ (spanned_tiles source Hu)) as Ho. unfold lex.
  induction (spanned source) as [|lexed spans IH]; [by exists []|].
  apply Forall_cons in Ho as [Hle Ho]. destruct (IH Ho) as (tokens & E & Ht).
  destruct (lex_span_total lexed Hle) as (token & Et & Htok).
  exists (token :: tokens). simpl. rewrite Et. simpl. rewrite E. simpl. split; [done|]. by constructor.
Qed.

Lemma tiles_clamped spans (tokens : list (TokenKind * R)) from to :
  tiles spans.*2 from to → Forall2 token_of spans tokens →
  ∀ j k r, tokens !! j = Some (k, r) →
    start r = match j with 0 => clamp_u32 from | S i => default 0 ((λ t, end_ t.2) <$> tokens !! i) end.
Proof.
  intros Ht Hf. revert from Ht. induction Hf as [|[lk [s e]] [k r] spans tokens (Hk & Hs & He) Hf IH]; [done|].
  simpl in *. intros from (-> & Hlt & Ht) [|j] k' r'; simpl.
  - by intros [= <- <-].
  - intros E. rewrite (IH _ Ht _ _ _ E). by destruct j as [|j].
Qed.

Lemma lex_contiguous source tokens :
  utf8 source → Forall2 token_of (spanned source) tokens → contiguous tokens.
Proof.
  intros Hu Ht j k r E. rewrite (tiles_clamped _ _ _ _ (spanned_tiles source Hu) Ht _ _ _ E).
  by destruct j as [|j].
Qed.

Lemma tiles_bounded spans from to :
  tiles spans from to → Forall (λ s, s.1 ≤ to ∧ s.2 ≤ to) spans.
Proof.
  revert from. induction spans as [|[s e] spans IH]; simpl; intros from; [constructor|].
  intros (-> & Hlt & Ht). pose proof (tiles_le _ _ _ Ht). constructor; [simpl; lia|]. by eapply IH.
Qed.

Lemma lex_valid source tokens :
  utf8 source → (N.of_nat (length source) ≤ U32_MAX)%N → Forall2 token_of (spanned source) tokens →
  valid_tokens source tokens ∧ token_span <$> tokens = (spanned source).*2.
Proof.
  intros Hu Hlen Ht. pose proof (spanned_tiles source Hu) as Htiles.
  assert (token_span <$> tokens = (spanned source).*2) as Hspans.
  { pose proof (tiles_bounded _ _ _ Htiles) as Hb. clear Htiles.
    induction Ht as [|[lk [s e]] [k r] spans tokens' (Hk & Hs & He) Hf IH]; [done|]. simpl in *.
    apply Forall_cons in Hb as [[Hs1 He1] Hb]. simpl in *. unfold token_span at 1. simpl.
    rewrite Hs, He, !clamp_small by lia. f_equal. by apply IH. }
  split; [|done]. split; [done|by rewrite Hspans|].
  apply Forall_lookup. intros i [k r] E.
  destruct (Forall2_lookup_r _ _ _ _ _ Ht E) as ([lk [s e]] & El & Hk & Hs & He). simpl in *.
  pose proof (tiles_bounded _ _ _ Htiles) as Hb.
  assert (s ≤ length source ∧ e ≤ length source) as [Hs1 He1].
  { eapply (Forall_lookup_1 _ _ i (s, e) Hb). by rewrite list_lookup_fmap, El. }
  rewrite Hs, He, !clamp_small by lia.
  eapply (spanned_boundaries source lk); [done|]. by eapply list_elem_of_lookup_2.
Qed.
End lexing.

(** * A lexer for the examples

    The automaton of the lexer is generated and not modelled.  This one cuts a
    text into words, runs of white space and punctuation: it keeps the laws of
    [Logos], so that the theorems about parsing apply to concrete texts. *)

#[global, program] Instance span_model_new : TextRangeNew (nat * nat) := {
  range_new s e := if s <=? e then Some (s, e - s) else None;
}.
Next Obligation.
  intros s e Hle. exists (s, e - s). destruct (Nat.leb_spec s e); [|lia]. simpl. repeat split; lia.
Qed.
Next Obligation. intros s e Hlt. simpl. destruct (Nat.leb_spec s e); [lia|done]. Qed.

Definition letter (b : byte) : bool :=
  between 48 57 b || between 65 90 b || between 97 122 b || between 95 95 b.

Definition blank (b : byte) : bool := between 9 13 b || between 32 32 b.

(** A byte continues the lexeme of the one before. *)
Definition joins (a b : byte) : bool :=
  is_continuation b || letter a && letter b || blank a && blank b
  || between 58 58 a && between 58 58 b || between 45 45 a && between 62 62 b.

Fixpoint cut (s : Text) : list Text :=
  match s with
  | [] => []
  | a :: rest =>
      match cut rest with
      | lexeme :: lexemes =>
          if from_option (joins a) false (head rest) then (a :: lexeme) :: lexemes
          else [a] :: lexeme :: lexemes
      | [] => [[a]]
      end
  end.

Definition punctuation : list (string * TokenKind) :=
  [("=", TokenKind.ASSIGN); ("+", TokenKind.PLUS); ("-", TokenKind.MINUS); ("->", TokenKind.ARROW); ("*", TokenKind.STAR);
   ("/", TokenKind.SLASH); ("<", TokenKind.LT); (">", TokenKind.GT); (".", TokenKind.DOT);
   (":", TokenKind.COLON); ("::", TokenKind.PATH_SEPARATOR); (";", TokenKind.SEMICOLON);
   (",", TokenKind.COMMA); ("|", TokenKind.PIPE); ("~", TokenKind.TILDE); ("$", TokenKind.DOLLAR);
   ("(", TokenKind.PAREN_OPEN); (")", TokenKind.PAREN_CLOSE); ("[", TokenKind.BRACKET_OPEN);
   ("]", TokenKind.BRACKET_CLOSE); ("{", TokenKind.BRACE_OPEN); ("}", TokenKind.BRACE_CLOSE);
   ("all", TokenKind.ALL_KW); ("let", TokenKind.LET_KW)]%string.

Definition kind_of (lexeme : Text) : option TokenKind :=
  match List.find (λ '(s, _), bool_decide (String.list_byte_of_string s = lexeme)) punctuation with
  | Some (_, kind) => Some kind
  | None =>
      match lexeme with
      | b :: _ =>
          if between 48 57 b then Some TokenKind.INTEGER
          else if letter b then Some TokenKind.IDENT
          else if blank b then Some TokenKind.WHITESPACE
          else None
      | [] => None
      end
  end.

Fixpoint place_lexemes (from : nat) (lexemes : list Text) : list (option TokenKind * (nat * nat)) :=
  match lexemes with
  | [] => []
  | lexeme :: rest =>
      (kind_of lexeme, (from, from + length lexeme)) :: place_lexemes (from + length lexeme) rest
  end.

(** Lexemes that cut a text where characters begin. *)
Fixpoint starts (lexemes : list Text) : Prop :=
  match lexemes with
  | [] => True
  | lexeme :: rest => from_option (λ b, is_continuation b = false) False (head lexeme) ∧ starts rest
  end.

Lemma cut_concat s : concat (cut s) = s.
Proof.
  induction s as [|a s IH]; [done|]. simpl. destruct (cut s) as [|l ls]; simpl in *; [by rewrite <-IH|].
  destruct (from_option _ _ _); simpl; by rewrite IH.
Qed.

Lemma cut_starts s :
  match cut s with
  | [] => True
  | lexeme :: rest => head lexeme = head s ∧ starts rest
  end.
Proof.
  induction s as [|a s IH]; [done|]. simpl. destruct (cut s) as [|l ls] eqn:E; [done|]. destruct IH as [Hh Hs].
  destruct (from_option _ _ _) eqn:Ej; simpl; [done|]. split; [done|]. split; [|done]. rewrite Hh.
  destruct s as [|b s]; [done|].
  simpl in Ej |- *. unfold joins in Ej. by repeat (apply orb_false_iff in Ej as [Ej _]).
Qed.

Lemma text_starts s : utf8 s → starts (cut s).
Proof.
  intros Hu. pose proof (cut_starts s) as Hc. destruct (cut s) as [|l ls] eqn:E; [done|].
  destruct Hc as [Hh Hs]. split; [|done]. rewrite Hh. destruct Hu as [|c s Hc Hu]; [done|].
  apply utf8_char_shape in Hc as (a & t & -> & Ha & _). done.
Qed.

Lemma place_tiles ls from :
  starts ls → tiles (place_lexemes from ls).*2 from (from + length (concat ls)).
Proof.
  revert from. induction ls as [|l ls IH]; intros from; simpl; [lia|]. intros [Hl Hs].
  destruct l as [|b l]; [done|]. split_and!; [done|simpl; lia|].
  rewrite length_app, Nat.add_assoc. by apply IH.
Qed.

Lemma place_boundaries pre ls k s e :
  starts ls → (k, (s, e)) ∈ place_lexemes (length pre) ls →
  is_char_boundary (pre ++ concat ls) s = true ∧ is_char_boundary (pre ++ concat ls) e = true.
Proof.
  assert (∀ pre ls, starts ls → is_char_boundary (pre ++ concat ls) (length pre) = true) as Hb.
  { clear. intros pre ls Hs. unfold is_char_boundary. destruct (Nat.eqb (length pre) 0); [done|].
    rewrite lookup_app_r, Nat.sub_diag by lia. destruct ls as [|[|b l] ls]; simpl in *.
    - apply Nat.eqb_eq. rewrite app_nil_r. lia.
    - by destruct Hs.
    - destruct Hs as [-> _]. done. }
  revert pre. induction ls as [|l ls IH]; intros pre Hs; simpl; [by intros ?%not_elem_of_nil|].
  assert (length pre + length l = length (pre ++ l)) as El by by rewrite length_app.
  rewrite El. intros [[= -> -> ->]|Hin]%elem_of_cons.
  - split; [by apply (Hb pre (l :: ls))|]. rewrite (assoc_L (++)). apply Hb, Hs.
  - rewrite (assoc_L (++)). apply IH; [apply Hs|done].
Qed.

#[global, program] Instance sample_lexer : Logos := {
  spanned s := place_lexemes 0 (cut s);
}.
Next Obligation.
  intros s Hu. simpl. rewrite <-(cut_concat s) at 2. apply (place_tiles _ 0). by apply text_starts.
Qed.
Next Obligation.
  intros s k a b Hu Hin. pose proof (place_boundaries [] _ _ _ _ (text_starts s Hu) Hin) as Hb.
  simpl in Hb. by rewrite cut_concat in Hb.
Qed.

(** * Reports in source order

    What the proofs about the two parsers share: indices in order, and
    diagnostics that are errors at the token of an index. *)

(** Indices in order between two bounds. *)
Fixpoint ordered (from : nat) (indices : list nat) (to : nat) : Prop :=
  match indices with
  | [] => from ≤ to
  | i :: rest => from ≤ i ∧ ordered i rest to
  end.

Lemma ordered_le from js to : ordered from js to → from ≤ to.
Proof. revert from. induction js as [|i js IH]; simpl; [done|]. intros from [? ?%IH]. lia. Qed.

Lemma ordered_app from a mid b to : ordered from a mid → ordered mid b to → ordered from (a ++ b) to.
Proof.
  revert from. induction a as [|i a IH]; simpl; intros from.
  - intros Hle. destruct b as [|j b]; simpl; [lia|]. intros [? ?]. split; [lia|done].
  - intros [? ?] ?. split; [done|]. by apply IH.
Qed.

Section reports.
Context {R : Type} `{TextRangeNew R}.

(** The span of the token at an index, or the end of the last one. *)
Definition span_at (tokens : list (TokenKind * R)) (index : nat) : option R :=
  match tokens !! index with
  | Some (_, range) => Some range
  | None => let end_ := match last tokens with Some (_, range) => end_ range | None => 0 end in
            range_new end_ end_
  end.

(** The diagnostic is an error at the token of an index. *)
Definition reports (file : FileId) (tokens : list (TokenKind * R)) (d : Diagnostic R) (index : nat) : Prop :=
  ∃ code message span, span_at tokens index = Some span ∧ d = error_diagnostic code message file span.

Lemma span_at_total tokens index : is_Some (span_at tokens index).
Proof.
  unfold span_at. destruct (tokens !! index) as [[]|]; [eauto|].
  destruct (range_new_ordered (match last tokens with Some (_, range) => end_ range | None => 0 end)
    (match last tokens with Some (_, range) => end_ range | None => 0 end)) as (r & -> & _); [lia|eauto].
Qed.

Definition not_error_node (kind : SyntaxKind) : bool := negb (bool_decide (kind = SyntaxKind.ERROR_NODE)).

(** No token of the range is one the lexer did not recognise. *)
Definition recognised (tokens : list (TokenKind * R)) (from to : nat) : Prop :=
  ∀ i, from ≤ i < to → kind_at tokens i ≠ Some TokenKind.ERROR.

(** ** Source order *)

Definition diag_span (d : Diagnostic R) : R := label_span (diag_primary d).

(** The source order of reports. *)
Definition before (d d' : Diagnostic R) : Prop := start (diag_span d) ≤ start (diag_span d').

(** Errors at places of the source, in their order. *)
Record in_source_order (source : Text) (file : FileId) (ds : list (Diagnostic R)) : Prop := {
  io_sorted : StronglySorted before ds;
  io_within : Forall (λ d, end_ (diag_span d) ≤ length source) ds;
  io_errors : Forall (λ d, diag_severity d = Error ∧ label_file (diag_primary d) = file) ds;
}.

Lemma span_at_place tokens i span :
  contiguous tokens → i ≤ length tokens → span_at tokens i = Some span →
  start span = token_end tokens i ∧ end_ span ≤ token_end tokens (length tokens).
Proof.
  intros Hc Hi. unfold span_at. destruct (tokens !! i) as [[k r]|] eqn:E.
  - intros [= <-]. split; [by apply (Hc _ _ _ E)|]. rewrite <-(token_end_S _ _ _ _ E).
    apply lookup_lt_Some in E. apply token_end_mono; [done|lia..].
  - apply lookup_ge_None in E. assert (i = length tokens) as -> by lia.
    assert (match last tokens with Some (_, range) => end_ range | None => 0 end
            = token_end tokens (length tokens)) as ->.
    { destruct tokens as [|[k r] tokens _] using rev_ind; [done|].
      rewrite last_snoc, length_app, Nat.add_comm. simpl. by rewrite list_lookup_middle. }
    destruct (range_new_ordered _ _ (le_n (token_end tokens (length tokens)))) as (r & -> & Hs & He).
    intros [= <-]. lia.
Qed.

Lemma reports_in_source_order source file tokens ds js :
  valid_tokens source tokens → Forall2 (reports file tokens) ds js → ordered 0 js (length tokens) →
  in_source_order source file ds.
Proof.
  intros Hv Hr Hj. destruct (valid_contiguous _ _ Hv) as [Hc He].
  assert (∀ from, ordered from js (length tokens) → StronglySorted before ds ∧
    Forall (λ d, token_end tokens from ≤ start (diag_span d) ∧ end_ (diag_span d) ≤ length source) ds ∧
    Forall (λ d, diag_severity d = Error ∧ label_file (diag_primary d) = file) ds) as Hall.
  { clear Hj. induction Hr as [|d i ds js (code & message & span & Hs & ->) Hr IH]; intros from Hj.
    { split_and!; constructor. }
    destruct Hj as [Hle Hj]. destruct (IH _ Hj) as (Hso & Hw & Hf). pose proof (ordered_le _ _ _ Hj) as Hil.
    destruct (span_at_place _ _ _ Hc Hil Hs) as [Hst Hen].
    split_and!; (constructor; [done || idtac|done || idtac]).
    - eapply Forall_impl; [exact Hw|]. intros d [Hd _]. unfold before. unfold diag_span at 1. simpl. lia.
    - unfold diag_span. simpl. split; [|lia]. rewrite Hst. by apply token_end_mono.
    - eapply Forall_impl; [exact Hw|]. intros d [Hd ?]. split; [|done]. etransitivity; [|exact Hd].
      by apply token_end_mono. }
  destruct (Hall 0 Hj) as (? & Hw & ?). split; [done| |done]. eapply Forall_impl; [exact Hw|]. by intros d [_ ?].
Qed.
End reports.

(** ** The kinds of a tree *)

Section kinds.
Context {R : Type} `{TextRangeNew R}.

(** The kinds of the nodes of an element. *)
Fixpoint element_nodes (e : GreenElement R) : list SyntaxKind :=
  match e with
  | Token _ => []
  | Node (GreenNodeData kind children _) => kind :: concat (element_nodes <$> children)
  end.

Definition node_kinds (g : GreenNode R) : list SyntaxKind := element_nodes (Node g).

Lemma opens_element P e : opens P (element_events e) = forallb P (element_nodes e).
Proof.
  induction e as [t|k cs r Hcs] using element_ind; simpl; [done|]. f_equal. fold (opens P). rewrite opens_app. simpl. rewrite andb_true_r.
  induction Hcs as [|e cs He Hcs IH]; csimpl; [done|]. by rewrite opens_app, forallb_app, He, IH.
Qed.

Lemma opens_kinds P g : opens P (tree_events g) = true ↔ Forall (λ k, P k = true) (node_kinds g).
Proof.
  unfold tree_events, node_kinds. rewrite opens_element, <-Is_true_true, forallb_True.
  split; intros Hf; (eapply Forall_impl; [exact Hf|]); intros k; by rewrite Is_true_true.
Qed.
End kinds.
