(* ===== verification/SyntaxProps.v ===== *)
(** * Properties of the syntax trees

    What the tree builder promises: it accepts exactly the event streams of the
    trees of its source and returns that tree; a checkpoint wraps exactly the
    events collected after it; and what the parsers, its clients, need of it. *)

From S2P Require Import Prelude Utf8 Codes FixPlan FixPlanProps Kinds Green Builder BuilderLaws Parsing Lexing.

Section props.
Context {R : Type} `{TextRangeNew R}.
Implicit Types b : GreenNodeBuilder R.

Lemma finish_root_total (f : Fold R) total n : is_Some (finish_root f total n).
Proof.
  unfold finish_root. destruct (negb _); [eauto|]. destruct (negb _); [eauto|].
  destruct (roots f) as [|root [|]]; [eauto| |eauto]. destruct (negb _); [eauto|].
  destruct (range_new_ordered 0 n) as (w & -> & _); [lia|]. simpl. eauto.
Qed.

Lemma finish_total b : is_Some (finish b).
Proof.
  unfold finish, fold_events. destruct (validate_tokens _ _) as [n|e] eqn:Ev; [|eauto].
  apply validate_tokens_spec in Ev as [-> Hv]. pose proof (valid_contiguous _ _ Hv) as [Hc _].
  pose proof (fold_loop_sound _ _ 0 (omap be_event (b_events b)) _ Hc (fold_init_ok (b_source b) (b_tokens b))) as Hl.
  unfold fold_init in Hl. destruct (fold_loop _ _ _ _ _) as [[f|e]|]; simpl; [|eauto|done].
  apply finish_root_total.
Qed.

(** C12. The builder answers every event stream, and with a tree exactly when its
    tokens tile the source at character boundaries and its events are those of a
    tree over these tokens, whose root is the only [ROOT] and whose ranges are
    where their tokens lie; that tree is the answer. *)
Theorem builder_exact b :
  is_Some (finish b) ∧
  ∀ g, finish b = Some (Ok g) ↔
    valid_tokens (b_source b) (b_tokens b) ∧ tree_of (b_source b) (b_tokens b) g ∧
    omap be_event (b_events b) = tree_events g.
Proof.
  split; [apply finish_total|]. intros g. split.
  - intros Hf. destruct (finish_sound _ _ b g eq_refl eq_refl Hf) as (? & ? & ?). done.
  - intros (Hv & Ht & He). unfold finish. rewrite (proj2 (validate_tokens_spec _ _ _) (conj eq_refl Hv)), He.
    by apply finish_complete.
Qed.

(** ** Checkpoints *)

(** The markers of a builder are addresses below the next one. *)
Definition fresh (heap : nat) b : Prop :=
  Forall (λ e, match e with BCheckpoint m => m < heap | BEvent _ => True end) (b_events b).

Lemma marker_position_fresh heap before after :
  Forall (λ e, match e with BCheckpoint m => m < heap | BEvent _ => True end) before →
  marker_position heap (before ++ BCheckpoint heap :: after) = Some (length before).
Proof.
  induction 1 as [|e before He Hb IH]; simpl; [by rewrite Nat.eqb_refl|].
  destruct e as [ev|m]; simpl; [by rewrite IH|]. destruct (Nat.eqb_spec m heap); [lia|]. by rewrite IH.
Qed.

Lemma push_events b events :
  b_events (foldl push b events) = b_events b ++ (BEvent <$> events) ∧
  b_source (foldl push b events) = b_source b ∧ b_tokens (foldl push b events) = b_tokens b ∧
  b_owner (foldl push b events) = b_owner b.
Proof.
  revert b. induction events as [|e events IH]; intros b; simpl; [by rewrite app_nil_r|].
  destruct (IH (push b e)) as (-> & -> & -> & ->). unfold push, with_events. simpl. by rewrite <-(assoc_L (++)).
Qed.

Lemma omap_events (events : list Event) : omap be_event (BEvent <$> events) = events.
Proof. induction events as [|e events IH]; csimpl; [done|]. by rewrite IH. Qed.

(** A node opened at a checkpoint holds exactly the events collected since: it
    opens before them and after those collected earlier, whatever the builder's
    other checkpoints. *)
Theorem checkpoint_wraps heap b later kind :
  fresh heap b → SyntaxKind.is_node kind = true →
  let '(checkpoint, b', _) := checkpoint heap b in
  ∃ b'', open_at (foldl push b' later) checkpoint kind = Ok b'' ∧
    omap be_event (b_events b'') = omap be_event (b_events b) ++ Open kind :: later.
Proof.
  intros Hf Hk. simpl. destruct (push_events (with_events b (b_events b ++ [BCheckpoint heap])) later)
    as (He & _ & _ & Ho). unfold open_at. simpl. rewrite Ho, He. simpl. rewrite Nat.eqb_refl. simpl.
  rewrite <-(assoc_L (++)). simpl. rewrite marker_position_fresh by done. rewrite Hk.
  eexists. split; [done|]. simpl. rewrite take_app_length, drop_app_length, !omap_app. simpl.
  by rewrite omap_events.
Qed.

(** ** What the parsers need *)

(** The builder of a parser. *)
Definition built (source : Text) (tokens : list (TokenKind * R)) (events : list Event) : GreenNodeBuilder R :=
  foldl push (builder_new 0 source tokens).1 events.

Lemma built_tree source tokens evs :
  valid_tokens source tokens → balance 0 evs = Some 0 → opens inner_kind evs = true →
  advances evs = length tokens →
  ∃ g, finish (built source tokens (Open SyntaxKind.ROOT :: evs ++ [Close])) = Some (Ok g) ∧
       tree_of source tokens g ∧ tree_events g = Open SyntaxKind.ROOT :: evs ++ [Close].
Proof.
  intros Hv Hb Ho Ha. destruct (finish_balanced source tokens evs Hv Hb Ho Ha) as (g & Hf & Ht & He).
  exists g. split; [|done]. unfold finish, built.
  destruct (push_events (builder_new 0 source tokens).1 (Open SyntaxKind.ROOT :: evs ++ [Close])) as (-> & -> & -> & _).
  simpl. rewrite (proj2 (validate_tokens_spec _ _ _) (conj eq_refl Hv)).
  rewrite <-Hf. f_equal. exact (omap_events (Open SyntaxKind.ROOT :: evs ++ [Close])).
Qed.

Lemma built_too_long source tokens events :
  (U32_MAX < N.of_nat (length source))%N →
  finish (built source tokens events) = Some (Err (SourceTooLong (length source))).
Proof.
  intros Hlen. unfold finish, built. destruct (push_events (builder_new 0 source tokens).1 events) as (-> & -> & -> & _).
  simpl. unfold validate_tokens, source_end, TextSize_try_from.
  destruct (N.leb_spec (N.of_nat (length source)) U32_MAX); [lia|done].
Qed.
End props.

(** ** A tree of a text *)

Section faithful.
Context {R : Type} `{TextRangeNew R} `{Logos}.

(** A token of a tree is a span of the lexer. *)
Definition lexeme_of (lexed : option TokenKind * (nat * nat)) (token : GreenToken R) : Prop :=
  gt_kind token = SyntaxKind.from_lexer (default TokenKind.ERROR lexed.1) ∧
  (start (gt_range token), end_ (gt_range token)) = lexed.2.

(** The tree is one of the whole text: its text is the text, its tokens are
    those of the lexer and its nodes lie where their tokens do. *)
Record lossless (source : Text) (g : GreenNode R) : Prop := {
  ll_text : node_text g = Some source;
  ll_tokens : Forall2 lexeme_of (spanned source) (leaves g);
  ll_place : place (Node g) 0 = Some (length source);
  ll_kinds : node_kind g = SyntaxKind.ROOT ∧ forallb inner_kinds (node_children g) = true;
}.

Lemma tree_lossless source tokens g :
  utf8 source → (N.of_nat (length source) ≤ U32_MAX)%N → Forall2 token_of (spanned source) tokens →
  tree_of source tokens g → lossless source g.
Proof.
  intros Hu Hlen Ht Hg. destruct (lex_valid source tokens Hu Hlen Ht) as [Hv Hs].
  split; [by eapply tree_of_text| |apply Hg|split; apply Hg].
  rewrite (to_leaves _ _ _ Hg). clear Hg Hv.
  induction Ht as [|[k [s e]] [k' r] spans tokens' (Hk & Hst & Hen) Ht IH]; [constructor|].
  simpl in *. injection Hs as Hr He Hrest. constructor; [|by apply IH].
  split; simpl; [by rewrite Hk|by rewrite Hr, He].
Qed.

(** No lexeme is unrecognised. *)
Definition all_recognised (source : Text) : Prop := Forall (λ lexed, lexed.1 ≠ None ∧ lexed.1 ≠ Some TokenKind.ERROR) (spanned source).

Lemma recognised_lexemes source (tokens : list (TokenKind * R)) :
  Forall2 token_of (spanned source) tokens → recognised tokens 0 (length tokens) → all_recognised source.
Proof.
  intros Ht Hr. apply Forall_lookup. intros i [k s] E.
  destruct (Forall2_lookup_l _ _ _ _ _ Ht E) as ([k' r] & E' & Hk & _). simpl in *. subst k'.
  assert (kind_at tokens i ≠ Some TokenKind.ERROR) as Hne.
  { apply Hr. apply lookup_lt_Some in E'. lia. }
  unfold kind_at in Hne. rewrite E' in Hne. simpl in Hne. destruct k; simpl in *; naive_solver.
Qed.
End faithful.

(** The product [1*2], wrapped after its left factor was read. *)
Definition product_builder : GreenNodeBuilder (nat * nat) :=
  push (builder_new 0 (FixPlanProps.text "1*2")
          [(TokenKind.INTEGER, (0, 1)); (TokenKind.STAR, (1, 1)); (TokenKind.INTEGER, (2, 1))]).1
    (Open SyntaxKind.ROOT).

Definition factor : list Event := [Open SyntaxKind.LITERAL_EXPR; Advance; Close].

Lemma checkpoint_wraps_witness :
  fresh 1 product_builder ∧ SyntaxKind.is_node SyntaxKind.BINARY_EXPR = true ∧
  ∃ b, open_at (foldl push (checkpoint 1 product_builder).1.2 factor) (checkpoint 1 product_builder).1.1
         SyntaxKind.BINARY_EXPR = Ok b ∧
       omap be_event (b_events b) =
         omap be_event (b_events product_builder) ++ Open SyntaxKind.BINARY_EXPR :: factor.
Proof.
  split; [by repeat constructor|]. split; [done|].
  apply (checkpoint_wraps 1 product_builder factor SyntaxKind.BINARY_EXPR); [by repeat constructor|done].
Defined.
