(* ===== verification/M3.v ===== *)
(** * The query parser

    [pure-analyzer-parser/src/m3.rs]: the resilient parser of M3 and Relation
    queries.  It reads the lexer's tokens and emits the events of a lossless
    tree, with the diagnostics of what it could not make sense of.

    [parse_expression] and [parse_type_reference] recurse through the methods
    that call them; the code bounds the recursion by [MAX_RECURSION_DEPTH], and
    their fuel here is the depth left. *)

From S2P Require Import Prelude Utf8 Codes FixPlan Kinds Green Builder EventStream Parsing.

Definition LOWEST_PRECEDENCE : nat := 0.
Definition EQUALITY_PRECEDENCE : nat := 1.
Definition ADDITIVE_PRECEDENCE : nat := 2.
Definition MULTIPLICATIVE_PRECEDENCE : nat := 3.
Definition MAX_RECURSION_DEPTH : nat := 256.
Definition MAX_UNARY_OPERATOR_COUNT : nat := 256.
Definition MAX_RETROACTIVE_WRAP_DEPTH : nat := 256.

Inductive OpaqueIslandDelimiter := IslandDelimiter | BraceDelimiter.

#[global] Instance OpaqueIslandDelimiter_eq_dec : EqDecision OpaqueIslandDelimiter.
Proof. solve_decision. Defined.

Definition EXPRESSION_BOUNDARIES : list TokenKind :=
  [TokenKind.COMMA; TokenKind.PAREN_CLOSE; TokenKind.BRACKET_CLOSE; TokenKind.BRACE_CLOSE;
   TokenKind.SEMICOLON].

Definition CODE_BLOCK_BOUNDARIES : list TokenKind :=
  [TokenKind.BRACE_CLOSE; TokenKind.COMMA; TokenKind.PAREN_CLOSE; TokenKind.BRACKET_CLOSE].

Definition is_qualified_name_start (kind : TokenKind) : bool :=
  bool_decide (kind = TokenKind.PATH_SEPARATOR) || is_name kind.

Section parser.
Context {R : Type} `{TextRangeNew R}.

Record Parse := { green : GreenNode R; parse_diagnostics : list (Diagnostic R) }.

Record Parser := {
  p_file : FileId;
  p_tokens : list (TokenKind * R);
  p_index : nat;
  p_events : EventStream;
  p_diagnostics : list (Diagnostic R);
  p_depth : nat;
}.

#[global] Instance Parser_rebuild : Rebuild Parser := λ p,
  {| p_file := p_file p; p_tokens := p_tokens p; p_index := p_index p; p_events := p_events p;
     p_diagnostics := p_diagnostics p; p_depth := p_depth p |}.

(** [Parser::new]. *)
Definition new (file : FileId) (tokens : list (TokenKind * R)) : Parser :=
  {| p_file := file; p_tokens := tokens; p_index := 0; p_events := with_capacity;
     p_diagnostics := []; p_depth := 0 |}.

Abbreviation Method := (M Parser).

(** Loops run at most once per token and once more. *)
Definition looping {T A} (body : T → Method (T + A)) (t : T) : Method A :=
  fuel ← gets (λ p, S (length (p_tokens p)));
  loop fuel body t.

(** ** Looking at tokens *)

Definition raw_kind (p : Parser) : option TokenKind := kind_at (p_tokens p) (p_index p).

Definition at_eof (p : Parser) : bool := length (p_tokens p) <=? p_index p.

Definition significant_index (p : Parser) : option nat :=
  next_significant_index_from (p_tokens p) (p_index p).

Definition significant_kind (p : Parser) : option TokenKind :=
  significant_index p ≫= kind_at (p_tokens p).

Definition at_kind (kind : TokenKind) (p : Parser) : bool := bool_decide (significant_kind p = Some kind).

Definition at_any (kinds : list TokenKind) (p : Parser) : bool :=
  match significant_kind p with Some kind => bool_decide (kind ∈ kinds) | None => false end.

Definition at_code_block_boundary (p : Parser) : bool :=
  if at_eof p then true else at_any CODE_BLOCK_BOUNDARIES p.

Definition next_significant_is_from (p : Parser) (start : nat) (kind : TokenKind) : bool :=
  bool_decide (next_significant_kind (p_tokens p) start = Some kind).

Definition next_significant_is (kind : TokenKind) (p : Parser) : bool :=
  match significant_index p with
  | None => false
  | Some index => next_significant_is_from p (S index) kind
  end.

(** The scan of [typed_short_lambda_has_pipe], over the tokens from an index. *)
Fixpoint lambda_pipe_scan (angles brackets : nat) (tokens : list (TokenKind * R)) : bool :=
  match tokens with
  | [] => false
  | (kind, _) :: rest =>
      if is_trivia kind then lambda_pipe_scan angles brackets rest
      else
        let at_top_level := Nat.eqb angles 0 && Nat.eqb brackets 0 in
        match kind with
        | TokenKind.PIPE => if at_top_level then true else lambda_pipe_scan angles brackets rest
        | TokenKind.LT => lambda_pipe_scan (S angles) brackets rest
        | TokenKind.GT => lambda_pipe_scan (pred angles) brackets rest
        | TokenKind.BRACKET_OPEN => lambda_pipe_scan angles (S brackets) rest
        | TokenKind.BRACKET_CLOSE =>
            if negb (Nat.eqb brackets 0) then lambda_pipe_scan angles (pred brackets) rest
            else if at_top_level then false else lambda_pipe_scan angles brackets rest
        | TokenKind.COMMA | TokenKind.SEMICOLON | TokenKind.BRACE_CLOSE | TokenKind.PAREN_CLOSE =>
            if at_top_level then false else lambda_pipe_scan angles brackets rest
        | _ => lambda_pipe_scan angles brackets rest
        end
  end.

Definition typed_short_lambda_has_pipe (p : Parser) (start : nat) : bool :=
  lambda_pipe_scan 0 0 (drop start (p_tokens p)).

Definition is_short_lambda_start (p : Parser) : bool :=
  match significant_index p with
  | None => false
  | Some index =>
      if negb (from_option is_name false (kind_at (p_tokens p) index)) then false
      else match next_significant_index_from (p_tokens p) (S index) with
      | None => false
      | Some next =>
          match kind_at (p_tokens p) next with
          | Some TokenKind.PIPE => true
          | Some TokenKind.COLON => typed_short_lambda_has_pipe p (S next)
          | _ => false
          end
      end
  end.

Definition is_lambda_body_start (p : Parser) : bool :=
  match significant_kind p with
  | Some TokenKind.BRACE_OPEN | Some TokenKind.PIPE => true
  | _ => is_short_lambda_start p
  end.

Definition dot_starts_all_expression (p : Parser) : bool :=
  match significant_index p with
  | None => false
  | Some dot_index =>
      match next_significant_kind (p_tokens p) (S dot_index) with
      | Some TokenKind.ALL_KW | Some TokenKind.ALL_VERSIONS_KW
      | Some TokenKind.ALL_VERSIONS_IN_RANGE_KW => true
      | _ => false
      end
  end.

Definition is_named_argument_start (p : Parser) : bool :=
  match significant_index p with
  | None => false
  | Some name_index =>
      match kind_at (p_tokens p) name_index with
      | None => false
      | Some kind => is_name kind && next_significant_is_from p (S name_index) TokenKind.ASSIGN
      end
  end.

Definition binary_precedence (p : Parser) : option nat :=
  match significant_kind p with
  | Some TokenKind.EQ | Some TokenKind.NEQ | Some TokenKind.LE | Some TokenKind.LT
  | Some TokenKind.GE | Some TokenKind.GT => Some EQUALITY_PRECEDENCE
  | Some TokenKind.PLUS | Some TokenKind.MINUS => Some ADDITIVE_PRECEDENCE
  | Some TokenKind.STAR | Some TokenKind.SLASH => Some MULTIPLICATIVE_PRECEDENCE
  | _ => None
  end.

(** ** Events and diagnostics *)

Definition emit (event : Event) : Method unit :=
  λ p, events ← append (p_events p) event; Some ((), p <| p_events := events |>).

Definition open (kind : SyntaxKind) : Method unit := emit (Open kind).

Definition close : Method unit := emit Close.

Definition wrap_from (anchor : nat) (kind : SyntaxKind) : Method unit :=
  λ p, events ← insert_after (p_events p) anchor (Open kind); Some ((), p <| p_events := events |>).

Definition eof_span (p : Parser) : option R :=
  let end_ := match last (p_tokens p) with Some (_, range) => end_ range | None => 0 end in
  range_new end_ end_.

Definition current_span (p : Parser) : option R :=
  match p_tokens p !! p_index p with
  | Some (_, range) => Some range
  | None => eof_span p
  end.

Definition push_diagnostic (code : DiagCode) (message : string) : Method unit := λ p,
  span ← current_span p;
  Some ((), p <| p_diagnostics := p_diagnostics p ++ [error_diagnostic code message (p_file p) span] |>).

Definition error_current (message : string) : Method unit := push_diagnostic MalformedSyntax message.

(** ** Consuming tokens *)

Definition bump : Method bool :=
  eof ← gets at_eof;
  if eof : bool then mret false
  else
    kind ← gets raw_kind;
    (if bool_decide (kind = Some TokenKind.ERROR)
     then push_diagnostic BadToken "unrecognized token" else mret ());;
    emit Advance;;
    update_self (λ p, p <| p_index := S (p_index p) |>);;
    mret true.

Definition consume_trivia : Method unit :=
  looping (λ _ : unit,
    trivia ← gets (λ p, from_option is_trivia false (raw_kind p));
    if trivia : bool then
      before ← gets p_index;
      bumped ← bump;
      if negb bumped then break ()
      else
        index ← gets p_index;
        if Nat.eqb index before then break () else continue ()
    else break ()) ().

Definition expect (kind : TokenKind) (expected : string) : Method bool :=
  consume_trivia;;
  raw ← gets raw_kind;
  if bool_decide (raw = Some kind) then bump
  else error_current ("expected " ++ expected);; mret false.

Definition consume_if (kind : TokenKind) : Method bool :=
  consume_trivia;;
  raw ← gets raw_kind;
  if bool_decide (raw = Some kind) then bump else mret false.

Definition consume_name (expected : string) : Method bool :=
  consume_trivia;;
  raw ← gets raw_kind;
  if from_option is_name false raw then bump
  else error_current ("expected " ++ expected);; mret false.

Definition recover_one : Method unit :=
  eof ← gets at_eof;
  if eof : bool then open SyntaxKind.ERROR_NODE;; close
  else open SyntaxKind.ERROR_NODE;; bump;; close.

Definition recover_until (boundaries : list TokenKind) : Method unit :=
  open SyntaxKind.ERROR_NODE;;
  looping (λ _ : unit,
    eof ← gets at_eof;
    if eof : bool then break ()
    else
      boundary ← gets (at_any boundaries);
      if boundary : bool then break ()
      else
        current ← gets p_index;
        bump;;
        index ← gets p_index;
        if Nat.eqb index current then break () else continue ()) ();;
  close.

Definition enter_parse_depth : Method bool :=
  depth ← gets p_depth;
  if MAX_RECURSION_DEPTH <=? depth
  then error_current "parser nesting limit reached";; mret false
  else update_self (λ p, p <| p_depth := S (p_depth p) |>);; mret true.

Definition leave_parse_depth : Method unit :=
  update_self (λ p, p <| p_depth := pred (p_depth p) |>).

(** [reserve_retroactive_wrap]: whether a wrap is left, and the new depth. *)
Definition reserve_retroactive_wrap (wrap_depth : nat) : Method (bool * nat) :=
  if MAX_RETROACTIVE_WRAP_DEPTH <=? wrap_depth
  then error_current "expression nesting limit reached";; mret (false, wrap_depth)
  else mret (true, S wrap_depth).

(** The loops that close every node a unary chain opened. *)
Fixpoint close_times (count : nat) : Method unit :=
  match count with 0 => mret () | S count => close;; close_times count end.

(** ** Names and types *)

Definition parse_qualified_name : Method bool :=
  open SyntaxKind.QUALIFIED_NAME;;
  consume_if TokenKind.PATH_SEPARATOR;;
  valid ← consume_name "a name";
  valid ← looping (λ valid : bool,
    before ← gets p_index;
    has_separator ← consume_if TokenKind.PATH_SEPARATOR;
    index ← gets p_index;
    if Nat.eqb index before || negb has_separator then break valid
    else
      valid ← consume_name "a name after `::`";
      if negb valid then break valid else continue valid) valid;
  close;;
  mret valid.

Definition consume_multiplicity_bound : Method unit :=
  integer ← consume_if TokenKind.INTEGER;
  if integer : bool then mret ()
  else
    star ← consume_if TokenKind.STAR;
    if star : bool then mret () else error_current "expected a multiplicity bound".

Definition parse_multiplicity : Method unit :=
  open SyntaxKind.MULTIPLICITY;;
  expect TokenKind.BRACKET_OPEN "`[` before a multiplicity";;
  consume_multiplicity_bound;;
  range ← consume_if TokenKind.DOT;
  (if range : bool then
     expect TokenKind.DOT "a second `.` in a multiplicity range";;
     consume_multiplicity_bound
   else mret ());;
  expect TokenKind.BRACKET_CLOSE "`]` after a multiplicity";;
  close.

Definition parse_optional_multiplicity : Method unit :=
  bracket ← gets (at_kind TokenKind.BRACKET_OPEN);
  if bracket : bool then parse_multiplicity else mret ().

Section type_reference.
Variable parse_type_reference : Method bool.

Definition parse_column_info : Method unit :=
  open SyntaxKind.COLUMN_INFO;;
  consume_name "a relation column name";;
  expect TokenKind.COLON "`:` after a relation column name";;
  parse_type_reference;;
  parse_optional_multiplicity;;
  close.

Definition parse_relation_type : Method unit :=
  open SyntaxKind.RELATION_TYPE;;
  expect TokenKind.PAREN_OPEN "`(` before relation columns";;
  empty ← gets (at_kind TokenKind.PAREN_CLOSE);
  (if negb empty then
     looping (λ _ : unit,
       before ← gets p_index;
       parse_column_info;;
       has_comma ← consume_if TokenKind.COMMA;
       index ← gets p_index;
       if Nat.eqb index before || negb has_comma then break () else continue ()) ()
   else mret ());;
  expect TokenKind.PAREN_CLOSE "`)` after relation columns";;
  close.

Definition parse_type_arguments : Method unit :=
  relation ← gets (at_kind TokenKind.PAREN_OPEN);
  if relation : bool then parse_relation_type
  else
    looping (λ _ : unit,
      before ← gets p_index;
      parse_type_reference;;
      has_comma ← consume_if TokenKind.COMMA;
      index ← gets p_index;
      if Nat.eqb index before || negb has_comma then break () else continue ()) ().

Definition type_reference_step : Method bool :=
  entered ← enter_parse_depth;
  if negb entered then mret false
  else
    open SyntaxKind.TYPE_REF;;
    valid ← parse_qualified_name;
    arguments ← consume_if TokenKind.LT;
    valid ← (if arguments : bool then
               parse_type_arguments;;
               closed ← expect TokenKind.GT "`>` after type arguments";
               mret (closed && valid)
             else mret valid);
    close;;
    leave_parse_depth;;
    mret valid.
End type_reference.

Fixpoint type_reference_at (fuel : nat) : Method bool :=
  match fuel with
  | 0 => panic
  | S fuel => type_reference_step (type_reference_at fuel)
  end.

Definition parse_type_reference : Method bool := type_reference_at (S MAX_RECURSION_DEPTH).

Definition parse_optional_parameter_type : Method unit :=
  typed ← consume_if TokenKind.COLON;
  if typed : bool then parse_type_reference;; parse_optional_multiplicity else mret ().

(** ** Leaves of the expression grammar *)

Definition parse_variable_expression : Method bool :=
  open SyntaxKind.VARIABLE_EXPR;;
  has_dollar ← expect TokenKind.DOLLAR "`$` before a variable name";
  has_name ← consume_name "a variable name";
  close;;
  mret (has_dollar && has_name).

Definition parse_literal_expression : Method bool :=
  open SyntaxKind.LITERAL_EXPR;;
  consumed ← bump;
  close;;
  mret consumed.

Definition parse_cast_expression : Method bool :=
  open SyntaxKind.CAST_EXPR;;
  expect TokenKind.AT "`@` before a cast type";;
  has_type ← parse_type_reference;
  close;;
  mret has_type.

Definition parse_column_name : Method bool :=
  consume_trivia;;
  raw ← gets raw_kind;
  if negb (from_option (λ kind, is_name kind || bool_decide (kind = TokenKind.STRING)) false raw)
  then error_current "expected a column name";; mret false
  else
    open SyntaxKind.COLUMN_NAME;;
    bump;;
    close;;
    mret true.

Definition parse_bad_token : Method bool :=
  open SyntaxKind.ERROR_NODE;;
  consumed ← bump;
  close;;
  mret consumed.

(** ** Islands *)

Definition unterminated_island : Method unit :=
  push_diagnostic UnterminatedIsland "unterminated island";;
  open SyntaxKind.ERROR_NODE;;
  close.

Definition recover_island_end : Method unit :=
  open SyntaxKind.ERROR_NODE;;
  looping (λ _ : unit,
    more ← gets (λ p, negb (at_eof p) && negb (at_any [TokenKind.ISLAND_END; TokenKind.SEMICOLON] p));
    if more : bool then
      before ← gets p_index;
      bump;;
      index ← gets p_index;
      if Nat.eqb index before then break () else continue ()
    else break ()) ();;
  consume_if TokenKind.ISLAND_END;;
  close.

Definition parse_store_table_pointer : Method bool :=
  open SyntaxKind.ISLAND;;
  open SyntaxKind.STORE_TABLE_POINTER;;
  expect TokenKind.HASH_STORE_OPEN "`#>{` before a table pointer";;
  has_path ← parse_qualified_name;
  has_dot ← expect TokenKind.DOT "`.` between a database and table name";
  has_table ← consume_name "a table name";
  has_close ← consume_if TokenKind.ISLAND_END;
  (if negb has_close then unterminated_island;; recover_island_end else mret ());;
  close;;
  close;;
  mret (has_path && has_dot && has_table && has_close).

Definition parse_navigation_path_island : Method bool :=
  open SyntaxKind.ISLAND;;
  open SyntaxKind.NAV_PATH_ISLAND;;
  consumed ← bump;
  close;;
  close;;
  mret consumed.

(** One token of an opaque island: the delimiters left open, [None] when it
    closes the last of them.  The innermost is the head. *)
Definition opaque_island_token (delimiters : list OpaqueIslandDelimiter)
  : Method (option (list OpaqueIslandDelimiter)) :=
  raw ← gets raw_kind;
  match raw with
  | Some TokenKind.HASH_ISLAND_OPEN | Some TokenKind.HASH_STORE_OPEN =>
      bump;; mret (Some (IslandDelimiter :: delimiters))
  | Some TokenKind.BRACE_OPEN => bump;; mret (Some (BraceDelimiter :: delimiters))
  | Some TokenKind.BRACE_CLOSE =>
      if bool_decide (head delimiters = Some BraceDelimiter)
      then bump;; mret (Some (tail delimiters))
      else bump;; mret (Some delimiters)
  | Some TokenKind.ISLAND_END =>
      if bool_decide (head delimiters = Some IslandDelimiter)
      then
        bump;;
        match tail delimiters with
        | [] => mret None
        | delimiters => mret (Some delimiters)
        end
      else bump;; mret (Some delimiters)
  | _ => bump;; mret (Some delimiters)
  end.

Definition parse_braced_opaque_island : Method bool :=
  open SyntaxKind.ISLAND;;
  open SyntaxKind.OPAQUE_ISLAND;;
  bump;;
  closed ← looping (λ delimiters,
    eof ← gets at_eof;
    if eof : bool then break false
    else
      before ← gets p_index;
      delimiters ← opaque_island_token delimiters;
      match delimiters with
      | None => break true
      | Some delimiters =>
          index ← gets p_index;
          if Nat.eqb index before then break false else continue delimiters
      end) [IslandDelimiter];
  (if closed : bool then mret () else unterminated_island);;
  close;;
  close;;
  mret closed.

Definition parse_hash_opaque_island : Method bool :=
  open SyntaxKind.ISLAND;;
  open SyntaxKind.OPAQUE_ISLAND;;
  bump;;
  closed ← looping (λ _ : unit,
    eof ← gets at_eof;
    if eof : bool then break false
    else
      before ← gets p_index;
      raw ← gets raw_kind;
      if bool_decide (raw = Some TokenKind.HASH) || bool_decide (raw = Some TokenKind.ISLAND_END)
      then bump;; break true
      else
        bump;;
        index ← gets p_index;
        if Nat.eqb index before then break false else continue ()) ();
  (if closed : bool then mret () else unterminated_island);;
  close;;
  close;;
  mret closed.

Definition parse_island : Method bool :=
  raw ← gets raw_kind;
  match raw with
  | Some TokenKind.HASH_STORE_OPEN => parse_store_table_pointer
  | Some TokenKind.NAV_PATH_BLOCK => parse_navigation_path_island
  | Some TokenKind.HASH_ISLAND_OPEN => parse_braced_opaque_island
  | Some TokenKind.HASH => parse_hash_opaque_island
  | _ => mret false
  end.

(** ** Expressions *)

Section expression.
Variable parse_expression : nat → Method bool.

Definition parse_query_expression : Method unit :=
  open SyntaxKind.QUERY_EXPR;;
  parsed ← parse_expression LOWEST_PRECEDENCE;
  (if negb parsed then error_current "expected an expression";; recover_one else mret ());;
  close.

Definition parse_let_statement : Method unit :=
  open SyntaxKind.LET_STMT;;
  expect TokenKind.LET_KW "`let`";;
  consume_name "a binding name";;
  expect TokenKind.ASSIGN "`=` after a binding name";;
  parsed ← parse_expression LOWEST_PRECEDENCE;
  (if negb parsed then
     error_current "expected an expression after `=`";;
     recover_until [TokenKind.SEMICOLON; TokenKind.BRACE_CLOSE; TokenKind.COMMA;
                    TokenKind.PAREN_CLOSE; TokenKind.BRACKET_CLOSE]
   else mret ());;
  close.

Definition parse_code_block : Method unit :=
  open SyntaxKind.CODE_BLOCK;;
  looping (λ _ : unit,
    boundary ← gets at_code_block_boundary;
    if boundary : bool then break ()
    else
      before ← gets p_index;
      is_let ← gets (at_kind TokenKind.LET_KW);
      (if is_let : bool then parse_let_statement else parse_query_expression);;
      consume_trivia;;
      has_separator ← consume_if TokenKind.SEMICOLON;
      index ← gets p_index;
      if Nat.eqb index before then break ()
      else if negb has_separator then break ()
      else consume_trivia;; continue ()) ();;
  close.

Definition parse_lambda_parameters : Method unit :=
  none ← gets (at_kind TokenKind.PIPE);
  if none : bool then mret ()
  else
    open SyntaxKind.LAMBDA_PARAMS;;
    looping (λ _ : unit,
      before ← gets p_index;
      parsed_parameter ← consume_name "a lambda parameter";
      parse_optional_parameter_type;;
      has_comma ← consume_if TokenKind.COMMA;
      index ← gets p_index;
      if Nat.eqb index before then break ()
      else if negb parsed_parameter || negb has_comma then break ()
      else continue ()) ();;
    close.

Definition parse_braced_lambda : Method bool :=
  open SyntaxKind.LAMBDA_EXPR;;
  expect TokenKind.BRACE_OPEN "`{` before a lambda";;
  parse_lambda_parameters;;
  has_pipe ← expect TokenKind.PIPE "`|` after lambda parameters";
  parse_code_block;;
  has_close ← expect TokenKind.BRACE_CLOSE "`}` after a lambda body";
  close;;
  mret (has_pipe && has_close).

Definition parse_short_lambda : Method bool :=
  open SyntaxKind.LAMBDA_EXPR;;
  open SyntaxKind.LAMBDA_PARAMS;;
  consume_name "a lambda parameter";;
  parse_optional_parameter_type;;
  close;;
  has_pipe ← expect TokenKind.PIPE "`|` after a lambda parameter";
  parse_code_block;;
  close;;
  mret has_pipe.

Definition parse_parameterless_lambda : Method bool :=
  open SyntaxKind.LAMBDA_EXPR;;
  has_pipe ← expect TokenKind.PIPE "`|` before lambda body";
  parse_code_block;;
  close;;
  mret has_pipe.

Definition parse_argument (allow_named : bool) : Method unit :=
  named ← gets (λ p, allow_named && is_named_argument_start p);
  (if named : bool then
     consume_name "an argument name";;
     expect TokenKind.ASSIGN "`=` after an argument name";;
     mret ()
   else mret ());;
  parsed ← parse_expression LOWEST_PRECEDENCE;
  if negb parsed then
    error_current "expected an argument expression";;
    recover_until [TokenKind.COMMA; TokenKind.PAREN_CLOSE; TokenKind.SEMICOLON]
  else mret ().

Definition parse_argument_list (allow_named : bool) : Method unit :=
  empty ← gets (at_kind TokenKind.PAREN_CLOSE);
  if empty : bool then mret ()
  else
    looping (λ _ : unit,
      before ← gets p_index;
      parse_argument allow_named;;
      consume_trivia;;
      separator ← gets (at_kind TokenKind.SEMICOLON);
      if separator : bool then break ()
      else
        has_comma ← consume_if TokenKind.COMMA;
        index ← gets p_index;
        if Nat.eqb index before then break ()
        else if has_comma : bool then
          closed ← gets (at_kind TokenKind.PAREN_CLOSE);
          if closed : bool then error_current "expected an argument after `,`";; break ()
          else continue ()
        else
          ended ← gets (λ p, at_kind TokenKind.PAREN_CLOSE p || at_eof p);
          if ended : bool then break ()
          else
            error_current "expected `,` or `)` after an argument";;
            recover_until [TokenKind.COMMA; TokenKind.PAREN_CLOSE; TokenKind.SEMICOLON];;
            separator ← gets (at_kind TokenKind.SEMICOLON);
            if separator : bool then break ()
            else
              index ← gets p_index;
              if Nat.eqb index before then break () else continue ()) ().

Definition parse_call_arguments (allow_named : bool) : Method unit :=
  open SyntaxKind.CALL_ARGS;;
  has_open ← expect TokenKind.PAREN_OPEN "`(` before arguments";
  (if has_open : bool then parse_argument_list allow_named else mret ());;
  expect TokenKind.PAREN_CLOSE "`)` after arguments";;
  close.

Definition parse_new_instance_expression : Method bool :=
  open SyntaxKind.NEW_INSTANCE_EXPR;;
  expect TokenKind.NEW_SYMBOL "`^` before an instance type";;
  variable ← gets (at_kind TokenKind.DOLLAR);
  has_target ← (if variable : bool then parse_variable_expression else parse_qualified_name);
  call ← gets (at_kind TokenKind.PAREN_OPEN);
  (if call : bool then parse_call_arguments true else mret ());;
  close;;
  mret has_target.

Definition parse_parenthesized_items : Method unit :=
  empty ← gets (at_kind TokenKind.PAREN_CLOSE);
  if empty : bool then mret ()
  else
    looping (λ _ : unit,
      before ← gets p_index;
      parsed ← parse_expression LOWEST_PRECEDENCE;
      (if negb parsed then
         error_current "expected an expression inside parentheses";;
         recover_until [TokenKind.COMMA; TokenKind.PAREN_CLOSE; TokenKind.SEMICOLON]
       else mret ());;
      has_comma ← consume_if TokenKind.COMMA;
      index ← gets p_index;
      if Nat.eqb index before || negb has_comma then break ()
      else
        closed ← gets (at_kind TokenKind.PAREN_CLOSE);
        if closed : bool then error_current "expected an expression after `,`";; break ()
        else continue ()) ().

Definition parse_parenthesized_expression : Method bool :=
  open SyntaxKind.PAREN_EXPR;;
  has_open ← expect TokenKind.PAREN_OPEN "`(` before an expression";
  parse_parenthesized_items;;
  has_close ← expect TokenKind.PAREN_CLOSE "`)` after an expression";
  close;;
  mret (has_open && has_close).

Definition parse_collection_items : Method unit :=
  empty ← gets (at_kind TokenKind.BRACKET_CLOSE);
  if empty : bool then mret ()
  else
    looping (λ _ : unit,
      before ← gets p_index;
      parsed ← parse_expression LOWEST_PRECEDENCE;
      (if negb parsed then
         error_current "expected an expression inside a collection literal";;
         recover_until [TokenKind.COMMA; TokenKind.BRACKET_CLOSE; TokenKind.SEMICOLON]
       else mret ());;
      consume_trivia;;
      separator ← gets (at_kind TokenKind.SEMICOLON);
      if separator : bool then break ()
      else
        has_comma ← consume_if TokenKind.COMMA;
        index ← gets p_index;
        if Nat.eqb index before then break ()
        else if has_comma : bool then
          closed ← gets (at_kind TokenKind.BRACKET_CLOSE);
          if closed : bool then error_current "expected an expression after `,`";; break ()
          else continue ()
        else
          ended ← gets (λ p, at_kind TokenKind.BRACKET_CLOSE p || at_eof p);
          if ended : bool then break ()
          else
            error_current "expected `,` or `]` after a collection item";;
            recovery_start ← gets p_index;
            recover_until [TokenKind.COMMA; TokenKind.BRACKET_CLOSE; TokenKind.SEMICOLON];;
            ended ← gets (λ p, at_kind TokenKind.SEMICOLON p || at_kind TokenKind.BRACKET_CLOSE p || at_eof p);
            if ended : bool then break ()
            else
              index ← gets p_index;
              if Nat.eqb index recovery_start then break ()
              else
                consume_if TokenKind.COMMA;;
                closed ← gets (at_kind TokenKind.BRACKET_CLOSE);
                if closed : bool then error_current "expected an expression after `,`";; break ()
                else continue ()) ().

Definition parse_collection_literal : Method bool :=
  open SyntaxKind.COLLECTION_LITERAL;;
  expect TokenKind.BRACKET_OPEN "`[` before a collection literal";;
  parse_collection_items;;
  has_close ← expect TokenKind.BRACKET_CLOSE "`]` after a collection literal";
  close;;
  mret has_close.

(** *** Columns *)

Section column.
Variable parse_primary_expression : Method bool.

Definition parse_column_spec_body : Method unit :=
  lambda ← gets is_lambda_body_start;
  (if lambda : bool then parse_primary_expression;; mret ()
   else parse_type_reference;; parse_optional_multiplicity);;
  mapped ← consume_if TokenKind.COLON;
  if mapped : bool then
    lambda ← gets is_lambda_body_start;
    if lambda : bool then parse_primary_expression;; mret ()
    else error_current "expected a lambda after `:` in a column specification"
  else mret ().

Definition parse_column_spec (has_tilde : bool) : Method bool :=
  open SyntaxKind.COLUMN_SPEC;;
  (if has_tilde then expect TokenKind.TILDE "`~` before a column name";; mret () else mret ());;
  name ← parse_column_name;
  typed ← consume_if TokenKind.COLON;
  (if typed : bool then parse_column_spec_body else mret ());;
  close;;
  mret name.

Definition parse_column_spec_array_items : Method unit :=
  empty ← gets (at_kind TokenKind.BRACKET_CLOSE);
  if empty : bool then mret ()
  else
    looping (λ _ : unit,
      before ← gets p_index;
      parse_column_spec false;;
      consume_trivia;;
      separator ← gets (at_kind TokenKind.SEMICOLON);
      if separator : bool then break ()
      else
        has_comma ← consume_if TokenKind.COMMA;
        index ← gets p_index;
        if Nat.eqb index before then
          recover_until [TokenKind.COMMA; TokenKind.BRACKET_CLOSE; TokenKind.SEMICOLON];;
          comma ← gets (at_kind TokenKind.COMMA);
          if negb comma then break ()
          else
            comma_index ← gets p_index;
            recovered_comma ← consume_if TokenKind.COMMA;
            index ← gets p_index;
            if negb (recovered_comma && (comma_index <? index)) then break ()
            else
              ended ← gets (λ p, at_kind TokenKind.BRACKET_CLOSE p || at_eof p);
              if ended : bool then error_current "expected a column specification after `,`";; break ()
              else continue ()
        else if has_comma : bool then
          ended ← gets (λ p, at_kind TokenKind.BRACKET_CLOSE p || at_eof p);
          if ended : bool then error_current "expected a column specification after `,`";; break ()
          else continue ()
        else
          ended ← gets (λ p, at_kind TokenKind.BRACKET_CLOSE p || at_eof p);
          if ended : bool then break ()
          else
            error_current "expected `,` or `]` after a column specification";;
            recovery_start ← gets p_index;
            recover_until [TokenKind.COMMA; TokenKind.BRACKET_CLOSE; TokenKind.SEMICOLON];;
            ended ← gets (λ p, at_kind TokenKind.SEMICOLON p || at_kind TokenKind.BRACKET_CLOSE p || at_eof p);
            if ended : bool then break ()
            else
              index ← gets p_index;
              if Nat.eqb index recovery_start then break ()
              else
                consume_if TokenKind.COMMA;;
                ended ← gets (λ p, at_kind TokenKind.BRACKET_CLOSE p || at_eof p);
                if ended : bool then error_current "expected a column specification after `,`";; break ()
                else continue ()) ().

Definition parse_column_spec_array : Method bool :=
  open SyntaxKind.COLUMN_SPEC_ARRAY;;
  expect TokenKind.TILDE "`~` before a column specification";;
  expect TokenKind.BRACKET_OPEN "`[` after `~`";;
  parse_column_spec_array_items;;
  has_close ← expect TokenKind.BRACKET_CLOSE "`]` after column specifications";
  close;;
  separator ← gets (at_kind TokenKind.SEMICOLON);
  mret (has_close || separator).

Definition parse_column_builder : Method bool :=
  array ← gets (next_significant_is TokenKind.BRACKET_OPEN);
  if array : bool then parse_column_spec_array else parse_column_spec true.

Definition primary_step : Method bool :=
  consume_trivia;;
  raw ← gets raw_kind;
  match raw with
  | None => mret false
  | Some kind =>
      match kind with
      | TokenKind.DOLLAR => parse_variable_expression
      | TokenKind.INTEGER | TokenKind.BOOLEAN | TokenKind.STRING | TokenKind.DATE_TIME
      | TokenKind.STRICT_DATE | TokenKind.LATEST_DATE => parse_literal_expression
      | TokenKind.PAREN_OPEN => parse_parenthesized_expression
      | TokenKind.BRACKET_OPEN => parse_collection_literal
      | TokenKind.BRACE_OPEN => parse_braced_lambda
      | TokenKind.PIPE => parse_parameterless_lambda
      | TokenKind.TILDE => parse_column_builder
      | TokenKind.NEW_SYMBOL => parse_new_instance_expression
      | TokenKind.AT => parse_cast_expression
      | TokenKind.HASH_STORE_OPEN | TokenKind.HASH_ISLAND_OPEN | TokenKind.NAV_PATH_BLOCK
      | TokenKind.HASH => parse_island
      | TokenKind.ERROR => parse_bad_token
      | kind =>
          short_lambda ← gets (λ p, is_name kind && is_short_lambda_start p);
          if short_lambda : bool then parse_short_lambda
          else if is_qualified_name_start kind then parse_qualified_name
          else mret false
      end
  end.
End column.

(** A primary expression calls itself for the lambda of a column only, which
    calls it no further. *)
Definition parse_primary_expression : Method bool := primary_step (primary_step panic).

(** *** Postfix chains *)

Definition parse_all_expression (expression_start : nat) : Method unit :=
  wrap_from expression_start SyntaxKind.ALL_EXPR;;
  expect TokenKind.DOT "`.` before an all-expression";;
  consume_trivia;;
  raw ← gets raw_kind;
  match raw with
  | Some TokenKind.ALL_KW | Some TokenKind.ALL_VERSIONS_IN_RANGE_KW =>
      bump;;
      call ← gets (at_kind TokenKind.PAREN_OPEN);
      if call : bool then parse_call_arguments false
      else error_current "expected arguments after an all-expression name"
  | Some TokenKind.ALL_VERSIONS_KW => bump;; mret ()
  | _ => error_current "expected an all-expression name"
  end;;
  close.

Definition parse_property_navigation : Method unit :=
  open SyntaxKind.PROPERTY_NAV;;
  expect TokenKind.DOT "`.` before a property name";;
  consume_name "a property name";;
  call ← gets (at_kind TokenKind.PAREN_OPEN);
  (if call : bool then parse_call_arguments false else mret ());;
  close.

Definition parse_arrow_call : Method unit :=
  open SyntaxKind.ARROW_CALL;;
  expect TokenKind.ARROW "`->`";;
  parse_qualified_name;;
  call ← gets (at_kind TokenKind.PAREN_OPEN);
  (if call : bool then parse_call_arguments false
   else error_current "expected arguments after an arrow-call name");;
  close.

Definition parse_function_call (expression_start : nat) : Method unit :=
  wrap_from expression_start SyntaxKind.FUNCTION_CALL;;
  parse_call_arguments false;;
  close.

Definition parse_bracket_index : Method unit :=
  open SyntaxKind.BRACKET_INDEX;;
  expect TokenKind.BRACKET_OPEN "`[` before an index";;
  empty ← gets (at_kind TokenKind.BRACKET_CLOSE);
  (if negb empty then
     parsed ← parse_expression LOWEST_PRECEDENCE;
     if negb parsed then
       error_current "expected an index expression";;
       recover_until [TokenKind.BRACKET_CLOSE; TokenKind.SEMICOLON]
     else mret ()
   else mret ());;
  expect TokenKind.BRACKET_CLOSE "`]` after an index";;
  close.

(** One link of a chain: the wrap depth when the chain goes on. *)
Definition postfix_link (expression_start wrap_depth : nat) : Method (option nat) :=
  kind ← gets significant_kind;
  match kind with
  | Some TokenKind.DOT =>
      all ← gets dot_starts_all_expression;
      if all : bool then
        '(reserved, wrap_depth) ← reserve_retroactive_wrap wrap_depth;
        if negb reserved then mret None
        else parse_all_expression expression_start;; mret (Some wrap_depth)
      else parse_property_navigation;; mret (Some wrap_depth)
  | Some TokenKind.ARROW => parse_arrow_call;; mret (Some wrap_depth)
  | Some TokenKind.BRACKET_OPEN => parse_bracket_index;; mret (Some wrap_depth)
  | Some TokenKind.PAREN_OPEN =>
      '(reserved, wrap_depth) ← reserve_retroactive_wrap wrap_depth;
      if negb reserved then mret None
      else parse_function_call expression_start;; mret (Some wrap_depth)
  | _ => mret None
  end.

Definition parse_postfix_expression : Method bool :=
  start ← gets (λ p, anchor (p_events p));
  match start with
  | None => error_current "parser has no containing syntax node";; mret false
  | Some expression_start =>
      primary ← parse_primary_expression;
      if negb primary then mret false
      else
        looping (λ wrap_depth : nat,
          before ← gets p_index;
          linked ← postfix_link expression_start wrap_depth;
          match linked with
          | None => break ()
          | Some wrap_depth =>
              index ← gets p_index;
              if Nat.eqb index before then break () else continue wrap_depth
          end) 0;;
        mret true
  end.

(** The prefix operators: their number, [None] beyond the limit. *)
Definition unary_operators : Method (option nat) :=
  looping (λ unary_count : nat,
    operator ← gets (at_any [TokenKind.PLUS; TokenKind.MINUS]);
    if operator : bool then
      if Nat.eqb unary_count MAX_UNARY_OPERATOR_COUNT
      then
        error_current "unary-expression nesting limit reached";;
        close_times unary_count;;
        break None
      else open SyntaxKind.UNARY_EXPR;; bump;; continue (S unary_count)
    else break (Some unary_count)) 0.

Definition parse_unary_expression : Method bool :=
  consume_trivia;;
  counted ← unary_operators;
  match counted with
  | None => mret false
  | Some unary_count =>
      parsed_operand ← parse_postfix_expression;
      (if negb parsed_operand && (0 <? unary_count)
       then error_current "expected an operand after a unary operator" else mret ());;
      close_times unary_count;;
      mret parsed_operand
  end.

(** *** Binary operators *)

(** One operator of the loop: the precedence of the node left open, and whether
    the loop goes on. *)
Definition binary_link (minimum_precedence expression_start : nat) (active : option nat)
  : Method (option nat + option nat) :=
  operator ← gets binary_precedence;
  match operator with
  | None => break active
  | Some precedence =>
      before ← gets p_index;
      if precedence <? minimum_precedence then break active
      else
        (if negb (bool_decide (active = Some precedence)) then
           (if bool_decide (is_Some active) then close else mret ());;
           wrap_from expression_start SyntaxKind.BINARY_EXPR
         else mret ());;
        consume_trivia;;
        bump;;
        parsed ← parse_expression (S precedence);
        (if negb parsed then
           error_current "expected an expression after an operator";;
           recover_until EXPRESSION_BOUNDARIES
         else mret ());;
        index ← gets p_index;
        if Nat.eqb index before then break (Some precedence) else continue (Some precedence)
  end.

Definition parse_expression_at_depth (minimum_precedence : nat) : Method bool :=
  start ← gets (λ p, anchor (p_events p));
  match start with
  | None => error_current "parser has no containing syntax node";; mret false
  | Some expression_start =>
      operand ← parse_unary_expression;
      if negb operand then mret false
      else
        active ← looping (binary_link minimum_precedence expression_start) None;
        (if bool_decide (is_Some active) then close else mret ());;
        mret true
  end.

Definition expression_step (minimum_precedence : nat) : Method bool :=
  entered ← enter_parse_depth;
  if negb entered then mret false
  else
    parsed ← parse_expression_at_depth minimum_precedence;
    leave_parse_depth;;
    mret parsed.
End expression.

Fixpoint expression_at (fuel : nat) : nat → Method bool :=
  match fuel with
  | 0 => λ _, panic
  | S fuel => expression_step (expression_at fuel)
  end.

Definition parse_expression : nat → Method bool := expression_at (S MAX_RECURSION_DEPTH).

(** ** Sources *)

Definition consume_source_separator : Method unit :=
  eof ← gets at_eof;
  if eof : bool then mret ()
  else
    separator ← consume_if TokenKind.SEMICOLON;
    if separator : bool then mret ()
    else
      error_current "expected `;` between query expressions";;
      recover_until [TokenKind.SEMICOLON];;
      consume_if TokenKind.SEMICOLON;;
      mret ().

Definition parse_source : Method unit :=
  consume_trivia;;
  looping (λ _ : unit,
    eof ← gets at_eof;
    if eof : bool then break ()
    else
      before ← gets p_index;
      separator ← consume_if TokenKind.SEMICOLON;
      if separator : bool then
        consume_trivia;;
        index ← gets p_index;
        if Nat.eqb index before then break () else continue ()
      else
        parse_query_expression parse_expression;;
        consume_trivia;;
        consume_source_separator;;
        index ← gets p_index;
        if Nat.eqb index before then break ()
        else consume_trivia;; continue ()) ().

(** [Parser::parse]. *)
Definition parse : Method (list Event * list (Diagnostic R)) :=
  open SyntaxKind.ROOT;;
  parse_source;;
  close;;
  events ← gets (λ p, into_events (p_events p));
  diagnostics ← gets p_diagnostics;
  match events with
  | Some events => mret (events, diagnostics)
  | None => panic
  end.

Definition parse_tokens (source : Text) (file : FileId) (tokens : list (TokenKind * R))
  : option (Result Parse (BuildError R)) :=
  '((events, diagnostics), _) ← parse (new file tokens);
  built ← finish (foldl push (builder_new 0 source tokens).1 events);
  Some (match built with
        | Ok green => Ok {| green := green; parse_diagnostics := diagnostics |}
        | Err e => Err e
        end).

Definition parse_query `{Logos} (source : Text) (file : FileId) : option (Result Parse (BuildError R)) :=
  tokens ← lex source;
  parse_tokens source file tokens.
End parser.
Arguments Parse : clear implicits.
Arguments Parser : clear implicits.
