(* ===== verification/M3Laws.v ===== *)
(** * What the query parser's methods do

    A method appends balanced events and reports in source order: [moves] is
    this contract, [method] states it of a method under total correctness, and
    [steps] proves it of the methods that are built from others. *)

From S2P Require Import Prelude Codes Utf8 FixPlan Kinds Green Builder BuilderLaws EventStream Parsing Lexing M3.

Section laws.
Context {R : Type} `{TextRangeNew R}.
Implicit Types p : Parser R.

Record sound (p : Parser R) : Prop := {
  so_events : ∃ path, represents (p_events p) path;
  so_index : p_index p ≤ length (p_tokens p);
  so_depth : p_depth p ≤ MAX_RECURSION_DEPTH;
}.

(** The parser went from one state to another and left [depth] nodes open: it
    appended events that consume exactly the tokens passed, and reported errors
    in source order.  If it is [clean], it reported one for every error node it
    opened and every unrecognised token it passed. *)
Record moves (clean : bool) (depth : nat) (p p' : Parser R) : Prop := {
  mv_tokens : p_tokens p' = p_tokens p;
  mv_file : p_file p' = p_file p;
  mv_depth : p_depth p' = p_depth p;
  mv_index : p_index p ≤ p_index p';
  mv_start : sound p;
  mv_sound : sound p';
  mv_events path :
    represents (p_events p) path →
    ∃ seg ds js,
      represents (p_events p') (path ++ seg) ∧ balance 0 seg.*2 = Some depth ∧
      opens inner_kind seg.*2 = true ∧ p_index p' = p_index p + advances seg.*2 ∧
      p_diagnostics p' = p_diagnostics p ++ ds ∧
      Forall2 (reports (p_file p) (p_tokens p)) ds js ∧ ordered (p_index p) js (p_index p') ∧
      (clean = true → ds = [] →
       opens not_error_node seg.*2 = true ∧ recognised (p_tokens p) (p_index p) (p_index p'));
}.

(** Something was reported in between. *)
Definition reported (p p' : Parser R) : Prop := length (p_diagnostics p) < length (p_diagnostics p').

Lemma moves_refl p : sound p → moves true 0 p p.
Proof.
  intros Hs. split; try done. intros path Hp. exists [], [], []. rewrite !app_nil_r.
  split_and!; try done; simpl; [lia|]. intros _ _. split; [done|]. intros i ?. lia.
Qed.

Lemma moves_trans c c' d d' p0 p1 p2 :
  moves c d p0 p1 → moves c' d' p1 p2 → c' = true ∨ reported p0 p1 → moves c (d + d') p0 p2.
Proof.
  intros [Ht Hf Hd Hi Hst Hs He] [Ht' Hf' Hd' Hi' _ Hs' He'] Hc.
  split; try congruence; [lia|]. intros path Hp.
  destruct (He path Hp) as (seg & ds & js & Hr & Hb & Ho & Hx & Hg & Hrep & Hord & Hcl).
  destruct (He' _ Hr) as (seg' & ds' & js' & Hr' & Hb' & Ho' & Hx' & Hg' & Hrep' & Hord' & Hcl').
  exists (seg ++ seg'), (ds ++ ds'), (js ++ js'). rewrite (assoc_L (++)), !fmap_app.
  split_and!; try done.
  - rewrite (balance_app _ d _ _ Hb). rewrite (Nat.add_comm d d'). by apply (balance_shift d 0).
  - by rewrite opens_app, Ho, Ho'.
  - rewrite advances_app. lia.
  - by rewrite Hg', Hg, (assoc_L (++)).
  - apply Forall2_app; [done|]. by rewrite <-Ht, <-Hf.
  - by eapply ordered_app.
  - intros -> [-> ->]%app_nil. destruct Hc as [->|Hc].
    2:{ unfold reported in Hc. rewrite Hg, app_nil_r in Hc. lia. }
    destruct (Hcl eq_refl eq_refl) as [Hn Hrec]. destruct (Hcl' eq_refl eq_refl) as [Hn' Hrec'].
    split; [by rewrite opens_app, Hn, Hn'|]. intros i Hlt.
    destruct (decide (i < p_index p1)); [apply Hrec; lia|]. rewrite <-Ht. apply Hrec'. lia.
Qed.

Lemma moves_diagnostics c d p p' :
  moves c d p p' → length (p_diagnostics p) ≤ length (p_diagnostics p').
Proof.
  intros [_ _ _ _ [[path Hp] _ _] _ He]. destruct (He path Hp) as (seg & ds & js & _ & _ & _ & _ & -> & _).
  rewrite length_app. lia.
Qed.

(** Time passes: what every step does to the cursor and to the reports. *)
Definition after (p p' : Parser R) : Prop :=
  p_index p ≤ p_index p' ∧ length (p_diagnostics p) ≤ length (p_diagnostics p') ∧
  length (p_tokens p') = length (p_tokens p).

(** Neither the cursor nor the reports change. *)
Definition still (p p' : Parser R) : Prop :=
  p_tokens p' = p_tokens p ∧ p_index p' = p_index p ∧
  length (p_diagnostics p') = length (p_diagnostics p) ∧ length (p_tokens p') = length (p_tokens p).

Lemma moves_after c d p p' : moves c d p p' → after p p'.
Proof.
  intros Hm. split_and!; [apply (mv_index _ _ _ _ Hm)|by eapply moves_diagnostics|by rewrite (mv_tokens _ _ _ _ Hm)].
Qed.

(** ** Primitive steps *)

Lemma emitted p event :
  sound p →
  ∃ events, append (p_events p) event = Some events ∧
    ∃ n, ∀ path, represents (p_events p) path → represents events (path ++ [(n, event)]).
Proof.
  intros [[path Hp] _ _]. destruct (append_represents _ _ event Hp) as (events & E & _).
  exists events. split; [done|]. eexists. intros path' Hp'.
  destruct (append_represents _ _ event Hp') as (events' & E' & Hr). rewrite E in E'. injection E' as <-. exact Hr.
Qed.

Lemma sound_events p events path :
  sound p → represents events path → sound (p <| p_events := events |>).
Proof. intros [_ Hi Hd] Hr. split; [by exists path|done..]. Qed.

Lemma moves_emit c d d' p0 p event events n :
  moves c d p0 p →
  (∀ path, represents (p_events p) path → represents events (path ++ [(n, event)])) →
  match event with
  | Open kind => inner_kind kind = true ∧ d' = S d ∧
                 (not_error_node kind = true ∨ c = false ∨ reported p0 p)
  | Advance => False
  | Close => d = S d'
  end →
  moves c d' p0 (p <| p_events := events |>).
Proof.
  intros [Ht Hf Hd Hi Hst Hs He] Happ Hev. split; try done.
  - destruct Hs as [[path Hp] Hx Hdp]. split; [exists (path ++ [(n, event)]); by apply Happ|done..].
  - intros path Hp. destruct (He path Hp) as (seg & ds & js & Hr & Hb & Ho & Hx & Hg & Hrep & Hord & Hcl).
    exists (seg ++ [(n, event)]), ds, js. rewrite (assoc_L (++)), !fmap_app. simpl.
    split_and!; try done; [by apply Happ|..].
    + rewrite (balance_app _ d _ _ Hb). destruct event as [k| |]; simpl; [by destruct Hev as (_ & -> & _)|done|by rewrite Hev].
    + rewrite opens_app, Ho. simpl. destruct event as [k| |]; [by destruct Hev as (-> & _ & _)|done..].
    + rewrite advances_app. simpl. destruct event; simpl; [lia|done|lia].
    + intros Hc Hds. destruct (Hcl Hc Hds) as [Hn Hrec]. split; [|done].
      rewrite opens_app, Hn. simpl. destruct event as [k| |]; [|done..].
      destruct Hev as (_ & _ & [->|[->|Hev]]); [done..|]. unfold reported in Hev.
      rewrite Hg, Hds, app_nil_r in Hev. lia.
Qed.

Lemma wp_open c d p0 p kind (Q : unit → Parser R → Prop) :
  moves c d p0 p → inner_kind kind = true →
  not_error_node kind = true ∨ c = false ∨ reported p0 p →
  (∀ p', moves c (S d) p0 p' → still p p' → Q () p') → wp (open kind) Q p.
Proof.
  intros Hm Hk Hn HQ. destruct (emitted p (Open kind) (mv_sound _ _ _ _ Hm)) as (events & E & n & Ha).
  unfold wp, open, emit. rewrite E. apply HQ; [|done]. by eapply moves_emit.
Qed.

Lemma wp_close c d p0 p (Q : unit → Parser R → Prop) :
  moves c (S d) p0 p → (∀ p', moves c d p0 p' → still p p' → Q () p') → wp close Q p.
Proof.
  intros Hm HQ. destruct (emitted p Close (mv_sound _ _ _ _ Hm)) as (events & E & n & Ha).
  unfold wp, close, emit. rewrite E. apply HQ; [|done]. by eapply moves_emit.
Qed.

(** A wrap opens a node where the parser was before. *)
Lemma wp_wrap c d p0 p i kind (Q : unit → Parser R → Prop) :
  moves c d p0 p → anchor (p_events p0) = Some i → inner_kind kind = true → not_error_node kind = true →
  (∀ p', moves c (S d) p0 p' → still p p' → Q () p') → wp (wrap_from i kind) Q p.
Proof.
  intros [Ht Hf Hd Hi Hst Hs He] Ha Hk Hn HQ.
  assert (∀ path, represents (p_events p0) path → ∃ pre e, path = pre ++ [(i, e)]) as Hlast.
  { intros path [_ _ Htail]. unfold anchor in Ha. rewrite Ha in Htail.
    destruct path as [|[j e] pre _] using rev_ind; [done|]. rewrite last_snoc in Htail. injection Htail as <-. eauto. }
  destruct (so_events _ Hst) as [path0 Hp0]. destruct (Hlast _ Hp0) as (pre & e & ->).
  destruct (He _ Hp0) as (seg0 & ds0 & js0 & Hr0 & _). rewrite <-(assoc_L (++)) in Hr0. simpl in Hr0.
  destruct (insert_after_represents _ _ _ _ _ (Open kind) Hr0) as (events & E & Hev).
  unfold wp, wrap_from. rewrite E. apply HQ; [|done]. split; try done.
  - by eapply sound_events.
  - intros path Hp. destruct (Hlast _ Hp) as (pre' & e' & ->).
    destruct (He _ Hp) as (seg & ds & js & Hr & Hb & Ho & Hx & Hg & Hrep & Hord & Hcl).
    rewrite <-(assoc_L (++)) in Hr. simpl in Hr.
    destruct (insert_after_represents _ _ _ _ _ (Open kind) Hr) as (events' & E' & Hev').
    rewrite E in E'. injection E' as <-.
    exists ((length (nodes (p_events p)), Open kind) :: seg), ds, js. rewrite <-(assoc_L (++)). simpl.
    split_and!; try done.
    + apply (balance_shift 1) in Hb. simpl in Hb. by rewrite Nat.add_comm in Hb.
    + rewrite Hk. exact Ho.
    + intros Hc Hds. destruct (Hcl Hc Hds) as [Hc1 Hc2]. split; [rewrite Hn; exact Hc1|done].
Qed.

Lemma span_at_current p : current_span p = span_at (p_tokens p) (p_index p).
Proof. done. Qed.

Lemma wp_report c d p0 p code message (Q : unit → Parser R → Prop) :
  moves c d p0 p →
  (∀ p', moves c d p0 p' → p_tokens p' = p_tokens p → p_index p' = p_index p →
         length (p_tokens p') = length (p_tokens p) →
         length (p_diagnostics p') = S (length (p_diagnostics p)) → Q () p') →
  wp (push_diagnostic code message) Q p.
Proof.
  intros Hm HQ. unfold wp, push_diagnostic. rewrite span_at_current.
  destruct (span_at_total (p_tokens p) (p_index p)) as [span E]. rewrite E. simpl.
  apply HQ; [|done..|simpl; rewrite length_app; simpl; lia].
  pose proof (moves_diagnostics _ _ _ _ Hm) as Hlen.
  destruct Hm as [Ht Hf Hd Hi Hst [Hse Hsi Hsd] He]. split; try done.
  intros path Hp. destruct (He path Hp) as (seg & ds & js & Hr & Hb & Ho & Hx & Hg & Hrep & Hord & Hcl).
  exists seg, (ds ++ [error_diagnostic code message (p_file p) span]), (js ++ [p_index p]).
  split_and!; try done; simpl.
  - by rewrite Hg, (assoc_L (++)).
  - apply Forall2_app; [done|]. constructor; [|done]. exists code, message, span. by rewrite <-Ht, Hf.
  - eapply ordered_app; [done|]. simpl. lia.
  - by intros _ [_ ?]%app_nil.
Qed.

(** ** Methods *)

(** A method terminates from every sound state whose depth its fuel [n] allows,
    with balanced events and a result that satisfies [post]. *)
Definition method {A} (n : nat) (c : bool) (m : M (Parser R) A)
    (post : A → Parser R → Parser R → Prop) : Prop :=
  ∀ p, sound p → MAX_RECURSION_DEPTH < p_depth p + n →
    wp m (λ a p', moves c 0 p p' ∧ post a p p') p.

Definition any {A} : A → Parser R → Parser R → Prop := λ _ _ _, True.

(** A method that succeeds consumes a token. *)
Definition progress : bool → Parser R → Parser R → Prop :=
  λ b p p', b = true → p_index p < p_index p'.

(** Calling a method from a state, and going on. *)
Lemma wp_call {A} c c' (m : M (Parser R) A) post d p0 p (Q : A → Parser R → Prop) :
  wp m (λ a p', moves c' 0 p p' ∧ post a p p') p → moves c d p0 p →
  c' = true ∨ reported p0 p →
  (∀ a p', moves c d p0 p' → after p p' → post a p p' → Q a p') → wp m Q p.
Proof.
  intros Hm Hp Hc HQ. eapply wp_mono; [exact Hm|].
  intros a p' [Hm' Hpost]. apply HQ; [| |done].
  - rewrite <-(Nat.add_0_r d). by eapply moves_trans.
  - split_and!; [apply (mv_index _ _ _ _ Hm')|by eapply moves_diagnostics|by rewrite (mv_tokens _ _ _ _ Hm')].
Qed.

Lemma wp_method {A} n c c' (m : M (Parser R) A) post d p0 p (Q : A → Parser R → Prop) :
  method n c' m post → moves c d p0 p → MAX_RECURSION_DEPTH < p_depth p0 + n →
  c' = true ∨ reported p0 p →
  (∀ a p', moves c d p0 p' → after p p' → post a p p' → Q a p') → wp m Q p.
Proof.
  intros Hm Hp Hd Hc HQ. eapply wp_call; [|done..].
  apply Hm; [apply (mv_sound _ _ _ _ Hp)|]. by rewrite (mv_depth _ _ _ _ Hp).
Qed.

(** A loop each of whose iterations passes a token. *)
Lemma wp_looping {T A} (I : T → Parser R → Prop) (body : T → M (Parser R) (T + A)) (Q : A → Parser R → Prop) t p :
  (∀ t p1, I t p1 → p_tokens p1 = p_tokens p ∧ p_index p1 ≤ length (p_tokens p)) →
  I t p →
  (∀ t p1, I t p1 → wp (body t) (λ r p2, match r with
                                         | inl t' => I t' p2 ∧ p_index p1 < p_index p2
                                         | inr a => Q a p2 end) p1) →
  wp (looping body t) Q p.
Proof.
  intros HI Ht Hbody. unfold looping. apply wp_bind, wp_gets.
  apply (wp_loop I (λ p1, length (p_tokens p) - p_index p1)); [|done|lia].
  intros t1 p1 H1. eapply wp_mono; [by apply Hbody|]. intros [t2|a] p2; [|done].
  intros [H2 Hlt]. split; [done|]. destruct (HI _ _ H1), (HI _ _ H2). lia.
Qed.

(** The loops whose invariant is that of the method they are in, and a fact on
    the state of the loop. *)
Lemma wp_looping_with {T A} (J : T → Parser R → Prop) c d p0 (body : T → M (Parser R) (T + A))
    (Q : A → Parser R → Prop) t p :
  moves c d p0 p → J t p →
  (∀ t p1, moves c d p0 p1 → after p p1 → J t p1 →
           wp (body t) (λ r p2, match r with
                                | inl t' => moves c d p0 p2 ∧ after p p2 ∧ J t' p2 ∧ p_index p1 < p_index p2
                                | inr a => Q a p2 end) p1) →
  wp (looping body t) Q p.
Proof.
  intros Hm HJ Hbody. apply (wp_looping (λ t p1, moves c d p0 p1 ∧ after p p1 ∧ J t p1)).
  - intros _ p1 [Hm1 _]. rewrite (mv_tokens _ _ _ _ Hm), <-(mv_tokens _ _ _ _ Hm1). split; [done|].
    apply (so_index _ (mv_sound _ _ _ _ Hm1)).
  - split_and!; [done|unfold after; lia..|done].
  - intros t1 p1 (Hm1 & Ha & HJ1). eapply wp_mono; [by apply Hbody|]. intros [t2|a] p2; [|done]. tauto.
Qed.

Lemma wp_looping_moves {T A} c d p0 (body : T → M (Parser R) (T + A)) (Q : A → Parser R → Prop) t p :
  moves c d p0 p →
  (∀ t p1, moves c d p0 p1 → after p p1 →
           wp (body t) (λ r p2, match r with
                                | inl t' => moves c d p0 p2 ∧ after p p2 ∧ p_index p1 < p_index p2
                                | inr a => Q a p2 end) p1) →
  wp (looping body t) Q p.
Proof.
  intros Hm Hbody. apply (wp_looping_with (λ _ _, True) c d p0); [done..|].
  intros t1 p1 Hm1 Ha _. eapply wp_mono; [by apply Hbody|]. intros [t2|a] p2; [|done]. tauto.
Qed.

(** The cursor is at the next significant token. *)
Definition settled (p p' : Parser R) : Prop :=
  p_tokens p' = p_tokens p ∧ significant_index p' = significant_index p ∧
  from_option is_trivia false (raw_kind p') = false.

(** ** Consuming a token *)

Lemma moves_advance p p1 events n kind :
  moves true 0 p p1 → p_index p1 = p_index p → raw_kind p = Some kind →
  (kind = TokenKind.ERROR → reported p p1) →
  (∀ path, represents (p_events p1) path → represents events (path ++ [(n, Advance)])) →
  moves true 0 p (p1 <| p_events := events |> <| p_index := S (p_index p1) |>).
Proof.
  intros [Ht Hf Hd Hi Hst [[path1 Hp1] Hsi Hsd] He] Hx Hk Hrep Happ.
  pose proof (kind_at_lt _ _ _ Hk) as Hlt. split; try done.
  - simpl. lia.
  - split; simpl; [eauto|rewrite Ht; lia|done].
  - intros path Hp. destruct (He path Hp) as (seg & ds & js & Hr & Hb & Ho & Hadv & Hg & Hrs & Hord & Hcl).
    exists (seg ++ [(n, Advance)]), ds, js. rewrite (assoc_L (++)), !fmap_app. simpl.
    split_and!; try done; [by apply Happ|..].
    + by rewrite (balance_app _ 0 _ _ Hb).
    + by rewrite opens_app, Ho.
    + rewrite advances_app. simpl. lia.
    + eapply (ordered_app _ _ _ []) in Hord; [|instantiate (1 := S (p_index p1)); simpl; lia].
      by rewrite app_nil_r in Hord.
    + intros Hc Hds. destruct (Hcl Hc Hds) as [Hn Hrec]. split; [by rewrite opens_app, Hn|].
      intros i Hii. assert (i = p_index p) as -> by lia. unfold raw_kind in Hk. rewrite Hk. intros [= ->].
      specialize (Hrep eq_refl). unfold reported in Hrep. rewrite Hg, Hds, app_nil_r in Hrep. lia.
Qed.

Definition bumped (b : bool) (p p' : Parser R) : Prop :=
  (b = true → p_index p' = S (p_index p)) ∧ (p_index p < length (p_tokens p) → b = true ∧ p_index p' = S (p_index p)) ∧
  (raw_kind p = Some TokenKind.ERROR → reported p p').

Lemma at_eof_false p : at_eof p = false ↔ p_index p < length (p_tokens p).
Proof. unfold at_eof. by rewrite Nat.leb_gt. Qed.

Lemma raw_kind_lt p kind : raw_kind p = Some kind → p_index p < length (p_tokens p).
Proof. apply kind_at_lt. Qed.

Lemma raw_kind_test (f : TokenKind → bool) p :
  from_option f false (raw_kind p) = true → p_index p < length (p_tokens p).
Proof. destruct (raw_kind p) eqn:E; [|done]. intros _. by eapply raw_kind_lt. Qed.

Lemma at_eof_raw p : at_eof p = true ↔ raw_kind p = None.
Proof. unfold at_eof, raw_kind. by rewrite kind_at_ge, Nat.leb_le. Qed.

Lemma bump_method n : method n true bump bumped.
Proof.
  intros p Hs _. unfold bump. apply wp_bind, wp_gets. pose proof (at_eof_raw p) as Heof.
  destruct (at_eof p) eqn:Ee.
  { apply wp_ret. split; [by apply moves_refl|]. apply Nat.leb_le in Ee.
    split_and!; [done|lia|]. intros Hk%raw_kind_lt. lia. }
  destruct (raw_kind p) as [kind|] eqn:Ek; [|by destruct Heof as [_ Heof]; specialize (Heof eq_refl)].
  apply wp_bind, wp_gets, wp_bind. rewrite Ek.
  assert (∀ p1, moves true 0 p p1 → p_index p1 = p_index p → (kind = TokenKind.ERROR → reported p p1) →
    wp (emit Advance;; update_self (λ p, p <| p_index := S (p_index p) |>);; mret true)
       (λ a p', moves true 0 p p' ∧ bumped a p p') p1) as Htail.
  { intros p1 Hm Hi Hr. destruct (emitted p1 Advance (mv_sound _ _ _ _ Hm)) as (events & E & m & Happ).
    apply wp_bind. unfold wp at 1, emit. rewrite E. simpl.
    apply wp_bind, wp_update, wp_ret. split; [|split_and!; try (intros _; simpl; lia)].
    2:{ rewrite Ek. intros [= ->]. unfold reported in *. simpl. by apply Hr. }
    exact (moves_advance p p1 events m kind Hm Hi Ek Hr Happ). }
  case_bool_decide as Hk.
  - eapply (wp_report true 0 p); [by apply moves_refl|]. intros p1 Hm _ Hi _ Hl. apply Htail; [done..|].
    intros _. unfold reported. lia.
  - apply wp_ret, Htail; [by apply moves_refl|done|]. intros ->. by destruct Hk.
Qed.
End laws.

(** ** Automation

    [steps] runs a method symbolically: it keeps what [moves] says of the current
    state, uses the specification of every method called and forks at tests. *)

Create HintDb m3 discriminated.
#[export] Hint Resolve bump_method : m3.

Ltac deep := solve [eassumption | lia].

Ltac settle :=
  unfold progress, any, reported, after, still, bumped in *; simpl in *;
  repeat match goal with
  | H : _ ∧ _ |- _ => destruct H
  | H : _ && _ = true |- _ => apply andb_true_iff in H
  | H : negb _ = true |- _ => apply negb_true_iff in H
  | H : negb _ = false |- _ => apply negb_false_iff in H
  | H : (_ || _) = false |- _ => apply orb_false_iff in H
  | H : at_eof _ = false |- _ => apply at_eof_false in H
  | H : at_eof _ = true |- _ => apply Nat.leb_le in H
  | H : raw_kind _ = Some _ |- _ => apply raw_kind_lt in H
  | H : from_option _ false (raw_kind _) = true |- _ => apply raw_kind_test in H
  | H : bool_decide (raw_kind _ = Some _) = true |- _ => apply bool_decide_eq_true in H
  | H : Nat.eqb _ _ = true |- _ => apply Nat.eqb_eq in H
  | H : Nat.eqb _ _ = false |- _ => apply Nat.eqb_neq in H
  | H : ?b = true → _, E : ?b = true |- _ => specialize (H E)
  | H : ?b = false → _, E : ?b = false |- _ => specialize (H E)
  | H : ?a < ?b → _ |- _ => specialize (H ltac:(lia))
  | H : ?b = ?b → _ |- _ => specialize (H eq_refl)
  | H : ?x = true |- _ => is_var x; subst x
  | H : ?x = false |- _ => is_var x; subst x
  end.

Ltac side := solve [by left | right; left; reflexivity
                   | right; try right; settle;
                     repeat match goal with H : if ?b then _ else _ |- _ => destruct b end; lia].

Ltac step :=
  lazymatch goal with
  | |- wp (mbind _ _) _ _ => apply wp_bind
  | |- wp (mret _) _ _ => apply wp_ret; cbv beta
  | |- wp (continue _) _ _ => apply wp_ret; cbv beta iota
  | |- wp (break _) _ _ => apply wp_ret; cbv beta iota
  | |- wp (gets _) _ _ => apply wp_gets; cbv beta
  | |- wp (if ?b then _ else _) _ _ => let E := fresh "Eb" in destruct b eqn:E
  | |- wp (match ?x with _ => _ end) _ _ => let E := fresh "Em" in destruct x eqn:E
  | H : moves _ _ _ ?p |- wp (open _) _ ?p =>
      eapply wp_open; [exact H|reflexivity|side|]; clear H; intros ? H ?
  | H : moves _ _ _ ?p |- wp close _ ?p => eapply wp_close; [exact H|]; clear H; intros ? H ?
  | H : moves _ _ _ ?p |- wp (wrap_from _ _) _ ?p =>
      eapply wp_wrap; [exact H|eassumption|reflexivity|reflexivity|]; clear H; intros ? H ?
  | H : moves _ _ _ ?p |- wp (push_diagnostic _ _) _ ?p =>
      eapply wp_report; [exact H|]; clear H; intros ? H ? ? ? ?
  | H : moves _ _ _ ?p |- wp (error_current _) _ ?p =>
      eapply wp_report; [exact H|]; clear H; intros ? H ? ? ? ?
  | H : moves _ _ _ ?p |- wp (looping _ _) _ ?p =>
      eapply wp_looping_moves; [exact H|]; clear H; intros ? ? H ?
  | H : moves _ _ _ ?p |- wp _ _ ?p =>
      eapply wp_method; [|exact H|deep| |]; [solve [eauto with m3]|side|]; clear H; intros ? ? H ? ?; cbv beta in *
  end.

Ltac finish := intros; settle; split_and?; intros; settle; simpl in *; first [assumption | done | lia | congruence].

Ltac steps :=
  repeat step; lazymatch goal with |- wp _ _ _ => idtac | _ => try solve [finish] end.

Ltac method_start :=
  let Hs := fresh "Hs" in let Hd := fresh "Hd" in let Hm := fresh "Hm" in
  intros p0 Hs Hd; pose proof (moves_refl p0 Hs) as Hm.

(** A report frees the claim about error nodes. *)
Lemma moves_reclaim {R} `{TextRangeNew R} c d (p p' : Parser R) :
  moves false d p p' → reported p p' → moves c d p p'.
Proof.
  intros [? ? ? ? ? ? He] Hr. split; try done. intros path Hp.
  destruct (He path Hp) as (seg & ds & js & ?&?&?&?& Hg &?&?&?). exists seg, ds, js. split_and!; try done.
  intros _ ->. unfold reported in Hr. rewrite Hg, app_nil_r in Hr. lia.
Qed.

(** A weaker claim about the methods that open error nodes. *)
Lemma moves_unclean {R} `{TextRangeNew R} c d (p p' : Parser R) : moves c d p p' → moves false d p p'.
Proof.
  intros [? ? ? ? ? ? He]. split; try done. intros path Hp.
  destruct (He path Hp) as (seg & ds & js & ?&?&?&?&?&?&?&?). exists seg, ds, js. by split_and!.
Qed.

(** * The contract of every method of the query parser

    Each method of [M3] moves the parser as [M3Laws.moves] says, and those whose
    result reports success consume a token when they succeed. *)

Section leaves.
Context {R : Type} `{TextRangeNew R} (n : nat).

Lemma consume_trivia_method : method n true (consume_trivia (R:=R)) (λ _, settled).
Proof.
  method_start. unfold consume_trivia.
  eapply (wp_looping_with (λ _ p, p_tokens p = p_tokens p0 ∧ significant_index p = significant_index p0));
    [exact Hm|done|].
  clear Hm. intros _ p Hm Ha [Ht Hj]. do 3 step; [|by steps].
  assert (∀ p2, moves true 0 p0 p2 → p_index p2 = S (p_index p) →
    p_tokens p2 = p_tokens p0 ∧ significant_index p2 = significant_index p0) as Hnext.
  { intros p2 Hm2 Hi. pose proof (mv_tokens _ _ _ _ Hm2) as Ht2. split; [done|].
    rewrite <-Hj. unfold significant_index. rewrite Hi, Ht2, Ht. symmetry.
    unfold raw_kind in Eb. rewrite Ht in Eb. destruct (kind_at _ _) as [k|] eqn:Ek; [|done].
    by eapply next_significant_skip. }
  pose proof (raw_kind_test _ _ Eb). steps.
  assert (p_index p' = S (p_index p)) as Hi by (settle; lia).
  specialize (Hnext p' Hm Hi). split; [done|]. finish.
Qed.
#[local] Hint Resolve consume_trivia_method : m3.

Lemma same_place (p p' : Parser R) :
  p_tokens p' = p_tokens p → p_index p' = p_index p → raw_kind p' = raw_kind p.
Proof. unfold raw_kind. by intros -> ->. Qed.

Lemma expect_method kind expected :
  method n true (expect (R:=R) kind expected)
    (λ b p p', progress b p p' ∧ (raw_kind p = Some kind → p_index p < p_index p')).
Proof.
  method_start. unfold expect. do 2 step. step. assert (p_index p0 = p_index p' → raw_kind p' = raw_kind p0) as Hsame.
  { intros Hi. apply same_place; [apply H2|done]. }
  steps. split; [done|]. split; [done|]. intros Hk. destruct (decide (p_index p0 = p_index p'0)) as [Hi|].
  - exfalso. apply bool_decide_eq_false in Eb. apply Eb. rewrite <-Hk. apply Hsame. congruence.
  - settle. lia.
Qed.

Lemma consume_if_method kind : method n true (consume_if (R:=R) kind) progress.
Proof.
  method_start. unfold consume_if. steps.
Qed.

Lemma consume_name_method expected : method n true (consume_name (R:=R) expected) progress.
Proof.
  method_start. unfold consume_name. steps.
Qed.

Lemma recover_one_method :
  method n false (recover_one (R:=R)) (λ _ p p', p_index p < length (p_tokens p) → p_index p < p_index p').
Proof.
  method_start. apply moves_unclean in Hm. unfold recover_one. steps.
Qed.

Lemma recover_until_method kinds : method n false (recover_until (R:=R) kinds) any.
Proof.
  method_start. apply moves_unclean in Hm. unfold recover_until. steps.
Qed.

Lemma close_times_spec (d k : nat) c (p0 p : Parser R) (Q : unit → Parser R → Prop) :
  moves c (k + d) p0 p → (∀ p', moves c d p0 p' → still p p' → Q () p') → wp (close_times k) Q p.
Proof.
  revert p. induction k as [|k IH]; intros p Hm HQ; simpl.
  - apply HQ; [done|split_and!; done].
  - apply wp_bind. eapply wp_close; [exact Hm|]. intros p' Hm' Hs. apply (IH p' Hm').
    intros p'' Hm'' Hs'. apply HQ; [done|]. unfold still in *. destruct_and?. split_and!; congruence.
Qed.
End leaves.
#[export] Hint Resolve consume_trivia_method expect_method consume_if_method consume_name_method
  recover_one_method recover_until_method : m3.

(** A method that keeps a promise keeps a weaker one. *)
Lemma method_mono {R} `{TextRangeNew R} {A} n c (m : M (Parser R) A) post post' :
  method n c m post → (∀ a p p', post a p p' → post' a p p') → method n c m post'.
Proof. intros Hm Hp p Hs Hd. eapply wp_mono; [by apply Hm|]. intros a p' [? ?]. split; [done|by apply Hp]. Qed.

Section names.
Context {R : Type} `{TextRangeNew R} (n : nat).

Lemma parse_qualified_name_method : method n true (parse_qualified_name (R:=R)) progress.
Proof.
  method_start. unfold parse_qualified_name. do 7 step.
  eapply (wp_looping_with (λ valid p, progress valid p0 p)); [exact Hm|finish|].
  clear Hm. intros valid p Hm Ha HJ. steps.
Qed.

Lemma consume_multiplicity_bound_method : method n true (consume_multiplicity_bound (R:=R)) any.
Proof. method_start. unfold consume_multiplicity_bound. steps. Qed.
#[local] Hint Resolve consume_multiplicity_bound_method : m3.

Lemma parse_multiplicity_method : method n true (parse_multiplicity (R:=R)) any.
Proof. method_start. unfold parse_multiplicity. steps. Qed.
#[local] Hint Resolve parse_multiplicity_method : m3.

Lemma parse_optional_multiplicity_method : method n true (parse_optional_multiplicity (R:=R)) any.
Proof. method_start. unfold parse_optional_multiplicity. steps. Qed.
End names.
#[export] Hint Resolve parse_qualified_name_method parse_optional_multiplicity_method : m3.

(** ** Entering and leaving a depth *)

Section depth.
Context {R : Type} `{TextRangeNew R}.

Lemma wp_enter n p (Q : bool → Parser R → Prop) :
  sound p → MAX_RECURSION_DEPTH < p_depth p + S n →
  (∀ p', moves true 0 p p' → Q false p') →
  (∀ p1, p1 = p <| p_depth := S (p_depth p) |> → sound p1 → MAX_RECURSION_DEPTH < p_depth p1 + n → Q true p1) →
  wp enter_parse_depth Q p.
Proof.
  intros Hs Hd Hlimit HQ. unfold enter_parse_depth. apply wp_bind, wp_gets.
  destruct (Nat.leb_spec MAX_RECURSION_DEPTH (p_depth p)) as [Hle|Hlt].
  - apply wp_bind. eapply (wp_report true 0 p); [by apply moves_refl|]. intros. by apply wp_ret, Hlimit.
  - apply wp_bind, wp_update, wp_ret, HQ; [done| |simpl; lia].
    destruct Hs as [He Hi _]. split; [exact He|exact Hi|exact Hlt].
Qed.

Lemma moves_leave c d p p1 p2 :
  p1 = p <| p_depth := S (p_depth p) |> → sound p → moves c d p1 p2 →
  moves c d p (p2 <| p_depth := pred (p_depth p2) |>).
Proof.
  intros -> Hs [Ht Hf Hd Hi Hst Hs2 He]. split; try done.
  - simpl. by rewrite Hd.
  - destruct Hs2 as [He2 Hi2 _]. split; [exact He2|exact Hi2|]. simpl. rewrite Hd. simpl. apply Hs.
Qed.

Lemma wp_leave c d p p1 p2 (Q : unit → Parser R → Prop) :
  p1 = p <| p_depth := S (p_depth p) |> → sound p → moves c d p1 p2 →
  (∀ p3, moves c d p p3 → still p2 p3 → Q () p3) → wp leave_parse_depth Q p2.
Proof.
  intros E Hs Hm HQ. unfold leave_parse_depth. apply wp_update, HQ; [by eapply moves_leave|done].
Qed.

Lemma deeper_still (p p1 : Parser R) : p1 = p <| p_depth := S (p_depth p) |> → still p p1.
Proof. by intros ->. Qed.
End depth.

Ltac enter :=
  eapply wp_enter; [eassumption|eassumption| |];
  [ intros ? ?; simpl negb; cbv beta iota; steps
  | let p1 := fresh "p1" in let E := fresh "E1" in let Hs := fresh "Hs1" in let Hd := fresh "Hd1" in
    intros p1 E Hs Hd; pose proof (deeper_still _ _ E); pose proof (moves_refl p1 Hs); simpl negb; cbv beta iota ].

Ltac leave := eapply wp_leave; [eassumption..|]; intros ? ? ?.

Section types.
Context {R : Type} `{TextRangeNew R} (n : nat) (type_reference : M (Parser R) bool).
Hypothesis type_reference_method : method n true type_reference progress.
#[local] Hint Resolve type_reference_method : m3.

Lemma parse_column_info_method : method n true (parse_column_info type_reference) any.
Proof. method_start. unfold parse_column_info. steps. Qed.
#[local] Hint Resolve parse_column_info_method : m3.

Lemma parse_relation_type_method : method n true (parse_relation_type type_reference) any.
Proof. method_start. unfold parse_relation_type. steps. Qed.
#[local] Hint Resolve parse_relation_type_method : m3.

Lemma parse_type_arguments_method : method n true (parse_type_arguments type_reference) any.
Proof. method_start. unfold parse_type_arguments. steps. Qed.
#[local] Hint Resolve parse_type_arguments_method : m3.

Lemma type_reference_step_method : method (S n) true (type_reference_step type_reference) progress.
Proof.
  method_start. unfold type_reference_step. step. enter.
  repeat step; leave; steps.
Qed.
End types.

Section leaf_expressions.
Context {R : Type} `{TextRangeNew R}.

Lemma method_deeper {A} n n' c (m : M (Parser R) A) post :
  method n c m post → n' ≤ n → method n' c m post.
Proof. intros Hm Hle p Hs Hd. apply Hm; [done|lia]. Qed.

(** The fuel is the depth left: a type reference never runs out of it. *)
Lemma type_reference_at_method fuel : method fuel true (type_reference_at (R:=R) fuel) progress.
Proof.
  induction fuel as [|fuel IH].
  - intros p [_ _ Hd] Hlt. lia.
  - simpl. by apply type_reference_step_method.
Qed.

Context (n : nat).

Lemma parse_type_reference_method : method n true (parse_type_reference (R:=R)) progress.
Proof.
  intros p Hs _. apply type_reference_at_method; [done|lia].
Qed.
#[local] Hint Resolve parse_type_reference_method : m3.

Lemma parse_optional_parameter_type_method : method n true (parse_optional_parameter_type (R:=R)) any.
Proof. method_start. unfold parse_optional_parameter_type. steps. Qed.

Lemma parse_variable_expression_method : method n true (parse_variable_expression (R:=R)) progress.
Proof. method_start. unfold parse_variable_expression. steps. Qed.

Lemma parse_literal_expression_method : method n true (parse_literal_expression (R:=R)) progress.
Proof. method_start. unfold parse_literal_expression. steps. Qed.

Lemma parse_cast_expression_method : method n true (parse_cast_expression (R:=R)) progress.
Proof. method_start. unfold parse_cast_expression. steps. Qed.

(** A column name that is missing is reported. *)
Lemma parse_column_name_method :
  method n true (parse_column_name (R:=R))
    (λ b p p', if b then p_index p < p_index p' else reported p p').
Proof.
  method_start. unfold parse_column_name. steps.
Qed.

Lemma parse_navigation_path_island_method : method n true (parse_navigation_path_island (R:=R)) progress.
Proof. method_start. unfold parse_navigation_path_island. steps. Qed.

Lemma recover_island_end_method : method n false (recover_island_end (R:=R)) any.
Proof. method_start. apply moves_unclean in Hm. unfold recover_island_end. steps. Qed.
#[local] Hint Resolve recover_island_end_method : m3.

Lemma parse_store_table_pointer_method : method n true (parse_store_table_pointer (R:=R)) progress.
Proof. method_start. unfold parse_store_table_pointer, unterminated_island. steps. Qed.

Lemma opaque_island_token_method delimiters :
  method n true (opaque_island_token (R:=R) delimiters)
    (λ r p p', r = None → p_index p < length (p_tokens p) → p_index p < p_index p').
Proof. method_start. unfold opaque_island_token. steps. Qed.
#[local] Hint Resolve opaque_island_token_method : m3.

Lemma parse_braced_opaque_island_method : method n true (parse_braced_opaque_island (R:=R)) progress.
Proof. method_start. unfold parse_braced_opaque_island, unterminated_island. steps. Qed.

Lemma parse_hash_opaque_island_method : method n true (parse_hash_opaque_island (R:=R)) progress.
Proof. method_start. unfold parse_hash_opaque_island, unterminated_island. steps. Qed.

(** The token of an error node is the report. *)
Lemma parse_bad_token_wp (p0 : Parser R) :
  sound p0 → MAX_RECURSION_DEPTH < p_depth p0 + n → raw_kind p0 = Some TokenKind.ERROR →
  wp parse_bad_token (λ a p', moves true 0 p0 p' ∧ progress a p0 p') p0.
Proof.
  intros Hs Hd Hk. pose proof (moves_unclean _ _ _ _ (moves_refl p0 Hs)) as Hm. unfold parse_bad_token.
  do 4 step. assert (raw_kind p' = Some TokenKind.ERROR) as Hk'.
  { unfold raw_kind in *. destruct H1 as (-> & -> & _). done. }
  steps. split; [|finish]. apply moves_reclaim; [done|]. destruct H3 as (_ & _ & H3). specialize (H3 Hk').
  unfold reported, still in *. lia.
Qed.

Lemma parse_island_method : method n true (parse_island (R:=R)) progress.
Proof.
  pose proof parse_navigation_path_island_method. pose proof parse_store_table_pointer_method.
  pose proof parse_braced_opaque_island_method. pose proof parse_hash_opaque_island_method.
  method_start. unfold parse_island. steps.
Qed.
End leaf_expressions.
#[export] Hint Resolve parse_type_reference_method parse_optional_parameter_type_method
  parse_variable_expression_method parse_literal_expression_method parse_cast_expression_method
  parse_column_name_method parse_island_method : m3.

(** ** The next significant token *)

Section settled.
Context {R : Type} `{TextRangeNew R}.
Implicit Types p : Parser R.

Lemma settled_raw p p' kind : settled p p' → raw_kind p' = Some kind → significant_kind p = Some kind.
Proof.
  intros (Ht & Hs & Hn) Hk. unfold significant_kind. rewrite <-Hs, <-Ht.
  unfold significant_index, raw_kind in *. rewrite Hk in Hn. simpl in Hn. unfold kind_at in Hk |- *.
  destruct (p_tokens p' !! p_index p') as [[k r]|] eqn:E; [|done]. injection Hk as ->.
  rewrite (next_significant_here _ _ _ _ E Hn). simpl. by rewrite E.
Qed.

Lemma settled_significant p p' : settled p p' → significant_kind p = raw_kind p'.
Proof.
  intros Hs. destruct (raw_kind p') as [kind|] eqn:Ek; [by eapply settled_raw|].
  destruct Hs as (Ht & Hs & _). unfold significant_kind. rewrite <-Hs, <-Ht. unfold significant_index.
  destruct (next_significant_index_from _ _) as [i|] eqn:E; [|done].
  apply next_significant_bounds in E. unfold raw_kind in Ek. apply kind_at_ge in Ek. lia.
Qed.

Lemma settled_short_lambda p p' : settled p p' → is_short_lambda_start p' = is_short_lambda_start p.
Proof. intros (Ht & Hs & _). unfold is_short_lambda_start, typed_short_lambda_has_pipe. by rewrite Ht, Hs. Qed.

Lemma settled_lambda p p' :
  settled p p' → is_lambda_body_start p = true →
  raw_kind p' = Some TokenKind.BRACE_OPEN ∨ raw_kind p' = Some TokenKind.PIPE ∨
  ∃ kind, raw_kind p' = Some kind ∧ is_name kind = true ∧ is_short_lambda_start p' = true.
Proof.
  intros Hs Hl. unfold is_lambda_body_start in Hl. rewrite (settled_significant _ _ Hs) in Hl.
  rewrite (settled_short_lambda _ _ Hs).
  assert (is_short_lambda_start p = true →
    ∃ kind, raw_kind p' = Some kind ∧ is_name kind = true) as Hname.
  { clear Hl. intros Hl. unfold is_short_lambda_start in Hl. rewrite <-(settled_significant _ _ Hs).
    unfold significant_kind. destruct (significant_index p) as [i|]; [|done]. simpl.
    destruct (kind_at (p_tokens p) i) as [k|]; simpl in Hl; [|done]. exists k. split; [done|].
    by destruct (is_name k). }
  destruct (raw_kind p') as [[]|] eqn:Ek; try (by left); try (by right; left);
    destruct (Hname Hl) as (k & [= <-] & ?); eauto 6.
Qed.
End settled.

Section expressions.
Context {R : Type} `{TextRangeNew R} (n : nat) (expression : nat → M (Parser R) bool).
Implicit Types p : Parser R.
Hypothesis expression_method : ∀ minimum, method n true (expression minimum) progress.
#[local] Hint Resolve expression_method : m3.

Lemma parse_query_expression_method :
  method n true (parse_query_expression expression)
    (λ _ p p', p_index p < length (p_tokens p) → p_index p < p_index p').
Proof. method_start. unfold parse_query_expression. steps. Qed.
#[local] Hint Resolve parse_query_expression_method : m3.

Lemma parse_let_statement_method : method n true (parse_let_statement expression) any.
Proof. method_start. unfold parse_let_statement. steps. Qed.
#[local] Hint Resolve parse_let_statement_method : m3.

Lemma parse_code_block_method : method n true (parse_code_block expression) any.
Proof. method_start. unfold parse_code_block. steps. Qed.
#[local] Hint Resolve parse_code_block_method : m3.

Lemma parse_lambda_parameters_method : method n true (parse_lambda_parameters (R:=R)) any.
Proof. method_start. unfold parse_lambda_parameters. steps. Qed.
#[local] Hint Resolve parse_lambda_parameters_method : m3.

Lemma parse_braced_lambda_method : method n true (parse_braced_lambda expression) progress.
Proof. method_start. unfold parse_braced_lambda. steps. Qed.

Lemma parse_short_lambda_method : method n true (parse_short_lambda expression) progress.
Proof. method_start. unfold parse_short_lambda. steps. Qed.

Lemma parse_parameterless_lambda_method : method n true (parse_parameterless_lambda expression) progress.
Proof. method_start. unfold parse_parameterless_lambda. steps. Qed.

Lemma parse_argument_method allow_named : method n true (parse_argument expression allow_named) any.
Proof. method_start. unfold parse_argument. steps. Qed.
#[local] Hint Resolve parse_argument_method : m3.

Lemma parse_argument_list_method allow_named : method n true (parse_argument_list expression allow_named) any.
Proof. method_start. unfold parse_argument_list. steps. Qed.
#[local] Hint Resolve parse_argument_list_method : m3.

Lemma parse_call_arguments_method allow_named : method n true (parse_call_arguments expression allow_named) any.
Proof. method_start. unfold parse_call_arguments. steps. Qed.
#[local] Hint Resolve parse_call_arguments_method : m3.

Lemma parse_new_instance_expression_method : method n true (parse_new_instance_expression expression) progress.
Proof. method_start. unfold parse_new_instance_expression. steps. Qed.

Lemma parse_parenthesized_items_method : method n true (parse_parenthesized_items expression) any.
Proof. method_start. unfold parse_parenthesized_items. steps. Qed.
#[local] Hint Resolve parse_parenthesized_items_method : m3.

Lemma parse_parenthesized_expression_method : method n true (parse_parenthesized_expression expression) progress.
Proof. method_start. unfold parse_parenthesized_expression. steps. Qed.

Lemma parse_collection_items_method : method n true (parse_collection_items expression) any.
Proof. method_start. unfold parse_collection_items. steps. Qed.
#[local] Hint Resolve parse_collection_items_method : m3.

Lemma parse_collection_literal_method : method n true (parse_collection_literal expression) progress.
Proof. method_start. unfold parse_collection_literal. steps. Qed.

Lemma parse_property_navigation_method : method n true (parse_property_navigation expression) any.
Proof. method_start. unfold parse_property_navigation. steps. Qed.

Lemma parse_arrow_call_method : method n true (parse_arrow_call expression) any.
Proof. method_start. unfold parse_arrow_call. steps. Qed.

Lemma parse_bracket_index_method : method n true (parse_bracket_index expression) any.
Proof. method_start. unfold parse_bracket_index. steps. Qed.

(** ** Columns and primaries *)

(** What a lambda is: a primary expression that begins with a brace, a pipe or a
    parameter. *)
Definition lambda_method (m : M (Parser R) bool) : Prop :=
  ∀ p, sound p → MAX_RECURSION_DEPTH < p_depth p + n → is_lambda_body_start p = true →
    wp m (λ b p', moves true 0 p p' ∧ progress b p p') p.

#[local] Hint Resolve parse_braced_lambda_method parse_short_lambda_method
  parse_parameterless_lambda_method parse_new_instance_expression_method
  parse_parenthesized_expression_method parse_collection_literal_method : m3.

Section columns.
Variable primary : M (Parser R) bool.
Hypothesis primary_lambda : lambda_method primary.

Lemma wp_primary d p0 p (Q : bool → Parser R → Prop) :
  moves true d p0 p → MAX_RECURSION_DEPTH < p_depth p0 + n → is_lambda_body_start p = true →
  (∀ b p', moves true d p0 p' → after p p' → Q b p') → wp primary Q p.
Proof.
  intros Hm Hd Hl HQ. eapply (wp_call true true _ progress); [|exact Hm|by left|eauto].
  apply primary_lambda; [apply (mv_sound _ _ _ _ Hm)|by rewrite (mv_depth _ _ _ _ Hm)|done].
Qed.

Lemma parse_column_spec_body_method : method n true (parse_column_spec_body primary) any.
Proof.
  method_start. unfold parse_column_spec_body.
  repeat (step || (eapply wp_primary; [eassumption..|]; clear Hm; intros ? ? Hm ?)); try solve [finish].
Qed.
#[local] Hint Resolve parse_column_spec_body_method : m3.

(** A column without a name is reported. *)
Lemma parse_column_spec_method has_tilde :
  method n true (parse_column_spec primary has_tilde)
    (λ b p p', if b then p_index p < p_index p' else reported p p').
Proof.
  method_start. unfold parse_column_spec. steps;
    (split; [eassumption|]; match goal with |- if ?b then _ else _ => destruct b end; settle; lia).
Qed.
#[local] Hint Resolve parse_column_spec_method : m3.

Lemma parse_column_spec_array_items_method : method n true (parse_column_spec_array_items primary) any.
Proof.
  method_start. unfold parse_column_spec_array_items. steps.
Qed.
#[local] Hint Resolve parse_column_spec_array_items_method : m3.

Lemma parse_column_spec_array_wp p0 :
  sound p0 → MAX_RECURSION_DEPTH < p_depth p0 + n → raw_kind p0 = Some TokenKind.TILDE →
  wp (parse_column_spec_array primary) (λ b p', moves true 0 p0 p' ∧ progress b p0 p') p0.
Proof.
  intros Hs Hd Hk. pose proof (moves_refl p0 Hs) as Hm. unfold parse_column_spec_array.
  do 4 step. assert (raw_kind p' = Some TokenKind.TILDE) as Hk'.
  { rewrite <-Hk. apply same_place; apply H1. }
  do 2 step. idtac. match goal with H : _ ∧ (raw_kind p' = Some _ → _) |- _ => destruct H as [_ H]; specialize (H Hk') end.
  steps.
Qed.

Lemma primary_step_method : method n true (primary_step expression primary) progress.
Proof.
  method_start. unfold primary_step. do 4 step. destruct (raw_kind p') as [kind|] eqn:Ek; [|by steps].
  assert (MAX_RECURSION_DEPTH < p_depth p' + n) by (by rewrite (mv_depth _ _ _ _ Hm)).
  pose proof (mv_sound _ _ _ _ Hm).
  assert (wp (short_lambda ← gets (λ p, is_name kind && is_short_lambda_start p);
              if short_lambda : bool then parse_short_lambda expression
              else if is_qualified_name_start kind then parse_qualified_name else mret false)
             (λ b p', moves true 0 p0 p' ∧ progress b p0 p') p') as Hfallback by steps.
  destruct kind; cbv beta iota; try exact Hfallback; clear Hfallback; unfold parse_column_builder; steps.
  - eapply (wp_call true true _ progress); [by apply parse_column_spec_array_wp|exact Hm|by left|]. finish.
  - eapply (wp_call true true _ progress); [by apply (parse_bad_token_wp n)|exact Hm|by left|]. finish.
Qed.
End columns.

Lemma lambda_primary : lambda_method (primary_step expression panic).
Proof.
  intros p0 Hs Hd Hl. pose proof (moves_refl p0 Hs) as Hm. unfold primary_step. do 4 step.
  match goal with H : settled _ _ |- _ => destruct (settled_lambda _ _ H Hl) as [->|[->|(kind & -> & Hk & Hsl)]] end;
    cbv beta iota; [by steps..|].
  assert (wp (short_lambda ← gets (λ p, is_name kind && is_short_lambda_start p);
              if short_lambda : bool then parse_short_lambda expression
              else if is_qualified_name_start kind then parse_qualified_name else mret false)
             (λ b p', moves true 0 p0 p' ∧ progress b p0 p') p') as Hshort.
  { do 2 step. rewrite Hk, Hsl. simpl. steps. }
  destruct kind; try done; exact Hshort.
Qed.

Lemma parse_primary_expression_method : method n true (parse_primary_expression expression) progress.
Proof. apply primary_step_method, lambda_primary. Qed.
#[local] Hint Resolve parse_primary_expression_method parse_property_navigation_method
  parse_arrow_call_method parse_bracket_index_method : m3.

(** ** Postfix chains, prefix operators and binary operators *)

Lemma anchored p : sound p → ∀ d p', moves true (S d) p p' → is_Some (anchor (p_events p')).
Proof.
  intros [[path Hp] _ _] d p' Hm. destruct (mv_events _ _ _ _ Hm _ Hp) as (seg & ds & js & Hr & Hb & _).
  destruct seg as [|x seg _] using rev_ind; [done|]. unfold anchor. rewrite (rp_tail _ _ Hr).
  rewrite (assoc_L (++)), last_snoc. simpl. eauto.
Qed.

Lemma parse_postfix_expression_method : method n true (parse_postfix_expression expression) progress.
Proof.
  method_start. unfold parse_postfix_expression. do 2 step. destruct (anchor (p_events p0)) as [i|] eqn:Ei; [|by steps].
  unfold postfix_link, reserve_retroactive_wrap, parse_all_expression, parse_function_call. steps.
Qed.
#[local] Hint Resolve parse_postfix_expression_method : m3.

Lemma at_any_lt kinds p : at_any kinds p = true → p_index p < length (p_tokens p).
Proof.
  unfold at_any, significant_kind, significant_index.
  destruct (next_significant_index_from _ _) as [i|] eqn:E; [|done].
  apply next_significant_bounds in E. lia.
Qed.

Lemma unary_operators_wp p0 p :
  MAX_RECURSION_DEPTH < p_depth p0 + n → moves true 0 p0 p →
  wp unary_operators (λ r p', after p p' ∧ moves true (default 0 r) p0 p') p.
Proof.
  intros Hd Hm. unfold unary_operators.
  apply (wp_looping (λ count p1, moves true count p0 p1 ∧ after p p1)).
  - intros t p1 [Hm1 _]. rewrite (mv_tokens _ _ _ _ Hm), <-(mv_tokens _ _ _ _ Hm1). split; [done|].
    apply (so_index _ (mv_sound _ _ _ _ Hm1)).
  - split; [done|]. unfold after. lia.
  - clear Hm. intros count p1 [Hm Ha]. do 2 step. step; [|by steps].
    pose proof (at_any_lt _ _ Eb). step; [|by steps]. do 3 step.
    apply (close_times_spec 0 count true p0); [by rewrite Nat.add_0_r|]. intros p3 Hm3 ?. clear Hm.
    step. finish.
Qed.

Lemma parse_unary_expression_method : method n true (parse_unary_expression expression) progress.
Proof.
  method_start. unfold parse_unary_expression. do 3 step.
  eapply wp_mono; [by eapply unary_operators_wp|]. clear Hm. intros [count|] p1 [Ha Hm]; simpl in Hm.
  2:{ step. finish. }
  do 3 step. assert (∀ p2, moves true count p0 p2 → (a0 = true → p_index p0 < p_index p2) →
    wp (close_times count;; mret a0) (λ b p', moves true 0 p0 p' ∧ progress b p0 p') p2) as Hclose.
  { intros p2 Hm2 Hi. apply wp_bind, (close_times_spec 0 count true p0); [by rewrite Nat.add_0_r|].
    intros p3 Hm3 ?. apply wp_ret. split; [done|]. intros ->. settle. lia. }
  step; step; (apply Hclose; [done|]; intros ->; settle; lia).
Qed.
#[local] Hint Resolve parse_unary_expression_method : m3.

Definition active_depth (active : option nat) : nat := if active then 1 else 0.

Lemma binary_loop_wp p0 p start minimum :
  MAX_RECURSION_DEPTH < p_depth p0 + n → moves true 0 p0 p → anchor (p_events p0) = Some start →
  wp (looping (binary_link expression minimum start) None)
     (λ active p', after p p' ∧ moves true (active_depth active) p0 p') p.
Proof.
  intros Hd Hm Hstart.
  apply (wp_looping (λ active p1, moves true (active_depth active) p0 p1 ∧ after p p1)).
  - intros t p1 [Hm1 _]. rewrite (mv_tokens _ _ _ _ Hm), <-(mv_tokens _ _ _ _ Hm1). split; [done|].
    apply (so_index _ (mv_sound _ _ _ _ Hm1)).
  - split; [done|]. unfold after. lia.
  - pose proof (moves_after _ _ _ _ Hm). clear Hm. intros active p1 [Hm Ha]. unfold binary_link. do 2 step. step; [|by steps].
    do 3 step; [by steps|]. step.
    match goal with |- wp ?m ?Q ?p => assert (wp m (λ _ p2, moves true 1 p0 p2 ∧ still p p2) p) as Hwrap end.
    { case_bool_decide as Hsame; simpl negb; cbv iota.
      - subst active. step. split; [done|]. by split_and!.
      - step. destruct active as [a|]; cbn in Hm;
          [rewrite bool_decide_true by eauto|rewrite bool_decide_false by by intros [? ?]]; steps. }
    eapply wp_mono; [exact Hwrap|]. clear Hm Hwrap. intros _ p2 [Hm Hstill]. steps.
Qed.

Lemma parse_expression_at_depth_method minimum :
  method n true (parse_expression_at_depth expression minimum) progress.
Proof.
  method_start. unfold parse_expression_at_depth. do 2 step.
  destruct (anchor (p_events p0)) as [start|] eqn:Es; [|by steps]. do 3 step; [by steps|].
  apply wp_bind. eapply wp_mono; [by eapply binary_loop_wp|]. clear Hm.
  intros [active|] p1 [Ha Hm]; cbn in Hm; step;
    [rewrite bool_decide_true by eauto|rewrite bool_decide_false by by intros [? ?]]; steps.
Qed.
#[local] Hint Resolve parse_expression_at_depth_method : m3.

Lemma expression_step_method minimum : method (S n) true (expression_step expression minimum) progress.
Proof.
  method_start. unfold expression_step. step. enter. repeat step; leave; steps.
Qed.
End expressions.

(** ** Sources *)

Section sources.
Context {R : Type} `{TextRangeNew R}.
Implicit Types p : Parser R.

(** The fuel is the depth left: an expression never runs out of it. *)
Lemma expression_at_method fuel minimum : method fuel true (expression_at (R:=R) fuel minimum) progress.
Proof.
  revert minimum. induction fuel as [|fuel IH]; intros minimum.
  - intros p [_ _ Hd] Hlt. lia.
  - simpl. by apply expression_step_method.
Qed.

Context (n : nat).

Lemma parse_expression_method minimum : method n true (parse_expression (R:=R) minimum) progress.
Proof. intros p Hs _. apply expression_at_method; [done|lia]. Qed.
#[local] Hint Resolve parse_expression_method parse_query_expression_method : m3.

Lemma consume_source_separator_method : method n true (consume_source_separator (R:=R)) any.
Proof. method_start. unfold consume_source_separator. steps. Qed.
#[local] Hint Resolve consume_source_separator_method : m3.

(** The parser reads the whole source. *)
Lemma parse_source_method :
  method n true (parse_source (R:=R)) (λ _ p p', length (p_tokens p') ≤ p_index p').
Proof. method_start. unfold parse_source. steps. Qed.
End sources.

Section parse.
Context {R : Type} `{TextRangeNew R}.

(** The events of a whole source: those of a root around balanced events that
    consume every token, with the errors in source order. *)
Lemma parse_spec file (tokens : list (TokenKind * R)) :
  ∃ evs ds js p', parse (new file tokens) = Some ((Open SyntaxKind.ROOT :: evs ++ [Close], ds), p') ∧
    balance 0 evs = Some 0 ∧ opens inner_kind evs = true ∧ advances evs = length tokens ∧
    Forall2 (reports file tokens) ds js ∧ ordered 0 js (length tokens) ∧
    (ds = [] → opens not_error_node evs = true ∧ recognised tokens 0 (length tokens)).
Proof.
  assert (sound (new file tokens)) as Hs.
  { split; simpl; [exists []; apply represents_empty|lia|lia]. }
  destruct (emitted _ (Open SyntaxKind.ROOT) Hs) as (events & E & m & Happ).
  specialize (Happ [] represents_empty). simpl in Happ.
  set (p1 := (new file tokens) <| p_events := events |>).
  assert (sound p1) as Hs1 by (eapply sound_events; [exact Hs|exact Happ]).
  assert (MAX_RECURSION_DEPTH < p_depth p1 + S MAX_RECURSION_DEPTH) as Hd by (simpl; lia).
  destruct (wp_elim _ _ _ (parse_source_method _ p1 Hs1 Hd)) as ([] & p2 & E2 & Hm & Hend).
  destruct (mv_events _ _ _ _ Hm _ Happ) as (seg & ds & js & Hr & Hb & Ho & Hx & Hg & Hrep & Hord & Hcl).
  destruct (emitted _ Close (mv_sound _ _ _ _ Hm)) as (events' & E3 & m' & Happ').
  specialize (Happ' _ Hr). pose proof (so_index _ (mv_sound _ _ _ _ Hm)) as Hi.
  rewrite (mv_tokens _ _ _ _ Hm) in Hend, Hi. simpl in Hend, Hi, Hx, Hg.
  assert (p_index p2 = length tokens) as Hi2 by lia.
  exists seg.*2, ds, js, (p2 <| p_events := events' |>).
  split.
  { unfold parse. unfold mbind, M_bind, open, close, emit. rewrite E. cbn [mbind option_bind].
    fold p1. rewrite E2. cbn [mbind option_bind]. rewrite E3. cbn [mbind option_bind]. unfold gets. simpl.
    rewrite (into_events_represents _ _ Happ'). unfold mret, M_ret. simpl.
    by rewrite !fmap_app, Hg. }
  rewrite Hi2 in Hord, Hcl, Hx. split_and!; try done. intros Hds. by apply Hcl.
Qed.
End parse.
