(* ===== verification/M3Operators.v ===== *)
(** * Operator expressions

    What the query parser makes of literals, parentheses, signs and binary
    operators: an independent grammar of such expressions, stratified by
    precedence, how one is written as tokens, and the events of its tree.  The
    parser's Pratt loop, which wraps what it has read once it sees an operator,
    gives exactly these events. *)

From S2P Require Import Prelude Utf8 Codes FixPlan Kinds Green Builder BuilderLaws EventStream Parsing Lexing M3 M3Laws.

(** ** The grammar *)

Inductive expr :=
| Literal (kind : TokenKind)
| Paren (e : expr)
| Unary (sign : TokenKind) (e : expr)
| Chain (precedence : nat) (first : expr) (rest : list (TokenKind * expr)).

Definition is_literal (kind : TokenKind) : bool :=
  match kind with
  | TokenKind.INTEGER | TokenKind.BOOLEAN | TokenKind.STRING | TokenKind.DATE_TIME
  | TokenKind.STRICT_DATE | TokenKind.LATEST_DATE => true
  | _ => false
  end.

Definition is_sign (kind : TokenKind) : bool :=
  match kind with TokenKind.PLUS | TokenKind.MINUS => true | _ => false end.

Definition operator (kind : TokenKind) : option nat :=
  match kind with
  | TokenKind.EQ | TokenKind.NEQ | TokenKind.LE | TokenKind.LT | TokenKind.GE | TokenKind.GT => Some 1
  | TokenKind.PLUS | TokenKind.MINUS => Some 2
  | TokenKind.STAR | TokenKind.SLASH => Some 3
  | _ => None
  end.

Fixpoint signs (e : expr) : nat := match e with Unary _ e => S (signs e) | _ => 0 end.

(** An expression whose outermost operators bind at least as tightly as a level:
    the operands of a chain bind more tightly than its operators, those of a sign
    than every operator. *)
Fixpoint layered (level : nat) (e : expr) : bool :=
  match e with
  | Literal kind => is_literal kind
  | Paren e => layered 0 e
  | Unary sign e => is_sign sign && (S (signs e) <=? MAX_UNARY_OPERATOR_COUNT) && layered 4 e
  | Chain precedence first rest =>
      (level <=? precedence) && negb (Nat.eqb (length rest) 0) && layered (S precedence) first
      && forallb (λ '(op, e), bool_decide (operator op = Some precedence) && layered (S precedence) e) rest
  end.

(** How deep the parser recurses into it. *)
Fixpoint height (e : expr) : nat :=
  match e with
  | Literal _ => 0
  | Paren e => S (height e)
  | Unary _ e => height e
  | Chain _ first rest => height first `max` foldr (λ '(_, e) h, S (height e) `max` h) 0 rest
  end.

(** The expression as tokens, and the events of its tree. *)
Fixpoint written (e : expr) : list TokenKind :=
  match e with
  | Literal kind => [kind]
  | Paren e => TokenKind.PAREN_OPEN :: written e ++ [TokenKind.PAREN_CLOSE]
  | Unary sign e => sign :: written e
  | Chain _ first rest => written first ++ concat ((λ '(op, e), op :: written e) <$> rest)
  end.

Fixpoint events (e : expr) : list Event :=
  match e with
  | Literal _ => [Open SyntaxKind.LITERAL_EXPR; Advance; Close]
  | Paren e => Open SyntaxKind.PAREN_EXPR :: Advance :: events e ++ [Advance; Close]
  | Unary _ e => Open SyntaxKind.UNARY_EXPR :: Advance :: events e ++ [Close]
  | Chain _ first rest =>
      Open SyntaxKind.BINARY_EXPR :: events first ++ concat ((λ '(_, e), Advance :: events e) <$> rest) ++ [Close]
  end.

(** ** Chains as the loop reads them

    The tightest operand on the left, and the operators that follow it. *)
Fixpoint spine (e : expr) : expr * list (TokenKind * expr) :=
  match e with
  | Chain _ first rest => let '(u, ops) := spine first in (u, ops ++ rest)
  | e => (e, [])
  end.

Definition op_precedence (kind : TokenKind) : nat := default 0 (operator kind).

(** The events of the loop: its state, and what it has emitted. *)
Definition link (state : option nat * list Event) (op_e : TokenKind * expr) : option nat * list Event :=
  let '(active, evs) := state in
  let '(op, e) := op_e in
  (Some (op_precedence op),
   (if bool_decide (active = Some (op_precedence op)) then evs
    else Open SyntaxKind.BINARY_EXPR :: evs ++ (if active then [Close] else [])) ++ Advance :: events e).

Definition linked (u : expr) (ops : list (TokenKind * expr)) : option nat * list Event :=
  foldl link (None, events u) ops.

Definition closed (state : option nat * list Event) : list Event :=
  state.2 ++ (if state.1 then [Close] else []).

(** Operators in the order the loop meets them: each between the level and the
    one before. *)
Fixpoint descends (level bound : nat) (ops : list (TokenKind * expr)) : Prop :=
  match ops with
  | [] => True
  | (op, e) :: ops =>
      operator op = Some (op_precedence op) ∧ level ≤ op_precedence op ≤ bound ∧
      layered (S (op_precedence op)) e = true ∧ descends level (op_precedence op) ops
  end.

Definition is_chain (e : expr) : bool := match e with Chain _ _ _ => true | _ => false end.

Lemma layered_chain level p first rest :
  layered level (Chain p first rest) = true →
  level ≤ p ∧ rest ≠ [] ∧ layered (S p) first = true ∧
  forallb (λ '(op, e), bool_decide (operator op = Some p) && layered (S p) e) rest = true.
Proof.
  cbn [layered]. rewrite !andb_true_iff, Nat.leb_le. intros [[[? Hne] ?] ?]. split_and!; try done.
  by destruct rest.
Qed.

Lemma operator_bound op p : operator op = Some p → 1 ≤ p ≤ 3.
Proof. destruct op; simpl; intros [= <-]; lia. Qed.

Lemma descends_weaken level level' bound ops : descends level bound ops → level' ≤ level → descends level' bound ops.
Proof.
  revert bound. induction ops as [|[op e] ops IH]; simpl; intros bound; [done|].
  intros (? & [? ?] & ? & ?) Hle. split_and!; [done|lia|done|done|]. by apply IH.
Qed.

Lemma descends_app level bound a b :
  descends (S level) bound a → descends level level b → level ≤ bound → descends level bound (a ++ b).
Proof.
  revert bound. induction a as [|[op e] a IH]; simpl; intros bound.
  - intros _ Hb Hle. destruct b as [|[op e] b]; [done|]. simpl in *. destruct Hb as (? & [? ?] & ? & ?).
    split_and!; done || lia.
  - intros (? & [? ?] & ? & ?) Hb Hle. split_and!; [done|lia|done|done|]. apply IH; [done..|lia].
Qed.

Lemma chain_descends p rest :
  forallb (λ '(op, e), bool_decide (operator op = Some p) && layered (S p) e) rest = true → descends p p rest.
Proof.
  induction rest as [|[op e] rest IH]; simpl; [done|].
  rewrite !andb_true_iff, bool_decide_eq_true. intros [[Ho Hl] Hr].
  unfold op_precedence. rewrite Ho. simpl. split_and!; [done|lia|lia|done|auto].
Qed.

Lemma spine_spec level e u ops :
  layered level e = true → spine e = (u, ops) →
  is_chain u = false ∧ layered 4 u = true ∧ descends level 3 ops ∧
  written e = written u ++ concat ((λ '(op, e), op :: written e) <$> ops) ∧
  height u ≤ height e ∧ Forall (λ '(_, e'), S (height e') ≤ height e) ops.
Proof.
  revert level u ops. induction e as [k|e IH|s e IH|p first IH rest]; intros level u ops; simpl.
  1-3: intros Hl [= <- <-]; simpl; rewrite ?app_nil_r; split_and!; done || constructor.
  intros (Hle & Hne & Hf & Hr)%layered_chain.
  destruct (spine first) as [u' ops'] eqn:E. intros [= <- <-].
  destruct (IH _ _ _ Hf eq_refl) as (Hc & Hu & Hd & Hw & Hh & Hhs). split_and!; try done.
  - eapply descends_weaken; [|done]. pose proof (chain_descends _ _ Hr) as Hcd.
    apply descends_app; [done|done|]. destruct rest as [|[op e] rest]; [done|]. simpl in Hcd.
    destruct Hcd as (Ho & Hb & _). pose proof (operator_bound _ _ Ho). lia.
  - by rewrite Hw, fmap_app, concat_app, (assoc_L (++)).
  - lia.
  - apply Forall_app. split.
    + eapply Forall_impl; [exact Hhs|]. intros [op e] ?. lia.
    + clear. induction rest as [|[op e] rest IH]; constructor; [simpl; lia|].
      eapply Forall_impl; [exact IH|]. intros [op' e'] ?. simpl. lia.
Qed.

(** The loop over operators of one precedence, once it has wrapped. *)
Lemma link_same p evs rest :
  forallb (λ '(op, e), bool_decide (operator op = Some p) && layered (S p) e) rest = true →
  foldl link (Some p, evs) rest = (Some p, evs ++ concat ((λ '(_, e), Advance :: events e) <$> rest)).
Proof.
  revert evs. induction rest as [|[op e] rest IH]; intros evs; simpl; [by rewrite app_nil_r|].
  rewrite !andb_true_iff, bool_decide_eq_true. intros [[Ho _] Hr].
  unfold op_precedence. rewrite Ho. simpl. rewrite bool_decide_true by done.
  rewrite IH by done. by rewrite <-(assoc_L (++)).
Qed.

Lemma spine_linked level e u ops :
  layered level e = true → spine e = (u, ops) →
  closed (linked u ops) = events e ∧
  (linked u ops).1 = match e with Chain p _ _ => Some p | _ => None end.
Proof.
  revert level u ops. induction e as [k|e IH|s e IH|p first IH rest]; intros level u ops; simpl.
  1-3: intros Hl [= <- <-]; unfold closed, linked; simpl; by rewrite ?app_nil_r.
  intros (Hle & Hne & Hf & Hr)%layered_chain.
  destruct (spine first) as [u' ops'] eqn:E. intros [= <- <-].
  destruct (IH _ _ _ Hf eq_refl) as [Hev Hac]. unfold linked in *. rewrite foldl_app.
  destruct (foldl link (None, events u') ops') as [active evs]. unfold closed in Hev. simpl in Hev, Hac.
  destruct rest as [|[op e] rest]; [done|]. simpl in Hr |- *.
  apply andb_true_iff in Hr as [Ho Hr]. apply andb_true_iff in Ho as [Ho _]. apply bool_decide_eq_true in Ho.
  assert (active ≠ Some p) as Hneq.
  { rewrite Hac. destruct first as [| | |q ? ?]; try done. apply layered_chain in Hf as [Hq _].
    intros [= ->]. lia. }
  unfold op_precedence. rewrite Ho. simpl. rewrite bool_decide_false by done. rewrite Hev, link_same by done.
  split; [|done]. unfold closed. simpl. by rewrite <-!(assoc_L (++)).
Qed.

(** ** Signs *)

Definition is_operand (e : expr) : bool := match e with Literal _ | Paren _ => true | _ => false end.

Lemma signs_spec u :
  layered 4 u = true → is_chain u = false →
  ∃ ss o, u = foldr Unary o ss ∧ Forall (λ s, is_sign s = true) ss ∧ length ss ≤ MAX_UNARY_OPERATOR_COUNT ∧
          is_operand o = true ∧ layered 4 o = true ∧ height o = height u.
Proof.
  induction u as [k|e IH|s e IH|p first IH rest]; simpl; [| | |done].
  - intros Hl _. exists [], (Literal k). split_and!; done || (simpl; lia).
  - intros Hl _. exists [], (Paren e). split_and!; done || (simpl; lia).
  - rewrite !andb_true_iff, Nat.leb_le. intros [[Hs Hn] Hl] _.
    assert (is_chain e = false) as Hc.
    { destruct e as [| | |p first rest]; try done. apply layered_chain in Hl as (Hle & Hne & _ & Hr).
      destruct rest as [|[op e] rest]; [done|]. simpl in Hr.
      rewrite !andb_true_iff, bool_decide_eq_true in Hr. destruct Hr as [[Ho _] _]. apply operator_bound in Ho. lia. }
    destruct (IH Hl Hc) as (ss & o & -> & Hss & Hlen & Ho & Hlo & Hh).
    assert (signs (foldr Unary o ss) = length ss) as Hsig.
    { clear -Ho. induction ss; simpl; [by destruct o|by f_equal]. }
    exists (s :: ss), o. split_and!; [done|by constructor|unfold MAX_UNARY_OPERATOR_COUNT; simpl; lia|done..].
Qed.

(** ** Running the parser on what is written *)

Section reading.
Context {R : Type} `{TextRangeNew R}.
Implicit Types p : Parser R.

(** The kinds of the tokens ahead. *)
Definition ahead (p : Parser R) : list TokenKind := drop (p_index p) (p_tokens p).*1.

(** Something was emitted before, and the cursor is within the tokens. *)
Definition alive (p : Parser R) : Prop :=
  (∃ path, represents (p_events p) path ∧ path ≠ []) ∧ p_index p ≤ length (p_tokens p).

(** The parser emitted these events, consumed their tokens and did nothing
    else. *)
Record grows (p p' : Parser R) (evs : list Event) : Prop := {
  gr_tokens : p_tokens p' = p_tokens p;
  gr_file : p_file p' = p_file p;
  gr_depth : p_depth p' = p_depth p;
  gr_reports : p_diagnostics p' = p_diagnostics p;
  gr_index : p_index p' = p_index p + advances evs;
  gr_alive : alive p;
  gr_bound : p_index p' ≤ length (p_tokens p');
  gr_events path : represents (p_events p) path →
    ∃ seg, represents (p_events p') (path ++ seg) ∧ seg.*2 = evs;
}.

Lemma grows_refl p : alive p → grows p p [].
Proof.
  intros Ha. split; [done|done|done|done|simpl; lia|done|by destruct Ha|]. intros path Hp. exists []. by rewrite app_nil_r.
Qed.

Lemma grows_trans p0 p1 p2 evs evs' : grows p0 p1 evs → grows p1 p2 evs' → grows p0 p2 (evs ++ evs').
Proof.
  intros [Ht Hf Hd Hr Hi Ha _ He] [Ht' Hf' Hd' Hr' Hi' _ Hb' He']. split; try done || congruence.
  - rewrite advances_app. lia.
  - intros path Hp. destruct (He _ Hp) as (seg & Hs & <-). destruct (He' _ Hs) as (seg' & Hs' & <-).
    exists (seg ++ seg'). by rewrite (assoc_L (++)), fmap_app.
Qed.

Lemma grows_alive p p' evs : grows p p' evs → alive p'.
Proof.
  intros Hg. split; [|apply (gr_bound _ _ _ Hg)]. destruct (gr_alive _ _ _ Hg) as [(path & Hp & Hne) _]. destruct (gr_events _ _ _ Hg _ Hp) as (seg & Hs & _).
  exists (path ++ seg). split; [done|]. by intros [? _]%app_nil.
Qed.

Lemma grows_ahead p p' evs : grows p p' evs → ahead p' = drop (advances evs) (ahead p).
Proof. intros Hg. unfold ahead. by rewrite (gr_tokens _ _ _ Hg), (gr_index _ _ _ Hg), drop_drop. Qed.

Lemma ahead_raw p : raw_kind p = head (ahead p).
Proof.
  unfold raw_kind, kind_at, ahead. rewrite <-list_lookup_fmap. generalize (p_tokens p).*1. intros l.
  by rewrite <-(Nat.add_0_r (p_index p)), <-lookup_drop, Nat.add_0_r, head_lookup.
Qed.

(** The next token is none to skip. *)
Definition shown (p : Parser R) : Prop := from_option is_trivia false (head (ahead p)) = false.

Lemma shown_settled p : shown p → settled p p.
Proof. unfold shown. rewrite <-ahead_raw. done. Qed.

Lemma shown_significant p : shown p → significant_kind p = head (ahead p).
Proof. intros Hs. by rewrite (settled_significant p p (shown_settled _ Hs)), ahead_raw. Qed.

Lemma wp_trivia p (Q : unit → Parser R → Prop) : shown p → Q () p → wp consume_trivia Q p.
Proof.
  intros Hs HQ. unfold shown in Hs. rewrite <-ahead_raw in Hs. unfold consume_trivia, looping.
  apply wp_bind, wp_gets. simpl. apply wp_bind, wp_bind, wp_gets. rewrite Hs. apply wp_ret, wp_ret, HQ.
Qed.

Lemma alive_anchor p : alive p → is_Some (anchor (p_events p)).
Proof.
  intros [(path & [_ _ Ht] & Hne) _]. unfold anchor. rewrite Ht. destruct path as [|x path _] using rev_ind; [done|].
  rewrite last_snoc. simpl. eauto.
Qed.

Lemma wp_grow_emit p0 p evs event (Q : unit → Parser R → Prop) :
  grows p0 p evs → is_advance event = false →
  (∀ p', grows p0 p' (evs ++ [event]) → ahead p' = ahead p → Q () p') → wp (emit event) Q p.
Proof.
  intros Hg Hev HQ. destruct (grows_alive _ _ _ Hg) as [(path0 & Hp0 & _) Hb].
  destruct (append_represents _ _ event Hp0) as (es & E & _). unfold wp, emit. rewrite E. apply HQ; [|done].
  eapply grows_trans; [exact Hg|]. split; try done.
  - simpl. rewrite Hev. lia.
  - by eapply grows_alive.
  - intros path Hp. destruct (append_represents _ _ event Hp) as (es' & E' & Hr). rewrite E in E'. injection E' as <-.
    by eexists.
Qed.

Lemma wp_grow_bump p0 p evs kind rest (Q : bool → Parser R → Prop) :
  grows p0 p evs → ahead p = kind :: rest → kind ≠ TokenKind.ERROR →
  (∀ p', grows p0 p' (evs ++ [Advance]) → ahead p' = rest → Q true p') → wp bump Q p.
Proof.
  intros Hg Ha Hk HQ. assert (raw_kind p = Some kind) as Hr by by rewrite ahead_raw, Ha.
  pose proof (raw_kind_lt _ _ Hr) as Hlt. unfold bump. apply wp_bind, wp_gets.
  rewrite (proj2 (at_eof_false p) Hlt). apply wp_bind, wp_gets, wp_bind. rewrite Hr.
  rewrite bool_decide_false by congruence. apply wp_ret, wp_bind.
  destruct (grows_alive _ _ _ Hg) as [(path0 & Hp0 & _) Hb].
  destruct (append_represents _ _ Advance Hp0) as (es & E & _). unfold wp at 1, emit. rewrite E.
  simpl. apply wp_bind, wp_update, wp_ret.
  assert (grows p ((p <| p_events := es |>) <| p_index := S (p_index p) |>) [Advance]) as Hstep.
  { split; try done; [simpl; lia|by eapply grows_alive|]. intros path Hp.
    destruct (append_represents _ _ Advance Hp) as (es' & E' & Hrep). rewrite E in E'. injection E' as <-. by eexists. }
  apply HQ; [by eapply grows_trans|]. pose proof (grows_ahead _ _ _ Hstep) as Hah. rewrite Ha in Hah. exact Hah.
Qed.

Lemma wp_grow_wrap p0 p evs i kind (Q : unit → Parser R → Prop) :
  grows p0 p evs → anchor (p_events p0) = Some i →
  (∀ p', grows p0 p' (Open kind :: evs) → ahead p' = ahead p → Q () p') → wp (wrap_from i kind) Q p.
Proof.
  intros [Ht Hf Hd Hr Hi Ha Hb He] Han HQ.
  assert (∀ path, represents (p_events p0) path → ∃ pre e, path = pre ++ [(i, e)]) as Hlast.
  { intros path [_ _ Htail]. unfold anchor in Han. rewrite Han in Htail.
    destruct path as [|[j e] pre _] using rev_ind; [done|]. rewrite last_snoc in Htail. injection Htail as <-. eauto. }
  pose proof Ha as [(path0 & Hp0 & Hne) _]. destruct (Hlast _ Hp0) as (pre & e & ->).
  destruct (He _ Hp0) as (seg0 & Hr0 & _). rewrite <-(assoc_L (++)) in Hr0. simpl in Hr0.
  destruct (insert_after_represents _ _ _ _ _ (Open kind) Hr0) as (es & E & _).
  unfold wp, wrap_from. rewrite E. apply HQ; [|done]. split; try done.
  intros path Hp. destruct (Hlast _ Hp) as (pre' & e' & ->). destruct (He _ Hp) as (seg & Hs & Hev).
  rewrite <-(assoc_L (++)) in Hs. simpl in Hs.
  destruct (insert_after_represents _ _ _ _ _ (Open kind) Hs) as (es' & E' & Hrep). rewrite E in E'. injection E' as <-.
  exists ((length (nodes (p_events p)), Open kind) :: seg). rewrite <-(assoc_L (++)). simpl.
  split; [done|]. exact (f_equal (cons (Open kind)) Hev).
Qed.
End reading.

(** ** Reading an expression *)

Definition postfix_start (kind : TokenKind) : bool :=
  match kind with
  | TokenKind.DOT | TokenKind.ARROW | TokenKind.BRACKET_OPEN | TokenKind.PAREN_OPEN => true
  | _ => false
  end.

(** What follows does not continue an expression of the level. *)
Definition stops (level : nat) (post : list TokenKind) : Prop :=
  match post with
  | [] => True
  | kind :: _ => is_trivia kind = false ∧ postfix_start kind = false ∧
                 from_option (λ p, p < level) True (operator kind)
  end.

Lemma written_head level e :
  layered level e = true → ∃ kind rest, written e = kind :: rest ∧
    (is_literal kind || is_sign kind || bool_decide (kind = TokenKind.PAREN_OPEN)) = true.
Proof.
  revert level. induction e as [k|e IH|s e IH|p first IH rest]; intros level.
  - simpl. intros Hk. eexists _, _. split; [done|]. by rewrite Hk.
  - intros _. simpl. eexists _, _. by split.
  - simpl. rewrite !andb_true_iff. intros [[Hk _] _]. eexists _, _. split; [done|]. by rewrite Hk, orb_true_r.
  - intros (_ & _ & Hf & _)%layered_chain. destruct (IH _ Hf) as (k & r & E & Hk). simpl. rewrite E. simpl. eauto.
Qed.

Lemma head_shown {R} `{TextRangeNew R} level e (p : Parser R) post :
  layered level e = true → ahead p = written e ++ post → shown p ∧ at_kind TokenKind.PAREN_CLOSE p = false.
Proof.
  intros Hl Ha. destruct (written_head _ _ Hl) as (k & r & E & Hk). rewrite E in Ha. simpl in Ha.
  assert (shown p) as Hs by (unfold shown; rewrite Ha; by destruct k). split; [done|].
  unfold at_kind. rewrite (shown_significant _ Hs), Ha. apply bool_decide_eq_false. simpl. intros [= ->]. done.
Qed.

Lemma stops_shown {R} `{TextRangeNew R} level (p : Parser R) post : ahead p = post → stops level post → shown p.
Proof. intros <-. unfold shown. destruct (ahead p); simpl; [done|]. by intros (? & _). Qed.

Lemma wp_looping_once {R} `{TextRangeNew R} {T A} (body : T → M (Parser R) (T + A)) t (Q : A → Parser R → Prop) p :
  wp (body t) (λ r p', match r with inl _ => False | inr a => Q a p' end) p → wp (looping body t) Q p.
Proof.
  intros Hb. unfold looping. apply wp_bind, wp_gets. simpl. apply wp_bind. eapply wp_mono; [exact Hb|].
  intros [t'|a] p' HQ; [done|exact HQ].
Qed.

Section expression.
Context {R : Type} `{TextRangeNew R} (n : nat) (expression : nat → M (Parser R) bool).
Implicit Types p : Parser R.

Definition done_with (p : Parser R) (evs : list Event) (post : list TokenKind) (b : bool) (p' : Parser R) : Prop :=
  b = true ∧ grows p p' evs ∧ ahead p' = post.

Hypothesis expression_reads : ∀ e level p post,
  layered level e = true → height e < n → p_depth p + height e < MAX_RECURSION_DEPTH → level ≤ 4 → alive p →
  ahead p = written e ++ post → stops level post →
  wp (expression level) (done_with p (events e) post) p.

Lemma literal_reads kind p post :
  is_literal kind = true → alive p → ahead p = kind :: post →
  wp parse_literal_expression (done_with p [Open SyntaxKind.LITERAL_EXPR; Advance; Close] post) p.
Proof.
  intros Hk Ha E. unfold parse_literal_expression. apply wp_bind.
  eapply wp_grow_emit; [by apply grows_refl|done|]. intros p1 H1 E1. apply wp_bind.
  eapply wp_grow_bump; [exact H1|by rewrite E1|by intros ->|]. intros p2 H2 E2.
  apply wp_bind. eapply wp_grow_emit; [exact H2|done|]. intros p3 H3 E3. apply wp_ret.
  split; [done|]. split; [exact H3|]. by rewrite E3.
Qed.

Lemma expect_reads kind expected p0 p evs post (Q : bool → Parser R → Prop) :
  grows p0 p evs → ahead p = kind :: post → is_trivia kind = false → kind ≠ TokenKind.ERROR →
  (∀ p', grows p0 p' (evs ++ [Advance]) → ahead p' = post → Q true p') → wp (expect kind expected) Q p.
Proof.
  intros Hg Ha Ht Hk HQ. unfold expect. apply wp_bind, wp_trivia; [unfold shown; by rewrite Ha|].
  apply wp_bind, wp_gets. rewrite ahead_raw, Ha, bool_decide_true by done.
  by eapply wp_grow_bump.
Qed.

Lemma paren_reads e p post :
  layered 0 e = true → height e < n → p_depth p + height e < MAX_RECURSION_DEPTH → alive p →
  ahead p = TokenKind.PAREN_OPEN :: written e ++ TokenKind.PAREN_CLOSE :: post →
  wp (parse_parenthesized_expression expression) (done_with p (events (Paren e)) post) p.
Proof.
  intros Hl Hh Hd Ha E. unfold parse_parenthesized_expression. apply wp_bind.
  eapply wp_grow_emit; [by apply grows_refl|done|]. intros p1 H1 E1. apply wp_bind.
  eapply expect_reads; [exact H1|by rewrite E1|done..|]. intros p2 H2 E2.
  apply wp_bind. unfold parse_parenthesized_items. apply wp_bind, wp_gets.
  destruct (head_shown _ _ _ _ Hl E2) as [_ ->]. apply wp_looping_once.
  apply wp_bind, wp_gets, wp_bind. eapply wp_mono.
  { apply expression_reads; [exact Hl|done| |unfold LOWEST_PRECEDENCE; lia|by eapply grows_alive|exact E2|done].
    by rewrite (gr_depth _ _ _ H2). }
  intros b p3 (-> & H3 & E3). pose proof (grows_trans _ _ _ _ _ H2 H3) as H4. simpl. apply wp_bind, wp_ret, wp_bind.
  unfold consume_if. apply wp_bind, wp_trivia; [unfold shown; by rewrite E3|].
  apply wp_bind, wp_gets. rewrite ahead_raw, E3. simpl. apply wp_ret, wp_bind, wp_gets.
  rewrite orb_true_r. apply wp_ret, wp_bind.
  eapply expect_reads; [exact H4|exact E3|done..|]. intros p5 H5 E5. apply wp_bind.
  eapply wp_grow_emit; [exact H5|done|]. intros p6 H6 E6. apply wp_ret. split; [done|]. split; [|congruence].
  simpl in H6. by rewrite <-!(assoc_L (++)) in H6.
Qed.

Lemma primary_reads o p post :
  is_operand o = true → layered 4 o = true → height o ≤ n → p_depth p + height o ≤ MAX_RECURSION_DEPTH →
  alive p → ahead p = written o ++ post →
  wp (parse_primary_expression expression) (done_with p (events o) post) p.
Proof.
  intros Ho Hl Hh Hd Ha E. unfold parse_primary_expression, primary_step. apply wp_bind, wp_trivia.
  { by eapply head_shown. }
  apply wp_bind, wp_gets. rewrite ahead_raw, E. destruct o as [k|e| |]; try done; simpl in *.
  - pose proof (literal_reads k p post Hl Ha E) as Hr. destruct k; try done; exact Hr.
  - apply paren_reads; [done|lia|lia|done|]. by rewrite E, <-(assoc_L (++)).
Qed.

Lemma postfix_reads o p level post :
  is_operand o = true → layered 4 o = true → height o ≤ n → p_depth p + height o ≤ MAX_RECURSION_DEPTH →
  alive p → ahead p = written o ++ post → stops level post →
  wp (parse_postfix_expression expression) (done_with p (events o) post) p.
Proof.
  intros Ho Hl Hh Hd Ha E Hs. unfold parse_postfix_expression. apply wp_bind, wp_gets.
  destruct (alive_anchor _ Ha) as [i Ei]. rewrite Ei. apply wp_bind. eapply wp_mono; [by eapply primary_reads|].
  intros b p1 (-> & H1 & E1). apply wp_bind, wp_looping_once, wp_bind, wp_gets, wp_bind.
  unfold postfix_link. apply wp_bind, wp_gets. rewrite (shown_significant p1) by by eapply stops_shown.
  assert (wp (mret (None : option nat)) (λ linked p', wp match linked with
    | None => break ()
    | Some wrap_depth => index ← gets p_index; if Nat.eqb index (p_index p1) then break () else continue wrap_depth
    end (λ r p', match r with inl _ => False | inr () => wp (mret true) (done_with p (events o) post) p' end) p') p1) as Hend.
  { apply wp_ret, wp_ret, wp_ret. by split. }
  rewrite E1. destruct post as [|k post]; [exact Hend|]. simpl. destruct Hs as (_ & Hp & _).
  destruct k; try done; exact Hend.
Qed.

(** ** Signs *)

Definition sign_events (count : nat) : list Event := concat (replicate count [Open SyntaxKind.UNARY_EXPR; Advance]).

Lemma sign_events_snoc count :
  sign_events (S count) = sign_events count ++ [Open SyntaxKind.UNARY_EXPR; Advance].
Proof. unfold sign_events. by rewrite replicate_S_end, concat_app. Qed.

Lemma signs_events ss o :
  events (foldr Unary o ss) = sign_events (length ss) ++ events o ++ replicate (length ss) Close.
Proof.
  induction ss as [|s ss IH]; simpl; [by rewrite app_nil_r|].
  rewrite IH, <-!(assoc_L (++)). change [Close] with (replicate 1 Close). rewrite <-replicate_add, Nat.add_comm. done.
Qed.

Lemma signs_written ss o : written (foldr Unary o ss) = ss ++ written o.
Proof. induction ss as [|s ss IH]; simpl; [done|]. by rewrite IH. Qed.

Lemma operand_head o post :
  is_operand o = true → layered 4 o = true →
  ∃ k rest, written o ++ post = k :: rest ∧ is_trivia k = false ∧ is_sign k = false.
Proof.
  destruct o as [k|e| |]; simpl; try done; intros _ Hl; eexists _, _; (split; [done|]); [by destruct k|done].
Qed.

Lemma sign_any p k rest : ahead p = k :: rest → is_trivia k = false → at_any [TokenKind.PLUS; TokenKind.MINUS] p = is_sign k.
Proof.
  intros E Ht. unfold at_any. rewrite shown_significant by (unfold shown; by rewrite E). rewrite E. simpl.
  destruct k; done || (apply bool_decide_eq_false; set_solver) || (apply bool_decide_eq_true; set_solver).
Qed.

Lemma signs_read ss o p post :
  Forall (λ s, is_sign s = true) ss → length ss ≤ MAX_UNARY_OPERATOR_COUNT →
  is_operand o = true → layered 4 o = true → alive p → ahead p = ss ++ written o ++ post →
  wp unary_operators (λ r p', r = Some (length ss) ∧ grows p p' (sign_events (length ss)) ∧
                              ahead p' = written o ++ post) p.
Proof.
  intros Hss Hlen Ho Hl Ha E. unfold unary_operators.
  apply (wp_looping (λ count p1, count ≤ length ss ∧ grows p p1 (sign_events count) ∧
                                 ahead p1 = drop count ss ++ written o ++ post)).
  - intros count p1 (Hc & Hg & Ea). rewrite (gr_tokens _ _ _ Hg). split; [done|].
    rewrite <-(gr_tokens _ _ _ Hg). apply (gr_bound _ _ _ Hg).
  - split; [lia|]. split; [by apply grows_refl|]. by rewrite drop_0.
  - intros count p1 (Hc & Hg & Ea). apply wp_bind, wp_gets.
    destruct (decide (count = length ss)) as [->|Hne].
    + rewrite drop_all in Ea. simpl in Ea. destruct (operand_head o post Ho Hl) as (k & rest & Ek & Ht & Hk).
      rewrite (sign_any p1 k rest), Hk by congruence. apply wp_ret. by split.
    + destruct (lookup_lt_is_Some_2 ss count) as [s Es]; [lia|]. rewrite (drop_S _ _ _ Es) in Ea. simpl in Ea.
      rewrite Forall_lookup in Hss. specialize (Hss _ _ Es).
      rewrite (sign_any p1 s _ Ea), Hss by by destruct s.
      destruct (Nat.eqb_spec count MAX_UNARY_OPERATOR_COUNT) as [|_]; [lia|].
      apply wp_bind. eapply wp_grow_emit; [exact Hg|done|]. intros p2 H2 E2. apply wp_bind.
      eapply wp_grow_bump; [exact H2|by rewrite E2|by intros ->|]. intros p3 H3 E3. apply wp_ret.
      split_and!; [lia| |done|].
      * rewrite sign_events_snoc. by rewrite <-(assoc_L (++)) in H3.
      * rewrite (gr_index _ _ _ H3), (gr_index _ _ _ Hg), !advances_app. simpl. lia.
Qed.

Lemma closes_read count p0 p evs (Q : unit → Parser R → Prop) :
  grows p0 p evs → (∀ p', grows p0 p' (evs ++ replicate count Close) → ahead p' = ahead p → Q () p') →
  wp (close_times count) Q p.
Proof.
  revert p evs. induction count as [|count IH]; intros p evs Hg HQ; simpl.
  - apply HQ; [by rewrite app_nil_r|done].
  - apply wp_bind. eapply wp_grow_emit; [exact Hg|done|]. intros p1 H1 E1. eapply IH; [exact H1|].
    intros p2 H2 E2. apply HQ; [|congruence]. by rewrite <-(assoc_L (++)) in H2.
Qed.

Lemma unary_reads u p level post :
  layered 4 u = true → is_chain u = false → height u ≤ n → p_depth p + height u ≤ MAX_RECURSION_DEPTH →
  alive p → ahead p = written u ++ post → stops level post →
  wp (parse_unary_expression expression) (done_with p (events u) post) p.
Proof.
  intros Hl Hc Hh Hd Ha E Hs. destruct (head_shown _ _ _ _ Hl E) as [Hsh _].
  destruct (signs_spec u Hl Hc) as (ss & o & -> & Hss & Hlen & Ho & Hlo & Hho).
  rewrite signs_written, <-(assoc_L (++)) in E. unfold parse_unary_expression. apply wp_bind, wp_trivia; [done|].
  apply wp_bind. eapply wp_mono; [by eapply signs_read|]. intros r p1 (-> & H1 & E1). apply wp_bind.
  eapply wp_mono.
  { eapply (postfix_reads o); [done|done|lia| |by eapply grows_alive|exact E1|exact Hs].
    rewrite (gr_depth _ _ _ H1). lia. }
  intros b p2 (-> & H2 & E2). pose proof (grows_trans _ _ _ _ _ H1 H2) as H12. simpl. apply wp_bind, wp_ret, wp_bind.
  eapply closes_read; [exact H12|]. intros p3 H3 E3. apply wp_ret. split; [done|]. split; [|congruence].
  by rewrite signs_events, (assoc_L (++)).
Qed.

(** ** Binary operators *)

Definition ops_written (ops : list (TokenKind * expr)) : list TokenKind :=
  concat ((λ '(op, e), op :: written e) <$> ops).

Lemma operator_shape op q :
  operator op = Some q → is_trivia op = false ∧ op ≠ TokenKind.ERROR ∧ postfix_start op = false.
Proof. destruct op; done. Qed.

Lemma binary_ahead p level post :
  ahead p = post → stops level post → binary_precedence p = head post ≫= operator.
Proof.
  intros E Hs. unfold binary_precedence. rewrite shown_significant by by eapply stops_shown. rewrite E.
  destruct post as [|k post]; [done|]. by destruct k.
Qed.

(** The operators left stop an operand of the one before. *)
Lemma ops_stop level bound ops post :
  descends level bound ops → stops level post → level ≤ S bound → stops (S bound) (ops_written ops ++ post).
Proof.
  destruct ops as [|[op e] ops]; simpl.
  - intros _ Hs Hle. destruct post as [|k post]; [done|]. destruct Hs as (? & ? & Ho). split_and!; try done.
    destruct (operator k); simpl in *; [lia|done].
  - intros (Ho & [? ?] & _) _ _. pose proof (operator_shape _ _ Ho) as (? & _ & ?). split_and!; try done.
    rewrite Ho. simpl. lia.
Qed.

(** What the loop does once it has wrapped what it read. *)
Definition operand_of (before precedence : nat) : M (Parser R) (option nat + option nat) :=
  consume_trivia;;
  bump;;
  parsed ← expression (S precedence);
  (if negb parsed then
     error_current "expected an expression after an operator";; recover_until EXPRESSION_BOUNDARIES
   else mret ());;
  index ← gets p_index;
  if Nat.eqb index before then break (Some precedence) else continue (Some precedence).

Lemma operand_read op e p0 p evs post before :
  layered (S (op_precedence op)) e = true → operator op = Some (op_precedence op) →
  height e < n → p_depth p0 + height e < MAX_RECURSION_DEPTH →
  grows p0 p evs → ahead p = op :: written e ++ post → stops (S (op_precedence op)) post → before ≤ p_index p →
  wp (operand_of before (op_precedence op))
     (λ r p', r = inl (Some (op_precedence op)) ∧ grows p0 p' (evs ++ Advance :: events e) ∧
              ahead p' = post ∧ before < p_index p') p.
Proof.
  intros Hl Ho Hh Hd Hg E Hs Hi. destruct (operator_shape _ _ Ho) as (Htriv & Herr & _).
  unfold operand_of. apply wp_bind, wp_trivia; [unfold shown; by rewrite E|]. apply wp_bind.
  eapply wp_grow_bump; [exact Hg|exact E|done|]. intros p2 H2 E2. apply wp_bind. eapply wp_mono.
  { pose proof (operator_bound _ _ Ho).
    apply expression_reads; [exact Hl|done| |lia|by eapply grows_alive|exact E2|exact Hs].
    by rewrite (gr_depth _ _ _ H2). }
  intros b p3 (-> & H3 & E3). pose proof (grows_trans _ _ _ _ _ H2 H3) as H4. simpl.
  apply wp_bind, wp_ret, wp_bind, wp_gets.
  assert (before < p_index p3) as Hlt.
  { rewrite (gr_index _ _ _ H4), (gr_index _ _ _ Hg) in *. rewrite !advances_app. simpl. lia. }
  destruct (Nat.eqb_spec (p_index p3) before); [lia|]. apply wp_ret. split; [done|].
  split; [|done]. by rewrite <-(assoc_L (++)) in H4.
Qed.

Lemma link_read start level active evs op e p0 p post :
  layered (S (op_precedence op)) e = true → operator op = Some (op_precedence op) → level ≤ op_precedence op →
  height e < n → p_depth p0 + height e < MAX_RECURSION_DEPTH → anchor (p_events p0) = Some start →
  grows p0 p evs → ahead p = op :: written e ++ post → stops (S (op_precedence op)) post →
  wp (binary_link expression level start active)
     (λ r p', r = inl (link (active, evs) (op, e)).1 ∧ grows p0 p' (link (active, evs) (op, e)).2 ∧
              ahead p' = post ∧ p_index p < p_index p') p.
Proof.
  intros Hl Ho Hle Hh Hd Hst Hg E Hs. destruct (operator_shape _ _ Ho) as (Htriv & Herr & _).
  assert (binary_precedence p = Some (op_precedence op)) as Hb.
  { unfold binary_precedence. rewrite shown_significant, E by (unfold shown; by rewrite E). simpl.
    rewrite <-Ho. by destruct op. }
  unfold binary_link. apply wp_bind, wp_gets. rewrite Hb. apply wp_bind, wp_gets.
  destruct (Nat.ltb_spec (op_precedence op) level) as [|_]; [lia|]. apply wp_bind. simpl.
  case_bool_decide as Hac; simpl negb; cbv iota.
  { apply wp_ret. by apply operand_read. }
  apply wp_bind. assert (∀ p1, grows p0 p1 (evs ++ (if active then [Close] else [])) → ahead p1 = ahead p →
    p_index p1 = p_index p →
    wp (wrap_from start SyntaxKind.BINARY_EXPR) (λ _, wp (operand_of (p_index p) (op_precedence op))
      (λ r p', r = inl (Some (op_precedence op)) ∧
         grows p0 p' ((Open SyntaxKind.BINARY_EXPR :: evs ++ (if active then [Close] else [])) ++ Advance :: events e) ∧
         ahead p' = post ∧ p_index p < p_index p')) p1) as Hwrap.
  { intros p1 H1 E1 Hi. eapply wp_grow_wrap; [exact H1|exact Hst|]. intros p2 H2 E2.
    apply operand_read; try done; [congruence|]. pose proof (gr_index _ _ _ H1). pose proof (gr_index _ _ _ H2).
    simpl in *. lia. }
  destruct active as [a|]; [rewrite bool_decide_true by eauto|rewrite bool_decide_false by by intros [? ?]].
  - eapply wp_grow_emit; [exact Hg|done|]. intros p1 H1 E1. apply Hwrap; [exact H1|done|].
    rewrite (gr_index _ _ _ H1), (gr_index _ _ _ Hg), advances_app. simpl. lia.
  - apply wp_ret, Hwrap; [by rewrite app_nil_r|done|done].
Qed.

Lemma links_read start level u ops p0 p post :
  descends level 3 ops → Forall (λ '(_, e), S (height e) ≤ n) ops →
  Forall (λ '(_, e), p_depth p0 + height e < MAX_RECURSION_DEPTH) ops → level ≤ 3 →
  anchor (p_events p0) = Some start → grows p0 p (events u) → ahead p = ops_written ops ++ post →
  stops level post →
  wp (looping (binary_link expression level start) None)
     (λ active p', active = (linked u ops).1 ∧ grows p0 p' (linked u ops).2 ∧ ahead p' = post) p.
Proof.
  intros Hd Hh Hdep Hl3 Hst Hg E Hs.
  apply (wp_looping (λ active p1, ∃ read left bound, ops = read ++ left ∧ active = (linked u read).1 ∧
    grows p0 p1 (linked u read).2 ∧ ahead p1 = ops_written left ++ post ∧ descends level bound left)).
  - intros active p1 (read & left & bound & _ & _ & H1 & _). rewrite (gr_tokens _ _ _ Hg), <-(gr_tokens _ _ _ H1).
    split; [done|apply (gr_bound _ _ _ H1)].
  - exists [], ops, 3. by split_and!.
  - intros active p1 (read & left & bound & -> & Hac & H1 & E1 & Hd1).
    destruct left as [|[op e] left].
    + rewrite app_nil_r in *. simpl in E1. unfold binary_link. apply wp_bind, wp_gets.
      rewrite (binary_ahead _ _ _ E1 Hs). destruct post as [|k post]; simpl; [by apply wp_ret|].
      destruct Hs as (_ & _ & Hop). destruct (operator k) as [q|]; [|by apply wp_ret]. simpl in Hop.
      apply wp_bind, wp_gets. destruct (Nat.ltb_spec q level); [by apply wp_ret|lia].
    + destruct Hd1 as (Ho & [Hlo Hhi] & Hl & Hd1). apply Forall_app in Hh as [_ [Hh Hh']%Forall_cons].
      apply Forall_app in Hdep as [_ [Hdep _]%Forall_cons]. simpl in Hh, Hdep.
      eapply wp_mono.
      { eapply (link_read start level active (linked u read).2 op e p0 p1 (ops_written left ++ post));
          [done|done|done|lia|done|done|done| |by eapply ops_stop; [|done|lia]].
        rewrite E1. unfold ops_written. simpl. by rewrite <-(assoc_L (++)). }
      intros r p2 (-> & H2 & E2 & Hlt). split; [|done].
      assert (linked u (read ++ [(op, e)]) = link (active, (linked u read).2) (op, e)) as El.
      { unfold linked at 1. rewrite foldl_app. simpl. fold (linked u read). rewrite Hac. by destruct (linked u read). }
      exists (read ++ [(op, e)]), left, (op_precedence op). rewrite El, <-(assoc_L (++)). by split_and!.
Qed.

Lemma expression_at_depth_reads e level p post :
  layered level e = true → height e ≤ n → p_depth p + height e ≤ MAX_RECURSION_DEPTH → level ≤ 4 → alive p →
  ahead p = written e ++ post → stops level post →
  wp (parse_expression_at_depth expression level) (done_with p (events e) post) p.
Proof.
  intros Hl Hh Hd Hl4 Ha E Hs. destruct (spine e) as [u ops] eqn:Es.
  destruct (spine_spec _ _ _ _ Hl Es) as (Hc & Hu & Hdesc & Hw & Hhu & Hhs).
  destruct (spine_linked _ _ _ _ Hl Es) as [Hev _]. unfold parse_expression_at_depth. apply wp_bind, wp_gets.
  destruct (alive_anchor _ Ha) as [start Ei]. rewrite Ei. rewrite Hw, <-(assoc_L (++)) in E.
  change (concat _) with (ops_written ops) in E. apply wp_bind.
  assert (stops 4 (ops_written ops ++ post)) as Hstop by (eapply (ops_stop level 3); [done..|lia]).
  eapply wp_mono; [eapply (unary_reads u); [done|done|lia|lia|done|exact E|exact Hstop]|].
  intros b p1 (-> & H1 & E1). simpl. apply wp_bind.
  assert (∀ active p2, active = (linked u ops).1 → grows p p2 (linked u ops).2 → ahead p2 = post →
    wp ((if bool_decide (is_Some active) then close else mret ());; mret true) (done_with p (events e) post) p2) as Hend.
  { intros active p2 -> H2 E2. unfold closed in Hev. apply wp_bind. destruct (linked u ops).1 as [a|];
      [rewrite bool_decide_true by eauto|rewrite bool_decide_false by by intros [? ?]].
    - eapply wp_grow_emit; [exact H2|done|]. intros p3 H3 E3. apply wp_ret. split; [done|]. rewrite <-Hev. by rewrite E3.
    - apply wp_ret, wp_ret. split; [done|]. by rewrite <-Hev, app_nil_r. }
  destruct ops as [|oe ops].
  - apply wp_looping_once. unfold binary_link. apply wp_bind, wp_gets. rewrite (binary_ahead _ 4 _ E1 Hstop).
    simpl. destruct post as [|k post]; simpl; [by apply wp_ret, Hend|].
    destruct Hs as (_ & _ & Hop). destruct (operator k) as [q|]; [|by apply wp_ret, Hend]. simpl in Hop.
    apply wp_bind, wp_gets. destruct (Nat.ltb_spec q level); [by apply wp_ret, Hend|lia].
  - eapply wp_mono; [eapply (links_read start level u (oe :: ops)); try done|].
    + eapply Forall_impl; [exact Hhs|]. intros [op e'] ?. lia.
    + eapply Forall_impl; [exact Hhs|]. intros [op e'] ?. lia.
    + destruct oe as [op e']. destruct Hdesc as (Ho & [? ?] & _). lia.
    + intros active p2 (-> & H2 & E2). by apply Hend.
Qed.
End expression.

(** The parser reads an expression as it is written, whatever follows that does
    not continue it. *)
Lemma expression_at_reads {R} `{TextRangeNew R} n e level (p : Parser R) post :
  layered level e = true → height e < n → p_depth p + height e < MAX_RECURSION_DEPTH → level ≤ 4 → alive p →
  ahead p = written e ++ post → stops level post →
  wp (expression_at n level) (done_with p (events e) post) p.
Proof.
  revert e level p post. induction n as [|n IH]; intros e level p post Hl Hh Hd Hl4 Ha E Hs; [lia|].
  simpl. unfold expression_step, enter_parse_depth. apply wp_bind, wp_bind, wp_gets.
  destruct (Nat.leb_spec MAX_RECURSION_DEPTH (p_depth p)); [lia|]. apply wp_bind, wp_update, wp_ret. simpl.
  apply wp_bind. eapply wp_mono.
  { apply (expression_at_depth_reads n); [|exact Hl|lia|simpl; lia|done|exact Ha|exact E|exact Hs].
    by intros; apply IH. }
  intros b p1 (-> & [Ht Hf Hdp Hr Hi Hal Hb He] & E1). apply wp_bind, wp_update, wp_ret. split; [done|].
  split; [|exact E1]. split; try done. simpl. by rewrite Hdp.
Qed.

(** ** A query that is one expression *)

Section source.
Context {R : Type} `{TextRangeNew R}.
Implicit Types p : Parser R.

Lemma ahead_eof p : alive p → at_eof p = bool_decide (ahead p = []).
Proof.
  intros _. unfold at_eof, ahead. destruct (Nat.leb_spec (length (p_tokens p)) (p_index p)).
  - rewrite drop_ge by (by rewrite length_fmap). done.
  - symmetry. apply bool_decide_eq_false. intros Hd%(f_equal length).
    rewrite length_drop, length_fmap in Hd. simpl in Hd. lia.
Qed.

Lemma parse_expression_reads e p :
  layered 0 e = true → height e < MAX_RECURSION_DEPTH → p_depth p = 0 → alive p → ahead p = written e →
  wp (parse_expression LOWEST_PRECEDENCE) (done_with p (events e) []) p.
Proof.
  intros Hl Hh Hd Ha E. unfold parse_expression.
  apply (expression_at_reads (S MAX_RECURSION_DEPTH) e LOWEST_PRECEDENCE p []); [exact Hl|lia| |apply Nat.le_0_l|exact Ha| |exact I].
  - rewrite Hd. exact Hh.
  - rewrite app_nil_r. exact E.
Qed.

Lemma query_reads e p0 p :
  layered 0 e = true → height e < MAX_RECURSION_DEPTH → p_depth p0 = 0 → grows p0 p [] → ahead p = written e →
  wp (parse_query_expression parse_expression)
     (λ _ p', grows p0 p' (Open SyntaxKind.QUERY_EXPR :: events e ++ [Close]) ∧ ahead p' = []) p.
Proof.
  intros Hl Hh Hd Hg E. unfold parse_query_expression. apply wp_bind.
  eapply wp_grow_emit; [exact Hg|done|]. intros p1 H1 E1. apply wp_bind. eapply wp_mono.
  { apply (parse_expression_reads e p1); [exact Hl|exact Hh| |by eapply grows_alive|congruence].
    by rewrite (gr_depth _ _ _ H1). }
  intros b p2 (-> & H2 & E2). pose proof (grows_trans _ _ _ _ _ H1 H2) as H3. simpl. apply wp_bind, wp_ret.
  eapply wp_grow_emit; [exact H3|done|]. intros p4 H4 E4. split; [exact H4|congruence].
Qed.

Lemma source_reads e p :
  layered 0 e = true → height e < MAX_RECURSION_DEPTH → p_depth p = 0 → alive p → ahead p = written e →
  wp parse_source (λ _ p', grows p p' (Open SyntaxKind.QUERY_EXPR :: events e ++ [Close])) p.
Proof.
  intros Hl Hh Hd Ha E. destruct (written_head _ _ Hl) as (k & rest & Ew & Hk).
  assert (shown p) as Hsh by (unfold shown; rewrite E, Ew; by destruct k).
  unfold parse_source. apply wp_bind, wp_trivia; [done|].
  apply (wp_looping (λ _ p1, p1 = p ∨
    grows p p1 (Open SyntaxKind.QUERY_EXPR :: events e ++ [Close]) ∧ ahead p1 = [])).
  - intros _ p1 [->|[H1 _]]; [split; [done|apply Ha]|]. rewrite <-(gr_tokens _ _ _ H1).
    split; [done|apply (gr_bound _ _ _ H1)].
  - by left.
  - intros _ p1 [->|[H1 E1]]; apply wp_bind, wp_gets.
    + rewrite (ahead_eof _ Ha), bool_decide_false by (by rewrite E, Ew). apply wp_bind, wp_gets, wp_bind.
      unfold consume_if. apply wp_bind, wp_trivia; [done|]. apply wp_bind, wp_gets.
      rewrite ahead_raw, E, Ew, bool_decide_false by (simpl; intros [= ->]; done). apply wp_ret, wp_bind.
      eapply wp_mono; [by apply (query_reads e p p); [..|apply grows_refl|]|]. intros _ p2 (H2 & E2).
      apply wp_bind, wp_trivia; [unfold shown; by rewrite E2|]. apply wp_bind. unfold consume_source_separator.
      apply wp_bind, wp_gets. rewrite (ahead_eof p2 (grows_alive _ _ _ H2)), bool_decide_true by done.
      apply wp_ret, wp_bind, wp_gets.
      assert (p_index p < p_index p2) as Hlt.
      { destruct (decide (p_index p < p_index p2)) as [|Hge]; [done|]. exfalso.
        pose proof (grows_ahead _ _ _ H2) as Hah. pose proof (gr_index _ _ _ H2) as Hi.
        assert (advances (Open SyntaxKind.QUERY_EXPR :: events e ++ [Close]) = 0) as Hz by lia.
        rewrite Hz, drop_0 in Hah. congruence. }
      destruct (Nat.eqb_spec (p_index p2) (p_index p)); [lia|]. apply wp_bind, wp_trivia; [unfold shown; by rewrite E2|].
      apply wp_ret. split; [|done]. right. by split.
    + rewrite (ahead_eof p1 (grows_alive _ _ _ H1)), bool_decide_true by done. by apply wp_ret.
Qed.

Lemma parse_reads e file (tokens : list (TokenKind * R)) :
  layered 0 e = true → height e < MAX_RECURSION_DEPTH → tokens.*1 = written e →
  ∃ p, parse (new file tokens) =
       Some ((Open SyntaxKind.ROOT :: (Open SyntaxKind.QUERY_EXPR :: events e ++ [Close]) ++ [Close], []), p).
Proof.
  intros Hl Hh Ht. destruct (append_represents _ _ (Open SyntaxKind.ROOT) represents_empty) as (es & E & Hr).
  set (p1 := (new file tokens) <| p_events := es |>).
  assert (alive p1) as Ha by (split; [by eexists|simpl; lia]).
  assert (wp parse_source (λ _ p', grows p1 p' (Open SyntaxKind.QUERY_EXPR :: events e ++ [Close])) p1) as Hs.
  { apply source_reads; try done. }
  apply wp_elim in Hs as ([] & p2 & E2 & H2). destruct (gr_events _ _ _ H2 _ Hr) as (seg & Hseg & Hev).
  destruct (append_represents _ _ Close Hseg) as (es' & E3 & Hr3).
  exists (p2 <| p_events := es' |>). unfold parse. unfold mbind, M_bind, open, close, emit.
  change (p_events (new file tokens)) with with_capacity. rewrite E. cbn [mbind option_bind]. fold p1. rewrite E2. cbn [mbind option_bind].
  rewrite E3. cbn [mbind option_bind]. unfold gets. simpl. rewrite (into_events_represents _ _ Hr3). unfold mret, M_ret. simpl.
  rewrite !fmap_app, Hev, (gr_reports _ _ _ H2). simpl. done.
Qed.
End source.
