(* ===== verification/ParserProps.v ===== *)
(** * Properties of the query parser

    [parse_query] answers every text, with a tree of the whole text and the
    errors in source order; a tree without an error has no error node. *)

From S2P Require Import Prelude Utf8 Codes FixPlan FixPlanProps Kinds Green Builder BuilderLaws Parsing Lexing SyntaxProps M3 M3Laws M3Operators.

Section props.
Context {R : Type} `{TextRangeNew R} `{Logos}.

(** What a parse of the tokens of a source is. *)
Lemma parse_tokens_spec source file (tokens : list (TokenKind * R)) :
  valid_tokens source tokens →
  ∃ g ds js, parse_tokens source file tokens = Some (Ok {| green := g; parse_diagnostics := ds |}) ∧
    tree_of source tokens g ∧ Forall2 (reports file tokens) ds js ∧ ordered 0 js (length tokens) ∧
    (ds = [] → SyntaxKind.ERROR_NODE ∉ node_kinds g ∧ recognised tokens 0 (length tokens)).
Proof.
  intros Hv. destruct (parse_spec file tokens) as (evs & ds & js & p & E & Hb & Ho & Ha & Hr & Hj & Hcl).
  destruct (built_tree source tokens evs Hv Hb Ho Ha) as (g & Ef & Hg & Hev).
  exists g, ds, js. unfold parse_tokens. rewrite E. cbn [mbind option_bind]. fold (built source tokens (Open SyntaxKind.ROOT :: evs ++ [Close])).
  rewrite Ef. cbn [mbind option_bind]. split_and!; try done.
  intros Hds. destruct (Hcl Hds) as [Hn Hrec]. split; [|done].
  assert (opens not_error_node (tree_events g) = true) as Hopen.
  { rewrite Hev. simpl. by rewrite opens_app, Hn. }
  rewrite opens_kinds, Forall_forall in Hopen. intros Hin. by specialize (Hopen _ Hin).
Qed.

(** C10. Parsing a text never panics nor runs on: a text that a [TextSize] can
    measure has a parse, whose tree is one of the whole text, white space,
    comments and unrecognised bytes included, and whose diagnostics are errors
    at places of the text, in their order; a longer text is refused. *)
Theorem parse_query_lossless source file :
  utf8 source →
  if N.leb (N.of_nat (length source)) U32_MAX
  then ∃ parse, parse_query (R:=R) source file = Some (Ok parse) ∧ lossless source (green parse) ∧
                in_source_order source file (parse_diagnostics parse)
  else parse_query (R:=R) source file = Some (Err (SourceTooLong (length source))).
Proof.
  intros Hu. destruct (lex_total (R:=R) source Hu) as (tokens & El & Ht). unfold parse_query. rewrite El. cbn [mbind option_bind].
  destruct (N.leb_spec (N.of_nat (length source)) U32_MAX) as [Hle|Hlt].
  - destruct (lex_valid source tokens Hu Hle Ht) as [Hv _].
    destruct (parse_tokens_spec source file tokens Hv) as (g & ds & js & E & Hg & Hr & Hj & _).
    rewrite E. eexists. split; [done|]. simpl. split; [by eapply tree_lossless|].
    by eapply reports_in_source_order.
  - destruct (parse_spec file tokens) as (evs & ds & js & p & E & _). unfold parse_tokens. rewrite E.
    cbn [mbind option_bind]. fold (built source tokens (Open SyntaxKind.ROOT :: evs ++ [Close])).
    by rewrite built_too_long.
Qed.

(** A parse without diagnostics is of a text that the grammar has: every byte of
    it was recognised and no error node stands in its tree. *)
Theorem parse_query_honest source file parse :
  utf8 source → parse_query (R:=R) source file = Some (Ok parse) → parse_diagnostics parse = [] →
  all_recognised source ∧ SyntaxKind.ERROR_NODE ∉ node_kinds (green parse).
Proof.
  intros Hu E Hds. destruct (lex_total (R:=R) source Hu) as (tokens & El & Ht).
  unfold parse_query in E. rewrite El in E. cbn [mbind option_bind] in E.
  destruct (N.leb_spec (N.of_nat (length source)) U32_MAX) as [Hle|Hlt].
  - destruct (lex_valid source tokens Hu Hle Ht) as [Hv _].
    destruct (parse_tokens_spec source file tokens Hv) as (g & ds & js & E' & Hg & Hr & Hj & Hcl).
    rewrite E' in E. injection E as <-. simpl in *. destruct (Hcl Hds) as [Hn Hrec].
    split; [by eapply recognised_lexemes|done].
  - destruct (parse_spec file tokens) as (evs & ds & js & p & E' & _). unfold parse_tokens in E. rewrite E' in E.
    cbn [mbind option_bind] in E. fold (built source tokens (Open SyntaxKind.ROOT :: evs ++ [Close])) in E.
    by rewrite built_too_long in E.
Qed.

(** C14. Operator expressions are read by precedence: take an expression of the
    grammar stratified by precedence, with parentheses, signs and chains of
    operators of one precedence, nested less deeply than the parser's limit.  A
    text whose lexemes are those of the expression has a parse without
    diagnostics, and its tree is the expression's. *)
Theorem operators_by_precedence source file e :
  utf8 source → (N.of_nat (length source) ≤ U32_MAX)%N →
  layered 0 e = true → height e < MAX_RECURSION_DEPTH →
  (λ lexed, default TokenKind.ERROR lexed.1) <$> spanned source = written e →
  ∃ g, parse_query (R:=R) source file = Some (Ok {| green := g; parse_diagnostics := [] |}) ∧
       lossless source g ∧
       tree_events g = Open SyntaxKind.ROOT :: Open SyntaxKind.QUERY_EXPR :: events e ++ [Close; Close].
Proof.
  intros Hu Hle Hl Hh Hw. destruct (lex_total (R:=R) source Hu) as (tokens & El & Ht).
  destruct (lex_valid source tokens Hu Hle Ht) as [Hv _].
  assert (tokens.*1 = written e) as Hk.
  { rewrite <-Hw. clear -Ht. induction Ht as [|lexed [k r] l l' (Hk & _) Ht IH]; [done|].
    csimpl. simpl in Hk. by rewrite IH, Hk. }
  destruct (parse_reads e file tokens Hl Hh Hk) as (p & E).
  destruct (parse_spec file tokens) as (evs & ds & js & p' & E' & Hb & Ho & Ha & _).
  rewrite E in E'. injection E' as Hevs _ _.
  change (Open SyntaxKind.QUERY_EXPR :: (events e ++ [Close]) ++ [Close])
    with ((Open SyntaxKind.QUERY_EXPR :: events e ++ [Close]) ++ [Close]) in Hevs.
  apply app_inj_tail in Hevs as [Hevs _]. subst evs.
  destruct (built_tree source tokens _ Hv Hb Ho Ha) as (g & Ef & Hg & Hev).
  exists g. unfold parse_query, parse_tokens. rewrite El. cbn [mbind option_bind]. rewrite E. cbn [mbind option_bind].
  fold (built source tokens (Open SyntaxKind.ROOT :: (Open SyntaxKind.QUERY_EXPR :: events e ++ [Close]) ++ [Close])).
  rewrite Ef. split; [done|]. split; [by eapply tree_lossless|].
  rewrite Hev. simpl. by rewrite <-(assoc_L (++)).
Qed.
End props.

Definition broken_query : Text := text "a::B.all()|[x+ 2 ~~".

Definition sound_query : Text := text "a::B.all()->f(x|$x.c+2*3)".

Ltac ascii := repeat first [apply (utf8_cons [_]); [vm_compute; reflexivity|]|exact utf8_nil].

Lemma broken_query_utf8 : utf8 broken_query.
Proof. unfold broken_query. simpl. ascii. Qed.

Lemma sound_query_utf8 : utf8 sound_query.
Proof. unfold sound_query. simpl. ascii. Qed.

Lemma broken_query_reported :
  match parse_query broken_query 0 with
  | Some (Ok parse) => negb (bool_decide (parse_diagnostics parse = []))
  | _ => true
  end = true.
Proof. vm_compute. reflexivity. Qed.

Lemma sound_query_clean :
  match parse_query sound_query 0 with
  | Some (Ok parse) => bool_decide (parse_diagnostics parse = [])
  | _ => false
  end = true.
Proof. vm_compute. reflexivity. Qed.

Lemma parse_query_lossless_witness :
  utf8 broken_query ∧
  ∃ parse, parse_query broken_query 0 = Some (Ok parse) ∧ lossless broken_query (green parse) ∧
    in_source_order broken_query 0 (parse_diagnostics parse) ∧ parse_diagnostics parse ≠ [].
Proof.
  split; [exact broken_query_utf8|].
  pose proof (parse_query_lossless (R:=nat * nat) broken_query 0 broken_query_utf8) as Hp.
  pose proof broken_query_reported as Hr.
  rewrite (eq_refl : N.leb (N.of_nat (length broken_query)) U32_MAX = true) in Hp.
  destruct Hp as (parse & E & Hl & Hs). rewrite E in Hr.
  exists parse. split; [exact E|]. split; [exact Hl|]. split; [exact Hs|].
  intros Hd. rewrite Hd in Hr. discriminate.
Defined.

Lemma parse_query_honest_witness :
  utf8 sound_query ∧
  ∃ parse, parse_query sound_query 0 = Some (Ok parse) ∧ parse_diagnostics parse = [] ∧
    SyntaxKind.ERROR_NODE ∉ node_kinds (green parse).
Proof.
  split; [exact sound_query_utf8|]. pose proof sound_query_clean as Hc.
  destruct (parse_query sound_query 0) as [[parse|e]|] eqn:E; [|discriminate..].
  apply bool_decide_eq_true in Hc. exists parse. split; [reflexivity|]. split; [exact Hc|].
  apply (parse_query_honest _ _ _ sound_query_utf8 E Hc).
Defined.

(** The expression [1*-2+3*(4-5)-6<7]. *)
Definition number : expr := Literal TokenKind.INTEGER.

Definition sum : expr :=
  Chain 2 (Chain 3 number [(TokenKind.STAR, Unary TokenKind.MINUS number)])
    [(TokenKind.PLUS, Chain 3 number [(TokenKind.STAR, Paren (Chain 2 number [(TokenKind.MINUS, number)]))]);
     (TokenKind.MINUS, number)].

Definition comparison : expr := Chain 1 sum [(TokenKind.LT, number)].

Definition comparison_text : Text := text "1*-2+3*(4-5)-6<7".

Lemma comparison_utf8 : utf8 comparison_text.
Proof. unfold comparison_text. simpl. ascii. Qed.

Lemma operators_by_precedence_witness :
  utf8 comparison_text ∧ (N.of_nat (length comparison_text) ≤ U32_MAX)%N ∧ layered 0 comparison = true ∧
  height comparison < MAX_RECURSION_DEPTH ∧
  (λ lexed, default TokenKind.ERROR lexed.1) <$> spanned comparison_text = written comparison ∧
  ∃ g, parse_query (R:=nat * nat) comparison_text 0 = Some (Ok {| green := g; parse_diagnostics := [] |}) ∧
       lossless comparison_text g ∧
       tree_events g = Open SyntaxKind.ROOT :: Open SyntaxKind.QUERY_EXPR :: events comparison ++ [Close; Close].
Proof.
  assert ((N.of_nat (length comparison_text) ≤ U32_MAX)%N) as Hlen by (vm_compute; discriminate).
  assert (layered 0 comparison = true) as Hl by (vm_compute; reflexivity).
  assert (height comparison < MAX_RECURSION_DEPTH) as Hh by (apply Nat.ltb_lt; vm_compute; reflexivity).
  assert ((λ lexed, default TokenKind.ERROR lexed.1) <$> spanned comparison_text = written comparison) as Hw
    by (vm_compute; reflexivity).
  split; [exact comparison_utf8|]. split; [exact Hlen|]. split; [exact Hl|]. split; [exact Hh|]. split; [exact Hw|].
  exact (operators_by_precedence comparison_text 0 comparison comparison_utf8 Hlen Hl Hh Hw).
Defined.

(** How many nodes of a kind the tree of a query has, if nothing is reported. *)
Definition nodes_of (kind : SyntaxKind) (source : string) : option nat :=
  match parse_query (R:=nat * nat) (text source) 0 with
  | Some (Ok {| green := tree; parse_diagnostics := [] |}) =>
      Some (length (filter (λ k, k = kind) (node_kinds tree)))
  | _ => None
  end.

(** White space between two unary operators opens a node of its own: the loop of
    [parse_unary_expression] looks for the operator beyond trivia, but what it
    then consumes is the trivia. *)
Theorem unary_over_trivia :
  nodes_of SyntaxKind.UNARY_EXPR "--1" = Some 2 ∧ nodes_of SyntaxKind.UNARY_EXPR "- -1" = Some 3.
Proof. vm_compute. split; reflexivity. Qed.
