(* ===== verification/Domain.v ===== *)
(** * The Domain parser

    [pure-analyzer-parser/src/domain.rs]: the resilient parser of Pure model
    files.  It recognises the declarations that carry model facts; a construct it
    does not support stays in the tree as an opaque node and is reported as a
    coverage gap.

    [None] is a panic of [TextRange::new], or a [while] loop that would not end.
    A [for] loop over [iteration_budget] is [for_loop], as in the code. *)

From S2P Require Import Prelude Utf8 BTree StableSort Codes FixPlan Kinds Green Builder Parsing.

Definition MAX_PARSE_DEPTH : nat := 256.

Inductive DomainCoverageGapKind := UnsupportedTopLevel | UnsupportedMember | MalformedDeclaration.

#[global] Instance DomainCoverageGapKind_eq_dec : EqDecision DomainCoverageGapKind.
Proof. solve_decision. Defined.

Inductive DeclarationKind := Class | Association | Profile.

#[global] Instance DeclarationKind_eq_dec : EqDecision DeclarationKind.
Proof. solve_decision. Defined.

(** [[..].contains(&false)]. *)
Definition contains_false (flags : list bool) : bool := negb (forallb id flags).

(** The text of a keyword. *)
Definition keyword_text (keyword : string) : Text := String.list_byte_of_string keyword.

Section parser.
Context {R : Type} `{TextRangeNew R}.

Record DomainCoverageGap := { gap_span : R; gap_kind : DomainCoverageGapKind }.

Record DomainParse := {
  green : GreenNode R;
  parse_diagnostics : list (Diagnostic R);
  coverage_gaps : list DomainCoverageGap;
}.

Record Parser := {
  p_source : Text;
  p_file : FileId;
  p_tokens : list (TokenKind * R);
  p_index : nat;
  p_events : list Event;
  p_diagnostics : list (Diagnostic R);
  p_gaps : list DomainCoverageGap;
  p_depth : nat;
}.

#[global] Instance Parser_rebuild : Rebuild Parser := λ p,
  {| p_source := p_source p; p_file := p_file p; p_tokens := p_tokens p; p_index := p_index p;
     p_events := p_events p; p_diagnostics := p_diagnostics p; p_gaps := p_gaps p; p_depth := p_depth p |}.

(** [Parser::new]. *)
Definition new (source : Text) (file : FileId) (tokens : list (TokenKind * R)) : Parser :=
  {| p_source := source; p_file := file; p_tokens := tokens; p_index := 0; p_events := [];
     p_diagnostics := []; p_gaps := []; p_depth := 0 |}.

Abbreviation Method := (M Parser).

Definition looping {T A} (body : T → Method (T + A)) (t : T) : Method A :=
  fuel ← gets (λ p, S (length (p_tokens p)));
  loop fuel body t.

(** [for _ in 0..self.tokens.len()]. *)
Definition budgeted {T A} (body : T → Method (T + A)) (done : T → A) (t : T) : Method A :=
  iteration_budget ← gets (λ p, length (p_tokens p));
  for_loop iteration_budget body done t.

(** ** Looking at tokens *)

Definition text (p : Parser) (range : R) : Text :=
  default [] (str_get (p_source p) (start range) (end_ range)).

Definition raw_kind (p : Parser) : option TokenKind := kind_at (p_tokens p) (p_index p).

Definition at_end (p : Parser) : bool := bool_decide (raw_kind p = None).

Definition raw_at (kind : TokenKind) (p : Parser) : bool := bool_decide (raw_kind p = Some kind).

Definition significant_index (p : Parser) : option nat :=
  next_significant_index_from (p_tokens p) (p_index p).

Definition significant_kind (p : Parser) : option TokenKind :=
  significant_index p ≫= kind_at (p_tokens p).

Definition at_kind (kind : TokenKind) (p : Parser) : bool := bool_decide (significant_kind p = Some kind).

Definition at_any (kinds : list TokenKind) (p : Parser) : bool :=
  match significant_kind p with Some kind => bool_decide (kind ∈ kinds) | None => false end.

Definition at_keyword (keyword : string) (p : Parser) : bool :=
  match significant_index p with
  | None => false
  | Some index =>
      match p_tokens p !! index with
      | None => false
      | Some (kind, range) => is_name kind && bool_decide (text p range = keyword_text keyword)
      end
  end.

Definition declaration_kind (p : Parser) : option DeclarationKind :=
  if at_keyword "Class" p then Some Class
  else if at_keyword "Association" p then Some Association
  else if at_keyword "Profile" p then Some Profile
  else None.

Definition at_declaration (p : Parser) : bool := bool_decide (is_Some (declaration_kind p)).

(** A name followed by a token of a kind. *)
Definition name_then (kind : TokenKind) (p : Parser) : bool :=
  match significant_index p with
  | None => false
  | Some name =>
      from_option is_name false (kind_at (p_tokens p) name)
      && bool_decide (next_significant_kind (p_tokens p) (S name) = Some kind)
  end.

Definition member_starts_property (p : Parser) : bool := name_then TokenKind.COLON p.

Definition member_starts_qualified_property (p : Parser) : bool := name_then TokenKind.PAREN_OPEN p.

Definition at_double_angle_open (p : Parser) : bool :=
  if at_kind TokenKind.LT p then
    match significant_index p with
    | None => false
    | Some index => bool_decide (next_significant_kind (p_tokens p) (S index) = Some TokenKind.LT)
    end
  else false.

Definition at_double_angle_close (p : Parser) : bool :=
  at_kind TokenKind.GT p &&
  match significant_index p with
  | None => false
  | Some index => bool_decide (next_significant_kind (p_tokens p) (S index) = Some TokenKind.GT)
  end.

Definition at_section_header (p : Parser) : bool :=
  match significant_index p with
  | None => false
  | Some first =>
      forallb (λ index, bool_decide (kind_at (p_tokens p) index = Some TokenKind.HASH)) (seq first 3)
  end.

Definition at_ignored_top_level (p : Parser) : bool := at_keyword "import" p || at_section_header p.

Definition at_opaque_member_recovery_boundary (saw_property_colon : bool) (p : Parser) : bool :=
  raw_at TokenKind.BRACE_CLOSE p || member_starts_property p
  || (saw_property_colon && member_starts_qualified_property p) || at_declaration p.

Definition at_declaration_header_recovery_boundary (p : Parser) : bool :=
  raw_at TokenKind.SEMICOLON p || raw_at TokenKind.BRACE_CLOSE p || at_declaration p.

Definition at_member_recovery_boundary (p : Parser) : bool :=
  at_kind TokenKind.SEMICOLON p || at_kind TokenKind.BRACE_CLOSE p || at_declaration p
  || member_starts_property p || member_starts_qualified_property p.

(** ** Annotations *)

(** The walk of [annotation_path_is_valid] over the significant tokens between
    two indices. *)
Fixpoint annotation_path (tokens : list (TokenKind * R)) (index end_ : nat)
    (saw_name expect_name leading_allowed : bool) : bool :=
  match tokens with
  | [] => saw_name && negb expect_name
  | (kind, _) :: rest =>
      if is_trivia kind then annotation_path rest (S index) end_ saw_name expect_name leading_allowed
      else if end_ <=? index then saw_name && negb expect_name
      else if expect_name then
        if is_name kind then annotation_path rest (S index) end_ true false false
        else if negb saw_name && leading_allowed && bool_decide (kind = TokenKind.PATH_SEPARATOR)
        then annotation_path rest (S index) end_ saw_name expect_name false
        else false
      else
        match kind with
        | TokenKind.PATH_SEPARATOR | TokenKind.DOT =>
            annotation_path rest (S index) end_ saw_name true leading_allowed
        | _ => false
        end
  end.

Definition annotation_path_is_valid (p : Parser) (start end_ : nat) : bool :=
  annotation_path (drop start (p_tokens p)) start end_ false true true.

(** The scan of [braced_annotation_is_valid] after the opening brace. *)
Fixpoint braced_annotation_scan (p : Parser) (open : nat) (tokens : list (TokenKind * R))
    (index depth : nat) (assignment : option nat) : bool :=
  match tokens with
  | [] => false
  | (kind, _) :: rest =>
      match kind with
      | TokenKind.BRACE_OPEN => braced_annotation_scan p open rest (S index) (S depth) assignment
      | TokenKind.BRACE_CLOSE =>
          if Nat.eqb (pred depth) 0 then
            match assignment with
            | None => false
            | Some assignment =>
                if annotation_path_is_valid p (S open) assignment then
                  match next_significant_index_from (p_tokens p) (S assignment) with
                  | Some value => value <? index
                  | None => false
                  end
                else false
            end
          else braced_annotation_scan p open rest (S index) (pred depth) assignment
      | TokenKind.ASSIGN =>
          if bool_decide (assignment = None) && Nat.eqb depth 1
          then braced_annotation_scan p open rest (S index) depth (Some index)
          else braced_annotation_scan p open rest (S index) depth assignment
      | _ => braced_annotation_scan p open rest (S index) depth assignment
      end
  end.

Definition braced_annotation_is_valid (p : Parser) : bool :=
  match significant_index p with
  | None => false
  | Some open =>
      if negb (bool_decide (kind_at (p_tokens p) open = Some TokenKind.BRACE_OPEN)) then false
      else braced_annotation_scan p open (drop (S open) (p_tokens p)) (S open) 1 None
  end.

(** The search of [double_angle_stereotype_is_valid] for two closing angles. *)
Fixpoint double_angle_scan (p : Parser) (begin : nat) (tokens : list (TokenKind * R)) (index : nat) : bool :=
  match tokens with
  | [] => false
  | (kind, _) :: rest =>
      if bool_decide (kind = TokenKind.GT)
         && bool_decide (next_significant_kind (p_tokens p) (S index) = Some TokenKind.GT)
      then annotation_path_is_valid p begin index
      else double_angle_scan p begin rest (S index)
  end.

Definition double_angle_stereotype_is_valid (p : Parser) : bool :=
  match significant_index p with
  | None => false
  | Some first_open =>
      match next_significant_index_from (p_tokens p) (S first_open) with
      | None => false
      | Some second_open =>
          if bool_decide (kind_at (p_tokens p) first_open = Some TokenKind.LT)
             && bool_decide (kind_at (p_tokens p) second_open = Some TokenKind.LT)
          then double_angle_scan p (S second_open) (drop (S second_open) (p_tokens p)) (S second_open)
          else false
      end
  end.

(** ** Events, diagnostics and gaps *)

Definition emit (event : Event) : Method unit :=
  update_self (λ p, p <| p_events := p_events p ++ [event] |>).

Definition open (kind : SyntaxKind) : Method unit := emit (Open kind).

Definition close : Method unit := emit Close.

Definition eof_span (p : Parser) : option R :=
  let end_ := match last (p_tokens p) with Some (_, range) => end_ range | None => 0 end in
  range_new end_ end_.

Definition current_span (p : Parser) : option R :=
  match p_tokens p !! p_index p with
  | Some (_, range) => Some range
  | None => eof_span p
  end.

Definition push_diagnostic (code : DiagCode) (message : string) : Method unit := λ p,
  span ← current_span p;
  Some ((), p <| p_diagnostics := p_diagnostics p ++ [error_diagnostic code message (p_file p) span] |>).

Definition syntax_error (message : string) : Method unit := push_diagnostic MalformedSyntax message.

(** The span of [mark_gap_from]. *)
Definition gap_span_from (p : Parser) (from : nat) : option R :=
  match p_tokens p !! from with
  | Some (_, range) =>
      range_new (start range)
        (match p_tokens p !! pred (p_index p) with Some (_, end__) => end_ end__ | None => end_ range end)
  | None => eof_span p
  end.

(** The gap joins the last one when it is of its kind and touches it. *)
Definition join_gap (gaps : list DomainCoverageGap) (kind : DomainCoverageGapKind) (span : R)
  : option (list DomainCoverageGap) :=
  let pushed := gaps ++ [{| gap_span := span; gap_kind := kind |}] in
  match last gaps with
  | None => Some pushed
  | Some previous =>
      if bool_decide (gap_kind previous = kind) && (start span <=? end_ (gap_span previous))
         && (start (gap_span previous) <=? end_ span)
      then
        joined ← range_new (start (gap_span previous) `min` start span) (end_ (gap_span previous) `max` end_ span);
        Some (take (pred (length gaps)) gaps ++ [{| gap_span := joined; gap_kind := gap_kind previous |}])
      else Some pushed
  end.

Definition mark_gap_from (from : nat) (kind : DomainCoverageGapKind) : Method unit := λ p,
  span ← gap_span_from p from;
  gaps ← join_gap (p_gaps p) kind span;
  Some ((), p <| p_gaps := gaps |>).

(** ** Consuming tokens *)

Definition bump : Method bool :=
  raw ← gets raw_kind;
  match raw with
  | None => mret false
  | Some kind =>
      (if bool_decide (kind = TokenKind.ERROR)
       then push_diagnostic BadToken "unrecognized token" else mret ());;
      emit Advance;;
      update_self (λ p, p <| p_index := S (p_index p) |>);;
      mret true
  end.

Definition consume_trivia : Method unit :=
  budgeted (λ _ : unit,
    trivia ← gets (λ p, from_option is_trivia false (raw_kind p));
    if trivia : bool then
      before ← gets p_index;
      bump;;
      index ← gets p_index;
      if Nat.eqb index before then break () else continue ()
    else break ()) id ().

Definition expect (kind : TokenKind) (expected : string) : Method bool :=
  consume_trivia;;
  found ← gets (raw_at kind);
  if found : bool then bump else syntax_error ("expected " ++ expected);; mret false.

Definition consume_if_raw (kind : TokenKind) : Method unit :=
  found ← gets (raw_at kind);
  if found : bool then bump;; mret () else mret ().

Definition consume_if (kind : TokenKind) : Method bool :=
  consume_trivia;;
  before ← gets p_index;
  consume_if_raw kind;;
  index ← gets p_index;
  mret (negb (Nat.eqb index before)).

Definition consume_name (expected : string) : Method bool :=
  consume_trivia;;
  raw ← gets raw_kind;
  if from_option is_name false raw then bump
  else syntax_error ("expected " ++ expected);; mret false.

Definition expect_keyword (keyword : string) : Method bool :=
  consume_trivia;;
  found ← gets (at_keyword keyword);
  if found : bool then bump else syntax_error ("expected `" ++ keyword ++ "`");; mret false.

Definition recover_until (boundaries : list TokenKind) : Method unit :=
  looping (λ _ : unit,
    more ← gets (λ p, negb (at_end p) && negb (at_any boundaries p));
    if more : bool then
      before ← gets p_index;
      bump;;
      index ← gets p_index;
      if Nat.eqb index before then break () else continue ()
    else break ()) ().

Definition enter_parse_depth : Method bool :=
  depth ← gets p_depth;
  if MAX_PARSE_DEPTH <=? depth
  then syntax_error "Domain type nesting limit reached";; mret false
  else update_self (λ p, p <| p_depth := S (p_depth p) |>);; mret true.

Definition leave_parse_depth : Method unit :=
  update_self (λ p, p <| p_depth := pred (p_depth p) |>).

(** [open(ERROR_NODE); bump(); close()]. *)
Definition error_token : Method unit := open SyntaxKind.ERROR_NODE;; bump;; close.

(** The three counters of [adjust_delimiter_depths]. *)
Record Depths := { parentheses : nat; brackets : nat; braces : nat }.

Definition no_depths : Depths := {| parentheses := 0; brackets := 0; braces := 0 |}.

Definition at_zero (d : Depths) : bool :=
  Nat.eqb (parentheses d) 0 && Nat.eqb (brackets d) 0 && Nat.eqb (braces d) 0.

Definition adjust_delimiter_depths (p : Parser) (d : Depths) : Depths :=
  match raw_kind p with
  | Some TokenKind.PAREN_OPEN =>
      {| parentheses := S (parentheses d); brackets := brackets d; braces := braces d |}
  | Some TokenKind.PAREN_CLOSE =>
      {| parentheses := pred (parentheses d); brackets := brackets d; braces := braces d |}
  | Some TokenKind.BRACKET_OPEN =>
      {| parentheses := parentheses d; brackets := S (brackets d); braces := braces d |}
  | Some TokenKind.BRACKET_CLOSE =>
      {| parentheses := parentheses d; brackets := pred (brackets d); braces := braces d |}
  | Some TokenKind.BRACE_OPEN =>
      {| parentheses := parentheses d; brackets := brackets d; braces := S (braces d) |}
  | Some TokenKind.BRACE_CLOSE =>
      {| parentheses := parentheses d; brackets := brackets d; braces := pred (braces d) |}
  | _ => d
  end.

Definition consume_balanced_braces : Method bool :=
  opened ← expect TokenKind.BRACE_OPEN "`{` before a braced Domain construct";
  if negb opened then mret false
  else
    closed ← budgeted (λ depth : nat,
      raw ← gets raw_kind;
      before ← gets p_index;
      match raw with
      | None => break false
      | Some TokenKind.BRACE_CLOSE =>
          bump;;
          index ← gets p_index;
          if Nat.eqb index before then break false
          else if Nat.eqb (pred depth) 0 then break true else continue (pred depth)
      | Some kind =>
          bump;;
          index ← gets p_index;
          if Nat.eqb index before then break false
          else continue (if bool_decide (kind = TokenKind.BRACE_OPEN) then S depth else depth)
      end) (λ _, false) 1;
    if closed : bool then mret true
    else syntax_error "expected `}` before end of file";; mret false.

Definition consume_double_angle : Method bool :=
  first ← expect TokenKind.LT "first `<` before stereotype applications";
  second ← expect TokenKind.LT "second `<` before stereotype applications";
  if negb (first && second) then mret false
  else
    closed ← budgeted (λ _ : unit,
      ended ← gets at_end;
      if ended : bool then break false
      else
        before ← gets p_index;
        closing ← gets at_double_angle_close;
        if closing : bool then
          first ← expect TokenKind.GT "first `>` after stereotype applications";
          second ← expect TokenKind.GT "second `>` after stereotype applications";
          break (first && second)
        else
          bump;;
          index ← gets p_index;
          if Nat.eqb index before then break false else continue ()) (λ _, false) ();
    if closed : bool then mret true
    else syntax_error "expected `>>` before end of file";; mret false.

(** ** Recovery *)

Definition recover_declaration_header : Method unit :=
  open SyntaxKind.ERROR_NODE;;
  looping (λ _ : unit,
    ended ← gets (λ p, at_end p || at_declaration_header_recovery_boundary p);
    if ended : bool then break ()
    else
      before ← gets p_index;
      bump;;
      index ← gets p_index;
      if Nat.eqb index before then break () else continue ()) ();;
  semicolon_start ← gets p_index;
  consume_if_raw TokenKind.SEMICOLON;;
  stuck ← gets (λ p, Nat.eqb (p_index p) semicolon_start && raw_at TokenKind.SEMICOLON p);
  (if stuck : bool
   then syntax_error "parser made no progress while consuming Domain recovery terminator" else mret ());;
  close.

Definition recover_member_tail : Method unit :=
  boundary ← gets at_member_recovery_boundary;
  if boundary : bool then mret ()
  else
    open SyntaxKind.ERROR_NODE;;
    looping (λ _ : unit,
      ended ← gets (λ p, at_end p || at_member_recovery_boundary p);
      if ended : bool then break ()
      else
        before ← gets p_index;
        bump;;
        index ← gets p_index;
        if Nat.eqb index before then break () else continue ()) ();;
    semicolon ← gets (at_kind TokenKind.SEMICOLON);
    (if semicolon : bool then consume_if TokenKind.SEMICOLON;; mret () else mret ());;
    close.

Definition consume_member_terminator : Method bool :=
  consume_trivia;;
  semicolon_start ← gets p_index;
  consume_if_raw TokenKind.SEMICOLON;;
  index ← gets p_index;
  if negb (Nat.eqb index semicolon_start) then mret true
  else
    syntax_error "expected `;` after a property declaration";;
    ended ← gets at_end;
    (if negb ended then recover_member_tail else mret ());;
    mret false.

(** ** Names, types and multiplicities *)

Definition parse_domain_qualified_name (expected : string) : Method bool :=
  open SyntaxKind.DOMAIN_QUALIFIED_NAME;;
  consume_if TokenKind.PATH_SEPARATOR;;
  valid ← consume_name expected;
  valid ← looping (λ valid : bool,
    separator ← consume_if TokenKind.PATH_SEPARATOR;
    if separator : bool then
      name ← consume_name "a name after `::`";
      if valid && name then continue (valid && name) else break (valid && name)
    else break valid) valid;
  close;;
  mret valid.

Section type_reference.
Variable parse_domain_type_reference : Method bool.

(** One argument: whether the arguments so far are valid. *)
Definition type_argument (valid : bool) : Method (bool + bool) :=
  argument_start ← gets p_index;
  argument ← parse_domain_type_reference;
  consume_trivia;;
  comma_start ← gets p_index;
  consume_if_raw TokenKind.COMMA;;
  index ← gets p_index;
  if negb (Nat.eqb index comma_start) then
    consume_trivia;;
    index ← gets p_index;
    if Nat.eqb index argument_start then
      syntax_error "parser made no progress after Domain type argument separator";;
      break false
    else continue (valid && argument)
  else
    closed ← gets (at_kind TokenKind.GT);
    stopped ← (if negb closed then
                 syntax_error "expected `,` or `>` after a type argument";;
                 recover_until [TokenKind.COMMA; TokenKind.GT];;
                 comma_start ← gets p_index;
                 consume_if_raw TokenKind.COMMA;;
                 gets (λ p, Nat.eqb (p_index p) comma_start && raw_at TokenKind.COMMA p)
               else mret false);
    if stopped : bool then break false
    else
      index ← gets p_index;
      if Nat.eqb index argument_start then
        syntax_error "parser made no progress while recovering Domain type arguments";;
        break false
      else continue (valid && argument).

Definition type_reference_step : Method bool :=
  entered ← enter_parse_depth;
  if negb entered then mret false
  else
    open SyntaxKind.DOMAIN_TYPE_REF;;
    valid ← parse_domain_qualified_name "a type name";
    arguments ← consume_if TokenKind.LT;
    valid ← (if arguments : bool then
               consume_trivia;;
               empty ← gets (at_kind TokenKind.GT);
               valid ← (if empty : bool
                        then syntax_error "expected a type argument after `<`";; mret false
                        else mret valid);
               valid ← looping (λ valid : bool,
                 more ← gets (λ p, negb (at_end p) && negb (at_kind TokenKind.GT p));
                 if more : bool then type_argument valid else break valid) valid;
               closed ← expect TokenKind.GT "`>` after type arguments";
               mret (valid && closed)
             else mret valid);
    close;;
    leave_parse_depth;;
    mret valid.
End type_reference.

Fixpoint type_reference_at (fuel : nat) : Method bool :=
  match fuel with
  | 0 => panic
  | S fuel => type_reference_step (type_reference_at fuel)
  end.

Definition parse_domain_type_reference : Method bool := type_reference_at (S MAX_PARSE_DEPTH).

Definition consume_multiplicity_bound : Method bool :=
  integer ← consume_if TokenKind.INTEGER;
  star ← (if integer : bool then mret true else consume_if TokenKind.STAR);
  if star : bool then mret true
  else syntax_error "expected a multiplicity bound";; mret false.

Definition parse_domain_multiplicity : Method bool :=
  consume_trivia;;
  bracket ← gets (at_kind TokenKind.BRACKET_OPEN);
  if negb bracket then syntax_error "expected a multiplicity after a type";; mret false
  else
    open SyntaxKind.DOMAIN_MULTIPLICITY;;
    opened ← expect TokenKind.BRACKET_OPEN "`[` before a multiplicity";
    lower ← consume_multiplicity_bound;
    range ← consume_if TokenKind.DOT;
    upper ← (if range : bool then
               second ← expect TokenKind.DOT "second `.` in a multiplicity range";
               if second : bool then consume_multiplicity_bound else mret false
             else mret true);
    closed ← expect TokenKind.BRACKET_CLOSE "`]` after a multiplicity";
    close;;
    mret (opened && lower && upper && closed).

(** ** Annotations *)

Definition parse_stereotype_applications : Method unit :=
  consume_trivia;;
  budgeted (λ _ : unit,
    more ← gets (λ p, negb (at_end p) && (at_kind TokenKind.BRACE_OPEN p || at_double_angle_open p));
    if negb more then break ()
    else
      start ← gets p_index;
      braced ← gets (at_kind TokenKind.BRACE_OPEN);
      structurally_valid ← gets (λ p, if braced : bool then braced_annotation_is_valid p
                                      else double_angle_stereotype_is_valid p);
      open (if structurally_valid : bool then SyntaxKind.DOMAIN_STEREOTYPE_APPLICATIONS
            else SyntaxKind.ERROR_NODE);;
      closed ← (if braced : bool then consume_balanced_braces else consume_double_angle);
      close;;
      index ← gets p_index;
      if Nat.eqb index start then
        syntax_error "parser made no progress while reading Domain stereotype applications";;
        error_token;;
        break ()
      else
        (if negb (structurally_valid && closed) then
           (if closed : bool
            then syntax_error "malformed Domain stereotype or tagged-value application" else mret ());;
           mark_gap_from start MalformedDeclaration
         else mret ());;
        consume_trivia;;
        continue ()) id ().

(** ** Opaque regions *)

Definition parse_opaque_body : Method unit :=
  open SyntaxKind.DOMAIN_OPAQUE_BODY;;
  consume_balanced_braces;;
  close.

Definition parse_opaque_expression : Method unit :=
  open SyntaxKind.DOMAIN_OPAQUE_BODY;;
  looping (λ depths : Depths,
    ended ← gets (λ p, at_end p || (at_zero depths && (raw_at TokenKind.SEMICOLON p || raw_at TokenKind.BRACE_CLOSE p)));
    if ended : bool then break ()
    else
      depths ← gets (λ p, adjust_delimiter_depths p depths);
      bump;;
      continue depths) no_depths;;
  close.

Definition consume_top_level_construct (node_kind : SyntaxKind) : Method unit :=
  open node_kind;;
  looping (λ '(depths, consumed),
    ended ← gets (λ p, at_end p
      || (consumed && at_zero depths
          && (at_declaration p || at_ignored_top_level p || raw_at TokenKind.BRACE_CLOSE p)));
    if ended : bool then break ()
    else
      ends_declaration ← gets (λ p, raw_at TokenKind.SEMICOLON p && at_zero depths);
      ends_braced_declaration ← gets (λ p, raw_at TokenKind.BRACE_CLOSE p && Nat.eqb (braces depths) 1);
      depths ← gets (λ p, adjust_delimiter_depths p depths);
      bumped ← bump;
      if negb bumped then break ()
      else if ends_declaration || ends_braced_declaration then break ()
      else continue (depths, true)) (no_depths, false);;
  close.

Definition parse_opaque_top_level : Method unit :=
  start ← gets p_index;
  consume_top_level_construct SyntaxKind.DOMAIN_OPAQUE_NODE;;
  mark_gap_from start UnsupportedTopLevel.

Definition parse_ignored_top_level : Method unit :=
  consume_top_level_construct SyntaxKind.DOMAIN_IGNORED_TOP_LEVEL.

Definition parse_opaque_member : Method unit :=
  start ← gets p_index;
  open SyntaxKind.DOMAIN_OPAQUE_NODE;;
  looping (λ '(depths, consumed, saw_property_colon),
    ended ← gets (λ p, at_end p
      || (consumed && at_zero depths && at_opaque_member_recovery_boundary saw_property_colon p));
    if ended : bool then break ()
    else
      ends_member ← gets (λ p, raw_at TokenKind.SEMICOLON p && at_zero depths);
      saw_property_colon ← gets (λ p, saw_property_colon || (raw_at TokenKind.COLON p && at_zero depths));
      depths ← gets (λ p, adjust_delimiter_depths p depths);
      bump;;
      if ends_member : bool then break () else continue (depths, true, saw_property_colon))
    (no_depths, false, false);;
  close;;
  mark_gap_from start UnsupportedMember.

(** ** Members *)

Definition parse_property : Method unit :=
  start ← gets p_index;
  open SyntaxKind.DOMAIN_PROPERTY_DECL;;
  name ← consume_name "a property name";
  colon ← expect TokenKind.COLON "`:` after a property name";
  ty ← parse_domain_type_reference;
  multiplicity ← parse_domain_multiplicity;
  assigned ← consume_if TokenKind.ASSIGN;
  (if assigned : bool then parse_opaque_expression else mret ());;
  terminator ← consume_member_terminator;
  (if contains_false [name; colon; ty; multiplicity; terminator]
   then mark_gap_from start MalformedDeclaration else mret ());;
  close.

(** One parameter: whether those so far are valid, or the result of the list. *)
Definition parameter (valid : bool) : Method (bool + bool) :=
  before ← gets p_index;
  open SyntaxKind.DOMAIN_PARAMETER_DECL;;
  name ← consume_name "a parameter name";
  colon ← expect TokenKind.COLON "`:` after a parameter name";
  ty ← parse_domain_type_reference;
  multiplicity ← parse_domain_multiplicity;
  close;;
  consume_trivia;;
  comma_start ← gets p_index;
  consume_if_raw TokenKind.COMMA;;
  index ← gets p_index;
  if negb (Nat.eqb index comma_start) then
    consume_trivia;;
    closed ← gets (at_kind TokenKind.PAREN_CLOSE);
    if closed : bool then syntax_error "expected a parameter after `,`";; break false
    else
      index ← gets p_index;
      if Nat.eqb index before then
        syntax_error "parser made no progress after qualified-property parameter separator";;
        break false
      else continue (valid && (name && colon && ty && multiplicity))
  else
    ended ← gets (λ p, at_kind TokenKind.PAREN_CLOSE p || at_end p);
    if ended : bool then break (valid && (name && colon && ty && multiplicity))
    else
      syntax_error "expected `,` or `)` after a qualified-property parameter";;
      recover_until [TokenKind.COMMA; TokenKind.PAREN_CLOSE; TokenKind.BRACE_CLOSE];;
      index ← gets p_index;
      if Nat.eqb index before then break false
      else
        comma_start ← gets p_index;
        consume_if_raw TokenKind.COMMA;;
        index ← gets p_index;
        if negb (Nat.eqb index comma_start) then
          if Nat.eqb index before then
            syntax_error "parser made no progress after qualified-property parameter recovery";;
            break false
          else continue false
        else break false.

Definition parse_parameter_list : Method bool :=
  consume_trivia;;
  empty ← gets (at_kind TokenKind.PAREN_CLOSE);
  if empty : bool then mret true else looping parameter true.

Definition parse_qualified_property : Method unit :=
  start ← gets p_index;
  open SyntaxKind.DOMAIN_QUALIFIED_PROPERTY_DECL;;
  name ← consume_name "a qualified-property name";
  opened ← expect TokenKind.PAREN_OPEN "`(` after a qualified-property name";
  parameters ← (if opened : bool then parse_parameter_list else mret false);
  closed ← (if opened : bool
            then expect TokenKind.PAREN_CLOSE "`)` after qualified-property parameters" else mret false);
  colon ← expect TokenKind.COLON "`:` after qualified-property parameters";
  ty ← parse_domain_type_reference;
  multiplicity ← parse_domain_multiplicity;
  brace ← gets (at_kind TokenKind.BRACE_OPEN);
  body ← (if brace : bool then parse_opaque_body;; mret true
          else
            syntax_error "expected `{` before a qualified-property body";;
            recover_member_tail;;
            mret false);
  consume_if TokenKind.SEMICOLON;;
  (if contains_false [name; opened; parameters; closed; colon; ty; multiplicity; body]
   then mark_gap_from start MalformedDeclaration else mret ());;
  close.

Definition parse_member (kind : DeclarationKind) : Method unit :=
  parse_stereotype_applications;;
  consume_trivia;;
  ended ← gets at_end;
  if ended : bool then mret ()
  else
    property ← gets member_starts_property;
    if property : bool then parse_property
    else
      qualified ← gets (λ p, bool_decide (kind = Class) && member_starts_qualified_property p);
      if qualified : bool then parse_qualified_property else parse_opaque_member.

(** ** Declarations *)

Definition parse_declaration_body (kind : DeclarationKind) : Method bool :=
  opened ← expect TokenKind.BRACE_OPEN "`{` before declaration body";
  if negb opened then recover_declaration_header;; mret false
  else
    closed ← looping (λ _ : unit,
      ended ← gets at_end;
      if ended : bool then break None
      else
        consume_trivia;;
        ended ← gets at_end;
        if ended : bool then break None
        else
          brace ← gets (at_kind TokenKind.BRACE_CLOSE);
          if brace : bool then bump;; break (Some true)
          else
            declaration ← gets at_declaration;
            if declaration : bool
            then syntax_error "expected `}` before the next Domain declaration";; break (Some false)
            else
              semicolon_start ← gets p_index;
              consume_if_raw TokenKind.SEMICOLON;;
              index ← gets p_index;
              (if Nat.eqb index semicolon_start then
                 before ← gets p_index;
                 parse_member kind;;
                 index ← gets p_index;
                 if Nat.eqb index before
                 then syntax_error "parser made no progress while reading a Domain member";; error_token
                 else mret ()
               else mret ());;
              index ← gets p_index;
              (if Nat.eqb index semicolon_start
               then syntax_error "parser made no progress after checking a Domain member terminator";; error_token
               else mret ());;
              continue ()) ();
    match closed with
    | Some closed => mret closed
    | None => syntax_error "expected `}` before end of file";; mret false
    end.

Definition parse_extends_clause : Method bool :=
  open SyntaxKind.DOMAIN_EXTENDS_CLAUSE;;
  keyword ← expect_keyword "extends";
  valid ← (if keyword : bool then parse_domain_qualified_name "a supertype after `extends`" else mret false);
  valid ← looping (λ valid : bool,
    consume_trivia;;
    comma_start ← gets p_index;
    consume_if_raw TokenKind.COMMA;;
    index ← gets p_index;
    if Nat.eqb index comma_start then break valid
    else
      name ← parse_domain_qualified_name "a supertype after `,`";
      index ← gets p_index;
      if Nat.eqb index comma_start then
        syntax_error "parser made no progress after Domain extends separator";;
        break false
      else continue (valid && name)) valid;
  (if negb valid then syntax_error "expected a valid supertype after `extends`" else mret ());;
  close;;
  mret valid.

Definition parse_class : Method unit :=
  start ← gets p_index;
  open SyntaxKind.DOMAIN_CLASS_DECL;;
  keyword ← expect_keyword "Class";
  parse_stereotype_applications;;
  name ← parse_domain_qualified_name "a class name";
  extending ← gets (at_keyword "extends");
  extends ← (if extending : bool then parse_extends_clause else mret true);
  body ← parse_declaration_body Class;
  (if contains_false [keyword; name; extends; body]
   then mark_gap_from start MalformedDeclaration else mret ());;
  close.

Definition parse_association : Method unit :=
  start ← gets p_index;
  open SyntaxKind.DOMAIN_ASSOCIATION_DECL;;
  keyword ← expect_keyword "Association";
  parse_stereotype_applications;;
  name ← parse_domain_qualified_name "an association name";
  body ← parse_declaration_body Association;
  (if contains_false [keyword; name; body]
   then mark_gap_from start MalformedDeclaration else mret ());;
  close.

(** ** Profiles *)

Definition consume_profile_tag_list : Method unit :=
  looping (λ depth : nat,
    raw ← gets raw_kind;
    match raw with
    | None => break ()
    | Some TokenKind.BRACKET_CLOSE =>
        if Nat.eqb depth 0 then break () else bump;; continue (pred depth)
    | Some TokenKind.BRACKET_OPEN | Some TokenKind.PAREN_OPEN | Some TokenKind.BRACE_OPEN =>
        bump;; continue (S depth)
    | Some TokenKind.PAREN_CLOSE | Some TokenKind.BRACE_CLOSE => bump;; continue (pred depth)
    | Some _ => bump;; continue depth
    end) 0.

Definition stereotype_entry (valid : bool) : Method (bool + bool) :=
  ended ← gets (λ p, at_end p || at_kind TokenKind.BRACKET_CLOSE p);
  if ended : bool then break valid
  else
    start ← gets p_index;
    open SyntaxKind.DOMAIN_STEREOTYPE_DECL;;
    name ← consume_name "a stereotype name";
    close;;
    (if negb name then recover_until [TokenKind.COMMA; TokenKind.BRACKET_CLOSE] else mret ());;
    consume_trivia;;
    comma_start ← gets p_index;
    consume_if_raw TokenKind.COMMA;;
    index ← gets p_index;
    if negb (Nat.eqb index comma_start) then consume_trivia;; continue (valid && name)
    else
      closed ← gets (at_kind TokenKind.BRACKET_CLOSE);
      '(valid, stuck) ←
        (if negb closed then
           syntax_error "expected `,` or `]` after a stereotype name";;
           recover_until [TokenKind.COMMA; TokenKind.BRACKET_CLOSE];;
           comma_start ← gets p_index;
           consume_if_raw TokenKind.COMMA;;
           stuck ← gets (λ p, Nat.eqb (p_index p) comma_start && raw_at TokenKind.COMMA p);
           mret (false, stuck)
         else mret (valid && name, false));
      if stuck : bool then break false
      else
        index ← gets p_index;
        if Nat.eqb index start then
          syntax_error "parser made no progress in stereotype list";;
          error_token;;
          break false
        else continue valid.

Definition parse_stereotype_list : Method bool :=
  consume_trivia;;
  budgeted stereotype_entry id true.

Definition parse_profile_section : Method bool :=
  stereotypes ← gets (at_keyword "stereotypes");
  open SyntaxKind.DOMAIN_PROFILE_SECTION;;
  bump;;
  colon ← expect TokenKind.COLON "`:` after a profile section name";
  opened ← expect TokenKind.BRACKET_OPEN "`[` after a profile section name";
  contents ← (if colon && opened then
                if stereotypes : bool then parse_stereotype_list
                else consume_profile_tag_list;; mret true
              else mret false);
  closed ← (if colon && opened
            then expect TokenKind.BRACKET_CLOSE "`]` after a profile section" else mret false);
  consume_if TokenKind.SEMICOLON;;
  close;;
  mret (colon && opened && contents && closed).

Definition parse_profile_body : Method bool :=
  opened ← expect TokenKind.BRACE_OPEN "`{` before profile body";
  if negb opened then recover_declaration_header;; mret false
  else
    closed ← looping (λ valid : bool,
      ended ← gets at_end;
      if ended : bool then break None
      else
        consume_trivia;;
        ended ← gets at_end;
        if ended : bool then break None
        else
          brace ← gets (at_kind TokenKind.BRACE_CLOSE);
          if brace : bool then bump;; break (Some valid)
          else
            declaration ← gets at_declaration;
            if declaration : bool
            then syntax_error "expected `}` before the next Domain declaration";; break (Some false)
            else
              before ← gets p_index;
              section ← gets (λ p, at_keyword "stereotypes" p || at_keyword "tags" p);
              valid ← (if section : bool then
                         section_valid ← parse_profile_section;
                         mret (valid && section_valid)
                       else
                         semicolon_start ← gets p_index;
                         consume_if_raw TokenKind.SEMICOLON;;
                         index ← gets p_index;
                         (if Nat.eqb index semicolon_start then parse_opaque_member else mret ());;
                         mret valid);
              index ← gets p_index;
              if Nat.eqb index before then
                syntax_error "parser made no progress while reading Domain profile member";;
                error_token;;
                continue false
              else continue valid) true;
    match closed with
    | Some closed => mret closed
    | None => syntax_error "expected `}` before end of file";; mret false
    end.

Definition parse_profile : Method unit :=
  start ← gets p_index;
  open SyntaxKind.DOMAIN_PROFILE_DECL;;
  keyword ← expect_keyword "Profile";
  parse_stereotype_applications;;
  name ← parse_domain_qualified_name "a profile name";
  body ← parse_profile_body;
  (if contains_false [keyword; name; body]
   then mark_gap_from start MalformedDeclaration else mret ());;
  close.

(** ** Files *)

Definition parse_declaration : Method unit :=
  declaration ← gets declaration_kind;
  match declaration with
  | Some Class => parse_class
  | Some Association => parse_association
  | Some Profile => parse_profile
  | None =>
      ignored ← gets at_ignored_top_level;
      if ignored : bool then parse_ignored_top_level else parse_opaque_top_level
  end.

Definition parse_file : Method unit :=
  budgeted (λ _ : unit,
    ended ← gets at_end;
    if ended : bool then break ()
    else
      consume_trivia;;
      ended ← gets at_end;
      if ended : bool then break ()
      else
        semicolon ← gets (raw_at TokenKind.SEMICOLON);
        skipped ← (if semicolon : bool then bump else mret false);
        if skipped : bool then continue ()
        else
          before ← gets p_index;
          parse_declaration;;
          index ← gets p_index;
          if negb (Nat.eqb index before) then continue ()
          else
            syntax_error "parser made no progress while reading a Domain declaration";;
            open SyntaxKind.ERROR_NODE;;
            bumped ← bump;
            close;;
            if negb bumped then break () else continue ()) id ().

(** The key of the gaps' order. *)
Definition gap_key (gap : DomainCoverageGap) : nat * nat :=
  (start (gap_span gap), end_ (gap_span gap)).

(** [Parser::parse]. *)
Definition parse : Method (list Event * list (Diagnostic R) * list DomainCoverageGap) :=
  open SyntaxKind.ROOT;;
  open SyntaxKind.DOMAIN_FILE;;
  parse_file;;
  close;;
  close;;
  gets (λ p, (p_events p, p_diagnostics p, sort_by_key gap_key (p_gaps p))).

Definition parse_tokens (source : Text) (file : FileId) (tokens : list (TokenKind * R))
  : option (Result DomainParse (BuildError R)) :=
  '((events, diagnostics, coverage_gaps), _) ← parse (new source file tokens);
  built ← finish (foldl push (builder_new 0 source tokens).1 events);
  Some (match built with
        | Ok green => Ok {| green := green; parse_diagnostics := diagnostics; coverage_gaps := coverage_gaps |}
        | Err e => Err e
        end).

Definition parse_domain `{Logos} (source : Text) (file : FileId)
  : option (Result DomainParse (BuildError R)) :=
  tokens ← lex source;
  parse_tokens source file tokens.
End parser.
Arguments DomainCoverageGap : clear implicits.
Arguments DomainParse : clear implicits.
Arguments Parser : clear implicits.
