(* ===== verification/DomainLaws.v ===== *)
(** * What the Domain parser's methods do

    [moves] is the contract of a method, as for the query parser.  Two facts
    about the whole state are kept besides: the parser is [honest] when it has
    reported something or its tree has no error node, and [covered] when it has
    marked a coverage gap or its tree has no error node and no opaque node. *)

From S2P Require Import Prelude BTree Codes StableSort Utf8 FixPlan Kinds Green Builder BuilderLaws Parsing Lexing Domain.

(** The kinds of the constructs the parser recognises. *)
Definition recognised_kind (kind : SyntaxKind) : bool :=
  not_error_node kind && negb (bool_decide (kind = SyntaxKind.DOMAIN_OPAQUE_NODE)).

(** A conjunction over a list. *)
Fixpoint Forall_all {A} (P : A → Prop) (l : list A) : Prop :=
  match l with
  | [] => True
  | x :: l => P x ∧ Forall_all P l
  end.

Section laws.
Context {R : Type} `{TextRangeNew R}.
Implicit Types p : Parser R.

(** Where the source ends. *)
Definition tokens_end (tokens : list (TokenKind * R)) : nat := token_end tokens (length tokens).

Record sound (p : Parser R) : Prop := {
  so_tokens : contiguous (p_tokens p);
  so_index : p_index p ≤ length (p_tokens p);
  so_depth : p_depth p ≤ MAX_PARSE_DEPTH;
  so_gaps : Forall (λ g, end_ (gap_span g) ≤ tokens_end (p_tokens p)) (p_gaps p);
}.

Definition honest (p : Parser R) : Prop :=
  p_diagnostics p = [] →
  opens not_error_node (p_events p) = true ∧ recognised (p_tokens p) 0 (p_index p).

Definition covered (p : Parser R) : Prop := p_gaps p = [] → opens recognised_kind (p_events p) = true.

(** The parser went from one state to another and left [depth] nodes open. *)
Record moves (depth : nat) (p p' : Parser R) : Prop := {
  mv_tokens : p_tokens p' = p_tokens p;
  mv_source : p_source p' = p_source p;
  mv_file : p_file p' = p_file p;
  mv_depth : p_depth p' = p_depth p;
  mv_index : p_index p ≤ p_index p';
  mv_start : sound p;
  mv_sound : sound p';
  mv_events : ∃ seg, p_events p' = p_events p ++ seg ∧ balance 0 seg = Some depth ∧
                     opens inner_kind seg = true ∧ p_index p' = p_index p + advances seg;
  mv_reports : ∃ ds js, p_diagnostics p' = p_diagnostics p ++ ds ∧
                        Forall2 (reports (p_file p) (p_tokens p)) ds js ∧
                        ordered (p_index p) js (p_index p');
  mv_gaps : p_gaps p ≠ [] → p_gaps p' ≠ [];
}.

Lemma domain_moves_refl p : sound p → moves 0 p p.
Proof.
  intros Hs. split; try done.
  - exists []. rewrite app_nil_r. split_and!; [done..|simpl; lia].
  - exists [], []. rewrite app_nil_r. split_and!; [done|done|simpl; lia].
Qed.

Lemma domain_moves_trans d d' p0 p1 p2 : moves d p0 p1 → moves d' p1 p2 → moves (d + d') p0 p2.
Proof.
  intros [Ht Hsr Hf Hd Hi Hst Hs (seg & He & Hb & Ho & Ha) (ds & js & Hg & Hr & Hj) Hgp]
    [Ht' Hsr' Hf' Hd' Hi' _ Hs' (seg' & He' & Hb' & Ho' & Ha') (ds' & js' & Hg' & Hr' & Hj') Hgp'].
  split; try congruence; [lia| | |by eauto].
  - exists (seg ++ seg'). split_and!.
    + by rewrite He', He, (assoc_L (++)).
    + rewrite (balance_app _ d _ _ Hb), (Nat.add_comm d d'). by apply (balance_shift d 0).
    + by rewrite opens_app, Ho, Ho'.
    + rewrite advances_app. lia.
  - exists (ds ++ ds'), (js ++ js'). split_and!.
    + by rewrite Hg', Hg, (assoc_L (++)).
    + apply Forall2_app; [done|]. by rewrite <-Ht, <-Hf.
    + by eapply ordered_app.
Qed.

(** Time passes. *)
Record after (p p' : Parser R) : Prop := {
  af_index : p_index p ≤ p_index p';
  af_tokens : length (p_tokens p') = length (p_tokens p);
  af_reports : p_diagnostics p ≠ [] → p_diagnostics p' ≠ [];
  af_gaps : p_gaps p ≠ [] → p_gaps p' ≠ [];
}.

Lemma domain_moves_after d p p' : moves d p p' → after p p'.
Proof.
  intros Hm. split; [apply Hm|by rewrite (mv_tokens _ _ _ Hm)| |apply Hm].
  destruct (mv_reports _ _ _ Hm) as (ds & js & -> & _). intros Hd [Hn _]%app_nil. done.
Qed.

(** The cursor does not move. *)
Record still (p p' : Parser R) : Prop := {
  st_source : p_source p' = p_source p;
  st_tokens : p_tokens p' = p_tokens p;
  st_index : p_index p' = p_index p;
}.

Lemma honest_reported p : p_diagnostics p ≠ [] → honest p.
Proof. by intros Hd ?. Qed.

Lemma covered_marked p : p_gaps p ≠ [] → covered p.
Proof. by intros Hd ?. Qed.

(** ** Primitive steps *)

Lemma domain_moves_emit d d' p0 p event :
  moves d p0 p →
  match event with
  | Open kind => inner_kind kind = true ∧ d' = S d
  | Advance => False
  | Close => d = S d'
  end →
  moves d' p0 (p <| p_events := p_events p ++ [event] |>).
Proof.
  intros [Ht Hsr Hf Hd Hi Hst [Hs1 Hs2 Hs3 Hs4] (seg & He & Hb & Ho & Ha) Hr Hgp] Hev.
  split; try done. exists (seg ++ [event]). simpl. split_and!.
  - by rewrite He, (assoc_L (++)).
  - rewrite (balance_app _ d _ _ Hb). destruct event; simpl; [by destruct Hev as [_ ->]|done|by rewrite Hev].
  - rewrite opens_app, Ho. simpl. destruct event as [k| |]; [by destruct Hev as [-> _]|done..].
  - rewrite advances_app. destruct event; simpl; [lia|done|lia].
Qed.

Lemma emit_honest p event :
  match event with
  | Open kind => not_error_node kind = true ∨ p_diagnostics p ≠ []
  | _ => True
  end → honest p → honest (p <| p_events := p_events p ++ [event] |>).
Proof.
  intros Hev Hh Hd. destruct (Hh Hd) as [Ho Hr]. split; [|done]. simpl. rewrite opens_app, Ho. simpl.
  destruct event as [k| |]; [|done..]. by destruct Hev as [->|Hev].
Qed.

Lemma emit_covered p event :
  match event with
  | Open kind => recognised_kind kind = true
  | _ => True
  end → covered p → covered (p <| p_events := p_events p ++ [event] |>).
Proof.
  intros Hev Hc Hg. specialize (Hc Hg). simpl. rewrite opens_app, Hc. simpl.
  destruct event as [k| |]; [|done..]. by rewrite Hev.
Qed.

Lemma wp_emit d d' p0 p event (Q : unit → Parser R → Prop) :
  moves d p0 p →
  match event with
  | Open kind => inner_kind kind = true ∧ d' = S d
  | Advance => False
  | Close => d = S d'
  end →
  (∀ p', moves d' p0 p' → after p p' → still p p' → p_diagnostics p' = p_diagnostics p →
         p' = p <| p_events := p_events p ++ [event] |> → Q () p') →
  wp (emit event) Q p.
Proof.
  intros Hm Hev HQ. apply wp_update, HQ; [by eapply domain_moves_emit|by split|by split|done|done].
Qed.

(** Opening a node of a recognised construct. *)
Lemma domain_wp_open d p0 p kind (Q : unit → Parser R → Prop) :
  moves d p0 p → inner_kind kind = true → recognised_kind kind = true →
  (∀ p', moves (S d) p0 p' → after p p' → still p p' → (honest p → honest p') →
         (covered p → covered p') → Q () p') → wp (open kind) Q p.
Proof.
  intros Hm Hk Hr HQ. eapply wp_emit; [exact Hm|by split|]. intros p' Hm' Ha Hs _ ->. apply HQ; [done..| |].
  - apply emit_honest. left. unfold recognised_kind in Hr. by apply andb_true_iff in Hr as [? _].
  - by apply emit_covered.
Qed.

(** Opening any other node. *)
Lemma wp_open_any d p0 p kind (Q : unit → Parser R → Prop) :
  moves d p0 p → inner_kind kind = true →
  (∀ p', moves (S d) p0 p' → after p p' → still p p' →
         (not_error_node kind = true ∨ p_diagnostics p ≠ [] → honest p → honest p') →
         (recognised_kind kind = true → covered p → covered p') → Q () p') →
  wp (open kind) Q p.
Proof.
  intros Hm Hk HQ. eapply wp_emit; [exact Hm|by split|]. intros p' Hm' Ha Hs _ ->. apply HQ; [done..| |].
  - intros Hor. by apply emit_honest.
  - intros Hr. by apply emit_covered.
Qed.

Lemma domain_wp_close d p0 p (Q : unit → Parser R → Prop) :
  moves (S d) p0 p →
  (∀ p', moves d p0 p' → after p p' → still p p' → (honest p → honest p') →
         (covered p → covered p') → Q () p') → wp close Q p.
Proof.
  intros Hm HQ. eapply wp_emit; [exact Hm|done|]. intros p' Hm' Ha Hs _ ->. apply HQ; [done..| |].
  - by apply emit_honest.
  - by apply emit_covered.
Qed.

Lemma domain_wp_report d p0 p code message (Q : unit → Parser R → Prop) :
  moves d p0 p →
  (∀ p', moves d p0 p' → after p p' → still p p' → p_diagnostics p' ≠ [] → honest p' →
         (covered p → covered p') → Q () p') →
  wp (push_diagnostic code message) Q p.
Proof.
  intros Hm HQ. unfold wp, push_diagnostic. change (current_span p) with (span_at (p_tokens p) (p_index p)).
  destruct (span_at_total (p_tokens p) (p_index p)) as [span E]. rewrite E. simpl.
  pose proof (app_cons_not_nil (p_diagnostics p) [] (error_diagnostic code message (p_file p) span)) as Hne.
  apply HQ; [|split; simpl; auto|by split|simpl; by auto|apply honest_reported; simpl; by auto|done].
  destruct Hm as [Ht Hsr Hf Hd Hi Hst [Hs1 Hs2 Hs3 Hs4] He (ds & js & Hg & Hr & Hj) Hgp]. split; try done.
  exists (ds ++ [error_diagnostic code message (p_file p) span]), (js ++ [p_index p]). split_and!; simpl.
  - by rewrite Hg, (assoc_L (++)).
  - apply Forall2_app; [done|]. constructor; [|done]. exists code, message, span. by rewrite <-Ht, Hf.
  - eapply ordered_app; [done|]. simpl. lia.
Qed.

(** A gap from an index the cursor has passed. *)
Lemma gap_span_total p from :
  sound p → from ≤ p_index p →
  ∃ span, gap_span_from p from = Some span ∧ end_ span ≤ tokens_end (p_tokens p).
Proof.
  intros [Hc Hi _ _] Hle. unfold gap_span_from, tokens_end.
  destruct (p_tokens p !! from) as [[k r]|] eqn:E.
  - assert (start r ≤ match p_tokens p !! pred (p_index p) with Some (_, e) => end_ e | None => end_ r end
            ≤ token_end (p_tokens p) (length (p_tokens p))) as [Hle1 Hle2].
    { destruct (p_index p) as [|i] eqn:Ei; simpl.
      - assert (from = 0) as -> by lia. rewrite E. rewrite <-(token_end_S _ _ _ _ E).
        apply lookup_lt_Some in E as Hlt. split; [|by apply token_end_mono].
        rewrite (Hc _ _ _ E). apply token_end_mono; [done|lia..].
      - destruct (lookup_lt_is_Some_2 (p_tokens p) i) as [[k' r'] E']; [lia|]. rewrite E'.
        rewrite <-(token_end_S _ _ _ _ E'), (Hc _ _ _ E). split; by apply token_end_mono. }
    destruct (range_new_ordered _ _ Hle1) as (span & -> & _ & He). exists span. split; [done|lia].
  - unfold eof_span. destruct (range_new_ordered (match last (p_tokens p) with Some (_, range) => end_ range | None => 0 end) _ (le_n _)) as (span & -> & _ & He).
    exists span. split; [done|]. rewrite He. destruct (p_tokens p) as [|t ts _] using rev_ind; [simpl; lia|].
    rewrite last_snoc, length_app, Nat.add_comm. simpl. rewrite list_lookup_middle by done. simpl. by destruct t.
Qed.

Lemma join_gap_total bound gaps kind (span : R) :
  Forall (λ g, end_ (gap_span g) ≤ bound) gaps → end_ span ≤ bound →
  ∃ gaps', join_gap gaps kind span = Some gaps' ∧ gaps' ≠ [] ∧ Forall (λ g, end_ (gap_span g) ≤ bound) gaps'.
Proof.
  intros Hg Hs. unfold join_gap.
  assert (∃ gaps', Some (gaps ++ [{| gap_span := span; gap_kind := kind |}]) = Some gaps' ∧ gaps' ≠ [] ∧
    Forall (λ g, end_ (gap_span g) ≤ bound) gaps') as Hpush.
  { eexists. split; [done|]. split; [by intros [_ ?]%app_nil|]. apply Forall_app. split; [done|]. by constructor. }
  destruct (last gaps) as [previous|] eqn:El; [|done]. destruct (_ && _ && _); [|done].
  pose proof (start_le_end span). pose proof (start_le_end (gap_span previous)).
  destruct (range_new_ordered (start (gap_span previous) `min` start span) (end_ (gap_span previous) `max` end_ span))
    as (joined & -> & _ & He); [lia|]. simpl. eexists. split; [done|]. split; [by intros [_ ?]%app_nil|].
  apply last_Some in El as [gaps0 ->]. apply Forall_app in Hg as [Hg0 Hp%Forall_cons_1].
  apply Forall_app. split; [by apply Forall_take, Forall_app_2; [|by constructor; [apply Hp|]]|].
  constructor; [|done]. simpl. lia.
Qed.

Lemma wp_mark d p0 p from kind (Q : unit → Parser R → Prop) :
  moves d p0 p → from ≤ p_index p →
  (∀ p', moves d p0 p' → after p p' → still p p' → p_gaps p' ≠ [] → (honest p → honest p') → Q () p') →
  wp (mark_gap_from from kind) Q p.
Proof.
  intros Hm Hle HQ. unfold wp, mark_gap_from.
  destruct (gap_span_total p from (mv_sound _ _ _ Hm) Hle) as (span & -> & Hs). simpl.
  destruct (join_gap_total _ (p_gaps p) kind span (so_gaps _ (mv_sound _ _ _ Hm)) Hs) as (gaps & -> & Hne & Hg). simpl.
  apply HQ; [|by split|by split|done|done].
  destruct Hm as [Ht Hsr Hf Hd Hi Hst [Hs1 Hs2 Hs3 Hs4] He Hr Hgp]. split; try done.
Qed.

(** ** Methods *)

(** A method terminates from every sound state whose depth its fuel [n] allows;
    one that is [h]onest keeps the parser so. *)
Definition method {A} (n : nat) (h : bool) (m : M (Parser R) A)
    (post : A → Parser R → Parser R → Prop) : Prop :=
  ∀ p, sound p → MAX_PARSE_DEPTH < p_depth p + n →
    wp m (λ a p', moves 0 p p' ∧ (h = true → honest p → honest p') ∧ post a p p') p.

(** A method that opens no opaque node and no error node. *)
Definition plain {A} : A → Parser R → Parser R → Prop := λ _ p p', covered p → covered p'.

(** A method that need not be honest, nor covered. *)
Definition any {A} : A → Parser R → Parser R → Prop := λ _ _ _, True.

(** The parser is at a name. *)
Definition at_name (p : Parser R) : bool := from_option is_name false (significant_kind p).

(** A construct has a token, unless none is left. *)
Definition region (p p' : Parser R) : Prop := p_index p < length (p_tokens p) → p_index p < p_index p'.

(** An iteration that goes on has consumed a token. *)
Definition goes_on {T A} (r : T + A) (p p' : Parser R) : Prop :=
  match r with inl _ => p_index p < p_index p' | inr _ => True end ∧ (covered p → covered p').

(** And consumes a token when it succeeds. *)
Definition takes (b : bool) (p p' : Parser R) : Prop :=
  (b = true → p_index p < p_index p') ∧ (covered p → covered p').

(** And reports an error when it does not. *)
Definition gains (b : bool) (p p' : Parser R) : Prop :=
  (b = false → p_diagnostics p' ≠ []) ∧ takes b p p'.

(** The method consumes a token if the parser is where it can. *)
Definition when (at_ : Parser R → bool) (b : bool) p p' : Prop :=
  at_ p = true → b = true ∧ p_index p < p_index p'.

(** A method that may open such nodes when it fails. *)
Definition partly (b : bool) (p p' : Parser R) : Prop := b = true → covered p → covered p'.

Lemma domain_wp_call {A} h (m : M (Parser R) A) post d p0 p (Q : A → Parser R → Prop) :
  wp m (λ a p', moves 0 p p' ∧ (h = true → honest p → honest p') ∧ post a p p') p → moves d p0 p →
  (∀ a p', moves d p0 p' → after p p' → (h = true → honest p → honest p') → post a p p' → Q a p') → wp m Q p.
Proof.
  intros Hm Hp HQ. eapply wp_mono; [exact Hm|].
  intros a p' (Hm' & Hh & Hpost). apply HQ; [|by eapply domain_moves_after|done..].
  rewrite <-(Nat.add_0_r d). by eapply domain_moves_trans.
Qed.

Lemma domain_wp_method {A} n h (m : M (Parser R) A) post d p0 p (Q : A → Parser R → Prop) :
  method n h m post → moves d p0 p → MAX_PARSE_DEPTH < p_depth p0 + n →
  (∀ a p', moves d p0 p' → after p p' → (h = true → honest p → honest p') → post a p p' → Q a p') → wp m Q p.
Proof.
  intros Hm Hp Hd HQ. eapply domain_wp_call; [|done..].
  apply Hm; [apply (mv_sound _ _ _ Hp)|]. by rewrite (mv_depth _ _ _ Hp).
Qed.

Lemma moves_same d p0 p p1 :
  moves d p0 p → moves d p0 p1 → p_tokens p1 = p_tokens p ∧ p_index p1 ≤ length (p_tokens p).
Proof.
  intros Hm Hm1. rewrite (mv_tokens _ _ _ Hm), <-(mv_tokens _ _ _ Hm1). split; [done|].
  apply (so_index _ (mv_sound _ _ _ Hm1)).
Qed.

(** Loops each of whose iterations passes a token. *)
Lemma domain_wp_looping {T A} (J : T → Parser R → Prop) d p0 (body : T → M (Parser R) (T + A))
    (Q : A → Parser R → Prop) t p :
  moves d p0 p → J t p →
  (∀ t p1, moves d p0 p1 → after p p1 → J t p1 →
           wp (body t) (λ r p2, match r with
                                | inl t' => moves d p0 p2 ∧ after p p2 ∧ J t' p2 ∧ p_index p1 < p_index p2
                                | inr a => Q a p2 end) p1) →
  wp (looping body t) Q p.
Proof.
  intros Hm HJ Hbody. unfold looping. apply wp_bind, wp_gets.
  apply (wp_loop (λ t p1, moves d p0 p1 ∧ after p p1 ∧ J t p1) (λ p1, length (p_tokens p) - p_index p1)).
  - intros t1 p1 (Hm1 & Ha & HJ1). eapply wp_mono; [by apply Hbody|]. intros [t2|a] p2; [|done].
    intros (Hm2 & Ha2 & HJ2 & Hlt). destruct (moves_same _ _ _ _ Hm Hm2). split; [done|lia].
  - split_and!; [done|by split|done].
  - lia.
Qed.

Lemma wp_budgeted {T A} (J : T → Parser R → Prop) d p0 (body : T → M (Parser R) (T + A)) (done_ : T → A)
    (Q : A → Parser R → Prop) t p :
  moves d p0 p → J t p →
  (∀ t p1, moves d p0 p1 → after p p1 → J t p1 →
           wp (body t) (λ r p2, match r with
                                | inl t' => moves d p0 p2 ∧ after p p2 ∧ J t' p2 ∧ p_index p1 < p_index p2
                                | inr a => Q a p2 end) p1) →
  (∀ t p1, moves d p0 p1 → after p p1 → J t p1 → raw_kind p1 = None →
           length (p_tokens p1) ≤ p_index p1 → Q (done_ t) p1) →
  wp (budgeted body done_ t) Q p.
Proof.
  intros Hm HJ Hbody Hdone. unfold budgeted. apply wp_bind, wp_gets.
  apply (wp_for (λ t p1, moves d p0 p1 ∧ after p p1 ∧ J t p1) (λ p1, length (p_tokens p) - p_index p1)).
  - intros t1 p1 (Hm1 & Ha & HJ1). eapply wp_mono; [by apply Hbody|]. intros [t2|a] p2; [|done].
    intros (Hm2 & Ha2 & HJ2 & Hlt). destruct (moves_same _ _ _ _ Hm Hm2). split; [done|lia].
  - intros t1 p1 (Hm1 & Ha & HJ1) Hmu. destruct (moves_same _ _ _ _ Hm Hm1) as [Ht Hle].
    apply Hdone; [done..| |]; [|by rewrite Ht; lia]. unfold raw_kind. apply kind_at_ge. rewrite Ht. lia.
  - split_and!; [done|by split|done].
  - lia.
Qed.

(** ** Consuming a token *)

Definition bumped (b : bool) (p p' : Parser R) : Prop :=
  (b = true → p_index p' = S (p_index p)) ∧
  (p_index p < length (p_tokens p) → b = true ∧ p_index p' = S (p_index p)) ∧
  (covered p → covered p').

Lemma domain_raw_kind_lt p kind : raw_kind p = Some kind → p_index p < length (p_tokens p).
Proof. apply kind_at_lt. Qed.

Lemma domain_raw_kind_test (f : TokenKind → bool) p :
  from_option f false (raw_kind p) = true → p_index p < length (p_tokens p).
Proof. destruct (raw_kind p) eqn:E; [|done]. intros _. by eapply domain_raw_kind_lt. Qed.

Lemma at_keyword_lt keyword p : at_keyword keyword p = true → p_index p < length (p_tokens p).
Proof.
  unfold at_keyword, significant_index. destruct (next_significant_index_from _ _) as [i|] eqn:E; [|done].
  apply next_significant_bounds in E. lia.
Qed.

Lemma at_end_true p : at_end p = true ↔ length (p_tokens p) ≤ p_index p.
Proof. unfold at_end, raw_kind. by rewrite bool_decide_eq_true, kind_at_ge. Qed.

Lemma at_end_false p : at_end p = false ↔ p_index p < length (p_tokens p).
Proof. rewrite <-not_true_iff_false, at_end_true. lia. Qed.

Lemma domain_moves_advance p p1 kind :
  moves 0 p p1 → p_index p1 = p_index p → raw_kind p = Some kind →
  let p2 := p1 <| p_events := p_events p1 ++ [Advance] |> <| p_index := S (p_index p1) |> in
  moves 0 p p2 ∧
  (honest p1 → (kind = TokenKind.ERROR → p_diagnostics p1 ≠ []) → honest p2) ∧ (covered p1 → covered p2).
Proof.
  intros Hm Hx Hk p2. pose proof (kind_at_lt _ _ _ Hk) as Hlt.
  destruct Hm as [Ht Hsr Hf Hd Hi Hst [Hs1 Hs2 Hs3 Hs4] (seg & He & Hb & Ho & Ha) (ds & js & Hg & Hr & Hj) Hgp].
  split; [split; try done|split].
  - simpl. lia.
  - split; simpl; try done. rewrite Ht. lia.
  - exists (seg ++ [Advance]). simpl. split_and!.
    + by rewrite He, (assoc_L (++)).
    + by rewrite (balance_app _ 0 _ _ Hb).
    + by rewrite opens_app, Ho.
    + rewrite advances_app. simpl. lia.
  - exists ds, js. split_and!; [done..|]. simpl. eapply (ordered_app _ _ _ []) in Hj; [by rewrite app_nil_r in Hj|].
    simpl. lia.
  - intros Hh Hne Hds. destruct (Hh Hds) as [Hn Hrec]. simpl in *. split; [by rewrite opens_app, Hn|].
    intros i Hii. destruct (decide (i < p_index p1)); [apply Hrec; lia|].
    assert (i = p_index p) as -> by lia. unfold raw_kind in Hk. rewrite Ht, Hk. intros [= ->]. by apply Hne.
  - intros Hc Hgs. simpl. by rewrite opens_app, (Hc Hgs).
Qed.

Lemma domain_bump_method n : method n true bump bumped.
Proof.
  intros p Hs _. unfold bump. apply wp_bind, wp_gets.
  destruct (raw_kind p) as [kind|] eqn:Ek.
  2:{ apply wp_ret. split; [by apply domain_moves_refl|]. split; [done|]. split_and!; [done| |done].
      intros Hlt. apply kind_at_ge in Ek. lia. }
  assert (∀ p1, moves 0 p p1 → p_index p1 = p_index p → (honest p → honest p1) → (covered p → covered p1) →
    (kind = TokenKind.ERROR → p_diagnostics p1 ≠ []) →
    wp (emit Advance;; update_self (λ p, p <| p_index := S (p_index p) |>);; mret true)
       (λ a p', moves 0 p p' ∧ (true = true → honest p → honest p') ∧ bumped a p p') p1) as Htail.
  { intros p1 Hm Hi Hh Hc Hr. apply wp_bind, wp_update, wp_bind, wp_update, wp_ret.
    destruct (domain_moves_advance _ _ _ Hm Hi Ek) as (Hm2 & Hh2 & Hc2).
    split; [exact Hm2|]. split; [auto|]. unfold bumped. simpl. rewrite Hi. auto. }
  apply wp_bind. case_bool_decide as Hk.
  - eapply (domain_wp_report 0 p); [by apply domain_moves_refl|]. intros p1 Hm Ha Hst Hne Hh Hc. apply Htail; auto. apply Hst.
  - apply wp_ret, Htail; auto. by apply domain_moves_refl.
Qed.

Lemma contains_false_all flags : contains_false flags = false → Forall_all (λ b : bool, b = true) flags.
Proof.
  unfold contains_false. rewrite negb_false_iff. induction flags as [|b flags IH]; simpl; [done|].
  rewrite andb_true_iff. intros [? ?]. auto.
Qed.

Definition settled (p p' : Parser R) : Prop :=
  p_source p' = p_source p ∧ p_tokens p' = p_tokens p ∧ significant_index p' = significant_index p ∧
  from_option is_trivia false (raw_kind p') = false ∧ (covered p → covered p').
End laws.

(** ** Automation *)

Create HintDb domain discriminated.
#[export] Hint Resolve domain_bump_method : domain.

Ltac deep := solve [eassumption | lia].

Ltac settle :=
  unfold any, when, plain, region, goes_on, gains, takes, partly, bumped, settled in *; simpl in *;
  repeat match goal with
  | H : _ ∧ _ |- _ => destruct H
  | H : after _ _ |- _ => destruct H
  | H : still _ _ |- _ => destruct H
  | H : _ && _ = true |- _ => apply andb_true_iff in H
  | H : ?a && _ = false |- _ => is_var a; apply andb_false_iff in H as [H|H]
  | H : negb _ = true |- _ => apply negb_true_iff in H
  | H : negb _ = false |- _ => apply negb_false_iff in H
  | H : (_ || _) = false |- _ => apply orb_false_iff in H
  | H : at_end _ = false |- _ => apply at_end_false in H
  | H : at_end _ = true |- _ => apply at_end_true in H
  | H : raw_kind _ = Some _ |- _ => apply domain_raw_kind_lt in H
  | H : from_option _ false (raw_kind _) = true |- _ => apply domain_raw_kind_test in H
  | H : at_keyword _ ?p = true |- _ =>
      lazymatch goal with
      | _ : p_index p < length (p_tokens p) |- _ => fail
      | _ => pose proof (at_keyword_lt _ _ H)
      end
  | H : contains_false _ = false |- _ => apply contains_false_all in H; simpl in H
  | H : raw_at _ _ = true |- _ => apply bool_decide_eq_true in H
  | H : Nat.eqb _ _ = true |- _ => apply Nat.eqb_eq in H
  | H : Nat.eqb _ _ = false |- _ => apply Nat.eqb_neq in H
  | H : ?P → _, E : ?P |- _ => lazymatch type of P with Prop => specialize (H E) end
  | H : ?b = ?b → _ |- _ => specialize (H eq_refl)
  | H : ?a < ?b → _ |- _ => specialize (H ltac:(lia))
  | H : ?x = true |- _ => is_var x; subst x
  | H : ?x = false |- _ => is_var x; subst x
  end.

(** The cursor is past where the construct began. *)
Ltac places := settle; lia.

Ltac step :=
  lazymatch goal with
  | |- wp (mbind _ _) _ _ => apply wp_bind
  | |- wp (mret _) _ _ => apply wp_ret; cbv beta
  | |- wp (continue _) _ _ => apply wp_ret; cbv beta iota
  | |- wp (break _) _ _ => apply wp_ret; cbv beta iota
  | |- wp (gets _) _ _ => apply wp_gets; cbv beta
  | |- wp (if ?b then _ else _) _ _ => let E := fresh "Eb" in destruct b eqn:E
  | |- match ?r with inl _ => _ | inr _ => _ end => is_var r; destruct r
  | |- wp (match ?x with _ => _ end) _ _ => let E := fresh "Em" in destruct x eqn:E
  | H : moves _ _ ?p |- wp (open _) _ ?p =>
      first [ eapply domain_wp_open; [exact H|reflexivity|reflexivity|]; clear H; intros ? H ? ? ? ?
            | let Hh := fresh "Hh" in
              eapply wp_open_any; [exact H|reflexivity|]; clear H; intros ? H ? ? Hh _;
              try specialize (Hh (or_introl eq_refl)) ]
  | H : moves _ _ ?p |- wp close _ ?p => eapply domain_wp_close; [exact H|]; clear H; intros ? H ? ? ? ?
  | H : moves _ _ ?p |- wp (push_diagnostic _ _) _ ?p =>
      eapply domain_wp_report; [exact H|]; clear H; intros ? H ? ? ? ? ?
  | H : moves _ _ ?p |- wp (syntax_error _) _ ?p =>
      eapply domain_wp_report; [exact H|]; clear H; intros ? H ? ? ? ? ?
  | H : moves _ _ ?p |- wp (looping _ _) _ ?p =>
      eapply (domain_wp_looping (λ _ p', (honest p → honest p') ∧ (covered p → covered p')));
        [exact H|by split|]; clear H; intros ? ? H ? [? ?]
  | H : moves _ _ ?p |- wp (budgeted _ _ _) _ ?p =>
      eapply (wp_budgeted (λ _ p', (honest p → honest p') ∧ (covered p → covered p')));
        [exact H|by split|clear H; intros ? ? H ? [? ?]|clear H; intros ? ? H ? [? ?] ? ?; simpl]
  | H : moves _ _ ?p |- wp (mark_gap_from _ _) _ ?p =>
      eapply wp_mark; [exact H|places|]; clear H; intros ? H ? ? ? ?
  | H : moves _ _ ?p |- wp _ _ ?p =>
      eapply domain_wp_method; [|exact H|deep|]; [solve [eauto with domain]|]; clear H; intros ? ? H ? ? ?; cbv beta in *
  end.

Ltac conclude :=
  first [ assumption | done | lia | congruence
        | apply honest_reported; assumption | apply covered_marked; assumption
        | lazymatch goal with |- after _ _ => split; [lia|lia|intros; settle; assumption|intros; settle; assumption] end ].

Ltac finish := intros; settle; split_and?; intros; settle; simpl in *; conclude.

Ltac steps :=
  repeat step; lazymatch goal with |- wp _ _ _ => idtac | _ => try solve [finish] end.

Ltac method_start :=
  let Hs := fresh "Hs" in let Hd := fresh "Hd" in let Hm := fresh "Hm" in
  intros p0 Hs Hd; pose proof (domain_moves_refl p0 Hs) as Hm.

(** * The contract of every method of the Domain parser

    Each method of [Domain] moves the parser as [DomainLaws.moves] says and keeps
    it honest; all keep it covered, unless they fail. *)

Section leaves.
Context {R : Type} `{TextRangeNew R} (n : nat).
Implicit Types p : Parser R.

Lemma domain_consume_trivia_method : method n true (consume_trivia (R:=R)) (λ _, settled).
Proof.
  method_start. unfold consume_trivia.
  eapply (wp_budgeted (λ _ p, (honest p0 → honest p) ∧ (covered p0 → covered p) ∧
    significant_index p = significant_index p0)); [exact Hm|by split_and!| |].
  - clear Hm. intros _ p Hm Ha (Hh & Hc & Hj). do 2 step. step.
    2:{ step. split; [exact Hm|]. split; [auto|].
        split_and!; [apply (mv_source _ _ _ Hm)|apply (mv_tokens _ _ _ Hm)|done|done|done]. }
    pose proof (domain_raw_kind_test _ _ Eb). pose proof (mv_tokens _ _ _ Hm) as Ht. do 6 step; step; [finish|].
    assert (p_index p' = S (p_index p)) as Hi by (settle; lia).
    assert (significant_index p' = significant_index p0) as Hj'.
    { rewrite <-Hj. pose proof (mv_tokens _ _ _ Hm) as Ht'.
      unfold significant_index. rewrite Hi, Ht', Ht. symmetry.
      unfold raw_kind in Eb. rewrite Ht in Eb. destruct (kind_at _ _) as [k|] eqn:Ek; [|done].
      by eapply next_significant_skip. }
    step. finish.
  - clear Hm. intros _ p Hm Ha (Hh & Hc & Hj) Hr _. split; [exact Hm|]. split; [auto|].
    split_and!; [apply (mv_source _ _ _ Hm)|apply (mv_tokens _ _ _ Hm)|done|by rewrite Hr|done].
Qed.
#[local] Hint Resolve domain_consume_trivia_method : domain.

(** After trivia the cursor is at the next significant token. *)
Lemma settled_kind p p' : settled p p' → raw_kind p' = significant_kind p.
Proof.
  intros (_ & Ht & Hs & Hn & _). unfold significant_kind. rewrite <-Hs, <-Ht.
  unfold significant_index, raw_kind in *. destruct (kind_at (p_tokens p') (p_index p')) as [k|] eqn:Ek.
  - simpl in Hn. unfold kind_at in Ek. destruct (p_tokens p' !! p_index p') as [[k' r]|] eqn:E; [|done].
    injection Ek as ->. rewrite (next_significant_here _ _ _ _ E Hn). simpl. unfold kind_at. by rewrite E.
  - destruct (next_significant_index_from _ _) as [i|] eqn:E; [|done].
    apply next_significant_bounds in E. apply kind_at_ge in Ek. lia.
Qed.

Lemma settled_at_kind kind p p' : settled p p' → raw_at kind p' = at_kind kind p.
Proof. intros Hs. unfold raw_at, at_kind. by rewrite (settled_kind _ _ Hs). Qed.

Lemma settled_at_keyword keyword p p' : settled p p' → at_keyword keyword p' = at_keyword keyword p.
Proof. intros (Hs & Ht & Hi & _). unfold at_keyword, text. by rewrite Hs, Ht, Hi. Qed.

Lemma domain_expect_method kind expected :
  method n true (expect (R:=R) kind expected) (λ b p p', gains b p p' ∧ when (at_kind kind) b p p').
Proof.
  method_start. unfold expect. do 2 step. pose proof (settled_at_kind kind _ _ ltac:(eassumption)) as Hat.
  steps.
Qed.

Lemma consume_if_raw_method kind :
  method n true (consume_if_raw (R:=R) kind) (λ _, plain ()).
Proof. method_start. unfold consume_if_raw. steps. Qed.
#[local] Hint Resolve consume_if_raw_method : domain.

Lemma domain_consume_if_method kind : method n true (consume_if (R:=R) kind) takes.
Proof. method_start. unfold consume_if. steps. Qed.

Lemma domain_consume_name_method expected :
  method n true (consume_name (R:=R) expected)
    (λ b p p', gains b p p' ∧ when at_name b p p').
Proof.
  method_start. unfold consume_name. do 2 step. pose proof (settled_kind _ _ ltac:(eassumption)) as Hat. unfold at_name.
  steps.
Qed.

Lemma expect_keyword_method keyword :
  method n true (expect_keyword (R:=R) keyword) (λ b p p', gains b p p' ∧ when (at_keyword keyword) b p p').
Proof.
  method_start. unfold expect_keyword. do 2 step. pose proof (settled_at_keyword keyword _ _ ltac:(eassumption)) as Hat.
  steps.
Qed.

Lemma domain_recover_until_method kinds : method n true (recover_until (R:=R) kinds) plain.
Proof. method_start. unfold recover_until. steps. Qed.
End leaves.
#[export] Hint Resolve domain_consume_trivia_method domain_expect_method consume_if_raw_method domain_consume_if_method
  domain_consume_name_method expect_keyword_method domain_recover_until_method : domain.

Section recovery.
Context {R : Type} `{TextRangeNew R} (n : nat).
Implicit Types p : Parser R.

Lemma consume_balanced_braces_method :
  method n true (consume_balanced_braces (R:=R))
    (λ b p p', gains b p p' ∧ (at_kind TokenKind.BRACE_OPEN p = true → p_index p < p_index p')).
Proof. method_start. unfold consume_balanced_braces. steps. Qed.

Lemma consume_double_angle_method :
  method n true (consume_double_angle (R:=R))
    (λ b p p', gains b p p' ∧ (at_kind TokenKind.LT p = true → p_index p < p_index p')).
Proof. method_start. unfold consume_double_angle. steps. Qed.

Lemma recover_declaration_header_method : method n false (recover_declaration_header (R:=R)) any.
Proof. method_start. unfold recover_declaration_header. steps. Qed.

Lemma recover_member_tail_method : method n false (recover_member_tail (R:=R)) any.
Proof. method_start. unfold recover_member_tail. steps. Qed.
#[local] Hint Resolve recover_member_tail_method : domain.

Lemma consume_member_terminator_method : method n true (consume_member_terminator (R:=R)) partly.
Proof. method_start. unfold consume_member_terminator. steps. Qed.
End recovery.
#[export] Hint Resolve consume_balanced_braces_method consume_double_angle_method
  recover_declaration_header_method recover_member_tail_method consume_member_terminator_method : domain.

Section names.
Context {R : Type} `{TextRangeNew R} (n : nat).
Implicit Types p : Parser R.

Lemma parse_domain_qualified_name_method expected :
  method n true (parse_domain_qualified_name (R:=R) expected) gains.
Proof.
  method_start. unfold parse_domain_qualified_name. do 7 step.
  eapply (domain_wp_looping (λ valid p, (honest p0 → honest p) ∧ (covered p0 → covered p) ∧
    (valid = false → p_diagnostics p ≠ []) ∧ (valid = true → p_index p0 < p_index p))); [exact Hm|finish|].
  clear Hm. intros valid p Hm ? (? & ? & ? & ?). steps.
Qed.

Lemma domain_consume_multiplicity_bound_method : method n true (consume_multiplicity_bound (R:=R)) plain.
Proof. method_start. unfold consume_multiplicity_bound. steps. Qed.
#[local] Hint Resolve domain_consume_multiplicity_bound_method : domain.

Lemma parse_domain_multiplicity_method : method n true (parse_domain_multiplicity (R:=R)) plain.
Proof. method_start. unfold parse_domain_multiplicity. steps. Qed.
End names.
#[export] Hint Resolve parse_domain_qualified_name_method parse_domain_multiplicity_method : domain.

(** ** Entering and leaving a depth *)

Section depth.
Context {R : Type} `{TextRangeNew R}.
Implicit Types p : Parser R.

Lemma domain_wp_enter n p (Q : bool → Parser R → Prop) :
  sound p → MAX_PARSE_DEPTH < p_depth p + S n →
  (∀ p', moves 0 p p' → after p p' → honest p' → (covered p → covered p') → Q false p') →
  (∀ p1, p1 = p <| p_depth := S (p_depth p) |> → sound p1 → MAX_PARSE_DEPTH < p_depth p1 + n → Q true p1) →
  wp enter_parse_depth Q p.
Proof.
  intros Hs Hd Hlimit HQ. unfold enter_parse_depth. apply wp_bind, wp_gets.
  destruct (Nat.leb_spec MAX_PARSE_DEPTH (p_depth p)) as [Hle|Hlt].
  - apply wp_bind. eapply (domain_wp_report 0 p); [by apply domain_moves_refl|]. intros. by apply wp_ret, Hlimit.
  - apply wp_bind, wp_update, wp_ret, HQ; [done| |simpl; lia].
    destruct Hs as [Hc Hi _ Hg]. split; [exact Hc|exact Hi|exact Hlt|exact Hg].
Qed.

Lemma domain_wp_leave d p p1 p2 (Q : unit → Parser R → Prop) :
  p1 = p <| p_depth := S (p_depth p) |> → sound p → moves d p1 p2 →
  (∀ p3, moves d p p3 → after p2 p3 → (honest p2 → honest p3) → (covered p2 → covered p3) → Q () p3) →
  wp leave_parse_depth Q p2.
Proof.
  intros -> Hs [Ht Hsr Hf Hd Hi Hst Hs2 He Hr Hg] HQ. unfold leave_parse_depth. apply wp_update, HQ; [|done..].
  split; try done.
  - simpl. by rewrite Hd.
  - destruct Hs2 as [Hc2 Hi2 _ Hg2]. split; [exact Hc2|exact Hi2| |exact Hg2]. simpl. rewrite Hd. apply Hs.
Qed.

Section types.
Context (n : nat) (type_reference : M (Parser R) bool).
Hypothesis type_reference_method : method n true type_reference plain.
#[local] Hint Resolve type_reference_method : domain.

Lemma type_argument_method valid : method n true (type_argument type_reference valid) goes_on.
Proof. method_start. unfold type_argument. steps. Qed.
#[local] Hint Resolve type_argument_method : domain.

Lemma domain_type_reference_step_method : method (S n) true (type_reference_step type_reference) plain.
Proof.
  method_start. unfold type_reference_step. step. eapply domain_wp_enter; [eassumption|eassumption| |].
  { intros. simpl. steps. }
  intros p1 E Hs1 Hd1. simpl. clear Hm. pose proof (domain_moves_refl p1 Hs1) as Hm.
  assert ((honest p0 → honest p1) ∧ (covered p0 → covered p1)) as [Hh Hc] by (subst; by split).
  repeat step;
    lazymatch goal with
    | |- wp _ _ _ => eapply domain_wp_leave; [eassumption..|]; intros; steps
    | _ => finish
    end.
Qed.
End types.
End depth.

(** The fuel is the depth left: a type reference never runs out of it. *)
Lemma domain_type_reference_at_method {R} `{TextRangeNew R} fuel : method fuel true (type_reference_at (R:=R) fuel) plain.
Proof.
  induction fuel as [|fuel IH].
  - intros p [_ _ Hd _] Hlt. lia.
  - simpl. by apply domain_type_reference_step_method.
Qed.

Lemma parse_domain_type_reference_method {R} `{TextRangeNew R} n :
  method n true (parse_domain_type_reference (R:=R)) plain.
Proof. intros p Hs _. apply domain_type_reference_at_method; [done|lia]. Qed.
#[export] Hint Resolve parse_domain_type_reference_method : domain.

(** * Annotations, opaque regions and members of the Domain parser

    The contract of the methods of [Domain] that open nodes the tree does not
    understand: each marks a coverage gap when it does. *)

Section regions.
Context {R : Type} `{TextRangeNew R} (n : nat).
Implicit Types p : Parser R.

Lemma error_token_method :
  method n false (error_token (R:=R)) (λ _, region).
Proof. method_start. unfold error_token. steps. Qed.

#[local] Hint Resolve error_token_method : domain.

Lemma parse_opaque_body_method : method n true (parse_opaque_body (R:=R)) plain.
Proof. method_start. unfold parse_opaque_body. steps. Qed.

Lemma parse_opaque_expression_method : method n true (parse_opaque_expression (R:=R)) plain.
Proof. method_start. unfold parse_opaque_expression. steps. Qed.

Lemma parse_opaque_member_method :
  method n true (parse_opaque_member (R:=R)) (λ _ p p', region p p' ∧ (covered p → covered p')).
Proof.
  method_start. unfold parse_opaque_member. do 5 step.
  eapply (domain_wp_looping (λ '(depths, consumed, _) p, (honest p0 → honest p) ∧
    (consumed = true → p_index p0 < p_index p) ∧ (consumed = false → p_index p0 = p_index p)));
    [exact Hm|settle; finish|].
  clear Hm. intros [[depths consumed] colon] p Hm ? (? & ? & ?). steps.
  apply orb_true_iff in Eb as [Eb|Eb]; finish.
Qed.

Lemma consume_top_level_construct_method kind :
  inner_kind kind = true → not_error_node kind = true →
  method n true (consume_top_level_construct (R:=R) kind)
    (λ _ p p', region p p' ∧ (recognised_kind kind = true → covered p → covered p')).
Proof.
  intros Hk Hn. method_start. unfold consume_top_level_construct. step.
  eapply wp_open_any; [exact Hm|done|]. clear Hm. intros p1 Hm Ha Hs1 Hh Hc. specialize (Hh (or_introl Hn)).
  step. eapply (domain_wp_looping (λ '(depths, consumed) p, (honest p0 → honest p) ∧
    (recognised_kind kind = true → covered p0 → covered p) ∧
    (consumed = true → p_index p0 < p_index p) ∧ (consumed = false → p_index p0 = p_index p)));
    [exact Hm|settle; finish|].
  clear Hm. intros [depths consumed] p Hm ? (? & ? & ? & ?). steps.
  apply orb_true_iff in Eb as [Eb|Eb]; finish.
Qed.

Lemma parse_opaque_top_level_method :
  method n true (parse_opaque_top_level (R:=R)) (λ _ p p', region p p' ∧ (covered p → covered p')).
Proof.
  pose proof (consume_top_level_construct_method SyntaxKind.DOMAIN_OPAQUE_NODE eq_refl eq_refl).
  method_start. unfold parse_opaque_top_level. steps.
Qed.

Lemma parse_ignored_top_level_method :
  method n true (parse_ignored_top_level (R:=R)) (λ _ p p', region p p' ∧ (covered p → covered p')).
Proof.
  intros p Hs Hd. eapply wp_mono.
  { by apply (consume_top_level_construct_method SyntaxKind.DOMAIN_IGNORED_TOP_LEVEL eq_refl eq_refl). }
  intros a p' (? & ? & ? & ?). auto.
Qed.

Lemma still_at_name p p' : still p p' → at_name p = true → at_name p' = true.
Proof. intros [_ Ht Hi]. unfold at_name, significant_kind, significant_index. by rewrite Ht, Hi. Qed.

Lemma name_then_name kind p : name_then kind p = true → at_name p = true.
Proof.
  unfold name_then, at_name, significant_kind. destruct (significant_index p) as [i|]; [|done]. simpl.
  by intros [? _]%andb_true_iff.
Qed.

Lemma still_at_kind kind p p' : still p p' → at_kind kind p' = at_kind kind p.
Proof. intros [_ Ht Hi]. unfold at_kind, significant_kind, significant_index. by rewrite Ht, Hi. Qed.

(** What an annotation consumes: a brace or an angle, at least. *)
Lemma annotation_method (braced : bool) :
  method n true (if braced then consume_balanced_braces else consume_double_angle (R:=R))
    (λ b p p', gains b p p' ∧
       (at_kind (if braced then TokenKind.BRACE_OPEN else TokenKind.LT) p = true → p_index p < p_index p')).
Proof. destruct braced; method_start; steps. Qed.

Lemma at_double_angle_lt p : at_double_angle_open p = true → at_kind TokenKind.LT p = true.
Proof. unfold at_double_angle_open. by destruct (at_kind TokenKind.LT p). Qed.

Lemma annotation_start p :
  at_kind TokenKind.BRACE_OPEN p || at_double_angle_open p = true →
  at_kind (if at_kind TokenKind.BRACE_OPEN p then TokenKind.BRACE_OPEN else TokenKind.LT) p = true.
Proof. destruct (at_kind TokenKind.BRACE_OPEN p) eqn:E; [done|]. apply at_double_angle_lt. Qed.

Lemma parse_stereotype_applications_method : method n true (parse_stereotype_applications (R:=R)) plain.
Proof.
  method_start. unfold parse_stereotype_applications. do 3 step; [|by steps].
  do 3 step; [by steps|]. do 6 step.
  apply negb_false_iff, andb_true_iff in Eb as [_ Hat%annotation_start].
  set (braced := at_kind TokenKind.BRACE_OPEN p1) in *. clearbody braced.
  generalize (if braced then braced_annotation_is_valid p1 else double_angle_stereotype_is_valid p1).
  intros valid. step. eapply wp_open_any; [exact Hm|by destruct valid|]. clear Hm. intros p2 Hm Ha Hst Hh Hc.
  erewrite <-still_at_kind in Hat by exact Hst.
  step. eapply domain_wp_method; [apply annotation_method|exact Hm|deep|]. clear Hm. intros closed p3 Hm ? ? [? Hlt].
  specialize (Hlt Hat). destruct valid, closed; simpl;
    try specialize (Hh (or_introl eq_refl)); try specialize (Hc eq_refl); steps.
Qed.
#[local] Hint Resolve parse_stereotype_applications_method : domain.

#[local] Hint Resolve parse_opaque_body_method parse_opaque_expression_method parse_opaque_member_method : domain.

(** ** Members *)

Lemma parse_property_method :
  method n true (parse_property (R:=R))
    (λ _ p p', (at_name p = true → p_index p < p_index p') ∧ (covered p → covered p')).
Proof.
  method_start. unfold parse_property. do 5 step.
  pose proof (still_at_name _ _ ltac:(eassumption)). steps.
Qed.
#[local] Hint Resolve parse_property_method : domain.

Lemma parameter_method valid : method n true (parameter (R:=R) valid) goes_on.
Proof. method_start. unfold parameter. steps. Qed.
#[local] Hint Resolve parameter_method : domain.

Lemma parse_parameter_list_method : method n true (parse_parameter_list (R:=R)) plain.
Proof. method_start. unfold parse_parameter_list. steps. Qed.
#[local] Hint Resolve parse_parameter_list_method : domain.

Lemma parse_qualified_property_method :
  method n true (parse_qualified_property (R:=R))
    (λ _ p p', (at_name p = true → p_index p < p_index p') ∧ (covered p → covered p')).
Proof.
  method_start. unfold parse_qualified_property. do 5 step.
  pose proof (still_at_name _ _ ltac:(eassumption)). steps.
Qed.
#[local] Hint Resolve parse_qualified_property_method : domain.

Lemma parse_member_method kind :
  method n true (parse_member (R:=R) kind) (λ _ p p', region p p' ∧ (covered p → covered p')).
Proof.
  method_start. unfold parse_member. do 7 step; [by steps|].
  do 3 step.
  - pose proof (name_then_name _ _ Eb0). steps.
  - do 3 step; [|by steps]. apply andb_true_iff in Eb1 as [_ Hq].
    pose proof (name_then_name _ _ Hq). steps.
Qed.
End regions.
#[export] Hint Resolve error_token_method parse_stereotype_applications_method parse_opaque_top_level_method
  parse_ignored_top_level_method parse_opaque_member_method parse_member_method : domain.

(** * Declarations and files of the Domain parser

    The contract of the methods of [Domain] that parse declarations, and of the
    parse of a whole file. *)

Section declarations.
Context {R : Type} `{TextRangeNew R} (n : nat).
Implicit Types p : Parser R.

Lemma still_at_keyword keyword p p' : still p p' → at_keyword keyword p = true → at_keyword keyword p' = true.
Proof. intros [Hs Ht Hi]. unfold at_keyword, significant_index, text. by rewrite Hs, Ht, Hi. Qed.

Lemma parse_declaration_body_method kind : method n true (parse_declaration_body (R:=R) kind) partly.
Proof. method_start. unfold parse_declaration_body. steps. Qed.
#[local] Hint Resolve parse_declaration_body_method : domain.

Lemma parse_extends_clause_method : method n true (parse_extends_clause (R:=R)) plain.
Proof. method_start. unfold parse_extends_clause. steps. Qed.
#[local] Hint Resolve parse_extends_clause_method : domain.

(** A declaration consumes its keyword. *)
Definition declares (keyword : string) p p' : Prop :=
  (at_keyword keyword p = true → p_index p < p_index p') ∧ (covered p → covered p').

Lemma parse_class_method : method n true (parse_class (R:=R)) (λ _, declares "Class").
Proof.
  method_start. unfold parse_class, declares. do 5 step.
  pose proof (still_at_keyword "Class" _ _ ltac:(eassumption)). steps.
Qed.

Lemma parse_association_method : method n true (parse_association (R:=R)) (λ _, declares "Association").
Proof.
  method_start. unfold parse_association, declares. do 5 step.
  pose proof (still_at_keyword "Association" _ _ ltac:(eassumption)). steps.
Qed.
#[local] Hint Resolve parse_class_method parse_association_method : domain.

(** ** Profiles *)

Lemma consume_profile_tag_list_method : method n true (consume_profile_tag_list (R:=R)) plain.
Proof. method_start. unfold consume_profile_tag_list. steps. Qed.
#[local] Hint Resolve consume_profile_tag_list_method : domain.

(** A list that is not valid may leave an error node uncovered. *)
Lemma stereotype_entry_method valid :
  method n true (stereotype_entry (R:=R) valid)
    (λ r p p', match r with
               | inl valid' => p_index p < p_index p' ∧ (covered p → covered p')
               | inr valid' => valid' = true → covered p → covered p'
               end).
Proof. method_start. unfold stereotype_entry. steps. Qed.
#[local] Hint Resolve stereotype_entry_method : domain.

Lemma parse_stereotype_list_method : method n true (parse_stereotype_list (R:=R)) partly.
Proof. method_start. unfold parse_stereotype_list. steps. Qed.
#[local] Hint Resolve parse_stereotype_list_method : domain.

Lemma parse_profile_section_method :
  method n true (parse_profile_section (R:=R)) (λ b p p', region p p' ∧ partly b p p').
Proof. method_start. unfold parse_profile_section. steps. Qed.
#[local] Hint Resolve parse_profile_section_method : domain.

Lemma parse_profile_body_method : method n true (parse_profile_body (R:=R)) partly.
Proof.
  method_start. unfold parse_profile_body. do 3 step; [by steps|].
  step. eapply (domain_wp_looping (λ valid p, (honest p0 → honest p) ∧ (valid = true → covered p0 → covered p)));
    [exact Hm|finish|].
  clear Hm. intros valid p Hm ? (? & ?). steps.
Qed.
#[local] Hint Resolve parse_profile_body_method : domain.

Lemma parse_profile_method : method n true (parse_profile (R:=R)) (λ _, declares "Profile").
Proof.
  method_start. unfold parse_profile, declares. do 5 step.
  pose proof (still_at_keyword "Profile" _ _ ltac:(eassumption)). steps.
Qed.
#[local] Hint Resolve parse_profile_method : domain.

(** ** Files *)

Lemma declaration_kind_keyword p :
  match declaration_kind p with
  | Some Class => at_keyword "Class" p = true
  | Some Association => at_keyword "Association" p = true
  | Some Profile => at_keyword "Profile" p = true
  | None => True
  end.
Proof.
  unfold declaration_kind. destruct (at_keyword "Class" p) eqn:?; [done|].
  destruct (at_keyword "Association" p) eqn:?; [done|]. by destruct (at_keyword "Profile" p) eqn:?.
Qed.

Lemma parse_declaration_method :
  method n true (parse_declaration (R:=R)) (λ _ p p', region p p' ∧ (covered p → covered p')).
Proof.
  method_start. unfold parse_declaration. do 2 step. pose proof (declaration_kind_keyword p0).
  destruct (declaration_kind p0) as [[]|]; steps; unfold declares in *; finish.
Qed.
#[local] Hint Resolve parse_declaration_method : domain.

(** The parser reads the whole file. *)
Lemma parse_file_method :
  method n true (parse_file (R:=R))
    (λ _ p p', length (p_tokens p') ≤ p_index p' ∧ (covered p → covered p')).
Proof. method_start. unfold parse_file. steps. Qed.
End declarations.

Section parse.
Context {R : Type} `{TextRangeNew R}.

(** A gap ends within the source. *)
Definition within (tokens : list (TokenKind * R)) (gap : DomainCoverageGap R) : Prop :=
  end_ (gap_span gap) ≤ tokens_end tokens.

(** The events of a whole file: those of a root around balanced events that
    consume every token, with the errors in source order and the gaps sorted. *)
Lemma domain_parse_spec source file (tokens : list (TokenKind * R)) :
  contiguous tokens →
  ∃ evs ds js gaps p', parse (new source file tokens) =
      Some ((Open SyntaxKind.ROOT :: evs ++ [Close], ds, sort_by_key gap_key gaps), p') ∧
    balance 0 evs = Some 0 ∧ opens inner_kind evs = true ∧ advances evs = length tokens ∧
    Forall2 (reports file tokens) ds js ∧ ordered 0 js (length tokens) ∧
    Forall (within tokens) gaps ∧
    (ds = [] → opens not_error_node evs = true ∧ recognised tokens 0 (length tokens)) ∧
    (gaps = [] → opens recognised_kind evs = true).
Proof.
  intros Hc. set (p1 := (new source file tokens) <| p_events := [Open SyntaxKind.ROOT] |>).
  assert (sound p1) as Hs by (split; simpl; [done|lia|lia|done]).
  assert (honest p1) as Hh by (intros _; split; [done|]; intros i ?; simpl in *; lia).
  assert (covered p1) as Hv by done.
  assert (wp (open SyntaxKind.DOMAIN_FILE;; parse_file;; close)
    (λ _ p', moves 0 p1 p' ∧ honest p' ∧ covered p' ∧ length (p_tokens p') ≤ p_index p') p1) as Hwp.
  { pose proof (domain_moves_refl p1 Hs) as Hm. pose proof (parse_file_method (R:=R) (S MAX_PARSE_DEPTH)).
    assert (MAX_PARSE_DEPTH < p_depth p1 + S MAX_PARSE_DEPTH) by (simpl; lia). steps. }
  destruct (wp_elim _ _ _ Hwp) as ([] & p2 & E & Hm & Hh2 & Hv2 & Hend).
  pose proof (so_index _ (mv_sound _ _ _ Hm)) as Hi. pose proof (so_gaps _ (mv_sound _ _ _ Hm)) as Hg.
  destruct (mv_events _ _ _ Hm) as (seg & He & Hb & Ho & Ha).
  destruct (mv_reports _ _ _ Hm) as (ds & js & Hds & Hr & Hj).
  rewrite (mv_tokens _ _ _ Hm) in *. simpl in Hend, Hi, Hg, He, Ha, Hds, Hr, Hj.
  assert (p_index p2 = length tokens) as Ei by lia. rewrite Ei in *.
  exists seg, ds, js, (p_gaps p2), (p2 <| p_events := p_events p2 ++ [Close] |>).
  unfold honest in Hh2. unfold covered in Hv2. rewrite He, Hds, Ei, (mv_tokens _ _ _ Hm) in *.
  split_and!; try done.
  unfold parse. unfold mbind, M_bind, open, close, emit, update_self in *. cbn [mbind option_bind] in *. fold p1.
  destruct (parse_file _) as [[[] p3]|]; [|done]. cbn [mbind option_bind] in *. injection E as <-.
  unfold gets, mret, M_ret. simpl in *. by rewrite He, Hds.
Qed.
End parse.
