(* ===== verification/DomainProps.v ===== *)
(** * Properties of the Domain parser

    [parse_domain] answers every text, with a tree of the whole text, the errors
    in source order and the regions it does not cover; a region it reports
    nothing for holds nothing it did not understand. *)

From Stdlib Require Import Sorted.
From S2P Require Import Prelude Utf8 BTree StableSort Codes FixPlan FixPlanProps Kinds Green Builder BuilderLaws Parsing Lexing SyntaxProps Domain DomainLaws.

(** A region begins before another, or with it and ends no later. *)
Definition gap_before {R} `{TextRangeModel R} (g g' : DomainCoverageGap R) : Prop :=
  start (gap_span g) < start (gap_span g') ∨
  start (gap_span g) = start (gap_span g') ∧ end_ (gap_span g) ≤ end_ (gap_span g').

Section props.
Context {R : Type} `{TextRangeNew R} `{Logos}.

Lemma gap_key_before (g g' : DomainCoverageGap R) : key_le gap_key g g' → gap_before g g'.
Proof.
  unfold key_le, gap_key, gap_before. rewrite key_cmp_pair. unfold key_cmp, nat_ord. simpl.
  destruct (Nat.compare_spec (start (gap_span g)) (start (gap_span g'))); [|by left|done].
  destruct (Nat.compare_spec (end_ (gap_span g)) (end_ (gap_span g'))); intros ?; (right; lia) || done.
Qed.

Lemma gaps_sorted (gaps : list (DomainCoverageGap R)) : StronglySorted gap_before (sort_by_key gap_key gaps).
Proof.
  induction (sort_by_key_sorted gap_key gaps) as [|g l Hs IH Hf]; constructor; [done|].
  eapply Forall_impl; [exact Hf|]. apply gap_key_before.
Qed.

(** What a parse of the tokens of a source is. *)
Lemma domain_tokens_spec source file (tokens : list (TokenKind * R)) :
  valid_tokens source tokens →
  ∃ g ds js gaps, parse_tokens source file tokens =
      Some (Ok {| green := g; parse_diagnostics := ds; coverage_gaps := gaps |}) ∧
    tree_of source tokens g ∧ Forall2 (reports file tokens) ds js ∧ ordered 0 js (length tokens) ∧
    StronglySorted gap_before gaps ∧ Forall (λ g, end_ (gap_span g) ≤ length source) gaps ∧
    (ds = [] → SyntaxKind.ERROR_NODE ∉ node_kinds g ∧ recognised tokens 0 (length tokens)) ∧
    (gaps = [] → SyntaxKind.ERROR_NODE ∉ node_kinds g ∧ SyntaxKind.DOMAIN_OPAQUE_NODE ∉ node_kinds g).
Proof.
  intros Hv. pose proof (valid_contiguous _ _ Hv) as [Hc He].
  destruct (domain_parse_spec source file tokens Hc) as (evs & ds & js & gaps & p & E & Hb & Ho & Ha & Hr & Hj & Hg & Hh & Hcov).
  destruct (built_tree source tokens evs Hv Hb Ho Ha) as (g & Ef & Htree & Hev).
  assert (∀ P, P SyntaxKind.ROOT = true → opens P evs = true → ∀ k, P k = false → k ∉ node_kinds g) as Hkinds.
  { intros P Hroot Hopen k Hk Hin. assert (opens P (tree_events g) = true) as Hall.
    { rewrite Hev. simpl. by rewrite Hroot, opens_app, Hopen. }
    rewrite opens_kinds, Forall_forall in Hall. specialize (Hall _ Hin). congruence. }
  exists g, ds, js, (sort_by_key gap_key gaps). unfold parse_tokens. rewrite E. cbn [mbind option_bind].
  fold (built source tokens (Open SyntaxKind.ROOT :: evs ++ [Close])). rewrite Ef. cbn [mbind option_bind].
  split_and!; try done.
  - apply gaps_sorted.
  - rewrite (sort_by_key_perm gap_key gaps). eapply Forall_impl; [exact Hg|]. unfold within, tokens_end. intros x Hx. lia.
  - intros Hds. destruct (Hh Hds) as [Hn Hrec]. split; [|done]. by apply (Hkinds not_error_node).
  - intros Hgaps. pose proof (sort_by_key_perm gap_key gaps) as Hp. rewrite Hgaps in Hp.
    symmetry in Hp. apply Permutation_nil_r in Hp. specialize (Hcov Hp).
    split; by apply (Hkinds recognised_kind).
Qed.

(** C11. Parsing a model file never panics nor runs on: a text that a [TextSize] can
    measure has a parse, whose tree is one of the whole text, whose diagnostics
    are errors at places of the text in their order, and whose coverage gaps are
    regions of the text in order; a longer text is refused. *)
Theorem parse_domain_lossless source file :
  utf8 source →
  if N.leb (N.of_nat (length source)) U32_MAX
  then ∃ parse, parse_domain (R:=R) source file = Some (Ok parse) ∧ lossless source (green parse) ∧
                in_source_order source file (parse_diagnostics parse) ∧
                StronglySorted gap_before (coverage_gaps parse) ∧
                Forall (λ gap, end_ (gap_span gap) ≤ length source) (coverage_gaps parse)
  else parse_domain (R:=R) source file = Some (Err (SourceTooLong (length source))).
Proof.
  intros Hu. destruct (lex_total (R:=R) source Hu) as (tokens & El & Ht). unfold parse_domain. rewrite El. cbn [mbind option_bind].
  destruct (N.leb_spec (N.of_nat (length source)) U32_MAX) as [Hle|Hlt].
  - destruct (lex_valid source tokens Hu Hle Ht) as [Hv _].
    destruct (domain_tokens_spec source file tokens Hv) as (g & ds & js & gaps & E & Hg & Hr & Hj & Hs & Hw & _).
    rewrite E. eexists. split; [done|]. simpl. split; [by eapply tree_lossless|].
    split; [by eapply reports_in_source_order|done].
  - destruct (domain_parse_spec source file tokens (lex_contiguous source tokens Hu Ht)) as (evs & ds & js & gaps & p & E & _).
    unfold parse_tokens. rewrite E. cbn [mbind option_bind].
    fold (built source tokens (Open SyntaxKind.ROOT :: evs ++ [Close])). by rewrite built_too_long.
Qed.

(** C13. A parse without coverage gaps understood everything: no construct was left
    opaque and none was skipped as an error; and one without diagnostics has no
    unrecognised byte and no error node. *)
Theorem parse_domain_covered source file parse :
  utf8 source → parse_domain (R:=R) source file = Some (Ok parse) →
  (coverage_gaps parse = [] →
     SyntaxKind.ERROR_NODE ∉ node_kinds (green parse) ∧
     SyntaxKind.DOMAIN_OPAQUE_NODE ∉ node_kinds (green parse)) ∧
  (parse_diagnostics parse = [] →
     all_recognised source ∧ SyntaxKind.ERROR_NODE ∉ node_kinds (green parse)).
Proof.
  intros Hu E. destruct (lex_total (R:=R) source Hu) as (tokens & El & Ht).
  unfold parse_domain in E. rewrite El in E. cbn [mbind option_bind] in E.
  destruct (N.leb_spec (N.of_nat (length source)) U32_MAX) as [Hle|Hlt].
  - destruct (lex_valid source tokens Hu Hle Ht) as [Hv _].
    destruct (domain_tokens_spec source file tokens Hv) as (g & ds & js & gaps & E' & Hg & Hr & Hj & Hs & Hw & Hd & Hc).
    rewrite E' in E. injection E as <-. simpl in *. split; [done|]. intros Hds. destruct (Hd Hds) as [Hn Hrec].
    split; [by eapply recognised_lexemes|done].
  - destruct (domain_parse_spec source file tokens (lex_contiguous source tokens Hu Ht)) as (evs & ds & js & gaps & p & E' & _).
    unfold parse_tokens in E. rewrite E' in E. cbn [mbind option_bind] in E.
    fold (built source tokens (Open SyntaxKind.ROOT :: evs ++ [Close])) in E. by rewrite built_too_long in E.
Qed.
End props.

Ltac ascii := repeat first [apply (utf8_cons [_]); [vm_compute; reflexivity|]|exact utf8_nil].

Definition broken_model : Text := FixPlanProps.text "Class a::B { x : C; } Enum e { f } Class D {}".

Definition sound_model : Text := FixPlanProps.text "Class a::B extends C { x : List<D>[0..1]; }".

Lemma broken_model_utf8 : utf8 broken_model.
Proof. unfold broken_model. simpl. ascii. Qed.

Lemma sound_model_utf8 : utf8 sound_model.
Proof. unfold sound_model. simpl. ascii. Qed.

Lemma broken_model_gaps :
  match parse_domain broken_model 0 with
  | Some (Ok parse) => Nat.eqb (length (coverage_gaps parse)) 2 | _ => true
  end = true.
Proof. vm_compute. reflexivity. Qed.

Lemma sound_model_clean :
  match parse_domain sound_model 0 with
  | Some (Ok parse) => bool_decide (coverage_gaps parse = []) && bool_decide (parse_diagnostics parse = [])
  | _ => false
  end = true.
Proof. vm_compute. reflexivity. Qed.

Lemma parse_domain_lossless_witness :
  utf8 broken_model ∧
  ∃ parse, parse_domain broken_model 0 = Some (Ok parse) ∧ lossless broken_model (green parse) ∧
    length (coverage_gaps parse) = 2.
Proof.
  split; [exact broken_model_utf8|].
  pose proof (parse_domain_lossless (R:=nat * nat) broken_model 0 broken_model_utf8) as Hp.
  pose proof broken_model_gaps as Hr.
  rewrite (eq_refl : N.leb (N.of_nat (length broken_model)) U32_MAX = true) in Hp.
  destruct Hp as (parse & E & Hl & Hs). rewrite E in Hr. apply Nat.eqb_eq in Hr.
  exists parse. split; [exact E|]. split; [exact Hl|exact Hr].
Defined.

Lemma parse_domain_covered_witness :
  utf8 sound_model ∧
  ∃ parse, parse_domain sound_model 0 = Some (Ok parse) ∧ coverage_gaps parse = [] ∧
    SyntaxKind.ERROR_NODE ∉ node_kinds (green parse) ∧
    SyntaxKind.DOMAIN_OPAQUE_NODE ∉ node_kinds (green parse).
Proof.
  split; [exact sound_model_utf8|]. pose proof sound_model_clean as Hc.
  destruct (parse_domain sound_model 0) as [[parse|e]|] eqn:E; [|discriminate..].
  apply andb_true_iff in Hc as [Hc _]. apply bool_decide_eq_true in Hc.
  exists parse. split; [reflexivity|]. split; [exact Hc|].
  apply (parse_domain_covered _ _ _ sound_model_utf8 E). exact Hc.
Defined.

(** How many diagnostics and gaps a parse has. *)
Definition tally (source : string) : option (nat * nat) :=
  match parse_domain (R:=nat * nat) (FixPlanProps.text source) 0 with
  | Some (Ok parse) => Some (length (parse_diagnostics parse), length (coverage_gaps parse))
  | _ => None
  end.

(** A missing comma between two type arguments is reported, but the property that
    has the type is taken as complete: no coverage gap is marked, whereas a
    missing comma between two parameters marks one. *)
Theorem type_argument_separator_uncovered :
  tally "Class a { x : L<B C>[1]; }" = Some (1, 0) ∧
  tally "Class a { x(y: B[1] z: C[1]) : D[1] {} }" = Some (1, 1).
Proof. vm_compute. repeat split. Qed.
