(* ===== verification/Trie.v ===== *)
(** * The name trie

    [schema/trie.rs]: the byte trie of the names a schema makes legal, and the
    walk that decides whether a token can still extend one of them.  The arena
    of nodes is a list indexed by node id; [self.nodes[i]] panics out of range,
    so the operations return an [option], and building a trie is shown never to
    reach a panic. *)

From Stdlib Require Import Sorting.Sorted.
From S2P Require Import Prelude PdaState Mask.

(** ** Data *)

Inductive NameClose := Free | MustFollow (b : byte).

#[global] Instance NameClose_eq_dec : EqDecision NameClose.
Proof. solve_decision. Defined.

(** [NameClose::admits]. *)
Definition close_admits (c : NameClose) (b : byte) : bool :=
  match c with Free => true | MustFollow required => (b =? required)%u8 end.

Inductive NameShape := Plain | ClassPath.

(** [NameShape::continues]. *)
Definition continues (s : NameShape) (b : byte) : bool :=
  is_ident_tail b || match s with ClassPath => (b =? ":")%u8 | Plain => false end.

(** [Node]: the edges are kept in byte order. *)
Record Node := {
  next : list (byte * N);
  terminal : bool;
  close : NameClose;
}.

Definition Node_default : Node := {| next := []; terminal := false; close := Free |}.

Abbreviation Trie := (list Node).

Inductive Walk :=
| Stay (node : N)
| Complete (at_ : N) (boundary : byte)
| Diverge.

(** [Trie::root]. *)
Definition root (t : Trie) : N := 0.

(** [binary_search_by_key] on edges in byte order: the position of the key, or
    the position that keeps the order. *)
Fixpoint search (edges : list (byte * N)) (b : byte) : nat + nat :=
  match edges with
  | [] => inr 0
  | (b', _) :: edges =>
      match N.compare (Byte.to_N b) (Byte.to_N b') with
      | Eq => inl 0
      | Lt => inr 0
      | Gt => match search edges b with inl i => inl (S i) | inr i => inr (S i) end
      end
  end.

Definition node_at (t : Trie) (node : N) : option Node := t !! N.to_nat node.

(** [Trie::child]; the outer [option] is the panic. *)
Definition child (t : Trie) (node : N) (b : byte) : option (option N) :=
  nd ← node_at t node;
  Some (match search (next nd) b with
        | inl i => snd <$> next nd !! i
        | inr _ => None
        end).

(** [Trie::is_terminal] and [close_at]. *)
Definition is_terminal (t : Trie) (node : N) : option bool := terminal <$> node_at t node.
Definition close_at (t : Trie) (node : N) : option NameClose := close <$> node_at t node.

(** [as u32]. *)
Definition as_u32 (n : nat) : N := N.of_nat n mod U32_MOD.

Lemma as_u32_id n : (N.of_nat n < U32_MOD)%N → as_u32 n = N.of_nat n.
Proof. intros. by apply N.mod_small. Qed.

(** The arm of [insert] that adds an edge: a new node at the end of the arena,
    and its edge at the sorted position. *)
Definition add_child (t : Trie) (node : N) (b : byte) : option (Trie * N) :=
  let new := as_u32 (length t) in
  let t := t ++ [Node_default] in
  nd ← node_at t node;
  let at_ := match search (next nd) b with inl i => i | inr i => i end in
  let nd := {| next := take at_ (next nd) ++ (b, new) :: drop at_ (next nd);
               terminal := terminal nd; close := close nd |} in
  Some (<[N.to_nat node := nd]> t, new).

(** [Trie::insert]: its loop over the bytes, then the mark on the last node. *)
Fixpoint insert_path (t : Trie) (node : N) (bytes : list byte) : option (Trie * N) :=
  match bytes with
  | [] => Some (t, node)
  | b :: bytes =>
      c ← child t node b;
      '(t, node) ← match c with
                   | Some c => Some (t, c)
                   | None => add_child t node b
                   end;
      insert_path t node bytes
  end.

Definition insert (t : Trie) (bytes : list byte) (c : NameClose) : option Trie :=
  '(t, node) ← insert_path t 0 bytes;
  nd ← node_at t node;
  Some (<[N.to_nat node := {| next := next nd; terminal := true; close := c |}]> t).

(** [Trie::from_closing_names] and [from_names]. *)
Fixpoint insert_all (t : Trie) (names : list (list byte * NameClose)) : option Trie :=
  match names with
  | [] => Some t
  | (name, c) :: names => t ← insert t name c; insert_all t names
  end.

Definition from_closing_names (names : list (list byte * NameClose)) : option Trie :=
  insert_all [Node_default] names.

Definition from_names (names : list (list byte)) : option Trie :=
  from_closing_names ((λ n, (n, Free)) <$> names).

(** [walk]. *)
Fixpoint walk (t : Trie) (node : N) (bytes : list byte) (shape : NameShape) : option Walk :=
  match bytes with
  | [] => Some (Stay node)
  | b :: bytes =>
      c ← child t node b;
      match c with
      | Some c => walk t c bytes shape
      | None =>
          term ← is_terminal t node;
          Some (if term && negb (continues shape b) then Complete node b else Diverge)
      end
  end.

(** ** Edges *)

Definition edges_sorted (edges : list (byte * N)) : Prop :=
  StronglySorted (λ x y, (Byte.to_N x.1 < Byte.to_N y.1)%N) edges.

(** The edge of a byte, whatever the order. *)
Definition edge (edges : list (byte * N)) (b : byte) : option N :=
  match search edges b with inl i => snd <$> edges !! i | inr _ => None end.

Lemma to_N_inj a b : Byte.to_N a = Byte.to_N b → a = b.
Proof. intros H. apply (f_equal Byte.of_N) in H. rewrite !Byte.of_to_N in H. by injection H. Qed.

Lemma edge_cons b' n edges b :
  edge ((b', n) :: edges) b =
    match N.compare (Byte.to_N b) (Byte.to_N b') with
    | Eq => Some n | Lt => None | Gt => edge edges b
    end.
Proof. unfold edge. simpl. destruct (N.compare _ _); [done|done|]. by destruct (search edges b). Qed.

Lemma edge_below edges b :
  Forall (λ x, (Byte.to_N b < Byte.to_N x.1)%N) edges → edge edges b = None.
Proof.
  destruct edges as [|[b' n] edges]; [done|]. rewrite edge_cons. intros [Hlt _]%Forall_cons.
  simpl in Hlt. by apply N.compare_lt_iff in Hlt as ->.
Qed.

(** Adding an absent edge keeps the order and changes that edge only. *)
Lemma add_edge edges b n :
  edges_sorted edges → edge edges b = None →
  let at_ := match search edges b with inl i => i | inr i => i end in
  let edges' := take at_ edges ++ (b, n) :: drop at_ edges in
  edges_sorted edges' ∧ (∀ c, edge edges' c = if decide (c = b) then Some n else edge edges c) ∧
  ∀ x, x ∈ edges' ↔ x = (b, n) ∨ x ∈ edges.
Proof.
  induction 1 as [|[b' n'] edges Hs IH Hf]; intros Hnone; cbv zeta; simpl.
  { split_and!; [repeat constructor| |by intros x; rewrite elem_of_cons]. intros c. rewrite edge_cons.
    destruct (decide (c = b)) as [->|Hne]; [by rewrite N.compare_refl|].
    destruct (N.compare_spec (Byte.to_N c) (Byte.to_N b)) as [Heq|?|?]; [|done|done].
    by apply to_N_inj in Heq. }
  rewrite edge_cons in Hnone.
  destruct (N.compare_spec (Byte.to_N b) (Byte.to_N b')) as [Heq|Hlt|Hgt]; [done| |]; simpl.
  - split_and!; [| |by intros x; rewrite !elem_of_cons].
    + constructor; [by constructor|]. constructor; [done|].
      eapply Forall_impl; [exact Hf|]. simpl. lia.
    + intros c. rewrite !edge_cons. destruct (decide (c = b)) as [->|Hne].
      { by rewrite N.compare_refl. }
      destruct (N.compare_spec (Byte.to_N c) (Byte.to_N b)) as [Heq|?|?]; [by apply to_N_inj in Heq| |done].
      by rewrite (proj2 (N.compare_lt_iff _ _)) by lia.
  - destruct (IH Hnone) as (IHs & IHe & IHin). destruct (search edges b) as [i|i]; simpl in *.
    all: split_and!; [| |intros x; rewrite !elem_of_cons, IHin; tauto].
    all: try (constructor; [done|]; apply Forall_forall; intros x [->|Hx]%IHin; [done|];
      rewrite Forall_forall in Hf; by apply Hf).
    all: intros c; rewrite !edge_cons, IHe; destruct (decide (c = b)) as [->|Hne]; [|done];
      by rewrite (proj2 (N.compare_gt_iff _ _)).
Qed.

(** ** The tree in the arena *)

(** The node a path leads to. *)
Fixpoint follow (t : Trie) (node : N) (p : list byte) : option N :=
  match p with
  | [] => Some node
  | b :: p => nd ← node_at t node; c ← edge (next nd) b; follow t c p
  end.

(** What is known at the end of a path from the root: whether a name ends
    there, and how it closes. *)
Definition data (nd : Node) : bool * NameClose := (terminal nd, close nd).
Definition shape_at (t : Trie) (p : list byte) : option (bool * NameClose) :=
  n ← follow t 0 p; data <$> node_at t n.

Record trie_wf (t : Trie) : Prop := {
  wf_nonempty : 0 < length t;
  wf_sorted : Forall (λ nd, edges_sorted (next nd)) t;
  wf_range : ∀ i nd x, t !! i = Some nd → x ∈ next nd → N.to_nat x.2 < length t;
  wf_tree : ∀ p q n, follow t 0 p = Some n → follow t 0 q = Some n → p = q;
}.

Lemma follow_app t n p q : follow t n (p ++ q) = (m ← follow t n p; follow t m q).
Proof.
  revert n. induction p as [|b p IH]; intros n; simpl; [done|].
  destruct (node_at t n) as [nd|]; simpl; [|done]. destruct (edge (next nd) b); simpl; [apply IH|done].
Qed.

Lemma follow_snoc t n p b :
  follow t n (p ++ [b]) = (m ← follow t n p; nd ← node_at t m; edge (next nd) b).
Proof.
  rewrite follow_app. destruct (follow t n p) as [m|]; simpl; [|done].
  destruct (node_at t m) as [nd|]; simpl; [|done]. by destruct (edge (next nd) b).
Qed.

Lemma edge_elem edges b c : edge edges b = Some c → ∃ b', (b', c) ∈ edges.
Proof.
  unfold edge. destruct (search edges b) as [i|]; [|done].
  intros ([b' c'] & Hi & ->)%fmap_Some. exists b'. by eapply list_elem_of_lookup_2.
Qed.

Lemma follow_in_range t n p m :
  trie_wf t → N.to_nat n < length t → follow t n p = Some m → N.to_nat m < length t.
Proof.
  intros Hwf. revert n. induction p as [|b p IH]; intros n Hn; simpl; [by intros [= <-]|].
  destruct (node_at t n) as [nd|] eqn:E; simpl; [|done].
  destruct (edge (next nd) b) as [c|] eqn:Ec; simpl; [|done]. apply IH.
  apply edge_elem in Ec as [b' Hin]. by apply (wf_range _ Hwf _ _ _ E Hin).
Qed.

Lemma node_in_range t n : N.to_nat n < length t → ∃ nd, node_at t n = Some nd.
Proof. apply lookup_lt_is_Some_2. Qed.

Lemma follow_node t p n :
  trie_wf t → follow t 0 p = Some n → ∃ nd, node_at t n = Some nd ∧ shape_at t p = Some (data nd).
Proof.
  intros Hwf Hp. pose proof (wf_nonempty _ Hwf).
  destruct (node_in_range t n) as [nd Hnd].
  { apply (follow_in_range t 0 p n Hwf); [simpl; lia|done]. }
  exists nd. split; [done|]. unfold shape_at. by rewrite Hp; simpl; rewrite Hnd.
Qed.

Lemma shape_is_Some t p : trie_wf t → is_Some (shape_at t p) ↔ is_Some (follow t 0 p).
Proof.
  intros Hwf. split.
  - unfold shape_at. destruct (follow t 0 p); [done|]. by intros [? ?].
  - intros [n Hn]. destruct (follow_node t p n Hwf Hn) as (nd & _ & ->). done.
Qed.

Lemma follow_prefix t p q : is_Some (follow t 0 (p ++ q)) → is_Some (follow t 0 p).
Proof. rewrite follow_app. destruct (follow t 0 p); [done|]. by intros [? ?]. Qed.

Lemma child_edge t n b nd : node_at t n = Some nd → child t n b = Some (edge (next nd) b).
Proof. intros Hn. unfold child. by rewrite Hn. Qed.

(** *** Adding an edge *)

Section add_child.
Context (t : Trie) (p : list byte) (n : N) (b : byte) (nd : Node).
Hypothesis Hwf : trie_wf t.
Hypothesis Hp : follow t 0 p = Some n.
Hypothesis Hnd : node_at t n = Some nd.
Hypothesis Hnone : edge (next nd) b = None.
Hypothesis Hsize : (N.of_nat (length t) < U32_MOD)%N.

Let new := N.of_nat (length t).
Let at_ := match search (next nd) b with inl i => i | inr i => i end.
Let nd' := {| next := take at_ (next nd) ++ (b, new) :: drop at_ (next nd);
              terminal := terminal nd; close := close nd |}.
Let t' := <[N.to_nat n := nd']> (t ++ [Node_default]).

Lemma add_child_eq : add_child t n b = Some (t', new).
Proof.
  unfold add_child. assert (as_u32 (length t) = new) as -> by (by apply N.mod_small).
  unfold node_at in *. rewrite lookup_app_l by (by eapply lookup_lt_Some). by rewrite Hnd.
Qed.

Lemma add_child_length : length t' = S (length t).
Proof. clear Hsize. unfold t'. rewrite length_insert, length_app. simpl. lia. Qed.

Lemma add_child_nodes m nd0 :
  node_at t' m = Some nd0 ↔
    (m = n ∧ nd0 = nd') ∨ (m ≠ n ∧ node_at t m = Some nd0) ∨ (m = new ∧ nd0 = Node_default).
Proof.
  clear Hsize.
  unfold node_at, t', new in *. pose proof (lookup_lt_Some _ _ _ Hnd) as Hlt.
  destruct (decide (m = n)) as [->|Hne].
  - rewrite list_lookup_insert_eq by (rewrite length_app; simpl; lia).
    split; [intros [= <-]; by left|]. intros [[_ ->]|[[? _]|[-> _]]]; [done..|]. lia.
  - rewrite list_lookup_insert_ne by lia. destruct (decide (N.to_nat m < length t)) as [Hm|Hm].
    + rewrite lookup_app_l by done. split; [by auto|].
      intros [[? _]|[[_ ?]|[-> _]]]; [done..|]. lia.
    + rewrite lookup_app_r by lia. rewrite list_lookup_singleton_Some.
      split; [intros [? <-]; right; right; split; [lia|done]|].
      intros [[? _]|[[_ Hl]|[-> ->]]]; [done| |split; [lia|done]].
      apply lookup_lt_Some in Hl. lia.
Qed.

(** Only the new path leads to the new node. *)
Lemma add_child_follow q :
  follow t' 0 q = if decide (q = p ++ [b]) then Some new else follow t 0 q.
Proof.
  clear Hsize.
  pose proof (wf_nonempty _ Hwf) as H0.
  assert (follow t 0 (p ++ [b]) = None) as Hfresh by (rewrite follow_snoc, Hp; simpl; by rewrite Hnd).
  destruct (add_edge (next nd) b new) as (_ & Hedge & _); [|done|].
  { pose proof (wf_sorted _ Hwf) as Hs. by eapply Forall_lookup_1 in Hs. }
  assert (node_at t' new = Some Node_default) as Hnew by (apply add_child_nodes; auto).
  induction q as [|c q IH] using rev_ind.
  { simpl. rewrite decide_False; [done|]. by destruct p. }
  rewrite !follow_snoc, IH. destruct (decide (q = p ++ [b])) as [->|Hq].
  - simpl. rewrite Hnew, Hfresh. simpl. rewrite decide_False; [done|].
    intros Heq%(f_equal length). rewrite !length_app in Heq. simpl in Heq. lia.
  - destruct (follow t 0 q) as [m|] eqn:Em; simpl.
    2: { rewrite decide_False; [done|]. intros [-> ->]%app_inj_tail. congruence. }
    assert (N.to_nat m < length t) as Hm by (apply (follow_in_range t 0 q m Hwf); [simpl; lia|done]).
    destruct (decide (m = n)) as [->|Hmn].
    + assert (q = p) as -> by (by apply (wf_tree _ Hwf q p n)).
      assert (node_at t' n = Some nd') as -> by (apply add_child_nodes; auto).
      rewrite Hnd. simpl. fold at_. rewrite Hedge. destruct (decide (c = b)) as [->|Hcb].
      * by rewrite decide_True.
      * rewrite decide_False; [done|]. by intros [_ ?]%app_inj_tail.
    + destruct (node_in_range t m Hm) as [ndm Hndm].
      assert (node_at t' m = Some ndm) as -> by (apply add_child_nodes; auto).
      rewrite Hndm. simpl. rewrite decide_False; [done|]. intros [-> _]%app_inj_tail. congruence.
Qed.

Lemma add_child_wf : trie_wf t'.
Proof.
  clear Hsize.
  pose proof (wf_nonempty _ Hwf) as H0.
  destruct (add_edge (next nd) b new) as (Hsort & _ & Hin); [|done|].
  { pose proof (wf_sorted _ Hwf) as Hs. by eapply Forall_lookup_1 in Hs. }
  split.
  - rewrite add_child_length. lia.
  - apply Forall_lookup. intros i nd0 Hi. rewrite <-(Nat2N.id i) in Hi. fold (node_at t' (N.of_nat i)) in Hi.
    apply add_child_nodes in Hi as [[_ ->]|[[_ Hi]|[_ ->]]]; [done| |constructor].
    pose proof (wf_sorted _ Hwf) as Hs. by eapply Forall_lookup_1 in Hs.
  - intros i nd0 x Hi Hx. rewrite add_child_length.
    rewrite <-(Nat2N.id i) in Hi. fold (node_at t' (N.of_nat i)) in Hi.
    apply add_child_nodes in Hi as [[_ ->]|[[_ Hi]|[_ ->]]].
    + apply Hin in Hx as [->|Hx]; [simpl; unfold new; lia|].
      pose proof (wf_range _ Hwf _ _ _ Hnd Hx). lia.
    + pose proof (wf_range _ Hwf _ _ _ Hi Hx). lia.
    + by apply not_elem_of_nil in Hx.
  - intros q1 q2 m. rewrite !add_child_follow.
    assert (∀ q, follow t 0 q = Some new → False) as Hfresh.
    { intros q Hq. apply (follow_in_range t 0 q new Hwf) in Hq; [unfold new in Hq; lia|simpl; lia]. }
    destruct (decide (q1 = p ++ [b])) as [->|], (decide (q2 = p ++ [b])) as [->|]; [done| | |].
    + intros [= <-] Hq. by apply Hfresh in Hq.
    + intros Hq [= <-]. by apply Hfresh in Hq.
    + apply (wf_tree _ Hwf).
Qed.

Lemma add_child_shape q :
  shape_at t' q = if decide (q = p ++ [b]) then Some (false, Free) else shape_at t q.
Proof.
  clear Hsize.
  pose proof (wf_nonempty _ Hwf) as H0.
  unfold shape_at. rewrite add_child_follow. destruct (decide (q = p ++ [b])) as [_|_]; simpl.
  - assert (node_at t' new = Some Node_default) as -> by (apply add_child_nodes; auto). done.
  - destruct (follow t 0 q) as [m|] eqn:Em; simpl; [|done].
    assert (N.to_nat m < length t) as Hm by (apply (follow_in_range t 0 q m Hwf); [simpl; lia|done]).
    destruct (decide (m = n)) as [->|Hmn].
    + assert (node_at t' n = Some nd') as -> by (apply add_child_nodes; auto). by rewrite Hnd.
    + destruct (node_in_range t m Hm) as [ndm Hndm].
      assert (node_at t' m = Some ndm) as -> by (apply add_child_nodes; auto). by rewrite Hndm.
Qed.
End add_child.

(** ** Insertion *)

Lemma insert_path_spec t p n bytes :
  trie_wf t → follow t 0 p = Some n → (N.of_nat (length t + length bytes) ≤ U32_MOD)%N →
  ∃ t' n', insert_path t n bytes = Some (t', n') ∧ trie_wf t' ∧
    length t' ≤ length t + length bytes ∧ follow t' 0 (p ++ bytes) = Some n' ∧
    ∀ q, shape_at t' q = match shape_at t q with
                         | Some d => Some d
                         | None => if decide (q `prefix_of` p ++ bytes) then Some (false, Free) else None
                         end.
Proof.
  revert t p n. induction bytes as [|b bytes IH]; intros t p n Hwf Hp Hsize; simpl.
  { exists t, n. rewrite app_nil_r. split_and!; [done|done|lia|done|]. intros q.
    destruct (shape_at t q) eqn:Eq; [done|]. rewrite decide_False; [done|]. intros [r ->].
    assert (is_Some (shape_at t q)) as [? ?]; [|congruence].
    apply shape_is_Some; [done|]. by apply (follow_prefix _ _ r). }
  simpl in Hsize.
  destruct (follow_node t p n Hwf Hp) as (nd & Hnd & _). rewrite (child_edge _ _ _ _ Hnd). simpl.
  replace (p ++ b :: bytes) with ((p ++ [b]) ++ bytes) by by rewrite <-(assoc_L (++)).
  destruct (edge (next nd) b) as [c|] eqn:Ec; simpl.
  - destruct (IH t (p ++ [b]) c) as (t' & n' & Hi & Hwf' & Hlen & Hf & Hs); [done| |lia|].
    { rewrite follow_snoc, Hp. simpl. by rewrite Hnd. }
    exists t', n'. split_and!; [done|done|lia|done|done].
  - assert ((N.of_nat (length t) < U32_MOD)%N) as Hlt by lia.
    rewrite (add_child_eq t n b nd Hnd Hlt). simpl.
    pose proof (add_child_wf t p n b nd Hwf Hp Hnd Ec) as Hwf1.
    pose proof (add_child_follow t p n b nd Hwf Hp Hnd Ec (p ++ [b])) as Hf1.
    pose proof (add_child_shape t p n b nd Hwf Hp Hnd Ec) as Hs1.
    pose proof (add_child_length t n b nd) as Hl1.
    rewrite decide_True in Hf1 by done.
    edestruct IH as (t' & n' & Hi & Hwf' & Hlen & Hf & Hs); [exact Hwf1|exact Hf1|rewrite Hl1; lia|].
    rewrite Hi. exists t', n'. split_and!; [done|done|rewrite Hl1 in Hlen; lia|done|].
    intros q. rewrite Hs, Hs1. destruct (decide (q = p ++ [b])) as [->|]; [|done].
    assert (shape_at t (p ++ [b]) = None) as ->.
    { unfold shape_at. rewrite follow_snoc, Hp. simpl. rewrite Hnd. simpl. by rewrite Ec. }
    rewrite decide_True; [done|]. by exists bytes.
Qed.

(** Marking the node at the end of a path. *)
Lemma mark_spec t p n nd c :
  trie_wf t → follow t 0 p = Some n → node_at t n = Some nd →
  let t' := <[N.to_nat n := {| next := next nd; terminal := true; close := c |}]> t in
  trie_wf t' ∧ ∀ q, shape_at t' q = if decide (q = p) then Some (true, c) else shape_at t q.
Proof.
  intros Hwf Hp Hnd t'. pose proof (lookup_lt_Some _ _ _ Hnd) as Hlt.
  assert (∀ m, node_at t' m = if decide (m = n) then Some {| next := next nd; terminal := true; close := c |}
    else node_at t m) as Hnodes.
  { intros m. unfold node_at, t'. destruct (decide (m = n)) as [->|]; [by apply list_lookup_insert_eq|].
    apply list_lookup_insert_ne. lia. }
  assert (∀ q m, follow t' m q = follow t m q) as Hfollow.
  { induction q as [|b q IH]; intros m; simpl; [done|]. rewrite Hnodes.
    destruct (decide (m = n)) as [->|]; simpl; [rewrite Hnd; simpl|].
    - destruct (edge (next nd) b); simpl; [apply IH|done].
    - destruct (node_at t m) as [ndm|]; simpl; [|done]. destruct (edge (next ndm) b); simpl; [apply IH|done]. }
  assert (∀ i nd0, t' !! i = Some nd0 → ∃ nd1, t !! i = Some nd1 ∧ next nd0 = next nd1) as Hnext.
  { intros i nd0 Hi. specialize (Hnodes (N.of_nat i)). unfold node_at in Hnodes.
    rewrite Nat2N.id in Hnodes. rewrite Hnodes in Hi. destruct (decide (N.of_nat i = n)) as [<-|]; [|by eauto].
    injection Hi as <-. unfold node_at in Hnd. rewrite Nat2N.id in Hnd. eauto. }
  split; [split|].
  - unfold t'. rewrite length_insert. apply (wf_nonempty _ Hwf).
  - apply Forall_lookup. intros i nd0 (nd1 & Hi & ->)%Hnext.
    pose proof (wf_sorted _ Hwf) as Hs. by eapply Forall_lookup_1 in Hs.
  - intros i nd0 x (nd1 & Hi & ->)%Hnext Hx. unfold t'. rewrite length_insert.
    by apply (wf_range _ Hwf _ _ _ Hi).
  - intros q1 q2 m. rewrite !Hfollow. apply (wf_tree _ Hwf).
  - intros q. unfold shape_at. rewrite Hfollow. destruct (decide (q = p)) as [->|Hq].
    + rewrite Hp. simpl. rewrite Hnodes, decide_True by done. done.
    + destruct (follow t 0 q) as [m|] eqn:Em; simpl; [|done]. rewrite Hnodes.
      rewrite decide_False; [done|]. intros ->. apply Hq. by apply (wf_tree _ Hwf q p n).
Qed.

Lemma insert_spec t bytes c :
  trie_wf t → (N.of_nat (length t + length bytes) ≤ U32_MOD)%N →
  ∃ t', insert t bytes c = Some t' ∧ trie_wf t' ∧ length t' ≤ length t + length bytes ∧
    ∀ q, shape_at t' q =
      if decide (q = bytes) then Some (true, c)
      else match shape_at t q with
           | Some d => Some d
           | None => if decide (q `prefix_of` bytes) then Some (false, Free) else None
           end.
Proof.
  intros Hwf Hsize. unfold insert.
  destruct (insert_path_spec t [] 0 bytes Hwf eq_refl Hsize) as (t1 & n & -> & Hwf1 & Hl1 & Hf & Hs).
  simpl in *. destruct (follow_node t1 bytes n Hwf1 Hf) as (nd & Hnd & _). rewrite Hnd. simpl.
  destruct (mark_spec t1 bytes n nd c Hwf1 Hf Hnd) as [Hwf2 Hs2]. eexists. split; [done|].
  split_and!; [done|by rewrite length_insert|]. intros q. rewrite Hs2.
  destruct (decide (q = bytes)); [done|apply Hs].
Qed.

(** ** Names *)

(** How the last name equal to [q] closes. *)
Definition name_close (names : list (list byte * NameClose)) (q : list byte) : option NameClose :=
  foldl (λ acc x, if decide (x.1 = q) then Some x.2 else acc) None names.

(** [q] is the beginning of a name. *)
Definition live (names : list (list byte * NameClose)) (q : list byte) : Prop :=
  q = [] ∨ Exists (λ x, q `prefix_of` x.1) names.

#[global] Instance live_dec names q : Decision (live names q).
Proof. unfold live. apply _. Defined.

Definition names_shape (names : list (list byte * NameClose)) (q : list byte) : option (bool * NameClose) :=
  match name_close names q with
  | Some c => Some (true, c)
  | None => if decide (live names q) then Some (false, Free) else None
  end.

(** The bytes of the names and the root fit the node ids. *)
Definition names_fit (names : list (list byte * NameClose)) : Prop :=
  (N.of_nat (S (sum_list (length <$> names.*1))) ≤ U32_MOD)%N.

Lemma name_close_snoc names x q :
  name_close (names ++ [x]) q = if decide (x.1 = q) then Some x.2 else name_close names q.
Proof. unfold name_close. by rewrite foldl_app. Qed.

Lemma live_snoc names x q : live (names ++ [x]) q ↔ live names q ∨ q `prefix_of` x.1.
Proof. unfold live. rewrite Exists_app, Exists_cons, Exists_nil. tauto. Qed.

Lemma name_close_live names q c : name_close names q = Some c → live names q.
Proof.
  induction names as [|x names IH] using rev_ind; [done|]. rewrite name_close_snoc, live_snoc.
  destruct (decide (x.1 = q)) as [->|]; [by right|]. auto.
Qed.

Lemma names_shape_snoc names name c q :
  names_shape (names ++ [(name, c)]) q =
    if decide (q = name) then Some (true, c)
    else match names_shape names q with
         | Some d => Some d
         | None => if decide (q `prefix_of` name) then Some (false, Free) else None
         end.
Proof.
  unfold names_shape. rewrite name_close_snoc. simpl.
  destruct (decide (q = name)) as [->|Hne]; [by rewrite decide_True|].
  rewrite decide_False by done. destruct (name_close names q); [done|].
  destruct (decide (live names q)) as [Hl|Hl].
  - rewrite decide_True; [done|]. apply live_snoc. by left.
  - destruct (decide (q `prefix_of` name)) as [Hpre|Hpre].
    + rewrite decide_True; [done|]. apply live_snoc. by right.
    + rewrite decide_False; [done|]. rewrite live_snoc. tauto.
Qed.

Lemma insert_all_spec t done_ names :
  trie_wf t → (∀ q, shape_at t q = names_shape done_ q) →
  (N.of_nat (length t + sum_list (length <$> names.*1)) ≤ U32_MOD)%N →
  ∃ t', insert_all t names = Some t' ∧ trie_wf t' ∧ ∀ q, shape_at t' q = names_shape (done_ ++ names) q.
Proof.
  revert t done_. induction names as [|[name c] names IH]; intros t done_ Hwf Hs Hsize; simpl.
  { exists t. by rewrite app_nil_r. }
  change (sum_list (length <$> ((name, c) :: names).*1))
    with (length name + sum_list (length <$> names.*1)) in Hsize.
  destruct (insert_spec t name c Hwf) as (t1 & -> & Hwf1 & Hl1 & Hs1); [lia|]. simpl.
  replace (done_ ++ (name, c) :: names) with ((done_ ++ [(name, c)]) ++ names) by by rewrite <-(assoc_L (++)).
  apply IH; [done| |lia]. intros q. by rewrite Hs1, Hs, names_shape_snoc.
Qed.

Lemma empty_trie_ok : trie_wf [Node_default] ∧ ∀ q, shape_at [Node_default] q = names_shape [] q.
Proof.
  assert (∀ b q, follow [Node_default] 0 (b :: q) = None) as Hnone by done.
  split; [split|].
  - simpl. lia.
  - repeat constructor.
  - intros [|i] nd x; [|done]. intros [= <-] Hx. by apply not_elem_of_nil in Hx.
  - intros [|b p] [|c q] n; [done|..]; rewrite ?Hnone; done.
  - intros [|b q]; [done|]. unfold shape_at. rewrite Hnone. unfold names_shape, name_close.
    destruct (decide (live [] (b :: q))) as [[?|?%Exists_nil]|]; done.
Qed.

Lemma trie_built names :
  names_fit names →
  ∃ t, from_closing_names names = Some t ∧ trie_wf t ∧ ∀ q, shape_at t q = names_shape names q.
Proof.
  intros Hfit. destruct empty_trie_ok as [Hwf Hs].
  destruct (insert_all_spec [Node_default] [] names Hwf Hs Hfit) as (t & Ht & Hwf' & Hs'). eauto.
Qed.

(** ** Walking *)

Lemma walk_follow t p node bytes shape :
  trie_wf t → follow t 0 p = Some node →
  ∃ w, walk t node bytes shape = Some w ∧
    match w with
    | Stay n => follow t 0 (p ++ bytes) = Some n
    | Complete at_ b => ∃ pre rest, bytes = pre ++ b :: rest ∧ follow t 0 (p ++ pre) = Some at_ ∧
        is_terminal t at_ = Some true ∧ follow t 0 (p ++ pre ++ [b]) = None ∧ continues shape b = false
    | Diverge => ∃ pre b rest m, bytes = pre ++ b :: rest ∧ follow t 0 (p ++ pre) = Some m ∧
        follow t 0 (p ++ pre ++ [b]) = None ∧ (is_terminal t m = Some false ∨ continues shape b = true)
    end.
Proof.
  intros Hwf. revert p node. induction bytes as [|b bytes IH]; intros p node Hp; simpl.
  { exists (Stay node). by rewrite app_nil_r. }
  destruct (follow_node t p node Hwf Hp) as (nd & Hnd & _). rewrite (child_edge _ _ _ _ Hnd). simpl.
  assert (follow t 0 (p ++ [b]) = edge (next nd) b) as Hstep
    by (rewrite follow_snoc, Hp; simpl; by rewrite Hnd).
  destruct (edge (next nd) b) as [c|] eqn:Ec.
  - destruct (IH (p ++ [b]) c Hstep) as (w & -> & Hw). exists w. split; [done|].
    destruct w as [n|at_ b'|].
    + by rewrite <-(assoc_L (++)) in Hw.
    + destruct Hw as (pre & rest & -> & H1 & H2 & H3 & H4). exists (b :: pre), rest.
      rewrite <-!(assoc_L (++)) in *. by split_and!.
    + destruct Hw as (pre & b' & rest & m & -> & H1 & H2 & H3). exists (b :: pre), b', rest, m.
      rewrite <-!(assoc_L (++)) in *. by split_and!.
  - unfold is_terminal at 1. rewrite Hnd. simpl. eexists. split; [done|].
    assert (is_terminal t node = Some (terminal nd)) as Hterm by (unfold is_terminal; by rewrite Hnd).
    destruct (terminal nd) eqn:Et, (continues shape b) eqn:Econt; simpl.
    + exists [], b, bytes, node. rewrite app_nil_r. split_and!; [done..|by right].
    + exists [], bytes. rewrite app_nil_r. by split_and!.
    + exists [], b, bytes, node. rewrite app_nil_r. split_and!; [done..|by left].
    + exists [], b, bytes, node. rewrite app_nil_r. split_and!; [done..|by left].
Qed.

Section named.
Context (t : Trie) (names : list (list byte * NameClose)).
Hypothesis Hwf : trie_wf t.
Hypothesis Hs : ∀ q, shape_at t q = names_shape names q.

Lemma named_live q : is_Some (follow t 0 q) ↔ live names q.
Proof.
  rewrite <-shape_is_Some by done. rewrite Hs. unfold names_shape.
  destruct (name_close names q) as [c|] eqn:Ec.
  - split; [intros _; by apply name_close_live in Ec|done].
  - destruct (decide (live names q)); by split.
Qed.

Lemma named_dead q : follow t 0 q = None ↔ ¬ live names q.
Proof. rewrite <-named_live. destruct (follow t 0 q) as [n|]; split; try done. intros Hn. destruct Hn. eauto. Qed.

Lemma named_node q n :
  follow t 0 q = Some n →
  is_terminal t n = Some (bool_decide (is_Some (name_close names q))) ∧
  close_at t n = Some (default Free (name_close names q)).
Proof.
  intros Hq. destruct (follow_node t q n Hwf Hq) as (nd & Hnd & Hd). rewrite Hs in Hd.
  unfold is_terminal, close_at. rewrite Hnd. simpl. unfold names_shape, data in Hd.
  destruct (name_close names q) as [c|].
  - rewrite bool_decide_true by done. injection Hd as -> ->. done.
  - rewrite bool_decide_false by (by intros [? ?]). destruct (decide _); [|done].
    injection Hd as -> ->. done.
Qed.

Lemma root_walk q shape n : walk t (root t) q shape = Some (Stay n) ↔ follow t 0 q = Some n.
Proof.
  destruct (walk_follow t [] 0 q shape Hwf eq_refl) as (w & Hw & Hspec).
  unfold root. rewrite Hw. destruct w as [m|at_ b|]; simpl in Hspec.
  - rewrite Hspec. split; by intros [= ->].
  - destruct Hspec as (pre & rest & -> & _ & _ & Hnone & _). split; [done|].
    intros Hf. exfalso. assert (is_Some (follow t 0 (pre ++ [b]))) as [? ?]; [|congruence].
    apply (follow_prefix _ _ rest). rewrite <-(assoc_L (++)). simpl. eauto.
  - destruct Hspec as (pre & b & rest & m & -> & _ & Hnone & _). split; [done|].
    intros Hf. exfalso. assert (is_Some (follow t 0 (pre ++ [b]))) as [? ?]; [|congruence].
    apply (follow_prefix _ _ rest). rewrite <-(assoc_L (++)). simpl. eauto.
Qed.
End named.

(** ** The trie's contract *)

(** Building the trie of a list of names whose bytes fit the node ids does not
    panic, and the trie holds these names and no others: a byte string leads
    to a node exactly when it begins a name, the node is terminal exactly when
    it is a name, and it closes as the last such name does. *)
Theorem trie_holds_names names :
  names_fit names →
  ∃ t, from_closing_names names = Some t ∧
    ∀ q shape,
      (live names q ↔ ∃ n, walk t (root t) q shape = Some (Stay n)) ∧
      ∀ n, walk t (root t) q shape = Some (Stay n) →
        is_terminal t n = Some (bool_decide (is_Some (name_close names q))) ∧
        close_at t n = Some (default Free (name_close names q)).
Proof.
  intros Hfit. destruct (trie_built names Hfit) as (t & Ht & Hwf & Hs). exists t. split; [done|].
  intros q shape. split.
  - rewrite <-(named_live t names Hwf Hs). split; intros [n Hn]; exists n; by apply (root_walk t Hwf q shape).
  - intros n Hn. apply (root_walk t Hwf) in Hn. by apply (named_node t names Hwf Hs).
Qed.

(** From the node of an emitted prefix, [walk] keeps a token exactly when prefix
    and token together begin a name; it completes when the token finishes a
    name and leaves it on a byte that ends the lexeme and continues no name;
    and it diverges on the first byte that continues no name in any other
    case. *)
Theorem walk_exact names t p node bytes shape shape0 :
  names_fit names → from_closing_names names = Some t →
  walk t (root t) p shape0 = Some (Stay node) →
  ∃ w, walk t node bytes shape = Some w ∧
    match w with
    | Stay n => live names (p ++ bytes) ∧ walk t (root t) (p ++ bytes) shape = Some (Stay n)
    | Complete at_ b => ∃ pre rest c, bytes = pre ++ b :: rest ∧
        name_close names (p ++ pre) = Some c ∧ close_at t at_ = Some c ∧
        ¬ live names (p ++ pre ++ [b]) ∧ continues shape b = false
    | Diverge => ∃ pre b rest, bytes = pre ++ b :: rest ∧
        live names (p ++ pre) ∧ ¬ live names (p ++ pre ++ [b]) ∧
        (name_close names (p ++ pre) = None ∨ continues shape b = true)
    end.
Proof.
  intros Hfit Ht Hp. destruct (trie_built names Hfit) as (t' & Ht' & Hwf & Hs). simplify_eq.
  apply (root_walk t Hwf) in Hp.
  destruct (walk_follow t p node bytes shape Hwf Hp) as (w & Hw & Hspec). exists w. split; [done|].
  destruct w as [n|at_ b|].
  - split; [by apply (named_live t names Hwf Hs); eauto|by apply (root_walk t Hwf)].
  - destruct Hspec as (pre & rest & -> & Hpre & Hterm & Hnone & Hc).
    destruct (named_node t names Hwf Hs _ _ Hpre) as [Hterm' Hclose].
    rewrite Hterm' in Hterm. injection Hterm as [c Hcl]%bool_decide_eq_true.
    exists pre, rest, c. rewrite Hcl in Hclose. split_and!; [done..| |done].
    by apply (named_dead t names Hwf Hs).
  - destruct Hspec as (pre & b & rest & m & -> & Hpre & Hnone & Hc).
    exists pre, b, rest. split_and!; [done| | |].
    + apply (named_live t names Hwf Hs). eauto.
    + by apply (named_dead t names Hwf Hs).
    + destruct Hc as [Hterm|?]; [|by right]. left.
      destruct (named_node t names Hwf Hs _ _ Hpre) as [Hterm' _]. rewrite Hterm' in Hterm.
      destruct (name_close names (p ++ pre)); [|done]. injection Hterm as Hb. discriminate Hb.
Qed.

(** ** Examples *)

Definition demo_names : list (list byte * NameClose) :=
  (λ x, (String.list_byte_of_string x.1, x.2)) <$>
    [("country", Free); ("countryName", MustFollow "("); ("let", Free)].

Lemma trie_holds_names_witness :
  ∃ t, from_closing_names demo_names = Some t ∧
    ∀ n, walk t (root t) (String.list_byte_of_string "countryName") Plain = Some (Stay n) →
      close_at t n = Some (MustFollow "(").
Proof.
  destruct (trie_holds_names demo_names) as (t & Ht & Hspec); [by vm_compute|].
  exists t. split; [exact Ht|]. intros n Hn.
  destruct (Hspec (String.list_byte_of_string "countryName") Plain) as [_ Hnode].
  destruct (Hnode n Hn) as [_ ->]. by vm_compute.
Defined.

(** After [country], the token [Name(] completes [countryName], and [Nam )] runs
    off it. *)
Lemma walk_exact_witness :
  ∃ t n, from_closing_names demo_names = Some t ∧
    walk t (root t) (String.list_byte_of_string "country") Plain = Some (Stay n) ∧
    ∃ w, walk t n (String.list_byte_of_string "Name(") Plain = Some w ∧
         match w with Complete _ b => b = "("%byte | _ => False end.
Proof.
  destruct (from_closing_names demo_names) as [t|] eqn:Ht; [|by vm_compute in Ht].
  destruct (walk t (root t) (String.list_byte_of_string "country") Plain) as [w0|] eqn:Hw0.
  2: { vm_compute in Ht. injection Ht as <-. by vm_compute in Hw0. }
  assert (∃ n, w0 = Stay n) as [n ->].
  { vm_compute in Ht. injection Ht as <-. vm_compute in Hw0. injection Hw0 as <-. by eexists. }
  exists t, n. split; [done|]. split; [exact Hw0|].
  destruct (walk_exact demo_names t (String.list_byte_of_string "country") n
    (String.list_byte_of_string "Name(") Plain Plain ltac:(by vm_compute) Ht Hw0) as (w & Hw & _).
  exists w. split; [exact Hw|]. vm_compute in Ht. injection Ht as <-.
  vm_compute in Hw0. injection Hw0 as <-. vm_compute in Hw. by injection Hw as <-.
Defined.
