(* ===== verification/Document.v ===== *)
(** * Open documents

    [pure-analyzer-lsp/src/document.rs]: the store of client documents with its
    revision and versions, UTF-16 positions, and incremental changes; and the
    minimal edit of [state.rs] that a code action sends back.

    A [&str] is the list of its scalar values; a byte offset is a sum of
    [len_utf8], and an offset that is no such sum is no character boundary.
    The outer [option] of [apply_change] and [apply_changes] is a panic. *)

From S2P Require Import Prelude BTree.
#[local] Open Scope N_scope.

(** ** Strings *)

Abbreviation char := N.
Abbreviation Str := (list N).

Definition newline : char := 10.

(** [char::len_utf8] and [len_utf16]. *)
Definition len_utf8 (c : char) : nat :=
  if c <? 128 then 1%nat else if c <? 2048 then 2%nat else if c <? 65536 then 3%nat else 4%nat.
Definition len_utf16 (c : char) : N := if c <? 65536 then 1 else 2.

Fixpoint byte_len (s : Str) : nat :=
  match s with [] => 0%nat | c :: s => (len_utf8 c + byte_len s)%nat end.

(** [(&s[..offset], &s[offset..])], defined at character boundaries only. *)
Fixpoint split_at (s : Str) (offset : nat) : option (Str * Str) :=
  match offset, s with
  | O, _ => Some ([], s)
  | _, [] => None
  | _, c :: s =>
      if (offset <? len_utf8 c)%nat then None
      else '(a, b) ← split_at s (offset - len_utf8 c); Some (c :: a, b)
  end.

(** Machine integers: [u32::try_from], [u32::checked_add], [u64::checked_add]. *)
Definition U64_MAX : N := 18446744073709551615.
Definition u32_try_from (n : nat) : option N :=
  if N.of_nat n <=? U32_MAX then Some (N.of_nat n) else None.
Definition u32_checked_add (a b : N) : option N :=
  if a + b <=? U32_MAX then Some (a + b) else None.
Definition u64_checked_add (a b : N) : option N :=
  if a + b <=? U64_MAX then Some (a + b) else None.

(** ** Positions *)

Record ProtocolPosition := { line : N; character : N }.
Record ProtocolRange := { range_start : ProtocolPosition; range_end : ProtocolPosition }.

#[global] Instance ProtocolPosition_eq_dec : EqDecision ProtocolPosition.
Proof. solve_decision. Defined.

(** [utf16_length]. *)
Fixpoint utf16_length_from (length : N) (text : Str) : option N :=
  match text with
  | [] => Some length
  | c :: text => length ← u32_checked_add length (len_utf16 c); utf16_length_from length text
  end.
Definition utf16_length (text : Str) : option N := utf16_length_from 0 text.

Definition is_newline (c : char) : bool := c =? newline.

Definition count_newlines (s : Str) : nat := length (List.filter is_newline s).

(** The text after the last newline: from [rfind('\n') + 1], or all of it. *)
Fixpoint last_line (s : Str) : Str :=
  match s with
  | [] => []
  | c :: s' => if existsb is_newline s' then last_line s' else if is_newline c then s' else s
  end.

(** [utf16_position]. *)
Definition utf16_position (text : Str) (offset : nat) : option ProtocolPosition :=
  '(before, _) ← split_at text offset;
  line ← u32_try_from (count_newlines before);
  character ← utf16_length (last_line before);
  Some {| line := line; character := character |}.

(** The length in bytes up to the first newline, and the text after it. *)
Fixpoint split_line (s : Str) : option (nat * Str) :=
  match s with
  | [] => None
  | c :: s =>
      if is_newline c then Some (0%nat, s)
      else '(n, rest) ← split_line s; Some ((len_utf8 c + n)%nat, rest)
  end.

(** [line_bounds], its loop: where the line starts, and the text from there. *)
Fixpoint line_start (rest : Str) (start : nat) (lines : nat) : option (nat * Str) :=
  match lines with
  | O => Some (start, rest)
  | S lines =>
      '(newline, rest) ← split_line rest;
      line_start rest (start + newline + 1) lines
  end.

(** The line itself, up to the next newline or the end of the text. *)
Fixpoint line_text (rest : Str) : Str :=
  match rest with
  | [] => []
  | c :: rest => if is_newline c then [] else c :: line_text rest
  end.

(** [byte_offset], its loop over the characters of the line; [offset] is the end
    of the line once they are used up. *)
Fixpoint offset_in_line (text : Str) (offset : nat) (character units : N) : option nat :=
  match text with
  | [] => if character =? units then Some offset else None
  | c :: text =>
      if character =? units then Some offset
      else
        next ← u32_checked_add units (len_utf16 c);
        if character <? next then None
        else offset_in_line text (offset + len_utf8 c) character next
  end.

Definition byte_offset (text : Str) (position : ProtocolPosition) : option nat :=
  '(start, rest) ← line_start text 0 (N.to_nat (line position));
  offset_in_line (line_text rest) start (character position) 0.

(** ** Documents *)

Record DocumentSnapshot := { uri : string; text : Str; version : option Z }.

Record ContentChange := {
  change_range : option ProtocolRange;
  range_length : option N;
  change_text : Str;
}.

Record DocumentStore := {
  documents : list (string * DocumentSnapshot);
  revision : N;
}.

Definition DocumentStore_default : DocumentStore := {| documents := []; revision := 0 |}.

(** [accepts_version]. *)
Definition accepts_version (current incoming : option Z) : bool :=
  match current, incoming with
  | Some current, Some incoming => (current <? incoming)%Z
  | Some _, None => false
  | None, _ => true
  end.

(** A declared length that is not the length of the replaced text. *)
Definition length_differs (length : option N) (text : Str) : bool :=
  match length with
  | Some length => bool_decide (utf16_length text ≠ Some length)
  | None => false
  end.

(** [apply_change]: the new text, or [None] for a rejected change. *)
Definition apply_change (text : Str) (change : ContentChange) : option (option Str) :=
  match change_range change with
  | None =>
      Some (if length_differs (range_length change) text then None else Some (change_text change))
  | Some range =>
      match byte_offset text (range_start range), byte_offset text (range_end range) with
      | Some start, Some end_ =>
          if (end_ <? start)%nat then Some None
          else
            '(before, rest) ← split_at text start;
            '(replaced, after) ← split_at rest (end_ - start);
            Some (if length_differs (range_length change) replaced then None
                  else Some (before ++ change_text change ++ after))
      | _, _ => Some None
      end
  end.

(** [changes.iter().all(apply_change)] over the running text. *)
Fixpoint apply_all (text : Str) (changes : list ContentChange) : option (option Str) :=
  match changes with
  | [] => Some (Some text)
  | change :: changes =>
      r ← apply_change text change;
      match r with Some text => apply_all text changes | None => Some None end
  end.

(** [DocumentStore::advance_revision]. *)
Definition advance_revision (s : DocumentStore) : option DocumentStore :=
  next ← u64_checked_add (revision s) 1;
  Some {| documents := documents s; revision := next |}.

(** [DocumentStore::get], [len], [replace], [remove] and [apply_changes]. *)
Definition store_get (s : DocumentStore) (u : string) : option DocumentSnapshot :=
  bt_get (documents s) u.

Definition store_len (s : DocumentStore) : nat := length (documents s).

Definition replace (s : DocumentStore) (document : DocumentSnapshot) : DocumentStore * bool :=
  match store_get s (uri document) with
  | Some current =>
      if negb (accepts_version (version current) (version document)) then (s, false)
      else match advance_revision s with
      | None => (s, false)
      | Some s' => ({| documents := bt_insert (documents s') (uri document) document;
                       revision := revision s' |}, true)
      end
  | None =>
      match advance_revision s with
      | None => (s, false)
      | Some s' => ({| documents := bt_insert (documents s') (uri document) document;
                       revision := revision s' |}, true)
      end
  end.

Definition remove (s : DocumentStore) (u : string) : DocumentStore * option DocumentSnapshot :=
  match store_get s u with
  | None => (s, None)
  | Some document =>
      match advance_revision s with
      | None => (s, None)
      | Some s' => ({| documents := bt_remove (documents s') u; revision := revision s' |}, Some document)
      end
  end.

Definition apply_changes (s : DocumentStore) (u : string) (v : Z) (changes : list ContentChange)
    : option (DocumentStore * bool) :=
  match changes with
  | [] => Some (s, false)
  | _ :: _ =>
      match store_get s u with
      | None => Some (s, false)
      | Some document =>
          if negb (accepts_version (version document) (Some v)) then Some (s, false)
          else
            r ← apply_all (text document) changes;
            match r with
            | None => Some (s, false)
            | Some new_text =>
                match advance_revision s with
                | None => Some (s, false)
                | Some s' =>
                    Some ({| documents := bt_insert (documents s') u
                               {| uri := uri document; text := new_text; version := Some v |};
                             revision := revision s' |}, true)
                end
            end
      end
  end.

(** ** The edit of a code action

    [shared_prefix_len] and [replacement_bounds] of [state.rs]: the characters
    the two texts share in front, then the ones they share at the back of what
    is left. *)

Fixpoint shared_prefix (before after : Str) : Str :=
  match before, after with
  | b :: before, a :: after => if b =? a then b :: shared_prefix before after else []
  | _, _ => []
  end.

Definition shared_prefix_len (before after : Str) : nat := byte_len (shared_prefix before after).

(** The loop from the back, over the reversed remainders: what is left of both. *)
Fixpoint trim_back (before after : Str) : Str * Str :=
  match before, after with
  | b :: before', a :: after' => if b =? a then trim_back before' after' else (before, after)
  | _, _ => (before, after)
  end.

Definition replacement_bounds (before after : Str) : nat * nat * nat :=
  let prefix := shared_prefix before after in
  let '(b, a) := trim_back (reverse (drop (length prefix) before)) (reverse (drop (length prefix) after)) in
  (byte_len prefix, byte_len prefix + byte_len b, byte_len prefix + byte_len a)%nat.

(** [workspace_text_edit]: the range and the new text of its edit. *)
Definition workspace_text_edit (document : DocumentSnapshot) (before after : Str)
    : option (ProtocolRange * Str) :=
  if bool_decide (before = after) || bool_decide (text document ≠ before) then None
  else
    let '(start_byte, before_end, after_end) := replacement_bounds before after in
    start ← utf16_position before start_byte;
    end_ ← utf16_position before before_end;
    '(_, rest) ← split_at after start_byte;
    '(new_text, _) ← split_at rest (after_end - start_byte);
    Some ({| range_start := start; range_end := end_ |}, new_text).
