(* ===== verification/DocumentProps.v ===== *)
(** * Positions, changes and edits are exact

    Byte offsets and UTF-16 positions are two names of the same places; a batch
    of changes is applied whole or not at all; and the edit a code action sends
    turns the analysed text into the fixed one. *)

From stdpp Require Import relations.
From S2P Require Import Prelude BTree Document.
#[local] Open Scope N_scope.

(** ** Cutting strings *)

Lemma len_utf8_pos c : (0 < len_utf8 c)%nat.
Proof. unfold len_utf8. repeat case_match; lia. Qed.

Lemma len_utf16_pos c : 0 < len_utf16 c.
Proof. unfold len_utf16. case_match; lia. Qed.

Lemma byte_len_app a b : byte_len (a ++ b) = (byte_len a + byte_len b)%nat.
Proof. induction a as [|c a IH]; simpl; lia. Qed.

Lemma split_at_app a b : split_at (a ++ b) (byte_len a) = Some (a, b).
Proof.
  induction a as [|c a IH]; simpl; [by destruct b|]. pose proof (len_utf8_pos c).
  destruct (len_utf8 c + byte_len a)%nat eqn:E; [lia|]. rewrite <-E.
  rewrite (proj2 (Nat.ltb_ge _ _)) by lia.
  replace (len_utf8 c + byte_len a - len_utf8 c)%nat with (byte_len a) by lia. by rewrite IH.
Qed.

Lemma split_at_Some s n a b : split_at s n = Some (a, b) ↔ s = a ++ b ∧ n = byte_len a.
Proof.
  split; [|intros [-> ->]; apply split_at_app].
  revert n a b. induction s as [|c s IH]; intros [|n] a b; simpl; try (by intros [= <- <-]).
  destruct (S n <? len_utf8 c)%nat eqn:E; [done|]. apply Nat.ltb_ge in E.
  destruct (split_at s (S n - len_utf8 c)) as [[a' b']|] eqn:Es; simpl; [|done].
  intros [= <- <-]. apply IH in Es as [-> Hn]. split; [done|]. simpl. lia.
Qed.

(** The number of UTF-16 units of a text. *)
Fixpoint units_of (s : Str) : N := match s with [] => 0 | c :: s => len_utf16 c + units_of s end.

Lemma units_of_app a b : units_of (a ++ b) = units_of a + units_of b.
Proof. induction a as [|c a IH]; simpl; lia. Qed.

Lemma u32_checked_add_Some a b c : u32_checked_add a b = Some c ↔ c = a + b ∧ a + b ≤ U32_MAX.
Proof.
  unfold u32_checked_add. destruct (N.leb_spec (a + b) U32_MAX); split; try done.
  - by intros [= <-].
  - by intros [-> _].
  - lia.
Qed.

Lemma utf16_length_from_Some n s m :
  n ≤ U32_MAX → utf16_length_from n s = Some m ↔ m = n + units_of s ∧ n + units_of s ≤ U32_MAX.
Proof.
  revert n. induction s as [|c s IH]; intros n Hn; simpl.
  { rewrite N.add_0_r. split; [by intros [= <-]|by intros [-> _]]. }
  destruct (u32_checked_add n (len_utf16 c)) as [n'|] eqn:E; simpl.
  - apply u32_checked_add_Some in E as [-> Hle]. rewrite IH by done. lia.
  - unfold u32_checked_add in E. destruct (N.leb_spec (n + len_utf16 c) U32_MAX); [done|].
    split; [done|]. lia.
Qed.

Lemma utf16_length_Some s m : utf16_length s = Some m ↔ m = units_of s ∧ units_of s ≤ U32_MAX.
Proof. unfold utf16_length. rewrite utf16_length_from_Some; [done|unfold U32_MAX; lia]. Qed.

(** ** Lines *)

Definition no_newline (s : Str) : Prop := existsb is_newline s = false.

Lemma no_newline_cons c s : no_newline (c :: s) ↔ is_newline c = false ∧ no_newline s.
Proof. unfold no_newline. simpl. apply orb_false_iff. Qed.

Lemma no_newline_count s : no_newline s → count_newlines s = 0%nat ∧ last_line s = s.
Proof.
  unfold count_newlines. induction s as [|c s IH]; [done|]. intros [Hc Hs]%no_newline_cons.
  simpl. rewrite Hc, (proj1 (IH Hs)). unfold no_newline in Hs. by rewrite Hs.
Qed.

Lemma has_newline s : existsb is_newline s = true → ∃ n, count_newlines s = S n.
Proof.
  unfold count_newlines. induction s as [|c s IH]; simpl; [done|].
  destruct (is_newline c); simpl; eauto.
Qed.

(** The last line is what follows the last newline. *)
Lemma last_line_suffix s : ∃ p, s = p ++ last_line s ∧ no_newline (last_line s).
Proof.
  induction s as [|c s (p & Hp & Hn)]; [by exists []|]. simpl.
  destruct (existsb is_newline s) eqn:E.
  - exists (c :: p). split; [simpl; by f_equal|done].
  - destruct (is_newline c) eqn:Ec; [by exists [c]|]. exists []. split; [done|].
    apply no_newline_cons. done.
Qed.

Lemma line_text_app l s : no_newline l → line_text (l ++ s) = l ++ line_text s.
Proof.
  induction l as [|c l IH]; [done|]. intros [Hc Hl]%no_newline_cons. simpl. rewrite Hc. by rewrite IH.
Qed.

Lemma line_text_prefix s : ∃ rest, s = line_text s ++ rest ∧ no_newline (line_text s).
Proof.
  induction s as [|c s (rest & Hs & Hn)]; simpl; [by exists []|].
  destruct (is_newline c) eqn:Ec; [by eexists|]. exists rest. split; [simpl; by f_equal|].
  by apply no_newline_cons.
Qed.

(** The line of a place is found from the newlines before it. *)
Lemma line_start_found pre suf start :
  ∃ start', line_start (pre ++ suf) start (count_newlines pre) = Some (start', last_line pre ++ suf) ∧
    (start' + byte_len (last_line pre) = start + byte_len pre)%nat.
Proof.
  revert start. induction pre as [|c pre IH]; intros start; simpl; [by exists start|].
  unfold count_newlines. simpl. destruct (is_newline c) eqn:Ec; simpl.
  - rewrite Ec. simpl. destruct (IH (start + 0 + 1)%nat) as (s' & Hs & Hb).
    assert (len_utf8 c = 1%nat) as -> by (unfold is_newline in Ec; apply N.eqb_eq in Ec as ->; done).
    destruct (existsb is_newline pre) eqn:E.
    + exists s'. split; [exact Hs|lia].
    + pose proof (no_newline_count pre E) as [Hc Hl]. fold (count_newlines pre) in Hs |- *.
      rewrite Hl in Hs, Hb. exists s'. split; [exact Hs|lia].
  - fold (count_newlines pre). destruct (existsb is_newline pre) eqn:E.
    + destruct (has_newline pre E) as [n Hn]. rewrite Hn in *.
      destruct (IH (start + len_utf8 c)%nat) as (s' & Hs & Hb). simpl in Hs |- *. rewrite Ec.
      destruct (split_line (pre ++ suf)) as [[k rest]|]; simpl in *; [|done].
      exists s'. split; [|lia]. rewrite <-Hs. f_equal. lia.
    + pose proof (no_newline_count pre E) as [-> Hl]. exists start. split; [done|simpl; lia].
Qed.

Lemma split_line_Some s n rest :
  split_line s = Some (n, rest) →
  ∃ l, s = l ++ newline :: rest ∧ no_newline l ∧ n = byte_len l.
Proof.
  revert n. induction s as [|c s IH]; intros n; simpl; [done|].
  destruct (is_newline c) eqn:Ec.
  - intros [= <- <-]. exists []. apply N.eqb_eq in Ec as ->. done.
  - destruct (split_line s) as [[k r]|]; simpl; [|done]. intros [= <- <-].
    destruct (IH k eq_refl) as (l & -> & Hl & ->). exists (c :: l). split_and!; [done| |done].
    by apply no_newline_cons.
Qed.

Lemma count_newlines_app a b : count_newlines (a ++ b) = (count_newlines a + count_newlines b)%nat.
Proof. unfold count_newlines. by rewrite List.filter_app, length_app. Qed.

Lemma last_line_app a b :
  last_line (a ++ newline :: b) = if existsb is_newline b then last_line b else b.
Proof.
  induction a as [|c a IH]; simpl; [done|]. rewrite existsb_app. simpl. by rewrite orb_true_r.
Qed.

(** Conversely a line found this way starts after that many newlines. *)
Lemma line_start_Some rest start n start' rest' :
  line_start rest start n = Some (start', rest') →
  ∃ p, rest = p ++ rest' ∧ start' = (start + byte_len p)%nat ∧ count_newlines p = n ∧
    ∀ l, no_newline l → last_line (p ++ l) = l.
Proof.
  revert rest start. induction n as [|n IH]; intros rest start; simpl.
  { intros [= <- <-]. exists []. split_and!; [done|simpl; lia|done|]. intros l Hl.
    by apply no_newline_count. }
  destruct (split_line rest) as [[k r]|] eqn:E; simpl; [|done].
  apply split_line_Some in E as (l & -> & Hl & ->). intros Hrec.
  destruct (IH _ _ Hrec) as (p & -> & -> & Hc & Hlast). exists (l ++ newline :: p). split_and!.
  - by rewrite <-(assoc_L (++)).
  - rewrite byte_len_app. simpl. change (len_utf8 newline) with 1%nat. lia.
  - rewrite count_newlines_app, (proj1 (no_newline_count l Hl)). unfold count_newlines in *. simpl. lia.
  - intros l' Hl'. rewrite <-(assoc_L (++)). simpl. rewrite last_line_app.
    destruct (existsb is_newline (p ++ l')) eqn:Ex; [by apply Hlast|].
    pose proof (proj2 (no_newline_count (p ++ l') Ex)) as Hll. rewrite <-Hll. by apply Hlast.
Qed.

(** ** Offsets in a line *)

Lemma offset_in_line_found l rest off units :
  units + units_of l ≤ U32_MAX →
  offset_in_line (l ++ rest) off (units + units_of l) units = Some (off + byte_len l)%nat.
Proof.
  revert off units. induction l as [|c l IH]; intros off units Hu; simpl in *.
  { rewrite N.add_0_r, Nat.add_0_r. destruct rest; simpl; by rewrite N.eqb_refl. }
  pose proof (len_utf16_pos c). destruct (N.eqb_spec (units + (len_utf16 c + units_of l)) units); [lia|].
  assert (u32_checked_add units (len_utf16 c) = Some (units + len_utf16 c)) as -> by
    (apply u32_checked_add_Some; lia).
  simpl. rewrite (proj2 (N.ltb_ge _ _)) by lia.
  replace (units + (len_utf16 c + units_of l)) with ((units + len_utf16 c) + units_of l) by lia.
  rewrite IH by lia. f_equal. lia.
Qed.

Lemma offset_in_line_Some l off target units r :
  offset_in_line l off target units = Some r →
  ∃ a b, l = a ++ b ∧ r = (off + byte_len a)%nat ∧ target = units + units_of a.
Proof.
  revert off units. induction l as [|c l IH]; intros off units; simpl.
  { destruct (N.eqb_spec target units) as [->|]; [|done]. intros [= <-]. exists [], [].
    split_and!; [done|simpl; lia|simpl; lia]. }
  destruct (N.eqb_spec target units) as [->|].
  { intros [= <-]. exists [], (c :: l). split_and!; [done|simpl; lia|simpl; lia]. }
  destruct (u32_checked_add units (len_utf16 c)) as [next|] eqn:E; simpl; [|done].
  apply u32_checked_add_Some in E as [-> _].
  destruct (target <? units + len_utf16 c); [done|]. intros Hr.
  apply IH in Hr as (a & b & -> & -> & ->). exists (c :: a), b. split_and!; [done|simpl; lia|simpl; lia].
Qed.

(** ** Places *)

(** The position of the place between two halves of a text. *)
Lemma utf16_position_at pre suf pos :
  utf16_position (pre ++ suf) (byte_len pre) = Some pos ↔
  line pos = N.of_nat (count_newlines pre) ∧ character pos = units_of (last_line pre) ∧
  line pos ≤ U32_MAX ∧ character pos ≤ U32_MAX.
Proof.
  unfold utf16_position. rewrite split_at_app. simpl. unfold u32_try_from.
  destruct (N.leb_spec (N.of_nat (count_newlines pre)) U32_MAX) as [Hl|Hl]; simpl.
  2: { split; [done|]. intros (-> & _ & Hle & _). lia. }
  destruct (utf16_length (last_line pre)) as [u|] eqn:E; simpl.
  - apply utf16_length_Some in E as [-> Hu]. destruct pos as [ln ch]. simpl. split.
    + intros [= <- <-]. done.
    + intros (-> & -> & _). done.
  - split; [done|]. intros (_ & Hc & _ & Hle). rewrite Hc in Hle.
    assert (utf16_length (last_line pre) = Some (units_of (last_line pre))) as Hs by by apply utf16_length_Some.
    congruence.
Qed.

Lemma byte_offset_at text pos off :
  line pos ≤ U32_MAX → character pos ≤ U32_MAX →
  byte_offset text pos = Some off ↔
  ∃ pre suf, text = pre ++ suf ∧ off = byte_len pre ∧
    line pos = N.of_nat (count_newlines pre) ∧ character pos = units_of (last_line pre).
Proof.
  intros Hl Hc. unfold byte_offset. split.
  - destruct (line_start text 0 (N.to_nat (line pos))) as [[start rest]|] eqn:E; simpl; [|done].
    apply line_start_Some in E as (p & -> & -> & Hcount & Hlast). intros Hoff.
    apply offset_in_line_Some in Hoff as (a & b & Hab & -> & ->).
    destruct (line_text_prefix rest) as (tail & Hrest & Hno). rewrite Hab in Hrest, Hno.
    assert (no_newline a) as Ha.
    { unfold no_newline in *. rewrite existsb_app in Hno. by apply orb_false_iff in Hno as [? _]. }
    exists (p ++ a), (b ++ tail). split_and!.
    + rewrite Hrest at 1. by rewrite <-!(assoc_L (++)).
    + by rewrite byte_len_app.
    + rewrite count_newlines_app, (proj1 (no_newline_count a Ha)), Nat.add_0_r, Hcount. lia.
    + by rewrite Hlast.
  - intros (pre & suf & -> & -> & Hline & Hchar). rewrite Hline, Nat2N.id.
    destruct (line_start_found pre suf 0) as (start' & -> & Hb). simpl.
    destruct (last_line_suffix pre) as (_ & _ & Hno). rewrite line_text_app by done.
    rewrite Hchar in Hc |- *. pose proof (offset_in_line_found (last_line pre) (line_text suf) start' 0) as Hf.
    rewrite N.add_0_l in Hf. rewrite Hf by done. f_equal. lia.
Qed.

Lemma positions_inverse text off pos :
  line pos ≤ U32_MAX → character pos ≤ U32_MAX →
  utf16_position text off = Some pos ↔ byte_offset text pos = Some off.
Proof.
  intros Hl Hc. rewrite byte_offset_at by done. split.
  - intros Hp. assert (∃ pre suf, split_at text off = Some (pre, suf)) as (pre & suf & Hs).
    { unfold utf16_position in Hp. destruct (split_at text off) as [[pre suf]|]; [eauto|done]. }
    apply split_at_Some in Hs as [-> ->]. apply utf16_position_at in Hp as (? & ? & _).
    by exists pre, suf.
  - intros (pre & suf & -> & -> & ? & ?). by apply utf16_position_at.
Qed.

(** ** Changes *)

(** The fields of a protocol position are [u32]. *)
Definition position_ok (p : ProtocolPosition) : Prop := line p ≤ U32_MAX ∧ character p ≤ U32_MAX.
Definition change_ok (c : ContentChange) : Prop :=
  match change_range c with
  | Some r => position_ok (range_start r) ∧ position_ok (range_end r)
  | None => True
  end.

(** What a change means: without a range it replaces the text; with one it
    replaces what lies between the two positions.  A declared length must be the
    length of what is replaced. *)
Definition edited (t : Str) (c : ContentChange) (t' : Str) : Prop :=
  match change_range c with
  | None => length_differs (range_length c) t = false ∧ t' = change_text c
  | Some r => ∃ a m b, t = a ++ m ++ b ∧
      utf16_position t (byte_len a) = Some (range_start r) ∧
      utf16_position t (byte_len (a ++ m)) = Some (range_end r) ∧
      length_differs (range_length c) m = false ∧ t' = a ++ change_text c ++ b
  end.

Fixpoint edited_all (t : Str) (cs : list ContentChange) (t' : Str) : Prop :=
  match cs with
  | [] => t = t'
  | c :: cs => ∃ t1, edited t c t1 ∧ edited_all t1 cs t'
  end.

(** Two cuts of one text, the first not behind the second. *)
Lemma cut_between a rest b c :
  a ++ rest = b ++ c → (byte_len a ≤ byte_len b)%nat → ∃ m, b = a ++ m ∧ rest = m ++ c.
Proof.
  revert b. induction a as [|x a IH]; intros b Heq Hle; simpl in *; [by exists b|].
  destruct b as [|y b]; simpl in *; [pose proof (len_utf8_pos x); lia|].
  injection Heq as <- Heq. destruct (IH b Heq) as (m & -> & ->); [lia|]. by exists m.
Qed.

Lemma byte_offset_cut t p n :
  position_ok p → byte_offset t p = Some n →
  ∃ a b, t = a ++ b ∧ n = byte_len a ∧ utf16_position t n = Some p.
Proof.
  intros [Hl Hc] Hb. pose proof Hb as Hb'. apply byte_offset_at in Hb' as (a & b & -> & -> & _); [|done..].
  exists a, b. split_and!; [done|done|]. by apply positions_inverse.
Qed.

Lemma apply_change_spec t c :
  change_ok c →
  ∃ r, apply_change t c = Some r ∧ ∀ t', r = Some t' ↔ edited t c t'.
Proof.
  unfold change_ok, apply_change, edited. destruct (change_range c) as [r|]; intros Hok.
  2: { eexists. split; [done|]. intros t'. destruct (length_differs _ _); split; try done.
       - by intros [? _].
       - by intros [= <-].
       - by intros [_ ->]. }
  destruct Hok as [Hs He].
  assert (∀ a m b, t = a ++ m ++ b → utf16_position t (byte_len a) = Some (range_start r) →
    utf16_position t (byte_len (a ++ m)) = Some (range_end r) →
    byte_offset t (range_start r) = Some (byte_len a) ∧
    byte_offset t (range_end r) = Some (byte_len (a ++ m))) as Hoffs.
  { intros a m b _ H1 H2. destruct Hs, He. split; by apply positions_inverse. }
  destruct (byte_offset t (range_start r)) as [st|] eqn:Est.
  2: { eexists. split; [done|]. intros t'. split; [done|]. intros (a & m & b & Ht & H1 & H2 & _).
       by destruct (Hoffs a m b Ht H1 H2). }
  destruct (byte_offset t (range_end r)) as [en|] eqn:Een.
  2: { eexists. split; [done|]. intros t'. split; [done|]. intros (a & m & b & Ht & H1 & H2 & _).
       by destruct (Hoffs a m b Ht H1 H2). }
  destruct (Nat.ltb_spec en st) as [Hlt|Hge].
  { eexists. split; [done|]. intros t'. split; [done|]. intros (a & m & b & Ht & H1 & H2 & _).
    destruct (Hoffs a m b Ht H1 H2) as [[= ->] [= ->]]. rewrite byte_len_app in Hlt. lia. }
  apply byte_offset_cut in Est as (a & rest & -> & -> & Hst); [|done].
  apply byte_offset_cut in Een as (b & after & Hb & -> & Hen); [|done].
  destruct (cut_between _ _ _ _ Hb Hge) as (m & -> & ->).
  rewrite split_at_app. simpl. rewrite byte_len_app.
  replace (byte_len a + byte_len m - byte_len a)%nat with (byte_len m) by lia.
  rewrite split_at_app. simpl. eexists. split; [done|]. intros t'. split.
  - intros Hr. destruct (length_differs _ _) eqn:El; simplify_eq. exists a, m, after. by split_and!.
  - intros (a' & m' & b' & Heq & H1 & H2 & Hd & ->).
    destruct (Hoffs a' m' b' Heq H1 H2) as [Ha Hm]. rewrite byte_len_app in Hm.
    injection Ha as Ha. injection Hm as Hm.
    destruct (cut_between _ _ _ _ Heq) as (x & -> & Hx); [lia|]. rewrite !byte_len_app in Ha, Hm.
    assert (∀ s, byte_len s = 0%nat → s = []) as Hnil.
    { intros [|y s]; [done|]. simpl. pose proof (len_utf8_pos y). lia. }
    assert (x = []) as -> by (apply Hnil; lia). simpl in Hx. rewrite app_nil_r in Hm |- *.
    destruct (cut_between m after m' b' Hx) as (y & -> & ->); [simpl in *; lia|].
    rewrite byte_len_app in Hm. assert (y = []) as -> by (apply Hnil; simpl in *; lia).
    rewrite app_nil_r in Hd. by rewrite Hd.
Qed.

Lemma apply_all_spec t cs :
  Forall change_ok cs → ∃ r, apply_all t cs = Some r ∧ ∀ t', r = Some t' ↔ edited_all t cs t'.
Proof.
  revert t. induction cs as [|c cs IH]; intros t Hok; simpl.
  { eexists. split; [done|]. intros t'. split; [by intros [= <-]|by intros ->]. }
  apply Forall_cons in Hok as [Hc Hok]. destruct (apply_change_spec t c Hc) as (r & -> & Hr). simpl.
  destruct r as [t1|].
  - destruct (IH t1 Hok) as (r & -> & Hr'). exists r. split; [done|]. intros t'. rewrite Hr'. split.
    + intros He. exists t1. split; [by apply Hr|done].
    + intros (t2 & Ht2 & He). apply Hr in Ht2 as [= <-]. done.
  - exists None. split; [done|]. intros t'. split; [done|]. intros (t1 & Ht1 & _). by apply Hr in Ht1.
Qed.

Lemma u64_checked_add_None a : u64_checked_add a 1 = None ↔ U64_MAX ≤ a.
Proof. unfold u64_checked_add. destruct (N.leb_spec (a + 1) U64_MAX); split; try done; lia. Qed.

Lemma advance_revision_spec s :
  (revision s < U64_MAX ∧
   advance_revision s = Some {| documents := documents s; revision := revision s + 1 |}) ∨
  (U64_MAX ≤ revision s ∧ advance_revision s = None).
Proof.
  unfold advance_revision. destruct (u64_checked_add (revision s) 1) as [n|] eqn:E.
  - left. unfold u64_checked_add in E. destruct (N.leb_spec (revision s + 1) U64_MAX); [|done].
    injection E as <-. split; [lia|done].
  - right. apply u64_checked_add_None in E. done.
Qed.

(** ** The store *)

Definition store_ok (s : DocumentStore) : Prop := bt_sorted (documents s).

Lemma store_get_insert s u d r u' :
  store_ok s →
  store_get {| documents := bt_insert (documents s) u d; revision := r |} u' =
    if decide (u' = u) then Some d else store_get s u'.
Proof.
  intros Hs. unfold store_get. simpl. rewrite bt_get_insert by done.
  destruct (key_cmp u' u) eqn:E.
  - apply key_cmp_eq in E. by rewrite decide_True.
  - rewrite decide_False; [done|]. intros ->. by rewrite key_cmp_refl in E.
  - rewrite decide_False; [done|]. intros ->. by rewrite key_cmp_refl in E.
Qed.

(** One operation of the store, whoever calls it. *)
Inductive store_step (s : DocumentStore) : DocumentStore → Prop :=
| step_replace d : store_step s (replace s d).1
| step_remove u : store_step s (remove s u).1
| step_change u v cs s' b : apply_changes s u v cs = Some (s', b) → store_step s s'.

(** The store after an accepted batch. *)
Definition changed (s : DocumentStore) (u : string) (d : DocumentSnapshot) (v : Z) (t : Str) : DocumentStore :=
  {| documents := bt_insert (documents s) u {| uri := uri d; text := t; version := Some v |};
     revision := revision s + 1 |}.

Lemma apply_changes_inv s u v cs s' b :
  apply_changes s u v cs = Some (s', b) →
  (s' = s ∧ b = false) ∨
  (b = true ∧ ∃ d t, cs ≠ [] ∧ store_get s u = Some d ∧ accepts_version (version d) (Some v) = true ∧
     apply_all (text d) cs = Some (Some t) ∧ revision s < U64_MAX ∧ s' = changed s u d v t).
Proof.
  unfold apply_changes. destruct cs as [|c cs]; [intros [= <- <-]; by left|].
  remember (c :: cs) as ccs eqn:Ecs. destruct (store_get s u) as [d|]; [|intros [= <- <-]; by left].
  destruct (accepts_version (version d) (Some v)) eqn:Ev; simpl; [|intros [= <- <-]; by left].
  destruct (apply_all (text d) ccs) as [[t|]|] eqn:Et; simpl; [|intros [= <- <-]; by left|done].
  destruct (advance_revision_spec s) as [[Hlt ->]|[_ ->]]; [|intros [= <- <-]; by left].
  intros [= <- <-]. right. split; [done|]. exists d, t. by subst.
Qed.

(** An operation changes nothing, or it counts. *)
Lemma store_step_counts s s' :
  store_step s s' → s' = s ∨ revision s' = revision s + 1.
Proof.
  intros [d|u|u v cs s'' b Hc].
  - unfold replace. destruct (store_get s (uri d)) as [e|];
      [destruct (negb (accepts_version (version e) (version d))); [by left|]|];
      (destruct (advance_revision_spec s) as [[_ ->]|[_ ->]]; [by right|by left]).
  - unfold remove. destruct (store_get s u); [|by left].
    destruct (advance_revision_spec s) as [[_ ->]|[_ ->]]; [by right|by left].
  - apply apply_changes_inv in Hc as [[-> _]|(_ & d & t & _ & _ & _ & _ & _ & ->)]; [by left|by right].
Qed.

Lemma store_step_ok s s' : store_step s s' → store_ok s → store_ok s'.
Proof.
  unfold store_ok. intros [d|u|u v cs s'' b Hc] Hs.
  - unfold replace. destruct (store_get s (uri d)) as [e|];
      [destruct (negb (accepts_version (version e) (version d))); [done|]|];
      (destruct (advance_revision_spec s) as [[_ ->]|[_ ->]]; [by apply bt_insert_sorted|done]).
  - unfold remove. destruct (store_get s u); [|done].
    destruct (advance_revision_spec s) as [[_ ->]|[_ ->]]; [by apply bt_remove_sorted|done].
  - apply apply_changes_inv in Hc as [[-> _]|(_ & d & t & _ & _ & _ & _ & _ & ->)];
      [done|by apply bt_insert_sorted].
Qed.

Lemma store_steps_counts s s' :
  rtc store_step s s' → s' = s ∨ revision s < revision s'.
Proof.
  induction 1 as [s|s s1 s2 H1 _ IH]; [by left|].
  destruct (store_step_counts _ _ H1) as [->|Hr]; [done|]. right.
  destruct IH as [->|?]; lia.
Qed.

(** ** The edit of a code action *)

Lemma shared_prefix_spec b a :
  ∃ rb ra, b = shared_prefix b a ++ rb ∧ a = shared_prefix b a ++ ra.
Proof.
  revert a. induction b as [|x b IH]; intros [|y a]; simpl; eauto.
  destruct (N.eqb_spec x y) as [->|]; [|by exists (x :: b), (y :: a)].
  destruct (IH a) as (rb & ra & Hb & Ha). exists rb, ra. split; by f_equal/=.
Qed.

Lemma trim_back_spec b a b' a' :
  trim_back b a = (b', a') → ∃ c, b = c ++ b' ∧ a = c ++ a'.
Proof.
  revert a. induction b as [|x b IH]; intros [|y a]; simpl; try (intros [= <- <-]; by exists []).
  destruct (N.eqb_spec x y) as [->|]; [|intros [= <- <-]; by exists []].
  intros (c & -> & ->)%IH. by exists (y :: c).
Qed.

Lemma byte_len_reverse s : byte_len (reverse s) = byte_len s.
Proof.
  induction s as [|c s IH]; [done|]. rewrite reverse_cons, byte_len_app, IH. simpl. lia.
Qed.

(** The bounds cut both texts in three: the same front, the parts that differ,
    the same back. *)
Lemma replacement_bounds_spec before after :
  ∃ p b a q, before = p ++ b ++ q ∧ after = p ++ a ++ q ∧
    replacement_bounds before after =
      (byte_len p, byte_len (p ++ b), byte_len (p ++ a)).
Proof.
  destruct (shared_prefix_spec before after) as (rb & ra & Hb & Ha).
  unfold replacement_bounds. set (p := shared_prefix before after) in *.
  assert (drop (length p) before = rb) as -> by (rewrite Hb; apply drop_app_length).
  assert (drop (length p) after = ra) as -> by (rewrite Ha; apply drop_app_length).
  destruct (trim_back (reverse rb) (reverse ra)) as [b a] eqn:E.
  apply trim_back_spec in E as (c & Erb & Era).
  apply (f_equal reverse) in Erb, Era. rewrite reverse_involutive, reverse_app in Erb, Era.
  exists p, (reverse b), (reverse a), (reverse c). subst rb ra. split_and!; [done|done|].
  by rewrite !byte_len_app, !byte_len_reverse.
Qed.

(** ** Properties *)

(** Byte offsets and UTF-16 positions name the same places: [byte_offset] inverts
    [utf16_position] in both directions.  A position inside a surrogate pair,
    past the end of its line or past the last line has no offset, and an offset
    inside a character has no position. *)
Theorem positions_roundtrip text off pos :
  line pos ≤ U32_MAX → character pos ≤ U32_MAX →
  (utf16_position text off = Some pos ↔ byte_offset text pos = Some off) ∧
  (utf16_position text off = Some pos → ∃ before after, text = before ++ after ∧
     off = byte_len before ∧ line pos = N.of_nat (count_newlines before) ∧
     character pos = units_of (last_line before)).
Proof.
  intros Hl Hc. split; [by apply positions_inverse|].
  intros Hp%positions_inverse%byte_offset_at; [|done..].
  destruct Hp as (pre & suf & ? & ? & ? & ?). by exists pre, suf.
Qed.

(** C35. A batch of changes never panics and is applied whole or not at all.  It is
    applied exactly when the document is open at an older version (or at none),
    the revision can advance, and every change is meaningful on the text the
    previous ones left; then only that document's text and version change, and
    the revision advances by one. *)
Theorem changes_applied_whole s u v cs :
  store_ok s → Forall change_ok cs →
  ∃ s' b, apply_changes s u v cs = Some (s', b) ∧
    (b = false → s' = s) ∧
    (b = true ↔ cs ≠ [] ∧ revision s < U64_MAX ∧ ∃ d t, store_get s u = Some d ∧
       accepts_version (version d) (Some v) = true ∧ edited_all (text d) cs t) ∧
    (b = true → ∃ d t, store_get s u = Some d ∧ edited_all (text d) cs t ∧
       revision s' = revision s + 1 ∧
       ∀ u', store_get s' u' =
         if decide (u' = u) then Some {| uri := uri d; text := t; version := Some v |}
         else store_get s u').
Proof.
  intros Hs Hok.
  assert (∃ s' b, apply_changes s u v cs = Some (s', b)) as (s' & b & Ha).
  { unfold apply_changes. destruct cs as [|c cs']; [by eauto|]. remember (c :: cs') as ccs.
    destruct (store_get s u) as [d|]; [|by eauto]. destruct (negb _); [by eauto|].
    destruct (apply_all_spec (text d) ccs Hok) as (r & -> & _). simpl.
    destruct r; [|by eauto]. destruct (advance_revision s); eauto. }
  exists s', b. split; [done|]. pose proof Ha as Hinv. apply apply_changes_inv in Hinv.
  assert (∀ d t, apply_all (text d) cs = Some (Some t) → edited_all (text d) cs t) as Hedit.
  { intros d t Ht. destruct (apply_all_spec (text d) cs Hok) as (r & Hr & Hspec).
    rewrite Ht in Hr. injection Hr as <-. by apply Hspec. }
  split_and!.
  - destruct Hinv as [[-> _]|[-> _]]; done.
  - split.
    + intros ->. destruct Hinv as [[_ ?]|(_ & d & t & Hne & Hg & Hv & Ht & Hr & _)]; [done|].
      split_and!; [done|done|]. exists d, t. split_and!; [done|done|by apply Hedit].
    + intros (Hne & Hr & d & t & Hg & Hv & Hed). unfold apply_changes in Ha.
      destruct cs as [|c cs']; [done|]. remember (c :: cs') as ccs. rewrite Hg, Hv in Ha. simpl in Ha.
      destruct (apply_all_spec (text d) ccs Hok) as (r & Hrr & Hspec). apply Hspec in Hed as ->.
      rewrite Hrr in Ha. simpl in Ha. destruct (advance_revision_spec s) as [[_ E]|[? _]]; [|lia].
      rewrite E in Ha. by injection Ha.
  - intros ->. destruct Hinv as [[_ ?]|(_ & d & t & _ & Hg & _ & Ht & _ & ->)]; [done|].
    exists d, t. split_and!; [done|by apply Hedit|done|]. intros u'. by apply store_get_insert.
Qed.

(** A revision identifies the contents of the store: of two stores of one
    session, the later one differs from the earlier one only if its revision is
    greater. *)
Theorem revision_identifies_documents s1 s2 :
  rtc store_step s1 s2 →
  revision s1 ≤ revision s2 ∧ (revision s1 = revision s2 ↔ s1 = s2).
Proof.
  intros H12. destruct (store_steps_counts _ _ H12) as [->|Hlt]; [by split|].
  split; [lia|]. split; [lia|]. intros ->. lia.
Qed.

(** The edit of a code action, sent back by the client, turns the analysed text
    into the fixed one; and there is one whenever the two differ and their
    positions can be written. *)
Theorem code_action_edit_exact d before after :
  (∀ r new_text, workspace_text_edit d before after = Some (r, new_text) →
     text d = before ∧
     apply_change before {| change_range := Some r; range_length := None; change_text := new_text |} =
       Some (Some after)) ∧
  (text d = before → before ≠ after →
   N.of_nat (count_newlines before) ≤ U32_MAX → units_of before ≤ U32_MAX →
   is_Some (workspace_text_edit d before after)).
Proof.
  destruct (replacement_bounds_spec before after) as (p & b & a & q & Hbe & Haf & Hbounds).
  unfold workspace_text_edit. rewrite Hbounds.
  assert (split_at after (byte_len p) = Some (p, a ++ q)) as -> by (by apply split_at_Some).
  simpl. rewrite byte_len_app with (a := p) (b := a).
  replace (byte_len p + byte_len a - byte_len p)%nat with (byte_len a) by lia. rewrite split_at_app.
  split.
  - intros r new_text. destruct (bool_decide (before = after)); [done|].
    case_bool_decide as Hd; [done|]. simpl.
    destruct (utf16_position before (byte_len p)) as [st|] eqn:Est; simpl; [|done].
    destruct (utf16_position before (byte_len (p ++ b))) as [en|] eqn:Een; simpl; [|done].
    intros [= <- <-]. split; [by destruct (decide (text d = before))|].
    assert (position_ok st ∧ position_ok en) as [Hst Hen].
    { rewrite Hbe in Est at 1. apply utf16_position_at in Est as (_ & _ & ? & ?).
      rewrite Hbe, (assoc_L (++)) in Een. apply utf16_position_at in Een as (_ & _ & ? & ?). by split. }
    destruct (apply_change_spec before {| change_range := Some {| range_start := st; range_end := en |};
      range_length := None; change_text := a |}) as (r & -> & Hspec); [by split|].
    f_equal. apply Hspec. exists p, b, q. by split_and!.
  - intros Ht Hne Hlines Hunits. rewrite bool_decide_false, bool_decide_false by (try done; tauto). simpl.
    assert (∀ x y, before = x ++ y → is_Some (utf16_position before (byte_len x))) as Hpos.
    { intros x y ->. exists {| line := N.of_nat (count_newlines x); character := units_of (last_line x) |}.
      rewrite count_newlines_app in Hlines. rewrite units_of_app in Hunits.
      destruct (last_line_suffix x) as (w & Hw & _). rewrite Hw, units_of_app in Hunits.
      apply utf16_position_at. simpl. split_and!; [done|done|lia|lia]. }
    destruct (Hpos p (b ++ q) Hbe) as [st ->]. simpl.
    destruct (Hpos (p ++ b) q) as [en ->]; [by rewrite <-(assoc_L (++))|]. simpl. eauto.
Qed.

(** ** Examples *)

(** A letter, an emoji of two UTF-16 units and four bytes, and a second line. *)
Definition demo_text : Str := [97; 128512; 13; 10; 98].

Definition demo_store : DocumentStore :=
  (replace DocumentStore_default {| uri := "untitled:q"; text := demo_text; version := Some 1%Z |}).1.

(** Replace the emoji, then insert at the start of the second line. *)
Definition demo_changes : list ContentChange :=
  [{| change_range := Some {| range_start := {| line := 0; character := 1 |};
                              range_end := {| line := 0; character := 3 |} |};
      range_length := Some 2; change_text := [120] |};
   {| change_range := Some {| range_start := {| line := 1; character := 0 |};
                              range_end := {| line := 1; character := 0 |} |};
      range_length := None; change_text := [121] |}].

Lemma positions_roundtrip_witness :
  byte_offset demo_text {| line := 1; character := 0 |} = Some 7%nat.
Proof. apply positions_roundtrip; [done|done|]. vm_compute. reflexivity. Defined.

Lemma changes_applied_whole_witness :
  ∃ s' b, apply_changes demo_store "untitled:q" 2 demo_changes = Some (s', b) ∧
    b = true ∧ text <$> store_get s' "untitled:q" = Some [97; 120; 13; 10; 121; 98].
Proof.
  destruct (changes_applied_whole demo_store "untitled:q" 2 demo_changes) as (s' & b & Ha & _).
  - repeat constructor.
  - repeat constructor; vm_compute; discriminate.
  - exists s', b. split; [exact Ha|]. vm_compute in Ha. injection Ha as <- <-. by vm_compute.
Defined.

Lemma revision_identifies_documents_witness :
  revision DocumentStore_default ≠ revision demo_store.
Proof.
  intros Heq. apply (revision_identifies_documents DocumentStore_default demo_store) in Heq; [done|].
  apply rtc_once. apply (step_replace DocumentStore_default).
Defined.

Lemma code_action_edit_exact_witness :
  let d := {| uri := "untitled:q"; text := demo_text; version := Some 1%Z |} in
  let after := [97; 128513; 13; 10; 98] in
  ∃ r new_text, workspace_text_edit d demo_text after = Some (r, new_text) ∧
    apply_change demo_text {| change_range := Some r; range_length := None; change_text := new_text |} =
      Some (Some after).
Proof.
  intros d after. destruct (code_action_edit_exact d demo_text after) as [Hexact Hsome].
  destruct Hsome as [[r new_text] He]; [done|done|by vm_compute|by vm_compute|].
  exists r, new_text. split; [exact He|]. by apply Hexact.
Defined.
