(* ===== verification/Frame.v ===== *)
(** * Message framing of the language server

    [pure-analyzer-lsp/src/frame.rs]: the [Content-Length] framing of LSP
    messages over a byte stream.  A reader is the bytes it has left; the
    operations return the reader they leave behind.  [serde_json] is a
    parameter: [from_slice] and [to_vec]. *)

From S2P Require Import Prelude Utf8.
#[local] Open Scope N_scope.

(** ** Bounds *)

Definition MAX_CONTENT_LENGTH_BYTES : N := 64 * 1024 * 1024.
Definition MAX_HEADER_LINE_BYTES : N := 8 * 1024.

(** The [io::Error]s, by their message. *)
Inductive FrameError :=
| UnexpectedEndOfHeaders
| MalformedHeader
| InvalidContentLength
| ContentLengthTooLarge
| HeaderLineTooLong
| MissingContentLength
| UnexpectedEof
| InvalidJson.

#[global] Instance FrameError_eq_dec : EqDecision FrameError.
Proof. solve_decision. Defined.

(** ** Lines *)

Definition LF : byte := x0a%byte.
Definition CR : byte := x0d%byte.

(** [reader.take(limit).read_until(b'\n')]: the line and what is left. *)
Fixpoint read_until (limit : N) (reader : Text) : Text * Text :=
  if limit =? 0 then ([], reader)
  else match reader with
  | [] => ([], [])
  | b :: reader =>
      if (b =? LF)%u8 then ([b], reader)
      else let '(line, rest) := read_until (limit - 1) reader in (b :: line, rest)
  end.

Definition ends_with (suffix : byte) (line : Text) : bool :=
  match last line with Some b => (b =? suffix)%u8 | None => false end.

(** [strip_suffix] of one byte. *)
Definition strip_suffix (suffix : byte) (line : Text) : option Text :=
  if ends_with suffix line then Some (removelast line) else None.

Definition read_header_line (reader : Text) : Result Text FrameError * Text :=
  let '(line, rest) := read_until MAX_HEADER_LINE_BYTES reader in
  if (N.of_nat (length line) =? MAX_HEADER_LINE_BYTES) && negb (ends_with LF line)
  then (Err HeaderLineTooLong, rest)
  else (Ok line, rest).

(** The second [unwrap_or] falls back to the whole line: a line that ends in a
    bare newline keeps it. *)
Definition trim_line (line : Text) : Text :=
  default line (strip_suffix CR (default line (strip_suffix LF line))).

(** ** Headers *)

(** [char::is_whitespace]: the Unicode property [White_Space]. *)
Definition is_whitespace (c : N) : bool :=
  (9 <=? c) && (c <=? 13) || (c =? 32) || (c =? 133) || (c =? 160) || (c =? 5760)
  || (8192 <=? c) && (c <=? 8202) || (c =? 8232) || (c =? 8233) || (c =? 8239)
  || (c =? 8287) || (c =? 12288).

Fixpoint trim_start (s : list N) : list N :=
  match s with
  | c :: s' => if is_whitespace c then trim_start s' else s
  | [] => []
  end.
Definition trim_end (s : list N) : list N := reverse (trim_start (reverse s)).
Definition trim (s : list N) : list N := trim_end (trim_start s).

Definition COLON : N := 58.

Fixpoint split_once (separator : N) (s : list N) : option (list N * list N) :=
  match s with
  | [] => None
  | c :: s =>
      if c =? separator then Some ([], s)
      else '(name, value) ← split_once separator s; Some (c :: name, value)
  end.

Definition header_parts (line : Text) : option (list N * list N) :=
  line ← from_utf8 line;
  '(name, value) ← split_once COLON line;
  Some (trim name, trim value).

Definition to_ascii_lowercase (c : N) : N := if (65 <=? c) && (c <=? 90) then c + 32 else c.

Definition eq_ignore_ascii_case (a b : list N) : bool :=
  bool_decide (to_ascii_lowercase <$> a = to_ascii_lowercase <$> b).

(** A string literal, as its characters. *)
Definition chars (s : string) : list N := Ascii.N_of_ascii <$> String.list_ascii_of_string s.

(** [usize::from_str]: an optional plus sign and decimal digits, refusing what
    64 bits do not hold. *)
Definition USIZE_MAX : N := 18446744073709551615.

Definition to_digit (c : N) : option N := if (48 <=? c) && (c <=? 57) then Some (c - 48) else None.

Fixpoint parse_digits (acc : N) (s : list N) : option N :=
  match s with
  | [] => Some acc
  | c :: s =>
      digit ← to_digit c;
      let acc := acc * 10 + digit in
      if acc <=? USIZE_MAX then parse_digits acc s else None
  end.

Definition PLUS : N := 43.

Definition parse_usize (s : list N) : option N :=
  let digits := match s with c :: s' => if c =? PLUS then s' else s | [] => [] end in
  match digits with [] => None | _ => parse_digits 0 digits end.

Definition content_length_value (value : list N) : Result N FrameError :=
  match parse_usize value with
  | None => Err InvalidContentLength
  | Some length => if MAX_CONTENT_LENGTH_BYTES <? length then Err ContentLengthTooLarge else Ok length
  end.

(** The loop of [read_frame] over the header lines; [None] is a stream that
    ended before a header.  Every line read takes a byte off the reader. *)
Fixpoint read_headers (fuel : nat) (content_length : option N) (saw_header : bool) (reader : Text)
    : option (Result (option (option N)) FrameError * Text) :=
  match fuel with
  | O => None
  | S fuel =>
      let '(line, reader) := read_header_line reader in
      match line with
      | Err e => Some (Err e, reader)
      | Ok [] => Some (if saw_header then Err UnexpectedEndOfHeaders else Ok None, reader)
      | Ok line =>
          match trim_line line with
          | [] => Some (Ok (Some content_length), reader)
          | line =>
              match header_parts line with
              | None => Some (Err MalformedHeader, reader)
              | Some (name, value) =>
                  if eq_ignore_ascii_case name (chars "content-length") then
                    match content_length_value value with
                    | Err e => Some (Err e, reader)
                    | Ok length => read_headers fuel (Some length) true reader
                    end
                  else read_headers fuel content_length true reader
              end
          end
      end
  end.

(** [reader.read_exact] into a buffer of [length] bytes. *)
Definition read_exact (length : N) (reader : Text) : Result Text FrameError * Text :=
  if N.of_nat (List.length reader) <? length then (Err UnexpectedEof, [])
  else (Ok (take (N.to_nat length) reader), drop (N.to_nat length) reader).

(** ** Printing *)

(** The digits Rust's [Display] gives a [usize]. *)
Fixpoint decimal_digits (fuel : nat) (n : N) : Text :=
  match fuel with
  | O => []
  | S fuel =>
      let digit := default x30%byte (Byte.of_N (48 + n mod 10)) in
      if n <? 10 then [digit] else decimal_digits fuel (n / 10) ++ [digit]
  end.
Definition decimal (n : N) : Text := decimal_digits (S (N.to_nat (N.size n))) n.

(** A byte string literal. *)
Definition bytes (s : string) : Text := String.list_byte_of_string s.

Definition frame_header (length : N) : Text :=
  bytes "Content-Length: " ++ decimal length ++ [CR; LF] ++ [CR; LF].

(** ** Frames *)

Section Frames.
Context {Value : Type}.
Variable from_slice : Text → option Value.
Variable to_vec : Value → option Text.

(** The outer [option] is fuel: [read_frame_total] shows that one more than the
    length of the reader is enough. *)
Definition read_frame (reader : Text) : option (Result (option Value) FrameError * Text) :=
  '(headers, reader) ← read_headers (S (List.length reader)) None false reader;
  Some match headers with
  | Err e => (Err e, reader)
  | Ok None => (Ok None, reader)
  | Ok (Some None) => (Err MissingContentLength, reader)
  | Ok (Some (Some length)) =>
      let '(body, reader) := read_exact length reader in
      (let? body := body in
       match from_slice body with Some value => Ok (Some value) | None => Err InvalidJson end,
       reader)
  end.

(** What [write_frame] appends to the stream. *)
Definition write_frame (value : Value) : Result Text FrameError :=
  match to_vec value with
  | None => Err InvalidJson
  | Some body => Ok (frame_header (N.of_nat (List.length body)) ++ body)
  end.

(** A reader that takes frames until the stream ends. *)
Fixpoint read_frames (fuel : nat) (reader : Text) : option (Result (list Value) FrameError) :=
  match fuel with
  | O => None
  | S fuel =>
      '(frame, reader) ← read_frame reader;
      match frame with
      | Err e => Some (Err e)
      | Ok None => Some (Ok [])
      | Ok (Some value) =>
          values ← read_frames fuel reader;
          Some (let? values := values in Ok (value :: values))
      end
  end.

End Frames.
