(* ===== verification/FrameProps.v ===== *)
(** * What the framing guarantees

    Frames written are the frames read, a frame cut short is an error, and what
    a peer can make the reader hold is bounded. *)

From S2P Require Import Prelude Utf8 Frame.
#[local] Open Scope N_scope.

(** ** Decimal numbers *)

Lemma parse_digits_snoc acc s c :
  parse_digits acc (s ++ [c]) = acc' ← parse_digits acc s; parse_digits acc' [c].
Proof.
  revert acc. induction s as [|d s IH]; intros acc; [done|]. simpl.
  destruct (to_digit d) as [d'|]; [|done]. simpl. destruct (_ <=? USIZE_MAX); [apply IH|done].
Qed.

Lemma digit_byte d : d < 10 → Byte.to_N (default x30%byte (Byte.of_N (48 + d))) = 48 + d.
Proof.
  intros Hd. destruct (Byte.of_N (48 + d)) as [b|] eqn:E; [by apply Byte.to_of_N|].
  apply Byte.of_N_None_iff in E. lia.
Qed.

Lemma to_digit_of d : d < 10 → to_digit (48 + d) = Some d.
Proof.
  intros Hd. unfold to_digit. destruct (N.leb_spec 48 (48 + d)), (N.leb_spec (48 + d) 57); try lia.
  simpl. f_equal. lia.
Qed.

(** Decimal digits, as bytes. *)
Definition is_digit (b : byte) : Prop := 48 <= Byte.to_N b <= 57.

Lemma digit_is_digit d : d < 10 → is_digit (default x30%byte (Byte.of_N (48 + d))).
Proof. intros Hd. red. rewrite digit_byte by done. lia. Qed.

Lemma decimal_digits_S fuel n :
  decimal_digits (S fuel) n =
    let digit := default x30%byte (Byte.of_N (48 + n mod 10)) in
    if n <? 10 then [digit] else decimal_digits fuel (n / 10) ++ [digit].
Proof. done. Qed.

Lemma decimal_digits_spec fuel n :
  n < 2 ^ N.of_nat fuel →
  Forall is_digit (decimal_digits (S fuel) n) ∧ decimal_digits (S fuel) n ≠ [] ∧
  (n <= USIZE_MAX → parse_digits 0 (Byte.to_N <$> decimal_digits (S fuel) n) = Some n).
Proof.
  revert n. induction fuel as [|fuel IH]; intros n Hn; rewrite decimal_digits_S; cbv zeta;
    pose proof (N.mod_upper_bound n 10 ltac:(lia)) as Hmod;
    pose proof (N.div_mod' n 10) as Hdiv; pose proof (N.le_0_l (n / 10));
    destruct (N.ltb_spec n 10) as [Hlt|Hge].
  2: { change (2 ^ N.of_nat 0) with 1 in Hn. lia. }
  1,2: split_and!; [apply Forall_singleton, digit_is_digit; done|done|];
    intros Hmax; cbn [fmap list_fmap parse_digits]; rewrite digit_byte, to_digit_of by done;
    cbn [mbind option_bind]; rewrite N.mod_small by done;
    by destruct (N.leb_spec (0 * 10 + n) USIZE_MAX); [|lia].
  destruct (IH (n / 10)) as (Hds & Hne & Hparse).
  { apply N.Div0.div_lt_upper_bound. rewrite Nat2N.inj_succ, N.pow_succ_r' in Hn. lia. }
  split_and!.
  - apply Forall_app. split; [done|]. apply Forall_singleton, digit_is_digit. done.
  - intros [_ [=]]%app_eq_nil.
  - intros Hmax. rewrite fmap_app, list_fmap_singleton, parse_digits_snoc.
    rewrite Hparse by (etransitivity; [apply N.Div0.div_le_upper_bound|exact Hmax]; lia).
    cbn [fmap list_fmap parse_digits mbind option_bind]. rewrite digit_byte, to_digit_of by done.
    cbn [mbind option_bind]. rewrite (N.mul_comm (n / 10)), <-Hdiv.
    by destruct (N.leb_spec n USIZE_MAX); [|lia].
Qed.

Lemma decimal_spec n :
  Forall is_digit (decimal n) ∧ decimal n ≠ [] ∧
  (n <= USIZE_MAX → parse_digits 0 (Byte.to_N <$> decimal n) = Some n).
Proof. apply decimal_digits_spec. rewrite N2Nat.id. apply N.size_gt. Qed.

Lemma digits_ascii s : Forall is_digit s → forallb (between 0 127) s = true.
Proof.
  intros Hs. apply forallb_forall. intros b Hb%list_elem_of_In.
  rewrite Forall_forall in Hs. specialize (Hs _ Hb). red in Hs.
  apply between_spec. rewrite Byte.to_nat_via_N. lia.
Qed.

Lemma digit_not_whitespace c : 48 <= c <= 57 → is_whitespace c = false.
Proof.
  intros Hc. unfold is_whitespace.
  repeat match goal with
  | |- context [?a <=? ?b] => destruct (N.leb_spec a b); try lia
  | |- context [?a =? ?b] => destruct (N.eqb_spec a b); try lia
  end; reflexivity.
Qed.

Lemma trim_start_id s : Forall (λ c, is_whitespace c = false) s → trim_start s = s.
Proof. destruct 1 as [|c s Hc]; [done|]. simpl. by rewrite Hc. Qed.

Lemma trim_end_id s : Forall (λ c, is_whitespace c = false) s → trim_end s = s.
Proof.
  intros Hs. unfold trim_end. rewrite trim_start_id by by apply Forall_reverse.
  apply reverse_involutive.
Qed.

(** ** Lines *)

Lemma last_ends_with b s : ends_with b (s ++ [b]) = true.
Proof. unfold ends_with. rewrite last_snoc. apply byte_eqb_refl. Qed.

Lemma ends_with_elem b s : ends_with b s = true → b ∈ s.
Proof.
  unfold ends_with. destruct (last s) as [b'|] eqn:El; [|done]. intros ->%byte_eqb_eq.
  apply last_Some_elem_of in El. done.
Qed.

Lemma strip_suffix_snoc b s : strip_suffix b (s ++ [b]) = Some s.
Proof. unfold strip_suffix. by rewrite last_ends_with, removelast_last. Qed.

Lemma trim_line_crlf s : trim_line (s ++ [CR; LF]) = s.
Proof.
  unfold trim_line. change [CR; LF] with ([CR] ++ [LF]). rewrite (assoc_L (++)), strip_suffix_snoc.
  simpl. by rewrite strip_suffix_snoc.
Qed.

(** A line that ends in a bare newline is not trimmed of it: the blank line of
    a peer that writes no carriage returns does not end its header. *)
Lemma trim_line_keeps_bare_newline s : ends_with CR s = false → trim_line (s ++ [LF]) = s ++ [LF].
Proof.
  intros Hs. unfold trim_line. rewrite strip_suffix_snoc. cbn [default from_option id].
  unfold strip_suffix. by rewrite Hs.
Qed.

(** A line stops at its newline, or where the limit or the stream ends. *)
Lemma read_until_line limit s rest :
  LF ∉ s → N.of_nat (length s) < limit → read_until limit (s ++ LF :: rest) = (s ++ [LF], rest).
Proof.
  revert limit. induction s as [|b s IH]; intros limit Hs Hl; simpl in *;
    (destruct (N.eqb_spec limit 0); [lia|]); [done|].
  apply not_elem_of_cons in Hs as [Hb Hs]. rewrite IH by (done || lia).
  destruct (byte_eqb_neq b LF) as [_ ->]; done.
Qed.

Lemma read_until_end limit s :
  LF ∉ s → N.of_nat (length s) < limit → read_until limit s = (s, []).
Proof.
  revert limit. induction s as [|b s IH]; intros limit Hs Hl; simpl in *;
    (destruct (N.eqb_spec limit 0); [lia|]); [done|].
  apply not_elem_of_cons in Hs as [Hb Hs]. rewrite IH by (done || lia).
  destruct (byte_eqb_neq b LF) as [_ ->]; done.
Qed.

(** A line of a header: it ends at its first newline, and is no longer than
    the limit. *)
Definition complete_line (limit : N) (line : Text) : Prop :=
  ∃ s, line = s ++ [LF] ∧ LF ∉ s ∧ N.of_nat (length line) <= limit.

Lemma complete_line_cons limit b line :
  b ≠ LF → limit ≠ 0 → complete_line (limit - 1) line → complete_line limit (b :: line).
Proof.
  intros Hb Hl (s & -> & Hs & Hlen). exists (b :: s). split_and!; [done| |simpl in *; lia].
  apply not_elem_of_cons. split; [by apply not_eq_sym|done].
Qed.

Lemma read_until_spec limit s line rest :
  read_until limit s = (line, rest) →
  s = line ++ rest ∧
  (complete_line limit line ∨
   LF ∉ line ∧ (N.of_nat (length line) = limit ∨ N.of_nat (length line) < limit ∧ rest = [])).
Proof.
  revert limit line rest. induction s as [|b s IH]; intros limit line rest; simpl;
    (destruct (N.eqb_spec limit 0) as [->|Hlimit];
       [intros [= <- <-]; split; [done|right; split; [apply not_elem_of_nil|by left]]|]).
  { intros [= <- <-]. split; [done|]. right. split; [apply not_elem_of_nil|]. right. split; [simpl; lia|done]. }
  destruct (b =? LF)%u8 eqn:Hb; [apply byte_eqb_eq in Hb as ->|apply byte_eqb_neq in Hb].
  { intros [= <- <-]. split; [done|]. left. exists []. split_and!; [done|apply not_elem_of_nil|simpl; lia]. }
  destruct (read_until (limit - 1) s) as [line' rest'] eqn:E. intros [= <- <-].
  apply IH in E as [-> Hl]. split; [done|]. destruct Hl as [Hl|[Hlf Hl]];
    [left; by apply complete_line_cons|]. right. split.
  - apply not_elem_of_cons. split; [by apply not_eq_sym|done].
  - simpl. destruct Hl as [?|[? ->]]; [left; lia|right; split; [lia|done]].
Qed.

Lemma read_until_empty limit s rest : limit ≠ 0 → read_until limit s = ([], rest) → s = [].
Proof.
  intros Hl. destruct s as [|b s]; [done|]. simpl.
  destruct (N.eqb_spec limit 0); [done|]. destruct (b =? LF)%u8; [done|].
  by destruct (read_until (limit - 1) s).
Qed.

Lemma read_header_line_ok s rest :
  LF ∉ s → N.of_nat (length s) < MAX_HEADER_LINE_BYTES →
  read_header_line (s ++ LF :: rest) = (Ok (s ++ [LF]), rest).
Proof.
  intros Hs Hl. unfold read_header_line. rewrite read_until_line by done.
  by rewrite last_ends_with, andb_false_r.
Qed.

Lemma read_header_line_end s :
  LF ∉ s → N.of_nat (length s) < MAX_HEADER_LINE_BYTES → read_header_line s = (Ok s, []).
Proof.
  intros Hs Hl. unfold read_header_line. rewrite read_until_end by done.
  by destruct (N.eqb_spec (N.of_nat (length s)) MAX_HEADER_LINE_BYTES); [lia|].
Qed.

Lemma read_header_line_spec s out rest :
  read_header_line s = (out, rest) →
  ∃ line, s = line ++ rest ∧
    match out with
    | Ok line' => line' = line ∧
        (complete_line MAX_HEADER_LINE_BYTES line ∨
         LF ∉ line ∧ N.of_nat (length line) < MAX_HEADER_LINE_BYTES ∧ rest = [])
    | Err e =>
        e = HeaderLineTooLong ∧ LF ∉ line ∧ N.of_nat (length line) = MAX_HEADER_LINE_BYTES
    end.
Proof.
  unfold read_header_line. destruct (read_until MAX_HEADER_LINE_BYTES s) as [line rest'] eqn:E.
  pose proof (read_until_spec _ _ _ _ E) as [-> Hl]. destruct Hl as [Hl|[Hlf Hl]].
  - destruct (id Hl) as (l & -> & _ & _). rewrite last_ends_with, andb_false_r.
    intros [= <- <-]. eexists. split_and!; eauto.
  - assert (ends_with LF line = false) as ->.
    { destruct (ends_with LF line) eqn:Ee; [|done]. exfalso. apply Hlf. by apply ends_with_elem. }
    rewrite andb_true_r. destruct (N.eqb_spec (N.of_nat (length line)) MAX_HEADER_LINE_BYTES);
      intros [= <- <-]; exists line; split_and!; try done. right. destruct Hl as [?|[? ->]]; done.
Qed.

(** ** The header of a written frame *)

Definition length_line (n : N) : Text := bytes "Content-Length: " ++ decimal n.

Lemma frame_header_lines n body :
  frame_header n ++ body = (length_line n ++ [CR]) ++ LF :: ([CR] ++ LF :: body).
Proof. unfold frame_header, length_line. by rewrite <-!(assoc_L (++)). Qed.

Lemma length_line_ascii n : forallb (between 0 127) (length_line n) = true.
Proof.
  unfold length_line. rewrite forallb_app. apply andb_true_iff. split; [by vm_compute|].
  apply digits_ascii, decimal_spec.
Qed.

Lemma length_line_no_lf n : LF ∉ length_line n.
Proof.
  unfold length_line. rewrite not_elem_of_app. split.
  - intros H%list_elem_of_In. revert H. vm_compute. intuition discriminate.
  - intros H. pose proof (decimal_spec n) as [Hd _]. rewrite Forall_forall in Hd.
    specialize (Hd _ H). red in Hd. change (Byte.to_N LF) with 10 in Hd. lia.
Qed.

Lemma decimal_short fuel n : (length (decimal_digits fuel n) <= fuel)%nat.
Proof.
  revert n. induction fuel as [|fuel IH]; intros n; [done|]. cbn [decimal_digits].
  destruct (n <? 10); [simpl; lia|]. rewrite length_app. specialize (IH (n / 10)). simpl. lia.
Qed.

Lemma length_line_short n :
  n <= USIZE_MAX → N.of_nat (length (length_line n ++ [CR])) < MAX_HEADER_LINE_BYTES.
Proof.
  intros Hn. rewrite length_app. unfold length_line. rewrite length_app.
  pose proof (decimal_short (S (N.to_nat (N.size n))) n) as Hs. unfold decimal.
  assert (N.size n <= 64) as Hsize.
  { destruct (decide (n = 0)) as [->|]; [by vm_compute|].
    rewrite N.size_log2 by done. assert (N.log2 n < 64); [|lia].
    apply N.log2_lt_pow2; [lia|]. by apply N.le_lt_trans with USIZE_MAX. }
  change MAX_HEADER_LINE_BYTES with 8192. change (length (bytes "Content-Length: ")) with 16%nat.
  cbn [length]. lia.
Qed.

Lemma length_line_parts n :
  header_parts (length_line n) = Some (chars "Content-Length", Byte.to_N <$> decimal n).
Proof.
  unfold header_parts. rewrite from_utf8_ascii by apply length_line_ascii.
  cbn [mbind option_bind]. unfold length_line. rewrite fmap_app.
  set (ds := Byte.to_N <$> decimal n).
  assert (Forall (λ c, is_whitespace c = false) ds) as Hds.
  { apply Forall_fmap. eapply Forall_impl; [apply decimal_spec|].
    intros b Hb. by apply digit_not_whitespace. }
  change ((Byte.to_N <$> bytes "Content-Length: ") ++ ds)
    with (chars "Content-Length" ++ COLON :: 32 :: ds).
  change (split_once COLON (chars "Content-Length" ++ COLON :: 32 :: ds))
    with (Some (chars "Content-Length", 32 :: ds)).
  cbn [mbind option_bind]. f_equal. f_equal.
  unfold trim. change (trim_start (32 :: ds)) with (trim_start ds).
  rewrite trim_start_id by done. by apply trim_end_id.
Qed.

Lemma decimal_content_length n :
  n <= MAX_CONTENT_LENGTH_BYTES → content_length_value (Byte.to_N <$> decimal n) = Ok n.
Proof.
  intros Hn. unfold content_length_value.
  assert (parse_usize (Byte.to_N <$> decimal n) = Some n) as ->.
  { destruct (decimal_spec n) as (Hds & Hne & Hp). unfold parse_usize.
    destruct (decimal n) as [|b s]; [done|]. cbn [fmap list_fmap].
    apply Forall_cons_1 in Hds as [Hb _]. red in Hb.
    destruct (N.eqb_spec (Byte.to_N b) PLUS); [unfold PLUS in *; lia|].
    apply Hp. unfold MAX_CONTENT_LENGTH_BYTES, USIZE_MAX in *. lia. }
  by destruct (N.ltb_spec MAX_CONTENT_LENGTH_BYTES n); [lia|].
Qed.

(** ** Reading headers *)

(** What reading a header leaves: [lines] are the lines taken from the reader,
    and [cut] the part of a line taken where none ends, because the stream does
    or the line is too long. *)
Record header_read (saw : bool) (reader : Text) (out : Result (option (option N)) FrameError)
    (left : Text) (lines : list Text) (cut : Text) : Prop := {
  header_read_split : reader = concat lines ++ cut ++ left;
  header_read_lines : Forall (complete_line MAX_HEADER_LINE_BYTES) lines;
  header_read_cut : LF ∉ cut;
  header_read_short :
    match out with
    | Err HeaderLineTooLong => N.of_nat (length cut) = MAX_HEADER_LINE_BYTES
    | _ => N.of_nat (length cut) < MAX_HEADER_LINE_BYTES ∧ (cut ≠ [] → left = [])
    end;
  header_read_length : ∀ n, out = Ok (Some (Some n)) → n <= MAX_CONTENT_LENGTH_BYTES;
  header_read_end : out = Ok None → saw = false ∧ reader = [];
}.

(** A header that ends with a whole line, or with a line the stream cuts. *)
Lemma header_read_last saw reader out line left :
  reader = line ++ left → line ≠ [] → out ≠ Err HeaderLineTooLong → out ≠ Ok None →
  (∀ n, out = Ok (Some (Some n)) → n <= MAX_CONTENT_LENGTH_BYTES) →
  complete_line MAX_HEADER_LINE_BYTES line ∨
    LF ∉ line ∧ N.of_nat (length line) < MAX_HEADER_LINE_BYTES ∧ left = [] →
  ∃ lines cut, header_read saw reader out left lines cut.
Proof.
  intros -> Hne Hout Hnone Hn [Hl|(Hlf & Hl & ->)]; [exists [line], []|exists [], line];
    (split; cbn [concat]; rewrite ?app_nil_r, ?Forall_singleton, ?app_nil_l; try done;
     try (by destruct out as [|[]])).
  apply not_elem_of_nil.
Qed.

Lemma header_read_cons saw reader out line left lines cut :
  line ≠ [] → complete_line MAX_HEADER_LINE_BYTES line →
  header_read true reader out left lines cut →
  header_read saw (line ++ reader) out left (line :: lines) cut.
Proof.
  intros Hne Hline [-> Hlines Hcut Hshort Hlength Hend]. split; try done.
  - cbn [concat]. by rewrite <-(assoc_L (++)).
  - by constructor.
  - intros Ho. by destruct (Hend Ho).
Qed.

(** After a line the stream cuts there is nothing more to read. *)
Lemma header_read_after_end saw out left line lines cut :
  header_read true [] out left lines cut →
  LF ∉ line → line ≠ [] → N.of_nat (length line) < MAX_HEADER_LINE_BYTES →
  ∃ lines cut, header_read saw (line ++ []) out left lines cut.
Proof.
  intros [Hsplit _ _ Hshort Hlength Hend] Hlf Hne Hl. symmetry in Hsplit.
  apply app_eq_nil in Hsplit as [_ [-> ->]%app_eq_nil]. exists [], line.
  split; try done.
  - by destruct out as [|[]].
  - intros Ho. by destruct (Hend Ho).
Qed.

(** Enough fuel reads the header. *)
Lemma read_headers_spec fuel acc saw reader :
  (length reader < fuel)%nat → (∀ n, acc = Some n → n <= MAX_CONTENT_LENGTH_BYTES) →
  ∃ out left, read_headers fuel acc saw reader = Some (out, left) ∧
    ∃ lines cut, header_read saw reader out left lines cut.
Proof.
  revert acc saw reader. induction fuel as [|fuel IH]; intros acc saw reader Hfuel Hacc; [lia|].
  cbn [read_headers]. destruct (read_header_line reader) as [line rest] eqn:E.
  apply read_header_line_spec in E as (l & -> & Hline).
  destruct line as [line|e]; [destruct Hline as [-> Hline]|destruct Hline as (-> & Hlf & Hl)].
  2: { eexists _, _. split; [done|]. exists [], l. split; try done; by constructor. }
  destruct l as [|b l].
  { destruct Hline as [([|] & [=] & _)|(_ & _ & ->)]. eexists _, _. split; [done|].
    exists [], []. split; cbn; try (by destruct saw); try constructor; apply not_elem_of_nil. }
  destruct (trim_line (b :: l)) as [|c t].
  { eexists _, _. split; [done|]. apply (header_read_last _ _ _ (b :: l)); try done.
    intros n [= ->]. by apply Hacc. }
  assert (∀ acc', (∀ n, acc' = Some n → n <= MAX_CONTENT_LENGTH_BYTES) → ∃ out left,
    read_headers fuel acc' true rest = Some (out, left) ∧
    ∃ lines cut, header_read saw ((b :: l) ++ rest) out left lines cut) as Hnext.
  { intros acc' Hacc'. destruct (IH acc' true rest) as (out & left & -> & lines & cut & Hr); [|done|].
    { rewrite length_app in Hfuel. simpl in Hfuel. lia. }
    eexists _, _. split; [done|]. destruct Hline as [Hline|(Hlf & Hl & ->)].
    - eexists _, _. by apply header_read_cons.
    - by apply (header_read_after_end _ _ _ (b :: l) _ _ Hr). }
  destruct (header_parts (c :: t)) as [[name value]|].
  2: { eexists _, _. split; [done|]. by apply (header_read_last _ _ _ (b :: l)). }
  destruct (eq_ignore_ascii_case name (chars "content-length")); [|by apply Hnext].
  destruct (content_length_value value) as [n|e] eqn:Ec; unfold content_length_value in Ec;
    destruct (parse_usize value) as [m|];
    try destruct (N.ltb_spec MAX_CONTENT_LENGTH_BYTES m); try discriminate Ec.
  - apply Hnext. intros n' [= <-]. by injection Ec as <-.
  - eexists _, _. split; [done|]. injection Ec as <-. by apply (header_read_last _ _ _ (b :: l)).
  - eexists _, _. split; [done|]. injection Ec as <-. by apply (header_read_last _ _ _ (b :: l)).
Qed.

Lemma read_headers_end fuel acc :
  read_headers (S fuel) acc true [] = Some (Err UnexpectedEndOfHeaders, []).
Proof. reflexivity. Qed.

(** More fuel than enough changes nothing. *)
Lemma read_headers_fuel fuel fuel' acc saw reader out :
  read_headers fuel acc saw reader = Some out → (fuel <= fuel')%nat →
  read_headers fuel' acc saw reader = Some out.
Proof.
  revert fuel' acc saw reader. induction fuel as [|fuel IH]; intros [|fuel'] acc saw reader H Hle;
    try (done || lia). simpl in *.
  destruct (read_header_line reader) as [[line|] rest]; [|done]. destruct line as [|b l]; [done|].
  destruct (trim_line (b :: l)); [done|]. destruct (header_parts _) as [[name value]|]; [|done].
  destruct (eq_ignore_ascii_case _ _); [destruct (content_length_value value); [|done]|];
    (apply IH; [done|lia]).
Qed.

Lemma read_headers_length_line fuel n rest :
  n <= MAX_CONTENT_LENGTH_BYTES →
  read_headers (S fuel) None false ((length_line n ++ [CR]) ++ LF :: rest) =
  read_headers fuel (Some n) true rest.
Proof.
  intros Hn. cbn [read_headers]. rewrite read_header_line_ok.
  - rewrite <-(assoc_L (++)). change ([CR] ++ [LF]) with [CR; LF]. rewrite trim_line_crlf.
    pose proof (length_line_parts n) as Hp. unfold length_line in *.
    destruct (bytes "Content-Length: " ++ decimal n) as [|c t] eqn:E; [done|].
    cbn [app]. rewrite Hp. change (eq_ignore_ascii_case _ _) with true.
    by rewrite decimal_content_length.
  - rewrite not_elem_of_app. split; [apply length_line_no_lf|]. by rewrite list_elem_of_singleton.
  - apply length_line_short. unfold MAX_CONTENT_LENGTH_BYTES, USIZE_MAX in *. lia.
Qed.

Lemma read_frame_header n body :
  n <= MAX_CONTENT_LENGTH_BYTES →
  read_headers (S (length (frame_header n ++ body))) None false (frame_header n ++ body) =
  Some (Ok (Some (Some n)), body).
Proof.
  intros Hn. apply (read_headers_fuel 2).
  - rewrite frame_header_lines, read_headers_length_line by done. cbn [read_headers].
    by rewrite read_header_line_ok by (done || by rewrite list_elem_of_singleton).
  - rewrite frame_header_lines, !length_app. simpl. lia.
Qed.

(** A stream cut before the first newline holds no frame. *)
Lemma read_headers_unterminated s :
  LF ∉ s → s ≠ [] → N.of_nat (length s) < MAX_HEADER_LINE_BYTES →
  ∃ out, read_headers (S (length s)) None false s = Some (out, []) ∧
    (out = Ok (Some None) ∨ ∃ e, out = Err e).
Proof.
  intros Hlf Hne Hl. cbn [read_headers]. rewrite read_header_line_end by done.
  destruct s as [|b s]; [done|]. destruct (trim_line (b :: s)); [eauto|].
  destruct (header_parts _) as [[name value]|]; [|eauto].
  destruct (eq_ignore_ascii_case _ _); [destruct (content_length_value value); [|eauto]|];
    eexists; (split; [reflexivity|eauto]).
Qed.

(** ** Frames *)

Section Codec.
Context {Value : Type}.
Variable from_slice : Text → option Value.
Variable to_vec : Value → option Text.

(** A value that [serde_json] reads back from the text it printed, as it does
    of one nested no deeper than its parser recurses and whose numbers its
    parser restores. *)
Definition reads_back (value : Value) : Prop :=
  ∀ body, to_vec value = Some body → from_slice body = Some value.

(** No text at all is not a JSON value. *)
Hypothesis from_slice_nil : from_slice [] = None.

(** What the reader makes of a body. *)
Definition body_read (body : Text) : Result (option Value) FrameError :=
  match from_slice body with Some value => Ok (Some value) | None => Err InvalidJson end.

Lemma write_frame_ok value s :
  write_frame to_vec value = Ok s →
  ∃ body, to_vec value = Some body ∧ s = frame_header (N.of_nat (length body)) ++ body.
Proof. unfold write_frame. destruct (to_vec value) as [body|]; [intros [= <-]; eauto|done]. Qed.

Lemma read_written_frame body rest :
  N.of_nat (length body) <= MAX_CONTENT_LENGTH_BYTES →
  read_frame from_slice ((frame_header (N.of_nat (length body)) ++ body) ++ rest) =
  Some (body_read body, rest).
Proof.
  intros Hl. unfold read_frame. rewrite <-(assoc_L (++)), read_frame_header by done.
  cbn [mbind option_bind]. unfold read_exact.
  destruct (N.ltb_spec (N.of_nat (length (body ++ rest))) (N.of_nat (length body))) as [Hlt|_].
  { rewrite length_app in Hlt. lia. }
  by rewrite Nat2N.id, take_app_length, drop_app_length.
Qed.

(** C37. A peer that reads what [write_frame] wrote delimits each frame by
    itself, whatever follows it and whatever its body is: it takes from the
    stream that frame and no more, and reads its body.  So values that
    [serde_json] reads back from the text it printed for them, and whose bodies
    are no longer than the reader accepts, are read back in order and to the
    orderly end, however many the stream holds. *)
Theorem frames_roundtrip values frames fuel :
  Forall2 (λ value s, write_frame to_vec value = Ok s) values frames →
  Forall (λ value, ∀ body, to_vec value = Some body →
    N.of_nat (length body) <= MAX_CONTENT_LENGTH_BYTES) values →
  (length values < fuel)%nat →
  (∀ value s rest, (value, s) ∈ zip values frames → ∃ body, to_vec value = Some body ∧
    read_frame from_slice (s ++ rest) =
      Some (match from_slice body with Some v => Ok (Some v) | None => Err InvalidJson end, rest)) ∧
  (Forall reads_back values →
    read_frames from_slice fuel (concat frames) = Some (Ok values) ∧
    ∀ value s rest, (value, s) ∈ zip values frames →
      read_frame from_slice (s ++ rest) = Some (Ok (Some value), rest)).
Proof.
  intros Hw. revert fuel. induction Hw as [|value s values frames Hs Hw IH];
    intros fuel Hl Hfuel; (destruct fuel as [|fuel]; [simpl in Hfuel; lia|]).
  { split; [|split; [done|]]; by intros ??? ?%elem_of_nil. }
  apply Forall_cons_1 in Hl as [Hv Hl]. apply write_frame_ok in Hs as (body & Hbody & ->).
  specialize (Hv _ Hbody). destruct (IH fuel) as [IHd IHs]; [done|simpl in Hfuel; lia|]. split.
  - intros value' s' rest. cbn [zip zip_with]. intros [[= -> ->]|Hin]%elem_of_cons; [|by apply IHd].
    exists body. split; [done|]. by apply read_written_frame.
  - intros [Hback Hbacks]%Forall_cons_1. destruct (IHs Hbacks) as [IHr IHf].
    specialize (Hback _ Hbody). split.
    + cbn [read_frames concat]. rewrite read_written_frame by done. unfold body_read.
      rewrite Hback. cbn [mbind option_bind]. by rewrite IHr.
    + intros value' s' rest. cbn [zip zip_with].
      intros [[= -> ->]|Hin]%elem_of_cons; [|by apply IHf].
      etransitivity; [by apply read_written_frame|]. unfold body_read. by rewrite Hback.
Qed.

Lemma read_frame_total reader : ∃ out rest, read_frame from_slice reader = Some (out, rest).
Proof using Type.
  destruct (read_headers_spec (S (length reader)) None false reader) as (headers & left & Hh & _);
    [lia|done|]. unfold read_frame. rewrite Hh. cbn [mbind option_bind].
  destruct headers as [[[n|]|]|e]; [|by eexists _, _..].
  destruct (read_exact n left) as [body rest]. by eexists _, _.
Qed.

(** C38. Reading always ends, and what a peer can make the reader hold is bounded,
    whatever bytes it sends.  What is taken for a header are lines, each up to
    its first newline and of at most 8 KiB, and at most one more that has no
    newline: either the stream ends there, before 8 KiB, or 8 KiB were taken and
    the line is refused as too long, and no line is refused as that otherwise.
    A body buffer is allocated for at most 64 MiB, the reader is left at a suffix
    of the stream, and only the empty stream is an orderly end. *)
Theorem frame_reading_bounded reader :
  ∃ headers left, read_headers (S (length reader)) None false reader = Some (headers, left) ∧
  (∃ lines cut, reader = concat lines ++ cut ++ left ∧
    Forall (complete_line MAX_HEADER_LINE_BYTES) lines ∧ LF ∉ cut ∧
    match headers with
    | Err HeaderLineTooLong => N.of_nat (length cut) = MAX_HEADER_LINE_BYTES
    | _ => N.of_nat (length cut) < MAX_HEADER_LINE_BYTES ∧ (cut ≠ [] → left = [])
    end) ∧
  (∀ n, headers = Ok (Some (Some n)) → n <= MAX_CONTENT_LENGTH_BYTES) ∧
  ∃ out rest, read_frame from_slice reader = Some (out, rest) ∧ rest `suffix_of` reader ∧
  (out = Ok None ↔ reader = []).
Proof using Type.
  destruct (read_headers_spec (S (length reader)) None false reader)
    as (headers & left & Hh & lines & cut & [Hr Hlines Hcut Hshort Hn Hend]); [lia|done|].
  exists headers, left. split_and!; [done|by exists lines, cut|done|].
  assert (left `suffix_of` reader) as Hleft by (exists (concat lines ++ cut); by rewrite <-(assoc_L (++))).
  assert (∀ e, reader = [] → Some (headers, left) ≠ Some (Err e, left)) as Hnil.
  { intros e ->. by rewrite <-Hh. }
  unfold read_frame. rewrite Hh. cbn [mbind option_bind].
  destruct headers as [[[n|]|]|e].
  - unfold read_exact. destruct (_ <? n); cbn [res_bind].
    + eexists _, _. split_and!; [done|eexists; symmetry; apply app_nil_r|].
      split; [done|]. intros ->. discriminate Hh.
    + set (out := match from_slice _ with Some value => Ok (Some value) | None => Err InvalidJson end).
      assert (out = Err InvalidJson ∨ ∃ v, out = Ok (Some v)) as Ho.
      { unfold out. destruct (from_slice (take _ _)) as [v|]; [right; by exists v|by left]. }
      exists out, (drop (N.to_nat n) left). split_and!; [done| |].
      * destruct Hleft as [k ->]. exists (k ++ take (N.to_nat n) left).
        by rewrite <-(assoc_L (++)), take_drop.
      * split; [by destruct Ho as [-> | [? ->]]|]. intros ->. discriminate Hh.
  - eexists _, _. split_and!; [done..|]. split; [done|]. intros ->. discriminate Hh.
  - eexists _, _. split_and!; [done..|]. split; [|done]. intros _. by apply Hend.
  - eexists _, _. split_and!; [done..|]. split; [done|]. intros Hnil'. by destruct (Hnil e Hnil').
Qed.

(** A body shorter than announced, or an empty one, is no message. *)
Lemma read_frame_short n reader part :
  read_headers (S (length reader)) None false reader = Some (Ok (Some (Some n)), part) →
  N.of_nat (length part) < n ∨ n = 0 →
  ∃ e rest, read_frame from_slice reader = Some (Err e, rest).
Proof using from_slice_nil.
  intros Hh Hn. unfold read_frame. rewrite Hh. cbn [mbind option_bind]. unfold read_exact.
  destruct (N.ltb_spec (N.of_nat (length part)) n); [eexists _, _; reflexivity|].
  assert (n = 0) as -> by lia. change (take (N.to_nat 0) part) with (@nil byte). cbn [res_bind].
  rewrite from_slice_nil. eexists _, _. reflexivity.
Qed.

(** A connection that breaks inside a frame is an error: no proper part of a
    written frame is taken for a message or for an orderly end. *)
Theorem truncated_frame_refused value frame k :
  write_frame to_vec value = Ok frame →
  (∀ body, to_vec value = Some body → N.of_nat (length body) <= MAX_CONTENT_LENGTH_BYTES) →
  (0 < k < length frame)%nat →
  ∃ e rest, read_frame from_slice (take k frame) = Some (Err e, rest).
Proof.
  intros Hw Hmax Hk. apply write_frame_ok in Hw as (body & Hbody & ->). specialize (Hmax _ Hbody).
  set (n := N.of_nat (length body)) in *. rewrite frame_header_lines in *.
  assert (N.of_nat (length (length_line n ++ [CR])) < MAX_HEADER_LINE_BYTES) as Hshort.
  { apply length_line_short. etransitivity; [exact Hmax|]. by vm_compute. }
  assert (LF ∉ length_line n ++ [CR]) as Hlf.
  { rewrite not_elem_of_app, list_elem_of_singleton. split; [apply length_line_no_lf|done]. }
  destruct (decide (k <= length (length_line n ++ [CR]))%nat) as [Hle|Hgt].
  { rewrite take_app_le by done. clear -Hlf Hshort Hle Hk.
    set (l := length_line n ++ [CR]) in *. destruct (read_headers_unterminated (take k l)) as (out & Hh & Hout).
    - intros Hin. apply Hlf. rewrite <-(take_drop k l). apply elem_of_app. by left.
    - intros E. apply (f_equal length) in E. rewrite length_take in E. simpl in E. lia.
    - rewrite length_take. lia.
    - unfold read_frame. rewrite Hh. cbn [mbind option_bind].
      destruct Hout as [->|[e ->]]; eexists _, _; reflexivity. }
  set (l := length_line n ++ [CR]) in *.
  replace k with (length l + S (k - length l - 1))%nat by lia.
  rewrite take_app_add, firstn_cons. rewrite !length_app in Hk. cbn [length app] in Hk.
  destruct (k - length l - 1)%nat as [|[|j]] eqn:Ej.
  - unfold read_frame. subst l. rewrite read_headers_length_line by exact Hmax.
    rewrite length_app, Nat.add_comm. cbn [length]. change (take 0 _) with (@nil byte).
    rewrite Nat.add_succ_l, read_headers_end. by eexists _, _.
  - apply (read_frame_short n _ []); [|simpl; clear; lia]. apply (read_headers_fuel 2).
    + subst l. by rewrite read_headers_length_line by exact Hmax.
    + rewrite length_app. cbn [length app take]. clear. lia.
  - cbn [app take]. apply (read_frame_short n _ (take j body)).
    + subst l. change ([CR; LF] ++ take j body) with ([CR] ++ LF :: take j body).
      change (CR :: LF :: take j body) with ([CR] ++ LF :: take j body).
      rewrite <-frame_header_lines. apply read_frame_header. exact Hmax.
    + left. rewrite length_take. subst n. lia.
Qed.

End Codec.

(** A codec to run the framing on: a value is its own, non-empty, text. *)
Definition text_of (s : Text) : option Text := match s with [] => None | _ => Some s end.

Lemma text_of_inv s t : text_of s = Some t → text_of t = Some s.
Proof. destruct s; [done|]. by intros [= <-]. Qed.

Lemma frames_roundtrip_witness :
  read_frames text_of 3 (concat [bytes "Content-Length: 2" ++ [CR; LF; CR; LF] ++ bytes "{}";
                                 bytes "Content-Length: 12" ++ [CR; LF; CR; LF] ++ bytes "[1,2,3,4,5] "]) =
  Some (Ok [bytes "{}"; bytes "[1,2,3,4,5] "]).
Proof.
  apply (frames_roundtrip text_of text_of [bytes "{}"; bytes "[1,2,3,4,5] "]
    [_; _] 3).
  - repeat constructor.
  - repeat constructor; intros body [= <-]; vm_compute; discriminate.
  - apply (Nat.ltb_lt 2 3). reflexivity.
  - repeat constructor; intros body; apply text_of_inv.
Defined.

Lemma truncated_frame_refused_witness :
  ∃ e rest, read_frame text_of (bytes "Content-Length: 2" ++ [CR; LF; CR; LF] ++ bytes "{") =
    Some (Err e, rest).
Proof.
  apply (truncated_frame_refused text_of text_of eq_refl (bytes "{}")
    (bytes "Content-Length: 2" ++ [CR; LF; CR; LF] ++ bytes "{}") 22).
  - reflexivity.
  - intros body [= <-]. vm_compute. discriminate.
  - split; [apply (Nat.ltb_lt 0 22)|apply (Nat.ltb_lt 22 23)]; reflexivity.
Defined.
