(* ===== verification/Cancellation.v ===== *)
(** * JSON values and cancellation

    [serde_json], as the interface the language server uses: a value, its
    accessors and constructors, and the text it is read from and printed to.

    [pure-analyzer-lsp/src/cancellation.rs]: the registry of in-flight requests.
    A [CancellationToken] is a shared flag ([Arc<AtomicBool>]): here an address
    into the flags the registry has allocated, compared as [Arc::ptr_eq] does. *)

From stdpp Require Import countable.
From S2P Require Import Prelude Utf8 Document.

Class Json := {
  Value : Type;
  #[global] Value_eq_dec :: EqDecision Value;
  (** [Value::is_object], [get], [as_str], [as_i64], [as_u64] and [as_array]. *)
  is_object : Value → bool;
  get : Value → string → option Value;
  as_str : Value → option string;
  as_i64 : Value → option Z;
  as_u64 : Value → option N;
  as_array : Value → option (list Value);
  (** [Value::Null], [Bool], [String], [Number], [Array] and [Object]. *)
  VNull : Value;
  VBool : bool → Value;
  VString : string → Value;
  VNumber : Z → Value;
  VArray : list Value → Value;
  VObject : list (string * Value) → Value;
  (** [serde_json::from_slice] and [to_vec]. *)
  from_slice : Text → option Value;
  to_vec : Value → option Text;
}.

(** The characters of a string. *)
Definition str_chars (s : string) : Str := default [] (from_utf8 (String.list_byte_of_string s)).

(** ** A model of the interface

    Trees over strings and integers.  Its texts are not JSON: a text is a number,
    the value looked up in a list of messages, which is enough to run a
    session. *)
Module Tree.
Abbreviation tree := (gen_tree (string + Z)).

Fixpoint fields_get (fields : list tree) (key : string) : option tree :=
  match fields with
  | GenLeaf (inl k) :: v :: fields => if String.eqb k key then Some v else fields_get fields key
  | _ => None
  end.

Definition json_of (messages : list (Text * tree)) : Json := {|
  Value := tree;
  is_object v := match v with GenNode 2 _ => true | _ => false end;
  get v key := match v with GenNode 2 fields => fields_get fields key | _ => None end;
  as_str v := match v with GenLeaf (inl s) => Some s | _ => None end;
  as_i64 v := match v with
    | GenLeaf (inr z) => if bool_decide (-9223372036854775808 ≤ z ≤ 9223372036854775807)%Z then Some z else None
    | _ => None end;
  as_u64 v := match v with
    | GenLeaf (inr z) => if bool_decide (0 ≤ z ≤ 18446744073709551615)%Z then Some (Z.to_N z) else None
    | _ => None end;
  as_array v := match v with GenNode 1 vs => Some vs | _ => None end;
  VNull := GenNode 0 [];
  VBool b := GenNode (if b then 4 else 3) [];
  VString s := GenLeaf (inl s);
  VNumber z := GenLeaf (inr z);
  VArray vs := GenNode 1 vs;
  VObject fields := GenNode 2 (concat (List.map (λ '(k, v), [GenLeaf (inl k); v]) fields));
  from_slice t := option_map snd (List.find (λ m, bool_decide (m.1 = t)) messages);
  to_vec v := option_map fst (List.find (λ m, bool_decide (m.2 = v)) messages);
|}.
End Tree.

From S2P Require Import BTree.

(** [#[derive(Ord)]]: every string precedes every number. *)
Inductive RequestId :=
| IdString (s : string)
| IdNumber (n : Z).

#[global] Instance RequestId_eq_dec : EqDecision RequestId.
Proof. solve_decision. Defined.

#[global] Instance RequestId_ord : OrdKey RequestId := λ a b,
  match a, b with
  | IdString a, IdString b => key_cmp a b
  | IdString _, IdNumber _ => Lt
  | IdNumber _, IdString _ => Gt
  | IdNumber a, IdNumber b => Z.compare a b
  end.

#[global] Instance RequestId_ord_laws : OrdKeyLaws RequestId.
Proof.
  split.
  - intros [a|a] [b|b]; unfold key_cmp, RequestId_ord; try done.
    + rewrite (key_cmp_eq (K := string)). split; [by intros ->|by intros [= ->]].
    + rewrite Z.compare_eq_iff. split; [by intros ->|by intros [= ->]].
  - intros [a|a] [b|b]; try done; [apply (key_cmp_antisym (K := string))|apply Z.compare_antisym].
  - intros [a|a] [b|b] [c|c]; unfold key_cmp, RequestId_ord; try done; [apply (key_cmp_trans (K := string))|].
    rewrite !Z.compare_lt_iff. lia.
Qed.

(** [RequestId::from_json]. *)
Definition from_json `{Json} (value : Value) : option RequestId :=
  match as_str value with
  | Some s => Some (IdString s)
  | None => IdNumber <$> as_i64 value
  end.

(** ** The registry *)

Abbreviation CancellationToken := nat.

Record CancellationRegistry := {
  active : list (RequestId * CancellationToken);
  flags : list bool;
}.

Definition CancellationRegistry_default : CancellationRegistry := {| active := []; flags := [] |}.

Definition is_cancelled (r : CancellationRegistry) (token : CancellationToken) : bool :=
  default false (flags r !! token).

Definition same_request (a b : CancellationToken) : bool := Nat.eqb a b.

(** [CancellationToken::cancel]. *)
Definition cancel_token (r : CancellationRegistry) (token : CancellationToken) : CancellationRegistry :=
  {| active := active r; flags := <[token := true]> (flags r) |}.

Definition begin (r : CancellationRegistry) (request : RequestId)
    : CancellationRegistry * option CancellationToken :=
  match bt_get (active r) request with
  | Some _ => (r, None)
  | None =>
      let token := length (flags r) in
      ({| active := bt_insert (active r) request token; flags := flags r ++ [false] |}, Some token)
  end.

Definition cancel (r : CancellationRegistry) (request : RequestId) : CancellationRegistry :=
  match bt_get (active r) request with
  | Some token => cancel_token r token
  | None => r
  end.

Definition finish (r : CancellationRegistry) (request : RequestId) (token : CancellationToken)
    : CancellationRegistry * bool :=
  match bt_get (active r) request with
  | Some active_token =>
      if same_request active_token token
      then ({| active := bt_remove (active r) request; flags := flags r |}, is_cancelled r token)
      else (r, false)
  | None => (r, false)
  end.
