(* ===== verification/Server.v ===== *)
(** * The language server

    [pure-analyzer-lsp/src]: [server.rs], [dispatch.rs], [scheduler.rs],
    [workspace.rs], [response.rs] and the request handlers of [state.rs].

    One thread reads frames and waits for each to be acknowledged; one
    coordinator owns the server's state and the writer; pool threads compute
    detached requests and hand their results back through the coordinator's
    queue.  [World] is the state of them all and [step] lets any of them move.

    What a handler computes from a snapshot of the documents is the interface
    [Analysis]. *)

From S2P Require Import Prelude BTree Utf8 Frame Document Cancellation.
#[local] Open Scope N_scope.

(** ** Workspace configuration *)

Inductive ModelDocumentKind := Pmcd | Pure.

#[global] Instance ModelDocumentKind_eq_dec : EqDecision ModelDocumentKind.
Proof. solve_decision. Defined.

Record ModelDocument := { route_uri : string; route_kind : ModelDocumentKind }.

#[global] Instance ModelDocument_eq_dec : EqDecision ModelDocument.
Proof. solve_decision. Defined.

Inductive Lifecycle := New | Running | ShuttingDown.
Inductive ServerExit := Clean | Unclean.

#[global] Instance Lifecycle_eq_dec : EqDecision Lifecycle.
Proof. solve_decision. Defined.
#[global] Instance ServerExit_eq_dec : EqDecision ServerExit.
Proof. solve_decision. Defined.

(** ** Snapshots *)

#[global] Instance DocumentSnapshot_eq_dec : EqDecision DocumentSnapshot.
Proof. solve_decision. Defined.

(** Its [ModelRoute]s carry what a [ModelDocument] does. *)
Record AnalysisSnapshot := {
  document_revision : N;
  configuration_revision : N;
  snapshot_documents : list (string * DocumentSnapshot);
  snapshot_models : list ModelDocument;
}.

(** [response.rs]: a diagnostic as it is published. *)
Record PublishedDiagnostic := {
  published_range : ProtocolRange;
  severity : N;
  code : option string;
  message : string;
}.

(** The analysis behind the requests.  The outer [option] is a panic, which the
    worker catches. *)
Class Analysis `{Json} := {
  hover : AnalysisSnapshot → string → ProtocolPosition → option (option Value);
  definition : AnalysisSnapshot → string → ProtocolPosition → option Value;
  code_actions : AnalysisSnapshot → string → option (option (list Value));
  diagnostics : AnalysisSnapshot → list (string * list PublishedDiagnostic);
  (** [env!("CARGO_PKG_VERSION")]. *)
  package_version : string;
}.

Section Server.
Context `{Analysis}.

(** [model_documents]: the routes of a configuration, each URI once. *)
Fixpoint model_routes (seen : list string) (routes : list Value) : list ModelDocument :=
  match routes with
  | [] => []
  | route :: routes =>
      match get route "uri" ≫= as_str, get route "kind" ≫= as_str with
      | Some uri, Some kind =>
          let kind := if String.eqb kind "pmcd" then Some Pmcd
                      else if String.eqb kind "pure" then Some Pure else None in
          match kind with
          | None => model_routes seen routes
          | Some kind =>
              if String.eqb uri "" then model_routes seen routes
              else if bool_decide (uri ∈ seen) then model_routes seen routes
              else {| route_uri := uri; route_kind := kind |} :: model_routes (uri :: seen) routes
          end
      | _, _ => model_routes seen routes
      end
  end.

Definition model_documents (settings : Value) : list ModelDocument :=
  match get settings "modelDocuments" ≫= as_array with
  | Some routes => model_routes [] routes
  | None => []
  end.

Record WorkspaceConfiguration := {
  settings : option Value;
  configured_models : list ModelDocument;
  config_revision : N;
}.

Definition WorkspaceConfiguration_default : WorkspaceConfiguration :=
  {| settings := None; configured_models := []; config_revision := 0 |}.

(** [WorkspaceConfiguration::update], and [replace], which drops its result. *)
Definition update (c : WorkspaceConfiguration) (new_settings : Value) : WorkspaceConfiguration * bool :=
  if bool_decide (settings c = Some new_settings) then (c, false)
  else match u64_checked_add (config_revision c) 1 with
  | None => (c, false)
  | Some revision =>
      ({| settings := Some new_settings; configured_models := model_documents new_settings;
          config_revision := revision |}, true)
  end.

Definition configuration_replace (c : WorkspaceConfiguration) (new_settings : Value)
    : WorkspaceConfiguration := (update c new_settings).1.

(** ** The server's state *)

Record Server := {
  cancellation : CancellationRegistry;
  configuration : WorkspaceConfiguration;
  documents : DocumentStore;
  lifecycle : Lifecycle;
}.

(** [Server::new]. *)
Definition Server_new : Server := {|
  cancellation := CancellationRegistry_default;
  configuration := WorkspaceConfiguration_default;
  documents := DocumentStore_default;
  lifecycle := New;
|}.

Definition with_cancellation (s : Server) (r : CancellationRegistry) : Server :=
  {| cancellation := r; configuration := configuration s; documents := documents s;
     lifecycle := lifecycle s |}.
Definition with_configuration (s : Server) (c : WorkspaceConfiguration) : Server :=
  {| cancellation := cancellation s; configuration := c; documents := documents s;
     lifecycle := lifecycle s |}.
Definition with_documents (s : Server) (d : DocumentStore) : Server :=
  {| cancellation := cancellation s; configuration := configuration s; documents := d;
     lifecycle := lifecycle s |}.
Definition with_lifecycle (s : Server) (l : Lifecycle) : Server :=
  {| cancellation := cancellation s; configuration := configuration s; documents := documents s;
     lifecycle := l |}.

(** [AnalysisSnapshot::capture]. *)
Definition capture (s : Server) : AnalysisSnapshot :=
  let docs := bt_of_list ((λ d, (uri d, d)) <$> (Document.documents (documents s)).*2) in
  {| document_revision := revision (documents s);
     configuration_revision := config_revision (configuration s);
     snapshot_documents := docs;
     snapshot_models :=
       List.filter (λ route, bool_decide (is_Some (bt_get docs (route_uri route))))
         (configured_models (configuration s)) |}.

(** [AnalysisSnapshot::is_current]. *)
Definition snapshot_is_current (snapshot : AnalysisSnapshot) (s : Server) : bool :=
  (document_revision snapshot =? revision (documents s))
  && (configuration_revision snapshot =? config_revision (configuration s))
  && Nat.eqb (length (snapshot_documents snapshot)) (store_len (documents s))
  && forallb (λ '(uri, document), bool_decide (store_get (documents s) uri = Some document))
       (snapshot_documents snapshot).

(** ** Detached requests *)

Inductive RequestWork :=
| Hover (snapshot : AnalysisSnapshot) (uri : string) (position : ProtocolPosition)
| DefinitionOf (snapshot : AnalysisSnapshot) (uri : string) (position : ProtocolPosition)
| CodeActions (snapshot : AnalysisSnapshot) (uri : string).

Record RequestCompletion := {
  completion_snapshot : AnalysisSnapshot;
  stale_result : Value;
  completion_result : Value;
}.

(** [RequestWork::execute]; [None] is a panic. *)
Definition execute (work : RequestWork) : option RequestCompletion :=
  match work with
  | Hover snapshot uri position =>
      result ← hover snapshot uri position;
      Some {| completion_result := default VNull result;
              completion_snapshot := snapshot; stale_result := VNull |}
  | DefinitionOf snapshot uri position =>
      result ← definition snapshot uri position;
      Some {| completion_result := result;
              completion_snapshot := snapshot; stale_result := VNull |}
  | CodeActions snapshot uri =>
      actions ← code_actions snapshot uri;
      Some {| completion_result := VArray (default [] actions);
              completion_snapshot := snapshot; stale_result := VArray [] |}
  end.

(** [RequestCompletion::is_current]. *)
Definition is_current (c : RequestCompletion) (s : Server) : bool :=
  snapshot_is_current (completion_snapshot c) s.

(** ** Messages to the client *)

Definition INVALID_REQUEST_CODE : Z := (-32600)%Z.
Definition METHOD_NOT_FOUND_CODE : Z := (-32601)%Z.
Definition INVALID_PARAMS_CODE : Z := (-32602)%Z.
Definition SERVER_NOT_INITIALIZED_CODE : Z := (-32002)%Z.
Definition REQUEST_CANCELLED_CODE : Z := (-32800)%Z.
Definition INTERNAL_ERROR_CODE : Z := (-32603)%Z.

(** One message written: [send_result], [send_error], [publish_diagnostics]. *)
Inductive Output :=
| Response (id : Value) (result : Value)
| ErrorResponse (id : Value) (error_code : Z) (error_message : string)
| PublishDiagnostics (uri : string) (version : option Z) (findings : list PublishedDiagnostic).

Definition position_value (p : ProtocolPosition) : Value :=
  VObject [("line", VNumber (Z.of_N (line p))); ("character", VNumber (Z.of_N (character p)))].
Definition range_value (r : ProtocolRange) : Value :=
  VObject [("start", position_value (range_start r)); ("end", position_value (range_end r))].

(** [PublishedDiagnostic::value]. *)
Definition diagnostic_value (d : PublishedDiagnostic) : Value :=
  VObject ([("range", range_value (published_range d)); ("severity", VNumber (Z.of_N (severity d)))]
    ++ match code d with Some c => [("code", VString c)] | None => [] end
    ++ [("source", VString "pure-analyzer"); ("message", VString (message d))]).

(** The value [write_frame] is given. *)
Definition output_value (o : Output) : Value :=
  match o with
  | Response id result => VObject [("jsonrpc", VString "2.0"); ("id", id); ("result", result)]
  | ErrorResponse id error_code error_message =>
      VObject [("jsonrpc", VString "2.0"); ("id", id);
               ("error", VObject [("code", VNumber error_code); ("message", VString error_message)])]
  | PublishDiagnostics uri version findings =>
      VObject [("jsonrpc", VString "2.0"); ("method", VString "textDocument/publishDiagnostics");
        ("params", VObject ([("uri", VString uri)]
           ++ match version with Some v => [("version", VNumber v)] | None => [] end
           ++ [("diagnostics", VArray (diagnostic_value <$> findings))]))]
  end.

Definition initialization_result : Value :=
  VObject [
    ("capabilities", VObject [
      ("positionEncoding", VString "utf-16");
      ("hoverProvider", VBool true);
      ("textDocumentSync", VObject [
        ("openClose", VBool true); ("change", VNumber 2);
        ("save", VObject [("includeText", VBool false)])]);
      ("definitionProvider", VBool true);
      ("codeActionProvider", VObject [("codeActionKinds", VArray [VString "quickfix"])])]);
    ("serverInfo", VObject [
      ("name", VString "pure-analyzer-lsp"); ("version", VString package_version)])].

(** ** Request parameters *)

(** [value.and_then(|value| value.get(key))]. *)
Definition field (value : option Value) (key : string) : option Value :=
  value ← value; get value key.

Definition u32_of (value : Value) : option N :=
  n ← as_u64 value; if n <=? U32_MAX then Some n else None.

Definition protocol_position (position : Value) : option ProtocolPosition :=
  line ← get position "line" ≫= u32_of;
  character ← get position "character" ≫= u32_of;
  Some {| line := line; character := character |}.

Definition protocol_range (range : Value) : option ProtocolRange :=
  start ← get range "start" ≫= protocol_position;
  end_ ← get range "end" ≫= protocol_position;
  Some {| range_start := start; range_end := end_ |}.

Definition content_change (change : Value) : option ContentChange :=
  new_text ← get change "text" ≫= as_str;
  range ← match get change "range" with
    | Some range => Some <$> protocol_range range
    | None => Some None
    end;
  range_length ← match get change "rangeLength" with
    | Some value => Some <$> u32_of value
    | None => Some None
    end;
  Some {| change_range := range; range_length := range_length; change_text := str_chars new_text |}.

Definition content_changes (params : option Value) : option (list ContentChange) :=
  changes ← field params "contentChanges" ≫= as_array;
  match changes with [] => None | _ => mapM content_change changes end.

Definition document_uri (params : Value) : option string :=
  field (get params "textDocument") "uri" ≫= as_str.

(** [hover_request] and [definition_params]. *)
Definition hover_request (params : option Value) : option (string * ProtocolPosition) :=
  params ← params;
  uri ← document_uri params;
  position ← get params "position" ≫= protocol_position;
  Some (uri, position).

Definition definition_params (params : option Value) : option (string * ProtocolPosition) :=
  params ← params;
  uri ← document_uri params;
  position ← get params "position" ≫= protocol_position;
  Some (uri, position).

Definition code_action_uri (params : option Value) : option string :=
  params ← params;
  uri ← document_uri params;
  _ ← get params "range" ≫= protocol_range;
  _ ← field (get params "context") "diagnostics" ≫= as_array;
  Some uri.

(** [hover_work], [definition_work] and [code_actions_work]; [None] is
    [RequestParamsError::InvalidParams]. *)
Definition hover_work (s : Server) (params : option Value) : option RequestWork :=
  '(uri, position) ← hover_request params; Some (Hover (capture s) uri position).
Definition definition_work (s : Server) (params : option Value) : option RequestWork :=
  '(uri, position) ← definition_params params; Some (DefinitionOf (capture s) uri position).
Definition code_actions_work (s : Server) (params : option Value) : option RequestWork :=
  uri ← code_action_uri params; Some (CodeActions (capture s) uri).

(** ** Notifications *)

Definition cancel_request (s : Server) (params : option Value) : Server :=
  match field params "id" ≫= from_json with
  | Some request => with_cancellation s (cancel (cancellation s) request)
  | None => s
  end.

Definition publish_current_diagnostics (s : Server) : list Output :=
  let snapshot := capture s in
  let found := diagnostics snapshot in
  (λ document, PublishDiagnostics (uri document) (version document)
     (default [] (bt_get found (uri document)))) <$> (snapshot_documents snapshot).*2.

Definition open_document (s : Server) (params : option Value) : Server * list Output :=
  match field params "textDocument" with
  | None => (s, [])
  | Some document =>
      match get document "uri" ≫= as_str, get document "text" ≫= as_str with
      | Some uri, Some text =>
          let '(docs, changed) := replace (documents s)
            {| uri := uri; text := str_chars text; version := get document "version" ≫= as_i64 |} in
          let s := with_documents s docs in
          (s, if changed then publish_current_diagnostics s else [])
      | _, _ => (s, [])
      end
  end.

(** [None] is a panic of [apply_changes]; there is none
    ([coordinator_never_stuck]). *)
Definition change_document (s : Server) (params : option Value) : option (Server * list Output) :=
  match field params "textDocument" with
  | None => Some (s, [])
  | Some document =>
      match get document "uri" ≫= as_str, get document "version" ≫= as_i64 with
      | Some uri, Some version =>
          match content_changes params with
          | None => Some (s, [])
          | Some changes =>
              '(docs, changed) ← apply_changes (documents s) uri version changes;
              let s := with_documents s docs in
              Some (s, if changed : bool then publish_current_diagnostics s else [])
          end
      | _, _ => Some (s, [])
      end
  end.

Definition save_document (s : Server) (params : option Value) : Server * list Output :=
  match params ≫= document_uri with
  | None => (s, [])
  | Some uri =>
      (s, match store_get (documents s) uri with
          | Some _ => publish_current_diagnostics s
          | None => []
          end)
  end.

Definition close_document (s : Server) (params : option Value) : Server * list Output :=
  match params ≫= document_uri with
  | None => (s, [])
  | Some u =>
      match remove (documents s) u with
      | (docs, None) => (with_documents s docs, [])
      | (docs, Some document) =>
          let s := with_documents s docs in
          (s, PublishDiagnostics (uri document) (version document) [] :: publish_current_diagnostics s)
      end
  end.

Definition update_configuration (s : Server) (params : option Value) : Server * list Output :=
  match field params "settings" with
  | None => (s, [])
  | Some new_settings =>
      let s := with_configuration s (configuration_replace (configuration s) new_settings) in
      (s, publish_current_diagnostics s)
  end.

(** ** The scheduler *)

(** What the closure given to [rayon::spawn] owns. *)
Record Worker := {
  worker_response_id : Value;
  worker_request_id : option RequestId;
  worker_token : option CancellationToken;
  worker_work : RequestWork;
}.

Inductive WorkerOutcome :=
| Completed (completion : RequestCompletion)
| Cancelled
| Panicked.

Record CompletedRequest := {
  response_id : Value;
  request_id : option RequestId;
  request_token : option CancellationToken;
  outcome : WorkerOutcome;
}.

(** [usize], with its saturating arithmetic. *)
Definition saturating_add (a b : N) : N := N.min (a + b) USIZE_MAX.
Definition saturating_sub (a b : N) : N := a - b.

(** The counter and the closures waiting in the pool. *)
Record RequestScheduler := { pending : N; pool : list Worker }.

Definition RequestScheduler_new : RequestScheduler := {| pending := 0; pool := [] |}.

Definition is_idle (sc : RequestScheduler) : bool := pending sc =? 0.

Inductive ScheduleResult :=
| Scheduled
| DuplicateIdentifier (id : Value).

Definition spawn (sc : RequestScheduler) (worker : Worker) : RequestScheduler :=
  {| pending := saturating_add (pending sc) 1; pool := pool sc ++ [worker] |}.

Definition schedule_work (s : Server) (sc : RequestScheduler) (id : Value) (work : RequestWork)
    : Server * RequestScheduler * ScheduleResult :=
  let request := from_json id in
  match request with
  | Some request_id =>
      match begin (cancellation s) request_id with
      | (r, Some token) =>
          (with_cancellation s r,
           spawn sc {| worker_response_id := id; worker_request_id := Some request_id;
                       worker_token := Some token; worker_work := work |},
           Scheduled)
      | (r, None) => (with_cancellation s r, sc, DuplicateIdentifier id)
      end
  | None =>
      (s, spawn sc {| worker_response_id := id; worker_request_id := None;
                      worker_token := None; worker_work := work |}, Scheduled)
  end.

(** The closure, up to the sending of its result. *)
Definition run_worker (r : CancellationRegistry) (worker : Worker) : CompletedRequest :=
  {| response_id := worker_response_id worker;
     request_id := worker_request_id worker;
     request_token := worker_token worker;
     outcome :=
       if match worker_token worker with Some token => is_cancelled r token | None => false end
       then Cancelled
       else match execute (worker_work worker) with
       | Some completion => Completed completion
       | None => Panicked
       end |}.

(** [RequestScheduler::complete]. *)
Definition complete (s : Server) (sc : RequestScheduler) (completed : CompletedRequest)
    : Server * RequestScheduler * Output :=
  let sc := {| pending := saturating_sub (pending sc) 1; pool := pool sc |} in
  let '(s, cancelled) :=
    match request_id completed, request_token completed with
    | Some request_id, Some token =>
        let '(r, cancelled) := finish (cancellation s) request_id token in
        (with_cancellation s r, cancelled)
    | None, None => (s, false)
    | _, _ => (s, true)
    end in
  let id := response_id completed in
  (s, sc,
   if cancelled : bool then ErrorResponse id REQUEST_CANCELLED_CODE "request cancelled"
   else match outcome completed with
   | Completed completion =>
       Response id (if is_current completion s then completion_result completion
                    else stale_result completion)
   | Panicked => ErrorResponse id INTERNAL_ERROR_CODE "request failed"
   | Cancelled => ErrorResponse id REQUEST_CANCELLED_CODE "request cancelled"
   end).

(** ** Dispatch *)

(** The method names [handle] matches on. *)
Inductive Method :=
| Initialize | Shutdown | Exit | CancelRequest | DidOpen | DidChange | DidSave | DidClose
| HoverMethod | DidChangeConfiguration | DefinitionMethod | CodeActionMethod | OtherMethod.

#[global] Instance Method_eq_dec : EqDecision Method.
Proof. solve_decision. Defined.

Definition METHODS : list (string * Method) := [
  ("initialize", Initialize); ("shutdown", Shutdown); ("exit", Exit);
  ("$/cancelRequest", CancelRequest); ("textDocument/didOpen", DidOpen);
  ("textDocument/didChange", DidChange); ("textDocument/didSave", DidSave);
  ("textDocument/didClose", DidClose); ("textDocument/hover", HoverMethod);
  ("workspace/didChangeConfiguration", DidChangeConfiguration);
  ("textDocument/definition", DefinitionMethod); ("textDocument/codeAction", CodeActionMethod)].

Definition method_of (name : string) : Method :=
  match List.find (λ m, String.eqb m.1 name) METHODS with
  | Some (_, m) => m
  | None => OtherMethod
  end.

(** An error response when the message is a request. *)
Definition error_to (id : option Value) (error_code : Z) (error_message : string) : list Output :=
  match id with
  | Some id => [ErrorResponse id error_code error_message]
  | None => []
  end.

Definition lifecycle_permits (s : Server) (method : option Method) (id : option Value)
    : bool * list Output :=
  match lifecycle s, method with
  | _, Some (Initialize | Exit) => (true, [])
  | New, _ => (false, error_to id SERVER_NOT_INITIALIZED_CODE "server not initialized")
  | ShuttingDown, Some Shutdown => (true, [])
  | ShuttingDown, _ => (false, error_to id INVALID_REQUEST_CODE "request received after shutdown")
  | Running, _ => (true, [])
  end.

Definition initialize (s : Server) (id : option Value) : Server * list Output :=
  match id with
  | None => (s, [])
  | Some id =>
      if bool_decide (lifecycle s ≠ New)
      then (s, [ErrorResponse id INVALID_REQUEST_CODE "initialize may only run once"])
      else (with_lifecycle s Running, [Response id initialization_result])
  end.

Definition shutdown (s : Server) (id : option Value) : Server * list Output :=
  match id with
  | None => (s, [])
  | Some id =>
      if bool_decide (lifecycle s ≠ Running)
      then (s, [ErrorResponse id INVALID_REQUEST_CODE "shutdown requires initialize"])
      else (with_lifecycle s ShuttingDown, [Response id VNull])
  end.

Definition exit (s : Server) : ServerExit :=
  if bool_decide (lifecycle s = ShuttingDown) then Clean else Unclean.

(** [dispatch_work], with [schedule]. *)
Definition dispatch_work (s : Server) (sc : RequestScheduler) (id : option Value)
    (work : option RequestWork) : Server * RequestScheduler * list Output :=
  match id with
  | None => (s, sc, [])
  | Some id =>
      match work with
      | Some work =>
          match schedule_work s sc id work with
          | (s, sc, Scheduled) => (s, sc, [])
          | (s, sc, DuplicateIdentifier id) =>
              (s, sc, [ErrorResponse id INVALID_REQUEST_CODE "duplicate active request id"])
          end
      | None => (s, sc, [ErrorResponse id INVALID_PARAMS_CODE "invalid params"])
      end
  end.

(** [handle], with [hover], [definition] and [code_action]. *)
Definition handle (s : Server) (sc : RequestScheduler) (msg : Value)
    : option (Server * RequestScheduler * list Output * option ServerExit) :=
  let only '(s, out) := Some (s, sc, out, None) in
  if negb (is_object msg)
  then Some (s, sc, [ErrorResponse VNull INVALID_REQUEST_CODE "invalid request"], None)
  else
    let method := method_of <$> (get msg "method" ≫= as_str) in
    let id := get msg "id" in
    let params := get msg "params" in
    match lifecycle_permits s method id with
    | (false, out) => Some (s, sc, out, None)
    | (true, _) =>
        match method with
        | Some Initialize => only (initialize s id)
        | Some Shutdown => only (shutdown s id)
        | Some Exit => Some (s, sc, [], Some (exit s))
        | Some CancelRequest => only (cancel_request s params, [])
        | Some DidOpen => only (open_document s params)
        | Some DidChange => r ← change_document s params; only r
        | Some DidSave => only (save_document s params)
        | Some DidClose => only (close_document s params)
        | Some HoverMethod => Some (dispatch_work s sc id (hover_work s params), None)
        | Some DidChangeConfiguration => only (update_configuration s params)
        | Some DefinitionMethod => Some (dispatch_work s sc id (definition_work s params), None)
        | Some CodeActionMethod => Some (dispatch_work s sc id (code_actions_work s params), None)
        | Some OtherMethod => only (s, error_to id METHOD_NOT_FOUND_CODE "method not found")
        | None => only (s, error_to id INVALID_REQUEST_CODE "invalid request")
        end
    end.

(** ** The threads *)

Inductive ServerEvent :=
| Input (msg : Value)
| EndOfInput
| InputError (error : FrameError)
| CompletedEvent (completed : CompletedRequest).

(** The thread of [read_events]: about to read a frame from what is left of the
    stream, waiting for its acknowledgement, or gone. *)
Inductive Reader :=
| Reading (stream : Text)
| Waiting (stream : Text)
| ReaderDone.

Record World := {
  server : Server;
  scheduler : RequestScheduler;
  terminal : option ServerExit;
  (** The channel, oldest event first. *)
  events : list ServerEvent;
  reader : Reader;
  (** Workers that have a result and have not sent it. *)
  computed : list CompletedRequest;
  written : list Output;
  (** What [serve_events] returned. *)
  returned : option (Result ServerExit FrameError);
}.

Definition serve (stream : Text) : World := {|
  server := Server_new; scheduler := RequestScheduler_new; terminal := None; events := [];
  reader := Reading stream; computed := []; written := []; returned := None;
|}.

Inductive ReaderAcknowledgement := Continue | Stop.

(** The reader takes the acknowledgement it waits for. *)
Definition acknowledge (r : Reader) (a : ReaderAcknowledgement) : Reader :=
  match r, a with
  | Waiting stream, Continue => Reading stream
  | Waiting _, Stop => ReaderDone
  | _, _ => r
  end.

(** One event of [serve_events]; [None] is a panic. *)
Definition serve_event (w : World) (event : ServerEvent) (rest : list ServerEvent) : option World :=
  match event with
  | Input msg =>
      match terminal w with
      | Some _ =>
          Some {| server := server w; scheduler := scheduler w; terminal := terminal w;
                  events := rest; reader := acknowledge (reader w) Stop;
                  computed := computed w; written := written w; returned := None |}
      | None =>
          '(s, sc, out, exited) ← handle (server w) (scheduler w) msg;
          Some {| server := s; scheduler := sc; terminal := exited; events := rest;
                  reader := acknowledge (reader w) (match exited with Some _ => Stop | None => Continue end);
                  computed := computed w; written := written w ++ out; returned := None |}
      end
  | EndOfInput =>
      Some {| server := server w; scheduler := scheduler w;
              terminal := Some (default Unclean (terminal w)); events := rest; reader := reader w;
              computed := computed w; written := written w; returned := None |}
  | InputError e =>
      Some {| server := server w; scheduler := scheduler w; terminal := terminal w; events := rest;
              reader := reader w; computed := computed w; written := written w;
              returned := Some (Err e) |}
  | CompletedEvent completed =>
      let '(s, sc, out) := complete (server w) (scheduler w) completed in
      Some {| server := s; scheduler := sc; terminal := terminal w; events := rest;
              reader := reader w; computed := computed w; written := written w ++ [out];
              returned := None |}
  end.

(** One iteration of the loop of [serve_events]: [None] while the channel is
    empty (it never disconnects: the scheduler keeps a sender) and once it has
    returned. *)
Definition serve_iteration (w : World) : option (option World) :=
  match returned w with
  | Some _ => None
  | None =>
      match terminal w with
      | Some exited =>
          if is_idle (scheduler w)
          then Some (Some {| server := server w; scheduler := scheduler w; terminal := terminal w;
                             events := events w; reader := reader w; computed := computed w;
                             written := written w; returned := Some (Ok exited) |})
          else match events w with
          | [] => None
          | event :: rest => Some (serve_event w event rest)
          end
      | None =>
          match events w with
          | [] => None
          | event :: rest => Some (serve_event w event rest)
          end
      end
  end.

(** One turn of the loop of [read_events]. *)
Definition read_event (w : World) : option World :=
  match reader w with
  | Reading stream =>
      '(frame, stream) ← read_frame from_slice stream;
      let sent event r :=
        Some {| server := server w; scheduler := scheduler w; terminal := terminal w;
                events := events w ++ [event]; reader := r; computed := computed w;
                written := written w; returned := returned w |} in
      match frame with
      | Ok (Some msg) => sent (Input msg) (Waiting stream)
      | Ok None => sent EndOfInput ReaderDone
      | Err e => sent (InputError e) ReaderDone
      end
  | _ => None
  end.

(** The thread pool runs any closure it holds. *)
Definition run_pooled (w : World) (i : nat) : option World :=
  worker ← pool (scheduler w) !! i;
  Some {| server := server w;
          scheduler := {| pending := pending (scheduler w); pool := delete i (pool (scheduler w)) |};
          terminal := terminal w; events := events w; reader := reader w;
          computed := computed w ++ [run_worker (cancellation (server w)) worker];
          written := written w; returned := returned w |}.

(** A worker sends its result. *)
Definition send_completed (w : World) (i : nat) : option World :=
  completed ← computed w !! i;
  Some {| server := server w; scheduler := scheduler w; terminal := terminal w;
          events := events w ++ [CompletedEvent completed]; reader := reader w;
          computed := delete i (computed w); written := written w; returned := returned w |}.

(** Any thread may move.  A step that dispatches a message is labelled by it,
    and by the lifecycle it met. *)
Definition dispatched (w : World) : option (Lifecycle * Value) :=
  match returned w, terminal w, events w with
  | None, None, Input msg :: _ => Some (lifecycle (server w), msg)
  | _, _, _ => None
  end.

Inductive step : World → option (Lifecycle * Value) → World → Prop :=
| step_coordinator w w' : serve_iteration w = Some (Some w') → step w (dispatched w) w'
| step_reader w w' : read_event w = Some w' → step w None w'
| step_pool w i w' : run_pooled w i = Some w' → step w None w'
| step_send w i w' : send_completed w i = Some w' → step w None w'.

(** [reach stream n trace w]: a session over [stream] is at [w] after [n] steps,
    having dispatched [trace]. *)
Inductive reach (stream : Text) : nat → list (Lifecycle * Value) → World → Prop :=
| reach_start : reach stream 0 [] (serve stream)
| reach_step n trace w l w' :
    reach stream n trace w → step w l w' → reach stream (S n) (trace ++ option_list l) w'.
End Server.
