(* ===== verification/ServerInv.v ===== *)
(** * The moves of the language server

    What handling a message can do to the server, what every thread can do to a
    session, and the books of requests and replies they keep. *)

From S2P Require Import Prelude BTree Utf8 Document DocumentProps Frame FrameProps Cancellation Server.

#[local] Open Scope N_scope.

Section Moves.
Context `{Analysis}.

(** ** Replies *)

(** The request a message written answers. *)
Definition reply_id (o : Output) : option Value :=
  match o with
  | Response id _ | ErrorResponse id _ _ => Some id
  | PublishDiagnostics _ _ _ => None
  end.

(** The methods that are notifications: answered never, when they are served. *)
Definition is_notification (m : Method) : bool :=
  match m with
  | CancelRequest | DidOpen | DidChange | DidSave | DidClose | DidChangeConfiguration => true
  | _ => false
  end.

(** The id a message dispatched under a lifecycle is to be answered with. *)
Definition owes (d : Lifecycle * Value) : option Value :=
  let '(l, msg) := d in
  if negb (is_object msg) then Some VNull
  else match method_of <$> (get msg "method" ≫= as_str) with
  | Some Exit => None
  | Some m => if bool_decide (l = Running) && is_notification m then None else get msg "id"
  | None => get msg "id"
  end.

(** The request a message dispatched under a lifecycle cancels. *)
Definition cancels (d : Lifecycle * Value) : option RequestId :=
  let '(l, msg) := d in
  if is_object msg && bool_decide (l = Running)
     && bool_decide (method_of <$> (get msg "method" ≫= as_str) = Some CancelRequest)
  then field (get msg "params") "id" ≫= from_json
  else None.

Definition work_snapshot (work : RequestWork) : AnalysisSnapshot :=
  match work with
  | Hover snapshot _ _ | DefinitionOf snapshot _ _ | CodeActions snapshot _ => snapshot
  end.

(** ** What a message does

    The effects [handle] can have: on the server, and the workers it adds. *)

Inductive effect (s : Server) : option RequestId → Server → list Worker → list Output → Prop :=
| effect_lifecycle l out : effect s None (with_lifecycle s l) [] out
| effect_cancel k : effect s (Some k) (with_cancellation s (cancel (cancellation s) k)) [] []
| effect_documents d out :
    store_step (documents s) d → Forall (λ o, reply_id o = None) out →
    effect s None (with_documents s d) [] out
| effect_configuration v out :
    Forall (λ o, reply_id o = None) out →
    effect s None (with_configuration s (configuration_replace (configuration s) v)) [] out
| effect_schedule id k r t work :
    from_json id = Some k → begin (cancellation s) k = (r, Some t) → work_snapshot work = capture s →
    effect s None (with_cancellation s r)
      [{| worker_response_id := id; worker_request_id := Some k; worker_token := Some t;
          worker_work := work |}] []
| effect_schedule_anonymous id work :
    from_json id = None → work_snapshot work = capture s →
    effect s None s [{| worker_response_id := id; worker_request_id := None; worker_token := None;
                   worker_work := work |}] [].

Lemma effect_none s out : effect s None s [] out.
Proof. assert (s = with_lifecycle s (lifecycle s)) as E by (by destruct s). rewrite E at 2. constructor. Qed.

Lemma with_documents_id s : with_documents s (documents s) = s.
Proof. by destruct s. Qed.

Lemma published_no_reply s : Forall (λ o, reply_id o = None) (publish_current_diagnostics s).
Proof. unfold publish_current_diagnostics. apply Forall_fmap, Forall_forall. by intros x _. Qed.

Lemma no_reply_ids out : Forall (λ o, reply_id o = None) out → omap reply_id out = [].
Proof. induction 1 as [|o out Ho _ IH]; [done|]. simpl. by rewrite Ho. Qed.

Lemma open_document_effect s params s' out :
  open_document s params = (s', out) → effect s None s' [] out ∧ Forall (λ o, reply_id o = None) out.
Proof.
  unfold open_document. destruct (field params "textDocument") as [d|];
    [|intros [= <- <-]; split; [apply effect_none|constructor]].
  destruct (get d "uri" ≫= as_str) as [u|]; [destruct (get d "text" ≫= as_str) as [t|]|];
    [|intros [= <- <-]; split; [apply effect_none|constructor]..].
  set (doc := {| uri := u; text := _; version := _ |}).
  pose proof (step_replace (documents s) doc) as Hstep.
  destruct (replace (documents s) doc) as [docs b]. intros [= <- <-].
  assert (Forall (λ o, reply_id o = None)
    (if b then publish_current_diagnostics (with_documents s docs) else [])) as Hout
    by (destruct b; [apply published_no_reply|constructor]).
  split; [by constructor|done].
Qed.

Lemma change_document_effect s params s' out :
  change_document s params = Some (s', out) → effect s None s' [] out ∧ Forall (λ o, reply_id o = None) out.
Proof.
  unfold change_document. destruct (field params "textDocument") as [d|];
    [|intros [= <- <-]; split; [apply effect_none|constructor]].
  destruct (get d "uri" ≫= as_str) as [u|]; [destruct (get d "version" ≫= as_i64) as [v|]|];
    [|intros [= <- <-]; split; [apply effect_none|constructor]..].
  destruct (content_changes params) as [cs|]; [|intros [= <- <-]; split; [apply effect_none|constructor]].
  destruct (apply_changes (documents s) u v cs) as [[docs b]|] eqn:E; [|done].
  apply step_change in E. cbn [mbind option_bind]. intros [= <- <-].
  assert (Forall (λ o, reply_id o = None)
    (if b then publish_current_diagnostics (with_documents s docs) else [])) as Hout
    by (destruct b; [apply published_no_reply|constructor]).
  split; [by constructor|done].
Qed.

Lemma save_document_effect s params s' out :
  save_document s params = (s', out) → effect s None s' [] out ∧ Forall (λ o, reply_id o = None) out.
Proof.
  unfold save_document. destruct (params ≫= document_uri) as [u|];
    intros [= <- <-]; (split; [apply effect_none|]); [|constructor].
  destruct (store_get _ _); [apply published_no_reply|constructor].
Qed.

Lemma close_document_effect s params s' out :
  close_document s params = (s', out) → effect s None s' [] out ∧ Forall (λ o, reply_id o = None) out.
Proof.
  unfold close_document. destruct (params ≫= document_uri) as [u|];
    [|intros [= <- <-]; split; [apply effect_none|constructor]].
  pose proof (step_remove (documents s) u) as Hstep.
  destruct (remove (documents s) u) as [docs [d|]]; intros [= <- <-].
  - assert (∀ s' u v, Forall (λ o, reply_id o = None)
      (PublishDiagnostics u v [] :: publish_current_diagnostics s')) as Hout
      by (intros; constructor; [done|apply published_no_reply]).
    split; [by constructor|done].
  - split; [by constructor|constructor].
Qed.

Lemma update_configuration_effect s params s' out :
  update_configuration s params = (s', out) →
  effect s None s' [] out ∧ Forall (λ o, reply_id o = None) out.
Proof.
  unfold update_configuration. destruct (field params "settings") as [v|];
    intros [= <- <-]; [|split; [apply effect_none|constructor]].
  split; [constructor|]; apply published_no_reply.
Qed.

(** A work item is over the snapshot of the server it was made from. *)
Lemma work_captures s params :
  (∀ work, hover_work s params = Some work → work_snapshot work = capture s) ∧
  (∀ work, definition_work s params = Some work → work_snapshot work = capture s) ∧
  (∀ work, code_actions_work s params = Some work → work_snapshot work = capture s).
Proof.
  unfold hover_work, definition_work, code_actions_work. split_and!; intros work.
  - destruct (hover_request params) as [[u p]|]; [|done]. by intros [= <-].
  - destruct (definition_params params) as [[u p]|]; [|done]. by intros [= <-].
  - destruct (code_action_uri params) as [u|]; [|done]. by intros [= <-].
Qed.

(** [dispatch_work] queues a request or answers it, and does either once. *)
Lemma dispatch_work_effect s sc id work s' sc' out :
  (∀ w, work = Some w → work_snapshot w = capture s) →
  dispatch_work s sc id work = (s', sc', out) →
  ∃ added, effect s None s' added out ∧ sc' = foldl spawn sc added ∧
    omap reply_id out ++ (worker_response_id <$> added) = option_list id.
Proof.
  intros Hwork. unfold dispatch_work, schedule_work.
  destruct id as [id|]; [|intros [= <- <- <-]; exists []; by split_and!; [apply effect_none|..]].
  destruct work as [work|];
    [|intros [= <- <- <-]; exists []; by split_and!; [apply effect_none|..]].
  specialize (Hwork _ eq_refl). destruct (from_json id) as [k|] eqn:Ek.
  - destruct (begin (cancellation s) k) as [r [t|]] eqn:Eb; intros [= <- <- <-].
    + eexists [_]. split_and!; [by eapply effect_schedule|done..].
    + exists []. split_and!; [|done..]. unfold begin in Eb.
      destruct (bt_get (active (cancellation s)) k); [|done]. injection Eb as <-.
      assert (with_cancellation s (cancellation s) = s) as -> by (by destruct s). apply effect_none.
  - intros [= <- <- <-]. eexists [_]. split_and!; [by apply effect_schedule_anonymous|done..].
Qed.

Definition handle_outcome (s : Server) (sc : RequestScheduler) (msg : Value) (s' : Server)
    (sc' : RequestScheduler) (out : list Output) : Prop :=
  ∃ added, effect s (cancels (lifecycle s, msg)) s' added out ∧ sc' = foldl spawn sc added ∧
    omap reply_id out ++ (worker_response_id <$> added) = option_list (owes (lifecycle s, msg)).

Lemma notified s sc msg s' out :
  owes (lifecycle s, msg) = None → cancels (lifecycle s, msg) = None →
  effect s None s' [] out ∧ Forall (λ o, reply_id o = None) out → handle_outcome s sc msg s' sc out.
Proof.
  intros Ho Hc [He Hout]. exists []. rewrite Hc. split_and!; [done..|].
  by rewrite (no_reply_ids _ Hout), Ho.
Qed.

Lemma replied s sc msg s' out :
  (∃ l, s' = with_lifecycle s l) → cancels (lifecycle s, msg) = None →
  omap reply_id out = option_list (owes (lifecycle s, msg)) → handle_outcome s sc msg s' sc out.
Proof.
  intros [l ->] Hc Ho. exists []. rewrite Hc. split_and!; [constructor|done|].
  by rewrite app_nil_r.
Qed.

Lemma error_to_reply id c m : omap reply_id (error_to id c m) = option_list id.
Proof. by destruct id. Qed.

Lemma initialize_replies s id s' out :
  initialize s id = (s', out) → (∃ l, s' = with_lifecycle s l) ∧ omap reply_id out = option_list id.
Proof.
  unfold initialize. destruct id as [id|]; [destruct (bool_decide (lifecycle s ≠ New))|];
    intros [= <- <-]; (split; [|done]); try (exists (lifecycle s); by destruct s); by eexists.
Qed.

Lemma shutdown_replies s id s' out :
  shutdown s id = (s', out) → (∃ l, s' = with_lifecycle s l) ∧ omap reply_id out = option_list id.
Proof.
  unfold shutdown. destruct id as [id|]; [destruct (bool_decide (lifecycle s ≠ Running))|];
    intros [= <- <-]; (split; [|done]); try (exists (lifecycle s); by destruct s); by eexists.
Qed.

Lemma dispatched_outcome s sc msg id work s' sc' out ex :
  owes (lifecycle s, msg) = id → cancels (lifecycle s, msg) = None →
  (∀ w, work = Some w → work_snapshot w = capture s) →
  Some (dispatch_work s sc id work, @None ServerExit) = Some (s', sc', out, ex) →
  handle_outcome s sc msg s' sc' out.
Proof.
  intros Ho Hc Hw. destruct (dispatch_work s sc id work) as [[s1 sc1] o1] eqn:E.
  intros [= <- <- <- <-]. red. rewrite Ho, Hc. by eapply dispatch_work_effect, E.
Qed.

(** Whatever the message, [handle] answers it at once or queues its one worker,
    as often as it owes an answer. *)
Lemma handle_effect s sc msg s' sc' out ex :
  handle s sc msg = Some (s', sc', out, ex) → handle_outcome s sc msg s' sc' out.
Proof.
  unfold handle. destruct (is_object msg) eqn:Eobj; cbn [negb]; cbv zeta.
  2: { intros [= <- <- <- <-]. apply replied; [exists (lifecycle s); by destruct s|..].
       - unfold cancels. by rewrite Eobj.
       - unfold owes. by rewrite Eobj. }
  assert (owes (lifecycle s, msg) = match method_of <$> (get msg "method" ≫= as_str) with
    | Some Exit => None
    | Some m => if bool_decide (lifecycle s = Running) && is_notification m then None else get msg "id"
    | None => get msg "id"
    end) as Howes by (unfold owes; by rewrite Eobj).
  assert (cancels (lifecycle s, msg) = if bool_decide (lifecycle s = Running) &&
    bool_decide (method_of <$> (get msg "method" ≫= as_str) = Some CancelRequest)
    then field (get msg "params") "id" ≫= from_json else None) as Hcan
    by (unfold cancels; by rewrite Eobj).
  set (method := method_of <$> _) in *. set (id := get msg "id") in *.
  set (params := get msg "params") in *. clearbody method id params.
  destruct (lifecycle_permits s method id) as [[|] out0] eqn:Eperm.
  2: { intros [= <- <- <- <-]. apply replied; [exists (lifecycle s); by destruct s|..].
       all: rewrite ?Howes, ?Hcan; unfold lifecycle_permits in Eperm;
         destruct (lifecycle s), method as [[]|]; simplify_eq; try apply error_to_reply; done. }
  assert (∀ m, method = Some m → is_notification m = true → lifecycle s = Running) as Hrun.
  { intros m -> Hm. unfold lifecycle_permits in Eperm. by destruct (lifecycle s), m. }
  assert (∀ m, method = Some m → is_notification m = true → owes (lifecycle s, msg) = None) as Hquiet.
  { intros m Em Hm. rewrite Howes, Em, (Hrun m Em Hm), Hm. by destruct m. }
  assert (∀ m, method = Some m → is_notification m = false → m ≠ Exit →
    owes (lifecycle s, msg) = id) as Hreply.
  { intros m -> Hm Hne. rewrite Howes, Hm, andb_false_r. by destruct m. }
  assert (method ≠ Some CancelRequest → cancels (lifecycle s, msg) = None) as Hno.
  { intros Hm. by rewrite Hcan, (bool_decide_false _ Hm), andb_false_r. }
  destruct method as [[]|] eqn:Em; try (specialize (Hquiet _ eq_refl eq_refl));
    try (specialize (Hreply _ eq_refl eq_refl)); try specialize (Hno ltac:(done)); cbv beta iota.
  - destruct (initialize s id) as [s1 o1] eqn:E. cbv beta iota. intros [= <- <- <- <-].
    apply initialize_replies in E as [? ?]. apply replied; [done|done|by rewrite Hreply].
  - destruct (shutdown s id) as [s1 o1] eqn:E. cbv beta iota. intros [= <- <- <- <-].
    apply shutdown_replies in E as [? ?]. apply replied; [done|done|by rewrite Hreply].
  - intros [= <- <- <- <-].
    apply replied; [by exists (lifecycle s); destruct s|done|by rewrite Howes].
  - intros [= <- <- <- <-]. exists []. unfold cancel_request.
    rewrite Hcan, Hquiet, (Hrun _ eq_refl eq_refl). cbn [bool_decide andb]. rewrite !bool_decide_true by done.
    cbn [andb]. destruct (field params "id" ≫= from_json) as [k|];
      (split_and!; [|done..]); [apply effect_cancel|apply effect_none].
  - destruct (open_document s params) as [s1 o1] eqn:E. cbv beta iota. intros [= <- <- <- <-].
    apply notified, open_document_effect with params; done.
  - destruct (change_document s params) as [[s1 o1]|] eqn:E; [|done]. cbn [mbind option_bind].
    intros [= <- <- <- <-]. apply notified, change_document_effect with params; done.
  - destruct (save_document s params) as [s1 o1] eqn:E. cbv beta iota. intros [= <- <- <- <-].
    apply notified, save_document_effect with params; done.
  - destruct (close_document s params) as [s1 o1] eqn:E. cbv beta iota. intros [= <- <- <- <-].
    apply notified, close_document_effect with params; done.
  - apply dispatched_outcome; [by rewrite Hreply|done|apply (work_captures s params)].
  - destruct (update_configuration s params) as [s1 o1] eqn:E. cbv beta iota. intros [= <- <- <- <-].
    apply notified, update_configuration_effect with params; done.
  - apply dispatched_outcome; [by rewrite Hreply|done|apply (work_captures s params)].
  - apply dispatched_outcome; [by rewrite Hreply|done|apply (work_captures s params)].
  - intros [= <- <- <- <-]. apply replied; [by exists (lifecycle s); destruct s|done|].
    rewrite Hreply by done. apply error_to_reply.
  - intros [= <- <- <- <-]. apply replied; [by exists (lifecycle s); destruct s|done|].
    rewrite Howes. apply error_to_reply.
Qed.

(** ** The moves of a session *)

Inductive move (w : World) : option (Lifecycle * Value) → World → Prop :=
| move_return exited :
    returned w = None → terminal w = Some exited → pending (scheduler w) = 0 →
    move w None
      {| server := server w; scheduler := scheduler w; terminal := terminal w; events := events w;
         reader := reader w; computed := computed w; written := written w;
         returned := Some (Ok exited) |}
| move_refuse msg exited rest :
    returned w = None → terminal w = Some exited → events w = Input msg :: rest →
    move w None
      {| server := server w; scheduler := scheduler w; terminal := terminal w; events := rest;
         reader := acknowledge (reader w) Stop; computed := computed w; written := written w;
         returned := None |}
| move_handle msg rest s sc out exited :
    returned w = None → terminal w = None → events w = Input msg :: rest →
    handle (server w) (scheduler w) msg = Some (s, sc, out, exited) →
    move w (Some (lifecycle (server w), msg))
      {| server := s; scheduler := sc; terminal := exited; events := rest;
         reader := acknowledge (reader w) (match exited with Some _ => Stop | None => Continue end);
         computed := computed w; written := written w ++ out; returned := None |}
| move_end rest :
    returned w = None → events w = EndOfInput :: rest →
    move w None
      {| server := server w; scheduler := scheduler w;
         terminal := Some (default Unclean (terminal w)); events := rest; reader := reader w;
         computed := computed w; written := written w; returned := None |}
| move_error e rest :
    returned w = None → events w = InputError e :: rest →
    move w None
      {| server := server w; scheduler := scheduler w; terminal := terminal w; events := rest;
         reader := reader w; computed := computed w; written := written w;
         returned := Some (Err e) |}
| move_complete c rest s sc out :
    returned w = None → events w = CompletedEvent c :: rest →
    complete (server w) (scheduler w) c = (s, sc, out) →
    move w None
      {| server := s; scheduler := sc; terminal := terminal w; events := rest; reader := reader w;
         computed := computed w; written := written w ++ [out]; returned := None |}
| move_read event r :
    (∃ stream, reader w = Reading stream) →
    match event with Input _ => ∃ stream, r = Waiting stream | CompletedEvent _ => False | _ => r = ReaderDone end →
    move w None
      {| server := server w; scheduler := scheduler w; terminal := terminal w;
         events := events w ++ [event]; reader := r; computed := computed w; written := written w;
         returned := returned w |}
| move_run p q worker :
    pool (scheduler w) = p ++ worker :: q →
    move w None
      {| server := server w;
         scheduler := {| pending := pending (scheduler w); pool := p ++ q |};
         terminal := terminal w; events := events w; reader := reader w;
         computed := computed w ++ [run_worker (cancellation (server w)) worker];
         written := written w; returned := returned w |}
| move_send p q c :
    computed w = p ++ c :: q →
    move w None
      {| server := server w; scheduler := scheduler w; terminal := terminal w;
         events := events w ++ [CompletedEvent c]; reader := reader w; computed := p ++ q;
         written := written w; returned := returned w |}.

Lemma serve_event_move w event rest w' :
  returned w = None → events w = event :: rest → serve_event w event rest = Some w' →
  move w (dispatched w) w'.
Proof.
  intros Hr He. unfold serve_event, dispatched. rewrite Hr, He. destruct event as [msg| |e|c].
  - destruct (terminal w) as [ex|] eqn:Et.
    + intros [= <-]. rewrite <-Et. by eapply move_refuse.
    + destruct (handle (server w) (scheduler w) msg) as [[[[s sc] out] ex]|] eqn:Eh; [|done].
      intros [= <-]. by apply move_handle.
  - intros [= <-]. destruct (terminal w) eqn:Et; rewrite <-?Et; by eapply move_end.
  - intros [= <-]. destruct (terminal w) eqn:Et; rewrite <-?Et; by eapply move_error.
  - destruct (complete (server w) (scheduler w) c) as [[s sc] out] eqn:Ec. intros [= <-].
    destruct (terminal w) eqn:Et; rewrite <-?Et; by eapply move_complete.
Qed.

Lemma step_move w l w' : step w l w' → move w l w'.
Proof.
  intros [w1 w2 Hs|w1 w2 Hs|w1 i w2 Hs|w1 i w2 Hs].
  - unfold serve_iteration in Hs. destruct (returned w1) eqn:Er; [done|].
    destruct (terminal w1) as [ex|] eqn:Et.
    + destruct (is_idle (scheduler w1)) eqn:Ei.
      * injection Hs as <-. unfold dispatched. rewrite Er, Et. rewrite <-Et. apply move_return; [done..|].
        by apply N.eqb_eq.
      * destruct (events w1) as [|event rest] eqn:Ee; [done|]. injection Hs as Hs.
        by apply (serve_event_move w1 event rest).
    + destruct (events w1) as [|event rest] eqn:Ee; [done|]. injection Hs as Hs.
      by apply (serve_event_move w1 event rest).
  - unfold read_event in Hs. destruct (reader w1) as [stream| |] eqn:Er; [|done..].
    destruct (read_frame from_slice stream) as [[[[msg|]|e] rest]|]; [| | |done];
      cbn [mbind option_bind] in Hs; injection Hs as <-; apply move_read; eauto.
  - unfold run_pooled in Hs. destruct (pool (scheduler w1) !! i) as [worker|] eqn:E; [|done].
    cbn [mbind option_bind] in Hs. injection Hs as <-. rewrite delete_take_drop.
    apply move_run. by rewrite take_drop_middle.
  - unfold send_completed in Hs. destruct (computed w1 !! i) as [c|] eqn:E; [|done].
    cbn [mbind option_bind] in Hs. injection Hs as <-. rewrite delete_take_drop.
    apply move_send. by rewrite take_drop_middle.
Qed.

(** ** Requests in flight *)

(** What tells a request in flight from the others, wherever it is. *)
Definition Flight : Type := Value * option RequestId * option CancellationToken.

Definition worker_flight (x : Worker) : Flight :=
  (worker_response_id x, worker_request_id x, worker_token x).
Definition completed_flight (c : CompletedRequest) : Flight :=
  (response_id c, request_id c, request_token c).
Definition event_flight (e : ServerEvent) : option Flight :=
  match e with CompletedEvent c => Some (completed_flight c) | _ => None end.

Definition in_flight (w : World) : list Flight :=
  (worker_flight <$> pool (scheduler w)) ++ (completed_flight <$> computed w)
  ++ omap event_flight (events w).

Definition flight_id (x : Flight) : Value := x.1.1.

Lemma run_worker_flight r worker : completed_flight (run_worker r worker) = worker_flight worker.
Proof. done. Qed.

Lemma complete_flight s sc c s' sc' out :
  complete s sc c = (s', sc', out) →
  pool sc' = pool sc ∧ pending sc' = pending sc - 1 ∧ reply_id out = Some (response_id c) ∧
  ∃ r, s' = with_cancellation s r.
Proof.
  unfold complete. assert (∀ r, ∃ r', with_cancellation s r = with_cancellation s r') by (intros; by eexists).
  assert (∃ r', s = with_cancellation s r') by (exists (cancellation s); by destruct s).
  destruct (match request_id c with Some _ => _ | None => _ end) as [s1 b] eqn:E.
  assert (∃ r, s1 = with_cancellation s r) as Hs1.
  { destruct (request_id c), (request_token c); try (by injection E as <- <-).
    destruct (finish _ _ _); injection E as <- <-; eauto. }
  intros [= <- <- <-]. split_and!; [done..| |done].
  destruct b; [done|]. by destruct (outcome c).
Qed.

Lemma spawned sc added :
  pool (foldl spawn sc added) = pool sc ++ added ∧
  (pending sc + N.of_nat (length added) <= USIZE_MAX →
   pending (foldl spawn sc added) = pending sc + N.of_nat (length added)).
Proof.
  revert sc. induction added as [|x added IH]; intros sc; cbn [foldl length].
  { rewrite app_nil_r. split; [done|lia]. }
  destruct (IH (spawn sc x)) as [-> Hp]. cbn [spawn pool pending] in *. unfold saturating_add in *.
  rewrite <-(assoc_L (++)). split; [done|]. intros Hle. rewrite Hp; lia.
Qed.

(** What a move adds to the requests in flight and what it takes away, against
    what it answers. *)
Record flow (w : World) (l : option (Lifecycle * Value)) (w' : World) (added gone : list Flight)
    (out : list Output) : Prop := {
  flow_written : written w' = written w ++ out;
  flow_flight : added ++ in_flight w ≡ₚ gone ++ in_flight w';
  flow_replies : omap reply_id out ++ (flight_id <$> added) =
    option_list (l ≫= owes) ++ (flight_id <$> gone);
  flow_pending : pending (scheduler w) + N.of_nat (length added) <= USIZE_MAX →
    pending (scheduler w') = pending (scheduler w) + N.of_nat (length added) - N.of_nat (length gone);
  flow_short : (length added <= 1)%nat;
}.

Lemma flow_silent w w' :
  written w' = written w → in_flight w ≡ₚ in_flight w' →
  pending (scheduler w') = pending (scheduler w) → flow w None w' [] [] [].
Proof. intros Hw Hf Hp. split; simpl; [by rewrite app_nil_r|done|done|lia|lia]. Qed.

Lemma effect_added s k s' added out : effect s k s' added out → (length added <= 1)%nat.
Proof. destruct 1; simpl; lia. Qed.

Lemma move_flow w l w' : move w l w' → ∃ added gone out, flow w l w' added gone out.
Proof.
  intros [ex Hr Ht Hp|msg ex rest Hr Ht He|msg rest s sc out ex Hr Ht He Hh|rest Hr He|e rest Hr He
         |c rest s sc out Hr He Hc|event r [stream Hrd] Hev|p q worker Hp|p q c Hp].
  - exists [], [], []. by apply flow_silent.
  - exists [], [], []. apply flow_silent; [done| |done]. unfold in_flight. by rewrite He.
  - apply handle_effect in Hh as (added & Heff & -> & Hids).
    destruct (spawned (scheduler w) added) as [Hpool Hpend].
    assert (omap reply_id out ++ (flight_id <$> (worker_flight <$> added)) =
      option_list (Some (lifecycle (server w), msg) ≫= owes) ++ (flight_id <$> [])) as Hreplies.
    { rewrite <-list_fmap_compose. cbn [fmap list_fmap]. by rewrite app_nil_r. }
    clear Hids. exists (worker_flight <$> added), [], out. split; cbn.
    + done.
    + unfold in_flight. cbn. rewrite Hpool, fmap_app, He. cbn.
      rewrite !(assoc_L (++)). do 2 f_equiv. apply Permutation_app_comm.
    + exact Hreplies.
    + rewrite length_fmap. intros Hle. rewrite Hpend by done. lia.
    + rewrite length_fmap. by apply effect_added in Heff.
  - exists [], [], []. apply flow_silent; [done| |done]. unfold in_flight. by rewrite He.
  - exists [], [], []. apply flow_silent; [done| |done]. unfold in_flight. by rewrite He.
  - apply complete_flight in Hc as (Hpool & Hpend & Hid & _).
    exists [], [completed_flight c], [out]. split; cbn.
    + done.
    + unfold in_flight. cbn. rewrite He, Hpool. cbn.
      rewrite !(assoc_L (++)). symmetry. apply Permutation_middle.
    + by rewrite Hid.
    + rewrite Hpend. lia.
    + lia.
  - exists [], [], []. apply flow_silent; [done| |done]. unfold in_flight. cbn.
    rewrite omap_app. destruct event; [by rewrite app_nil_r..|done].
  - exists [], [], []. apply flow_silent; [done| |done]. unfold in_flight. cbn.
    rewrite Hp, !fmap_app, <-!(assoc_L (++)). f_equiv. cbn [fmap list_fmap app].
    rewrite run_worker_flight, !(assoc_L (++)). apply Permutation_middle.
  - exists [], [], []. apply flow_silent; [done| |done]. unfold in_flight. cbn.
    rewrite Hp, omap_app, !fmap_app, <-!(assoc_L (++)). do 2 f_equiv. cbn [fmap list_fmap app omap list_omap].
    rewrite !(assoc_L (++)). cbn. apply Permutation_cons_append.
Qed.

(** Books that balance still do after entries that balance. *)
Lemma balance_step {A} `{EqDecision A} (paid due owed added gone due' out new : list A) :
  paid ++ due ≡ₚ owed → added ++ due ≡ₚ gone ++ due' → out ++ added = new ++ gone →
  (paid ++ out) ++ due' ≡ₚ owed ++ new.
Proof.
  intros H1 H2 H3. assert (out ++ added ≡ₚ new ++ gone) as H3' by (by rewrite H3).
  clear H3. revert H1 H2 H3'.
  rewrite !(Permutation_count_occ (decide_rel (=))). intros H1 H2 H3 x.
  specialize (H1 x); specialize (H2 x); specialize (H3 x).
  rewrite !count_occ_app in *. lia.
Qed.

Lemma move_reach stream n trace w :
  reach stream n trace w →
  omap reply_id (written w) ++ (flight_id <$> in_flight w) ≡ₚ omap owes trace ∧
  (N.of_nat n <= USIZE_MAX →
   pending (scheduler w) = N.of_nat (length (in_flight w)) ∧ (length (in_flight w) <= n)%nat).
Proof.
  induction 1 as [|n trace w l w' _ [IH IHp] Hstep]; [by split|].
  apply step_move, move_flow in Hstep as (added & gone & out & [Hw Hf Hr Hp Hs]). split.
  - rewrite Hw, !omap_app.
    apply (fmap_Permutation flight_id) in Hf. rewrite !fmap_app in Hf.
    assert (omap owes (option_list l) = option_list (l ≫= owes)) as ->.
    { destruct l as [d|]; [|done]. cbn. by destruct (owes d). }
    by apply (balance_step _ _ _ _ _ _ _ _ IH Hf).
  - intros Hn. destruct IHp as [IHp IHl]; [lia|]. apply Permutation_length in Hf.
    rewrite !length_app in Hf. rewrite Hp; lia.
Qed.
End Moves.

(** * Invariants of the language server

    In every reachable state: the registry holds exactly the cancellable
    requests in flight, each with a token of its own; snapshots in flight are of
    earlier states; and the reader, the channel and the exit agree. *)

#[local] Open Scope N_scope.

(** ** The registry *)

Section Registry.
Context `{Json}.

(** The entry of a request in flight. *)
Definition flight_entry (x : Flight) : option (RequestId * CancellationToken) :=
  match x with (_, Some k, Some t) => Some (k, t) | _ => None end.

Definition flight_ok (x : Flight) : Prop :=
  match x with
  | (id, Some k, Some _) => from_json id = Some k
  | (id, None, None) => from_json id = None
  | _ => False
  end.

Record registry_ok (r : CancellationRegistry) (fl : list Flight) : Prop := {
  registry_sorted : bt_sorted (active r);
  registry_flights : Forall flight_ok fl;
  registry_active : omap flight_entry fl ≡ₚ active r;
  registry_fresh : Forall (λ x, x.2 < length (flags r))%nat (active r);
  registry_distinct : NoDup (active r).*2;
}.

Lemma registry_perm r fl fl' : fl ≡ₚ fl' → registry_ok r fl → registry_ok r fl'.
Proof. intros Hp [? ? ? ? ?]. split; [done|by rewrite <-Hp|by rewrite <-Hp|done|done]. Qed.

(** The token of a request in flight is the active one of its identifier. *)
Lemma registry_lookup r fl id k t :
  registry_ok r fl → (id, Some k, Some t) ∈ fl → bt_get (active r) k = Some t.
Proof.
  intros Hr Hin. apply bt_get_elem; [apply Hr|]. rewrite <-(registry_active _ _ Hr).
  apply list_elem_of_omap. by exists (id, Some k, Some t).
Qed.

Lemma registry_begin r fl k r' t id :
  registry_ok r fl → from_json id = Some k → begin r k = (r', Some t) →
  registry_ok r' ((id, Some k, Some t) :: fl) ∧ is_cancelled r' t = false ∧
  (∀ t', (t' < length (flags r))%nat → is_cancelled r' t' = is_cancelled r t').
Proof.
  intros [Hs Hf Ha Hl Hd] Hid. unfold begin. destruct (bt_get (active r) k) eqn:Eg; [done|].
  intros [= <- <-]. pose proof (bt_insert_perm _ _ (length (flags r)) Eg Hs) as Hp.
  split_and!; [split; cbn|..].
  - by apply bt_insert_sorted.
  - by constructor.
  - cbn. by rewrite Ha, Hp.
  - rewrite Hp. constructor; [rewrite length_app; simpl; lia|].
    eapply Forall_impl; [exact Hl|]. intros x. rewrite length_app. lia.
  - rewrite (fmap_Permutation snd _ _ Hp). cbn. constructor; [|done].
    intros Hin. apply list_elem_of_fmap in Hin as (x & E & Hin). rewrite Forall_forall in Hl.
    specialize (Hl _ Hin). simpl in E. lia.
  - unfold is_cancelled. cbn. by rewrite lookup_app_r, Nat.sub_diag by done.
  - intros t' Ht. unfold is_cancelled. cbn. by rewrite lookup_app_l.
Qed.

Lemma registry_cancel r fl k :
  registry_ok r fl → registry_ok (cancel r k) fl ∧
  ∀ id k' t, (id, Some k', Some t) ∈ fl →
    is_cancelled (cancel r k) t = is_cancelled r t || bool_decide (k' = k).
Proof.
  intros Hr. unfold cancel. destruct (bt_get (active r) k) as [t0|] eqn:Eg.
  - pose proof Hr as [Hs Hf Ha Hl Hd]. split; [by split; cbn; rewrite ?length_insert|].
    intros id k' t Hin. apply (registry_lookup r fl) in Hin; [|done].
    unfold is_cancelled. cbn. rewrite list_lookup_insert. case_decide as Ht.
    + destruct Ht as [-> _]. rewrite bool_decide_true; [by rewrite orb_true_r|].
      apply bt_get_elem in Hin; [|done]. apply bt_get_elem in Eg; [|done].
      apply list_elem_of_lookup in Hin as [i Hi], Eg as [j Hj].
      assert (i = j) as -> by (eapply (NoDup_lookup _ _ _ _ Hd); rewrite list_lookup_fmap;
        [by rewrite Hi|by rewrite Hj]).
      congruence.
    + rewrite bool_decide_false; [by rewrite orb_false_r|]. intros ->. apply Ht.
      rewrite Eg in Hin. injection Hin as ->. split; [done|].
      apply bt_get_elem in Eg; [|done]. rewrite Forall_forall in Hl. by specialize (Hl _ Eg).
  - split; [done|]. intros id k' t Hin. apply (registry_lookup r fl) in Hin; [|done].
    rewrite bool_decide_false; [by rewrite orb_false_r|]. intros ->. congruence.
Qed.

Lemma registry_finish r fl id k t :
  registry_ok r ((id, Some k, Some t) :: fl) →
  ∃ r', finish r k t = (r', is_cancelled r t) ∧ registry_ok r' fl ∧ flags r' = flags r.
Proof.
  intros Hr. assert (bt_get (active r) k = Some t) as Hg.
  { eapply registry_lookup; [exact Hr|]. left. }
  unfold finish, same_request. rewrite Hg, Nat.eqb_refl. eexists. split; [done|]. split; [|done].
  destruct Hr as [Hs Hf Ha Hl Hd]. pose proof (bt_remove_perm _ _ _ Hg Hs) as Hp. split; cbn.
  - by apply bt_remove_sorted.
  - by apply Forall_cons_1 in Hf as [_ ?].
  - cbn in Ha. rewrite Hp in Ha. by apply Permutation_cons_inv in Ha.
  - rewrite Hp in Hl. by apply Forall_cons_1 in Hl as [_ ?].
  - rewrite (fmap_Permutation snd _ _ Hp) in Hd. by apply NoDup_cons_1_2 in Hd.
Qed.
End Registry.

(** ** The server *)

Section ServerInv.
Context `{Analysis}.

(** A snapshot of an earlier state: if nothing has been counted since, it is a
    snapshot of this one. *)
Definition snapshot_ok (s : Server) (x : AnalysisSnapshot) : Prop :=
  document_revision x <= revision (documents s) ∧
  configuration_revision x <= config_revision (configuration s) ∧
  (document_revision x = revision (documents s) →
   configuration_revision x = config_revision (configuration s) → x = capture s).

Lemma capture_ok s : snapshot_ok s (capture s).
Proof. by split_and!. Qed.

Lemma configuration_counts c v :
  configuration_replace c v = c ∨ config_revision (configuration_replace c v) = config_revision c + 1.
Proof.
  unfold configuration_replace, update. destruct (bool_decide _); [by left|].
  unfold u64_checked_add. destruct (_ <=? U64_MAX); [by right|by left].
Qed.

Lemma effect_snapshot s k s' added out x :
  effect s k s' added out → snapshot_ok s x → snapshot_ok s' x.
Proof.
  intros He (Hd & Hc & Hx). destruct He as [| |d out Hstep _|v out _| |]; try by split_and!.
  - destruct (store_step_counts _ _ Hstep) as [->|Hr].
    + destruct s. by split_and!.
    + red. cbn. split_and!; [lia|done|]. intros. lia.
  - pose proof (configuration_counts (configuration s) v) as [Hr|Hr].
    + rewrite Hr. destruct s. by split_and!.
    + red. cbn [documents configuration with_configuration]. split_and!; [done|lia|]. intros. lia.
Qed.

Lemma effect_work s k s' added out :
  effect s k s' added out → Forall (λ x, snapshot_ok s' (work_snapshot (worker_work x))) added.
Proof.
  destruct 1 as [| | | |id k r t work _ _ Hw|id work _ Hw]; try constructor; try constructor;
    cbn; rewrite Hw; apply (capture_ok s).
Qed.

(** A store sorted by its keys, which are the URIs of its documents. *)
Definition store_wf (s : DocumentStore) : Prop :=
  store_ok s ∧ Forall (λ x, uri x.2 = x.1) (Document.documents s).

Lemma store_step_wf s s' : store_step s s' → store_wf s → store_wf s'.
Proof.
  intros Hstep [Hs Hk]. split; [by eapply store_step_ok|].
  assert (∀ k d r, uri d = k → Forall (λ x, uri x.2 = x.1)
    (Document.documents {| Document.documents := bt_insert (Document.documents s) k d; revision := r |}))
    as Hins.
  { intros k d r Hd. apply Forall_forall. intros [j e] Hin.
    apply bt_get_elem in Hin; [|by apply bt_insert_sorted].
    pose proof (store_get_insert s k d r j Hs) as Hg. unfold store_get in Hg. cbn in Hin, Hg.
    rewrite Hin in Hg. case_decide as Hj; [by injection Hg as ->; subst|].
    symmetry in Hg. apply bt_get_Some_in in Hg. rewrite Forall_forall in Hk. by apply Hk in Hg. }
  destruct Hstep as [d|u|u v cs s'' b Hc].
  - unfold replace. destruct (store_get s (uri d)) as [e|];
      [destruct (negb (accepts_version (version e) (version d))); [done|]|];
      (destruct (advance_revision_spec s) as [[_ ->]|[_ ->]]; [by apply Hins|done]).
  - unfold remove. destruct (store_get s u); [|done].
    destruct (advance_revision_spec s) as [[_ ->]|[_ ->]]; [|done]. cbn.
    rewrite Forall_forall in *. intros [j e] [Hin _]%bt_remove_in. by apply Hk in Hin.
  - apply apply_changes_inv in Hc as [[-> _]|(_ & d & t & _ & Hg & _ & _ & _ & ->)]; [done|].
    apply Hins. cbn. apply bt_get_Some_in in Hg. rewrite Forall_forall in Hk. by apply Hk in Hg.
Qed.

Lemma capture_documents s : store_wf (documents s) →
  snapshot_documents (capture s) = Document.documents (documents s).
Proof.
  intros [Hs Hk]. unfold capture. cbn.
  assert ((λ d, (uri d, d)) <$> (Document.documents (documents s)).*2 = Document.documents (documents s)) as ->.
  { clear Hs. induction Hk as [|[k d] m Hx _ IH]; [done|]. cbn in *. by rewrite Hx, IH. }
  by apply bt_of_list_id.
Qed.

(** A snapshot just taken is current. *)
Lemma capture_current s : store_wf (documents s) → snapshot_is_current (capture s) s = true.
Proof.
  intros Hwf. unfold snapshot_is_current. rewrite capture_documents by done. cbn.
  rewrite !N.eqb_refl, Nat.eqb_refl. cbn. apply forallb_forall. intros [k d] Hin%list_elem_of_In.
  apply bool_decide_true. destruct Hwf as [Hs _]. by apply bt_get_elem.
Qed.

Lemma effect_store s k s' added out :
  effect s k s' added out → store_wf (documents s) → store_wf (documents s').
Proof. intros [| |d out' Hstep _| | |] Hs; try done. by eapply store_step_wf. Qed.

Lemma effect_registry s k s' added out fl :
  effect s k s' added out → registry_ok (cancellation s) fl →
  registry_ok (cancellation s') ((worker_flight <$> added) ++ fl) ∧
  ∀ id j t, (id, Some j, Some t) ∈ fl →
    is_cancelled (cancellation s') t = is_cancelled (cancellation s) t || bool_decide (k = Some j).
Proof.
  intros He Hr.
  assert (∀ (id : Value) j t, (id, Some j, Some t) ∈ fl → is_cancelled (cancellation s) t =
    is_cancelled (cancellation s) t || bool_decide (@None RequestId = Some j)) as Hno
    by (intros; by rewrite orb_false_r).
  destruct He as [|j0| | |id j0 r t work Hid Hb _|id work Hid _]; try (split; [exact Hr|exact Hno]).
  - destruct (registry_cancel _ _ j0 Hr) as [Hr' Hf]. split; [exact Hr'|]. intros id j t Hin. cbn.
    rewrite (Hf _ _ _ Hin). f_equal. apply bool_decide_ext. split; [by intros ->|by intros [= ->]].
  - destruct (registry_begin _ fl j0 r t id Hr Hid Hb) as (Hr' & _ & Hold). split; [exact Hr'|].
    intros id' j t' Hin. transitivity (is_cancelled (cancellation s) t');
      [|exact (Hno _ _ _ Hin)]. apply Hold.
    eapply registry_lookup in Hin; [|done]. apply bt_get_elem in Hin; [|apply Hr].
    pose proof (registry_fresh _ _ Hr) as Hl. rewrite Forall_forall in Hl. by apply (Hl _ Hin).
  - split; [|exact Hno]. cbn. destruct Hr as [Hs Hf Ha Hl Hd]. split; [done|by constructor|done..].
Qed.

(** ** The session *)

(** The requests whose worker has a result. *)
Definition completed_of (e : ServerEvent) : option CompletedRequest :=
  match e with CompletedEvent c => Some c | _ => None end.
Definition finished (w : World) : list CompletedRequest :=
  computed w ++ omap completed_of (events w).

(** A result is one of its request's work, on a snapshot of an earlier state; a
    request found cancelled is one that was. *)
Definition completed_ok (s : Server) (c : CompletedRequest) : Prop :=
  match outcome c with
  | Completed completion =>
      ∃ work, execute work = Some completion ∧ snapshot_ok s (work_snapshot work)
  | Cancelled => ∃ t, request_token c = Some t ∧ is_cancelled (cancellation s) t = true
  | Panicked => True
  end.

Definition from_reader (e : ServerEvent) : bool :=
  match e with CompletedEvent _ => false | _ => true end.

(** What the reader has in the channel. *)
Definition reader_ok (w : World) : Prop :=
  let sent := List.filter from_reader (events w) in
  match reader w with
  | Reading _ => sent = [] ∧ terminal w = None
  | Waiting _ => (∃ msg, sent = [Input msg]) ∧ terminal w = None
  | ReaderDone =>
      sent = [] ∧ (∃ exited, terminal w = Some exited ∨ ∃ e, returned w = Some (Err e)) ∨
      (sent = [EndOfInput] ∨ ∃ e, sent = [InputError e]) ∧ terminal w = None
  end.

Record inv (w : World) : Prop := {
  inv_registry : registry_ok (cancellation (server w)) (in_flight w);
  inv_store : store_wf (documents (server w));
  inv_work : Forall (λ x, snapshot_ok (server w) (work_snapshot (worker_work x))) (pool (scheduler w));
  inv_finished : Forall (completed_ok (server w)) (finished w);
  inv_reader : reader_ok w;
  inv_returned : ∀ exited, returned w = Some (Ok exited) →
    terminal w = Some exited ∧ pending (scheduler w) = 0;
}.

Lemma execute_snapshot work c : execute work = Some c → completion_snapshot c = work_snapshot work.
Proof.
  destruct work; cbn;
    [destruct (hover _ _ _)|destruct (definition _ _ _)|destruct (code_actions _ _)];
    cbn [mbind option_bind]; try done; by intros [= <-].
Qed.

Lemma finished_flight w c : c ∈ finished w → completed_flight c ∈ in_flight w.
Proof.
  unfold finished, in_flight. rewrite !elem_of_app. intros [Hc|Hc]; right; [left|right].
  - by apply list_elem_of_fmap_2.
  - apply list_elem_of_omap in Hc as (e & He & Ee). apply list_elem_of_omap.
    exists e. split; [done|]. destruct e; try done. by injection Ee as ->.
Qed.

(** Results stay what they are while the server moves on. *)
Lemma completed_ok_mono s s' fl c :
  (∀ x, snapshot_ok s x → snapshot_ok s' x) →
  (∀ id j t, (id, Some j, Some t) ∈ fl → is_cancelled (cancellation s) t = true →
    is_cancelled (cancellation s') t = true) →
  Forall flight_ok fl → completed_flight c ∈ fl → completed_ok s c → completed_ok s' c.
Proof.
  intros Hx Hf Hfl Hin. unfold completed_ok. destruct (outcome c) as [completion| |]; [| |done].
  - intros (work & ? & ?). exists work. split; [done|by apply Hx].
  - intros (t & Ht & Hc). exists t. split; [done|]. rewrite Forall_forall in Hfl.
    specialize (Hfl _ Hin). unfold completed_flight in *. rewrite Ht in *.
    destruct (request_id c) as [j|]; [|done]. by apply (Hf (response_id c) j).
Qed.

Lemma run_worker_ok s x : snapshot_ok s (work_snapshot (worker_work x)) → completed_ok s (run_worker (cancellation s) x).
Proof.
  intros Hx. unfold completed_ok. cbn [outcome run_worker request_token].
  destruct (worker_token x) as [t|].
  - destruct (is_cancelled (cancellation s) t) eqn:E; [by exists t|].
    destruct (execute (worker_work x)) as [c|] eqn:Ee; [by exists (worker_work x)|done].
  - destruct (execute (worker_work x)) as [c|] eqn:Ee; [by exists (worker_work x)|done].
Qed.

(** The coordinator takes a completion: the entry of the request goes, and the
    flag it had decides. *)
Lemma complete_spec s sc c s' sc' out fl :
  registry_ok (cancellation s) (completed_flight c :: fl) →
  complete s sc c = (s', sc', out) →
  registry_ok (cancellation s') fl ∧ flags (cancellation s') = flags (cancellation s) ∧
  (∃ r, s' = with_cancellation s r) ∧
  out = if match request_token c with Some t => is_cancelled (cancellation s) t | None => false end
        then ErrorResponse (response_id c) REQUEST_CANCELLED_CODE "request cancelled"
        else match outcome c with
        | Completed completion =>
            Response (response_id c) (if is_current completion s then completion_result completion
                                      else stale_result completion)
        | Panicked => ErrorResponse (response_id c) INTERNAL_ERROR_CODE "request failed"
        | Cancelled => ErrorResponse (response_id c) REQUEST_CANCELLED_CODE "request cancelled"
        end.
Proof.
  intros Hr. pose proof (registry_flights _ _ Hr) as Hok. apply Forall_cons_1 in Hok as [Hok _].
  unfold complete, completed_flight in *. destruct (request_id c) as [k|], (request_token c) as [t|];
    try done.
  - apply registry_finish in Hr as (r' & -> & Hr' & Hf). intros [= <- <- <-].
    split_and!; [done..|by eexists|done].
  - intros [= <- <- <-]. split_and!; [|done|exists (cancellation s); by destruct s|done].
    destruct Hr as [Hs Hfl Ha Hl Hd]. split; [done|by apply Forall_cons_1 in Hfl as [_ ?]|done..].
Qed.

Lemma inv_serve stream : inv (serve stream).
Proof.
  split; try done; [|split; [apply bt_nil_sorted|constructor]|constructor..].
  split; cbn; [apply bt_nil_sorted|constructor|done|constructor|constructor].
Qed.

(** A thread that leaves the server alone keeps the invariant of what is in
    flight. *)
Lemma inv_server_same w w' :
  inv w → server w' = server w → in_flight w ≡ₚ in_flight w' →
  pool (scheduler w') ⊆ pool (scheduler w) →
  Forall (completed_ok (server w)) (finished w') → reader_ok w' →
  (∀ exited, returned w' = Some (Ok exited) → terminal w' = Some exited ∧ pending (scheduler w') = 0) →
  inv w'.
Proof.
  intros [Hr Hs Hw Hf Hrd Hret] Es Hp Hpool Hf' Hrd' Hret'. split; rewrite ?Es; try done.
  - by eapply registry_perm.
  - rewrite Forall_forall in *. intros x Hx. by apply Hw, Hpool.
Qed.

Lemma reader_ok_event w event rest :
  reader_ok w → events w = event :: rest → from_reader event = true →
  List.filter from_reader rest = [] ∧
  match event with
  | Input _ => (∃ stream, reader w = Waiting stream) ∧ terminal w = None
  | _ => reader w = ReaderDone ∧ terminal w = None
  end.
Proof.
  unfold reader_ok. intros Hr Hev He. rewrite Hev in Hr. simpl in Hr. rewrite He in Hr.
  destruct (reader w) as [stream|stream|].
  - by destruct Hr.
  - destruct Hr as [[msg [= -> ->]] Ht]. eauto.
  - destruct Hr as [[? _]|[[[= -> ->]|[e [= -> ->]]] Ht]]; done.
Qed.

Lemma inv_handle w msg rest s sc out ex w' :
  inv w → events w = Input msg :: rest → handle (server w) (scheduler w) msg = Some (s, sc, out, ex) →
  server w' = s → scheduler w' = sc → events w' = rest → computed w' = computed w →
  reader_ok w' → returned w' = None → inv w'.
Proof.
  intros [Hr Hs Hw Hf Hrd Hret] He Hh Es Esc Eev Eco Hrd' Hret'.
  apply handle_effect in Hh as (added & Heff & -> & _).
  destruct (spawned (scheduler w) added) as [Hpool _].
  destruct (effect_registry _ _ _ _ _ _ Heff Hr) as [Hr' Hflag].
  assert (in_flight w' ≡ₚ (worker_flight <$> added) ++ in_flight w) as Hp.
  { unfold in_flight. rewrite Esc, Hpool, Eco, Eev, He, fmap_app. cbn. rewrite !(assoc_L (++)).
    do 2 f_equiv. apply Permutation_app_comm. }
  split; rewrite ?Es; try done.
  - by eapply registry_perm.
  - by eapply effect_store.
  - rewrite Esc, Hpool. apply Forall_app. split; [|by eapply effect_work].
    eapply Forall_impl; [exact Hw|]. intros x. by apply (effect_snapshot _ _ _ _ _ _ Heff).
  - assert (finished w' = finished w) as -> by (unfold finished; by rewrite Eco, Eev, He).
    rewrite Forall_forall in *. intros c Hc. eapply completed_ok_mono, Hf, Hc.
    + intros x. by apply (effect_snapshot _ _ _ _ _ _ Heff).
    + intros id j t Hin Ht. by rewrite (Hflag _ _ _ Hin), Ht.
    + apply Hr.
    + by apply finished_flight.
  - intros exited. by rewrite Hret'.
Qed.

Lemma inv_complete w c rest s sc out w' :
  inv w → events w = CompletedEvent c :: rest → complete (server w) (scheduler w) c = (s, sc, out) →
  server w' = s → scheduler w' = sc → events w' = rest → computed w' = computed w →
  reader_ok w' → returned w' = None → inv w'.
Proof.
  intros [Hr Hs Hw Hf Hrd Hret] He Hc Es Esc Eev Eco Hrd' Hret'.
  pose proof (complete_flight _ _ _ _ _ _ Hc) as (Hpool & _ & _ & _).
  assert (in_flight w ≡ₚ completed_flight c :: in_flight w') as Hp.
  { unfold in_flight. rewrite Esc, Hpool, Eco, Eev, He. cbn. rewrite !(assoc_L (++)).
    symmetry. apply Permutation_middle. }
  apply (complete_spec _ _ _ _ _ _ (in_flight w')) in Hc as (Hr' & Hflags & [r Er] & _);
    [|by eapply registry_perm].
  split; rewrite ?Es; try done.
  - by rewrite Er.
  - rewrite Esc, Hpool, Er. done.
  - rewrite Forall_forall in *. intros x Hx.
    assert (x ∈ finished w) as Hin.
    { revert Hx. unfold finished. rewrite Eco, Eev, He. cbn. rewrite !elem_of_app, elem_of_cons. tauto. }
    eapply completed_ok_mono, Hf, Hin.
    + intros y. by rewrite Er.
    + intros id j t _. unfold is_cancelled. by rewrite Hflags.
    + apply Hr.
    + by apply finished_flight.
  - intros exited. by rewrite Hret'.
Qed.

Lemma inv_step w l w' : inv w → step w l w' → inv w'.
Proof.
  intros Hi Hstep%step_move. pose proof (inv_reader _ Hi) as Hrd. pose proof (inv_finished _ Hi) as Hfin.
  destruct Hstep as [ex Hr Ht Hp|msg ex rest Hr Ht He|msg rest s sc out ex Hr Ht He Hh|rest Hr He
    |e rest Hr He|c rest s sc out Hr He Hc|event r [stream Hrs] Hev|p q worker Hp|p q c Hp].
  - apply (inv_server_same w); try done.
    + unfold reader_ok in *. cbn. destruct (reader w); [by destruct Hrd as [_ ?]; congruence..|].
      destruct Hrd as [[Hsent _]|[_ ?]]; [|congruence]. left. split; [done|]. exists ex. by left.
    + cbn. by intros exited [= <-].
  - exfalso. destruct (reader_ok_event _ _ _ Hrd He eq_refl) as (_ & _ & ?). congruence.
  - destruct (reader_ok_event _ _ _ Hrd He eq_refl) as (Hrest & [stream Hw] & _).
    eapply inv_handle; try done. unfold reader_ok. cbn. rewrite Hw, Hrest.
    destruct ex as [ex|]; cbn; [left; split; [done|]; exists ex; by left|done].
  - destruct (reader_ok_event _ _ _ Hrd He eq_refl) as (Hrest & Hw & _).
    apply (inv_server_same w); try done.
    + unfold in_flight. by rewrite He.
    + unfold finished in *. by rewrite He in Hfin.
    + unfold reader_ok. cbn. rewrite Hw, Hrest. left. split; [done|]. eexists. by left.
  - destruct (reader_ok_event _ _ _ Hrd He eq_refl) as (Hrest & Hw & _).
    apply (inv_server_same w); try done.
    + unfold in_flight. by rewrite He.
    + unfold finished in *. by rewrite He in Hfin.
    + unfold reader_ok. cbn. rewrite Hw, Hrest. left. split; [done|]. exists Clean. right. by eexists.
  - eapply inv_complete; try done. unfold reader_ok in *. cbn. rewrite He in Hrd. cbn in Hrd.
    destruct (reader w); [done..|]. destruct Hrd as [[? [ex [?|[e ?]]]]|?]; [|congruence|by right].
    left. split; [done|]. exists ex. by left.
  - unfold reader_ok in Hrd. rewrite Hrs in Hrd. destruct Hrd as [Hsent Hterm].
    assert (from_reader event = true) as Hfrom by (by destruct event).
    apply (inv_server_same w); try done.
    + unfold in_flight. cbn. rewrite omap_app. destruct event; [by rewrite app_nil_r..|done].
    + unfold finished in *. cbn. rewrite omap_app. destruct event; [by rewrite app_nil_r..|done].
    + unfold reader_ok. cbn. rewrite List.filter_app, Hsent. cbn. rewrite Hfrom.
      destruct event; [destruct Hev as [stream' ->]; eauto|subst r; right; eauto..|done].
    + cbn. apply Hi.
  - apply (inv_server_same w); try done.
    + unfold in_flight. cbn. rewrite Hp, !fmap_app, <-!(assoc_L (++)). f_equiv.
      cbn [fmap list_fmap app]. rewrite run_worker_flight, !(assoc_L (++)). apply Permutation_middle.
    + cbn. rewrite Hp. intros x. rewrite !elem_of_app, elem_of_cons. tauto.
    + unfold finished in *. cbn. apply Forall_app in Hfin as [H1 H2].
      rewrite !Forall_app. split_and!; [done| |done]. constructor; [|constructor].
      apply run_worker_ok. pose proof (inv_work _ Hi) as Hw. rewrite Hp in Hw.
      apply Forall_app in Hw as [_ Hw]. by apply Forall_cons_1 in Hw as [? _].
    + cbn. apply Hi.
  - apply (inv_server_same w); try done.
    + unfold in_flight. cbn. rewrite Hp, omap_app, !fmap_app, <-!(assoc_L (++)). do 2 f_equiv.
      cbn [fmap list_fmap app omap list_omap]. rewrite !(assoc_L (++)). cbn. apply Permutation_cons_append.
    + unfold finished in *. cbn. rewrite omap_app. rewrite Hp in Hfin. cbn.
      rewrite !Forall_app in *. destruct Hfin as [[? [? ?]%Forall_cons_1] ?]. split_and!; try done.
      constructor; [done|constructor].
    + unfold reader_ok in *. cbn. rewrite List.filter_app. cbn. by rewrite app_nil_r.
    + cbn. apply Hi.
Qed.

Lemma reach_inv stream n trace w : reach stream n trace w → inv w.
Proof. induction 1; [apply inv_serve|by eapply inv_step]. Qed.

End ServerInv.
