(* ===== verification/ServerProps.v ===== *)
(** * What the language server guarantees

    Over every interleaving of the reader, the coordinator and the workers. *)

From stdpp Require Import countable.
From S2P Require Import Prelude BTree Utf8 Frame FrameProps Document.
From S2P Require Import DocumentProps Cancellation Server ServerInv.
#[local] Open Scope N_scope.

Section ServerProps.
Context `{Analysis}.

(** ** Steps of the coordinator *)

(** Taking a completion off the channel. *)
Lemma coordinator_completes w c rest w' :
  inv w → events w = CompletedEvent c :: rest → serve_iteration w = Some (Some w') →
  returned w' = None →
  ∃ r, server w' = with_cancellation (server w) r ∧ flags r = flags (cancellation (server w)) ∧
    written w' = written w ++
      [if match request_token c with Some t => is_cancelled (cancellation (server w)) t | None => false end
       then ErrorResponse (response_id c) REQUEST_CANCELLED_CODE "request cancelled"
       else match outcome c with
       | Completed completion =>
           Response (response_id c) (if is_current completion (server w) then completion_result completion
                                     else stale_result completion)
       | Panicked => ErrorResponse (response_id c) INTERNAL_ERROR_CODE "request failed"
       | Cancelled => ErrorResponse (response_id c) REQUEST_CANCELLED_CODE "request cancelled"
       end].
Proof.
  intros Hi He Hs Hret. pose proof (step_move _ _ _ (step_coordinator _ _ Hs)) as Hm.
  assert (serve_event w (CompletedEvent c) rest = Some w') as Hev.
  { unfold serve_iteration in Hs. rewrite He in Hs. destruct (returned w); [done|].
    destruct (terminal w) as [ex|]; [destruct (is_idle _)|]; try by injection Hs.
    injection Hs as <-. done. }
  cbn in Hev. destruct (complete _ _ c) as [[s sc] out] eqn:Ec. injection Hev as <-.
  assert (in_flight w ≡ₚ completed_flight c :: ((worker_flight <$> pool (scheduler w))
    ++ (completed_flight <$> computed w) ++ omap event_flight rest)) as Hp.
  { unfold in_flight. rewrite He. cbn. rewrite !(assoc_L (++)). symmetry. apply Permutation_middle. }
  pose proof (registry_perm _ _ _ Hp (inv_registry _ Hi)) as Hr.
  apply (complete_spec _ _ _ _ _ _ _ Hr) in Ec as (_ & Hf & [r ->] & ->).
  exists r. by split_and!.
Qed.

(** The coordinator always has a move for an event: nothing it does panics. *)
Lemma content_change_ok v c : content_change v = Some c → change_ok c.
Proof.
  assert (∀ v n, u32_of v = Some n → n <= U32_MAX) as Hu32.
  { intros x n. unfold u32_of. destruct (as_u64 x) as [m|]; [|done]. cbn.
    destruct (N.leb_spec m U32_MAX); [|done]. by intros [= <-]. }
  assert (∀ v p, protocol_position v = Some p → position_ok p) as Hpos.
  { intros x p. unfold protocol_position.
    destruct (get x "line" ≫= u32_of) as [l|] eqn:El; [|done].
    destruct (get x "character" ≫= u32_of) as [ch|] eqn:Ec; [|done]. cbn. intros [= <-].
    apply bind_Some in El as (? & _ & ?%Hu32), Ec as (? & _ & ?%Hu32). by split. }
  unfold content_change. destruct (get v "text" ≫= as_str) as [t|]; [|done]. cbn.
  destruct (get v "range") as [r|]; cbn.
  - destruct (protocol_range r) as [range|] eqn:Er; [|done]. cbn.
    destruct (match get v "rangeLength" with Some _ => _ | None => _ end) as [len|]; [|done]. cbn.
    intros [= <-]. unfold protocol_range in Er.
    destruct (get r "start" ≫= protocol_position) as [st|] eqn:Est; [|done].
    destruct (get r "end" ≫= protocol_position) as [en|] eqn:Een; [|done]. cbn in Er.
    injection Er as <-. apply bind_Some in Est as (? & _ & ?%Hpos), Een as (? & _ & ?%Hpos). by split.
  - destruct (match get v "rangeLength" with Some _ => _ | None => _ end) as [len|]; [|done]. cbn.
    by intros [= <-].
Qed.

Lemma change_document_total s params : is_Some (change_document s params).
Proof.
  unfold change_document. destruct (field params "textDocument") as [d|]; [|done].
  destruct (get d "uri" ≫= as_str) as [u|]; [destruct (get d "version" ≫= as_i64) as [v|]|]; [|done..].
  destruct (content_changes params) as [cs|] eqn:Ecs; [|done].
  assert (Forall change_ok cs) as Hok.
  { unfold content_changes in Ecs. apply bind_Some in Ecs as (vs & _ & Ecs).
    destruct vs as [|v0 vs]; [done|]. apply mapM_Some_1 in Ecs.
    apply Forall_forall. intros c Hc. apply list_elem_of_lookup in Hc as [i Hi].
    destruct (Forall2_lookup_r _ _ _ _ _ Ecs Hi) as (v' & _ & Hv). by eapply content_change_ok. }
  assert (is_Some (apply_changes (documents s) u v cs)) as [[docs b] ->]; [|by eexists].
  unfold apply_changes. destruct cs as [|c cs']; [done|]. remember (c :: cs') as ccs.
  destruct (store_get (documents s) u) as [d'|]; [|done]. destruct (negb _); [done|].
  destruct (apply_all_spec (text d') ccs Hok) as (r & -> & _). cbn.
  destruct r; [|done]. by destruct (advance_revision _).
Qed.

Lemma handle_total s sc msg : is_Some (handle s sc msg).
Proof.
  unfold handle. destruct (negb (is_object msg)); [done|]. cbv zeta.
  destruct (lifecycle_permits _ _ _) as [[|] out]; [|done].
  destruct (method_of <$> (get msg "method" ≫= as_str)) as [[]|]; try done.
  - destruct (initialize s (get msg "id")); exact (mk_is_Some _ _ eq_refl).
  - destruct (shutdown s (get msg "id")); exact (mk_is_Some _ _ eq_refl).
  - destruct (open_document s (get msg "params")); exact (mk_is_Some _ _ eq_refl).
  - destruct (change_document_total s (get msg "params")) as [[s' out'] ->]. by eexists.
  - destruct (save_document s (get msg "params")); exact (mk_is_Some _ _ eq_refl).
  - destruct (close_document s (get msg "params")); exact (mk_is_Some _ _ eq_refl).
  - destruct (update_configuration s (get msg "params")); exact (mk_is_Some _ _ eq_refl).
Qed.

Lemma serve_event_total w event rest : is_Some (serve_event w event rest).
Proof.
  destruct event as [msg| |e|c]; cbn; [|done..|].
  - destruct (terminal w); [done|].
    destruct (handle_total (server w) (scheduler w) msg) as [[[[s sc] out] ex] ->]. by eexists.
  - destruct (complete _ _ c) as [[s sc] out]. by eexists.
Qed.

(** ** Draining *)

Definition any_step (w w' : World) : Prop := ∃ l, step w l w'.

(** What is left to do once the session is to end. *)
Definition remaining (w : World) : nat :=
  3 * length (pool (scheduler w)) + 2 * length (computed w) + length (events w)
  + match returned w with None => 1 | Some _ => 0 end.

Record draining (exited : ServerExit) (w : World) : Prop := {
  draining_inv : inv w;
  draining_pending : pending (scheduler w) = N.of_nat (length (in_flight w));
  draining_terminal : terminal w = Some exited;
  draining_returned : returned w = None ∨ returned w = Some (Ok exited);
}.

(** Past the exit, the channel holds completions only. *)
Lemma draining_events exited w event rest :
  draining exited w → events w = event :: rest → from_reader event = false.
Proof.
  intros Hd He. destruct (from_reader event) eqn:Ef; [|done]. exfalso.
  destruct (reader_ok_event _ _ _ (inv_reader _ (draining_inv _ _ Hd)) He Ef) as [_ Hev].
  pose proof (draining_terminal _ _ Hd). destruct event; destruct Hev; congruence.
Qed.

Lemma draining_step exited w l w' :
  draining exited w → step w l w' → draining exited w' ∧ (remaining w' < remaining w)%nat.
Proof.
  intros Hd Hstep. pose proof (inv_step _ _ _ (draining_inv _ _ Hd) Hstep) as Hi'.
  pose proof (draining_terminal _ _ Hd) as Hterm. pose proof (draining_pending _ _ Hd) as Hpend.
  apply step_move in Hstep. pose proof (draining_events exited w) as Hevents.
  destruct Hstep as [ex Hr Ht Hp|msg ex rest Hr Ht He|msg rest s sc out ex Hr Ht He Hh|rest Hr He
    |e rest Hr He|c rest s sc out Hr He Hc|event r [stream Hrs] Hev|p q worker Hp|p q c Hp];
    try (by specialize (Hevents _ _ Hd He)).
  - split; [split; cbn; try done; [right; congruence]|]. unfold remaining. cbn. rewrite Hr. lia.
  - pose proof (complete_flight _ _ _ _ _ _ Hc) as (Hpool & Hpn & _ & _). split; [split; cbn; try done|].
    + rewrite Hpn, Hpend. unfold in_flight. cbn. rewrite Hpool, He, !length_app. cbn. lia.
    + by left.
    + unfold remaining. cbn. rewrite Hr, He, Hpool. cbn. lia.
  - exfalso. pose proof (inv_reader _ (draining_inv _ _ Hd)) as Hrd. unfold reader_ok in Hrd.
    rewrite Hrs in Hrd. destruct Hrd; congruence.
  - split; [split; cbn; try done|].
    + rewrite Hpend. unfold in_flight. cbn. rewrite Hp, !length_app, !length_fmap, !length_app. cbn. lia.
    + apply Hd.
    + unfold remaining. cbn. rewrite Hp, !length_app. cbn. lia.
  - split; [split; cbn; try done|].
    + rewrite Hpend. unfold in_flight. cbn.
      rewrite Hp, omap_app, !length_app, !length_fmap, !length_app. cbn. lia.
    + apply Hd.
    + unfold remaining. cbn. rewrite Hp, !length_app. cbn. lia.
Qed.

Lemma draining_progress exited w :
  draining exited w → returned w = None → ∃ w', any_step w w'.
Proof.
  intros Hd Hr. pose proof (draining_terminal _ _ Hd) as Ht.
  destruct (pool (scheduler w)) as [|x xs] eqn:Ep.
  2: { eexists _, None. apply (step_pool _ 0). unfold run_pooled. by rewrite Ep. }
  destruct (computed w) as [|c cs] eqn:Ec.
  2: { eexists _, None. apply (step_send _ 0). unfold send_completed. by rewrite Ec. }
  destruct (events w) as [|event rest] eqn:Ee.
  - assert (is_idle (scheduler w) = true) as Hidle.
    { unfold is_idle. rewrite (draining_pending _ _ Hd). unfold in_flight. by rewrite Ep, Ec, Ee. }
    eexists _, _. apply step_coordinator. unfold serve_iteration. by rewrite Hr, Ht, Hidle.
  - destruct (serve_event_total w event rest) as [w' Hw'].
    destruct (is_idle (scheduler w)) eqn:Hidle.
    + eexists _, _. apply step_coordinator. unfold serve_iteration. by rewrite Hr, Ht, Hidle.
    + exists w', (dispatched w). apply step_coordinator. unfold serve_iteration.
      by rewrite Hr, Ht, Hidle, Ee, Hw'.
Qed.

Lemma draining_runs exited k w w' :
  draining exited w → nsteps any_step k w w' → draining exited w' ∧ (k + remaining w' <= remaining w)%nat.
Proof.
  intros Hd Hn. revert Hd. induction Hn as [w|k w w1 w' [l Hs] _ IH]; intros Hd; [by split; [|lia]|].
  destruct (draining_step _ _ _ _ Hd Hs) as [Hd1 Hlt]. destruct (IH Hd1) as [? ?]. split; [done|lia].
Qed.

(** A completion on the channel is what a worker computed, and its snapshot is
    taken as current only if it is the server's. *)
Lemma completed_work w c completion rest :
  inv w → events w = CompletedEvent c :: rest → outcome c = Completed completion →
  ∃ work, execute work = Some completion ∧
    (snapshot_is_current (work_snapshot work) (server w) = true → work_snapshot work = capture (server w)).
Proof.
  intros Hi He Ho.
  assert (completed_ok (server w) c) as Hc.
  { pose proof (inv_finished _ Hi) as Hf. rewrite Forall_forall in Hf. apply Hf.
    unfold finished. rewrite He, elem_of_app. right. left. }
  unfold completed_ok in Hc. rewrite Ho in Hc. destruct Hc as (work & Hex & _ & _ & Hok).
  exists work. split; [done|]. unfold snapshot_is_current.
  rewrite !andb_true_iff, !N.eqb_eq. intros [[[? ?] _] _]. by apply Hok.
Qed.

(** The result that stands in for an outdated one is empty. *)
Lemma execute_stale_result work completion :
  execute work = Some completion → stale_result completion = VNull ∨ stale_result completion = VArray [].
Proof.
  destruct work; cbn;
    [destruct (hover _ _ _)|destruct (definition _ _ _)|destruct (code_actions _ _)];
    cbn; try done; intros [= <-]; cbn; auto.
Qed.

(** ** The guarantees *)

(** C33. Every message is answered as often as it owes an answer, and once: in any
    reachable state the answers written and the requests in flight are, counted,
    the requests dispatched.  The scheduler's counter is the number of requests
    in flight, so a server that returns without an error has answered everything.
    One that returns on an input error does so at once: what it leaves
    unanswered are the requests then in flight. *)
Theorem replies_exactly_once stream n trace w :
  reach stream n trace w → N.of_nat n <= USIZE_MAX →
  omap reply_id (written w) ++ (flight_id <$> in_flight w) ≡ₚ omap owes trace ∧
  pending (scheduler w) = N.of_nat (length (in_flight w)) ∧
  (∀ exited, returned w = Some (Ok exited) → omap reply_id (written w) ≡ₚ omap owes trace).
Proof.
  intros Hr Hn. destruct (move_reach _ _ _ _ Hr) as [Hb Hp]. destruct (Hp Hn) as [Hpend _].
  split_and!; [done..|]. intros ex Hret. destruct (inv_returned _ (reach_inv _ _ _ _ Hr) _ Hret) as [_ Hz].
  rewrite Hz in Hpend. assert (in_flight w = []) as E by (apply length_zero_iff_nil; lia).
  rewrite E in Hb. cbn in Hb. by rewrite app_nil_r in Hb.
Qed.

(** C34. A result is sent only if it is one of the documents and configuration as
    they are when it is sent: it was computed from a snapshot that equals the
    server's.  A result of anything older is replaced by the empty one, and a
    result that is not is never withheld, unless its request was cancelled
    meanwhile: then the error of a cancelled request is sent in its place,
    whatever it was computed from. *)
Theorem stale_results_withheld stream n trace w c completion rest w' :
  reach stream n trace w → events w = CompletedEvent c :: rest →
  outcome c = Completed completion →
  serve_iteration w = Some (Some w') → returned w' = None →
  let cancelled :=
    match request_token c with Some t => is_cancelled (cancellation (server w)) t | None => false end in
  (cancelled = true →
     written w' = written w ++
       [ErrorResponse (response_id c) REQUEST_CANCELLED_CODE "request cancelled"]) ∧
  (cancelled = false →
     ∃ work, execute work = Some completion ∧
     (work_snapshot work = capture (server w) →
        written w' = written w ++ [Response (response_id c) (completion_result completion)]) ∧
     (work_snapshot work ≠ capture (server w) →
        ∃ v, (v = VNull ∨ v = VArray []) ∧ written w' = written w ++ [Response (response_id c) v])).
Proof.
  intros Hreach He Ho Hs Hret. pose proof (reach_inv _ _ _ _ Hreach) as Hi. cbv zeta.
  destruct (coordinator_completes w c rest w' Hi He Hs Hret) as (r & _ & _ & ->).
  split; [by intros ->|intros ->]. destruct (completed_work w c completion rest Hi He Ho) as (work & Hex & Hcur).
  exists work. pose proof (execute_snapshot _ _ Hex) as Hsnap. unfold is_current. rewrite Ho, Hsnap.
  split_and!; [done|..].
  - intros ->. by rewrite capture_current by apply Hi.
  - intros Hne. destruct (snapshot_is_current (work_snapshot work) (server w)) eqn:Ecur;
      [by destruct (Hne (Hcur eq_refl))|].
    exists (stale_result completion). split; [|done]. by eapply execute_stale_result.
Qed.

(** A cancellation reaches the one request it names and no other.  The token of
    a request in flight is the registered one of its identifier; it is flagged by
    the cancellations of that identifier dispatched meanwhile and by nothing
    else; and the request is answered as cancelled exactly if it is flagged when
    its completion is taken.  While it is in flight its identifier cannot be
    scheduled again. *)
Theorem cancellation_exact stream n trace w id k t :
  reach stream n trace w → (id, Some k, Some t) ∈ in_flight w →
  bt_get (active (cancellation (server w))) k = Some t ∧
  (∀ l w', step w l w' → (id, Some k, Some t) ∈ in_flight w' →
     is_cancelled (cancellation (server w')) t =
       is_cancelled (cancellation (server w)) t || bool_decide (l ≫= cancels = Some k)) ∧
  (∀ c rest w', events w = CompletedEvent c :: rest → completed_flight c = (id, Some k, Some t) →
     serve_iteration w = Some (Some w') → returned w' = None →
     ∃ o, written w' = written w ++ [o] ∧
       (o = ErrorResponse id REQUEST_CANCELLED_CODE "request cancelled" ↔
        is_cancelled (cancellation (server w)) t = true)) ∧
  (∀ id' work sc, from_json id' = Some k →
     schedule_work (server w) sc id' work = (server w, sc, DuplicateIdentifier id')).
Proof.
  intros Hreach Hin. pose proof (reach_inv _ _ _ _ Hreach) as Hi.
  pose proof (registry_lookup _ _ _ _ _ (inv_registry _ Hi) Hin) as Hg. split_and!; [done|..].
  - intros l w' Hstep%step_move _.
    assert (∀ r : Server, cancellation r = cancellation (server w) → is_cancelled (cancellation r) t =
      is_cancelled (cancellation (server w)) t || bool_decide (@None RequestId = Some k)) as Hno
      by (intros r ->; by rewrite orb_false_r).
    destruct Hstep as [| |msg rest s sc out ex Hr Ht He Hh| | |c rest s sc out Hr He Hc| | |];
      try (by apply Hno).
    + apply handle_effect in Hh as (added & Heff & _ & _).
      destruct (effect_registry _ _ _ _ _ _ Heff (inv_registry _ Hi)) as [_ Hf].
      exact (Hf _ _ _ Hin).
    + assert (in_flight w ≡ₚ completed_flight c :: ((worker_flight <$> pool (scheduler w))
        ++ (completed_flight <$> computed w) ++ omap event_flight rest)) as Hp.
      { unfold in_flight. rewrite He. cbn. rewrite !(assoc_L (++)). symmetry. apply Permutation_middle. }
      pose proof (registry_perm _ _ _ Hp (inv_registry _ Hi)) as Hreg.
      apply (complete_spec _ _ _ _ _ _ _ Hreg) in Hc as (_ & Hf & _ & _). cbn.
      unfold is_cancelled. rewrite Hf. by rewrite orb_false_r.
  - intros c rest w' He [= Hid Hk Htok] Hs Hret.
    destruct (coordinator_completes w c rest w' Hi He Hs Hret) as (r & _ & _ & ->). rewrite Htok, Hid.
    eexists. split; [done|]. destruct (is_cancelled (cancellation (server w)) t) eqn:Ec; [done|].
    split; [|done]. destruct (outcome c) eqn:Eo; [done| |done]. intros _. exfalso.
    pose proof (inv_finished _ Hi) as Hf. rewrite Forall_forall in Hf.
    assert (completed_ok (server w) c) as Hc.
    { apply Hf. unfold finished. rewrite He, elem_of_app. right. left. }
    unfold completed_ok in Hc. rewrite Eo in Hc. destruct Hc as (t' & Ht' & Hc').
    rewrite Htok in Ht'. injection Ht' as <-. congruence.
  - intros id' work sc Hid. unfold schedule_work, begin. rewrite Hid, Hg. by destruct (server w).
Qed.

(** Once the session is to end it does: every run of the threads is finite, and
    as long as the server has not returned one of them can move; it then
    returns the exit that was decided. *)
Theorem exit_drains stream n trace w exited k w' :
  reach stream n trace w → N.of_nat n <= USIZE_MAX →
  terminal w = Some exited → returned w = None → nsteps any_step k w w' →
  (k <= remaining w)%nat ∧
  (returned w' = Some (Ok exited) ∨ returned w' = None ∧ ∃ w'', any_step w' w'').
Proof.
  intros Hreach Hn Ht Hret Hk. destruct (move_reach _ _ _ _ Hreach) as [_ Hp].
  assert (draining exited w) as Hd.
  { split; [by eapply reach_inv|by apply Hp|done|by left]. }
  destruct (draining_runs _ _ _ _ Hd Hk) as [Hd' Hle]. split; [lia|].
  destruct (draining_returned _ _ Hd') as [Hr|Hr]; [right|by left].
  split; [done|]. by eapply draining_progress.
Qed.

(** ** The lifecycle *)

Lemma notifications_keep_lifecycle s params :
  lifecycle (cancel_request s params) = lifecycle s ∧
  lifecycle (open_document s params).1 = lifecycle s ∧
  (∀ s' out, change_document s params = Some (s', out) → lifecycle s' = lifecycle s) ∧
  lifecycle (save_document s params).1 = lifecycle s ∧
  lifecycle (close_document s params).1 = lifecycle s ∧
  lifecycle (update_configuration s params).1 = lifecycle s.
Proof.
  split_and!.
  - unfold cancel_request. by case_match.
  - unfold open_document. by repeat case_match.
  - intros s' out. unfold change_document. repeat case_match; try (by intros [= <- _]).
    destruct (apply_changes _ _ _ _) as [[d b]|]; [|done]. by intros [= <- _].
  - unfold save_document. by repeat case_match.
  - unfold close_document. by repeat case_match.
  - unfold update_configuration. by repeat case_match.
Qed.

Lemma dispatch_keeps_lifecycle s sc id work :
  lifecycle (dispatch_work s sc id work).1.1 = lifecycle s.
Proof. unfold dispatch_work, schedule_work. by repeat case_match; simplify_eq. Qed.

(** After [shutdown] a notification other than [exit] is dropped, although the
    comment of [lifecycle_permits] has it pass through. *)
Lemma shutdown_drops_notifications s sc msg :
  is_object msg = true → lifecycle s = ShuttingDown → get msg "id" = None →
  method_of <$> (get msg "method" ≫= as_str) ≠ Some Exit →
  handle s sc msg = Some (s, sc, [], None).
Proof.
  intros Hobj Hl Hid Hm. unfold handle. rewrite Hobj, Hid. cbn [negb]. cbv zeta.
  destruct (method_of <$> (get msg "method" ≫= as_str)) as [[]|];
    unfold lifecycle_permits, initialize, shutdown; rewrite ?Hl; done.
Qed.


(** No message makes the coordinator panic, and the reader always has a next
    event. *)
Theorem coordinator_never_stuck w :
  serve_iteration w ≠ Some None ∧ (∀ stream, reader w = Reading stream → is_Some (read_event w)).
Proof.
  split.
  - unfold serve_iteration. destruct (returned w); [done|].
    assert (∀ event rest, Some (serve_event w event rest) ≠ Some None) as Hev.
    { intros event rest. by destruct (serve_event_total w event rest) as [? ->]. }
    destruct (terminal w); [destruct (is_idle (scheduler w)); [done|]|]; by destruct (events w).
  - intros stream Hr. unfold read_event. rewrite Hr.
    destruct (read_frame_total from_slice stream) as (out & rest & ->). cbn.
    by destruct out as [[msg|]|e].
Qed.
End ServerProps.

(** ** A session

    An execution of the threads on a scheduled interleaving, to run the
    guarantees on. *)

Section Execution.
Context `{Analysis}.

Inductive Turn := Coordinator | ReaderTurn | PoolTurn (i : nat) | SendTurn (i : nat).

Definition turn (w : World) (t : Turn) : option (option (Lifecycle * Value) * World) :=
  match t with
  | Coordinator => w' ← serve_iteration w; w' ← w'; Some (dispatched w, w')
  | ReaderTurn => w' ← read_event w; Some (None, w')
  | PoolTurn i => w' ← run_pooled w i; Some (None, w')
  | SendTurn i => w' ← send_completed w i; Some (None, w')
  end.

Fixpoint turns (w : World) (ts : list Turn) : option (list (Lifecycle * Value) * World) :=
  match ts with
  | [] => Some ([], w)
  | t :: ts =>
      '(l, w) ← turn w t;
      '(trace, w) ← turns w ts;
      Some (option_list l ++ trace, w)
  end.

Lemma turn_step w t l w' : turn w t = Some (l, w') → step w l w'.
Proof.
  destruct t; cbn; intros (w1 & E1 & E2)%bind_Some.
  - apply bind_Some in E2 as (w2 & -> & [= <- <-]). by constructor.
  - injection E2 as <- <-. by constructor.
  - injection E2 as <- <-. by eapply step_pool.
  - injection E2 as <- <-. by eapply step_send.
Qed.

Lemma turns_reach stream n trace w ts trace' w' :
  reach stream n trace w → turns w ts = Some (trace', w') →
  reach stream (n + length ts) (trace ++ trace') w'.
Proof.
  revert n trace w trace' w'. induction ts as [|t ts IH]; intros n trace w trace' w' Hr Ht; cbn in *.
  { injection Ht as <- <-. by rewrite Nat.add_0_r, app_nil_r. }
  apply bind_Some in Ht as ([l w1] & E1 & E2). apply turn_step in E1.
  apply bind_Some in E2 as ([tr w2] & E2 & [= <- <-]).
  rewrite (assoc_L (++)), Nat.add_succ_r, <-Nat.add_succ_l. eapply IH, E2. by eapply reach_step.
Qed.

Lemma run_reach stream ts trace w :
  turns (serve stream) ts = Some (trace, w) → reach stream (length ts) trace w.
Proof. intros Ht. apply (turns_reach stream 0 [] _ _ _ _ (reach_start stream) Ht). Qed.

Lemma turns_nsteps w ts trace w' : turns w ts = Some (trace, w') → nsteps any_step (length ts) w w'.
Proof.
  revert w trace. induction ts as [|t ts IH]; intros w trace Ht; cbn in *.
  { injection Ht as _ <-. constructor. }
  apply bind_Some in Ht as ([l w1] & E1 & E2). apply turn_step in E1.
  apply bind_Some in E2 as ([tr w2] & E2 & [= _ <-]). econstructor; [by exists l|by eapply IH].
Qed.
End Execution.

Module Example.
(** Messages named by one letter, and an analysis that finds nothing. *)
Import Tree.
Definition msg (fields : list (string * tree)) : tree :=
  GenNode 2 (concat (List.map (λ '(k, v), [GenLeaf (inl k); v]) fields)).
Definition str (s : string) : tree := GenLeaf (inl s).
Definition num (n : Z) : tree := GenLeaf (inr n).

Definition hover_params : tree :=
  msg [("textDocument", msg [("uri", str "u")]);
       ("position", msg [("line", num 0); ("character", num 0)])].
Definition document : tree :=
  msg [("textDocument", msg [("uri", str "u"); ("text", str "x"); ("version", num 1)])].

Definition messages : list (Text * tree) := [
  (bytes "i", msg [("method", str "initialize"); ("id", num 1)]);
  (bytes "h", msg [("method", str "textDocument/hover"); ("id", num 7); ("params", hover_params)]);
  (bytes "c", msg [("method", str "$/cancelRequest"); ("params", msg [("id", num 7)])]);
  (bytes "o", msg [("method", str "textDocument/didOpen"); ("params", document)]);
  (bytes "e", msg [("method", str "exit")])].

#[local] Instance json : Json := json_of messages.
#[local] Instance analysis : Analysis := {|
  hover _ _ _ := Some (Some (str "found"));
  definition _ _ _ := Some VNull;
  code_actions _ _ := Some None;
  diagnostics _ := [];
  package_version := "0";
|}.

Definition frames (names : list string) : Text :=
  concat (List.map (λ s, frame_header (N.of_nat (String.length s)) ++ bytes s) names).

(** A message read and dispatched. *)
Definition dispatch : list Turn := [ReaderTurn; Coordinator].

Definition run (names : list string) (ts : list Turn) : option (list (Lifecycle * Value) * World) :=
  turns (serve (frames names)) ts.

Definition world_after (names : list string) (ts : list Turn) : World :=
  match run names ts with Some (_, w) => w | None => serve [] end.

Definition trace_of (names : list string) (ts : list Turn) : list (Lifecycle * Value) :=
  match run names ts with Some (trace, _) => trace | None => [] end.

Lemma run_after names ts :
  match run names ts with Some _ => true | None => false end = true →
  reach (frames names) (length ts) (trace_of names ts) (world_after names ts).
Proof.
  unfold trace_of, world_after. destruct (run names ts) as [[trace w]|] eqn:E; [|done].
  intros _. by apply run_reach.
Qed.

(** A hover dispatched, computed, and answered after the exit. *)
Definition answered : list Turn :=
  dispatch ++ dispatch ++ [PoolTurn 0] ++ dispatch ++ [SendTurn 0; Coordinator; Coordinator].

Lemma replies_exactly_once_witness :
  returned (world_after ["i"; "h"; "e"] answered) = Some (Ok Unclean) ∧
  omap reply_id (written (world_after ["i"; "h"; "e"] answered)) ≡ₚ
    omap owes (trace_of ["i"; "h"; "e"] answered).
Proof.
  split; [vm_cast_no_check (@eq_refl (option (Result ServerExit FrameError)) (Some (Ok Unclean)))|].
  assert (reach (frames ["i"; "h"; "e"]) (length answered) (trace_of ["i"; "h"; "e"] answered)
    (world_after ["i"; "h"; "e"] answered)) as Hr by (apply run_after; vm_cast_no_check (eq_refl true)).
  destruct (replies_exactly_once _ _ _ _ Hr) as (_ & _ & Hdone); [vm_compute; discriminate|].
  apply (Hdone Unclean). vm_cast_no_check (@eq_refl (option (Result ServerExit FrameError)) (Some (Ok Unclean))).
Defined.

(** A document is opened while a worker computes: its result is withheld. *)
Definition outdated : list Turn := dispatch ++ dispatch ++ [PoolTurn 0] ++ dispatch ++ [SendTurn 0].

Definition first_completed (w : World) : CompletedRequest :=
  match events w with
  | CompletedEvent c :: _ => c
  | _ => {| response_id := VNull; request_id := None; request_token := None; outcome := Panicked |}
  end.

Definition completion_of (c : CompletedRequest) : RequestCompletion :=
  match outcome c with
  | Completed completion => completion
  | _ => {| completion_snapshot := capture Server_new; stale_result := VNull; completion_result := VNull |}
  end.

Lemma stale_results_withheld_witness :
  ∃ v, (v = VNull ∨ v = VArray []) ∧
  written (world_after ["i"; "h"; "o"] (outdated ++ [Coordinator])) =
    written (world_after ["i"; "h"; "o"] outdated) ++ [Response (num 7) v].
Proof.
  assert (reach (frames ["i"; "h"; "o"]) (length outdated) (trace_of ["i"; "h"; "o"] outdated)
    (world_after ["i"; "h"; "o"] outdated)) as Hr by (apply run_after; vm_cast_no_check (eq_refl true)).
  set (w := world_after ["i"; "h"; "o"] outdated) in *.
  set (w' := world_after ["i"; "h"; "o"] (outdated ++ [Coordinator])).
  destruct (stale_results_withheld _ _ _ w (first_completed w) (completion_of (first_completed w)) [] w' Hr)
    as [_ Hfresh].
  - vm_cast_no_check (eq_refl (events w)).
  - vm_cast_no_check (eq_refl (outcome (first_completed w))).
  - vm_cast_no_check (eq_refl (serve_iteration w)).
  - vm_cast_no_check (@eq_refl (option (Result ServerExit FrameError)) None).
  - destruct Hfresh as (work & Hex & _ & Hold); [vm_cast_no_check (eq_refl false)|].
    apply Hold. apply execute_snapshot in Hex. rewrite <-Hex. intros E.
    apply (f_equal document_revision) in E. vm_compute in E. discriminate E.
Defined.

(** A hover is cancelled before its worker runs. *)
Definition queued : list Turn := dispatch ++ dispatch ++ [ReaderTurn].

Lemma cancellation_exact_witness :
  is_cancelled (cancellation (server (world_after ["i"; "h"; "c"] queued))) 0 = false ∧
  is_cancelled (cancellation (server (world_after ["i"; "h"; "c"] (queued ++ [Coordinator])))) 0 = true.
Proof.
  split; [vm_cast_no_check (eq_refl false)|].
  assert (reach (frames ["i"; "h"; "c"]) (length queued) (trace_of ["i"; "h"; "c"] queued)
    (world_after ["i"; "h"; "c"] queued)) as Hr by (apply run_after; vm_cast_no_check (eq_refl true)).
  set (w := world_after ["i"; "h"; "c"] queued) in *.
  set (w' := world_after ["i"; "h"; "c"] (queued ++ [Coordinator])).
  assert (in_flight w = [(num 7, Some (IdNumber 7), Some 0%nat)]) as Hfl
    by vm_cast_no_check (eq_refl (in_flight w)).
  assert (in_flight w' = in_flight w) as Hfl' by vm_cast_no_check (eq_refl (in_flight w)).
  destruct (cancellation_exact _ _ _ w (num 7) (IdNumber 7) 0 Hr) as (_ & Hflag & _);
    [rewrite Hfl; left|].
  rewrite (Hflag (dispatched w) w'); [vm_cast_no_check (eq_refl true)| |rewrite Hfl', Hfl; left].
  apply step_coordinator. vm_cast_no_check (eq_refl (serve_iteration w)).
Defined.

(** The exit is decided with a hover in flight. *)
Definition ending : list Turn := dispatch ++ dispatch ++ dispatch.

Lemma exit_drains_witness :
  (4 <= remaining (world_after ["i"; "h"; "e"] ending))%nat.
Proof.
  assert (reach (frames ["i"; "h"; "e"]) (length ending) (trace_of ["i"; "h"; "e"] ending)
    (world_after ["i"; "h"; "e"] ending)) as Hr by (apply run_after; vm_cast_no_check (eq_refl true)).
  set (w := world_after ["i"; "h"; "e"] ending) in *.
  set (last_turns := [PoolTurn 0; SendTurn 0; Coordinator; Coordinator]).
  destruct (turns w last_turns) as [[trace w']|] eqn:E.
  - apply turns_nsteps in E. apply (exit_drains _ _ _ w Unclean 4 w' Hr); [vm_compute; discriminate| | |exact E].
    + vm_cast_no_check (eq_refl (Some Unclean)).
    + vm_cast_no_check (@eq_refl (option (Result ServerExit FrameError)) None).
  - apply (f_equal (λ o, match o with Some _ => true | None => false end)) in E.
    vm_compute in E. discriminate E.
Defined.

End Example.
