(* ===== verification/Schema.v ===== *)
(** * The schema of a model

    [schema/model.rs]: the classes, associations and enumerations the overlay
    narrows by, and the resolution of a class's members through its super
    types and associations.  A [HashMap] is an association list in some order,
    looked up by its first entry of a key. *)

From S2P Require Import Prelude.

(** ** Types *)

Inductive PrimName := Integer | Float | Decimal | NumberPrim | StringPrim | BooleanPrim | Date | StrictDate | DateTime.

Inductive TypeClass := Numeric | Str | Boolean | Temporal.

#[global] Instance PrimName_eq_dec : EqDecision PrimName.
Proof. solve_decision. Defined.
#[global] Instance TypeClass_eq_dec : EqDecision TypeClass.
Proof. solve_decision. Defined.

Definition PRIM_NAMES : list (string * PrimName) := [
  ("Integer", Integer); ("Float", Float); ("Decimal", Decimal); ("Number", NumberPrim);
  ("String", StringPrim); ("Boolean", BooleanPrim); ("Date", Date); ("StrictDate", StrictDate);
  ("DateTime", DateTime)].

(** [PrimName::from_ident] and [type_class]. *)
Definition from_ident (text : string) : option PrimName :=
  snd <$> List.find (λ x, String.eqb x.1 text) PRIM_NAMES.

Definition type_class (p : PrimName) : TypeClass :=
  match p with
  | Integer | Float | Decimal | NumberPrim => Numeric
  | StringPrim => Str
  | BooleanPrim => Boolean
  | Date | StrictDate | DateTime => Temporal
  end.

Inductive PropType :=
| PrimitiveType (name : PrimName)
| ClassType (path : string)
| EnumType (path : string).

Record Multiplicity := { lower : N; upper : option N }.

Definition SCALAR_UPPER : N := 1.
Definition is_to_one (m : Multiplicity) : bool := bool_decide (upper m = Some SCALAR_UPPER).

Record PropertySpec := { prop_name : string; prop_type : PropType; prop_mult : Multiplicity }.

Record QualifiedPropertySpec := {
  qprop_name : string; return_type : PropType; return_mult : Multiplicity }.

Inductive TemporalKind := Business | Processing | Bitemporal.

(** [Temporal::arity]. *)
Definition arity (t : TemporalKind) : nat :=
  match t with Business | Processing => 1 | Bitemporal => 2 end.

Record ClassInfo := {
  simple_name : string;
  properties : list PropertySpec;
  qualified_properties : list QualifiedPropertySpec;
  super_types : list string;
  class_temporal : option TemporalKind;
}.

Record AssociationEnd := { property_name : string; target_class : string; end_mult : Multiplicity }.
Record AssociationSpec := { assoc_path : string; assoc_ends : AssociationEnd * AssociationEnd }.
Record NavStep := { step_prop : string; step_target : string; step_mult : Multiplicity }.

Inductive Resolved :=
| ResolvedPrimitive (prim : PrimName) (mult : Multiplicity)
| ResolvedClass (path : string) (mult : Multiplicity)
| ResolvedEnum (path : string) (mult : Multiplicity).

(** ** The schema *)

Definition hm_get {V} (m : list (string * V)) (k : string) : option V :=
  snd <$> List.find (λ x, String.eqb x.1 k) m.

(** [entry(k).or_default().push(v)]. *)
Fixpoint hm_push {V} (m : list (string * list V)) (k : string) (v : V) : list (string * list V) :=
  match m with
  | [] => [(k, [v])]
  | (k', vs) :: m => if String.eqb k' k then (k', vs ++ [v]) :: m else (k', vs) :: hm_push m k v
  end.

(** What the JSON contract holds. *)
Record SchemaData := {
  data_db_id : string;
  data_db_path : string;
  data_classes : list (string * ClassInfo);
  data_associations : list AssociationSpec;
  data_enums : list (string * list string);
}.

Record Schema := {
  db_id : string;
  db_path : string;
  classes : list (string * ClassInfo);
  enums : list (string * list string);
  navigable : list (string * list NavStep);
}.

(** [Schema::build_navigable]: each end is navigable from the other's class. *)
Definition push_association (m : list (string * list NavStep)) (a : AssociationSpec)
    : list (string * list NavStep) :=
  let '(e0, e1) := assoc_ends a in
  let m := hm_push m (target_class e0)
    {| step_prop := property_name e1; step_target := target_class e1; step_mult := end_mult e1 |} in
  hm_push m (target_class e1)
    {| step_prop := property_name e0; step_target := target_class e0; step_mult := end_mult e0 |}.

Definition build_navigable (associations : list AssociationSpec) : list (string * list NavStep) :=
  foldl push_association [] associations.

(** [Schema::from_json], given what [serde_json] makes of the text. *)
Definition from_data (d : SchemaData) : Schema := {|
  db_id := data_db_id d; db_path := data_db_path d; classes := data_classes d;
  enums := data_enums d; navigable := build_navigable (data_associations d);
|}.

Definition has_class (s : Schema) (path : string) : bool := bool_decide (is_Some (hm_get (classes s) path)).

Definition source_paths (s : Schema) : list string := (classes s).*1 ++ [db_path s].

Definition enum_values (s : Schema) (path : string) : option (list string) := hm_get (enums s) path.

Definition temporal (s : Schema) (class : string) : option TemporalKind :=
  hm_get (classes s) class ≫= class_temporal.

(** ** Members *)

(** [Schema::collect_members]; [None] is running out of fuel. *)
Fixpoint collect_members (s : Schema) (fuel : nat) (class : string) (names visited : list string)
    : option (list string * list string) :=
  match fuel with
  | O => None
  | S fuel =>
      if existsb (String.eqb class) visited then Some (names, visited)
      else
        let visited := visited ++ [class] in
        '(names, visited) ←
          match hm_get (classes s) class with
          | Some info =>
              let names := names ++ (prop_name <$> properties info) in
              let names := names ++ (qprop_name <$> qualified_properties info) in
              foldl (λ acc parent, '(names, visited) ← acc; collect_members s fuel parent names visited)
                (Some (names, visited)) (super_types info)
          | None => Some (names, visited)
          end;
        let names := names ++ (step_prop <$> default [] (hm_get (navigable s) class)) in
        Some (names, visited)
  end.

(** One level per class, and one more. *)
Definition members_fuel (s : Schema) : nat := S (length (classes s)).

Definition member_names (s : Schema) (class : string) : option (list string) :=
  fst <$> collect_members s (members_fuel s) class [] [].

Definition resolved_from (ty : PropType) (mult : Multiplicity) : Resolved :=
  match ty with
  | PrimitiveType name => ResolvedPrimitive name mult
  | ClassType path => ResolvedClass path mult
  | EnumType path => ResolvedEnum path mult
  end.

(** [Schema::resolve_in]: the member, if it is found, and the classes seen. *)
Fixpoint resolve_in (s : Schema) (fuel : nat) (class ident : string) (visited : list string)
    : option (option Resolved * list string) :=
  match fuel with
  | O => None
  | S fuel =>
      if existsb (String.eqb class) visited then Some (None, visited)
      else
        let visited := visited ++ [class] in
        '(found, visited) ←
          match hm_get (classes s) class with
          | Some info =>
              match List.find (λ p, String.eqb (prop_name p) ident) (properties info) with
              | Some p => Some (Some (resolved_from (prop_type p) (prop_mult p)), visited)
              | None =>
                  match List.find (λ q, String.eqb (qprop_name q) ident) (qualified_properties info) with
                  | Some q => Some (Some (resolved_from (return_type q) (return_mult q)), visited)
                  | None =>
                      foldl (λ acc parent,
                          '(found, visited) ← acc;
                          match found with
                          | Some _ => Some (found, visited)
                          | None => resolve_in s fuel parent ident visited
                          end)
                        (Some (None, visited)) (super_types info)
                  end
              end
          | None => Some (None, visited)
          end;
        match found with
        | Some _ => Some (found, visited)
        | None =>
            match List.find (λ n, String.eqb (step_prop n) ident) (default [] (hm_get (navigable s) class)) with
            | Some n => Some (Some (ResolvedClass (step_target n) (step_mult n)), visited)
            | None => Some (None, visited)
            end
        end
  end.

Definition resolve (s : Schema) (class ident : string) : option (option Resolved) :=
  fst <$> resolve_in s (members_fuel s) class ident [].

(** [member_is_numeric] and [member_is_string]. *)
Definition member_is (tc : TypeClass) (s : Schema) (class ident : string) : option bool :=
  found ← resolve s class ident;
  Some match found with
  | Some (ResolvedPrimitive prim _) => bool_decide (type_class prim = tc)
  | _ => false
  end.
Definition member_is_numeric := member_is Numeric.
Definition member_is_string := member_is Str.
