(* ===== verification/SchemaProps.v ===== *)
(** * The members of a class

    The walk over a class and its super types ends on every schema, cyclic
    ones included, visits exactly the classes reachable from the class, and
    [resolve] finds the first declaration the walk meets. *)

From S2P Require Import Prelude Schema.

(** ** What the walk is about *)

(** The declarations of one class: its properties and qualified properties,
    and the association ends navigable from it. *)
Definition stored_decls (s : Schema) (class : string) : list (string * Resolved) :=
  match hm_get (classes s) class with
  | Some info =>
      ((λ p, (prop_name p, resolved_from (prop_type p) (prop_mult p))) <$> properties info)
      ++ ((λ q, (qprop_name q, resolved_from (return_type q) (return_mult q))) <$> qualified_properties info)
  | None => []
  end.

Definition nav_decls (s : Schema) (class : string) : list (string * Resolved) :=
  (λ n, (step_prop n, ResolvedClass (step_target n) (step_mult n))) <$> default [] (hm_get (navigable s) class).

Definition supers (s : Schema) (class : string) : list string :=
  match hm_get (classes s) class with Some info => super_types info | None => [] end.

(** The class or one of its transitive super types. *)
Definition reaches (s : Schema) : relation string := rtc (λ c d, d ∈ supers s c).

(** The walk that both functions make, keeping whole declarations. *)
Fixpoint declarations (s : Schema) (fuel : nat) (class : string) (visited : list string)
    : option (list (string * Resolved) * list string) :=
  match fuel with
  | O => None
  | S fuel =>
      if existsb (String.eqb class) visited then Some ([], visited)
      else
        '(inherited, visited) ←
          foldl (λ acc parent,
              '(ds, visited) ← acc;
              '(ds', visited) ← declarations s fuel parent visited;
              Some (ds ++ ds', visited))
            (Some ([], visited ++ [class])) (supers s class);
        Some (stored_decls s class ++ inherited ++ nav_decls s class, visited)
  end.

(** The declarations a class has, in the order the walk meets them. *)
Definition declared (s : Schema) (class : string) : option (list (string * Resolved)) :=
  fst <$> declarations s (members_fuel s) class [].

Definition find_decl (ident : string) (ds : list (string * Resolved)) : option Resolved :=
  snd <$> List.find (λ d, String.eqb d.1 ident) ds.

(** The step of the walk over the super types. *)
Definition walk_parent (s : Schema) (fuel : nat)
    (acc : option (list (string * Resolved) * list string)) (parent : string) :=
  '(ds, visited) ← acc;
  '(ds', visited) ← declarations s fuel parent visited;
  Some (ds ++ ds', visited).

Lemma declarations_S s fuel class visited :
  declarations s (S fuel) class visited =
    if existsb (String.eqb class) visited then Some ([], visited)
    else
      '(inherited, visited) ← foldl (walk_parent s fuel) (Some ([], visited ++ [class])) (supers s class);
      Some (stored_decls s class ++ inherited ++ nav_decls s class, visited).
Proof. reflexivity. Qed.

Lemma visited_iff class visited : existsb (String.eqb class) visited = true ↔ class ∈ visited.
Proof.
  rewrite existsb_exists, list_elem_of_In. split.
  - intros (x & Hin & ->%String.eqb_eq). done.
  - intros Hin. exists class. by rewrite String.eqb_refl.
Qed.

Lemma not_visited class visited : class ∉ visited → existsb (String.eqb class) visited = false.
Proof. intros Hn. apply not_true_iff_false. by rewrite visited_iff. Qed.

(** ** The walk ends *)

(** The classes of the schema the walk has not been to. *)
Definition unseen (s : Schema) (visited : list string) : list string :=
  filter (λ k, k ∉ visited) (classes s).*1.

Lemma unseen_mono s v v' : v ⊆ v' → length (unseen s v') ≤ length (unseen s v).
Proof.
  intros Hv. unfold unseen. induction ((classes s).*1) as [|k ks IH]; [done|].
  rewrite !filter_cons. repeat case_decide; cbn [length]; try lia. set_solver.
Qed.

Lemma unseen_push s v c :
  c ∈ (classes s).*1 → c ∉ v → length (unseen s (v ++ [c])) < length (unseen s v).
Proof.
  intros Hin Hn. unfold unseen. induction ((classes s).*1) as [|k ks IH]; [set_solver|].
  rewrite !filter_cons. destruct (decide (k = c)) as [->|Hk].
  - rewrite decide_False, decide_True by set_solver. cbn [length].
    enough (length (filter (λ k, k ∉ v ++ [c]) ks) ≤ length (filter (λ k, k ∉ v) ks)) by lia.
    clear IH Hin. induction ks as [|k ks IH]; [done|].
    rewrite !filter_cons. repeat case_decide; cbn [length]; try lia. set_solver.
  - apply elem_of_cons in Hin as [?|Hin]; [congruence|]. specialize (IH Hin).
    repeat case_decide; cbn [length]; try lia; set_solver.
Qed.

Lemma hm_get_key {V} (m : list (string * V)) k v : hm_get m k = Some v → k ∈ m.*1.
Proof.
  unfold hm_get. induction m as [|[k' v'] m IH]; [done|]. cbn.
  destruct (String.eqb k' k) eqn:E; [apply String.eqb_eq in E|]; set_solver.
Qed.

Lemma supers_key s c d : d ∈ supers s c → c ∈ (classes s).*1.
Proof.
  unfold supers. destruct (hm_get (classes s) c) eqn:E; [|set_solver].
  intros _. by eapply hm_get_key.
Qed.

(** What a walk from [cs] that had seen [v] leaves: it has seen [v'], all of
    it reachable and closed under super types, and the declarations it has met
    are those of the classes it newly saw. *)
Record walked (s : Schema) (cs : list string) (v v' : list string) (ds : list (string * Resolved)) : Prop := {
  walked_keeps : v ⊆ v';
  walked_seen : cs ⊆ v';
  walked_new : ∀ d, d ∈ v' → d ∉ v → ∃ c, c ∈ cs ∧ reaches s c d;
  walked_closed : ∀ d p, d ∈ v' → d ∉ v → p ∈ supers s d → p ∈ v';
  walked_decls : ∀ x, x ∈ ds ↔ ∃ d, d ∈ v' ∧ d ∉ v ∧ x ∈ stored_decls s d ++ nav_decls s d;
}.

Lemma walked_nil s v : walked s [] v v [].
Proof. split; try set_solver. Qed.

Lemma walked_app s cs c v v' v'' ds ds' :
  walked s cs v v' ds → walked s [c] v' v'' ds' → walked s (cs ++ [c]) v v'' (ds ++ ds').
Proof.
  intros [K1 S1 N1 C1 D1] [K2 S2 N2 C2 D2]. split.
  - set_solver.
  - set_solver.
  - intros d Hd Hn. destruct (decide (d ∈ v')) as [Hd'|Hd'].
    + destruct (N1 d Hd' Hn) as (c' & ? & ?). exists c'. set_solver.
    + destruct (N2 d Hd Hd') as (c' & ? & ?). exists c'. set_solver.
  - intros d p Hd Hn Hp. destruct (decide (d ∈ v')) as [Hd'|Hd']; [|by eauto].
    apply K2. by eauto.
  - intros x. rewrite elem_of_app, D1, D2. split.
    + intros [(d & ? & ? & ?)|(d & ? & ? & ?)]; exists d; set_solver.
    + intros (d & Hd & Hn & Hx). destruct (decide (d ∈ v')); [left|right]; exists d; set_solver.
Qed.

Lemma walked_push s c v v' ds :
  c ∉ v → walked s (supers s c) (v ++ [c]) v' ds →
  walked s [c] v v' (stored_decls s c ++ ds ++ nav_decls s c).
Proof.
  intros Hc [K S' N C D]. split.
  - set_solver.
  - set_solver.
  - intros d Hd Hn. exists c. split; [set_solver|].
    destruct (decide (d = c)) as [->|Hdc]; [constructor|].
    destruct (N d Hd) as (p & Hp & Hr); [set_solver|]. by eapply rtc_l.
  - intros d p Hd Hn Hp. destruct (decide (d = c)) as [->|Hdc]; [set_solver|].
    apply (C d p Hd); set_solver.
  - intros x. rewrite !elem_of_app, D. split.
    + intros [Hx|[(d & ? & ? & Hx)|Hx]]; [exists c|exists d|exists c]; set_solver.
    + intros (d & Hd & Hn & Hx). destruct (decide (d = c)) as [->|Hdc]; [set_solver|].
      right; left. exists d. set_solver.
Qed.

(** With a level of fuel for each class not yet seen, the walk is whole. *)
Lemma declarations_walked s fuel :
  ∀ class visited, length (unseen s visited) < fuel →
    ∃ ds visited', declarations s fuel class visited = Some (ds, visited')
                   ∧ walked s [class] visited visited' ds.
Proof.
  induction fuel as [|fuel IH]; intros c v Hf; [lia|].
  rewrite declarations_S. destruct (decide (c ∈ v)) as [Hc|Hc].
  { rewrite (proj2 (visited_iff c v) Hc). exists [], v. split; [done|]. split; set_solver. }
  rewrite not_visited by done.
  assert (Hparents : ∀ todo did v0 ds0,
    did ++ todo = supers s c → walked s did (v ++ [c]) v0 ds0 →
    ∃ ds v', foldl (walk_parent s fuel) (Some (ds0, v0)) todo = Some (ds, v')
             ∧ walked s (supers s c) (v ++ [c]) v' ds).
  { induction todo as [|p todo IHt]; intros did v0 ds0 Heq Hw; cbn [foldl].
    { rewrite app_nil_r in Heq; subst. by eauto. }
    destruct (IH p v0) as (ds1 & v1 & Hd & Hw1).
    { pose proof (unseen_mono s _ _ (walked_keeps _ _ _ _ _ Hw)).
      assert (c ∈ (classes s).*1) as Hk by (apply (supers_key s c p); rewrite <- Heq; apply elem_of_app; right; left).
      pose proof (unseen_push s v c Hk Hc). lia. }
    unfold walk_parent at 2; cbn. rewrite Hd; cbn.
    apply (IHt (did ++ [p])); [by rewrite <- app_assoc|]. by eapply walked_app. }
  destruct (Hparents (supers s c) [] (v ++ [c]) []) as (ds & v' & -> & Hw); [done|apply walked_nil|].
  cbn. eexists _, _. split; [done|]. by apply walked_push.
Qed.

Lemma members_fuel_enough s : length (unseen s []) < members_fuel s.
Proof.
  unfold unseen, members_fuel. pose proof (length_filter (λ k, k ∉ ([] : list string)) ((classes s).*1)).
  rewrite length_fmap in *. lia.
Qed.

Lemma declared_exact s class :
  ∃ ds, declared s class = Some ds
        ∧ ∀ x, x ∈ ds ↔ ∃ d, reaches s class d ∧ x ∈ stored_decls s d ++ nav_decls s d.
Proof.
  destruct (declarations_walked s _ class [] (members_fuel_enough s)) as (ds & v & Hd & [K S' N C D]).
  exists ds. unfold declared. rewrite Hd. split; [done|]. intros x. rewrite D. split.
  - intros (d & Hd' & Hn & Hx). destruct (N d Hd' Hn) as (c & Hc & Hr).
    apply list_elem_of_singleton in Hc as ->. eauto.
  - intros (d & Hr & Hx). exists d. split_and!; [|set_solver|done].
    assert (Hclosed : ∀ a b, reaches s a b → a ∈ v → b ∈ v).
    { induction 1 as [|a b b' Hab _ IH]; [done|]. intros Ha. apply IH. apply (C a b Ha); set_solver. }
    eapply Hclosed; [done|set_solver].
Qed.

(** ** [member_names] lists that walk *)

(** The names met after [names]. *)
Definition after_names (names : list string) (acc : option (list (string * Resolved) * list string)) :=
  '(ds, visited) ← acc; Some (names ++ ds.*1, visited).

Lemma collect_is_walk s fuel :
  ∀ class names visited,
    collect_members s fuel class names visited = after_names names (declarations s fuel class visited).
Proof.
  induction fuel as [|fuel IH]; intros c names v; [done|].
  cbn [collect_members]. rewrite declarations_S.
  destruct (existsb _ v); [cbn; by rewrite app_nil_r|].
  assert (Hfold : ∀ ps own acc,
    foldl (λ acc parent, '(names, visited) ← acc; collect_members s fuel parent names visited)
          (after_names own acc) ps
    = after_names own (foldl (walk_parent s fuel) acc ps)).
  { induction ps as [|p ps IHp]; intros own acc; [done|]. cbn [foldl]. rewrite <- IHp. f_equal.
    destruct acc as [[ds v0]|]; [|done]. cbn. rewrite IH.
    destruct (declarations s fuel p v0) as [[ds' v1]|]; [|done].
    cbn. by rewrite fmap_app, app_assoc. }
  unfold stored_decls, nav_decls, supers.
  destruct (hm_get (classes s) c) as [info|].
  - specialize (Hfold (super_types info) ((names ++ (prop_name <$> properties info))
                       ++ (qprop_name <$> qualified_properties info)) (Some ([], v ++ [c]))).
    unfold after_names in Hfold at 1; cbn in Hfold. rewrite app_nil_r in Hfold. rewrite Hfold.
    destruct (foldl (walk_parent s fuel) _ _) as [[ds v']|]; [|done]. cbn.
    by rewrite !fmap_app, <- !list_fmap_compose, <- !app_assoc.
  - cbn. rewrite <- list_fmap_compose. done.
Qed.

Lemma member_names_declared s class : member_names s class = (λ ds, ds.*1) <$> declared s class.
Proof.
  unfold member_names, declared. rewrite collect_is_walk.
  by destruct (declarations _ _ _ _) as [[ds v]|].
Qed.

Lemma member_names_unknown s class :
  hm_get (classes s) class = None → hm_get (navigable s) class = None → member_names s class = Some [].
Proof. intros Hc Hn. unfold member_names, members_fuel. cbn. by rewrite Hc, Hn. Qed.

(** ** [resolve] finds the first declaration of that walk *)

Lemma find_decl_app ident ds ds' :
  find_decl ident (ds ++ ds') =
    match find_decl ident ds with Some r => Some r | None => find_decl ident ds' end.
Proof.
  unfold find_decl. induction ds as [|[n r] ds IH]; [done|]. cbn.
  by destruct (String.eqb n ident).
Qed.

Lemma find_decl_fmap {A} (name : A → string) (r : A → Resolved) ident xs :
  find_decl ident ((λ x, (name x, r x)) <$> xs) = r <$> List.find (λ x, String.eqb (name x) ident) xs.
Proof.
  unfold find_decl. induction xs as [|x xs IH]; [done|]. cbn. by destruct (String.eqb (name x) ident).
Qed.

(** The answer a walk's declarations give; the classes seen matter only when
    there is none. *)
Definition answers (ident : string) (ds : list (string * Resolved)) (v' : list string)
    (out : option (option Resolved * list string)) : Prop :=
  ∃ vr, out = Some (find_decl ident ds, vr) ∧ (find_decl ident ds = None → vr = v').

Lemma resolve_is_walk s ident fuel :
  ∀ class v ds v', declarations s fuel class v = Some (ds, v') →
    answers ident ds v' (resolve_in s fuel class ident v).
Proof.
  induction fuel as [|fuel IH]; intros c v ds v'; [done|].
  rewrite declarations_S. cbn [resolve_in].
  destruct (existsb _ v); [intros [= <- <-]; by exists v|].
  assert (Hfold : ∀ ps ds0 v0 ds1 v1 out,
    foldl (walk_parent s fuel) (Some (ds0, v0)) ps = Some (ds1, v1) → answers ident ds0 v0 out →
    answers ident ds1 v1 (foldl (λ acc parent,
        '(found, visited) ← acc;
        match found with
        | Some _ => Some (found, visited)
        | None => resolve_in s fuel parent ident visited
        end) out ps)).
  { induction ps as [|p ps IHp]; intros ds0 v0 ds1 v1 out; cbn [foldl].
    { by intros [= <- <-]. }
    unfold walk_parent at 2; cbn. destruct (declarations s fuel p v0) as [[ds' v0']|] eqn:Ed.
    2:{ intros Hn. exfalso. clear -Hn. induction ps as [|q ps IHq]; [done|]. by apply IHq. }
    intros Hw (vr & -> & Hvr). apply (IHp _ _ _ _ _ Hw). cbn.
    unfold answers. rewrite find_decl_app. destruct (find_decl ident ds0); [by eexists|].
    rewrite Hvr by done. by apply IH. }
  destruct (foldl (walk_parent s fuel) _ _) as [[inh v1]|] eqn:Ew; [|done].
  cbn. intros [= <- <-]. unfold answers. rewrite !find_decl_app.
  unfold nav_decls. rewrite find_decl_fmap.
  unfold stored_decls. unfold supers in Ew.
  destruct (hm_get (classes s) c) as [info|] eqn:Ec.
  - rewrite find_decl_app, !find_decl_fmap.
    destruct (List.find _ (properties info)); [cbn; by eexists|].
    destruct (List.find _ (qualified_properties info)); [cbn; by eexists|]. cbn.
    destruct (Hfold _ _ _ _ _ (Some (None, v ++ [c])) Ew) as (vr & -> & Hvr); [by eexists|]. cbn.
    destruct (find_decl ident inh); [by eexists|]. rewrite Hvr by done.
    destruct (List.find _ _); cbn; by eexists.
  - cbn in Ew |- *. injection Ew as <- <-. cbn. destruct (List.find _ _); cbn; by eexists.
Qed.

Lemma resolve_declared s class ident : resolve s class ident = find_decl ident <$> declared s class.
Proof.
  destruct (declarations_walked s _ class [] (members_fuel_enough s)) as (ds & v & Hd & _).
  unfold resolve, declared. rewrite Hd.
  by destruct (resolve_is_walk s ident _ _ _ _ _ Hd) as (vr & -> & _).
Qed.

(** ** Navigation is the other end's *)

(** The step an association gives from a class: to the end [other], if the
    class is the target of [this]. *)
Definition step_from (class : string) (this other : AssociationEnd) : list NavStep :=
  if String.eqb (target_class this) class
  then [{| step_prop := property_name other; step_target := target_class other; step_mult := end_mult other |}]
  else [].

Definition steps_from (class : string) (a : AssociationSpec) : list NavStep :=
  step_from class (assoc_ends a).1 (assoc_ends a).2 ++ step_from class (assoc_ends a).2 (assoc_ends a).1.

Lemma hm_get_push {V} (m : list (string * list V)) k v k' :
  default [] (hm_get (hm_push m k v) k') = default [] (hm_get m k') ++ (if String.eqb k k' then [v] else []).
Proof.
  unfold hm_get. induction m as [|[k0 vs] m IH]; cbn.
  - by destruct (String.eqb k k').
  - destruct (String.eqb k0 k) eqn:E; cbn.
    + apply String.eqb_eq in E as ->. destruct (String.eqb k k'); cbn; [done|by rewrite app_nil_r].
    + destruct (String.eqb k0 k') eqn:E'; cbn; [|done].
      apply String.eqb_eq in E' as ->. rewrite String.eqb_sym, E. by rewrite app_nil_r.
Qed.

Lemma push_association_get m a class :
  default [] (hm_get (push_association m a) class) = default [] (hm_get m class) ++ steps_from class a.
Proof.
  unfold push_association, steps_from, step_from. destruct (assoc_ends a) as [e0 e1]; cbn.
  by rewrite !hm_get_push, <- app_assoc.
Qed.

Lemma build_navigable_get assocs class :
  default [] (hm_get (build_navigable assocs) class) = assocs ≫= steps_from class.
Proof.
  unfold build_navigable. change (assocs ≫= steps_from class)
    with (default [] (hm_get ([] : list (string * list NavStep)) class) ++ (assocs ≫= steps_from class)).
  generalize ([] : list (string * list NavStep)).
  induction assocs as [|a assocs IH]; intros m; cbn [foldl].
  - by rewrite app_nil_r.
  - rewrite IH, push_association_get, <- app_assoc. done.
Qed.

(** ** Properties *)

(** Listing a class's members ends on every schema, whether or not the super
    types are cyclic, and lists exactly the names that the class or one of its
    transitive super types declares: as a property, as a qualified property,
    or as an association end navigable from it. *)
Theorem member_names_exact s class :
  ∃ names, member_names s class = Some names
    ∧ ∀ n, n ∈ names ↔ ∃ d r, reaches s class d ∧ (n, r) ∈ stored_decls s d ++ nav_decls s d.
Proof.
  destruct (declared_exact s class) as (ds & Hd & Hds). rewrite member_names_declared, Hd.
  eexists; split; [done|]. intros n. rewrite list_elem_of_fmap. split.
  - intros ([n' r] & -> & Hx). apply Hds in Hx as (d & ? & ?). by exists d, r.
  - intros (d & r & ? & ?). exists (n, r). split; [done|]. apply Hds. by exists d.
Qed.

(** Resolving an identifier against a class ends on every schema.  It finds
    something exactly when [member_names] lists the identifier; what it finds
    is declared under that name by the class or a transitive super type, and a
    declaration among the class's own properties and qualified properties
    takes precedence, the first one of them. *)
Theorem resolve_exact s class ident :
  ∃ found names, resolve s class ident = Some found ∧ member_names s class = Some names
    ∧ (is_Some found ↔ ident ∈ names)
    ∧ (∀ r, found = Some r → ∃ d, reaches s class d ∧ (ident, r) ∈ stored_decls s d ++ nav_decls s d)
    ∧ (∀ r, find_decl ident (stored_decls s class) = Some r → found = Some r).
Proof.
  destruct (declared_exact s class) as (ds & Hd & Hds).
  rewrite resolve_declared, member_names_declared, Hd. eexists _, _. split_and!; [done|done| | |].
  - unfold find_decl. rewrite fmap_is_Some. split.
    + intros [[n r] Hf]. apply List.find_some in Hf as [Hin He]. apply String.eqb_eq in He as <-.
      apply list_elem_of_fmap. exists (n, r). by rewrite list_elem_of_In.
    + intros ([n r] & -> & Hin)%list_elem_of_fmap. destruct (List.find _ ds) eqn:Hf; [done|].
      apply list_elem_of_In in Hin. pose proof (List.find_none _ _ Hf _ Hin) as He.
      cbn in He. by rewrite String.eqb_refl in He.
  - unfold find_decl. intros r Hf. apply fmap_Some in Hf as ([n r'] & Hf & ->).
    apply List.find_some in Hf as [Hin He]. apply String.eqb_eq in He as <-.
    apply Hds. by apply list_elem_of_In.
  - intros r Hr. unfold declared, members_fuel in Hd. rewrite declarations_S in Hd. cbn in Hd.
    destruct (foldl _ _ _) as [[inh v]|]; [|done]. cbn in Hd. injection Hd as <-.
    by rewrite find_decl_app, Hr.
Qed.

(** From a class one navigates, by the associations in order, to the end
    opposite each end that targets the class, under that opposite end's name
    and multiplicity: an end's name is never navigable from its own target
    unless the association is reflexive. *)
Theorem navigation_is_opposite d class :
  default [] (hm_get (navigable (from_data d)) class) = data_associations d ≫= steps_from class.
Proof. apply build_navigable_get. Qed.
