(* ===== verification/Position.v ===== *)
(** * Lexemes and schema positions

    The stateless part of [schema/scope.rs]: the classification of a token's
    bytes into a lexeme, the closed method sets of the rules, and the positions
    the overlay distinguishes. *)

From S2P Require Import Prelude PdaState Utf8 Schema.
Open Scope u8_scope.

Definition text (s : string) : list byte := String.list_byte_of_string s.

(** [u8::is_ascii_whitespace]: form feed is one, vertical tab is not. *)
Definition is_ascii_whitespace (b : byte) : bool := existsb (Byte.eqb b) [" "; x09; x0a; x0c; x0d]%byte.

(** [bytes.starts_with(p)], [bytes.contains(&b)] and [slice == slice]. *)
Definition starts_with (p bytes : list byte) : bool := bool_decide (p `prefix_of` bytes).
Definition contains_byte (b : byte) (bytes : list byte) : bool := existsb (Byte.eqb b) bytes.
Definition same_bytes (a b : list byte) : bool := bool_decide (a = b).

(** [<[&[u8]]>::contains]. *)
Definition one_of (names : list string) (bytes : list byte) : bool :=
  existsb (λ n, same_bytes (text n) bytes) names.

(** ** Operators split over two tokens *)

Definition pending_operator_byte (anchor : State) : option byte :=
  match anchor with
  | SawDash | SourceDash => Some "-"%byte
  | SawEq => Some "="%byte
  | SawBang => Some "!"%byte
  | SawGt => Some ">"%byte
  | SawLt => Some "<"%byte
  | SawPipe => Some "|"%byte
  | _ => None
  end.

Definition is_two_byte_op (a b : byte) : bool :=
  one_of ["->"; "=="; "!="; "<="; ">="; "&&"; "||"] [a; b].

Definition LOGICAL_OPERATORS : list string := ["&&"; "||"].

Definition is_logical_operator (bytes : list byte) (anchor : State) : bool :=
  one_of LOGICAL_OPERATORS bytes
  || match pending_operator_byte anchor, bytes with
     | Some first, [second] => one_of LOGICAL_OPERATORS [first; second]
     | _, _ => false
     end.

(** ** Lexemes *)

Module Lex.
Inductive Lexeme :=
| Ws
| Ident (t : list byte)
| Str (content : list byte)
| Number
| Date
| Arrow
| Dot
| Dollar
| Pipe
| Cmp
| Open
| Close
| Comma
| Other.
End Lex.

(** [unquote]: the quotes go only when both are there, then each doubled quote
    is undoubled. *)
Fixpoint undouble (rest : list byte) : list byte :=
  match rest with
  | b :: ((b' :: tl) as tail) =>
      if (b =? "'") && (b' =? "'") then b :: undouble tl else b :: undouble tail
  | _ => rest
  end.

Definition strip_quotes (bytes : list byte) : option (list byte) :=
  match bytes with
  | b :: rest =>
      if b =? "'" then
        match last rest with
        | Some q => if q =? "'" then Some (take (length rest - 1) rest) else None
        | None => None
        end
      else None
  | [] => None
  end.

Definition unquote (bytes : list byte) : list byte := undouble (default bytes (strip_quotes bytes)).

Definition classify (bytes : list byte) : Lex.Lexeme :=
  match bytes with
  | [] => Lex.Ws
  | first :: rest =>
      if forallb is_ascii_whitespace bytes then Lex.Ws
      else if one_of ["->"] bytes then Lex.Arrow
      else if one_of ["=="; "!="; "<="; ">="; "<"; ">"] bytes then Lex.Cmp
      else if one_of ["."] bytes then Lex.Dot
      else if one_of ["$"] bytes then Lex.Dollar
      else if one_of ["|"] bytes then Lex.Pipe
      else if one_of [","] bytes then Lex.Comma
      else if one_of ["("; "["; "{"] bytes then Lex.Open
      else if one_of [")"; "]"; "}"] bytes then Lex.Close
      else if first =? "'" then Lex.Str (unquote bytes)
      else if first =? "%" then Lex.Date
      else if is_ascii_digit first
              || (first =? "-") && match rest with b :: _ => is_ascii_digit b | [] => false end
      then Lex.Number
      else if is_ident_start first && bool_decide (is_Some (from_utf8 bytes)) then Lex.Ident bytes
      else Lex.Other
  end.

Definition classify_at (bytes : list byte) (anchor : State) : Lex.Lexeme :=
  match pending_operator_byte anchor, bytes with
  | Some first, [second] => if is_two_byte_op first second then classify [first; second] else classify bytes
  | _, _ => classify bytes
  end.

(** ** The method sets of the rules *)

Inductive ExtentArg := FunctionArg | IntegerArg.

#[global] Instance ExtentArg_eq_dec : EqDecision ExtentArg.
Proof. solve_decision. Defined.

Definition SOURCE_METHOD : string := "all".
Definition STORE_METHODS : list (string * nat) := [("tableReference", 2)].
Definition RELATION_RECEIVER_METHODS : list string := [
  "asOfJoin"; "extend"; "join"; "olapGroupBy"; "pivot"; "renameColumns"; "restrict";
  "tableReference"; "tableToTDS"].
Definition EXTENT_ONLY_DENIED_METHODS : list string := [
  "agg"; "average"; "between"; "endsWith"; "in"; "pair"; "parseFloat"; "startsWith";
  "substring"; "sum"; "toLower"; "toString"; "year"].
Definition EXTENT_METHOD_ARGS : list (string * ExtentArg) := [("groupBy", FunctionArg); ("limit", IntegerArg)].
Definition RECEIVER_ONLY_METHODS : list string := ["count"; "isEmpty"; "isNotEmpty"; "size"; "toOne"].

Definition store_method_arity (name : string) : option nat :=
  snd <$> List.find (λ x, String.eqb x.1 name) STORE_METHODS.
Definition extent_method_arg (name : string) : option ExtentArg :=
  snd <$> List.find (λ x, String.eqb x.1 name) EXTENT_METHOD_ARGS.

(** ** Positions *)

Module Pos.
Inductive L2Position :=
| SourceIdent
| BinderValueSourceIdent
| SourceMethod
| SourceMethodArg (required : option N) (seen : N)
| SourceMethodArgSep (remaining : bool) (state : State)
| PropertyMethodArg (required : option N) (seen : N)
| PropertyMethodArgSep (remaining : bool) (state : State)
| StoreMethod
| StoreMethodArg
| StoreMethodArgSep (remaining : bool)
| SourceExtent (after_dash : bool)
| ReceiverOnlyArg
| StoreResult (after_dash : bool)
| StrOperator (after_dash : bool)
| LogicalOperand
| ExtentMethod
| ExtentMethodArg (arg : ExtentArg)
| Member (class : string)
| ReValue (tc : TypeClass)
| Comparator (tc : TypeClass)
| OrderedOperand
| Reducer (tc : TypeClass)
| ScalarMethod (tc : TypeClass)
| Column
| RelationColumn
| RefVar
| ValueIdent
| NoPosition.
End Pos.
