(* ===== verification/Narrow.v ===== *)
(** * Narrowing the mask by the schema

    [schema/narrow.rs]: the schema-legal set of a position as a mask over the
    vocabulary, its memo, and the end-of-stream verdict.  An operation returns
    [None] where a trie access of the code would panic. *)

From S2P Require Import Prelude PdaState PdaStep Mask Trie Schema Position.
Open Scope u8_scope.

(** ** Byte tests of a token *)

(** [opens_with]: an empty token opens with nothing. *)
Definition opens_with (bytes : list byte) (keep : byte → bool) : bool :=
  match bytes with b :: _ => keep b | [] => false end.

Definition VALUE_KEYWORDS : list string := ["true"; "false"].
Definition LET_KEYWORD : string := "let".
Definition BOOLEAN_OR : list byte := text "||".
Definition CALL_OPEN : byte := "(".
Definition SOURCE_NAV_DOT : byte := ".".
Definition SOURCE_STEP_ARROW : byte := "-".
Definition REFVAR_SIGIL : byte := "$".
Definition NUMBER_OPENERS : list byte := text ".-".
Definition LAMBDA_PIPE : byte := "|".
Definition ORDERED_OPERAND_DENIED_OPENERS : list byte := text "&|*/".
Definition STRING_ONLY_METHODS : list string := ["toLower"; "toUpper"; "startsWith"; "endsWith"].
Definition STR_OPEN : byte := "'".
Definition ARG_SEP : byte := ",".
Definition CALL_CLOSE : byte := ")".
Definition STEP_DASH : byte := "-".
Definition NAV_DOT : byte := ".".
Definition STEP_GT : byte := ">".
Definition STEP_ARROW : list byte := text "->".
Definition STORE_RESULT_DENIED_OPENERS : list byte := text "&|<>+*/".
Definition STR_OPERATOR_DENIED_OPENERS : list byte := text "*/".

Definition value_ident_constrains (prefix : list byte) : bool :=
  negb (same_bytes prefix []) && negb (one_of VALUE_KEYWORDS prefix).

Definition keeps_value_ident (bytes : list byte) : bool :=
  match bytes with
  | [] => false
  | b :: _ =>
      is_ident_tail b || contains_byte b (text ".:(")
      || (b =? "|") && negb (starts_with BOOLEAN_OR bytes)
  end.

Definition keeps_operand (lex : Lex.Lexeme) (lhs : TypeClass) : bool :=
  match lex with
  | Lex.Str _ => bool_decide (lhs = Schema.Str)
  | Lex.Number => bool_decide (lhs = Numeric)
  | Lex.Date => bool_decide (lhs = Temporal)
  | _ => true
  end.

Definition keeps_number_opener (bytes : list byte) (accepts_number : bool) : bool :=
  accepts_number || negb (opens_with bytes (λ b, contains_byte b NUMBER_OPENERS)).

Definition keeps_extent_method_arg (lex : Lex.Lexeme) (arg : ExtentArg) : bool :=
  match lex with
  | Lex.Str _ | Lex.Date => false
  | Lex.Number => bool_decide (arg = IntegerArg)
  | _ => true
  end.

Definition is_ordered_comparator (bytes : list byte) : bool := one_of ["<"; ">"; "<="; ">="] bytes.

Definition keeps_comparator (bytes : list byte) (lhs : TypeClass) : bool :=
  if is_ordered_comparator bytes then bool_decide (lhs = Numeric ∨ lhs = Temporal) else true.

Definition keeps_reducer (bytes : list byte) (tc : TypeClass) : bool :=
  negb (one_of ["sum"; "average"] bytes) || bool_decide (tc = Numeric).

Definition denied_string_method (bytes : list byte) (tc : TypeClass) : bool :=
  one_of STRING_ONLY_METHODS bytes && negb (bool_decide (tc = Schema.Str)).

Definition opens_step_arrow (bytes : list byte) : bool :=
  Nat.eqb (length bytes) 1 || starts_with STEP_ARROW bytes.

Definition completes_step_arrow (bytes : list byte) : bool :=
  match bytes with b :: _ => b =? STEP_GT | [] => false end.

Definition keeps_source_extent (bytes : list byte) (after_dash : bool) : bool :=
  if after_dash then completes_step_arrow bytes
  else
    match bytes with
    | [] => false
    | b :: _ =>
        if is_ascii_whitespace b || (b =? NAV_DOT) || contains_byte b TERM_END_BYTES then true
        else if b =? STEP_DASH then opens_step_arrow bytes
        else false
    end.

Definition keeps_after_completed_term (bytes : list byte) (after_dash : bool) (denied : list byte) : bool :=
  if after_dash then completes_step_arrow bytes
  else
    match bytes with
    | [] => false
    | b :: _ => if b =? STEP_DASH then opens_step_arrow bytes else negb (contains_byte b denied)
    end.

Definition continues_open_lexeme (state : State) (b : byte) : bool :=
  match lexeme_kind state with
  | Some kind =>
      match step state None b with
      | StackMachine.Next next => bool_decide (lexeme_kind next = Some kind)
      | _ => false
      end
  | None => false
  end.

(** ** Filling a mask over the vocabulary *)

(** [0..vocab.len() as u32]. *)
Definition ids (v : Vocab) : list N := N.of_nat <$> seq 0 (N.to_nat (as_u32 (vocab_len v))).

(** The loop of every [fill_*]: clear the buffer, then set the bit of each
    token to keep. *)
Definition fill_kept (dst : BitMask) (v : Vocab) (keep : list byte → bool) : BitMask :=
  foldl (λ dst id, if keep (default [] (vocab_bytes v id)) then set dst id else dst)
        (clear_all dst) (ids v).

(** The same with a test that may panic. *)
Definition fill_kept_opt (dst : BitMask) (v : Vocab) (keep : list byte → option bool) : option BitMask :=
  foldl (λ acc id,
      dst ← acc;
      k ← keep (default [] (vocab_bytes v id));
      Some (if k : bool then set dst id else dst))
    (Some (clear_all dst)) (ids v).

Definition fill_value_ident (dst : BitMask) (v : Vocab) : BitMask := fill_kept dst v keeps_value_ident.

Definition fill_unbound_sigil (dst : BitMask) (v : Vocab) (eos_bit : N) : BitMask :=
  set (fill_kept dst v (λ bytes, negb (opens_with bytes (λ b, b =? REFVAR_SIGIL)))) eos_bit.

Definition fill_operand (dst : BitMask) (v : Vocab) (eos_bit : N) (masked_by : TypeClass) : BitMask :=
  let accepts_number := keeps_operand Lex.Number masked_by in
  set (fill_kept dst v (λ bytes,
    keeps_operand (classify bytes) masked_by && keeps_number_opener bytes accepts_number)) eos_bit.

Definition fill_logical_operand (dst : BitMask) (v : Vocab) (eos_bit : N) : BitMask :=
  set (fill_kept dst v (λ bytes,
    keeps_operand (classify bytes) Boolean
    && keeps_number_opener bytes (keeps_operand Lex.Number Boolean)
    && negb (opens_with bytes (λ b, b =? LAMBDA_PIPE)))) eos_bit.

Definition fill_extent_method_arg (dst : BitMask) (v : Vocab) (eos_bit : N) (arg : ExtentArg) : BitMask :=
  let accepts_number := keeps_extent_method_arg Lex.Number arg in
  set (fill_kept dst v (λ bytes,
    keeps_extent_method_arg (classify bytes) arg && keeps_number_opener bytes accepts_number)) eos_bit.

Definition fill_ordered_operand (dst : BitMask) (v : Vocab) (eos_bit : N) : BitMask :=
  set (fill_kept dst v (λ bytes,
    negb (is_ordered_comparator bytes)
    && negb (opens_with bytes (λ b, contains_byte b ORDERED_OPERAND_DENIED_OPENERS)))) eos_bit.

Definition fill_comparator (dst : BitMask) (v : Vocab) (eos_bit : N) (masked_by : TypeClass) : BitMask :=
  set (fill_kept dst v (λ bytes, keeps_comparator bytes masked_by)) eos_bit.

Definition fill_reducer (dst : BitMask) (v : Vocab) (eos_bit : N) (masked_by : TypeClass) : BitMask :=
  set (fill_kept dst v (λ bytes, keeps_reducer bytes masked_by)) eos_bit.

Definition fill_source_method_arg (dst : BitMask) (v : Vocab) (eos_bit : N)
    (required : option N) (seen : N) : BitMask :=
  let allow_close := match required with Some r => (r <=? seen)%N | None => true end in
  let allow_value := match required with Some r => (seen <? r)%N | None => true end in
  set (fill_kept dst v (λ bytes,
    match classify bytes with
    | Lex.Ws => true
    | Lex.Close => allow_close
    | Lex.Date | Lex.Dollar => allow_value
    | _ => false
    end)) eos_bit.

Definition fill_source_method_arg_sep (dst : BitMask) (v : Vocab) (eos_bit : N)
    (remaining : bool) (state : State) : BitMask :=
  let owed := if remaining then ARG_SEP else CALL_CLOSE in
  set (fill_kept dst v (λ bytes,
    opens_with bytes (λ b, is_ascii_whitespace b || (b =? owed) || continues_open_lexeme state b))) eos_bit.

Definition fill_store_method_arg (dst : BitMask) (v : Vocab) (eos_bit : N) : BitMask :=
  set (fill_kept dst v (λ bytes, opens_with bytes (λ b, is_ascii_whitespace b || (b =? STR_OPEN)))) eos_bit.

Definition fill_store_method_arg_sep (dst : BitMask) (v : Vocab) (eos_bit : N) (remaining : bool) : BitMask :=
  let owed := if remaining then ARG_SEP else CALL_CLOSE in
  set (fill_kept dst v (λ bytes,
    opens_with bytes (λ b, is_ascii_whitespace b || (b =? owed) || (b =? STR_OPEN)))) eos_bit.

Definition fill_source_extent (dst : BitMask) (v : Vocab) (eos_bit : N) (after_dash : bool) : BitMask :=
  set (fill_kept dst v (λ bytes, keeps_source_extent bytes after_dash)) eos_bit.

Definition fill_receiver_only_arg (dst : BitMask) (v : Vocab) (eos_bit : N) : BitMask :=
  set (fill_kept dst v (λ bytes, opens_with bytes (λ b, is_ascii_whitespace b || (b =? CALL_CLOSE)))) eos_bit.

Definition fill_after_completed_term (dst : BitMask) (v : Vocab) (eos_bit : N) (after_dash : bool)
    (denied : list byte) : BitMask :=
  set (fill_kept dst v (λ bytes, keeps_after_completed_term bytes after_dash denied)) eos_bit.

(** ** The receiver-category deny tries *)

Definition EXTENT_DENY : option Trie :=
  from_names (text <$> (RELATION_RECEIVER_METHODS ++ EXTENT_ONLY_DENIED_METHODS)).
Definition SCALAR_DENY : option Trie := from_names (text <$> RELATION_RECEIVER_METHODS).

(** The outer [option] is the panic. *)
Definition deny_cursor (deny : Trie) (prefix : list byte) : option (option N) :=
  match prefix with
  | [] => Some (Some (root deny))
  | _ =>
      w ← walk deny (root deny) prefix Plain;
      Some (match w with Stay cursor => Some cursor | Complete _ _ | Diverge => None end)
  end.

Definition does_not_close_denied (deny : Trie) (cursor : N) (bytes : list byte) : option bool :=
  w ← walk deny cursor bytes Plain;
  Some (match w with Complete _ _ => false | _ => true end).

Definition fill_denied_method (dst : BitMask) (v : Vocab) (eos_bit : N) (deny : Trie) (cursor : N)
    (receiver : option TypeClass) : option BitMask :=
  dst ← fill_kept_opt dst v (λ bytes,
    let string_only := match receiver with Some tc => denied_string_method bytes tc | None => false end in
    k ← does_not_close_denied deny cursor bytes;
    Some (k && negb string_only));
  closes ← is_terminal deny cursor;
  Some (if closes : bool then dst else set dst eos_bit).

(** ** The name rules *)

Inductive TrieKind := KIdent | KClassPath | KClassPathContinuation | KStr | KIdentOrStr.

#[global] Instance TrieKind_eq_dec : EqDecision TrieKind.
Proof. solve_decision. Defined.

Definition shape (k : TrieKind) : NameShape :=
  match k with KClassPath | KClassPathContinuation => ClassPath | KIdent | KStr | KIdentOrStr => Plain end.

(** [quote]. *)
Definition quote (content : list byte) : list byte :=
  [STR_OPEN] ++ concat ((λ b, if b =? "'" then ["'"%byte; b] else [b]) <$> content) ++ [STR_OPEN].

Inductive Names :=
| NSource (s : Schema.Schema)
| NSourceMethod
| NStoreMethod
| NMember (s : Schema.Schema) (class : string)
| NColumn (columns : list (list byte))
| NRelationColumn (columns : list (list byte))
| NRefVar (vars : list string).

Definition source_close (s : Schema.Schema) (path : string) : NameClose :=
  if has_class s path then MustFollow SOURCE_NAV_DOT else MustFollow SOURCE_STEP_ARROW.

(** Names without a close policy. *)
Definition free_names (bs : list (list byte)) : list (list byte * NameClose) := (λ b, (b, Free)) <$> bs.

(** The names [Names::build] inserts, in order; [None] is [member_names]
    running out of fuel. *)
Definition names_of (n : Names) : option (list (list byte * NameClose)) :=
  match n with
  | NSource s =>
      Some (((λ path, (text path, source_close s path)) <$> source_paths s) ++ [(text LET_KEYWORD, Free)])
  | NSourceMethod => Some [(text SOURCE_METHOD, MustFollow CALL_OPEN)]
  | NStoreMethod => Some ((λ x, (text x.1, MustFollow CALL_OPEN)) <$> STORE_METHODS)
  | NMember s class =>
      names ← member_names s class;
      Some (free_names ((text <$> names) ++ (quote <$> (text <$> names))))
  | NColumn columns => Some (free_names (quote <$> columns))
  | NRelationColumn columns => Some (free_names columns)
  | NRefVar vars => Some (free_names (text <$> vars))
  end.

(** [Names::build]. *)
Definition names_build (n : Names) : option Trie := names ← names_of n; from_closing_names names.

Inductive NamePoint := Anchor | Partial | Whole | WholeMustFollow (b : byte).

Definition name_point (t : Trie) (cursor : N) : option NamePoint :=
  if (cursor =? root t)%N then Some Anchor
  else
    term ← is_terminal t cursor;
    if negb term then Some Partial
    else
      c ← close_at t cursor;
      Some (match c with Free => Whole | MustFollow b => WholeMustFollow b end).

(** [NamePoint::admits_eos]. *)
Definition point_admits_eos (p : NamePoint) : bool := match p with Anchor | Whole => true | _ => false end.

Definition is_candidate (bytes : list byte) (kind : TrieKind) (mid_lexeme : bool) : bool :=
  match bytes with
  | [] => false
  | first :: _ =>
      match kind with
      | KIdent => is_ident_tail first
      | KClassPath => is_ident_tail first || (first =? ":")
      | KClassPathContinuation => contains_byte ":" bytes
      | KStr => (first =? "'") || mid_lexeme
      | KIdentOrStr => is_ident_tail first || (first =? "'") || mid_lexeme
      end
  end.

Definition keeps_candidate (t : Trie) (cursor : N) (bytes : list byte) (sh : NameShape) : option bool :=
  w ← walk t cursor bytes sh;
  match w with
  | Stay _ => Some true
  | Complete at_ boundary => c ← close_at t at_; Some (close_admits c boundary)
  | Diverge => Some false
  end.

Fixpoint skip_leading_ws (bytes : list byte) : list byte :=
  match bytes with b :: rest => if is_ws b then skip_leading_ws rest else bytes | [] => [] end.

Definition keeps_anchor_noncandidate (bytes : list byte) (kind : TrieKind) (t : Trie) : option bool :=
  let rest := skip_leading_ws bytes in
  if is_candidate rest kind false then keeps_candidate t (root t) rest (shape kind) else Some true.

(** The keep test of [fill_trie]. *)
Definition keeps_trie (t : Trie) (cursor : N) (kind : TrieKind) (point : NamePoint) (bytes : list byte)
    : option bool :=
  let mid := match point with Anchor => false | _ => true end in
  if is_candidate bytes kind mid then keeps_candidate t cursor bytes (shape kind)
  else if bool_decide (kind = KClassPathContinuation) then Some true
  else
    match point with
    | Partial => Some false
    | WholeMustFollow owed => Some (match bytes with b :: _ => b =? owed | [] => false end)
    | Whole => Some true
    | Anchor => keeps_anchor_noncandidate bytes kind t
    end.

Definition fill_trie (dst : BitMask) (v : Vocab) (eos_bit : N) (t : Trie) (cursor : N) (kind : TrieKind)
    : option BitMask :=
  point ← name_point t cursor;
  dst ← fill_kept_opt dst v (keeps_trie t cursor kind point);
  Some (if point_admits_eos point then set dst eos_bit else dst).

Definition fused_post_dot (bytes : list byte) : option (list byte) :=
  match bytes with
  | b :: rest => if (b =? ".") && opens_with rest is_ident_start then Some rest else None
  | [] => None
  end.

Definition keeps_fused (t : Trie) (bytes : list byte) : option bool :=
  match fused_post_dot bytes with
  | Some rest => w ← walk t (root t) rest Plain; Some (match w with Diverge => false | _ => true end)
  | None => Some true
  end.

Definition fill_fused_trie (dst : BitMask) (v : Vocab) (eos_bit : N) (t : Trie) : option BitMask :=
  dst ← fill_kept_opt dst v (keeps_fused t);
  Some (set dst eos_bit).

(** ** The memo *)

Module Key.
Inductive CacheKey :=
| Source
| BinderValueSource
| SourceMethod
| StoreMethod
| SourceMethodArg (required : option N) (seen : N)
| SourceMethodArgSep (remaining : bool) (state : State)
| PropertyMethodArg (required : option N) (seen : N)
| PropertyMethodArgSep (remaining : bool) (state : State)
| StoreMethodArg
| StoreMethodArgSep (remaining : bool)
| SourceExtent (after_dash : bool)
| ExtentMethod (cursor : N)
| ExtentMethodArg (arg : ExtentArg)
| ReceiverOnlyArg
| StoreResult (after_dash : bool)
| StrOperator (after_dash : bool)
| LogicalOperand
| Member (class : string)
| ReValue (tc : TypeClass)
| Comparator (tc : TypeClass)
| OrderedOperand
| Reducer (tc : TypeClass)
| ScalarMethod (tc : TypeClass) (cursor : N)
| Column (n : nat)
| ValueIdent
| RelationColumn (n : nat)
| RefVar (n : nat)
| UnboundSigil
| FusedMember (class : string)
| FusedRelationColumn (n : nat).
End Key.
Abbreviation CacheKey := Key.CacheKey.

#[global] Instance CacheKey_eq_dec : EqDecision CacheKey.
Proof. solve_decision. Defined.

(** A [HashMap]: the first entry of a key is its entry. *)
Definition map_get {K V} `{EqDecision K} (m : list (K * V)) (k : K) : option V :=
  snd <$> List.find (λ x, bool_decide (x.1 = k)) m.
Definition map_insert {K V} (m : list (K * V)) (k : K) (v : V) : list (K * V) := (k, v) :: m.

Record RuleCache := { rc_trie : Trie; rc_kind : TrieKind; rc_masks : list (N * BitMask) }.

Record NarrowCache := { operand : list (CacheKey * BitMask); tries : list (CacheKey * RuleCache) }.

Definition NarrowCache_new : NarrowCache := {| operand := []; tries := [] |}.
(** [NarrowCache::clear]. *)
Definition NarrowCache_clear (c : NarrowCache) : NarrowCache := {| operand := []; tries := [] |}.

(** The buffer, the memo, and whether a constraint applied; [None] is a
    panic. *)
Definition Narrowed : Type := option (BitMask * NarrowCache * bool).

(** [with_cache], for a fill that may panic. *)
Definition with_cache (dst : BitMask) (cache : NarrowCache) (key : CacheKey)
    (fill : BitMask → option BitMask) : Narrowed :=
  match map_get (operand cache) key with
  | Some cached => Some (copy_from dst cached, cache, true)
  | None =>
      dst ← fill dst;
      Some (dst, {| operand := map_insert (operand cache) key dst; tries := tries cache |}, true)
  end.

(** A fill without a trie. *)
Definition memo (dst : BitMask) (cache : NarrowCache) (key : CacheKey) (fill : BitMask → BitMask) : Narrowed :=
  with_cache dst cache key (λ dst, Some (fill dst)).

(** [TrieRule]. *)
Record TrieRule := { tr_key : CacheKey; tr_kind : TrieKind; tr_names : Names }.

(** [TrieRule::of]. *)
Definition TrieRule_of (pos : Pos.L2Position) (s : Schema.Schema) (columns : list (list byte))
    (vars : list string) : option TrieRule :=
  let rule key kind names := Some {| tr_key := key; tr_kind := kind; tr_names := names |} in
  match pos with
  | Pos.SourceIdent => rule Key.Source KClassPath (NSource s)
  | Pos.BinderValueSourceIdent => rule Key.BinderValueSource KClassPathContinuation (NSource s)
  | Pos.SourceMethod => rule Key.SourceMethod KIdentOrStr NSourceMethod
  | Pos.StoreMethod => rule Key.StoreMethod KIdentOrStr NStoreMethod
  | Pos.Member class => rule (Key.Member class) KIdentOrStr (NMember s class)
  | Pos.Column => rule (Key.Column (length columns)) KStr (NColumn columns)
  | Pos.RelationColumn => rule (Key.RelationColumn (length columns)) KIdent (NRelationColumn columns)
  | Pos.RefVar =>
      match vars with [] => None | _ => rule (Key.RefVar (length vars)) KIdent (NRefVar vars) end
  | Pos.SourceMethodArg _ _ | Pos.SourceMethodArgSep _ _ | Pos.PropertyMethodArg _ _
  | Pos.PropertyMethodArgSep _ _ | Pos.StoreMethodArg | Pos.StoreMethodArgSep _
  | Pos.SourceExtent _ | Pos.ReceiverOnlyArg | Pos.StoreResult _ | Pos.StrOperator _
  | Pos.LogicalOperand | Pos.ExtentMethod | Pos.ExtentMethodArg _ | Pos.ReValue _
  | Pos.Comparator _ | Pos.OrderedOperand | Pos.Reducer _ | Pos.ScalarMethod _
  | Pos.ValueIdent | Pos.NoPosition => None
  end.

(** [entry(key).or_insert_with(build)]. *)
Definition entry_with (cache : NarrowCache) (key : CacheKey) (kind : TrieKind) (build : option Trie)
    : option (RuleCache * NarrowCache) :=
  match map_get (tries cache) key with
  | Some rc => Some (rc, cache)
  | None =>
      t ← build;
      let rc := {| rc_trie := t; rc_kind := kind; rc_masks := [] |} in
      Some (rc, {| operand := operand cache; tries := map_insert (tries cache) key rc |})
  end.

(** [TrieRule::entry]. *)
Definition entry (r : TrieRule) (cache : NarrowCache) : option (RuleCache * NarrowCache) :=
  entry_with cache (tr_key r) (tr_kind r) (names_build (tr_names r)).

(** [entry.masks.insert], through the entry's place in the map. *)
Definition remember (cache : NarrowCache) (key : CacheKey) (rc : RuleCache) (cursor : N) (m : BitMask)
    : NarrowCache :=
  {| operand := operand cache;
     tries := map_insert (tries cache) key
       {| rc_trie := rc_trie rc; rc_kind := rc_kind rc; rc_masks := map_insert (rc_masks rc) cursor m |} |}.

(** [cursor_of]. *)
Definition cursor_of (rc : RuleCache) (prefix : list byte) : option (option N) :=
  match prefix with
  | [] => Some (Some (root (rc_trie rc)))
  | _ =>
      w ← walk (rc_trie rc) (root (rc_trie rc)) prefix (shape (rc_kind rc));
      Some (match w with Stay cursor => Some cursor | Complete _ _ | Diverge => None end)
  end.

(** The mask of a cursor: copied from the memo, or filled and remembered. *)
Definition cursor_mask (dst : BitMask) (cache : NarrowCache) (key : CacheKey) (rc : RuleCache) (cursor : N)
    (fill : BitMask → option BitMask) : Narrowed :=
  match map_get (rc_masks rc) cursor with
  | Some cached => Some (copy_from dst cached, cache, true)
  | None => dst ← fill dst; Some (dst, remember cache key rc cursor dst, true)
  end.

Definition narrow_trie (dst : BitMask) (cache : NarrowCache) (rule : TrieRule) (prefix : list byte)
    (v : Vocab) (eos_bit : N) : Narrowed :=
  '(rc, cache) ← entry rule cache;
  cursor ← cursor_of rc prefix;
  match cursor with
  | None => Some (dst, cache, false)
  | Some cursor =>
      cursor_mask dst cache (tr_key rule) rc cursor (λ dst, fill_trie dst v eos_bit (rc_trie rc) cursor (rc_kind rc))
  end.

Definition narrow_fused_trie (dst : BitMask) (cache : NarrowCache) (key : CacheKey) (v : Vocab)
    (eos_bit : N) (build : option Trie) : Narrowed :=
  '(rc, cache) ← entry_with cache key KIdent build;
  cursor_mask dst cache key rc (root (rc_trie rc)) (λ dst, fill_fused_trie dst v eos_bit (rc_trie rc)).

(** The deny-trie positions: the cursor is the memo's key. *)
Definition narrow_denied (dst : BitMask) (cache : NarrowCache) (v : Vocab) (eos_bit : N) (prefix : list byte)
    (deny : option Trie) (key : N → CacheKey) (receiver : option TypeClass) : Narrowed :=
  deny ← deny;
  cursor ← deny_cursor deny prefix;
  match cursor with
  | None => Some (dst, cache, false)
  | Some cursor =>
      with_cache dst cache (key cursor) (λ dst, fill_denied_method dst v eos_bit deny cursor receiver)
  end.

Definition narrow_into (dst : BitMask) (cache : NarrowCache) (s : Schema.Schema) (pos : Pos.L2Position)
    (prefix : list byte) (columns : list (list byte)) (vars : list string) (v : Vocab) (eos_bit : N) : Narrowed :=
  match TrieRule_of pos s columns vars with
  | Some rule => narrow_trie dst cache rule prefix v eos_bit
  | None =>
      match pos with
      | Pos.ReValue (Boolean | Temporal) => Some (dst, cache, false)
      | Pos.ReValue tc => memo dst cache (Key.ReValue tc) (λ dst, fill_operand dst v eos_bit tc)
      | Pos.Comparator (Numeric | Temporal) => Some (dst, cache, false)
      | Pos.Comparator tc => memo dst cache (Key.Comparator tc) (λ dst, fill_comparator dst v eos_bit tc)
      | Pos.OrderedOperand => memo dst cache Key.OrderedOperand (λ dst, fill_ordered_operand dst v eos_bit)
      | Pos.Reducer tc => memo dst cache (Key.Reducer tc) (λ dst, fill_reducer dst v eos_bit tc)
      | Pos.ScalarMethod tc =>
          narrow_denied dst cache v eos_bit prefix SCALAR_DENY (Key.ScalarMethod tc) (Some tc)
      | Pos.SourceMethodArg required seen =>
          memo dst cache (Key.SourceMethodArg required seen)
            (λ dst, fill_source_method_arg dst v eos_bit required seen)
      | Pos.SourceMethodArgSep remaining state =>
          memo dst cache (Key.SourceMethodArgSep remaining state)
            (λ dst, fill_source_method_arg_sep dst v eos_bit remaining state)
      | Pos.PropertyMethodArg required seen =>
          memo dst cache (Key.PropertyMethodArg required seen)
            (λ dst, fill_source_method_arg dst v eos_bit required seen)
      | Pos.PropertyMethodArgSep remaining state =>
          memo dst cache (Key.PropertyMethodArgSep remaining state)
            (λ dst, fill_source_method_arg_sep dst v eos_bit remaining state)
      | Pos.StoreMethodArg => memo dst cache Key.StoreMethodArg (λ dst, fill_store_method_arg dst v eos_bit)
      | Pos.StoreMethodArgSep remaining =>
          memo dst cache (Key.StoreMethodArgSep remaining)
            (λ dst, fill_store_method_arg_sep dst v eos_bit remaining)
      | Pos.SourceExtent after_dash =>
          memo dst cache (Key.SourceExtent after_dash) (λ dst, fill_source_extent dst v eos_bit after_dash)
      | Pos.ExtentMethod => narrow_denied dst cache v eos_bit prefix EXTENT_DENY Key.ExtentMethod None
      | Pos.ExtentMethodArg arg =>
          memo dst cache (Key.ExtentMethodArg arg) (λ dst, fill_extent_method_arg dst v eos_bit arg)
      | Pos.ReceiverOnlyArg => memo dst cache Key.ReceiverOnlyArg (λ dst, fill_receiver_only_arg dst v eos_bit)
      | Pos.StoreResult after_dash =>
          memo dst cache (Key.StoreResult after_dash)
            (λ dst, fill_after_completed_term dst v eos_bit after_dash STORE_RESULT_DENIED_OPENERS)
      | Pos.StrOperator after_dash =>
          memo dst cache (Key.StrOperator after_dash)
            (λ dst, fill_after_completed_term dst v eos_bit after_dash STR_OPERATOR_DENIED_OPENERS)
      | Pos.LogicalOperand => memo dst cache Key.LogicalOperand (λ dst, fill_logical_operand dst v eos_bit)
      | Pos.ValueIdent => memo dst cache Key.ValueIdent (λ dst, fill_value_ident dst v)
      | Pos.NoPosition | Pos.SourceIdent | Pos.BinderValueSourceIdent | Pos.SourceMethod | Pos.StoreMethod
      | Pos.Member _ | Pos.Column | Pos.RelationColumn | Pos.RefVar => Some (dst, cache, false)
      end
  end.

Definition narrow_sigil_into (dst : BitMask) (cache : NarrowCache) (v : Vocab) (eos_bit : N) : Narrowed :=
  memo dst cache Key.UnboundSigil (λ dst, fill_unbound_sigil dst v eos_bit).

Definition narrow_fused_into (dst : BitMask) (cache : NarrowCache) (s : Schema.Schema) (pos : Pos.L2Position)
    (columns : list (list byte)) (v : Vocab) (eos_bit : N) : Narrowed :=
  match pos with
  | Pos.Member class =>
      narrow_fused_trie dst cache (Key.FusedMember class) v eos_bit
        (names ← member_names s class; from_names (text <$> names))
  | Pos.RelationColumn =>
      narrow_fused_trie dst cache (Key.FusedRelationColumn (length columns)) v eos_bit (from_names columns)
  | _ => Some (dst, cache, false)
  end.

(** ** The end of the stream *)

Definition deny_of (pos : Pos.L2Position) : option (option Trie) :=
  match pos with
  | Pos.ExtentMethod => Some EXTENT_DENY
  | Pos.ScalarMethod _ => Some SCALAR_DENY
  | _ => None
  end.

Definition admits_eos (cache : NarrowCache) (s : Schema.Schema) (pos : Pos.L2Position) (prefix : list byte)
    (columns : list (list byte)) (vars : list string) : option (NarrowCache * bool) :=
  match deny_of pos with
  | Some deny =>
      deny ← deny;
      cursor ← deny_cursor deny prefix;
      match cursor with
      | None => Some (cache, true)
      | Some cursor => term ← is_terminal deny cursor; Some (cache, negb term)
      end
  | None =>
      match TrieRule_of pos s columns vars with
      | None => Some (cache, match pos with Pos.ValueIdent => false | _ => true end)
      | Some rule =>
          '(rc, cache) ← entry rule cache;
          cursor ← cursor_of rc prefix;
          match cursor with
          | None => Some (cache, true)
          | Some cursor => p ← name_point (rc_trie rc) cursor; Some (cache, point_admits_eos p)
          end
      end
  end.
