(* ===== verification/Scope.v ===== *)
(** * The scope tracker

    [schema/scope.rs], the state machine: what the tracker remembers of the
    query so far, how a token changes it ([observe]), and which narrowing rule
    governs the point it leaves ([position]).  The stateless part of the file
    (lexemes, method sets, positions) is in [Position].

    Vectors used as stacks are lists whose head is the top; [HashMap] and
    [HashSet] keyed by names are [gmap] and [gset]. *)

From stdpp Require Import gmap.
From S2P Require Import Prelude StackMachine PdaState PdaStep Pda Utf8 Schema Position Narrow.

(** ** The data *)

Inductive SourceKind := ClassSource | StoreSource.

#[global] Instance SourceKind_eq_dec : EqDecision SourceKind.
Proof. solve_decision. Defined.

Inductive NavResult :=
| Scalar (tc : TypeClass)
| NonScalar.

Definition NESTED_SOURCE_MIN_DEPTH : nat := 2.

Definition ESTABLISHING_METHODS : list string := ["project"; "groupBy"; "olapGroupBy"].

Definition REF_METHODS : list string :=
  ["getInteger"; "getFloat"; "getString"; "getBoolean"; "sort"; "asc"; "desc"; "restrict"].

Definition TYPED_ACCESSORS : list (string * TypeClass) :=
  [("getInteger", Numeric); ("getFloat", Numeric); ("getString", Str); ("getBoolean", Boolean)].

Definition TYPE_PRESERVING_METHODS : list string := ["toOne"].

Definition RECEIVER_ONLY_RETURNS : list (string * TypeClass) :=
  [("count", Numeric); ("isEmpty", Boolean); ("isNotEmpty", Boolean); ("size", Numeric)].

(** [contains] on a table of names. *)
Definition named (names : list string) (name : string) : bool := existsb (String.eqb name) names.

Definition fixed_return_type (table : list (string * TypeClass)) (name : string) : option TypeClass :=
  snd <$> List.find (λ x, String.eqb x.1 name) table.
Definition accessor_return_type (name : string) : option TypeClass := fixed_return_type TYPED_ACCESSORS name.
Definition receiver_only_return_type (name : string) : option TypeClass :=
  fixed_return_type RECEIVER_ONLY_RETURNS name.

(** A lexeme still open at the end of a token. *)
Record Pending := { kind : LexKind; buf : list byte; anchor : State; pos : Pos.L2Position }.

Record BinderSave := {
  binder_depth : nat;
  binder_name : string;
  prev_class : option (option string);
  prev_relation_row : bool;
  prev_reducer_type : option TypeClass;
}.

Record ScopeSave := {
  scope_depth : nat;
  prev_cur_class : option string;
  prev_rel_explicit : bool;
  prev_saw_tilde_bracket : bool;
}.

Record ScopeTracker := {
  pending : option Pending;
  cur_class : option string;
  var_class : gmap string (option string);
  pending_refvar : option string;
  dot_base : option string;
  nav_cursor : option string;
  last_nav : option NavResult;
  nav_to_many : bool;
  last_nav_class : option string;
  cmp_pending : option TypeClass;
  var_reducer_type : gmap string TypeClass;
  pending_binder_element : option (string * TypeClass);
  pending_binder_class : option (string * string);
  awaiting_reducer : option TypeClass;
  last_call_type : option TypeClass;
  pending_arrow_type : option TypeClass;
  awaiting_scalar_method : option TypeClass;
  call_return : list (option TypeClass);
  lambda_first_ident : option string;
  pending_arrow_receiver : option (option string);
  paren_receiver : list (option string);
  est_stack : list nat;
  ref_stack : list nat;
  depth : nat;
  last_ident : option string;
  rel_explicit : bool;
  saw_tilde_bracket : bool;
  tilde_open : list bool;
  brace_binder_open : list bool;
  relation_row_vars : gset string;
  binder_saves : list BinderSave;
  scope_saves : list ScopeSave;
  dot_is_column : bool;
  source_path_seen : option SourceKind;
  awaiting_source_method : bool;
  awaiting_store_method : bool;
  store_call_arity : option nat;
  store_call_commas : nat;
  in_source_method_args : bool;
  source_method_required : option nat;
  source_method_commas : nat;
  in_property_method_args : bool;
  property_method_required : option nat;
  property_method_commas : nat;
  awaiting_extent_step : bool;
  awaiting_extent_method : bool;
  awaiting_store_result : bool;
  receiver_only_call : bool;
  last_ident_after_arrow : bool;
  last_ident_on_extent : bool;
  extent_call_arg : option ExtentArg;
  extent_call_preserves_class : bool;
  awaiting_class_call_result : bool;
  logical_pending : bool;
  awaiting_str_operator : bool;
  emitted_strings : list (list byte);
  bound_vars : list string;
}.

#[global] Instance ScopeTracker_rebuild : Rebuild ScopeTracker := λ t, {|
  pending := pending t; cur_class := cur_class t; var_class := var_class t;
  pending_refvar := pending_refvar t; dot_base := dot_base t; nav_cursor := nav_cursor t;
  last_nav := last_nav t; nav_to_many := nav_to_many t; last_nav_class := last_nav_class t;
  cmp_pending := cmp_pending t; var_reducer_type := var_reducer_type t;
  pending_binder_element := pending_binder_element t;
  pending_binder_class := pending_binder_class t; awaiting_reducer := awaiting_reducer t;
  last_call_type := last_call_type t; pending_arrow_type := pending_arrow_type t;
  awaiting_scalar_method := awaiting_scalar_method t; call_return := call_return t;
  lambda_first_ident := lambda_first_ident t; pending_arrow_receiver := pending_arrow_receiver t;
  paren_receiver := paren_receiver t; est_stack := est_stack t; ref_stack := ref_stack t;
  depth := depth t; last_ident := last_ident t; rel_explicit := rel_explicit t;
  saw_tilde_bracket := saw_tilde_bracket t; tilde_open := tilde_open t;
  brace_binder_open := brace_binder_open t; relation_row_vars := relation_row_vars t;
  binder_saves := binder_saves t; scope_saves := scope_saves t; dot_is_column := dot_is_column t;
  source_path_seen := source_path_seen t; awaiting_source_method := awaiting_source_method t;
  awaiting_store_method := awaiting_store_method t; store_call_arity := store_call_arity t;
  store_call_commas := store_call_commas t; in_source_method_args := in_source_method_args t;
  source_method_required := source_method_required t;
  source_method_commas := source_method_commas t;
  in_property_method_args := in_property_method_args t;
  property_method_required := property_method_required t;
  property_method_commas := property_method_commas t;
  awaiting_extent_step := awaiting_extent_step t;
  awaiting_extent_method := awaiting_extent_method t;
  awaiting_store_result := awaiting_store_result t; receiver_only_call := receiver_only_call t;
  last_ident_after_arrow := last_ident_after_arrow t;
  last_ident_on_extent := last_ident_on_extent t; extent_call_arg := extent_call_arg t;
  extent_call_preserves_class := extent_call_preserves_class t;
  awaiting_class_call_result := awaiting_class_call_result t; logical_pending := logical_pending t;
  awaiting_str_operator := awaiting_str_operator t; emitted_strings := emitted_strings t;
  bound_vars := bound_vars t;
|}.

(** [ScopeTracker::new], the derived default. *)
Definition ScopeTracker_new : ScopeTracker := {|
  pending := None; cur_class := None; var_class := ∅; pending_refvar := None; dot_base := None;
  nav_cursor := None; last_nav := None; nav_to_many := false; last_nav_class := None;
  cmp_pending := None; var_reducer_type := ∅; pending_binder_element := None;
  pending_binder_class := None; awaiting_reducer := None; last_call_type := None;
  pending_arrow_type := None; awaiting_scalar_method := None; call_return := [];
  lambda_first_ident := None; pending_arrow_receiver := None; paren_receiver := []; est_stack := [];
  ref_stack := []; depth := 0; last_ident := None; rel_explicit := false;
  saw_tilde_bracket := false; tilde_open := []; brace_binder_open := []; relation_row_vars := ∅;
  binder_saves := []; scope_saves := []; dot_is_column := false; source_path_seen := None;
  awaiting_source_method := false; awaiting_store_method := false; store_call_arity := None;
  store_call_commas := 0; in_source_method_args := false; source_method_required := None;
  source_method_commas := 0; in_property_method_args := false; property_method_required := None;
  property_method_commas := 0; awaiting_extent_step := false; awaiting_extent_method := false;
  awaiting_store_result := false; receiver_only_call := false; last_ident_after_arrow := false;
  last_ident_on_extent := false; extent_call_arg := None; extent_call_preserves_class := false;
  awaiting_class_call_result := false; logical_pending := false; awaiting_str_operator := false;
  emitted_strings := []; bound_vars := [];
|}.

(** ** Reading the scope *)

Definition in_tilde_key (t : ScopeTracker) (state : State) : bool :=
  match state with
  | ExpectRelColSpec | ExpectRelColSpecReq => bool_decide (head (tilde_open t) = Some true)
  | _ => false
  end.

Definition in_open_brace_binder_list (t : ScopeTracker) : bool :=
  bool_decide (head (brace_binder_open t) = Some true).

Definition extent_first_arg (t : ScopeTracker) (state : State) : option ExtentArg :=
  match state with ExpectValue => extent_call_arg t | _ => None end.

Definition is_nil {A} (l : list A) : bool := match l with [] => true | _ => false end.

Definition in_column_arg (t : ScopeTracker) : bool :=
  negb (is_nil (ref_stack t)) && rel_explicit t && is_nil (est_stack t).

Definition on_pending_str_quote (state : State) : bool :=
  match state with InStrLit true => true | _ => false end.

Definition store_method_arg_sep (t : ScopeTracker) (state : State) : option Pos.L2Position :=
  let decided := completes_a_term state || on_pending_str_quote state in
  arity ← store_call_arity t;
  if decided then Some (Pos.StoreMethodArgSep (store_call_commas t + 1 <? arity)%nat) else None.

(** The states in which a milestoning argument can end. *)
Definition ends_date_arg (state : State) : bool :=
  completes_a_term state
  || match state with
     | InDateLit | InDateTime | InDateFrac | InMilestoneLit | InMemberIdent => true
     | _ => false
     end.

Definition source_method_arg_sep (t : ScopeTracker) (state : State) : option Pos.L2Position :=
  if negb (in_source_method_args t) then None
  else
    required ← source_method_required t;
    if ends_date_arg state
    then Some (Pos.SourceMethodArgSep (source_method_commas t + 1 <? required)%nat state)
    else None.

Definition property_method_arg_sep (t : ScopeTracker) (state : State) : option Pos.L2Position :=
  if negb (in_property_method_args t) then None
  else
    required ← property_method_required t;
    if ends_date_arg state
    then Some (Pos.PropertyMethodArgSep (property_method_commas t + 1 <? required)%nat state)
    else None.

Definition in_milestoning_date_arg_position (t : ScopeTracker) : bool :=
  in_source_method_args t || in_property_method_args t.

(** The bytes of the lexeme still open. *)
Definition narrow_prefix (t : ScopeTracker) : list byte :=
  match pending t with Some p => buf p | None => [] end.

Definition emitted_columns (t : ScopeTracker) : list (list byte) := emitted_strings t.
Definition bound_variables (t : ScopeTracker) : list string := bound_vars t.

Definition completed_term_position (t : ScopeTracker) : Pos.L2Position :=
  if awaiting_store_result t then Pos.StoreResult false
  else if awaiting_str_operator t then Pos.StrOperator false
  else
    match last_nav t with
    | Some (Scalar tc) => Pos.Comparator tc
    | Some NonScalar => Pos.OrderedOperand
    | None => if awaiting_class_call_result t then Pos.OrderedOperand else Pos.NoPosition
    end.

Definition value_opening_position (t : ScopeTracker) (state : State) : Pos.L2Position :=
  if in_source_method_args t then
    Pos.SourceMethodArg (N.of_nat <$> source_method_required t) (N.of_nat (source_method_commas t))
  else if in_property_method_args t then
    Pos.PropertyMethodArg (N.of_nat <$> property_method_required t) (N.of_nat (property_method_commas t))
  else if bool_decide (is_Some (store_call_arity t)) then Pos.StoreMethodArg
  else if receiver_only_call t then Pos.ReceiverOnlyArg
  else
    match extent_first_arg t state with
    | Some arg => Pos.ExtentMethodArg arg
    | None =>
        if logical_pending t then Pos.LogicalOperand
        else
          match cmp_pending t with
          | Some tc => Pos.ReValue tc
          | None =>
              if in_column_arg t then Pos.Column
              else if in_tilde_key t state then Pos.NoPosition
              else if in_open_brace_binder_list t then Pos.NoPosition
              else Pos.ValueIdent
          end
    end.

Definition opening_position (t : ScopeTracker) (state : State) : Pos.L2Position :=
  match state with
  | ExpectSource | BlockStmt | BlockStmtClose => Pos.SourceIdent
  | ExpectBinderValue => Pos.BinderValueSourceIdent
  | AfterDollar => if in_milestoning_date_arg_position t then Pos.NoPosition else Pos.RefVar
  | AfterDot =>
      if awaiting_source_method t then Pos.SourceMethod
      else if dot_is_column t then Pos.RelationColumn
      else match dot_base t with Some base => Pos.Member base | None => Pos.NoPosition end
  | ExpectValue | ExpectValueReq => value_opening_position t state
  | ExpectRelColSpec | ExpectRelColSpecReq => value_opening_position t state
  | SawDash =>
      if awaiting_extent_step t then Pos.SourceExtent true
      else if awaiting_store_result t then Pos.StoreResult true
      else if awaiting_str_operator t then Pos.StrOperator true
      else Pos.ValueIdent
  | SawPipe | SawLt | SawGt => Pos.ValueIdent
  | AfterArrow =>
      if awaiting_store_method t then Pos.StoreMethod
      else if awaiting_extent_method t then Pos.ExtentMethod
      else
        match awaiting_reducer t, awaiting_scalar_method t with
        | Some tc, _ => Pos.Reducer tc
        | None, Some tc => Pos.ScalarMethod tc
        | None, None => Pos.NoPosition
        end
  | AfterValue => if awaiting_extent_step t then Pos.SourceExtent false else completed_term_position t
  | _ => if completes_a_term state then completed_term_position t else Pos.NoPosition
  end.

(** N7 narrows a bare word that is not a keyword literal. *)
Definition value_ident_narrows (t : ScopeTracker) : bool :=
  match pending t with
  | Some p => bool_decide (kind p = Ident)
  | None => false
  end && value_ident_constrains (narrow_prefix t).

(** [ScopeTracker::position]: the rule at the automaton's [state]. *)
Definition position (t : ScopeTracker) (state : State) : Pos.L2Position :=
  match store_method_arg_sep t state with
  | Some sep => sep
  | None =>
      match source_method_arg_sep t state with
      | Some sep => sep
      | None =>
          match property_method_arg_sep t state with
          | Some sep => sep
          | None =>
              let p :=
                match lexeme_kind state with
                | Some _ => match pending t with Some open => pos open | None => Pos.NoPosition end
                | None => opening_position t state
                end in
              let p :=
                match p with
                | Pos.ValueIdent => if value_ident_narrows t then p else Pos.NoPosition
                | _ => p
                end in
              match p with
              | Pos.NoPosition => if on_pending_str_quote state then Pos.StrOperator false else p
              | _ => p
              end
          end
      end
  end.

(** [ScopeTracker::masks_unbound_sigil]. *)
Definition masks_unbound_sigil (t : ScopeTracker) (state : State) : bool :=
  opens_refvar_sigil state && is_nil (bound_vars t) && negb (in_milestoning_date_arg_position t).

(** ** Navigation *)

(** [Schema::resolve]; its walk always ends. *)
Definition resolved (s : Schema) (class ident : string) : option Resolved := mjoin (resolve s class ident).

Definition nav_from_var (t : ScopeTracker) (var : string) : option Pos.L2Position :=
  if bool_decide (var ∈ relation_row_vars t) then Some Pos.RelationColumn
  else Pos.Member <$> mjoin (var_class t !! var).

Definition nav_from_member (t : ScopeTracker) (member : string) (s : Schema) : option Pos.L2Position :=
  base ← dot_base t;
  match resolved s base member with
  | Some (ResolvedClass path _) => Some (Pos.Member path)
  | _ => None
  end.

(** A slice read as a [&str]. *)
Definition as_str (bytes : list byte) : string := String.string_of_list_byte bytes.

(** [ScopeTracker::fused_nav_position]. *)
Definition fused_nav_position (t : ScopeTracker) (s : Schema) : option Pos.L2Position :=
  match pending t with
  | Some p =>
      if negb (bool_decide (kind p = Ident)) then None
      else
        match from_utf8 (buf p) with
        | None => None
        | Some _ =>
            match anchor p with
            | AfterDollar => nav_from_var t (as_str (buf p))
            | AfterDot => nav_from_member t (as_str (buf p)) s
            | _ => None
            end
        end
  | None =>
      match pending_refvar t with
      | Some var => nav_from_var t var
      | None => Pos.Member <$> nav_cursor t
      end
  end.

(** ** The transitions of one lexeme *)

Definition bind_var (t : ScopeTracker) (name : string) : ScopeTracker :=
  if negb (forallb is_ident_tail (text name)) then t
  else if named (bound_vars t) name then t
  else t <| bound_vars := bound_vars t ++ [name] |>.

Definition resolve_member (t : ScopeTracker) (ident : string) (s : Schema) : ScopeTracker * option NavResult :=
  if awaiting_source_method t then (t <| awaiting_source_method := false |>, None)
  else if dot_is_column t then
    (t <| dot_is_column := false |> <| nav_cursor := None |> <| last_nav_class := None |>, None)
  else
    match dot_base t with
    | None => (t, None)
    | Some base =>
        let t := t <| dot_base := None |> in
        match resolved s base ident with
        | Some (ResolvedClass path mult) =>
            (t <| nav_to_many := nav_to_many t || negb (is_to_one mult) |>
               <| nav_cursor := Some path |> <| last_nav_class := Some path |>,
             Some NonScalar)
        | Some (ResolvedPrimitive prim mult) =>
            (t <| nav_cursor := None |> <| last_nav_class := None |>,
             Some (if nav_to_many t || negb (is_to_one mult) then NonScalar else Scalar (type_class prim)))
        | Some (ResolvedEnum _ _) | None => (t <| nav_cursor := None |> <| last_nav_class := None |>, None)
        end
    end.

(** The source a name closes, at the anchors where a source may open. *)
Definition source_seen (s : Schema) (name : string) (pre_state : State) : option SourceKind :=
  match pre_state with
  | ExpectSource | BlockStmt | BlockStmtClose =>
      if named (source_paths s) name
      then Some (if has_class s name then ClassSource else StoreSource)
      else None
  | _ => None
  end.

(** A candidate for a lambda's variable. *)
Definition binder_candidate (t : ScopeTracker) (name : string) : ScopeTracker :=
  bind_var (t <| lambda_first_ident := Some name |>) name.

(** The [match pre_state] of [on_ident]. *)
Definition on_ident_at (t : ScopeTracker) (name : string) (pre_state : State) (s : Schema)
    : ScopeTracker * option NavResult :=
  match pre_state with
  | AfterDollar =>
      (if in_milestoning_date_arg_position t then t else t <| pending_refvar := Some name |>, None)
  | AfterDot => resolve_member t name s
  | ExpectValue | ExpectValueReq => (binder_candidate t name, None)
  | ExpectBinder => (bind_var t name, None)
  | ExpectBraceBinder => (binder_candidate t name, None)
  | AfterColon | AfterColonWs =>
      (match from_ident name with
       | Some prim =>
           match lambda_first_ident t with
           | Some binder => t <| pending_binder_element := Some (binder, type_class prim) |>
           | None => t
           end
       | None =>
           if has_class s name then
             match lambda_first_ident t with
             | Some binder => t <| pending_binder_class := Some (binder, name) |>
             | None => t
             end
           else binder_candidate t name
       end, None)
  | AfterRelColColon => (binder_candidate t name, None)
  | AfterValueColon => (binder_candidate t name, None)
  | _ => (t, None)
  end.

(** A name may be a class, and a source. *)
Definition ident_source (t : ScopeTracker) (name : string) (pre_state : State) (s : Schema) : ScopeTracker :=
  (if has_class s name then t <| cur_class := Some name |> else t)
    <| source_path_seen := source_seen s name pre_state |>.

(** A column name joins the emitted ones. *)
Definition ident_column (t : ScopeTracker) (bytes : list byte) (pre_state : State) : ScopeTracker :=
  if bool_decide (pre_state = SawTilde) || in_tilde_key t pre_state
  then t <| emitted_strings := emitted_strings t ++ [bytes] |>
  else t.

(** The name is the method of a call that may follow. *)
Definition ident_last (t : ScopeTracker) (name : string) (pre_state : State) : ScopeTracker :=
  t <| last_ident := Some name |>
    <| last_ident_after_arrow := bool_decide (pre_state = AfterArrow) |>
    <| last_ident_on_extent := awaiting_extent_method t |>.

Definition on_ident (t : ScopeTracker) (bytes : list byte) (pre_state : State) (s : Schema)
    : ScopeTracker * option NavResult :=
  let name := as_str bytes in
  let '(t, resolved_now) := on_ident_at (ident_source t name pre_state s) name pre_state s in
  (ident_last (ident_column t bytes pre_state) name pre_state, resolved_now).

Definition on_dot (t : ScopeTracker) : ScopeTracker :=
  let chained_to_many := nav_to_many t in
  let t := t <| dot_is_column := false |>
             <| awaiting_source_method := bool_decide (is_Some (source_path_seen t)) |>
             <| source_path_seen := None |>
             <| nav_to_many := false |> in
  match pending_refvar t with
  | Some var =>
      let t := t <| pending_refvar := None |> in
      if bool_decide (var ∈ relation_row_vars t)
      then t <| dot_is_column := true |> <| dot_base := None |>
      else t <| dot_base := mjoin (var_class t !! var) |>
  | None =>
      match nav_cursor t with
      | Some cursor => t <| dot_base := Some cursor |> <| nav_to_many := chained_to_many |>
      | None =>
          if awaiting_extent_step t
          then t <| dot_base := cur_class t |> <| nav_to_many := true |>
          else t <| dot_base := None |>
      end
  end.

Definition arrow_receiver_type (t : ScopeTracker) : option TypeClass :=
  if awaiting_str_operator t then Some Str
  else
    match last_call_type t with
    | Some tc => Some tc
    | None => match last_nav t with Some (Scalar tc) => Some tc | _ => None end
    end.

Definition call_return_type (method : string) (receiver : option TypeClass) : option TypeClass :=
  if named TYPE_PRESERVING_METHODS method then receiver
  else
    match accessor_return_type method with
    | Some tc => Some tc
    | None => receiver_only_return_type method
    end.

Definition on_arrow (t : ScopeTracker) : ScopeTracker :=
  let t := t <| awaiting_store_method := bool_decide (source_path_seen t = Some StoreSource) |>
             <| source_path_seen := None |>
             <| awaiting_extent_method := awaiting_extent_step t |> in
  let t :=
    match pending_refvar t ≫= λ var, var_reducer_type t !! var with
    | Some tc => t <| awaiting_reducer := Some tc |>
    | None => t
    end in
  let receiver := match last_nav_class t with Some c => Some c | None => cur_class t end in
  t <| pending_arrow_type := arrow_receiver_type t |>
    <| awaiting_scalar_method := arrow_receiver_type t |>
    <| last_nav_class := None |>
    <| pending_arrow_receiver := Some receiver |>
    <| pending_refvar := None |>
    <| nav_cursor := None |>
    <| last_ident := None |>.

Definition on_comma (t : ScopeTracker) : ScopeTracker :=
  t <| lambda_first_ident := None |>
    <| last_ident := None |>
    <| pending_binder_element := None |>
    <| pending_binder_class := None |>
    <| store_call_commas :=
         (if bool_decide (is_Some (store_call_arity t)) then store_call_commas t + 1 else store_call_commas t) |>
    <| source_method_commas :=
         (if in_source_method_args t then source_method_commas t + 1 else source_method_commas t) |>
    <| property_method_commas :=
         (if in_property_method_args t then property_method_commas t + 1 else property_method_commas t) |>.

(** *** [on_pipe] *)

(** What the maps hold of a name, to be put back when its scope closes. *)
Definition save_binder (t : ScopeTracker) (name : string) : BinderSave := {|
  binder_depth := depth t;
  binder_name := name;
  prev_class := var_class t !! name;
  prev_relation_row := bool_decide (name ∈ relation_row_vars t);
  prev_reducer_type := var_reducer_type t !! name;
|}.

(** A binder with a class annotation. *)
Definition bind_class (t : ScopeTracker) (name class : string) : ScopeTracker :=
  let t := if bool_decide (lambda_first_ident t = Some name) then t <| lambda_first_ident := None |> else t in
  t <| binder_saves := save_binder t name :: binder_saves t |>
    <| relation_row_vars := relation_row_vars t ∖ {[name]} |>
    <| var_reducer_type := delete name (var_reducer_type t) |>
    <| var_class := <[name := Some class]> (var_class t) |>.

(** A binder without one: the variable ranges over the call's receiver. *)
Definition bind_receiver (t : ScopeTracker) (name : string) : ScopeTracker :=
  let receiver := mjoin (head (paren_receiver t)) in
  let t := t <| binder_saves := save_binder t name :: binder_saves t |> in
  let t :=
    if bool_decide (receiver = None) && rel_explicit t && saw_tilde_bracket t
    then t <| var_class := delete name (var_class t) |>
           <| relation_row_vars := {[name]} ∪ relation_row_vars t |>
    else t <| relation_row_vars := relation_row_vars t ∖ {[name]} |>
           <| var_class := <[name := receiver]> (var_class t) |> in
  match pending_binder_element t with
  | Some (_, tc) => t <| pending_binder_element := None |>
                      <| var_reducer_type := <[name := tc]> (var_reducer_type t) |>
  | None => t <| var_reducer_type := delete name (var_reducer_type t) |>
  end.

(** A binder with a primitive annotation. *)
Definition bind_element (t : ScopeTracker) (name : string) (tc : TypeClass) : ScopeTracker :=
  t <| binder_saves :=
         {| binder_depth := depth t; binder_name := name; prev_class := None;
            prev_relation_row := false; prev_reducer_type := var_reducer_type t !! name |}
         :: binder_saves t |>
    <| var_reducer_type := <[name := tc]> (var_reducer_type t) |>.

(** The binder a lambda's pipe closes. *)
Definition bind_lambda (t : ScopeTracker) : ScopeTracker :=
  match pending_binder_class t with
  | Some (name, class) => bind_class (t <| pending_binder_class := None |>) name class
  | None =>
      let first := lambda_first_ident t in
      let t := t <| lambda_first_ident := None |> in
      match (if bool_decide (first = Some "") then None else first) with
      | Some name => bind_receiver t name
      | None =>
          match pending_binder_element t with
          | Some (name, tc) => bind_element (t <| pending_binder_element := None |>) name tc
          | None => t
          end
      end
  end.

Definition on_pipe (t : ScopeTracker) (pre_state : State) : ScopeTracker :=
  match pre_state with
  | Start | ExpectSource => t
  | _ =>
      bind_lambda
        (t <| brace_binder_open := match brace_binder_open t with _ :: l => false :: l | [] => [] end |>
           <| scope_saves :=
                {| scope_depth := depth t; prev_cur_class := cur_class t;
                   prev_rel_explicit := rel_explicit t; prev_saw_tilde_bracket := saw_tilde_bracket t |}
                :: scope_saves t |>)
  end.

(** *** [on_open] *)

Definition method_in (method : option string) (names : list string) : bool :=
  match method with Some name => named names name | None => false end.

(** The first half: which call's arguments the delimiter opens.  [method] is
    the identifier just before it. *)
Definition open_call (t : ScopeTracker) (method : option string) (s : Schema) : ScopeTracker :=
  let source := bool_decide (method = Some SOURCE_METHOD) in
  let property := bool_decide (is_Some method) && negb source && bool_decide (is_Some (last_nav t)) in
  let extent_method := if last_ident_on_extent t then method else None in
  t <| in_source_method_args := source |>
    <| source_method_required := (if source then arity <$> (cur_class t ≫= temporal s) else None) |>
    <| source_method_commas := 0 |>
    <| in_property_method_args := property |>
    <| property_method_required := (if property then arity <$> (last_nav_class t ≫= temporal s) else None) |>
    <| property_method_commas := 0 |>
    <| store_call_arity := (method ≫= store_method_arity) |>
    <| store_call_commas := 0 |>
    <| receiver_only_call := last_ident_after_arrow t && method_in method RECEIVER_ONLY_METHODS |>
    <| extent_call_arg := (extent_method ≫= extent_method_arg) |>
    <| extent_call_preserves_class := method_in extent_method TYPE_PRESERVING_METHODS |>.

(** The second half: what the delimiter pushes. *)
Definition open_delimiter (t : ScopeTracker) (method : option string) (pre_state : State) (opener : byte)
    : ScopeTracker :=
  let is_tilde_bracket := bool_decide (pre_state = SawTilde) in
  let nested := bool_decide (method = Some SOURCE_METHOD) && (NESTED_SOURCE_MIN_DEPTH <=? depth t)%nat in
  t <| saw_tilde_bracket := (saw_tilde_bracket t || is_tilde_bracket) && negb nested |>
    <| tilde_open := is_tilde_bracket :: tilde_open t |>
    <| brace_binder_open := (opener =? "{")%u8 :: brace_binder_open t |>
    <| est_stack := (if method_in method ESTABLISHING_METHODS then depth t :: est_stack t else est_stack t) |>
    <| ref_stack := (if method_in method REF_METHODS then depth t :: ref_stack t else ref_stack t) |>
    <| rel_explicit := rel_explicit t && negb nested |>
    <| paren_receiver := default (cur_class t) (pending_arrow_receiver t) :: paren_receiver t |>
    <| pending_arrow_receiver := None |>
    <| call_return := (method ≫= λ name, call_return_type name (pending_arrow_type t)) :: call_return t |>
    <| pending_arrow_type := None |>
    <| lambda_first_ident := None |>.

Definition on_open (t : ScopeTracker) (pre_state : State) (opener : byte) (s : Schema) : ScopeTracker :=
  let method := last_ident t in
  let t := t <| last_ident := None |> <| depth := S (depth t) |> in
  open_delimiter (open_call t method s) method pre_state opener.

(** *** [on_close] *)

(** The call flags at a closing delimiter. *)
Definition close_call (t : ScopeTracker) : ScopeTracker :=
  t <| awaiting_extent_step := in_source_method_args t |>
    <| in_source_method_args := false |>
    <| source_method_required := None |>
    <| in_property_method_args := false |>
    <| property_method_required := None |>
    <| awaiting_store_result := bool_decide (is_Some (store_call_arity t)) |>
    <| store_call_arity := None |>
    <| receiver_only_call := false |>
    <| awaiting_class_call_result := extent_call_preserves_class t |>
    <| extent_call_preserves_class := false |>
    <| extent_call_arg := None |>.

(** One save put back. *)
Definition restore_binder (t : ScopeTracker) (save : BinderSave) : ScopeTracker :=
  let name := binder_name save in
  t <| var_class := match prev_class save with
                    | Some class => <[name := class]> (var_class t)
                    | None => delete name (var_class t)
                    end |>
    <| relation_row_vars := if prev_relation_row save then {[name]} ∪ relation_row_vars t
                            else relation_row_vars t ∖ {[name]} |>
    <| var_reducer_type := match prev_reducer_type save with
                           | Some tc => <[name := tc]> (var_reducer_type t)
                           | None => delete name (var_reducer_type t)
                           end |>.

(** The two [while] loops: the saves of the closing depth, newest first. *)
Fixpoint restore_binders (saves : list BinderSave) (t : ScopeTracker) : ScopeTracker :=
  match saves with
  | save :: rest =>
      if (binder_depth save =? depth t)%nat
      then restore_binders rest (restore_binder (t <| binder_saves := rest |>) save)
      else t
  | [] => t
  end.

Fixpoint restore_scopes (saves : list ScopeSave) (t : ScopeTracker) : ScopeTracker :=
  match saves with
  | save :: rest =>
      if (scope_depth save =? depth t)%nat
      then
        restore_scopes rest
          (t <| scope_saves := rest |>
             <| cur_class := prev_cur_class save |>
             <| rel_explicit := prev_rel_explicit save |>
             <| saw_tilde_bracket := prev_saw_tilde_bracket save |>)
      else t
  | [] => t
  end.

Definition pop_depth (stack : list nat) (d : nat) : list nat :=
  if bool_decide (head stack = Some d) then tail stack else stack.

(** What the delimiter had pushed. *)
Definition close_delimiter (t : ScopeTracker) : ScopeTracker :=
  let establishes := bool_decide (head (est_stack t) = Some (depth t)) in
  t <| tilde_open := tail (tilde_open t) |>
    <| brace_binder_open := tail (brace_binder_open t) |>
    <| ref_stack := pop_depth (ref_stack t) (depth t) |>
    <| est_stack := pop_depth (est_stack t) (depth t) |>
    <| rel_explicit := rel_explicit t || establishes |>
    <| cur_class := (if establishes then None else cur_class t) |>
    <| paren_receiver := tail (paren_receiver t) |>
    <| last_call_type := mjoin (head (call_return t)) |>
    <| call_return := tail (call_return t) |>
    <| depth := pred (depth t) |>
    <| pending_arrow_receiver := None |>.

Definition unwind_binders (t : ScopeTracker) : ScopeTracker := restore_binders (binder_saves t) t.
Definition unwind_scopes (t : ScopeTracker) : ScopeTracker := restore_scopes (scope_saves t) t.

Definition on_close (t : ScopeTracker) : ScopeTracker :=
  close_delimiter (unwind_scopes (unwind_binders (close_call t))).

(** ** One lexeme *)

Definition STEP_DASH_TOKEN : list byte := text "-".

(** The [match] of [dispatch_token]. *)
Definition on_lexeme (t : ScopeTracker) (lex : Lex.Lexeme) (bytes : list byte) (pre_state : State) (s : Schema)
    : ScopeTracker * option NavResult :=
  match lex with
  | Lex.Ident name => on_ident t name pre_state s
  | Lex.Dot => (on_dot t, None)
  | Lex.Arrow => (on_arrow t, None)
  | Lex.Cmp => (match last_nav t with Some (Scalar tc) => t <| cmp_pending := Some tc |> | _ => t end, None)
  | Lex.Pipe => (on_pipe t pre_state, None)
  | Lex.Open => (on_open t pre_state (default x00 (head bytes)) s, None)
  | Lex.Close => (on_close t, None)
  | Lex.Comma => (on_comma t, None)
  | Lex.Str content =>
      (t <| emitted_strings := emitted_strings t ++ [content] |>
         <| last_ident := None |>
         <| awaiting_str_operator := true |>, None)
  | Lex.Dollar | Lex.Number | Lex.Date | Lex.Other =>
      (t <| last_ident := None |>
         <| logical_pending := logical_pending t || is_logical_operator bytes pre_state |>, None)
  | Lex.Ws => (t, None)
  end.

(** The armings that do not outlive the lexeme. *)
Definition disarm (t : ScopeTracker) (lex : Lex.Lexeme) (bytes : list byte) (pre_state : State)
    (resolved_now : option NavResult) : ScopeTracker :=
  let was_cmp := match lex with Lex.Cmp => true | _ => false end in
  let was_arrow := match lex with Lex.Arrow => true | _ => false end in
  let was_close := match lex with Lex.Close => true | _ => false end in
  let was_str := match lex with Lex.Str _ => true | _ => false end in
  let was_step_dash := same_bytes bytes STEP_DASH_TOKEN in
  let was_logical := is_logical_operator bytes pre_state in
  t <| last_nav := resolved_now |>
    <| cmp_pending := (if was_cmp then cmp_pending t else None) |>
    <| awaiting_reducer := (if was_arrow then awaiting_reducer t else None) |>
    <| awaiting_store_method := awaiting_store_method t && was_arrow |>
    <| awaiting_extent_method := awaiting_extent_method t && was_arrow |>
    <| awaiting_scalar_method := (if was_arrow then awaiting_scalar_method t else None) |>
    <| last_call_type := (if was_close then last_call_type t else None) |>
    <| awaiting_class_call_result := awaiting_class_call_result t && was_close |>
    <| logical_pending := logical_pending t && was_logical |>
    <| awaiting_extent_step := awaiting_extent_step t && (was_close || was_step_dash) |>
    <| awaiting_store_result := awaiting_store_result t && (was_close || was_step_dash) |>
    <| awaiting_str_operator := awaiting_str_operator t && (was_str || was_step_dash) |>.

Definition dispatch_token (t : ScopeTracker) (bytes : list byte) (pre_state : State) (s : Schema) : ScopeTracker :=
  match classify_at bytes pre_state with
  | Lex.Ws => t
  | lex =>
      let '(t, resolved_now) := on_lexeme t lex bytes pre_state s in
      disarm t lex bytes pre_state resolved_now
  end.

(** ** One token *)

(** [self.pending.take()]. *)
Definition take_pending (t : ScopeTracker) : ScopeTracker := t <| pending := None |>.

Definition emit_lexeme (t : ScopeTracker) (seg : list byte) (at_ : State) (continuing : bool) (s : Schema)
    : ScopeTracker :=
  match pending t with
  | Some done =>
      if continuing then dispatch_token (take_pending t) (buf done ++ seg) (anchor done) s
      else dispatch_token t seg at_ s
  | None => dispatch_token t seg at_ s
  end.

(** [take_while] over identifier bytes, counted. *)
Fixpoint ident_run (l : list byte) : nat :=
  match l with
  | c :: tl => if is_ident_tail c then S (ident_run tl) else 0
  | [] => 0
  end.

(** The length of the next lexeme of a gap that does not open with white
    space. *)
Definition gap_width (rest : list byte) : nat :=
  match rest with
  | x :: y :: _ =>
      if is_two_byte_op x y then 2
      else if is_ident_start x then ident_run rest `max` 1
      else 1
  | _ => 1
  end.

(** [flush_gap]; every round takes a byte, so the length of the gap is fuel
    enough. *)
Fixpoint flush_rounds (fuel : nat) (t : ScopeTracker) (rest : list byte) (at_ : State) (s : Schema)
    : ScopeTracker :=
  match fuel, rest with
  | S fuel, b :: tl =>
      if is_ascii_whitespace b then flush_rounds fuel t tl at_ s
      else
        let n := gap_width rest in
        flush_rounds fuel (dispatch_token t (take n rest) at_ s) (drop n rest) at_ s
  | _, _ => t
  end.

Definition flush_gap (t : ScopeTracker) (gap : list byte) (at_ : State) (s : Schema) : ScopeTracker :=
  flush_rounds (length gap) t gap at_ s.

(** The rule a lexeme left open carries, from the rule of its anchor. *)
Definition stamped (k : LexKind) (p : Pos.L2Position) : Pos.L2Position :=
  match k, p with
  | Ident, (Pos.ReValue _ | Pos.ExtentMethodArg _) => Pos.ValueIdent
  | _, (Pos.ReValue _ | Pos.SourceMethodArg _ _ | Pos.PropertyMethodArg _ _
        | Pos.StoreMethodArg | Pos.ExtentMethodArg _) => Pos.NoPosition
  | _, _ => p
  end.

Definition buffer_trailing (t : ScopeTracker) (k : LexKind) (seg : list byte) (at_ : State) (continuing : bool)
    : ScopeTracker :=
  if continuing then
    match pending t with
    | Some p => t <| pending := Some {| kind := kind p; buf := buf p ++ seg; anchor := anchor p; pos := pos p |} |>
    | None => t
    end
  else t <| pending := Some {| kind := k; buf := seg; anchor := at_; pos := stamped k (opening_position t at_) |} |>.

(** The state of [observe]'s walk: [seg] is the bytes since [seg_start]. *)
Record Walk := {
  walk_tracker : ScopeTracker;
  walk_state : State;
  walk_stack : list Frame;
  walk_continuing : bool;
  walk_anchor : State;
  walk_seg : list byte;
}.

#[global] Instance Walk_rebuild : Rebuild Walk := λ w, {|
  walk_tracker := walk_tracker w; walk_state := walk_state w; walk_stack := walk_stack w;
  walk_continuing := walk_continuing w; walk_anchor := walk_anchor w; walk_seg := walk_seg w;
|}.

(** What [observe] does before its loop. *)
Definition walk_init (t : ScopeTracker) (pre : Pda) (s : Schema) : Walk :=
  let state := pda_state pre in
  let continuing :=
    match pending t with Some p => bool_decide (lexeme_kind state = Some (kind p)) | None => false end in
  {| walk_tracker :=
       match pending t with
       | Some done => if continuing then t else dispatch_token (take_pending t) (buf done) (anchor done) s
       | None => t
       end;
     walk_state := state;
     walk_stack := pda_stack pre;
     walk_continuing := continuing;
     walk_anchor := match pending t with Some p => if continuing then anchor p else state | None => state end;
     walk_seg := [] |}.

(** One byte of the loop, once the automaton has moved. *)
Definition walk_segment (w : Walk) (next : State) (b : byte) (s : Schema) : Walk :=
  let before := walk_state w in
  let cur_kind := lexeme_kind next in
  match lexeme_kind before with
  | Some k =>
      if bool_decide (cur_kind = Some k) then w <| walk_seg := walk_seg w ++ [b] |>
      else
        w <| walk_tracker := emit_lexeme (walk_tracker w) (walk_seg w) (walk_anchor w) (walk_continuing w) s |>
          <| walk_continuing := false |>
          <| walk_seg := [b] |>
          <| walk_anchor := before |>
  | None =>
      if bool_decide (is_Some cur_kind) then
        w <| walk_tracker := flush_gap (walk_tracker w) (walk_seg w) (walk_anchor w) s |>
          <| walk_seg := [b] |>
          <| walk_anchor := before |>
          <| walk_continuing := false |>
      else w <| walk_seg := walk_seg w ++ [b] |>
  end.

(** The automaton's move, recorded. *)
Definition walk_move (w : Walk) (next : State) (stack : list Frame) : Walk :=
  w <| walk_state := next |> <| walk_stack := stack |>.

Definition walk_finish (w : Walk) (s : Schema) : ScopeTracker :=
  match lexeme_kind (walk_state w) with
  | Some k => buffer_trailing (walk_tracker w) k (walk_seg w) (walk_anchor w) (walk_continuing w)
  | None => flush_gap (walk_tracker w) (walk_seg w) (walk_anchor w) s
  end.

Fixpoint walk (w : Walk) (bytes : list byte) (s : Schema) : ScopeTracker :=
  match bytes with
  | [] => walk_finish w s
  | b :: rest =>
      match step1 (walk_state w, walk_stack w) b with
      | Some (next, stack) => walk (walk_move (walk_segment w next b s) next stack) rest s
      | None => walk_tracker w
      end
  end.

(** [ScopeTracker::observe]. *)
Definition observe (t : ScopeTracker) (bytes : list byte) (pre : Pda) (s : Schema) : ScopeTracker :=
  walk (walk_init t pre s) bytes s.
