(* ===== verification/ScopeNest.v ===== *)
(** * Laws of the scope tracker's transitions

    What each lexeme leaves alone, and that the emitted columns and the bound
    variables of a stream only grow.  [ScopeNest] is about what the delimiters
    and the pipes do change, [ScopeWalk] lifts the laws to tokens. *)

From stdpp Require Import gmap.
From stdpp Require Import gmap sorting.
From S2P Require Import Prelude StackMachine PdaState PdaStep Pda Utf8 Schema Position Narrow Scope.

(** ** Frames *)

(** What only a pipe or a delimiter changes: the nesting and what is saved
    with it, *)
Record Nest := {
  n_depth : nat;
  n_paren : list (option string);
  n_tilde : list bool;
  n_brace : list bool;
  n_call : list (option TypeClass);
  n_est : list nat;
  n_ref : list nat;
  n_binders : list BinderSave;
  n_scopes : list ScopeSave;
}.

Definition nest (t : ScopeTracker) : Nest := {|
  n_depth := depth t; n_paren := paren_receiver t; n_tilde := tilde_open t;
  n_brace := brace_binder_open t; n_call := call_return t; n_est := est_stack t;
  n_ref := ref_stack t; n_binders := binder_saves t; n_scopes := scope_saves t;
|}.

(** and what is known of each variable. *)
Record ScopeMaps := {
  m_class : gmap string (option string);
  m_rows : gset string;
  m_reducers : gmap string TypeClass;
}.

Definition scope_maps (t : ScopeTracker) : ScopeMaps := {|
  m_class := var_class t; m_rows := relation_row_vars t; m_reducers := var_reducer_type t |}.

Definition skeleton (t : ScopeTracker) : Nest * ScopeMaps := (nest t, scope_maps t).

(** What the stream has emitted and bound, and the open lexeme. *)
Definition record (t : ScopeTracker) : option Pending * list (list byte) * list string :=
  (pending t, emitted_strings t, bound_vars t).

Ltac frame := repeat (reflexivity || case_match).

Lemma disarm_skeleton t lex bytes st r : skeleton (disarm t lex bytes st r) = skeleton t.
Proof. reflexivity. Qed.
Lemma disarm_record t lex bytes st r : record (disarm t lex bytes st r) = record t.
Proof. reflexivity. Qed.

Lemma bind_var_skeleton t name : skeleton (bind_var t name) = skeleton t.
Proof. unfold bind_var. frame. Qed.
Lemma resolve_member_skeleton t name s : skeleton (resolve_member t name s).1 = skeleton t.
Proof. unfold resolve_member. frame. Qed.
Lemma resolve_member_record t name s : record (resolve_member t name s).1 = record t.
Proof. unfold resolve_member. frame. Qed.

Lemma on_ident_at_skeleton t name st s : skeleton (on_ident_at t name st s).1 = skeleton t.
Proof.
  unfold on_ident_at, binder_candidate.
  destruct st; try reflexivity; cbn [fst];
    first [apply resolve_member_skeleton | rewrite bind_var_skeleton; reflexivity | idtac].
  all: frame. all: rewrite bind_var_skeleton; reflexivity.
Qed.

Lemma ident_source_skeleton t name st s : skeleton (ident_source t name st s) = skeleton t.
Proof. unfold ident_source. by destruct (has_class s name). Qed.
Lemma ident_column_skeleton t bytes st : skeleton (ident_column t bytes st) = skeleton t.
Proof. unfold ident_column. by destruct (_ || _). Qed.

Lemma ident_last_skeleton t name st : skeleton (ident_last t name st) = skeleton t.
Proof. done. Qed.

Lemma on_ident_skeleton t bytes st s : skeleton (on_ident t bytes st s).1 = skeleton t.
Proof.
  unfold on_ident. pose proof (on_ident_at_skeleton (ident_source t (as_str bytes) st s) (as_str bytes) st s) as E.
  destruct (on_ident_at _ _ st s) as [t' r]. cbn [fst] in *.
  rewrite ident_last_skeleton, ident_column_skeleton, E. apply ident_source_skeleton.
Qed.

Lemma on_dot_skeleton t : skeleton (on_dot t) = skeleton t.
Proof. unfold on_dot. frame. Qed.
Lemma on_dot_record t : record (on_dot t) = record t.
Proof. unfold on_dot. frame. Qed.
Lemma on_arrow_skeleton t : skeleton (on_arrow t) = skeleton t.
Proof. unfold on_arrow. frame. Qed.
Lemma on_arrow_record t : record (on_arrow t) = record t.
Proof. unfold on_arrow. frame. Qed.

(** The lexemes that leave the skeleton alone. *)
Definition is_neutral (lex : Lex.Lexeme) : bool :=
  match lex with Lex.Pipe | Lex.Open | Lex.Close => false | _ => true end.

Lemma on_lexeme_skeleton t lex bytes st s :
  is_neutral lex = true → skeleton (on_lexeme t lex bytes st s).1 = skeleton t.
Proof.
  destruct lex; try done; intros _; cbn [on_lexeme fst];
    auto using on_ident_skeleton, on_dot_skeleton, on_arrow_skeleton.
  by destruct (last_nav t) as [[]|].
Qed.

(** ** Growth *)

Definition grows (t t' : ScopeTracker) : Prop :=
  pending t' = pending t
  ∧ emitted_strings t `prefix_of` emitted_strings t' ∧ bound_vars t `prefix_of` bound_vars t'.

#[global] Instance grows_preorder : PreOrder grows.
Proof.
  split; [by intros t|]. intros t1 t2 t3 (E1 & ? & ?) (E2 & ? & ?).
  split_and!; [congruence|by etrans..].
Qed.

Lemma record_grows t t' : record t' = record t → grows t t'.
Proof. intros [= E0 E1 E2]. unfold grows. by rewrite E0, E1, E2. Qed.

Lemma bind_var_grows t name : grows t (bind_var t name).
Proof.
  unfold bind_var. destruct (negb _); [done|]. destruct (named _ _); [done|].
  split_and!; cbn; [done..|by eexists].
Qed.

Lemma binder_candidate_grows t name : grows t (binder_candidate t name).
Proof. unfold binder_candidate. etrans; [|apply bind_var_grows]. by apply record_grows. Qed.

Lemma on_ident_at_grows t name st s : grows t (on_ident_at t name st s).1.
Proof.
  unfold on_ident_at.
  destruct st; try (by apply record_grows); cbn [fst];
    auto using binder_candidate_grows, bind_var_grows, record_grows, resolve_member_record;
    repeat case_match; auto using binder_candidate_grows; by apply record_grows.
Qed.

Lemma ident_source_grows t name st s : grows t (ident_source t name st s).
Proof. unfold ident_source. by destruct (has_class s name). Qed.
Lemma ident_column_grows t bytes st : grows t (ident_column t bytes st).
Proof. unfold ident_column. destruct (_ || _); [|done]. split_and!; cbn; [done|by eexists|done]. Qed.
Lemma ident_last_grows t name st : grows t (ident_last t name st).
Proof. done. Qed.

Lemma on_ident_grows t bytes st s : grows t (on_ident t bytes st s).1.
Proof.
  unfold on_ident. pose proof (on_ident_at_grows (ident_source t (as_str bytes) st s) (as_str bytes) st s) as E.
  destruct (on_ident_at _ _ st s) as [t' r]. cbn [fst] in *.
  transitivity t'.
  - transitivity (ident_source t (as_str bytes) st s); [apply ident_source_grows|exact E].
  - transitivity (ident_column t' bytes st); [apply ident_column_grows|apply ident_last_grows].
Qed.

Lemma restore_binders_record saves t : record (restore_binders saves t) = record t.
Proof. revert t. induction saves as [|save rest IH]; intros t; cbn; [done|]. case_match; [|done]. by rewrite IH. Qed.
Lemma restore_scopes_record saves t : record (restore_scopes saves t) = record t.
Proof. revert t. induction saves as [|save rest IH]; intros t; cbn; [done|]. case_match; [|done]. by rewrite IH. Qed.

Lemma close_delimiter_record t : record (close_delimiter t) = record t.
Proof. done. Qed.
Lemma close_call_record t : record (close_call t) = record t.
Proof. done. Qed.

Lemma on_close_record t : record (on_close t) = record t.
Proof.
  unfold on_close. rewrite close_delimiter_record. unfold unwind_scopes. rewrite restore_scopes_record.
  unfold unwind_binders. rewrite restore_binders_record. apply close_call_record.
Qed.

Lemma bind_class_record t name class : record (bind_class t name class) = record t.
Proof. unfold bind_class. by destruct (bool_decide (lambda_first_ident t = Some name)). Qed.
Lemma bind_receiver_record t name : record (bind_receiver t name) = record t.
Proof.
  unfold bind_receiver. cbn zeta.
  destruct (bool_decide (mjoin _ = None) && rel_explicit _ && _); cbn [pending_binder_element update];
    by destruct (pending_binder_element t) as [[]|].
Qed.
Lemma bind_element_record t name tc : record (bind_element t name tc) = record t.
Proof. done. Qed.

Lemma bind_lambda_record t : record (bind_lambda t) = record t.
Proof.
  unfold bind_lambda. destruct (pending_binder_class t) as [[name class]|]; [by rewrite bind_class_record|].
  destruct (if bool_decide _ then None else _) as [name|]; [by rewrite bind_receiver_record|].
  by destruct (pending_binder_element _) as [[name tc]|].
Qed.

Lemma on_pipe_record t st : record (on_pipe t st) = record t.
Proof. unfold on_pipe. destruct st; try done; by rewrite bind_lambda_record. Qed.

Lemma on_open_record t st b s : record (on_open t st b s) = record t.
Proof. done. Qed.

Lemma on_lexeme_grows t lex bytes st s : grows t (on_lexeme t lex bytes st s).1.
Proof.
  destruct lex; cbn [on_lexeme fst]; try (by apply record_grows); auto using on_ident_grows;
    try (apply record_grows; by auto using on_dot_record, on_arrow_record, on_pipe_record, on_close_record).
  - split_and!; cbn; [done|by eexists|done].
  - by destruct (last_nav t) as [[]|].
Qed.

(** A lexeme is white space, or it is handled and the armings are dropped. *)
Lemma dispatch_token_cases t bytes st s :
  let lex := classify_at bytes st in
  (lex = Lex.Ws ∧ dispatch_token t bytes st s = t)
  ∨ (lex ≠ Lex.Ws
     ∧ dispatch_token t bytes st s
       = disarm (on_lexeme t lex bytes st s).1 lex bytes st (on_lexeme t lex bytes st s).2).
Proof.
  unfold dispatch_token. generalize (classify_at bytes st). intros lex.
  pose proof (surjective_pairing (on_lexeme t lex bytes st s)) as E.
  destruct lex; [by left|right..]; (split; [done|]); rewrite E; reflexivity.
Qed.

Lemma disarm_grows t lex bytes st r : grows t (disarm t lex bytes st r).
Proof. done. Qed.

Lemma dispatch_token_grows t bytes st s : grows t (dispatch_token t bytes st s).
Proof.
  destruct (dispatch_token_cases t bytes st s) as [[_ ->]|[_ ->]]; [reflexivity|].
  etrans; [apply on_lexeme_grows|apply disarm_grows].
Qed.

(** * Delimiters and lexical scope

    The invariant of the tracker's stacks ([well_nested]: every per-delimiter
    stack is as long as the nesting is deep, every saved depth is one of an open
    delimiter), and what a closed delimiter leaves of the variables bound inside
    it. *)

(** ** The invariant *)

(** Depths of open delimiters, innermost first. *)
Definition nested_depths (R : relation nat) (l : list nat) (d : nat) : Prop :=
  StronglySorted R l ∧ Forall (λ x, x ≤ d) l.

Record nested (k : Nest) : Prop := {
  nested_paren : length (n_paren k) = n_depth k;
  nested_tilde : length (n_tilde k) = n_depth k;
  nested_brace : length (n_brace k) = n_depth k;
  nested_call : length (n_call k) = n_depth k;
  nested_est : nested_depths gt (n_est k) (n_depth k) ∧ Forall (lt 0) (n_est k);
  nested_ref : nested_depths gt (n_ref k) (n_depth k) ∧ Forall (lt 0) (n_ref k);
  nested_binders : nested_depths ge (binder_depth <$> n_binders k) (n_depth k);
  nested_scopes : nested_depths ge (scope_depth <$> n_scopes k) (n_depth k);
}.

Definition well_nested (t : ScopeTracker) : Prop := nested (nest t).

Lemma nested_depths_S R l d : nested_depths R l d → nested_depths R l (S d).
Proof. intros [? H]. split; [done|]. eapply Forall_impl; [exact H|]. cbn. lia. Qed.

Lemma nested_depths_push l d : nested_depths gt l d → nested_depths gt (S d :: l) (S d).
Proof.
  intros H. pose proof (nested_depths_S _ _ _ H) as [_ Hle]. destruct H as [Hs Hd].
  split; constructor; [done| |lia|done]. eapply Forall_impl; [exact Hd|]. cbn. lia.
Qed.

Lemma nested_depths_save l d : nested_depths ge l d → nested_depths ge (d :: l) d.
Proof. intros [Hs Hd]. split; constructor; [done| |lia|done]. eapply Forall_impl; [exact Hd|]. cbn. lia. Qed.

(** The entries of the closing depth go. *)
Lemma nested_pop_depth l d :
  nested_depths gt l d → Forall (lt 0) l → nested_depths gt (pop_depth l d) (pred d) ∧ Forall (lt 0) (pop_depth l d).
Proof.
  intros [Hs Hd] H0. unfold pop_depth. destruct l as [|x l]; [by repeat split; constructor|].
  inversion Hs as [|?? Hs' Hx]; inversion Hd; inversion H0; subst. cbn [head tail].
  case_bool_decide as E.
  - injection E as ->. repeat split; try done. eapply Forall_impl; [exact Hx|]. cbn. lia.
  - assert (x ≠ d) by congruence. repeat split; try done. constructor; [lia|].
    eapply Forall_impl; [exact Hx|]. cbn. lia.
Qed.

(** What is left of the saves once those of the closing depth are put back. *)
Fixpoint outer {A} (f : A → nat) (d : nat) (l : list A) : list A :=
  match l with x :: r => if (f x =? d)%nat then outer f d r else l | [] => [] end.

Lemma nested_outer {A} (f : A → nat) (l : list A) d :
  nested_depths ge (f <$> l) d → nested_depths ge (f <$> outer f d l) (pred d).
Proof.
  induction l as [|x l IH]; cbn; intros [Hs Hd]; [by split|].
  inversion Hs as [|?? Hs' Hx]; inversion Hd; subst.
  destruct (Nat.eqb_spec (f x) d) as [_|Hne]; [by apply IH|].
  split; [done|]. constructor; [lia|]. eapply Forall_impl; [exact Hx|]. cbn. lia.
Qed.

(** *** The three lexemes that nest *)

Lemma on_open_nest t st b s :
  nest (on_open t st b s) = {|
    n_depth := S (depth t);
    n_paren := default (cur_class t) (pending_arrow_receiver t) :: paren_receiver t;
    n_tilde := bool_decide (st = SawTilde) :: tilde_open t;
    n_brace := (b =? "{")%u8 :: brace_binder_open t;
    n_call := (last_ident t ≫= λ name, call_return_type name (pending_arrow_type t)) :: call_return t;
    n_est := if method_in (last_ident t) ESTABLISHING_METHODS then S (depth t) :: est_stack t else est_stack t;
    n_ref := if method_in (last_ident t) REF_METHODS then S (depth t) :: ref_stack t else ref_stack t;
    n_binders := binder_saves t;
    n_scopes := scope_saves t;
  |}.
Proof. reflexivity. Qed.

Lemma on_open_nested t st b s : well_nested t → well_nested (on_open t st b s).
Proof.
  intros [Hp Ht Hb Hc [He He0] [Hr Hr0] Hbs Hss]. unfold well_nested. rewrite on_open_nest.
  cbn [nest n_depth n_paren n_tilde n_brace n_call n_est n_ref n_binders n_scopes] in *.
  split; cbn [n_depth n_paren n_tilde n_brace n_call n_est n_ref n_binders n_scopes length]; try lia;
    auto using nested_depths_S;
    destruct (method_in _ _); split; auto using nested_depths_S, nested_depths_push; constructor; auto; lia.
Qed.

(** ** What a save puts back *)

Definition put_back (m : ScopeMaps) (save : BinderSave) : ScopeMaps :=
  let name := binder_name save in {|
    m_class := match prev_class save with
               | Some class => <[name := class]> (m_class m)
               | None => delete name (m_class m)
               end;
    m_rows := if prev_relation_row save then {[name]} ∪ m_rows m else m_rows m ∖ {[name]};
    m_reducers := match prev_reducer_type save with
                  | Some tc => <[name := tc]> (m_reducers m)
                  | None => delete name (m_reducers m)
                  end |}.

(** Less is known of some variables' classes and rows. *)
Definition maps_le (m m' : ScopeMaps) : Prop :=
  m_class m ⊆ m_class m' ∧ m_rows m ⊆ m_rows m' ∧ m_reducers m = m_reducers m'.

#[global] Instance maps_le_preorder : PreOrder maps_le.
Proof.
  split; [by intros m|]. intros a b c (?&?&?) (?&?&?). split_and!; [by etrans..|congruence].
Qed.

Lemma put_back_mono m m' save : maps_le m m' → maps_le (put_back m save) (put_back m' save).
Proof.
  intros (Hc & Hr & He). split_and!; cbn.
  - destruct (prev_class save); [by apply insert_mono|by apply delete_mono].
  - destruct (prev_relation_row save); set_solver.
  - by rewrite He.
Qed.

Definition n_save (n : Nest) (save : BinderSave) : Nest := {|
  n_depth := n_depth n; n_paren := n_paren n; n_tilde := n_tilde n; n_brace := n_brace n;
  n_call := n_call n; n_est := n_est n; n_ref := n_ref n;
  n_binders := save :: n_binders n; n_scopes := n_scopes n |}.

(** A map that a binder changed at its own name only is put back exactly. *)
Lemma put_back_map {A} (name : string) (m m' : gmap string A) :
  (∀ k, k ≠ name → m' !! k = m !! k) →
  match m !! name with Some x => <[name := x]> m' | None => delete name m' end = m.
Proof.
  intros H. apply map_eq. intros k. destruct (decide (k = name)) as [->|Hne].
  - destruct (m !! name); [by rewrite lookup_insert_eq|by rewrite lookup_delete_eq].
  - destruct (m !! name); [rewrite lookup_insert_ne by done|rewrite lookup_delete_ne by done]; auto.
Qed.

Lemma put_back_rows (name : string) (m m' : gset string) :
  (∀ k, k ≠ name → k ∈ m' ↔ k ∈ m) →
  (if bool_decide (name ∈ m) then {[name]} ∪ m' else m' ∖ {[name]}) = m.
Proof.
  intros H. apply set_eq. intros k. specialize (H k).
  case_bool_decide; destruct (decide (k = name)) as [->|]; set_solver.
Qed.

Lemma put_back_saved t name m' :
  (∀ k, k ≠ name → m_class m' !! k = var_class t !! k ∧ (k ∈ m_rows m' ↔ k ∈ relation_row_vars t)
                   ∧ m_reducers m' !! k = var_reducer_type t !! k) →
  put_back m' (save_binder t name) = scope_maps t.
Proof.
  intros H. unfold put_back, scope_maps. cbn [save_binder prev_class prev_relation_row prev_reducer_type binder_name].
  rewrite !put_back_map, put_back_rows by (intros k Hk; by destruct (H k Hk) as (?&?&?)).
  done.
Qed.

(** *** Pipes *)

Definition pipe_effect (t t' : ScopeTracker) : Prop :=
  skeleton t' = skeleton t
  ∨ ∃ save, binder_depth save = depth t ∧ nest t' = n_save (nest t) save
            ∧ maps_le (put_back (scope_maps t') save) (scope_maps t).

Lemma bind_class_effect t name class : pipe_effect t (bind_class t name class).
Proof.
  right. exists (save_binder t name). split; [done|].
  unfold bind_class. destruct (bool_decide (lambda_first_ident t = Some name)); (split; [done|]);
    (rewrite put_back_saved; [done|]); intros k Hk; cbn;
    rewrite lookup_insert_ne, lookup_delete_ne by done; set_solver.
Qed.

Lemma bind_receiver_effect t name : pipe_effect t (bind_receiver t name).
Proof.
  right. exists (save_binder t name). split; [done|]. unfold bind_receiver. cbn zeta.
  destruct (bool_decide (mjoin _ = None) && rel_explicit _ && _); cbn [pending_binder_element update];
    destruct (pending_binder_element t) as [[? tc]|]; (split; [done|]);
    (rewrite put_back_saved; [done|]); intros k Hk; cbn;
    rewrite ?lookup_insert_ne, ?lookup_delete_ne by done; set_solver.
Qed.

(** The third form of binder saves no class and no row, whatever was there. *)
Lemma bind_element_effect t name tc : pipe_effect t (bind_element t name tc).
Proof.
  right. eexists. split; [|split; [reflexivity|]]; [done|].
  split_and!; cbn; [apply delete_subseteq|set_solver|].
  apply put_back_map. intros k Hk. by rewrite lookup_insert_ne.
Qed.

Lemma pipe_effect_frame t0 t t' : skeleton t0 = skeleton t → pipe_effect t0 t' → pipe_effect t t'.
Proof.
  intros E. pose proof (f_equal fst E) as En. pose proof (f_equal snd E) as Em. cbn [fst snd skeleton] in En, Em.
  pose proof (f_equal n_depth En) as Ed. cbn [n_depth nest] in Ed. unfold pipe_effect. by rewrite E, En, Em, Ed.
Qed.

Lemma bind_lambda_effect t : pipe_effect t (bind_lambda t).
Proof.
  unfold bind_lambda. destruct (pending_binder_class t) as [[name class]|].
  { by eapply pipe_effect_frame, bind_class_effect. }
  destruct (if bool_decide _ then None else _) as [name|].
  { by eapply pipe_effect_frame, bind_receiver_effect. }
  cbn [pending_binder_element update]. destruct (pending_binder_element t) as [[name tc]|]; [|by left].
  by eapply pipe_effect_frame, bind_element_effect.
Qed.

(** What a pipe leaves before it binds: the lambda's pipeline is saved. *)
Definition pipe_saved (t : ScopeTracker) : ScopeTracker :=
  t <| brace_binder_open := match brace_binder_open t with _ :: l => false :: l | [] => [] end |>
    <| scope_saves :=
         {| scope_depth := depth t; prev_cur_class := cur_class t;
            prev_rel_explicit := rel_explicit t; prev_saw_tilde_bracket := saw_tilde_bracket t |}
         :: scope_saves t |>.

Lemma on_pipe_cases t st : on_pipe t st = t ∨ on_pipe t st = bind_lambda (pipe_saved t).
Proof. destruct st; auto. Qed.

Lemma nested_save n save : nested n → binder_depth save = n_depth n → nested (n_save n save).
Proof.
  intros [] E. split; try done. cbn. rewrite E. by apply nested_depths_save.
Qed.

Lemma pipe_saved_nested t : well_nested t → well_nested (pipe_saved t).
Proof.
  intros []. split; try done; cbn in *; [by destruct (brace_binder_open t)|by apply nested_depths_save].
Qed.

Lemma on_pipe_nested t st : well_nested t → well_nested (on_pipe t st).
Proof.
  intros H. destruct (on_pipe_cases t st) as [->| ->]; [done|].
  pose proof (pipe_saved_nested t H) as H'.
  destruct (bind_lambda_effect (pipe_saved t)) as [E|(save & Hd & E & _)]; unfold well_nested.
  - apply (f_equal fst) in E. cbn [fst skeleton] in E. by rewrite E.
  - rewrite E. by apply nested_save.
Qed.

(** *** Closing delimiters *)

Definition n_outer (n : Nest) : Nest := {|
  n_depth := n_depth n; n_paren := n_paren n; n_tilde := n_tilde n; n_brace := n_brace n;
  n_call := n_call n; n_est := n_est n; n_ref := n_ref n;
  n_binders := outer binder_depth (n_depth n) (n_binders n);
  n_scopes := outer scope_depth (n_depth n) (n_scopes n) |}.

(** The saves of a depth, put back. *)
Fixpoint put_back_at (d : nat) (saves : list BinderSave) (m : ScopeMaps) : ScopeMaps :=
  match saves with
  | save :: rest => if (binder_depth save =? d)%nat then put_back_at d rest (put_back m save) else m
  | [] => m
  end.

(** Everything [restore_binders] leaves alone. *)
Definition same_but_binders (t t' : ScopeTracker) : Prop :=
  depth t' = depth t ∧ paren_receiver t' = paren_receiver t ∧ tilde_open t' = tilde_open t
  ∧ brace_binder_open t' = brace_binder_open t ∧ call_return t' = call_return t
  ∧ est_stack t' = est_stack t ∧ ref_stack t' = ref_stack t ∧ scope_saves t' = scope_saves t
  ∧ cur_class t' = cur_class t ∧ rel_explicit t' = rel_explicit t
  ∧ saw_tilde_bracket t' = saw_tilde_bracket t.

Lemma restore_binder_effect t save rest :
  let t' := restore_binder (t <| binder_saves := rest |>) save in
  same_but_binders t t' ∧ binder_saves t' = rest ∧ scope_maps t' = put_back (scope_maps t) save.
Proof. unfold same_but_binders, restore_binder, scope_maps, put_back. cbn. by split_and!. Qed.

Lemma restore_binders_effect saves t :
  binder_saves t = saves →
  same_but_binders t (restore_binders saves t)
  ∧ binder_saves (restore_binders saves t) = outer binder_depth (depth t) saves
  ∧ scope_maps (restore_binders saves t) = put_back_at (depth t) saves (scope_maps t).
Proof.
  revert t. induction saves as [|save rest IH]; intros t E; cbn [restore_binders outer put_back_at].
  { by split_and!. }
  destruct (binder_depth save =? depth t)%nat eqn:Hd; [|by split_and!].
  destruct (restore_binder_effect t save rest) as ((Ed & H1) & H0 & H2).
  destruct (IH _ H0) as (H3 & H4 & H5). rewrite Ed, H2 in *. clear Ed H0 H2 IH.
  split_and!; [|done..]. unfold same_but_binders in *. naive_solver congruence.
Qed.

(** The oldest pipeline saved at a depth. *)
Definition Pipeline : Type := option string * bool * bool.
Definition pipeline (t : ScopeTracker) : Pipeline := (cur_class t, rel_explicit t, saw_tilde_bracket t).
Definition saved_pipeline (save : ScopeSave) : Pipeline :=
  (prev_cur_class save, prev_rel_explicit save, prev_saw_tilde_bracket save).

Fixpoint pipeline_at (d : nat) (saves : list ScopeSave) (p : Pipeline) : Pipeline :=
  match saves with
  | save :: rest => if (scope_depth save =? d)%nat then pipeline_at d rest (saved_pipeline save) else p
  | [] => p
  end.

Definition same_but_scopes (t t' : ScopeTracker) : Prop :=
  depth t' = depth t ∧ paren_receiver t' = paren_receiver t ∧ tilde_open t' = tilde_open t
  ∧ brace_binder_open t' = brace_binder_open t ∧ call_return t' = call_return t
  ∧ est_stack t' = est_stack t ∧ ref_stack t' = ref_stack t ∧ binder_saves t' = binder_saves t
  ∧ scope_maps t' = scope_maps t.

Lemma restore_scope_effect t save rest :
  let t' := t <| scope_saves := rest |> <| cur_class := prev_cur_class save |>
              <| rel_explicit := prev_rel_explicit save |>
              <| saw_tilde_bracket := prev_saw_tilde_bracket save |> in
  same_but_scopes t t' ∧ scope_saves t' = rest ∧ pipeline t' = saved_pipeline save.
Proof. unfold same_but_scopes, pipeline, saved_pipeline, scope_maps. cbn. by split_and!. Qed.

Lemma restore_scopes_effect saves t :
  scope_saves t = saves →
  same_but_scopes t (restore_scopes saves t)
  ∧ scope_saves (restore_scopes saves t) = outer scope_depth (depth t) saves
  ∧ pipeline (restore_scopes saves t) = pipeline_at (depth t) saves (pipeline t).
Proof.
  revert t. induction saves as [|save rest IH]; intros t E; cbn [restore_scopes outer pipeline_at].
  { by split_and!. }
  destruct (scope_depth save =? depth t)%nat eqn:Hd; [|by split_and!].
  destruct (restore_scope_effect t save rest) as ((Ed & H1) & H0 & H2).
  destruct (IH _ H0) as (H3 & H4 & H5). rewrite Ed, H2 in *. clear Ed H0 H2 IH.
  split_and!; [|done..]. unfold same_but_scopes in *. naive_solver congruence.
Qed.

Lemma close_call_effect t :
  skeleton (close_call t) = skeleton t ∧ pipeline (close_call t) = pipeline t.
Proof. by split. Qed.

Definition n_close (n : Nest) : Nest := {|
  n_depth := pred (n_depth n); n_paren := tail (n_paren n); n_tilde := tail (n_tilde n);
  n_brace := tail (n_brace n); n_call := tail (n_call n);
  n_est := pop_depth (n_est n) (n_depth n); n_ref := pop_depth (n_ref n) (n_depth n);
  n_binders := n_binders n; n_scopes := n_scopes n |}.

Lemma close_delimiter_effect t :
  nest (close_delimiter t) = n_close (nest t)
  ∧ scope_maps (close_delimiter t) = scope_maps t
  ∧ pipeline (close_delimiter t)
    = if bool_decide (head (est_stack t) = Some (depth t)) then (None, true, saw_tilde_bracket t) else pipeline t.
Proof.
  split_and!; [reflexivity..|]. unfold pipeline, close_delimiter. cbn.
  case_bool_decide; [by rewrite orb_true_r|by rewrite orb_false_r].
Qed.

(** The whole of a closing delimiter. *)
Lemma on_close_effect t :
  nest (on_close t) = n_close (n_outer (nest t))
  ∧ scope_maps (on_close t) = put_back_at (depth t) (binder_saves t) (scope_maps t)
  ∧ pipeline (on_close t)
    = (let p := pipeline_at (depth t) (scope_saves t) (pipeline t) in
       if bool_decide (head (est_stack t) = Some (depth t)) then (None, true, p.2) else p).
Proof.
  unfold on_close. destruct (close_call_effect t) as [E0 P0].
  pose proof (f_equal fst E0) as N0. pose proof (f_equal snd E0) as M0. cbn [fst snd skeleton] in N0, M0. clear E0.
  set (t0 := close_call t) in *. clearbody t0.
  destruct (restore_binders_effect (binder_saves t0) t0 eq_refl) as (S1 & B1 & M1).
  fold (unwind_binders t0) in S1, B1, M1. set (t1 := unwind_binders t0) in *. clearbody t1.
  destruct (restore_scopes_effect (scope_saves t1) t1 eq_refl) as (S2 & B2 & P2).
  fold (unwind_scopes t1) in S2, B2, P2. set (t2 := unwind_scopes t1) in *. clearbody t2.
  destruct (close_delimiter_effect t2) as (N3 & M3 & P3). rewrite N3, M3, P3. clear N3 M3 P3.
  injection N0 as ??????? ??. destruct S1 as (?&?&?&?&?&?&?&?&?&?&?), S2 as (?&?&?&?&?&?&?&?&?).
  assert (pipeline t1 = pipeline t0) as P1 by (unfold pipeline; congruence).
  split_and!.
  - unfold n_close, n_outer, nest. cbn. f_equal; congruence.
  - congruence.
  - assert (saw_tilde_bracket t2 = (pipeline t2).2) as -> by done. rewrite P2, P1, P0. cbn zeta.
    assert (est_stack t2 = est_stack t) as -> by congruence. assert (depth t2 = depth t) as -> by congruence.
    by assert (scope_saves t1 = scope_saves t ∧ depth t1 = depth t) as [-> ->] by (split; congruence).
Qed.

Lemma tail_pred {A} (l : list A) n : length l = n → length (tail l) = pred n.
Proof. intros <-. by destruct l. Qed.

Lemma on_close_nested t : well_nested t → well_nested (on_close t).
Proof.
  intros [Hp Ht Hb Hc [He He0] [Hr Hr0] Hbs Hss]. unfold well_nested. destruct (on_close_effect t) as (-> & _ & _).
  cbn in *. split; cbn.
  1-4: by apply tail_pred.
  - by apply nested_pop_depth.
  - by apply nested_pop_depth.
  - by apply nested_outer.
  - by apply nested_outer.
Qed.

Lemma on_lexeme_nested t lex bytes st s : well_nested t → well_nested (on_lexeme t lex bytes st s).1.
Proof.
  intros H. destruct (is_neutral lex) eqn:E.
  - pose proof (f_equal fst (on_lexeme_skeleton t lex bytes st s E)) as En. cbn [fst skeleton] in En.
    unfold well_nested. by rewrite En.
  - destruct lex; try discriminate; cbn [on_lexeme fst];
      auto using on_open_nested, on_close_nested, on_pipe_nested.
Qed.

(** ** One lexeme *)

Lemma dispatch_token_nested t bytes st s : well_nested t → well_nested (dispatch_token t bytes st s).
Proof.
  intros H. destruct (dispatch_token_cases t bytes st s) as [[_ ->]|[_ ->]]; [done|].
  unfold well_nested. pose proof (f_equal fst (disarm_skeleton (on_lexeme t (classify_at bytes st) bytes st s).1
    (classify_at bytes st) bytes st (on_lexeme t (classify_at bytes st) bytes st s).2)) as E.
  cbn [fst skeleton] in E. rewrite E. by apply on_lexeme_nested.
Qed.

(** ** Lexical scope of binders *)

(** The maps once every save deeper than [d] is put back. *)
Fixpoint undo (d : nat) (saves : list BinderSave) (m : ScopeMaps) : ScopeMaps :=
  match saves with
  | save :: rest => if (d <? binder_depth save)%nat then undo d rest (put_back m save) else m
  | [] => m
  end.

Definition undone (d : nat) (t : ScopeTracker) : ScopeMaps := undo d (binder_saves t) (scope_maps t).

Lemma undo_mono d saves m m' : maps_le m m' → maps_le (undo d saves m) (undo d saves m').
Proof.
  revert m m'. induction saves as [|save rest IH]; intros m m' H; cbn; [done|].
  case_match; [by apply IH, put_back_mono|done].
Qed.

Lemma undo_outer d e saves m :
  d < e → undo d saves m = undo d (outer binder_depth e saves) (put_back_at e saves m).
Proof.
  intros H. revert m. induction saves as [|save rest IH]; intros m; cbn [undo outer put_back_at]; [done|].
  destruct (Nat.eqb_spec (binder_depth save) e) as [E|]; [|done].
  rewrite E. assert ((d <? e)%nat = true) as -> by by apply Nat.ltb_lt. apply IH.
Qed.

Lemma undone_frame d t t' : skeleton t' = skeleton t → undone d t' = undone d t.
Proof.
  intros E. unfold undone. pose proof (f_equal (λ x, n_binders x.1) E) as E1. pose proof (f_equal snd E) as E2.
  cbn in E1, E2. by rewrite E1, E2.
Qed.

Lemma undone_pipe d t t' : d < depth t → pipe_effect t t' → maps_le (undone d t') (undone d t).
Proof.
  intros Hd [E|(save & Hs & Hn & Hm)]; [by rewrite (undone_frame d t t' E)|].
  pose proof (f_equal n_binders Hn) as Hb. cbn in Hb. unfold undone. rewrite Hb. cbn [undo].
  rewrite Hs. assert ((d <? depth t)%nat = true) as -> by by apply Nat.ltb_lt. by apply undo_mono.
Qed.

Lemma undone_close d t : d < depth t → undone d (on_close t) = undone d t.
Proof.
  intros Hd. destruct (on_close_effect t) as (N & M & _). pose proof (f_equal n_binders N) as B.
  cbn [n_binders nest n_close n_outer n_depth] in B. unfold undone. rewrite B, M. by rewrite <-undo_outer.
Qed.

Lemma undone_dispatch d t bytes st s :
  d < depth t → maps_le (undone d (dispatch_token t bytes st s)) (undone d t).
Proof.
  intros Hd. destruct (dispatch_token_cases t bytes st s) as [[_ ->]|[_ ->]]; [done|].
  rewrite (undone_frame d _ _ (disarm_skeleton _ _ _ _ _)).
  destruct (is_neutral (classify_at bytes st)) eqn:E.
  { by rewrite (undone_frame d _ _ (on_lexeme_skeleton t _ bytes st s E)). }
  destruct (classify_at bytes st); try discriminate; cbn [on_lexeme fst].
  - destruct (on_pipe_cases t st) as [->| ->]; [done|]. by apply (undone_pipe d (pipe_saved t)), bind_lambda_effect.
  - done.
  - by rewrite undone_close.
Qed.

(** The saves of a well-nested tracker are no deeper than it is. *)
Lemma undone_here t : well_nested t → undone (depth t) t = scope_maps t.
Proof.
  intros [_ _ _ _ _ _ [_ Hb] _]. unfold undone. cbn in Hb. destruct (binder_saves t) as [|save rest]; [done|].
  cbn [undo]. apply Forall_cons in Hb as [Hle _]. destruct (Nat.ltb_spec (depth t) (binder_depth save)); [lia|done].
Qed.

(** A lexeme inside a delimiter opened at depth [d]. *)
Definition inner_step (s : Schema) (d : nat) (t t' : ScopeTracker) : Prop :=
  d < depth t ∧ ∃ bytes st, t' = dispatch_token t bytes st s.

Lemma undone_inner s d t t' : rtc (inner_step s d) t t' → maps_le (undone d t') (undone d t).
Proof.
  induction 1 as [|t t1 t2 (Hd & bytes & st & ->) _ IH]; [done|]. etrans; [exact IH|]. by apply undone_dispatch.
Qed.

Lemma inner_nested s d t t' : rtc (inner_step s d) t t' → well_nested t → well_nested t'.
Proof. induction 1 as [|t t1 t2 (_ & bytes & st & ->) _ IH]; eauto using dispatch_token_nested. Qed.

(** *** Lexical scope of pipelines *)

(** The pipeline [p] is the one to be restored at the close of depth [S d]. *)
Definition saved_at (d : nat) (p : Pipeline) (t : ScopeTracker) : Prop :=
  ∃ inner save outside,
    scope_saves t = inner ++ save :: outside
    ∧ scope_depth save = S d ∧ saved_pipeline save = p
    ∧ Forall (λ x, scope_depth x ≤ d) outside ∧ Forall (λ x, d < scope_depth x) inner.

Lemma outer_app_keep {A} (f : A → nat) e l x r : f x ≠ e → ∃ l', outer f e (l ++ x :: r) = l' ++ x :: r ∧ l' `suffix_of` l.
Proof.
  intros H. induction l as [|y l (l' & IH & Hs)]; cbn.
  - exists []. apply Nat.eqb_neq in H. by rewrite H.
  - case_match; [exists l'; split; [done|by apply suffix_cons_r]|]. by exists (y :: l).
Qed.

Lemma saved_at_close d p t : S d < depth t → saved_at d p t → saved_at d p (on_close t).
Proof.
  intros Hd (inner & save & outside & Hs & Hsd & Hp & Ho & Hi).
  destruct (on_close_effect t) as (N & _). apply (f_equal n_scopes) in N.
  cbn [n_scopes nest n_close n_outer n_depth] in N. rewrite Hs in N.
  destruct (outer_app_keep scope_depth (depth t) inner save outside) as (inner' & E & [k ->]); [lia|].
  exists inner', save, outside. apply Forall_app in Hi as [_ Hi]. split_and!; [congruence|done..].
Qed.

Lemma saved_at_eq d p t t' : scope_saves t' = scope_saves t → saved_at d p t → saved_at d p t'.
Proof. unfold saved_at. by intros ->. Qed.

Lemma scopes_of_skeleton t t' : skeleton t' = skeleton t → scope_saves t' = scope_saves t.
Proof. exact (f_equal (λ x : Nest * ScopeMaps, n_scopes x.1) (x:=_) (y:=_)). Qed.

Lemma bind_lambda_scopes t : scope_saves (bind_lambda t) = scope_saves t.
Proof.
  destruct (bind_lambda_effect t) as [E|(save & _ & E & _)]; [by apply scopes_of_skeleton|exact (f_equal n_scopes E)].
Qed.

Lemma pipe_depth t st : depth (on_pipe t st) = depth t.
Proof.
  destruct (on_pipe_cases t st) as [->| ->]; [done|].
  destruct (bind_lambda_effect (pipe_saved t)) as [E|(save & _ & E & _)].
  - exact (f_equal (λ x : Nest * ScopeMaps, n_depth x.1) E).
  - exact (f_equal n_depth E).
Qed.

Lemma saved_at_pipe d p t st : d < depth t → saved_at d p t → saved_at d p (on_pipe t st).
Proof.
  intros Hd H. destruct (on_pipe_cases t st) as [->| ->]; [done|].
  apply saved_at_eq with (pipe_saved t).
  - apply bind_lambda_scopes.
  - destruct H as (inner & save & outside & Hs & Hsd & Hp & Ho & Hi).
    eexists (_ :: inner), save, outside. cbn [pipe_saved scope_saves update]. rewrite Hs.
    split_and!; [reflexivity|done..|]. by constructor.
Qed.

Lemma disarm_depth t lex bytes st r : depth (disarm t lex bytes st r) = depth t.
Proof. reflexivity. Qed.

Lemma close_depth t : depth (on_close t) = pred (depth t).
Proof. destruct (on_close_effect t) as (N & _). exact (f_equal n_depth N). Qed.

Lemma saved_at_dispatch d p t bytes st s :
  d < depth t → d < depth (dispatch_token t bytes st s) →
  saved_at d p t → saved_at d p (dispatch_token t bytes st s).
Proof.
  intros Hd Hd' H. destruct (dispatch_token_cases t bytes st s) as [[_ E]|[_ E]]; rewrite E in *; [done|].
  rewrite disarm_depth in Hd'. apply (saved_at_eq _ _ _ _ (scopes_of_skeleton _ _ (disarm_skeleton _ _ _ _ _))).
  destruct (is_neutral (classify_at bytes st)) eqn:En.
  { by apply (saved_at_eq _ _ _ _ (scopes_of_skeleton _ _ (on_lexeme_skeleton t _ bytes st s En))). }
  destruct (classify_at bytes st); try discriminate; cbn [on_lexeme fst] in *.
  - by apply saved_at_pipe.
  - by apply saved_at_eq with t.
  - rewrite close_depth in Hd'. apply saved_at_close; [lia|done].
Qed.

Lemma saved_at_inner s d p t t' :
  rtc (inner_step s d) t t' → d < depth t' → saved_at d p t → saved_at d p t'.
Proof.
  induction 1 as [|t t1 t2 (Hd & bytes & st & ->) H IH]; intros Hd' Hs; [done|]. apply IH; [done|].
  apply saved_at_dispatch; [done| |done]. inversion H as [|? ? ? (? & _)]; by subst.
Qed.

(** A pipe opens the body, the close of its delimiter restores the pipeline. *)
Lemma saved_at_first d t :
  depth t = S d → Forall (λ x, scope_depth x ≤ d) (scope_saves t) → saved_at d (pipeline t) (pipe_saved t).
Proof.
  intros Hd H. eexists [], _, (scope_saves t). split_and!; [reflexivity|done..|constructor].
Qed.

Lemma pipeline_at_all e saves p :
  Forall (λ x, scope_depth x = e) saves → ∀ save outside,
    scope_depth save = e → Forall (λ x, scope_depth x < e) outside →
    pipeline_at e (saves ++ save :: outside) p = saved_pipeline save.
Proof.
  intros H save outside Hs Ho. revert p. induction H as [|x l Hx _ IH]; intros p; cbn [pipeline_at app].
  - rewrite Hs, Nat.eqb_refl. destruct Ho as [|y l Hy]; [done|]. cbn. by destruct (Nat.eqb_spec (scope_depth y) e); [lia|].
  - by rewrite Hx, Nat.eqb_refl.
Qed.

Lemma saved_at_restore d p t :
  well_nested t → depth t = S d → saved_at d p t →
  pipeline_at (depth t) (scope_saves t) (pipeline t) = p.
Proof.
  intros [_ _ _ _ _ _ _ [_ Hle]] Hd (inner & save & outside & Hs & Hsd & <- & Ho & Hi).
  cbn [nest n_scopes n_depth] in Hle. rewrite Hs, Hd in *. apply pipeline_at_all; [|done|].
  - rewrite fmap_app in Hle. apply Forall_app in Hle as [Hle _]. rewrite Forall_fmap in Hle.
    apply Forall_forall. intros x Hx. rewrite Forall_forall in Hle, Hi. specialize (Hle x Hx). specialize (Hi x Hx).
    cbn in Hle. lia.
  - eapply Forall_impl; [exact Ho|]. cbn. lia.
Qed.

(** *** At the delimiters *)

Lemma undone_open t bytes st s :
  depth (dispatch_token t bytes st s) = S (depth t) →
  undone (depth t) (dispatch_token t bytes st s) = undone (depth t) t.
Proof.
  destruct (dispatch_token_cases t bytes st s) as [[_ ->]|[_ ->]]; [done|]. rewrite disarm_depth.
  rewrite (undone_frame _ _ _ (disarm_skeleton _ _ _ _ _)).
  destruct (is_neutral (classify_at bytes st)) eqn:E.
  { by rewrite (undone_frame _ _ _ (on_lexeme_skeleton t _ bytes st s E)). }
  destruct (classify_at bytes st); try discriminate; cbn [on_lexeme fst]; [|done|].
  - rewrite pipe_depth. lia.
  - rewrite close_depth. lia.
Qed.

(** The pipe of a lambda saves the pipeline it stands in. *)
Lemma pipe_saves t d bytes st s :
  depth t = S d → Forall (λ x, scope_depth x ≤ d) (scope_saves t) →
  classify_at bytes st = Lex.Pipe → st ≠ Start → st ≠ ExpectSource →
  saved_at d (pipeline t) (dispatch_token t bytes st s).
Proof.
  intros Hd Hs Hp H1 H2. destruct (dispatch_token_cases t bytes st s) as [[Hw _]|[_ ->]]; [congruence|].
  apply (saved_at_eq _ _ _ _ (scopes_of_skeleton _ _ (disarm_skeleton _ _ _ _ _))).
  rewrite Hp. cbn [on_lexeme fst].
  assert (on_pipe t st = bind_lambda (pipe_saved t)) as -> by by destruct st.
  apply saved_at_eq with (pipe_saved t); [apply bind_lambda_scopes|by apply saved_at_first].
Qed.

Lemma disarm_pipeline t lex bytes st r : pipeline (disarm t lex bytes st r) = pipeline t.
Proof. reflexivity. Qed.

Lemma dispatch_close t bytes st s :
  classify_at bytes st = Lex.Close → pipeline (dispatch_token t bytes st s) = pipeline (on_close t).
Proof.
  intros Hc. destruct (dispatch_token_cases t bytes st s) as [[Hw _]|[_ ->]]; [congruence|].
  by rewrite disarm_pipeline, Hc.
Qed.
