(* ===== verification/ScopeWalk.v ===== *)
(** * Tokens and the scope tracker

    [observe] walks a token alongside the automaton and cuts it into lexemes.
    This file lifts the laws of one lexeme to tokens: what is an invariant of
    every lexeme is one of every token; on a live stream the tracker is in step
    with the automaton; and a token cut inside a lexeme changes nothing. *)

From stdpp Require Import gmap.
From S2P Require Import Prelude StackMachine PdaState PdaStep Pda Utf8 Schema Position Narrow Scope ScopeNest.

(** ** A token is a run of lexemes *)

(** A relation on trackers that every lexeme and every change of the open
    lexeme is in. *)
Class TokenLaw (R : relation ScopeTracker) (s : Schema) : Prop := {
  token_law_preorder :: PreOrder R;
  token_law_dispatch t bytes st : R t (dispatch_token t bytes st s);
  token_law_pending t p : R t (t <| pending := p |>);
}.

Section token.
Context (R : relation ScopeTracker) (s : Schema) `{!TokenLaw R s}.

Lemma emit_lexeme_law t seg st continuing : R t (emit_lexeme t seg st continuing s).
Proof.
  unfold emit_lexeme. destruct (pending t); [|apply token_law_dispatch].
  destruct continuing; [|apply token_law_dispatch].
  transitivity (take_pending t); [apply token_law_pending|apply token_law_dispatch].
Qed.

Lemma flush_rounds_law fuel t rest st : R t (flush_rounds fuel t rest st s).
Proof.
  revert t rest. induction fuel as [|fuel IH]; intros t rest; cbn [flush_rounds]; [done|].
  destruct rest as [|b tl]; [done|]. destruct (is_ascii_whitespace b); [apply IH|].
  etrans; [|apply IH]. apply token_law_dispatch.
Qed.

Lemma buffer_trailing_law t k seg st continuing : R t (buffer_trailing t k seg st continuing).
Proof.
  unfold buffer_trailing. destruct continuing; [destruct (pending t); [|done]|]; apply token_law_pending.
Qed.

Lemma walk_segment_law w next b : R (walk_tracker w) (walk_tracker (walk_segment w next b s)).
Proof.
  unfold walk_segment. destruct (lexeme_kind (walk_state w)).
  - destruct (bool_decide _); [done|apply emit_lexeme_law].
  - destruct (bool_decide _); [apply flush_rounds_law|done].
Qed.

Lemma walk_finish_law w : R (walk_tracker w) (walk_finish w s).
Proof. unfold walk_finish. destruct (lexeme_kind _); [apply buffer_trailing_law|apply flush_rounds_law]. Qed.

Lemma walk_law w bytes : R (walk_tracker w) (walk w bytes s).
Proof.
  revert w. induction bytes as [|b bytes IH]; intros w; cbn [walk]; [apply walk_finish_law|].
  destruct (step1 _ b) as [[next stack]|]; [|done].
  etrans; [apply (walk_segment_law w next b)|].
  apply (IH (walk_move (walk_segment w next b s) next stack)).
Qed.

Lemma observe_law t bytes pre : R t (observe t bytes pre s).
Proof.
  unfold observe. etrans; [|apply walk_law]. unfold walk_init. cbn [walk_tracker].
  destruct (pending t) as [p|]; [|done]. destruct (bool_decide _); [done|].
  transitivity (take_pending t); [apply token_law_pending|apply token_law_dispatch].
Qed.
End token.

(** ** The laws *)

Definition stream_grows (t t' : ScopeTracker) : Prop :=
  emitted_strings t `prefix_of` emitted_strings t' ∧ bound_vars t `prefix_of` bound_vars t'.

#[global] Instance stream_grows_law s : TokenLaw stream_grows s.
Proof.
  split.
  - split; [by intros t|]. intros t1 t2 t3 (?&?) (?&?). by split; etrans.
  - intros t bytes st. apply dispatch_token_grows.
  - done.
Qed.

(** An invariant, as a relation. *)
Definition kept (P : ScopeTracker → Prop) (t t' : ScopeTracker) : Prop := P t → P t'.

#[global] Instance kept_preorder P : PreOrder (kept P).
Proof. unfold kept. split; [intros t Ht; exact Ht|intros t1 t2 t3; auto]. Qed.

#[global] Instance nested_law s : TokenLaw (kept well_nested) s.
Proof.
  split.
  - apply _.
  - intros t bytes st. exact (dispatch_token_nested t bytes st s).
  - intros t p H. exact H.
Qed.

(** *** The variables can be spelled *)

(** A name as the automaton reads one behind a [$]: it begins as an identifier
    does and goes on with identifier bytes. *)
Definition spelled (name : list byte) : Prop :=
  ∃ b rest, name = b :: rest ∧ is_ident_start b = true ∧ Forall (λ c, is_ident_tail c = true) name.

Definition vars_spelled (t : ScopeTracker) : Prop :=
  NoDup (bound_vars t) ∧ Forall (λ name, spelled (text name)) (bound_vars t).

(** The lexemes that are identifiers begin as one. *)
Definition starts_ident (bytes : list byte) : Prop := ∃ b rest, bytes = b :: rest ∧ is_ident_start b = true.

Lemma classify_ident_inv bytes name : classify bytes = Lex.Ident name → name = bytes ∧ starts_ident bytes.
Proof.
  destruct bytes as [|b rest]; [done|]. unfold classify.
  repeat match goal with
  | |- (if is_ident_start b && _ then _ else _) = _ → _ => destruct (is_ident_start b) eqn:Hb; [|done]
  | |- (if ?c then _ else _) = _ → _ => destruct c; try done
  end.
  intros [= <-]. split; [done|]. by exists b, rest.
Qed.

Lemma classify_at_ident bytes st name : classify_at bytes st = Lex.Ident name → starts_ident name.
Proof.
  assert (∀ bs, classify bs = Lex.Ident name → starts_ident name) as Hc by (by intros bs [-> ?]%classify_ident_inv).
  unfold classify_at. destruct (pending_operator_byte st); [|by apply Hc].
  destruct bytes as [|c [|]]; [by apply Hc| |by apply Hc]. destruct (is_two_byte_op _ _); by apply Hc.
Qed.

Lemma bind_var_spelled t name : starts_ident (text name) → vars_spelled t → vars_spelled (bind_var t name).
Proof.
  intros (b & rest & Hname & Hb) [Hn Hf]. unfold bind_var. destruct (forallb is_ident_tail (text name)) eqn:Hs; [|done].
  cbn [negb]. destruct (named (bound_vars t) name) eqn:Hm; [done|].
  unfold vars_spelled. cbn [bound_vars update]. split.
  - apply NoDup_app. split_and!; [done| |apply NoDup_singleton]. intros x Hx ->%list_elem_of_singleton.
    unfold named in Hm. apply not_true_iff_false in Hm. apply Hm, existsb_exists.
    exists name. split; [by apply list_elem_of_In|apply String.eqb_refl].
  - apply Forall_app. split; [done|]. apply Forall_singleton. exists b, rest. split_and!; [done..|].
    apply Forall_forall. intros c Hc. rewrite forallb_forall in Hs. apply Hs. by apply list_elem_of_In.
Qed.

Lemma vars_frame t t' : bound_vars t' = bound_vars t → vars_spelled t → vars_spelled t'.
Proof. unfold vars_spelled. by intros ->. Qed.

Lemma record_vars t t' : record t' = record t → bound_vars t' = bound_vars t.
Proof. exact (f_equal (λ x : option Pending * list (list byte) * list string, x.2) (x:=_) (y:=_)). Qed.

Lemma binder_candidate_spelled t name :
  starts_ident (text name) → vars_spelled t → vars_spelled (binder_candidate t name).
Proof. intros Hname H. by apply bind_var_spelled. Qed.

Lemma on_ident_at_spelled t name st s :
  starts_ident (text name) → vars_spelled t → vars_spelled (on_ident_at t name st s).1.
Proof.
  intros Hname H. unfold on_ident_at. destruct st; try exact H; cbn [fst];
    auto using binder_candidate_spelled, bind_var_spelled;
    try (eapply vars_frame; [apply record_vars, resolve_member_record|exact H]);
    repeat case_match; auto using binder_candidate_spelled.
Qed.

Lemma on_ident_spelled t bytes st s :
  starts_ident bytes → vars_spelled t → vars_spelled (on_ident t bytes st s).1.
Proof.
  intros Hname H. unfold on_ident.
  assert (vars_spelled (ident_source t (as_str bytes) st s)) as H1
    by (unfold ident_source; by destruct (has_class s _)).
  apply (on_ident_at_spelled _ (as_str bytes) st s) in H1;
    [|unfold as_str, text; by rewrite String.list_byte_of_string_of_list_byte].
  destruct (on_ident_at _ _ st s) as [t' r]. cbn [fst] in *.
  apply (vars_frame (ident_column t' bytes st)); [done|].
  apply (vars_frame t'); [|done]. unfold ident_column. by destruct (_ || _).
Qed.

Lemma on_lexeme_spelled t lex bytes st s :
  (∀ name, lex = Lex.Ident name → starts_ident name) →
  vars_spelled t → vars_spelled (on_lexeme t lex bytes st s).1.
Proof.
  intros Hname H. destruct lex; cbn [on_lexeme fst]; auto using on_ident_spelled;
    (eapply vars_frame; [|exact H]); try done;
    first [ by destruct (last_nav t) as [[]|]
          | apply record_vars; auto using on_dot_record, on_arrow_record, on_pipe_record, on_close_record ].
Qed.

#[global] Instance spelled_law s : TokenLaw (kept vars_spelled) s.
Proof.
  split.
  - apply _.
  - intros t bytes st H. destruct (dispatch_token_cases t bytes st s) as [[_ ->]|[_ ->]]; [done|].
    apply (vars_frame (on_lexeme t (classify_at bytes st) bytes st s).1), on_lexeme_spelled; [done| |done].
    intros name. apply classify_at_ident.
  - intros t p H. exact H.
Qed.

(** ** Delimiters *)

Definition is_open_byte (b : byte) : bool := contains_byte b (text "([{").
Definition is_close_byte (b : byte) : bool := contains_byte b (text ")]}").

(** How a byte of the automaton nests, and where. *)
Definition nests_at (st : State) (top : option Frame) (b : byte) : bool :=
  match step st top b with
  | Next st' =>
      match lexeme_kind st' with
      | Some k => bool_decide (lexeme_kind st = Some k) || negb (is_open_byte b || is_close_byte b)
      | None => negb (is_open_byte b || is_close_byte b)
      end
  | Push _ st' => bool_decide (lexeme_kind st' = None) && is_open_byte b
  | Pop st' => bool_decide (lexeme_kind st' = None) && is_close_byte b && negb (is_open_byte b)
  | Dead => true
  end.

Lemma transitions_nest : forall_transitions nests_at = true.
Proof. vm_compute. reflexivity. Qed.

(** The depth after one byte that is a lexeme of its own. *)
Definition byte_depth (d : nat) (b : byte) : nat :=
  if is_open_byte b then S d else if is_close_byte b then pred d else d.

Lemma step1_nests st stack b st' stack' :
  step1 (st, stack) b = Some (st', stack') →
  match lexeme_kind st' with
  | Some k =>
      length stack' = length stack
      ∧ (lexeme_kind st = Some k ∨ is_open_byte b = false ∧ is_close_byte b = false)
  | None => length stack' = byte_depth (length stack) b
  end.
Proof.
  pose proof (forall_transitions_spec _ transitions_nest st (head stack) b) as H.
  unfold nests_at in H. unfold step1, sm_step, pda_machine, byte_depth. cbn [fst snd].
  destruct (step st (head stack) b) as [s1|f s1|s1|] eqn:E; [| | |done]; intros [= <- <-];
    destruct (lexeme_kind s1) as [k|] eqn:Ek; try discriminate.
  - split; [done|]. apply orb_true_iff in H as [H|H]; [left; by apply bool_decide_eq_true in H|right].
    by apply negb_true_iff, orb_false_iff in H.
  - apply negb_true_iff, orb_false_iff in H as [-> ->]. done.
  - apply andb_true_iff in H as [_ ->]. done.
  - apply andb_true_iff in H as [H Ho]. apply andb_true_iff in H as [_ ->]. apply negb_true_iff in Ho as ->.
    destruct stack; [|done]. exfalso. eapply pop_has_frame. exact E.
Qed.

(** Only a single byte is a delimiter. *)
Definition delimits (lex : Lex.Lexeme) (d : nat) : nat :=
  match lex with Lex.Open => S d | Lex.Close => pred d | _ => d end.

Definition byte_delimits (st : State) (b : byte) : bool :=
  match classify_at [b] st with
  | Lex.Open => is_open_byte b
  | Lex.Close => is_close_byte b && negb (is_open_byte b)
  | _ => negb (is_open_byte b || is_close_byte b)
  end.

Lemma bytes_delimit : forallb (λ st, forallb (byte_delimits st) all_bytes) ALL_STATES = true.
Proof. vm_compute. reflexivity. Qed.

Lemma one_of_long (names : list string) (a b : byte) l :
  forallb (λ n, (String.length n <=? 1)%nat) names = true → one_of names (a :: b :: l) = false.
Proof.
  intros H. apply not_true_iff_false. intros Ho. unfold one_of in Ho. apply existsb_exists in Ho as (n & Hn & He).
  unfold same_bytes in He. apply bool_decide_eq_true in He. rewrite forallb_forall in H. specialize (H n Hn).
  destruct n as [|c [|d n]]; [done|done|]. by apply Nat.leb_le in H; cbn in H; lia.
Qed.

Lemma classify_long (a b : byte) l :
  classify (a :: b :: l) ≠ Lex.Open ∧ classify (a :: b :: l) ≠ Lex.Close.
Proof.
  unfold classify. rewrite (one_of_long ["("; "["; "{"]), (one_of_long [")"; "]"; "}"]) by reflexivity.
  repeat case_match; done.
Qed.

Lemma classify_delimits bytes st d :
  delimits (classify_at bytes st) d = match bytes with [b] => byte_depth d b | _ => d end.
Proof.
  destruct bytes as [|a [|b l]].
  - unfold classify_at. by destruct (pending_operator_byte st).
  - pose proof bytes_delimit as H. rewrite forallb_forall in H. specialize (H st (ALL_STATES_complete st)).
    rewrite forallb_forall in H. specialize (H a (all_bytes_complete a)). unfold byte_delimits in H.
    unfold byte_depth. destruct (classify_at [a] st); cbn [delimits];
      try (apply negb_true_iff, orb_false_iff in H as [-> ->]; done).
    + by rewrite H.
    + apply andb_true_iff in H as [-> H]. apply negb_true_iff in H as ->. done.
  - assert (classify_at (a :: b :: l) st = classify (a :: b :: l)) as -> by
      (unfold classify_at; by destruct (pending_operator_byte st)).
    destruct (classify_long a b l). by destruct (classify (a :: b :: l)).
Qed.

Lemma on_lexeme_depth t lex bytes st s : depth (on_lexeme t lex bytes st s).1 = delimits lex (depth t).
Proof.
  destruct (is_neutral lex) eqn:E.
  - transitivity (depth t); [|by destruct lex].
    exact (f_equal (λ x, n_depth x.1) (on_lexeme_skeleton t lex bytes st s E)).
  - destruct lex; try discriminate; cbn [on_lexeme fst delimits]; [apply pipe_depth|done|apply close_depth].
Qed.

Lemma dispatch_depth t bytes st s :
  depth (dispatch_token t bytes st s) = match bytes with [b] => byte_depth (depth t) b | _ => depth t end.
Proof.
  rewrite <-(classify_delimits bytes st). destruct (dispatch_token_cases t bytes st s) as [[-> ->]|[_ ->]]; [done|].
  rewrite disarm_depth. apply on_lexeme_depth.
Qed.

(** A gap nests as its bytes do. *)
Definition gap_depth (d : nat) (bytes : list byte) : nat := foldl byte_depth d bytes.

Lemma gap_depth_plain d bytes :
  Forall (λ b, is_open_byte b || is_close_byte b = false) bytes → gap_depth d bytes = d.
Proof.
  induction 1 as [|b l Hb _ IH]; [done|]. cbn. unfold byte_depth. by apply orb_false_iff in Hb as [-> ->].
Qed.

Definition op_bytes_plain (a b : byte) : bool :=
  negb (is_two_byte_op a b) || negb (is_open_byte a || is_close_byte a || (is_open_byte b || is_close_byte b)).
Lemma two_byte_ops_plain : forallb (λ a, forallb (op_bytes_plain a) all_bytes) all_bytes = true.
Proof. vm_compute. reflexivity. Qed.

Definition plain_class (b : byte) : bool :=
  negb (is_ident_tail b || (b =? ":")%u8 || is_ascii_whitespace b) || negb (is_open_byte b || is_close_byte b).
Lemma idents_plain : forallb plain_class all_bytes = true.
Proof. vm_compute. reflexivity. Qed.

Lemma plain_byte b :
  is_ident_tail b || (b =? ":")%u8 || is_ascii_whitespace b = true → is_open_byte b || is_close_byte b = false.
Proof.
  intros H. pose proof (forallb_bytes _ idents_plain b) as P. unfold plain_class in P. rewrite H in P.
  by apply negb_true_iff in P.
Qed.

Lemma ident_run_tail rest : Forall (λ b, is_ident_tail b = true) (take (ident_run rest) rest).
Proof. induction rest as [|b l IH]; cbn; [done|]. destruct (is_ident_tail b) eqn:E; by constructor. Qed.

(** A piece of a gap is one byte, or holds no delimiter. *)
Lemma gap_piece b l :
  let n := gap_width (b :: l) in
  n ≠ 0 ∧ (n = 1 ∨ Forall (λ b, is_open_byte b || is_close_byte b = false) (take n (b :: l))).
Proof.
  cbn zeta. unfold gap_width. destruct l as [|y l]; [by auto|].
  destruct (is_two_byte_op b y) eqn:E.
  - split; [done|right]. pose proof two_byte_ops_plain as H. rewrite forallb_forall in H.
    specialize (H b (all_bytes_complete b)). rewrite forallb_forall in H. specialize (H y (all_bytes_complete y)).
    unfold op_bytes_plain in H. rewrite E in H. cbn [negb orb] in H.
    apply negb_true_iff, orb_false_iff in H as [? ?]. by repeat constructor.
  - destruct (is_ident_start b); [|by auto]. split; [lia|].
    destruct (Nat.max_spec (ident_run (b :: y :: l)) 1) as [[_ ->]|[_ ->]]; [by left|right].
    eapply Forall_impl; [apply ident_run_tail|]. intros x Hx. apply plain_byte. cbv beta in Hx. by rewrite Hx.
Qed.

Lemma dispatch_gap_depth t piece st s :
  length piece = 1 ∨ Forall (λ b, is_open_byte b || is_close_byte b = false) piece →
  depth (dispatch_token t piece st s) = gap_depth (depth t) piece.
Proof.
  intros H. rewrite dispatch_depth. destruct piece as [|a [|b l]]; [done..|].
  destruct H as [?|H]; [done|]. by rewrite gap_depth_plain.
Qed.

Lemma flush_rounds_depth fuel t rest st s :
  length rest ≤ fuel → depth (flush_rounds fuel t rest st s) = gap_depth (depth t) rest.
Proof.
  revert t rest. induction fuel as [|fuel IH]; intros t rest Hf; cbn [flush_rounds].
  { by destruct rest; cbn in Hf; [|lia]. }
  destruct rest as [|b l]; [done|]. cbn [length] in Hf. destruct (is_ascii_whitespace b) eqn:Hws.
  - rewrite IH by lia. cbn. unfold byte_depth. assert (is_open_byte b || is_close_byte b = false) as Hp
      by (apply plain_byte; by rewrite Hws, orb_true_r). by apply orb_false_iff in Hp as [-> ->].
  - pose proof (gap_piece b l) as [Hn Hp]. set (n := gap_width (b :: l)) in *. clearbody n.
    rewrite IH by (rewrite length_drop; cbn [length]; lia).
    rewrite dispatch_gap_depth.
    + unfold gap_depth. rewrite <-foldl_app. by rewrite take_drop.
    + destruct Hp as [->|Hp]; [by left|by right].
Qed.

Lemma dispatch_pending t bytes st s : pending (dispatch_token t bytes st s) = pending t.
Proof. apply dispatch_token_grows. Qed.

Lemma flush_rounds_pending fuel t rest st s : pending (flush_rounds fuel t rest st s) = pending t.
Proof.
  revert t rest. induction fuel as [|fuel IH]; intros t rest; cbn [flush_rounds]; [done|].
  destruct rest as [|b l]; [done|]. destruct (is_ascii_whitespace b); [apply IH|].
  by rewrite IH, dispatch_pending.
Qed.

(** ** The tracker in step with the automaton *)

Definition ident_byte (b : byte) : bool := is_ident_tail b || (b =? ":")%u8.

(** The bytes of an identifier, by its anchor. *)
Definition lexes_at (st : State) (top : option Frame) (b : byte) : bool :=
  match step st top b with
  | Next st' =>
      match lexeme_kind st' with
      | Some Ident =>
          ident_byte b
          && match st with AfterDollar | AfterDot => is_ident_start b | _ => true end
      | _ => true
      end
  | _ => true
  end.

Lemma transitions_lex : forall_transitions lexes_at = true.
Proof. vm_compute. reflexivity. Qed.

(** A run of bytes that is the beginning of a lexeme of kind [k]. *)
Definition opened (k : LexKind) (st : State) (seg : list byte) : Prop :=
  ∃ b l, seg = b :: l ∧ is_open_byte b = false ∧ is_close_byte b = false
    ∧ (k = Ident → Forall (λ b, ident_byte b = true) seg
                   ∧ (st = AfterDollar ∨ st = AfterDot → is_ident_start b = true)).

(** [Scope] after a token that [Pda] has folded. *)
Definition in_step (t : ScopeTracker) (p : Pda) : Prop :=
  depth t = length (pda_stack p)
  ∧ match pending t with
    | Some q => lexeme_kind (pda_state p) = Some (kind q) ∧ opened (kind q) (anchor q) (buf q)
    | None => lexeme_kind (pda_state p) = None
    end.

Definition walk_in_step (w : Walk) : Prop :=
  let t := walk_tracker w in
  match lexeme_kind (walk_state w) with
  | None =>
      gap_depth (depth t) (walk_seg w) = length (walk_stack w) ∧ pending t = None ∧ walk_continuing w = false
  | Some k =>
      depth t = length (walk_stack w)
      ∧ if walk_continuing w then
          ∃ q, pending t = Some q ∧ kind q = k ∧ walk_anchor w = anchor q ∧ opened k (anchor q) (buf q ++ walk_seg w)
        else pending t = None ∧ opened k (walk_anchor w) (walk_seg w)
  end.

Lemma step1_lexes st stack b st' stack' :
  step1 (st, stack) b = Some (st', stack') → lexeme_kind st' = Some Ident →
  ident_byte b = true ∧ (st = AfterDollar ∨ st = AfterDot → is_ident_start b = true).
Proof.
  pose proof (forall_transitions_spec _ transitions_lex st (head stack) b) as H.
  pose proof (forall_transitions_spec _ transitions_nest st (head stack) b) as H0.
  unfold lexes_at in H. unfold nests_at in H0. unfold step1, sm_step, pda_machine. cbn [fst snd].
  destruct (step st (head stack) b) as [s1|f s1|s1|] eqn:E; [| | |done]; intros [= <- _] Hk; rewrite Hk in *.
  - apply andb_true_iff in H as [H1 H2]. split; [done|]. by intros [-> | ->].
  - done.
  - by rewrite andb_false_l in H0.
Qed.

Lemma opened_first k st stack b st' stack' :
  step1 (st, stack) b = Some (st', stack') → lexeme_kind st' = Some k → lexeme_kind st ≠ Some k →
  opened k st [b].
Proof.
  intros H Hk Hne. pose proof (step1_nests _ _ _ _ _ H) as Hn. rewrite Hk in Hn.
  destruct Hn as [_ [?|[Ho Hc]]]; [done|]. exists b, []. split_and!; [done..|].
  intros ->. destruct (step1_lexes _ _ _ _ _ H Hk) as [H1 H2]. by repeat constructor.
Qed.

Lemma opened_more k a seg st stack b st' stack' :
  step1 (st, stack) b = Some (st', stack') → lexeme_kind st' = Some k → opened k a seg → opened k a (seg ++ [b]).
Proof.
  intros H Hk (b0 & l & -> & Ho & Hc & Hi). exists b0, (l ++ [b]). split_and!; [done..|].
  intros ->. destruct (Hi eq_refl) as [Hf Ha]. destruct (step1_lexes _ _ _ _ _ H Hk) as [H1 _].
  split; [|done]. apply Forall_app. split; [done|by apply Forall_singleton].
Qed.

(** A lexeme is no delimiter. *)
Lemma dispatch_opened t k a seg st s : opened k a seg → depth (dispatch_token t seg st s) = depth t.
Proof.
  intros (b & l & -> & Ho & Hc & _). rewrite dispatch_depth. destruct l; [|done].
  unfold byte_depth. by rewrite Ho, Hc.
Qed.

(** What [walk_segment] does, by the kinds of the two states. *)
Lemma emit_in_step w k s :
  lexeme_kind (walk_state w) = Some k → walk_in_step w →
  let t := emit_lexeme (walk_tracker w) (walk_seg w) (walk_anchor w) (walk_continuing w) s in
  depth t = length (walk_stack w) ∧ pending t = None.
Proof.
  unfold walk_in_step, emit_lexeme. intros ->. destruct (walk_continuing w).
  - intros (Hd & q & -> & _ & _ & Ho). rewrite (dispatch_opened _ _ _ _ _ _ Ho), dispatch_pending. done.
  - intros (Hd & Hp & Ho). rewrite Hp. cbn zeta. by rewrite (dispatch_opened _ _ _ _ _ _ Ho), dispatch_pending.
Qed.

Lemma flush_in_step w s :
  lexeme_kind (walk_state w) = None → walk_in_step w →
  let t := flush_gap (walk_tracker w) (walk_seg w) (walk_anchor w) s in
  depth t = length (walk_stack w) ∧ pending t = None.
Proof.
  unfold walk_in_step, flush_gap. intros ->. intros (Hd & Hp & _).
  by rewrite flush_rounds_depth, flush_rounds_pending.
Qed.

(** A new segment opens at [b]. *)
Lemma fresh_in_step w st stack b st' stack' :
  step1 (st, stack) b = Some (st', stack') →
  walk_state w = st' → walk_stack w = stack' → walk_seg w = [b] → walk_anchor w = st → walk_continuing w = false →
  depth (walk_tracker w) = length stack → pending (walk_tracker w) = None →
  lexeme_kind st' ≠ lexeme_kind st ∨ lexeme_kind st' = None →
  walk_in_step w.
Proof.
  intros H Est Esk Esg Ean Ec Hd Hp Hk. pose proof (step1_nests _ _ _ _ _ H) as Hn.
  unfold walk_in_step. rewrite Est, Esk, Esg, Ean, Ec. destruct (lexeme_kind st') as [k|] eqn:E.
  - destruct Hn as [-> _]. destruct Hk as [Hk|]; [|done]. split_and!; [done..|].
    by apply (opened_first k st stack b st' stack').
  - split_and!; [|done..]. cbn. by rewrite Hd.
Qed.

Lemma walk_move_in_step w b next stack s :
  step1 (walk_state w, walk_stack w) b = Some (next, stack) →
  walk_in_step w → walk_in_step (walk_move (walk_segment w next b s) next stack).
Proof.
  intros H Hw. unfold walk_segment. destruct (lexeme_kind (walk_state w)) as [k|] eqn:Ek.
  - case_bool_decide as Hn.
    + pose proof (step1_nests _ _ _ _ _ H) as Hs. rewrite Hn in Hs. destruct Hs as [Hs _].
      unfold walk_in_step in *. rewrite Ek in Hw. cbn. rewrite Hn. destruct Hw as [Hd Hw].
      split; [congruence|]. destruct (walk_continuing w).
      * destruct Hw as (q & ? & ? & ? & Ho). exists q. split_and!; [done..|]. rewrite app_assoc.
        by eapply opened_more.
      * destruct Hw as [? Ho]. split; [done|]. by eapply opened_more.
    + destruct (emit_in_step w k s Ek Hw) as [Hd Hp].
      eapply fresh_in_step; [exact H|reflexivity..|exact Hd|exact Hp|]. left. congruence.
  - case_bool_decide as Hn.
    + destruct (flush_in_step w s Ek Hw) as [Hd Hp].
      eapply fresh_in_step; [exact H|reflexivity..|exact Hd|exact Hp|]. left. rewrite Ek. by intros E; rewrite E in Hn; destruct Hn.
    + assert (lexeme_kind next = None) as En by (destruct (lexeme_kind next); [by destruct Hn|done]).
      pose proof (step1_nests _ _ _ _ _ H) as Hs. rewrite En in Hs.
      unfold walk_in_step in *. rewrite Ek in Hw. cbn. rewrite En. destruct Hw as (Hd & ? & ?).
      split_and!; [|done..]. unfold gap_depth in *. rewrite foldl_app, Hd. done.
Qed.

Lemma walk_finish_in_step w p s :
  config p = (walk_state w, walk_stack w) → walk_in_step w → in_step (walk_finish w s) p.
Proof.
  intros [= Hst Hsk] Hw. unfold in_step, walk_finish. rewrite Hst, Hsk.
  destruct (lexeme_kind (walk_state w)) as [k|] eqn:Ek.
  - unfold walk_in_step in Hw. rewrite Ek in Hw. unfold buffer_trailing. destruct Hw as [Hd Hw].
    destruct (walk_continuing w).
    + destruct Hw as (q & -> & -> & Ha & Ho). split; [done|]. cbn. done.
    + destruct Hw as [Hp Ho]. split; [done|]. cbn. done.
  - destruct (flush_in_step w s Ek Hw) as [Hd Hp]. split; [done|]. by rewrite Hp.
Qed.

Lemma walk_in_step_run w bytes c s :
  run (walk_state w, walk_stack w) bytes = Some c → walk_in_step w → in_step (walk w bytes s) (of_config c).
Proof.
  revert w. induction bytes as [|b bytes IH]; intros w; cbn [run walk].
  - intros [= <-]. by apply walk_finish_in_step.
  - destruct (step1 _ b) as [[next stack]|] eqn:E; [|done]. intros H Hw.
    apply IH; [exact H|]. by apply walk_move_in_step.
Qed.

Lemma walk_init_in_step t p s : in_step t p → walk_in_step (walk_init t p s).
Proof.
  intros [Hd Hp]. unfold walk_in_step, walk_init. cbn [walk_state walk_tracker walk_seg walk_stack walk_continuing walk_anchor].
  destruct (pending t) as [q|] eqn:Eq.
  - destruct Hp as [-> Ho]. rewrite bool_decide_eq_true_2 by done. split; [done|].
    exists q. by rewrite app_nil_r.
  - by rewrite Hp.
Qed.

Lemma observe_in_step t p bytes c s :
  in_step t p → run (config p) bytes = Some c → in_step (observe t bytes p s) (of_config c).
Proof. intros H Hr. apply walk_in_step_run; [exact Hr|]. by apply walk_init_in_step. Qed.

Lemma new_in_step : in_step ScopeTracker_new Pda_new.
Proof. done. Qed.

(** * Tokens cut inside a lexeme

    A byte-level vocabulary splits an identifier or a literal anywhere.  The
    tracker buffers the pieces, and this file shows that it then does exactly
    what it does with the whole. *)

(** ** The open lexeme *)

Lemma pending_again t p q : (t <| pending := p |>) <| pending := q |> = t <| pending := q |>.
Proof. reflexivity. Qed.

Lemma take_again t p : take_pending (t <| pending := p |>) = take_pending t.
Proof. reflexivity. Qed.
Lemma take_none t : pending t = None → take_pending t = t.
Proof. unfold take_pending. intros <-. by destruct t. Qed.

Lemma opening_position_pending t p st : opening_position (t <| pending := p |>) st = opening_position t st.
Proof. by destruct st. Qed.

(** ** Two walks through one lexeme *)

(** The lexeme [w1] is in, as [w2] has it: begun in the buffer. *)
Definition buffered (w1 : Walk) (k : LexKind) (q : Pending) (rest : list byte) : Prop :=
  if walk_continuing w1 then
    ∃ q1, pending (walk_tracker w1) = Some q1
      ∧ kind q = kind q1 ∧ anchor q = anchor q1 ∧ pos q = pos q1 ∧ buf q1 ++ walk_seg w1 = buf q ++ rest
  else
    pending (walk_tracker w1) = None
    ∧ anchor q = walk_anchor w1
    ∧ pos q = stamped k (opening_position (walk_tracker w1) (walk_anchor w1))
    ∧ walk_seg w1 = buf q ++ rest.

Record same_lexeme (w1 w2 : Walk) : Prop := {
  same_state : walk_state w2 = walk_state w1;
  same_stack : walk_stack w2 = walk_stack w1;
  same_open : ∃ k q,
    lexeme_kind (walk_state w1) = Some k ∧ kind q = k
    ∧ walk_tracker w2 = (walk_tracker w1) <| pending := Some q |>
    ∧ walk_continuing w2 = true ∧ walk_anchor w2 = anchor q
    ∧ buffered w1 k q (walk_seg w2);
}.

(** Closing the lexeme, both dispatch the same bytes. *)
Lemma same_emit w1 w2 s :
  same_lexeme w1 w2 →
  emit_lexeme (walk_tracker w1) (walk_seg w1) (walk_anchor w1) (walk_continuing w1) s
  = emit_lexeme (walk_tracker w2) (walk_seg w2) (walk_anchor w2) (walk_continuing w2) s.
Proof.
  intros [_ _ (k & q & _ & _ & Ht & Hc & _ & Hb)]. unfold emit_lexeme, buffered in *. rewrite Ht, Hc.
  cbn [pending update]. rewrite take_again. destruct (walk_continuing w1).
  - destruct Hb as (q1 & -> & _ & -> & _ & ->). done.
  - destruct Hb as (Hp & <- & _ & ->). by rewrite Hp, (take_none _ Hp).
Qed.

Lemma same_finish w1 w2 s : same_lexeme w1 w2 → walk_finish w1 s = walk_finish w2 s.
Proof.
  intros [Hst _ (k & q & Hk & Hq & Ht & Hc & _ & Hb)]. unfold walk_finish, buffer_trailing, buffered in *.
  rewrite Hst, Hk, Ht, Hc. cbn [pending update]. rewrite pending_again. destruct (walk_continuing w1).
  - destruct Hb as (q1 & -> & <- & <- & <- & ->). done.
  - destruct Hb as (_ & <- & <- & ->). by rewrite Hq.
Qed.

Lemma same_segment w1 w2 b next stack s :
  same_lexeme w1 w2 →
  let move w := walk_move (walk_segment w next b s) next stack in
  same_lexeme (move w1) (move w2) ∨ move w1 = move w2.
Proof.
  intros H. pose proof (same_emit w1 w2 s H) as He. destruct H as [Hst Hsk (k & q & Hk & Hq & Ht & Hc & Ha & Hb)].
  cbn zeta. unfold walk_segment. rewrite Hst, Hk. case_bool_decide as Hn.
  - left. split; [done..|]. exists k, q. split_and!; [exact Hn|done..|].
    unfold buffered in *. cbn. destruct (walk_continuing w1).
    + destruct Hb as (q1 & ? & ? & ? & ? & E). exists q1. split_and!; [done..|]. by rewrite !app_assoc, E.
    + destruct Hb as (? & ? & ? & ->). split_and!; [done..|]. by rewrite app_assoc.
  - right. unfold walk_move. cbn. by rewrite He.
Qed.

Lemma same_walk w1 w2 bytes s :
  same_lexeme w1 w2 → is_Some (run (walk_state w1, walk_stack w1) bytes) → walk w1 bytes s = walk w2 bytes s.
Proof.
  revert w1 w2. induction bytes as [|b bytes IH]; intros w1 w2 H Hr; [by apply same_finish|].
  cbn [walk run] in *. rewrite (same_state _ _ H), (same_stack _ _ H).
  destruct (step1 (walk_state w1, walk_stack w1) b) as [[next stack]|]; [|by destruct Hr].
  destruct (same_segment w1 w2 b next stack s H) as [H'| ->]; [|done]. by apply IH.
Qed.

(** ** The walk after a part of a token *)

Fixpoint walk_part (w : Walk) (bytes : list byte) (s : Schema) : Walk :=
  match bytes with
  | [] => w
  | b :: rest =>
      match step1 (walk_state w, walk_stack w) b with
      | Some (next, stack) => walk_part (walk_move (walk_segment w next b s) next stack) rest s
      | None => w
      end
  end.

Lemma walk_part_run w a b s c :
  run (walk_state w, walk_stack w) a = Some c →
  walk w (a ++ b) s = walk (walk_part w a s) b s
  ∧ walk w a s = walk_finish (walk_part w a s) s
  ∧ (walk_state (walk_part w a s), walk_stack (walk_part w a s)) = c.
Proof.
  revert w. induction a as [|x a IH]; intros w; cbn [run walk walk_part app]; [intros [= <-]; done|].
  destruct (step1 _ x) as [[next stack]|]; [|done]. apply (IH (walk_move _ next stack)).
Qed.

Lemma walk_part_in_step w a s c :
  run (walk_state w, walk_stack w) a = Some c → walk_in_step w → walk_in_step (walk_part w a s).
Proof.
  revert w. induction a as [|x a IH]; intros w; cbn [run walk_part]; [done|].
  destruct (step1 _ x) as [[next stack]|] eqn:E; [|done]. intros H Hw.
  apply (IH (walk_move _ next stack)); [done|]. by apply walk_move_in_step.
Qed.

(** The walk of the rest, begun at the end of the part. *)
Lemma part_same_lexeme w k s :
  walk_in_step w → lexeme_kind (walk_state w) = Some k →
  same_lexeme w (walk_init (walk_finish w s) (of_config (walk_state w, walk_stack w)) s).
Proof.
  unfold walk_in_step. intros Hw Hk. rewrite Hk in Hw. destruct Hw as [_ Hw].
  unfold walk_finish, buffer_trailing, walk_init. rewrite Hk.
  destruct (walk_continuing w) eqn:Hc.
  - destruct Hw as (q & Hp & Hq & Ha & _). rewrite Hp. cbn [pending update pda_state of_config kind fst].
    rewrite Hk, Hq, bool_decide_eq_true_2 by done. split; [done..|].
    exists k, {| kind := k; buf := buf q ++ walk_seg w; anchor := anchor q; pos := pos q |}.
    split_and!; [done..|]. unfold buffered. rewrite Hc. exists q. split_and!; [done..|]. cbn. by rewrite app_nil_r.
  - destruct Hw as (Hp & _). cbn [pending update pda_state of_config kind fst].
    rewrite Hk, bool_decide_eq_true_2 by done. split; [done..|].
    exists k, {| kind := k; buf := walk_seg w; anchor := walk_anchor w;
                 pos := stamped k (opening_position (walk_tracker w) (walk_anchor w)) |}.
    split_and!; [done..|].
    unfold buffered. rewrite Hc. split_and!; [done..|]. cbn. by rewrite app_nil_r.
Qed.

(** [observe] over a token cut inside a lexeme. *)
Lemma observe_cut t p a b c s k :
  in_step t p → run (config p) a = Some c → lexeme_kind c.1 = Some k → is_Some (run c b) →
  observe t (a ++ b) p s = observe (observe t a p s) b (of_config c) s.
Proof.
  intros Ht Ha Hk Hb. unfold observe at 1 3. set (w := walk_init t p s).
  assert (walk_in_step w) as Hw by by apply walk_init_in_step.
  destruct (walk_part_run w a b s c Ha) as (-> & -> & Hc).
  pose proof (walk_part_in_step w a s c Ha Hw) as Hp. set (w' := walk_part w a s) in *. clearbody w'.
  subst c. unfold observe. apply same_walk; [|done]. by apply (part_same_lexeme _ k).
Qed.

(** * Navigation across a token boundary

    A token may carry a dot and the name behind it, and the mask of such a token
    has to be narrowed before the dot is seen.  [fused_nav_position] predicts
    the rule the dot would open; this file proves the prediction right. *)

(** ** Lexemes *)

Definition classifies_dot (st : State) : bool := match classify_at (text ".") st with Lex.Dot => true | _ => false end.
Lemma dots_classified : forallb classifies_dot ALL_STATES = true.
Proof. vm_compute. reflexivity. Qed.

Lemma classify_dot st : classify_at (text ".") st = Lex.Dot.
Proof.
  pose proof dots_classified as H. rewrite forallb_forall in H. specialize (H st (ALL_STATES_complete st)).
  unfold classifies_dot in H. by destruct (classify_at (text ".") st).
Qed.

(** The bytes an identifier begins with begin nothing else. *)
Definition other_names : list string :=
  ["->"; "=="; "!="; "<="; ">="; "<"; ">"; "."; "$"; "|"; ","; "("; "["; "{"; ")"; "]"; "}"].
Definition starts_with_byte (b : byte) (name : string) : bool :=
  match text name with c :: _ => (c =? b)%u8 | [] => false end.
Definition ident_first (b : byte) : bool :=
  negb (is_ident_start b)
  || negb (existsb (starts_with_byte b) other_names || is_ascii_whitespace b || (b =? "'")%u8 || (b =? "%")%u8
           || is_ascii_digit b || (b =? "-")%u8).
Lemma idents_first : forallb ident_first all_bytes = true.
Proof. vm_compute. reflexivity. Qed.

Definition ident_ascii (b : byte) : bool := negb (ident_byte b) || between 0 127 b.
Lemma idents_ascii : forallb ident_ascii all_bytes = true.
Proof. vm_compute. reflexivity. Qed.

Lemma one_of_first names b l :
  names ⊆ other_names → existsb (starts_with_byte b) other_names = false → one_of names (b :: l) = false.
Proof.
  intros Hs H. apply not_true_iff_false. intros Ho. unfold one_of in Ho. apply existsb_exists in Ho as (n & Hn & He).
  unfold same_bytes in He. apply bool_decide_eq_true in He. apply not_true_iff_false in H. apply H, existsb_exists.
  exists n. split; [by apply list_elem_of_In, Hs, list_elem_of_In|]. unfold starts_with_byte. rewrite He.
  apply byte_eqb_refl.
Qed.

Lemma classify_ident b l :
  is_ident_start b = true → Forall (λ b, ident_byte b = true) (b :: l) → classify (b :: l) = Lex.Ident (b :: l).
Proof.
  intros Hb Hf. pose proof (forallb_bytes _ idents_first b) as H. unfold ident_first in H. rewrite Hb in H.
  cbn [negb orb] in H. apply negb_true_iff in H. do 5 apply orb_false_iff in H as [H ?].
  unfold classify. cbn [forallb].
  assert (is_Some (from_utf8 (b :: l))) as Hu.
  { rewrite from_utf8_ascii; [by eexists|]. apply forallb_forall. intros x Hx. rewrite Forall_forall in Hf.
    pose proof (forallb_bytes _ idents_ascii x) as Ha. unfold ident_ascii in Ha.
    by rewrite (Hf x) in Ha by by apply list_elem_of_In. }
  rewrite (bool_decide_eq_true_2 _ Hu), Hb.
  assert (∀ names, forallb (named other_names) names = true → one_of names (b :: l) = false) as Ho.
  { intros names Hn. apply one_of_first; [|done]. intros x Hx. rewrite forallb_forall in Hn.
    apply list_elem_of_In in Hx. specialize (Hn x Hx). unfold named in Hn. apply existsb_exists in Hn as (y & Hy & ->%String.eqb_eq).
    by apply list_elem_of_In. }
  repeat match goal with |- context [one_of ?ns (b :: l)] => rewrite (Ho ns) by reflexivity end.
  repeat match goal with E : ?x = false |- context [?x] => rewrite E end. done.
Qed.

(** ** A dot of its own *)

(** The rule of the name behind a dot. *)
Definition dot_target (t : ScopeTracker) : Pos.L2Position :=
  if awaiting_source_method t then Pos.SourceMethod
  else if dot_is_column t then Pos.RelationColumn
  else match dot_base t with Some base => Pos.Member base | None => Pos.NoPosition end.

Lemma position_after_dot t : position t AfterDot = dot_target t.
Proof.
  unfold position.
  assert (store_method_arg_sep t AfterDot = None) as ->
    by (unfold store_method_arg_sep; by destruct (store_call_arity t)).
  assert (source_method_arg_sep t AfterDot = None) as ->
    by (unfold source_method_arg_sep; destruct (in_source_method_args t); [by destruct (source_method_required t)|done]).
  assert (property_method_arg_sep t AfterDot = None) as ->
    by (unfold property_method_arg_sep; destruct (in_property_method_args t); [by destruct (property_method_required t)|done]).
  change (opening_position t AfterDot) with (dot_target t). cbn [lexeme_kind on_pending_str_quote].
  unfold dot_target. destruct (awaiting_source_method t), (dot_is_column t), (dot_base t); reflexivity.
Qed.

Lemma dispatch_dot t st s :
  dispatch_token t (text ".") st s = disarm (on_dot t) Lex.Dot (text ".") st None.
Proof. unfold dispatch_token. rewrite classify_dot. reflexivity. Qed.

(** The lexeme before the dot, closed by it. *)
Definition closed (t : ScopeTracker) (s : Schema) : ScopeTracker :=
  match pending t with
  | Some q => dispatch_token (take_pending t) (buf q) (anchor q) s
  | None => t
  end.

Lemma observe_dot t p stack s :
  in_step t p → run (config p) (text ".") = Some (AfterDot, stack) →
  observe t (text ".") p s = dispatch_token (closed t s) (text ".") (pda_state p) s.
Proof.
  intros [_ Hp] Hr. unfold observe, walk_init, closed. change (text ".") with ["."%byte] in *. cbn [run] in Hr. cbn [walk].
  change (walk_state _) with (pda_state p). change (walk_stack _) with (pda_stack p).
  unfold config in Hr. destruct (step1 (pda_state p, pda_stack p) "."%byte) as [c|]; [|done].
  injection Hr as ->. unfold walk_finish, walk_segment. cbn [walk_state walk_move update lexeme_kind].
  destruct (pending t) as [q|] eqn:Eq.
  - destruct Hp as [Hk _]. rewrite Hk, (bool_decide_eq_true_2 (Some (kind q) = Some (kind q))) by done.
    cbn [walk_state walk_tracker walk_anchor walk_seg walk_continuing].
    rewrite (bool_decide_eq_false_2 (None = Some (kind q))) by done. cbn [walk_tracker walk_seg walk_anchor update].
    unfold emit_lexeme. rewrite Eq, app_nil_r. reflexivity.
  - rewrite Hp. rewrite bool_decide_eq_false_2 by (by intros []). reflexivity.
Qed.

(** ** What the dot reads *)

(** The dot of a variable. *)
Lemma dot_of_var t var :
  pending_refvar t = Some var → source_path_seen t = None →
  dot_target (on_dot t) = default Pos.NoPosition (nav_from_var t var).
Proof.
  intros Hv Hs. unfold on_dot, nav_from_var, dot_target. cbn zeta. cbn [pending_refvar update]. rewrite Hv.
  cbn [relation_row_vars update]. case_bool_decide as Hr; cbn [awaiting_source_method dot_is_column dot_base update var_class].
  - rewrite Hs, bool_decide_eq_false_2 by (by intros []). done.
  - rewrite Hs, bool_decide_eq_false_2 by (by intros []). by destruct (mjoin (var_class t !! var)).
Qed.

(** The dot of a class a navigation rests at. *)
Lemma dot_of_cursor t class :
  pending_refvar t = None → nav_cursor t = Some class → source_path_seen t = None →
  dot_target (on_dot t) = Pos.Member class.
Proof.
  intros Hv Hc Hs. unfold on_dot, dot_target. cbn zeta. cbn [pending_refvar update]. rewrite Hv.
  cbn [nav_cursor update]. rewrite Hc. cbn. by rewrite Hs, bool_decide_eq_false_2 by (by intros []).
Qed.

(** ** The prediction *)

(** Where the tracker is between a dot and the next: no arming of another rule
    is left over. *)
Definition nav_ready (t : ScopeTracker) : Prop :=
  in_milestoning_date_arg_position t = false
  ∧ match pending t with
    | Some q =>
        anchor q = AfterDot →
        pending_refvar t = None ∧ awaiting_source_method t = false ∧ dot_is_column t = false
    | None => source_path_seen t = None
    end.

Lemma dispatch_ident t b l st s :
  is_ident_start b = true → Forall (λ b, ident_byte b = true) (b :: l) → pending_operator_byte st = None →
  dispatch_token t (b :: l) st s
  = disarm (on_ident t (b :: l) st s).1 (Lex.Ident (b :: l)) (b :: l) st (on_ident t (b :: l) st s).2.
Proof.
  intros Hb Hf Hst. unfold dispatch_token, classify_at. rewrite Hst, classify_ident by done.
  cbn [on_lexeme]. by destruct (on_ident t (b :: l) st s).
Qed.

Lemma on_ident_dollar t bytes s :
  in_milestoning_date_arg_position t = false →
  let t' := (on_ident t bytes AfterDollar s).1 in
  pending_refvar t' = Some (as_str bytes) ∧ source_path_seen t' = None
  ∧ nav_from_var t' = nav_from_var t.
Proof.
  intros H. unfold on_ident, ident_source. destruct (has_class s (as_str bytes));
    cbn [on_ident_at fst]; unfold in_milestoning_date_arg_position in *; cbn [in_source_method_args in_property_method_args update];
    rewrite H; done.
Qed.

Lemma on_ident_member t bytes s base path mult :
  pending_refvar t = None → awaiting_source_method t = false → dot_is_column t = false →
  dot_base t = Some base → resolved s base (as_str bytes) = Some (ResolvedClass path mult) →
  let t' := (on_ident t bytes AfterDot s).1 in
  pending_refvar t' = None ∧ source_path_seen t' = None ∧ nav_cursor t' = Some path.
Proof.
  intros Hv Ha Hc Hb Hr. unfold on_ident, ident_source. cbn [on_ident_at source_seen].
  destruct (has_class s (as_str bytes)); unfold resolve_member;
    cbn [awaiting_source_method dot_is_column dot_base update]; rewrite Ha, Hc, Hb, Hr; by cbn.
Qed.

Lemma dot_target_disarm t lex bytes st r : dot_target (disarm t lex bytes st r) = dot_target t.
Proof. reflexivity. Qed.
Lemma disarm_nav t lex bytes st r :
  let t' := disarm t lex bytes st r in
  pending_refvar t' = pending_refvar t ∧ source_path_seen t' = source_path_seen t
  ∧ nav_cursor t' = nav_cursor t ∧ nav_from_var t' = nav_from_var t.
Proof. by split_and!. Qed.

(** The lexeme the dot closes, when it is a variable or a member. *)
Lemma closed_var t q b l s :
  pending t = Some q → anchor q = AfterDollar → buf q = b :: l →
  is_ident_start b = true → Forall (λ b, ident_byte b = true) (b :: l) →
  in_milestoning_date_arg_position t = false →
  dot_target (on_dot (closed t s)) = default Pos.NoPosition (nav_from_var t (as_str (b :: l))).
Proof.
  intros Hq Ha Hb Hs Hf Hm. unfold closed. rewrite Hq, Ha, Hb, dispatch_ident by done.
  destruct (on_ident_dollar (take_pending t) (b :: l) s Hm) as (H1 & H2 & H3).
  set (t' := (on_ident _ (b :: l) AfterDollar s).1) in *. clearbody t'.
  destruct (disarm_nav t' (Lex.Ident (b :: l)) (b :: l) AfterDollar
              (on_ident (take_pending t) (b :: l) AfterDollar s).2) as (E1 & E2 & _ & E4).
  set (t1 := disarm _ _ _ _ _) in *. clearbody t1.
  rewrite (dot_of_var t1 (as_str (b :: l))) by congruence. rewrite E4, H3. reflexivity.
Qed.

Lemma closed_member t q b l s target :
  pending t = Some q → anchor q = AfterDot → buf q = b :: l →
  is_ident_start b = true → Forall (λ b, ident_byte b = true) (b :: l) →
  pending_refvar t = None → awaiting_source_method t = false → dot_is_column t = false →
  nav_from_member t (as_str (b :: l)) s = Some target →
  dot_target (on_dot (closed t s)) = target.
Proof.
  intros Hq Ha Hb Hs Hf Hv Hw Hc Hn. unfold closed. rewrite Hq, Ha, Hb, dispatch_ident by done.
  unfold nav_from_member in Hn. destruct (dot_base t) as [base|] eqn:Hbase; [|done]. cbn [mbind option_bind] in Hn.
  destruct (resolved s base (as_str (b :: l))) as [[|path mult|]|] eqn:Hr; try done. injection Hn as <-.
  destruct (on_ident_member (take_pending t) (b :: l) s base path mult Hv Hw Hc Hbase Hr) as (H1 & H2 & H3).
  set (t' := (on_ident _ (b :: l) AfterDot s).1) in *. clearbody t'.
  destruct (disarm_nav t' (Lex.Ident (b :: l)) (b :: l) AfterDot
              (on_ident (take_pending t) (b :: l) AfterDot s).2) as (E1 & E2 & E3 & _).
  set (t1 := disarm _ _ _ _ _) in *. clearbody t1.
  apply dot_of_cursor; congruence.
Qed.

Lemma fused_agrees t p stack s target :
  in_step t p → nav_ready t →
  run (config p) (text ".") = Some (AfterDot, stack) →
  fused_nav_position t s = Some target →
  position (observe t (text ".") p s) AfterDot = target.
Proof.
  intros Ht [Hm Hready] Hr Hf.
  rewrite (observe_dot t p stack s Ht Hr), position_after_dot, dispatch_dot, dot_target_disarm.
  unfold fused_nav_position in Hf. destruct Ht as [_ Hp]. destruct (pending t) as [q|] eqn:Eq.
  - destruct Hp as [_ Ho]. case_bool_decide as Hk; [|done]. cbn [negb] in Hf. rewrite Hk in Ho.
    destruct (from_utf8 (buf q)) as [chars|]; [|done]. destruct Ho as (b & l & Hbuf & _ & _ & Hi).
    destruct (Hi eq_refl) as [Hall Hstart]. rewrite Hbuf in *. destruct (anchor q) eqn:Ea; try done.
    + rewrite (closed_var t q b l s) by auto. by rewrite Hf.
    + destruct (Hready eq_refl) as (H1 & H2 & H3). by eapply closed_member; eauto.
  - unfold closed. rewrite Eq. destruct (pending_refvar t) as [var|] eqn:Ev.
    + rewrite (dot_of_var t var) by done. by rewrite Hf.
    + destruct (nav_cursor t) as [class|] eqn:Ec; [|done]. injection Hf as <-. by apply dot_of_cursor.
Qed.

(** The prediction is always a navigation. *)
Lemma fused_is_navigation t s target :
  fused_nav_position t s = Some target → target = Pos.RelationColumn ∨ ∃ class, target = Pos.Member class.
Proof.
  assert (∀ var, nav_from_var t var = Some target → target = Pos.RelationColumn ∨ ∃ class, target = Pos.Member class)
    as Hvar.
  { intros var. unfold nav_from_var. case_bool_decide; [intros [= <-]; by left|].
    destruct (mjoin (var_class t !! var)) as [class|]; [|done]. intros [= <-]. right. by exists class. }
  unfold fused_nav_position. destruct (pending t) as [q|].
  - destruct (negb _); [done|]. destruct (from_utf8 (buf q)); [|done]. destruct (anchor q); try done; [apply Hvar|].
    unfold nav_from_member. destruct (dot_base t) as [base|]; [|done]. cbn [mbind option_bind].
    destruct (resolved s base _) as [[|path ?|]|]; try done. intros [= <-]. right. by exists path.
  - destruct (pending_refvar t); [apply Hvar|]. destruct (nav_cursor t) as [class|]; [|done].
    intros [= <-]. right. by exists class.
Qed.
