(* ===== verification/NarrowSpec.v ===== *)
(** * What narrowing means

    The schema-legal set of a position without tries and without a memo: which
    tokens extend or properly close one of the rule's names, and whether the
    stream may end. *)

From S2P Require Import Prelude PdaState Mask Trie Schema SchemaProps Position Narrow.
Open Scope u8_scope.

(** ** Names *)

Inductive Reach :=
| Extends
| Completes (name : list byte) (boundary : byte)
| Leaves.

(** Reading [bytes] after [p]: every byte continues some name, or a name ends
    on a byte that its shape does not continue, or no name has it. *)
Fixpoint reach (names : list (list byte * NameClose)) (sh : NameShape) (p bytes : list byte) : Reach :=
  match bytes with
  | [] => Extends
  | b :: rest =>
      if decide (live names (p ++ [b])) then reach names sh (p ++ [b]) rest
      else if bool_decide (is_Some (name_close names p)) && negb (continues sh b)
      then Completes p b else Leaves
  end.

Definition point_of (names : list (list byte * NameClose)) (p : list byte) : NamePoint :=
  match p with
  | [] => Anchor
  | _ =>
      match name_close names p with
      | None => Partial
      | Some Free => Whole
      | Some (MustFollow b) => WholeMustFollow b
      end
  end.

(** A candidate token after [p]: it extends a name, or closes one on a byte
    the name's own policy takes. *)
Definition extends_name (names : list (list byte * NameClose)) (sh : NameShape) (p bytes : list byte) : bool :=
  match reach names sh p bytes with
  | Extends => true
  | Completes n b => close_admits (default Free (name_close names n)) b
  | Leaves => false
  end.

(** A token at the point [p] of a name rule. *)
Definition name_legal (names : list (list byte * NameClose)) (kind : TrieKind) (p bytes : list byte) : bool :=
  let mid := match p with [] => false | _ => true end in
  if is_candidate bytes kind mid then extends_name names (shape kind) p bytes
  else if bool_decide (kind = KClassPathContinuation) then true
  else
    match point_of names p with
    | Partial => false
    | WholeMustFollow owed => opens_with bytes (λ b, b =? owed)
    | Whole => true
    | Anchor =>
        let rest := skip_leading_ws bytes in
        if is_candidate rest kind false then extends_name names (shape kind) [] rest else true
    end.

(** ** The legal set of a position *)

(** Which tokens are kept, and whether the end is. *)
Definition Legal : Type := (list byte → bool) * bool.

Definition name_rule (names : list (list byte * NameClose)) (kind : TrieKind) (prefix : list byte)
    : option Legal :=
  if decide (live names prefix)
  then Some (name_legal names kind prefix, point_admits_eos (point_of names prefix)) else None.

(** The receiver-category rules: only closing a denied name is refused. *)
Definition denied_rule (denied : list string) (receiver : option TypeClass) (prefix : list byte) : option Legal :=
  let names := free_names (text <$> denied) in
  if decide (live names prefix) then
    Some (λ bytes,
            match reach names Plain prefix bytes with Completes _ _ => false | _ => true end
            && negb match receiver with Some tc => denied_string_method bytes tc | None => false end,
          negb (bool_decide (is_Some (name_close names prefix))))
  else None.

Definition milestone_legal (required : option N) (seen : N) (bytes : list byte) : bool :=
  match classify bytes with
  | Lex.Ws => true
  | Lex.Close => match required with Some r => (r <=? seen)%N | None => true end
  | Lex.Date | Lex.Dollar => match required with Some r => (seen <? r)%N | None => true end
  | _ => false
  end.

Definition milestone_sep_legal (remaining : bool) (state : State) (bytes : list byte) : bool :=
  opens_with bytes (λ b, is_ascii_whitespace b || (b =? if remaining then ARG_SEP else CALL_CLOSE)
                         || continues_open_lexeme state b).

Definition literal_legal (keeps : Lex.Lexeme → bool) (bytes : list byte) : bool :=
  keeps (classify bytes) && keeps_number_opener bytes (keeps Lex.Number).

Definition legal_names (pos : Pos.L2Position) (s : Schema.Schema) (columns : list (list byte))
    (vars : list string) : option (TrieKind * list (list byte * NameClose)) :=
  rule ← TrieRule_of pos s columns vars;
  names ← names_of (tr_names rule);
  Some (tr_kind rule, names).

Definition legal (pos : Pos.L2Position) (s : Schema.Schema) (prefix : list byte)
    (columns : list (list byte)) (vars : list string) : option Legal :=
  match legal_names pos s columns vars with
  | Some (kind, names) => name_rule names kind prefix
  | None =>
      let here keep := Some (keep, true) in
      match pos with
      | Pos.ReValue tc =>
          if bool_decide (tc = Boolean ∨ tc = Temporal) then None
          else here (literal_legal (λ l, keeps_operand l tc))
      | Pos.Comparator tc =>
          if bool_decide (tc = Numeric ∨ tc = Temporal) then None else here (λ bytes, keeps_comparator bytes tc)
      | Pos.OrderedOperand =>
          here (λ bytes, negb (is_ordered_comparator bytes)
                         && negb (opens_with bytes (λ b, contains_byte b ORDERED_OPERAND_DENIED_OPENERS)))
      | Pos.Reducer tc => here (λ bytes, keeps_reducer bytes tc)
      | Pos.ScalarMethod tc => denied_rule RELATION_RECEIVER_METHODS (Some tc) prefix
      | Pos.ExtentMethod => denied_rule (RELATION_RECEIVER_METHODS ++ EXTENT_ONLY_DENIED_METHODS) None prefix
      | Pos.SourceMethodArg required seen | Pos.PropertyMethodArg required seen =>
          here (milestone_legal required seen)
      | Pos.SourceMethodArgSep remaining state | Pos.PropertyMethodArgSep remaining state =>
          here (milestone_sep_legal remaining state)
      | Pos.StoreMethodArg => here (λ bytes, opens_with bytes (λ b, is_ascii_whitespace b || (b =? STR_OPEN)))
      | Pos.StoreMethodArgSep remaining =>
          here (λ bytes, opens_with bytes (λ b, is_ascii_whitespace b
                  || (b =? if remaining then ARG_SEP else CALL_CLOSE) || (b =? STR_OPEN)))
      | Pos.SourceExtent after_dash => here (λ bytes, keeps_source_extent bytes after_dash)
      | Pos.ReceiverOnlyArg => here (λ bytes, opens_with bytes (λ b, is_ascii_whitespace b || (b =? CALL_CLOSE)))
      | Pos.StoreResult after_dash =>
          here (λ bytes, keeps_after_completed_term bytes after_dash STORE_RESULT_DENIED_OPENERS)
      | Pos.StrOperator after_dash =>
          here (λ bytes, keeps_after_completed_term bytes after_dash STR_OPERATOR_DENIED_OPENERS)
      | Pos.LogicalOperand =>
          here (λ bytes, literal_legal (λ l, keeps_operand l Boolean) bytes
                         && negb (opens_with bytes (λ b, b =? LAMBDA_PIPE)))
      | Pos.ExtentMethodArg arg => here (literal_legal (λ l, keeps_extent_method_arg l arg))
      | Pos.ValueIdent => Some (keeps_value_ident, false)
      | _ => None
      end
  end.

(** The fused pass: a [.]-led token whose identifier begins no name is
    refused. *)
Definition fused_names (pos : Pos.L2Position) (s : Schema.Schema) (columns : list (list byte))
    : option (list (list byte * NameClose)) :=
  match pos with
  | Pos.Member class => names ← member_names s class; Some (free_names (text <$> names))
  | Pos.RelationColumn => Some (free_names columns)
  | _ => None
  end.

Definition fused_legal (pos : Pos.L2Position) (s : Schema.Schema) (columns : list (list byte)) : option Legal :=
  names ← fused_names pos s columns;
  Some (λ bytes,
          match fused_post_dot bytes with
          | Some rest => match reach names Plain [] rest with Leaves => false | _ => true end
          | None => true
          end, true).

Definition sigil_legal : Legal := (λ bytes, negb (opens_with bytes (λ b, b =? REFVAR_SIGIL)), true).

(** ** Tries hold names *)

Section held.
Context (t : Trie) (names : list (list byte * NameClose)).
Hypothesis Hwf : trie_wf t.
Hypothesis Hs : ∀ q, shape_at t q = names_shape names q.

Lemma walk_reach sh bytes :
  ∀ p node, follow t 0 p = Some node →
    match reach names sh p bytes with
    | Extends => ∃ n, walk t node bytes sh = Some (Stay n)
    | Completes q b => ∃ n, walk t node bytes sh = Some (Complete n b) ∧ follow t 0 q = Some n
    | Leaves => walk t node bytes sh = Some Diverge
    end.
Proof.
  induction bytes as [|b bytes IH]; intros p node Hp; cbn [reach walk]; [by eexists|].
  destruct (follow_node t p node Hwf Hp) as (nd & Hnd & _). rewrite (child_edge _ _ _ _ Hnd). simpl.
  assert (follow t 0 (p ++ [b]) = edge (next nd) b) as Hstep
    by (rewrite follow_snoc, Hp; simpl; by rewrite Hnd).
  pose proof (named_live t names Hwf Hs (p ++ [b])) as Hl. rewrite Hstep in Hl.
  destruct (edge (next nd) b) as [c|] eqn:Ec.
  - rewrite decide_True by (apply Hl; eauto). exact (IH (p ++ [b]) c Hstep).
  - rewrite decide_False by (intros [? ?]%Hl; done).
    destruct (named_node t names Hwf Hs p node Hp) as [-> _]. simpl.
    destruct (bool_decide _ && _); [|done]. by exists node.
Qed.

Lemma held_root : follow t 0 [] = Some (root t).
Proof. done. Qed.

Lemma held_keeps_candidate sh p node bytes :
  follow t 0 p = Some node → keeps_candidate t node bytes sh = Some (extends_name names sh p bytes).
Proof.
  intros Hp. unfold keeps_candidate, extends_name. pose proof (walk_reach sh bytes p node Hp) as Hw.
  destruct (reach names sh p bytes) as [|q b|].
  - destruct Hw as (n & ->). done.
  - destruct Hw as (n & -> & Hq). simpl.
    by destruct (named_node t names Hwf Hs q n Hq) as [_ ->].
  - by rewrite Hw.
Qed.

Lemma held_point p node : follow t 0 p = Some node → name_point t node = Some (point_of names p).
Proof.
  intros Hp. unfold name_point. destruct (named_node t names Hwf Hs p node Hp) as [-> ->].
  destruct (N.eqb_spec node (root t)) as [Heq|Hne].
  - rewrite Heq in Hp. assert (p = []) as -> by (eapply (wf_tree t Hwf); [exact Hp|apply held_root]). done.
  - destruct p as [|b p]; [injection Hp as <-; done|]. unfold point_of. simpl.
    by destruct (name_close names (b :: p)) as [[|?]|].
Qed.

Lemma held_keeps_trie kind p node bytes :
  follow t 0 p = Some node →
  keeps_trie t node kind (point_of names p) bytes = Some (name_legal names kind p bytes).
Proof.
  intros Hp. unfold keeps_trie, name_legal.
  replace (match point_of names p with Anchor => false | _ => true end)
    with (match p with [] => false | _ => true end).
  2:{ unfold point_of. destruct p; [done|]. by destruct (name_close _ _) as [[|?]|]. }
  destruct (is_candidate bytes kind _); [by apply held_keeps_candidate|].
  destruct (bool_decide _); [done|].
  destruct (point_of names p) eqn:Epoint; try done.
  unfold keeps_anchor_noncandidate. destruct (is_candidate _ _ false); [|done].
  by apply held_keeps_candidate.
Qed.

Lemma held_cursor rc prefix :
  rc_trie rc = t →
  cursor_of rc prefix = Some (follow t 0 prefix).
Proof.
  intros Hrc. unfold cursor_of. rewrite Hrc. destruct prefix as [|b prefix]; [done|].
  destruct (walk_follow t [] (root t) (b :: prefix) (shape (rc_kind rc)) Hwf eq_refl) as (w & Hw & Hspec).
  rewrite Hw. cbn [mbind option_bind]. f_equal.
  destruct (follow t 0 (b :: prefix)) as [n|] eqn:Ef.
  - apply (root_walk t Hwf _ (shape (rc_kind rc))) in Ef. rewrite Hw in Ef. by injection Ef as ->.
  - destruct w; try done. cbv iota in Hspec. rewrite app_nil_l in Hspec. congruence.
Qed.

Lemma held_deny_cursor prefix : deny_cursor t prefix = Some (follow t 0 prefix).
Proof.
  apply (held_cursor {| rc_trie := t; rc_kind := KIdent; rc_masks := [] |} prefix eq_refl).
Qed.

Lemma held_denied p node bytes :
  follow t 0 p = Some node →
  does_not_close_denied t node bytes =
    Some (match reach names Plain p bytes with Completes _ _ => false | _ => true end).
Proof.
  intros Hp. unfold does_not_close_denied. pose proof (walk_reach Plain bytes p node Hp) as Hw.
  destruct (reach names Plain p bytes) as [|q b|].
  - destruct Hw as (n & ->). done.
  - destruct Hw as (n & -> & _). done.
  - by rewrite Hw.
Qed.

Lemma held_fused bytes :
  keeps_fused t bytes =
    Some (match fused_post_dot bytes with
          | Some rest => match reach names Plain [] rest with Leaves => false | _ => true end
          | None => true
          end).
Proof.
  unfold keeps_fused. destruct (fused_post_dot bytes) as [rest|]; [|done].
  pose proof (walk_reach Plain rest [] (root t) held_root) as Hw.
  destruct (reach names Plain [] rest) as [|q b|].
  - destruct Hw as (n & ->). done.
  - destruct Hw as (n & -> & _). done.
  - by rewrite Hw.
Qed.
End held.
