(* ===== verification/NarrowLaws.v ===== *)
(** * Narrowing is its meaning

    With any memo that earlier narrowing of the same stream can have left, an
    operation computes the legal set of [NarrowSpec], and never panics. *)

From S2P Require Import Prelude PdaState Mask Trie Schema SchemaProps Position Narrow NarrowSpec.

Open Scope u8_scope.

(** ** Filled masks *)

Section filled.
Context (v : Vocab).
Hypothesis Hv : vocab_fits v.

(** The session's sizes. *)
Definition eos_id : N := N.of_nat (vocab_len v).
Definition mask_size : nat := vocab_len v + 1.

(** A mask of the session's size. *)
Definition sized (m : BitMask) : Prop := mask_ok m ∧ mlen m = mask_size.

Definition legal_mask (l : Legal) : BitMask :=
  let m := fill_kept (with_len mask_size) v l.1 in if l.2 then set m eos_id else m.

Lemma sized_with_len : sized (with_len mask_size).
Proof. split; [apply with_len_ok|done]. Qed.

Lemma sized_set m id : sized m → sized (set m id).
Proof. intros [Hm Hl]. split; [by apply set_ok|by rewrite mlen_set]. Qed.

Lemma fill_kept_sized dst keep : sized dst → fill_kept dst v keep = fill_kept (with_len mask_size) v keep.
Proof.
  intros [Hok Hl]. unfold fill_kept. rewrite !clear_all_with_len by (done || apply with_len_ok).
  by rewrite Hl.
Qed.

Lemma fill_kept_spec keep :
  let m := fill_kept (with_len mask_size) v keep in
  sized m ∧ ∀ id, test m id = match vocab_bytes v id with Some bytes => keep bytes | None => false end.
Proof.
  unfold fill_kept, ids. rewrite clear_all_with_len by apply with_len_ok. cbn [mlen with_len].
  rewrite as_u32_id, Nat2N.id by exact Hv.
  change (vocab_len v) with (length (tokens v)).
  enough (Hgen : ∀ n, n ≤ length (tokens v) →
    let m := foldl (λ dst id, if keep (default [] (vocab_bytes v id)) then set dst id else dst)
                   (with_len mask_size) (N.of_nat <$> seq 0 n) in
    sized m ∧ ∀ id, test m id = if (id <? N.of_nat n)%N then keep (default [] (vocab_bytes v id)) else false).
  { destruct (Hgen _ (le_n _)) as [Hs Ht]. split; [done|]. intros id. rewrite Ht.
    unfold vocab_bytes. destruct (N.ltb_spec id (N.of_nat (length (tokens v)))) as [Hlt|Hge].
    - destruct (lookup_lt_is_Some_2 (tokens v) (N.to_nat id)) as [bytes ->]; [lia|done].
    - by rewrite lookup_ge_None_2 by lia. }
  induction n as [|n IH]; intros Hn; cbv zeta.
  { split; [apply sized_with_len|]. intros id. cbn [seq fmap list_fmap foldl]. rewrite test_with_len.
    by destruct (N.ltb_spec id (N.of_nat 0)); [lia|]. }
  rewrite seq_S, fmap_app, foldl_app. cbn [fmap list_fmap foldl]. cbn [Nat.add].
  destruct IH as [Hs Ht]; [lia|].
  set (m := foldl _ _ _) in *.
  destruct (keep (default [] (vocab_bytes v (N.of_nat n)))) eqn:Ek.
  - split; [by apply sized_set|]. intros id. destruct Hs as [Hok Hl]. rewrite test_set, Ht by done.
    rewrite Hl. unfold mask_size. change (vocab_len v) with (length (tokens v)).
    destruct (N.eqb_spec id (N.of_nat n)) as [->|Hne]; simpl.
    + rewrite (proj2 (N.ltb_lt (N.of_nat n) (N.of_nat (S n)))) by lia.
      rewrite (proj2 (N.ltb_lt _ _)) by lia. by rewrite Ek.
    + destruct (N.ltb_spec id (N.of_nat n)), (N.ltb_spec id (N.of_nat (S n))); try done; lia.
  - split; [done|]. intros id. rewrite Ht.
    destruct (N.ltb_spec id (N.of_nat n)), (N.ltb_spec id (N.of_nat (S n))); try done; try lia.
    replace id with (N.of_nat n) by lia. by rewrite Ek.
Qed.

Lemma legal_mask_sized l : sized (legal_mask l).
Proof.
  destruct (fill_kept_spec l.1) as [Hs _]. unfold legal_mask. destruct l.2; [by apply sized_set|done].
Qed.

Lemma eos_not_token : vocab_bytes v eos_id = None.
Proof. unfold vocab_bytes, eos_id, vocab_len. rewrite Nat2N.id. by apply lookup_ge_None_2. Qed.

(** The token bits are the legal tokens, and the bit after them the end. *)
Lemma legal_mask_test l id :
  test (legal_mask l) id =
    match vocab_bytes v id with Some bytes => l.1 bytes | None => (id =? eos_id)%N && l.2 end.
Proof.
  destruct (fill_kept_spec l.1) as [[Hok Hl] Ht]. unfold legal_mask.
  destruct l.2 eqn:El.
  - rewrite test_set, Hl, Ht by done. destruct (N.eqb_spec id eos_id) as [->|Hne]; simpl.
    + rewrite eos_not_token, (proj2 (N.ltb_lt _ _)); [done|]. unfold eos_id, mask_size. lia.
    + by destruct (vocab_bytes v id).
  - rewrite Ht. destruct (vocab_bytes v id); [done|]. by rewrite andb_false_r.
Qed.

Lemma fill_kept_opt_total dst keep k :
  (∀ bytes, keep bytes = Some (k bytes)) → fill_kept_opt dst v keep = Some (fill_kept dst v k).
Proof.
  intros Hk. unfold fill_kept_opt, fill_kept. generalize (clear_all dst).
  induction (ids v) as [|id l IH]; intros m; cbn [foldl]; [done|].
  cbn [mbind option_bind]. rewrite Hk. apply IH.
Qed.

Lemma copy_sized dst m : sized dst → sized m → copy_from dst m = m.
Proof. intros [? ?] [? ?]. apply copy_from_eq; congruence. Qed.

(** A fill that sets the tokens and then the end. *)
Lemma fill_is_legal dst keep : sized dst → set (fill_kept dst v keep) eos_id = legal_mask (keep, true).
Proof. intros Hd. by rewrite fill_kept_sized. Qed.

Lemma fill_value_legal dst : sized dst → fill_value_ident dst v = legal_mask (keeps_value_ident, false).
Proof. intros Hd. unfold fill_value_ident. by rewrite fill_kept_sized. Qed.
End filled.

(** ** What a memo may hold *)

Section memo.
Context (v : Vocab) (s : Schema.Schema) (C : list (list byte)) (V : list string).
Hypothesis Hv : vocab_fits v.

(** The names of a trie key, when the stream's columns and variables are the
    first ones of [C] and of [V]. *)
Definition key_rule (k : CacheKey) : option (TrieKind * list (list byte * NameClose)) :=
  let of_names kind n := names ← names_of n; Some (kind, names) in
  match k with
  | Key.Source => of_names KClassPath (NSource s)
  | Key.BinderValueSource => of_names KClassPathContinuation (NSource s)
  | Key.SourceMethod => of_names KIdentOrStr NSourceMethod
  | Key.StoreMethod => of_names KIdentOrStr NStoreMethod
  | Key.Member class => of_names KIdentOrStr (NMember s class)
  | Key.Column n => of_names KStr (NColumn (take n C))
  | Key.RelationColumn n => of_names KIdent (NRelationColumn (take n C))
  | Key.RefVar n => of_names KIdent (NRefVar (take n V))
  | Key.FusedMember class => names ← member_names s class; Some (KIdent, free_names (text <$> names))
  | Key.FusedRelationColumn n => Some (KIdent, free_names (take n C))
  | _ => None
  end.

Definition is_fused (k : CacheKey) : bool :=
  match k with Key.FusedMember _ | Key.FusedRelationColumn _ => true | _ => false end.

(** The legal set a trie key memoizes at the cursor of [p]. *)
Definition cursor_legal (k : CacheKey) (kind : TrieKind) (names : list (list byte * NameClose)) (p : list byte)
    : Legal :=
  if is_fused k then
    (λ bytes, match fused_post_dot bytes with
              | Some rest => match reach names Plain [] rest with Leaves => false | _ => true end
              | None => true
              end, true)
  else (name_legal names kind p, point_admits_eos (point_of names p)).

(** The legal set of the other keys. *)
Definition key_legal (k : CacheKey) : option Legal :=
  match k with
  | Key.ReValue tc => Some (literal_legal (λ l, keeps_operand l tc), true)
  | Key.Comparator tc => legal (Pos.Comparator tc) s [] [] []
  | Key.OrderedOperand => legal Pos.OrderedOperand s [] [] []
  | Key.Reducer tc => legal (Pos.Reducer tc) s [] [] []
  | Key.SourceMethodArg r n => legal (Pos.SourceMethodArg r n) s [] [] []
  | Key.PropertyMethodArg r n => legal (Pos.PropertyMethodArg r n) s [] [] []
  | Key.SourceMethodArgSep r st => legal (Pos.SourceMethodArgSep r st) s [] [] []
  | Key.PropertyMethodArgSep r st => legal (Pos.PropertyMethodArgSep r st) s [] [] []
  | Key.StoreMethodArg => legal Pos.StoreMethodArg s [] [] []
  | Key.StoreMethodArgSep r => legal (Pos.StoreMethodArgSep r) s [] [] []
  | Key.SourceExtent d => legal (Pos.SourceExtent d) s [] [] []
  | Key.ExtentMethodArg a => legal (Pos.ExtentMethodArg a) s [] [] []
  | Key.ReceiverOnlyArg => legal Pos.ReceiverOnlyArg s [] [] []
  | Key.StoreResult d => legal (Pos.StoreResult d) s [] [] []
  | Key.StrOperator d => legal (Pos.StrOperator d) s [] [] []
  | Key.LogicalOperand => legal Pos.LogicalOperand s [] [] []
  | Key.ValueIdent => legal Pos.ValueIdent s [] [] []
  | Key.UnboundSigil => Some sigil_legal
  | _ => None
  end.

Definition held (t : Trie) (names : list (list byte * NameClose)) : Prop :=
  trie_wf t ∧ ∀ q, shape_at t q = names_shape names q.

(** The cursor of some prefix of a deny trie, with its legal set. *)
Definition denied_at (deny : option Trie) (denied : list string) (receiver : option TypeClass) (cursor : N)
    (m : BitMask) : Prop :=
  ∃ t p l, deny = Some t ∧ held t (free_names (text <$> denied)) ∧ follow t 0 p = Some cursor
           ∧ denied_rule denied receiver p = Some l ∧ m = legal_mask v l.

Definition operand_ok (k : CacheKey) (m : BitMask) : Prop :=
  match k with
  | Key.ExtentMethod cursor =>
      denied_at EXTENT_DENY (RELATION_RECEIVER_METHODS ++ EXTENT_ONLY_DENIED_METHODS) None cursor m
  | Key.ScalarMethod tc cursor => denied_at SCALAR_DENY RELATION_RECEIVER_METHODS (Some tc) cursor m
  | _ => ∃ l, key_legal k = Some l ∧ m = legal_mask v l
  end.

Definition rc_ok (k : CacheKey) (rc : RuleCache) : Prop :=
  ∃ names, key_rule k = Some (rc_kind rc, names) ∧ held (rc_trie rc) names
    ∧ ∀ cursor m, map_get (rc_masks rc) cursor = Some m →
        ∃ p, follow (rc_trie rc) 0 p = Some cursor ∧ m = legal_mask v (cursor_legal k (rc_kind rc) names p).

Definition cache_ok (c : NarrowCache) : Prop :=
  (∀ k m, map_get (operand c) k = Some m → operand_ok k m)
  ∧ ∀ k rc, map_get (tries c) k = Some rc → rc_ok k rc.

(** The names of every rule fit the node ids. *)
Definition names_bounded : Prop := ∀ k kind names, key_rule k = Some (kind, names) → names_fit names.
Hypothesis Hfits : names_bounded.

(** The buffer holds the legal set if there is one, and is untouched if not;
    the memo is still sound. *)
Definition yields (out : Narrowed) (dst : BitMask) (l : option Legal) : Prop :=
  ∃ c', cache_ok c'
    ∧ out = Some (match l with Some l => (legal_mask v l, c', true) | None => (dst, c', false) end).

Lemma cache_new_ok : cache_ok NarrowCache_new.
Proof. by split. Qed.

Lemma map_get_insert {K A} `{EqDecision K} (m : list (K * A)) k k' a :
  map_get (map_insert m k a) k' = if decide (k = k') then Some a else map_get m k'.
Proof.
  unfold map_get, map_insert. simpl. destruct (decide (k = k')).
  - by rewrite bool_decide_true.
  - by rewrite bool_decide_false.
Qed.

Lemma with_cache_yields dst c key fill l :
  cache_ok c → sized v dst → fill dst = Some (legal_mask v l) →
  (∀ m, operand_ok key m → m = legal_mask v l) → operand_ok key (legal_mask v l) →
  yields (with_cache dst c key fill) dst (Some l).
Proof.
  intros [Ho Ht] Hd Hfill Huniq Hok. unfold with_cache. destruct (map_get _ key) as [m|] eqn:Em.
  - apply Ho, Huniq in Em as ->. exists c. split; [by split|]. rewrite (copy_sized v); auto using legal_mask_sized.
  - rewrite Hfill. cbn [mbind option_bind]. eexists. split; [|done]. split; [|done].
    intros k m. cbn [operand]. rewrite map_get_insert. case_decide as E; [subst k; intros [= <-]; done|auto].
Qed.

Lemma memo_yields dst c key keep e (fill : BitMask → BitMask) :
  cache_ok c → sized v dst → fill dst = legal_mask v (keep, e) →
  operand_ok key = (λ m, ∃ l, key_legal key = Some l ∧ m = legal_mask v l) →
  key_legal key = Some (keep, e) →
  yields (memo dst c key fill) dst (Some (keep, e)).
Proof.
  intros Hc Hd Hfill Hop Hkey. apply with_cache_yields; [done|done|by rewrite Hfill| |]; rewrite Hop.
  - intros m (l & Hl & ->). congruence.
  - by eexists.
Qed.

Lemma entry_ok c k kind names build :
  cache_ok c → key_rule k = Some (kind, names) → build = from_closing_names names →
  ∃ rc c', entry_with c k kind build = Some (rc, c') ∧ cache_ok c' ∧ rc_ok k rc
           ∧ rc_kind rc = kind ∧ held (rc_trie rc) names.
Proof.
  intros [Ho Ht] Hk ->. unfold entry_with. destruct (map_get _ k) as [rc|] eqn:Erc.
  - exists rc, c. split; [done|]. split; [by split|]. split; [by apply Ht|].
    destruct (Ht _ _ Erc) as (names' & Hk' & Hh & _). rewrite Hk in Hk'. injection Hk' as -> ->. done.
  - destruct (trie_built names (Hfits _ _ _ Hk)) as (t & -> & Hheld). cbn [mbind option_bind].
    set (rc := {| rc_trie := t; rc_kind := kind; rc_masks := [] |}).
    assert (rc_ok k rc) as Hrc by (by exists names).
    eexists rc, _. split; [done|]. split_and!; [|done|done|done].
    split; [done|]. intros k' rc'. cbn [tries]. rewrite map_get_insert.
    case_decide as E; [subst k'; intros [= <-]; done|auto].
Qed.

Lemma remember_ok c k rc p cursor names :
  cache_ok c → rc_ok k rc → key_rule k = Some (rc_kind rc, names) → follow (rc_trie rc) 0 p = Some cursor →
  cache_ok (remember c k rc cursor (legal_mask v (cursor_legal k (rc_kind rc) names p))).
Proof.
  intros [Ho Ht] (names' & Hk & Hh & Hm) Hk' Hp. rewrite Hk in Hk'. injection Hk' as ->.
  split; [done|]. intros k' rc'. cbn [tries remember]. rewrite map_get_insert.
  case_decide as E; [|auto]. subst k'. intros [= <-]. exists names. split_and!; [done|done|].
  cbn [rc_masks rc_trie rc_kind]. intros cur m. rewrite map_get_insert.
  case_decide as E; [subst cur; intros [= <-]; by exists p|auto].
Qed.

Lemma cursor_mask_yields dst c k rc p cursor names fill :
  cache_ok c → sized v dst → rc_ok k rc → key_rule k = Some (rc_kind rc, names) →
  follow (rc_trie rc) 0 p = Some cursor →
  fill dst = Some (legal_mask v (cursor_legal k (rc_kind rc) names p)) →
  yields (cursor_mask dst c k rc cursor fill) dst (Some (cursor_legal k (rc_kind rc) names p)).
Proof.
  intros Hc Hd Hrc Hk Hp Hfill. unfold cursor_mask.
  destruct (map_get (rc_masks rc) cursor) as [m|] eqn:Em.
  - exists c. split; [done|]. destruct Hrc as (names' & Hk' & Hh & Hm).
    rewrite Hk in Hk'. injection Hk' as ->.
    destruct (Hm _ _ Em) as (p' & Hp' & ->). rewrite (wf_tree _ (proj1 Hh) _ _ _ Hp' Hp).
    rewrite (copy_sized v); auto using legal_mask_sized.
  - rewrite Hfill. cbn [mbind option_bind]. eexists. split; [|done]. by apply remember_ok.
Qed.

(** ** The name rules *)

Lemma narrow_trie_yields dst c rule prefix names :
  cache_ok c → sized v dst → is_fused (tr_key rule) = false →
  key_rule (tr_key rule) = Some (tr_kind rule, names) → names_of (tr_names rule) = Some names →
  yields (narrow_trie dst c rule prefix v (eos_id v)) dst (name_rule names (tr_kind rule) prefix).
Proof.
  intros Hc Hd Hnf Hk Hn. unfold narrow_trie, entry.
  destruct (entry_ok c (tr_key rule) (tr_kind rule) names (names_build (tr_names rule)))
    as (rc & c' & -> & Hc' & Hrc & Hkind & Hh); [done|done|unfold names_build; by rewrite Hn|].
  cbn [mbind option_bind]. destruct Hh as [Hwf Hs]. rewrite (held_cursor _ Hwf rc prefix eq_refl).
  cbn [mbind option_bind]. unfold name_rule.
  destruct (follow (rc_trie rc) 0 prefix) as [cursor|] eqn:Ef.
  - rewrite decide_True by (apply (named_live _ names Hwf Hs); eauto).
    rewrite <-Hkind.
    replace (name_legal names (rc_kind rc) prefix, point_admits_eos (point_of names prefix))
      with (cursor_legal (tr_key rule) (rc_kind rc) names prefix) by (unfold cursor_legal; by rewrite Hnf).
    apply cursor_mask_yields; try done; [by rewrite Hkind|].
    unfold fill_trie. rewrite (held_point _ names Hwf Hs prefix cursor Ef). cbn [mbind option_bind].
    rewrite (fill_kept_opt_total v _ _ (name_legal names (rc_kind rc) prefix))
      by (intros; by apply held_keeps_trie).
    cbn [mbind option_bind]. unfold cursor_legal, legal_mask. rewrite Hnf.
    rewrite (fill_kept_sized v dst) by done. done.
  - rewrite decide_False by (by apply (named_dead _ names Hwf Hs)).
    exists c'. by split.
Qed.

Lemma narrow_fused_yields dst c k build names :
  cache_ok c → sized v dst → is_fused k = true → key_rule k = Some (KIdent, names) →
  build = from_closing_names names →
  yields (narrow_fused_trie dst c k v (eos_id v) build) dst (Some (cursor_legal k KIdent names [])).
Proof.
  intros Hc Hd Hf Hk Hb. unfold narrow_fused_trie.
  destruct (entry_ok c k KIdent names build) as (rc & c' & -> & Hc' & Hrc & Hkind & [Hwf Hs]); [done..|].
  cbn [mbind option_bind]. rewrite <-Hkind.
  apply cursor_mask_yields; try done; [by rewrite Hkind|].
  unfold fill_fused_trie. rewrite (fill_kept_opt_total v _ _ _ (held_fused _ names Hwf Hs)).
  cbn [mbind option_bind]. unfold cursor_legal, legal_mask. rewrite Hf.
  by rewrite (fill_kept_sized v dst).
Qed.

(** ** The receiver-category rules *)

Lemma deny_held (denied : list string) :
  names_fit (free_names (text <$> denied)) →
  ∃ t, from_names (text <$> denied) = Some t ∧ held t (free_names (text <$> denied)).
Proof. intros Hf. destruct (trie_built _ Hf) as (t & Ht & Hwf & Hs). by exists t. Qed.

Lemma narrow_denied_yields dst c prefix deny denied key receiver :
  cache_ok c → sized v dst →
  deny = from_names (text <$> denied) → names_fit (free_names (text <$> denied)) →
  (∀ cursor m, operand_ok (key cursor) m ↔ denied_at deny denied receiver cursor m) →
  yields (narrow_denied dst c v (eos_id v) prefix deny key receiver) dst (denied_rule denied receiver prefix).
Proof.
  intros Hc Hd Hdeny Hfit Hkey. destruct (deny_held denied Hfit) as (t & Ht & [Hwf Hs]).
  unfold narrow_denied. rewrite Hdeny, Ht. cbn [mbind option_bind].
  rewrite (held_deny_cursor t Hwf prefix). cbn [mbind option_bind].
  destruct (follow t 0 prefix) as [cursor|] eqn:Ef.
  - assert (live (free_names (text <$> denied)) prefix) as Hlive by (apply (named_live t _ Hwf Hs); eauto).
    assert (Hrule : ∃ l, denied_rule denied receiver prefix = Some l)
      by (unfold denied_rule; rewrite decide_True by done; eauto).
    destruct Hrule as (l & Hl). rewrite Hl.
    assert (denied_at deny denied receiver cursor (legal_mask v l)) as Hat.
    { exists t, prefix, l. split_and!; try done. by rewrite Hdeny. }
    apply with_cache_yields; [done|done| | |by apply Hkey].
    + unfold denied_rule in Hl. rewrite decide_True in Hl by done. injection Hl as <-.
      unfold fill_denied_method.
      rewrite (fill_kept_opt_total v _ _ (λ bytes,
        match reach (free_names (text <$> denied)) Plain prefix bytes with Completes _ _ => false | _ => true end
        && negb match receiver with Some tc => denied_string_method bytes tc | None => false end)).
      2:{ intros bytes. by rewrite (held_denied t _ Hwf Hs prefix cursor bytes Ef). }
      cbn [mbind option_bind].
      destruct (named_node t _ Hwf Hs prefix cursor Ef) as [-> _]. cbn [mbind option_bind].
      rewrite fill_kept_sized by done. unfold legal_mask. cbn [fst snd]. by destruct (bool_decide _).
    + intros m (t' & p' & l' & Ht' & Hh' & Hp' & Hl' & ->)%Hkey. rewrite Hdeny, Ht in Ht'. injection Ht' as <-.
      rewrite (wf_tree t Hwf _ _ _ Hp' Ef) in Hl'. congruence.
  - assert (¬ live (free_names (text <$> denied)) prefix) as Hdead by (by apply (named_dead t _ Hwf Hs)).
    unfold denied_rule. rewrite decide_False by done. exists c. by split.
Qed.

Lemma names_of_total n : is_Some (names_of n).
Proof.
  destruct n as [| | |s' class| | |]; unfold names_of; try by eexists.
  destruct (declared_exact s' class) as (ds & Hds & _). rewrite member_names_declared, Hds. by eexists.
Qed.

Lemma small_fit (names : list (list byte * NameClose)) :
  (N.of_nat (S (sum_list (length <$> names.*1))) <=? U32_MOD)%N = true → names_fit names.
Proof. intros H. by apply N.leb_le in H. Qed.

Lemma prefix_take {A} (l k : list A) : l `prefix_of` k → take (length l) k = l.
Proof. intros [r ->]. apply take_app_length. Qed.

(** A rule's key stands for the rule's names. *)
Lemma rule_key pos columns vars rule names :
  columns `prefix_of` C → vars `prefix_of` V →
  TrieRule_of pos s columns vars = Some rule → names_of (tr_names rule) = Some names →
  is_fused (tr_key rule) = false ∧ key_rule (tr_key rule) = Some (tr_kind rule, names).
Proof.
  intros Hcol%prefix_take Hvar%prefix_take Erule Hn.
  destruct pos; cbn in Erule; try done; try (destruct vars as [|x vars]; [done|]);
    injection Erule as <-; cbn [tr_key tr_kind tr_names] in *; (split; [done|]); unfold key_rule;
    rewrite ?Hcol; try (by rewrite Hn).
  change (S (length vars)) with (length (x :: vars)). by rewrite Hvar, Hn.
Qed.

(** The narrow's main lemma. *)
Lemma narrow_into_yields dst c pos prefix columns vars :
  cache_ok c → sized v dst → columns `prefix_of` C → vars `prefix_of` V →
  yields (narrow_into dst c s pos prefix columns vars v (eos_id v)) dst (legal pos s prefix columns vars).
Proof.
  intros Hc Hd Hcol Hvar. unfold narrow_into, legal, legal_names.
  destruct (TrieRule_of pos s columns vars) as [rule|] eqn:Erule; cbn [mbind option_bind].
  - destruct (names_of_total (tr_names rule)) as [names Hn]. rewrite Hn. cbn [mbind option_bind].
    destruct (rule_key _ _ _ _ _ Hcol Hvar Erule Hn). by apply narrow_trie_yields.
  - destruct pos as [| | | | | | | | | | | | | | | | | |tc|tc| |tc|tc| | | | |];
      cbn in Erule; try discriminate Erule; cbv beta iota zeta.
    all: try (destruct vars; [|discriminate Erule]).
    all: try (destruct tc; cbv beta iota zeta;
              try rewrite bool_decide_true by tauto; try rewrite bool_decide_false by (intros [|]; done)).
    all: lazymatch goal with
      | |- yields (memo _ _ _ _) _ _ =>
          apply memo_yields; [done|done|first [by apply fill_is_legal|by apply fill_value_legal]|done|done]
      | |- yields (narrow_denied _ _ _ _ _ _ _ _) _ _ =>
          apply narrow_denied_yields; [done|done|reflexivity|apply small_fit; vm_compute; reflexivity|done]
      | |- _ => by exists c
      end.
Qed.

Lemma sigil_yields dst c :
  cache_ok c → sized v dst → yields (narrow_sigil_into dst c v (eos_id v)) dst (Some sigil_legal).
Proof. intros Hc Hd. apply memo_yields; [done|done|by apply fill_is_legal|done|done]. Qed.

Lemma fused_yields dst c pos columns :
  cache_ok c → sized v dst → columns `prefix_of` C →
  yields (narrow_fused_into dst c s pos columns v (eos_id v)) dst (fused_legal pos s columns).
Proof.
  intros Hc Hd Hcol%prefix_take. unfold narrow_fused_into, fused_legal, fused_names.
  destruct pos; try (by exists c).
  - destruct (names_of_total (NMember s class)) as [names' Hn]. unfold names_of in Hn.
    destruct (member_names s class) as [names|] eqn:Em; [|done]. cbn [mbind option_bind].
    apply (narrow_fused_yields dst c (Key.FusedMember class)); try done. cbn [key_rule]. by rewrite Em.
  - cbn [mbind option_bind].
    apply (narrow_fused_yields dst c (Key.FusedRelationColumn (length columns))); try done.
    cbn [key_rule]. by rewrite Hcol.
Qed.

(** ** The end of the stream *)

(** The positions of [deny_of], whatever the tries. *)
Lemma deny_positions {A} (x y d : A) pos :
  match pos with Pos.ExtentMethod => Some x | Pos.ScalarMethod _ => Some y | _ => None end = Some d →
  pos = Pos.ExtentMethod ∧ x = d ∨ ∃ tc, pos = Pos.ScalarMethod tc ∧ y = d.
Proof. destruct pos; try done; intros [= ->]; eauto. Qed.

Lemma deny_nowhere {A} (x y : A) pos :
  match pos with Pos.ExtentMethod => Some x | Pos.ScalarMethod _ => Some y | _ => None end = None →
  pos ≠ Pos.ExtentMethod ∧ ∀ tc, pos ≠ Pos.ScalarMethod tc.
Proof. by destruct pos. Qed.

Lemma deny_of_rule pos deny prefix columns vars :
  deny_of pos = Some deny →
  ∃ denied receiver, deny = from_names (text <$> denied) ∧ names_fit (free_names (text <$> denied))
    ∧ legal pos s prefix columns vars = denied_rule denied receiver prefix.
Proof.
  intros Ed.
  apply deny_positions in Ed as [[-> <-]|(tc & -> & <-)].
  - exists (RELATION_RECEIVER_METHODS ++ EXTENT_ONLY_DENIED_METHODS), None.
    split_and!; [reflexivity|apply small_fit; vm_compute; reflexivity|reflexivity].
  - exists RELATION_RECEIVER_METHODS, (Some tc).
    split_and!; [reflexivity|apply small_fit; vm_compute; reflexivity|reflexivity].
Qed.

Lemma admits_eos_yields c pos prefix columns vars :
  cache_ok c → columns `prefix_of` C → vars `prefix_of` V →
  ∃ c', cache_ok c' ∧
    admits_eos c s pos prefix columns vars
    = Some (c', match legal pos s prefix columns vars with Some l => l.2 | None => true end).
Proof.
  intros Hc Hcol Hvar. unfold admits_eos, legal, legal_names.
  destruct (TrieRule_of pos s columns vars) as [rule|] eqn:Erule; cbn [mbind option_bind].
  - assert (deny_of pos = None) as -> by (destruct pos; try done; destruct vars; done).
    destruct (names_of_total (tr_names rule)) as [names Hn]. rewrite Hn. cbn [mbind option_bind].
    destruct (rule_key _ _ _ _ _ Hcol Hvar Erule Hn) as [Hnf Hk]. unfold entry.
    destruct (entry_ok c (tr_key rule) (tr_kind rule) names (names_build (tr_names rule)))
      as (rc & c' & -> & Hc' & Hrc & Hkind & [Hwf Hs]); [done|done|unfold names_build; by rewrite Hn|].
    cbn [mbind option_bind]. rewrite (held_cursor _ Hwf rc prefix eq_refl). cbn [mbind option_bind].
    exists c'. split; [done|]. unfold name_rule.
    destruct (follow (rc_trie rc) 0 prefix) as [cursor|] eqn:Ef.
    + rewrite decide_True by (apply (named_live _ names Hwf Hs); eauto).
      by rewrite (held_point _ names Hwf Hs prefix cursor Ef).
    + by rewrite decide_False by (by apply (named_dead _ names Hwf Hs)).
  - exists c. split; [done|]. destruct (deny_of pos) as [deny|] eqn:Ed.
    + destruct (deny_of_rule pos deny prefix columns vars Ed) as (denied & receiver & -> & Hfit & Hl).
      destruct (deny_held denied Hfit) as (t & -> & [Hwf Hs]). cbn [mbind option_bind].
      rewrite (held_deny_cursor t Hwf prefix). cbn [mbind option_bind].
      unfold legal, legal_names in Hl. rewrite Erule in Hl. cbn [mbind option_bind] in Hl. rewrite Hl.
      unfold denied_rule. destruct (follow t 0 prefix) as [cursor|] eqn:Ef.
      * rewrite decide_True by (apply (named_live t _ Hwf Hs); eauto).
        by destruct (named_node t _ Hwf Hs prefix cursor Ef) as [-> _].
      * by rewrite decide_False by (by apply (named_dead t _ Hwf Hs)).
    + apply deny_nowhere in Ed as [He Hsc].
      destruct pos; try discriminate Erule; try done; try (by destruct (He eq_refl));
        try (by destruct (Hsc _ eq_refl)); cbv beta iota zeta; by destruct (bool_decide _).
Qed.
End memo.

(** ** Sequences of operations *)

(** What a session may ask of one buffer and one memo. *)
Inductive NarrowOp :=
| OpNarrow (pos : Pos.L2Position) (prefix : list byte) (columns : list (list byte)) (vars : list string)
| OpSigil
| OpFused (pos : Pos.L2Position) (columns : list (list byte))
| OpEnd (pos : Pos.L2Position) (prefix : list byte) (columns : list (list byte)) (vars : list string).

(** The operation on a buffer and a memo: what they become, and its answer. *)
Definition run_op (v : Vocab) (s : Schema.Schema) (dst : BitMask) (c : NarrowCache) (op : NarrowOp) : Narrowed :=
  match op with
  | OpNarrow pos prefix columns vars => narrow_into dst c s pos prefix columns vars v (eos_id v)
  | OpSigil => narrow_sigil_into dst c v (eos_id v)
  | OpFused pos columns => narrow_fused_into dst c s pos columns v (eos_id v)
  | OpEnd pos prefix columns vars =>
      '(c, e) ← admits_eos c s pos prefix columns vars; Some (dst, c, e)
  end.

Fixpoint run_ops (v : Vocab) (s : Schema.Schema) (dst : BitMask) (c : NarrowCache) (ops : list NarrowOp)
    : option (BitMask * NarrowCache) :=
  match ops with
  | [] => Some (dst, c)
  | op :: ops => '(dst, c, _) ← run_op v s dst c op; run_ops v s dst c ops
  end.

(** The stream's columns and variables only grow: at every operation they are
    the first ones of [C] and of [V]. *)
Definition op_within (C : list (list byte)) (V : list string) (op : NarrowOp) : Prop :=
  match op with
  | OpNarrow _ _ columns vars | OpEnd _ _ columns vars => columns `prefix_of` C ∧ vars `prefix_of` V
  | OpFused _ columns => columns `prefix_of` C
  | OpSigil => True
  end.

(** The buffer after narrowing by a legal set, and the answer. *)
Definition narrowed (v : Vocab) (dst : BitMask) (l : option Legal) : BitMask * bool :=
  match l with Some l => (legal_mask v l, true) | None => (dst, false) end.

Definition op_result (v : Vocab) (s : Schema.Schema) (dst : BitMask) (op : NarrowOp) : BitMask * bool :=
  match op with
  | OpNarrow pos prefix columns vars => narrowed v dst (legal pos s prefix columns vars)
  | OpSigil => narrowed v dst (Some sigil_legal)
  | OpFused pos columns => narrowed v dst (fused_legal pos s columns)
  | OpEnd pos prefix columns vars =>
      (dst, match legal pos s prefix columns vars with Some l => l.2 | None => true end)
  end.

Lemma yields_narrowed v s C V out dst l :
  yields v s C V out dst l → ∃ c', cache_ok v s C V c' ∧ out = Some ((narrowed v dst l).1, c', (narrowed v dst l).2).
Proof. intros (c' & Hc & ->). exists c'. split; [done|]. by destruct l. Qed.

Lemma run_op_result v s C V dst c op :
  vocab_fits v → names_bounded s C V → cache_ok v s C V c → sized v dst → op_within C V op →
  ∃ c', cache_ok v s C V c' ∧ run_op v s dst c op = Some ((op_result v s dst op).1, c', (op_result v s dst op).2).
Proof.
  intros Hv Hb Hc Hd Hop. destruct op as [pos prefix columns vars| |pos columns|pos prefix columns vars];
    cbn [run_op op_result op_within] in *.
  - destruct Hop. apply yields_narrowed. by apply narrow_into_yields.
  - apply yields_narrowed. by apply sigil_yields.
  - apply yields_narrowed. by apply fused_yields.
  - destruct Hop. destruct (admits_eos_yields v s C V Hb c pos prefix columns vars) as (c' & Hc' & ->); [done..|].
    by exists c'.
Qed.

Lemma op_result_sized v s dst op : vocab_fits v → sized v dst → sized v (op_result v s dst op).1.
Proof.
  intros Hv Hd. destruct op; cbn [op_result narrowed fst]; try done.
  - destruct (legal _ _ _ _ _); cbn; [by apply legal_mask_sized|done].
  - by apply legal_mask_sized.
  - destruct (fused_legal _ _ _); cbn; [by apply legal_mask_sized|done].
Qed.

Lemma run_ops_ok v s C V ops dst c :
  vocab_fits v → names_bounded s C V → cache_ok v s C V c → sized v dst → Forall (op_within C V) ops →
  ∃ dst' c', run_ops v s dst c ops = Some (dst', c') ∧ sized v dst' ∧ cache_ok v s C V c'.
Proof.
  intros Hv Hb Hc Hd Hops. revert dst c Hc Hd. induction Hops as [|op ops Hop Hops IH]; intros dst c Hc Hd.
  { by exists dst, c. }
  destruct (run_op_result v s C V dst c op) as (c' & Hc' & Hrun); [done..|]. cbn [run_ops].
  rewrite Hrun. cbn [mbind option_bind]. apply IH; [done|]. by apply op_result_sized.
Qed.

Lemma names_fit_le (bs bs' : list (list byte)) :
  sum_list (length <$> bs) ≤ sum_list (length <$> bs') → names_fit (free_names bs') → names_fit (free_names bs).
Proof.
  assert (∀ l, (free_names l).*1 = l) as Hfst.
  { intros l. unfold free_names. rewrite <-list_fmap_compose. apply list_fmap_id. }
  unfold names_fit. rewrite !Hfst. lia.
Qed.

Lemma sum_take {A} (f : A → list byte) l n : sum_list (length <$> (f <$> take n l)) ≤ sum_list (length <$> (f <$> l)).
Proof. rewrite <-(take_drop n l) at 2. rewrite !fmap_app, sum_list_with_app. lia. Qed.

Lemma quote_longer c : length c ≤ length (quote c).
Proof.
  unfold quote. rewrite !length_app. cbn [length]. enough (length c ≤ length
    (concat ((λ b, if (b =? "'")%u8 then ["'"%byte; b] else [b]) <$> c))) by lia.
  induction c as [|b c IH]; [done|]. cbn [fmap list_fmap concat length]. rewrite length_app.
  destruct (b =? "'"); cbn [length]; lia.
Qed.

Lemma sum_quote cs : sum_list (length <$> cs) ≤ sum_list (length <$> (quote <$> cs)).
Proof.
  induction cs as [|c cs IH]; [done|]. rewrite !fmap_cons. cbn [sum_list_with].
  apply Nat.add_le_mono; [apply quote_longer|exact IH].
Qed.

(** It is enough that the source paths, each class's members, the columns and
    the variables fit the node ids. *)
Lemma bounded_names s C V :
  (∀ names, names_of (NSource s) = Some names → names_fit names) →
  (∀ class names, names_of (NMember s class) = Some names → names_fit names) →
  names_fit (free_names (quote <$> C)) → names_fit (free_names (text <$> V)) →
  names_bounded s C V.
Proof.
  intros Hsrc Hmem Hcol Hvar k kind names. unfold key_rule.
  destruct k; try done.
  - intros [= <- <-]. by apply Hsrc.
  - intros [= <- <-]. by apply Hsrc.
  - intros [= <- <-]. apply small_fit. vm_compute. reflexivity.
  - intros [= <- <-]. apply small_fit. vm_compute. reflexivity.
  - destruct (names_of (NMember s class)) as [ns|] eqn:E; [|done]. intros [= <- <-]. by eapply Hmem.
  - intros [= <- <-]. eapply names_fit_le; [|exact Hcol]. apply sum_take.
  - intros [= <- <-]. eapply names_fit_le; [|exact Hcol]. etrans; [apply sum_quote|apply sum_take].
  - intros [= <- <-]. eapply names_fit_le; [|exact Hvar]. apply sum_take.
  - specialize (Hmem class). unfold names_of in Hmem.
    destruct (member_names s class) as [ns|]; [|done]. intros [= <- <-].
    eapply names_fit_le; [|by apply Hmem]. rewrite fmap_app, sum_list_with_app. lia.
  - intros [= <- <-]. eapply names_fit_le; [|exact Hcol]. etrans; [apply sum_quote|apply sum_take].
Qed.

(** * The laws of the overlay's narrowing

    What the masks of [schema/narrow.rs] promise a decoder: they are the legal
    sets whatever has been memoized, they agree with the end-of-stream
    verdict, they admit no phantom name, and they leave every name spellable
    unless it has a byte its rule does not take for part of a name. *)

Open Scope u8_scope.

(** ** Reading on *)

Lemma live_nonempty names p b : live names (p ++ [b]) ↔ ∃ n c, (n, c) ∈ names ∧ p ++ [b] `prefix_of` n.
Proof.
  unfold live. rewrite Exists_exists. split.
  - intros [Hnil|([n c] & Hin & Hp)]; [by destruct p|]. by exists n, c.
  - intros (n & c & Hin & Hp). right. by exists (n, c).
Qed.

Lemma app_snoc {A} (p : list A) b bs : p ++ b :: bs = (p ++ [b]) ++ bs.
Proof. by rewrite <-app_assoc. Qed.

Lemma live_app names p q : live names (p ++ q) → live names p.
Proof.
  unfold live. intros [Hnil|Hex]; [left; by apply app_eq_nil in Hnil as [-> _]|].
  right. eapply Exists_impl; [exact Hex|]. intros x Hx. cbn in *. by eapply prefix_app_l.
Qed.

Lemma reach_extends names sh p bytes : live names p → reach names sh p bytes = Extends ↔ live names (p ++ bytes).
Proof.
  revert p. induction bytes as [|b bytes IH]; intros p Hp; cbn [reach]; [by rewrite app_nil_r|].
  rewrite (app_snoc p b bytes). case_decide as Hl; [by apply IH|]. split.
  - by destruct (_ && _).
  - by intros ?%live_app.
Qed.

Lemma reach_completes names sh p bytes n b :
  reach names sh p bytes = Completes n b ↔
  ∃ pre rest, bytes = pre ++ b :: rest ∧ n = p ++ pre ∧ (pre = [] ∨ live names n)
    ∧ is_Some (name_close names n) ∧ continues sh b = false ∧ ¬ live names (n ++ [b]).
Proof.
  revert p. induction bytes as [|b' bytes IH]; intros p; cbn [reach].
  { split; [done|]. by intros ([|??] & ? & ? & _). }
  case_decide as Hl.
  - rewrite IH. split.
    + intros (pre & rest & -> & -> & Hpre & H1 & H2 & H3). exists (b' :: pre), rest.
      rewrite <-!app_assoc in *. split_and!; try done. right.
      destruct H1 as [cl H1]. by apply name_close_live in H1.
    + intros ([|b'' pre] & rest & [= -> ->] & -> & Hpre & H1 & H2 & H3).
      { by rewrite app_nil_r in H3. }
      exists pre, rest. rewrite <-!app_assoc in *. split_and!; try done. right.
      destruct H1 as [cl H1]. by apply name_close_live in H1.
  - destruct (bool_decide _) eqn:Eb; [apply bool_decide_eq_true in Eb|apply bool_decide_eq_false in Eb]; cbn [andb].
    + destruct (continues sh b') eqn:Ec; cbn [negb].
      * split; [done|]. intros ([|b'' pre] & rest & [= -> ->] & -> & Hpre & H1 & H2 & H3); [congruence|].
        destruct Hpre as [?|Hlive]; [done|]. destruct Hl.
        rewrite app_snoc in Hlive. by apply live_app in Hlive.
      * split.
        -- intros [= <- <-]. exists [], bytes. rewrite app_nil_r. by split_and!; [| |left| | |].
        -- intros ([|b'' pre] & rest & [= -> ->] & -> & Hpre & H1 & H2 & H3); [by rewrite app_nil_r|].
           destruct Hpre as [?|Hlive]; [done|]. destruct Hl.
           rewrite app_snoc in Hlive. by apply live_app in Hlive.
    + split; [done|]. intros ([|b'' pre] & rest & [= -> ->] & -> & Hpre & H1 & H2 & H3).
      { by rewrite app_nil_r in H1. }
      destruct Hpre as [?|Hlive]; [done|]. destruct Hl.
      rewrite app_snoc in Hlive. by apply live_app in Hlive.
Qed.

(** A candidate token is legal exactly if it extends a name, or ends one on a
    byte its policy takes, that neither the lexeme nor any name goes on with. *)
Lemma extends_name_exact names sh p bytes :
  live names p →
  extends_name names sh p bytes = true ↔
    live names (p ++ bytes)
    ∨ ∃ pre b rest cl, bytes = pre ++ b :: rest ∧ name_close names (p ++ pre) = Some cl ∧ close_admits cl b = true
        ∧ continues sh b = false ∧ ¬ live names (p ++ pre ++ [b]).
Proof.
  intros Hp. unfold extends_name. rewrite <-(reach_extends names sh p bytes Hp).
  destruct (reach names sh p bytes) as [|n b|] eqn:Er.
  - by split; [left|].
  - pose proof Er as (pre & rest & -> & -> & _ & [cl Hcl] & Hc & Hn)%reach_completes.
    rewrite Hcl. change (default Free (Some cl)) with cl. split.
    + intros Ha. right. exists pre, b, rest, cl. rewrite <-app_assoc in Hn. by split_and!.
    + intros [?|(pre' & b' & rest' & cl' & Heq & Hcl' & Ha & Hc' & Hn')]; [done|].
      assert (reach names sh p (pre' ++ b' :: rest') = Completes (p ++ pre') b') as Er'.
      { apply reach_completes. exists pre', rest'. rewrite <-app_assoc.
        split_and!; [done|done|right; by apply name_close_live in Hcl'|by eexists|done|done]. }
      rewrite <-Heq, Er in Er'. injection Er' as Hpre <-. rewrite Hpre in Hcl. congruence.
  - split; [done|]. intros [?|(pre & b & rest & cl & -> & Hcl & Ha & Hc & Hn)]; [done|].
    assert (reach names sh p (pre ++ b :: rest) = Completes (p ++ pre) b) as Er'; [|congruence].
    apply reach_completes. exists pre, rest. rewrite <-app_assoc.
    split_and!; [done|done|right; by apply name_close_live in Hcl|by eexists|done|done].
Qed.

Lemma fresh_narrow v s C V dst pos prefix columns vars :
  vocab_fits v → names_bounded s C V → sized v dst → columns `prefix_of` C → vars `prefix_of` V →
  ∃ c', narrow_into dst NarrowCache_new s pos prefix columns vars v (eos_id v)
        = Some ((narrowed v dst (legal pos s prefix columns vars)).1, c',
                (narrowed v dst (legal pos s prefix columns vars)).2).
Proof.
  intros Hv Hb Hd Hc Hvr.
  destruct (run_op_result v s C V dst NarrowCache_new (OpNarrow pos prefix columns vars)) as (c' & _ & Hrun);
    [done|done|apply cache_new_ok|done|done|by exists c'].
Qed.

(** ** Closing a name *)

Lemma name_close_elem names q c : name_close names q = Some c → (q, c) ∈ names.
Proof.
  induction names as [|[n c'] names IH] using rev_ind; [done|]. rewrite name_close_snoc. cbn [fst snd].
  rewrite elem_of_app, list_elem_of_singleton. case_decide as E; [subst n; intros [= ->]; by right|]. left. by apply IH.
Qed.

Lemma elem_name_close names q c : (q, c) ∈ names → is_Some (name_close names q).
Proof.
  induction names as [|[n c'] names IH] using rev_ind; [by intros ?%not_elem_of_nil|].
  rewrite name_close_snoc. cbn [fst snd]. rewrite elem_of_app, list_elem_of_singleton.
  case_decide; [by eexists|]. intros [?|[= -> ->]]; [by apply IH|done].
Qed.

(** What a name of a rule may owe ends its lexeme. *)
Lemma owed_closes pos s columns vars kind names q b sh :
  legal_names pos s columns vars = Some (kind, names) → name_close names q = Some (MustFollow b) →
  continues sh b = false.
Proof.
  unfold legal_names. destruct (TrieRule_of _ _ _ _) as [rule|]; cbn [mbind option_bind]; [|done].
  destruct (names_of (tr_names rule)) as [ns|] eqn:En; cbn [mbind option_bind]; [|done]. intros [= _ ->] Hc.
  apply name_close_elem in Hc.
  enough (b = CALL_OPEN ∨ b = SOURCE_NAV_DOT ∨ b = SOURCE_STEP_ARROW) as [->|[->| ->]] by (by destruct sh).
  assert (∀ bs, (q, MustFollow b) ∈ free_names bs → False) as Hfree.
  { intros bs (x & [=] & _)%list_elem_of_fmap. }
  unfold names_of in En. destruct (tr_names rule) as [s'| | |s' class| | |].
  - injection En as <-. apply elem_of_app in Hc as [Hc|Hc].
    + apply list_elem_of_fmap in Hc as (path & Heq & _). unfold source_close in Heq.
      destruct (has_class s' path); injection Heq as _ ->; tauto.
    + by apply list_elem_of_singleton in Hc.
  - injection En as <-. apply list_elem_of_singleton in Hc. injection Hc as _ ->. by left.
  - injection En as <-. apply list_elem_of_singleton in Hc. injection Hc as _ ->. by left.
  - destruct (member_names s' class); [|done]. injection En as <-. by destruct (Hfree _ Hc).
  - injection En as <-. by destruct (Hfree _ Hc).
  - injection En as <-. by destruct (Hfree _ Hc).
  - injection En as <-. by destruct (Hfree _ Hc).
Qed.

(** The next byte of a name is legal, if the rule takes it for part of one. *)
Lemma next_byte_legal names kind p b rest c :
  (p ++ b :: rest, c) ∈ names → is_candidate [b] kind true = true → name_legal names kind p [b] = true.
Proof.
  intros Hin Hcand. unfold name_legal.
  assert (∀ sh, extends_name names sh p [b] = true) as Hext.
  { intros sh. unfold extends_name. cbn [reach].
    rewrite decide_True; [done|]. apply live_nonempty. exists (p ++ b :: rest), c. split; [done|].
    exists rest. by rewrite <-app_assoc. }
  destruct p as [|b0 p].
  - destruct (is_candidate [b] kind false); [apply Hext|]. destruct (bool_decide _); [done|].
    cbn [point_of skip_leading_ws]. destruct (is_ws b); [done|].
    destruct (is_candidate [b] kind false); [apply Hext|done].
  - rewrite Hcand. apply Hext.
Qed.

(** The byte a whole name owes is legal after it. *)
Lemma owed_byte_legal names kind p b :
  p ≠ [] → name_close names p = Some (MustFollow b) → continues (shape kind) b = false →
  name_legal names kind p [b] = true.
Proof.
  intros Hp Hc Hcont. unfold name_legal. destruct p as [|b0 p]; [done|].
  destruct (is_candidate [b] kind true).
  - unfold extends_name. cbn [reach]. case_decide; [done|].
    rewrite bool_decide_true by (by rewrite Hc). rewrite Hcont. cbn [andb negb].
    rewrite Hc. change (default Free (Some (MustFollow b))) with (MustFollow b). cbn. apply byte_eqb_refl.
  - destruct (bool_decide _); [done|]. unfold point_of. rewrite Hc. cbn. apply byte_eqb_refl.
Qed.

(** ** Properties *)

(** Whatever narrowing, completion checks and fused or sigil passes came
    before in the stream, over one buffer and one memo, [narrow_into] never
    panics, and computes the position's legal set as the specification gives
    it, without tries and without a memo: no constraint leaves the buffer as
    it was; a constraint leaves in it exactly the legal tokens, and the
    end-of-stream bit exactly if the stream may end there. *)
Theorem narrow_into_exact v s C V ops dst0 pos prefix columns vars :
  vocab_fits v → names_bounded s C V → sized v dst0 → Forall (op_within C V) ops →
  columns `prefix_of` C → vars `prefix_of` V →
  ∃ dst c m c' applies,
    run_ops v s dst0 NarrowCache_new ops = Some (dst, c)
    ∧ narrow_into dst c s pos prefix columns vars v (eos_id v) = Some (m, c', applies)
    ∧ match legal pos s prefix columns vars with
      | None => applies = false ∧ m = dst
      | Some (keep, ends) =>
          applies = true
          ∧ ∀ id, test m id = match vocab_bytes v id with
                              | Some bytes => keep bytes
                              | None => (id =? eos_id v)%N && ends
                              end
      end.
Proof.
  intros Hv Hb Hd Hops Hcol Hvar.
  destruct (run_ops_ok v s C V ops dst0 NarrowCache_new) as (dst & c & Hrun & Hd' & Hc);
    [done|done|apply cache_new_ok|done|done|].
  destruct (run_op_result v s C V dst c (OpNarrow pos prefix columns vars)) as (c' & _ & Hn); [done..|].
  cbn [run_op op_result] in Hn. eexists dst, c, _, c', _. split; [exact Hrun|]. split; [exact Hn|].
  destruct (legal pos s prefix columns vars) as [[keep ends]|]; [|done].
  split; [done|]. intros id. cbn [narrowed fst]. by rewrite legal_mask_test.
Qed.

(** The completion check [admits_eos] and the mask [narrow_into] agree on
    where the stream may end, with any memo and whichever of the two runs
    first: a narrowed mask has the end-of-stream bit exactly if [admits_eos]
    says so, and where nothing is narrowed [admits_eos] says that the stream
    may end. *)
Theorem ends_agree v s C V ops dst0 pos prefix columns vars :
  vocab_fits v → names_bounded s C V → sized v dst0 → Forall (op_within C V) ops →
  columns `prefix_of` C → vars `prefix_of` V →
  ∃ dst c m c' applies c1 ends,
    run_ops v s dst0 NarrowCache_new ops = Some (dst, c)
    ∧ narrow_into dst c s pos prefix columns vars v (eos_id v) = Some (m, c', applies)
    ∧ admits_eos c' s pos prefix columns vars = Some (c1, ends)
    ∧ (snd <$> admits_eos c s pos prefix columns vars) = Some ends
    ∧ ends = if applies then test m (eos_id v) else true.
Proof.
  intros Hv Hb Hd Hops Hcol Hvar.
  destruct (run_ops_ok v s C V ops dst0 NarrowCache_new) as (dst & c & Hrun & Hd' & Hc);
    [done|done|apply cache_new_ok|done|done|].
  destruct (run_op_result v s C V dst c (OpNarrow pos prefix columns vars)) as (c' & Hc' & Hn); [done..|].
  destruct (admits_eos_yields v s C V Hb c pos prefix columns vars) as (c0 & _ & He0); [done..|].
  destruct (admits_eos_yields v s C V Hb c' pos prefix columns vars) as (c1 & _ & He); [done..|].
  cbn [run_op op_result] in Hn. eexists dst, c, _, c', _, c1, _.
  split_and!; [exact Hrun|exact Hn|exact He|by rewrite He0|].
  destruct (legal pos s prefix columns vars) as [l|]; cbn [narrowed fst snd]; [|done].
  rewrite legal_mask_test by done.
  by rewrite eos_not_token, N.eqb_refl.
Qed.

(** C9. At a position that names something of the schema or of the stream, while
    what has been emitted begins one of the names, a token of the rule's
    lexeme is admitted exactly if it goes on with one of the names, or ends
    one on a byte that the name's close policy takes and that neither the
    lexeme nor a longer name goes on with: no phantom name is ever spelled or
    closed. *)
Theorem no_phantom_name v s C V dst pos prefix columns vars kind names id bytes :
  vocab_fits v → names_bounded s C V → sized v dst → columns `prefix_of` C → vars `prefix_of` V →
  legal_names pos s columns vars = Some (kind, names) → live names prefix →
  vocab_bytes v id = Some bytes → is_candidate bytes kind (negb (same_bytes prefix [])) = true →
  ∃ m c', narrow_into dst NarrowCache_new s pos prefix columns vars v (eos_id v) = Some (m, c', true)
    ∧ (test m id = true ↔
         live names (prefix ++ bytes)
         ∨ ∃ pre b rest cl, bytes = pre ++ b :: rest ∧ name_close names (prefix ++ pre) = Some cl
             ∧ close_admits cl b = true ∧ continues (shape kind) b = false
             ∧ ¬ live names (prefix ++ pre ++ [b])).
Proof.
  intros Hv Hb Hd Hcol Hvar Hnames Hlive Hid Hcand.
  destruct (fresh_narrow v s C V dst pos prefix columns vars) as (c' & Hn); [done..|].
  unfold legal in Hn. rewrite Hnames in Hn. unfold name_rule in Hn. rewrite decide_True in Hn by done.
  eexists _, c'. split; [exact Hn|]. cbn [narrowed fst]. rewrite legal_mask_test, Hid by done. cbn [fst].
  rewrite <-extends_name_exact by done. unfold name_legal.
  replace (match prefix with [] => false | _ => true end) with (negb (same_bytes prefix []))
    by (destruct prefix; [done|unfold same_bytes; by rewrite bool_decide_false]).
  by rewrite Hcand.
Qed.

(** No name is masked out of reach: over a vocabulary with every byte for a
    token, as long as what has been emitted begins a name, the token of the
    name's next byte is admitted, if it is a byte the rule takes for part of a
    name; and when the name is whole the stream may end, or the token of the
    byte the name owes is admitted.  So the overlay alone never stops a decoder
    within such a name. *)
Theorem names_spellable v s C V dst pos prefix columns vars kind names rest c :
  vocab_fits v → names_bounded s C V → sized v dst → columns `prefix_of` C → vars `prefix_of` V →
  (∀ b, ∃ id, vocab_bytes v id = Some [b]) →
  legal_names pos s columns vars = Some (kind, names) → (prefix ++ rest, c) ∈ names →
  Forall (λ b, is_candidate [b] kind true = true) rest →
  ∃ m c', narrow_into dst NarrowCache_new s pos prefix columns vars v (eos_id v) = Some (m, c', true)
    ∧ match rest with
      | b :: _ => ∃ id, vocab_bytes v id = Some [b] ∧ test m id = true
      | [] => test m (eos_id v) = true
              ∨ ∃ b id, name_close names prefix = Some (MustFollow b) ∧ vocab_bytes v id = Some [b]
                        ∧ test m id = true
      end.
Proof.
  intros Hv Hb Hd Hcol Hvar Hbytes Hnames Hin Hrest.
  assert (live names prefix) as Hlive.
  { apply (live_app names prefix rest). apply elem_name_close in Hin as [cl Hcl]. by apply name_close_live in Hcl. }
  destruct (fresh_narrow v s C V dst pos prefix columns vars) as (c' & Hn); [done..|].
  unfold legal in Hn. rewrite Hnames in Hn. unfold name_rule in Hn. rewrite decide_True in Hn by done.
  eexists _, c'. split; [exact Hn|]. cbn [narrowed fst]. destruct rest as [|b rest].
  - rewrite app_nil_r in Hin. destruct (elem_name_close _ _ _ Hin) as [cl Hcl].
    destruct (decide (prefix = [])) as [->|Hne]; [left|destruct cl as [|b]; [left|right]].
    + rewrite legal_mask_test by done. by rewrite eos_not_token, N.eqb_refl.
    + rewrite legal_mask_test, eos_not_token, N.eqb_refl by done. unfold point_of. rewrite Hcl.
      by destruct prefix.
    + destruct (Hbytes b) as [id Hid]. exists b, id. split; [done|]. split; [done|].
      rewrite legal_mask_test, Hid by done. cbn [fst]. apply owed_byte_legal; [done|done|].
      by eapply owed_closes.
  - destruct (Hbytes b) as [id Hid]. exists id. split; [done|]. rewrite legal_mask_test, Hid by done. cbn [fst].
    apply Forall_cons in Hrest as [Hb0 _]. by eapply next_byte_legal.
Qed.

(** A relation column whose name has a byte that no identifier has, such as a
    space, is a trap for the bare-identifier rule: once the stream has spelled
    the part before that byte, no token of any vocabulary is admitted and the
    stream may not end. *)
Theorem relation_column_dead_end v s dst p b rest vars :
  vocab_fits v → names_bounded s [p ++ b :: rest] vars → sized v dst → p ≠ [] → is_ident_tail b = false →
  ∃ m c', narrow_into dst NarrowCache_new s Pos.RelationColumn p [p ++ b :: rest] vars v (eos_id v)
          = Some (m, c', true)
    ∧ ∀ id, test m id = false.
Proof.
  intros Hv Hb Hd Hp Htail.
  destruct (fresh_narrow v s [p ++ b :: rest] vars dst Pos.RelationColumn p [p ++ b :: rest] vars) as (c' & Hn);
    [done..|].
  cbn [legal legal_names TrieRule_of mbind option_bind names_of tr_names tr_kind] in Hn.
  set (names := free_names [p ++ b :: rest]) in *.
  assert (live names p) as Hlive by (right; apply Exists_cons_hd; by exists (b :: rest)).
  assert (name_close names p = None) as Hnone.
  { destruct (name_close names p) as [cl|] eqn:E; [|done]. apply name_close_elem in E.
    apply list_elem_of_singleton in E. injection E as E _. exfalso.
    apply (f_equal length) in E. rewrite length_app in E. cbn in E. lia. }
  unfold name_rule in Hn. rewrite decide_True in Hn by done.
  eexists _, c'. split; [exact Hn|]. intros id. cbn [narrowed fst]. rewrite legal_mask_test by done.
  cbn [fst snd]. assert (point_of names p = Partial) as -> by (unfold point_of; rewrite Hnone; by destruct p).
  destruct (vocab_bytes v id) as [bytes|]; [|by rewrite andb_false_r].
  unfold name_legal. assert (point_of names p = Partial) as -> by (unfold point_of; rewrite Hnone; by destruct p).
  destruct p as [|b0 p]; [done|]. destruct bytes as [|x bytes]; [done|]. cbn [is_candidate].
  destruct (is_ident_tail x) eqn:Ex; [|done]. unfold extends_name. cbn [reach].
  rewrite decide_False.
  - rewrite Hnone. by rewrite bool_decide_false by (by intros [? ?]).
  - intros (n & cl & Hin & Hpre)%live_nonempty. apply list_elem_of_singleton in Hin. injection Hin as -> _.
    apply (prefix_app_inv (b0 :: p)) in Hpre. apply prefix_cons_inv_1 in Hpre. congruence.
Qed.

(** ** Witnesses *)

(** A schema of one class and its store. *)
Definition demo_schema : Schema.Schema := from_data {|
  data_db_id := "demo"; data_db_path := "m::Db";
  data_classes := [("m::Car", {|
    simple_name := "Car";
    properties := [
      {| prop_name := "name"; prop_type := PrimitiveType StringPrim; prop_mult := {| lower := 1; upper := Some 1%N |} |};
      {| prop_name := "maker id"; prop_type := PrimitiveType Integer; prop_mult := {| lower := 0; upper := None |} |}];
    qualified_properties := []; super_types := ["m::Car"]; class_temporal := None |})];
  data_associations := []; data_enums := [] |}.

Definition demo_columns : list (list byte) := [text "Gross Credits"].
Definition demo_vars : list string := ["x"].

(** Every byte is a token, and some longer ones. *)
Definition demo_vocab : Vocab :=
  from_byte_tokens (((λ b, [b]) <$> all_bytes) ++ (text <$> ["name"; "me"; "phantom"; "me("; ".name"; ".no"])).

Lemma narrow_demo_bounded : names_bounded demo_schema demo_columns demo_vars.
Proof.
  apply bounded_names.
  - intros names [= <-]. apply small_fit. vm_compute. reflexivity.
  - intros class names. destruct (decide (class = "m::Car")) as [->|Hne].
    + intros [= <-]. apply small_fit. vm_compute. reflexivity.
    + unfold names_of. rewrite (member_names_unknown demo_schema class).
      * intros [= <-]. apply small_fit. vm_compute. reflexivity.
      * unfold hm_get. cbn [demo_schema from_data classes data_classes List.find fst snd].
        by rewrite (proj2 (String.eqb_neq _ _)) by congruence.
      * done.
  - apply small_fit. vm_compute. reflexivity.
  - apply small_fit. vm_compute. reflexivity.
Qed.

Lemma narrow_demo_fits : vocab_fits demo_vocab.
Proof. vm_compute. reflexivity. Qed.

Lemma demo_tokens b : ∃ id, vocab_bytes demo_vocab id = Some [b].
Proof. exists (Byte.to_N b). by destruct b. Qed.

Definition demo_ops : list NarrowOp :=
  [OpNarrow Pos.SourceIdent (text "m::C") [] []; OpSigil; OpFused (Pos.Member "m::Car") [];
   OpNarrow (Pos.Member "m::Car") (text "n") demo_columns demo_vars; OpEnd Pos.Column [] demo_columns []].

Lemma demo_within : Forall (op_within demo_columns demo_vars) demo_ops.
Proof. repeat constructor; try (by exists demo_columns); try (by exists demo_vars); try (by exists []). Qed.

(** Whether a legal set keeps some bytes, and whether it keeps the end. *)
Definition keeps (l : option Legal) (bytes : list byte) : bool := match l with Some l => l.1 bytes | None => true end.
Definition keeps_end (l : option Legal) : bool := match l with Some l => l.2 | None => true end.

Definition demo_legal : option Legal := legal (Pos.Member "m::Car") demo_schema (text "na") demo_columns demo_vars.

Lemma demo_keeps :
  ∃ l, demo_legal = Some l ∧ l.1 (text "me") = true ∧ l.1 (text "phantom") = false ∧ l.1 (text "me(") = true
       ∧ l.2 = false.
Proof.
  assert (keeps demo_legal (text "me") && negb (keeps demo_legal (text "phantom"))
          && keeps demo_legal (text "me(") && negb (keeps_end demo_legal) = true) as H by (vm_compute; reflexivity).
  destruct demo_legal as [l|]; [|done]. exists l. cbn [keeps keeps_end] in H.
  apply andb_true_iff in H as [[[? ?%negb_true_iff]%andb_true_iff ?]%andb_true_iff ?%negb_true_iff]. done.
Qed.

Lemma narrow_into_exact_witness :
  ∃ dst c m c',
    run_ops demo_vocab demo_schema (with_len (mask_size demo_vocab)) NarrowCache_new demo_ops = Some (dst, c)
    ∧ narrow_into dst c demo_schema (Pos.Member "m::Car") (text "na") demo_columns demo_vars demo_vocab
        (eos_id demo_vocab) = Some (m, c', true)
    ∧ test m 257 = true ∧ test m 258 = false ∧ test m 259 = true ∧ test m (eos_id demo_vocab) = false.
Proof.
  destruct (narrow_into_exact demo_vocab demo_schema demo_columns demo_vars demo_ops
    (with_len (mask_size demo_vocab)) (Pos.Member "m::Car") (text "na") demo_columns demo_vars)
    as (dst & c & m & c' & applies & Hrun & Hn & Hl);
    [exact narrow_demo_fits|exact narrow_demo_bounded|apply sized_with_len|exact demo_within|by exists []|by exists []|].
  exists dst, c, m, c'. split; [exact Hrun|]. rewrite Hn. fold demo_legal in Hl.
  destruct demo_keeps as ([keep ends] & El & K1 & K2 & K3 & K4). cbn [fst snd] in *.
  rewrite El in Hl. destruct Hl as [-> Ht]. split; [done|]. rewrite !Ht, K4.
  split_and!; [exact K1|exact K2|exact K3|vm_compute; reflexivity].
Defined.

Lemma ends_agree_witness :
  ∃ dst c m c' c1,
    run_ops demo_vocab demo_schema (with_len (mask_size demo_vocab)) NarrowCache_new demo_ops = Some (dst, c)
    ∧ narrow_into dst c demo_schema Pos.SourceIdent (text "m::Db") demo_columns demo_vars demo_vocab
        (eos_id demo_vocab) = Some (m, c', true)
    ∧ admits_eos c' demo_schema Pos.SourceIdent (text "m::Db") demo_columns demo_vars = Some (c1, false)
    ∧ test m (eos_id demo_vocab) = false.
Proof.
  destruct (ends_agree demo_vocab demo_schema demo_columns demo_vars demo_ops
    (with_len (mask_size demo_vocab)) Pos.SourceIdent (text "m::Db") demo_columns demo_vars)
    as (dst & c & m & c' & applies & c1 & ends & Hrun & Hn & He & He0 & Heq);
    [exact narrow_demo_fits|exact narrow_demo_bounded|apply sized_with_len|exact demo_within|by exists []|by exists []|].
  assert ((x ← run_ops demo_vocab demo_schema (with_len (mask_size demo_vocab)) NarrowCache_new demo_ops;
           snd <$> admits_eos x.2 demo_schema Pos.SourceIdent (text "m::Db") demo_columns demo_vars) = Some false)
    as Hf by (vm_compute; reflexivity).
  rewrite Hrun in Hf. cbn [mbind option_bind snd] in Hf. rewrite He0 in Hf. injection Hf as ->.
  destruct applies; [|discriminate Heq].
  exists dst, c, m, c', c1. split_and!; [exact Hrun|exact Hn|exact He|by symmetry].
Defined.

Lemma no_phantom_name_witness :
  ∃ m c', narrow_into (with_len (mask_size demo_vocab)) NarrowCache_new demo_schema (Pos.Member "m::Car")
            (text "na") demo_columns demo_vars demo_vocab (eos_id demo_vocab) = Some (m, c', true)
    ∧ test m 257 = true.
Proof.
  set (names := default [] (names_of (NMember demo_schema "m::Car"))).
  destruct (no_phantom_name demo_vocab demo_schema demo_columns demo_vars (with_len (mask_size demo_vocab))
    (Pos.Member "m::Car") (text "na") demo_columns demo_vars KIdentOrStr names 257 (text "me"))
    as (m & c' & Hn & Ht);
    [exact narrow_demo_fits|exact narrow_demo_bounded|apply sized_with_len|by exists []|by exists []|vm_compute; reflexivity
    |apply (bool_decide_unpack _); vm_compute; exact I|vm_compute; reflexivity|vm_compute; reflexivity|].
  exists m, c'. split; [exact Hn|]. apply Ht. left. apply (bool_decide_unpack _). vm_compute. exact I.
Defined.

Lemma names_spellable_witness :
  ∃ m c', narrow_into (with_len (mask_size demo_vocab)) NarrowCache_new demo_schema (Pos.Member "m::Car")
            (text "'maker") demo_columns demo_vars demo_vocab (eos_id demo_vocab) = Some (m, c', true)
    ∧ ∃ id, vocab_bytes demo_vocab id = Some [" "%byte] ∧ test m id = true.
Proof.
  set (names := default [] (names_of (NMember demo_schema "m::Car"))).
  destruct (names_spellable demo_vocab demo_schema demo_columns demo_vars (with_len (mask_size demo_vocab))
    (Pos.Member "m::Car") (text "'maker") demo_columns demo_vars KIdentOrStr names (text " id'") Free)
    as (m & c' & Hn & Ht);
    [exact narrow_demo_fits|exact narrow_demo_bounded|apply sized_with_len|by exists []|by exists []|exact demo_tokens
    |vm_compute; reflexivity|apply (bool_decide_unpack _); vm_compute; exact I|repeat constructor|].
  exists m, c'. split; [exact Hn|exact Ht].
Defined.

(** A column named [Gross Credits], and [$row.Gross] emitted. *)
Lemma relation_column_dead_end_witness :
  ∃ m c', narrow_into (with_len (mask_size demo_vocab)) NarrowCache_new demo_schema Pos.RelationColumn
            (text "Gross") [text "Gross Credits"] demo_vars demo_vocab (eos_id demo_vocab) = Some (m, c', true)
    ∧ ∀ id, test m id = false.
Proof.
  exact (relation_column_dead_end demo_vocab demo_schema (with_len (mask_size demo_vocab)) (text "Gross")
    " "%byte (text "Credits") demo_vars narrow_demo_fits narrow_demo_bounded (sized_with_len demo_vocab)
    ltac:(discriminate) eq_refl).
Defined.
