(* ===== verification/Overlay.v ===== *)
(** * The schema overlay of a session

    The [Overlay] that [session.rs] is given: the narrowing of
    [schema/narrow.rs] at the positions of a scope tracker.  The tracker
    ([schema/scope.rs]) is an interface, the class [ScopeTracker], with the one
    law narrowing needs of it. *)

From stdpp Require Import relations.
From S2P Require Import Prelude StackMachine PdaState Pda Mask Compiled Session SessionCorrect.
From S2P Require Import Trie Schema Position Narrow NarrowSpec NarrowLaws.

(** ** The tracker's interface *)

Class ScopeTracker := {
  ScopeT : Type;
  scope_new : ScopeT;
  scope_position : ScopeT → State → Pos.L2Position;
  narrow_prefix : ScopeT → list byte;
  emitted_columns : ScopeT → list (list byte);
  bound_variables : ScopeT → list string;
  scope_masks_unbound_sigil : ScopeT → State → bool;
  scope_fused_nav_position : ScopeT → Schema.Schema → option Pos.L2Position;
  scope_observe : ScopeT → list byte → Pda → Schema.Schema → ScopeT;
}.

(** The columns and the variables of a stream only grow. *)
Class ScopeGrows `{ScopeTracker} : Prop := scope_grows t bytes p s :
  emitted_columns t `prefix_of` emitted_columns (scope_observe t bytes p s)
  ∧ bound_variables t `prefix_of` bound_variables (scope_observe t bytes p s).

(** ** The overlay *)

(** An operation on the session's buffer and memo; a memo that a panic has
    left behind is [None]. *)
Definition on_memo (dst : BitMask) (cache : option Narrow.NarrowCache) (op : Narrow.NarrowCache → Narrowed)
    : BitMask * option Narrow.NarrowCache * bool :=
  match cache ≫= op with
  | Some (m, c, applies) => (m, Some c, applies)
  | None => (dst, None, false)
  end.

#[local] Instance overlay_of `{ScopeTracker} : Overlay := {|
  Session.Schema := Schema.Schema;
  Tracker := ScopeT;
  Session.NarrowCache := option Narrow.NarrowCache;
  Session.L2Position := Pos.L2Position;
  tracker_new := scope_new;
  narrow_cache_new := Some NarrowCache_new;
  narrow_cache_clear := fmap NarrowCache_clear;
  position := scope_position;
  position_is_none pos := match pos with Pos.NoPosition => true | _ => false end;
  masks_unbound_sigil := scope_masks_unbound_sigil;
  fused_nav_position := scope_fused_nav_position;
  observe := scope_observe;
  Session.narrow_into dst cache s pos t v eos :=
    on_memo dst cache (λ c,
      Narrow.narrow_into dst c s pos (narrow_prefix t) (emitted_columns t) (bound_variables t) v eos);
  Session.narrow_sigil_into dst cache v eos := on_memo dst cache (λ c, Narrow.narrow_sigil_into dst c v eos);
  Session.narrow_fused_into dst cache s pos t v eos :=
    on_memo dst cache (λ c, Narrow.narrow_fused_into dst c s pos (emitted_columns t) v eos);
  Session.admits_eos cache s pos t :=
    match cache ≫= (λ c, Narrow.admits_eos c s pos (narrow_prefix t) (emitted_columns t) (bound_variables t)) with
    | Some (c, e) => (Some c, e)
    | None => (None, false)
    end;
|}.

Section overlay.
Context `{ScopeTracker}.
Context (sch : Schema.Schema).

(** ** The bits a legal set keeps *)

Definition keeps_id (v : Vocab) (l : option Legal) (id : N) : bool :=
  match l with
  | None => true
  | Some l => match vocab_bytes v id with Some bytes => l.1 bytes | None => (id =? eos_id v)%N && l.2 end
  end.

(** The legal set of the mask operations. *)
Definition op_legal (op : NarrowOp) : option Legal :=
  match op with
  | OpNarrow pos prefix columns vars => legal pos sch prefix columns vars
  | OpSigil => Some sigil_legal
  | OpFused pos columns => fused_legal pos sch columns
  | OpEnd _ _ _ _ => None
  end.

Definition is_mask_op (op : NarrowOp) : bool := match op with OpEnd _ _ _ _ => false | _ => true end.

(** What the schema leaves of the tokens at a tracker and a state. *)
Definition schema_keeps (v : Vocab) (t : ScopeT) (st : State) (id : N) : bool :=
  keeps_id v (legal (scope_position t st) sch (narrow_prefix t) (emitted_columns t) (bound_variables t)) id
  && (if scope_masks_unbound_sigil t st then keeps_id v (Some sigil_legal) id else true)
  && match scope_fused_nav_position t sch with
     | Some fused => keeps_id v (fused_legal fused sch (emitted_columns t)) id
     | None => true
     end.

(** Whether the schema lets the stream end there. *)
Definition schema_ends (t : ScopeT) (st : State) : bool :=
  match legal (scope_position t st) sch (narrow_prefix t) (emitted_columns t) (bound_variables t) with
  | Some l => l.2
  | None => true
  end.

(** ** The invariant *)

(** The names of the schema and of the stream so far fit the trie's ids. *)
Definition tracker_bounded (t : ScopeT) : Prop := names_bounded sch (emitted_columns t) (bound_variables t).

(** A memo sound for every continuation of the stream. *)
Definition memo_upto (v : Vocab) (t : ScopeT) (c : Narrow.NarrowCache) : Prop :=
  ∀ C V, emitted_columns t `prefix_of` C → bound_variables t `prefix_of` V → names_bounded sch C V →
    cache_ok v sch C V c.

Definition tracker_op (t : ScopeT) (op : NarrowOp) : Prop := op_within (emitted_columns t) (bound_variables t) op.

Lemma op_within_grows C V C' V' op :
  C `prefix_of` C' → V `prefix_of` V' → op_within C V op → op_within C' V' op.
Proof. intros HC HV. destruct op; cbn; try done; [intros []|intros ?|intros []]; try split; by etrans. Qed.

Lemma memo_run v t dst c op :
  vocab_fits v → tracker_bounded t → memo_upto v t c → sized v dst → tracker_op t op →
  ∃ c', memo_upto v t c'
    ∧ run_op v sch dst c op = Some ((op_result v sch dst op).1, c', (op_result v sch dst op).2).
Proof.
  intros Hv Hb Hc Hd Hop.
  destruct (run_op_result v sch (emitted_columns t) (bound_variables t) dst c op) as (c' & _ & Hrun);
    [done|done|by apply Hc|done|done|].
  exists c'. split; [|done]. intros C V HC HV Hb'.
  destruct (run_op_result v sch C V dst c op) as (c2 & Hc2 & Hrun2);
    [done|done|by apply Hc|done|by eapply op_within_grows|].
  rewrite Hrun in Hrun2. by injection Hrun2 as <-.
Qed.

Record memo_ok (g : CompiledGrammar) (s : DecoderSession) : Prop := {
  memo_fits : vocab_fits (vocab g);
  memo_schema : schema s = Some sch;
  memo_tracker : tracker_bounded (tracker s);
  memo_buf : sized (vocab g) (narrow_buf s);
  memo_cache : ∃ c, narrow_cache s = Some c ∧ memo_upto (vocab g) (tracker s) c;
  memo_mask : sized (vocab g) (mask s);
}.

(** One narrow of the session: its legal set is intersected into the mask. *)
Lemma apply_op g s op out :
  memo_ok g s → tracker_op (tracker s) op → is_mask_op op = true →
  out = on_memo (narrow_buf s) (narrow_cache s) (λ c, run_op (vocab g) sch (narrow_buf s) c op) →
  memo_ok g (apply_narrow s out)
  ∧ cursor (apply_narrow s out) = cursor s ∧ tracker (apply_narrow s out) = tracker s
  ∧ ∀ id, test (mask (apply_narrow s out)) id = test (mask s) id && keeps_id (vocab g) (op_legal op) id.
Proof.
  intros [Hv Hs Ht Hbuf (c & Hc & Hup) Hm] Hop Hmask ->. unfold on_memo. rewrite Hc. cbn [mbind option_bind].
  destruct (memo_run (vocab g) (tracker s) (narrow_buf s) c op) as (c' & Hup' & ->); [done..|].
  pose proof (op_result_sized (vocab g) sch (narrow_buf s) op Hv Hbuf) as Hsz.
  assert (op_result (vocab g) sch (narrow_buf s) op = NarrowLaws.narrowed (vocab g) (narrow_buf s) (op_legal op))
    as Hres by (by destruct op).
  rewrite Hres in *. unfold apply_narrow.
  destruct (op_legal op) as [l|]; cbn [NarrowLaws.narrowed fst snd] in *.
  - split_and!; try done.
    + split; cbn; try done; [by exists c'|]. destruct Hm as [Hm Hl]. split; [by apply intersect_any_ok|done].
    + intros id. cbn [mask with_mask with_narrow]. destruct Hm as [Hm Hl], Hsz as [Hok Hlen].
      rewrite test_intersect by (done || congruence). by rewrite legal_mask_test.
  - split_and!; try done.
    + split; cbn; try done. by exists c'.
    + intros id. cbn. by rewrite andb_true_r.
Qed.
End overlay.

(** ** The session's own tracker

    The tracker of [Scope] implements the interface. *)

From S2P Require Import Pda Schema Position Scope ScopeWalk.

#[export] Instance tracker_of_scope : Overlay.ScopeTracker := {|
  ScopeT := Scope.ScopeTracker;
  scope_new := ScopeTracker_new;
  scope_position := Scope.position;
  Overlay.narrow_prefix := Scope.narrow_prefix;
  Overlay.emitted_columns := Scope.emitted_columns;
  Overlay.bound_variables := Scope.bound_variables;
  scope_masks_unbound_sigil := Scope.masks_unbound_sigil;
  scope_fused_nav_position := Scope.fused_nav_position;
  scope_observe := Scope.observe;
|}.

#[export] Instance tracker_grows : ScopeGrows.
Proof. intros t bytes p s. exact (observe_law stream_grows s t bytes p). Qed.
