(* ===== verification/OverlayProps.v ===== *)
(** * Sessions under a schema

    The composition of [session.rs] with [schema/narrow.rs]: the mask of a
    session with a schema is the syntactic mask less exactly what the
    position's legal sets refuse, and [is_complete] is its end-of-stream
    bit. *)

From stdpp Require Import relations.
From S2P Require Import Prelude StackMachine PdaState Pda Mask Compiled Session SessionCorrect Trie Schema SchemaProps Position Narrow NarrowSpec NarrowLaws Overlay.

#[local] Existing Instance overlay_of.

Section sessions.
Context `{ScopeGrows}.
Context (sch : Schema.Schema).

(** ** The operations keep the memo sound *)

Lemma memo_ok_upto g s s' :
  memo_ok sch g s → schema s' = schema s → tracker s' = tracker s → narrow_buf s' = narrow_buf s →
  narrow_cache s' = narrow_cache s → sized (vocab g) (mask s') → memo_ok sch g s'.
Proof. intros [? ? ? ? ? ?] Hs Ht Hb Hc Hm. split; rewrite ?Hs, ?Ht, ?Hb, ?Hc; done. Qed.

Lemma memo_ok_grammar g g' s : vocab g' = vocab g → memo_ok sch g s → memo_ok sch g' s.
Proof. intros Hv [? ? ? ? ? ?]. split; rewrite ?Hv; done. Qed.

Lemma eos_bit_id g : vocab_fits (vocab g) → eos_bit g = eos_id (vocab g).
Proof. apply eos_bit_fits. Qed.

Lemma mask_len_size g : vocab_fits (vocab g) → mask_len g = mask_size (vocab g).
Proof. intros Hv. unfold mask_len, mask_size. rewrite eos_bit_fits by done. lia. Qed.

Lemma within_now (t : ScopeT) pos prefix : tracker_op t (OpNarrow pos prefix (emitted_columns t) (bound_variables t)).
Proof. by split. Qed.

(** The three narrows of the mask. *)
Lemma l2_narrow_exact g s p :
  memo_ok sch g s →
  memo_ok sch g (l2_narrow g s sch p) ∧ cursor (l2_narrow g s sch p) = cursor s
  ∧ tracker (l2_narrow g s sch p) = tracker s
  ∧ ∀ id, test (mask (l2_narrow g s sch p)) id
          = test (mask s) id && schema_keeps sch (vocab g) (tracker s) (pda_state p) id.
Proof.
  intros Hok. pose proof (eos_bit_id g (memo_fits _ _ _ Hok)) as Heos. unfold l2_narrow, schema_keeps.
  cbn [position Session.narrow_into Session.narrow_sigil_into Session.narrow_fused_into overlay_of
       masks_unbound_sigil fused_nav_position].
  set (t := tracker s). rewrite Heos.
  destruct (apply_op sch g s (OpNarrow (scope_position t (pda_state p)) (narrow_prefix t) (emitted_columns t)
    (bound_variables t)) _ Hok (within_now t _ _) eq_refl eq_refl) as (Hok1 & Hc1 & Ht1 & Hm1).
  cbn [run_op op_legal] in *. set (s1 := apply_narrow s _) in *.
  set (s2 := if scope_masks_unbound_sigil _ _ then _ else _).
  assert (memo_ok sch g s2 ∧ cursor s2 = cursor s ∧ tracker s2 = t ∧
    ∀ id, test (mask s2) id = test (mask s1) id
      && (if scope_masks_unbound_sigil t (pda_state p) then keeps_id (vocab g) (Some sigil_legal) id else true))
    as (Hok2 & Hc2 & Ht2 & Hm2).
  { subst s2. rewrite Ht1. fold t. destruct (scope_masks_unbound_sigil t (pda_state p)).
    - destruct (apply_op sch g s1 OpSigil _ Hok1 I eq_refl eq_refl) as (? & Hc2 & Ht2 & Hm2).
      cbn [run_op op_legal] in *. split_and!; [done|by rewrite Hc2, Hc1|by rewrite Ht2, Ht1|exact Hm2].
    - split_and!; try done. intros id. by rewrite andb_true_r. }
  rewrite Ht2. destruct (scope_fused_nav_position t sch) as [fused|].
  - assert (tracker_op (tracker s2) (OpFused fused (emitted_columns t))) as Hop
      by (rewrite Ht2; unfold tracker_op; cbn; reflexivity).
    destruct (apply_op sch g s2 (OpFused fused (emitted_columns t)) _ Hok2 Hop eq_refl eq_refl)
      as (? & Hc3 & Ht3 & Hm3).
    cbn [run_op op_legal] in *. split_and!; [done|by rewrite Hc3, Hc2|by rewrite Ht3, Ht2|]. intros id. rewrite Hm3, Hm2, Hm1. by rewrite !andb_assoc.
  - split_and!; try done. intros id. rewrite Hm2, Hm1, !andb_assoc. by rewrite andb_true_r.
Qed.

Lemma allowed_mask_exact g s p scr :
  grammar_ok g → session_ok g s → engine g = EngineFixed → memo_ok sch g s → cursor s = CursorFixed p scr →
  let '(g', s') := allowed_mask g s in
  memo_ok sch g' s' ∧ tracker s' = tracker s
  ∧ ∀ id, test (mask s') id
          = allowed g (cursor s) id && schema_keeps sch (vocab g) (tracker s) (pda_state p) id.
Proof.
  intros Hg Hs He Hok Hcur. unfold allowed_mask.
  assert (engine_blind g) as Hb by (unfold engine_blind; by rewrite He).
  pose proof (l1_mask_spec g s Hg Hs Hb) as Hl. destruct (l1_mask g s) as [g' s1].
  destruct Hl as (H1 & H2 & H3 & H4 & H5 & H6 & H7 & H8).
  pose proof (memo_fits _ _ _ Hok) as Hfit. pose proof (mask_len_size g Hfit) as Hsize.
  assert (memo_ok sch g' s1) as Hok1.
  { apply (memo_ok_grammar g); [done|]. apply (memo_ok_upto g s); try (by rewrite H7); [done|].
    split; [done|]. by rewrite H6. }
  rewrite (memo_schema _ _ _ Hok1). rewrite Hcur in H4. destruct (cursor s1) as [p1 scr1|] eqn:Ec1; [|done].
  cbn in H4. subst p1. destruct (l2_narrow_exact g' s1 p Hok1) as (Hok2 & _ & Ht2 & Hm2).
  assert (tracker s1 = tracker s) as Ht1 by (by rewrite H7).
  split_and!; [done|by rewrite Ht2|]. intros id. by rewrite Hm2, H8, Ht1, H2.
Qed.

(** The end-of-stream verdict. *)
Lemma refresh_exact g s p scr :
  memo_ok sch g s → cursor s = CursorFixed p scr →
  memo_ok sch g (refresh_l2_eos s) ∧ l2_eos (refresh_l2_eos s) = schema_ends sch (tracker s) (pda_state p)
  ∧ cursor (refresh_l2_eos s) = cursor s ∧ tracker (refresh_l2_eos s) = tracker s.
Proof.
  intros [Hv Hs Ht Hbuf (c & Hc & Hup) Hm] Hcur. unfold refresh_l2_eos. rewrite Hs, Hcur.
  cbn [position Session.admits_eos overlay_of]. rewrite Hc. cbn [mbind option_bind].
  destruct (memo_run sch (vocab g) (tracker s) (narrow_buf s) c
    (OpEnd (scope_position (tracker s) (pda_state p)) (narrow_prefix (tracker s)) (emitted_columns (tracker s))
       (bound_variables (tracker s)))) as (c' & Hup' & Hrun); [done..|].
  cbn [run_op op_result fst snd] in Hrun.
  destruct (Narrow.admits_eos c sch _ _ _ _) as [[c2 e]|]; cbn [mbind option_bind] in Hrun; [|done].
  injection Hrun as -> ->. split_and!; [|done|done|done]. split; cbn; try done. by exists c'.
Qed.

(** ** Runs of a session *)

(** One operation of a session over a grammar that other sessions share: they
    may fill its cache in between.  Every stream is one whose names fit the
    node ids. *)
Inductive overlay_step : CompiledGrammar * DecoderSession → CompiledGrammar * DecoderSession → Prop :=
| step_mask g s : overlay_step (g, s) (allowed_mask g s)
| step_token g s id :
    tracker_bounded sch (tracker (accept_token g s id).1) → overlay_step (g, s) (g, (accept_token g s id).1)
| step_byte g s b : overlay_step (g, s) (g, (accept_byte s b).1)
| step_reset g s : overlay_step (g, s) (g, session_reset s)
| step_shared g g' s :
    grammar_ok g' → vocab g' = vocab g → engine g' = engine g → overlay_step (g, s) (g', s).

Record overlay_inv (gs : CompiledGrammar * DecoderSession) : Prop := {
  inv_grammar : grammar_ok gs.1;
  inv_engine : engine gs.1 = EngineFixed;
  inv_session : session_ok gs.1 gs.2;
  inv_memo : memo_ok sch gs.1 gs.2;
}.

Lemma inv_cursor gs : overlay_inv gs → ∃ p scr, cursor gs.2 = CursorFixed p scr.
Proof.
  intros [Hg He Hs _]. pose proof (s_cursor _ _ Hs) as Hc. unfold cursor_ok in Hc. rewrite He in Hc.
  destruct (cursor gs.2) as [p scr|]; [by eexists _, _|done].
Qed.

Lemma fixed_engine_ok g : engine g = EngineFixed → engine_ok g.
Proof. intros He. unfold engine_ok. by rewrite He. Qed.

Lemma build_memo_ok g : vocab_fits (vocab g) → tracker_bounded sch scope_new → memo_ok sch g (build g (Some sch)).
Proof.
  intros Hv Hb. split; cbn; try done.
  - rewrite mask_len_size by done. apply sized_with_len.
  - exists NarrowCache_new. split; [done|]. intros C V _ _ _. apply cache_new_ok.
  - rewrite mask_len_size by done. apply sized_with_len.
Qed.

(** What an accepted token leaves under a schema. *)
Lemma accept_token_schema g s id s' p scr :
  memo_ok sch g s → cursor s = CursorFixed p scr → id ≠ eos_bit g →
  tracker_bounded sch (tracker s') → accept_token g s id = (s', Ok ()) →
  memo_ok sch g s' ∧ ∃ p', cursor s' = CursorFixed p' scr ∧ l2_eos s' = schema_ends sch (tracker s') (pda_state p').
Proof.
  intros Hok Hcur Hne Hb. unfold accept_token. rewrite (proj2 (N.eqb_neq _ _) Hne).
  destruct (vocab_bytes (vocab g) id) as [bytes|]; [|done].
  rewrite (memo_schema _ _ _ Hok), Hcur.
  destruct (advance_all p bytes) as [pr []]; [|done].
  set (s1 := {| cursor := CursorFixed pr scr; offset := offset s; tracker := _ |}).
  intros [= Hs']. destruct (scope_grows (tracker s) bytes p sch) as [Gc Gv].
  assert (tracker s' = tracker s1) as Ht.
  { rewrite <-Hs'. unfold refresh_l2_eos. cbn [schema cursor s1].
    by destruct (Session.admits_eos _ _ _ _). }
  assert (memo_ok sch g s1) as Hok1.
  { destruct Hok as [? ? ? ? (c & Hc & Hup) ?]. split; cbn; try done.
    - by rewrite Ht in Hb.
    - exists c. split; [done|]. intros C V HC HV. apply Hup; by etrans. }
  destruct (refresh_exact g s1 pr scr Hok1 eq_refl) as (Hok2 & He2 & Hc2 & Ht2).
  rewrite <-Hs'. split.
  - by apply (memo_ok_upto g (refresh_l2_eos s1)); try done; apply Hok2.
  - exists pr. split; [exact Hc2|].
    change (l2_eos (refresh_l2_eos s1) = schema_ends sch (tracker (refresh_l2_eos s1)) (pda_state pr)).
    by rewrite He2, Ht2.
Qed.

Lemma accept_token_end g s id s' : id = eos_bit g → accept_token g s id = (s', Ok ()) → s' = s.
Proof.
  intros ->. unfold accept_token. rewrite N.eqb_refl. by intros [= -> _].
Qed.

Lemma accept_token_memo g s id :
  memo_ok sch g s → (∃ p scr, cursor s = CursorFixed p scr) → tracker_bounded sch (tracker (accept_token g s id).1) →
  memo_ok sch g (accept_token g s id).1.
Proof.
  intros Hok (p & scr & Hcur) Hb. destruct (accept_token g s id) as [s' [[]|e]] eqn:E; cbn [fst] in *.
  - destruct (decide (id = eos_bit g)) as [Heq|Hne].
    + by rewrite (accept_token_end g s id s' Heq E).
    + by destruct (accept_token_schema g s id s' p scr).
  - by destruct (accept_token_rejects _ _ _ _ _ E) as [-> _].
Qed.

Lemma overlay_step_inv gs gs' :
  tracker_bounded sch scope_new → overlay_step gs gs' → overlay_inv gs → overlay_inv gs'.
Proof.
  intros Hb0 Hstep Hinv. pose proof (inv_cursor _ Hinv) as Hcur. destruct Hinv as [Hg He Hs Hm].
  destruct Hstep as [g s|g s id Hb|g s b|g s|g g' s Hg' Hv He']; cbn [fst snd] in *.
  - destruct Hcur as (p & scr & Hcur).
    assert (engine_blind g) as Hbl by (unfold engine_blind; by rewrite He).
    pose proof (allowed_mask_exact g s p scr Hg Hs He Hm Hcur) as Ha.
    pose proof (allowed_mask_ok g s Hg Hs Hbl) as Hl.
    destruct (allowed_mask g s) as [g' s']. destruct Ha as (Hm' & _ & _).
    destruct Hl as (Hg' & Hv' & He' & Hmok & Hmlen & Hcore & Hsch & _). split; cbn [fst snd]; try done.
    + congruence.
    + split; [|done| |].
      * apply (same_core_ok g' _ _ Hcore). pose proof (s_cursor _ _ Hs) as Hc.
        unfold cursor_ok in *. by rewrite He'.
      * unfold mask_len, eos_bit in *. by rewrite Hv'.
      * left. congruence.
  - split; cbn [fst snd]; [done|done|apply accept_token_ok; [by apply fixed_engine_ok|done]|by apply accept_token_memo].
  - split; cbn [fst snd]; [done|done|apply accept_byte_ok; [by apply fixed_engine_ok|done]|].
    unfold accept_byte. destruct (advance_byte (cursor s) b) as [c [[]|[]]];
      by apply (memo_ok_upto g s); try done; apply Hm.
  - split; cbn [fst snd]; [done|done|apply session_reset_ok; [by apply fixed_engine_ok|done]|].
    destruct Hm as [? ? ? ? (c & Hc & _) ?]. split; cbn; try done.
    rewrite Hc. exists NarrowCache_new. split; [done|]. intros C V _ _ _. apply cache_new_ok.
  - split; cbn [fst snd]; [done|congruence|by eapply session_ok_same_engine|by eapply memo_ok_grammar].
Qed.

Lemma overlay_run_inv g gs :
  grammar_ok g → engine g = EngineFixed → tracker_bounded sch scope_new →
  rtc overlay_step (g, build g (Some sch)) gs → overlay_inv gs.
Proof.
  intros Hg He Hb0 Hrun.
  assert (overlay_inv (g, build g (Some sch))) as Hstart.
  { split; cbn [fst snd]; [done|done| |apply build_memo_ok; [by apply g_fits|done]].
    apply build_ok; [by apply fixed_engine_ok|by left]. }
  revert Hstart. induction Hrun as [|x y z Hxy _ IH]; [done|]. intros Hx. apply IH. by eapply overlay_step_inv.
Qed.
End sessions.

(** ** Properties *)

(** C6. The mask of a session with a schema is exact.  Whatever tokens, bytes,
    masks and resets came before, and whatever other sessions did to the shared
    grammar, [allowed_mask] has the bit of an id set exactly when
    [accept_token] takes the id and the schema keeps it: the legal set of the
    tracker's position, the sigil pass where it applies, and the fused pass of
    the tracker's navigation target.  No memo and no trie panic shows. *)
Theorem schema_mask_exact `{ScopeGrows} sch g gs g' s' :
  grammar_ok g → engine g = EngineFixed → tracker_bounded sch scope_new →
  rtc (overlay_step sch) (g, build g (Some sch)) gs → allowed_mask gs.1 gs.2 = (g', s') →
  ∃ p scr, cursor gs.2 = CursorFixed p scr
    ∧ ∀ id, test (mask s') id
            = is_ok (accept_token gs.1 gs.2 id).2
              && schema_keeps sch (vocab gs.1) (tracker gs.2) (pda_state p) id.
Proof.
  intros Hg He Hb Hrun Hm. pose proof (overlay_run_inv sch g gs Hg He Hb Hrun) as Hinv.
  destruct (inv_cursor sch gs Hinv) as (p & scr & Hcur). destruct Hinv as [Hg' He' Hs Hok].
  exists p, scr. split; [done|]. intros id.
  pose proof (allowed_mask_exact sch gs.1 gs.2 p scr Hg' Hs He' Hok Hcur) as Ha. rewrite Hm in Ha.
  destruct Ha as (_ & _ & ->). by rewrite accept_token_allowed.
Qed.

(** Completion is the mask's end-of-stream bit.  After any accepted token of a
    session with a schema, whatever came before, [is_complete] is true exactly
    if [allowed_mask] has the end-of-stream bit set: the overlay's verdict and
    its mask never contradict each other. *)
Theorem completion_agrees `{ScopeGrows} sch g gs id s1 g' s' :
  grammar_ok g → engine g = EngineFixed → tracker_bounded sch scope_new →
  rtc (overlay_step sch) (g, build g (Some sch)) gs →
  id ≠ eos_bit gs.1 → tracker_bounded sch (tracker s1) → accept_token gs.1 gs.2 id = (s1, Ok ()) →
  allowed_mask gs.1 s1 = (g', s') →
  is_complete s1 = test (mask s') (eos_bit gs.1).
Proof.
  intros Hg He Hb Hrun Hne Hb1 Hacc Hm. pose proof (overlay_run_inv sch g gs Hg He Hb Hrun) as Hinv.
  destruct (inv_cursor sch gs Hinv) as (p & scr & Hcur). destruct Hinv as [Hg' He' Hs Hok].
  destruct (accept_token_schema sch gs.1 gs.2 id s1 p scr Hok Hcur Hne Hb1 Hacc) as (Hok1 & p' & Hcur1 & Hends).
  assert (session_ok gs.1 s1) as Hs1.
  { pose proof (accept_token_ok gs.1 gs.2 id (fixed_engine_ok _ He') Hs) as Ho. by rewrite Hacc in Ho. }
  pose proof (allowed_mask_exact sch gs.1 s1 p' scr Hg' Hs1 He' Hok1 Hcur1) as Ha. rewrite Hm in Ha.
  destruct Ha as (_ & _ & ->). unfold is_complete, allowed. rewrite N.eqb_refl, Hends. f_equal.
  pose proof (eos_not_token (vocab gs.1)) as Hno.
  rewrite eos_bit_id by apply (memo_fits _ _ _ Hok).
  unfold schema_keeps, schema_ends, keeps_id, fused_legal. rewrite Hno, N.eqb_refl.
  destruct (legal _ _ _ _ _) as [l|], (scope_masks_unbound_sigil _ _), (scope_fused_nav_position _ _) as [f|];
    cbn [andb snd sigil_legal]; try destruct (fused_names f sch _); cbn; by rewrite ?andb_true_r.
Qed.

(** ** Witnesses *)

Definition demo_schema : Schema.Schema := from_data {|
  data_db_id := "demo"; data_db_path := "m::Db";
  data_classes := [("m::Car", {|
    simple_name := "Car";
    properties := [
      {| prop_name := "name"; prop_type := PrimitiveType StringPrim; prop_mult := {| lower := 1; upper := Some 1%N |} |}];
    qualified_properties := []; super_types := []; class_temporal := None |})];
  data_associations := []; data_enums := [] |}.

Definition demo_vocab : Vocab := from_byte_tokens (text <$> ["|"; "m::Car.all()"; "."; "name"; "phantom"]).
Definition demo_grammar : CompiledGrammar := CompiledGrammar_compile demo_vocab.

Lemma tracker_demo_bounded t :
  emitted_columns t = [] → bound_variables t = [] → tracker_bounded demo_schema t.
Proof.
  intros Hc Hv. unfold tracker_bounded. rewrite Hc, Hv. apply bounded_names.
  - intros names [= <-]. apply small_fit. vm_compute. reflexivity.
  - intros class names. destruct (decide (class = "m::Car")) as [->|Hne].
    + intros [= <-]. apply small_fit. vm_compute. reflexivity.
    + unfold names_of. rewrite (member_names_unknown demo_schema class).
      * intros [= <-]. apply small_fit. vm_compute. reflexivity.
      * unfold hm_get. cbn [demo_schema from_data classes data_classes List.find fst snd].
        by rewrite (proj2 (String.eqb_neq _ _)) by congruence.
      * done.
  - apply small_fit. vm_compute. reflexivity.
  - apply small_fit. vm_compute. reflexivity.
Qed.

Lemma demo_grammar_ok : grammar_ok demo_grammar.
Proof. by apply compile_grammar_ok. Qed.

(** The session after some tokens. *)
Definition after (ids : list N) : CompiledGrammar * DecoderSession :=
  (demo_grammar, foldl (λ s id, (accept_token demo_grammar s id).1) (build demo_grammar (Some demo_schema)) ids).

Lemma new_demo_bounded : tracker_bounded demo_schema scope_new.
Proof. by apply tracker_demo_bounded. Qed.

(** No column and no variable after some tokens. *)
Definition bare (ids : list N) : bool :=
  let t := tracker (after ids).2 in Scope.is_nil (emitted_columns t) && Scope.is_nil (bound_variables t).

Lemma bare_bounded ids : bare ids = true → tracker_bounded demo_schema (tracker (after ids).2).
Proof.
  unfold bare. intros [Hc Hv]%andb_true_iff. apply tracker_demo_bounded.
  - by destruct (emitted_columns (tracker (after ids).2)).
  - by destruct (bound_variables (tracker (after ids).2)).
Qed.

Lemma after_snoc ids id :
  bare (ids ++ [id]) = true → overlay_step demo_schema (after ids) (after (ids ++ [id])).
Proof.
  intros H%bare_bounded. unfold after in *. rewrite foldl_app in *. cbn [foldl snd] in *. by apply step_token.
Qed.

Lemma after_reached ids :
  forallb (λ n, bare (take n ids)) (seq 0 (S (length ids))) = true →
  rtc (overlay_step demo_schema) (demo_grammar, build demo_grammar (Some demo_schema)) (after ids).
Proof.
  induction ids as [|id ids IH] using rev_ind; intros H; [constructor|].
  rewrite forallb_forall in H. eapply rtc_r; [apply IH|apply after_snoc].
  - apply forallb_forall. intros n Hn. apply in_seq in Hn. specialize (H n).
    rewrite take_app_le in H by lia. apply H, in_seq. rewrite length_app. cbn. lia.
  - specialize (H (length (ids ++ [id]))). rewrite take_ge in H by done. apply H, in_seq. lia.
Qed.

(** After [|m::Car.all().] the class's member is offered, another name is not. *)
Lemma schema_mask_exact_witness :
  let gs := after [0%N; 1%N; 2%N] in
  let '(g', s') := allowed_mask gs.1 gs.2 in test (mask s') 3 = true ∧ test (mask s') 4 = false.
Proof.
  pose proof (after_reached [0%N; 1%N; 2%N] eq_refl) as Hr.
  assert (Hst : ∀ p scr, cursor (after [0%N; 1%N; 2%N]).2 = CursorFixed p scr → pda_state p = AfterDot).
  { intros p scr Hcur.
    apply (f_equal (λ c, match c with CursorFixed p _ => pda_state p | CursorSpec _ _ _ => AfterDot end)) in Hcur.
    rewrite <-Hcur. vm_compute. reflexivity. }
  assert (Ht : ∀ id, (id = 3 ∨ id = 4)%N →
    is_ok (accept_token (after [0%N; 1%N; 2%N]).1 (after [0%N; 1%N; 2%N]).2 id).2 = true)
    by (intros id [->| ->]; vm_compute; reflexivity).
  assert (Hv : vocab (after [0%N; 1%N; 2%N]).1 = demo_vocab) by reflexivity.
  assert (Hk : schema_keeps demo_schema demo_vocab (tracker (after [0%N; 1%N; 2%N]).2) AfterDot 3 = true
    ∧ schema_keeps demo_schema demo_vocab (tracker (after [0%N; 1%N; 2%N]).2) AfterDot 4 = false)
    by (split; vm_compute; reflexivity).
  revert Hr Hst Ht Hv Hk. generalize (after [0%N; 1%N; 2%N]). intros gs Hr Hst Ht Hv [Hk3 Hk4] gs'. subst gs'.
  destruct (allowed_mask gs.1 gs.2) as [g' s'] eqn:E.
  pose proof (@schema_mask_exact tracker_of_scope tracker_grows demo_schema demo_grammar gs g' s' demo_grammar_ok eq_refl
    new_demo_bounded Hr E) as (p & scr & Hcur & Hbits).
  rewrite !Hbits, (Hst p scr Hcur), Hv, !Ht, Hk3, Hk4 by tauto. split; reflexivity.
Defined.

Lemma completion_agrees_witness :
  let s1 := (after [0%N; 1%N]).2 in
  let '(g', s') := allowed_mask demo_grammar s1 in is_complete s1 = true ∧ test (mask s') 5 = true.
Proof.
  assert (Hc : is_complete (after [0%N; 1%N]).2 = true) by (vm_compute; reflexivity).
  assert (Hacc : accept_token (after [0%N]).1 (after [0%N]).2 1 = ((after [0%N; 1%N]).2, Ok ())).
  { assert ((accept_token demo_grammar (after [0%N]).2 1).2 = Ok ()) as Hok by (vm_compute; reflexivity).
    change (after [0%N; 1%N]).2 with (accept_token demo_grammar (after [0%N]).2 1).1.
    rewrite <-Hok. apply surjective_pairing. }
  assert (He : eos_bit (after [0%N]).1 = 5%N) by (vm_compute; reflexivity).
  assert (Hb : tracker_bounded demo_schema (tracker (after [0%N; 1%N]).2)) by (apply bare_bounded; vm_compute; reflexivity).
  assert (Hg : (after [0%N]).1 = demo_grammar) by reflexivity.
  pose proof (after_reached [0%N] eq_refl) as Hr. revert Hb Hc Hacc He Hg Hr.
  generalize (after [0%N]) (after [0%N; 1%N]). intros gs gs1 Hb Hc Hacc He Hg Hr s1. subst s1.
  destruct (allowed_mask demo_grammar gs1.2) as [g' s'] eqn:E. split; [exact Hc|].
  rewrite <-Hc, <-He. symmetry. rewrite <-Hg in E.
  apply (@completion_agrees tracker_of_scope tracker_grows demo_schema demo_grammar gs 1 gs1.2 g' s' demo_grammar_ok
    eq_refl new_demo_bounded Hr);
    [by rewrite He|exact Hb|exact Hacc|exact E].
Defined.
