(* ===== verification/ScopeProps.v ===== *)
(** * What the scope tracker guarantees

    The contract of [schema/scope.rs]: in step with the automaton, indifferent
    to where tokens are cut inside lexemes, lexically scoped, and consistent
    with itself on fused tokens; and the three places where it is not what its
    comments say. *)

From stdpp Require Import gmap relations.
From S2P Require Import Prelude StackMachine PdaState PdaStep Pda Mask Compiled Session SessionCorrect.
From S2P Require Import Utf8 Schema Position Narrow NarrowSpec Overlay OverlayProps.
From S2P Require Import Scope ScopeNest ScopeWalk.

#[local] Existing Instance overlay_of.

(** ** Sessions fed tokens *)

(** One operation of a session, [accept_byte] apart: a byte moves the automaton
    without the tracker. *)
Inductive token_step (sch : Schema.Schema)
  : CompiledGrammar * DecoderSession → CompiledGrammar * DecoderSession → Prop :=
| token_mask g s : token_step sch (g, s) (allowed_mask g s)
| token_accept g s id :
    tracker_bounded sch (tracker (accept_token g s id).1) → token_step sch (g, s) (g, (accept_token g s id).1)
| token_reset g s : token_step sch (g, s) (g, session_reset s)
| token_shared g g' s :
    grammar_ok g' → vocab g' = vocab g → engine g' = engine g → token_step sch (g, s) (g', s).

Lemma token_step_overlay sch gs gs' : token_step sch gs gs' → overlay_step sch gs gs'.
Proof. destruct 1; by constructor. Qed.

(** The tracker of a session, against its automaton. *)
Definition session_tracks (s : DecoderSession) : Prop :=
  ∃ p scr, cursor s = CursorFixed p scr
    ∧ in_step (tracker s) p ∧ well_nested (tracker s) ∧ vars_spelled (tracker s).

Lemma advance_all_ok p bytes p' :
  advance_all p bytes = (p', Ok ()) → run (config p) bytes = Some (config p').
Proof.
  intros H. pose proof (advance_all_run p bytes) as Hr. destruct (run (config p) bytes) as [c|].
  - rewrite H in Hr. injection Hr as ->. by rewrite config_of_config.
  - by rewrite H in Hr.
Qed.

Lemma observe_tracks t p bytes p' sch :
  advance_all p bytes = (p', Ok ()) → in_step t p ∧ well_nested t ∧ vars_spelled t →
  in_step (observe t bytes p sch) p' ∧ well_nested (observe t bytes p sch) ∧ vars_spelled (observe t bytes p sch).
Proof.
  intros Ha%advance_all_ok (H1 & H2 & H3). split_and!.
  - rewrite <-(of_config_config p'). by apply observe_in_step.
  - exact (observe_law (kept well_nested) sch t bytes p H2).
  - exact (observe_law (kept vars_spelled) sch t bytes p H3).
Qed.

Lemma new_tracks : in_step ScopeTracker_new Pda_new ∧ well_nested ScopeTracker_new ∧ vars_spelled ScopeTracker_new.
Proof. split_and!; repeat constructor. Qed.

Lemma accept_tracks sch g s id :
  memo_ok sch g s → session_tracks s → session_tracks (accept_token g s id).1.
Proof.
  intros Hok H. pose proof H as (p & scr & Hcur & Ht). unfold accept_token.
  destruct (id =? eos_bit g)%N; [done|]. destruct (vocab_bytes (vocab g) id) as [bytes|]; [|done].
  rewrite (memo_schema _ _ _ Hok), Hcur. destruct (advance_all p bytes) as [pr []] eqn:Ea; [|done].
  set (s1 := {| cursor := CursorFixed pr scr; offset := offset s; tracker := _ |}).
  destruct a. pose proof (observe_tracks (tracker s) p bytes pr sch Ea Ht) as Ht1.
  exists pr, scr. assert (cursor (refresh_l2_eos s1) = cursor s1 ∧ tracker (refresh_l2_eos s1) = tracker s1) as [Ec Et].
  { unfold refresh_l2_eos. cbn [schema cursor s1]. by destruct (Session.admits_eos _ _ _ _). }
  cbn [fst cursor tracker with_offset]. rewrite Ec, Et. done.
Qed.

Lemma token_step_tracks sch gs gs' :
  overlay_inv sch gs → token_step sch gs gs' → session_tracks gs.2 → session_tracks gs'.2.
Proof.
  intros [Hg He Hs Hm] Hstep H. destruct Hstep as [g s|g s id Hb|g s|g g' s Hg' Hv He']; cbn [fst snd] in *.
  - destruct H as (p & scr & Hcur & Ht).
    assert (engine_blind g) as Hbl by (unfold engine_blind; by rewrite He).
    pose proof (allowed_mask_exact sch g s p scr Hg Hs He Hm Hcur) as Ha.
    pose proof (allowed_mask_ok g s Hg Hs Hbl) as Hl.
    destruct (allowed_mask g s) as [g' s']. destruct Ha as (_ & Ht' & _).
    destruct Hl as (_ & _ & _ & _ & _ & Hcore & _). rewrite Hcur in Hcore. cbn [snd] in *.
    destruct (cursor s') as [p' scr'|] eqn:Ec; [|done]. cbn in Hcore. subst p'.
    exists p, scr'. rewrite Ht'. done.
  - by apply (accept_tracks sch).
  - destruct H as (p & scr & Hcur & _). unfold session_reset. exists Pda_new.
    rewrite Hcur. eexists. split; [reflexivity|]. apply new_tracks.
  - exact H.
Qed.

Lemma tracks_run sch gs gs' :
  tracker_bounded sch scope_new → rtc (token_step sch) gs gs' →
  overlay_inv sch gs → session_tracks gs.2 → session_tracks gs'.2.
Proof.
  intros Hb. induction 1 as [|x y z Hxy _ IH]; [done|]. intros Hinv Hx. apply IH.
  - by apply (overlay_step_inv sch x); [|apply token_step_overlay|].
  - by apply (token_step_tracks sch x).
Qed.

(** ** Properties *)

(** C7. The tracker advances in lockstep with the automaton.  In a session with a
    schema that is fed tokens — accepted or refused, between masks and resets,
    while other sessions fill the shared grammar — the tracker's delimiter depth
    is the height of the automaton's stack, the tracker has an open lexeme
    exactly when the automaton is inside one, of the same kind and begun as
    such; its per-delimiter stacks are all that deep and its saved scopes are
    those of open delimiters; and the variables it has recorded are distinct
    names, each beginning as an identifier does and going on with identifier
    bytes, as a name behind a [$] must. *)
Theorem tracker_in_lockstep sch g gs :
  grammar_ok g → engine g = EngineFixed → tracker_bounded sch scope_new →
  rtc (token_step sch) (g, build g (Some sch)) gs →
  ∃ p scr, cursor gs.2 = CursorFixed p scr
    ∧ in_step (tracker gs.2) p ∧ well_nested (tracker gs.2) ∧ vars_spelled (tracker gs.2).
Proof.
  intros Hg He Hb Hrun.
  assert (overlay_inv sch (g, build g (Some sch))) as Hinv by by (apply (overlay_run_inv sch g); [done..|constructor]).
  assert (session_tracks (build g (Some sch))) as Hstart.
  { destruct (inv_cursor sch _ Hinv) as (p & scr & Hcur). exists p, scr. split; [done|].
    cbn in Hcur. unfold Cursor_new in Hcur. rewrite He in Hcur. injection Hcur as <- <-. apply new_tracks. }
  exact (tracks_run sch _ gs Hb Hrun Hinv Hstart).
Qed.

(** A token cut inside a lexeme is the whole token.  If the automaton is inside
    an identifier, a number, a date or a string after [a], then observing [a]
    and then [b] leaves the tracker exactly as observing [a ++ b] at once does,
    whatever [a] holds before that lexeme and [b] behind it. *)
Theorem cut_inside_lexeme t p a b c s k :
  in_step t p → run (config p) a = Some c → lexeme_kind c.1 = Some k → is_Some (run c b) →
  observe t (a ++ b) p s = observe (observe t a p s) b (of_config c) s.
Proof. apply observe_cut. Qed.

(** C8. Binders are lexically scoped.  Whatever lexemes stand between an opening
    delimiter and its close, afterwards no variable is bound to a class or a
    row it was not bound to before, and every variable has the element type it
    had before. *)
Theorem binder_scope_closes t bytes st s t' :
  well_nested t → depth (dispatch_token t bytes st s) = S (depth t) →
  rtc (inner_step s (depth t)) (dispatch_token t bytes st s) t' → depth t' = depth t →
  maps_le (scope_maps t') (scope_maps t).
Proof.
  intros Hn Hopen Hin Hclose. pose proof (dispatch_token_nested t bytes st s Hn) as Hn1.
  rewrite <-(undone_here t') by by eapply inner_nested. rewrite Hclose, <-(undone_here t) by done.
  etrans; [by eapply undone_inner|]. rewrite undone_open; done.
Qed.

(** A nested pipeline does not leak.  When the delimiter of a lambda closes,
    the element class and the relation state are those of the pipeline the
    lambda stands in, whatever pipelines its body ran; unless the call was one
    that establishes a relation, after which there is a relation and no class. *)
Theorem lambda_restores_pipeline t d bytes st s t' bytes' st' :
  well_nested t → depth t = S d → Forall (λ x, scope_depth x ≤ d) (scope_saves t) →
  classify_at bytes st = Lex.Pipe → st ≠ Start → st ≠ ExpectSource →
  rtc (inner_step s d) (dispatch_token t bytes st s) t' → depth t' = S d →
  classify_at bytes' st' = Lex.Close →
  pipeline (dispatch_token t' bytes' st' s)
  = if bool_decide (head (est_stack t') = Some (S d)) then (None, true, (pipeline t).2) else pipeline t.
Proof.
  intros Hn Hd Hs Hp H1 H2 Hin Hd' Hc.
  assert (saved_at d (pipeline t) (dispatch_token t bytes st s)) as Hsave by (by apply pipe_saves).
  assert (saved_at d (pipeline t) t') as Hsave' by (eapply saved_at_inner; [done|lia|done]).
  assert (well_nested t') as Hn' by (eapply inner_nested; [done|by apply dispatch_token_nested]).
  rewrite dispatch_close by done. destruct (on_close_effect t') as (_ & _ & ->).
  by rewrite (saved_at_restore d (pipeline t)), Hd'.
Qed.

(** A fused dot is narrowed as the dot of its own.  Where the tracker predicts
    the rule behind a dot — for a token that carries the dot and the name — the
    prediction is the rule [position] has once the dot is seen: the columns of a
    relation row or the members of the very class the dot opens.  This holds
    outside the arguments of a milestoned call, whether the name before the dot
    is still open or closed. *)
Theorem fused_prediction t p stack s target :
  in_step t p → nav_ready t →
  run (config p) (text ".") = Some (AfterDot, stack) →
  fused_nav_position t s = Some target →
  position (observe t (text ".") p s) AfterDot = target
  ∧ (target = Pos.RelationColumn ∨ ∃ class, target = Pos.Member class).
Proof.
  intros Ht Hn Hr Hf. split; [by eapply fused_agrees|]. by eapply fused_is_navigation.
Qed.

(** ** Streams *)

(** The tracker and the automaton after some tokens; a dead token ends the
    stream. *)
Fixpoint stream (t : ScopeTracker) (p : Pda) (tokens : list string) (s : Schema) : option (ScopeTracker * Pda) :=
  match tokens with
  | [] => Some (t, p)
  | x :: rest =>
      match advance_all p (text x) with
      | (p', Ok _) => stream (observe t (text x) p s) p' rest s
      | _ => None
      end
  end.

Definition after_tokens (tokens : list string) (s : Schema) : option (ScopeTracker * Pda) :=
  stream ScopeTracker_new Pda_new tokens s.

(** A car and its owners. *)
Definition fleet : Schema := from_data {|
  data_db_id := "fleet"; data_db_path := "m::Db";
  data_classes := [
    ("m::Car", {|
      simple_name := "Car";
      properties := [
        {| prop_name := "name"; prop_type := PrimitiveType StringPrim; prop_mult := {| lower := 1; upper := Some 1%N |} |};
        {| prop_name := "owners"; prop_type := ClassType "m::Person"; prop_mult := {| lower := 0; upper := None |} |}];
      qualified_properties := []; super_types := []; class_temporal := None |});
    ("m::Person", {|
      simple_name := "Person";
      properties := [
        {| prop_name := "age"; prop_type := PrimitiveType Integer; prop_mult := {| lower := 1; upper := Some 1%N |} |}];
      qualified_properties := []; super_types := []; class_temporal := None |})];
  data_associations := []; data_enums := [] |}.

(** The rule at the end of a stream, and the automaton's state. *)
Definition rule_after (tokens : list string) : option (State * Pos.L2Position) :=
  (λ x, (pda_state x.2, position x.1 (pda_state x.2))) <$> after_tokens tokens fleet.

(** Whether the rule at the end of a stream and the automaton admit a token. *)
Definition admitted_after (tokens : list string) (token : string) : option (bool * bool) :=
  (λ x, (is_ok (advance_all x.2 (text token)).2,
         match legal (position x.1 (pda_state x.2)) fleet (narrow_prefix x.1) (emitted_columns x.1) (bound_variables x.1) with
         | Some l => l.1 (text token)
         | None => true
         end)) <$> after_tokens tokens fleet.

(** A relation's opening bracket is recognised by itself only.  A tilde and a
    bracket as two tokens open a column set, in which a key is followed by
    anything the grammar admits; as one token they leave the tracker at an
    ordinary value, whose rule then masks the closing bracket that the automaton
    admits after the same key. *)
Theorem fused_tilde_bracket_missed :
  let head := "|m::Car.all()->groupBy(" in
  rule_after [head; "~"; "["; "name"] = Some (InRelColIdent, Pos.NoPosition)
  ∧ admitted_after [head; "~"; "["; "name"] "]" = Some (true, true)
  ∧ rule_after [head; "~["; "name"] = Some (InRelColIdent, Pos.ValueIdent)
  ∧ admitted_after [head; "~["; "name"] "]" = Some (true, false).
Proof. vm_compute. done. Qed.

(** In the arguments of a navigation a variable's dot is read as the
    navigation's.  After [$x.owners($x] the fused rule names the members of [x]'s
    class; once the dot is a token of its own the rule is the members of the
    class of [owners], so that a member of [x] is masked. *)
Theorem argument_dot_leaves_variable :
  let head := "|m::Car.all()->filter(x|$x.owners($x" in
  (λ x, fused_nav_position x.1 fleet) <$> after_tokens [head] fleet = Some (Some (Pos.Member "m::Car"))
  ∧ rule_after [head; "."] = Some (AfterDot, Pos.Member "m::Person")
  ∧ admitted_after [head; "."] "name" = Some (true, false).
Proof. vm_compute. done. Qed.

(** A binder with a primitive annotation forgets the class it shadows.  When the
    lambda of [x], annotated as a collection of integers, closes inside the lambda of an [x] bound to a
    class, the outer [x] is bound to no class any more; the same lambda over
    [x] without an annotation restores it. *)
Theorem element_binder_forgets_class :
  (λ x, (depth x.1, var_class x.1 !! "x"))
    <$> after_tokens ["|m::Car.all()->filter(x|f(x: Integer[*]|$x->sum())"] fleet = Some (1, None)
  ∧ (λ x, (depth x.1, var_class x.1 !! "x"))
    <$> after_tokens ["|m::Car.all()->filter(x|f(x|$x)"] fleet = Some (1, Some (Some "m::Car")).
Proof. vm_compute. done. Qed.

(** ** Witnesses *)

Lemma demo_token_step ids id : bare (ids ++ [id]) = true → token_step demo_schema (after ids) (after (ids ++ [id])).
Proof.
  intros H%bare_bounded. unfold after in *. rewrite foldl_app in *. cbn [foldl snd] in *. by apply token_accept.
Qed.

Lemma tracker_in_lockstep_witness :
  ∃ p scr, cursor (after [0%N; 1%N; 2%N]).2 = CursorFixed p scr
    ∧ in_step (tracker (after [0%N; 1%N; 2%N]).2) p ∧ well_nested (tracker (after [0%N; 1%N; 2%N]).2)
    ∧ vars_spelled (tracker (after [0%N; 1%N; 2%N]).2).
Proof.
  assert (H1 : bare [0%N] = true) by (vm_compute; reflexivity).
  assert (H2 : bare [0%N; 1%N] = true) by (vm_compute; reflexivity).
  assert (H3 : bare [0%N; 1%N; 2%N] = true) by (vm_compute; reflexivity).
  apply (tracker_in_lockstep demo_schema demo_grammar (after [0%N; 1%N; 2%N]) demo_grammar_ok eq_refl new_demo_bounded).
  eapply rtc_l; [exact (demo_token_step [] 0 H1)|]. eapply rtc_l; [exact (demo_token_step [0%N] 1 H2)|].
  eapply rtc_l; [exact (demo_token_step [0%N; 1%N] 2 H3)|]. constructor.
Defined.

Lemma cut_inside_lexeme_witness :
  observe ScopeTracker_new (text "|m::C" ++ text "ar.all()") Pda_new fleet
  = observe (observe ScopeTracker_new (text "|m::C") Pda_new fleet) (text "ar.all()")
      {| pda_state := InSourceIdent; pda_stack := [] |} fleet.
Proof.
  apply (cut_inside_lexeme ScopeTracker_new Pda_new (text "|m::C") (text "ar.all()") (InSourceIdent, []) fleet Ident).
  - apply new_in_step.
  - vm_compute. reflexivity.
  - reflexivity.
  - vm_compute. eexists. reflexivity.
Defined.

(** A lambda in parentheses, lexeme by lexeme. *)
Definition in_paren : ScopeTracker := dispatch_token ScopeTracker_new (text "(") AfterArrowName fleet.
Definition at_binder : ScopeTracker := dispatch_token in_paren (text "x") ExpectValue fleet.
Definition in_body : ScopeTracker := dispatch_token at_binder (text "|") AfterName fleet.
Definition out_of_body : ScopeTracker := dispatch_token in_body (text ")") AfterValue fleet.

Lemma binder_scope_closes_witness : maps_le (scope_maps out_of_body) (scope_maps ScopeTracker_new).
Proof.
  apply (binder_scope_closes ScopeTracker_new (text "(") AfterArrowName fleet out_of_body).
  - apply new_tracks.
  - vm_compute. reflexivity.
  - fold in_paren. eapply rtc_l; [split; [|exists (text "x"), ExpectValue; reflexivity]; apply Nat.ltb_lt; vm_compute; reflexivity|].
    eapply rtc_l; [split; [|exists (text "|"), AfterName; reflexivity]; apply Nat.ltb_lt; vm_compute; reflexivity|].
    eapply rtc_l; [split; [|exists (text ")"), AfterValue; reflexivity]; apply Nat.ltb_lt; vm_compute; reflexivity|].
    constructor.
  - vm_compute. reflexivity.
Defined.

Lemma lambda_restores_pipeline_witness : pipeline out_of_body = (None, false, false).
Proof.
  assert (Hn : well_nested at_binder) by (do 2 apply dispatch_token_nested; apply new_tracks).
  assert (He : head (est_stack in_body) = None) by (vm_compute; reflexivity).
  pose proof (lambda_restores_pipeline at_binder 0 (text "|") AfterName fleet in_body (text ")") AfterValue Hn) as H.
  fold out_of_body in H. rewrite H; [vm_compute; reflexivity|vm_compute; reflexivity|vm_compute; constructor|
    vm_compute; reflexivity|done|done|fold in_body; constructor|vm_compute; reflexivity|vm_compute; reflexivity].
Defined.

(** After [$x] of a filter over cars. *)
Definition filter_tracker : ScopeTracker := observe ScopeTracker_new (text "|m::Car.all()->filter(x|$x") Pda_new fleet.
Definition filter_pda : Pda := {| pda_state := InMemberIdent; pda_stack := [Paren] |}.

Lemma fused_prediction_witness :
  position (observe filter_tracker (text ".") filter_pda fleet) AfterDot = Pos.Member "m::Car".
Proof.
  assert (Hs : in_step filter_tracker filter_pda).
  { apply (observe_in_step ScopeTracker_new Pda_new _ (InMemberIdent, [Paren])); [apply new_in_step|].
    vm_compute. reflexivity. }
  assert (Hr : nav_ready filter_tracker) by (split; [vm_compute; reflexivity|vm_compute; discriminate]).
  assert (Hf : fused_nav_position filter_tracker fleet = Some (Pos.Member "m::Car")) by (vm_compute; reflexivity).
  apply (fused_prediction filter_tracker filter_pda [Paren] fleet (Pos.Member "m::Car") Hs Hr); [|exact Hf].
  vm_compute. reflexivity.
Defined.
