(* ===== verification/Model.v ===== *)
(** * The normalized model

    [pure-analyzer-model]: the names, types and facts of [types.rs], the errors
    of [error.rs] and the stereotype spellings of [stereotypes.rs].  A [Name] and
    a [QName] are the texts that their constructors accept; a [BTreeMap] is an
    association list in key order. *)

From S2P Require Import Prelude Utf8 BTree StableSort StrOps Codes FixPlan.

(** ** Names *)

Inductive NameError :=
| NameEmpty
| ControlCharacter (value : Text)
| QualifiedSimpleName (value : Text)
| EmptyPathSegment (value : Text).

Abbreviation Name := Text (only parsing).
Abbreviation QName := Text (only parsing).

Definition PATH_SEPARATOR : Text := txt "::".

(** [validate_name_text]. *)
Definition validate_name_text (value : Text) : Result unit NameError :=
  if text_eqb value [] then Err NameEmpty
  else if existsb is_control (default [] (from_utf8 value)) then Err (ControlCharacter value)
  else Ok ().

(** [Name::new]. *)
Definition Name_new (value : Text) : Result Name NameError :=
  let? _ := validate_name_text value in
  if contains PATH_SEPARATOR value then Err (QualifiedSimpleName value) else Ok value.

(** [QName::new]. *)
Definition QName_new (value : Text) : Result QName NameError :=
  let? _ := validate_name_text value in
  if existsb (text_eqb []) (split PATH_SEPARATOR value) then Err (EmptyPathSegment value) else Ok value.

(** [QName::from_package_and_name]. *)
Definition from_package_and_name (package name : Text) : Result QName NameError :=
  let? simple := Name_new name in
  if text_eqb package [] then QName_new simple
  else QName_new (package ++ PATH_SEPARATOR ++ simple).

(** [QName::simple_name] and [QName::package]. *)
Definition simple_name (path : QName) : Text :=
  match rsplit_once PATH_SEPARATOR path with Some (_, simple) => simple | None => path end.

Definition package_of (path : QName) : option Text := fst <$> rsplit_once PATH_SEPARATOR path.

(** ** Identifiers and sources

    A [ClassId] and a [SourceId] are [u32] indices. *)

Abbreviation ClassId := nat (only parsing).
Abbreviation SourceId := nat (only parsing).

Definition u32_try_from (index : nat) : option nat :=
  if (N.of_nat index <=? U32_MAX)%N then Some index else None.

Inductive Provenance := Pmcd | PureFile.

#[global] Instance Provenance_eq_dec : EqDecision Provenance.
Proof. solve_decision. Defined.

Record ModelSourceInfo := { msi_id : SourceId; msi_label : string; msi_provenance : Provenance }.

(** ** Multiplicities: [u32] bounds, the upper [None] for [*] *)

Record MultiplicityError := { me_lower : N; me_upper : N }.

Record Multiplicity := { lower : N; upper : option N }.

#[global] Instance Multiplicity_eq_dec : EqDecision Multiplicity.
Proof. solve_decision. Defined.

Definition zero_or_more : Multiplicity := {| lower := 0; upper := None |}.

(** [Multiplicity::new]. *)
Definition Multiplicity_new (lower : N) (upper : option N) : Result Multiplicity MultiplicityError :=
  match upper with
  | Some u => if (u <? lower)%N then Err {| me_lower := lower; me_upper := u |}
              else Ok {| lower := lower; upper := upper |}
  | None => Ok {| lower := lower; upper := upper |}
  end.

Definition is_unbounded (m : Multiplicity) : bool := bool_decide (upper m = None).

Definition is_to_one (m : Multiplicity) : bool :=
  match upper m with Some u => (u <=? 1)%N | None => false end.

(** ** Types *)

Inductive TypeRef := TypeRef_new (raw : QName) (arguments : list TypeRef).

Definition raw_type (t : TypeRef) : QName := let '(TypeRef_new raw _) := t in raw.
Definition type_arguments (t : TypeRef) : list TypeRef := let '(TypeRef_new _ arguments) := t in arguments.

Lemma TypeRef_induction (P : TypeRef → Prop) :
  (∀ raw arguments, Forall P arguments → P (TypeRef_new raw arguments)) → ∀ t, P t.
Proof.
  intros H. fix IH 1. intros [raw arguments]. apply H.
  induction arguments; constructor; auto.
Qed.

#[global] Instance TypeRef_eq_dec : EqDecision TypeRef.
Proof.
  refine (fix go (t t' : TypeRef) : Decision (t = t') :=
    match t, t' with
    | TypeRef_new raw arguments, TypeRef_new raw' arguments' =>
        match decide (raw = raw'), @list_eq_dec TypeRef go arguments arguments' with
        | left Hraw, left Harguments => left (f_equal2 TypeRef_new Hraw Harguments)
        | right Hraw, _ => right (λ E : TypeRef_new raw arguments = TypeRef_new raw' arguments', Hraw (f_equal raw_type E))
        | _, right Harguments => right (λ E : TypeRef_new raw arguments = TypeRef_new raw' arguments', Harguments (f_equal type_arguments E))
        end
    end).
Defined.

(** ** Temporal stereotypes *)

Inductive Temporal := Bitemporal | BusinessTemporal | ProcessingTemporal.

#[global] Instance Temporal_eq_dec : EqDecision Temporal.
Proof. solve_decision. Defined.

Definition temporal_discriminant (t : Temporal) : nat :=
  match t with Bitemporal => 0 | BusinessTemporal => 1 | ProcessingTemporal => 2 end.

(** [Ord for Temporal]. *)
#[global] Instance temporal_ord : OrdKey Temporal := λ a b,
  key_cmp (temporal_discriminant a) (temporal_discriminant b).

#[global] Instance temporal_ord_laws : OrdKeyLaws Temporal.
Proof.
  split; unfold key_cmp, temporal_ord.
  - intros a b. rewrite key_cmp_eq. destruct a, b; simpl; naive_solver.
  - intros a b. apply key_cmp_antisym.
  - intros a b c. apply key_cmp_trans.
Qed.

(** [Temporal::arity]. *)
Definition arity (t : Temporal) : nat :=
  match t with Bitemporal => 2 | BusinessTemporal | ProcessingTemporal => 1 end.

Definition TEMPORAL_PROFILE : Text := txt "meta::pure::profiles::temporal".
Definition TEMPORAL_PROFILE_PROTOCOL : Text := txt "temporal".
Definition MILESTONING_PROFILE : Text := txt "meta::pure::profiles::milestoning".
Definition MILESTONING_PROFILE_PROTOCOL : Text := txt "milestoning".
Definition BITEMPORAL : Text := txt "bitemporal".
Definition BUSINESS_TEMPORAL : Text := txt "businesstemporal".
Definition PROCESSING_TEMPORAL : Text := txt "processingtemporal".
Definition GENERATED_MILESTONING_PROPERTY : Text := txt "generatedmilestoningproperty".
Definition ALL_VERSIONS_SUFFIX : Text := txt "AllVersions".
Definition ALL_VERSIONS_IN_RANGE_SUFFIX : Text := txt "AllVersionsInRange".

(** ** Qualified properties *)

Inductive QpKind := UserQualified | MilestonedPoint | AllVersions | AllVersionsInRange.

#[global] Instance QpKind_eq_dec : EqDecision QpKind.
Proof. solve_decision. Defined.

(** [classify_qualified_property]. *)
Definition classify_qualified_property (name : Name) (generated : bool) : QpKind :=
  if generated && ends_with ALL_VERSIONS_IN_RANGE_SUFFIX name then AllVersionsInRange
  else if generated && ends_with ALL_VERSIONS_SUFFIX name then AllVersions
  else if generated then MilestonedPoint
  else UserQualified.

(** ** Errors *)

Inductive ModelErrorKind :=
| InvalidRecord (message : string)
| InvalidName (error : NameError)
| InvalidMultiplicity (error : MultiplicityError)
| DuplicateElement (path : QName)
| DuplicateProperty (class : QName) (property : Name)
| DuplicateQualifiedProperty (class : QName) (property : Name)
| AssociationArity (association : QName) (actual : nat)
| MissingAssociationOwner (association : QName) (property : Name) (owner : QName)
| AssociationPropertyConflict (association owner : QName) (property : Name)
| MultipleTemporalStereotypes (element : QName)
| UnknownTemporalStereotype (element : QName) (value : Text).

(** [Display], as [thiserror] derives it from the formats of [error.rs]. *)
Definition NameError_display (e : NameError) : string :=
  match e with
  | NameEmpty => "name must not be empty"
  | ControlCharacter v => format ["name `"; str v; "` contains a control character"]
  | QualifiedSimpleName v => format ["simple name `"; str v; "` must not contain `::`"]
  | EmptyPathSegment v => format ["qualified name `"; str v; "` contains an empty path segment"]
  end.

Definition MultiplicityError_display (e : MultiplicityError) : string :=
  format ["multiplicity lower bound "; decimal (me_lower e); " exceeds upper bound "; decimal (me_upper e)].

Definition ModelErrorKind_display (k : ModelErrorKind) : string :=
  match k with
  | InvalidRecord message => format ["record shape is invalid: "; message]
  | InvalidName e => NameError_display e
  | InvalidMultiplicity e => MultiplicityError_display e
  | DuplicateElement path =>
      format ["duplicate packageable element `"; str path; "` in one PMCD document"]
  | DuplicateProperty class property =>
      format ["class `"; str class; "` declares property `"; str property; "` more than once"]
  | DuplicateQualifiedProperty class property =>
      format ["class `"; str class; "` declares qualified property `"; str property; "` more than once"]
  | AssociationArity association actual =>
      format ["association `"; str association; "` has "; decimal (N.of_nat actual);
              " ends; exactly two are required"]
  | MissingAssociationOwner association property owner =>
      format ["association `"; str association; "` property `"; str property;
              "` is owned by missing class `"; str owner; "`"]
  | AssociationPropertyConflict association owner property =>
      format ["association `"; str association; "` contributes `"; str owner; "."; str property;
              "`, which is already declared"]
  | MultipleTemporalStereotypes element =>
      format ["`"; str element; "` has multiple temporal stereotypes"]
  | UnknownTemporalStereotype element value =>
      format ["`"; str element; "` has unknown temporal stereotype `"; str value; "`"]
  end.

(** ** Facts *)

Section facts.
Context {R : Type}.

Record PropInfo := {
  pi_name : Name;
  pi_target : TypeRef;
  pi_multiplicity : Multiplicity;
  pi_association : option QName;
  pi_span : option R;
}.

#[global] Instance PropInfo_rebuild : Rebuild PropInfo := λ p,
  {| pi_name := pi_name p; pi_target := pi_target p; pi_multiplicity := pi_multiplicity p;
     pi_association := pi_association p; pi_span := pi_span p |}.

(** [PropInfo::declared], [with_declaration_span], [with_association] and
    [from_assoc]. *)
Definition PropInfo_declared (name : Name) (target : TypeRef) (multiplicity : Multiplicity) : PropInfo :=
  {| pi_name := name; pi_target := target; pi_multiplicity := multiplicity;
     pi_association := None; pi_span := None |}.

Definition PropInfo_with_span (p : PropInfo) (span : R) : PropInfo := p <| pi_span := Some span |>.

Definition with_association (p : PropInfo) (association : QName) : PropInfo :=
  p <| pi_association := Some association |>.

Definition from_assoc (p : PropInfo) : bool := bool_decide (is_Some (pi_association p)).

Record QpInfo := {
  qp_name : Name;
  qp_target : TypeRef;
  qp_multiplicity : Multiplicity;
  qp_kind : QpKind;
  qp_signature : option (list TypeRef);
  qp_span : option R;
}.

#[global] Instance QpInfo_rebuild : Rebuild QpInfo := λ p,
  {| qp_name := qp_name p; qp_target := qp_target p; qp_multiplicity := qp_multiplicity p;
     qp_kind := qp_kind p; qp_signature := qp_signature p; qp_span := qp_span p |}.

(** [QpInfo::new] and [with_declaration_span]. *)
Definition QpInfo_new (name : Name) (target : TypeRef) (multiplicity : Multiplicity) (kind : QpKind)
    (signature : option (list TypeRef)) : QpInfo :=
  {| qp_name := name; qp_target := target; qp_multiplicity := multiplicity; qp_kind := kind;
     qp_signature := signature; qp_span := None |}.

Definition QpInfo_with_span (p : QpInfo) (span : R) : QpInfo := p <| qp_span := Some span |>.

Record ClassInfo := {
  class_path : QName;
  supertypes : list QName;
  class_temporal : option Temporal;
  properties : list (Name * PropInfo);
  qualified_properties : list (Name * QpInfo);
  class_provenance : Provenance;
  class_source : SourceId;
  class_span : option R;
  coverage_gap : bool;
}.

#[global] Instance ClassInfo_rebuild : Rebuild ClassInfo := λ c,
  {| class_path := class_path c; supertypes := supertypes c; class_temporal := class_temporal c;
     properties := properties c; qualified_properties := qualified_properties c;
     class_provenance := class_provenance c; class_source := class_source c;
     class_span := class_span c; coverage_gap := coverage_gap c |}.

(** [ClassInfo::new], of a PMCD record, and [from_pure]. *)
Definition ClassInfo_new (path : QName) (supers : list QName) (temporal : option Temporal)
    (props : list (Name * PropInfo)) (qualified : list (Name * QpInfo)) (source : SourceId) : ClassInfo :=
  {| class_path := path; supertypes := supers; class_temporal := temporal; properties := props;
     qualified_properties := qualified; class_provenance := Pmcd; class_source := source;
     class_span := None; coverage_gap := false |}.

Definition from_pure (path : QName) (supers : list QName) (temporal : option Temporal)
    (props : list (Name * PropInfo)) (qualified : list (Name * QpInfo)) (source : SourceId) : ClassInfo :=
  {| class_path := path; supertypes := supers; class_temporal := temporal; properties := props;
     qualified_properties := qualified; class_provenance := PureFile; class_source := source;
     class_span := None; coverage_gap := false |}.

Definition ClassInfo_with_span (c : ClassInfo) (span : R) : ClassInfo := c <| class_span := Some span |>.

(** [ClassInfo::mark_coverage_gap]. *)
Definition mark_coverage_gap (c : ClassInfo) : ClassInfo := c <| coverage_gap := true |>.

Record AssociationEndInfo := { end_owner : QName; end_property : PropInfo; end_span : option R }.

(** [AssociationEndInfo::new]. *)
Definition AssociationEndInfo_new (owner : QName) (property : PropInfo) : AssociationEndInfo :=
  {| end_owner := owner; end_property := property; end_span := pi_span property |}.

Record AssocInfo := {
  assoc_path : QName;
  end_a : AssociationEndInfo;
  end_b : AssociationEndInfo;
  assoc_temporal : option Temporal;
  assoc_provenance : Provenance;
  assoc_source : SourceId;
  assoc_span : option R;
}.

#[global] Instance AssocInfo_rebuild : Rebuild AssocInfo := λ a,
  {| assoc_path := assoc_path a; end_a := end_a a; end_b := end_b a; assoc_temporal := assoc_temporal a;
     assoc_provenance := assoc_provenance a; assoc_source := assoc_source a; assoc_span := assoc_span a |}.

(** [AssocInfo::from_source] and [with_declaration_span]. *)
Definition from_source (path : QName) (a b : AssociationEndInfo) (temporal : option Temporal)
    (provenance : Provenance) (source : SourceId) : AssocInfo :=
  {| assoc_path := path; end_a := a; end_b := b; assoc_temporal := temporal;
     assoc_provenance := provenance; assoc_source := source; assoc_span := None |}.

Definition AssocInfo_with_span (a : AssocInfo) (span : R) : AssocInfo := a <| assoc_span := Some span |>.

(** ** The graph *)

Record ModelGraph := {
  classes : list (QName * ClassInfo);
  by_path : list (QName * ClassId);
  paths_by_id : list QName;
  associations : list AssocInfo;
  sources : list ModelSourceInfo;
  graph_diagnostics : list (Diagnostic R);
}.

(** [ModelGraph::class], [class_id] and [class_by_id]. *)
Definition class_at (g : ModelGraph) (path : QName) : option ClassInfo := bt_get (classes g) path.

Definition class_id (g : ModelGraph) (path : QName) : option ClassId := bt_get (by_path g) path.

Definition class_by_id (g : ModelGraph) (id : ClassId) : option ClassInfo :=
  path ← paths_by_id g !! id;
  bt_get (classes g) path.
End facts.
Arguments PropInfo : clear implicits.
Arguments QpInfo : clear implicits.
Arguments ClassInfo : clear implicits.
Arguments AssociationEndInfo : clear implicits.
Arguments AssocInfo : clear implicits.
Arguments ModelGraph : clear implicits.
