(* ===== verification/Pmcd.v ===== *)
(** * PMCD records

    [pure-analyzer-model/src/raw.rs] and the part of [loader.rs] that reads one
    PMCD document: the envelope, the records of classes and associations, and
    their normalized facts.  JSON values and the readers that [serde] derives
    for the records are the interface [PmcdJson]. *)

From S2P Require Import Prelude Utf8 BTree StableSort StrOps Codes FixPlan Kinds Green Builder Model.

(** ** Records: [raw.rs]

    An untagged [RawPath] or [RawTypeName] is the string of either form. *)

Inductive RawPath := PathString (path : Text) | PathPointer (path : Text).

Definition RawPath_into_string (p : RawPath) : Text :=
  match p with PathString path | PathPointer path => path end.

Inductive RawTypeName := TypeString (path : Text) | TypeObject (full_path : Text).

Definition RawTypeName_into_string (t : RawTypeName) : Text :=
  match t with TypeString path | TypeObject path => path end.

Inductive RawGenericType := RawGenericType_of (raw_type : RawTypeName) (type_arguments : list RawGenericType).

Record RawMultiplicity := { lower_bound : N; upper_bound : option N }.

Record RawStereotype := { st_profile : Text; st_value : Text }.

Record RawProperty := {
  rp_name : Text;
  rp_generic_type : RawGenericType;
  rp_multiplicity : RawMultiplicity;
}.

Record RawParameter := { rpar_generic_type : RawGenericType }.

Record RawQualifiedProperty := {
  rqp_name : Text;
  return_generic_type : RawGenericType;
  return_multiplicity : RawMultiplicity;
  rqp_stereotypes : list RawStereotype;
  parameters : option (list RawParameter);
}.

Record RawClass := {
  rc_package : Text;
  rc_name : Text;
  rc_super_types : list RawPath;
  rc_stereotypes : list RawStereotype;
  rc_properties : list RawProperty;
  rc_qualified_properties : list RawQualifiedProperty;
}.

Record RawAssociation := {
  ra_package : Text;
  ra_name : Text;
  ra_stereotypes : list RawStereotype;
  ra_properties : list RawProperty;
}.

(** [serde_json]'s [Value] and the derived [Deserialize] of the records, an
    error given by the text it displays. *)
Class PmcdJson := {
  JValue : Type;
  JObject : Type;
  JError : Type;
  json_from_str : Text → Result JValue JError;
  as_object : JValue → option JObject;
  object_get : JObject → string → option JValue;
  json_array : JValue → option (list JValue);
  json_str : JValue → option Text;
  class_from_value : JValue → Result RawClass string;
  association_from_value : JValue → Result RawAssociation string;
}.

(** ** Lowering one record *)

Section pmcd.
Context {R : Type}.

Record AssocDraft := {
  draft_path : QName;
  draft_first : PropInfo R;
  draft_second : PropInfo R;
  draft_temporal : option Temporal;
  draft_provenance : Provenance;
  draft_source : SourceId;
  draft_span : option R;
}.

Inductive FragmentElement :=
| ClassElement (class : ClassInfo R)
| AssociationElement (association : AssocDraft).

(** [FragmentElement::source]. *)
Definition element_source (e : FragmentElement) : SourceId :=
  match e with
  | ClassElement class => class_source class
  | AssociationElement association => draft_source association
  end.

Record ModelFragment := {
  fragment_elements : list (QName * FragmentElement);
  fragment_diagnostics : list (Diagnostic R);
}.

(** [lower_type_ref]. *)
Fixpoint lower_type_ref (raw : RawGenericType) : Result TypeRef ModelErrorKind :=
  let '(RawGenericType_of name arguments) := raw in
  let? path := map_err InvalidName (QName_new (RawTypeName_into_string name)) in
  let? type_arguments := res_collect lower_type_ref arguments in
  Ok (TypeRef_new path type_arguments).

Definition lower_multiplicity (raw : RawMultiplicity) : Result Multiplicity ModelErrorKind :=
  map_err InvalidMultiplicity (Multiplicity_new (lower_bound raw) (upper_bound raw)).

(** [lower_property] of a PMCD record. *)
Definition lower_raw_property (raw : RawProperty) : Result (PropInfo R) ModelErrorKind :=
  let? name := map_err InvalidName (Name_new (rp_name raw)) in
  let? target := lower_type_ref (rp_generic_type raw) in
  let? multiplicity := lower_multiplicity (rp_multiplicity raw) in
  Ok (PropInfo_declared name target multiplicity).

Definition is_milestoning_profile (profile : Text) : bool :=
  text_eqb profile MILESTONING_PROFILE || text_eqb profile MILESTONING_PROFILE_PROTOCOL.

Definition is_generated_milestoning_property (stereotypes : list RawStereotype) : bool :=
  existsb (λ s, is_milestoning_profile (st_profile s)
                && text_eqb (st_value s) GENERATED_MILESTONING_PROPERTY) stereotypes.

(** [lower_signature] of PMCD parameters: [Option::map] and [transpose]. *)
Definition lower_raw_signature (parameters : option (list RawParameter))
  : Result (option (list TypeRef)) ModelErrorKind :=
  match parameters with
  | None => Ok None
  | Some parameters =>
      let? types := res_collect (λ p, lower_type_ref (rpar_generic_type p)) parameters in Ok (Some types)
  end.

(** [lower_qualified_property] of a PMCD record. *)
Definition lower_raw_qualified_property (raw : RawQualifiedProperty) : Result (QpInfo R) ModelErrorKind :=
  let? name := map_err InvalidName (Name_new (rqp_name raw)) in
  let? target := lower_type_ref (return_generic_type raw) in
  let? multiplicity := lower_multiplicity (return_multiplicity raw) in
  let generated := is_generated_milestoning_property (rqp_stereotypes raw) in
  let kind := classify_qualified_property name generated in
  let? signature := (if bool_decide (kind = UserQualified) then lower_raw_signature (parameters raw)
                     else Ok None) in
  Ok (QpInfo_new name target multiplicity kind signature).

(** [lower_properties] and [lower_qualified_properties]: their loops insert a
    member before they look at what it replaced. *)
Fixpoint lower_members {Raw Info} (lower : Raw → Result Info ModelErrorKind) (name_of : Info → Name)
    (duplicate : Name → ModelErrorKind) (lowered : list (Name * Info)) (raws : list Raw)
  : Result (list (Name * Info)) ModelErrorKind :=
  match raws with
  | [] => Ok lowered
  | raw :: raws =>
      let? property := lower raw in
      let name := name_of property in
      match bt_get lowered name with
      | Some _ => Err (duplicate name)
      | None => lower_members lower name_of duplicate (bt_insert lowered name property) raws
      end
  end.

Definition lower_properties (class : QName) (raws : list RawProperty)
  : Result (list (Name * PropInfo R)) ModelErrorKind :=
  lower_members lower_raw_property pi_name (DuplicateProperty class) [] raws.

Definition lower_qualified_properties (class : QName) (raws : list RawQualifiedProperty)
  : Result (list (Name * QpInfo R)) ModelErrorKind :=
  lower_members lower_raw_qualified_property qp_name (DuplicateQualifiedProperty class) [] raws.

(** [lower_temporal]: its loop over the stereotypes of the temporal profile. *)
Definition temporal_of (value : Text) : option Temporal :=
  if text_eqb value BITEMPORAL then Some Bitemporal
  else if text_eqb value BUSINESS_TEMPORAL then Some BusinessTemporal
  else if text_eqb value PROCESSING_TEMPORAL then Some ProcessingTemporal
  else None.

Definition is_temporal_profile (profile : Text) : bool :=
  text_eqb profile TEMPORAL_PROFILE || text_eqb profile TEMPORAL_PROFILE_PROTOCOL.

Fixpoint temporal_loop (element : QName) (temporal : option Temporal) (stereotypes : list RawStereotype)
  : Result (option Temporal) ModelErrorKind :=
  match stereotypes with
  | [] => Ok temporal
  | stereotype :: stereotypes =>
      match temporal_of (st_value stereotype) with
      | None => Err (UnknownTemporalStereotype element (st_value stereotype))
      | Some current => match temporal with
        | Some _ => Err (MultipleTemporalStereotypes element)
        | None => temporal_loop element (Some current) stereotypes
        end
      end
  end.

Definition lower_temporal (element : QName) (stereotypes : list RawStereotype)
  : Result (option Temporal) ModelErrorKind :=
  temporal_loop element None (List.filter (λ s, is_temporal_profile (st_profile s)) stereotypes).

(** [lower_class] and [lower_association] of PMCD records. *)
Definition lower_raw_class (raw : RawClass) (source : SourceId) : Result (ClassInfo R) ModelErrorKind :=
  let? path := map_err InvalidName (from_package_and_name (rc_package raw) (rc_name raw)) in
  let? temporal := lower_temporal path (rc_stereotypes raw) in
  let? supertypes := res_collect (λ s, map_err InvalidName (QName_new (RawPath_into_string s)))
                       (rc_super_types raw) in
  let? properties := lower_properties path (rc_properties raw) in
  let? qualified_properties := lower_qualified_properties path (rc_qualified_properties raw) in
  Ok (ClassInfo_new path supertypes temporal properties qualified_properties source).

Definition lower_raw_association (raw : RawAssociation) (source : SourceId)
  : Result AssocDraft ModelErrorKind :=
  let? path := map_err InvalidName (from_package_and_name (ra_package raw) (ra_name raw)) in
  let? temporal := lower_temporal path (ra_stereotypes raw) in
  match ra_properties raw with
  | [first; second] =>
      let? first := lower_raw_property first in
      let? second := lower_raw_property second in
      Ok {| draft_path := path; draft_first := first; draft_second := second; draft_temporal := temporal;
            draft_provenance := Pmcd; draft_source := source; draft_span := None |}
  | properties => Err (AssociationArity path (length properties))
  end.

(** ** The document *)

Context `{PmcdJson} {Path IoError : Type}.

Inductive ModelError :=
| ReadError (path : Path) (source : IoError)
| JsonError (source_name : string) (source : JError)
| PureParse (source_name : string) (source : BuildError R)
| InvalidDocument (source_name message : string)
| InvalidElement (source_name : string) (element_index : nat) (element_kind : Text) (kind : ModelErrorKind)
| InvalidMergedGraph (source_id : SourceId) (kind : ModelErrorKind)
| TooManySources (index : nat)
| TooManyClasses (index : nat).

Definition DOCUMENT_TYPE : Text := txt "data".
Definition CLASS_TYPE : Text := txt "class".
Definition ASSOCIATION_TYPE : Text := txt "association".

(** [element_kind]. *)
Definition element_kind (source_name : string) (index : nat) (element : JValue) : Result Text ModelError :=
  match as_object element with
  | None => Err (InvalidElement source_name index (txt "unknown") (InvalidRecord "element must be an object"))
  | Some object =>
      match (value ← object_get object "_type"; json_str value) with
      | Some kind => Ok kind
      | None => Err (InvalidElement source_name index (txt "unknown")
                       (InvalidRecord "`_type` must be a string"))
      end
  end.

(** [lower_class_element] and [lower_association_element]. *)
Definition lower_class_element (source_name : string) (index : nat) (value : JValue) (source : SourceId)
  : Result (QName * FragmentElement) ModelError :=
  let? raw := map_err (λ error, InvalidElement source_name index CLASS_TYPE (InvalidRecord error))
                (class_from_value value) in
  let? class := map_err (InvalidElement source_name index CLASS_TYPE) (lower_raw_class raw source) in
  Ok (class_path class, ClassElement class).

Definition lower_association_element (source_name : string) (index : nat) (value : JValue)
    (source : SourceId) : Result (QName * FragmentElement) ModelError :=
  let? raw := map_err (λ error, InvalidElement source_name index ASSOCIATION_TYPE (InvalidRecord error))
                (association_from_value value) in
  let? association := map_err (InvalidElement source_name index ASSOCIATION_TYPE)
                        (lower_raw_association raw source) in
  Ok (draft_path association, AssociationElement association).

(** The record of one element, [None] for a kind outside the model surface. *)
Definition lower_element (source_name : string) (index : nat) (kind : Text) (element : JValue)
    (source : SourceId) : Result (option (QName * FragmentElement)) ModelError :=
  if text_eqb kind CLASS_TYPE then
    let? lowered := lower_class_element source_name index element source in Ok (Some lowered)
  else if text_eqb kind ASSOCIATION_TYPE then
    let? lowered := lower_association_element source_name index element source in Ok (Some lowered)
  else Ok None.

(** [lower_elements]: its loop, from an index. *)
Fixpoint lower_elements_from (source_name : string) (index : nat)
    (lowered : list (QName * FragmentElement)) (elements : list JValue) (source : SourceId)
  : Result (list (QName * FragmentElement)) ModelError :=
  match elements with
  | [] => Ok lowered
  | element :: elements =>
      let? kind := element_kind source_name index element in
      let? normalized := lower_element source_name index kind element source in
      match normalized with
      | None => lower_elements_from source_name (S index) lowered elements source
      | Some (path, normalized) =>
          match bt_get lowered path with
          | Some _ => Err (InvalidElement source_name index kind (DuplicateElement path))
          | None => lower_elements_from source_name (S index) (bt_insert lowered path normalized) elements source
          end
      end
  end.

Definition lower_elements (source_name : string) (elements : list JValue) (source : SourceId)
  : Result (list (QName * FragmentElement)) ModelError :=
  lower_elements_from source_name 0 [] elements source.

(** [validate_document_type]. *)
Definition validate_document_type (source_name : string) (value : option JValue) : Result unit ModelError :=
  match value with
  | None => Ok ()
  | Some value =>
      if bool_decide (json_str value = Some DOCUMENT_TYPE) then Ok ()
      else Err (InvalidDocument source_name "`_type`, when present, must be `data`")
  end.

(** [parse_document]. *)
Definition parse_document (source_name : string) (json : Text) (source : SourceId)
  : Result (list (QName * FragmentElement)) ModelError :=
  let? document := map_err (JsonError source_name) (json_from_str json) in
  match as_object document with
  | None => Err (InvalidDocument source_name "top level must be an object")
  | Some object =>
      let? _ := validate_document_type source_name (object_get object "_type") in
      match (value ← object_get object "elements"; json_array value) with
      | None => Err (InvalidDocument source_name "`elements` must be an array")
      | Some elements => lower_elements source_name elements source
      end
  end.
End pmcd.
Arguments AssocDraft : clear implicits.
Arguments FragmentElement : clear implicits.
Arguments ModelFragment : clear implicits.
Arguments ModelError R {_} Path IoError.
