(* ===== verification/PureLowering.v ===== *)
(** * Lowering of Pure Domain sources

    [pure-analyzer-model/src/pure.rs]: the model facts a Domain tree confirms.
    A declaration that the parser did not fully read yields no facts, and marks
    the classes it may concern as open.  A [BTreeSet] is a map to [unit]. *)

From S2P Require Import Prelude Utf8 BTree StableSort StrOps Codes FixPlan Kinds Green Builder Domain Model Pmcd.

(** ** Texts *)

(** [is_simple_name], [is_qualified_name]. *)
Definition is_simple_name (text : Text) : bool :=
  match text with
  | [] => false
  | first :: bytes =>
      ((first =? "_")%u8 || is_ascii_alphabetic first)
      && forallb (λ byte, (byte =? "_")%u8 || is_ascii_alphanumeric byte) bytes
  end.

Definition is_qualified_name (text : Text) : bool :=
  forallb is_simple_name (split PATH_SEPARATOR text).

Definition qname_from_text (text : Text) : option QName :=
  let text := default text (strip_prefix PATH_SEPARATOR text) in
  if is_qualified_name text then result_ok (QName_new text) else None.

(** [parse_bound]. *)
Definition parse_bound (text : Text) : option N :=
  if forallb is_ascii_digit text then parse_u32_digits text else None.

(** [multiplicity_from_node], of the node's text. *)
Definition multiplicity_from_text (text : Text) : option Multiplicity :=
  body ← strip_prefix (txt "[") text;
  body ← strip_suffix (txt "]") body;
  if text_eqb body (txt "*") then result_ok (Multiplicity_new 0 None)
  else match split_once (txt "..") body with
  | Some (lower, upper) =>
      if contains (txt "..") upper then None
      else
        lower ← parse_bound lower;
        upper ← (if text_eqb upper (txt "*") then Some None else Some <$> parse_bound upper);
        result_ok (Multiplicity_new lower upper)
  | None =>
      bound ← parse_bound body;
      result_ok (Multiplicity_new bound (Some bound))
  end.

(** ** [TypeTextParser]

    The parser holds the text and an offset into it. *)

Definition ends_type (byte : byte) : bool := ((byte =? "<") || (byte =? ">") || (byte =? ","))%u8.

Definition byte_at_offset (text : Text) (offset : nat) : option byte := text !! offset.

(** [consume]. *)
Definition consume (text : Text) (offset : nat) (expected : byte) : option nat :=
  match byte_at_offset text offset with
  | Some b => if (b =? expected)%u8 then Some (S offset) else None
  | None => None
  end.

(** [parse_type], the loop over the name: at most as many rounds as bytes are
    left. *)
Fixpoint name_end (budget : nat) (text : Text) (offset : nat) : nat :=
  match budget with
  | 0 => offset
  | S budget => match byte_at_offset text offset with
    | None => offset
    | Some byte => if ends_type byte then offset else name_end budget text (S offset)
    end
  end.

(** [parse_type] and its loop over the arguments after a comma: a call is further
    into the text than its caller, so that the length of the text is enough fuel. *)
Fixpoint parse_type (fuel : nat) (text : Text) (offset : nat) : option (TypeRef * nat) :=
  match fuel with
  | 0 => None
  | S fuel =>
      let stop := name_end (length text - offset) text offset in
      path ← str_get text offset stop;
      raw_type ← qname_from_text path;
      match consume text stop "<" with
      | None => Some (TypeRef_new raw_type [], stop)
      | Some offset =>
          '(first, offset) ← parse_type fuel text offset;
          '(rest, offset) ← parse_arguments fuel text offset;
          offset ← consume text offset ">";
          Some (TypeRef_new raw_type (first :: rest), offset)
      end
  end
with parse_arguments (fuel : nat) (text : Text) (offset : nat) : option (list TypeRef * nat) :=
  match fuel with
  | 0 => None
  | S fuel =>
      match consume text offset "," with
      | None => Some ([], offset)
      | Some offset =>
          '(argument, offset) ← parse_type fuel text offset;
          '(rest, offset) ← parse_arguments fuel text offset;
          Some (argument :: rest, offset)
      end
  end.

(** [TypeTextParser::parse]. *)
Definition type_fuel (text : Text) : nat := S (length text).

Definition parse_type_text (text : Text) : option TypeRef :=
  '(ty, offset) ← parse_type (type_fuel text) text 0;
  if offset =? length text then Some ty else None.

(** ** Stereotypes *)

Record AnnotationFacts := {
  temporal : option Temporal;
  temporal_uncertain : bool;
  generated : bool;
}.

#[global] Instance AnnotationFacts_rebuild : Rebuild AnnotationFacts := λ f,
  {| temporal := temporal f; temporal_uncertain := temporal_uncertain f; generated := generated f |}.

Definition no_facts : AnnotationFacts := {| temporal := None; temporal_uncertain := false; generated := false |}.

(** [AnnotationFacts::note_temporal]. *)
Definition note_temporal (self : AnnotationFacts) (t : Temporal) : AnnotationFacts :=
  if bool_decide (is_Some (temporal self)) then self <| temporal := None |> <| temporal_uncertain := true |>
  else if temporal_uncertain self then self <| temporal := None |>
  else self <| temporal := Some t |>.

(** [AnnotationFacts::merge]. *)
Definition merge (self next : AnnotationFacts) : AnnotationFacts :=
  let self := self <| generated := generated self || generated next |> in
  let self := if temporal_uncertain next then self <| temporal := None |> <| temporal_uncertain := true |>
              else self in
  match temporal next with Some t => note_temporal self t | None => self end.

(** [stereotype_atoms]. *)
Definition stereotype_atoms (text : Text) : list Text :=
  match (contents ← strip_prefix (txt "<<") text; strip_suffix (txt ">>") contents) with
  | Some contents => List.filter (λ atom, negb (text_eqb atom [])) (split (txt ",") contents)
  | None => []
  end.

(** [strip_profile_prefix], [temporal_value] and [milestoning_value]. *)
Definition strip_profile_prefix (atom protocol qualified : Text) : option Text :=
  rest ← match strip_prefix protocol atom with
         | Some rest => Some rest
         | None => strip_prefix qualified atom
         end;
  strip_prefix (txt ".") rest.

Definition temporal_value (atom : Text) : option Text :=
  strip_profile_prefix atom TEMPORAL_PROFILE_PROTOCOL TEMPORAL_PROFILE.

Definition milestoning_value (atom : Text) : option Text :=
  strip_profile_prefix atom MILESTONING_PROFILE_PROTOCOL MILESTONING_PROFILE.

(** [annotation_facts], its loop body and the loop over the node's text. *)
Definition note_atom (facts : AnnotationFacts) (atom : Text) : AnnotationFacts :=
  let facts := match temporal_value atom with
    | None => facts
    | Some value => match temporal_of value with
      | Some t => note_temporal facts t
      | None => facts <| temporal := None |> <| temporal_uncertain := true |>
      end
    end in
  if bool_decide (milestoning_value atom = Some GENERATED_MILESTONING_PROPERTY)
  then facts <| generated := true |> else facts.

Definition annotation_facts_of (text : Text) : AnnotationFacts :=
  foldl note_atom no_facts (stereotype_atoms text).

(** ** Trees *)

Section lowering.
Context {R : Type} `{TextRangeNew R}.

(** [is_trivia] of a syntax kind. *)
Definition is_trivia (kind : SyntaxKind) : bool :=
  match kind with
  | SyntaxKind.WHITESPACE | SyntaxKind.LINE_COMMENT | SyntaxKind.BLOCK_COMMENT => true
  | _ => false
  end.

(** [compact_text]; [node_tokens] always answers. *)
Definition compact_text (node : GreenNode R) : Text :=
  concat (gt_text <$> List.filter (λ token, negb (is_trivia (gt_kind token))) (default [] (node_tokens node))).

(** [direct_nodes], and the first of them. *)
Definition direct_nodes (node : GreenNode R) (kind : SyntaxKind) : list (GreenNode R) :=
  List.filter (λ child, bool_decide (node_kind child = kind)) (omap as_node (node_children node)).

Definition direct_node (node : GreenNode R) (kind : SyntaxKind) : option (GreenNode R) :=
  head (direct_nodes node kind).

(** [direct_name]: the first token that reads as a name. *)
Definition direct_name (node : GreenNode R) : option Name :=
  text ← List.find is_simple_name (gt_text <$> omap as_token (node_children node));
  result_ok (Name_new text).

Definition qname_from_node (node : GreenNode R) : option QName := qname_from_text (compact_text node).
Definition type_from_node (node : GreenNode R) : option TypeRef := parse_type_text (compact_text node).
Definition multiplicity_from_node (node : GreenNode R) : option Multiplicity :=
  multiplicity_from_text (compact_text node).
Definition annotation_facts (node : GreenNode R) : AnnotationFacts := annotation_facts_of (compact_text node).

(** [declaration_path]: the first qualified name among the children, with its
    index. *)
Fixpoint declaration_path_from (index : nat) (children : list (GreenElement R)) : option (QName * nat) :=
  match children with
  | [] => None
  | element :: children =>
      match (child ← as_node element;
             if bool_decide (node_kind child = SyntaxKind.DOMAIN_QUALIFIED_NAME)
             then path ← qname_from_node child; Some (path, index) else None) with
      | Some found => Some found
      | None => declaration_path_from (S index) children
      end
  end.

Definition declaration_path (node : GreenNode R) : option (QName * nat) :=
  declaration_path_from 0 (node_children node).

(** [annotations_before]. *)
Definition annotations_before (node : GreenNode R) (end_index : nat) : AnnotationFacts :=
  foldl (λ facts child, merge facts (annotation_facts child)) no_facts
    (List.filter (λ child, bool_decide (node_kind child = SyntaxKind.DOMAIN_STEREOTYPE_APPLICATIONS))
       (omap as_node (take end_index (node_children node)))).

(** [find_domain_file]: depth first. *)
Fixpoint find_domain_file (node : GreenNode R) : option (GreenNode R) :=
  let '(GreenNodeData kind children _) := node in
  if bool_decide (kind = SyntaxKind.DOMAIN_FILE) then Some node
  else
    (fix find_map (children : list (GreenElement R)) : option (GreenNode R) :=
       match children with
       | [] => None
       | Node child :: children =>
           match find_domain_file child with Some file => Some file | None => find_map children end
       | Token _ :: children => find_map children
       end) children.

(** ** Coverage *)

Record LoweringContext := {
  gaps : list (DomainCoverageGap R);
  parser_diagnostics : list (Diagnostic R);
  ctx_source : SourceId;
}.

Definition ranges_touch_or_overlap (left right : R) : bool :=
  (start left <=? end_ right) && (start right <=? end_ left).

Definition diagnosed (context : LoweringContext) (range : R) : bool :=
  existsb (λ d, ranges_touch_or_overlap (label_span (diag_primary d)) range) (parser_diagnostics context).

(** [node_has_coverage_gap]. *)
Definition node_has_coverage_gap (node : GreenNode R) (context : LoweringContext) : bool :=
  existsb (λ gap, ranges_touch_or_overlap (gap_span gap) (node_range node)) (gaps context)
  || diagnosed context (node_range node).

(** The test on a member or parameter: a malformed declaration that starts with
    it. *)
Definition malformed_at (context : LoweringContext) (range : R) : bool :=
  existsb (λ gap, bool_decide (gap_kind gap = MalformedDeclaration)
                  && (start (gap_span gap) =? start range)) (gaps context).

(** ** Members *)

(** [lower_property] of a declaration. *)
Definition lower_property (node : GreenNode R) : option (PropInfo R) :=
  name ← direct_name node;
  target ← (ty ← direct_node node SyntaxKind.DOMAIN_TYPE_REF; type_from_node ty);
  multiplicity ← (m ← direct_node node SyntaxKind.DOMAIN_MULTIPLICITY; multiplicity_from_node m);
  Some (PropInfo_with_span (PropInfo_declared name target multiplicity) (node_range node)).

(** [lower_signature]: the type of each parameter, if all are confirmed. *)
Fixpoint lower_parameters (context : LoweringContext) (parameters : list (GreenNode R))
  : option (list TypeRef) :=
  match parameters with
  | [] => Some []
  | parameter :: parameters =>
      if malformed_at context (node_range parameter) then None
      else if diagnosed context (node_range parameter) then None
      else
        ty ← (ty ← direct_node parameter SyntaxKind.DOMAIN_TYPE_REF; type_from_node ty);
        signature ← lower_parameters context parameters;
        Some (ty :: signature)
  end.

Definition lower_signature (node : GreenNode R) (context : LoweringContext) : option (list TypeRef) :=
  lower_parameters context (direct_nodes node SyntaxKind.DOMAIN_PARAMETER_DECL).

(** [lower_qualified_property] of a declaration. *)
Definition lower_qualified_property (node : GreenNode R) (annotations : AnnotationFacts)
    (context : LoweringContext) : option (QpInfo R) :=
  name ← direct_name node;
  target ← (ty ← direct_node node SyntaxKind.DOMAIN_TYPE_REF; type_from_node ty);
  multiplicity ← (m ← direct_node node SyntaxKind.DOMAIN_MULTIPLICITY; multiplicity_from_node m);
  let kind := classify_qualified_property name (generated annotations) in
  signature ← (if bool_decide (kind = UserQualified) then Some <$> lower_signature node context
               else Some None);
  Some (QpInfo_with_span (QpInfo_new name target multiplicity kind signature) (node_range node)).

Record ClassMemberFacts := {
  cm_properties : list (Name * PropInfo R);
  cm_qualified_properties : list (Name * QpInfo R);
  property_declarations : list (Name * R);
  qualified_property_declarations : list (Name * R);
  cm_diagnostics : list (Diagnostic R);
}.

#[global] Instance ClassMemberFacts_rebuild : Rebuild ClassMemberFacts := λ m,
  {| cm_properties := cm_properties m; cm_qualified_properties := cm_qualified_properties m;
     property_declarations := property_declarations m;
     qualified_property_declarations := qualified_property_declarations m;
     cm_diagnostics := cm_diagnostics m |}.

Definition no_members : ClassMemberFacts :=
  {| cm_properties := []; cm_qualified_properties := []; property_declarations := [];
     qualified_property_declarations := []; cm_diagnostics := [] |}.

Inductive MemberDeclarationKind := MemberProperty | MemberQualifiedProperty.

Definition MemberDeclarationKind_label (kind : MemberDeclarationKind) : string :=
  match kind with MemberProperty => "property" | MemberQualifiedProperty => "qualified property" end.

(** A [DuplicateModelDeclaration] error at the second declaration, with the
    first. *)
Definition duplicate_declaration (message : string) (source : SourceId) (first duplicate : R) : Diagnostic R :=
  {| diag_code := DuplicateModelDeclaration; diag_severity := Error; diag_message := message;
     diag_primary := {| label_file := source; label_span := duplicate; label_note := "duplicate declaration" |};
     diag_secondary := [{| label_file := source; label_span := first; label_note := "first declaration" |}];
     diag_fix := None; diag_url := None |}.

(** [duplicate_member_diagnostic]. *)
Definition duplicate_member_diagnostic (class name : Text) (kind : MemberDeclarationKind) (first duplicate : R)
    (source : SourceId) : Diagnostic R :=
  duplicate_declaration
    (format ["Pure class `"; str class; "` declares "; MemberDeclarationKind_label kind; " `"; str name;
             "` more than once"]) source first duplicate.

(** [insert_property]: whether the declaration added its facts. *)
Definition insert_property (members : ClassMemberFacts) (node : GreenNode R) (class : QName)
    (context : LoweringContext) : bool * ClassMemberFacts :=
  match direct_name node with
  | None => (false, members)
  | Some name =>
      match bt_get (property_declarations members) name with
      | Some first =>
          (false, members <| cm_properties := bt_remove (cm_properties members) name |>
             <| cm_diagnostics := cm_diagnostics members ++
                  [duplicate_member_diagnostic class name MemberProperty first (node_range node)
                     (ctx_source context)] |>)
      | None =>
          let members := members <| property_declarations :=
            bt_insert (property_declarations members) name (node_range node) |> in
          if malformed_at context (node_range node) then (false, members)
          else if diagnosed context (node_range node) then (false, members)
          else match lower_property node with
          | None => (false, members)
          | Some property =>
              (bool_decide (bt_get (cm_properties members) name = None),
               members <| cm_properties := bt_insert (cm_properties members) name property |>)
          end
      end
  end.

(** [insert_qualified_property]. *)
Definition insert_qualified_property (members : ClassMemberFacts) (node : GreenNode R)
    (annotations : AnnotationFacts) (class : QName) (context : LoweringContext) : bool * ClassMemberFacts :=
  match direct_name node with
  | None => (false, members)
  | Some name =>
      match bt_get (qualified_property_declarations members) name with
      | Some first =>
          (false, members <| cm_qualified_properties := bt_remove (cm_qualified_properties members) name |>
             <| cm_diagnostics := cm_diagnostics members ++
                  [duplicate_member_diagnostic class name MemberQualifiedProperty first (node_range node)
                     (ctx_source context)] |>)
      | None =>
          let members := members <| qualified_property_declarations :=
            bt_insert (qualified_property_declarations members) name (node_range node) |> in
          if malformed_at context (node_range node) then (false, members)
          else if diagnosed context (node_range node) then (false, members)
          else match lower_qualified_property node annotations context with
          | None => (false, members)
          | Some property =>
              (bool_decide (bt_get (cm_qualified_properties members) name = None),
               members <| cm_qualified_properties := bt_insert (cm_qualified_properties members) name property |>)
          end
      end
  end.

(** [lower_class_members]: the loop over the children after the name. *)
Record MembersLoop := {
  members : ClassMemberFacts;
  pending_annotations : AnnotationFacts;
  members_gap : bool;
}.

Definition member_step (class : QName) (context : LoweringContext) (s : MembersLoop) (element : GreenElement R)
  : MembersLoop :=
  match as_node element with
  | None => s
  | Some member =>
      match node_kind member with
      | SyntaxKind.DOMAIN_OPAQUE_NODE | SyntaxKind.ERROR_NODE =>
          {| members := members s; pending_annotations := no_facts; members_gap := true |}
      | SyntaxKind.DOMAIN_STEREOTYPE_APPLICATIONS =>
          {| members := members s;
             pending_annotations := merge (pending_annotations s) (annotation_facts member);
             members_gap := members_gap s |}
      | SyntaxKind.DOMAIN_PROPERTY_DECL =>
          let '(inserted, members) := insert_property (members s) member class context in
          {| members := members; pending_annotations := no_facts;
             members_gap := if inserted then members_gap s else true |}
      | SyntaxKind.DOMAIN_QUALIFIED_PROPERTY_DECL =>
          let '(inserted, members) :=
            insert_qualified_property (members s) member (pending_annotations s) class context in
          {| members := members; pending_annotations := no_facts;
             members_gap := if inserted then members_gap s else true |}
      | _ => s
      end
  end.

Definition lower_class_members (node : GreenNode R) (class : QName) (name_index : nat)
    (context : LoweringContext) : MembersLoop :=
  foldl (member_step class context)
    {| members := no_members; pending_annotations := no_facts; members_gap := false |}
    (drop (S name_index) (node_children node)).

(** ** Classes and associations *)

(** [lower_supertypes]. *)
Fixpoint supertype_names (names : list (GreenNode R)) : option (list QName) :=
  match names with
  | [] => Some []
  | name :: names => name ← qname_from_node name; cons name <$> supertype_names names
  end.

Definition lower_supertypes (node : GreenNode R) (context : LoweringContext) : list QName * bool :=
  match direct_node node SyntaxKind.DOMAIN_EXTENDS_CLAUSE with
  | None => ([], false)
  | Some extends =>
      if node_has_coverage_gap extends context then ([], true)
      else match supertype_names (direct_nodes extends SyntaxKind.DOMAIN_QUALIFIED_NAME) with
      | None => ([], true)
      | Some [] => ([], true)
      | Some supertypes => (supertypes, false)
      end
  end.

(** [lower_class]. *)
Definition lower_class (node : GreenNode R) (context : LoweringContext)
  : option (ClassInfo R * list (Diagnostic R)) :=
  '(path, name_index) ← declaration_path node;
  let annotations := annotations_before node name_index in
  let '(supertypes, supertype_gap) := lower_supertypes node context in
  let lowered := lower_class_members node path name_index context in
  let gap := node_has_coverage_gap node context || temporal_uncertain annotations || supertype_gap
             || members_gap lowered in
  let class := ClassInfo_with_span
    (from_pure path supertypes (temporal annotations) (cm_properties (members lowered))
       (cm_qualified_properties (members lowered)) (ctx_source context)) (node_range node) in
  Some (if gap then mark_coverage_gap class else class, cm_diagnostics (members lowered)).

(** [lower_association]. *)
Record LoweredAssociation := { la_value : option (AssocDraft R); la_uncertain : bool }.

Fixpoint association_ends (ends : list (GreenNode R)) : option (list (PropInfo R)) :=
  match ends with
  | [] => Some []
  | property :: ends => property ← lower_property property; cons property <$> association_ends ends
  end.

Definition uncertain_association : LoweredAssociation := {| la_value := None; la_uncertain := true |}.

Definition lower_association (node : GreenNode R) (context : LoweringContext) : LoweredAssociation :=
  if node_has_coverage_gap node context then uncertain_association
  else match declaration_path node with
  | None => uncertain_association
  | Some (path, name_index) =>
      let annotations := annotations_before node name_index in
      if temporal_uncertain annotations then uncertain_association
      else match association_ends (direct_nodes node SyntaxKind.DOMAIN_PROPERTY_DECL) with
      | Some [first; second] =>
          {| la_value := Some {| draft_path := path; draft_first := first; draft_second := second;
                                 draft_temporal := temporal annotations; draft_provenance := PureFile;
                                 draft_source := ctx_source context; draft_span := Some (node_range node) |};
             la_uncertain := false |}
      | _ => uncertain_association
      end
  end.

(** ** Files *)

Inductive TopLevelDeclarationKind := TopLevelClass | TopLevelAssociation.

Record TopLevelDeclaration := { tl_path : QName; tl_kind : TopLevelDeclarationKind; tl_span : R }.

(** [duplicate_top_level_diagnostic]. *)
Definition duplicate_top_level_diagnostic (first duplicate : TopLevelDeclaration) (source : SourceId)
  : Diagnostic R :=
  let path := str (tl_path duplicate) in
  let message := match tl_kind first, tl_kind duplicate with
    | TopLevelClass, TopLevelClass => format ["Pure source declares class `"; path; "` more than once"]
    | TopLevelAssociation, TopLevelAssociation =>
        format ["Pure source declares association `"; path; "` more than once"]
    | _, _ => format ["Pure source declares `"; path; "` as both a class and association"]
    end in
  duplicate_declaration message source (tl_span first) (tl_span duplicate).

(** [duplicate_top_level_paths]. *)
Record DuplicatesLoop := {
  first_declarations : list (QName * TopLevelDeclaration);
  duplicates : list (QName * unit);
  duplicate_diagnostics : list (Diagnostic R);
}.

Definition duplicate_step (source : SourceId) (s : DuplicatesLoop) (declaration : TopLevelDeclaration)
  : DuplicatesLoop :=
  match bt_get (first_declarations s) (tl_path declaration) with
  | Some first =>
      {| first_declarations := first_declarations s;
         duplicates := bt_insert (duplicates s) (tl_path declaration) ();
         duplicate_diagnostics := duplicate_diagnostics s ++
           [duplicate_top_level_diagnostic first declaration source] |}
  | None =>
      {| first_declarations := bt_insert (first_declarations s) (tl_path declaration) declaration;
         duplicates := duplicates s; duplicate_diagnostics := duplicate_diagnostics s |}
  end.

Definition duplicate_top_level_paths (declarations : list TopLevelDeclaration) (source : SourceId)
  : list (QName * unit) * list (Diagnostic R) :=
  let s := foldl (duplicate_step source)
    {| first_declarations := []; duplicates := []; duplicate_diagnostics := [] |} declarations in
  (duplicates s, duplicate_diagnostics s).

(** [lower_domain]: the loop over the declarations of the file. *)
Record DomainLoop := {
  source_wide_gap : bool;
  class_entries : list (ClassInfo R);
  association_entries : list (AssocDraft R);
  top_level_declarations : list TopLevelDeclaration;
  lowering_diagnostics : list (Diagnostic R);
}.

#[global] Instance DomainLoop_rebuild : Rebuild DomainLoop := λ s,
  {| source_wide_gap := source_wide_gap s; class_entries := class_entries s;
     association_entries := association_entries s; top_level_declarations := top_level_declarations s;
     lowering_diagnostics := lowering_diagnostics s |}.

Definition note_declaration (s : DomainLoop) (kind : TopLevelDeclarationKind) (declaration : GreenNode R)
  : DomainLoop :=
  match declaration_path declaration with
  | None => s
  | Some (path, _) => s <| top_level_declarations := top_level_declarations s ++
      [{| tl_path := path; tl_kind := kind; tl_span := node_range declaration |}] |>
  end.

Definition declaration_step (context : LoweringContext) (s : DomainLoop) (declaration : GreenNode R)
  : DomainLoop :=
  match node_kind declaration with
  | SyntaxKind.DOMAIN_CLASS_DECL =>
      let s := note_declaration s TopLevelClass declaration in
      match lower_class declaration context with
      | Some (class, diagnostics) =>
          s <| class_entries := class_entries s ++ [class] |>
            <| lowering_diagnostics := lowering_diagnostics s ++ diagnostics |>
      | None => s <| source_wide_gap := true |>
      end
  | SyntaxKind.DOMAIN_ASSOCIATION_DECL =>
      let s := note_declaration s TopLevelAssociation declaration in
      let lowered := lower_association declaration context in
      let s := s <| source_wide_gap := source_wide_gap s || la_uncertain lowered |> in
      match la_value lowered with
      | Some association => s <| association_entries := association_entries s ++ [association] |>
      | None => s
      end
  | _ => s
  end.

Definition insert_class (duplicate_paths : list (QName * unit)) (source_wide_gap : bool)
    (elements : list (QName * FragmentElement R)) (class : ClassInfo R) : list (QName * FragmentElement R) :=
  match bt_get duplicate_paths (class_path class) with
  | Some _ => elements
  | None =>
      let class := if source_wide_gap then mark_coverage_gap class else class in
      bt_insert elements (class_path class) (ClassElement class)
  end.

Definition insert_association (duplicate_paths : list (QName * unit))
    (elements : list (QName * FragmentElement R)) (association : AssocDraft R)
  : list (QName * FragmentElement R) :=
  match bt_get duplicate_paths (draft_path association) with
  | Some _ => elements
  | None => bt_insert elements (draft_path association) (AssociationElement association)
  end.

Definition lower_domain (root : GreenNode R) (context : LoweringContext)
  : list (QName * FragmentElement R) * list (Diagnostic R) :=
  match find_domain_file root with
  | None => ([], [])
  | Some file =>
      let s := foldl (declaration_step context)
        {| source_wide_gap := existsb (λ gap, bool_decide (gap_kind gap = UnsupportedTopLevel)) (gaps context);
           class_entries := []; association_entries := []; top_level_declarations := [];
           lowering_diagnostics := [] |} (omap as_node (node_children file)) in
      let '(duplicate_paths, duplicate_diagnostics) :=
        duplicate_top_level_paths (top_level_declarations s) (ctx_source context) in
      let source_wide_gap := source_wide_gap s || negb (bool_decide (duplicate_paths = [])) in
      let elements := foldl (insert_class duplicate_paths source_wide_gap) [] (class_entries s) in
      let elements := foldl (insert_association duplicate_paths) elements (association_entries s) in
      (elements, lowering_diagnostics s ++ duplicate_diagnostics)
  end.

(** [parse_pure_document]; [None] is a panic. *)
Definition parse_pure_document `{PmcdJson} `{Logos} {Path IoError : Type} (source_name : string) (text : Text)
    (source : SourceId) : option (Result (ModelFragment R) (ModelError R Path IoError)) :=
  parsed ← parse_domain text source;
  match parsed with
  | Err error => Some (Err (PureParse source_name error))
  | Ok parsed =>
      let context := {| gaps := coverage_gaps parsed; parser_diagnostics := parse_diagnostics parsed;
                        ctx_source := source |} in
      let '(elements, lowering_diagnostics) := lower_domain (green parsed) context in
      let diagnostics := sort_by_key (λ d, start (label_span (diag_primary d)))
                           (parse_diagnostics parsed ++ lowering_diagnostics) in
      Some (Ok {| fragment_elements := elements; fragment_diagnostics := diagnostics |})
  end.
End lowering.
Arguments LoweringContext : clear implicits.
