(* ===== verification/ModelLaws.v ===== *)
(** * What lowering yields

    The invariant of the model's facts - names, paths, types and multiplicities
    that their constructors accept, members filed under their own names - and
    that both lowerings establish it. *)

From Stdlib Require Import Sorting.Sorted.
From S2P Require Import Prelude BTree Codes StableSort Utf8 StrOps FixPlan Kinds Green Builder Domain Model Pmcd PureLowering.

(** ** Names and types *)

Definition valid_name (n : Name) : Prop := Name_new n = Ok n.
Definition valid_qname (p : QName) : Prop := QName_new p = Ok p.

Lemma Name_new_ok v n : Name_new v = Ok n → n = v ∧ valid_name v.
Proof.
  unfold valid_name, Name_new. destruct (validate_name_text v); simpl; [|done].
  destruct (contains _ _); [done|]. by intros [= <-].
Qed.

Lemma QName_new_ok v p : QName_new v = Ok p → p = v ∧ valid_qname v.
Proof.
  unfold valid_qname, QName_new. destruct (validate_name_text v); simpl; [|done].
  destruct (existsb _ _); [done|]. by intros [= <-].
Qed.

Lemma Name_new_valid v n : Name_new v = Ok n → valid_name n.
Proof. by intros [-> ?]%Name_new_ok. Qed.

Lemma QName_new_valid v p : QName_new v = Ok p → valid_qname p.
Proof. by intros [-> ?]%QName_new_ok. Qed.

Lemma from_package_and_name_valid package name p : from_package_and_name package name = Ok p → valid_qname p.
Proof.
  unfold from_package_and_name. intros (simple & _ & E)%res_bind_ok.
  destruct (text_eqb package []); by eapply QName_new_valid.
Qed.

Inductive type_ok : TypeRef → Prop :=
| type_ok_intro raw arguments : valid_qname raw → Forall type_ok arguments → type_ok (TypeRef_new raw arguments).

Definition multiplicity_ok (m : Multiplicity) : Prop :=
  match upper m with Some u => (lower m ≤ u)%N | None => True end.

Lemma Multiplicity_new_ok l u m : Multiplicity_new l u = Ok m → m = {| lower := l; upper := u |} ∧ multiplicity_ok m.
Proof.
  unfold Multiplicity_new, multiplicity_ok. destruct u as [u|]; [|by intros [= <-]].
  destruct (N.ltb_spec u l); [done|]. by intros [= <-].
Qed.

(** ** Facts *)

Section facts.
Context {R : Type}.

Record prop_ok (n : Name) (p : PropInfo R) : Prop := {
  prop_filed : pi_name p = n;
  prop_name_valid : valid_name n;
  prop_type_ok : type_ok (pi_target p);
  prop_multiplicity_ok : multiplicity_ok (pi_multiplicity p);
}.

Record qp_ok (n : Name) (q : QpInfo R) : Prop := {
  qp_filed : qp_name q = n;
  qp_name_valid : valid_name n;
  qp_type_ok : type_ok (qp_target q);
  qp_multiplicity_ok : multiplicity_ok (qp_multiplicity q);
  qp_signature_ok : from_option (Forall type_ok) True (qp_signature q);
  qp_user_signed : qp_kind q ≠ UserQualified → qp_signature q = None;
}.

Record class_ok (p : QName) (c : ClassInfo R) : Prop := {
  class_filed : class_path c = p;
  class_path_valid : valid_qname p;
  supertypes_valid : Forall valid_qname (supertypes c);
  properties_sorted : bt_sorted (properties c);
  properties_ok : bt_Forall prop_ok (properties c);
  qualified_sorted : bt_sorted (qualified_properties c);
  qualified_ok : bt_Forall qp_ok (qualified_properties c);
}.

(** A class as its source declares it has no association ends yet. *)
Definition declared (p : QName) (c : ClassInfo R) : Prop :=
  class_ok p c ∧ bt_Forall (λ _ v, pi_association v = None) (properties c).

Record draft_ok (p : QName) (a : AssocDraft R) : Prop := {
  draft_filed : draft_path a = p;
  draft_path_valid : valid_qname p;
  draft_first_ok : prop_ok (pi_name (draft_first a)) (draft_first a);
  draft_second_ok : prop_ok (pi_name (draft_second a)) (draft_second a);
}.

Definition element_ok (p : QName) (e : FragmentElement R) : Prop :=
  match e with ClassElement c => declared p c | AssociationElement a => draft_ok p a end.

Lemma class_ok_gap p c : class_ok p c → class_ok p (mark_coverage_gap c).
Proof. by intros []. Qed.

Lemma declared_gap p c : declared p c → declared p (mark_coverage_gap c).
Proof. intros [Hc Ha]. split; [by apply class_ok_gap|done]. Qed.

(** ** PMCD records *)

Fixpoint raw_type_ind (P : RawGenericType → Prop)
    (H : ∀ name arguments, Forall P arguments → P (RawGenericType_of name arguments)) (t : RawGenericType) : P t :=
  let '(RawGenericType_of name arguments) := t in
  H name arguments ((fix all (l : list RawGenericType) : Forall P l :=
    match l with [] => Forall_nil_2 P | x :: l => Forall_cons_2 P x l (raw_type_ind P H x) (all l) end) arguments).

Lemma lower_type_ref_ok raw t : lower_type_ref raw = Ok t → type_ok t.
Proof.
  revert t. induction raw as [name arguments IH] using raw_type_ind. intros t. cbn [lower_type_ref].
  intros (path & Hp%map_err_ok & (args & Ha & [= <-])%res_bind_ok)%res_bind_ok.
  constructor; [by eapply QName_new_valid|]. apply res_collect_ok in Ha.
  clear -IH Ha. induction Ha as [|x y xs ys Hx Ha IHa]; constructor;
    apply Forall_cons in IH as [IHx IH]; auto.
Qed.

Lemma lower_multiplicity_ok raw m : lower_multiplicity raw = Ok m → multiplicity_ok m.
Proof. by intros [_ ?]%map_err_ok%Multiplicity_new_ok. Qed.

Lemma lower_raw_property_ok raw p :
  lower_raw_property (R:=R) raw = Ok p → prop_ok (pi_name p) p ∧ pi_association p = None ∧ pi_span p = None.
Proof.
  intros (n & Hn%map_err_ok & (t & Ht & (m & Hm & [= <-])%res_bind_ok)%res_bind_ok)%res_bind_ok.
  split; [|done]. split; simpl; [done|by eapply Name_new_valid|by eapply lower_type_ref_ok|by eapply lower_multiplicity_ok].
Qed.

Lemma lower_raw_qualified_property_ok raw q :
  lower_raw_qualified_property (R:=R) raw = Ok q → qp_ok (qp_name q) q.
Proof.
  intros (n & Hn%map_err_ok & (t & Ht & (m & Hm & (s & Hs & [= <-])%res_bind_ok)%res_bind_ok)%res_bind_ok)%res_bind_ok.
  split; simpl; [done|by eapply Name_new_valid|by eapply lower_type_ref_ok|by eapply lower_multiplicity_ok|..].
  - revert Hs. case_bool_decide; [|by intros [= <-]]. unfold lower_raw_signature.
    destruct (parameters raw) as [ps|]; [|by intros [= <-]].
    intros (ts & Hts%res_collect_ok & [= <-])%res_bind_ok. simpl.
    clear -Hts. induction Hts; constructor; eauto using lower_type_ref_ok.
  - intros Hk. by rewrite bool_decide_eq_false_2 in Hs by done; injection Hs as <-.
Qed.

(** The loops over members: what is filed is the members, each once. *)
Lemma lower_members_ok {Raw Info} (lower : Raw → Result Info ModelErrorKind) (name_of : Info → Name) duplicate
    (P : Name → Info → Prop) lowered raws m :
  (∀ raw i, lower raw = Ok i → P (name_of i) i) →
  lower_members lower name_of duplicate lowered raws = Ok m →
  bt_sorted lowered → bt_Forall P lowered → bt_sorted m ∧ bt_Forall P m.
Proof.
  intros Hl. revert lowered. induction raws as [|raw raws IH]; intros lowered; simpl; [by intros [= <-]|].
  intros (i & Hi & E)%res_bind_ok Hs HP. destruct (bt_get lowered (name_of i)); [done|].
  apply (IH _ E); [by apply bt_insert_sorted|]. apply bt_Forall_insert; eauto.
Qed.

Lemma lower_raw_class_ok raw source c :
  lower_raw_class (R:=R) raw source = Ok c →
  declared (class_path c) c ∧ class_source c = source ∧ class_provenance c = Pmcd ∧ coverage_gap c = false.
Proof.
  intros (p & Hp%map_err_ok & (t & _ & (ss & Hss%res_collect_ok & (ps & Hps & (qs & Hqs & [= <-])
    %res_bind_ok)%res_bind_ok)%res_bind_ok)%res_bind_ok)%res_bind_ok.
  unfold lower_properties in Hps.
  apply (lower_members_ok _ _ _ (λ n p, prop_ok n p ∧ pi_association p = None)) in Hps as [Hps1 Hps2];
    [|by intros ?? (?&?&?)%lower_raw_property_ok|apply bt_nil_sorted|apply bt_Forall_nil].
  apply (lower_members_ok _ _ _ qp_ok) in Hqs as [Hqs1 Hqs2];
    [|by intros ?? ?%lower_raw_qualified_property_ok|apply bt_nil_sorted|apply bt_Forall_nil].
  split; [|done]. split; [split; simpl; try done|].
  - by eapply from_package_and_name_valid.
  - clear -Hss. induction Hss as [|?? ?? H]; constructor; [|done]. apply map_err_ok in H. by eapply QName_new_valid.
  - intros n v E. by apply Hps2 in E as [].
  - intros n v E. by apply Hps2 in E as [].
Qed.

Lemma lower_raw_association_ok raw source a :
  lower_raw_association (R:=R) raw source = Ok a →
  draft_ok (draft_path a) a ∧ draft_source a = source ∧ draft_provenance a = Pmcd.
Proof.
  intros (p & Hp%map_err_ok & (t & _ & E)%res_bind_ok)%res_bind_ok.
  destruct (ra_properties raw) as [|first [|second [|? ?]]]; try done.
  apply res_bind_ok in E as (f & Hf & (s & Hs & [= <-])%res_bind_ok).
  apply lower_raw_property_ok in Hf as (Hf & _). apply lower_raw_property_ok in Hs as (Hs & _).
  split; [|done]. split; simpl; try done. by eapply from_package_and_name_valid.
Qed.

(** ** PMCD documents *)

Context `{PmcdJson} {Path IoError : Type}.

(** What a PMCD source contributes. *)
Definition pmcd_element (source : SourceId) (p : QName) (e : FragmentElement R) : Prop :=
  element_ok p e ∧ element_source e = source ∧
  match e with
  | ClassElement c => class_provenance c = Pmcd ∧ coverage_gap c = false
  | AssociationElement a => draft_provenance a = Pmcd
  end.

Lemma lower_element_ok name index kind element source p e :
  lower_element (R:=R) (Path:=Path) (IoError:=IoError) name index kind element source = Ok (Some (p, e)) →
  pmcd_element source p e.
Proof.
  unfold lower_element. destruct (text_eqb kind CLASS_TYPE); [|destruct (text_eqb kind ASSOCIATION_TYPE); [|done]].
  - intros ([p' e'] & (raw & Hr & (c & Hc%map_err_ok & [= <- <-])%res_bind_ok)%res_bind_ok & [= <- <-])%res_bind_ok.
    apply lower_raw_class_ok in Hc as (?&?&?&?). by split_and!.
  - intros ([p' e'] & (raw & Hr & (c & Hc%map_err_ok & [= <- <-])%res_bind_ok)%res_bind_ok & [= <- <-])%res_bind_ok.
    apply lower_raw_association_ok in Hc as (?&?&?). by split_and!.
Qed.

Lemma lower_elements_ok name index lowered elements source m :
  lower_elements_from (R:=R) (Path:=Path) (IoError:=IoError) name index lowered elements source = Ok m →
  bt_sorted lowered → bt_Forall (pmcd_element source) lowered →
  bt_sorted m ∧ bt_Forall (pmcd_element source) m.
Proof.
  revert index lowered. induction elements as [|x xs IH]; intros index lowered; simpl; [by intros [= <-]|].
  intros (kind & _ & ([[p e]|] & Hn & E)%res_bind_ok)%res_bind_ok Hs HP; [|by eapply IH].
  destruct (bt_get lowered p); [done|]. apply (IH _ _ E); [by apply bt_insert_sorted|].
  apply bt_Forall_insert; [done..|]. by eapply lower_element_ok.
Qed.

Lemma parse_document_ok name json source m :
  parse_document (R:=R) (Path:=Path) (IoError:=IoError) name json source = Ok m →
  bt_sorted m ∧ bt_Forall (pmcd_element source) m.
Proof.
  intros (doc & _ & E)%res_bind_ok. destruct (as_object doc) as [object|]; [|done].
  apply res_bind_ok in E as (? & _ & E). destruct (mbind _ _) as [elements|]; [|done].
  apply (lower_elements_ok _ _ _ _ _ _ E); [apply bt_nil_sorted|apply bt_Forall_nil].
Qed.
End facts.

(** * What the lowering of Pure sources yields

    The facts lowered from a Domain tree keep the model's invariant, whatever
    the tree; and the reader of type texts inverts their printing. *)

(** ** Texts *)

Lemma qname_from_text_valid s p : qname_from_text s = Some p → valid_qname p.
Proof.
  unfold qname_from_text. destruct (is_qualified_name _); [|done].
  intros ?%result_ok_Some. by eapply QName_new_valid.
Qed.

Lemma parse_type_ok fuel s i :
  (∀ t j, parse_type fuel s i = Some (t, j) → type_ok t) ∧
  (∀ ts j, parse_arguments fuel s i = Some (ts, j) → Forall type_ok ts).
Proof.
  revert i. induction fuel as [|fuel IH]; intros i; [done|]. split.
  - intros t j. cbn [parse_type]. destruct (str_get s i _) as [path|]; [|done]. cbn [mbind option_bind].
    destruct (qname_from_text path) as [raw|] eqn:Eq; [|done]. apply qname_from_text_valid in Eq.
    cbn [mbind option_bind]. destruct (consume s _ "<") as [k|]; [|by intros [= <- _]; constructor].
    destruct (parse_type fuel s k) as [[first k1]|] eqn:E1; [|done]. cbn [mbind option_bind].
    destruct (parse_arguments fuel s k1) as [[rest k2]|] eqn:E2; [|done]. cbn [mbind option_bind].
    destruct (consume s k2 ">"); [|done]. intros [= <- _]. constructor; [done|]. constructor.
    + by eapply IH.
    + by eapply IH.
  - intros ts j. cbn [parse_arguments]. destruct (consume s i ",") as [k|]; [|by intros [= <- _]].
    destruct (parse_type fuel s k) as [[a k1]|] eqn:E1; [|done]. cbn [mbind option_bind].
    destruct (parse_arguments fuel s k1) as [[rest k2]|] eqn:E2; [|done]. intros [= <- _]. constructor.
    + by eapply IH.
    + by eapply IH.
Qed.

Lemma parse_type_text_ok s t : parse_type_text s = Some t → type_ok t.
Proof.
  unfold parse_type_text. destruct (parse_type _ s 0) as [[ty j]|] eqn:E; [|done]. cbn [mbind option_bind].
  destruct (j =? length s); [|done]. intros [= <-]. by eapply parse_type_ok.
Qed.

Lemma multiplicity_from_text_ok s m : multiplicity_from_text s = Some m → multiplicity_ok m.
Proof.
  unfold multiplicity_from_text. destruct (strip_prefix _ s) as [b|]; [|done]. cbn [mbind option_bind].
  destruct (strip_suffix _ b) as [b'|]; [|done]. cbn [mbind option_bind].
  destruct (text_eqb b' _); [by intros [_ ?]%result_ok_Some%Multiplicity_new_ok|].
  destruct (split_once _ b') as [[l u]|].
  - destruct (contains _ u); [done|]. destruct (parse_bound l); [|done]. cbn [mbind option_bind].
    destruct (if text_eqb u _ then _ else _); [|done]. by intros [_ ?]%result_ok_Some%Multiplicity_new_ok.
  - destruct (parse_bound b'); [|done]. by intros [_ ?]%result_ok_Some%Multiplicity_new_ok.
Qed.

(** ** Trees *)

Section lowering.
Context {R : Type} `{TextRangeNew R}.

Lemma direct_name_valid (node : GreenNode R) n : direct_name node = Some n → valid_name n.
Proof.
  unfold direct_name. destruct (List.find _ _); [|done]. intros ?%result_ok_Some. by eapply Name_new_valid.
Qed.

Lemma qname_from_node_valid (node : GreenNode R) p : qname_from_node node = Some p → valid_qname p.
Proof. apply qname_from_text_valid. Qed.

(** The name, the type and the multiplicity that start both kinds of member. *)
Lemma lower_property_ok (node : GreenNode R) p :
  lower_property node = Some p →
  direct_name node = Some (pi_name p) ∧ prop_ok (pi_name p) p ∧ pi_association p = None.
Proof.
  unfold lower_property. intros (n & Hn & (t & (? & _ & Ht)%bind_Some & (m & (? & _ & Hm)%bind_Some & [= <-])
    %bind_Some)%bind_Some)%bind_Some.
  split_and!; simpl; try done. split; simpl; try done.
  - by eapply direct_name_valid.
  - by eapply parse_type_text_ok.
  - by eapply multiplicity_from_text_ok.
Qed.

Lemma lower_parameters_ok context (ps : list (GreenNode R)) ts :
  lower_parameters context ps = Some ts → Forall type_ok ts.
Proof.
  revert ts. induction ps as [|p ps IH]; intros ts; simpl; [by intros [= <-]|].
  destruct (malformed_at _ _); [done|]. destruct (diagnosed _ _); [done|].
  intros (t & (? & _ & Ht)%bind_Some & (ts' & Hts & [= <-])%bind_Some)%bind_Some.
  constructor; [by eapply parse_type_text_ok|by apply IH].
Qed.

Lemma lower_qualified_property_ok (node : GreenNode R) annotations context q :
  lower_qualified_property node annotations context = Some q →
  direct_name node = Some (qp_name q) ∧ qp_ok (qp_name q) q.
Proof.
  unfold lower_qualified_property. intros (n & Hn & (t & (? & _ & Ht)%bind_Some & (m & (? & _ & Hm)%bind_Some &
    (s & Hs & [= <-])%bind_Some)%bind_Some)%bind_Some)%bind_Some.
  split; [done|]. split; simpl; try done.
  - by eapply direct_name_valid.
  - by eapply parse_type_text_ok.
  - by eapply multiplicity_from_text_ok.
  - revert Hs. case_bool_decide; [|by intros [= <-]]. rewrite fmap_Some. intros (ts & Hts & ->). simpl.
    by eapply lower_parameters_ok.
  - intros Hk. by rewrite bool_decide_eq_false_2 in Hs by done; injection Hs as <-.
Qed.

(** The member maps, while the members of a class are read. *)
Record members_ok (m : ClassMemberFacts (R:=R)) : Prop := {
  cm_props_sorted : bt_sorted (cm_properties m);
  cm_props_ok : bt_Forall (λ n p, prop_ok n p ∧ pi_association p = None) (cm_properties m);
  cm_quals_sorted : bt_sorted (cm_qualified_properties m);
  cm_quals_ok : bt_Forall qp_ok (cm_qualified_properties m);
}.

Lemma insert_property_ok m node class context :
  members_ok m → members_ok (insert_property m node class context).2.
Proof.
  intros [Hs Hp Hqs Hqp]. unfold insert_property. destruct (direct_name node) as [n|] eqn:En; [|done].
  destruct (bt_get (property_declarations m) n).
  { split; simpl; try done; [by apply bt_remove_sorted|by apply bt_Forall_remove]. }
  destruct (malformed_at _ _); [done|]. destruct (diagnosed _ _); [done|].
  destruct (lower_property node) as [p|] eqn:Ep; [|done]. apply lower_property_ok in Ep as (En' & Hok & Ha).
  rewrite En in En'. injection En' as ->.
  split; simpl; try done; [by apply bt_insert_sorted|by apply bt_Forall_insert].
Qed.

Lemma insert_qualified_property_ok m node annotations class context :
  members_ok m → members_ok (insert_qualified_property m node annotations class context).2.
Proof.
  intros [Hs Hp Hqs Hqp]. unfold insert_qualified_property. destruct (direct_name node) as [n|] eqn:En; [|done].
  destruct (bt_get (qualified_property_declarations m) n).
  { split; simpl; try done; [by apply bt_remove_sorted|by apply bt_Forall_remove]. }
  destruct (malformed_at _ _); [done|]. destruct (diagnosed _ _); [done|].
  destruct (lower_qualified_property node annotations context) as [q|] eqn:Eq; [|done].
  apply lower_qualified_property_ok in Eq as (En' & Hok). rewrite En in En'. injection En' as ->.
  split; simpl; try done; [by apply bt_insert_sorted|by apply bt_Forall_insert].
Qed.

Lemma lower_class_members_ok node class i context :
  members_ok (members (lower_class_members node class i context)).
Proof.
  unfold lower_class_members. generalize (drop (S i) (node_children node)) as l.
  assert (∀ l s, members_ok (members s) → members_ok (members (foldl (member_step class context) s l))) as Hall.
  { intros l. induction l as [|x l IH]; intros s Hs; [done|]. simpl. apply IH. unfold member_step.
    destruct (as_node x) as [node'|]; [|done].
    pose proof (insert_property_ok (members s) node' class context Hs) as Hp.
    pose proof (insert_qualified_property_ok (members s) node' (pending_annotations s) class context Hs) as Hq.
    destruct (insert_property _ _ _ _) as [b m]. destruct (insert_qualified_property _ _ _ _ _) as [b' m'].
    by destruct (node_kind node'). }
  intros l. apply Hall. split; simpl; [apply bt_nil_sorted|apply bt_Forall_nil|apply bt_nil_sorted|apply bt_Forall_nil].
Qed.

Lemma declaration_path_valid (node : GreenNode R) p i : declaration_path node = Some (p, i) → valid_qname p.
Proof.
  unfold declaration_path. generalize 0 as j. induction (node_children node) as [|x xs IH]; intros j; simpl; [done|].
  destruct (mbind _ (as_node x)) as [[p' i']|] eqn:E; [|by apply IH]. intros [= -> ->].
  destruct (as_node x) as [c|]; [|done]. cbn [mbind option_bind] in E. case_bool_decide; [|done].
  destruct (qname_from_node c) as [q|] eqn:Eq; [|done]. injection E as <- _. by eapply qname_from_node_valid.
Qed.

Lemma lower_supertypes_ok (node : GreenNode R) context : Forall valid_qname (lower_supertypes node context).1.
Proof.
  unfold lower_supertypes. destruct (direct_node _ _) as [e|]; [|by constructor].
  destruct (node_has_coverage_gap _ _); [by constructor|].
  destruct (supertype_names _) as [[|s ss]|] eqn:E; try by constructor. simpl.
  revert E. generalize (s :: ss). clear. induction (direct_nodes e _) as [|x xs IH]; intros l; simpl; [by intros [= <-]|].
  intros (p & Hp & (l' & Hl & ->)%fmap_Some)%bind_Some. constructor; [by eapply qname_from_node_valid|by apply IH].
Qed.

Lemma lower_class_ok (node : GreenNode R) context c ds :
  lower_class node context = Some (c, ds) →
  declared (class_path c) c ∧ class_source c = ctx_source context ∧ class_provenance c = PureFile.
Proof.
  unfold lower_class. destruct (declaration_path node) as [[p i]|] eqn:Ep; [|done]. cbn [mbind option_bind].
  pose proof (lower_supertypes_ok node context) as Hss. destruct (lower_supertypes node context) as [ss g].
  destruct (lower_class_members_ok node p i context) as [Hs Hp Hqs Hqp].
  apply declaration_path_valid in Ep.
  set (class := ClassInfo_with_span _ _). intros [= <- _].
  assert (declared p class) as Hd.
  { split; [split; simpl; try done|]; intros n v E; by apply Hp in E as []. }
  destruct (_ || _); [|done]. split; [by apply (declared_gap p class)|done].
Qed.

Lemma association_ends_ok (nodes : list (GreenNode R)) l :
  association_ends nodes = Some l → Forall (λ p, prop_ok (pi_name p) p) l.
Proof.
  revert l. induction nodes as [|x xs IH]; intros l; simpl; [by intros [= <-]|].
  intros (p & (_ & Hp & _)%lower_property_ok & (l' & Hl & ->)%fmap_Some)%bind_Some. constructor; [done|by apply IH].
Qed.

Lemma lower_association_ok (node : GreenNode R) context a :
  la_value (lower_association node context) = Some a →
  draft_ok (draft_path a) a ∧ draft_source a = ctx_source context ∧ draft_provenance a = PureFile.
Proof.
  unfold lower_association. destruct (node_has_coverage_gap _ _); [done|].
  destruct (declaration_path node) as [[p i]|] eqn:Ep; [|done]. apply declaration_path_valid in Ep.
  destruct (temporal_uncertain _); [done|].
  destruct (association_ends _) as [[|first [|second [|? ?]]]|] eqn:Ee; try done.
  apply association_ends_ok in Ee. apply Forall_cons in Ee as [Hf Ee]. apply Forall_cons in Ee as [Hs _].
  by intros [= <-].
Qed.

(** What a Pure source contributes. *)
Definition pure_element (source : SourceId) (p : QName) (e : FragmentElement R) : Prop :=
  element_ok p e ∧ element_source e = source ∧
  match e with
  | ClassElement c => class_provenance c = PureFile
  | AssociationElement a => draft_provenance a = PureFile
  end.

Definition entries_ok (context : LoweringContext R) (s : DomainLoop (R:=R)) : Prop :=
  Forall (λ c, pure_element (ctx_source context) (class_path c) (ClassElement c)) (class_entries s) ∧
  Forall (λ a, pure_element (ctx_source context) (draft_path a) (AssociationElement a)) (association_entries s).

Lemma declaration_step_ok context s d : entries_ok context s → entries_ok context (declaration_step context s d).
Proof.
  intros [Hc Ha].
  assert (∀ k, entries_ok context (note_declaration s k d)) as Hn.
  { intros k. unfold note_declaration. by destruct (declaration_path d) as [[]|]. }
  unfold declaration_step. destruct (node_kind d); try done.
  - destruct (lower_class d context) as [[c ds]|] eqn:E; [|apply Hn].
    apply lower_class_ok in E as (?&?&?). destruct (Hn TopLevelClass) as [Hc' Ha'].
    split; simpl; [|done]. apply Forall_app. split; [done|]. constructor; [|constructor]. by split_and!.
  - pose proof (lower_association_ok d context) as Hok. destruct (Hn TopLevelAssociation) as [Hc' Ha'].
    destruct (la_value _) as [a|]; [|done]. destruct (Hok a eq_refl) as (?&?&?).
    split; simpl; [done|]. apply Forall_app. split; [done|]. constructor; [|constructor]. by split_and!.
Qed.

Lemma lower_domain_ok (root : GreenNode R) context :
  bt_sorted (lower_domain root context).1 ∧
  bt_Forall (pure_element (ctx_source context)) (lower_domain root context).1.
Proof.
  unfold lower_domain. destruct (find_domain_file root) as [file|];
    [|split; [apply bt_nil_sorted|apply bt_Forall_nil]].
  set (s0 := {| class_entries := []; association_entries := [] |}).
  assert (entries_ok context (foldl (declaration_step context) s0 (omap as_node (node_children file)))) as [Hc Ha].
  { assert (entries_ok context s0) as Hs0 by (by split; constructor). revert Hs0. generalize s0.
    induction (omap as_node (node_children file)) as [|x l IH]; intros s Hs; [done|].
    apply IH. by apply declaration_step_ok. }
  set (s := foldl (declaration_step context) _ _) in *.
  destruct (duplicate_top_level_paths _ _) as [dups ds]. set (gap := source_wide_gap s || _). simpl.
  set (ok := λ m : list (QName * FragmentElement R),
    bt_sorted m ∧ bt_Forall (pure_element (ctx_source context)) m).
  assert (∀ l m, ok m → Forall (λ c, pure_element (ctx_source context) (class_path c) (ClassElement c)) l →
    ok (foldl (insert_class dups gap) m l)) as Hcl.
  { intros l. induction l as [|c l IH]; intros m Hm Hl; [done|]. apply Forall_cons in Hl as [Hx Hl].
    apply IH; [|done]. destruct Hm as [Hms Hmf]. unfold insert_class. destruct (bt_get dups _); [done|].
    destruct Hx as (Hd & Hsrc & Hp).
    assert (pure_element (ctx_source context) (class_path c)
      (ClassElement (if gap then mark_coverage_gap c else c))) as Hx.
    { destruct gap; [|done]. split_and!; [by apply declared_gap|done..]. }
    assert (class_path (if gap then mark_coverage_gap c else c) = class_path c) as -> by (by destruct gap).
    split; [by apply bt_insert_sorted|by apply bt_Forall_insert]. }
  assert (∀ l m, ok m → Forall (λ a, pure_element (ctx_source context) (draft_path a) (AssociationElement a)) l →
    ok (foldl (insert_association dups) m l)) as Hal.
  { intros l. induction l as [|a l IH]; intros m Hm Hl; [done|]. apply Forall_cons in Hl as [Hx Hl].
    apply IH; [|done]. destruct Hm as [Hms Hmf]. unfold insert_association. destruct (bt_get dups _); [done|].
    split; [by apply bt_insert_sorted|by apply bt_Forall_insert]. }
  apply Hal; [|done]. apply Hcl; [|done]. split; [apply bt_nil_sorted|apply bt_Forall_nil].
Qed.
End lowering.

(** * The members of a Pure class

    Which property declarations of a class become facts: those declared once,
    which the parser read whole; and a class that is not marked open has a fact
    for each declaration. *)

Section members.
Context {R : Type} `{TextRangeNew R}.

(** The property declarations after the name of a class, those of one name, and
    whether the parser read a declaration whole. *)
Definition property_nodes (elements : list (GreenElement R)) : list (GreenNode R) :=
  List.filter (λ m, bool_decide (node_kind m = SyntaxKind.DOMAIN_PROPERTY_DECL)) (omap as_node elements).

Definition declarations_of (n : Name) (ds : list (GreenNode R)) : list (GreenNode R) :=
  List.filter (λ d, bool_decide (direct_name d = Some n)) ds.

Definition confirmed (context : LoweringContext R) (d : GreenNode R) : bool :=
  negb (malformed_at context (node_range d)) && negb (diagnosed context (node_range d)).

Definition opaque (elements : list (GreenElement R)) : bool :=
  existsb (λ m, bool_decide (node_kind m = SyntaxKind.DOMAIN_OPAQUE_NODE)
                || bool_decide (node_kind m = SyntaxKind.ERROR_NODE)) (omap as_node elements).

Record members_inv (context : LoweringContext R) (ds : list (GreenNode R)) (skipped : bool)
    (s : MembersLoop (R:=R)) : Prop := {
  mi_decl_sorted : bt_sorted (property_declarations (members s));
  mi_declared n : is_Some (bt_get (property_declarations (members s)) n) ↔ declarations_of n ds ≠ [];
  mi_sorted : bt_sorted (cm_properties (members s));
  mi_exact n p : bt_get (cm_properties (members s)) n = Some p ↔
    ∃ d, declarations_of n ds = [d] ∧ confirmed context d = true ∧ lower_property d = Some p;
  mi_covered : members_gap s = false →
    skipped = false ∧ ∀ d, d ∈ ds → ∃ n p, direct_name d = Some n ∧ lower_property d = Some p ∧
      bt_get (cm_properties (members s)) n = Some p;
}.

Lemma declarations_snoc n ds d :
  declarations_of n (ds ++ [d]) = declarations_of n ds ++ (if bool_decide (direct_name d = Some n) then [d] else []).
Proof. unfold declarations_of. rewrite List.filter_app. simpl. by destruct (bool_decide _). Qed.

(** A property declaration is filed, or the class is marked. *)
Lemma property_inv context ds skipped s node class pending :
  members_inv context ds skipped s →
  members_inv context (ds ++ [node]) skipped
    (let '(inserted, members) := insert_property (members s) node class context in
     {| members := members; pending_annotations := pending;
        members_gap := if inserted then members_gap s else true |}).
Proof.
  intros [Hds Hd Hs He Hc]. unfold insert_property. destruct (direct_name node) as [n|] eqn:En.
  2:{ split; simpl; try done.
      - intros m. rewrite declarations_snoc, En. simpl. by rewrite app_nil_r.
      - intros m p. rewrite declarations_snoc, En. simpl. by rewrite app_nil_r. }
  destruct (bt_get (property_declarations (members s)) n) as [first|] eqn:Ef.
  { assert (declarations_of n ds ≠ []) as Hne by (apply Hd; by rewrite Ef).
    split; simpl; try done.
    - intros m. rewrite declarations_snoc, En, Hd. case_bool_decide as Em; [|by rewrite app_nil_r].
      injection Em as <-. split; [by intros _ [? ?]%app_nil|done].
    - by apply bt_remove_sorted.
    - intros m p. rewrite bt_lookup_remove, declarations_snoc, En by done. case_bool_decide as Em.
      + injection Em as <-. rewrite decide_True by done. split; [done|]. intros (d & Hone & _).
        destruct (declarations_of n ds) as [|? [|? ?]]; done.
      + rewrite decide_False, app_nil_r by congruence. apply He. }
  assert (declarations_of n ds = []) as Hnone.
  { destruct (declarations_of n ds) eqn:E; [done|]. exfalso. assert (is_Some (@None R)) as [? ?]; [|done].
    rewrite <-Ef. apply Hd. by rewrite E. }
  assert (bt_get (cm_properties (members s)) n = None) as Hfree.
  { destruct (bt_get (cm_properties (members s)) n) eqn:E; [|done]. apply He in E as (d & Hone & _). by rewrite Hnone in Hone. }
  assert (∀ m, is_Some (bt_get (bt_insert (property_declarations (members s)) n (node_range node)) m)
    ↔ declarations_of m (ds ++ [node]) ≠ []) as Hd'.
  { intros m. rewrite bt_lookup_insert, declarations_snoc, En by done. case_bool_decide as Em.
    - injection Em as <-. rewrite decide_True by done. split; [by intros _ [? ?]%app_nil|done].
    - rewrite decide_False, app_nil_r by congruence. apply Hd. }
  (* A declaration that adds no fact. *)
  assert (∀ c, (confirmed context node = true → lower_property node = None) →
    members_inv context (ds ++ [node]) skipped
      {| members := (members s) <| property_declarations := bt_insert (property_declarations (members s)) n (node_range node) |>;
         pending_annotations := c; members_gap := true |}) as Hskip.
  { intros c Hno. split; simpl; try done; [by apply bt_insert_sorted|]. intros m p. rewrite declarations_snoc, En.
    case_bool_decide as Em; [|rewrite app_nil_r; apply He]. injection Em as <-. rewrite Hfree, Hnone. split; [done|].
    intros (d & [= <-] & Hconf & Hp). apply Hno in Hconf. congruence. }
  unfold confirmed in Hskip. destruct (malformed_at context (node_range node)) eqn:Em; [by apply Hskip|].
  destruct (diagnosed context (node_range node)) eqn:Edi; [by apply Hskip|].
  destruct (lower_property node) as [prop|] eqn:El; [|by apply Hskip]. simpl. rewrite Hfree, bool_decide_eq_true_2 by done.
  split; simpl; try done; [by apply bt_insert_sorted|by apply bt_insert_sorted|..].
  - intros m p. rewrite bt_lookup_insert, declarations_snoc, En by done. case_bool_decide as Emn.
    + injection Emn as <-. rewrite decide_True, Hnone by done. simpl. split.
      * intros [= <-]. exists node. unfold confirmed. by rewrite Em, Edi.
      * intros (d & [= <-] & _ & Hp). congruence.
    + rewrite decide_False, app_nil_r by congruence. apply He.
  - intros Hgap. destruct (Hc Hgap) as [Hsk Hall]. split; [done|]. intros d [Hin|Hin%list_elem_of_singleton]%elem_of_app.
    + destruct (Hall d Hin) as (m & p & Hm & Hp & Hget). exists m, p. split_and!; [done..|].
      rewrite bt_lookup_insert_ne; [done..|]. intros ->. congruence.
    + subst d. exists n, prop. split_and!; [done..|]. by apply bt_lookup_insert_eq.
Qed.

Lemma qualified_frame (m : ClassMemberFacts (R:=R)) node annotations class context :
  cm_properties (insert_qualified_property m node annotations class context).2 = cm_properties m ∧
  property_declarations (insert_qualified_property m node annotations class context).2 = property_declarations m.
Proof.
  unfold insert_qualified_property. destruct (direct_name node) as [n|]; [|done].
  destruct (bt_get (qualified_property_declarations m) n); [done|].
  destruct (malformed_at _ _); [done|]. destruct (diagnosed _ _); [done|].
  by destruct (lower_qualified_property _ _ _).
Qed.

(** What the loop passes over leaves the invariant as it is. *)
Lemma frame_inv context ds skipped skipped' s m pending gap :
  members_inv context ds skipped s → cm_properties m = cm_properties (members s) →
  property_declarations m = property_declarations (members s) →
  (gap = false → members_gap s = false ∧ skipped' = false) →
  members_inv context ds skipped' {| members := m; pending_annotations := pending; members_gap := gap |}.
Proof.
  intros [Hds Hd Hs He Hc] Ep Ed Hg. split; simpl; rewrite ?Ep, ?Ed; try done.
  intros Hgap. destruct (Hg Hgap) as [Hg' ->]. split; [done|]. by apply Hc.
Qed.

Lemma member_step_inv class context ds skipped s x :
  members_inv context ds skipped s →
  members_inv context (ds ++ property_nodes [x]) (skipped || opaque [x]) (member_step class context s x).
Proof.
  intros Hi. unfold member_step, property_nodes, opaque. destruct x as [m|t]; csimpl.
  2:{ by rewrite app_nil_r, orb_false_r. }
  rewrite orb_false_r.
  assert (∀ b, members_inv context (ds ++ []) (skipped || b)
     {| members := members s; pending_annotations := no_facts; members_gap := true |}) as Hopaque.
  { intros b. rewrite app_nil_r. eapply frame_inv; [exact Hi|done|done|done]. }
  destruct (node_kind m) eqn:Ek; simpl; rewrite ?app_nil_r, ?orb_false_r; try exact Hi; try (rewrite <-(app_nil_r ds); apply Hopaque).
  - eapply frame_inv; [exact Hi|done|done|]. intros Hg. split; [done|]. by apply Hi.
  - apply property_inv. done.
  - destruct (qualified_frame (members s) m (pending_annotations s) class context) as [Ep Ed].
    destruct (insert_qualified_property _ _ _ _ _) as [b ms]. simpl in *. eapply frame_inv; [exact Hi|exact Ep|exact Ed|].
    destruct b; [|done]. intros Hg. split; [done|]. by apply Hi.
Qed.

Lemma members_loop_inv class context elements :
  members_inv context (property_nodes elements) (opaque elements)
    (foldl (member_step class context)
       {| members := no_members; pending_annotations := no_facts; members_gap := false |} elements).
Proof.
  induction elements as [|x elements IH] using rev_ind.
  - split; simpl; try apply bt_nil_sorted; try done.
    + intros n p. split; [done|]. by intros (d & ? & _).
    + intros _. split; [done|]. by intros ? ?%not_elem_of_nil.
  - rewrite foldl_app. simpl. 
    assert (property_nodes (elements ++ [x]) = property_nodes elements ++ property_nodes [x]) as ->
      by (unfold property_nodes; by rewrite omap_app, List.filter_app).
    assert (opaque (elements ++ [x]) = opaque elements || opaque [x]) as ->
      by (unfold opaque; by rewrite omap_app, existsb_app).
    by apply member_step_inv.
Qed.
End members.
