(* ===== verification/Loader.v ===== *)
(** * The model loader

    [pure-analyzer-model/src/loader.rs]: sources are lowered one by one and
    merged in the caller's order, a later element replacing an earlier one of the
    same path; associations are then materialized on the merged classes, and the
    classes indexed.  Reading a file is a parameter. *)

From S2P Require Import Prelude Utf8 BTree StableSort StrOps Codes FixPlan Kinds Green Builder Domain Model Pmcd PureLowering.

(** [entry(k).or_default().push(x)]. *)
Definition entry_push {K X} `{OrdKey K} (m : list (K * list X)) (k : K) (x : X) : list (K * list X) :=
  bt_insert m k (default [] (bt_get m k) ++ [x]).

(** [Option::get_or_insert]. *)
Definition get_or_insert {A} (value : A) (o : option A) : option A :=
  match o with Some _ => o | None => Some value end.

Section loader.
Context {R : Type} `{TextRangeNew R} `{PmcdJson} `{Logos} {Path IoError : Type}.

Abbreviation Error := (ModelError R Path IoError).

(** ** Associations *)

Record PreparedAssociation := {
  prep_path : QName;
  first_owner : QName;
  second_owner : QName;
  prep_first : PropInfo R;
  prep_second : PropInfo R;
  prep_temporal : option Temporal;
  prep_provenance : Provenance;
  prep_source : SourceId;
  prep_span : option R;
}.

(** [PreparedAssociation::from_draft] and [ends]: each end is owned by the class
    at the other. *)
Definition from_draft (association : AssocDraft R) : PreparedAssociation :=
  {| prep_path := draft_path association;
     first_owner := raw_type (pi_target (draft_second association));
     second_owner := raw_type (pi_target (draft_first association));
     prep_first := with_association (draft_first association) (draft_path association);
     prep_second := with_association (draft_second association) (draft_path association);
     prep_temporal := draft_temporal association;
     prep_provenance := draft_provenance association;
     prep_source := draft_source association;
     prep_span := draft_span association |}.

Definition ends (a : PreparedAssociation) : list (QName * PropInfo R) :=
  [(first_owner a, prep_first a); (second_owner a, prep_second a)].

(** [preflight_association_failures], its first loop: what stands against an
    association by itself. *)
Definition end_failure (classes : list (QName * ClassInfo R)) (path : QName) (e : QName * PropInfo R)
  : option ModelErrorKind :=
  match bt_get classes e.1 with
  | None => Some (MissingAssociationOwner path (pi_name e.2) e.1)
  | Some class => match bt_get (properties class) (pi_name e.2) with
    | Some _ => Some (AssociationPropertyConflict path e.1 (pi_name e.2))
    | None => None
    end
  end.

Definition note_failure (failure : option ModelErrorKind) (noted : option ModelErrorKind)
  : option ModelErrorKind :=
  match failure with Some failure => get_or_insert failure noted | None => noted end.

Definition own_failure (classes : list (QName * ClassInfo R)) (a : PreparedAssociation)
  : option ModelErrorKind :=
  foldl (λ noted e, note_failure (end_failure classes (prep_path a) e) noted) None (ends a).

(** Its second loop: the associations that contribute each member. *)
Definition end_key (e : QName * PropInfo R) : QName * Name := (e.1, pi_name e.2).

Fixpoint contributors_from (index : nat) (failures : list (option ModelErrorKind))
    (m : list (QName * Name * list nat)) (prepared : list PreparedAssociation)
  : list (QName * Name * list nat) :=
  match prepared with
  | [] => m
  | a :: prepared =>
      let m := if bool_decide (is_Some (mjoin (failures !! index))) then m
               else foldl (λ m e, entry_push m (end_key e) index) m (ends a) in
      contributors_from (S index) failures m prepared
  end.

(** Its third loop: among several contributors of one member only a single PMCD
    association stands. *)
Definition is_pmcd (prepared : list PreparedAssociation) (index : nat) : bool :=
  bool_decide (prep_provenance <$> prepared !! index = Some Pmcd).

Definition path_at (prepared : list PreparedAssociation) (index : nat) : QName :=
  default [] (prep_path <$> prepared !! index).

Definition fail_contributor (prepared : list PreparedAssociation) (owner : QName) (property : Name)
    (pmcd_contributor_count : nat) (failures : list (option ModelErrorKind)) (index : nat)
  : list (option ModelErrorKind) :=
  if (pmcd_contributor_count =? 1) && is_pmcd prepared index then failures
  else alter (get_or_insert (AssociationPropertyConflict (path_at prepared index) owner property))
         index failures.

Definition fail_contributors (prepared : list PreparedAssociation) (failures : list (option ModelErrorKind))
    (entry : QName * Name * list nat) : list (option ModelErrorKind) :=
  let '((owner, property), contributors) := entry in
  if length contributors <? 2 then failures
  else
    let pmcd_contributor_count := length (List.filter (is_pmcd prepared) contributors) in
    foldl (fail_contributor prepared owner property pmcd_contributor_count) failures contributors.

Definition preflight_association_failures (classes : list (QName * ClassInfo R))
    (associations : list PreparedAssociation) : list (option ModelErrorKind) :=
  let failures := own_failure classes <$> associations in
  foldl (fail_contributors associations) failures (contributors_from 0 failures [] associations).

(** [pure_association_materialization_diagnostic]. *)
Definition empty_range : option R := range_new 0 0.

Definition association_diagnostic (a : PreparedAssociation) (failure : ModelErrorKind)
  : option (Diagnostic R) :=
  span ← (match prep_span a with Some span => Some span | None => empty_range end);
  Some {| diag_code := UnresolvedModelAssociation; diag_severity := FixPlan.Error;
     diag_message := format ["Pure association `"; str (prep_path a); "` cannot be materialized safely: ";
                             ModelErrorKind_display failure];
     diag_primary := {| label_file := prep_source a; label_span := span;
                        label_note := "association not materialized" |};
     diag_secondary := []; diag_fix := None; diag_url := None |}.

(** [insert_association_end]: the property is inserted before what it replaced
    is looked at. *)
Definition insert_association_end (classes : list (QName * ClassInfo R)) (source : SourceId) (owner : QName)
    (property : PropInfo R) (association : QName) : Result (list (QName * ClassInfo R)) Error :=
  match bt_get classes owner with
  | None => Err (InvalidMergedGraph source (MissingAssociationOwner association (pi_name property) owner))
  | Some class => match bt_get (properties class) (pi_name property) with
    | Some _ =>
        Err (InvalidMergedGraph source (AssociationPropertyConflict association owner (pi_name property)))
    | None =>
        Ok (bt_insert classes owner
              (class <| properties := bt_insert (properties class) (pi_name property) property |>))
    end
  end.

(** [materialize_prepared_association]. *)
Definition materialized (a : PreparedAssociation) : AssocInfo R :=
  let info := from_source (prep_path a)
    (AssociationEndInfo_new (first_owner a) (prep_first a))
    (AssociationEndInfo_new (second_owner a) (prep_second a))
    (prep_temporal a) (prep_provenance a) (prep_source a) in
  match prep_span a with Some span => AssocInfo_with_span info span | None => info end.

Definition materialize_prepared_association (classes : list (QName * ClassInfo R)) (a : PreparedAssociation)
  : Result (list (QName * ClassInfo R) * AssocInfo R) Error :=
  let? classes := insert_association_end classes (prep_source a) (first_owner a) (prep_first a) (prep_path a) in
  let? classes := insert_association_end classes (prep_source a) (second_owner a) (prep_second a) (prep_path a) in
  Ok (classes, materialized a).

(** [materialize_associations]: a PMCD association that cannot be materialized
    is an error, found before anything is changed; a Pure one is left out, with
    a diagnostic. *)
Record AssociationMaterialization := {
  mat_classes : list (QName * ClassInfo R);
  mat_associations : list (AssocInfo R);
  mat_diagnostics : list (Diagnostic R);
  mat_gap : bool;
}.

#[global] Instance AssociationMaterialization_rebuild : Rebuild AssociationMaterialization := λ m,
  {| mat_classes := mat_classes m; mat_associations := mat_associations m;
     mat_diagnostics := mat_diagnostics m; mat_gap := mat_gap m |}.

Fixpoint pmcd_failure (pairs : list (PreparedAssociation * option ModelErrorKind)) : option Error :=
  match pairs with
  | [] => None
  | (a, failure) :: pairs =>
      match prep_provenance a, failure with
      | Pmcd, Some failure => Some (InvalidMergedGraph (prep_source a) failure)
      | _, _ => pmcd_failure pairs
      end
  end.

Fixpoint materialize_all (m : AssociationMaterialization)
    (pairs : list (PreparedAssociation * option ModelErrorKind))
  : option (Result AssociationMaterialization Error) :=
  match pairs with
  | [] => Some (Ok m)
  | (a, Some failure) :: pairs =>
      diagnostic ← association_diagnostic a failure;
      materialize_all (m <| mat_gap := true |> <| mat_diagnostics := mat_diagnostics m ++ [diagnostic] |>) pairs
  | (a, None) :: pairs =>
      match materialize_prepared_association (mat_classes m) a with
      | Err e => Some (Err e)
      | Ok (classes, info) =>
          materialize_all (m <| mat_classes := classes |>
                             <| mat_associations := mat_associations m ++ [info] |>) pairs
      end
  end.

Definition materialize_associations (classes : list (QName * ClassInfo R)) (associations : list (AssocDraft R))
  : option (Result AssociationMaterialization Error) :=
  let prepared := from_draft <$> associations in
  let failures := preflight_association_failures classes prepared in
  let pairs := zip prepared failures in
  match pmcd_failure pairs with
  | Some error => Some (Err error)
  | None =>
      materialize_all {| mat_classes := classes; mat_associations := []; mat_diagnostics := [];
                         mat_gap := false |} pairs
  end.

(** [index_classes]: its loop, from an index. *)
Fixpoint index_from (index : nat) (by_path : list (QName * ClassId)) (paths_by_id paths : list QName)
  : Result (list (QName * ClassId) * list QName) Error :=
  match paths with
  | [] => Ok (by_path, paths_by_id)
  | path :: paths =>
      match u32_try_from index with
      | None => Err (TooManyClasses index)
      | Some raw => index_from (S index) (bt_insert by_path path raw) (paths_by_id ++ [path]) paths
      end
  end.

Definition index_classes (classes : list (QName * ClassInfo R))
  : Result (list (QName * ClassId) * list QName) Error :=
  index_from 0 [] [] classes.*1.

(** ** Merging *)

Record ModelMerger := {
  merged_elements : list (QName * FragmentElement R);
  merged_sources : list ModelSourceInfo;
  merged_diagnostics : list (Diagnostic R);
}.

#[global] Instance ModelMerger_rebuild : Rebuild ModelMerger := λ m,
  {| merged_elements := merged_elements m; merged_sources := merged_sources m;
     merged_diagnostics := merged_diagnostics m |}.

Definition no_elements : ModelMerger :=
  {| merged_elements := []; merged_sources := []; merged_diagnostics := [] |}.

(** [merge_diagnostic]. *)
Definition merge_diagnostic (self : ModelMerger) (path : QName) (previous replacement : SourceId)
    (replacement_label : string) : option (Diagnostic R) :=
  let previous_label := match merged_sources self !! previous with
    | Some info => msi_label info | None => "<unknown source>" end in
  empty ← empty_range;
  Some {| diag_code := ModelMergeConflict; diag_severity := Warning;
     diag_message := format ["model element `"; str path; "` from `"; replacement_label;
                             "` replaces the definition from `"; previous_label; "`"];
     diag_primary := {| label_file := replacement; label_span := empty;
                        label_note := format ["winning definition from `"; replacement_label; "`"] |};
     diag_secondary := [{| label_file := previous; label_span := empty;
                           label_note := format ["replaced definition from `"; previous_label; "`"] |}];
     diag_fix := None; diag_url := None |}.

(** [ingest_fragment]. *)
Fixpoint ingest_elements (self : ModelMerger) (source : SourceId) (label : string)
    (elements : list (QName * FragmentElement R)) : option ModelMerger :=
  match elements with
  | [] => Some self
  | (path, replacement) :: elements =>
      let previous := bt_get (merged_elements self) path in
      let self := self <| merged_elements := bt_insert (merged_elements self) path replacement |> in
      match previous with
      | None => ingest_elements self source label elements
      | Some previous =>
          diagnostic ← merge_diagnostic self path (element_source previous) source label;
          ingest_elements (self <| merged_diagnostics := merged_diagnostics self ++ [diagnostic] |>)
            source label elements
      end
  end.

Definition ingest_fragment (self : ModelMerger) (source : SourceId) (label : string) (provenance : Provenance)
    (fragment : ModelFragment R) : option ModelMerger :=
  let info := {| msi_id := source; msi_label := label; msi_provenance := provenance |} in
  ingest_elements
    (self <| merged_sources := merged_sources self ++ [info] |>
          <| merged_diagnostics := merged_diagnostics self ++ fragment_diagnostics fragment |>)
    source label (fragment_elements fragment).

(** [ingest_pmcd] and [ingest_pure]. *)
Definition ingest_pmcd (self : ModelMerger) (source : SourceId) (label : string) (json : Text)
  : option (Result ModelMerger Error) :=
  match parse_document label json source with
  | Err e => Some (Err e)
  | Ok elements =>
      Ok <$> ingest_fragment self source label Pmcd
               {| fragment_elements := elements; fragment_diagnostics := [] |}
  end.

Definition ingest_pure (self : ModelMerger) (source : SourceId) (label : string) (text : Text)
  : option (Result ModelMerger Error) :=
  fragment ← parse_pure_document label text source;
  match fragment with
  | Err e => Some (Err e)
  | Ok fragment => Ok <$> ingest_fragment self source label PureFile fragment
  end.

(** [finish]. *)
Definition classes_of (elements : list (QName * FragmentElement R)) : list (QName * ClassInfo R) :=
  foldl (λ classes '(path, element),
    match element with ClassElement class => bt_insert classes path class | _ => classes end) [] elements.

Definition associations_of (elements : list (QName * FragmentElement R)) : list (AssocDraft R) :=
  omap (λ '(_, element), match element with AssociationElement a => Some a | _ => None end) elements.

Definition finish (self : ModelMerger) : option (Result (ModelGraph R) Error) :=
  m ← materialize_associations (classes_of (merged_elements self)) (associations_of (merged_elements self));
  Some (let? m := m in
        let classes := if mat_gap m then prod_map id mark_coverage_gap <$> mat_classes m
                       else mat_classes m in
        let? (by_path, paths_by_id) := index_classes classes in
        Ok {| classes := classes; by_path := by_path; paths_by_id := paths_by_id;
              associations := mat_associations m; sources := merged_sources self;
              graph_diagnostics := merged_diagnostics self ++ mat_diagnostics m |}).

(** ** Loading *)

Definition source_id (index : nat) : Result SourceId Error :=
  match u32_try_from index with Some id => Ok id | None => Err (TooManySources index) end.

Inductive ModelDocument :=
| PmcdDocument (label : string) (json : Text)
| PureDocument (label : string) (source : Text).

Definition ingest_document (merger : ModelMerger) (source : SourceId) (document : ModelDocument)
  : option (Result ModelMerger Error) :=
  match document with
  | PmcdDocument label json => ingest_pmcd merger source label json
  | PureDocument label text => ingest_pure merger source label text
  end.

(** The loop of [load_model_documents] and of [load_model_files]: the input is
    read when its turn comes. *)
Fixpoint ingest_all {I} (read : I → Result ModelDocument Error) (merger : ModelMerger) (index : nat)
    (inputs : list I) : option (Result ModelMerger Error) :=
  match inputs with
  | [] => Some (Ok merger)
  | input :: inputs =>
      match (let? source := source_id index in let? document := read input in Ok (source, document)) with
      | Err e => Some (Err e)
      | Ok (source, document) =>
          merger ← ingest_document merger source document;
          match merger with
          | Err e => Some (Err e)
          | Ok merger => ingest_all read merger (S index) inputs
          end
      end
  end.

Definition load {I} (read : I → Result ModelDocument Error) (inputs : list I)
  : option (Result (ModelGraph R) Error) :=
  merger ← ingest_all read no_elements 0 inputs;
  match merger with Err e => Some (Err e) | Ok merger => finish merger end.

Definition load_model_documents (documents : list ModelDocument) : option (Result (ModelGraph R) Error) :=
  load Ok documents.

Definition load_pmcd_documents (documents : list (string * Text)) : option (Result (ModelGraph R) Error) :=
  load_model_documents ((λ d, PmcdDocument d.1 d.2) <$> documents).

Definition load_pure_documents (documents : list (string * Text)) : option (Result (ModelGraph R) Error) :=
  load_model_documents ((λ d, PureDocument d.1 d.2) <$> documents).

(** Files: [ModelSource] with its path, [Path::display] and
    [fs::read_to_string]. *)
Inductive ModelSource := PmcdJsonFile (path : Path) | PureModelFile (path : Path).

Definition source_path (s : ModelSource) : Path :=
  match s with PmcdJsonFile path | PureModelFile path => path end.

Definition source_provenance (s : ModelSource) : Provenance :=
  match s with PmcdJsonFile _ => Pmcd | PureModelFile _ => PureFile end.

Context (display : Path → string) (read_to_string : Path → Result Text IoError).

Definition read_source (s : ModelSource) : Result ModelDocument Error :=
  let path := source_path s in
  let? text := map_err (ReadError path) (read_to_string path) in
  let label := display path in
  Ok match s with
     | PmcdJsonFile _ => PmcdDocument label text
     | PureModelFile _ => PureDocument label text
     end.

Definition load_model_files (inputs : list ModelSource) : option (Result (ModelGraph R) Error) :=
  load read_source inputs.

Definition load_pmcd_files (paths : list Path) : option (Result (ModelGraph R) Error) :=
  load_model_files (PmcdJsonFile <$> paths).

Definition load_pure_files (paths : list Path) : option (Result (ModelGraph R) Error) :=
  load_model_files (PureModelFile <$> paths).
End loader.
