(* ===== verification/LoaderLaws.v ===== *)
(** * Materialization of associations

    What the preflight finds: the associations it passes own members that no
    class declares and no other passed association contributes, so that to
    materialize them never fails; and what the classes are afterwards. *)

From Stdlib Require Import Sorting.Sorted.
From S2P Require Import Prelude BTree Codes StableSort Utf8 StrOps FixPlan Kinds Green Builder Domain Model Pmcd PureLowering ModelLaws Loader.

Lemma entry_push_get {K X} `{OrdKeyLaws K, !EqDecision K} (m : list (K * list X)) k x k' :
  bt_sorted m →
  default [] (bt_get (entry_push m k x) k') = default [] (bt_get m k') ++ (if decide (k' = k) then [x] else []).
Proof.
  intros Hs. unfold entry_push. rewrite bt_lookup_insert by done. destruct (decide (k' = k)) as [->|]; [done|].
  by rewrite app_nil_r.
Qed.

Lemma get_or_insert_None {A} (x : A) o : get_or_insert x o ≠ None.
Proof. by destruct o. Qed.

Section materialize.
Context {R : Type} `{TextRangeNew R} `{PmcdJson} {Path IoError : Type}.
Implicit Types (classes : list (QName * ClassInfo R)) (a : PreparedAssociation (R:=R)).
Implicit Types prepared : list (PreparedAssociation (R:=R)).

(** ** The preflight *)

(** A member that no class declares, of a class that exists. *)
Definition free classes (k : QName * Name) : Prop :=
  ∃ class, bt_get classes k.1 = Some class ∧ bt_get (properties class) k.2 = None.

Lemma end_failure_None classes path e : end_failure classes path e = None ↔ free classes (end_key e).
Proof.
  unfold end_failure, free, end_key. simpl. destruct (bt_get classes e.1) as [c|]; [|naive_solver].
  destruct (bt_get (properties c) _) eqn:E; naive_solver.
Qed.

#[local] Instance free_dec classes k : Decision (free classes k).
Proof.
  unfold free. destruct (bt_get classes k.1) as [c|] eqn:Ec; [|right; intros (? & [=] & _)].
  destruct (bt_get (properties c) k.2) as [v|] eqn:Ev; [right|left; by exists c].
  intros (? & [= <-] & E). congruence.
Qed.

Lemma own_failure_None classes a : own_failure classes a = None ↔ Forall (free classes) (end_key <$> ends a).
Proof.
  unfold own_failure, ends. csimpl. rewrite !Forall_cons, Forall_nil, <-!(end_failure_None classes (prep_path a)).
  destruct (end_failure _ _ (first_owner a, _)), (end_failure _ _ (second_owner a, _)); simpl; naive_solver.
Qed.

(** The indices that contribute a member, in order, an association of two ends
    at one member twice. *)
Fixpoint contributions (k : QName * Name) (index : nat) (failures : list (option ModelErrorKind))
    (prepared : list (PreparedAssociation (R:=R))) : list nat :=
  match prepared with
  | [] => []
  | a :: prepared =>
      (if bool_decide (is_Some (mjoin (failures !! index))) then []
       else foldr (λ e l, (if decide (k = end_key e) then [index] else []) ++ l) [] (ends a))
      ++ contributions k (S index) failures prepared
  end.

Lemma contributors_get index failures m prepared k :
  bt_sorted m →
  bt_sorted (contributors_from index failures m prepared) ∧
  default [] (bt_get (contributors_from index failures m prepared) k)
  = default [] (bt_get m k) ++ contributions k index failures prepared.
Proof.
  revert index m. induction prepared as [|a prepared IH]; intros index m Hs; cbn [contributors_from contributions].
  - by rewrite app_nil_r.
  - case_bool_decide; [by apply IH|]. unfold ends. cbn [foldl foldr].
    assert (bt_sorted (entry_push m (end_key (first_owner a, prep_first a)) index)) as Hs1 by by apply bt_insert_sorted.
    destruct (IH (S index) (entry_push (entry_push m (end_key (first_owner a, prep_first a)) index)
                              (end_key (second_owner a, prep_second a)) index)) as [Hs2 Hg];
      [by apply bt_insert_sorted|].
    split; [exact Hs2|]. rewrite Hg, !entry_push_get by done. by rewrite app_nil_r, <-!(assoc_L (++)).
Qed.

Lemma contributions_elem k index failures prepared i :
  i ∈ contributions k index failures prepared ↔
  ∃ j a, i = index + j ∧ prepared !! j = Some a ∧ mjoin (failures !! i) = None ∧ k ∈ end_key <$> ends a.
Proof.
  revert index. induction prepared as [|a prepared IH]; intros index; cbn [contributions].
  - rewrite elem_of_nil. split; [done|]. by intros (j & a & _ & ? & _).
  - rewrite elem_of_app, IH. split.
    + intros [Hi|(j & b & -> & Hb & Hf & Hk)]; [|exists (S j), b; split_and!; [lia|done..]].
      case_bool_decide as Hn; [by apply not_elem_of_nil in Hi|]. exists 0, a.
      assert (i = index ∧ k ∈ end_key <$> ends a) as [-> Hk].
      { unfold ends in *. csimpl. revert Hi. cbn [foldr].
        destruct (decide (k = _)), (decide (k = _)); rewrite ?elem_of_app, ?elem_of_cons, ?elem_of_nil; naive_solver. }
      split_and!; [lia|done| |done]. by rewrite eq_None_not_Some.
    + intros ([|j] & b & Hi & Hb & Hf & Hk).
      * left. injection Hb as ->. replace i with index in * by lia. rewrite bool_decide_eq_false_2 by (by rewrite Hf; intros []).
        unfold ends in *. csimpl in *. rewrite !elem_of_cons, elem_of_nil in Hk. cbn [foldr].
        destruct (decide (k = _)), (decide (k = _)); rewrite ?elem_of_app, ?elem_of_cons; naive_solver.
      * right. exists j, b. split_and!; [lia|done..].
Qed.

(** A failure once noted stays, and one that stays away was not called for. *)
Lemma fail_contributor_None prepared failures owner property count index i :
  fail_contributor prepared owner property count failures index !! i = Some None →
  failures !! i = Some None ∧ (i = index → count = 1 ∧ is_pmcd prepared i = true).
Proof.
  unfold fail_contributor. destruct ((count =? 1) && is_pmcd prepared index) eqn:E.
  - apply andb_true_iff in E as [Hc%Nat.eqb_eq Hp]. intros Hi. split; [done|]. by intros ->.
  - destruct (decide (i = index)) as [->|Hne].
    + rewrite list_lookup_alter_eq. destruct (failures !! index) as [f|]; simpl; [|done].
      intros [= Hf]. by apply get_or_insert_None in Hf.
    + rewrite list_lookup_alter_ne by congruence. by intros Hi.
Qed.

Lemma fail_contributors_None prepared failures k cs i :
  fail_contributors prepared failures (k, cs) !! i = Some None →
  failures !! i = Some None ∧
  (i ∈ cs → 2 ≤ length cs → length (List.filter (is_pmcd prepared) cs) = 1 ∧ is_pmcd prepared i = true).
Proof.
  destruct k as [owner property]. unfold fail_contributors. destruct (Nat.ltb_spec (length cs) 2) as [Hlt|_].
  { intros Hi. split; [done|lia]. }
  generalize (length (List.filter (is_pmcd prepared) cs)) as count. intros count Hi.
  assert (failures !! i = Some None ∧ (i ∈ cs → count = 1 ∧ is_pmcd prepared i = true)) as [? ?]; [|auto].
  revert failures Hi. induction cs as [|x l IH]; intros fs Hi; simpl in Hi.
  { split; [done|]. by intros ?%not_elem_of_nil. }
  apply IH in Hi as [Hi Hl]. apply fail_contributor_None in Hi as [Hi Hx]. split; [done|].
  rewrite elem_of_cons. intros [?|?]; auto.
Qed.

Lemma fail_all_None prepared failures (m : list (QName * Name * list nat)) i :
  foldl (fail_contributors prepared) failures m !! i = Some None →
  failures !! i = Some None ∧ ∀ k cs, (k, cs) ∈ m → i ∈ cs → 2 ≤ length cs →
    length (List.filter (is_pmcd prepared) cs) = 1 ∧ is_pmcd prepared i = true.
Proof.
  revert failures. induction m as [|[k cs] m IH]; intros failures Hi.
  { split; [done|]. by intros ?? ?%not_elem_of_nil. }
  simpl in Hi. apply IH in Hi as [Hi Hm]. apply fail_contributors_None in Hi as [Hi Hk].
  split; [done|]. intros k' cs'. rewrite elem_of_cons. intros [[= -> ->]|?]; [done|by eapply Hm].
Qed.

Lemma fail_all_length prepared failures (m : list (QName * Name * list nat)) :
  length (foldl (fail_contributors prepared) failures m) = length failures.
Proof.
  revert failures. induction m as [|[[owner property] cs] m IH]; intros failures; [done|]. simpl. rewrite IH.
  destruct (length cs <? 2); [done|]. generalize (length (List.filter (is_pmcd prepared) cs)) as count. intros count.
  revert failures. induction cs as [|c cs IHc]; intros failures; [done|]. simpl. rewrite IHc.
  unfold fail_contributor. destruct (_ && _); [done|]. apply length_alter.
Qed.

Lemma preflight_length classes prepared : length (preflight_association_failures classes prepared) = length prepared.
Proof. unfold preflight_association_failures. by rewrite fail_all_length, length_fmap. Qed.
(** The associations that pass. *)
Definition passed {A E} (pairs : list (A * option E)) : list A :=
  omap (λ x, match x.2 with None => Some x.1 | Some _ => None end) pairs.

Definition passes classes prepared (i : nat) a : Prop :=
  prepared !! i = Some a ∧ preflight_association_failures classes prepared !! i = Some None.

Lemma passes_own classes prepared i a : passes classes prepared i a → own_failure classes a = None.
Proof.
  intros [Ha Hf]. apply fail_all_None in Hf as [Hf _]. rewrite list_lookup_fmap, Ha in Hf. by injection Hf.
Qed.

Lemma passes_contributes classes prepared i a k :
  passes classes prepared i a → k ∈ end_key <$> ends a →
  ∃ cs, cs = contributions k 0 (own_failure classes <$> prepared) prepared ∧ i ∈ cs ∧
    (2 ≤ length cs → length (List.filter (is_pmcd prepared) cs) = 1 ∧ is_pmcd prepared i = true).
Proof.
  intros Hp Hk. pose proof (passes_own _ _ _ _ Hp) as Ho. destruct Hp as [Ha Hf].
  set (failures := own_failure classes <$> prepared).
  destruct (contributors_get 0 failures [] prepared k bt_nil_sorted) as [Hs Hg].
  assert (i ∈ contributions k 0 failures prepared) as Hi.
  { apply contributions_elem. exists i, a. split_and!; try done.
    unfold failures. by rewrite list_lookup_fmap, Ha; simpl; rewrite Ho. }
  exists (contributions k 0 failures prepared). split; [done|]. split; [exact Hi|]. intros Hlen.
  apply fail_all_None in Hf as [_ Hall]. apply (Hall k (contributions k 0 failures prepared)); [|done..].
  apply bt_get_Some_in. fold failures. simpl in Hg. rewrite <-Hg in Hi |- *.
  destruct (bt_get _ k); [done|]. by apply not_elem_of_nil in Hi.
Qed.

Lemma filter_two {A} (f : A → bool) (l1 l2 l3 : list A) x y :
  f x = true → f y = true → 2 ≤ length (List.filter f (l1 ++ x :: l2 ++ y :: l3)).
Proof.
  intros Hx Hy. rewrite List.filter_app, length_app. simpl. rewrite Hx, List.filter_app. simpl.
  rewrite length_app, Hy. simpl. lia.
Qed.

Lemma elem_of_two {A} (l : list A) x y : x ≠ y → x ∈ l → y ∈ l →
  (∃ l1 l2 l3, l = l1 ++ x :: l2 ++ y :: l3) ∨ (∃ l1 l2 l3, l = l1 ++ y :: l2 ++ x :: l3).
Proof.
  intros Hne (l1 & l2 & ->)%list_elem_of_split. rewrite elem_of_app, elem_of_cons.
  intros [Hy|[->|Hy]]; [|done|]; apply list_elem_of_split in Hy as (a & b & ->).
  - right. exists a, b, l2. by rewrite <-(assoc_L (++)).
  - left. by exists l1, a, b.
Qed.

(** No member has two contributors that pass, nor is it both ends of one. *)
Lemma passes_disjoint classes prepared i j a b k :
  passes classes prepared i a → passes classes prepared j b → i ≠ j →
  k ∈ end_key <$> ends a → k ∉ end_key <$> ends b.
Proof.
  intros Hi Hj Hne Hka Hkb. destruct (passes_contributes _ _ _ _ _ Hi Hka) as (cs & Ecs & Hic & Hil).
  destruct (passes_contributes _ _ _ _ _ Hj Hkb) as (cs' & Ecs' & Hjc & Hjl). rewrite <-Ecs in Ecs'. subst cs'.
  assert (2 ≤ length cs) as Hlen.
  { destruct (elem_of_two cs i j) as [(?&?&?&->)|(?&?&?&->)]; [done..| |]; rewrite !length_app; simpl;
      rewrite length_app; simpl; lia. }
  destruct (Hil Hlen) as [Hone Hpi]. destruct (Hjl Hlen) as [_ Hpj].
  destruct (elem_of_two cs i j) as [(?&?&?&E)|(?&?&?&E)]; [done..| |]; rewrite E in Hone.
  - pose proof (filter_two (is_pmcd prepared) x x0 x1 i j Hpi Hpj). lia.
  - pose proof (filter_two (is_pmcd prepared) x x0 x1 j i Hpj Hpi). lia.
Qed.

Lemma contributions_twice k index failures prepared j a :
  prepared !! j = Some a → mjoin (failures !! (index + j)) = None → end_key <$> ends a = [k; k] →
  ∃ l1 l3, contributions k index failures prepared = l1 ++ (index + j) :: [] ++ (index + j) :: l3.
Proof.
  revert index j. induction prepared as [|b prepared IH]; intros index j Ha Hf He; [done|].
  destruct j as [|j]; cbn [contributions].
  - injection Ha as ->. rewrite Nat.add_0_r in *. rewrite bool_decide_eq_false_2 by (by rewrite Hf; intros []).
    unfold ends in *. csimpl in *. injection He as -> ->. cbn [foldr]. rewrite decide_True by done. by exists [], (contributions k (S index) failures prepared).
  - simpl in Ha. rewrite <-Nat.add_succ_comm in *. destruct (IH (S index) j Ha Hf He) as (l1 & l3 & ->).
    eexists (_ ++ l1), l3. by rewrite <-(assoc_L (++)).
Qed.

Lemma passes_ends_differ classes prepared i a : passes classes prepared i a → NoDup (end_key <$> ends a).
Proof.
  intros Hp. unfold ends. csimpl. rewrite NoDup_cons, list_elem_of_singleton. split; [|apply NoDup_singleton].
  intros Hk. set (k := end_key (second_owner a, prep_second a)) in *.
  assert (k ∈ end_key <$> ends a) as Hin by (unfold ends; csimpl; right; left).
  destruct (passes_contributes _ _ _ _ _ Hp Hin) as (cs & Ecs & Hic & Hil).
  destruct (contributions_twice k 0 (own_failure classes <$> prepared) prepared i a) as (l1 & l3 & E).
  - apply Hp.
  - change (0 + i) with i. rewrite list_lookup_fmap, (proj1 Hp). simpl. by eapply passes_own.
  - unfold ends. csimpl. by rewrite Hk.
  - rewrite E in Ecs. subst cs. simpl in Hil. destruct Hil as [Hone Hpi]; [rewrite length_app; simpl; lia|].
    pose proof (filter_two (is_pmcd prepared) l1 [] l3 i i Hpi Hpi) as Htwo. simpl in Htwo. lia.
Qed.

Definition end_keys a : list (QName * Name) := end_key <$> ends a.
#[local] Arguments end_keys : simpl never.

Lemma passed_keys_nodup prepared (failures : list (option ModelErrorKind)) :
  (∀ i a, prepared !! i = Some a → failures !! i = Some None → NoDup (end_keys a)) →
  (∀ i j a b k, i ≠ j → prepared !! i = Some a → failures !! i = Some None →
     prepared !! j = Some b → failures !! j = Some None → k ∈ end_keys a → k ∉ end_keys b) →
  NoDup (concat (end_keys <$> passed (zip prepared failures))).
Proof.
  revert failures. induction prepared as [|a prepared IH]; intros [|f failures] H1' H2'; try by constructor.
  csimpl.
  assert (NoDup (concat (end_keys <$> passed (zip prepared failures)))) as Htail.
  { apply IH.
    - intros i b Hb Hf. by apply (H1' (S i)).
    - intros i j b c k Hij Hb Hf Hc Hf'. apply (H2' (S i) (S j)); [lia|done..]. }
  destruct f as [f|]; [exact Htail|].
  change (NoDup (end_keys a ++ concat (end_keys <$> passed (zip prepared failures)))).
  apply NoDup_app. split_and!; [by apply (H1' 0 a)| |done].
  intros k Hk. rewrite list_elem_of_concat. intros (ks & Hin & Hks).
  apply list_elem_of_fmap in Hks as (b & -> & Hb). apply list_elem_of_omap in Hb as ([c f'] & Hc & Ef).
  simpl in Ef. destruct f'; [done|]. injection Ef as ->. apply list_elem_of_lookup in Hc as (j & Hj).
  apply lookup_zip_with_Some in Hj as (c & f' & [= <- <-] & Hc & Hf).
  by eapply (H2' 0 (S j)).
Qed.

Lemma preflight_keys_nodup classes prepared :
  NoDup (concat (end_keys <$>
    passed (zip prepared (preflight_association_failures classes prepared)))).
Proof.
  apply passed_keys_nodup.
  - intros i a Ha Hf. by eapply (passes_ends_differ classes prepared i).
  - intros i j a b k Hij Ha Hf Hb Hf'. by apply (passes_disjoint classes prepared i j).
Qed.

Lemma preflight_keys_free classes prepared :
  Forall (free classes) (concat (end_keys <$>
    passed (zip prepared (preflight_association_failures classes prepared)))).
Proof.
  apply Forall_forall. intros k. rewrite list_elem_of_concat. intros (ks & Hin & Hks).
  apply list_elem_of_fmap in Hks as (b & -> & Hb). apply list_elem_of_omap in Hb as ([c f'] & Hc & Ef).
  simpl in Ef. destruct f'; [done|]. injection Ef as ->. apply list_elem_of_lookup in Hc as (j & Hj).
  apply lookup_zip_with_Some in Hj as (c & f' & [= <- <-] & Hc & Hf).
  assert (own_failure classes b = None) as Ho%own_failure_None by (by eapply (passes_own _ _ j)).
  rewrite Forall_forall in Ho. by apply Ho.
Qed.

(** Conversely, what does not pass has a reason: one of its own, or a member
    that it contributes twice, or that another association contributes too. *)
Lemma fail_contributor_Some prepared failures owner property count index i f :
  fail_contributor prepared owner property count failures index !! i = Some (Some f) →
  failures !! i = Some (Some f) ∨ i = index.
Proof.
  unfold fail_contributor. destruct (_ && _); [by left|].
  destruct (decide (i = index)) as [->|Hne]; [by right|]. rewrite list_lookup_alter_ne by congruence. by left.
Qed.

Lemma fail_all_Some prepared failures (m : list (QName * Name * list nat)) i f :
  foldl (fail_contributors prepared) failures m !! i = Some (Some f) →
  failures !! i = Some (Some f) ∨ ∃ k cs, (k, cs) ∈ m ∧ i ∈ cs ∧ 2 ≤ length cs.
Proof.
  induction m as [|[k cs] m IH] using rev_ind; [by left|]. rewrite foldl_app. cbn [foldl]. intros Hi.
  assert (foldl (fail_contributors prepared) failures m !! i = Some (Some f) ∨ i ∈ cs ∧ 2 ≤ length cs) as [Hm|[Hc Hl]].
  { destruct k as [owner property]. unfold fail_contributors in Hi.
    destruct (Nat.ltb_spec (length cs) 2) as [|Hl]; [by left|]. revert Hi. generalize (length (List.filter (is_pmcd prepared) cs)) as count.
    intros count Hi. cut (foldl (fail_contributors prepared) failures m !! i = Some (Some f) ∨ i ∈ cs); [by intros [?|?]; [left|right]|].
    clear Hl IH. induction cs as [|x cs IHc] using rev_ind; [by left|]. rewrite foldl_app in Hi. cbn [foldl] in Hi.
    rewrite elem_of_app, list_elem_of_singleton.
    apply fail_contributor_Some in Hi as [Hi| ->]; [|by auto]. destruct (IHc Hi); auto. }
  - destruct (IH Hm) as [?|(k' & cs' & Hin & ?)]; [by left|]. right. exists k', cs'. split; [|done]. apply elem_of_app. by left.
  - right. exists k, cs. split; [|done]. apply elem_of_app. right. by apply list_elem_of_singleton.
Qed.

(** A member contributed at one index only, but twice, is both ends of the
    association there. *)
Lemma contributions_single k index failures prepared i :
  (∀ j, j ∈ contributions k index failures prepared → j = i) →
  2 ≤ length (contributions k index failures prepared) →
  ∃ j a, i = index + j ∧ prepared !! j = Some a ∧ end_keys a = [k; k].
Proof.
  revert index. induction prepared as [|a prepared IH]; intros index; cbn [contributions]; [simpl; lia|].
  set (tail := contributions k (S index) failures prepared) in *.
  set (head := if bool_decide _ then [] else _). intros Hall Hlen.
  destruct (decide (head = [])) as [Hnil|Hne].
  { rewrite Hnil in Hall, Hlen. destruct (IH (S index) Hall Hlen) as (j & b & -> & Hb & Hk).
    exists (S j), b. split_and!; [lia|done..]. }
  assert (∀ x, x ∈ head → x = index) as Hhead.
  { intros x. unfold head, ends. case_bool_decide; [by intros ?%not_elem_of_nil|]. cbn [foldr].
    destruct (decide (k = _)), (decide (k = _)); rewrite ?elem_of_app, ?elem_of_cons, ?elem_of_nil; naive_solver. }
  assert (i = index) as ->.
  { destruct head as [|x l]; [done|]. rewrite <-(Hhead x) by left. symmetry. apply Hall. left. }
  assert (tail = []) as Htail.
  { apply elem_of_nil_inv. intros x Hx. pose proof (Hall x) as Hxi. rewrite elem_of_app in Hxi. specialize (Hxi (or_intror Hx)).
    apply contributions_elem in Hx as (j & _ & -> & _). lia. }
  rewrite Htail, app_nil_r in Hlen. exists 0, a. split_and!; [lia|done|]. revert Hlen. unfold head, end_keys, ends.
  case_bool_decide; [simpl; lia|]. cbn [foldr]. csimpl.
  destruct (decide (k = _)) as [<-|], (decide (k = _)) as [<-|]; simpl; (done || lia).
Qed.

Lemma preflight_refused classes prepared i a f :
  prepared !! i = Some a → preflight_association_failures classes prepared !! i = Some (Some f) →
  ∃ k, k ∈ end_keys a ∧
    (¬ free classes k ∨ end_keys a = [k; k] ∨ ∃ j b, j ≠ i ∧ prepared !! j = Some b ∧ k ∈ end_keys b).
Proof.
  intros Ha Hf. apply fail_all_Some in Hf as [Hf|(k & cs & Hin & Hi & Hlen)].
  - rewrite list_lookup_fmap, Ha in Hf. injection Hf as Hf.
    assert (¬ Forall (free classes) (end_keys a)) as Hn by (intros Hall%own_failure_None; congruence).
    apply not_Forall_Exists in Hn; [|intros k; apply free_dec]. apply Exists_exists in Hn as (k & Hk & Hfree).
    exists k. split; [done|]. by left.
  - set (failures := own_failure classes <$> prepared) in *.
    destruct (contributors_get 0 failures [] prepared k bt_nil_sorted) as [Hs Hg].
    apply bt_get_elem in Hin; [|done]. rewrite Hin in Hg. simpl in Hg. subst cs.
    pose proof Hi as (j & b & -> & Hb & _ & Hk)%contributions_elem. change (0 + j) with j in *. rewrite Ha in Hb. injection Hb as <-.
    exists k. split; [exact Hk|]. right. simpl in *.
    destruct (decide (Forall (λ x, x = j) (contributions k 0 failures prepared))) as [Hall|Hother].
    + left. rewrite Forall_forall in Hall. destruct (contributions_single k 0 failures prepared j Hall Hlen) as (j' & b & -> & Hb & Hkk).
      simpl in Ha. rewrite Ha in Hb. by injection Hb as <-.
    + right. apply not_Forall_Exists in Hother; [|intros x; apply _]. apply Exists_exists in Hother as (x & Hx & Hne).
      apply contributions_elem in Hx as (j' & b & -> & Hb & _ & Hk'). by exists j', b.
Qed.

(** ** The classes afterwards *)

(** A class is another with the members that the ends of a list contribute to
    it. *)
Record with_ends (l : list (QName * PropInfo R)) (p : QName) (c c' : ClassInfo R) : Prop := {
  ends_only : c' = c <| properties := properties c' |>;
  ends_sorted : bt_sorted (properties c');
  ends_lookup n v :
    bt_get (properties c') n = Some v ↔
    bt_get (properties c) n = Some v ∨ (p, v) ∈ l ∧ pi_name v = n;
}.

Definition option_rel {A} (P : A → A → Prop) (x y : option A) : Prop :=
  match x, y with Some x, Some y => P x y | None, None => True | _, _ => False end.

Record extends (l : list (QName * PropInfo R)) classes classes' : Prop := {
  extends_sorted : bt_sorted classes';
  extends_keys : classes'.*1 = classes.*1;
  extends_class p : option_rel (with_ends l p) (bt_get classes p) (bt_get classes' p);
}.

Lemma with_ends_nil p c : bt_sorted (properties c) → with_ends [] p c c.
Proof. intros Hs. split; [by destruct c|done|]. intros n v. rewrite elem_of_nil. naive_solver. Qed.

Lemma with_ends_unique l p c c1 c2 : with_ends l p c c1 → with_ends l p c c2 → c1 = c2.
Proof.
  intros H1' H2'. assert (properties c1 = properties c2) as E.
  { apply bt_ext; [by apply H1'|by apply H2'|]. intros n. apply option_eq. intros v.
    by rewrite (ends_lookup _ _ _ _ H1'), (ends_lookup _ _ _ _ H2'). }
  trans (c <| properties := properties c1 |>); [apply H1'|]. rewrite E. symmetry. apply H2'.
Qed.

Lemma extends_nil classes :
  bt_sorted classes → bt_Forall (λ _ c, bt_sorted (properties c)) classes → extends [] classes classes.
Proof.
  intros Hs Hp. split; [done..|]. intros p. destruct (bt_get classes p) as [c|] eqn:E; [|done]. simpl.
  apply with_ends_nil. by apply (Hp p).
Qed.

Lemma with_ends_other l p c c' e : e.1 ≠ p → with_ends l p c c' → with_ends (l ++ [e]) p c c'.
Proof.
  intros Hne [Ho Hs Hl]. split; [done..|]. intros n v. rewrite Hl, elem_of_app, list_elem_of_singleton.
  split; [naive_solver|]. intros [?|[[?| <-] ?]]; naive_solver.
Qed.

Lemma with_ends_insert l p c c' prop :
  with_ends l p c c' → bt_get (properties c') (pi_name prop) = None →
  with_ends (l ++ [(p, prop)]) p c
    (c' <| properties := bt_insert (properties c') (pi_name prop) prop |>).
Proof.
  intros [Ho Hs Hl] Hn. split; [by rewrite Ho|by apply bt_insert_sorted|].
  intros n v. simpl. rewrite bt_lookup_insert, elem_of_app, list_elem_of_singleton by done.
  destruct (decide (n = pi_name prop)) as [->|Hne].
  - split; [intros [= <-]; auto|]. pose proof (Hl (pi_name prop) v) as Hv. rewrite Hn in Hv. naive_solver.
  - rewrite Hl. naive_solver.
Qed.

Lemma bt_insert_same_keys {V} (m : list (QName * V)) k v : is_Some (bt_get m k) → bt_sorted m → (bt_insert m k v).*1 = m.*1.
Proof.
  intros [v' E] Hs. induction m as [|[k1 v1] m IH]; [done|]. unfold bt_sorted in *. csimpl in *.
  destruct (key_cmp k k1) eqn:Ec; csimpl; [apply key_cmp_eq in Ec as ->; done|done|].
  apply StronglySorted_inv in Hs as [Hs _]. by rewrite IH.
Qed.

Lemma insert_end_ok l classes classes' source e path :
  extends l classes classes' → free classes' (end_key e) →
  ∃ next, insert_association_end (Path:=Path) (IoError:=IoError) classes' source e.1 e.2 path = Ok next ∧
    extends (l ++ [e]) classes next ∧ ∀ k, k ≠ end_key e → free classes' k → free next k.
Proof.
  intros [Hs Hk Hc] (c' & Ec & En). destruct e as [owner prop]. simpl in *.
  unfold insert_association_end. rewrite Ec, En. eexists. split; [done|]. split.
  - split; [by apply bt_insert_sorted|by rewrite bt_insert_same_keys|].
    intros p. rewrite bt_lookup_insert by done. specialize (Hc p). destruct (decide (p = owner)) as [->|Hne].
    + rewrite Ec in Hc. destruct (bt_get classes owner) as [c|]; [|done]. by apply with_ends_insert.
    + destruct (bt_get classes p), (bt_get classes' p); try done. simpl in *. by apply with_ends_other.
  - intros [p n] Hne (d & Ed & Edn). simpl in *. unfold free. simpl. rewrite bt_lookup_insert by done.
    destruct (decide (p = owner)) as [->|]; [|by exists d]. eexists. split; [done|]. simpl.
    rewrite Ec in Ed. injection Ed as <-. specialize (Hc owner). rewrite Ec in Hc.
    destruct (bt_get classes owner) as [c|]; [|done]. destruct Hc as [_ Hps _].
    rewrite bt_lookup_insert_ne; [done|done|]. unfold end_key in Hne. simpl in Hne. congruence.
Qed.

Lemma materialize_prepared_ok l classes classes' a :
  extends l classes classes' → NoDup (end_keys a) → Forall (free classes') (end_keys a) →
  ∃ next, materialize_prepared_association (Path:=Path) (IoError:=IoError) classes' a = Ok (next, materialized a) ∧
    extends (l ++ ends a) classes next ∧ ∀ k, k ∉ end_keys a → free classes' k → free next k.
Proof.
  unfold end_keys, ends. csimpl. rewrite NoDup_cons, list_elem_of_singleton, !Forall_cons.
  intros He [Hne _] (Hf1 & Hf2 & _). unfold materialize_prepared_association.
  destruct (insert_end_ok l classes classes' (prep_source a) (first_owner a, prep_first a) (prep_path a) He Hf1)
    as (next & E1 & He1 & Hfree1). simpl in E1. rewrite E1. simpl.
  destruct (insert_end_ok _ classes next (prep_source a) (second_owner a, prep_second a) (prep_path a) He1)
    as (next' & E2 & He2 & Hfree2); [apply Hfree1; [congruence|done]|]. simpl in E2. rewrite E2. simpl.
  exists next'. split; [done|]. split; [by rewrite <-(assoc_L (++)) in He2|].
  intros k. rewrite !elem_of_cons. intros Hk ?. apply Hfree2; [naive_solver|]. apply Hfree1; naive_solver.
Qed.

Lemma association_diagnostic_total a failure : is_Some (association_diagnostic a failure).
Proof.
  unfold association_diagnostic, empty_range. destruct (prep_span a); [done|].
  by destruct (range_new_ordered 0 0) as (r & -> & _).
Qed.

(** Materialization, once the preflight has been consulted. *)
Lemma materialize_all_ok l classes m (pairs : list (PreparedAssociation (R:=R) * option ModelErrorKind)) :
  extends l classes (mat_classes m) → NoDup (concat (end_keys <$> passed pairs)) →
  Forall (free (mat_classes m)) (concat (end_keys <$> passed pairs)) →
  ∃ m', materialize_all (Path:=Path) (IoError:=IoError) m pairs = Some (Ok m') ∧
    extends (l ++ concat (ends <$> passed pairs)) classes (mat_classes m') ∧
    mat_associations m' = mat_associations m ++ (materialized <$> passed pairs) ∧
    mat_gap m' = mat_gap m || existsb (λ x : PreparedAssociation (R:=R) * option ModelErrorKind, bool_decide (is_Some x.2)) pairs ∧
    length (mat_diagnostics m') + length (passed pairs) = length (mat_diagnostics m) + length pairs.
Proof.
  revert l m. induction pairs as [|[a [f|]] pairs IH]; intros l m He Hn Hf.
  - exists m. unfold passed. simpl. by rewrite !app_nil_r, orb_false_r, Nat.add_0_r.
  - cbn [materialize_all]. destruct (association_diagnostic_total a f) as [d ->]. cbn [mbind option_bind].
    destruct (IH l (m <| mat_gap := true |> <| mat_diagnostics := mat_diagnostics m ++ [d] |>)) as (m' & E & H1' & H2' & H3' & H4');
      [done..|]. exists m'. split_and!; try done.
    + rewrite H3'. simpl. by rewrite orb_true_r.
    + simpl in *. rewrite length_app in H4'. simpl in H4'. unfold passed in *. csimpl. lia.
  - change (NoDup (end_keys a ++ concat (end_keys <$> passed pairs))) in Hn.
    change (Forall (free (mat_classes m)) (end_keys a ++ concat (end_keys <$> passed pairs))) in Hf.
    apply NoDup_app in Hn as (Hna & Hdis & Hn). apply Forall_app in Hf as [Hfa Hf].
    cbn [materialize_all]. destruct (materialize_prepared_ok l classes (mat_classes m) a He Hna Hfa) as (next & -> & He' & Hfree).
    destruct (IH (l ++ ends a) (m <| mat_classes := next |> <| mat_associations := mat_associations m ++ [materialized a] |>))
      as (m' & E & H1' & H2' & H3' & H4'); [done|done| |].
    + apply Forall_forall. intros k Hk. rewrite Forall_forall in Hf. apply Hfree; [|by apply Hf].
      intros Hka. by apply (Hdis k).
    + exists m'. split_and!; try done.
      * by rewrite <-(assoc_L (++)) in H1'.
      * rewrite H2'. simpl. by rewrite <-(assoc_L (++)).
      * simpl in *. unfold passed in *. csimpl. lia.
Qed.

(** What is left out is reported. *)
Lemma materialize_all_reports m m' (pairs : list (PreparedAssociation (R:=R) * option ModelErrorKind)) :
  materialize_all (Path:=Path) (IoError:=IoError) m pairs = Some (Ok m') →
  (∀ d, d ∈ mat_diagnostics m → d ∈ mat_diagnostics m') ∧
  ∀ a f, (a, Some f) ∈ pairs → ∃ d, association_diagnostic a f = Some d ∧ d ∈ mat_diagnostics m'.
Proof.
  revert m. induction pairs as [|[a [f|]] pairs IH]; intros m; cbn [materialize_all].
  - intros [= <-]. split; [done|]. by intros a f ?%not_elem_of_nil.
  - destruct (association_diagnostic a f) as [d|] eqn:Ed; cbn [mbind option_bind]; [|done].
    intros [Hm Hp]%IH. split; [intros d' Hd; apply Hm, elem_of_app; by left|].
    intros b g [[= -> ->]|Hin]%elem_of_cons; [|by apply Hp]. exists d. split; [done|].
    apply Hm, elem_of_app. right. by apply list_elem_of_singleton.
  - destruct (materialize_prepared_association _ _) as [[cs info]|e]; [|done].
    intros [Hm Hp]%IH. split; [exact Hm|]. intros b g [[=]|Hin]%elem_of_cons. by apply Hp.
Qed.

Lemma pmcd_failure_None (pairs : list (PreparedAssociation (R:=R) * option ModelErrorKind)) :
  pmcd_failure (Path:=Path) (IoError:=IoError) pairs = None ↔
  Forall (λ x : PreparedAssociation (R:=R) * option ModelErrorKind, prep_provenance x.1 = Pmcd → x.2 = None) pairs.
Proof.
  induction pairs as [|[a f] pairs IH]; [by split; [constructor|]|]. rewrite Forall_cons, <-IH. simpl.
  destruct (prep_provenance a), f; naive_solver.
Qed.

Lemma pmcd_failure_Some (pairs : list (PreparedAssociation (R:=R) * option ModelErrorKind)) e :
  pmcd_failure (Path:=Path) (IoError:=IoError) pairs = Some e →
  ∃ a f, (a, Some f) ∈ pairs ∧ prep_provenance a = Pmcd ∧ e = InvalidMergedGraph (prep_source a) f.
Proof.
  induction pairs as [|[a f] pairs IH]; [done|]. simpl. intros E.
  assert (pmcd_failure (Path:=Path) (IoError:=IoError) pairs = Some e →
    ∃ a' f', (a', Some f') ∈ (a, f) :: pairs ∧ prep_provenance a' = Pmcd ∧ e = InvalidMergedGraph (prep_source a') f') as Hlater.
  { intros (a' & f' & ? & ? & ?)%IH. exists a', f'. split; [by right|done]. }
  destruct (prep_provenance a) eqn:Ep, f as [f|]; try by apply Hlater.
  injection E as <-. exists a, f. split; [by left|done].
Qed.

(** [materialize_associations], whole. *)
Lemma materialize_associations_spec classes drafts :
  bt_sorted classes → bt_Forall (λ _ c, bt_sorted (properties c)) classes →
  let prepared := from_draft <$> drafts in
  let pairs := zip prepared (preflight_association_failures classes prepared) in
  (∃ a f, (a, Some f) ∈ pairs ∧ prep_provenance a = Pmcd ∧
     materialize_associations (Path:=Path) (IoError:=IoError) classes drafts
     = Some (Err (InvalidMergedGraph (prep_source a) f))) ∨
  (∃ m, materialize_associations (Path:=Path) (IoError:=IoError) classes drafts = Some (Ok m) ∧
     Forall (λ x : PreparedAssociation (R:=R) * option ModelErrorKind, prep_provenance x.1 = Pmcd → x.2 = None) pairs ∧
     extends (concat (ends <$> passed pairs)) classes (mat_classes m) ∧
     mat_associations m = materialized <$> passed pairs ∧
     mat_gap m = existsb (λ x : PreparedAssociation (R:=R) * option ModelErrorKind, bool_decide (is_Some x.2)) pairs ∧
     length (mat_diagnostics m) + length (passed pairs) = length drafts).
Proof.
  intros Hs Hp prepared pairs. unfold materialize_associations. fold prepared pairs.
  destruct (pmcd_failure pairs) as [e|] eqn:Ef.
  - left. destruct (pmcd_failure_Some pairs e Ef) as (a & f & ? & ? & ->). by exists a, f.
  - right. apply pmcd_failure_None in Ef.
    destruct (materialize_all_ok [] classes
      {| mat_classes := classes; mat_associations := []; mat_diagnostics := []; mat_gap := false |} pairs)
      as (m & E & H1' & H2' & H3' & H4').
    + by apply extends_nil.
    + apply preflight_keys_nodup.
    + apply preflight_keys_free.
    + exists m. split_and!; try done. rewrite H4'. unfold pairs.
      rewrite length_zip, preflight_length. unfold prepared. rewrite length_fmap. simpl. lia.
Qed.
End materialize.

(** * The loaded graph

    The invariant of a [ModelGraph], and that loading establishes it: classes
    and associations in the order of their paths, an index that is their
    numbering, and association ends on both sides exactly where an association
    puts them. *)

(** ** Sequences *)

Lemma StronglySorted_sublist {A} (r : A → A → Prop) l l' : l `sublist_of` l' → StronglySorted r l' → StronglySorted r l.
Proof.
  induction 1 as [|x l l' Hsub IH|x l l' Hsub IH]; intros Hs; [done| |].
  - apply StronglySorted_inv in Hs as [Hs Hf]. constructor; [by apply IH|].
    apply Forall_forall. intros y Hy. rewrite Forall_forall in Hf. apply Hf. by eapply elem_of_submseteq, sublist_submseteq.
  - apply IH. by apply StronglySorted_inv in Hs as [].
Qed.

Lemma sublist_fmap {A B} (f : A → B) l l' : l `sublist_of` l' → f <$> l `sublist_of` f <$> l'.
Proof. induction 1; csimpl; by constructor. Qed.

Lemma passed_sublist {A E} (l : list A) (failures : list (option E)) : passed (zip l failures) `sublist_of` l.
Proof.
  revert failures. induction l as [|x l IH]; intros [|[f|] failures]; unfold passed in *; csimpl;
    try apply sublist_nil_l.
  - apply sublist_cons, IH.
  - apply sublist_skip, IH.
Qed.

(** ** The invariant *)

Section graph.
Context {R : Type}.

Definition assoc_ends (a : AssocInfo R) : list (AssociationEndInfo R) := [end_a a; end_b a].

Record graph_ok (g : ModelGraph R) : Prop := {
  graph_classes_sorted : bt_sorted (classes g);
  graph_classes_ok : bt_Forall class_ok (classes g);
  graph_paths : paths_by_id g = (classes g).*1;
  graph_ids p i : class_id g p = Some i ↔ paths_by_id g !! i = Some p;
  graph_associations_sorted : StronglySorted key_lt (assoc_path <$> associations g);
  graph_opposite a : a ∈ associations g →
    end_owner (end_a a) = raw_type (pi_target (end_property (end_b a))) ∧
    end_owner (end_b a) = raw_type (pi_target (end_property (end_a a)));
  graph_ends a e : a ∈ associations g → e ∈ assoc_ends a →
    pi_association (end_property e) = Some (assoc_path a) ∧
    ∃ c, class_at g (end_owner e) = Some c ∧
         bt_get (properties c) (pi_name (end_property e)) = Some (end_property e);
  graph_origin p c n v q : class_at g p = Some c → bt_get (properties c) n = Some v →
    pi_association v = Some q →
    ∃ a e, a ∈ associations g ∧ assoc_path a = q ∧ e ∈ assoc_ends a ∧ end_owner e = p ∧ end_property e = v;
}.
End graph.

(** ** Indexing *)

Section loading.
Context {R : Type} `{TextRangeNew R} `{PmcdJson} {Path IoError : Type}.
Abbreviation Error := (ModelError R Path IoError).

Lemma u32_try_from_Some n r : u32_try_from n = Some r → r = n.
Proof. unfold u32_try_from. destruct (_ <=? _)%N; [|done]. by intros [= <-]. Qed.

Lemma index_from_ok index by_path ids paths by_path' ids' :
  index_from (R:=R) (Path:=Path) (IoError:=IoError) index by_path ids paths = Ok (by_path', ids') →
  bt_sorted by_path → NoDup (ids ++ paths) → length ids = index →
  (∀ p i, bt_get by_path p = Some i ↔ ids !! i = Some p) →
  ids' = ids ++ paths ∧ ∀ p i, bt_get by_path' p = Some i ↔ ids' !! i = Some p.
Proof.
  revert index by_path ids. induction paths as [|path paths IH]; intros index by_path ids; simpl.
  - intros [= <- <-] _ _ _ Hi. by rewrite app_nil_r.
  - destruct (u32_try_from index) as [raw|] eqn:Eu; [|done]. apply u32_try_from_Some in Eu as ->.
    intros E Hs Hn Hl Hi. apply IH in E as [-> Hb].
    + split; [by rewrite <-(assoc_L (++))|exact Hb].
    + by apply bt_insert_sorted.
    + by rewrite <-(assoc_L (++)).
    + rewrite length_app. simpl. lia.
    + intros p i. rewrite bt_lookup_insert by done. destruct (decide (p = path)) as [->|Hne].
      * split; [intros [= <-]; by rewrite <-Hl, list_lookup_middle|].
        intros Hp. f_equal. apply lookup_snoc_Some in Hp as [[Hlt Hp]|[-> _]]; [|done].
        exfalso. apply NoDup_app in Hn as (_ & Hd & _). apply (Hd path); [|by left].
        by eapply list_elem_of_lookup_2.
      * rewrite Hi, lookup_snoc_Some. split; [intros Hp; left; split; [by eapply lookup_lt_Some|done]|].
        intros [[_ ?]|[_ ?]]; [done|congruence].
Qed.

Lemma index_from_err index by_path ids paths e :
  index_from (R:=R) (Path:=Path) (IoError:=IoError) index by_path ids paths = Err e → ∃ i, e = TooManyClasses i.
Proof.
  revert index by_path ids. induction paths as [|path paths IH]; intros index by_path ids; simpl; [done|].
  destruct (u32_try_from index); [apply IH|]. intros [= <-]. by exists index.
Qed.

Lemma index_classes_ok (cs : list (QName * ClassInfo R)) by_path ids :
  index_classes (Path:=Path) (IoError:=IoError) cs = Ok (by_path, ids) → bt_sorted cs →
  ids = cs.*1 ∧ ∀ p i, bt_get by_path p = Some i ↔ ids !! i = Some p.
Proof.
  intros E Hs. apply (index_from_ok _ _ _ _ _ _ E); [apply bt_nil_sorted|by apply bt_sorted_nodup|done|].
  intros p i. by rewrite lookup_nil.
Qed.

(** ** The elements taken apart *)

Lemma classes_of_spec (m : list (QName * FragmentElement R)) :
  bt_sorted m →
  bt_sorted (classes_of m) ∧
  ∀ p, bt_get (classes_of m) p = match bt_get m p with Some (ClassElement c) => Some c | _ => None end.
Proof.
  intros Hs. unfold classes_of.
  set (f := λ (cs : list (QName * ClassInfo R)) '(path, element), _).
  assert (∀ l acc, NoDup l.*1 → bt_sorted acc →
    bt_sorted (foldl f acc l) ∧ ∀ p,
      (∀ c, (p, ClassElement c) ∈ l → bt_get (foldl f acc l) p = Some c) ∧
      ((∀ c, (p, ClassElement c) ∉ l) → bt_get (foldl f acc l) p = bt_get acc p)) as Hall.
  { intros l. induction l as [|[k e] l IH]; intros acc Hn Ha; cbn [foldl].
    { split; [done|]. intros p. split; [by intros ? ?%not_elem_of_nil|done]. }
    rewrite fmap_cons in Hn. apply NoDup_cons in Hn as [Hk Hn]. simpl in Hk.
    assert (bt_sorted (f acc (k, e))) as Ha' by (destruct e; [by apply bt_insert_sorted|done]).
    destruct (IH _ Hn Ha') as [Hs' Hl]. split; [done|]. intros p. destruct (Hl p) as [Hin Hout]. split.
    - intros c. rewrite elem_of_cons. intros [[= <- <-]|?]; [|by apply Hin].
      rewrite Hout; [simpl; by apply bt_lookup_insert_eq|].
      intros c' Hc'. apply Hk. apply list_elem_of_fmap. by exists (p, ClassElement c').
    - intros Hno. rewrite Hout by (intros c Hc; apply (Hno c); by right).
      destruct e as [c|a]; [|done]. simpl. apply bt_lookup_insert_ne; [done|]. intros ->.
      apply (Hno c). by left. }
  destruct (Hall m [] (bt_sorted_nodup _ Hs) bt_nil_sorted) as [Hcs Hl]. split; [done|]. intros p.
  destruct (Hl p) as [Hin Hout]. destruct (bt_get m p) as [[c|a]|] eqn:E.
  - apply Hin. by apply bt_get_Some_in.
  - rewrite Hout; [done|]. intros c Hc%bt_get_elem; [congruence|done].
  - rewrite Hout; [done|]. intros c Hc%bt_get_elem; [congruence|done].
Qed.

Lemma associations_of_spec (m : list (QName * FragmentElement R)) :
  bt_sorted m → bt_Forall element_ok m →
  StronglySorted key_lt (draft_path <$> associations_of m) ∧
  ∀ a, a ∈ associations_of m ↔ bt_get m (draft_path a) = Some (AssociationElement a).
Proof.
  intros Hs Hm.
  assert (∀ k e, (k, e) ∈ m → element_ok k e) as Hok by (intros k e; by apply bt_Forall_elem). split.
  - unfold bt_sorted in Hs. unfold associations_of. clear Hm. induction m as [|[k e] m IH]; csimpl; [constructor|].
    apply StronglySorted_inv in Hs as [Hs Hf]. assert (∀ k e, (k, e) ∈ m → element_ok k e) as Hok' by (intros; apply Hok; by right).
    destruct e as [c|a]; csimpl; [by apply IH|]. constructor; [by apply IH|].
    destruct (Hok k (AssociationElement a)) as [-> _ _ _]; [by left|].
    apply Forall_forall. intros q Hq. rewrite Forall_forall in Hf. apply Hf.
    apply list_elem_of_fmap in Hq as (b & -> & Hb). apply list_elem_of_omap in Hb as ([k' [c|b']] & Hin & [= ->]).
    destruct (Hok' k' (AssociationElement b) Hin) as [-> _ _ _]. apply list_elem_of_fmap. by exists (k', AssociationElement b).
  - intros a. unfold associations_of. rewrite list_elem_of_omap. split.
    + intros ([k [c|b]] & Hin & [= ->]). destruct (Hok k (AssociationElement a) Hin) as [-> _ _ _]. by apply bt_get_elem.
    + intros E%bt_get_Some_in. by exists (draft_path a, AssociationElement a).
Qed.

(** ** Merging *)

Definition replaced (m : list (QName * FragmentElement R)) (elements : list (QName * FragmentElement R)) : nat :=
  length (List.filter (λ x, bool_decide (is_Some (bt_get m x.1))) elements).

Lemma merge_diagnostic_total self path previous replacement label :
  ∃ d, merge_diagnostic (R:=R) self path previous replacement label = Some d ∧ diag_code d = ModelMergeConflict.
Proof.
  unfold merge_diagnostic, empty_range. destruct (range_new_ordered 0 0) as (r & -> & _); [done|]. by eexists.
Qed.

Lemma ingest_elements_ok self source label elements :
  bt_sorted (merged_elements self) → NoDup elements.*1 →
  ∃ self' ds, ingest_elements self source label elements = Some self' ∧
    bt_sorted (merged_elements self') ∧ merged_sources self' = merged_sources self ∧
    merged_diagnostics self' = merged_diagnostics self ++ ds ∧
    Forall (λ d, diag_code d = ModelMergeConflict) ds ∧
    length ds = replaced (merged_elements self) elements ∧
    ∀ p, (∀ e, (p, e) ∈ elements → bt_get (merged_elements self') p = Some e) ∧
         (p ∉ elements.*1 → bt_get (merged_elements self') p = bt_get (merged_elements self) p).
Proof.
  revert self. induction elements as [|[k e] elements IH]; intros self Hs Hn; cbn [ingest_elements].
  { exists self, []. split_and!; try done; [by rewrite app_nil_r|].
    intros p. split; [by intros ? ?%not_elem_of_nil|done]. }
  rewrite fmap_cons in Hn. apply NoDup_cons in Hn as [Hk Hn]. simpl in Hk.
  set (m := merged_elements self) in *.
  assert (∀ self1 ds1, merged_elements self1 = bt_insert m k e → merged_sources self1 = merged_sources self →
    merged_diagnostics self1 = merged_diagnostics self ++ ds1 → Forall (λ d, diag_code d = ModelMergeConflict) ds1 →
    length ds1 = replaced m [(k, e)] →
    ∃ self' ds, ingest_elements self1 source label elements = Some self' ∧
      bt_sorted (merged_elements self') ∧ merged_sources self' = merged_sources self ∧
      merged_diagnostics self' = merged_diagnostics self ++ ds ∧
      Forall (λ d, diag_code d = ModelMergeConflict) ds ∧
      length ds = replaced m ((k, e) :: elements) ∧
      ∀ p, (∀ e', (p, e') ∈ (k, e) :: elements → bt_get (merged_elements self') p = Some e') ∧
           (p ∉ ((k, e) :: elements).*1 → bt_get (merged_elements self') p = bt_get m p)) as Hstep.
  { intros self1 ds1 Em Esrc Eds Hds1 Hlen.
    destruct (IH self1) as (self' & ds & E & Hs' & Hsrc & Hd & Hds & Hl & Hget);
      [rewrite Em; by apply bt_insert_sorted|done|].
    exists self', (ds1 ++ ds). split_and!; try done.
    - by rewrite Hsrc.
    - by rewrite Hd, Eds, (assoc_L (++)).
    - by apply Forall_app.
    - rewrite length_app, Hl, Hlen, Em. unfold replaced. cbn [List.filter]. 
      assert (List.filter (λ x : QName * FragmentElement R, bool_decide (is_Some (bt_get (bt_insert m k e) x.1))) elements
        = List.filter (λ x : QName * FragmentElement R, bool_decide (is_Some (bt_get m x.1))) elements) as ->.
      { apply filter_ext_in. intros [k' e'] Hin%list_elem_of_In. simpl. rewrite bt_lookup_insert_ne; [done..|].
        intros ->. apply Hk. apply list_elem_of_fmap. by exists (k, e'). }
      simpl. by case_bool_decide.
    - intros p. destruct (Hget p) as [Hin Hout]. rewrite Em in Hout. split.
      + intros e'. rewrite elem_of_cons. intros [[= -> ->]|?]; [|by apply Hin].
        rewrite Hout by done. by apply bt_lookup_insert_eq.
      + rewrite fmap_cons, not_elem_of_cons. simpl. intros [Hne Hp]. rewrite Hout by done.
        by apply bt_lookup_insert_ne. }
  destruct (bt_get m k) as [previous|] eqn:Ep.
  - match goal with |- context [merge_diagnostic ?s _ _ _ _] =>
      destruct (merge_diagnostic_total s k (element_source previous) source label) as (d & -> & Hd) end.
    cbn [mbind option_bind]. apply (Hstep _ [d]); try done; [by constructor|].
    unfold replaced. simpl. by rewrite Ep.
  - apply (Hstep _ []); try done; [by rewrite app_nil_r|]. unfold replaced. simpl. by rewrite Ep.
Qed.

Context `{Logos}.

(** What one document contributes, in its place among the sources. *)
Definition fragment_of (source : SourceId) (document : ModelDocument) : option (Result (ModelFragment R) Error) :=
  match document with
  | PmcdDocument label json => Some (
      let? elements := parse_document label json source in
      Ok {| fragment_elements := elements; fragment_diagnostics := [] |})
  | PureDocument label text => parse_pure_document label text source
  end.

Definition fragment_ok (source : SourceId) (document : ModelDocument) (f : ModelFragment R) : Prop :=
  bt_sorted (fragment_elements f) ∧
  bt_Forall (match document with PmcdDocument _ _ => pmcd_element source | PureDocument _ _ => pure_element source end)
    (fragment_elements f).

Lemma fragment_of_ok source document f : fragment_of source document = Some (Ok f) → fragment_ok source document f.
Proof.
  destruct document as [label json|label text]; simpl.
  - intros [= (m & Hm & [= <-])%res_bind_ok]. by apply parse_document_ok in Hm.
  - unfold parse_pure_document. intros (parsed & Ep & E)%bind_Some. destruct parsed as [parsed|]; [|done].
    match type of E with context [lower_domain ?g ?c] => pose proof (lower_domain_ok g c) as Hok;
      destruct (lower_domain g c) as [elements ds] end.
    by injection E as <-.
Qed.

Lemma pmcd_element_ok source p e : pmcd_element (R:=R) source p e → element_ok p e.
Proof. by intros []. Qed.

Lemma fragment_element_ok source document f : fragment_ok source document f → bt_Forall element_ok (fragment_elements f).
Proof. intros [_ Hf] p e E. apply Hf in E. destruct document; [by eapply pmcd_element_ok|apply E]. Qed.

(** Ingesting a document is ingesting its fragment. *)
Lemma ingest_document_fragment merger source document :
  ingest_document merger source document =
  f ← fragment_of source document;
  match f with
  | Err e => Some (Err e)
  | Ok f => Ok <$> ingest_fragment merger source
      (match document with PmcdDocument label _ | PureDocument label _ => label end)
      (match document with PmcdDocument _ _ => Pmcd | PureDocument _ _ => PureFile end) f
  end.
Proof.
  destruct document as [label json|label text]; simpl.
  - unfold ingest_pmcd. by destruct (parse_document label json source).
  - done.
Qed.

(** The last of the fragments that have an element at a path. *)
Definition winner (fragments : list (ModelFragment R)) (p : QName) : option (FragmentElement R) :=
  foldl (λ found f, match bt_get (fragment_elements f) p with Some e => Some e | None => found end) None fragments.

Record merger_ok (fragments : list (ModelFragment R)) (m : ModelMerger (R:=R)) : Prop := {
  merger_sorted : bt_sorted (merged_elements m);
  merger_elements : bt_Forall element_ok (merged_elements m);
  merger_winner p : bt_get (merged_elements m) p = winner fragments p;
  merger_sources : length (merged_sources m) = length fragments;
}.

Lemma no_elements_ok : merger_ok [] no_elements.
Proof. split; [apply bt_nil_sorted|apply bt_Forall_nil|done..]. Qed.

Lemma ingest_fragment_ok fragments m source label provenance document f :
  merger_ok fragments m → fragment_ok source document f →
  ∃ m', ingest_fragment m source label provenance f = Some m' ∧ merger_ok (fragments ++ [f]) m'.
Proof.
  intros [Hs Hm Hw Hl] Hf. pose proof (fragment_element_ok _ _ _ Hf) as Hfe. destruct Hf as [Hfs _].
  unfold ingest_fragment. set (m0 := m <| merged_sources := _ |> <| merged_diagnostics := _ |>).
  destruct (ingest_elements_ok m0 source label (fragment_elements f) Hs) as (m' & ds & E & Hs' & Hsrc & _ & _ & _ & Hget);
    [by apply bt_sorted_nodup|].
  assert (∀ p, bt_get (merged_elements m') p =
    match bt_get (fragment_elements f) p with Some e => Some e | None => bt_get (merged_elements m) p end) as Hp.
  { intros p. destruct (Hget p) as [Hin Hout]. destruct (bt_get (fragment_elements f) p) as [e|] eqn:Ep.
    - apply Hin. by apply bt_get_Some_in.
    - apply Hout. intros Hk%bt_get_is_Some; [|done]. rewrite Ep in Hk. by destruct Hk. }
  exists m'. split; [done|]. split; [done| | |].
  - intros p e. rewrite Hp. destruct (bt_get (fragment_elements f) p) eqn:Ep; [intros [= <-]; by apply Hfe|apply Hm].
  - intros p. unfold winner. rewrite foldl_app. simpl. by rewrite Hp, Hw.
  - rewrite Hsrc. simpl. by rewrite !length_app, Hl.
Qed.

(** The documents, each lowered in its place; the first that is refused ends the
    loading. *)
Fixpoint fragments_from (index : nat) (documents : list ModelDocument)
  : option (Result (list (ModelFragment R)) Error) :=
  match documents with
  | [] => Some (Ok [])
  | document :: documents =>
      match source_id index with
      | Err e => Some (Err e)
      | Ok source =>
          f ← fragment_of source document;
          match f with
          | Err e => Some (Err e)
          | Ok f =>
              fs ← fragments_from (S index) documents;
              Some (let? fs := fs in Ok (f :: fs))
          end
      end
  end.

Lemma ingest_all_fragments fragments m index documents :
  merger_ok fragments m →
  match fragments_from index documents with
  | None => ingest_all (Path:=Path) (IoError:=IoError) Ok m index documents = None
  | Some (Err e) => ingest_all Ok m index documents = Some (Err e)
  | Some (Ok fs) => ∃ m', ingest_all (Path:=Path) (IoError:=IoError) Ok m index documents = Some (Ok m') ∧ merger_ok (fragments ++ fs) m'
  end.
Proof.
  revert fragments m index. induction documents as [|d documents IH]; intros fragments m index Hm; cbn [fragments_from ingest_all].
  { exists m. by rewrite app_nil_r. }
  destruct (source_id index) as [source|e]; cbn [res_bind]; [|done]. rewrite ingest_document_fragment.
  destruct (fragment_of source d) as [[f|e]|] eqn:Ef; cbn [mbind option_bind]; [|done..].
  apply fragment_of_ok in Ef.
  edestruct ingest_fragment_ok as (m1 & -> & Hm1); [exact Hm|exact Ef|]. simpl.
  specialize (IH _ _ (S index) Hm1). destruct (fragments_from (S index) documents) as [[fs|e]|]; simpl; [|done..].
  destruct IH as (m' & E & Hm'). exists m'. split; [done|]. by rewrite <-(assoc_L (++)) in Hm'.
Qed.

(** ** Finishing *)

(** What finishing makes of a class: the members that associations contribute
    are added, and the class is open if its source said so or an association was
    left out. *)
Record finished (unresolved : bool) (c c' : ClassInfo R) : Prop := {
  finished_only : c' = c <| properties := properties c' |> <| coverage_gap := coverage_gap c || unresolved |>;
  finished_declared n v : pi_association v = None →
    bt_get (properties c') n = Some v ↔ bt_get (properties c) n = Some v;
  finished_kept n v : bt_get (properties c) n = Some v → bt_get (properties c') n = Some v;
}.

Definition winning_class (fragments : list (ModelFragment R)) (p : QName) : option (ClassInfo R) :=
  match winner fragments p with Some (ClassElement c) => Some c | _ => None end.

Lemma passed_ends drafts (failures : list (option ModelErrorKind)) e :
  e ∈ concat (ends <$> passed (zip (from_draft <$> drafts) failures)) →
  ∃ d : AssocDraft R, d ∈ drafts ∧ from_draft d ∈ passed (zip (from_draft <$> drafts) failures) ∧ e ∈ ends (from_draft d).
Proof.
  intros (l & Hin & Hl)%list_elem_of_concat. apply list_elem_of_fmap in Hl as (a & -> & Ha).
  assert (a ∈ from_draft <$> drafts) as Hd by (eapply elem_of_submseteq; [exact Ha|apply sublist_submseteq, passed_sublist]).
  apply list_elem_of_fmap in Hd as (d & -> & Hd). by exists d.
Qed.

Lemma end_association (d : AssocDraft R) e : e ∈ ends (from_draft d) → pi_association e.2 = Some (draft_path d).
Proof. unfold ends. rewrite !elem_of_cons, elem_of_nil. by intros [->|[->|[]]]. Qed.

Lemma end_prop_ok (d : AssocDraft R) e p : draft_ok p d → e ∈ ends (from_draft d) → prop_ok (pi_name e.2) e.2.
Proof.
  intros [_ _ [] []]. unfold ends. rewrite !elem_of_cons, elem_of_nil. by intros [->|[->|[]]].
Qed.

Lemma assoc_path_materialized (a : PreparedAssociation (R:=R)) : assoc_path (materialized a) = prep_path a.
Proof. unfold materialized. by destruct (prep_span a). Qed.

Lemma assoc_ends_materialized (a : PreparedAssociation (R:=R)) :
  assoc_ends (materialized a) = (λ e, AssociationEndInfo_new e.1 e.2) <$> ends a.
Proof. unfold assoc_ends, materialized. by destruct (prep_span a). Qed.

Lemma mark_gap_map (b : bool) (cs : list (QName * ClassInfo R)) p :
  bt_get (if b then prod_map id mark_coverage_gap <$> cs else cs) p
  = (λ c, c <| coverage_gap := coverage_gap c || b |>) <$> bt_get cs p.
Proof.
  destruct b; [rewrite bt_get_map|]; destruct (bt_get cs p) as [c|]; simpl; try done; f_equal.
  - by rewrite orb_true_r.
  - rewrite orb_false_r. by destruct c.
Qed.

(** An association that a source declares last at its path, and that the graph
    does not have. *)
Definition unplaced (fragments : list (ModelFragment R)) (g : ModelGraph R) (d : AssocDraft R) : Prop :=
  winner fragments (draft_path d) = Some (AssociationElement d) ∧
  draft_path d ∉ assoc_path <$> associations g.

(** Why it cannot be placed: an end's class is not there, declares the member
    itself, or would get it twice, from the other end or from the end of another
    association. *)
Definition obstructed (fragments : list (ModelFragment R)) (d : AssocDraft R) : Prop :=
  ∃ owner name, (owner, name) ∈ end_key <$> ends (from_draft d) ∧
    (winning_class fragments owner = None ∨
     (∃ c, winning_class fragments owner = Some c ∧ is_Some (bt_get (properties c) name)) ∨
     end_key <$> ends (from_draft d) = [(owner, name); (owner, name)] ∨
     ∃ d', draft_path d' ≠ draft_path d ∧ winner fragments (draft_path d') = Some (AssociationElement d') ∧
       (owner, name) ∈ end_key <$> ends (from_draft d')).

(** The graph reports it. *)
Definition reported (g : ModelGraph R) (d : AssocDraft R) : Prop :=
  ∃ failure diagnostic, association_diagnostic (from_draft d) failure = Some diagnostic ∧
    diagnostic ∈ graph_diagnostics g.

Lemma draft_index (drafts : list (AssocDraft R)) i j d d' :
  StronglySorted key_lt (draft_path <$> drafts) →
  drafts !! i = Some d → drafts !! j = Some d' → draft_path d = draft_path d' → i = j.
Proof.
  intros Hs Hi Hj E. apply key_lt_nodup in Hs.
  apply (NoDup_lookup _ i j (draft_path d) Hs); rewrite list_lookup_fmap; [by rewrite Hi|by rewrite Hj, E].
Qed.

Lemma draft_placed (drafts : list (AssocDraft R)) (failures : list (option ModelErrorKind)) d :
  StronglySorted key_lt (draft_path <$> drafts) → length failures = length drafts → d ∈ drafts →
  ∃ i failure, drafts !! i = Some d ∧ failures !! i = Some failure ∧
    (failure = None ↔ draft_path d ∈ assoc_path <$> (materialized <$> passed (zip (from_draft <$> drafts) failures))).
Proof.
  intros Hnd Hlen (i & Hi)%list_elem_of_lookup. destruct (lookup_lt_is_Some_2 failures i) as [failure Hf].
  { rewrite Hlen. by eapply lookup_lt_Some. }
  assert (∀ (j : nat) d' f, drafts !! j = Some d' → failures !! j = Some f →
    (from_draft d', f) ∈ zip (from_draft <$> drafts) failures) as Hzip.
  { intros j d' f Hd' Hf'. apply (list_elem_of_lookup_2 _ j), lookup_zip_with_Some. exists (from_draft d'), f.
    by rewrite list_lookup_fmap, Hd'. }
  exists i, failure. split_and!; [done..|]. rewrite <-list_fmap_compose. split.
  - intros ->. apply list_elem_of_fmap. exists (from_draft d). simpl. rewrite assoc_path_materialized. split; [done|].
    apply list_elem_of_omap. by exists (from_draft d, None); split; [eapply Hzip|].
  - intros (a & Ha & Hin)%list_elem_of_fmap. simpl in Ha. rewrite assoc_path_materialized in Ha.
    apply list_elem_of_omap in Hin as ([b f] & Hin & Hb). simpl in Hb. destruct f; [done|]. injection Hb as ->.
    apply list_elem_of_lookup in Hin as (j & Hj). apply lookup_zip_with_Some in Hj as (b & f & [= <- <-] & Hj & Hfj).
    rewrite list_lookup_fmap in Hj. apply fmap_Some in Hj as (d' & Hd' & ->). simpl in Ha.
    assert (i = j) as -> by by eapply draft_index. congruence.
Qed.

Section finish.
Context (elements : list (QName * FragmentElement R)).
Hypothesis sorted : bt_sorted elements.
Hypothesis elements_ok : bt_Forall element_ok elements.

Let declared_classes := classes_of elements.
Let prepared := from_draft <$> associations_of elements.
Let pairs := zip prepared (preflight_association_failures declared_classes prepared).

Lemma classes_of_sorted : bt_sorted declared_classes.
Proof. by apply classes_of_spec. Qed.

Lemma classes_of_declared p c : bt_get declared_classes p = Some c → declared p c.
Proof.
  unfold declared_classes. rewrite (proj2 (classes_of_spec elements sorted)).
  destruct (bt_get elements p) as [[c'|]|] eqn:E; [|done..]. intros [= <-]. by apply elements_ok in E.
Qed.

Lemma classes_of_props_sorted : bt_Forall (λ _ c, bt_sorted (properties c)) declared_classes.
Proof. by intros p c [[] _]%classes_of_declared. Qed.

Lemma draft_of_ok d : d ∈ associations_of elements → draft_ok (draft_path d) d.
Proof. intros Hd. apply associations_of_spec in Hd; [|done..]. by apply elements_ok in Hd. Qed.

Context (cs : list (QName * ClassInfo R)) (gap : bool).
Hypothesis extended : extends (concat (ends <$> passed pairs)) declared_classes cs.
Let final := if gap then prod_map id mark_coverage_gap <$> cs else cs.

Lemma final_lookup p c' :
  bt_get final p = Some c' ↔
  ∃ c c1, bt_get declared_classes p = Some c ∧ with_ends (concat (ends <$> passed pairs)) p c c1 ∧
          c' = c1 <| coverage_gap := coverage_gap c || gap |>.
Proof.
  unfold final. rewrite mark_gap_map, fmap_Some. pose proof (extends_class _ _ _ extended p) as He. split.
  - intros (c1 & E & ->). rewrite E in He. destruct (bt_get declared_classes p) as [c|]; [|done].
    exists c, c1. split_and!; [done..|]. by rewrite (ends_only _ _ _ _ He).
  - intros (c & c1 & E & Hw & ->). rewrite E in He. destruct (bt_get cs p) as [c2|]; [|done]. simpl in He.
    rewrite (with_ends_unique _ _ _ _ _ Hw He). exists c2. split; [done|].
    by rewrite (ends_only _ _ _ _ He).
Qed.

Lemma final_sorted : bt_sorted final.
Proof. unfold final. destruct gap; [apply bt_sorted_map|]; apply extended. Qed.

Lemma final_class_ok p c' : bt_get final p = Some c' → class_ok p c'.
Proof.
  intros (c & c1 & [Hd _]%classes_of_declared & Hw & ->)%final_lookup. destruct Hd as [? ? ? ? Hprops ? ?], Hw as [Ho Hs Hl].
  rewrite Ho. split; simpl; try done. intros n v [Hv|[(d & Hd & _ & He)%passed_ends <-]]%Hl; [by apply Hprops|].
  apply (end_prop_ok d (p, v) (draft_path d)); [by apply draft_of_ok|done].
Qed.

Lemma final_finished p c c' : bt_get declared_classes p = Some c → bt_get final p = Some c' → finished gap c c'.
Proof.
  intros Ec (c0 & c1 & E & [Ho Hs Hl] & ->)%final_lookup. rewrite Ec in E. injection E as <-. split.
  - rewrite Ho. simpl. done.
  - intros n v Hv. simpl. rewrite Hl. split; [|by left]. intros [?|[(d & _ & _ & He)%passed_ends _]]; [done|].
    apply end_association in He. simpl in He. congruence.
  - intros n v Hv. simpl. apply Hl. by left.
Qed.

Lemma final_graph_ok by_path ids sources diagnostics :
  index_classes (Path:=Path) (IoError:=IoError) final = Ok (by_path, ids) →
  graph_ok {| classes := final; Model.by_path := by_path; paths_by_id := ids;
              associations := materialized <$> passed pairs; sources := sources;
              graph_diagnostics := diagnostics |}.
Proof.
  intros [-> Hids]%index_classes_ok; [|apply final_sorted].
  assert (∀ a, a ∈ passed pairs → ∃ d, a = from_draft d ∧ d ∈ associations_of elements) as Hfrom.
  { intros a Ha. assert (a ∈ prepared) as Hd by (eapply elem_of_submseteq; [exact Ha|apply sublist_submseteq, passed_sublist]).
    by apply list_elem_of_fmap in Hd. }
  split; simpl.
  - apply final_sorted.
  - intros p c. apply final_class_ok.
  - done.
  - exact Hids.
  - rewrite <-list_fmap_compose. rewrite (list_fmap_ext _ prep_path) by (intros; apply assoc_path_materialized).
    apply (StronglySorted_sublist _ _ (prep_path <$> prepared)); [apply sublist_fmap, passed_sublist|].
    unfold prepared. rewrite <-list_fmap_compose. by apply (associations_of_spec elements).
  - intros a Ha. apply list_elem_of_fmap in Ha as (b & -> & Hb). apply Hfrom in Hb as (d & -> & _).
    unfold materialized. by destruct (prep_span _).
  - intros a e Ha He. apply list_elem_of_fmap in Ha as (b & -> & Hb). rewrite assoc_ends_materialized in He.
    apply list_elem_of_fmap in He as ([owner v] & -> & He). rewrite assoc_path_materialized. simpl.
    assert ((owner, v) ∈ concat (ends <$> passed pairs)) as Hin.
    { apply list_elem_of_concat. exists (ends b). split; [done|]. apply list_elem_of_fmap. by exists b. }
    destruct (Hfrom b Hb) as (d & -> & Hd). split; [by apply (end_association d (owner, v))|].
    assert (free declared_classes (owner, pi_name v)) as (c & Ec & _).
    { pose proof (preflight_keys_free declared_classes prepared) as Hf. rewrite Forall_forall in Hf. apply Hf.
      apply list_elem_of_concat. exists (end_keys (from_draft d)). split; [|apply list_elem_of_fmap; by exists (from_draft d)].
      apply list_elem_of_fmap. by exists (owner, v). }
    simpl in Ec. pose proof (extends_class _ _ _ extended owner) as He'. rewrite Ec in He'.
    destruct (bt_get cs owner) as [c1|] eqn:E1; [|done]. simpl in He'.
    exists (c1 <| coverage_gap := coverage_gap c || gap |>). split.
    + apply final_lookup. by exists c, c1.
    + simpl. apply (ends_lookup _ _ _ _ He'). by right.
  - intros p c' n v q (c & c1 & [_ Hdecl]%classes_of_declared & Hw & ->)%final_lookup Hv Hq. simpl in Hv.
    apply (ends_lookup _ _ _ _ Hw) in Hv as [Hv|[Hin <-]]; [apply Hdecl in Hv; congruence|].
    destruct (passed_ends _ _ _ Hin) as (d & Hd & Hp & He). exists (materialized (from_draft d)), (AssociationEndInfo_new p v).
    split; [apply list_elem_of_fmap; by exists (from_draft d)|]. rewrite assoc_path_materialized, assoc_ends_materialized.
    split; [apply end_association in He; simpl in *; congruence|]. split; [|done].
    apply list_elem_of_fmap. by exists (p, v).
Qed.
End finish.

(** What stands in the way of the associations left out. *)
Lemma refused_obstructed fragments m d (failure : ModelErrorKind) i :
  merger_ok fragments m →
  let prepared := from_draft <$> associations_of (merged_elements m) in
  associations_of (merged_elements m) !! i = Some d →
  preflight_association_failures (classes_of (merged_elements m)) prepared !! i = Some (Some failure) →
  obstructed fragments d.
Proof.
  intros [Hs Hm Hw _] prepared Hd Hf.
  assert (prepared !! i = Some (from_draft d)) as Ha by (unfold prepared; by rewrite list_lookup_fmap, Hd).
  destruct (preflight_refused _ _ _ _ _ Ha Hf) as ([owner name] & Hk & Hwhy). exists owner, name. split; [exact Hk|].
  destruct Hwhy as [Hfree|[Htwice|(j & b & Hne & Hb & Hkb)]]; [|by auto|].
  - unfold free in Hfree. simpl in Hfree. rewrite (proj2 (classes_of_spec _ Hs)), Hw in Hfree.
    fold (winning_class fragments owner) in Hfree. destruct (winning_class fragments owner) as [c|]; [|by left].
    right. left. exists c. split; [done|]. apply not_eq_None_Some. intros E. apply Hfree. by exists c.
  - right. right. right. unfold prepared in Hb. rewrite list_lookup_fmap in Hb. apply fmap_Some in Hb as (d' & Hd' & ->).
    exists d'. split_and!; [| |exact Hkb].
    + intros E. apply Hne. destruct (associations_of_spec _ Hs Hm) as [Hsorted _]. by eapply draft_index.
    + rewrite <-Hw. apply (associations_of_spec _ Hs Hm). by eapply list_elem_of_lookup_2.
Qed.

(** Whether an association was left out, and what the graph says of it. *)
Lemma finish_unplaced fragments m mat g :
  merger_ok fragments m →
  materialize_associations (Path:=Path) (IoError:=IoError) (classes_of (merged_elements m))
    (associations_of (merged_elements m)) = Some (Ok mat) →
  associations g = mat_associations mat → (∀ x, x ∈ mat_diagnostics mat → x ∈ graph_diagnostics g) →
  (mat_gap mat = true ↔ ∃ d, unplaced fragments g d) ∧
  ∀ d, unplaced fragments g d → draft_provenance d = PureFile ∧ obstructed fragments d ∧ reported g d.
Proof.
  intros Hok E Hassoc Hdiag. pose proof Hok as [Hs Hm Hw _].
  destruct (materialize_associations_spec (Path:=Path) (IoError:=IoError) (classes_of (merged_elements m))
    (associations_of (merged_elements m))) as [(a & f & _ & _ & E')|(mat' & E' & Hpm & _ & Ha & Hg & _)];
    [by apply classes_of_spec|by apply classes_of_props_sorted|congruence|].
  rewrite E' in E. injection E as ->.
  destruct (associations_of_spec _ Hs Hm) as [Hsorted Hin].
  set (drafts := associations_of (merged_elements m)) in *.
  set (failures := preflight_association_failures (classes_of (merged_elements m)) (from_draft <$> drafts)) in *.
  assert (length failures = length drafts) as Hlen by (unfold failures; by rewrite preflight_length, length_fmap).
  assert (∀ d, unplaced fragments g d ↔ ∃ i f, drafts !! i = Some d ∧ failures !! i = Some (Some f)) as Hun.
  { intros d. unfold unplaced. rewrite Hassoc, Ha, <-Hw, <-Hin. split.
    - intros [Hd Hnot]. destruct (draft_placed _ _ _ Hsorted Hlen Hd) as (i & [f|] & Hi & Hf & Hiff); [by exists i, f|].
      by destruct Hnot; apply Hiff.
    - intros (i & f & Hi & Hf). pose proof (list_elem_of_lookup_2 _ _ _ Hi) as Hd. split; [done|]. intros Hp.
      destruct (draft_placed _ _ _ Hsorted Hlen Hd) as (j & f' & Hj & Hf' & Hiff). apply Hiff in Hp as ->.
      assert (i = j) as -> by by eapply draft_index. congruence. }
  assert (∀ i d f, drafts !! i = Some d → failures !! i = Some f → (from_draft d, f) ∈ zip (from_draft <$> drafts) failures) as Hzip.
  { intros i d f Hi Hf. apply (list_elem_of_lookup_2 _ i), lookup_zip_with_Some. exists (from_draft d), f.
    by rewrite list_lookup_fmap, Hi. }
  split.
  - rewrite Hg, existsb_exists. setoid_rewrite Hun. split.
    + intros ([a f] & Hx%list_elem_of_In & Hf%bool_decide_eq_true). simpl in Hf. destruct f as [f|]; [|by destruct Hf].
      apply list_elem_of_lookup in Hx as (i & Hi). apply lookup_zip_with_Some in Hi as (b & f' & [= <- <-] & Hb & Hf').
      rewrite list_lookup_fmap in Hb. apply fmap_Some in Hb as (d & Hd & ->). by exists d, i, f.
    + intros (d & i & f & Hi & Hf). exists (from_draft d, Some f). split; [by eapply list_elem_of_In, Hzip|done].
  - intros d (i & f & Hi & Hf)%Hun. split_and!.
    + rewrite Forall_forall in Hpm. specialize (Hpm _ (Hzip i d (Some f) Hi Hf)). simpl in Hpm.
      destruct (draft_provenance d); [|done]. by specialize (Hpm eq_refl).
    + by eapply refused_obstructed.
    + unfold materialize_associations in E'. destruct (pmcd_failure _); [done|].
      apply materialize_all_reports in E' as [_ Hrep]. destruct (Hrep _ _ (Hzip i d (Some f) Hi Hf)) as (x & Hx & Hxin).
      exists f, x. split; [done|by apply Hdiag].
Qed.

(** [finish], whole. *)
Lemma finish_spec fragments m :
  merger_ok fragments m →
  match finish (Path:=Path) (IoError:=IoError) m with
  | None => False
  | Some (Err e) => (∃ source kind, e = InvalidMergedGraph source kind) ∨ (∃ index, e = TooManyClasses index)
  | Some (Ok g) => graph_ok g ∧ length (sources g) = length fragments ∧
      ∃ unresolved,
        (unresolved = true ↔ ∃ d, unplaced fragments g d) ∧
        (∀ d, unplaced fragments g d → draft_provenance d = PureFile ∧ obstructed fragments d ∧ reported g d) ∧
        ∀ p, option_rel (finished unresolved) (winning_class fragments p) (class_at g p)
  end.
Proof.
  intros Hok. pose proof Hok as [Hs Hm Hw Hl]. unfold finish.
  destruct (materialize_associations_spec (Path:=Path) (IoError:=IoError) (classes_of (merged_elements m))
              (associations_of (merged_elements m))) as [(a & f & _ & _ & ->)|(mat & E & _ & He & Ha & _)];
    [by apply classes_of_spec|by apply classes_of_props_sorted|left; by eexists _, _|].
  rewrite E. cbn [mbind option_bind res_bind].
  destruct (index_classes _) as [[by_path ids]|e] eqn:Ei; cbn [res_bind]; [|right; by eapply index_from_err].
  set (g := Build_ModelGraph _ _ _ _ _ _).
  destruct (finish_unplaced fragments m mat g Hok E eq_refl) as [Hgap Hun];
    [intros x Hx; apply elem_of_app; by right|].
  split; [unfold g; rewrite Ha; by apply (final_graph_ok (merged_elements m) Hs Hm (mat_classes mat) (mat_gap mat) He)|].
  split; [done|]. exists (mat_gap mat). split_and!; [done..|].
  intros p. unfold winning_class. rewrite <-Hw.
  pose proof (proj2 (classes_of_spec (merged_elements m) Hs) p) as Hp.
  pose proof (extends_class _ _ _ He p) as Hx. unfold class_at. simpl. rewrite Hp in Hx.
  destruct (match bt_get (merged_elements m) p with Some (ClassElement c) => Some c | _ => None end) as [c|] eqn:Ec.
  - destruct (bt_get (if mat_gap mat then _ else _) p) as [c'|] eqn:Ec'.
    + simpl. by eapply (final_finished (merged_elements m)).
    + rewrite mark_gap_map in Ec'. by destruct (bt_get (mat_classes mat) p).
  - rewrite mark_gap_map. by destruct (bt_get (mat_classes mat) p).
Qed.
End loading.
