(* ===== verification/TypeText.v ===== *)
(** * Type texts

    Reading a type inverts writing it, nested arguments included, and every type
    that is read could have been written: [TypeTextParser] of [pure.rs]. *)

From S2P Require Import Prelude Utf8 BTree StableSort StrOps Codes FixPlan Kinds Green Builder Domain Model Pmcd PureLowering ModelLaws.

(** The names the reader takes, and the text of a type without white space. *)
Inductive well_named : TypeRef → Prop :=
| well_named_intro raw arguments :
    is_qualified_name raw = true → Forall well_named arguments → well_named (TypeRef_new raw arguments).

Fixpoint type_text (t : TypeRef) : Text :=
  let '(TypeRef_new raw arguments) := t in
  raw ++ match type_text <$> arguments with
         | [] => []
         | first :: rest => txt "<" ++ first ++ concat ((λ a, txt "," ++ a) <$> rest) ++ txt ">"
         end.

Definition arguments_text (arguments : list TypeRef) : Text :=
  concat ((λ a, txt "," ++ type_text a) <$> arguments).

Lemma type_text_arguments raw first rest :
  type_text (TypeRef_new raw (first :: rest))
  = raw ++ txt "<" ++ type_text first ++ arguments_text rest ++ txt ">".
Proof. cbn [type_text]. csimpl. unfold arguments_text. by rewrite <-list_fmap_compose. Qed.

Lemma type_text_plain raw : type_text (TypeRef_new raw []) = raw.
Proof. simpl. by rewrite app_nil_r. Qed.

(** ** Names *)

Definition name_byte (b : byte) : bool := ((b =? "_") || is_ascii_alphanumeric b || (b =? ":"))%u8.

Lemma name_byte_plain b : name_byte b = true → ends_type b = false ∧ is_continuation b = false ∧ between 33 126 b = true.
Proof.
  assert (forallb (λ b, implb (name_byte b)
    (negb (ends_type b) && negb (is_continuation b) && between 33 126 b)) all_bytes = true) as Hall by (by vm_compute).
  intros Hb. pose proof (forallb_bytes _ Hall b) as Hp. cbv beta in Hp. rewrite Hb in Hp. simpl in Hp.
  apply andb_true_iff in Hp as [[He%negb_true_iff Hc%negb_true_iff]%andb_true_iff ?]. done.
Qed.

(** An implication between predicates of bytes, decided. *)
Lemma byte_implies (f g : byte → bool) b : forallb (λ b, implb (f b) (g b)) all_bytes = true → f b = true → g b = true.
Proof. intros Hall Hf. pose proof (forallb_bytes _ Hall b) as H. cbv beta in H. by rewrite Hf in H. Qed.

Lemma forallb_implies (f g : byte → bool) s :
  forallb (λ b, implb (f b) (g b)) all_bytes = true → forallb f s = true → forallb g s = true.
Proof. rewrite !forallb_forall. intros Hall Hf b Hb. specialize (Hf b Hb). eapply byte_implies; [|done]. by apply forallb_forall. Qed.

Lemma simple_name_bytes s : is_simple_name s = true → s ≠ [] ∧ forallb name_byte s = true.
Proof.
  destruct s as [|b s]; [done|]. cbn [is_simple_name forallb]. intros [Hb Hs]%andb_true_iff. split; [done|].
  apply andb_true_iff. split.
  - by apply (byte_implies (λ b, (b =? "_")%u8 || is_ascii_alphabetic b)).
  - by apply (forallb_implies (λ b, (b =? "_")%u8 || is_ascii_alphanumeric b)).
Qed.

Lemma join_bytes (f : byte → bool) sep pieces :
  forallb f sep = true → Forall (λ p, forallb f p = true) pieces → forallb f (join sep pieces) = true.
Proof.
  intros Hsep. induction pieces as [|p [|q pieces] IH]; intros Hp; [done| |]; apply Forall_cons in Hp as [Hp Hps]; [done|].
  rewrite join_cons by done. by rewrite !forallb_app, Hp, Hsep, IH.
Qed.

Lemma qualified_name_bytes raw : is_qualified_name raw = true → raw ≠ [] ∧ forallb name_byte raw = true.
Proof.
  unfold is_qualified_name. intros Hq. rewrite <-(join_split PATH_SEPARATOR raw).
  assert (Forall (λ p, p ≠ [] ∧ forallb name_byte p = true) (split PATH_SEPARATOR raw)) as Hp.
  { apply Forall_forall. intros p Hin%list_elem_of_In. rewrite forallb_forall in Hq. by apply simple_name_bytes, Hq. }
  split.
  - pose proof (split_fuel_nonempty (length raw) PATH_SEPARATOR raw) as Hne. fold (split PATH_SEPARATOR raw) in Hne.
    destruct (split PATH_SEPARATOR raw) as [|p [|q l]]; [done|..]; apply Forall_cons in Hp as [[Hp _] _]; [done|].
    rewrite join_cons by done. by destruct p.
  - apply join_bytes; [done|]. eapply Forall_impl; [exact Hp|]. by intros ? [].
Qed.

Lemma from_utf8_plain s : forallb name_byte s = true → existsb is_control (default [] (from_utf8 s)) = false.
Proof.
  intros Hs. rewrite from_utf8_ascii by by apply (forallb_implies name_byte).
  simpl. apply not_true_iff_false. rewrite existsb_exists. intros (c & Hc & Hctl).
  apply in_map_iff in Hc as (b & <- & Hin). rewrite forallb_forall in Hs.
  pose proof (byte_implies name_byte (λ b, negb (is_control (Byte.to_N b))) b) as Hn. cbv beta in Hn.
  rewrite Hctl in Hn. assert (negb true = true) by (apply Hn; [done|by apply Hs]). done.
Qed.

Lemma qname_from_text_qualified raw : is_qualified_name raw = true → qname_from_text raw = Some raw.
Proof.
  intros Hq. destruct (qualified_name_bytes raw Hq) as [Hne Hb]. unfold qname_from_text.
  assert (strip_prefix PATH_SEPARATOR raw = None) as Es.
  { destruct (strip_prefix PATH_SEPARATOR raw) as [r|] eqn:E; [|done]. exfalso.
    unfold is_qualified_name, split in Hq. destruct raw as [|b raw]; [done|]. cbn [length split_fuel split_once] in Hq.
    by rewrite E in Hq. }
  rewrite Es. simpl. rewrite Hq. unfold QName_new, validate_name_text, text_eqb.
  rewrite bool_decide_eq_false_2, from_utf8_plain by done. simpl.
  replace (existsb _ _) with false; [done|]. symmetry. apply not_true_iff_false. rewrite existsb_exists.
  intros (p & Hin & Hp%bool_decide_eq_true). subst p. unfold is_qualified_name in Hq. rewrite forallb_forall in Hq.
  by specialize (Hq [] Hin).
Qed.

Lemma qname_from_text_Some s p : qname_from_text s = Some p → is_qualified_name p = true.
Proof.
  unfold qname_from_text. destruct (is_qualified_name _) eqn:E; [|done].
  intros [-> _]%result_ok_Some%QName_new_ok. done.
Qed.

(** ** Reading *)

(** What may follow a type: nothing, or a byte that ends one and does not open
    arguments. *)
Definition closes (post : Text) : Prop :=
  match post with [] => True | b :: _ => ends_type b = true ∧ (b =? "<")%u8 = false end.

Lemma lookup_after {A} (pre post : list A) : (pre ++ post) !! length pre = head post.
Proof. rewrite lookup_app_r by lia. rewrite Nat.sub_diag. by destruct post. Qed.

Lemma name_end_name budget pre raw post :
  length raw ≤ budget → Forall (λ b, ends_type b = false) raw →
  (post = [] ∨ ∃ b post', post = b :: post' ∧ ends_type b = true) →
  name_end budget (pre ++ raw ++ post) (length pre) = length (pre ++ raw).
Proof.
  intros Hb Hr Hp. revert pre budget Hb. induction Hr as [|c raw Hc Hr IH]; intros pre budget Hb.
  - rewrite app_nil_r. destruct budget as [|budget]; [done|]. cbn [name_end]. unfold byte_at_offset.
    rewrite lookup_after. simpl. destruct Hp as [->|(b & post' & -> & Hb')]; simpl; [done|]. by rewrite Hb'.
  - simpl in Hb. destruct budget as [|budget]; [lia|]. cbn [name_end]. unfold byte_at_offset.
    rewrite lookup_after. simpl. rewrite Hc.
    specialize (IH (pre ++ [c]) budget ltac:(lia)). rewrite length_app, Nat.add_comm in IH. simpl in IH.
    rewrite <-!(assoc_L (++)) in IH. exact IH.
Qed.

Lemma consume_hit pre b post : consume (pre ++ b :: post) (length pre) b = Some (S (length pre)).
Proof. unfold consume, byte_at_offset. rewrite lookup_after. simpl. by rewrite byte_eqb_refl. Qed.

Lemma consume_miss pre b post :
  (post = [] ∨ ∃ c post', post = c :: post' ∧ (c =? b)%u8 = false) → consume (pre ++ post) (length pre) b = None.
Proof.
  unfold consume, byte_at_offset. rewrite lookup_after. intros [->|(c & post' & -> & Hc)]; simpl; [done|]. by rewrite Hc.
Qed.

(** A name is at character boundaries whatever surrounds it, if what follows
    starts with an ASCII byte. *)
Lemma str_get_name pre raw post :
  raw ≠ [] → forallb name_byte raw = true →
  (post = [] ∨ ∃ b post', post = b :: post' ∧ ends_type b = true) →
  str_get (pre ++ raw ++ post) (length pre) (length (pre ++ raw)) = Some raw.
Proof.
  intros Hne Hr Hp. unfold str_get.
  assert (is_char_boundary (pre ++ raw ++ post) (length pre) = true) as ->.
  { unfold is_char_boundary. destruct (Nat.eqb_spec (length pre) 0); [done|]. rewrite lookup_after.
    destruct raw as [|b raw]; [done|]. simpl in *. apply andb_true_iff in Hr as [(_ & -> & _)%name_byte_plain _]. done. }
  assert (is_char_boundary (pre ++ raw ++ post) (length (pre ++ raw)) = true) as ->.
  { unfold is_char_boundary. destruct (Nat.eqb_spec (length (pre ++ raw)) 0); [done|].
    rewrite (assoc_L (++)), lookup_after. destruct Hp as [->|(b & post' & -> & Hb)]; simpl.
    - rewrite app_nil_r. apply Nat.eqb_refl.
    - pose proof (byte_implies ends_type (λ b, negb (is_continuation b)) b) as Hc. by apply Hc. }
  rewrite !andb_true_r. rewrite (proj2 (Nat.leb_le _ _)) by (rewrite length_app; lia).
  rewrite (proj2 (Nat.leb_le _ _)) by (rewrite !length_app; lia). simpl. f_equal.
  rewrite drop_app_length, length_app. replace (length pre + length raw - length pre) with (length raw) by lia.
  by rewrite take_app_length.
Qed.

Definition reads_type (t : TypeRef) : Prop :=
  ∀ pre post fuel, closes post → length (type_text t) < fuel →
    parse_type fuel (pre ++ type_text t ++ post) (length pre) = Some (t, length (pre ++ type_text t)).

Lemma read_arguments pre arguments post fuel :
  Forall reads_type arguments → length (arguments_text arguments) < fuel →
  parse_arguments fuel (pre ++ arguments_text arguments ++ txt ">" ++ post) (length pre)
  = Some (arguments, length (pre ++ arguments_text arguments)).
Proof.
  intros Ha. revert pre fuel. induction Ha as [|a arguments Ha Has IH]; intros pre fuel Hf.
  - destruct fuel as [|fuel]; [simpl in Hf; lia|]. cbn [parse_arguments arguments_text fmap list_fmap concat app].
    rewrite consume_miss by (right; by exists ">"%byte, post). by rewrite app_nil_r.
  - destruct fuel as [|fuel]; [lia|].
    assert (arguments_text (a :: arguments) = txt "," ++ type_text a ++ arguments_text arguments) as Et.
    { unfold arguments_text. csimpl. done. }
    rewrite Et in *. change (txt ",") with [","%byte] in *. cbn [app] in *. cbn [parse_arguments]. rewrite consume_hit.
    cbn [length] in Hf. rewrite length_app in Hf.
    assert (S (length pre) = length (pre ++ [","%byte])) as -> by (rewrite length_app; simpl; lia).
    replace (pre ++ ","%byte :: (type_text a ++ arguments_text arguments) ++ txt ">" ++ post)
      with ((pre ++ [","%byte]) ++ type_text a ++ arguments_text arguments ++ txt ">" ++ post)
      by (by rewrite <-!(assoc_L (++))).
    rewrite Ha; [|by destruct arguments|lia]. cbn [mbind option_bind].
    rewrite (assoc_L (++) _ (type_text a)). rewrite IH by lia. cbn [mbind option_bind].
    do 2 f_equal. by rewrite <-!(assoc_L (++)).
Qed.

Lemma closes_ends post : closes post → post = [] ∨ ∃ b post', post = b :: post' ∧ ends_type b = true.
Proof. destruct post as [|b post]; [by left|]. intros [Hb _]. right. by exists b, post. Qed.

Lemma closes_not_open post : closes post → post = [] ∨ ∃ c post', post = c :: post' ∧ (c =? "<")%u8 = false.
Proof. destruct post as [|b post]; [by left|]. intros [_ Hb]. right. by exists b, post. Qed.

Lemma name_not_end raw : forallb name_byte raw = true → Forall (λ b, ends_type b = false) raw.
Proof. intros Hr. apply Forall_forall. intros b Hb%list_elem_of_In. rewrite forallb_forall in Hr. by apply name_byte_plain, Hr. Qed.

(** The name that starts a type, read. *)
Lemma read_name pre raw post :
  is_qualified_name raw = true → (post = [] ∨ ∃ b post', post = b :: post' ∧ ends_type b = true) →
  name_end (length (pre ++ raw ++ post) - length pre) (pre ++ raw ++ post) (length pre) = length (pre ++ raw) ∧
  (path ← str_get (pre ++ raw ++ post) (length pre) (length (pre ++ raw)); qname_from_text path) = Some raw.
Proof.
  intros Hq Hp. destruct (qualified_name_bytes raw Hq) as [Hne Hb]. split.
  - apply name_end_name; [rewrite !length_app; lia|by apply name_not_end|done].
  - rewrite str_get_name by done. simpl. by apply qname_from_text_qualified.
Qed.

Lemma read_type t : well_named t → reads_type t.
Proof.
  induction t as [raw arguments IH] using TypeRef_induction. inversion 1 as [? ? Hq Ha]; subst.
  assert (Forall reads_type arguments) as Hargs.
  { apply Forall_forall. intros a Hin. rewrite Forall_forall in IH, Ha. by apply IH, Ha. }
  clear IH Ha. intros pre post fuel Hp Hf. destruct fuel as [|fuel]; [lia|]. cbn [parse_type].
  destruct arguments as [|first rest].
  - rewrite type_text_plain in *. destruct (read_name pre raw post Hq (closes_ends post Hp)) as [-> Hr].
    destruct (str_get _ _ _) as [path|]; [|done]. cbn [mbind option_bind] in Hr |- *. rewrite Hr. cbn [mbind option_bind].
    rewrite (assoc_L (++)). by rewrite consume_miss by by apply closes_not_open.
  - rewrite type_text_arguments in *. apply Forall_cons in Hargs as [Hfirst Hrest].
    change (txt "<") with ["<"%byte] in *. rewrite !length_app in Hf. simpl in Hf.
    set (inner := type_text first ++ arguments_text rest ++ txt ">" ++ post).
    replace (pre ++ (raw ++ ["<"%byte] ++ type_text first ++ arguments_text rest ++ txt ">") ++ post)
      with (pre ++ raw ++ "<"%byte :: inner) by (unfold inner; by rewrite <-!(assoc_L (++))).
    destruct (read_name pre raw ("<"%byte :: inner) Hq) as [-> Hr]; [right; by eexists _, _|].
    destruct (str_get _ _ _) as [path|]; [|done]. cbn [mbind option_bind] in Hr |- *. rewrite Hr. cbn [mbind option_bind].
    rewrite (assoc_L (++) pre raw), consume_hit.
    replace (S (length (pre ++ raw))) with (length ((pre ++ raw) ++ ["<"%byte])) by (rewrite (length_app (pre ++ raw)); simpl; lia).
    replace ((pre ++ raw) ++ "<"%byte :: inner)
      with (((pre ++ raw) ++ ["<"%byte]) ++ type_text first ++ arguments_text rest ++ txt ">" ++ post)
      by (unfold inner; by rewrite <-!(assoc_L (++))).
    rewrite Hfirst; [|by destruct rest|lia]. cbn [mbind option_bind].
    rewrite (assoc_L (++) _ (type_text first)). rewrite read_arguments by (done || lia). cbn [mbind option_bind].
    rewrite (assoc_L (++) _ (arguments_text rest)). change (txt ">" ++ post) with (">"%byte :: post). rewrite consume_hit.
    cbn [mbind option_bind]. do 2 f_equal. change (txt ">") with [">"%byte]. rewrite !length_app. simpl. lia.
Qed.

(** A reader with more fuel than bytes are left never runs out of it. *)
Lemma name_end_bounds budget s i : i ≤ name_end budget s i ∧ (i ≤ length s → name_end budget s i ≤ length s).
Proof.
  revert i. induction budget as [|budget IH]; intros i; simpl; [lia|].
  destruct (byte_at_offset s i) as [b|] eqn:E; [|lia]. destruct (ends_type b); [lia|].
  apply lookup_lt_Some in E. specialize (IH (S i)). lia.
Qed.

Lemma consume_bounds s i b k : consume s i b = Some k → k = S i ∧ i < length s.
Proof.
  unfold consume. destruct (byte_at_offset s i) as [c|] eqn:E; [|done]. destruct (c =? b)%u8; [|done].
  intros [= <-]. by apply lookup_lt_Some in E.
Qed.

Lemma parse_type_fuel s fuel fuel' i :
  length s - i < fuel → length s - i < fuel' →
  (parse_type fuel s i = parse_type fuel' s i ∧ ∀ t j, parse_type fuel s i = Some (t, j) → i ≤ j) ∧
  (parse_arguments fuel s i = parse_arguments fuel' s i ∧ ∀ ts j, parse_arguments fuel s i = Some (ts, j) → i ≤ j).
Proof.
  revert fuel' i. induction fuel as [|fuel IH]; intros [|fuel'] i Hf Hf'; try lia. cbn [parse_type parse_arguments]. split.
  - destruct (str_get s i _) as [path|]; [|done]. cbn [mbind option_bind].
    destruct (qname_from_text path) as [raw|]; [|done]. cbn [mbind option_bind].
    pose proof (name_end_bounds (length s - i) s i) as [Hlo _]. set (stop := name_end _ s i) in *.
    destruct (consume s stop "<") as [k|] eqn:Ek; [|split; [done|]; by intros ?? [= _ <-]].
    apply consume_bounds in Ek as [-> Hk].
    destruct (IH fuel' (S stop)) as [[E1 Hm1] _]; [lia..|]. rewrite E1.
    destruct (parse_type fuel' s (S stop)) as [[first k1]|] eqn:Ef; [|done]. rewrite E1 in Hm1. cbn [mbind option_bind].
    pose proof (Hm1 _ _ eq_refl) as Hk1. destruct (IH fuel' k1) as [_ [E2 Hm2]]; [lia..|]. rewrite E2.
    destruct (parse_arguments fuel' s k1) as [[rest k2]|] eqn:Er; [|done]. rewrite E2 in Hm2. cbn [mbind option_bind].
    pose proof (Hm2 _ _ eq_refl) as Hk2. destruct (consume s k2 ">") as [k3|] eqn:Ek3; [|done]. cbn [mbind option_bind].
    apply consume_bounds in Ek3 as [-> _]. split; [done|]. intros ?? [= _ <-]. lia.
  - destruct (consume s i ",") as [k|] eqn:Ek; [|split; [done|]; by intros ?? [= _ <-]].
    apply consume_bounds in Ek as [-> Hk].
    destruct (IH fuel' (S i)) as [[E1 Hm1] _]; [lia..|]. rewrite E1.
    destruct (parse_type fuel' s (S i)) as [[a k1]|] eqn:Ef; [|done]. rewrite E1 in Hm1. cbn [mbind option_bind].
    pose proof (Hm1 _ _ eq_refl) as Hk1. destruct (IH fuel' k1) as [_ [E2 Hm2]]; [lia..|]. rewrite E2.
    destruct (parse_arguments fuel' s k1) as [[rest k2]|] eqn:Er; [|done]. rewrite E2 in Hm2. cbn [mbind option_bind].
    pose proof (Hm2 _ _ eq_refl) as Hk2. split; [done|]. intros ?? [= _ <-]. lia.
Qed.

(** What is read is well named. *)
Lemma parse_type_well_named fuel s i :
  (∀ t j, parse_type fuel s i = Some (t, j) → well_named t) ∧
  (∀ ts j, parse_arguments fuel s i = Some (ts, j) → Forall well_named ts).
Proof.
  revert i. induction fuel as [|fuel IH]; intros i; [done|]. split.
  - intros t j. cbn [parse_type]. destruct (str_get s i _) as [path|]; [|done]. cbn [mbind option_bind].
    destruct (qname_from_text path) as [raw|] eqn:Eq; [|done]. apply qname_from_text_Some in Eq.
    cbn [mbind option_bind]. destruct (consume s _ "<") as [k|]; [|by intros [= <- _]; constructor].
    destruct (parse_type fuel s k) as [[first k1]|] eqn:E1; [|done]. cbn [mbind option_bind].
    destruct (parse_arguments fuel s k1) as [[rest k2]|] eqn:E2; [|done]. cbn [mbind option_bind].
    destruct (consume s k2 ">"); [|done]. intros [= <- _]. constructor; [done|]. constructor; by eapply IH.
  - intros ts j. cbn [parse_arguments]. destruct (consume s i ",") as [k|]; [|by intros [= <- _]].
    destruct (parse_type fuel s k) as [[a k1]|] eqn:E1; [|done]. cbn [mbind option_bind].
    destruct (parse_arguments fuel s k1) as [[rest k2]|] eqn:E2; [|done]. intros [= <- _]. constructor; by eapply IH.
Qed.

(** C30. The reader of type texts inverts their writing: a type whose names are
    qualified names reads back from its text, with all its arguments in order and
    nothing left over; the reader yields no other types, and the fuel it is given
    is more than it uses, whatever the text. *)
Theorem type_text_roundtrip :
  (∀ t, well_named t ↔ parse_type_text (type_text t) = Some t) ∧
  (∀ s t, parse_type_text s = Some t → well_named t) ∧
  (∀ s fuel, length s < fuel → parse_type fuel s 0 = parse_type (type_fuel s) s 0).
Proof.
  assert (∀ s t, parse_type_text s = Some t → well_named t) as Hw.
  { intros s t. unfold parse_type_text. destruct (parse_type _ s 0) as [[ty j]|] eqn:E; [|done]. cbn [mbind option_bind].
    destruct (j =? length s); [|done]. intros [= <-]. by eapply parse_type_well_named. }
  split; [|split; [done|]; intros s fuel Hf; apply parse_type_fuel; unfold type_fuel; lia].
  intros t. split; [|apply Hw]. intros Ht. unfold parse_type_text, type_fuel.
  pose proof (read_type t Ht [] [] (S (length (type_text t))) I ltac:(lia)) as E. rewrite app_nil_r in E.
  change ([] ++ type_text t) with (type_text t) in E. change (length []) with 0 in E.
  rewrite E. cbn [mbind option_bind]. by rewrite Nat.eqb_refl.
Qed.
