(* ===== verification/LoaderProps.v ===== *)
(** * Properties of the model loader

    What a loaded model is: one graph whatever the order and the kind of the
    sources, whose classes are those of the last source that declares them, and
    whose associations are on both of their classes or nowhere. *)

From Stdlib Require Import Sorting.Sorted.
From S2P Require Import Prelude Utf8 BTree StableSort StrOps Codes FixPlan Kinds Green Builder BuilderLaws Parsing Lexing SyntaxProps Domain DomainLaws DomainProps Model Pmcd PureLowering ModelLaws Loader LoaderLaws.

Section props.
Context {R : Type} `{TextRangeNew R} `{PmcdJson} `{Logos} {Path IoError : Type}.
Abbreviation Error := (ModelError R Path IoError).
Abbreviation load_documents := (load_model_documents (R:=R) (Path:=Path) (IoError:=IoError)).

(** ** Loading, whole *)

Lemma parse_domain_total source file : utf8 source → is_Some (parse_domain (R:=R) source file).
Proof.
  intros Hu. destruct (lex_total (R:=R) source Hu) as (tokens & El & Ht). unfold parse_domain. rewrite El. cbn [mbind option_bind].
  destruct (N.leb_spec (N.of_nat (length source)) U32_MAX) as [Hle|Hlt].
  - destruct (lex_valid source tokens Hu Hle Ht) as [Hv _].
    destruct (domain_tokens_spec source file tokens Hv) as (g & ds & js & gaps & -> & _). done.
  - destruct (domain_parse_spec source file tokens (lex_contiguous source tokens Hu Ht)) as (evs & ds & js & gaps & p & E & _).
    unfold parse_tokens. rewrite E. cbn [mbind option_bind].
    fold (built source tokens (Open SyntaxKind.ROOT :: evs ++ [Close])). by rewrite built_too_long.
Qed.

(** The texts of Pure documents are texts. *)
Definition document_utf8 (document : ModelDocument) : Prop :=
  match document with PmcdDocument _ _ => True | PureDocument _ text => utf8 text end.

Lemma fragment_of_total source document :
  document_utf8 document → is_Some (fragment_of (R:=R) (Path:=Path) (IoError:=IoError) source document).
Proof.
  destruct document as [label json|label text]; simpl; [done|]. intros Hu. unfold parse_pure_document.
  destruct (parse_domain_total text source Hu) as [[parsed|e] ->]; cbn [mbind option_bind]; [|done].
  by destruct (lower_domain _ _).
Qed.

Lemma fragments_from_total index documents :
  Forall document_utf8 documents →
  is_Some (fragments_from (R:=R) (Path:=Path) (IoError:=IoError) index documents).
Proof.
  intros Hd. revert index. induction Hd as [|d documents Hd Hds IH]; intros index; cbn [fragments_from]; [done|].
  destruct (source_id index) as [source|e]; [|done].
  destruct (fragment_of_total source d Hd) as [[f|e] ->]; cbn [mbind option_bind]; [|done].
  destruct (IH (S index)) as [fs ->]. done.
Qed.

Lemma load_spec documents :
  match fragments_from (R:=R) (Path:=Path) (IoError:=IoError) 0 documents with
  | None => load_documents documents = None
  | Some (Err e) => load_documents documents = Some (Err e)
  | Some (Ok fragments) => ∃ m, merger_ok fragments m ∧ load_documents documents = finish m
  end.
Proof.
  unfold load_model_documents, load.
  pose proof (ingest_all_fragments (Path:=Path) (IoError:=IoError) [] no_elements 0 documents no_elements_ok) as Hi.
  destruct (fragments_from 0 documents) as [[fragments|e]|].
  - destruct Hi as (m & -> & Hm). by exists m.
  - by rewrite Hi.
  - by rewrite Hi.
Qed.

Lemma load_graph documents g :
  load_documents documents = Some (Ok g) →
  ∃ fragments unresolved, fragments_from (R:=R) (Path:=Path) (IoError:=IoError) 0 documents = Some (Ok fragments) ∧
    graph_ok g ∧ length (sources g) = length fragments ∧
    (unresolved = true ↔ ∃ d, unplaced fragments g d) ∧
    (∀ d, unplaced fragments g d → draft_provenance d = PureFile ∧ obstructed fragments d ∧ reported g d) ∧
    ∀ p, option_rel (finished unresolved) (winning_class fragments p) (class_at g p).
Proof.
  intros E. pose proof (load_spec documents) as Hl. destruct (fragments_from 0 documents) as [[fragments|e]|]; [|congruence..].
  destruct Hl as (m & Hm & El). rewrite E in El. pose proof (finish_spec (Path:=Path) (IoError:=IoError) _ _ Hm) as Hf.
  rewrite <-El in Hf. destruct Hf as (Hg & Hs & unresolved & Hu & Hp & Hc). by exists fragments, unresolved.
Qed.

(** C29. Loading never panics: with texts for its Pure documents it yields a graph or
    one of its errors.  A document that is refused ends the loading with its own
    error, whatever comes after it, and if none is refused the only errors left
    are those of the merged graph. *)
Theorem load_total documents :
  Forall document_utf8 documents →
  match fragments_from (R:=R) (Path:=Path) (IoError:=IoError) 0 documents with
  | None => False
  | Some (Err e) => load_documents documents = Some (Err e)
  | Some (Ok fragments) => length fragments = length documents ∧
      ∃ r, load_documents documents = Some r ∧
        match r with
        | Ok g => length (sources g) = length documents
        | Err e => (∃ source kind, e = InvalidMergedGraph source kind) ∨ (∃ index, e = TooManyClasses index)
        end
  end.
Proof.
  intros Hd. pose proof (load_spec documents) as Hl. destruct (fragments_from_total 0 documents Hd) as [fragments E].
  rewrite E in *. destruct fragments as [fragments|e]; [|done].
  assert (length fragments = length documents) as Hlen.
  { clear -E. revert fragments E. generalize 0 as i. induction documents as [|d documents IH]; intros i fragments; cbn [fragments_from].
    - by intros [= <-].
    - destruct (source_id i) as [s|]; [|done]. destruct (fragment_of s d) as [[f|]|]; cbn [mbind option_bind]; [|done..].
      destruct (fragments_from (S i) documents) as [[fs|]|] eqn:Ef; cbn [mbind option_bind]; [|done..].
      intros [= <-]. simpl. f_equal. by apply (IH (S i)). }
  split; [done|]. destruct Hl as (m & Hm & ->). pose proof (finish_spec (Path:=Path) (IoError:=IoError) _ _ Hm) as Hf.
  destruct (finish m) as [[g|e]|]; [|by exists (Err e)|done].
  exists (Ok g). split; [done|]. destruct Hf as (_ & Hs & _). by rewrite Hs.
Qed.

(** C15. A loaded graph is well formed: its classes and associations are filed in the
    order of their paths, each class under its own path and each member under its
    own name; the numbering of the classes is one to one with their paths, both
    ways; each association is on the two classes it relates, as the property that
    its end names; and a property that says it comes from an association comes
    from one of the graph. *)
Theorem load_wellformed documents g :
  load_documents documents = Some (Ok g) →
  graph_ok g ∧
  (∀ p c, class_at g p = Some c → ∃ i, class_id g p = Some i ∧ class_by_id g i = Some c) ∧
  (∀ i c, class_by_id g i = Some c → class_id g (class_path c) = Some i).
Proof.
  intros E. destruct (load_graph documents g E) as (fragments & unresolved & _ & Hg & _).
  split; [done|]. destruct Hg as [Hs Hc Hp Hi _ _ _ _]. split.
  - intros p c Ec. assert (p ∈ (classes g).*1) as Hin by (apply bt_get_is_Some; [done|]; by eexists).
    apply list_elem_of_lookup in Hin as (i & Hin). exists i. rewrite <-Hp in Hin. split; [by apply Hi|].
    unfold class_by_id. rewrite Hin. done.
  - intros i c. unfold class_by_id. intros (p & Ep & Ec)%bind_Some. rewrite (class_filed _ _ (Hc p c Ec)). by apply Hi.
Qed.

(** C17. The last source that declares a path wins: the classes of the graph are those
    that the last declaring source makes classes, with its facts and its
    properties, to which associations only add members of their own.  Every class
    is open if some association that wins its path is not in the graph, and
    otherwise exactly the classes are that their own source left open.  An
    association that is not in the graph comes from a Pure source, cannot be put
    on its classes (one is missing, or declares the member, or would get it
    twice) and is reported by the graph's diagnostics. *)
Theorem last_source_wins documents g :
  load_documents documents = Some (Ok g) →
  ∃ fragments unresolved,
    fragments_from (R:=R) (Path:=Path) (IoError:=IoError) 0 documents = Some (Ok fragments) ∧
    (unresolved = true ↔ ∃ d, unplaced fragments g d) ∧
    (∀ d, unplaced fragments g d → draft_provenance d = PureFile ∧ obstructed fragments d ∧ reported g d) ∧
    ∀ p, option_rel (finished unresolved) (winning_class fragments p) (class_at g p).
Proof.
  intros E. destruct (load_graph documents g E) as (fragments & unresolved & Ef & _ & _ & Hu & Hun & Hc).
  by exists fragments, unresolved.
Qed.

Lemma fragments_pmcd index documents fragments :
  fragments_from (R:=R) (Path:=Path) (IoError:=IoError) index documents = Some (Ok fragments) →
  Forall (λ d, ∃ label json, d = PmcdDocument label json) documents →
  Forall (λ f, ∃ source, bt_Forall (pmcd_element source) (fragment_elements f)) fragments.
Proof.
  revert index fragments. induction documents as [|d documents IH]; intros index fragments; cbn [fragments_from].
  { by intros [= <-]. }
  destruct (source_id index) as [source|]; [|done]. destruct (fragment_of source d) as [[f|]|] eqn:Ef; cbn [mbind option_bind]; [|done..].
  destruct (fragments_from (S index) documents) as [[fs|]|] eqn:Efs; cbn [mbind option_bind]; [|done..].
  intros [= <-] [(label & json & ->) Hd]%Forall_cons. constructor; [|by eapply IH].
  apply fragment_of_ok in Ef as [_ Hf]. by exists source.
Qed.

Lemma winner_in (fragments : list (ModelFragment R)) p e :
  winner fragments p = Some e → ∃ f, f ∈ fragments ∧ bt_get (fragment_elements f) p = Some e.
Proof.
  unfold winner. induction fragments as [|f fragments IH] using rev_ind; [done|]. rewrite foldl_app. simpl.
  destruct (bt_get (fragment_elements f) p) as [e'|] eqn:E.
  - intros [= <-]. exists f. split; [|done]. apply elem_of_app. right. by left.
  - intros (f' & Hf & ?)%IH. exists f'. split; [|done]. apply elem_of_app. by left.
Qed.

(** A model of PMCD sources alone is closed: no class of it has a coverage gap,
    so that a lookup that fails in it fails for good. *)
Theorem pmcd_closed_world documents g :
  Forall (λ d, ∃ label json, d = PmcdDocument label json) documents →
  load_documents documents = Some (Ok g) →
  ∀ p c, class_at g p = Some c → class_provenance c = Pmcd ∧ coverage_gap c = false.
Proof.
  intros Hd E p c Ec. destruct (load_graph documents g E) as (fragments & unresolved & Ef & _ & _ & Hu & Hun & Hc).
  apply fragments_pmcd in Ef; [|done]. rewrite Forall_forall in Ef.
  assert (∀ p e, winner fragments p = Some e → ∃ source, pmcd_element source p e) as Hw.
  { intros p' e (f & Hin & He)%winner_in. destruct (Ef f Hin) as [source Hf]. exists source. by apply Hf. }
  assert (unresolved = false) as ->.
  { apply not_true_iff_false. intros (a & Ha)%Hu. destruct (Hun a Ha) as [Hpure _], Ha as [Ha _].
    apply Hw in Ha as (source & _ & _ & Hpm). congruence. }
  specialize (Hc p). rewrite Ec in Hc. unfold winning_class in Hc. destruct (winner fragments p) as [[c0|]|] eqn:Ew; [|done..].
  apply Hw in Ew as (source & _ & _ & Hp & Hgap). destruct Hc as [-> _ _]. simpl. by rewrite Hgap.
Qed.

(** C18. Materialization is all or nothing: either a PMCD association does not pass
    the preflight, and the loading fails with its first failure before a class is
    changed; or exactly the associations that pass are put on their classes, each
    Pure one that does not is reported, and no insertion is refused half way. *)
Theorem materialization_is_preflighted (classes : list (QName * ClassInfo R)) (drafts : list (AssocDraft R)) :
  bt_sorted classes → bt_Forall (λ _ c, bt_sorted (properties c)) classes →
  let prepared := from_draft <$> drafts in
  let pairs := zip prepared (preflight_association_failures classes prepared) in
  match materialize_associations (Path:=Path) (IoError:=IoError) classes drafts with
  | None => False
  | Some (Err e) => ∃ a f, (a, Some f) ∈ pairs ∧ prep_provenance a = Pmcd ∧ e = InvalidMergedGraph (prep_source a) f
  | Some (Ok m) =>
      (∀ a f, (a, Some f) ∈ pairs → prep_provenance a = PureFile) ∧
      mat_associations m = materialized <$> passed pairs ∧
      extends (concat (ends <$> passed pairs)) classes (mat_classes m) ∧
      length (mat_diagnostics m) + length (mat_associations m) = length drafts
  end.
Proof.
  intros Hs Hp prepared pairs.
  destruct (materialize_associations_spec (Path:=Path) (IoError:=IoError) classes drafts Hs Hp)
    as [(a & f & Hin & Ha & ->)|(m & -> & Hall & He & Hm & _ & Hlen)]; [by exists a, f|].
  split_and!; try done.
  - intros a f Hin. rewrite Forall_forall in Hall. specialize (Hall _ Hin). simpl in Hall.
    destruct (prep_provenance a); [|done]. by specialize (Hall eq_refl).
  - rewrite Hm. by rewrite length_fmap.
Qed.

(** ** The members of a Pure class *)

(** A property of a Pure class is a fact exactly when it is declared once and the
    parser read the declaration whole; and a class that lowering leaves closed has
    a fact for each of its property declarations and nothing opaque among its
    members. *)
Theorem members_declared_once (node : GreenNode R) class i context :
  let elements := drop (S i) (node_children node) in
  let lowered := lower_class_members node class i context in
  (∀ n p, bt_get (cm_properties (members lowered)) n = Some p ↔
     ∃ d, declarations_of n (property_nodes elements) = [d] ∧ confirmed context d = true ∧ lower_property d = Some p) ∧
  (members_gap lowered = false →
     opaque elements = false ∧
     ∀ d, d ∈ property_nodes elements → ∃ n p, direct_name d = Some n ∧ lower_property d = Some p ∧
       bt_get (cm_properties (members lowered)) n = Some p).
Proof.
  intros elements lowered. destruct (members_loop_inv class context elements) as [_ _ _ He Hc]. by split.
Qed.
End props.

(** ** Examples

    JSON values given by the records they hold. *)

Inductive SampleValue :=
| SDocument (elements : list SampleValue)
| SElements (elements : list SampleValue)
| SClass (raw : RawClass)
| SAssociation (raw : RawAssociation)
| SString (text : Text).

Definition sample_json (documents : list (Text * SampleValue)) : PmcdJson := {|
  JValue := SampleValue;
  JObject := SampleValue;
  JError := unit;
  json_from_str text := match List.find (λ d, text_eqb d.1 text) documents with Some d => Ok d.2 | None => Err () end;
  as_object v := match v with SDocument _ | SClass _ | SAssociation _ => Some v | _ => None end;
  object_get v key := match v with
    | SDocument elements => if String.eqb key "elements" then Some (SElements elements) else None
    | SClass _ => if String.eqb key "_type" then Some (SString CLASS_TYPE) else None
    | SAssociation _ => if String.eqb key "_type" then Some (SString ASSOCIATION_TYPE) else None
    | _ => None
    end;
  json_array v := match v with SElements elements => Some elements | _ => None end;
  json_str v := match v with SString text => Some text | _ => None end;
  class_from_value v := match v with SClass raw => Ok raw | _ => Err "expected a class" end;
  association_from_value v := match v with SAssociation raw => Ok raw | _ => Err "expected an association" end;
|}.

Definition raw_class (package name : string) (properties : list RawProperty) : RawClass :=
  {| rc_package := txt package; rc_name := txt name; rc_super_types := []; rc_stereotypes := [];
     rc_properties := properties; rc_qualified_properties := [] |}.

Definition raw_property (name type : string) : RawProperty :=
  {| rp_name := txt name; rp_generic_type := RawGenericType_of (TypeString (txt type)) [];
     rp_multiplicity := {| lower_bound := 1; upper_bound := Some 1%N |} |}.

Definition sample_document : SampleValue :=
  SDocument [SClass (raw_class "a" "B" [raw_property "x" "String"]); SClass (raw_class "a" "C" []);
             SAssociation {| ra_package := txt "a"; ra_name := txt "BC"; ra_stereotypes := [];
                             ra_properties := [raw_property "b" "a::B"; raw_property "c" "a::C"] |}].

#[local] Instance sample : PmcdJson := sample_json [(txt "one", sample_document)].

Abbreviation Span := (nat * nat)%type.
Abbreviation sample_load := (load_model_documents (R:=Span) (Path:=unit) (IoError:=unit)).

Definition pmcd_only : list ModelDocument := [PmcdDocument "one" (txt "one")].

Definition pure_text : Text := txt "Class a::C extends a::B { q : List<a::B>[0..1]; }".

Definition pmcd_and_pure : list ModelDocument := pmcd_only ++ [PureDocument "two" pure_text].

Lemma pmcd_and_pure_utf8 : Forall document_utf8 pmcd_and_pure.
Proof.
  constructor; [exact I|]. constructor; [|constructor]. simpl. unfold pure_text. simpl. apply ascii_utf8. vm_compute. reflexivity.
Qed.

(** The graph of the examples: classes with their members and openness, and the
    number of associations and of diagnostics. *)
Definition outline (g : ModelGraph Span) : list (string * bool * list string) * nat * nat :=
  ((λ x : Text * ClassInfo Span, (str x.1, coverage_gap x.2, (λ y : Text * PropInfo Span, str y.1) <$> properties x.2)) <$> classes g,
   length (associations g), length (graph_diagnostics g)).

Definition outline_of (r : option (Result (ModelGraph Span) (ModelError Span unit unit)))
  : option (list (string * bool * list string) * nat * nat) :=
  match r with Some (Ok g) => Some (outline g) | _ => None end.

Lemma pmcd_outline : outline_of (sample_load pmcd_only) = Some ([("a::B", false, ["c"; "x"]); ("a::C", false, ["b"])], 1, 0).
Proof. vm_compute. reflexivity. Qed.

Lemma mixed_outline : outline_of (sample_load pmcd_and_pure)
  = Some ([("a::B", false, ["c"; "x"]); ("a::C", false, ["b"; "q"])], 1, 1).
Proof. vm_compute. reflexivity. Qed.

Lemma outline_graph documents o : outline_of (sample_load documents) = Some o → ∃ g, sample_load documents = Some (Ok g) ∧ outline g = o.
Proof. unfold outline_of. destruct (sample_load documents) as [[g|]|]; [|done..]. intros [= <-]. by exists g. Qed.

Lemma outline_first g gap members rest n m :
  outline g = (("a::B"%string, gap, members) :: rest, n, m) →
  ∃ c, class_at g (txt "a::B") = Some c ∧ coverage_gap c = gap.
Proof.
  intros Ho. injection Ho as Hc _ _. unfold class_at. destruct (classes g) as [|[k c] l]; [discriminate|].
  simpl in Hc. injection Hc as Hk Hgap _ _. exists c. simpl.
  assert (k = txt "a::B") as ->.
  { unfold str in Hk. apply (f_equal String.list_byte_of_string) in Hk.
    rewrite String.list_byte_of_string_of_list_byte in Hk. exact Hk. }
  rewrite key_cmp_refl. by split.
Qed.

Lemma load_total_witness :
  Forall document_utf8 pmcd_and_pure ∧
  ∃ g, sample_load pmcd_and_pure = Some (Ok g) ∧ length (sources g) = 2.
Proof.
  split; [exact pmcd_and_pure_utf8|]. destruct (outline_graph _ _ mixed_outline) as (g & E & _). exists g. split; [exact E|].
  pose proof (load_total (R:=Span) (Path:=unit) (IoError:=unit) pmcd_and_pure pmcd_and_pure_utf8) as Ht. rewrite E in Ht.
  destruct (fragments_from (Path:=unit) (IoError:=unit) 0 pmcd_and_pure) as [[fs|e]|]; [|discriminate|contradiction].
  destruct Ht as (_ & r & Er & Hr). injection Er as <-. exact Hr.
Defined.

Lemma load_wellformed_witness :
  ∃ g, sample_load pmcd_and_pure = Some (Ok g) ∧ graph_ok g ∧ length (associations g) = 1.
Proof.
  destruct (outline_graph _ _ mixed_outline) as (g & E & Ho). exists g. split; [exact E|].
  split; [apply (load_wellformed pmcd_and_pure g E)|]. injection Ho as _ Ha _. exact Ha.
Defined.

(** A third source whose association has a class at one end that no source
    declares. *)
Definition with_dangling : list ModelDocument :=
  pmcd_and_pure ++ [PureDocument "three" (txt "Association a::D { x : a::Missing[1]; y : a::B[1]; }")].

Lemma dangling_outline : outline_of (sample_load with_dangling)
  = Some ([("a::B", true, ["c"; "x"]); ("a::C", true, ["b"; "q"])], 1, 2).
Proof. vm_compute. reflexivity. Qed.

(** Its sources leave [a::B] closed. *)
Definition closed_at (documents : list ModelDocument) (p : Text) : bool :=
  match fragments_from (R:=Span) (Path:=unit) (IoError:=unit) 0 documents with
  | Some (Ok fragments) => match winning_class fragments p with Some c => negb (coverage_gap c) | None => false end
  | _ => false
  end.

Lemma dangling_closed : closed_at with_dangling (txt "a::B") = true.
Proof. vm_compute. reflexivity. Qed.

Lemma last_source_wins_witness :
  ∃ g fragments d, sample_load with_dangling = Some (Ok g) ∧
    fragments_from (Path:=unit) (IoError:=unit) 0 with_dangling = Some (Ok fragments) ∧
    unplaced fragments g d ∧ reported g d.
Proof.
  destruct (outline_graph _ _ dangling_outline) as (g & E & Ho).
  destruct (last_source_wins (Path:=unit) (IoError:=unit) with_dangling g E) as (fragments & unresolved & Ef & Hu & Hun & Hc).
  exists g, fragments. destruct (decide (unresolved = true)) as [Hopen|Hopen%not_true_is_false].
  - destruct (proj1 Hu Hopen) as (d & Hd). exists d. split_and!; [exact E|exact Ef|exact Hd|]. by apply Hun.
  - destruct (outline_first _ _ _ _ _ _ Ho) as (c & Ec & Hgap). specialize (Hc (txt "a::B")).
    pose proof dangling_closed as Hclosed. unfold closed_at in Hclosed. rewrite Ef in Hclosed. rewrite Ec in Hc.
    destruct (winning_class fragments (txt "a::B")) as [c0|]; [|discriminate Hclosed].
    destruct Hc as [Honly _ _]. rewrite Honly, Hopen in Hgap. simpl in Hgap. rewrite orb_false_r in Hgap.
    rewrite Hgap in Hclosed. discriminate Hclosed.
Defined.

Lemma pmcd_closed_world_witness :
  ∃ g c, sample_load pmcd_only = Some (Ok g) ∧ class_at g (txt "a::B") = Some c ∧ coverage_gap c = false.
Proof.
  destruct (outline_graph _ _ pmcd_outline) as (g & E & Ho).
  destruct (outline_first _ _ _ _ _ _ Ho) as (c & Ec & _).
  exists g, c. split; [exact E|]. split; [exact Ec|].
  apply (pmcd_closed_world (Path:=unit) (IoError:=unit) pmcd_only g) with (p := txt "a::B"); [|exact E|exact Ec].
  constructor; [|constructor]. exists "one"%string, (txt "one"). reflexivity.
Defined.

Definition plain_class (path : string) : ClassInfo Span := ClassInfo_new (txt path) [] None [] [] 0.

Definition two_classes : list (QName * ClassInfo Span) :=
  [(txt "a::B", plain_class "a::B"); (txt "a::C", plain_class "a::C")].

Definition plain_end (name type : string) : PropInfo Span :=
  PropInfo_declared (txt name) (TypeRef_new (txt type) []) zero_or_more.

Definition two_drafts : list (AssocDraft Span) :=
  [{| draft_path := txt "a::BC"; draft_first := plain_end "b" "a::B"; draft_second := plain_end "c" "a::C";
      draft_temporal := None; draft_provenance := Pmcd; draft_source := 0; draft_span := None |};
   {| draft_path := txt "a::CB"; draft_first := plain_end "b" "a::B"; draft_second := plain_end "d" "a::C";
      draft_temporal := None; draft_provenance := PureFile; draft_source := 1; draft_span := None |}].

Lemma materialization_is_preflighted_witness :
  bt_sorted two_classes ∧
  ∃ m, materialize_associations (Path:=unit) (IoError:=unit) two_classes two_drafts = Some (Ok m) ∧
    length (mat_associations m) = 1 ∧ length (mat_diagnostics m) + length (mat_associations m) = 2.
Proof.
  assert (bt_sorted two_classes) as Hs by (repeat constructor).
  split; [exact Hs|].
  assert (match materialize_associations (Path:=unit) (IoError:=unit) two_classes two_drafts with
    | Some (Ok m) => Nat.eqb (length (mat_associations m)) 1 | _ => false end = true) as Hm by (vm_compute; reflexivity).
  pose proof (materialization_is_preflighted (Path:=unit) (IoError:=unit) two_classes two_drafts Hs) as Hp.
  assert (bt_Forall (λ _ c, bt_sorted (properties c)) two_classes) as Hps.
  { intros p c Hc%bt_get_Some_in. unfold two_classes in Hc. rewrite !elem_of_cons, elem_of_nil in Hc.
    destruct Hc as [Hc|[Hc|[]]]; injection Hc as -> ->; apply bt_nil_sorted. }
  specialize (Hp Hps). destruct (materialize_associations two_classes two_drafts) as [[m|e]|]; [|discriminate..].
  exists m. split; [reflexivity|]. apply Nat.eqb_eq in Hm. split; [exact Hm|]. apply Hp.
Defined.

(** An association that the parser did not read whole leaves the classes of its
    own file open, and those of another file closed: a class there lacks the end
    and claims to have every member. *)
Theorem incomplete_association_elsewhere :
  let classes := "Class a::B { x : String[1]; } Class a::C { }" in
  let association := "Association a::BC { b : a::B[1]; c : a::C }" in
  let load texts := option_map (λ o, o.1) (outline_of (load_pure_documents (R:=Span) (Path:=unit) (IoError:=unit)
                       ((λ t, (t, txt t)) <$> texts))) in
  load [String.append classes association] = Some ([("a::B", true, ["x"]); ("a::C", true, [])], 0) ∧
  load [classes; association] = Some ([("a::B", false, ["x"]); ("a::C", false, [])], 0).
Proof. vm_compute. split; reflexivity. Qed.

(** Two pairs of package and name make one path, whose own parts are those of one
    of them. *)
Lemma package_and_name_ambiguous :
  from_package_and_name (txt "a") (txt ":x") = Ok (txt "a:::x") ∧
  from_package_and_name (txt "a:") (txt "x") = Ok (txt "a:::x") ∧
  package_of (txt "a:::x") = Some (txt "a:") ∧ simple_name (txt "a:::x") = txt "x".
Proof. vm_compute. repeat split. Qed.
