(* ===== verification/Resolver.v ===== *)
(** * The resolver

    [pure-analyzer-resolve/src/lib.rs]: classes, their generalizations and their
    members, looked up in a [ModelGraph].  A [Vec] that is pushed and popped at
    its end is a list in push order.  A [BTreeSet] is a map to [unit].  The
    breadth-first loop has one round per class and one more as fuel, and answers
    [None] when that runs out, which [levels_total] excludes. *)

From S2P Require Import Prelude Utf8 BTree StableSort StrOps Codes FixPlan Model.

(** ** Outcomes *)

Section data.
Context {R : Type}.

Record DefinitionAnchor := { anchor_source : SourceId; anchor_span : option R }.

Record ResolvedClass := {
  rcl_id : ClassId;
  rcl_path : QName;
  rcl_temporal : option Temporal;
  rcl_provenance : Provenance;
  rcl_definition : DefinitionAnchor;
}.

Inductive ResolvedMemberKind :=
| Qualified (kind : QpKind)
| Property
| AssociationEnd (association : QName).

Record ResolvedMember := {
  rm_owner : ResolvedClass;
  rm_name : Name;
  rm_target : TypeRef;
  rm_multiplicity : Multiplicity;
  rm_kind : ResolvedMemberKind;
  rm_signature : option (list TypeRef);
  rm_target_temporal_arity : option nat;
  rm_provenance : Provenance;
  rm_definition : DefinitionAnchor;
}.

#[global] Instance ResolvedMember_rebuild : Rebuild ResolvedMember := λ m,
  {| rm_owner := rm_owner m; rm_name := rm_name m; rm_target := rm_target m;
     rm_multiplicity := rm_multiplicity m; rm_kind := rm_kind m; rm_signature := rm_signature m;
     rm_target_temporal_arity := rm_target_temporal_arity m; rm_provenance := rm_provenance m;
     rm_definition := rm_definition m |}.

Inductive UnderResolution :=
| MissingSupertype (owner missing : QName)
| OpenWorld (class : QName)
| GraphInvariant (class : QName)
| GeneralizationDepth (class : QName) (limit : nat).

Inductive Resolution (T : Type) :=
| Found (value : T)
| Missing
| UnderResolved (reason : UnderResolution)
| Ambiguous (candidates : list T)
| Cycle (path : list QName).

Inductive HierarchyFault :=
| FaultUnderResolved (reason : UnderResolution)
| FaultCycle (cycle : list QName).
End data.
Arguments DefinitionAnchor : clear implicits.
Arguments ResolvedClass : clear implicits.
Arguments ResolvedMember : clear implicits.
Arguments Found {T} value.
Arguments Missing {T}.
Arguments UnderResolved {T} reason.
Arguments Ambiguous {T} candidates.
Arguments Cycle {T} path.

(** [HierarchyFault::into_resolution]. *)
Definition into_resolution {T} (fault : HierarchyFault) : Resolution T :=
  match fault with
  | FaultUnderResolved reason => UnderResolved reason
  | FaultCycle cycle => Cycle cycle
  end.

(** A walk that may fault, [None] when it has run out of fuel. *)
Abbreviation Walk A := (option (Result A HierarchyFault)).

Definition walk_bind {A B} (w : Walk A) (k : A → Walk B) : Walk B :=
  match w with
  | None => None
  | Some (Err fault) => Some (Err fault)
  | Some (Ok a) => k a
  end.

Notation "'let!' x ':=' w 'in' k" := (walk_bind w (λ x, k))
  (at level 10, x pattern, w at level 100, k at level 200,
   format "'[v' 'let!'  x  ':='  w  'in' '/' k ']'").

(** [map(f).collect::<Result<Vec<_>, _>>()]. *)
Fixpoint walk_collect {A B} (f : A → Walk B) (l : list A) : Walk (list B) :=
  match l with
  | [] => Some (Ok [])
  | x :: l => let! y := f x in let! ys := walk_collect f l in Some (Ok (y :: ys))
  end.

(** [match walk { Ok(a) => k(a), Err(fault) => fault.into_resolution() }]. *)
Definition walk_resolve {A T} (w : Walk A) (k : A → option (Resolution T)) : option (Resolution T) :=
  match w with
  | None => None
  | Some (Err fault) => Some (into_resolution fault)
  | Some (Ok a) => k a
  end.

(** ** Supertypes *)

(** [Vec::dedup]. *)
Fixpoint dedup (l : list Text) : list Text :=
  match l with
  | x :: ((y :: _) as rest) => if text_eqb x y then dedup rest else x :: dedup rest
  | _ => l
  end.

Definition sorted_supertypes {R} (class : ClassInfo R) : list QName :=
  dedup (stable_sort key_cmp (supertypes class)).

(** [MAX_GENERALIZATION_DEPTH]. *)
Definition MAX_GENERALIZATION_DEPTH : nat := 256.

(** [iter().position(..)]. *)
Fixpoint position {A} (f : A → bool) (l : list A) : option nat :=
  match l with [] => None | x :: l => if f x then Some 0 else S <$> position f l end.

Section resolver.
Context {R : Type} (graph : ModelGraph R).
Abbreviation QNameSet := (list (QName * unit)).

(** ** Hierarchies *)

(** [validate_node], its loop over the parents. *)
Fixpoint validate_parents (validate : QName → QNameSet → Result QNameSet HierarchyFault) (current : QName)
    (parents : list QName) (visited : QNameSet) : Result QNameSet HierarchyFault :=
  match parents with
  | [] => Ok visited
  | parent :: parents =>
      match class_at graph parent with
      | None => Err (FaultUnderResolved (MissingSupertype current parent))
      | Some _ =>
          let? visited := validate parent visited in
          validate_parents validate current parents visited
      end
  end.

(** [validate_node], by the room that is left on the stack: none is left when
    [stack.len() >= MAX_GENERALIZATION_DEPTH]. *)
Fixpoint validate_node (room : nat) (stack : list QName) (current : QName) (visited : QNameSet)
  : Result QNameSet HierarchyFault :=
  match room with
  | 0 => Err (FaultUnderResolved (GeneralizationDepth current MAX_GENERALIZATION_DEPTH))
  | S room =>
      match position (text_eqb current) stack with
      | Some start => Err (FaultCycle (drop start stack ++ [current]))
      | None => match bt_get visited current with
        | Some _ => Ok visited
        | None =>
            let visited := bt_insert visited current () in
            match class_at graph current with
            | None => Err (FaultUnderResolved (GraphInvariant current))
            | Some class =>
                validate_parents (validate_node room (stack ++ [current])) current
                  (sorted_supertypes class) visited
            end
        end
      end
  end.

Definition validate_hierarchy (origin : QName) : Result unit HierarchyFault :=
  let? _ := validate_node MAX_GENERALIZATION_DEPTH [] origin [] in Ok ().

(** [hierarchy_levels], one round: the parents of a level not seen before. *)
Definition see_parents (s : QNameSet * QNameSet) (parents : list QName) : QNameSet * QNameSet :=
  foldl (λ '(seen, next) parent,
    match bt_get seen parent with
    | Some _ => (seen, next)
    | None => (bt_insert seen parent (), bt_insert next parent ())
    end) s parents.

Fixpoint next_level (seen next : QNameSet) (current : list QName)
  : Result (QNameSet * QNameSet) HierarchyFault :=
  match current with
  | [] => Ok (seen, next)
  | path :: current =>
      match class_at graph path with
      | None => Err (FaultUnderResolved (GraphInvariant path))
      | Some class =>
          let '(seen, next) := see_parents (seen, next) (sorted_supertypes class) in
          next_level seen next current
      end
  end.

Fixpoint levels_loop (fuel : nat) (levels : list (list QName)) (seen : QNameSet) (current : list QName)
  : Walk (list (list QName)) :=
  match current with
  | [] => Some (Ok levels)
  | _ =>
      match fuel with
      | 0 => None
      | S fuel =>
          match next_level seen [] current with
          | Err fault => Some (Err fault)
          | Ok (seen, next) =>
              let current := next.*1 in
              let levels := match current with [] => levels | _ => levels ++ [current] end in
              levels_loop fuel levels seen current
          end
      end
  end.

Definition levels_fuel : nat := S (length (classes graph)).

Definition hierarchy_levels (origin : QName) : Walk (list (list QName)) :=
  match validate_hierarchy origin with
  | Err fault => Some (Err fault)
  | Ok _ => levels_loop levels_fuel [[origin]] [(origin, ())] [origin]
  end.

(** ** Classes *)

Definition resolved_class (path : QName) (class : ClassInfo R) : Result (ResolvedClass R) UnderResolution :=
  match class_id graph path with
  | None => Err (GraphInvariant path)
  | Some id =>
      Ok {| rcl_id := id; rcl_path := path; rcl_temporal := class_temporal class;
            rcl_provenance := class_provenance class;
            rcl_definition := {| anchor_source := class_source class; anchor_span := class_span class |} |}
  end.

Definition resolve_class (path : QName) : Resolution (ResolvedClass R) :=
  match class_at graph path with
  | None => Missing
  | Some class => match resolved_class path class with
    | Ok class => Found class
    | Err reason => UnderResolved reason
    end
  end.

Definition resolve_class_id (id : ClassId) : Resolution (ResolvedClass R) :=
  match class_by_id graph id with
  | None => Missing
  | Some class => resolve_class (class_path class)
  end.

(** [generalizations]: its loop over the paths of the levels after the first. *)
Fixpoint resolve_paths (resolved : list (ResolvedClass R)) (paths : list QName)
  : Resolution (list (ResolvedClass R)) :=
  match paths with
  | [] => Found resolved
  | path :: paths =>
      match class_at graph path with
      | None => UnderResolved (GraphInvariant path)
      | Some class => match resolved_class path class with
        | Ok class => resolve_paths (resolved ++ [class]) paths
        | Err reason => UnderResolved reason
        end
      end
  end.

Definition generalizations (origin : QName) : option (Resolution (list (ResolvedClass R))) :=
  match class_at graph origin with
  | None => Some Missing
  | Some _ =>
      walk_resolve (hierarchy_levels origin) (λ levels, Some (resolve_paths [] (concat (drop 1 levels))))
  end.

(** ** Members *)

Inductive MemberPriority := GeneratedQualified | UserQualifiedMember | PropertyMember | AssociationEndMember.

Definition priority_rank (p : MemberPriority) : nat :=
  match p with
  | GeneratedQualified => 0 | UserQualifiedMember => 1 | PropertyMember => 2 | AssociationEndMember => 3
  end.

Record DirectMember := {
  dm_priority : MemberPriority;
  dm_member : ResolvedMember R;
  dm_association : option QName;
}.

(** [qualified_member]. *)
Definition qualified_member (owner : ResolvedClass R) (name : Name) (class : ClassInfo R) (property : QpInfo R)
  : ResolvedMember R :=
  {| rm_owner := owner; rm_name := name; rm_target := qp_target property;
     rm_multiplicity := qp_multiplicity property; rm_kind := Qualified (qp_kind property);
     rm_signature := qp_signature property; rm_target_temporal_arity := None;
     rm_provenance := class_provenance class;
     rm_definition := {| anchor_source := class_source class; anchor_span := qp_span property |} |}.

(** [direct_member], for a plain property and for an association end. *)
Definition find_association (path : QName) : option (AssocInfo R) :=
  List.find (λ item, text_eqb (assoc_path item) path) (associations graph).

Definition property_member (owner : ResolvedClass R) (name : Name) (property : PropInfo R)
    (kind : ResolvedMemberKind) (provenance : Provenance) (source : SourceId) : ResolvedMember R :=
  {| rm_owner := owner; rm_name := name; rm_target := pi_target property;
     rm_multiplicity := pi_multiplicity property; rm_kind := kind; rm_signature := None;
     rm_target_temporal_arity := None; rm_provenance := provenance;
     rm_definition := {| anchor_source := source; anchor_span := pi_span property |} |}.

Definition direct_property (owner : ResolvedClass R) (name : Name) (class : ClassInfo R)
    (property : PropInfo R) : DirectMember :=
  if from_assoc property then
    let association := pi_association property in
    let '(provenance, source) :=
      match (path ← association; find_association path) with
      | None => (class_provenance class, class_source class)
      | Some item => (assoc_provenance item, assoc_source item)
      end in
    let kind := match association with Some association => AssociationEnd association | None => Property end in
    {| dm_priority := AssociationEndMember;
       dm_member := property_member owner name property kind provenance source;
       dm_association := association |}
  else
    {| dm_priority := PropertyMember;
       dm_member := property_member owner name property Property (class_provenance class) (class_source class);
       dm_association := None |}.

(** [direct_member]. *)
Definition direct_member (path : QName) (class : ClassInfo R) (name : Name)
  : Result (option DirectMember) HierarchyFault :=
  let? owner := map_err FaultUnderResolved (resolved_class path class) in
  match bt_get (qualified_properties class) name with
  | Some property =>
      let priority := if bool_decide (qp_kind property = UserQualified) then UserQualifiedMember
                      else GeneratedQualified in
      Ok (Some {| dm_priority := priority; dm_member := qualified_member owner name class property;
                  dm_association := None |})
  | None => match bt_get (properties class) name with
    | None => Ok None
    | Some property => Ok (Some (direct_property owner name class property))
    end
  end.

(** [effective_temporal_arity]: its loop over the levels. *)
Fixpoint temporal_levels (levels : list (list QName)) : option nat :=
  match levels with
  | [] => Some 0
  | level :: levels =>
      let classes := omap (class_at graph) level in
      if existsb coverage_gap classes then None
      else match foldl (λ set t, bt_insert set t ()) [] (omap class_temporal classes) with
      | [] => temporal_levels levels
      | [(t, _)] => Some (arity t)
      | _ => None
      end
  end.

Definition effective_temporal_arity (target : QName) : Walk (option nat) :=
  match class_at graph target with
  | None => Some (Ok None)
  | Some _ => let! levels := hierarchy_levels target in Some (Ok (temporal_levels levels))
  end.

(** [target_temporal_arity] and [complete_member]. *)
Definition target_temporal_arity (target : TypeRef) (association : option QName) : Walk (option nat) :=
  match (path ← association; item ← find_association path; arity <$> assoc_temporal item) with
  | Some arity => Some (Ok (Some arity))
  | None => effective_temporal_arity (raw_type target)
  end.

Definition complete_member (candidate : DirectMember) : Walk (ResolvedMember R) :=
  let! arity := target_temporal_arity (rm_target (dm_member candidate)) (dm_association candidate) in
  Some (Ok ((dm_member candidate) <| rm_target_temporal_arity := arity |>)).

(** [resolve_member], the candidates of one level and whether it is open. *)
Fixpoint level_candidates (name : Name) (candidates : list DirectMember) (open_world : option UnderResolution)
    (level : list QName) : Result (list DirectMember * option UnderResolution) HierarchyFault :=
  match level with
  | [] => Ok (candidates, open_world)
  | path :: level =>
      match class_at graph path with
      | None => Err (FaultUnderResolved (GraphInvariant path))
      | Some class =>
          let open_world := if coverage_gap class then Some (default (OpenWorld path) open_world) else open_world in
          let? candidate := direct_member path class name in
          let candidates := match candidate with Some c => candidates ++ [c] | None => candidates end in
          level_candidates name candidates open_world level
      end
  end.

(** [candidates.iter().map(|c| c.priority).min()]. *)
Definition best_priority (candidates : list DirectMember) : option nat :=
  foldr (λ c best, Some (match best with
    | None => priority_rank (dm_priority c)
    | Some b => Nat.min (priority_rank (dm_priority c)) b
    end)) None candidates.

(** The choice among the candidates of a level. *)
Definition choose (candidates : list DirectMember) (best : nat) : option (Resolution (ResolvedMember R)) :=
  walk_resolve
    (walk_collect complete_member
       (List.filter (λ c, priority_rank (dm_priority c) =? best) candidates))
    (λ members,
      let members := stable_sort (cmp_by (λ m : ResolvedMember R, rcl_path (rm_owner m))) members in
      match members with
      | [member] => Some (Found member)
      | _ => Some (Ambiguous members)
      end).

Fixpoint search_levels (name : Name) (levels : list (list QName)) : option (Resolution (ResolvedMember R)) :=
  match levels with
  | [] => Some Missing
  | level :: levels =>
      walk_resolve (Some (level_candidates name [] None level)) (λ '(candidates, open_world),
        match open_world with
        | Some reason => Some (UnderResolved reason)
        | None => match best_priority candidates with
          | Some best => choose candidates best
          | None => search_levels name levels
          end
        end)
  end.

(** [resolve_member]. *)
Definition resolve_member (origin : QName) (name : Name) : option (Resolution (ResolvedMember R)) :=
  match class_at graph origin with
  | None => Some Missing
  | Some origin_class =>
      if coverage_gap origin_class then Some (UnderResolved (OpenWorld origin))
      else walk_resolve (Some (direct_member origin origin_class name)) (λ direct,
        match direct with
        | Some candidate => walk_resolve (complete_member candidate) (λ member, Some (Found member))
        | None =>
            walk_resolve (hierarchy_levels origin) (λ levels, search_levels name (drop 1 levels))
        end)
  end.
End resolver.
Arguments DirectMember : clear implicits.
