(* ===== verification/ResolverProps.v ===== *)
(** * Hierarchies

    What the walks of the resolver find out about the generalization relation:
    a validated class has a closed hierarchy without cycles, a fault is a real
    one, and the levels are the classes by their distance. *)

From stdpp Require Import relations.
From Stdlib Require Import Sorting.Sorted.
From S2P Require Import Prelude BTree Codes StableSort Utf8 StrOps FixPlan Model Resolver.

Lemma dedup_elem l (x : Text) : x ∈ dedup l ↔ x ∈ l.
Proof.
  induction l as [|a [|b l] IH]; [done..|]. change (dedup (a :: b :: l)) with (if text_eqb a b then dedup (b :: l) else a :: dedup (b :: l)).
  unfold text_eqb. case_bool_decide as E; [subst b|]; rewrite ?elem_of_cons, IH, ?elem_of_cons; naive_solver.
Qed.

Lemma position_Some {A} (f : A → bool) l i : position f l = Some i → ∃ x, l !! i = Some x ∧ f x = true.
Proof.
  revert i. induction l as [|x l IH]; intros i; simpl; [done|]. destruct (f x) eqn:E; [intros [= <-]; by exists x|].
  intros (j & Hj & ->)%fmap_Some. by apply IH.
Qed.

Lemma position_None {A} (f : A → bool) l : position f l = None → Forall (λ x, f x = false) l.
Proof.
  induction l as [|x l IH]; simpl; [constructor|]. destruct (f x) eqn:E; [done|].
  rewrite fmap_None. intros. constructor; auto.
Qed.

Section hierarchy.
Context {R : Type} (graph : ModelGraph R).

(** The direct generalizations of a class. *)
Definition generalizes (p q : QName) : Prop := ∃ c, class_at graph p = Some c ∧ q ∈ supertypes c.

Lemma sorted_supertypes_elem (c : ClassInfo R) q : q ∈ sorted_supertypes c ↔ q ∈ supertypes c.
Proof. unfold sorted_supertypes. rewrite dedup_elem. by rewrite (stable_sort_perm key_cmp (supertypes c)). Qed.

(** A class whose hierarchy is in the graph and ends. *)
Inductive settled : QName → Prop :=
| settled_intro p c : class_at graph p = Some c → (∀ q, q ∈ supertypes c → settled q) → settled p.

(** The same, within a number of levels. *)
Fixpoint settled_within (n : nat) (p : QName) : Prop :=
  match n with
  | 0 => False
  | S n => ∃ c, class_at graph p = Some c ∧ ∀ q, q ∈ supertypes c → settled_within n q
  end.

Lemma settled_within_settled n p : settled_within n p → settled p.
Proof. revert p. induction n as [|n IH]; intros p; [done|]. intros (c & Ec & Hq). econstructor; eauto. Qed.

Lemma settled_step p q : settled p → generalizes p q → settled q.
Proof. destruct 1 as [p c Ec Hq]. intros (c' & Ec' & Hin). rewrite Ec in Ec'. injection Ec' as <-. auto. Qed.

Lemma settled_rtc p q : settled p → rtc generalizes p q → settled q.
Proof. intros Hp. induction 1; eauto using settled_step. Qed.

Lemma settled_class p : settled p → is_Some (class_at graph p).
Proof. destruct 1 as [p c Ec _]. by exists c. Qed.

Lemma settled_acyclic p : settled p → ¬ tc generalizes p p.
Proof.
  induction 1 as [p c Ec Hs IH]. intros Hc. apply tc_r_inv in Hc || idtac.
  inversion Hc as [? ? (c' & Ec' & Hin)|? q ? (c' & Ec' & Hin) Hq]; subst; rewrite Ec in Ec'; injection Ec' as <-.
  - by apply (IH p Hin), tc_once; exists c.
  - apply (IH q Hin). eapply tc_r; [exact Hq|]. by exists c.
Qed.

(** ** Chains *)

Fixpoint chain (l : list QName) : Prop :=
  match l with
  | p :: ((q :: _) as rest) => generalizes p q ∧ chain rest
  | _ => True
  end.

Lemma chain_app l l' : chain (l ++ l') → chain l'.
Proof. induction l as [|p [|q l] IH]; [done| |]; simpl; [destruct l'; [done|]; by intros []|]. intros [_ ?]. by apply IH. Qed.

Lemma chain_snoc l p q : chain (l ++ [p]) → generalizes p q → chain (l ++ [p] ++ [q]).
Proof.
  intros Hc Hg. induction l as [|a [|b l] IH]; simpl in *; [done| |].
  - by destruct Hc.
  - destruct Hc as [Ha Hc]. split; [done|]. by apply IH.
Qed.

Lemma chain_rtc p l q : chain (p :: l ++ [q]) → rtc generalizes p q.
Proof.
  revert p. induction l as [|a l IH]; intros p; simpl; intros [Hg Hc].
  - by apply rtc_once.
  - eapply rtc_l; [exact Hg|]. by apply IH.
Qed.

Lemma chain_tc p l q : chain (p :: l ++ [q]) → tc generalizes p q.
Proof.
  revert p. induction l as [|a l IH]; intros p; simpl; intros [Hg Hc].
  - by apply tc_once.
  - eapply tc_l; [exact Hg|]. by apply IH.
Qed.

Lemma chain_middle p l q rest : chain ((p :: l) ++ q :: rest) → rtc generalizes p q.
Proof.
  revert p. induction l as [|a l IH]; intros p; simpl.
  - intros [Hg _]. by apply rtc_once.
  - intros [Hg Hc]. eapply rtc_l; [exact Hg|]. by apply IH.
Qed.

(** ** Validation *)

Definition covers (stack : list QName) (visited : list (QName * unit)) : Prop :=
  bt_sorted visited ∧ ∀ v, is_Some (bt_get visited v) → v ∈ stack ∨ settled v.

(** What a walk that succeeds found. *)
Lemma validate_parents_ok validate current parents visited visited' stack :
  (∀ p v v', p ∈ parents → covers stack v → validate p v = Ok v' → covers stack v' ∧ settled p) →
  covers stack visited → validate_parents graph validate current parents visited = Ok visited' →
  covers stack visited' ∧ Forall settled parents.
Proof.
  revert visited. induction parents as [|p parents IH]; intros visited Hv Hc; simpl; [intros [= <-]; by split|].
  destruct (class_at graph p) as [c|]; [|done]. intros (v & Ep & E)%res_bind_ok.
  destruct (Hv p visited v ltac:(by left) Hc Ep) as [Hc' Hp].
  destruct (IH v (λ q w w' Hq, Hv q w w' ltac:(by right)) Hc' E) as [? ?]. split; [done|]. by constructor.
Qed.

Lemma validate_node_ok room stack current visited visited' :
  covers stack visited → validate_node graph room stack current visited = Ok visited' →
  covers stack visited' ∧ settled current.
Proof.
  revert stack current visited visited'. induction room as [|room IH]; intros stack current visited visited' [Hs Hc]; simpl; [done|].
  destruct (position _ stack) as [i|] eqn:Ep; [done|]. apply position_None in Ep.
  assert (current ∉ stack) as Hns.
  { intros Hin. rewrite Forall_forall in Ep. specialize (Ep _ Hin). unfold text_eqb in Ep. by apply bool_decide_eq_false in Ep. }
  destruct (bt_get visited current) as [u|] eqn:Ev.
  { intros [= <-]. split; [by split|]. destruct (Hc current) as [?|?]; [by rewrite Ev|done|done]. }
  destruct (class_at graph current) as [c|] eqn:Ec; [|done]. intros E.
  destruct (λ H1 H2, validate_parents_ok _ _ _ _ _ (stack ++ [current]) H1 H2 E) as [[Hs' Hc'] Hp].
  - intros p v v' _ Hv Hval. by eapply IH.
  - split; [by apply bt_insert_sorted|]. intros v. rewrite bt_lookup_insert by done.
    destruct (decide (v = current)) as [->|Hne]; [intros _; left; apply elem_of_app; right; by left|].
    intros [?|?]%Hc; [left; apply elem_of_app; by left|by right].
  - assert (settled current) as Hcur.
    { econstructor; [exact Ec|]. intros q Hq%sorted_supertypes_elem. rewrite Forall_forall in Hp. by apply Hp. }
    split; [|done]. split; [done|]. intros v Hv. destruct (Hc' v Hv) as [[?|Hv']%elem_of_app|?]; [by left| |by right].
    apply list_elem_of_singleton in Hv' as ->. by right.
Qed.

(** What a fault of a walk along a chain says. *)
Definition real_fault (origin : QName) (fault : HierarchyFault) : Prop :=
  match fault with
  | FaultUnderResolved (MissingSupertype owner missing) =>
      rtc generalizes origin owner ∧ generalizes owner missing ∧ class_at graph missing = None
  | FaultUnderResolved (GraphInvariant p) => p = origin ∧ class_at graph p = None
  | FaultUnderResolved (GeneralizationDepth p limit) =>
      limit = MAX_GENERALIZATION_DEPTH ∧ nsteps generalizes limit origin p
  | FaultUnderResolved (OpenWorld _) => False
  | FaultCycle cycle => ∃ p l, cycle = p :: l ++ [p] ∧ rtc generalizes origin p ∧ chain cycle
  end.

Lemma chain_nsteps p l q : chain (p :: l ++ [q]) → nsteps generalizes (S (length l)) p q.
Proof.
  revert p. induction l as [|a l IH]; intros p; simpl; intros [Hg Hc].
  - by apply nsteps_once.
  - econstructor; [exact Hg|]. by apply IH.
Qed.

Lemma chain_from origin stack current : chain (stack ++ [current]) → head (stack ++ [current]) = Some origin → 
  nsteps generalizes (length stack) origin current.
Proof.
  destruct stack as [|o stack]; simpl; [intros _ [= ->]; constructor|]. intros Hc [= ->]. by apply chain_nsteps.
Qed.

Lemma validate_node_err origin room stack current visited fault :
  room + length stack = MAX_GENERALIZATION_DEPTH →
  chain (stack ++ [current]) → head (stack ++ [current]) = Some origin →
  (stack ≠ [] → is_Some (class_at graph current)) →
  validate_node graph room stack current visited = Err fault → real_fault origin fault.
Proof.
  revert stack current visited. induction room as [|room IH]; intros stack current visited Hr Hc Ho Hex; cbn [validate_node].
  - intros [= <-]. simpl. split; [done|]. simpl in Hr. rewrite <-Hr. by apply chain_from.
  - destruct (position _ stack) as [i|] eqn:Ep.
    + intros [= <-]. apply position_Some in Ep as (x & Hx & E%bool_decide_eq_true). subst x.
      rewrite (drop_S _ _ _ Hx). cbn [real_fault app]. exists current, (drop (S i) stack). split; [done|].
      rewrite <-(take_drop_middle _ _ _ Hx) in Hc, Ho. rewrite <-(assoc_L (++)) in Hc, Ho. cbn [app] in Hc, Ho. split.
      * destruct (take i stack) as [|o l]; [by injection Ho as ->|]. injection Ho as ->. by eapply chain_middle.
      * by apply (chain_app (take i stack)).
    + destruct (bt_get visited current) as [|]; [done|].
      destruct (class_at graph current) as [c|] eqn:Ec.
      2:{ intros [= <-]. simpl. destruct stack as [|o stack]; [by injection Ho as ->|]. destruct Hex as [? ?]; [done|congruence]. }
      generalize (bt_insert visited current ()) as v.
      assert (∀ q, q ∈ sorted_supertypes c → generalizes current q) as Hsup.
      { intros q Hq%sorted_supertypes_elem. by exists c. }
      revert Hsup. generalize (sorted_supertypes c) as parents.
      induction parents as [|q parents IHp]; intros Hsup v; simpl; [done|].
      assert (generalizes current q) as Hq by (apply Hsup; by left).
      destruct (class_at graph q) as [cq|] eqn:Eq.
      * intros [E|(v' & _ & E)]%res_bind_err.
        -- eapply IH; [..|exact E].
           ++ rewrite length_app. simpl. lia.
           ++ rewrite <-(assoc_L (++)). by apply chain_snoc.
           ++ destruct stack; [by injection Ho as ->|done].
           ++ intros _. by exists cq.
        -- eapply IHp; [|exact E]. intros q' Hq'. apply Hsup. by right.
      * intros [= <-]. simpl. split; [|done]. apply rtc_nsteps. eexists. by apply chain_from.
Qed.

(** A closed hierarchy within the depth is validated. *)
Lemma validate_node_complete room stack current visited :
  chain (stack ++ [current]) → settled_within room current →
  ∃ visited', validate_node graph room stack current visited = Ok visited'.
Proof.
  revert stack current visited. induction room as [|room IH]; intros stack current visited Hc; [done|].
  intros Hsw. pose proof (settled_within_settled (S room) _ Hsw) as Hset. destruct Hsw as (c & Ec & Hp). cbn [validate_node].
  destruct (position _ stack) as [i|] eqn:Ep.
  { apply position_Some in Ep as (x & Hx & E%bool_decide_eq_true). subst x. exfalso. apply (settled_acyclic current Hset).
    apply (chain_tc current (drop (S i) stack)). apply (chain_app (take i stack)).
    rewrite <-(take_drop_middle _ _ _ Hx) in Hc. by rewrite <-(assoc_L (++)) in Hc. }
  destruct (bt_get visited current) as [|]; [by eexists|]. rewrite Ec.
  generalize (bt_insert visited current ()) as v.
  assert (∀ q, q ∈ sorted_supertypes c → generalizes current q ∧ settled_within room q) as Hsup.
  { intros q Hq%sorted_supertypes_elem. split; [by exists c|by apply Hp]. }
  revert Hsup. generalize (sorted_supertypes c) as parents.
  induction parents as [|q parents IHp]; intros Hsup v; simpl; [by eexists|].
  destruct (Hsup q) as [Hq Hw]; [by left|]. destruct (settled_class q) as [cq ->]; [by eapply settled_within_settled|].
  destruct (IH (stack ++ [current]) q v) as [v' ->]; [|done|].
  { rewrite <-(assoc_L (++)). by apply chain_snoc. }
  simpl. apply IHp. intros q' Hq'. apply Hsup. by right.
Qed.

Lemma validate_hierarchy_ok origin : validate_hierarchy graph origin = Ok () → settled origin.
Proof.
  intros (v & E & _)%res_bind_ok. eapply validate_node_ok; [|exact E].
  split; [apply bt_nil_sorted|]. by intros ? [? ?].
Qed.

Lemma validate_hierarchy_err origin fault : validate_hierarchy graph origin = Err fault → real_fault origin fault.
Proof. intros [E|(v & _ & E)]%res_bind_err; [|done]. by eapply (validate_node_err _ _ [] origin); [..|exact E]. Qed.

(** ** Levels *)

(** One round: what is seen afterwards, and what is new. *)
Definition seen_in (s : list (QName * unit)) (p : QName) : Prop := is_Some (bt_get s p).

Lemma seen_insert s p q : bt_sorted s → seen_in (bt_insert s p ()) q ↔ q = p ∨ seen_in s q.
Proof.
  intros Hs. unfold seen_in. rewrite bt_lookup_insert by done. destruct (decide (q = p)); [|naive_solver].
  split; [by left|done].
Qed.

Lemma see_parents_spec seen next parents :
  bt_sorted seen → bt_sorted next →
  let s := see_parents (seen, next) parents in
  bt_sorted s.1 ∧ bt_sorted s.2 ∧ (∀ q, seen_in s.1 q ↔ seen_in seen q ∨ q ∈ parents) ∧
  (∀ q, seen_in s.2 q ↔ seen_in next q ∨ (q ∈ parents ∧ ¬ seen_in seen q)).
Proof.
  revert seen next. induction parents as [|p parents IH]; intros seen next Hs Hn; simpl.
  { split_and!; [done..| |]; intros q; rewrite elem_of_nil; naive_solver. }
  destruct (bt_get seen p) as [u|] eqn:E.
  - destruct (IH seen next Hs Hn) as (H1 & H2 & H3 & H4). split_and!; [done..| |]; intros q; rewrite ?H3, ?H4, elem_of_cons.
    + split; [tauto|]. intros [?|[->|?]]; [tauto| |tauto]. left. unfold seen_in. by rewrite E.
    + split; [tauto|]. intros [?|[[->|?] Hq]]; [tauto| |tauto]. destruct Hq. unfold seen_in. by rewrite E.
  - destruct (IH (bt_insert seen p ()) (bt_insert next p ())) as (H1 & H2 & H3 & H4); [by apply bt_insert_sorted..|].
    split_and!; [done..| |]; intros q; rewrite ?H3, ?H4, !seen_insert, elem_of_cons by done.
    + tauto.
    + destruct (decide (q = p)) as [->|Hne]; [|tauto]. split; [|tauto]. intros _. right. split; [by left|].
      unfold seen_in. rewrite E. by intros [].
Qed.

Lemma next_level_spec seen next current :
  bt_sorted seen → bt_sorted next → Forall (λ p, is_Some (class_at graph p)) current →
  ∃ seen' next', next_level graph seen next current = Ok (seen', next') ∧
    bt_sorted seen' ∧ bt_sorted next' ∧
    (∀ q, seen_in seen' q ↔ seen_in seen q ∨ ∃ p, p ∈ current ∧ generalizes p q) ∧
    (∀ q, seen_in next' q ↔ seen_in next q ∨ (¬ seen_in seen q ∧ ∃ p, p ∈ current ∧ generalizes p q)).
Proof.
  intros Hs Hn Hc. revert seen next Hs Hn. induction Hc as [|p current [c Ec] Hc IH]; intros seen next Hs Hn; cbn [next_level].
  { exists seen, next. split_and!; [done..| |]; intros q; setoid_rewrite elem_of_nil; naive_solver. }
  rewrite Ec. destruct (see_parents_spec seen next (sorted_supertypes c) Hs Hn) as (Hs1 & Hn1 & Hseen & Hnext).
  destruct (see_parents (seen, next) (sorted_supertypes c)) as [seen1 next1]. simpl in *.
  assert (∀ q, q ∈ sorted_supertypes c ↔ generalizes p q) as Hg.
  { intros q. rewrite sorted_supertypes_elem. unfold generalizes. rewrite Ec. naive_solver. }
  destruct (IH seen1 next1 Hs1 Hn1) as (seen' & next' & E & Hs' & Hn' & Hseen' & Hnext').
  exists seen', next'. split_and!; [done..| |]; intros q.
  - rewrite Hseen', Hseen, Hg. setoid_rewrite elem_of_cons. naive_solver.
  - rewrite Hnext', Hnext, Hseen, Hg. setoid_rewrite elem_of_cons.
    split; [naive_solver|]. intros [?|(Hq & r & [->|Hr] & Hgr)]; [naive_solver..|].
    destruct (decide (q ∈ sorted_supertypes c)) as [Hin%Hg|Hin]; [naive_solver|]. rewrite Hg in Hin. naive_solver.
Qed.

(** The distance of a class from the origin of a walk. *)
Definition distance (origin : QName) (n : nat) (p : QName) : Prop :=
  nsteps generalizes n origin p ∧ ∀ m, m < n → ¬ nsteps generalizes m origin p.

Record levels_of (origin : QName) (levels : list (list QName)) : Prop := {
  levels_exact n level : levels !! n = Some level →
    level ≠ [] ∧ StronglySorted key_lt level ∧ ∀ p, p ∈ level ↔ distance origin n p;
  levels_nodup : NoDup (concat levels);
}.

Lemma concat_elem levels (p : QName) : p ∈ concat levels ↔ ∃ n level, levels !! n = Some level ∧ p ∈ level.
Proof.
  rewrite list_elem_of_concat. split.
  - intros (l & Hp & (n & Hn)%list_elem_of_lookup). by exists n, l.
  - intros (n & l & Hn & Hp). exists l. split; [done|]. by eapply list_elem_of_lookup_2.
Qed.

Section walk.
Context (origin : QName).
Hypothesis origin_settled : settled origin.

Lemma reachable_class n p : nsteps generalizes n origin p → is_Some (class_at graph p).
Proof. intros Hn. apply settled_class. eapply settled_rtc; [done|]. by eapply rtc_nsteps_2. Qed.

(** The levels seen so far: all that a number of steps reaches. *)
Record walk_inv (levels : list (list QName)) (seen : list (QName * unit)) (k : nat) : Prop := {
  walk_length : length levels = S k;
  walk_levels : levels_of origin levels;
  walk_sorted : bt_sorted seen;
  walk_seen p : seen_in seen p ↔ p ∈ concat levels;
  walk_reached p : seen_in seen p ↔ ∃ j, j ≤ k ∧ nsteps generalizes j origin p;
}.

Lemma walk_level levels seen k p j : walk_inv levels seen k → j ≤ k → nsteps generalizes j origin p →
  ∃ i level, i ≤ k ∧ levels !! i = Some level ∧ p ∈ level.
Proof.
  intros Hw Hj Hn. assert (seen_in seen p) as (i & level & Hi & Hp)%(walk_seen _ _ _ Hw)%concat_elem by (apply (walk_reached _ _ _ Hw); by exists j).
  exists i, level. split; [|done]. apply lookup_lt_Some in Hi. rewrite (walk_length _ _ _ Hw) in Hi. lia.
Qed.

(** What a further step reaches is seen, or a parent of the last level. *)
Lemma walk_step levels seen k q current :
  walk_inv levels seen k → levels !! k = Some current →
  (∃ j, j ≤ S k ∧ nsteps generalizes j origin q) ↔ seen_in seen q ∨ ∃ p, p ∈ current ∧ generalizes p q.
Proof.
  intros Hw Hk. rewrite (walk_reached _ _ _ Hw). split.
  - intros (j & Hj & Hn). destruct (decide (j ≤ k)); [left; by exists j|]. replace j with (S k) in Hn by lia.
    apply nsteps_inv_r in Hn as (p & Hp & Hg). destruct (walk_level _ _ _ _ _ Hw (le_n k) Hp) as (i & level & Hi & Hl & Hin).
    destruct (decide (i = k)) as [->|Hne].
    + right. rewrite Hk in Hl. injection Hl as <-. by exists p.
    + pose proof (levels_exact _ _ (walk_levels _ _ _ Hw) i level Hl) as (_ & _ & Hd). apply Hd in Hin as [Hin _].
      left. exists (S i). split; [lia|]. eapply nsteps_r; [exact Hin|done].
  - intros [(j & Hj & Hn)|(p & Hp & Hg)]; [exists j; split; [lia|done]|].
    pose proof (levels_exact _ _ (walk_levels _ _ _ Hw) k current Hk) as (_ & _ & Hd). apply Hd in Hp as [Hp _].
    exists (S k). split; [done|]. by eapply nsteps_r.
Qed.

Lemma keys_sorted (m : list (QName * unit)) : bt_sorted m → StronglySorted key_lt m.*1.
Proof. done. Qed.

Lemma walk_extend levels seen k current seen' next :
  walk_inv levels seen k → levels !! k = Some current →
  next_level graph seen [] current = Ok (seen', next) → next ≠ [] →
  walk_inv (levels ++ [next.*1]) seen' (S k).
Proof.
  intros Hw Hk E Hne.
  assert (Forall (λ p, is_Some (class_at graph p)) current) as Hcl.
  { apply Forall_forall. intros p Hp. pose proof (levels_exact _ _ (walk_levels _ _ _ Hw) k current Hk) as (_ & _ & Hd).
    apply Hd in Hp as [Hp _]. by eapply reachable_class. }
  destruct (next_level_spec seen [] current (walk_sorted _ _ _ Hw) bt_nil_sorted Hcl) as (s' & n' & E' & Hs' & Hn' & Hseen & Hnext).
  rewrite E in E'. injection E' as <- <-.
  assert (∀ q, q ∈ next.*1 ↔ ¬ seen_in seen q ∧ ∃ p, p ∈ current ∧ generalizes p q) as Hin.
  { intros q. rewrite <-bt_get_is_Some by done. fold (seen_in next q). rewrite Hnext. split; [|by right]. by intros [[? ?]|?]. }
  split.
  - rewrite length_app, (walk_length _ _ _ Hw). simpl. lia.
  - split.
    + intros n level [[Hlt Hl]|[-> <-]]%lookup_snoc_Some; [by apply (walk_levels _ _ _ Hw)|].
      rewrite (walk_length _ _ _ Hw). split; [by destruct next|]. split; [by apply keys_sorted|].
      intros q. rewrite Hin, (walk_reached _ _ _ Hw). split.
      * intros [Hns Hp]. assert (∃ j, j ≤ S k ∧ nsteps generalizes j origin q) as (j & Hj & Hq)
          by (apply (walk_step _ _ _ _ _ Hw Hk); by right).
        destruct (decide (j = S k)) as [->|]; [|destruct Hns; exists j; split; [lia|done]].
        split; [done|]. intros m Hm Hmq. apply Hns. exists m. split; [lia|done].
      * intros [Hq Hmin]. split; [intros (j & Hj & Hjq); apply (Hmin j); [lia|done]|].
        assert (seen_in seen q ∨ ∃ p, p ∈ current ∧ generalizes p q) as [Hs|?]
          by (apply (walk_step _ _ _ _ _ Hw Hk); by exists (S k)); [|done].
        apply (walk_reached _ _ _ Hw) in Hs as (j & Hj & Hjq). exfalso. apply (Hmin j); [lia|done].
    + rewrite concat_app. simpl. rewrite app_nil_r. apply NoDup_app. split_and!.
      * apply (walk_levels _ _ _ Hw).
      * intros q Hq Hq'. apply Hin in Hq' as [Hns _]. apply Hns. by apply (walk_seen _ _ _ Hw).
      * by apply bt_sorted_nodup.
  - done.
  - intros q. rewrite Hseen, concat_app, elem_of_app. simpl. rewrite app_nil_r, Hin, <-(walk_seen _ _ _ Hw).
    split; [|naive_solver]. intros [?|Hp]; [by left|]. unfold seen_in in *.
    destruct (bt_get seen q) eqn:Eq; [by left|]. right. split; [by intros []|done].
  - intros q. rewrite Hseen. symmetry. by apply (walk_step _ _ _ _ _ Hw).
Qed.

Lemma levels_count levels seen k : walk_inv levels seen k → S k ≤ length (classes graph).
Proof.
  intros Hw.
  assert (length (concat levels) ≤ length (classes graph).*1) as Hle.
  { apply submseteq_length, NoDup_submseteq; [apply (walk_levels _ _ _ Hw)|].
    intros p (n & level & Hl & Hp)%concat_elem. pose proof (levels_exact _ _ (walk_levels _ _ _ Hw) n level Hl) as (_ & _ & Hd).
    apply Hd in Hp as [Hp _]. destruct (reachable_class n p Hp) as [c Ec]. apply bt_get_Some_in in Ec.
    apply list_elem_of_fmap. by exists (p, c). }
  rewrite length_fmap in Hle. rewrite <-(walk_length _ _ _ Hw).
  assert (∀ l : list (list QName), Forall (λ x, x ≠ []) l → length l ≤ length (concat l)) as Hall.
  { intros l. induction 1 as [|x l Hx Hl IH]; simpl; [lia|]. rewrite length_app. destruct x; [done|]. simpl. lia. }
  etrans; [apply Hall|exact Hle]. apply Forall_forall. intros l (n & Hn)%list_elem_of_lookup.
  by apply (levels_exact _ _ (walk_levels _ _ _ Hw) n l Hn).
Qed.

Lemma levels_loop_spec fuel levels seen k current :
  walk_inv levels seen k → levels !! k = Some current → length (classes graph) < fuel + S k →
  ∃ levels', levels_loop graph fuel levels seen current = Some (Ok levels') ∧ levels_of origin levels' ∧
    (∀ p, rtc generalizes origin p → p ∈ concat levels') ∧ head levels' = head levels.
Proof.
  revert levels seen k current. induction fuel as [|fuel IH]; intros levels seen k current Hw Hk Hf.
  { pose proof (levels_count _ _ _ Hw). lia. }
  pose proof (levels_exact _ _ (walk_levels _ _ _ Hw) k current Hk) as (Hne & _ & Hd).
  assert (Forall (λ p, is_Some (class_at graph p)) current) as Hcl.
  { apply Forall_forall. intros p [Hp _]%Hd. by eapply reachable_class. }
  cbn [levels_loop]. destruct current as [|p0 rest] eqn:Ec; [done|]. rewrite <-Ec in *.
  destruct (next_level_spec seen [] current (walk_sorted _ _ _ Hw) bt_nil_sorted Hcl) as (seen' & next & E & Hs' & Hn' & Hseen & Hnext).
  rewrite E. destruct next as [|x next].
  - exists levels. split; [by destruct fuel|]. split; [apply Hw|]. split; [|done].
    intros p (n & Hn)%rtc_nsteps. rewrite <-(walk_seen _ _ _ Hw). revert p Hn. induction n as [|n IHn]; intros p Hn.
    + apply (walk_reached _ _ _ Hw). exists 0. split; [lia|done].
    + apply nsteps_inv_r in Hn as (r & Hr%IHn & Hg). apply (walk_reached _ _ _ Hw) in Hr as (j & Hj & Hr).
      assert (seen_in seen p ∨ ∃ r, r ∈ current ∧ generalizes r p) as [?|Hp]; [|done|].
      { apply (walk_step _ _ _ _ _ Hw Hk). exists (S j). split; [lia|]. by eapply nsteps_r. }
      unfold seen_in. destruct (bt_get seen p) eqn:Ep; [done|]. exfalso.
      assert (seen_in (@nil (QName * unit)) p) as [? ?]; [|done]. apply Hnext. right. split; [|done].
      unfold seen_in. rewrite Ep. by intros [].
  - pose proof (walk_extend _ _ _ _ _ _ Hw Hk E ltac:(done)) as Hw'.
    destruct (IH (levels ++ [(x :: next).*1]) seen' (S k) (x :: next).*1 Hw') as (levels' & E' & Hl & Hr & Hh).
    + rewrite lookup_app_r by (rewrite (walk_length _ _ _ Hw); lia).
      by rewrite (walk_length _ _ _ Hw), Nat.sub_diag.
    + lia.
    + exists levels'. split_and!; [exact E'|done|done|]. rewrite Hh. pose proof (walk_length _ _ _ Hw). by destruct levels.
Qed.
End walk.

(** [hierarchy_levels], whole: never out of fuel. *)
Lemma levels_total origin :
  match hierarchy_levels graph origin with
  | None => False
  | Some (Err fault) => validate_hierarchy graph origin = Err fault
  | Some (Ok levels) => settled origin ∧ levels_of origin levels ∧
      (∀ p, rtc generalizes origin p → p ∈ concat levels) ∧ head levels = Some [origin]
  end.
Proof.
  unfold hierarchy_levels. destruct (validate_hierarchy graph origin) as [[]|fault] eqn:E; [|done].
  apply validate_hierarchy_ok in E.
  destruct (levels_loop_spec origin E (levels_fuel graph) [[origin]] [(origin, ())] 0 [origin]) as (levels & -> & Hl & Hr & Hh); [|done| |].
  - split; [done| | | |].
    + split; [|apply NoDup_singleton]. intros [|n] level Hn; simpl in Hn; [injection Hn as <-|done].
      split; [done|]. split; [repeat constructor|]. intros p. rewrite list_elem_of_singleton. split.
      * intros ->. split; [constructor|lia].
      * intros [Hp _]. by inversion Hp.
    + repeat constructor.
    + intros p. simpl. rewrite list_elem_of_singleton. unfold seen_in. simpl. destruct (key_cmp p origin) eqn:Ep.
      * apply key_cmp_eq in Ep as ->. by split.
      * split; [by intros [? ?]|]. intros ->. by rewrite key_cmp_refl in Ep.
      * split; [by intros [? ?]|]. intros ->. by rewrite key_cmp_refl in Ep.
    + intros p. unfold seen_in. simpl. split.
      * destruct (key_cmp p origin) eqn:Ep; [|by intros [? ?]..]. apply key_cmp_eq in Ep as ->. intros _. exists 0. split; [lia|constructor].
      * intros (j & Hj & Hn). assert (j = 0) as -> by lia. inversion Hn; subst. by rewrite key_cmp_refl.
  - unfold levels_fuel. lia.
  - by split_and!.
Qed.
End hierarchy.

(** * Properties of the resolver

    Validation tells the hierarchies that are closed and end from those that are
    not; the levels of a class are its generalizations by distance; and a member
    is the one of the nearest level, or is missing only when nothing that the
    class inherits from could declare it. *)

Lemma Forall2_elem_l {A B} (P : A → B → Prop) l k x : Forall2 P l k → x ∈ l → ∃ y, y ∈ k ∧ P x y.
Proof.
  intros HP (i & Hi)%list_elem_of_lookup. destruct (Forall2_lookup_l _ _ _ _ _ HP Hi) as (y & Hy & ?).
  exists y. split; [by eapply list_elem_of_lookup_2|done].
Qed.

Lemma Forall2_elem_r {A B} (P : A → B → Prop) l k y : Forall2 P l k → y ∈ k → ∃ x, x ∈ l ∧ P x y.
Proof.
  intros HP (i & Hi)%list_elem_of_lookup. destruct (Forall2_lookup_r _ _ _ _ _ HP Hi) as (x & Hx & ?).
  exists x. split; [by eapply list_elem_of_lookup_2|done].
Qed.

Section members.
Context {R : Type} (graph : ModelGraph R).

(** A fault that some walk of the graph really has. *)
Definition faulty (fault : HierarchyFault) : Prop :=
  (∃ start, real_fault graph start fault) ∨
  ∃ p, fault = FaultUnderResolved (GraphInvariant p) ∧ class_id graph p = None.

Definition reason_of {T} (r : Resolution T) : option HierarchyFault :=
  match r with
  | UnderResolved reason => Some (FaultUnderResolved reason)
  | Cycle cycle => Some (FaultCycle cycle)
  | _ => None
  end.

(** What a class itself says of a name. *)
Definition declares (p : QName) (name : Name) (d : DirectMember R) : Prop :=
  ∃ c, class_at graph p = Some c ∧ direct_member graph p c name = Ok (Some d).

Definition silent (p : QName) (name : Name) : Prop :=
  ∃ c, class_at graph p = Some c ∧ bt_get (qualified_properties c) name = None ∧ bt_get (properties c) name = None.

Definition has_gap (p : QName) : Prop := ∃ c, class_at graph p = Some c ∧ coverage_gap c = true.

Lemma direct_member_spec p c name : class_at graph p = Some c →
  match direct_member graph p c name with
  | Err fault => faulty fault
  | Ok None => silent p name
  | Ok (Some d) => rcl_path (rm_owner (dm_member d)) = p ∧ rm_name (dm_member d) = name ∧ declares p name d
  end.
Proof.
  intros Ec. destruct (direct_member graph p c name) as [[d|]|f] eqn:E; pose proof E as E'; revert E'; unfold direct_member, resolved_class.
  all: destruct (class_id graph p) as [i|] eqn:Ei; cbn [map_err res_bind]; [|try done].
  - intros E'. assert (declares p name d) as Hd by (by exists c).
    destruct (bt_get (qualified_properties c) name) as [q|]; [injection E' as <-; done|].
    destruct (bt_get (properties c) name) as [q|]; [|done]. injection E' as <-. revert Hd. unfold direct_property.
    destruct (from_assoc q); [|done]. by destruct (pi_association q ≫= _).
  - destruct (bt_get (qualified_properties c) name) as [q|] eqn:Eq; [done|].
    destruct (bt_get (properties c) name) as [q|] eqn:Ep; [done|]. intros _. by exists c.
  - destruct (bt_get (qualified_properties c) name); [done|]. by destruct (bt_get (properties c) name).
  - intros [= <-]. right. by exists p.
Qed.

(** ** Completion *)

Lemma complete_member_spec d :
  match complete_member graph d with
  | None => False
  | Some (Err fault) => faulty fault
  | Some (Ok m) => rm_owner m = rm_owner (dm_member d) ∧ rm_name m = rm_name (dm_member d)
  end.
Proof.
  unfold complete_member, target_temporal_arity. destruct (_ ≫= _) as [n|]; [done|].
  unfold effective_temporal_arity. destruct (class_at graph _) as [c|]; [|done].
  pose proof (levels_total graph (raw_type (rm_target (dm_member d)))) as Hl.
  destruct (hierarchy_levels graph _) as [[l|f]|]; [done| |done]. left. eexists. by eapply validate_hierarchy_err.
Qed.

Lemma walk_collect_spec {A B} (f : A → Walk B) l :
  Forall (λ x, f x ≠ None) l →
  match walk_collect f l with
  | None => False
  | Some (Err fault) => ∃ x, x ∈ l ∧ f x = Some (Err fault)
  | Some (Ok ys) => Forall2 (λ x y, f x = Some (Ok y)) l ys
  end.
Proof.
  induction 1 as [|x l Hx Hl IH]; simpl; [constructor|]. destruct (f x) as [[y|e]|] eqn:E; cbn [walk_bind]; [|by exists x; split; [left|]|done].
  destruct (walk_collect f l) as [[ys|e]|]; cbn [walk_bind]; [by constructor| |done].
  destruct IH as (z & Hz & Ez). exists z. split; [by right|done].
Qed.

(** ** A level *)

Lemma best_priority_spec (ds : list (DirectMember R)) :
  match best_priority ds with
  | None => ds = []
  | Some b => Exists (λ d, priority_rank (dm_priority d) = b) ds ∧ Forall (λ d, b ≤ priority_rank (dm_priority d)) ds
  end.
Proof.
  induction ds as [|d ds IH]; simpl; [done|]. destruct (best_priority ds) as [b|].
  - destruct IH as [He Hf]. split.
    + destruct (Nat.min_dec (priority_rank (dm_priority d)) b) as [->| ->]; [by left|by right].
    + constructor; [lia|]. eapply Forall_impl; [exact Hf|]. simpl. lia.
  - subst ds. split; [by left|]. by constructor.
Qed.

Lemma level_candidates_spec name level ds o :
  Forall (λ p, is_Some (class_at graph p)) level →
  match level_candidates graph name ds o level with
  | Err fault => faulty fault
  | Ok (ds', Some reason) => o = Some reason ∨ ∃ p, p ∈ level ∧ reason = OpenWorld p ∧ has_gap p
  | Ok (ds', None) => o = None ∧ (∀ p, p ∈ level → ¬ has_gap p) ∧
      (∀ p, p ∈ level → silent p name ∨ ∃ d, declares p name d) ∧
      (∀ d, d ∈ ds' ↔ d ∈ ds ∨ ∃ p, p ∈ level ∧ declares p name d) ∧
      ((λ d, rcl_path (rm_owner (dm_member d))) <$> ds') `sublist_of` ((λ d, rcl_path (rm_owner (dm_member d))) <$> ds) ++ level
  end.
Proof.
  intros Hc. revert ds o. induction Hc as [|p level [c Ec] Hc IH]; intros ds o; cbn [level_candidates].
  { destruct o; [by left|]. split_and!; [done|set_solver..| |by rewrite app_nil_r]. intros d. set_solver. }
  rewrite Ec. pose proof (direct_member_spec p c name Ec) as Hd.
  destruct (direct_member graph p c name) as [od|f] eqn:Ed; cbn [res_bind]; [|done].
  specialize (IH (match od with Some d => ds ++ [d] | None => ds end)
                 (if coverage_gap c then Some (default (OpenWorld p) o) else o)).
  destruct (level_candidates graph name _ _ level) as [[ds' [reason|]]|f]; [| |done].
  - destruct IH as [E|(q & Hq & -> & Hg)]; [|right; exists q; split; [by right|done]].
    destruct (coverage_gap c) eqn:Eg; [|by left]. injection E as <-. destruct o as [r|]; [by left|].
    right. exists p. split; [by left|]. split; [done|]. by exists c.
  - destruct IH as (Ho & Hg & Hs & Hin & Hsub). destruct (coverage_gap c) eqn:Eg; [done|].
    assert (∀ d, declares p name d ↔ od = Some d) as Hod.
    { intros d. unfold declares. rewrite Ec. split; [intros (? & [= <-] & E); rewrite Ed in E; by injection E|intros ->; by exists c]. }
    split_and!; [done| | | |].
    + intros q [->|Hq]%elem_of_cons; [|by apply Hg]. intros (c' & E & ?). rewrite Ec in E. injection E as <-. congruence.
    + intros q [->|Hq]%elem_of_cons; [|by apply Hs]. destruct od as [d|]; [|by left]. right. exists d. by apply Hod.
    + intros d. rewrite Hin. setoid_rewrite elem_of_cons. destruct od as [d'|].
      * rewrite elem_of_app, list_elem_of_singleton. specialize (Hod d). naive_solver.
      * specialize (Hod d). naive_solver.
    + destruct od as [d'|].
      * rewrite fmap_app, <-(assoc_L (++)) in Hsub. destruct Hd as [Hp _]. simpl in Hsub. by rewrite Hp in Hsub.
      * etrans; [exact Hsub|]. apply sublist_app; [done|]. by apply sublist_cons.
Qed.

(** The candidates of a level that no other candidate of it is preferred to. *)
Definition preferred (level : QName → Prop) (name : Name) (d : DirectMember R) : Prop :=
  (∃ p, level p ∧ declares p name d) ∧
  ∀ p d', level p → declares p name d' → priority_rank (dm_priority d) ≤ priority_rank (dm_priority d').

(** Their completions, by the paths of their classes. *)
Record selected (level : QName → Prop) (name : Name) (ms : list (ResolvedMember R)) : Prop := {
  selected_elem m : m ∈ ms ↔ ∃ d, preferred level name d ∧ complete_member graph d = Some (Ok m);
  selected_all d : preferred level name d → ∃ m, complete_member graph d = Some (Ok m);
  selected_owners : NoDup ((λ m, rcl_path (rm_owner m)) <$> ms);
  selected_sorted : StronglySorted (key_le (λ m, rcl_path (rm_owner m))) ms;
}.

Lemma preferred_filter (level : list QName) name ds best :
  (∀ d, d ∈ ds ↔ ∃ p, p ∈ level ∧ declares p name d) → best_priority ds = Some best →
  ∀ d, d ∈ List.filter (λ c, priority_rank (dm_priority c) =? best) ds ↔ preferred (λ p, p ∈ level) name d.
Proof.
  intros Hds Hb d. pose proof (best_priority_spec ds) as Hbest. rewrite Hb in Hbest. destruct Hbest as [He Hf].
  apply Exists_exists in He as (b & Hbd & Hbr). rewrite Forall_forall in Hf.
  rewrite list_elem_of_In, filter_In, <-list_elem_of_In, Nat.eqb_eq. split.
  - intros [Hd Hr]. split; [by apply Hds|]. intros p d' Hp Hd'. rewrite Hr. apply Hf, Hds. by exists p.
  - intros [Hd Hmin]. apply Hds in Hd as Hd'. split; [done|]. apply Hds in Hbd as (p & Hp & Hdp).
    specialize (Hmin p b Hp Hdp). specialize (Hf d Hd'). lia.
Qed.

Lemma choose_spec (level : list QName) name ds best :
  (∀ d, d ∈ ds ↔ ∃ p, p ∈ level ∧ declares p name d) →
  ((λ d, rcl_path (rm_owner (dm_member d))) <$> ds) `sublist_of` level → NoDup level →
  best_priority ds = Some best →
  ∃ r, choose graph ds best = Some r ∧
    match r with
    | Found m => selected (λ p, p ∈ level) name [m]
    | Ambiguous ms => 2 ≤ length ms ∧ selected (λ p, p ∈ level) name ms
    | Missing => False
    | _ => ∃ fault, reason_of r = Some fault ∧ faulty fault
    end.
Proof.
  intros Hds Hsub Hnd Hb. unfold choose. pose proof (preferred_filter level name ds best Hds Hb) as Hin.
  pose proof (best_priority_spec ds) as Hbest. rewrite Hb in Hbest. destruct Hbest as [(b & Hbd & Hbr)%Exists_exists _].
  assert (b ∈ List.filter (λ c, priority_rank (dm_priority c) =? best) ds) as Hne.
  { by rewrite list_elem_of_In, filter_In, <-list_elem_of_In, Nat.eqb_eq. }
  assert (NoDup ((λ d, rcl_path (rm_owner (dm_member d))) <$> List.filter (λ c, priority_rank (dm_priority c) =? best) ds)) as Hnd'.
  { eapply sublist_NoDup; [exact Hnd|]. etrans; [|exact Hsub]. apply fmap_sublist.
    clear. induction ds as [|d ds IH]; simpl; [done|]. destruct (_ =? _); [by apply sublist_skip|by apply sublist_cons]. }
  revert Hin Hne Hnd'. generalize (List.filter (λ c, priority_rank (dm_priority c) =? best) ds) as kept. intros kept Hin Hne Hnd'.
  pose proof (walk_collect_spec (complete_member graph) kept) as Hw.
  assert (Forall (λ d, complete_member graph d ≠ None) kept) as Hsome.
  { apply Forall_forall. intros d _ E. pose proof (complete_member_spec d) as Hd. by rewrite E in Hd. }
  specialize (Hw Hsome). destruct (walk_collect (complete_member graph) kept) as [[ms|f]|]; cbn [walk_resolve]; [| |done].
  2:{ eexists. split; [done|]. destruct Hw as (d & _ & E). pose proof (complete_member_spec d) as Hd. rewrite E in Hd.
      destruct f; simpl; eexists; (split; [done|exact Hd]). }
  set (sorted := stable_sort _ ms). assert (sorted ≡ₚ ms) as Hperm by apply stable_sort_perm.
  assert (selected (λ p, p ∈ level) name sorted) as Hsel.
  { split.
    - intros m. rewrite Hperm. split.
      + intros Hm. destruct (Forall2_elem_r _ _ _ _ Hw Hm) as (d & Hd & E). exists d. by rewrite <-Hin.
      + intros (d & Hd%Hin & E). destruct (Forall2_elem_l _ _ _ _ Hw Hd) as (m' & Hm & E'). rewrite E in E'. by injection E' as <-.
    - intros d Hd%Hin. destruct (Forall2_elem_l _ _ _ _ Hw Hd) as (m & _ & E). by exists m.
    - rewrite Hperm. enough ((λ m, rcl_path (rm_owner m)) <$> ms = (λ d, rcl_path (rm_owner (dm_member d))) <$> kept) as -> by done.
      clear -Hw. induction Hw as [|d m kept ms E Hw IH]; [done|]. rewrite !fmap_cons. f_equal; [|exact IH].
      pose proof (complete_member_spec d) as Hd. rewrite E in Hd. by destruct Hd as [-> _].
    - apply (sort_by_key_sorted (λ m : ResolvedMember R, rcl_path (rm_owner m))). }
  assert (length sorted = length kept) as Hlen by (rewrite Hperm; symmetry; by eapply Forall2_length).
  destruct sorted as [|m [|m' rest]] eqn:E.
  - destruct kept; [set_solver|done].
  - eexists. split; [done|]. exact Hsel.
  - eexists. split; [done|]. split; [simpl; lia|exact Hsel].
Qed.

Lemma selected_iff (P Q : QName → Prop) name ms : (∀ p, P p ↔ Q p) → selected P name ms → selected Q name ms.
Proof.
  intros HPQ [He Ha Hn Hs]. assert (∀ d, preferred P name d ↔ preferred Q name d) as Hp.
  { intros d. unfold preferred. by setoid_rewrite HPQ. }
  split; [|intros d Hd%Hp; by apply Ha|done..]. intros m. rewrite He. by setoid_rewrite Hp.
Qed.

(** ** A member of a class *)

(** The members of the nearest classes that declare a name, when all that is as
    near is known whole. *)
Record nearest (origin : QName) (name : Name) (n : nat) (ms : list (ResolvedMember R)) : Prop := {
  nearest_selected : selected (distance graph origin n) name ms;
  nearest_closed k p : k ≤ n → distance graph origin k p → ¬ has_gap p;
  nearest_silent k p : k < n → distance graph origin k p → silent p name;
}.

Definition member_outcome (origin : QName) (name : Name) (r : Resolution (ResolvedMember R)) : Prop :=
  match r with
  | Missing => class_at graph origin = None ∨ ∀ p, rtc (generalizes graph) origin p → silent p name ∧ ¬ has_gap p
  | Found m => rm_name m = name ∧ ∃ n, nearest origin name n [m]
  | Ambiguous ms => 2 ≤ length ms ∧ ∃ n, nearest origin name n ms
  | UnderResolved (OpenWorld p) => rtc (generalizes graph) origin p ∧ has_gap p
  | UnderResolved reason => faulty (FaultUnderResolved reason)
  | Cycle cycle => faulty (FaultCycle cycle)
  end.

Lemma fault_outcome origin name fault : faulty fault → member_outcome origin name (into_resolution fault).
Proof.
  destruct fault as [reason|cycle]; [|done]. destruct reason; try done.
  intros [[start Hf]|(p & Hp & _)]; [|discriminate Hp]. destruct Hf.
Qed.

Lemma reason_outcome origin name r fault : reason_of r = Some fault → faulty fault → member_outcome origin name r.
Proof. destruct r as [| |reason| |cycle]; intros [= <-]; apply (fault_outcome origin name). Qed.

Lemma declares_name p name d : declares p name d → rm_name (dm_member d) = name.
Proof. intros (c & Ec & Ed). pose proof (direct_member_spec p c name Ec) as Hd. rewrite Ed in Hd. by destruct Hd as (_ & ? & _). Qed.

Lemma selected_name level name m : selected level name [m] → rm_name m = name.
Proof.
  intros Hs. assert (m ∈ [m]) as (d & [(p & _ & Hd) _] & Em)%(selected_elem _ _ _ Hs) by by left.
  pose proof (complete_member_spec d) as Hc. rewrite Em in Hc. destruct Hc as [_ ->]. by eapply declares_name.
Qed.

Section levels.
Context (origin : QName) (name : Name) (levels : list (list QName)).
Hypothesis levels_ok : levels_of graph origin levels.
Hypothesis levels_classes : ∀ p, p ∈ concat levels → is_Some (class_at graph p).
Hypothesis levels_all : ∀ p, rtc (generalizes graph) origin p → p ∈ concat levels.

(** All classes nearer than a distance say nothing of the name. *)
Definition searched (k : nat) : Prop :=
  ∀ j level p, j < k → levels !! j = Some level → p ∈ level → silent p name ∧ ¬ has_gap p.

Lemma distance_level n p : distance graph origin n p → ∃ level, levels !! n = Some level ∧ p ∈ level.
Proof.
  intros [Hn Hmin]. assert (p ∈ concat levels) as (j & level & Hl & Hp)%concat_elem by (eapply levels_all, rtc_nsteps_2, Hn).
  pose proof (levels_exact _ _ _ levels_ok j level Hl) as (_ & _ & Hd). apply Hd in Hp as Hp'. destruct Hp' as [Hj Hjm].
  destruct (lt_eq_lt_dec j n) as [[Hlt| ->]|Hgt]; [by destruct (Hmin j)|by exists level|by destruct (Hjm n)].
Qed.

Lemma nearest_level k level ms :
  levels !! k = Some level → searched k → (∀ p, p ∈ level → ¬ has_gap p) →
  selected (λ p, p ∈ level) name ms → nearest origin name k ms.
Proof.
  intros Hk Hs Hg Hsel. pose proof (levels_exact _ _ _ levels_ok k level Hk) as (_ & _ & Hd). split.
  - exact (selected_iff _ _ name ms Hd Hsel).
  - intros j p Hj (l & Hl & Hp)%distance_level. destruct (decide (j = k)) as [->|]; [|by apply (Hs j l p ltac:(lia) Hl Hp)].
    rewrite Hk in Hl. injection Hl as <-. by apply Hg.
  - intros j p Hj (l & Hl & Hp)%distance_level. by apply (Hs j l p Hj Hl Hp).
Qed.

Lemma search_levels_spec rest k :
  drop k levels = rest → searched k →
  ∃ r, search_levels graph name rest = Some r ∧ member_outcome origin name r.
Proof.
  revert k. induction rest as [|level rest IH]; intros k Hk Hs; cbn [search_levels].
  { eexists. split; [done|]. right. intros p (j & l & Hl & Hp)%levels_all%concat_elem. apply (Hs j l p); [|done..].
    apply lookup_lt_Some in Hl. apply (f_equal length) in Hk. rewrite length_drop in Hk. simpl in Hk. lia. }
  assert (levels !! k = Some level) as Hlk.
  { replace k with (k + 0) by lia. by rewrite <-lookup_drop, Hk. }
  pose proof (levels_exact _ _ _ levels_ok k level Hlk) as (_ & Hsorted & Hd).
  assert (∀ p, p ∈ level → p ∈ concat levels) as Hall by (intros p Hp; apply concat_elem; by exists k, level).
  assert (Forall (λ p, is_Some (class_at graph p)) level) as Hc.
  { apply Forall_forall. intros p Hp. by apply levels_classes, Hall. }
  pose proof (level_candidates_spec name level [] None Hc) as Hspec.
  destruct (level_candidates graph name [] None level) as [[ds [reason|]]|f]; cbn [walk_resolve].
  - eexists. split; [done|]. destruct Hspec as [Hno|(p & Hp & -> & Hg)]; [done|]. split; [|done].
    apply Hd in Hp as [Hp _]. by eapply rtc_nsteps_2.
  - destruct Hspec as (_ & Hg & Hsil & Hin & Hsub). assert (∀ d, d ∈ ds ↔ ∃ p, p ∈ level ∧ declares p name d) as Hds.
    { intros d. rewrite Hin, elem_of_nil. naive_solver. }
    pose proof (best_priority_spec ds) as Hb. destruct (best_priority ds) as [best|] eqn:Eb.
    + destruct (choose_spec level name ds best Hds Hsub (key_lt_nodup level Hsorted) Eb) as (r & -> & Hr).
      exists r. split; [done|]. destruct r as [m| |reason|ms|cycle].
      * split; [by eapply selected_name|]. exists k. by eapply nearest_level.
      * done.
      * destruct Hr as (fault & Er & Hf). by eapply reason_outcome.
      * destruct Hr as [Hlen Hsel]. split; [done|]. exists k. by eapply nearest_level.
      * destruct Hr as (fault & Er & Hf). by eapply reason_outcome.
    + subst ds. apply (IH (S k)).
      * rewrite (drop_S _ _ _ Hlk) in Hk. by injection Hk as Hk.
      * intros j l p Hj Hl Hp. destruct (decide (j = k)) as [->|]; [|apply (Hs j l p); [lia|done..]].
        rewrite Hlk in Hl. injection Hl as <-. split; [|by apply Hg]. destruct (Hsil p Hp) as [?|[d Hdecl]]; [done|].
        exfalso. assert (d ∈ @nil (DirectMember R)) as Hno by (apply Hds; by exists p). by apply elem_of_nil in Hno.
  - eexists. split; [done|]. by apply fault_outcome.
Qed.
End levels.

Lemma member_nearest origin name :
  ∃ r, resolve_member graph origin name = Some r ∧ member_outcome origin name r.
Proof.
  unfold resolve_member. destruct (class_at graph origin) as [c|] eqn:Ec; [|eexists; split; [done|by left]].
  destruct (coverage_gap c) eqn:Eg.
  { eexists. split; [done|]. split; [constructor|]. by exists c. }
  assert (¬ has_gap origin) as Hgap by (intros (c' & E & Hc'); rewrite Ec in E; injection E as <-; congruence).
  assert (∀ p, distance graph origin 0 p ↔ p = origin) as Hd0.
  { intros p. split; [by intros [Hp _]; inversion Hp|]. intros ->. split; [constructor|lia]. }
  pose proof (direct_member_spec origin c name Ec) as Hd.
  destruct (direct_member graph origin c name) as [[d|]|f] eqn:Ed; cbn [walk_resolve].
  - pose proof (complete_member_spec d) as Hc. destruct (complete_member graph d) as [[m|f]|] eqn:Em; cbn [walk_resolve]; [| |done].
    2:{ eexists. split; [done|]. by apply fault_outcome. }
    eexists. split; [done|]. destruct Hd as (Ho & Hn & Hdecl). destruct Hc as [Hmo Hmn].
    assert (∀ d', preferred (distance graph origin 0) name d' ↔ d' = d) as Hpref.
    { intros d'. split.
      - intros [(p & ->%Hd0 & c' & E & Ed') _]. rewrite Ec in E. injection E as <-. rewrite Ed in Ed'. by injection Ed'.
      - intros ->. split; [exists origin; by rewrite Hd0|]. intros p d' ->%Hd0 (c' & E & Ed'). rewrite Ec in E. injection E as <-.
        rewrite Ed in Ed'. by injection Ed' as <-. }
    split; [by rewrite Hmn|]. exists 0. split.
    + split; [|by intros d' ->%Hpref; exists m|apply NoDup_singleton|repeat constructor].
      intros m'. rewrite list_elem_of_singleton. setoid_rewrite Hpref. split; [by intros ->; exists d|].
      intros (d' & -> & E). rewrite Em in E. by injection E.
    + intros k p Hk. replace k with 0 by lia. by intros ->%Hd0.
    + lia.
  - pose proof (levels_total graph origin) as Hl. destruct (hierarchy_levels graph origin) as [[levels|f]|]; cbn [walk_resolve]; [| |done].
    2:{ eexists. split; [done|]. apply fault_outcome. left. eexists. by apply validate_hierarchy_err. }
    destruct Hl as (Hset & Hlv & Hall & Hhead). apply (search_levels_spec origin name levels Hlv) with (k := 1); [|done|done|].
    + intros p (n & level & Hn & Hp)%concat_elem. pose proof (levels_exact _ _ _ Hlv n level Hn) as (_ & _ & Hdist).
      apply Hdist in Hp as [Hp _]. by eapply (reachable_class graph origin Hset).
    + intros j level p Hj Hl Hp. assert (j = 0) as -> by lia. destruct levels as [|l0 levels]; [done|].
      injection Hl as <-. injection Hhead as ->. apply list_elem_of_singleton in Hp as ->. done.
  - eexists. split; [done|]. by apply fault_outcome.
Qed.

(** C16. [resolve_member] always answers.  What it finds is declared by a nearest
    class that declares the name, and is the preferred declaration there; several
    equally preferred ones are all given.  It says that there is no such member
    only when no class of the hierarchy declares one or could declare one in a
    part that is not read, and otherwise names what is not known. *)
Theorem resolve_member_nearest origin name :
  ∃ r, resolve_member graph origin name = Some r ∧ member_outcome origin name r.
Proof. apply member_nearest. Qed.

(** C28. A validated hierarchy is in the graph and ends, hence has no cycle; one that
    is refused has the fault that is reported; and a hierarchy that is in the
    graph and ends within the depth limit is never refused. *)
Theorem hierarchy_validated origin :
  match validate_hierarchy graph origin with
  | Ok _ => settled graph origin ∧ ∀ p, rtc (generalizes graph) origin p → ¬ tc (generalizes graph) p p
  | Err fault => real_fault graph origin fault ∧ ¬ settled_within graph MAX_GENERALIZATION_DEPTH origin
  end.
Proof.
  destruct (validate_hierarchy graph origin) as [[]|fault] eqn:E.
  - apply validate_hierarchy_ok in E. split; [done|]. intros p Hp. apply settled_acyclic. by eapply settled_rtc.
  - split; [by apply validate_hierarchy_err|]. intros Hw. unfold validate_hierarchy in E.
    destruct (validate_node_complete graph MAX_GENERALIZATION_DEPTH [] origin []) as [v Ev]; [done..|].
    by rewrite Ev in E.
Qed.

(** The levels of a class are its generalizations by their distance, each level
    in the order of the paths, each class once; the walk never runs out of
    rounds. *)
Theorem levels_are_distances origin :
  match hierarchy_levels graph origin with
  | None => False
  | Some (Err fault) => real_fault graph origin fault
  | Some (Ok levels) => levels_of graph origin levels ∧ head levels = Some [origin] ∧
      ∀ p, p ∈ concat levels ↔ rtc (generalizes graph) origin p
  end.
Proof.
  pose proof (levels_total graph origin) as Hl. destruct (hierarchy_levels graph origin) as [[levels|f]|]; [| |done].
  - destruct Hl as (_ & Hlv & Hall & Hh). split_and!; [done..|]. intros p. split; [|apply Hall].
    intros (n & level & Hn & Hp)%concat_elem. pose proof (levels_exact _ _ _ Hlv n level Hn) as (_ & _ & Hd).
    apply Hd in Hp as [Hp _]. by eapply rtc_nsteps_2.
  - by apply validate_hierarchy_err.
Qed.
End members.

(** ** The depth limit *)

(** A class with two ways up to a chain of 250 classes: a short one, and one by
    ten classes in between. *)
Definition rung (path : QName) (supers : list QName) : QName * ClassInfo () :=
  (path, ClassInfo_new path supers None [] [] 0).

Definition step_name (prefix : string) (n : nat) : QName := txt (format [prefix; decimal (N.of_nat n)]).

Definition ladder (short : string) : ModelGraph () :=
  let long := (λ n, rung (step_name "long" n) [if n =? 9 then step_name "top" 0 else step_name "long" (S n)]) <$> seq 0 10 in
  let top := (λ n, rung (step_name "top" n) (if n =? 249 then [] else [step_name "top" (S n)])) <$> seq 0 250 in
  let all := rung (txt "origin") [txt short; step_name "long" 0] :: rung (txt short) [step_name "top" 0] :: long ++ top in
  let classes := foldl (λ m c, bt_insert m c.1 c.2) [] all in
  {| classes := classes; by_path := imap (λ n c, (c.1, n)) classes; paths_by_id := classes.*1;
     associations := []; sources := []; graph_diagnostics := [] |}.

(** Whether a hierarchy is refused for its depth depends on the names: the walk
    takes the supertypes in the order of their paths, and a class that a short
    way has reached is not walked again by a long one. *)
Theorem depth_limit_by_names :
  validate_hierarchy (ladder "a") (txt "origin") = Ok () ∧
  validate_hierarchy (ladder "z") (txt "origin")
    = Err (FaultUnderResolved (GeneralizationDepth (step_name "top" 245) MAX_GENERALIZATION_DEPTH)).
Proof. split; vm_compute; reflexivity. Qed.
