(* ===== verification/Navigation.v ===== *)
(** * Local navigation

    [pure-analyzer-resolve/src/local.rs]: the values of a query that the analyzer
    knows the type of, the scopes that bind them, and the chains of properties
    that are read off them.  A scope is a frame that is pushed when it opens and
    popped when it drops. *)

From S2P Require Import Prelude Utf8 BTree StableSort StrOps Codes FixPlan Model Resolver.

(** ** Values *)

Section values.
Context {R : Type}.

Inductive UnknownValue :=
| HigherOrder
| UnmodeledType (type : TypeRef)
| UnknownModel (reason : UnderResolution).

Abbreviation RelationColumnId := nat.

Record RelationColumn := {
  column_id : RelationColumnId;
  column_name : Name;
  column_type : TypeRef;
  column_multiplicity : Multiplicity;
  column_span : R;
}.

Inductive RelationRowError :=
| DuplicateColumnId (id : RelationColumnId)
| DuplicateColumnName (name : Name).

Record RelationRow := { row_columns : list RelationColumn }.

Inductive LocalValueKind :=
| ClassValue (class : ResolvedClass R)
| Scalar (type : TypeRef)
| RowValue (row : RelationRow)
| Unknown (value : UnknownValue).

Record LocalValue := { value_kind : LocalValueKind; value_multiplicity : Multiplicity }.

(** [LocalValue::class], [scalar], [relation_row] and [unknown]. *)
Definition class_value (class : ResolvedClass R) (m : Multiplicity) : LocalValue :=
  {| value_kind := ClassValue class; value_multiplicity := m |}.
Definition scalar_value (type : TypeRef) (m : Multiplicity) : LocalValue :=
  {| value_kind := Scalar type; value_multiplicity := m |}.
Definition row_value (row : RelationRow) (m : Multiplicity) : LocalValue :=
  {| value_kind := RowValue row; value_multiplicity := m |}.
Definition unknown_value (value : UnknownValue) (m : Multiplicity) : LocalValue :=
  {| value_kind := Unknown value; value_multiplicity := m |}.

(** [RelationRow::new]: its loop over the columns, with the sets of the ids and
    the names before. *)
Fixpoint check_columns (ids : list (nat * unit)) (names : list (Name * unit)) (columns : list RelationColumn)
  : Result unit RelationRowError :=
  match columns with
  | [] => Ok ()
  | column :: columns =>
      match bt_get ids (column_id column) with
      | Some _ => Err (DuplicateColumnId (column_id column))
      | None => match bt_get names (column_name column) with
        | Some _ => Err (DuplicateColumnName (column_name column))
        | None =>
            check_columns (bt_insert ids (column_id column) ()) (bt_insert names (column_name column) ()) columns
        end
      end
  end.

Definition RelationRow_new (columns : list RelationColumn) : Result RelationRow RelationRowError :=
  let? _ := check_columns [] [] columns in Ok {| row_columns := columns |}.

(** [RelationRow::column]. *)
Definition row_column (row : RelationRow) (name : Name) : option RelationColumn :=
  List.find (λ c, text_eqb (column_name c) name) (row_columns row).

(** ** Scopes *)

Record TypeEnvironment := {
  env_root : list (Name * LocalValue);
  env_frames : list (list (Name * LocalValue));
}.

(** [TypeEnvironment::new], [bind], [lookup] and [scope], and the drop of a
    [TypeScope]. *)
Definition TypeEnvironment_new : TypeEnvironment := {| env_root := []; env_frames := [] |}.

Definition bind (env : TypeEnvironment) (name : Name) (value : LocalValue) : option LocalValue * TypeEnvironment :=
  match last (env_frames env) with
  | Some frame =>
      (bt_get frame name,
       {| env_root := env_root env;
          env_frames := take (length (env_frames env) - 1) (env_frames env) ++ [bt_insert frame name value] |})
  | None =>
      (bt_get (env_root env) name,
       {| env_root := bt_insert (env_root env) name value; env_frames := env_frames env |})
  end.

Fixpoint find_frame (frames : list (list (Name * LocalValue))) (name : Name) : option LocalValue :=
  match frames with
  | [] => None
  | frame :: frames => match bt_get frame name with Some v => Some v | None => find_frame frames name end
  end.

Definition lookup (env : TypeEnvironment) (name : Name) : option LocalValue :=
  match find_frame (reverse (env_frames env)) name with
  | Some v => Some v
  | None => bt_get (env_root env) name
  end.

Definition scope (env : TypeEnvironment) : TypeEnvironment :=
  {| env_root := env_root env; env_frames := env_frames env ++ [[]] |}.

Definition drop_scope (env : TypeEnvironment) : TypeEnvironment :=
  {| env_root := env_root env; env_frames := take (length (env_frames env) - 1) (env_frames env) |}.

(** ** Chains *)

Record NavigationStep := { step_name : Name; argument_count : nat }.

(** [NavigationStep::property] and [call]. *)
Definition property_step (name : Name) : NavigationStep := {| step_name := name; argument_count := 0 |}.
Definition call_step (name : Name) (count : nat) : NavigationStep := {| step_name := name; argument_count := count |}.

Inductive NavigationTarget :=
| Member (member : ResolvedMember R)
| ColumnTarget (column : RelationColumn).

(** [NavigationTarget::definition]. *)
Definition target_definition (t : NavigationTarget) : option (DefinitionAnchor R) :=
  match t with Member member => Some (rm_definition member) | ColumnTarget _ => None end.

Record NavigationHop := { hop_step : NavigationStep; hop_target : NavigationTarget; hop_value : LocalValue }.

Record NavigationChain := {
  chain_source : LocalValue;
  chain_value : LocalValue;
  chain_hops : list NavigationHop;
}.

Definition chain_new (source : LocalValue) : NavigationChain :=
  {| chain_source := source; chain_value := source; chain_hops := [] |}.

(** [NavigationChain::push]. *)
Definition chain_push (c : NavigationChain) (step : NavigationStep) (target : NavigationTarget) (value : LocalValue)
  : NavigationChain :=
  {| chain_source := chain_source c; chain_value := value;
     chain_hops := chain_hops c ++ [{| hop_step := step; hop_target := target; hop_value := value |}] |}.

Record NavigationFailure := { completed : NavigationChain; failed_step : NavigationStep }.

Inductive NavigationReason :=
| UnknownSource (value : UnknownValue)
| ScalarSource (type : TypeRef)
| ModelReason (reason : UnderResolution)
| TemporalArity (member : ResolvedMember R)
| QualifiedSignature (member : ResolvedMember R).

Inductive NavigationUnderResolution :=
| UnboundVariable (name : Name)
| AtStep (failure : NavigationFailure) (reason : NavigationReason).

Inductive NavigationResolution :=
| NavFound (chain : NavigationChain)
| NavMissing (failure : NavigationFailure)
| NavUnderResolved (under : NavigationUnderResolution)
| NavAmbiguous (failure : NavigationFailure) (candidates : list (ResolvedMember R))
| NavCycle (failure : NavigationFailure) (cycle : list QName)
| NavWrongArity (failure : NavigationFailure) (expected actual : nat) (generated_milestoned : bool)
    (definition : option (DefinitionAnchor R)).

Inductive StepResolution :=
| StepFound (target : NavigationTarget) (value : LocalValue)
| StepMissing
| StepUnderResolved (reason : NavigationReason)
| StepAmbiguous (candidates : list (ResolvedMember R))
| StepCycle (cycle : list QName)
| StepWrongArity (expected : nat) (generated_milestoned : bool) (definition : option (DefinitionAnchor R)).

Definition is_intrinsic_scalar (path : QName) : bool :=
  existsb (λ s, text_eqb path (txt s))
    ["Any"; "Boolean"; "Date"; "DateTime"; "Decimal"; "Float"; "Integer"; "LatestDate"; "Number";
     "StrictDate"; "String"].

Definition RANGE_CONTEXT_ARGUMENTS : nat := 2.

(** [expected_argument_count]. *)
Definition expected_argument_count (member : ResolvedMember R) : Result nat NavigationReason :=
  match rm_kind member with
  | Property | AssociationEnd _ => Ok 0
  | Qualified UserQualified =>
      match rm_signature member with Some types => Ok (length types) | None => Err (QualifiedSignature member) end
  | Qualified AllVersions => Ok 0
  | Qualified AllVersionsInRange => Ok RANGE_CONTEXT_ARGUMENTS
  | Qualified MilestonedPoint =>
      match rm_target_temporal_arity member with Some n => Ok n | None => Err (TemporalArity member) end
  end.

(** ** The navigation resolver *)

Context (graph : ModelGraph R).

Definition class_all (class : QName) : Resolution LocalValue :=
  match resolve_class graph class with
  | Found class => Found (class_value class zero_or_more)
  | Missing => Missing
  | UnderResolved reason => UnderResolved reason
  | Ambiguous classes => Ambiguous ((λ class, class_value class zero_or_more) <$> classes)
  | Cycle cycle => Cycle cycle
  end.

Definition infer_target (target : TypeRef) (multiplicity : Multiplicity) : LocalValue :=
  match resolve_class graph (raw_type target) with
  | Found class => class_value class multiplicity
  | Missing =>
      if is_intrinsic_scalar (raw_type target) then scalar_value target multiplicity
      else unknown_value (UnmodeledType target) multiplicity
  | UnderResolved reason => unknown_value (UnknownModel reason) multiplicity
  | Ambiguous _ | Cycle _ => unknown_value (UnmodeledType target) multiplicity
  end.

Definition resolve_found_member (member : ResolvedMember R) (step : NavigationStep) : StepResolution :=
  match expected_argument_count member with
  | Err reason => StepUnderResolved reason
  | Ok expected =>
      if argument_count step =? expected
      then StepFound (Member member) (infer_target (rm_target member) (rm_multiplicity member))
      else StepWrongArity expected
             match rm_kind member with Qualified MilestonedPoint => true | _ => false end
             (Some (rm_definition member))
  end.

(** [resolve_member_step], [None] when the member is not found in the fuel. *)
Definition resolve_member_step (class : ResolvedClass R) (step : NavigationStep) : option StepResolution :=
  match resolve_member graph (rcl_path class) (step_name step) with
  | None => None
  | Some (Found member) => Some (resolve_found_member member step)
  | Some Missing => Some StepMissing
  | Some (UnderResolved reason) => Some (StepUnderResolved (ModelReason reason))
  | Some (Ambiguous candidates) => Some (StepAmbiguous candidates)
  | Some (Cycle cycle) => Some (StepCycle cycle)
  end.

Definition resolve_relation_column (row : RelationRow) (step : NavigationStep) : StepResolution :=
  if argument_count step =? 0
  then match row_column row (step_name step) with
    | Some column => StepFound (ColumnTarget column) (infer_target (column_type column) (column_multiplicity column))
    | None => StepMissing
    end
  else StepWrongArity 0 false None.

Definition resolve_step (source : LocalValue) (step : NavigationStep) : option StepResolution :=
  match value_kind source with
  | ClassValue class => resolve_member_step class step
  | RowValue row => Some (resolve_relation_column row step)
  | Scalar type => Some (StepUnderResolved (ScalarSource type))
  | Unknown value => Some (StepUnderResolved (UnknownSource value))
  end.

(** [resolve]: its loop over the steps. *)
Fixpoint resolve_from (chain : NavigationChain) (steps : list NavigationStep) : option NavigationResolution :=
  match steps with
  | [] => Some (NavFound chain)
  | step :: steps =>
      let failure := {| completed := chain; failed_step := step |} in
      match resolve_step (chain_value chain) step with
      | None => None
      | Some (StepFound target value) => resolve_from (chain_push chain step target value) steps
      | Some StepMissing => Some (NavMissing failure)
      | Some (StepUnderResolved reason) => Some (NavUnderResolved (AtStep failure reason))
      | Some (StepAmbiguous candidates) => Some (NavAmbiguous failure candidates)
      | Some (StepCycle cycle) => Some (NavCycle failure cycle)
      | Some (StepWrongArity expected generated definition) =>
          Some (NavWrongArity failure expected (argument_count step) generated definition)
      end
  end.

Definition resolve (source : LocalValue) (steps : list NavigationStep) : option NavigationResolution :=
  resolve_from (chain_new source) steps.

Definition resolve_variable (env : TypeEnvironment) (name : Name) (steps : list NavigationStep)
  : option NavigationResolution :=
  match lookup env name with
  | None => Some (NavUnderResolved (UnboundVariable name))
  | Some value => resolve value steps
  end.
End values.
Arguments RelationColumn : clear implicits.
Arguments RelationRow : clear implicits.
Arguments LocalValue : clear implicits.
Arguments TypeEnvironment : clear implicits.
Arguments NavigationChain : clear implicits.
Arguments NavigationResolution : clear implicits.
