(* ===== verification/NavigationProps.v ===== *)
(** * Properties of local navigation

    A scope leaves the environment as it was; the columns of a row are told apart
    by name and id; and a chain is read step by step, each step by the nearest
    member of the class that the step before gives. *)

From stdpp Require Import relations.
From S2P Require Import Prelude Utf8 BTree StableSort StrOps Codes FixPlan Model Resolver ResolverProps Navigation.

Section navigation.
Context {R : Type}.

(** ** Scopes *)

(** What a program does with an environment: it binds names, and opens scopes,
    inside which it does the same. *)
Inductive runs : TypeEnvironment R → TypeEnvironment R → Prop :=
| runs_end env : runs env env
| runs_bind env name value env' : runs (bind env name value).2 env' → runs env env'
| runs_scope env inner env' : runs (scope env) inner → runs (drop_scope inner) env' → runs env env'.

Record env_ok (env : TypeEnvironment R) : Prop := {
  root_sorted : bt_sorted (env_root env);
  frames_sorted : Forall bt_sorted (env_frames env);
}.

Lemma drop_scope_frames (env : TypeEnvironment R) root frames frame :
  env_root env = root → env_frames env = frames ++ [frame] →
  drop_scope env = {| env_root := root; env_frames := frames |}.
Proof.
  intros Hr Hf. unfold drop_scope. rewrite Hr, Hf, length_app. simpl. by rewrite Nat.add_sub, take_app_length.
Qed.

(** Inside a scope, what is outside stays. *)
Lemma runs_inside (env env' : TypeEnvironment R) root frames frame :
  runs env env' → env_root env = root → env_frames env = frames ++ [frame] →
  env_root env' = root ∧ ∃ frame', env_frames env' = frames ++ [frame'].
Proof.
  intros Hrun. revert root frames frame. induction Hrun as [env|env n v env' Hrun IH|env inner env' H1 IH1 H2 IH2]; intros root frames frame Hr Hf.
  - split; [done|by exists frame].
  - unfold bind in IH. rewrite Hf, last_snoc in IH. simpl in IH. eapply IH; [done|].
    rewrite length_app. simpl. by rewrite Nat.add_sub, take_app_length.
  - destruct (IH1 root (frames ++ [frame]) []) as [Hr' [frame' Hf']]; [done|simpl; by rewrite Hf|].
    eapply (IH2 root frames frame); rewrite (drop_scope_frames _ _ _ _ Hr' Hf'); done.
Qed.

Lemma scope_restored (env inner : TypeEnvironment R) : runs (scope env) inner → drop_scope inner = env.
Proof.
  intros Hrun. destruct (runs_inside _ _ (env_root env) (env_frames env) [] Hrun) as [Hr [f Hf]]; [done..|].
  rewrite (drop_scope_frames _ _ _ _ Hr Hf). by destruct env.
Qed.

Lemma bind_ok (env : TypeEnvironment R) n v : env_ok env → env_ok (bind env n v).2.
Proof.
  intros [Hr Hf]. unfold bind. destruct (last (env_frames env)) as [frame|] eqn:El; simpl; split; simpl; try done.
  - apply Forall_app. split; [by apply Forall_take|]. constructor; [|done]. apply bt_insert_sorted.
    rewrite Forall_forall in Hf. apply Hf. apply last_Some in El as [l ->]. apply elem_of_app. right. by left.
  - by apply bt_insert_sorted.
Qed.

Lemma runs_ok (env env' : TypeEnvironment R) : runs env env' → env_ok env → env_ok env'.
Proof.
  induction 1 as [|env n v env' H IH|env inner env' H1 IH1 H2 IH2]; [done| |].
  - intros Hok. by apply IH, bind_ok.
  - intros Hok. apply IH2. by rewrite (scope_restored _ _ H1).
Qed.

Lemma lookup_bind (env : TypeEnvironment R) n v n' : env_ok env →
  lookup (bind env n v).2 n' = if decide (n' = n) then Some v else lookup env n'.
Proof.
  intros [Hr Hf]. unfold bind, lookup. destruct (last (env_frames env)) as [frame|] eqn:El; simpl.
  - apply last_Some in El as [l El]. rewrite El, length_app in *. simpl. rewrite Nat.add_sub, take_app_length, !reverse_snoc. simpl.
    rewrite Forall_app, Forall_singleton in Hf. destruct Hf as [_ Hf].
    rewrite bt_lookup_insert by done.
    by destruct (decide (n' = n)).
  - apply last_None in El. rewrite El. simpl. rewrite bt_lookup_insert by done. by destruct (decide (n' = n)).
Qed.

(** Bindings are lexical: a binding is seen until its scope drops, before those
    of the same name outside; a scope begins with what is visible outside, and
    when it drops, whatever was bound inside, the environment is as it was. *)
Theorem scopes_are_lexical :
  (∀ env inner : TypeEnvironment R, runs (scope env) inner → drop_scope inner = env) ∧
  (∀ (env : TypeEnvironment R) name, lookup (scope env) name = lookup env name) ∧
  (∀ (env : TypeEnvironment R) name value name', runs TypeEnvironment_new env →
    lookup (bind env name value).2 name' = if decide (name' = name) then Some value else lookup env name').
Proof.
  split_and!.
  - apply scope_restored.
  - intros env name. unfold lookup, scope. simpl. by rewrite reverse_snoc.
  - intros env name value name' Hrun. apply lookup_bind. eapply runs_ok; [exact Hrun|]. split; [apply bt_nil_sorted|constructor].
Qed.

(** ** Rows *)

Lemma check_columns_spec (ids : list (nat * unit)) (names : list (Name * unit)) (columns : list (RelationColumn R)) :
  bt_sorted ids → bt_sorted names →
  match check_columns ids names columns with
  | Ok _ => NoDup (column_id <$> columns) ∧ NoDup (column_name <$> columns) ∧
      (∀ c, c ∈ columns → bt_get ids (column_id c) = None ∧ bt_get names (column_name c) = None)
  | Err (DuplicateColumnId i) => ∃ l c r, columns = l ++ c :: r ∧ column_id c = i ∧ (is_Some (bt_get ids i) ∨ i ∈ column_id <$> l)
  | Err (DuplicateColumnName n) => ∃ l c r, columns = l ++ c :: r ∧ column_name c = n ∧ (is_Some (bt_get names n) ∨ n ∈ column_name <$> l)
  end.
Proof.
  revert ids names. induction columns as [|c columns IH]; intros ids names Hi Hn; cbn [check_columns].
  { split_and!; [constructor..|]. intros c. set_solver. }
  destruct (bt_get ids (column_id c)) as [u|] eqn:Ei; [exists [], c, columns; by rewrite Ei; split_and!; [..|left]|].
  destruct (bt_get names (column_name c)) as [u|] eqn:En; [exists [], c, columns; by rewrite En; split_and!; [..|left]|].
  specialize (IH (bt_insert ids (column_id c) ()) (bt_insert names (column_name c) ())).
  assert (∀ x, is_Some (bt_get (bt_insert ids (column_id c) ()) x) → x = column_id c ∨ is_Some (bt_get ids x)) as Hiv.
  { intros x. rewrite bt_lookup_insert by done. destruct (decide _); [by left|by right]. }
  assert (∀ x, is_Some (bt_get (bt_insert names (column_name c) ()) x) → x = column_name c ∨ is_Some (bt_get names x)) as Hnv.
  { intros x. rewrite bt_lookup_insert by done. destruct (decide _); [by left|by right]. }
  destruct (check_columns _ _ columns) as [u|[i|n]].
  - destruct IH as (Hid & Hnd & Hc); [by apply bt_insert_sorted..|].
    split_and!; [constructor; [|done]..|].
    + intros (c' & Ec & [Hc1 _]%Hc)%list_elem_of_fmap. rewrite <-Ec, bt_lookup_insert_eq in Hc1 by done. done.
    + intros (c' & Ec & [_ Hc1]%Hc)%list_elem_of_fmap. rewrite <-Ec, bt_lookup_insert_eq in Hc1 by done. done.
    + intros c' [->|Hc']%elem_of_cons; [done|]. destruct (Hc c' Hc') as [H1 H2]. rewrite bt_lookup_insert in H1 by done; rewrite bt_lookup_insert in H2 by done.
      by destruct (decide _), (decide _).
  - destruct IH as (l & x & r & -> & Hx & Hd); [by apply bt_insert_sorted..|]. exists (c :: l), x, r. split_and!; [done..|].
    rewrite fmap_cons, elem_of_cons. destruct Hd as [[?|?]%Hiv|?]; tauto.
  - destruct IH as (l & x & r & -> & Hx & Hd); [by apply bt_insert_sorted..|]. exists (c :: l), x, r. split_and!; [done..|].
    rewrite fmap_cons, elem_of_cons. destruct Hd as [[?|?]%Hnv|?]; tauto.
Qed.

Lemma dup_not_nodup {A B} (f : A → B) l c r : f c ∈ f <$> l → ¬ NoDup (f <$> (l ++ c :: r)).
Proof.
  rewrite fmap_app. intros Hin Hnd. apply NoDup_app in Hnd as (_ & Hd & _). apply (Hd (f c) Hin). rewrite fmap_cons. by left.
Qed.

Lemma find_column (columns : list (RelationColumn R)) c :
  NoDup (column_name <$> columns) → c ∈ columns →
  List.find (λ x, text_eqb (column_name x) (column_name c)) columns = Some c.
Proof.
  induction columns as [|x columns IH]; [by intros _ ?%elem_of_nil|].
  rewrite fmap_cons. intros [Hx Hnd]%NoDup_cons Hin. simpl. unfold text_eqb at 1. case_bool_decide as E.
  - apply elem_of_cons in Hin as [->|Hin]; [done|]. destruct Hx. rewrite E. by apply list_elem_of_fmap_2.
  - apply elem_of_cons in Hin as [->|Hin]; [done|]. by apply IH.
Qed.

(** A row is made exactly of columns with distinct ids and distinct names, in
    their order, and each column is then found by its name. *)
Theorem rows_have_distinct_columns (columns : list (RelationColumn R)) :
  match RelationRow_new columns with
  | Ok row => row_columns row = columns ∧ NoDup (column_id <$> columns) ∧
      NoDup (column_name <$> columns) ∧ ∀ c, c ∈ columns → row_column row (column_name c) = Some c
  | Err (DuplicateColumnId i) => i ∈ column_id <$> columns ∧ ¬ NoDup (column_id <$> columns)
  | Err (DuplicateColumnName n) => n ∈ column_name <$> columns ∧ ¬ NoDup (column_name <$> columns)
  end.
Proof.
  unfold RelationRow_new. pose proof (check_columns_spec [] [] columns bt_nil_sorted bt_nil_sorted) as Hc.
  destruct (check_columns [] [] columns) as [u|[i|n]]; cbn [res_bind].
  - destruct Hc as (Hi & Hn & _). split_and!; [done..|]. intros c Hc. by apply find_column.
  - destruct Hc as (l & c & r & -> & <- & [[? Hno]|Hin]); [discriminate Hno|]. split; [|by apply dup_not_nodup].
    apply list_elem_of_fmap_2, elem_of_app. right. by left.
  - destruct Hc as (l & c & r & -> & <- & [[? Hno]|Hin]); [discriminate Hno|]. split; [|by apply dup_not_nodup].
    apply list_elem_of_fmap_2, elem_of_app. right. by left.
Qed.

(** ** Chains *)

Context (graph : ModelGraph R).

(** What one step from a value must answer. *)
Definition step_ok (source : LocalValue R) (step : NavigationStep) (r : StepResolution) : Prop :=
  match value_kind source with
  | ClassValue class =>
      let found m := rm_name m = step_name step ∧ ∃ n, nearest graph (rcl_path class) (step_name step) n [m] in
      match r with
      | StepFound (Member m) value => found m ∧ expected_argument_count m = Ok (argument_count step) ∧
          value = infer_target graph (rm_target m) (rm_multiplicity m)
      | StepFound (ColumnTarget _) _ => False
      | StepMissing => member_outcome graph (rcl_path class) (step_name step) Missing
      | StepAmbiguous ms => member_outcome graph (rcl_path class) (step_name step) (Ambiguous ms)
      | StepCycle cycle => member_outcome graph (rcl_path class) (step_name step) (Cycle cycle)
      | StepWrongArity expected generated definition => argument_count step ≠ expected ∧
          ∃ m, found m ∧ expected_argument_count m = Ok expected ∧ definition = Some (rm_definition m) ∧
            (generated = true ↔ rm_kind m = Qualified MilestonedPoint)
      | StepUnderResolved (ModelReason reason) =>
          member_outcome graph (rcl_path class) (step_name step) (UnderResolved reason)
      | StepUnderResolved (TemporalArity m) => found m ∧ rm_target_temporal_arity m = None ∧
          rm_kind m = Qualified MilestonedPoint
      | StepUnderResolved (QualifiedSignature m) => found m ∧ rm_signature m = None ∧
          rm_kind m = Qualified UserQualified
      | StepUnderResolved _ => False
      end
  | RowValue row =>
      match r with
      | StepFound (ColumnTarget c) value => row_column row (step_name step) = Some c ∧ argument_count step = 0 ∧
          value = infer_target graph (column_type c) (column_multiplicity c)
      | StepMissing => argument_count step = 0 ∧ step_name step ∉ column_name <$> row_columns row
      | StepWrongArity expected generated definition => argument_count step ≠ expected ∧ expected = 0 ∧
          generated = false ∧ definition = None
      | _ => False
      end
  | Scalar type => r = StepUnderResolved (ScalarSource type)
  | Unknown value => r = StepUnderResolved (UnknownSource value)
  end.

Lemma row_column_None (row : RelationRow R) name : row_column row name = None → name ∉ column_name <$> row_columns row.
Proof.
  intros Hf (c & -> & Hc)%list_elem_of_fmap.
  assert (text_eqb (column_name c) (column_name c) = false) as Hno by (apply (List.find_none _ _ Hf), list_elem_of_In, Hc).
  unfold text_eqb in Hno. by rewrite bool_decide_eq_false in Hno.
Qed.

Lemma found_member_ok (class : ResolvedClass R) m source step :
  value_kind source = ClassValue class →
  member_outcome graph (rcl_path class) (step_name step) (Found m) →
  step_ok source step (resolve_found_member graph m step).
Proof.
  intros Ek [Hname Hnear]. unfold step_ok. rewrite Ek. unfold resolve_found_member.
  destruct (expected_argument_count m) as [n|reason] eqn:Ee.
  - destruct (Nat.eqb_spec (argument_count step) n) as [<-|Hne]; [done|].
    split; [done|]. exists m. split_and!; [done..|].
    clear. destruct (rm_kind m) as [[]| |]; split; congruence.
  - unfold expected_argument_count in Ee. destruct (rm_kind m) as [[]| |] eqn:Ekind; try done.
    + destruct (rm_signature m) eqn:Es; [done|]. by injection Ee as <-.
    + destruct (rm_target_temporal_arity m) eqn:Ea; [done|]. by injection Ee as <-.
Qed.

Lemma resolve_step_spec source step : ∃ r, resolve_step graph source step = Some r ∧ step_ok source step r.
Proof.
  unfold resolve_step. destruct (value_kind source) as [class|type|row|value] eqn:Ek.
  - unfold resolve_member_step. destruct (member_nearest graph (rcl_path class) (step_name step)) as (r & -> & Hr).
    destruct r as [m| |reason|ms|cycle]; (eexists; split; [done|]); [by apply found_member_ok with class|..];
      unfold step_ok; by rewrite Ek.
  - eexists. split; [done|]. unfold step_ok. by rewrite Ek.
  - eexists. split; [done|]. unfold step_ok, resolve_relation_column. rewrite Ek.
    destruct (Nat.eqb_spec (argument_count step) 0); [|done].
    destruct (row_column row (step_name step)) as [c|] eqn:Er; [done|]. split; [done|]. by apply row_column_None.
  - eexists. split; [done|]. unfold step_ok. by rewrite Ek.
Qed.

Fixpoint hops_ok (source : LocalValue R) (hops : list NavigationHop) : Prop :=
  match hops with
  | [] => True
  | hop :: hops => step_ok source (hop_step hop) (StepFound (hop_target hop) (hop_value hop)) ∧ hops_ok (hop_value hop) hops
  end.

(** A chain that reads some steps off a value. *)
Record walked (source : LocalValue R) (steps : list NavigationStep) (chain : NavigationChain R) : Prop := {
  walked_source : chain_source chain = source;
  walked_steps : hop_step <$> chain_hops chain = steps;
  walked_hops : hops_ok source (chain_hops chain);
  walked_value : chain_value chain = default source (hop_value <$> last (chain_hops chain));
}.

Definition stopped (source : LocalValue R) (steps : list NavigationStep) (failure : NavigationFailure) (r : StepResolution) : Prop :=
  ∃ before after, steps = before ++ failed_step failure :: after ∧ walked source before (completed failure) ∧
    step_ok (chain_value (completed failure)) (failed_step failure) r.

Definition navigation_outcome (source : LocalValue R) (steps : list NavigationStep) (r : NavigationResolution R) : Prop :=
  match r with
  | NavFound chain => walked source steps chain
  | NavMissing f => stopped source steps f StepMissing
  | NavUnderResolved (UnboundVariable _) => False
  | NavUnderResolved (AtStep f reason) => stopped source steps f (StepUnderResolved reason)
  | NavAmbiguous f ms => stopped source steps f (StepAmbiguous ms)
  | NavCycle f cycle => stopped source steps f (StepCycle cycle)
  | NavWrongArity f expected actual generated definition =>
      actual = argument_count (failed_step f) ∧ stopped source steps f (StepWrongArity expected generated definition)
  end.

Lemma hops_ok_snoc source hops hop :
  hops_ok source hops →
  step_ok (default source (hop_value <$> last hops)) (hop_step hop) (StepFound (hop_target hop) (hop_value hop)) →
  hops_ok source (hops ++ [hop]).
Proof.
  revert source. induction hops as [|h hops IH]; intros source; simpl; [done|]. intros [Hh Hs] Hl. split; [done|].
  apply IH; [done|]. rewrite last_cons in Hl. by destruct (last hops).
Qed.

Lemma walked_hop source before chain step target value :
  walked source before chain → step_ok (chain_value chain) step (StepFound target value) →
  walked source (before ++ [step]) (chain_push chain step target value).
Proof.
  intros [Hs Hst Hh Hv] Hok. split; simpl.
  - done.
  - by rewrite fmap_app, Hst.
  - apply hops_ok_snoc; [done|]. by rewrite <-Hv.
  - by rewrite last_snoc.
Qed.

Lemma resolve_from_spec source before steps chain :
  walked source before chain →
  ∃ r, resolve_from graph chain steps = Some r ∧ navigation_outcome source (before ++ steps) r.
Proof.
  revert before chain. induction steps as [|step steps IH]; intros before chain Hw; cbn [resolve_from].
  { eexists. split; [done|]. by rewrite app_nil_r. }
  destruct (resolve_step_spec (chain_value chain) step) as (r & -> & Hr).
  destruct r as [target value| |reason|ms|cycle|expected generated definition];
    [|eexists; (split; [done|]); try (split; [done|]); by exists before, steps..].
  destruct (IH (before ++ [step]) (chain_push chain step target value)) as (r & E & Hr'); [by apply walked_hop|].
  exists r. split; [done|]. by rewrite <-(assoc_L (++)) in Hr'.
Qed.

(** C19. A navigation always answers.  A chain that is found has one hop for every
    step, each read off the value of the hop before: the nearest member of its
    class with the number of arguments that the member takes, or the column of
    its row.  Otherwise the answer is the chain of the steps before the first one
    that cannot be read, and why that one cannot. *)
Theorem navigation_reads_steps source steps :
  ∃ r, resolve graph source steps = Some r ∧ navigation_outcome source steps r.
Proof. by apply (resolve_from_spec source [] steps (chain_new source)). Qed.
End navigation.

(** ** An example *)

Definition number_value (upper : N) : LocalValue () :=
  scalar_value (TypeRef_new (txt "Integer") []) {| lower := 1; upper := Some upper |}.

Lemma scopes_are_lexical_witness :
  let outer := (bind TypeEnvironment_new (txt "x") (number_value 1)).2 in
  let inner := (bind (scope outer) (txt "x") (number_value 2)).2 in
  lookup inner (txt "x") = Some (number_value 2) ∧ drop_scope inner = outer ∧
  lookup (bind outer (txt "y") (number_value 3)).2 (txt "x") = Some (number_value 1).
Proof.
  split; [vm_compute; reflexivity|]. destruct (scopes_are_lexical (R:=())) as (Hdrop & _ & Hbind). split.
  - apply Hdrop. eapply runs_bind. apply runs_end.
  - rewrite Hbind; [vm_compute; reflexivity|]. eapply runs_bind. apply runs_end.
Defined.
