(* ===== verification/Relational.v ===== *)
(** * Relational queries

    [pure-analyzer-analysis/src/relational.rs]: the typed relational terms that
    queries are lowered to, and the checks their constructors make.  An operator
    is a type over the expressions below it, so that an expression is an operator
    with its schema, facts and origin; the boxes and the worklist that drops them
    are left out.  A [u32] column identity is a [nat], as it is only compared. *)

From S2P Require Import Prelude Utf8 BTree StableSort StrOps Codes FixPlan Model Resolver Navigation.

Definition BOOLEAN_TYPE : Text := txt "Boolean".
Definition EXACTLY_ONE : N := 1.
Definition INTEGER_TYPE : Text := txt "Integer".
Definition STRING_TYPE : Text := txt "String".
Definition MAX_RELATIONAL_RECURSION_DEPTH : nat := 32.

Abbreviation ColumnId := nat.

Inductive ModelOriginKind := ClassOrigin | MemberOrigin.
Inductive ModelOriginIdentity :=
| ClassIdentity (path : QName)
| MemberIdentity (owner : QName) (name : Name) (kind : ResolvedMemberKind).
Inductive Nullability := NonNullable | Nullable | NullabilityUnknown.
Inductive SchemaError := DuplicateSchemaColumn (column : ColumnId).
Inductive Totality := Total | Partial.
Inductive RowSemantics := SetRows | BagRows.
Inductive JoinKind := Inner.
Inductive ProjectionKind := ScalarProjection | RelationProjection.
Inductive SortDirection := Ascending | Descending.
Inductive ScalarLiteral :=
| LitBoolean (value : bool)
| LitInteger (value : Z)
| LitString (value : Text)
| LitNull.

Record CandidateKey := { key_columns : list ColumnId }.

Inductive RelationExpressionError :=
| FilterSchemaMismatch
| ProjectionSchemaMismatch
| JoinSchemaMismatch
| DistinctSchemaMismatch
| DistinctOnEmptySelection
| DistinctOnDuplicateColumn (column : ColumnId)
| DistinctOnUnknownColumn (column : ColumnId)
| DistinctOnSchemaMismatch
| SortSchemaMismatch
| EmptySortKeys
| UnknownSortKeyColumn (column : ColumnId)
| DuplicateSortKeyColumn (column : ColumnId)
| UnknownColumnReference (column : ColumnId)
| UnknownKeyColumn (column : ColumnId)
| ColumnMetadataMismatch (column : ColumnId)
| NavigationMetadataMismatch
| ComparisonTypeMismatch
| InvalidLiteralType
| NonBooleanPredicate.

#[global] Instance ResolvedMemberKind_eq_dec : EqDecision ResolvedMemberKind.
Proof. solve_decision. Defined.
#[global] Instance ModelOriginKind_eq_dec : EqDecision ModelOriginKind.
Proof. solve_decision. Defined.
#[global] Instance ModelOriginIdentity_eq_dec : EqDecision ModelOriginIdentity.
Proof. solve_decision. Defined.
#[global] Instance Nullability_eq_dec : EqDecision Nullability.
Proof. solve_decision. Defined.
#[global] Instance RowSemantics_eq_dec : EqDecision RowSemantics.
Proof. solve_decision. Defined.
#[global] Instance CandidateKey_eq_dec : EqDecision CandidateKey.
Proof. solve_decision. Defined.

(** [CandidateKey::new]: a key is a set of columns. *)
Definition CandidateKey_new (columns : list ColumnId) : CandidateKey :=
  {| key_columns := vec_dedup (stable_sort key_cmp columns) |}.

Section ir.
Context {R : Type} `{TextRangeModel R}.

(** ** Origins *)

Record SourceSpan := { span_file : FileId; span_range : R }.

Record ModelOrigin := {
  mo_kind : ModelOriginKind;
  mo_provenance : Provenance;
  mo_definition : DefinitionAnchor R;
  mo_identity : ModelOriginIdentity;
}.

(** [ModelOrigin::from_class], [from_member] and [structural_identity_key]. *)
Definition from_class (class : ResolvedClass R) : ModelOrigin :=
  {| mo_kind := ClassOrigin; mo_provenance := rcl_provenance class; mo_definition := rcl_definition class;
     mo_identity := ClassIdentity (rcl_path class) |}.

Definition from_member (member : ResolvedMember R) : ModelOrigin :=
  {| mo_kind := MemberOrigin; mo_provenance := rm_provenance member; mo_definition := rm_definition member;
     mo_identity := MemberIdentity (rcl_path (rm_owner member)) (rm_name member) (rm_kind member) |}.

Definition structural_identity_key (origin : ModelOrigin) : Text :=
  match mo_identity origin with
  | ClassIdentity path => txt "class:" ++ path
  | MemberIdentity owner name kind =>
      match kind with
      | AssociationEnd association =>
          txt "member:" ++ owner ++ txt ":" ++ name ++ txt ":association-end:" ++ association
      | _ =>
          let kind := match kind with
            | Qualified UserQualified => txt "qualified:user"
            | Qualified MilestonedPoint => txt "qualified:milestoned-point"
            | Qualified AllVersions => txt "qualified:all-versions"
            | Qualified AllVersionsInRange => txt "qualified:all-versions-in-range"
            | _ => txt "property"
            end in
          txt "member:" ++ owner ++ txt ":" ++ name ++ txt ":" ++ kind
      end
  end.

Record IrOrigin := { origin_source : SourceSpan; model_origins : list ModelOrigin }.

#[global] Instance DefinitionAnchor_eq_dec : EqDecision (DefinitionAnchor R).
Proof. solve_decision. Defined.
#[global] Instance SourceSpan_eq_dec : EqDecision SourceSpan.
Proof. solve_decision. Defined.
#[global] Instance ModelOrigin_eq_dec : EqDecision ModelOrigin.
Proof. solve_decision. Defined.
#[global] Instance IrOrigin_eq_dec : EqDecision IrOrigin.
Proof. solve_decision. Defined.

(** ** Schemas *)

Record Column := {
  col_id : ColumnId;
  col_name : Name;
  col_type : TypeRef;
  col_multiplicity : Multiplicity;
  col_nullability : Nullability;
  col_origin : IrOrigin;
}.

#[global] Instance Column_eq_dec : EqDecision Column.
Proof. solve_decision. Defined.

Record RelationSchema := { schema_columns : list Column }.

#[global] Instance RelationSchema_eq_dec : EqDecision RelationSchema.
Proof. solve_decision. Defined.

(** [RelationSchema::new]: its loop, with the identities before. *)
Fixpoint check_schema (ids : list (ColumnId * unit)) (columns : list Column) : Result unit SchemaError :=
  match columns with
  | [] => Ok ()
  | column :: columns =>
      match bt_get ids (col_id column) with
      | Some _ => Err (DuplicateSchemaColumn (col_id column))
      | None => check_schema (bt_insert ids (col_id column) ()) columns
      end
  end.

Definition RelationSchema_new (columns : list Column) : Result RelationSchema SchemaError :=
  let? _ := check_schema [] columns in Ok {| schema_columns := columns |}.

(** [RelationSchema::column]. *)
Definition schema_column (schema : RelationSchema) (id : ColumnId) : option Column :=
  List.find (λ c, col_id c =? id) (schema_columns schema).

(** ** Facts *)

Inductive Knowledge (T : Type) :=
| Proven (value : T) (origin : IrOrigin)
| Unknown.
Arguments Proven {T} value origin.
Arguments Unknown {T}.

#[global] Instance Knowledge_eq_dec {T} `{EqDecision T} : EqDecision (Knowledge T).
Proof. solve_decision. Defined.

(** [Knowledge::as_proven], [is_unknown] and [matches_ignoring_origin]. *)
Definition as_proven {T} (k : Knowledge T) : option (T * IrOrigin) :=
  match k with Proven value origin => Some (value, origin) | Unknown => None end.

Definition is_unknown {T} (k : Knowledge T) : bool := match k with Unknown => true | _ => false end.

Definition matches_ignoring_origin {T} `{EqDecision T} (k k' : Knowledge T) : bool :=
  match as_proven k, as_proven k' with
  | None, None => true
  | Some (l, _), Some (r, _) => bool_decide (l = r)
  | _, _ => false
  end.

Record RelationFacts := {
  candidate_keys : Knowledge (list CandidateKey);
  row_semantics : Knowledge RowSemantics;
}.

#[global] Instance RelationFacts_eq_dec : EqDecision RelationFacts.
Proof. solve_decision. Defined.

(** [canonicalize_candidate_keys], and [RelationFacts::new], [unknown] and
    [matches]. *)
Definition canonicalize_candidate_keys (keys : Knowledge (list CandidateKey)) : Knowledge (list CandidateKey) :=
  match keys with
  | Proven value origin => Proven (vec_dedup (stable_sort (cmp_by key_columns) value)) origin
  | Unknown => Unknown
  end.

Definition RelationFacts_new (keys : Knowledge (list CandidateKey)) (rows : Knowledge RowSemantics) : RelationFacts :=
  {| candidate_keys := canonicalize_candidate_keys keys; row_semantics := rows |}.

Definition unknown_facts : RelationFacts := RelationFacts_new Unknown Unknown.

Definition facts_match (f g : RelationFacts) : bool :=
  matches_ignoring_origin (candidate_keys f) (candidate_keys g)
  && matches_ignoring_origin (row_semantics f) (row_semantics g).

(** ** Navigation *)

Record ResolvedNavigation := { nav_receiver : LocalValue R; nav_member : ResolvedMember R }.

(** [ResolvedNavigation::from_chain]. *)
Definition from_chain (chain : NavigationChain R) : option ResolvedNavigation :=
  match chain_hops chain with
  | [hop] =>
      match hop_target hop with
      | Member member =>
          let plain := match rm_kind member with Property | AssociationEnd _ => true | _ => false end in
          if negb plain || negb (is_to_one (rm_multiplicity member)) then None
          else Some {| nav_receiver := chain_source chain; nav_member := member |}
      | ColumnTarget _ => None
      end
  | _ => None
  end.

(** ** Scalars *)

Inductive ScalarOperator (E : Type) :=
| ColumnRead (column : ColumnId)
| Literal (literal : ScalarLiteral)
| NavigationOf (input : E) (navigation : ResolvedNavigation)
| Equal (l r : E)
| Not (input : E).
Arguments ColumnRead {E} column.
Arguments Literal {E} literal.
Arguments NavigationOf {E} input navigation.
Arguments Equal {E} l r.
Arguments Not {E} input.

Inductive ScalarExpression := ScalarExpression_new
  (operator : ScalarOperator ScalarExpression) (type_ref : TypeRef) (multiplicity : Multiplicity)
  (nullability : Nullability) (totality : Knowledge Totality) (origin : IrOrigin).

Definition s_operator (e : ScalarExpression) : ScalarOperator ScalarExpression :=
  let '(ScalarExpression_new operator _ _ _ _ _) := e in operator.
Definition s_type (e : ScalarExpression) : TypeRef := let '(ScalarExpression_new _ type _ _ _ _) := e in type.
Definition s_multiplicity (e : ScalarExpression) : Multiplicity := let '(ScalarExpression_new _ _ m _ _ _) := e in m.
Definition s_nullability (e : ScalarExpression) : Nullability := let '(ScalarExpression_new _ _ _ n _ _) := e in n.
Definition s_totality (e : ScalarExpression) : Knowledge Totality := let '(ScalarExpression_new _ _ _ _ t _) := e in t.
Definition s_origin (e : ScalarExpression) : IrOrigin := let '(ScalarExpression_new _ _ _ _ _ o) := e in o.

(** ** Relations *)

Inductive RelationSource := ClassSource (class : ResolvedClass R).

Record Projection := { proj_column : ColumnId; proj_expression : ScalarExpression }.

Record SortKey := { sort_column : ColumnId; sort_direction : SortDirection; sort_origin : IrOrigin }.

Inductive RelationOperator (E : Type) :=
| Scan (source : RelationSource)
| Filter (input : E) (predicate : ScalarExpression)
| Project (input : E) (projections : list Projection) (kind : ProjectionKind)
| Join (kind : JoinKind) (l r : E) (condition : ScalarExpression)
| Distinct (input : E)
| DistinctOn (input : E) (columns : list ColumnId)
| Sort (input : E) (keys : list SortKey).
Arguments Scan {E} source.
Arguments Filter {E} input predicate.
Arguments Project {E} input projections kind.
Arguments Join {E} kind l r condition.
Arguments Distinct {E} input.
Arguments DistinctOn {E} input columns.
Arguments Sort {E} input keys.

Inductive RelationExpression := RelationExpression_of
  (operator : RelationOperator RelationExpression) (schema : RelationSchema) (facts : RelationFacts)
  (origin : IrOrigin).

Definition r_operator (e : RelationExpression) : RelationOperator RelationExpression :=
  let '(RelationExpression_of operator _ _ _) := e in operator.
Definition r_schema (e : RelationExpression) : RelationSchema := let '(RelationExpression_of _ schema _ _) := e in schema.
Definition r_facts (e : RelationExpression) : RelationFacts := let '(RelationExpression_of _ _ facts _) := e in facts.
Definition r_origin (e : RelationExpression) : IrOrigin := let '(RelationExpression_of _ _ _ origin) := e in origin.

(** ** Checks of scalars *)

Definition same_column_metadata (e : ScalarExpression) (column : Column) : bool :=
  bool_decide (s_type e = col_type column) && bool_decide (s_multiplicity e = col_multiplicity column)
  && bool_decide (s_nullability e = col_nullability column).

Definition is_exactly_one (m : Multiplicity) : bool :=
  (lower m =? EXACTLY_ONE)%N && bool_decide (upper m = Some EXACTLY_ONE).

Definition validate_boolean (e : ScalarExpression) : Result unit RelationExpressionError :=
  if text_eqb (raw_type (s_type e)) BOOLEAN_TYPE && bool_decide (type_arguments (s_type e) = [])
     && is_exactly_one (s_multiplicity e) && bool_decide (s_nullability e = NonNullable)
  then Ok () else Err NonBooleanPredicate.

Definition validate_literal (e : ScalarExpression) (literal : ScalarLiteral) : Result unit RelationExpressionError :=
  let one_value := is_exactly_one (s_multiplicity e) in
  let primitive_type := bool_decide (type_arguments (s_type e) = []) in
  let type_name := raw_type (s_type e) in
  let primitive name :=
    primitive_type && text_eqb type_name name && one_value && bool_decide (s_nullability e = NonNullable) in
  let valid := match literal with
    | LitBoolean _ => primitive BOOLEAN_TYPE
    | LitInteger _ => primitive INTEGER_TYPE
    | LitString _ => primitive STRING_TYPE
    | LitNull => one_value && bool_decide (s_nullability e = Nullable)
    end in
  if valid then Ok () else Err InvalidLiteralType.

Definition navigation_receiver_matches (e : ScalarExpression) (receiver : LocalValue R) : bool :=
  match value_kind receiver with
  | ClassValue class =>
      bool_decide (s_type e = TypeRef_new (rcl_path class) [])
      && bool_decide (s_multiplicity e = value_multiplicity receiver)
      && bool_decide (from_class class ∈ model_origins (s_origin e))
  | _ => false
  end.

(** [u32::checked_mul]. *)
Definition checked_mul (a b : N) : option N := if (a * b <=? U32_MAX)%N then Some (a * b)%N else None.

(** [compose_navigation_multiplicity]. *)
Definition compose_navigation_multiplicity (receiver member : Multiplicity) : option Multiplicity :=
  lower ← checked_mul (lower receiver) (lower member);
  upper ← match upper receiver, upper member with
    | Some 0%N, _ | _, Some 0%N => Some (Some 0%N)
    | Some l, Some r => Some <$> checked_mul l r
    | _, _ => Some None
    end;
  result_ok (Multiplicity_new lower upper).

(** The first schema that has a column. *)
Fixpoint find_column_in (schemas : list RelationSchema) (id : ColumnId) : option Column :=
  match schemas with
  | [] => None
  | schema :: schemas => match schema_column schema id with Some c => Some c | None => find_column_in schemas id end
  end.

Fixpoint validate_scalar (e : ScalarExpression) (schemas : list RelationSchema) : Result unit RelationExpressionError :=
  let '(ScalarExpression_new operator type_ref multiplicity nullability _ origin) := e in
  match operator with
  | ColumnRead id =>
      match find_column_in schemas id with
      | None => Err (UnknownColumnReference id)
      | Some column => if same_column_metadata e column then Ok () else Err (ColumnMetadataMismatch id)
      end
  | Literal literal => validate_literal e literal
  | NavigationOf input navigation =>
      let? _ := validate_scalar input schemas in
      if negb (navigation_receiver_matches input (nav_receiver navigation)) then Err NavigationMetadataMismatch
      else
        let member := nav_member navigation in
        match compose_navigation_multiplicity (s_multiplicity input) (rm_multiplicity member) with
        | None => Err NavigationMetadataMismatch
        | Some expected =>
            if negb (bool_decide (type_ref = rm_target member)) || negb (bool_decide (multiplicity = expected))
               || negb (bool_decide (nullability = NullabilityUnknown))
               || negb (bool_decide (from_member member ∈ model_origins origin))
            then Err NavigationMetadataMismatch else Ok ()
        end
  | Equal l r =>
      let? _ := validate_scalar l schemas in
      let? _ := validate_scalar r schemas in
      if negb (bool_decide (s_type l = s_type r)) then Err ComparisonTypeMismatch else validate_boolean e
  | Not input =>
      let? _ := validate_scalar input schemas in
      let? _ := validate_boolean input in
      validate_boolean e
  end.

(** ** Checks of relations *)

(** [validate_sort], [validate_distinct_on_schema] and [validate_expression_keys],
    with their loops. *)
Fixpoint check_sort_keys (input : RelationSchema) (seen : list (ColumnId * unit)) (keys : list SortKey)
  : Result unit RelationExpressionError :=
  match keys with
  | [] => Ok ()
  | key :: keys =>
      match schema_column input (sort_column key) with
      | None => Err (UnknownSortKeyColumn (sort_column key))
      | Some _ => match bt_get seen (sort_column key) with
        | Some _ => Err (DuplicateSortKeyColumn (sort_column key))
        | None => check_sort_keys input (bt_insert seen (sort_column key) ()) keys
        end
      end
  end.

Definition validate_sort (input : RelationExpression) (keys : list SortKey) (schema : RelationSchema)
  : Result unit RelationExpressionError :=
  if negb (bool_decide (schema = r_schema input)) then Err SortSchemaMismatch
  else match keys with
  | [] => Err EmptySortKeys
  | _ => check_sort_keys (r_schema input) [] keys
  end.

Definition validate_projection_schema (projections : list Projection) (schema : RelationSchema)
  : Result unit RelationExpressionError :=
  if negb (length projections =? length (schema_columns schema))
     || existsb (λ '(p, c), negb (proj_column p =? col_id c)) (zip projections (schema_columns schema))
  then Err ProjectionSchemaMismatch else Ok ().

Definition is_join_schema (schema left right : RelationSchema) : bool :=
  bool_decide (schema_columns schema = schema_columns left ++ schema_columns right).

Fixpoint select_columns (input : RelationSchema) (seen : list (ColumnId * unit)) (selected : list Column)
    (columns : list ColumnId) : Result (list Column) RelationExpressionError :=
  match columns with
  | [] => Ok selected
  | column :: columns =>
      match bt_get seen column with
      | Some _ => Err (DistinctOnDuplicateColumn column)
      | None => match schema_column input column with
        | None => Err (DistinctOnUnknownColumn column)
        | Some input_column =>
            select_columns input (bt_insert seen column ()) (selected ++ [input_column]) columns
        end
      end
  end.

Definition validate_distinct_on_schema (columns : list ColumnId) (schema input : RelationSchema)
  : Result unit RelationExpressionError :=
  match columns with
  | [] => Err DistinctOnEmptySelection
  | _ =>
      let? selected := select_columns input [] [] columns in
      if negb (bool_decide (schema_columns schema = selected)) then Err DistinctOnSchemaMismatch else Ok ()
  end.

Fixpoint check_key_columns (schema : RelationSchema) (columns : list ColumnId) : Result unit RelationExpressionError :=
  match columns with
  | [] => Ok ()
  | column :: columns =>
      match schema_column schema column with
      | None => Err (UnknownKeyColumn column)
      | Some _ => check_key_columns schema columns
      end
  end.

Fixpoint check_keys (schema : RelationSchema) (keys : list CandidateKey) : Result unit RelationExpressionError :=
  match keys with
  | [] => Ok ()
  | key :: keys => let? _ := check_key_columns schema (key_columns key) in check_keys schema keys
  end.

Definition validate_expression_keys (schema : RelationSchema) (keys : Knowledge (list CandidateKey))
  : Result unit RelationExpressionError :=
  match as_proven keys with
  | None => Ok ()
  | Some (keys, _) => check_keys schema keys
  end.

(** [validate_relation_operator], with its loop over the projections. *)
Fixpoint check_projections (input : RelationSchema) (pairs : list (Projection * Column))
  : Result unit RelationExpressionError :=
  match pairs with
  | [] => Ok ()
  | (projection, column) :: pairs =>
      let? _ := validate_scalar (proj_expression projection) [input] in
      if negb (same_column_metadata (proj_expression projection) column)
      then Err (ColumnMetadataMismatch (proj_column projection))
      else check_projections input pairs
  end.

Definition validate_relation_operator (operator : RelationOperator RelationExpression) (schema : RelationSchema)
  : Result unit RelationExpressionError :=
  match operator with
  | Scan _ => Ok ()
  | Filter input predicate =>
      if negb (bool_decide (schema = r_schema input)) then Err FilterSchemaMismatch
      else
        let? _ := validate_scalar predicate [r_schema input] in
        validate_boolean predicate
  | Project input projections _ =>
      let? _ := validate_projection_schema projections schema in
      check_projections (r_schema input) (zip projections (schema_columns schema))
  | Join _ l r condition =>
      if negb (is_join_schema schema (r_schema l) (r_schema r)) then Err JoinSchemaMismatch
      else
        let? _ := validate_scalar condition [r_schema l; r_schema r] in
        validate_boolean condition
  | Distinct input =>
      if negb (bool_decide (schema = r_schema input)) then Err DistinctSchemaMismatch else Ok ()
  | DistinctOn input columns => validate_distinct_on_schema columns schema (r_schema input)
  | Sort input keys => validate_sort input keys schema
  end.

(** [RelationExpression::new]. *)
Definition RelationExpression_new (operator : RelationOperator RelationExpression) (schema : RelationSchema)
    (facts : RelationFacts) (origin : IrOrigin) : Result RelationExpression RelationExpressionError :=
  let? _ := validate_relation_operator operator schema in
  let? _ := validate_expression_keys schema (candidate_keys facts) in
  Ok (RelationExpression_of operator schema facts origin).

(** ** Queries *)

Record RelationalQuery := { query_root : RelationExpression }.

Record OpaqueOutcome := { opaque_reason : ReasonCode; opaque_origin : IrOrigin }.

Inductive RelationalOutcome :=
| Supported (query : RelationalQuery)
| Opaque (outcome : OpaqueOutcome).
End ir.
Arguments SourceSpan : clear implicits.
Arguments ModelOrigin : clear implicits.
Arguments IrOrigin : clear implicits.
Arguments Column : clear implicits.
Arguments RelationSchema : clear implicits.
Arguments Knowledge : clear implicits.
Arguments Proven {R T} value origin.
Arguments Unknown {R T}.
Arguments RelationFacts : clear implicits.
Arguments ResolvedNavigation : clear implicits.
Arguments ScalarOperator : clear implicits.
Arguments ScalarExpression : clear implicits.
Arguments RelationSource : clear implicits.
Arguments Projection : clear implicits.
Arguments SortKey : clear implicits.
Arguments RelationOperator : clear implicits.
Arguments RelationExpression : clear implicits.
Arguments RelationalQuery : clear implicits.
Arguments OpaqueOutcome : clear implicits.
Arguments RelationalOutcome : clear implicits.
Arguments ColumnRead {R E} column.
Arguments Literal {R E} literal.
Arguments NavigationOf {R E} input navigation.
Arguments Equal {R E} l r.
Arguments Not {R E} input.
Arguments Scan {R E} source.
Arguments Filter {R E} input predicate.
Arguments Project {R E} input projections kind.
Arguments Join {R E} kind l r condition.
Arguments Distinct {R E} input.
Arguments DistinctOn {R E} input columns.
Arguments Sort {R E} input keys.
