(* ===== verification/Normalizer.v ===== *)
(** * Normalization of relational queries

    [pure-analyzer-analysis/src/normalizer.rs]: three rewrites under a budget of
    steps and of depth, and the keys of normal forms.  The normalizer is state
    that is passed along and kept when a step fails; a key is the text that the
    encoder writes, a sequence of fragments with their lengths. *)

From stdpp Require Import pretty.
From S2P Require Import Prelude Utf8 BTree StableSort StrOps Codes FixPlan Model Resolver Navigation Relational.

Definition NORMALIZATION_FANOUT_HEADROOM : nat := 128.
Definition DEFAULT_NORMALIZATION_STEP_LIMIT : nat := MAX_RELATIONAL_RECURSION_DEPTH * NORMALIZATION_FANOUT_HEADROOM.

Record NormalizationBudget := { max_steps : nat }.

(** [NormalizationBudget::default]. *)
Definition default_budget : NormalizationBudget := {| max_steps := DEFAULT_NORMALIZATION_STEP_LIMIT |}.

(** ** Fragments *)

(** [write_fragment] and [write_usize]. *)
Definition write_fragment (value : Text) : Text := txt (decimal (N.of_nat (length value))) ++ txt ":" ++ value.
Definition write_usize (value : nat) : Text := write_fragment (txt (decimal (N.of_nat value))).
Definition write_tag (tag : string) : Text := write_fragment (txt tag).

(** What the loops write, the elements in order. *)
Definition write_all {A} (write : A → Text) (l : list A) : Text := concat (write <$> l).

Section normalizer.
Context {R : Type} `{TextRangeModel R}.

(** ** Normalization *)

Record NormalizationFailure := { failure_reason : ReasonCode; failure_origin : IrOrigin R }.

Definition missing_rewrite (origin : IrOrigin R) : NormalizationFailure :=
  {| failure_reason := IndMissingRewrite; failure_origin := origin |}.

Record Normalizer := { remaining_steps : nat; depth : nat }.

(** A method on [&mut self] that may fail. *)
Definition Run (A : Type) : Type := Normalizer → Result A NormalizationFailure * Normalizer.

Definition run_ret {A} (x : A) : Run A := λ s, (Ok x, s).

Definition run_bind {A B} (m : Run A) (k : A → Run B) : Run B := λ s,
  match m s with
  | (Ok x, s) => k x s
  | (Err e, s) => (Err e, s)
  end.

Notation "'do!' x ':=' m 'in' k" := (run_bind m (λ x, k))
  (at level 10, x pattern, m at level 100, k at level 200,
   format "'[v' 'do!'  x  ':='  m  'in' '/' k ']'").

Definition run_result {A} (r : Result A NormalizationFailure) : Run A := λ s, (r, s).

(** [consume] and [enter]. *)
Definition consume_step (origin : IrOrigin R) : Run unit := λ s,
  match remaining_steps s with
  | 0 => (Err (missing_rewrite origin), s)
  | S remaining => (Ok (), {| remaining_steps := remaining; depth := depth s |})
  end.

Definition enter (origin : IrOrigin R) : Run unit := λ s,
  if MAX_RELATIONAL_RECURSION_DEPTH <=? depth s then (Err (missing_rewrite origin), s)
  else (Ok (), {| remaining_steps := remaining_steps s; depth := S (depth s) |}).

(** A body between [enter] and [self.depth -= 1]. *)
Definition at_depth {A} (origin : IrOrigin R) (body : Run A) : Run A :=
  do! _ := consume_step origin in
  do! _ := enter origin in
  λ s, let '(result, s) := body s in
       (result, {| remaining_steps := remaining_steps s; depth := depth s - 1 |}).

(** [scalar] and [scalar_at_depth]. *)
Fixpoint scalar (e : ScalarExpression R) : Run (ScalarExpression R) :=
  let '(ScalarExpression_new operator _ _ _ _ origin) := e in
  at_depth origin
    match operator with
    | ColumnRead _ | Literal _ => run_ret e
    | NavigationOf input _ | Not input => do! _ := scalar input in run_ret e
    | Equal l r => do! _ := scalar l in do! _ := scalar r in run_ret e
    end.

(** [projection], and the collected projections of an expression. *)
Definition projection (p : Projection R) : Run (Projection R) :=
  do! expression := scalar (proj_expression p) in
  run_ret {| proj_column := proj_column p; proj_expression := expression |}.

Fixpoint projections_in_order (ps : list (Projection R)) : Run (list (Projection R)) :=
  match ps with
  | [] => run_ret []
  | p :: ps => do! p := projection p in do! ps := projections_in_order ps in run_ret (p :: ps)
  end.

(** [is_identity_read], [is_identity_project], [is_literal_true_filter] and
    [is_repeated_distinct]. *)
Definition is_identity_read (p : Projection R) (column : Column R) : bool :=
  let e := proj_expression p in
  (proj_column p =? col_id column) && bool_decide (s_type e = col_type column)
  && bool_decide (s_multiplicity e = col_multiplicity column)
  && bool_decide (s_nullability e = col_nullability column)
  && is_unknown (s_totality e)
  && match s_operator e with ColumnRead id => id =? col_id column | _ => false end.

Definition is_identity_project (input : RelationExpression R) (schema : RelationSchema R) (facts : RelationFacts R)
    (ps : list (Projection R)) : bool :=
  bool_decide (schema = r_schema input) && bool_decide (facts = r_facts input)
  && (length ps =? length (schema_columns schema))
  && forallb (λ '(p, c), is_identity_read p c) (zip ps (schema_columns schema)).

Definition is_literal_true_filter (input : RelationExpression R) (schema : RelationSchema R) (facts : RelationFacts R)
    (predicate : ScalarExpression R) : bool :=
  bool_decide (schema = r_schema input) && bool_decide (facts = r_facts input)
  && is_unknown (s_totality predicate)
  && match s_operator predicate with Literal (LitBoolean true) => true | _ => false end.

Definition is_repeated_distinct (input : RelationExpression R) (schema : RelationSchema R) (facts : RelationFacts R)
  : bool :=
  bool_decide (schema = r_schema input) && facts_match facts (r_facts input)
  && match r_operator input with Distinct _ => true | _ => false end.

(** [rebuild]. *)
Definition rebuild (operator : RelationOperator R (RelationExpression R)) (schema : RelationSchema R)
    (facts : RelationFacts R) (origin : IrOrigin R) : Run (RelationExpression R) :=
  run_result (map_err (λ _, missing_rewrite origin) (RelationExpression_new operator schema facts origin)).

(** [relation] and [relation_at_depth]. *)
Fixpoint relation (e : RelationExpression R) : Run (RelationExpression R) :=
  let '(RelationExpression_of operator schema facts origin) := e in
  at_depth origin
    match operator with
    | Scan _ => run_ret e
    | Filter input predicate =>
        do! input := relation input in
        do! predicate := scalar predicate in
        if is_literal_true_filter input schema facts predicate then run_ret input
        else rebuild (Filter input predicate) schema facts origin
    | Project input projections kind =>
        do! input := relation input in
        do! projections := projections_in_order projections in
        if is_identity_project input schema facts projections then run_ret input
        else rebuild (Project input projections kind) schema facts origin
    | Join kind l r condition =>
        do! l := relation l in
        do! r := relation r in
        do! condition := scalar condition in
        rebuild (Join kind l r condition) schema facts origin
    | Distinct input =>
        do! input := relation input in
        if is_repeated_distinct input schema facts then run_ret input
        else rebuild (Distinct input) schema facts origin
    | DistinctOn input columns =>
        do! input := relation input in
        rebuild (DistinctOn input columns) schema facts origin
    | Sort input keys =>
        do! input := relation input in
        rebuild (Sort input keys) schema facts origin
    end.

(** ** Column scopes *)

Definition ColumnScope : Type := list (ColumnId * nat).

(** [ColumnScope::from_columns], [from_schema], [from_join] and [position]. *)
Definition from_columns (columns : list (Column R)) : ColumnScope :=
  foldl (λ m '(c, position), bt_insert m (col_id c) position) [] (zip columns (seq 0 (length columns))).

Definition from_schema (schema : RelationSchema R) : ColumnScope := from_columns (schema_columns schema).

Definition from_join (l r : RelationSchema R) : ColumnScope := from_columns (schema_columns l ++ schema_columns r).

Definition scope_position_of (scope : ColumnScope) (column : ColumnId) : option nat := bt_get scope column.

(** ** Keys *)

(** [model_origin_key]. *)
Definition write_range (range : R) : Text := write_usize (start range) ++ write_usize (end_ range).

Definition write_provenance (p : Provenance) : Text :=
  write_tag match p with Pmcd => "pmcd" | PureFile => "pure-file" end.

Definition model_origin_key (origin : ModelOrigin R) : Text :=
  write_tag match mo_kind origin with ClassOrigin => "class" | MemberOrigin => "member" end
  ++ write_provenance (mo_provenance origin)
  ++ write_usize (anchor_source (mo_definition origin))
  ++ match anchor_span (mo_definition origin) with
     | Some span => write_range span
     | None => write_tag "no-span"
     end
  ++ write_fragment (structural_identity_key origin).

(** The methods of [KeyEncoder]: what each of them writes. *)
Section encoder.
Context (include_provenance : bool).

Definition when_provenance (t : Text) : Text := if include_provenance then t else [].

Definition encode_column_id (scope : ColumnScope) (column : ColumnId) : Text :=
  write_tag "column-id"
  ++ match scope_position_of scope column with
     | Some position => write_usize position
     | None => write_tag "missing"
     end.

Definition encode_anchor (anchor : DefinitionAnchor R) : Text :=
  write_tag "anchor" ++ write_usize (anchor_source anchor)
  ++ match anchor_span anchor with Some span => write_range span | None => write_tag "no-span" end.

Definition encode_member_kind (kind : ResolvedMemberKind) : Text :=
  match kind with
  | Qualified kind =>
      write_tag "qualified"
      ++ write_tag match kind with
         | UserQualified => "user" | MilestonedPoint => "milestoned-point"
         | AllVersions => "all-versions" | AllVersionsInRange => "all-versions-in-range"
         end
  | Property => write_tag "property"
  | AssociationEnd association => write_tag "association-end" ++ write_fragment association
  end.

Definition encode_class (class : ResolvedClass R) : Text :=
  write_tag "resolved-class" ++ write_fragment (rcl_path class)
  ++ write_tag match rcl_temporal class with
     | None => "non-temporal" | Some Bitemporal => "bitemporal"
     | Some BusinessTemporal => "business-temporal" | Some ProcessingTemporal => "processing-temporal"
     end
  ++ when_provenance (write_provenance (rcl_provenance class) ++ encode_anchor (rcl_definition class)).

Definition encode_nullability (n : Nullability) : Text :=
  write_tag match n with NonNullable => "non-null" | Nullable => "nullable" | NullabilityUnknown => "unknown" end.

Definition encode_multiplicity (m : Multiplicity) : Text :=
  write_tag "multiplicity" ++ write_fragment (txt (decimal (lower m)))
  ++ match upper m with Some upper => write_fragment (txt (decimal upper)) | None => write_tag "unbounded" end.

Fixpoint encode_type_ref (t : TypeRef) : Text :=
  let '(TypeRef_new raw arguments) := t in
  write_tag "type" ++ write_fragment raw ++ write_usize (length arguments)
  ++ concat (map encode_type_ref arguments).

Definition encode_member (member : ResolvedMember R) : Text :=
  write_tag "resolved-member" ++ encode_class (rm_owner member) ++ write_fragment (rm_name member)
  ++ encode_type_ref (rm_target member) ++ encode_multiplicity (rm_multiplicity member)
  ++ encode_member_kind (rm_kind member)
  ++ match rm_signature member with
     | Some signature =>
         write_tag "signature" ++ write_usize (length signature) ++ write_all encode_type_ref signature
     | None => write_tag "no-signature"
     end
  ++ match rm_target_temporal_arity member with
     | Some arity => write_usize arity
     | None => write_tag "no-target-temporal-arity"
     end
  ++ when_provenance (write_provenance (rm_provenance member) ++ encode_anchor (rm_definition member)).

Definition encode_origin (origin : IrOrigin R) : Text :=
  let keys := vec_dedup (stable_sort key_cmp (model_origin_key <$> model_origins origin)) in
  write_tag "origin" ++ write_usize (span_file (origin_source origin))
  ++ write_range (span_range (origin_source origin))
  ++ write_usize (length keys) ++ write_all write_fragment keys.

(** A fact, with its value written by [write]. *)
Definition encode_knowledge {T} (write : T → Text) (k : Knowledge R T) : Text :=
  match k with
  | Unknown => write_tag "unknown"
  | Proven value origin => write_tag "proven" ++ write value ++ when_provenance (encode_origin origin)
  end.

Definition encode_totality (k : Knowledge R Totality) : Text :=
  write_tag "totality"
  ++ encode_knowledge (λ t, write_tag match t with Total => "total" | Partial => "partial" end) k.

Definition encode_row_semantics (k : Knowledge R RowSemantics) : Text :=
  write_tag "row-semantics"
  ++ encode_knowledge (λ t, write_tag match t with SetRows => "set" | BagRows => "bag" end) k.

Definition key_positions (scope : ColumnScope) (key : CandidateKey) : list nat :=
  stable_sort key_cmp (omap (scope_position_of scope) (key_columns key)).

Definition keys_positions (scope : ColumnScope) (keys : list CandidateKey) : list (list nat) :=
  vec_dedup (stable_sort key_cmp (key_positions scope <$> keys)).

Definition encode_keys (k : Knowledge R (list CandidateKey)) (scope : ColumnScope) : Text :=
  write_tag "keys"
  ++ encode_knowledge (λ keys,
       let keys := keys_positions scope keys in
       write_usize (length keys)
       ++ write_all (λ key, write_usize (length key) ++ write_all write_usize key) keys) k.

Definition encode_facts (facts : RelationFacts R) (scope : ColumnScope) : Text :=
  write_tag "facts" ++ encode_keys (candidate_keys facts) scope ++ encode_row_semantics (row_semantics facts).

Definition encode_column (column : Column R) (scope : ColumnScope) : Text :=
  write_tag "column" ++ encode_column_id scope (col_id column) ++ write_fragment (col_name column)
  ++ encode_type_ref (col_type column) ++ encode_multiplicity (col_multiplicity column)
  ++ encode_nullability (col_nullability column) ++ when_provenance (encode_origin (col_origin column)).

Definition encode_schema (schema : RelationSchema R) (scope : ColumnScope) : Text :=
  write_tag "schema" ++ write_usize (length (schema_columns schema))
  ++ write_all (λ column, encode_column column scope) (schema_columns schema).

Definition encode_literal (literal : ScalarLiteral) : Text :=
  match literal with
  | LitBoolean value => write_tag "boolean" ++ write_tag (if value then "true" else "false")
  | LitInteger value => write_tag "integer" ++ write_tag (pretty value)
  | LitString value => write_tag "string" ++ write_fragment value
  | LitNull => write_tag "null"
  end.

Fixpoint encode_scalar (e : ScalarExpression R) (scope : ColumnScope) : Text :=
  let '(ScalarExpression_new operator type_ref multiplicity nullability totality origin) := e in
  write_tag "scalar" ++ encode_type_ref type_ref ++ encode_multiplicity multiplicity
  ++ encode_nullability nullability ++ encode_totality totality ++ when_provenance (encode_origin origin)
  ++ match operator with
     | ColumnRead column => write_tag "column" ++ encode_column_id scope column
     | Literal literal => encode_literal literal
     | NavigationOf input navigation =>
         write_tag "navigation" ++ encode_scalar input scope ++ encode_member (nav_member navigation)
     | Equal l r => write_tag "equal" ++ encode_scalar l scope ++ encode_scalar r scope
     | Not input => write_tag "not" ++ encode_scalar input scope
     end.

Definition encode_sort_key (key : SortKey R) (scope : ColumnScope) : Text :=
  write_tag "sort-key" ++ encode_column_id scope (sort_column key)
  ++ write_tag match sort_direction key with Ascending => "ascending" | Descending => "descending" end
  ++ when_provenance (encode_origin (sort_origin key)).

Definition encode_source (source : RelationSource R) : Text :=
  let '(ClassSource class) := source in write_tag "class" ++ encode_class class.

Fixpoint encode_relation (e : RelationExpression R) : Text :=
  let '(RelationExpression_of operator schema facts origin) := e in
  let output := from_schema schema in
  write_tag "relation" ++ encode_schema schema output ++ encode_facts facts output
  ++ when_provenance (encode_origin origin)
  ++ match operator with
     | Scan source => write_tag "scan" ++ encode_source source
     | Filter input predicate =>
         write_tag "filter" ++ encode_relation input ++ encode_scalar predicate (from_schema (r_schema input))
     | Project input projections kind =>
         write_tag "project"
         ++ write_tag match kind with ScalarProjection => "scalar" | RelationProjection => "relation" end
         ++ encode_relation input
         ++ write_usize (length projections)
         ++ write_all (λ p, encode_column_id output (proj_column p)
                            ++ encode_scalar (proj_expression p) (from_schema (r_schema input))) projections
     | Join kind l r condition =>
         write_tag "join" ++ write_tag match kind with Inner => "inner" end
         ++ encode_relation l ++ encode_relation r
         ++ encode_scalar condition (from_join (r_schema l) (r_schema r))
     | Distinct input => write_tag "distinct" ++ encode_relation input
     | DistinctOn input columns =>
         write_tag "distinct-on" ++ encode_relation input
         ++ write_usize (length columns) ++ write_all (encode_column_id (from_schema (r_schema input))) columns
     | Sort input keys =>
         write_tag "sort" ++ encode_relation input
         ++ write_usize (length keys)
         ++ write_all (λ key, encode_sort_key key (from_schema (r_schema input))) keys
     end.
End encoder.

(** ** Normal forms *)

Record NormalizedQuery := {
  normalized_root : RelationExpression R;
  equivalence_key : Text;
  structural_key : Text;
}.

Inductive NormalizationOutcome :=
| Normalized (query : NormalizedQuery)
| Indecisive (failure : NormalizationFailure).

(** [normalize_relational_query_with_budget] and [normalize_relational_query]. *)
Definition normalize_with_budget (query : RelationalQuery R) (budget : NormalizationBudget) : NormalizationOutcome :=
  match (relation (query_root query) {| remaining_steps := max_steps budget; depth := 0 |}).1 with
  | Err failure => Indecisive failure
  | Ok root =>
      let semantic := encode_relation false root in
      let provenance := encode_relation true (query_root query) in
      Normalized {| normalized_root := root; equivalence_key := semantic;
                    structural_key := write_tag "normal-form-v1" ++ write_fragment semantic
                                      ++ write_tag "input-provenance-v1" ++ write_fragment provenance |}
  end.

Definition normalize_relational_query (query : RelationalQuery R) : NormalizationOutcome :=
  normalize_with_budget query default_budget.
End normalizer.
Arguments NormalizationFailure : clear implicits.
Arguments NormalizedQuery : clear implicits.
Arguments NormalizationOutcome : clear implicits.
