(* ===== verification/NormalForms.v ===== *)
(** * Forms and keys

    The form of an expression is what its equivalence key keeps: column positions
    in place of identities, and no origins.  A key is the text of a form, and texts
    of forms delimit themselves, so that two expressions have one key exactly when
    they have one form. *)

From stdpp Require Import pretty.
From S2P Require Import Prelude Utf8 BTree StableSort StrOps Codes FixPlan Model Resolver Navigation Relational Normalizer.

(** ** Self-delimiting texts *)

Class SelfDelimiting {A} (w : A → Text) : Prop :=
  self_delimiting a a' r r' : w a ++ r = w a' ++ r' → a = a' ∧ r = r'.

Definition digit_char (c : Ascii.ascii) : Prop := is_ascii_digit (Ascii.byte_of_ascii c) = true.

Fixpoint all_chars (P : Ascii.ascii → Prop) (s : string) : Prop :=
  match s with EmptyString => True | String c s => P c ∧ all_chars P s end.

Lemma pretty_char_digit n : digit_char (pretty_N_char n).
Proof. unfold digit_char, pretty_N_char. by repeat case_match. Qed.

Lemma pretty_go_digits n s : all_chars digit_char s → all_chars digit_char (pretty_N_go n s).
Proof.
  revert s. induction (N.lt_wf_0 n) as [n _ IH]; intros s Hs.
  assert (n = 0 ∨ 0 < n)%N as [->|?] by lia; [done|]. rewrite pretty_N_go_step by done.
  apply IH; [by apply N.div_lt|]. split; [apply pretty_char_digit|done].
Qed.

Lemma decimal_digits_only n : Forall (λ b, is_ascii_digit b = true) (txt (decimal n)).
Proof.
  assert (∀ s, all_chars digit_char s → Forall (λ b, is_ascii_digit b = true) (txt s)) as Hall.
  { induction s as [|c s IH]; [constructor|]. intros [Hc Hs]. constructor; [exact Hc|by apply IH]. }
  apply Hall. unfold decimal, pretty, pretty_N. destruct (decide _); [done|]. by apply pretty_go_digits.
Qed.

#[global] Instance txt_inj : Inj (=) (=) txt.
Proof. intros s s' E. apply (f_equal String.string_of_list_byte) in E. unfold txt in E. by rewrite !String.string_of_list_byte_of_string in E. Qed.

#[global] Instance decimal_text_inj : Inj (=) (=) (λ n, txt (decimal n)).
Proof. intros n n' E%txt_inj. by apply pretty_N_inj in E. Qed.

Lemma digits_colon (a a' v v' : Text) :
  Forall (λ b, is_ascii_digit b = true) a → Forall (λ b, is_ascii_digit b = true) a' →
  a ++ txt ":" ++ v = a' ++ txt ":" ++ v' → a = a' ∧ v = v'.
Proof.
  intros Ha. revert a'. induction Ha as [|b a Hb Ha IH]; intros a' Ha'; destruct Ha' as [|b' a' Hb' Ha'].
  - by intros [= ->].
  - intros [= <- _]. discriminate Hb'.
  - intros [= -> _]. discriminate Hb.
  - intros [= <- E]. destruct (IH a' Ha' E) as [-> ->]. done.
Qed.

#[global] Instance write_fragment_delimits : SelfDelimiting write_fragment.
Proof.
  intros a a' r r'. unfold write_fragment. rewrite <-!(assoc_L (++)). intros E.
  apply digits_colon in E as [El E]; [|apply decimal_digits_only..]. apply (decimal_text_inj _ _) in El.
  apply app_inj_1 in E; [done|lia].
Qed.

#[global] Instance write_tag_delimits : SelfDelimiting write_tag.
Proof. intros a a' r r' [E%txt_inj ->]%write_fragment_delimits. done. Qed.

#[global] Instance write_usize_delimits : SelfDelimiting write_usize.
Proof. intros a a' r r' [E ->]%write_fragment_delimits. apply (decimal_text_inj _ _) in E. split; [lia|done]. Qed.

Lemma write_decimal_delimits : SelfDelimiting (λ n, write_fragment (txt (decimal n))).
Proof. intros a a' r r' [E ->]%write_fragment_delimits. by apply (decimal_text_inj _ _) in E as ->. Qed.

(** A number is not a word. *)
Lemma decimal_not_word n b (t : Text) : is_ascii_digit b = false → txt (decimal n) ≠ b :: t.
Proof. intros Hb E. pose proof (decimal_digits_only n) as Hd. rewrite E in Hd. inversion Hd. congruence. Qed.

Lemma write_all_delimits {A} (w : A → Text) l l' r r' :
  Forall (λ a, ∀ a' r r', w a ++ r = w a' ++ r' → a = a' ∧ r = r') l → length l = length l' →
  write_all w l ++ r = write_all w l' ++ r' → l = l' ∧ r = r'.
Proof.
  intros Hw. revert l' r r'. induction Hw as [|a l Ha Hw IH]; intros [|a' l'] r r' Hl; try done.
  unfold write_all in *. rewrite !fmap_cons. cbn [concat]. rewrite <-!(assoc_L (++)). intros [-> E]%Ha.
  apply IH in E as [-> ->]; [done|by injection Hl].
Qed.

Lemma write_all_self {A} (w : A → Text) `{!SelfDelimiting w} l l' r r' :
  length l = length l' → write_all w l ++ r = write_all w l' ++ r' → l = l' ∧ r = r'.
Proof. intros Hl. apply write_all_delimits; [|done]. apply Forall_forall. intros a _. apply self_delimiting. Qed.

Lemma write_all_map {A} (w : A → Text) l : concat (map w l) = write_all w l.
Proof. reflexivity. Qed.

Lemma write_all_fmap {A B} (w : B → Text) (f : A → B) l : write_all w (f <$> l) = write_all (λ a, w (f a)) l.
Proof. unfold write_all. by rewrite <-list_fmap_compose. Qed.

Lemma write_all_ext {A} (w w' : A → Text) l : (∀ a, w a = w' a) → write_all w l = write_all w' l.
Proof. intros Hw. unfold write_all. f_equal. by apply list_fmap_ext. Qed.

(** Takes the next fragment off both sides of an equation. *)
Ltac peel H :=
  rewrite <-?(assoc_L (++)) in H;
  let E := fresh "E" in
  apply self_delimiting in H as [E H]; try discriminate E.

Ltac words := exfalso; match goal with
  | E : txt (decimal _) = txt _ |- _ => by apply decimal_not_word in E
  | E : txt _ = txt (decimal _) |- _ => symmetry in E; by apply decimal_not_word in E
  end.

#[global] Instance type_ref_delimits : SelfDelimiting encode_type_ref.
Proof.
  intros t. induction t as [raw arguments IH] using TypeRef_induction. intros [raw' arguments'] r r' Ht. cbn [encode_type_ref] in Ht.
  rewrite !write_all_map in Ht. peel Ht. peel Ht. peel Ht. subst. apply write_all_delimits in Ht as [-> ->]; [done| |done].
  eapply Forall_impl; [exact IH|]. intros a Ha a' s s'. apply Ha.
Qed.

#[global] Instance multiplicity_delimits : SelfDelimiting encode_multiplicity.
Proof.
  intros [l u] [l' u'] r r' Hm. unfold encode_multiplicity in Hm. cbn [lower upper] in Hm. peel Hm. peel Hm.
  apply (decimal_text_inj _ _) in E0 as ->. destruct u as [u|], u' as [u'|]; unfold write_tag in Hm; peel Hm; [|words..|].
  - by apply (decimal_text_inj _ _) in E0 as ->.
  - done.
Qed.

#[global] Instance nullability_delimits : SelfDelimiting encode_nullability.
Proof. intros [] [] r r' Hn; unfold encode_nullability in Hn; by peel Hn. Qed.

#[global] Instance literal_delimits : SelfDelimiting encode_literal.
Proof.
  intros [b|z|s|] [b'|z'|s'|] r r' Hl; unfold encode_literal in Hl; peel Hl; try done; peel Hl; try by subst.
  - by destruct b, b'.
  - by apply pretty_Z_inj in E0 as ->.
Qed.

#[global] Instance member_kind_delimits : SelfDelimiting encode_member_kind.
Proof.
  intros [k| |a] [k'| |a'] r r' Hk; unfold encode_member_kind in Hk; peel Hk; try done; peel Hk; [|by subst].
  by destruct k, k'.
Qed.

#[global] Instance sort_direction_delimits :
  SelfDelimiting (λ d, write_tag match d with Ascending => "ascending" | Descending => "descending" end).
Proof. intros [] [] r r' Hd; by peel Hd. Qed.

#[global] Instance projection_kind_delimits :
  SelfDelimiting (λ k, write_tag match k with ScalarProjection => "scalar" | RelationProjection => "relation" end).
Proof. intros [] [] r r' Hd; by peel Hd. Qed.

(** A list with its length, an optional number, and a fact without its origin. *)
Definition text_list {A} (w : A → Text) (l : list A) : Text := write_usize (length l) ++ write_all w l.

Definition text_position (word : string) (position : option nat) : Text :=
  match position with Some position => write_usize position | None => write_tag word end.

Definition text_fact {T} (w : T → Text) (fact : option T) : Text :=
  match fact with Some value => write_tag "proven" ++ w value | None => write_tag "unknown" end.

#[global] Instance text_list_delimits {A} (w : A → Text) `{!SelfDelimiting w} : SelfDelimiting (text_list w).
Proof. intros l l' r r' Hl. unfold text_list in Hl. peel Hl. by apply (write_all_self w) in Hl. Qed.

Lemma text_position_delimits b (t : Text) word :
  txt word = b :: t → is_ascii_digit b = false → SelfDelimiting (text_position word).
Proof.
  intros Hword Hb [n|] [n'|] r r' E; unfold text_position, write_usize, write_tag in E; peel E.
  - by apply (decimal_text_inj _ _) in E0 as ->%(inj N.of_nat).
  - rewrite Hword in E0. by apply decimal_not_word in E0.
  - rewrite Hword in E0. symmetry in E0. by apply decimal_not_word in E0.
  - done.
Qed.

#[global] Instance missing_delimits : SelfDelimiting (text_position "missing").
Proof. by eapply text_position_delimits. Qed.

#[global] Instance no_arity_delimits : SelfDelimiting (text_position "no-target-temporal-arity").
Proof. by eapply text_position_delimits. Qed.

#[global] Instance text_fact_delimits {T} (w : T → Text) `{!SelfDelimiting w} : SelfDelimiting (text_fact w).
Proof. intros [v|] [v'|] r r' Hf; unfold text_fact in Hf; peel Hf; try done. by peel Hf; subst. Qed.

(** ** Forms *)

Record class_form := { cf_path : QName; cf_temporal : option Temporal }.

Record member_form := {
  mf_owner : class_form; mf_name : Name; mf_target : TypeRef; mf_multiplicity : Multiplicity;
  mf_kind : ResolvedMemberKind; mf_signature : option (list TypeRef); mf_arity : option nat;
}.

Record column_form := {
  uf_position : option nat; uf_name : Name; uf_type : TypeRef; uf_multiplicity : Multiplicity;
  uf_nullability : Nullability;
}.

Record value_form := {
  vf_type : TypeRef; vf_multiplicity : Multiplicity; vf_nullability : Nullability; vf_totality : option Totality;
}.

Inductive scalar_form :=
| SColumn (value : value_form) (position : option nat)
| SLiteral (value : value_form) (literal : ScalarLiteral)
| SNavigation (value : value_form) (input : scalar_form) (member : member_form)
| SEqual (value : value_form) (l r : scalar_form)
| SNot (value : value_form) (input : scalar_form).

Record output_form := {
  of_columns : list column_form; of_keys : option (list (list nat)); of_rows : option RowSemantics;
}.

Inductive relation_form :=
| FScan (output : output_form) (class : class_form)
| FFilter (output : output_form) (input : relation_form) (predicate : scalar_form)
| FProject (output : output_form) (kind : ProjectionKind) (input : relation_form)
    (projections : list (option nat * scalar_form))
| FJoin (output : output_form) (kind : JoinKind) (l r : relation_form) (condition : scalar_form)
| FDistinct (output : output_form) (input : relation_form)
| FDistinctOn (output : output_form) (input : relation_form) (columns : list (option nat))
| FSort (output : output_form) (input : relation_form) (keys : list (option nat * SortDirection)).

(** Their texts. *)
Definition text_class (c : class_form) : Text :=
  write_tag "resolved-class" ++ write_fragment (cf_path c)
  ++ write_tag match cf_temporal c with
     | None => "non-temporal" | Some Bitemporal => "bitemporal"
     | Some BusinessTemporal => "business-temporal" | Some ProcessingTemporal => "processing-temporal"
     end.

Definition text_signature (signature : option (list TypeRef)) : Text :=
  match signature with
  | Some signature => write_tag "signature" ++ text_list encode_type_ref signature
  | None => write_tag "no-signature"
  end.

Definition text_member (m : member_form) : Text :=
  write_tag "resolved-member" ++ text_class (mf_owner m) ++ write_fragment (mf_name m)
  ++ encode_type_ref (mf_target m) ++ encode_multiplicity (mf_multiplicity m) ++ encode_member_kind (mf_kind m)
  ++ text_signature (mf_signature m) ++ text_position "no-target-temporal-arity" (mf_arity m).

Definition text_column_id (position : option nat) : Text := write_tag "column-id" ++ text_position "missing" position.

Definition text_column (u : column_form) : Text :=
  write_tag "column" ++ text_column_id (uf_position u) ++ write_fragment (uf_name u) ++ encode_type_ref (uf_type u)
  ++ encode_multiplicity (uf_multiplicity u) ++ encode_nullability (uf_nullability u).

Definition text_totality (t : Totality) : Text := write_tag match t with Total => "total" | Partial => "partial" end.

Definition text_rows (t : RowSemantics) : Text := write_tag match t with SetRows => "set" | BagRows => "bag" end.

Definition text_value (v : value_form) : Text :=
  write_tag "scalar" ++ encode_type_ref (vf_type v) ++ encode_multiplicity (vf_multiplicity v)
  ++ encode_nullability (vf_nullability v) ++ write_tag "totality" ++ text_fact text_totality (vf_totality v).

Fixpoint text_scalar (s : scalar_form) : Text :=
  match s with
  | SColumn value position => text_value value ++ write_tag "column" ++ text_column_id position
  | SLiteral value literal => text_value value ++ encode_literal literal
  | SNavigation value input member => text_value value ++ write_tag "navigation" ++ text_scalar input ++ text_member member
  | SEqual value l r => text_value value ++ write_tag "equal" ++ text_scalar l ++ text_scalar r
  | SNot value input => text_value value ++ write_tag "not" ++ text_scalar input
  end.

Definition text_output (o : output_form) : Text :=
  write_tag "relation" ++ write_tag "schema" ++ text_list text_column (of_columns o) ++ write_tag "facts"
  ++ write_tag "keys" ++ text_fact (text_list (text_list write_usize)) (of_keys o)
  ++ write_tag "row-semantics" ++ text_fact text_rows (of_rows o).

Definition text_projection (p : option nat * scalar_form) : Text := text_column_id p.1 ++ text_scalar p.2.

Definition text_sort_key (k : option nat * SortDirection) : Text :=
  write_tag "sort-key" ++ text_column_id k.1
  ++ write_tag match k.2 with Ascending => "ascending" | Descending => "descending" end.

Fixpoint text_relation (f : relation_form) : Text :=
  match f with
  | FScan output class => text_output output ++ write_tag "scan" ++ write_tag "class" ++ text_class class
  | FFilter output input predicate =>
      text_output output ++ write_tag "filter" ++ text_relation input ++ text_scalar predicate
  | FProject output kind input projections =>
      text_output output ++ write_tag "project"
      ++ write_tag match kind with ScalarProjection => "scalar" | RelationProjection => "relation" end
      ++ text_relation input ++ text_list text_projection projections
  | FJoin output kind l r condition =>
      text_output output ++ write_tag "join" ++ write_tag match kind with Inner => "inner" end
      ++ text_relation l ++ text_relation r ++ text_scalar condition
  | FDistinct output input => text_output output ++ write_tag "distinct" ++ text_relation input
  | FDistinctOn output input columns =>
      text_output output ++ write_tag "distinct-on" ++ text_relation input ++ text_list text_column_id columns
  | FSort output input keys => text_output output ++ write_tag "sort" ++ text_relation input ++ text_list text_sort_key keys
  end.

(** ** Texts delimit themselves *)

#[global] Instance class_delimits : SelfDelimiting text_class.
Proof.
  intros [p t] [p' t'] r r' H. unfold text_class in H. cbn [cf_path cf_temporal] in H. peel H. peel H. peel H.
  subst. destruct t as [[]|], t' as [[]|]; first [discriminate|done].
Qed.

#[global] Instance signature_delimits : SelfDelimiting text_signature.
Proof. intros [s|] [s'|] r r' H; unfold text_signature in H; peel H; try done. by peel H; subst. Qed.

#[global] Instance member_delimits : SelfDelimiting text_member.
Proof.
  intros [] [] r r' H. unfold text_member in H.
  cbn [mf_owner mf_name mf_target mf_multiplicity mf_kind mf_signature mf_arity] in H. do 8 peel H. by subst.
Qed.

#[global] Instance column_id_delimits : SelfDelimiting text_column_id.
Proof. intros p p' r r' H. unfold text_column_id in H. peel H. by peel H. Qed.

#[global] Instance column_delimits : SelfDelimiting text_column.
Proof.
  intros [] [] r r' H. unfold text_column in H. cbn [uf_position uf_name uf_type uf_multiplicity uf_nullability] in H.
  do 6 peel H. by subst.
Qed.

#[global] Instance totality_delimits : SelfDelimiting text_totality.
Proof. intros [] [] r r' H; unfold text_totality in H; by peel H. Qed.

#[global] Instance rows_delimits : SelfDelimiting text_rows.
Proof. intros [] [] r r' H; unfold text_rows in H; by peel H. Qed.

#[global] Instance value_delimits : SelfDelimiting text_value.
Proof.
  intros [] [] r r' H. unfold text_value in H. cbn [vf_type vf_multiplicity vf_nullability vf_totality] in H.
  do 6 peel H. by subst.
Qed.

(** Takes a literal, whose text starts with one of four words, off a side where
    the other starts with another word. *)
Ltac literal_apart H := exfalso;
  repeat match type of H with context [encode_literal ?l] => is_var l; destruct l end;
  unfold encode_literal in H; peel H.

#[global] Instance scalar_delimits : SelfDelimiting text_scalar.
Proof.
  intros s. induction s as [v p|v l|v i IH m|v a IHa b IHb|v i IH]; intros [v' p'|v' l'|v' i' m'|v' a' b'|v' i'] r r' H;
    cbn [text_scalar] in H; peel H; try (literal_apart H; fail); subst.
  - peel H. peel H. by subst.
  - peel H. by subst.
  - peel H; try done. rewrite <-?(assoc_L (++)) in H. apply IH in H as [-> H]. peel H. by subst.
  - peel H; try done. rewrite <-?(assoc_L (++)) in H. apply IHa in H as [-> H]. apply IHb in H as [-> H]. by subst.
  - peel H; try done. by apply IH in H as [-> ->].
Qed.

#[global] Instance output_delimits : SelfDelimiting text_output.
Proof.
  intros [] [] r r' H. unfold text_output in H. cbn [of_columns of_keys of_rows] in H. do 8 peel H. by subst.
Qed.

#[global] Instance projection_delimits : SelfDelimiting text_projection.
Proof. intros [] [] r r' H. unfold text_projection in H. cbn [fst snd] in H. do 2 peel H. by subst. Qed.

#[global] Instance sort_key_delimits : SelfDelimiting text_sort_key.
Proof. intros [? d] [? d'] r r' H. unfold text_sort_key in H. cbn [fst snd] in H. do 3 peel H. subst. by destruct d, d'. Qed.

#[global] Instance relation_delimits : SelfDelimiting text_relation.
Proof.
  intros f. induction f as [o c|o i IH p|o k i IH ps|o k a IHa b IHb c|o i IH|o i IH cs|o i IH ks];
    intros [o' c'|o' i' p'|o' k' i' ps'|o' k' a' b' c'|o' i'|o' i' cs'|o' i' ks'] r r' H;
    cbn [text_relation] in H; peel H; peel H; try done; subst.
  - peel H. peel H. by subst.
  - rewrite <-?(assoc_L (++)) in H. apply IH in H as [-> H]. peel H. by subst.
  - rewrite <-?(assoc_L (++)) in H. apply (projection_kind_delimits k k') in H as [-> H]. apply IH in H as [-> H].
    peel H. by subst.
  - peel H. rewrite <-?(assoc_L (++)) in H. apply IHa in H as [-> H]. apply IHb in H as [-> H]. peel H.
    destruct k, k'. by subst.
  - by apply IH in H as [-> ->].
  - rewrite <-?(assoc_L (++)) in H. apply IH in H as [-> H]. peel H. by subst.
  - rewrite <-?(assoc_L (++)) in H. apply IH in H as [-> H]. peel H. by subst.
Qed.

#[global] Instance text_relation_inj : Inj (=) (=) text_relation.
Proof. intros f g E. apply (f_equal (.++ [])) in E. by apply self_delimiting in E as [-> _]. Qed.

(** ** The form of an expression *)

Section forms.
Context {R : Type} `{TextRangeModel R}.

Definition form_of_class (class : ResolvedClass R) : class_form :=
  {| cf_path := rcl_path class; cf_temporal := rcl_temporal class |}.

Definition form_of_member (member : ResolvedMember R) : member_form :=
  {| mf_owner := form_of_class (rm_owner member); mf_name := rm_name member; mf_target := rm_target member;
     mf_multiplicity := rm_multiplicity member; mf_kind := rm_kind member; mf_signature := rm_signature member;
     mf_arity := rm_target_temporal_arity member |}.

Definition form_of_column (scope : ColumnScope) (column : Column R) : column_form :=
  {| uf_position := scope_position_of scope (col_id column); uf_name := col_name column; uf_type := col_type column;
     uf_multiplicity := col_multiplicity column; uf_nullability := col_nullability column |}.

Definition fact_value {T} (k : Knowledge R T) : option T := fst <$> as_proven k.

Definition form_of_value (e : ScalarExpression R) : value_form :=
  {| vf_type := s_type e; vf_multiplicity := s_multiplicity e; vf_nullability := s_nullability e;
     vf_totality := fact_value (s_totality e) |}.

Fixpoint form_of_scalar (scope : ColumnScope) (e : ScalarExpression R) : scalar_form :=
  match e with
  | ScalarExpression_new operator _ _ _ _ _ =>
      match operator with
      | ColumnRead column => SColumn (form_of_value e) (scope_position_of scope column)
      | Literal literal => SLiteral (form_of_value e) literal
      | NavigationOf input navigation =>
          SNavigation (form_of_value e) (form_of_scalar scope input) (form_of_member (nav_member navigation))
      | Equal l r => SEqual (form_of_value e) (form_of_scalar scope l) (form_of_scalar scope r)
      | Not input => SNot (form_of_value e) (form_of_scalar scope input)
      end
  end.

Definition form_of_output (schema : RelationSchema R) (facts : RelationFacts R) : output_form :=
  let scope := from_schema schema in
  {| of_columns := form_of_column scope <$> schema_columns schema;
     of_keys := keys_positions scope <$> fact_value (candidate_keys facts);
     of_rows := fact_value (row_semantics facts) |}.

Definition form_of_projection (output input : ColumnScope) (p : Projection R) : option nat * scalar_form :=
  (scope_position_of output (proj_column p), form_of_scalar input (proj_expression p)).

Definition form_of_sort_key (input : ColumnScope) (key : SortKey R) : option nat * SortDirection :=
  (scope_position_of input (sort_column key), sort_direction key).

Fixpoint form_of_relation (e : RelationExpression R) : relation_form :=
  let '(RelationExpression_of operator schema facts _) := e in
  let output := form_of_output schema facts in
  match operator with
  | Scan (ClassSource class) => FScan output (form_of_class class)
  | Filter input predicate =>
      FFilter output (form_of_relation input) (form_of_scalar (from_schema (r_schema input)) predicate)
  | Project input projections kind =>
      FProject output kind (form_of_relation input)
        (form_of_projection (from_schema schema) (from_schema (r_schema input)) <$> projections)
  | Join kind l r condition =>
      FJoin output kind (form_of_relation l) (form_of_relation r)
        (form_of_scalar (from_join (r_schema l) (r_schema r)) condition)
  | Distinct input => FDistinct output (form_of_relation input)
  | DistinctOn input columns =>
      FDistinctOn output (form_of_relation input) (scope_position_of (from_schema (r_schema input)) <$> columns)
  | Sort input keys =>
      FSort output (form_of_relation input) (form_of_sort_key (from_schema (r_schema input)) <$> keys)
  end.

(** Induction through the operator. *)
Definition scalar_inputs (P : ScalarExpression R → Prop) (o : ScalarOperator R (ScalarExpression R)) : Prop :=
  match o with
  | ColumnRead _ | Literal _ => True
  | NavigationOf input _ | Not input => P input
  | Equal l r => P l ∧ P r
  end.

Definition scalar_expression_ind (P : ScalarExpression R → Prop)
    (step : ∀ o t m n k g, scalar_inputs P o → P (ScalarExpression_new o t m n k g)) : ∀ e, P e :=
  fix go e := match e with
  | ScalarExpression_new o t m n k g => step o t m n k g
      match o return scalar_inputs P o with
      | ColumnRead _ | Literal _ => I
      | NavigationOf input _ | Not input => go input
      | Equal l r => conj (go l) (go r)
      end
  end.

Definition relation_inputs (P : RelationExpression R → Prop) (o : RelationOperator R (RelationExpression R)) : Prop :=
  match o with
  | Scan _ => True
  | Filter input _ | Project input _ _ | Distinct input | DistinctOn input _ | Sort input _ => P input
  | Join _ l r _ => P l ∧ P r
  end.

Definition relation_expression_ind (P : RelationExpression R → Prop)
    (step : ∀ o s f g, relation_inputs P o → P (RelationExpression_of o s f g)) : ∀ e, P e :=
  fix go e := match e with
  | RelationExpression_of o s f g => step o s f g
      match o return relation_inputs P o with
      | Scan _ => I
      | Filter input _ | Project input _ _ | Distinct input | DistinctOn input _ | Sort input _ => go input
      | Join _ l r _ => conj (go l) (go r)
      end
  end.

(** The key without provenance is the text of the form. *)
Lemma encode_class_form class : encode_class false class = text_class (form_of_class class).
Proof. unfold encode_class, text_class. simpl. by rewrite app_nil_r. Qed.

Lemma encode_member_form member : encode_member false member = text_member (form_of_member member).
Proof.
  unfold encode_member, text_member. rewrite encode_class_form. unfold when_provenance. rewrite app_nil_r. by destruct member as [? ? ? ? ? ? [] ?].
Qed.

Lemma encode_knowledge_form {T} (w : T → Text) k : encode_knowledge false w k = text_fact w (fact_value k).
Proof. destruct k; simpl; [by rewrite app_nil_r|done]. Qed.

Lemma encode_scalar_form scope e : encode_scalar false e scope = text_scalar (form_of_scalar scope e).
Proof.
  induction e as [o t m n k g IH] using scalar_expression_ind. cbn [encode_scalar form_of_scalar].
  unfold encode_totality. rewrite encode_knowledge_form.
  destruct o as [c|l|i v|a b|i]; cbn [text_scalar scalar_inputs] in *; unfold text_value; cbn [vf_type vf_multiplicity vf_nullability vf_totality form_of_value s_type s_multiplicity s_nullability s_totality when_provenance app];
    rewrite <-!(assoc_L (++)); [done|done|by rewrite IH, encode_member_form|by destruct IH as [-> ->]|by rewrite IH].
Qed.

Lemma encode_output_form schema facts :
  write_tag "relation" ++ encode_schema false schema (from_schema schema) ++ encode_facts false facts (from_schema schema)
  = text_output (form_of_output schema facts).
Proof.
  unfold encode_schema, encode_facts, encode_keys, encode_row_semantics, text_output, text_list.
  rewrite !encode_knowledge_form. cbn [form_of_output of_columns of_keys of_rows].
  rewrite length_fmap, write_all_fmap, <-!(assoc_L (++)).
  assert (∀ c, encode_column false c (from_schema schema) = text_column (form_of_column (from_schema schema) c)) as Hc.
  { intros c. unfold encode_column, text_column. simpl. by rewrite app_nil_r. }
  rewrite (write_all_ext _ _ _ Hc). do 5 f_equal. by destruct (candidate_keys facts).
Qed.

Lemma encode_relation_form e : encode_relation false e = text_relation (form_of_relation e).
Proof.
  induction e as [o s f g IH] using relation_expression_ind. cbn [encode_relation form_of_relation].
  cbn [when_provenance app].
  assert (∀ t, write_tag "relation" ++ encode_schema false s (from_schema s) ++ encode_facts false f (from_schema s) ++ t
    = text_output (form_of_output s f) ++ t) as Ho.
  { intros t. by rewrite <-encode_output_form, <-!(assoc_L (++)). }
  rewrite Ho. clear Ho.
  destruct o as [[c]|i p|i ps k|k a b c|i|i cs|i ks]; cbn [text_relation relation_inputs] in *; f_equal.
  - by rewrite <-encode_class_form.
  - by rewrite IH, encode_scalar_form.
  - rewrite IH. do 3 f_equal. unfold text_list. rewrite length_fmap, write_all_fmap. f_equal.
    apply write_all_ext. intros p. unfold text_projection. simpl. by rewrite encode_scalar_form.
  - destruct IH as [-> ->]. by rewrite encode_scalar_form.
  - by rewrite IH.
  - rewrite IH. unfold text_list. by rewrite length_fmap, write_all_fmap.
  - rewrite IH. unfold text_list. rewrite length_fmap, write_all_fmap. do 3 f_equal.
    apply write_all_ext. intros key. unfold encode_sort_key, text_sort_key. simpl. by rewrite app_nil_r.
Qed.

(** Two expressions have one equivalence key exactly when they have one form. *)
Lemma keys_decide_forms e e' : encode_relation false e = encode_relation false e' ↔ form_of_relation e = form_of_relation e'.
Proof. rewrite !encode_relation_form. split; [apply (inj _)|by intros ->]. Qed.
End forms.
