(* ===== verification/Rewrites.v ===== *)
(** * What normalization computes

    The normalizer as a function without a budget, the exact budget it takes, and
    what it keeps: schemas, facts, and the rows of a query under every meaning of
    its classes, members and literals. *)

From S2P Require Import Prelude Utf8 BTree StableSort StrOps Codes FixPlan Model Resolver Navigation Relational Normalizer NormalForms.

(** ** Constructed expressions *)

Section rewrites.
Context {R : Type} `{TextRangeModel R}.

(** The operator with its inputs replaced. *)
Definition operator_map (f : RelationExpression R → RelationExpression R)
    (o : RelationOperator R (RelationExpression R)) : RelationOperator R (RelationExpression R) :=
  match o with
  | Scan source => Scan source
  | Filter input predicate => Filter (f input) predicate
  | Project input projections kind => Project (f input) projections kind
  | Join kind l r condition => Join kind (f l) (f r) condition
  | Distinct input => Distinct (f input)
  | DistinctOn input columns => DistinctOn (f input) columns
  | Sort input keys => Sort (f input) keys
  end.

(** What the constructors of schemas and relations accept. *)
Fixpoint built (e : RelationExpression R) : Prop :=
  let '(RelationExpression_of o s f g) := e in
  RelationSchema_new (schema_columns s) = Ok s ∧ RelationExpression_new o s f g = Ok e ∧ relation_inputs built o.

(** ** The function *)

Definition reduce (o : RelationOperator R (RelationExpression R)) (s : RelationSchema R) (f : RelationFacts R)
    (g : IrOrigin R) : RelationExpression R :=
  let e := RelationExpression_of o s f g in
  match o with
  | Filter input predicate => if is_literal_true_filter input s f predicate then input else e
  | Project input projections _ => if is_identity_project input s f projections then input else e
  | Distinct input => if is_repeated_distinct input s f then input else e
  | _ => e
  end.

Fixpoint simplify (e : RelationExpression R) : RelationExpression R :=
  let '(RelationExpression_of o s f g) := e in reduce (operator_map simplify o) s f g.

(** Its steps and its depth. *)
Fixpoint scalar_size (e : ScalarExpression R) : nat :=
  let '(ScalarExpression_new o _ _ _ _ _) := e in
  S match o with
    | ColumnRead _ | Literal _ => 0
    | NavigationOf input _ | Not input => scalar_size input
    | Equal l r => scalar_size l + scalar_size r
    end.

Fixpoint scalar_height (e : ScalarExpression R) : nat :=
  let '(ScalarExpression_new o _ _ _ _ _) := e in
  S match o with
    | ColumnRead _ | Literal _ => 0
    | NavigationOf input _ | Not input => scalar_height input
    | Equal l r => scalar_height l `max` scalar_height r
    end.

Definition projections_size (ps : list (Projection R)) : nat := sum_list (scalar_size <$> (proj_expression <$> ps)).
Definition projections_height (ps : list (Projection R)) : nat :=
  foldr max 0 (scalar_height <$> (proj_expression <$> ps)).

Fixpoint relation_size (e : RelationExpression R) : nat :=
  let '(RelationExpression_of o _ _ _) := e in
  S match o with
    | Scan _ => 0
    | Filter input predicate => relation_size input + scalar_size predicate
    | Project input projections _ => relation_size input + projections_size projections
    | Join _ l r condition => relation_size l + (relation_size r + scalar_size condition)
    | Distinct input | DistinctOn input _ | Sort input _ => relation_size input
    end.

Fixpoint relation_height (e : RelationExpression R) : nat :=
  let '(RelationExpression_of o _ _ _) := e in
  S match o with
    | Scan _ => 0
    | Filter input predicate => relation_height input `max` scalar_height predicate
    | Project input projections _ => relation_height input `max` projections_height projections
    | Join _ l r condition => relation_height l `max` (relation_height r `max` scalar_height condition)
    | Distinct input | DistinctOn input _ | Sort input _ => relation_height input
    end.

(** ** Runs *)

Definition fits (s : Normalizer) (size height : nat) : Prop :=
  size ≤ remaining_steps s ∧ depth s + height ≤ MAX_RELATIONAL_RECURSION_DEPTH.

(** A run with a result, the steps it takes and the depth it needs; without
    them it fails. *)
Definition Costs {A} (m : Run (R:=R) A) (size height : nat) (x : A) : Prop :=
  ∀ s, depth s ≤ MAX_RELATIONAL_RECURSION_DEPTH →
    (fits s size height → m s = (Ok x, {| remaining_steps := remaining_steps s - size; depth := depth s |})) ∧
    (¬ fits s size height → ∃ f s', m s = (Err f, s') ∧ failure_reason f = IndMissingRewrite).

Lemma ret_costs {A} (x : A) : Costs (run_ret x) 0 0 x.
Proof.
  intros [n d] Hd. unfold fits. simpl in *. split; [|lia]. intros _. by rewrite Nat.sub_0_r.
Qed.

Lemma bind_costs {A B} (m : Run A) (k : A → Run B) a h b h' x y :
  Costs m a h x → Costs (k x) b h' y → Costs (run_bind m k) (a + b) (h `max` h') y.
Proof.
  intros Hm Hk s Hd. destruct (Hm s Hd) as [Hok Hno]. unfold run_bind.
  assert (fits s a h ∨ ¬ fits s a h) as [Hf|Hf] by (unfold fits; lia).
  - rewrite (Hok Hf). destruct (Hk {| remaining_steps := remaining_steps s - a; depth := depth s |} Hd) as [Hok' Hno'].
    unfold fits in *. simpl in *. split.
    + intros ?. rewrite Hok' by lia. do 2 f_equal. lia.
    + intros ?. apply Hno'. lia.
  - destruct (Hno Hf) as (f & s' & E & Hr). rewrite E. split; [unfold fits in *; lia|]. intros _. by exists f, s'.
Qed.

Lemma at_depth_costs {A} origin (m : Run A) a h x : Costs m a h x → Costs (at_depth origin m) (S a) (S h) x.
Proof.
  intros Hm [n d] Hd. unfold at_depth, run_bind, consume_step, enter, fits. cbn [remaining_steps depth] in *.
  destruct n as [|n]; [split; [lia|]; intros _; by eexists _, _|]. cbn [remaining_steps depth].
  destruct (_ <=? _) eqn:E; [apply Nat.leb_le in E; split; [lia|]; intros _; by eexists _, _|].
  apply Nat.leb_gt in E. destruct (Hm {| remaining_steps := n; depth := S d |} E) as [Hok Hno].
  unfold fits in *. cbn [remaining_steps depth] in *. split.
  - intros ?. rewrite Hok by lia. cbn [remaining_steps depth]. do 2 f_equal; lia.
  - intros ?. destruct Hno as (f & s' & -> & Hr); [lia|]. by exists f, {| remaining_steps := remaining_steps s'; depth := depth s' - 1 |}.
Qed.

Lemma scalar_costs e : Costs (scalar e) (scalar_size e) (scalar_height e) e.
Proof.
  induction e as [o t m n k g IH] using scalar_expression_ind. cbn [scalar scalar_size scalar_height].
  apply at_depth_costs. destruct o as [c|l|i v|a b|i]; cbn [scalar_inputs] in IH.
  - apply ret_costs.
  - apply ret_costs.
  - rewrite <-(Nat.add_0_r (scalar_size i)), <-(Nat.max_0_r (scalar_height i)). eapply bind_costs; [done|apply ret_costs].
  - destruct IH as [IHa IHb]. eapply bind_costs; [done|].
    rewrite <-(Nat.add_0_r (scalar_size b)), <-(Nat.max_0_r (scalar_height b)). eapply bind_costs; [done|apply ret_costs].
  - rewrite <-(Nat.add_0_r (scalar_size i)), <-(Nat.max_0_r (scalar_height i)). eapply bind_costs; [done|apply ret_costs].
Qed.

(** The same with the result's expression before a [run_ret]. *)
Lemma bind_ret_costs {A B} (m : Run A) (k : A → Run B) a h x y :
  Costs m a h x → Costs (k x) 0 0 y → Costs (run_bind m k) a h y.
Proof. intros Hm Hk. rewrite <-(Nat.add_0_r a), <-(Nat.max_0_r h). by eapply bind_costs. Qed.

Lemma projections_costs ps : Costs (projections_in_order ps) (projections_size ps) (projections_height ps) ps.
Proof.
  induction ps as [|[c e] ps IH]; [apply ret_costs|]. cbn [projections_in_order].
  apply (bind_costs _ _ (scalar_size e) (scalar_height e) (projections_size ps) (projections_height ps) {| proj_column := c; proj_expression := e |}).
  - unfold projection. eapply bind_ret_costs; [apply scalar_costs|apply ret_costs].
  - eapply bind_ret_costs; [exact IH|apply ret_costs].
Qed.

Lemma rebuild_costs o s f g :
  RelationExpression_new o s f g = Ok (RelationExpression_of o s f g) →
  Costs (rebuild o s f g) 0 0 (RelationExpression_of o s f g).
Proof. intros E. unfold rebuild. rewrite E. apply ret_costs. Qed.

(** ** Operators over inputs with the same schemas *)

Definition keeps_schema (h : RelationExpression R → RelationExpression R) (e : RelationExpression R) : Prop :=
  r_schema (h e) = r_schema e.

Lemma validate_operator_map h o s :
  relation_inputs (keeps_schema h) o → validate_relation_operator (operator_map h o) s = validate_relation_operator o s.
Proof.
  unfold keeps_schema. destruct o as [c|i p|i ps k|k a b c|i|i cs|i ks]; cbn [relation_inputs operator_map];
    [done|intros E..]; unfold validate_relation_operator; [..|unfold validate_sort]; by (rewrite E || destruct E as [-> ->]).
Qed.

Lemma new_operator_map h o s f g :
  relation_inputs (keeps_schema h) o → RelationExpression_new o s f g = Ok (RelationExpression_of o s f g) →
  RelationExpression_new (operator_map h o) s f g = Ok (RelationExpression_of (operator_map h o) s f g).
Proof.
  intros Hk. unfold RelationExpression_new. rewrite (validate_operator_map h o s Hk).
  destruct (validate_relation_operator o s); [|done]. cbn [res_bind]. by destruct (validate_expression_keys _ _).
Qed.

Lemma relation_inputs_impl (P Q : RelationExpression R → Prop) o :
  (∀ e, P e → Q e) → relation_inputs P o → relation_inputs Q o.
Proof. intros HPQ. destruct o; cbn [relation_inputs]; try done; first [apply HPQ|intros [??]; split; by apply HPQ]. Qed.

Lemma relation_inputs_and (P Q : RelationExpression R → Prop) o :
  relation_inputs (λ e, P e ∧ Q e) o ↔ relation_inputs P o ∧ relation_inputs Q o.
Proof. destruct o; cbn [relation_inputs]; tauto. Qed.

Lemma relation_inputs_map (P : RelationExpression R → Prop) h o :
  relation_inputs P (operator_map h o) ↔ relation_inputs (λ e, P (h e)) o.
Proof. by destruct o. Qed.

(** ** What a rewrite keeps *)

Definition facts_agree (e e' : RelationExpression R) : Prop := facts_match (r_facts e) (r_facts e') = true.

Lemma matches_refl {T} `{EqDecision T} (k : Knowledge R T) : matches_ignoring_origin k k = true.
Proof. destruct k; unfold matches_ignoring_origin; simpl; [by apply bool_decide_eq_true|done]. Qed.

Lemma facts_match_refl (f : RelationFacts R) : facts_match f f = true.
Proof. unfold facts_match. by rewrite !matches_refl. Qed.

Lemma matches_sym {T} `{EqDecision T} (k k' : Knowledge R T) :
  matches_ignoring_origin k k' = matches_ignoring_origin k' k.
Proof. destruct k, k'; unfold matches_ignoring_origin; simpl; try done. by apply bool_decide_ext. Qed.

Lemma facts_match_sym (f g : RelationFacts R) : facts_match f g = facts_match g f.
Proof. unfold facts_match. by rewrite (matches_sym (candidate_keys f)), (matches_sym (row_semantics f)). Qed.

(** What the three conditions say. *)
Lemma literal_true_conditions i s f p :
  is_literal_true_filter i s f p = true → s = r_schema i ∧ f = r_facts i ∧ s_operator p = Literal (LitBoolean true).
Proof.
  unfold is_literal_true_filter. rewrite !andb_true_iff, !bool_decide_eq_true.
  intros [[[-> ->] _] E]. split_and!; [done..|]. destruct (s_operator p) as [|[[]| | |]| | |]; done.
Qed.

Lemma identity_project_conditions i s f ps :
  is_identity_project i s f ps = true →
  s = r_schema i ∧ f = r_facts i ∧
  Forall2 (λ p c, is_identity_read p c = true) ps (schema_columns s).
Proof.
  unfold is_identity_project. rewrite !andb_true_iff, !bool_decide_eq_true, Nat.eqb_eq.
  intros [[[-> ->] Hl] Ha]. split_and!; [done..|]. revert Ha Hl. generalize (schema_columns (r_schema i)).
  induction ps as [|p ps IH]; intros [|c cs]; simpl; [constructor|done|done|].
  rewrite andb_true_iff. intros [Hp Ha] [= Hl]. constructor; [done|by apply IH].
Qed.

Lemma repeated_distinct_conditions i s f :
  is_repeated_distinct i s f = true → s = r_schema i ∧ facts_match f (r_facts i) = true ∧ ∃ j, r_operator i = Distinct j.
Proof.
  unfold is_repeated_distinct. rewrite !andb_true_iff, bool_decide_eq_true.
  intros [[-> Hf] E]. split_and!; [done..|]. destruct (r_operator i); try done. by eexists.
Qed.

(** A rewrite is its expression or an input with the same schema and facts. *)
Lemma reduce_cases o s f g :
  reduce o s f g = RelationExpression_of o s f g ∨
  ∃ i, reduce o s f g = i ∧ s = r_schema i ∧ facts_match (r_facts i) f = true ∧
    ∀ P, relation_inputs P o → P i.
Proof.
  destruct o as [c|i p|i ps k|k a b c|i|i cs|i ks]; cbn [reduce relation_inputs]; try (by left).
  - destruct (is_literal_true_filter _ _ _ _) eqn:E; [right|by left].
    apply literal_true_conditions in E as (-> & -> & _). exists i. by split_and!; [..|apply facts_match_refl|].
  - destruct (is_identity_project _ _ _ _) eqn:E; [right|by left].
    apply identity_project_conditions in E as (-> & -> & _). exists i. by split_and!; [..|apply facts_match_refl|].
  - destruct (is_repeated_distinct _ _ _) eqn:E; [right|by left].
    apply repeated_distinct_conditions in E as (-> & Hf & _). exists i. rewrite facts_match_sym in Hf. by split_and!.
Qed.

Lemma simplify_schema e : r_schema (simplify e) = r_schema e.
Proof.
  destruct e as [o s f g]. cbn [simplify]. destruct (reduce_cases (operator_map simplify o) s f g) as [->|(i & -> & -> & _)]; done.
Qed.

Lemma simplify_facts e : facts_match (r_facts (simplify e)) (r_facts e) = true.
Proof.
  destruct e as [o s f g]. cbn [simplify].
  destruct (reduce_cases (operator_map simplify o) s f g) as [->|(i & -> & _ & Hf & _)]; [apply facts_match_refl|done].
Qed.

Lemma simplify_keeps_schema o : relation_inputs (keeps_schema simplify) o.
Proof. destruct o; cbn [relation_inputs]; unfold keeps_schema; rewrite ?simplify_schema; done. Qed.

Lemma simplify_built e : built e → built (simplify e).
Proof.
  induction e as [o s f g IH] using relation_expression_ind. cbn [built simplify]. intros (Hs & Hn & Hb).
  assert (relation_inputs built (operator_map simplify o)) as Hi.
  { apply relation_inputs_map. eapply relation_inputs_impl; [|exact (proj2 (relation_inputs_and _ _ o) (conj IH Hb))].
    intros e [He Hbe]. by apply He. }
  destruct (reduce_cases (operator_map simplify o) s f g) as [->|(i & -> & _ & _ & HP)]; [|by apply HP].
  split_and!; [done| |done]. apply new_operator_map; [apply simplify_keeps_schema|done].
Qed.

(** A normal form is its own. *)
Lemma simplify_idempotent e : simplify (simplify e) = simplify e.
Proof.
  induction e as [o s f g IH] using relation_expression_ind. cbn [simplify].
  destruct (reduce_cases (operator_map simplify o) s f g) as [E|(i & E & _ & _ & HP)].
  - rewrite E. cbn [simplify]. assert (operator_map simplify (operator_map simplify o) = operator_map simplify o) as ->; [|done].
    destruct o; cbn [relation_inputs operator_map] in *; f_equal; tauto.
  - rewrite E. apply (HP (λ i, simplify i = i)), relation_inputs_map, IH.
Qed.

(** ** The normalizer runs it *)

Lemma relation_costs e : built e → Costs (relation e) (relation_size e) (relation_height e) (simplify e).
Proof.
  induction e as [o s f g IH] using relation_expression_ind. intros (Hs & Hn & Hb).
  apply (new_operator_map simplify) in Hn; [|apply simplify_keeps_schema].
  cbn [relation relation_size relation_height simplify]. apply at_depth_costs.
  destruct o as [c|i p|i ps k|k a b c|i|i cs|i ks]; cbn [relation_inputs operator_map reduce] in *.
  - apply ret_costs.
  - eapply bind_costs; [by apply IH|]. eapply bind_ret_costs; [apply scalar_costs|].
    destruct (is_literal_true_filter _ _ _ _); [apply ret_costs|by apply rebuild_costs].
  - eapply bind_costs; [by apply IH|]. eapply bind_ret_costs; [apply projections_costs|].
    destruct (is_identity_project _ _ _ _); [apply ret_costs|by apply rebuild_costs].
  - destruct IH as [IHa IHb], Hb as [Hba Hbb]. eapply bind_costs; [by apply IHa|]. eapply bind_costs; [by apply IHb|].
    eapply bind_ret_costs; [apply scalar_costs|by apply rebuild_costs].
  - eapply bind_ret_costs; [by apply IH|]. destruct (is_repeated_distinct _ _ _); [apply ret_costs|by apply rebuild_costs].
  - eapply bind_ret_costs; [by apply IH|by apply rebuild_costs].
  - eapply bind_ret_costs; [by apply IH|by apply rebuild_costs].
Qed.

(** A normal form is no larger. *)
Lemma simplify_size e : relation_size (simplify e) ≤ relation_size e ∧ relation_height (simplify e) ≤ relation_height e.
Proof.
  induction e as [o s f g IH] using relation_expression_ind. cbn [simplify].
  assert (relation_size (RelationExpression_of (operator_map simplify o) s f g) ≤ relation_size (RelationExpression_of o s f g)
    ∧ relation_height (RelationExpression_of (operator_map simplify o) s f g) ≤ relation_height (RelationExpression_of o s f g)) as Hm.
  { destruct o; cbn [relation_inputs operator_map relation_size relation_height] in *; lia. }
  assert (relation_inputs (λ e, relation_size e ≤ relation_size (RelationExpression_of o s f g)
    ∧ relation_height e ≤ relation_height (RelationExpression_of o s f g)) o) as Hs.
  { clear IH Hm. destruct o; cbn [relation_inputs relation_size relation_height]; lia. }
  pose proof (proj2 (relation_inputs_and _ _ o) (conj IH Hs)) as Hi.
  destruct (reduce_cases (operator_map simplify o) s f g) as [->|(i & -> & _ & _ & HP)]; [done|].
  apply (HP (λ i, relation_size i ≤ _ ∧ relation_height i ≤ _)), relation_inputs_map.
  eapply relation_inputs_impl; [|exact Hi]. cbn beta. lia.
Qed.

(** The outcome of normalization on constructed queries. *)
Definition within (e : RelationExpression R) (budget : NormalizationBudget) : Prop :=
  relation_size e ≤ max_steps budget ∧ relation_height e ≤ MAX_RELATIONAL_RECURSION_DEPTH.

Lemma normalize_within q b :
  built (query_root q) → within (query_root q) b →
  ∃ n, normalize_with_budget q b = Normalized n ∧ normalized_root n = simplify (query_root q)
    ∧ equivalence_key n = encode_relation false (simplify (query_root q))
    ∧ structural_key n = write_tag "normal-form-v1" ++ write_fragment (equivalence_key n)
        ++ write_tag "input-provenance-v1" ++ write_fragment (encode_relation true (query_root q)).
Proof.
  intros Hb Hw. destruct (relation_costs _ Hb {| remaining_steps := max_steps b; depth := 0 |}) as [Hok _]; [simpl; lia|].
  unfold normalize_with_budget. rewrite Hok by exact Hw. by eexists.
Qed.

Lemma normalize_beyond q b :
  built (query_root q) → ¬ within (query_root q) b →
  ∃ f, normalize_with_budget q b = Indecisive f ∧ failure_reason f = IndMissingRewrite.
Proof.
  intros Hb Hw. destruct (relation_costs _ Hb {| remaining_steps := max_steps b; depth := 0 |}) as [_ Hno]; [simpl; lia|].
  destruct Hno as (f & s & E & Hr); [exact Hw|]. unfold normalize_with_budget. rewrite E. by exists f.
Qed.
End rewrites.

(** ** Rows *)

(** What an application gives the queries: the rows of classes, the values of
    literals and members, and what predicates and sorts make of values. *)
Record Meaning (V : Type) := {
  extent : class_form → list column_form → list (list V);
  literal_value : ScalarLiteral → V;
  navigate : member_form → V → V;
  equal_value : V → V → V;
  not_value : V → V;
  no_value : V;
  holds : V → bool;
  value_order : V → V → comparison;
}.
Arguments extent {V}.
Arguments literal_value {V}.
Arguments navigate {V}.
Arguments equal_value {V}.
Arguments not_value {V}.
Arguments no_value {V}.
Arguments holds {V}.
Arguments value_order {V}.

Class MeaningLaws {V} (M : Meaning V) : Prop := {
  extent_width c us : Forall (λ row, length row = length us) (extent M c us);
  true_holds : holds M (literal_value M (LitBoolean true)) = true;
}.

(** The first of each row. *)
Fixpoint distinct_rows {A} `{EqDecision A} (l : list A) : list A :=
  match l with
  | [] => []
  | x :: l => x :: filter (.≠ x) (distinct_rows l)
  end.

Lemma distinct_rows_nodup {A} `{EqDecision A} (l : list A) : NoDup (distinct_rows l).
Proof.
  induction l as [|x l IH]; cbn [distinct_rows]; constructor; [|by apply NoDup_filter].
  rewrite list_elem_of_filter. by intros [? _].
Qed.

Lemma distinct_rows_id {A} `{EqDecision A} (l : list A) : NoDup l → distinct_rows l = l.
Proof.
  induction 1 as [|x l Hx Hl IH]; [done|]. cbn [distinct_rows]. rewrite IH. f_equal. clear IH Hl.
  induction l as [|y l IH]; [done|]. rewrite not_elem_of_cons in Hx. destruct Hx as [Hy Hx].
  rewrite filter_cons_True by done. f_equal. by apply IH.
Qed.

Section rows.
Context {V : Type} `{EqDecision V} (M : Meaning V).

Definition cell (row : list V) (position : option nat) : V :=
  default (no_value M) (position ≫= λ i, row !! i).

Fixpoint scalar_result (row : list V) (s : scalar_form) : V :=
  match s with
  | SColumn _ position => cell row position
  | SLiteral _ literal => literal_value M literal
  | SNavigation _ input member => navigate M member (scalar_result row input)
  | SEqual _ l r => equal_value M (scalar_result row l) (scalar_result row r)
  | SNot _ input => not_value M (scalar_result row input)
  end.

Definition keep_rows (s : scalar_form) (rows : list (list V)) : list (list V) :=
  List.filter (λ row, holds M (scalar_result row s)) rows.

Fixpoint row_order (keys : list (option nat * SortDirection)) (row row' : list V) : comparison :=
  match keys with
  | [] => Eq
  | (position, direction) :: keys =>
      let c := value_order M (cell row position) (cell row' position) in
      let c := match direction with Ascending => c | Descending => CompOpp c end in
      match c with Eq => row_order keys row row' | c => c end
  end.

Fixpoint rows (f : relation_form) : list (list V) :=
  match f with
  | FScan output class => extent M class (of_columns output)
  | FFilter _ input predicate => keep_rows predicate (rows input)
  | FProject _ _ input projections => (λ row, scalar_result row <$> projections.*2) <$> rows input
  | FJoin _ _ l r condition =>
      let lrows := rows l in let rrows := rows r in
      keep_rows condition (lrows ≫= λ lrow, (lrow ++.) <$> rrows)
  | FDistinct _ input => distinct_rows (rows input)
  | FDistinctOn _ input columns => distinct_rows ((λ row, cell row <$> columns) <$> rows input)
  | FSort _ input keys => stable_sort (row_order keys) (rows input)
  end.

Context {R : Type} `{TextRangeModel R} `{!MeaningLaws M}.

(** Replacing inputs by ones with the same schemas and rows. *)
Lemma rows_operator_map h (o : RelationOperator R (RelationExpression R)) s f g :
  relation_inputs (λ i, r_schema (h i) = r_schema i ∧ rows (form_of_relation (h i)) = rows (form_of_relation i)) o →
  rows (form_of_relation (RelationExpression_of (operator_map h o) s f g))
  = rows (form_of_relation (RelationExpression_of o s f g)).
Proof.
  destruct o as [[c]|i p|i ps k|k a b c|i|i cs|i ks]; cbn [relation_inputs operator_map form_of_relation rows].
  - done.
  - by intros [-> ->].
  - by intros [-> ->].
  - by intros [[-> ->] [-> ->]].
  - by intros [_ ->].
  - by intros [-> ->].
  - by intros [-> ->].
Qed.
End rows.

(** ** Schemas and positions *)

Section positions.
Context {R : Type}.

Lemma check_schema_nodup ids (columns : list (Column R)) :
  bt_sorted ids → check_schema ids columns = Ok () →
  NoDup (col_id <$> columns) ∧ Forall (λ c, bt_get ids (col_id c) = None) columns.
Proof.
  revert ids. induction columns as [|c cs IH]; intros ids Hs; [by repeat constructor|]. cbn [check_schema].
  destruct (bt_get ids (col_id c)) eqn:E; [done|]. intros [Hn Hf]%IH; [|by apply bt_insert_sorted]. rewrite fmap_cons, NoDup_cons. split.
  - split; [|done]. intros (c' & Hc' & Hin)%list_elem_of_fmap.
    rewrite Forall_forall in Hf. apply Hf in Hin. rewrite bt_get_insert, <-Hc', key_cmp_refl in Hin; done.
  - constructor; [done|]. eapply Forall_impl; [exact Hf|]. intros c' Hc'. cbn beta in Hc'. rewrite bt_get_insert in Hc' by done.
    by destruct (key_cmp (col_id c') (col_id c)).
Qed.

Lemma schema_nodup (s : RelationSchema R) : RelationSchema_new (schema_columns s) = Ok s → NoDup (col_id <$> schema_columns s).
Proof.
  unfold RelationSchema_new. destruct (check_schema [] _) as [[]|] eqn:E; [|done]. intros _. apply check_schema_nodup in E as [? _]; auto.
Qed.

Lemma scope_insertion (columns : list (Column R)) n m :
  bt_sorted m → NoDup (col_id <$> columns) →
  let scope := foldl (λ m '(c, position), bt_insert m (col_id c) position) m (zip columns (seq n (length columns))) in
  (∀ i c, columns !! i = Some c → bt_get scope (col_id c) = Some (n + i)) ∧
  ∀ k, k ∉ col_id <$> columns → bt_get scope k = bt_get m k.
Proof.
  revert n m. induction columns as [|c cs IH]; intros n m Hm Hn; [done|]. rewrite fmap_cons, NoDup_cons in Hn.
  destruct Hn as [Hc Hn]. destruct (IH (S n) (bt_insert m (col_id c) n) (bt_insert_sorted _ _ _ Hm) Hn) as [Hin Hout]. split.
  - intros [|i] c' Hi; cbn in Hi |- *.
    + injection Hi as ->. rewrite Hout by done. rewrite bt_get_insert, key_cmp_refl by done. f_equal. lia.
    + rewrite (Hin i c' Hi). f_equal. lia.
  - intros k Hk. rewrite fmap_cons, not_elem_of_cons in Hk. destruct Hk as [Hk Hks]. cbn. rewrite Hout by done.
    rewrite bt_get_insert by done. destruct (key_cmp k (col_id c)) eqn:E; [|done..]. by apply key_cmp_eq in E.
Qed.

(** A column's position is its place in the schema. *)
Lemma from_columns_position (columns : list (Column R)) i c :
  NoDup (col_id <$> columns) → columns !! i = Some c → scope_position_of (from_columns columns) (col_id c) = Some i.
Proof. intros Hn Hi. destruct (scope_insertion columns 0 [] bt_nil_sorted Hn) as [Hp _]. exact (Hp i c Hi). Qed.
End positions.

Section preservation.
Context {V : Type} `{EqDecision V} (M : Meaning V) `{!MeaningLaws M}.
Context {R : Type} `{TextRangeModel R}.

Lemma keep_rows_Forall (P : list V → Prop) p l : Forall P l → Forall P (keep_rows M p l).
Proof. rewrite !Forall_forall. intros Hl x Hx. apply Hl. apply list_elem_of_In, filter_In in Hx as [? _]. by apply list_elem_of_In. Qed.

Lemma distinct_rows_Forall {A} `{EqDecision A} (P : A → Prop) l : Forall P l → Forall P (distinct_rows l).
Proof.
  induction 1 as [|x l Hx Hl IH]; cbn [distinct_rows]; constructor; [done|].
  rewrite Forall_forall in IH |- *. intros y [_ Hy]%list_elem_of_filter. by apply IH.
Qed.

Lemma select_columns_length (input : RelationSchema R) seen selected columns chosen :
  select_columns input seen selected columns = Ok chosen → length chosen = length selected + length columns.
Proof.
  revert seen selected. induction columns as [|c cs IH]; intros seen selected; cbn [select_columns].
  - intros [= ->]. simpl. lia.
  - destruct (bt_get seen c); [done|]. destruct (schema_column input c); [|done].
    intros ->%IH. rewrite length_app. simpl. lia.
Qed.

(** Rows have a value for each column. *)
Lemma rows_width (e : RelationExpression R) :
  built e → Forall (λ row, length row = length (schema_columns (r_schema e))) (rows M (form_of_relation e)).
Proof.
  induction e as [o s f g IH] using relation_expression_ind. intros (_ & Hn & Hb). cbn [r_schema form_of_relation].
  unfold RelationExpression_new in Hn. destruct (validate_relation_operator o s) as [[]|] eqn:E; [clear Hn|done].
  destruct o as [[c]|i p|i ps k|k a b c|i|i cs|i ks]; cbn [relation_inputs rows validate_relation_operator] in *.
  - eapply Forall_impl; [apply extent_width|]. cbn beta. intros row ->. cbn [form_of_output of_columns]. by rewrite length_fmap.
  - destruct (decide (s = r_schema i)) as [->|?]; [|by rewrite bool_decide_eq_false_2 in E]. by apply keep_rows_Forall, IH.
  - unfold validate_projection_schema in E. destruct (length ps =? _) eqn:El; [|done]. apply Nat.eqb_eq in El.
    apply Forall_fmap. eapply Forall_impl; [by apply IH|]. intros row _. simpl. by rewrite !length_fmap.
  - destruct (is_join_schema _ _ _) eqn:Ej; [clear E|done]. apply bool_decide_eq_true in Ej. rewrite Ej.
    destruct IH as [IHa IHb], Hb as [Ha%IHa Hb%IHb]. apply keep_rows_Forall, Forall_forall. intros row.
    rewrite list_elem_of_bind. intros (l & (r & -> & Hr)%list_elem_of_fmap & Hl). rewrite Forall_forall in Ha, Hb.
    rewrite !length_app. by rewrite (Ha l Hl), (Hb r Hr).
  - destruct (decide (s = r_schema i)) as [->|?]; [|by rewrite bool_decide_eq_false_2 in E]. by apply distinct_rows_Forall, IH.
  - unfold validate_distinct_on_schema in E. assert (length (schema_columns s) = length cs) as El.
    { destruct cs as [|c cs]; [done|]. destruct (select_columns _ _ _ _) as [chosen|] eqn:Ec; [|done]. cbn [res_bind] in E.
      apply select_columns_length in Ec. destruct (decide (schema_columns s = chosen)) as [->|?]; [exact Ec|].
      by rewrite bool_decide_eq_false_2 in E. }
    apply distinct_rows_Forall, Forall_fmap. eapply Forall_impl; [by apply IH|]. intros row _. simpl. by rewrite !length_fmap.
  - unfold validate_sort in E. destruct (decide (s = r_schema i)) as [->|?]; [|by rewrite bool_decide_eq_false_2 in E].
    rewrite stable_sort_perm. by apply IH.
Qed.

(** Each rewrite keeps the rows of its expression. *)
Lemma keep_true_rows p (l : list (list V)) scope (e : ScalarExpression R) :
  p = form_of_scalar scope e → s_operator e = Literal (LitBoolean true) → keep_rows M p l = l.
Proof.
  intros ->. destruct e as [o t m n k g]. cbn [s_operator form_of_scalar]. intros ->. unfold keep_rows. cbn [scalar_result].
  rewrite true_holds. induction l as [|x l IH]; [done|]. cbn [List.filter]. by rewrite IH.
Qed.

Lemma identity_row (columns : list (Column R)) output ps row :
  NoDup (col_id <$> columns) → length row = length columns →
  Forall2 (λ p c, is_identity_read p c = true) ps columns →
  scalar_result M row <$> (form_of_projection output (from_columns columns) <$> ps).*2 = row.
Proof.
  intros Hn Hl Hps. apply list_eq. intros i. rewrite !list_lookup_fmap.
  destruct (ps !! i) as [p|] eqn:Ep; simpl.
  - destruct (Forall2_lookup_l _ _ _ _ _ Hps Ep) as (c & Hc & Hr).
    unfold is_identity_read in Hr. rewrite !andb_true_iff in Hr. destruct Hr as [_ Hr].
    destruct (proj_expression p) as [o t m n k g]. cbn [s_operator] in Hr. destruct o as [id| | | |]; try done.
    apply Nat.eqb_eq in Hr as ->. cbn [form_of_scalar scalar_result]. rewrite (from_columns_position _ _ _ Hn Hc).
    unfold cell. cbn. apply lookup_lt_Some in Hc. rewrite <-Hl in Hc. apply lookup_lt_is_Some_2 in Hc as [v ->]. done.
  - apply lookup_ge_None in Ep. apply Forall2_length in Hps. symmetry. apply lookup_ge_None. lia.
Qed.

Lemma reduce_rows o s f g :
  built (RelationExpression_of o s f g) →
  rows M (form_of_relation (reduce o s f g)) = rows M (form_of_relation (RelationExpression_of o s f g)).
Proof.
  intros (Hs & _ & Hb). destruct o as [c|i p|i ps k|k a b c|i|i cs|i ks]; cbn [reduce relation_inputs] in *; try done.
  - destruct (is_literal_true_filter _ _ _ _) eqn:E; [|done]. apply literal_true_conditions in E as (-> & _ & Hp).
    cbn [form_of_relation rows]. by erewrite keep_true_rows.
  - destruct (is_identity_project _ _ _ _) eqn:E; [|done]. apply identity_project_conditions in E as (-> & _ & Hps).
    cbn [form_of_relation rows]. pose proof (rows_width i Hb) as Hw. apply schema_nodup in Hs. symmetry.
    etrans; [|apply list_fmap_id]. apply list_fmap_ext. intros j row Hj.
    rewrite Forall_forall in Hw. apply list_elem_of_lookup_2, Hw in Hj. by apply identity_row.
  - destruct (is_repeated_distinct _ _ _) eqn:E; [|done]. apply repeated_distinct_conditions in E as (_ & _ & j & Hj).
    cbn [form_of_relation rows]. destruct i as [o s' f' g']. cbn [r_operator] in Hj. subst o. cbn [form_of_relation rows].
    symmetry. apply distinct_rows_id, distinct_rows_nodup.
Qed.

Lemma simplify_rows e : built e → rows M (form_of_relation (simplify e)) = rows M (form_of_relation e).
Proof.
  induction e as [o s f g IH] using relation_expression_ind. intros Hb. cbn [simplify]. rewrite reduce_rows.
  - apply rows_operator_map. destruct Hb as (_ & _ & Hb). eapply relation_inputs_impl; [|exact (proj2 (relation_inputs_and _ _ o) (conj IH Hb))].
    intros e [He Hbe]. split; [apply simplify_schema|by apply He].
  - destruct Hb as (Hs & Hn & Hb). cbn [built]. split_and!; [done|by apply new_operator_map; [apply simplify_keeps_schema|]|].
    apply relation_inputs_map. eapply relation_inputs_impl; [|exact Hb]. intros e He. by apply simplify_built.
Qed.
End preservation.
