(* ===== verification/Comparison.v ===== *)
(** * Comparison of relational queries

    [pure-analyzer-analysis/src/comparison.rs]: two queries are equivalent when
    their normal forms have one key, not equivalent when their output schemas
    conflict, and otherwise nothing is said of them. *)

From S2P Require Import Prelude Utf8 BTree StableSort StrOps Codes FixPlan Model Resolver Navigation Relational Normalizer NormalForms Rewrites FixPlanProps.

Inductive OutputSchemaField := FieldName | FieldType | FieldMultiplicity | FieldNullability.

Inductive StructuralDifferenceKind :=
| OutputColumnCount (primary_count secondary_count : nat)
| OutputColumn (index : nat) (field : OutputSchemaField).

#[global] Instance provenance_ord : OrdKey Provenance := λ a b,
  match a, b with
  | Pmcd, Pmcd | PureFile, PureFile => Eq
  | Pmcd, PureFile => Lt
  | PureFile, Pmcd => Gt
  end.

#[global] Instance provenance_ord_laws : OrdKeyLaws Provenance.
Proof. split; [by intros [] []|by intros [] []|by intros [] [] []]. Qed.

(** [nullability_contradicts]. *)
Definition nullability_contradicts (l r : Nullability) : bool :=
  match l, r with NonNullable, Nullable | Nullable, NonNullable => true | _, _ => false end.

Section comparison.
Context {R : Type} `{TextRangeModel R}.

Record ComparisonIndecision := { indecision_reason : ReasonCode; indecision_origin : IrOrigin R }.

Record StructuralDifference := {
  difference_kind : StructuralDifferenceKind;
  primary_origin : IrOrigin R;
  secondary_origin : IrOrigin R;
}.

Inductive ComparisonOutcome :=
| Equivalent
| NotEquivalent (difference : StructuralDifference)
| Inconclusive (indecision : ComparisonIndecision).

(** ** Orders of origins *)

(** [model_origin_kind_name], and the fields of [ModelOriginKey] in order. *)
Definition model_origin_kind_name (kind : ModelOriginKind) : Text :=
  match kind with ClassOrigin => txt "class" | MemberOrigin => txt "member" end.

Definition ModelOriginKey : Type := Text * (Provenance * (SourceId * (option (nat * nat) * Text))).

Definition model_origin_key_of (origin : ModelOrigin R) : ModelOriginKey :=
  (model_origin_kind_name (mo_kind origin),
   (mo_provenance origin,
    (anchor_source (mo_definition origin),
     ((λ span, (start span, end_ span)) <$> anchor_span (mo_definition origin),
      structural_identity_key origin)))).

(** [model_origin_keys] and [compare_origins]. *)
Definition model_origin_keys (origins : list (ModelOrigin R)) : list ModelOriginKey :=
  vec_dedup (stable_sort key_cmp (model_origin_key_of <$> origins)).

Definition origin_rank (origin : IrOrigin R) : FileId * (nat * (nat * list ModelOriginKey)) :=
  let source := origin_source origin in
  (span_file source,
   (start (span_range source), (end_ (span_range source), model_origin_keys (model_origins origin)))).

Definition compare_origins (l r : IrOrigin R) : comparison := key_cmp (origin_rank l) (origin_rank r).

(** The order of indecisions, in [canonical_failure_indecision] and
    [canonical_opaque_indecision]. *)
Definition compare_indecisions (l r : ComparisonIndecision) : comparison :=
  match key_cmp (ReasonCode_id (indecision_reason l)) (ReasonCode_id (indecision_reason r)) with
  | Eq => compare_origins (indecision_origin l) (indecision_origin r)
  | c => c
  end.

Definition is_le (c : comparison) : bool := match c with Gt => false | _ => true end.

(** [indecision_from_failure] and [indecision_from_opaque]. *)
Definition indecision_from_failure (failure : NormalizationFailure R) : ComparisonIndecision :=
  {| indecision_reason := failure_reason failure; indecision_origin := failure_origin failure |}.

Definition indecision_from_opaque (opaque : OpaqueOutcome R) : ComparisonIndecision :=
  {| indecision_reason := opaque_reason opaque; indecision_origin := opaque_origin opaque |}.

Definition canonical_failure_indecision (l r : NormalizationFailure R) : ComparisonIndecision :=
  if is_le (compare_indecisions (indecision_from_failure l) (indecision_from_failure r))
  then indecision_from_failure l else indecision_from_failure r.

Definition canonical_opaque_indecision (l r : OpaqueOutcome R) : ComparisonIndecision :=
  if is_le (compare_indecisions (indecision_from_opaque l) (indecision_from_opaque r))
  then indecision_from_opaque l else indecision_from_opaque r.

(** The comparison of structural keys, and [canonical_normalized_origins] and
    [canonical_normalized_origin]. *)
Definition comes_first (l r : NormalizedQuery R) : bool := is_le (key_cmp (structural_key l) (structural_key r)).

Definition canonical_normalized_origins (l r : NormalizedQuery R) (left_origin right_origin : IrOrigin R)
  : IrOrigin R * IrOrigin R :=
  if comes_first l r then (left_origin, right_origin) else (right_origin, left_origin).

Definition canonical_normalized_origin (l r : NormalizedQuery R) : IrOrigin R :=
  if comes_first l r then r_origin (normalized_root l) else r_origin (normalized_root r).

(** ** Output schemas *)

Definition output_column_field_difference (l r : Column R) : option OutputSchemaField :=
  if negb (bool_decide (col_name l = col_name r)) then Some FieldName
  else if negb (bool_decide (col_type l = col_type r)) then Some FieldType
  else if negb (bool_decide (col_multiplicity l = col_multiplicity r)) then Some FieldMultiplicity
  else if nullability_contradicts (col_nullability l) (col_nullability r) then Some FieldNullability
  else None.

Definition output_column_count_difference (l r : NormalizedQuery R) (left_count right_count : nat)
  : StructuralDifference :=
  if comes_first l r
  then {| difference_kind := OutputColumnCount left_count right_count;
          primary_origin := r_origin (normalized_root l); secondary_origin := r_origin (normalized_root r) |}
  else {| difference_kind := OutputColumnCount right_count left_count;
          primary_origin := r_origin (normalized_root r); secondary_origin := r_origin (normalized_root l) |}.

(** The [find_map] over the pairs of columns. *)
Fixpoint first_field_difference (index : nat) (pairs : list (Column R * Column R))
  : option (nat * OutputSchemaField * (Column R * Column R)) :=
  match pairs with
  | [] => None
  | (l, r) :: pairs =>
      match output_column_field_difference l r with
      | Some field => Some (index, field, (l, r))
      | None => first_field_difference (S index) pairs
      end
  end.

Definition output_schema_difference (l r : NormalizedQuery R) : option StructuralDifference :=
  let lcols := schema_columns (r_schema (normalized_root l)) in
  let rcols := schema_columns (r_schema (normalized_root r)) in
  if negb (length lcols =? length rcols)
  then Some (output_column_count_difference l r (length lcols) (length rcols))
  else
    '(index, field, (lcol, rcol)) ← first_field_difference 0 (zip lcols rcols);
    let '(primary, secondary) := canonical_normalized_origins l r (col_origin lcol) (col_origin rcol) in
    Some {| difference_kind := OutputColumn index field; primary_origin := primary; secondary_origin := secondary |}.

(** ** Comparison *)

Definition compare_normalized (l r : NormalizedQuery R) : ComparisonOutcome :=
  if text_eqb (equivalence_key l) (equivalence_key r) then Equivalent
  else match output_schema_difference l r with
  | Some difference => NotEquivalent difference
  | None => Inconclusive {| indecision_reason := IndMissingRewrite;
                            indecision_origin := canonical_normalized_origin l r |}
  end.

(** [compare_relational_queries_with_budget], [compare_lowered_queries_with_budget],
    and both with the default budget. *)
Definition compare_queries_with_budget (l r : RelationalQuery R) (budget : NormalizationBudget) : ComparisonOutcome :=
  match normalize_with_budget l budget, normalize_with_budget r budget with
  | Normalized l, Normalized r => compare_normalized l r
  | Indecisive l, Indecisive r => Inconclusive (canonical_failure_indecision l r)
  | Indecisive failure, Normalized _ | Normalized _, Indecisive failure =>
      Inconclusive (indecision_from_failure failure)
  end.

Definition compare_lowered_with_budget (l r : RelationalOutcome R) (budget : NormalizationBudget) : ComparisonOutcome :=
  match l, r with
  | Supported l, Supported r => compare_queries_with_budget l r budget
  | Opaque l, Opaque r => Inconclusive (canonical_opaque_indecision l r)
  | Opaque opaque, Supported _ | Supported _, Opaque opaque => Inconclusive (indecision_from_opaque opaque)
  end.

Definition compare_relational_queries (l r : RelationalQuery R) : ComparisonOutcome :=
  compare_queries_with_budget l r default_budget.

Definition compare_lowered_queries (l r : RelationalOutcome R) : ComparisonOutcome :=
  compare_lowered_with_budget l r default_budget.

(** ** Conflicts of schemas *)

(** A value of one column cannot be a value of the other. *)
Definition columns_conflict (l r : Column R) : Prop :=
  col_name l ≠ col_name r ∨ col_type l ≠ col_type r ∨ col_multiplicity l ≠ col_multiplicity r
  ∨ nullability_contradicts (col_nullability l) (col_nullability r) = true.

Definition schemas_conflict (l r : RelationSchema R) : Prop :=
  length (schema_columns l) ≠ length (schema_columns r) ∨
  ∃ i lcol rcol, schema_columns l !! i = Some lcol ∧ schema_columns r !! i = Some rcol ∧ columns_conflict lcol rcol.

Lemma field_difference_conflict l r : is_Some (output_column_field_difference l r) ↔ columns_conflict l r.
Proof.
  unfold output_column_field_difference, columns_conflict. repeat case_bool_decide; cbn [negb]; try (split; [tauto|by eexists]).
  destruct (nullability_contradicts _ _); [split; [tauto|by eexists]|]. rewrite is_Some_alt. naive_solver.
Qed.

Lemma first_field_difference_exists index (ls rs : list (Column R)) :
  is_Some (first_field_difference index (zip ls rs)) ↔
  ∃ i l r, ls !! i = Some l ∧ rs !! i = Some r ∧ columns_conflict l r.
Proof.
  revert index rs. induction ls as [|l ls IH]; intros index [|r rs]; cbn [zip zip_with first_field_difference];
    try (rewrite is_Some_alt; split; [done|]; by intros ([|i] & ? & ? & ? & ? & _)).
  destruct (output_column_field_difference l r) as [field|] eqn:E.
  - split; [intros _|by eexists]. exists 0, l, r. split_and!; [done..|]. apply field_difference_conflict. by eexists.
  - rewrite IH. split; [intros (i & l' & r' & ?); by exists (S i), l', r'|].
    intros ([|i] & l' & r' & Hl & Hr & Hc); [|by exists i, l', r'].
    injection Hl as <-. injection Hr as <-. apply field_difference_conflict in Hc as [? Hc]. by rewrite E in Hc.
Qed.

Lemma schema_difference_exists l r :
  is_Some (output_schema_difference l r) ↔
  schemas_conflict (r_schema (normalized_root l)) (r_schema (normalized_root r)).
Proof.
  unfold output_schema_difference, schemas_conflict. destruct (Nat.eqb_spec (length (schema_columns (r_schema (normalized_root l)))) (length (schema_columns (r_schema (normalized_root r))))) as [El|El]; cbn [negb].
  - rewrite <-(first_field_difference_exists 0). destruct (first_field_difference _ _) as [[[i f] [a b]]|]; cbn.
    + unfold canonical_normalized_origins. destruct (comes_first l r); split; (by right; eexists) || by eexists.
    + rewrite !is_Some_alt. naive_solver.
  - split; [by left|by eexists].
Qed.

(** Equal forms have no conflict. *)
Lemma forms_no_conflict (e e' : RelationExpression R) :
  form_of_relation e = form_of_relation e' → ¬ schemas_conflict (r_schema e) (r_schema e').
Proof.
  intros E. assert (∀ d : RelationExpression R, ∃ o s f g, d = RelationExpression_of o s f g ∧
    of_columns (match form_of_relation d with
      | FScan o _ | FFilter o _ _ | FProject o _ _ _ | FJoin o _ _ _ _ | FDistinct o _ | FDistinctOn o _ _ | FSort o _ _ => o end)
    = form_of_column (from_schema s) <$> schema_columns s) as Hcols.
  { intros [o s f g]. exists o, s, f, g. split; [done|]. by destruct o as [[]| | | | | |]. }
  destruct (Hcols e) as (o & s & f & g & -> & Hc), (Hcols e') as (o' & s' & f' & g' & -> & Hc').
  rewrite E, Hc' in Hc. clear E Hcols Hc'. cbn [r_schema]. intros [Hl|(i & l & r & Hl & Hr & Hconf)].
  - apply (f_equal length) in Hc. rewrite !length_fmap in Hc. by symmetry in Hc.
  - apply (f_equal (.!! i)) in Hc. rewrite !list_lookup_fmap, Hl, Hr in Hc. injection Hc as _ En Et Em Enu.
    destruct Hconf as [?|[?|[?|Hn]]]; [by symmetry in En|by symmetry in Et|by symmetry in Em|].
    rewrite Enu in Hn. by destruct (col_nullability l).
Qed.
End comparison.
Arguments ComparisonIndecision : clear implicits.
Arguments StructuralDifference : clear implicits.
Arguments ComparisonOutcome : clear implicits.
Arguments Equivalent {R}.
Arguments NotEquivalent {R} difference.
Arguments Inconclusive {R} indecision.

Section outcomes.
Context {R : Type} `{TextRangeModel R}.

(** ** Swapping the queries *)

(** Outcomes up to origins that the order of origins does not tell apart. *)
Definition same_outcome (c c' : ComparisonOutcome R) : Prop :=
  match c, c' with
  | Inconclusive i, Inconclusive j => indecision_reason i = indecision_reason j ∧ compare_indecisions i j = Eq
  | _, _ => c = c'
  end.

Lemma text_eqb_eq s t : text_eqb s t = true ↔ s = t.
Proof. apply bool_decide_eq_true. Qed.

Lemma ReasonCode_id_inj r r' : ReasonCode_id r = ReasonCode_id r' → r = r'.
Proof. by destruct r, r'. Qed.

Lemma compare_indecisions_refl (i : ComparisonIndecision R) : compare_indecisions i i = Eq.
Proof. unfold compare_indecisions, compare_origins. by rewrite !key_cmp_refl. Qed.

Lemma compare_indecisions_antisym (i j : ComparisonIndecision R) :
  compare_indecisions j i = CompOpp (compare_indecisions i j).
Proof.
  unfold compare_indecisions. rewrite (key_cmp_antisym (ReasonCode_id (indecision_reason i))).
  destruct (key_cmp (ReasonCode_id _) _); cbn [CompOpp]; [|done..]. apply key_cmp_antisym.
Qed.

Lemma same_outcome_refl c : same_outcome c c.
Proof. destruct c; try done. split; [done|apply compare_indecisions_refl]. Qed.

Lemma first_indecision_same (i j : ComparisonIndecision R) :
  same_outcome (Inconclusive (if is_le (compare_indecisions i j) then i else j))
               (Inconclusive (if is_le (compare_indecisions j i) then j else i)).
Proof.
  rewrite (compare_indecisions_antisym i j). destruct (compare_indecisions i j) eqn:E; cbn [CompOpp is_le];
    [|apply same_outcome_refl..]. split; [|done].
  unfold compare_indecisions in E. destruct (key_cmp (ReasonCode_id _) _) eqn:Er; try done.
  apply key_cmp_eq in Er. by apply ReasonCode_id_inj.
Qed.

(** Structural keys hold equivalence keys. *)
Definition has_structural_key (n : NormalizedQuery R) : Prop :=
  ∃ t, structural_key n = write_tag "normal-form-v1" ++ write_fragment (equivalence_key n) ++ t.

Lemma normalized_structural_key q b n : normalize_with_budget q b = Normalized n → has_structural_key n.
Proof. unfold normalize_with_budget. destruct (relation _ _).1; [|done]. intros [= <-]. by eexists. Qed.

Lemma comes_first_swap (l r : NormalizedQuery R) :
  has_structural_key l → has_structural_key r → equivalence_key l ≠ equivalence_key r →
  comes_first r l = negb (comes_first l r).
Proof.
  intros [t Hl] [t' Hr] Hne. unfold comes_first. rewrite (key_cmp_antisym (structural_key l)).
  destruct (key_cmp (structural_key l) (structural_key r)) eqn:E; [|done..]. apply key_cmp_eq in E.
  rewrite Hl, Hr in E. do 2 peel E. done.
Qed.

Lemma field_difference_swap (l r : Column R) : output_column_field_difference l r = output_column_field_difference r l.
Proof.
  unfold output_column_field_difference.
  rewrite (bool_decide_ext (col_name l = col_name r) (col_name r = col_name l)) by done.
  rewrite (bool_decide_ext (col_type l = col_type r) (col_type r = col_type l)) by done.
  rewrite (bool_decide_ext (col_multiplicity l = col_multiplicity r) (col_multiplicity r = col_multiplicity l)) by done.
  by destruct (col_nullability l), (col_nullability r).
Qed.

Lemma first_field_difference_swap index (ls rs : list (Column R)) :
  first_field_difference index (zip rs ls) =
  (λ '(i, f, (l, r)), (i, f, (r, l))) <$> first_field_difference index (zip ls rs).
Proof.
  revert index rs. induction ls as [|l ls IH]; intros index [|r rs]; try done. cbn [zip zip_with first_field_difference].
  rewrite (field_difference_swap r l). destruct (output_column_field_difference l r); [done|apply IH].
Qed.

Lemma schema_difference_swap (l r : NormalizedQuery R) :
  comes_first r l = negb (comes_first l r) → output_schema_difference r l = output_schema_difference l r.
Proof.
  intros Hs. unfold output_schema_difference. rewrite (Nat.eqb_sym (length (schema_columns (r_schema (normalized_root r))))).
  destruct (_ =? _); cbn [negb].
  - rewrite first_field_difference_swap. destruct (first_field_difference _ _) as [[[i f] [a b]]|]; [|done]. cbn.
    unfold canonical_normalized_origins. rewrite Hs. by destruct (comes_first l r).
  - unfold output_column_count_difference. rewrite Hs. by destruct (comes_first l r).
Qed.

Lemma compare_normalized_swap (l r : NormalizedQuery R) :
  has_structural_key l → has_structural_key r → compare_normalized r l = compare_normalized l r.
Proof.
  intros Hl Hr. unfold compare_normalized. destruct (decide (equivalence_key l = equivalence_key r)) as [->|Hne].
  - rewrite (proj2 (text_eqb_eq _ _)); done.
  - pose proof (comes_first_swap l r Hl Hr Hne) as Hs.
    destruct (text_eqb (equivalence_key r) _) eqn:E; [apply text_eqb_eq in E; by symmetry in E|].
    destruct (text_eqb (equivalence_key l) _) eqn:E'; [by apply text_eqb_eq in E'|].
    rewrite (schema_difference_swap l r Hs). destruct (output_schema_difference l r); [done|].
    unfold canonical_normalized_origin. rewrite Hs. by destruct (comes_first l r).
Qed.

Lemma compare_queries_swap l r b :
  same_outcome (compare_queries_with_budget l r b) (compare_queries_with_budget r l b).
Proof.
  unfold compare_queries_with_budget.
  destruct (normalize_with_budget l b) as [nl|fl] eqn:El, (normalize_with_budget r b) as [nr|fr] eqn:Er.
  - apply normalized_structural_key in El, Er. rewrite (compare_normalized_swap nl nr) by done. apply same_outcome_refl.
  - apply same_outcome_refl.
  - apply same_outcome_refl.
  - apply first_indecision_same.
Qed.

(** ** What an outcome says *)

Lemma compare_within l r b :
  built (query_root l) → built (query_root r) → within (query_root l) b → within (query_root r) b →
  ∃ nl nr, compare_queries_with_budget l r b = compare_normalized nl nr
    ∧ normalized_root nl = simplify (query_root l) ∧ normalized_root nr = simplify (query_root r)
    ∧ (equivalence_key nl = equivalence_key nr ↔
       form_of_relation (simplify (query_root l)) = form_of_relation (simplify (query_root r))).
Proof.
  intros Hl Hr Wl Wr. destruct (normalize_within l b Hl Wl) as (nl & El & Rl & Kl & _), (normalize_within r b Hr Wr) as (nr & Er & Rr & Kr & _).
  exists nl, nr. unfold compare_queries_with_budget. rewrite El, Er. split_and!; [done..|]. rewrite Kl, Kr. apply keys_decide_forms.
Qed.

Lemma compare_beyond l r b :
  built (query_root l) → built (query_root r) → ¬ (within (query_root l) b ∧ within (query_root r) b) →
  ∃ i, compare_queries_with_budget l r b = Inconclusive i ∧ indecision_reason i = IndMissingRewrite.
Proof.
  intros Hl Hr Hw. unfold compare_queries_with_budget.
  assert (∀ q, built (query_root q) → (∃ n, normalize_with_budget q b = Normalized n ∧ within (query_root q) b) ∨
    ∃ f, normalize_with_budget q b = Indecisive f ∧ failure_reason f = IndMissingRewrite) as Hq.
  { intros q Hb. assert (within (query_root q) b ∨ ¬ within (query_root q) b) as [W|W] by (unfold within; lia).
    - left. destruct (normalize_within q b Hb W) as (n & E & _). by exists n.
    - right. by apply normalize_beyond. }
  destruct (Hq l Hl) as [(nl & -> & Wl)|(fl & -> & Fl)], (Hq r Hr) as [(nr & -> & Wr)|(fr & -> & Fr)]; [tauto|by eexists..|].
  unfold canonical_failure_indecision. destruct (is_le _); by eexists.
Qed.

(** The outcome decides, on constructed queries, between one normal form, a
    conflict of the schemas that the queries were made with, and neither. *)
Lemma compare_decides l r b :
  built (query_root l) → built (query_root r) →
  match compare_queries_with_budget l r b with
  | Equivalent => within (query_root l) b ∧ within (query_root r) b ∧
      form_of_relation (simplify (query_root l)) = form_of_relation (simplify (query_root r))
  | NotEquivalent _ => within (query_root l) b ∧ within (query_root r) b ∧
      schemas_conflict (r_schema (query_root l)) (r_schema (query_root r))
  | Inconclusive i => indecision_reason i = IndMissingRewrite ∧
      (within (query_root l) b → within (query_root r) b →
       form_of_relation (simplify (query_root l)) ≠ form_of_relation (simplify (query_root r)) ∧
       ¬ schemas_conflict (r_schema (query_root l)) (r_schema (query_root r)))
  end.
Proof.
  intros Hl Hr. assert (within (query_root l) b ∧ within (query_root r) b ∨ ¬ (within (query_root l) b ∧ within (query_root r) b)) as [[Wl Wr]|W] by (unfold within; lia).
  - destruct (compare_within l r b Hl Hr Wl Wr) as (nl & nr & -> & Rl & Rr & K). unfold compare_normalized.
    destruct (text_eqb _ _) eqn:E; [apply text_eqb_eq, K in E; done|].
    assert (equivalence_key nl ≠ equivalence_key nr) as Hne by (intros Hk; apply text_eqb_eq in Hk; congruence).
    pose proof (schema_difference_exists nl nr) as Hd. rewrite Rl, Rr, !simplify_schema in Hd.
    destruct (output_schema_difference nl nr); [by split_and!; [..|apply Hd; eexists]|].
    split; [done|]. intros _ _. split; [by intros ?%K|]. intros [d Hc]%Hd. done.
  - destruct (compare_beyond l r b Hl Hr W) as (i & -> & Hi). split; [done|]. tauto.
Qed.

(** What a difference says of the two schemas: both lengths, or the first column
    in conflict, the field, and the origins of its two columns. *)
Definition difference_describes (d : StructuralDifference R) (l r : RelationSchema R) : Prop :=
  match difference_kind d with
  | OutputColumnCount p s =>
      p ≠ s ∧ (p = length (schema_columns l) ∧ s = length (schema_columns r)
               ∨ p = length (schema_columns r) ∧ s = length (schema_columns l))
  | OutputColumn i field =>
      length (schema_columns l) = length (schema_columns r) ∧
      (∃ lcol rcol, schema_columns l !! i = Some lcol ∧ schema_columns r !! i = Some rcol
        ∧ output_column_field_difference lcol rcol = Some field
        ∧ (primary_origin d = col_origin lcol ∧ secondary_origin d = col_origin rcol
           ∨ primary_origin d = col_origin rcol ∧ secondary_origin d = col_origin lcol)) ∧
      ∀ j lcol rcol, j < i → schema_columns l !! j = Some lcol → schema_columns r !! j = Some rcol →
        ¬ columns_conflict lcol rcol
  end.

Lemma first_field_difference_spec index (ls rs : list (Column R)) i field l r :
  first_field_difference index (zip ls rs) = Some (i, field, (l, r)) →
  ∃ k, i = index + k ∧ ls !! k = Some l ∧ rs !! k = Some r ∧ output_column_field_difference l r = Some field ∧
    ∀ j l' r', j < k → ls !! j = Some l' → rs !! j = Some r' → ¬ columns_conflict l' r'.
Proof.
  revert index rs. induction ls as [|a ls IH]; intros index [|b rs]; try done. cbn [zip zip_with first_field_difference].
  destruct (output_column_field_difference a b) as [f|] eqn:E.
  - intros [= <- <- <- <-]. exists 0. split_and!; [lia|done..|lia].
  - intros (k & -> & Hl & Hr & Hf & Hj)%IH. exists (S k). split_and!; [lia|done..|].
    intros [|j] l' r' Hlt Hl' Hr'; [|by apply (Hj j); [lia|..]].
    injection Hl' as <-. injection Hr' as <-. intros [f Hc]%field_difference_conflict. by rewrite E in Hc.
Qed.

Lemma schema_difference_describes l r d :
  output_schema_difference l r = Some d →
  difference_describes d (r_schema (normalized_root l)) (r_schema (normalized_root r)).
Proof.
  unfold output_schema_difference. destruct (Nat.eqb_spec (length (schema_columns (r_schema (normalized_root l)))) (length (schema_columns (r_schema (normalized_root r))))) as [El|El]; cbn [negb].
  - destruct (first_field_difference _ _) as [[[i f] [a b]]|] eqn:E; [|done]. cbn.
    apply first_field_difference_spec in E as (k & -> & Hl & Hr & Hf & Hj). unfold canonical_normalized_origins.
    destruct (comes_first l r); intros [= <-]; unfold difference_describes; cbn [difference_kind primary_origin secondary_origin];
      (split; [done|]; split; [|done]); exists a, b; split_and!; try done; [by left|by right].
  - intros [= <-]. unfold output_column_count_difference. destruct (comes_first l r); unfold difference_describes; cbn [difference_kind].
    + split; [done|by left].
    + split; [by intros E; symmetry in E|by right].
Qed.

Lemma compare_not_equivalent l r b d :
  built (query_root l) → built (query_root r) → compare_queries_with_budget l r b = NotEquivalent d →
  difference_describes d (r_schema (query_root l)) (r_schema (query_root r)).
Proof.
  intros Hl Hr E. pose proof (compare_decides l r b Hl Hr) as Hd. rewrite E in Hd. destruct Hd as (Wl & Wr & _).
  destruct (compare_within l r b Hl Hr Wl Wr) as (nl & nr & E' & Rl & Rr & _). rewrite E' in E.
  unfold compare_normalized in E. destruct (text_eqb _ _); [done|].
  destruct (output_schema_difference nl nr) as [d'|] eqn:Ed; [|done]. injection E as ->.
  apply schema_difference_describes in Ed. by rewrite Rl, Rr, !simplify_schema in Ed.
Qed.

(** ** Theorems *)

(** C25. A query that the constructors made normalizes exactly when its nodes are
    within the steps of the budget and its height is within the depth limit.  The
    rewrites never make an expression that its constructor refuses, so the only
    failure is a missing rewrite. *)
Theorem normalization_outcome q b :
  built (query_root q) →
  (within (query_root q) b ↔ ∃ n, normalize_with_budget q b = Normalized n) ∧
  (∀ f, normalize_with_budget q b = Indecisive f → failure_reason f = IndMissingRewrite).
Proof.
  intros Hb. assert (within (query_root q) b ∨ ¬ within (query_root q) b) as [W|W] by (unfold within; lia).
  - destruct (normalize_within q b Hb W) as (n & E & _). rewrite E. split; [|done]. split; [by exists n|done].
  - destruct (normalize_beyond q b Hb W) as (f & E & Hr). rewrite E. split; [|by intros f' [= <-]].
    split; [done|]. by intros [n ?].
Qed.

(** C23. The normal form of a query is an expression that the constructors accept,
    with the schema of the query and with its facts; it has the rows of the query
    whatever classes, members and literals mean; and normalizing it again, under
    the same budget, changes neither it nor its key. *)
Theorem normalization_keeps_meaning q b n :
  built (query_root q) → normalize_with_budget q b = Normalized n →
  built (normalized_root n) ∧ r_schema (normalized_root n) = r_schema (query_root q) ∧
  facts_match (r_facts (normalized_root n)) (r_facts (query_root q)) = true ∧
  (∀ V `{EqDecision V} (M : Meaning V), MeaningLaws M →
    rows M (form_of_relation (normalized_root n)) = rows M (form_of_relation (query_root q))) ∧
  ∃ n', normalize_with_budget {| query_root := normalized_root n |} b = Normalized n' ∧
    normalized_root n' = normalized_root n ∧ equivalence_key n' = equivalence_key n.
Proof.
  intros Hb E. assert (within (query_root q) b ∨ ¬ within (query_root q) b) as [W|W] by (unfold within; lia).
  - destruct (normalize_within q b Hb W) as (n1 & E1 & Rn & Kn & _). rewrite E in E1. injection E1 as <-. rewrite Kn, Rn.
    split_and!; [by apply simplify_built|apply simplify_schema|apply simplify_facts|intros V ? M ?; by apply simplify_rows|].
    destruct (normalize_within {| query_root := simplify (query_root q) |} b) as (n' & E' & Rn' & Kn' & _).
    + by apply simplify_built.
    + pose proof (simplify_size (query_root q)). unfold within in *. cbn [query_root]. lia.
    + exists n'. rewrite E', Rn', Kn'. cbn [query_root]. by rewrite simplify_idempotent.
  - destruct (normalize_beyond q b Hb W) as (f & E' & _). congruence.
Qed.

(** C22. What a comparison commits to is true.  Queries that it calls equivalent
    have the same rows whatever classes, members and literals mean, and schemas
    without a conflict.  For queries that it calls not equivalent, the difference
    names the two column counts or the first column in conflict of the schemas
    that the queries were made with.  Otherwise the reason is a missing rewrite. *)
Theorem comparison_is_sound l r b :
  built (query_root l) → built (query_root r) →
  match compare_queries_with_budget l r b with
  | Equivalent =>
      (∀ V `{EqDecision V} (M : Meaning V), MeaningLaws M →
        rows M (form_of_relation (query_root l)) = rows M (form_of_relation (query_root r))) ∧
      ¬ schemas_conflict (r_schema (query_root l)) (r_schema (query_root r))
  | NotEquivalent d => difference_describes d (r_schema (query_root l)) (r_schema (query_root r))
  | Inconclusive i => indecision_reason i = IndMissingRewrite
  end.
Proof.
  intros Hl Hr. pose proof (compare_decides l r b Hl Hr) as Hd.
  destruct (compare_queries_with_budget l r b) as [|d|i] eqn:E.
  - destruct Hd as (_ & _ & Hf). split.
    + intros V ? M ?. by rewrite <-(simplify_rows M (query_root l)), <-(simplify_rows M (query_root r)), Hf.
    + apply forms_no_conflict in Hf. by rewrite !simplify_schema in Hf.
  - by eapply compare_not_equivalent.
  - apply Hd.
Qed.

(** C24. And it commits whenever it can: queries within the budget are equivalent
    exactly when their normal forms have one form, the expression up to origins
    and to the identities of columns, which is to say that keys are never
    ambiguous; and they are not equivalent exactly when their schemas conflict. *)
Theorem comparison_is_complete l r b :
  built (query_root l) → built (query_root r) → within (query_root l) b → within (query_root r) b →
  (compare_queries_with_budget l r b = Equivalent ↔
   form_of_relation (simplify (query_root l)) = form_of_relation (simplify (query_root r))) ∧
  ((∃ d, compare_queries_with_budget l r b = NotEquivalent d) ↔
   schemas_conflict (r_schema (query_root l)) (r_schema (query_root r))).
Proof.
  intros Hl Hr Wl Wr. pose proof (compare_decides l r b Hl Hr) as Hd.
  assert (form_of_relation (simplify (query_root l)) = form_of_relation (simplify (query_root r)) →
    ¬ schemas_conflict (r_schema (query_root l)) (r_schema (query_root r))) as Hfc.
  { intros Hf%forms_no_conflict. by rewrite !simplify_schema in Hf. }
  destruct (compare_queries_with_budget l r b) as [|d|i]; (split; split); naive_solver.
Qed.

(** C26. Swapping the queries swaps nothing in the outcome: it is the same one, a
    difference with the same primary and secondary origin, or an indecision for
    the same reason whose origin ranks the same. *)
Theorem comparison_ignores_order l r b :
  same_outcome (compare_lowered_with_budget l r b) (compare_lowered_with_budget r l b).
Proof.
  destruct l as [l|l], r as [r|r]; cbn [compare_lowered_with_budget];
    [apply compare_queries_swap|apply same_outcome_refl..|apply first_indecision_same].
Qed.
End outcomes.

(** ** An example *)

Definition example_origin : IrOrigin (nat * nat) :=
  {| origin_source := {| span_file := 0; span_range := (0, 0) |}; model_origins := [] |}.

Definition example_class : ResolvedClass (nat * nat) :=
  {| rcl_id := 0; rcl_path := txt "Person"; rcl_temporal := None; rcl_provenance := Pmcd;
     rcl_definition := {| anchor_source := 0; anchor_span := None |} |}.

Definition example_type : TypeRef := TypeRef_new (txt "Boolean") [].
Definition example_one : Multiplicity := {| lower := 1; upper := Some 1%N |}.

Definition example_column (id : ColumnId) (name : string) : Column (nat * nat) :=
  {| col_id := id; col_name := txt name; col_type := example_type; col_multiplicity := example_one;
     col_nullability := NonNullable; col_origin := example_origin |}.

Definition example_expression o (columns : list (Column (nat * nat))) : RelationExpression (nat * nat) :=
  RelationExpression_of o {| schema_columns := columns |} unknown_facts example_origin.

Definition example_scalar o : ScalarExpression (nat * nat) :=
  ScalarExpression_new o example_type example_one NonNullable Unknown example_origin.

(** The scan of a class with two columns; and the same with other identities, under
    a filter that keeps all rows and a projection of each column to itself. *)
Definition plain_query : RelationalQuery (nat * nat) :=
  {| query_root := example_expression (Scan (ClassSource example_class)) [example_column 0 "a"; example_column 1 "b"] |}.

Definition verbose_query : RelationalQuery (nat * nat) :=
  let columns := [example_column 7 "a"; example_column 5 "b"] in
  let read id := {| proj_column := id; proj_expression := example_scalar (ColumnRead id) |} in
  let scan := example_expression (Scan (ClassSource example_class)) columns in
  let filter := example_expression (Filter scan (example_scalar (Literal (LitBoolean true)))) columns in
  {| query_root := example_expression (Project filter [read 7; read 5] RelationProjection) columns |}.

(** And a query whose schema conflicts with theirs. *)
Definition other_query : RelationalQuery (nat * nat) :=
  {| query_root := example_expression (Scan (ClassSource example_class)) [example_column 0 "a"; example_column 1 "c"] |}.

Lemma built_plain : built (query_root plain_query).
Proof. by split_and!; vm_compute. Qed.
Lemma built_verbose : built (query_root verbose_query).
Proof. by split_and!; vm_compute. Qed.
Lemma built_other : built (query_root other_query).
Proof. by split_and!; vm_compute. Qed.

(** A meaning: truth values, with two rows in every class. *)
Definition truth_meaning : Meaning bool := {|
  extent _ us := [replicate (length us) true; replicate (length us) false];
  literal_value literal := match literal with LitBoolean value => value | _ => false end;
  navigate _ v := v;
  equal_value := Bool.eqb;
  not_value := negb;
  no_value := false;
  holds v := v;
  value_order _ _ := Eq;
|}.

#[global] Instance truth_meaning_laws : MeaningLaws truth_meaning.
Proof. split; [|done]. intros c us. repeat constructor; by rewrite length_replicate. Qed.

Definition two_steps : NormalizationBudget := {| max_steps := 2 |}.

Lemma normalization_outcome_witness :
  (∃ n, normalize_with_budget verbose_query default_budget = Normalized n) ∧
  ¬ (∃ n, normalize_with_budget verbose_query two_steps = Normalized n).
Proof.
  split; rewrite <-(proj1 (normalization_outcome verbose_query _ built_verbose)); unfold within; vm_compute; lia.
Defined.

Lemma normalization_keeps_meaning_witness :
  ∃ n, normalize_with_budget verbose_query default_budget = Normalized n ∧
    rows truth_meaning (form_of_relation (normalized_root n)) = [[true; true]; [false; false]] ∧
    relation_size (query_root verbose_query) = 6 ∧ relation_size (normalized_root n) = 1 ∧
    rows truth_meaning (form_of_relation (normalized_root n))
    = rows truth_meaning (form_of_relation (query_root verbose_query)).
Proof.
  destruct (normalize_with_budget verbose_query default_budget) as [n|f] eqn:E; [|vm_compute in E; discriminate E].
  exists n. destruct (normalization_keeps_meaning verbose_query default_budget n built_verbose E) as (_ & _ & _ & Hrows & _).
  split; [done|]. split; [rewrite Hrows; [vm_compute; reflexivity|exact _]|]. split; [vm_compute; reflexivity|].
  split; [|by apply Hrows; exact _]. vm_compute in E. injection E as <-. reflexivity.
Defined.

Lemma comparison_is_sound_witness :
  compare_relational_queries plain_query verbose_query = Equivalent ∧
  rows truth_meaning (form_of_relation (query_root plain_query))
  = rows truth_meaning (form_of_relation (query_root verbose_query)) ∧
  match compare_relational_queries verbose_query other_query with
  | NotEquivalent d => difference_kind d = OutputColumn 1 FieldName
  | _ => False
  end.
Proof.
  assert (compare_queries_with_budget plain_query verbose_query default_budget = Equivalent) as E by (vm_compute; reflexivity).
  pose proof (comparison_is_sound plain_query verbose_query default_budget built_plain built_verbose) as Hs.
  rewrite E in Hs. split; [exact E|]. split; [apply Hs; exact _|]. vm_compute. reflexivity.
Defined.

Lemma comparison_is_complete_witness :
  form_of_relation (simplify (query_root plain_query)) = form_of_relation (simplify (query_root verbose_query)) ∧
  ∃ d, compare_queries_with_budget verbose_query other_query default_budget = NotEquivalent d.
Proof.
  destruct (comparison_is_complete plain_query verbose_query default_budget) as [[He _] _];
    [exact built_plain|exact built_verbose|unfold within; vm_compute; lia..|].
  destruct (comparison_is_complete verbose_query other_query default_budget) as [_ [_ Hn]];
    [exact built_verbose|exact built_other|unfold within; vm_compute; lia..|].
  split; [apply He; vm_compute; reflexivity|]. apply Hn. right.
  exists 1, (example_column 5 "b"), (example_column 1 "c"). split_and!; [done..|]. left. by vm_compute.
Defined.
