(* ===== verification/Engine.v ===== *)
(** * The analysis engine

    [pure-analyzer-analysis/src/pass.rs]: the passes in the order of their names,
    the policy over their findings, and the canonical list of the findings.  A
    pass is a parameter, a function of the input. *)

From Stdlib Require Import Sorting.Sorted.
From S2P Require Import Prelude Utf8 BTree StableSort StrOps Codes FixPlan Green Model.

(** ** Orders of the parts of a diagnostic *)

(** The place of a code, a severity, an applicability and a provenance among the
    variants of its enum, which the derived [Ord]s compare. *)
Definition DiagCode_index (c : DiagCode) : nat :=
  match c with
  | UnterminatedIsland => 0 | BadToken => 1 | MalformedSyntax => 2 | ParenthesizedTuple => 3
  | IllegalBracketIndex => 4 | MalformedMilestoningArguments => 5 | UnknownJoinKind => 6
  | WrongMilestoningArity => 7 | UnknownProperty => 8 | UnknownSource => 9 | ModelMergeConflict => 10
  | DuplicateModelDeclaration => 11 | UnresolvedModelAssociation => 12
  end.

Definition Severity_index (s : Severity) : nat :=
  match s with Error => 0 | Warning => 1 | Info => 2 | Hint => 3 end.

Definition Applicability_index (a : Applicability) : nat :=
  match a with MachineApplicable => 0 | Suggested => 1 | Unsafe => 2 end.

Definition FixProvenance_index (p : FixProvenance) : nat :=
  match p with SyntaxOnly => 0 | ModelDependent => 1 | SingleArityProven => 2 end.

#[global] Instance DiagCode_index_inj : Inj (=) (=) DiagCode_index.
Proof. by intros [] []. Qed.
#[global] Instance Severity_index_inj : Inj (=) (=) Severity_index.
Proof. by intros [] []. Qed.
#[global] Instance Applicability_index_inj : Inj (=) (=) Applicability_index.
Proof. by intros [] []. Qed.
#[global] Instance FixProvenance_index_inj : Inj (=) (=) FixProvenance_index.
Proof. by intros [] []. Qed.

#[global] Instance DiagCode_ord : OrdKey DiagCode := λ a b, key_cmp (DiagCode_index a) (DiagCode_index b).

#[global] Instance DiagCode_ord_laws : OrdKeyLaws DiagCode.
Proof.
  split.
  - intros a b. change (key_cmp (DiagCode_index a) (DiagCode_index b) = Eq ↔ a = b).
    rewrite key_cmp_eq. split; [apply (inj DiagCode_index)|by intros ->].
  - intros a b. apply (key_cmp_antisym (DiagCode_index a) (DiagCode_index b)).
  - intros a b c. apply (key_cmp_trans (DiagCode_index a) (DiagCode_index b) (DiagCode_index c)).
Qed.

#[global] Instance Severity_eq_dec : EqDecision Severity.
Proof. solve_decision. Defined.
#[global] Instance FixProvenance_eq_dec : EqDecision FixProvenance.
Proof. solve_decision. Defined.

(** [severity_rank]. *)
Definition severity_rank (s : Severity) : nat :=
  match s with Error => 0 | Warning => 1 | Info => 2 | Hint => 3 end.

(** ** Policies *)

Record FindingPolicy := {
  suppressed : list (DiagCode * unit);
  severity_overrides : list (DiagCode * Severity);
  minimum_severity : Severity;
  warnings_as_errors : bool;
}.

(** [FindingPolicy::default] and the methods that build on it. *)
Definition FindingPolicy_default : FindingPolicy :=
  {| suppressed := []; severity_overrides := []; minimum_severity := Warning; warnings_as_errors := false |}.

Definition suppress (p : FindingPolicy) (code : DiagCode) : FindingPolicy :=
  {| suppressed := bt_insert (suppressed p) code (); severity_overrides := severity_overrides p;
     minimum_severity := minimum_severity p; warnings_as_errors := warnings_as_errors p |}.

Definition with_severity (p : FindingPolicy) (code : DiagCode) (severity : Severity) : FindingPolicy :=
  {| suppressed := suppressed p; severity_overrides := bt_insert (severity_overrides p) code severity;
     minimum_severity := minimum_severity p; warnings_as_errors := warnings_as_errors p |}.

Definition with_minimum_severity (p : FindingPolicy) (minimum : Severity) : FindingPolicy :=
  {| suppressed := suppressed p; severity_overrides := severity_overrides p;
     minimum_severity := minimum; warnings_as_errors := warnings_as_errors p |}.

Definition with_warnings_as_errors (p : FindingPolicy) (enabled : bool) : FindingPolicy :=
  {| suppressed := suppressed p; severity_overrides := severity_overrides p;
     minimum_severity := minimum_severity p; warnings_as_errors := enabled |}.

(** A policy that they make. *)
Inductive made_policy : FindingPolicy → Prop :=
| made_default : made_policy FindingPolicy_default
| made_suppress p code : made_policy p → made_policy (suppress p code)
| made_severity p code severity : made_policy p → made_policy (with_severity p code severity)
| made_minimum p minimum : made_policy p → made_policy (with_minimum_severity p minimum)
| made_strict p enabled : made_policy p → made_policy (with_warnings_as_errors p enabled).

Section engine.
Context {R : Type} `{TextRangeModel R}.

#[global] Instance TextEdit_eq_dec : EqDecision (TextEdit R).
Proof. solve_decision. Defined.
#[global] Instance Fix_eq_dec : EqDecision (Fix R).
Proof. solve_decision. Defined.
#[global] Instance Label_eq_dec : EqDecision (Label R).
Proof. solve_decision. Defined.
#[global] Instance Diagnostic_eq_dec : EqDecision (Diagnostic R).
Proof. solve_decision. Defined.

Definition with_diag_severity (d : Diagnostic R) (severity : Severity) : Diagnostic R :=
  {| diag_code := diag_code d; diag_severity := severity; diag_message := diag_message d;
     diag_primary := diag_primary d; diag_secondary := diag_secondary d; diag_fix := diag_fix d;
     diag_url := diag_url d |}.

(** [FindingPolicy::apply]. *)
Definition apply_policy (p : FindingPolicy) (d : Diagnostic R) : option (Diagnostic R) :=
  if bt_get (suppressed p) (diag_code d) is Some _ then None
  else
    let d := if warnings_as_errors p && bool_decide (diag_severity d = Warning)
             then with_diag_severity d Error else d in
    let d := match bt_get (severity_overrides p) (diag_code d) with
             | Some severity => with_diag_severity d severity
             | None => d
             end in
    if severity_rank (diag_severity d) <=? severity_rank (minimum_severity p) then Some d else None.

(** ** The order of findings *)

Definition TextEdit_key (e : TextEdit R) : FileId * (nat * (nat * Text)) :=
  (te_file e, (start (te_span e), (end_ (te_span e), te_new_text e))).

Definition Label_key (l : Label R) : FileId * (nat * (nat * string)) :=
  (label_file l, (start (label_span l), (end_ (label_span l), label_note l))).

Definition Fix_key (f : Fix R) : string * (nat * (nat * list (FileId * (nat * (nat * Text))))) :=
  (fix_title f, (Applicability_index (fix_applicability f),
    (FixProvenance_index (fix_provenance f), TextEdit_key <$> fix_edits f))).

(** The derived [Ord] of a diagnostic, by its fields in order. *)
Definition Diagnostic_key (d : Diagnostic R) :=
  (DiagCode_index (diag_code d), (Severity_index (diag_severity d), (diag_message d,
    (Label_key (diag_primary d), (Label_key <$> diag_secondary d,
      (Fix_key <$> diag_fix d, diag_url d)))))).

(** [compare_diagnostics]: the compared tuple, then the derived order. *)
Definition finding_key (d : Diagnostic R) :=
  ((DiagCode_as_str (diag_code d), (severity_rank (diag_severity d),
     (label_file (diag_primary d), (start (label_span (diag_primary d)), (end_ (label_span (diag_primary d)),
       diag_message d))))),
   Diagnostic_key d).

Definition compare_diagnostics (l r : Diagnostic R) : comparison := key_cmp (finding_key l) (finding_key r).

(** ** The engine *)

Record AnalysisInput := {
  input_file : FileId;
  input_source : Text;
  input_tree : GreenNode R;
  input_parse_diagnostics : list (Diagnostic R);
  input_model : option (ModelGraph R);
}.

Inductive ModelAvailability := Available | Unavailable.

(** [AnalysisInput::model_availability]. *)
Definition model_availability (input : AnalysisInput) : ModelAvailability :=
  match input_model input with Some _ => Available | None => Unavailable end.

Record AnalysisPass := { pass_name : string; pass_analyze : AnalysisInput → list (Diagnostic R) }.

Record AnalysisEngine := { engine_passes : list AnalysisPass; engine_policy : FindingPolicy }.

(** [AnalysisEngine::new], [pass_names] and [analyze]. *)
Definition AnalysisEngine_new (passes : list AnalysisPass) (policy : FindingPolicy) : AnalysisEngine :=
  {| engine_passes := sort_by_key pass_name passes; engine_policy := policy |}.

Definition pass_names (e : AnalysisEngine) : list string := pass_name <$> engine_passes e.

Definition engine_analyze (e : AnalysisEngine) (input : AnalysisInput) : list (Diagnostic R) :=
  let found := engine_passes e ≫= λ pass, pass_analyze pass input in
  vec_dedup (stable_sort compare_diagnostics (omap (apply_policy (engine_policy e)) found)).

(** ** The order is total *)

#[global] Instance TextEdit_key_inj : Inj (=) (=) TextEdit_key.
Proof. intros [f s t] [f' s' t'] [= -> Es Ee ->]. by rewrite (range_ext _ _ Es Ee). Qed.

#[global] Instance Label_key_inj : Inj (=) (=) Label_key.
Proof. intros [f s t] [f' s' t'] [= -> Es Ee ->]. by rewrite (range_ext _ _ Es Ee). Qed.

#[global] Instance Fix_key_inj : Inj (=) (=) Fix_key.
Proof.
  intros [t a p es] [t' a' p' es']. unfold Fix_key. cbn [fix_title fix_applicability fix_provenance fix_edits].
  intros [= -> Ea%(inj _) Ep%(inj _) Ees%(inj _)]. by subst.
Qed.

#[global] Instance finding_key_inj : Inj (=) (=) finding_key.
Proof.
  intros [c s m p ss f u] [c' s' m' p' ss' f' u'] E. apply (f_equal snd) in E. revert E. unfold finding_key, Diagnostic_key.
  cbn [snd diag_code diag_severity diag_message diag_primary diag_secondary diag_fix diag_url].
  intros E. injection E as Ec Es Em Efile Estart Eend Enote Ess Ef Eu. apply (inj _) in Ec, Es, Ess, Ef.
  assert (p = p') as -> by (apply (inj Label_key); unfold Label_key; congruence). by subst.
Qed.
End engine.
Arguments AnalysisInput : clear implicits.
Arguments AnalysisPass : clear implicits.
Arguments AnalysisEngine : clear implicits.

(** ** What policies do *)

Definition policy_ok (p : FindingPolicy) : Prop := bt_sorted (suppressed p) ∧ bt_sorted (severity_overrides p).

Lemma made_policy_ok p : made_policy p → policy_ok p.
Proof.
  induction 1 as [|? ? ? []|? ? ? ? []|? ? ? []|? ? ? []]; split; try done; cbn;
    first [apply bt_nil_sorted|by apply bt_insert_sorted].
Qed.

Section theorems.
Context {R : Type} `{TextRangeModel R}.

(** The methods of a policy, applied in any order to the default one: a code that
    is suppressed is never found, and suppressing it says nothing of other codes;
    an override gives its code the severity, above what strictness would give, and
    the minimum is compared with the severity that results. *)
Theorem policy_methods p (d : Diagnostic R) :
  made_policy p →
  (∀ code, apply_policy (suppress p code) d = if decide (diag_code d = code) then None else apply_policy p d) ∧
  (∀ code severity, apply_policy (with_severity p code severity) d =
     if decide (diag_code d = code)
     then match bt_get (suppressed p) (diag_code d) with
          | Some _ => None
          | None => if severity_rank severity <=? severity_rank (minimum_severity p)
                    then Some (with_diag_severity d severity) else None
          end
     else apply_policy p d) ∧
  (bt_get (severity_overrides p) (diag_code d) = None → diag_severity d = Warning →
     apply_policy (with_warnings_as_errors p true) d
     = apply_policy (with_warnings_as_errors p false) (with_diag_severity d Error)) ∧
  (∀ minimum, severity_rank (minimum_severity p) ≤ severity_rank minimum →
     ∀ d', apply_policy p d = Some d' → apply_policy (with_minimum_severity p minimum) d = Some d').
Proof.
  intros [Hs Ho]%made_policy_ok. split_and!.
  - intros code. unfold apply_policy. cbn [suppressed suppress severity_overrides warnings_as_errors minimum_severity].
    rewrite bt_get_insert by done. destruct (decide (diag_code d = code)) as [->|Hne]; [by rewrite key_cmp_refl|].
    destruct (key_cmp (diag_code d) code) eqn:E; [by apply key_cmp_eq in E|done..].
  - intros code severity. unfold apply_policy. cbn [suppressed with_severity severity_overrides warnings_as_errors minimum_severity].
    destruct (bt_get (suppressed p) (diag_code d)); [by destruct (decide _)|].
    set (d1 := if _ && _ then _ else _). assert (diag_code d1 = diag_code d) as -> by (unfold d1; by destruct (_ && _)).
    rewrite bt_get_insert by done. destruct (decide (diag_code d = code)) as [->|Hne].
    + rewrite key_cmp_refl. assert (with_diag_severity d1 severity = with_diag_severity d severity) as ->; [|done].
      unfold d1. by destruct (_ && _).
    + destruct (key_cmp (diag_code d) code) eqn:E; [by apply key_cmp_eq in E|done..].
  - intros Hno Hw. unfold apply_policy. cbn [suppressed with_warnings_as_errors severity_overrides warnings_as_errors minimum_severity andb].
    by rewrite Hw, bool_decide_eq_true_2 by done.
  - intros minimum Hm d'. unfold apply_policy. cbn [suppressed with_minimum_severity severity_overrides warnings_as_errors minimum_severity].
    destruct (bt_get (suppressed p) _); [done|]. set (d2 := match bt_get _ _ with Some _ => _ | None => _ end).
    destruct (Nat.leb_spec (severity_rank (diag_severity d2)) (severity_rank (minimum_severity p))); [|done].
    intros [= <-]. destruct (Nat.leb_spec (severity_rank (diag_severity d2)) (severity_rank minimum)); [done|lia].
Qed.

Lemma engine_findings_elem (passes : list (AnalysisPass R)) policy input d :
  d ∈ engine_analyze (AnalysisEngine_new passes policy) input ↔
  ∃ pass d0, pass ∈ passes ∧ d0 ∈ pass_analyze pass input ∧ apply_policy policy d0 = Some d.
Proof.
  unfold engine_analyze. cbn [AnalysisEngine_new engine_passes engine_policy].
  rewrite (vec_dedup_elem finding_key), stable_sort_perm, list_elem_of_omap. split.
  - intros (d0 & (pass & Hd & Hp)%list_elem_of_bind & Ha). rewrite sort_by_key_perm in Hp. by exists pass, d0.
  - intros (pass & d0 & Hp & Hd & Ha). exists d0. split; [|done]. apply list_elem_of_bind. exists pass.
    by rewrite sort_by_key_perm.
Qed.

Lemma engine_findings_sorted (e : AnalysisEngine R) input :
  StronglySorted (key_before finding_key) (engine_analyze e input).
Proof. apply (vec_dedup_sorted finding_key). exact (sort_by_key_sorted finding_key _). Qed.

(** C27. The findings of an engine are those of its passes that its policy keeps,
    each once, in the strict order of code, severity, place and message and then
    of all fields; and they depend on neither the order nor the repetition of the
    passes, nor on the order in which a pass reports. *)
Theorem engine_is_canonical (passes : list (AnalysisPass R)) policy input :
  (∀ d, d ∈ engine_analyze (AnalysisEngine_new passes policy) input ↔
     ∃ pass d0, pass ∈ passes ∧ d0 ∈ pass_analyze pass input ∧ apply_policy policy d0 = Some d) ∧
  StronglySorted (λ d d', compare_diagnostics d d' = Lt) (engine_analyze (AnalysisEngine_new passes policy) input) ∧
  ∀ passes',
    (∀ d, (∃ pass, pass ∈ passes ∧ d ∈ pass_analyze pass input) ↔ (∃ pass, pass ∈ passes' ∧ d ∈ pass_analyze pass input)) →
    engine_analyze (AnalysisEngine_new passes' policy) input = engine_analyze (AnalysisEngine_new passes policy) input.
Proof.
  split; [apply engine_findings_elem|]. split; [apply engine_findings_sorted|]. intros passes' Hsame.
  apply (key_before_unique finding_key); [apply engine_findings_sorted..|]. intros d. rewrite !engine_findings_elem.
  split; intros (pass & d0 & Hp & Hd & Ha).
  - destruct (proj2 (Hsame d0) (ex_intro _ pass (conj Hp Hd))) as (pass' & ? & ?). by exists pass', d0.
  - destruct (proj1 (Hsame d0) (ex_intro _ pass (conj Hp Hd))) as (pass' & ? & ?). by exists pass', d0.
Qed.
End theorems.

(** ** An example *)

Definition example_label (note : string) : Label () := {| label_file := 0; label_span := (); label_note := note |}.

Definition example_finding (code : DiagCode) (severity : Severity) : Diagnostic () :=
  {| diag_code := code; diag_severity := severity; diag_message := "found"; diag_primary := example_label "here";
     diag_secondary := []; diag_fix := None; diag_url := None |}.

#[global] Instance unit_ranges : TextRangeModel ().
Proof. refine {| start _ := 0; end_ _ := 0; span_is_empty _ := true |}; [done|done|by intros [] []]. Defined.

Definition example_policy : FindingPolicy := with_severity (with_warnings_as_errors FindingPolicy_default true) BadToken Info.

Lemma policy_methods_witness :
  made_policy example_policy ∧
  apply_policy example_policy (example_finding BadToken Error) = None ∧
  apply_policy (with_minimum_severity example_policy Info) (example_finding BadToken Error)
  = Some (example_finding BadToken Info) ∧
  apply_policy (suppress example_policy UnknownProperty) (example_finding UnknownProperty Warning) = None.
Proof.
  assert (made_policy example_policy) as Hm by (repeat constructor).
  split; [exact Hm|]. split; [vm_compute; reflexivity|]. split; [vm_compute; reflexivity|].
  destruct (policy_methods example_policy (example_finding UnknownProperty Warning) Hm) as [Hs _].
  rewrite Hs. vm_compute. reflexivity.
Defined.

Lemma engine_is_canonical_witness :
  let pass name findings := {| pass_name := name; pass_analyze _ := findings |} in
  let early := example_finding BadToken Error in
  let late := example_finding UnknownProperty Warning in
  ∀ input,
  engine_analyze (AnalysisEngine_new [pass "b"%string [late]; pass "a"%string [late; early; early]] FindingPolicy_default) input = [early; late] ∧
  engine_analyze (AnalysisEngine_new [pass "a"%string [early; late]] FindingPolicy_default) input = [early; late].
Proof.
  intros pass early late input.
  assert (engine_analyze (AnalysisEngine_new [pass "a"%string [early; late]] FindingPolicy_default) input = [early; late]) as E
    by (vm_compute; reflexivity).
  split; [|exact E]. rewrite <-E. apply engine_is_canonical. intros d. split.
  - intros (p & ->%list_elem_of_singleton & Hd). exists (pass "a"%string [late; early; early]). split; [right; left|set_solver].
  - intros (p & Hp & Hd). exists (pass "a"%string [early; late]). split; [left|].
    rewrite !elem_of_cons in Hp. destruct Hp as [->|[->|Hp]]; cbn in Hd |- *; [set_solver..|]. by apply not_elem_of_nil in Hp.
Defined.
