(* ===== verification/Locals.v ===== *)
(** * Local navigation analysis

    [pure-analyzer-analysis/src/local.rs] and [cst_util.rs]: a walk over the tree
    of a query that resolves its class sources and its property navigations, as
    far as syntax and model settle them.  The analyzer is state that its methods
    pass along.  A method that evaluates a node calls the methods that evaluate
    what is in it, which are arguments; [evaluators] ties the knot with fuel.

    The analysis ends, and every site is of a node of the tree ([analysis_sites]);
    the relation [flows] says without state, fuel or frames what the values and
    references of a query are, and [analysis_follows] that the sites are those. *)

From S2P Require Import Prelude Utf8 BTree StableSort StrOps Codes FixPlan Kinds Green Parsing Model Resolver ResolverProps Navigation NavigationProps.

(** ** Syntax trees *)

Definition MAX_SYNTAX_TREE_DEPTH : nat := 512.

(** [is_trivia] of a syntax kind. *)
Definition kind_is_trivia (kind : SyntaxKind) : bool :=
  match kind with
  | SyntaxKind.WHITESPACE | SyntaxKind.LINE_COMMENT | SyntaxKind.BLOCK_COMMENT => true
  | _ => false
  end.

Definition NAME_KINDS : list SyntaxKind :=
  [SyntaxKind.IDENT; SyntaxKind.ALL_KW; SyntaxKind.LET_KW; SyntaxKind.ALL_VERSIONS_KW;
   SyntaxKind.ALL_VERSIONS_IN_RANGE_KW; SyntaxKind.TO_BYTES_KW].

Definition is_name_kind (kind : SyntaxKind) : bool := bool_decide (kind ∈ NAME_KINDS).

Section locals.
Context {R : Type} `{TextRangeNew R}.

(** [direct_nodes], and the direct tokens; [children_of_kind] is [direct_nodes]
    with its filter, [child_of_kind] with its [find].  [node_tokens] always
    answers. *)
Definition direct_nodes (node : GreenNode R) : list (GreenNode R) := omap as_node (node_children node).
Definition direct_tokens (node : GreenNode R) : list (GreenToken R) := omap as_token (node_children node).
Definition tokens_of (node : GreenNode R) : list (GreenToken R) := default [] (node_tokens node).

Definition children_of_kind (node : GreenNode R) (kind : SyntaxKind) : list (GreenNode R) :=
  List.filter (λ child, bool_decide (node_kind child = kind)) (direct_nodes node).

Definition child_of_kind (node : GreenNode R) (kind : SyntaxKind) : option (GreenNode R) :=
  List.find (λ child, bool_decide (node_kind child = kind)) (direct_nodes node).

(** [contains_error_node], with the depth that is left. *)
Fixpoint contains_error_within (depth : nat) (node : GreenNode R) : bool :=
  match depth with
  | 0 => true
  | S depth =>
      bool_decide (node_kind node = SyntaxKind.ERROR_NODE)
      || existsb (λ token, bool_decide (gt_kind token = SyntaxKind.ERROR)) (tokens_of node)
      || existsb (contains_error_within depth) (direct_nodes node)
  end.

Definition contains_error_node (node : GreenNode R) : bool := contains_error_within MAX_SYNTAX_TREE_DEPTH node.

(** [compact_text] and [qualified_name]. *)
Definition compact_text (node : GreenNode R) : Text :=
  concat (gt_text <$> List.filter (λ token, negb (kind_is_trivia (gt_kind token))) (tokens_of node)).

Definition qualified_name (node : GreenNode R) : option QName := result_ok (QName_new (compact_text node)).

(** [direct_name_after_with_span], [direct_name_after], [variable_name] and
    [let_binding_name]. *)
Fixpoint name_after (marker : SyntaxKind) (found_marker : bool) (tokens : list (GreenToken R)) : option (Name * R) :=
  match tokens with
  | [] => None
  | token :: tokens =>
      if bool_decide (gt_kind token = marker) then name_after marker true tokens
      else if found_marker && is_name_kind (gt_kind token)
      then (λ name, (name, gt_range token)) <$> result_ok (Name_new (gt_text token))
      else name_after marker found_marker tokens
  end.

Definition direct_name_after_with_span (node : GreenNode R) (marker : SyntaxKind) : option (Name * R) :=
  name_after marker false (direct_tokens node).

Definition direct_name_after (node : GreenNode R) (marker : SyntaxKind) : option Name :=
  fst <$> direct_name_after_with_span node marker.

Definition variable_name (node : GreenNode R) : option Name := direct_name_after node SyntaxKind.DOLLAR.
Definition let_binding_name (node : GreenNode R) : option Name := direct_name_after node SyntaxKind.LET_KW.

(** [call_argument_count] and [navigation_step]. *)
Definition call_argument_count (node : GreenNode R) : nat :=
  match direct_nodes node with
  | [] => 0
  | _ => S (length (List.filter (λ token, bool_decide (gt_kind token = SyntaxKind.COMMA)) (direct_tokens node)))
  end.

Definition navigation_step (node : GreenNode R) : option (NavigationStep * R) :=
  '(name, reference_span) ← direct_name_after_with_span node SyntaxKind.DOT;
  let arguments := match child_of_kind node SyntaxKind.CALL_ARGS with
    | Some arguments => call_argument_count arguments
    | None => 0
    end in
  Some (if arguments =? 0 then property_step name else call_step name arguments, reference_span).

(** [navigation_value]. *)
Definition navigation_value (outcome : NavigationResolution R) : option (LocalValue R) :=
  match outcome with NavFound chain => Some (chain_value chain) | _ => None end.

(** ** Types of lambda parameters *)

(** [lambda_parameter_names]. *)
Definition lambda_parameter_names (node : GreenNode R) : list Name :=
  omap (λ token, result_ok (Name_new (gt_text token)))
    (List.filter (λ token, is_name_kind (gt_kind token)) (direct_tokens node)).

(** The one element of a slice. *)
Definition only {A} (l : list A) : option A := match l with [x] => Some x | _ => None end.

(** The names of a type reference, in [type_ref] and [is_named_relation_type]. *)
Definition type_paths (node : GreenNode R) : list QName :=
  omap qualified_name (children_of_kind node SyntaxKind.QUALIFIED_NAME).

(** [type_ref], with the depth of the arguments as fuel: beyond the depth that
    [contains_error_node] walks, it has answered [None]. *)
Fixpoint type_ref_within (fuel : nat) (node : GreenNode R) : option TypeRef :=
  match fuel with
  | 0 => None
  | S fuel =>
      if negb (bool_decide (node_kind node = SyntaxKind.TYPE_REF)) || contains_error_node node then None
      else
        path ← only (type_paths node);
        arguments ← mapM (type_ref_within fuel) (children_of_kind node SyntaxKind.TYPE_REF);
        Some (TypeRef_new path arguments)
  end.

Definition type_ref (node : GreenNode R) : option TypeRef := type_ref_within (S MAX_SYNTAX_TREE_DEPTH) node.

(** [parse_multiplicity_bound] and [multiplicity_from_node]. *)
Definition parse_multiplicity_bound (text : Text) : option N :=
  if forallb is_ascii_digit text then parse_u32_digits text else None.

Definition multiplicity_from_node (node : GreenNode R) : option Multiplicity :=
  if negb (bool_decide (node_kind node = SyntaxKind.MULTIPLICITY)) || contains_error_node node then None
  else
    body ← strip_prefix (txt "[") (compact_text node);
    body ← strip_suffix (txt "]") body;
    if text_eqb body (txt "*") then result_ok (Multiplicity_new 0 None)
    else match split_once (txt "..") body with
    | Some (lower, upper) =>
        if contains (txt "..") upper then None
        else
          lower ← parse_multiplicity_bound lower;
          upper ← (if text_eqb upper (txt "*") then Some None else Some <$> parse_multiplicity_bound upper);
          result_ok (Multiplicity_new lower upper)
    | None =>
        bound ← parse_multiplicity_bound body;
        result_ok (Multiplicity_new bound (Some bound))
    end.

(** [declaration_span]: [None] also where [TextRange::new] would panic. *)
Definition declaration_span (node : GreenNode R) : option R :=
  let tokens := List.filter (λ token, negb (kind_is_trivia (gt_kind token))) (tokens_of node) in
  first ← head tokens;
  last ← last tokens;
  range_new (start (gt_range first)) (end_ (gt_range last)).

(** [relation_column] and [relation_row_value]. *)
Definition relation_column (node : GreenNode R) (id : nat) : option (RelationColumn R) :=
  if contains_error_node node then None
  else
    name ← only (lambda_parameter_names node);
    type_reference ← only (children_of_kind node SyntaxKind.TYPE_REF);
    multiplicity ← only (children_of_kind node SyntaxKind.MULTIPLICITY);
    type ← type_ref type_reference;
    multiplicity ← multiplicity_from_node multiplicity;
    span ← declaration_span node;
    Some {| column_id := id; column_name := name; column_type := type; column_multiplicity := multiplicity;
            column_span := span |}.

Definition relation_row_value (node : GreenNode R) (multiplicity : Multiplicity) : option (LocalValue R) :=
  relation ← only (children_of_kind node SyntaxKind.RELATION_TYPE);
  if contains_error_node relation then None
  else
    columns ← mapM (λ '(index, column), id ← u32_try_from index; relation_column column id)
      (imap pair (children_of_kind relation SyntaxKind.COLUMN_INFO));
    row ← result_ok (RelationRow_new columns);
    Some (row_value row multiplicity).

Definition is_named_relation_type (node : GreenNode R) : bool :=
  match only (type_paths node) with Some path => text_eqb path (txt "Relation") | None => false end.

Definition is_relation_type (node : GreenNode R) : bool :=
  negb (contains_error_node node) && is_named_relation_type node
  && (length (children_of_kind node SyntaxKind.RELATION_TYPE) =? 1).

Inductive RelationParameterBinding :=
| NotRelation
| Row (row : LocalValue R)
| Invalid.

(** [typed_relation_rows]: its loop over the children. *)
Record ParameterRows := {
  has_parameter : bool;
  binding : RelationParameterBinding;
  parameter_rows : list RelationParameterBinding;
}.

Definition read_parameter (multiplicity : Multiplicity) (s : ParameterRows) (element : GreenElement R) : ParameterRows :=
  match element with
  | Token token =>
      if bool_decide (gt_kind token = SyntaxKind.COMMA) then
        if has_parameter s
        then {| has_parameter := false; binding := NotRelation; parameter_rows := parameter_rows s ++ [binding s] |}
        else s
      else if is_name_kind (gt_kind token) then
        {| has_parameter := bool_decide (is_Some (result_ok (Name_new (gt_text token))));
           binding := binding s; parameter_rows := parameter_rows s |}
      else s
  | Node type_reference =>
      if bool_decide (node_kind type_reference = SyntaxKind.TYPE_REF) then
        if has_parameter s && is_named_relation_type type_reference then
          {| has_parameter := has_parameter s;
             binding :=
               match (if is_relation_type type_reference then relation_row_value type_reference multiplicity else None) with
               | Some row => Row row
               | None => Invalid
               end;
             parameter_rows := parameter_rows s |}
        else s
      else s
  end.

Definition typed_relation_rows (node : GreenNode R) (multiplicity : Multiplicity) : list RelationParameterBinding :=
  let s := foldl (read_parameter multiplicity)
    {| has_parameter := false; binding := NotRelation; parameter_rows := [] |} (node_children node) in
  if has_parameter s then parameter_rows s ++ [binding s] else parameter_rows s.

(** ** The analyzer *)

Inductive LocalResolution :=
| ClassAll (outcome : Resolution (LocalValue R))
| Navigation (outcome : NavigationResolution R).

Record LocalResolutionSite := { site_span : R; reference_span : R; site_outcome : LocalResolution }.

Record LocalAnalyzer := { environment : TypeEnvironment R; sites : list LocalResolutionSite }.

Definition push_site (site : LocalResolutionSite) : M LocalAnalyzer unit :=
  update_self (λ a, {| environment := environment a; sites := sites a ++ [site] |}).

Definition on_environment (f : TypeEnvironment R → TypeEnvironment R) : M LocalAnalyzer unit :=
  update_self (λ a, {| environment := f (environment a); sites := sites a |}).

Definition unknown : LocalValue R := unknown_value HigherOrder zero_or_more.

Context (graph : ModelGraph R).

(** [evaluate_class_all]. *)
Definition evaluate_class_all (node : GreenNode R) : M LocalAnalyzer (LocalValue R) :=
  match (child ← child_of_kind node SyntaxKind.QUALIFIED_NAME; (λ path, (path, node_range child)) <$> qualified_name child) with
  | None => mret unknown
  | Some (path, span) =>
      let outcome := class_all graph path in
      let value := match outcome with Found value => value | _ => unknown end in
      push_site {| site_span := node_range node; reference_span := span; site_outcome := ClassAll outcome |};;
      mret value
  end.

(** What evaluates the nodes inside a node. *)
Record Evaluators := {
  evaluate_inner_node : GreenNode R → M LocalAnalyzer (LocalValue R);
  evaluate_inner_nodes : list (GreenNode R) → M LocalAnalyzer (LocalValue R);
  evaluate_inner_lambda : GreenNode R → LocalValue R → M LocalAnalyzer (LocalValue R);
}.

Section methods.
Context (inner : Evaluators).

Definition is_lambda (node : GreenNode R) : bool := bool_decide (node_kind node = SyntaxKind.LAMBDA_EXPR).

(** [evaluate_call_arguments]. *)
Definition evaluate_call_arguments (node : GreenNode R) : M LocalAnalyzer unit :=
  evaluate_inner_nodes inner (List.filter (λ child, negb (is_lambda child)) (direct_nodes node));; mret ().

(** [evaluate_property_navigation]. *)
Definition navigation_outcome_at (value : LocalValue R) (variable_source : option Name) (step : NavigationStep)
    (environment : TypeEnvironment R) : option (NavigationResolution R) :=
  match variable_source with
  | Some name =>
      match lookup environment name with
      | Some source => resolve graph source [step]
      | None => Some (NavUnderResolved (UnboundVariable name))
      end
  | None => resolve graph value [step]
  end.

Definition evaluate_property_navigation (node : GreenNode R) (value : LocalValue R) (variable_source : option Name)
  : M LocalAnalyzer (LocalValue R) :=
  evaluate_call_arguments node;;
  match navigation_step node with
  | None => mret unknown
  | Some (step, span) =>
      environment ← gets environment;
      match navigation_outcome_at value variable_source step environment with
      | None => panic
      | Some outcome =>
          push_site {| site_span := node_range node; reference_span := span; site_outcome := Navigation outcome |};;
          mret (default unknown (navigation_value outcome))
      end
  end.

(** [evaluate_arrow_call]. *)
Fixpoint evaluate_lambdas (lambdas : list (GreenNode R)) (incoming result : LocalValue R) : M LocalAnalyzer (LocalValue R) :=
  match lambdas with
  | [] => mret result
  | lambda :: lambdas =>
      result ← evaluate_inner_lambda inner lambda incoming;
      evaluate_lambdas lambdas incoming result
  end.

Definition evaluate_arrow_call (node : GreenNode R) (incoming : LocalValue R) : M LocalAnalyzer (LocalValue R) :=
  let name := simple_name <$> (child_of_kind node SyntaxKind.QUALIFIED_NAME ≫= qualified_name) in
  match child_of_kind node SyntaxKind.CALL_ARGS with
  | None => mret unknown
  | Some call_arguments =>
      let arguments := direct_nodes call_arguments in
      evaluate_inner_nodes inner (List.filter (λ child, negb (is_lambda child)) arguments);;
      lambda_result ← evaluate_lambdas (List.filter is_lambda arguments) incoming unknown;
      mret match name with
           | Some name =>
               if text_eqb name (txt "filter") then incoming
               else if text_eqb name (txt "map") then lambda_result
               else unknown
           | None => unknown
           end
  end.

(** [evaluate_function_call]. *)
Fixpoint evaluate_call_children (children : list (GreenNode R)) : M LocalAnalyzer unit :=
  match children with
  | [] => mret ()
  | child :: children =>
      (if bool_decide (node_kind child = SyntaxKind.CALL_ARGS) then evaluate_call_arguments child
       else if negb (bool_decide (node_kind child = SyntaxKind.QUALIFIED_NAME))
       then evaluate_inner_node inner child;; mret ()
       else mret ());;
      evaluate_call_children children
  end.

Definition evaluate_function_call (node : GreenNode R) : M LocalAnalyzer unit := evaluate_call_children (direct_nodes node).

(** [evaluate_nodes]: its loop, with the value and the variable before. *)
Fixpoint evaluate_nodes_from (value : LocalValue R) (variable_source : option Name) (nodes : list (GreenNode R))
  : M LocalAnalyzer (LocalValue R) :=
  match nodes with
  | [] => mret value
  | node :: nodes =>
      match node_kind node with
      | SyntaxKind.QUERY_EXPR | SyntaxKind.BINARY_EXPR | SyntaxKind.PAREN_EXPR | SyntaxKind.UNARY_EXPR =>
          value ← evaluate_inner_nodes inner (direct_nodes node);
          evaluate_nodes_from value None nodes
      | SyntaxKind.ALL_EXPR =>
          value ← evaluate_class_all node;
          evaluate_nodes_from value None nodes
      | SyntaxKind.VARIABLE_EXPR =>
          let variable_source := variable_name node in
          environment ← gets environment;
          evaluate_nodes_from (default unknown (variable_source ≫= lookup environment)) variable_source nodes
      | SyntaxKind.PROPERTY_NAV =>
          value ← evaluate_property_navigation node value variable_source;
          evaluate_nodes_from value None nodes
      | SyntaxKind.ARROW_CALL =>
          value ← evaluate_arrow_call node value;
          evaluate_nodes_from value None nodes
      | SyntaxKind.FUNCTION_CALL =>
          evaluate_function_call node;;
          evaluate_nodes_from unknown None nodes
      | SyntaxKind.LAMBDA_EXPR =>
          value ← evaluate_inner_lambda inner node unknown;
          evaluate_nodes_from value None nodes
      | _ =>
          evaluate_inner_node inner node;;
          evaluate_nodes_from unknown None nodes
      end
  end.

Definition evaluate_nodes (nodes : list (GreenNode R)) : M LocalAnalyzer (LocalValue R) :=
  evaluate_nodes_from unknown None nodes.

(** [evaluate_node]. *)
Definition evaluate_node (node : GreenNode R) : M LocalAnalyzer (LocalValue R) :=
  if is_lambda node then evaluate_inner_lambda inner node unknown
  else evaluate_inner_nodes inner (direct_nodes node).

(** [evaluate_let] and [evaluate_code_block]. *)
Definition evaluate_let (node : GreenNode R) : M LocalAnalyzer (LocalValue R) :=
  value ← evaluate_inner_nodes inner (direct_nodes node);
  match let_binding_name node with
  | Some name => on_environment (λ env, (bind env name value).2);; mret value
  | None => mret value
  end.

Fixpoint evaluate_statements (value : LocalValue R) (children : list (GreenNode R)) : M LocalAnalyzer (LocalValue R) :=
  match children with
  | [] => mret value
  | child :: children =>
      value ← (if bool_decide (node_kind child = SyntaxKind.LET_STMT) then evaluate_let child
               else evaluate_inner_node inner child);
      evaluate_statements value children
  end.

Definition evaluate_code_block (node : GreenNode R) : M LocalAnalyzer (LocalValue R) :=
  evaluate_statements unknown (direct_nodes node).

(** [evaluate_lambda]: the names that repeat, the value of a parameter, the
    bindings in order, and the method. *)
Fixpoint repeated_names (seen : list (Name * unit)) (repeated : list (Name * unit)) (names : list Name) : list (Name * unit) :=
  match names with
  | [] => repeated
  | name :: names =>
      match bt_get seen name with
      | Some _ => repeated_names seen (bt_insert repeated name ()) names
      | None => repeated_names (bt_insert seen name ()) repeated names
      end
  end.

Definition parameter_value (incoming : LocalValue R) (rows : list RelationParameterBinding) (index : nat) : LocalValue R :=
  match rows !! index with
  | Some (Row row) => row
  | Some Invalid => unknown
  | Some NotRelation | None => if index =? 0 then incoming else unknown
  end.

Fixpoint bind_parameters (value_of : nat → LocalValue R) (repeated : list (Name * unit)) (index : nat) (names : list Name)
    (env : TypeEnvironment R) : TypeEnvironment R :=
  match names with
  | [] => env
  | name :: names =>
      let value := match bt_get repeated name with Some _ => unknown | None => value_of index end in
      bind_parameters value_of repeated (S index) names (bind env name value).2
  end.

Definition evaluate_lambda (node : GreenNode R) (incoming : LocalValue R) : M LocalAnalyzer (LocalValue R) :=
  on_environment scope;;
  match child_of_kind node SyntaxKind.LAMBDA_PARAMS with
  | Some parameters =>
      let rows := typed_relation_rows parameters (value_multiplicity incoming) in
      let names := lambda_parameter_names parameters in
      on_environment (bind_parameters (parameter_value incoming rows) (repeated_names [] [] names) 0 names)
  | None => mret ()
  end;;
  value ← match child_of_kind node SyntaxKind.CODE_BLOCK with
          | None => mret unknown
          | Some block => evaluate_code_block block
          end;
  on_environment drop_scope;;
  mret value.
End methods.

(** The methods with calls nested as deep as the fuel. *)
Fixpoint evaluators (fuel : nat) : Evaluators :=
  match fuel with
  | 0 => {| evaluate_inner_node := λ _, panic; evaluate_inner_nodes := λ _, panic; evaluate_inner_lambda := λ _ _, panic |}
  | S fuel =>
      let inner := evaluators fuel in
      {| evaluate_inner_node := evaluate_node inner;
         evaluate_inner_nodes := evaluate_nodes inner;
         evaluate_inner_lambda := evaluate_lambda inner |}
  end.

Definition evaluation_fuel (tree : GreenNode R) : nat := 3 * element_weight (Node tree) + 3.

(** [analyze_m3_locals]. *)
Definition analyze_m3_locals (tree : GreenNode R) : option (list LocalResolutionSite) :=
  let analyzer := {| environment := scope TypeEnvironment_new; sites := [] |} in
  '(_, analyzer) ← evaluate_inner_node (evaluators (evaluation_fuel tree)) tree analyzer;
  Some (sites analyzer).
End locals.
Arguments LocalResolution : clear implicits.
Arguments LocalResolutionSite : clear implicits.
Arguments LocalAnalyzer : clear implicits.
Arguments RelationParameterBinding : clear implicits.
Arguments Evaluators : clear implicits.
Arguments ClassAll {R} outcome.
Arguments Navigation {R} outcome.

(** ** The sites of a tree *)

Section sites.
Context {R : Type} `{TextRangeNew R} (graph : ModelGraph R) (tree : GreenNode R).

Inductive inside : GreenNode R → Prop :=
| inside_here : inside tree
| inside_child node child : inside node → Node child ∈ node_children node → inside child.

(** A class value is one of a class of the model. *)
Definition value_ok (v : LocalValue R) : Prop :=
  match value_kind v with ClassValue class => is_Some (class_at graph (rcl_path class)) | _ => True end.

Record environment_ok (env : TypeEnvironment R) : Prop := {
  environment_sorted : env_ok env;
  environment_values name v : lookup env name = Some v → value_ok v;
}.

(** What a site says: its node, and how its outcome was found. *)
Definition site_ok (site : LocalResolutionSite R) : Prop :=
  match site_outcome site with
  | ClassAll outcome => ∃ node name path,
      inside node ∧ node_kind node = SyntaxKind.ALL_EXPR ∧ site_span site = node_range node ∧
      child_of_kind node SyntaxKind.QUALIFIED_NAME = Some name ∧ reference_span site = node_range name ∧
      qualified_name name = Some path ∧ outcome = class_all graph path
  | Navigation outcome => ∃ node step,
      inside node ∧ node_kind node = SyntaxKind.PROPERTY_NAV ∧ site_span site = node_range node ∧
      navigation_step node = Some (step, reference_span site) ∧
      ((∃ name, outcome = NavUnderResolved (UnboundVariable name)) ∨
       ∃ source, value_ok source ∧ resolve graph source [step] = Some outcome)
  end.

(** What an evaluation does: bindings are as before, sites are added, and its
    value is in order. *)
Definition evaluated (s : LocalAnalyzer R) (v : LocalValue R) (s' : LocalAnalyzer R) : Prop :=
  environment s' = environment s ∧ (∃ new, sites s' = sites s ++ new ∧ Forall site_ok new) ∧ value_ok v.

(** The same of a method without a value, and of statements that bind. *)
Definition visited (s s' : LocalAnalyzer R) : Prop :=
  environment s' = environment s ∧ ∃ new, sites s' = sites s ++ new ∧ Forall site_ok new.

Definition executed (s : LocalAnalyzer R) (v : LocalValue R) (s' : LocalAnalyzer R) : Prop :=
  runs (environment s) (environment s') ∧ environment_ok (environment s') ∧
  (∃ new, sites s' = sites s ++ new ∧ Forall site_ok new) ∧ value_ok v.

(** ** Values *)

Lemma unknown_ok : value_ok unknown.
Proof. done. Qed.

Lemma resolve_class_found path class : resolve_class graph path = Found class → is_Some (class_at graph (rcl_path class)).
Proof.
  unfold resolve_class. destruct (class_at graph path) as [c|] eqn:E; [|done].
  destruct (resolved_class graph path c) as [rc|] eqn:Er; [|done]. intros [= ->].
  unfold resolved_class in Er. repeat case_match; try done. injection Er as <-. simpl. by rewrite E.
Qed.

Lemma class_all_ok path v : class_all graph path = Found v → value_ok v.
Proof.
  unfold class_all. destruct (resolve_class graph path) eqn:E; try done. intros [= <-]. by apply resolve_class_found in E.
Qed.

Lemma infer_target_ok target m : value_ok (infer_target graph target m).
Proof.
  unfold infer_target. destruct (resolve_class graph _) eqn:E; try done; [by apply resolve_class_found in E|].
  by destruct (is_intrinsic_scalar _).
Qed.

Lemma step_found_ok source step target v : resolve_step graph source step = Some (StepFound target v) → value_ok v.
Proof.
  unfold resolve_step. destruct (value_kind source) as [class| |row|]; try done.
  - unfold resolve_member_step. destruct (resolve_member _ _ _) as [r|]; [|done]. destruct r; try done.
    unfold resolve_found_member. destruct (expected_argument_count _); [|done]. destruct (_ =? _); [|done].
    intros [= _ <-]. apply infer_target_ok.
  - unfold resolve_relation_column. destruct (_ =? _); [|done]. destruct (row_column _ _); [|done].
    intros [= _ <-]. apply infer_target_ok.
Qed.

(** One step: the outcome is that of the step. *)
Lemma one_step source step : ∃ outcome, resolve graph source [step] = Some outcome ∧
  (∀ v, navigation_value outcome = Some v → value_ok v).
Proof.
  unfold resolve. cbn [resolve_from chain_new chain_value].
  destruct (resolve_step_spec graph source step) as (r & Er & _). rewrite Er.
  destruct r; eexists; split; try done. intros v' [= <-]. by eapply step_found_ok.
Qed.

Lemma one_step_missing source step failure :
  resolve graph source [step] = Some (NavMissing failure) →
  chain_value (completed failure) = source ∧ failed_step failure = step ∧ resolve_step graph source step = Some StepMissing.
Proof.
  unfold resolve. cbn [resolve_from chain_new chain_value]. destruct (resolve_step graph source step) as [[]|]; try done.
  by intros [= <-].
Qed.

Lemma row_value_ok node m v : relation_row_value node m = Some v → value_ok v.
Proof.
  unfold relation_row_value. intros (relation & _ & E)%bind_Some. destruct (contains_error_node relation); [done|].
  apply bind_Some in E as (columns & _ & (row & _ & [= <-])%bind_Some). done.
Qed.

Definition rows_ok (rows : list (RelationParameterBinding R)) : Prop :=
  Forall (λ b, match b with Row row => value_ok row | _ => True end) rows.

Lemma typed_rows_ok node m : rows_ok (typed_relation_rows node m).
Proof.
  unfold typed_relation_rows. set (s0 := {| has_parameter := _; binding := _; parameter_rows := _ |}).
  assert (∀ s, rows_ok (parameter_rows s ++ [binding s]) →
    rows_ok (parameter_rows (foldl (read_parameter m) s (node_children node)) ++ [binding (foldl (read_parameter m) s (node_children node))])) as Hf.
  { generalize (node_children node). intros cs. induction cs as [|c cs IH]; intros s Hs; [done|]. simpl. apply IH.
    destruct c as [n|t]; unfold read_parameter.
    - destruct (bool_decide _), (has_parameter s && is_named_relation_type n); try done.
      apply Forall_app in Hs as [Hs _]. apply Forall_app. split; [done|]. constructor; [|done]. cbn [binding].
      destruct (if is_relation_type n then relation_row_value n m else None) as [row|] eqn:E; [|done].
      destruct (is_relation_type n); [by apply row_value_ok in E|done].
    - destruct (bool_decide _); [destruct (has_parameter s); [|done]; apply Forall_app; split; [done|by repeat constructor]|].
      by destruct (is_name_kind _). }
  specialize (Hf s0 ltac:(by repeat constructor)). apply Forall_app in Hf as Hf'. destruct (has_parameter _); tauto.
Qed.

Lemma parameter_value_ok incoming rows index : value_ok incoming → rows_ok rows → value_ok (parameter_value incoming rows index).
Proof.
  intros Hi Hr. unfold parameter_value. destruct (rows !! index) as [[|row|]|] eqn:E; try done; try by destruct (index =? 0).
  unfold rows_ok in Hr. rewrite Forall_forall in Hr. by apply (Hr (Row row)), list_elem_of_lookup_2 with index.
Qed.

(** ** Environments *)

Lemma bind_environment_ok env name v : environment_ok env → value_ok v → environment_ok (bind env name v).2.
Proof.
  intros [Hs Hv] Hok. split; [by apply bind_ok|]. intros n w. rewrite lookup_bind by done.
  destruct (decide (n = name)); [by intros [= <-]|apply Hv].
Qed.

Lemma scope_environment_ok env : environment_ok env → environment_ok (scope env).
Proof.
  intros [[Hr Hf] Hv]. split.
  - split; [done|]. cbn. apply Forall_app. split; [done|]. constructor; [apply bt_nil_sorted|done].
  - intros n w. destruct (scopes_are_lexical (R:=R)) as (_ & E & _). rewrite E. apply Hv.
Qed.

Lemma runs_trans (a b c : TypeEnvironment R) : runs a b → runs b c → runs a c.
Proof. induction 1; [done| |]; intros ?; [eapply runs_bind|eapply runs_scope]; eauto. Qed.

Lemma bind_parameters_run value_of repeated index names (env : TypeEnvironment R) :
  runs env (bind_parameters value_of repeated index names env).
Proof. revert index env. induction names as [|n ns IH]; intros index env; [constructor|]. eapply runs_bind, IH. Qed.

Lemma bind_parameters_runs value_of repeated index names env :
  environment_ok env → (∀ i, value_ok (value_of i)) →
  runs env (bind_parameters value_of repeated index names env) ∧
  environment_ok (bind_parameters value_of repeated index names env).
Proof.
  intros He Hv. revert index env He. induction names as [|name names IH]; intros index env He; [by split; [constructor|]|].
  cbn [bind_parameters]. set (v := match bt_get repeated name with Some _ => _ | None => _ end).
  assert (value_ok v) as Hvo by (unfold v; destruct (bt_get _ _); [apply unknown_ok|apply Hv]).
  destruct (IH (S index) (bind env name v).2) as [Hr Ho]; [by apply bind_environment_ok|].
  split; [|done]. by eapply runs_bind.
Qed.

(** ** Nodes *)

Definition small (h : nat) (node : GreenNode R) : Prop := inside node ∧ element_weight (Node node) ≤ h.

Lemma direct_nodes_in (node child : GreenNode R) : child ∈ direct_nodes node → Node child ∈ node_children node.
Proof.
  unfold direct_nodes. rewrite list_elem_of_omap. intros ([n|t] & Hin & E); [|done]. cbn in E. by injection E as ->.
Qed.

Lemma child_weight (node child : GreenNode R) : Node child ∈ node_children node → S (element_weight (Node child)) < element_weight (Node node).
Proof.
  destruct node as [k cs r]. cbn [node_children]. intros Hin.
  assert (element_weight (Node child) ≤ sum_list (element_weight <$> cs)) as Hle.
  { induction cs as [|c cs IH]; [by apply elem_of_nil in Hin|]. rewrite fmap_cons. cbn [sum_list].
    apply elem_of_cons in Hin as [<-|Hin]; [simpl; lia|]. specialize (IH Hin). simpl in *. lia. }
  change (element_weight (Node (GreenNodeData k cs r))) with (2 + sum_list (element_weight <$> cs)). lia.
Qed.

Lemma small_child h node child : small h node → child ∈ direct_nodes node → 0 < h ∧ small (h - 1) child.
Proof.
  intros [Hi Hw] Hc%direct_nodes_in. pose proof (child_weight _ _ Hc). split; [lia|].
  split; [by eapply inside_child|lia].
Qed.

Lemma small_children h node : small h node → Forall (small (h - 1)) (direct_nodes node).
Proof. intros Hs. apply Forall_forall. intros c Hc. by apply (small_child h node). Qed.

Lemma small_mono h h' node : h ≤ h' → small h node → small h' node.
Proof. intros ? [? ?]. split; [done|lia]. Qed.

Lemma Forall_List_filter {A} (P : A → Prop) f l : Forall P l → Forall P (List.filter f l).
Proof. rewrite !Forall_forall. intros Hl x [Hx _]%list_elem_of_In%filter_In. apply Hl. by apply list_elem_of_In. Qed.

Lemma child_of_kind_in (node : GreenNode R) kind child :
  child_of_kind node kind = Some child → child ∈ direct_nodes node ∧ node_kind child = kind.
Proof.
  unfold child_of_kind. intros [Hin Hk]%find_some. apply bool_decide_eq_true in Hk. split; [by apply list_elem_of_In|done].
Qed.

(** ** Sequencing *)

Lemma visited_refl s : visited s s.
Proof. split; [done|]. exists []. by rewrite app_nil_r. Qed.

Lemma visited_trans s s' s'' : visited s s' → visited s' s'' → visited s s''.
Proof.
  intros [He (n & Hs & Hn)] [He' (n' & Hs' & Hn')]. split; [congruence|]. exists (n ++ n').
  split; [by rewrite Hs', Hs, (assoc_L (++))|]. by apply Forall_app.
Qed.

Lemma evaluated_visited s v s' : evaluated s v s' ↔ visited s s' ∧ value_ok v.
Proof. unfold evaluated, visited. tauto. Qed.

Lemma push_visited site s : site_ok site → wp (push_site site) (λ _ s', visited s s') s.
Proof. intros Hs. apply wp_update. split; [done|]. exists [site]. split; [done|by repeat constructor]. Qed.

(** What the methods need of the ones inside, for nodes of a weight. *)
Record inner_ok (inner : Evaluators R) (h : nat) : Prop := {
  inner_nodes_ok nodes s : Forall (small (h - 1)) nodes → environment_ok (environment s) →
    wp (evaluate_inner_nodes inner nodes) (evaluated s) s;
  inner_node_ok node s : small h node → environment_ok (environment s) →
    wp (evaluate_inner_node inner node) (evaluated s) s;
  inner_lambda_ok node incoming s : small h node → value_ok incoming → environment_ok (environment s) →
    wp (evaluate_inner_lambda inner node incoming) (evaluated s) s;
}.

(** A method, then what its state allows. *)
Lemma wp_visit {A B} (m : M (LocalAnalyzer R) A) (k : A → M (LocalAnalyzer R) B) (P : A → Prop) (Q : B → LocalAnalyzer R → Prop) s :
  environment_ok (environment s) → wp m (λ a s', visited s s' ∧ P a) s →
  (∀ a s', visited s s' → environment_ok (environment s') → P a → wp (k a) Q s') → wp (m ≫= k) Q s.
Proof.
  intros He Hm Hk. eapply wp_seq; [exact Hm|]. intros a s' [Hv Ha]. apply Hk; [done| |done].
  destruct Hv as [-> _]. done.
Qed.

Lemma wp_evaluated (m : M (LocalAnalyzer R) (LocalValue R)) s :
  wp m (evaluated s) s → wp m (λ v s', visited s s' ∧ value_ok v) s.
Proof. intros Hm. eapply wp_mono; [exact Hm|]. intros v s'. by rewrite evaluated_visited. Qed.

Section methods.
Context (inner : Evaluators R) (h : nat) (Hinner : inner_ok inner h).

Lemma call_arguments_visited node s :
  small h node → environment_ok (environment s) → wp (evaluate_call_arguments inner node) (λ _ s', visited s s') s.
Proof.
  intros Hn He. eapply (wp_visit _ _ value_ok); [done|apply wp_evaluated, (inner_nodes_ok _ _ Hinner); [|done]|].
  - by apply Forall_List_filter, small_children.
  - intros v s' Hv _ _. by apply wp_ret.
Qed.

Lemma class_all_evaluated node s :
  small h node → node_kind node = SyntaxKind.ALL_EXPR → wp (evaluate_class_all graph node) (evaluated s) s.
Proof.
  intros [Hin _] Hk. unfold evaluate_class_all. destruct (child_of_kind node _) as [child|] eqn:Ec; cbn.
  - destruct (qualified_name child) as [path|] eqn:Ep; cbn.
    + eapply wp_seq; [apply push_visited|].
      * cbn. exists node, child, path. by split_and!.
      * intros [] s' Hvalue. apply wp_ret, evaluated_visited. split; [done|].
        destruct (class_all graph path) eqn:E; try apply unknown_ok. by eapply class_all_ok.
    + apply wp_ret, evaluated_visited. split; [apply visited_refl|done].
  - apply wp_ret, evaluated_visited. split; [apply visited_refl|done].
Qed.

Lemma property_navigation_evaluated node value variable_source s :
  small h node → node_kind node = SyntaxKind.PROPERTY_NAV → value_ok value → environment_ok (environment s) →
  wp (evaluate_property_navigation graph inner node value variable_source) (evaluated s) s.
Proof.
  intros Hn Hk Hv He. unfold evaluate_property_navigation.
  eapply (wp_visit _ _ (λ _, True)); [done|eapply wp_mono; [by apply call_arguments_visited|done]|].
  intros [] s1 Hs1 He1 _. destruct (navigation_step node) as [[step span]|] eqn:Es.
  2:{ apply wp_ret, evaluated_visited. by split. }
  apply wp_bind, wp_gets.
  assert (∃ outcome, navigation_outcome_at graph value variable_source step (environment s1) = Some outcome ∧
    (∀ v, navigation_value outcome = Some v → value_ok v) ∧
    ((∃ name, outcome = NavUnderResolved (UnboundVariable name)) ∨
     ∃ source, value_ok source ∧ resolve graph source [step] = Some outcome)) as (outcome & Eo & Hval & Hsite).
  { unfold navigation_outcome_at. destruct variable_source as [name|].
    - destruct (lookup _ name) as [source|] eqn:El.
      + destruct (one_step source step) as (o & Eo & Ho). exists o. split_and!; [done..|]. right. exists source. split; [|done].
        by eapply environment_values.
      + eexists. split_and!; [done..|]. left. by eexists.
    - destruct (one_step value step) as (o & Eo & Ho). exists o. split_and!; [done..|]. right. by exists value. }
  rewrite Eo. eapply wp_seq; [apply push_visited|].
  - cbn. exists node, step. destruct Hn as [Hin _]. by split_and!.
  - intros [] s2 Hs2. apply wp_ret, evaluated_visited. split; [by eapply visited_trans|].
    destruct (navigation_value outcome) eqn:E; [by apply Hval|done].
Qed.

Lemma lambdas_evaluated lambdas incoming result s :
  Forall (small h) lambdas → value_ok incoming → value_ok result → environment_ok (environment s) →
  wp (evaluate_lambdas inner lambdas incoming result) (evaluated s) s.
Proof.
  intros Hl Hi. revert result s. induction Hl as [|l ls Hl Hls IH]; intros result s Hr He; cbn [evaluate_lambdas].
  - apply wp_ret, evaluated_visited. split; [apply visited_refl|done].
  - eapply (wp_visit _ _ value_ok); [done|by apply wp_evaluated, (inner_lambda_ok _ _ Hinner)|].
    intros v s1 Hs1 He1 Hv. eapply wp_mono; [by apply IH|]. intros v' s2 [Hs2 Hv']%evaluated_visited.
    apply evaluated_visited. split; [by eapply visited_trans|done].
Qed.

Lemma arrow_call_evaluated node incoming s :
  small h node → value_ok incoming → environment_ok (environment s) →
  wp (evaluate_arrow_call inner node incoming) (evaluated s) s.
Proof.
  intros Hn Hi He. unfold evaluate_arrow_call. destruct (child_of_kind node SyntaxKind.CALL_ARGS) as [args|] eqn:Ea.
  2:{ apply wp_ret, evaluated_visited. split; [apply visited_refl|done]. }
  apply child_of_kind_in in Ea as [Ha _]. destruct (small_child _ _ _ Hn Ha) as [Hpos Hargs].
  pose proof (small_children _ _ Hargs) as Hch.
  eapply (wp_visit _ _ value_ok); [done|apply wp_evaluated, (inner_nodes_ok _ _ Hinner); [|done]|].
  { apply Forall_List_filter. eapply Forall_impl; [exact Hch|]. intros c. apply small_mono. lia. }
  intros v s1 Hs1 He1 _. eapply (wp_visit _ _ value_ok); [done|apply wp_evaluated, lambdas_evaluated; [|done..]|].
  { apply Forall_List_filter. eapply Forall_impl; [exact Hch|]. intros c. apply small_mono. lia. }
  intros v' s2 Hs2 He2 Hv'. apply wp_ret, evaluated_visited. split; [by eapply visited_trans|].
  destruct (simple_name <$> _); [|done]. by repeat destruct (text_eqb _ _).
Qed.

Lemma call_children_visited children s :
  0 < h → Forall (small (h - 1)) children → environment_ok (environment s) →
  wp (evaluate_call_children inner children) (λ _ s', visited s s') s.
Proof.
  intros Hpos Hc. revert s. induction Hc as [|c cs Hc Hcs IH]; intros s He; cbn [evaluate_call_children].
  - apply wp_ret, visited_refl.
  - assert (small h c) as Hc' by (by eapply small_mono; [|exact Hc]; lia).
    eapply (wp_visit _ _ (λ _, True)); [done| |].
    + destruct (bool_decide _); [eapply wp_mono; [by apply call_arguments_visited|done]|].
      destruct (negb _); [|by apply wp_ret; split; [apply visited_refl|]].
      eapply (wp_visit _ _ value_ok); [done|by apply wp_evaluated, (inner_node_ok _ _ Hinner)|].
      intros v s1 Hs1 _ _. by apply wp_ret.
    + intros [] s1 Hs1 He1 _. eapply wp_mono; [by apply IH|]. intros [] s2. by apply visited_trans.
Qed.

Lemma nodes_evaluated nodes value variable_source s :
  Forall (small h) nodes → value_ok value → environment_ok (environment s) →
  wp (evaluate_nodes_from graph inner value variable_source nodes) (evaluated s) s.
Proof.
  intros Hn. revert value variable_source s. induction Hn as [|n ns Hn Hns IH]; intros value variable_source s Hv He; cbn [evaluate_nodes_from].
  { apply wp_ret, evaluated_visited. split; [apply visited_refl|done]. }
  assert (∀ m : M (LocalAnalyzer R) (LocalValue R), wp m (evaluated s) s →
    wp (v ← m; evaluate_nodes_from graph inner v None ns) (evaluated s) s) as Hstep.
  { intros m Hm. eapply (wp_visit _ _ value_ok); [done|by apply wp_evaluated|]. intros v s1 Hs1 He1 Hv1.
    eapply wp_mono; [by apply IH|]. intros v' s2 [Hs2 Hv']%evaluated_visited. apply evaluated_visited.
    split; [by eapply visited_trans|done]. }
  assert (∀ {A} (m : M (LocalAnalyzer R) A), wp m (λ _ s', visited s s') s →
    wp (m;; evaluate_nodes_from graph inner unknown None ns) (evaluated s) s) as Hskip.
  { intros A m Hm. eapply (wp_visit _ _ (λ _, True)); [done|eapply wp_mono; [exact Hm|done]|]. intros a s1 Hs1 He1 _.
    eapply wp_mono; [apply IH; [apply unknown_ok|done]|]. intros v' s2 [Hs2 Hv']%evaluated_visited.
    apply evaluated_visited. split; [by eapply visited_trans|done]. }
  assert (wp (evaluate_inner_node inner n;; evaluate_nodes_from graph inner unknown None ns) (evaluated s) s) as Hother.
  { apply Hskip. eapply wp_mono; [by apply (inner_node_ok _ _ Hinner)|]. by intros v s' [? _]%evaluated_visited. }
  destruct (node_kind n) eqn:Ek; try exact Hother.
  all: first
    [ apply Hstep, (inner_nodes_ok _ _ Hinner); [by apply small_children|done]
    | apply Hstep; by apply class_all_evaluated
    | apply Hstep; by apply property_navigation_evaluated
    | apply Hstep; by apply arrow_call_evaluated
    | apply Hstep, (inner_lambda_ok _ _ Hinner); done
    | apply Hskip, call_children_visited; [|by apply small_children|done]; destruct Hn as [_ Hw]; destruct n; cbn in Hw; lia
    | idtac ].
  apply wp_bind, wp_gets, IH; [|done]. destruct (variable_name n ≫= lookup (environment s)) as [v|] eqn:E; [|done].
  apply bind_Some in E as (name & _ & E). by eapply environment_values.
Qed.

Lemma let_executed node s :
  small h node → environment_ok (environment s) → wp (evaluate_let inner node) (executed s) s.
Proof.
  intros Hn He. unfold evaluate_let.
  eapply (wp_visit _ _ value_ok); [done|apply wp_evaluated, (inner_nodes_ok _ _ Hinner); [by apply small_children|done]|].
  intros v s1 [Ee Hs1] He1 Hv. destruct (let_binding_name node) as [name|].
  - apply wp_bind, wp_update, wp_ret. split_and!; try done; [|by apply bind_environment_ok].
    cbn. rewrite <-Ee. eapply runs_bind, runs_end.
  - apply wp_ret. split_and!; try done. rewrite Ee. apply runs_end.
Qed.

Lemma executed_trans s v s' v' s'' : executed s v s' → executed s' v' s'' → executed s v' s''.
Proof.
  intros (Hr & _ & (n & Hs & Hn) & _) (Hr' & He & (n' & Hs' & Hn') & Hv). split_and!; [by eapply runs_trans|done| |done].
  exists (n ++ n'). split; [by rewrite Hs', Hs, (assoc_L (++))|]. by apply Forall_app.
Qed.

Lemma statements_executed children value s :
  Forall (small h) children → value_ok value → environment_ok (environment s) →
  wp (evaluate_statements inner value children) (executed s) s.
Proof.
  intros Hc. revert value s. induction Hc as [|c cs Hc Hcs IH]; intros value s Hv He; cbn [evaluate_statements].
  - apply wp_ret. split_and!; [apply runs_end|done| |done]. exists []. by rewrite app_nil_r.
  - eapply (wp_seq _ _ (executed s)).
    + destruct (bool_decide _); [by apply let_executed|].
      eapply wp_mono; [by apply (inner_node_ok _ _ Hinner)|].
      intros v s1 (Ee & Hs1 & Hv1). split_and!; [rewrite Ee; apply runs_end|by rewrite Ee|done|done].
    + intros v s1 Hx. eapply wp_mono; [apply IH; apply Hx|]. intros v' s2. by eapply executed_trans.
Qed.

End methods.

Lemma lambda_evaluated inner h node incoming s :
  inner_ok inner (h - 1) → small h node → value_ok incoming → environment_ok (environment s) →
  wp (evaluate_lambda inner node incoming) (evaluated s) s.
Proof.
  intros Hinner Hn Hi He. unfold evaluate_lambda. apply wp_bind, wp_update.
  set (s1 := {| environment := scope (environment s); sites := sites s |}).
  assert (wp (match child_of_kind node SyntaxKind.LAMBDA_PARAMS with
    | Some parameters =>
        let rows := typed_relation_rows parameters (value_multiplicity incoming) in
        let names := lambda_parameter_names parameters in
        on_environment (bind_parameters (parameter_value incoming rows) (repeated_names [] [] names) 0 names)
    | None => mret ()
    end) (λ _ s2, runs (environment s1) (environment s2) ∧ environment_ok (environment s2) ∧ sites s2 = sites s) s1) as Hparams.
  { pose proof (scope_environment_ok _ He) as He1. destruct (child_of_kind node SyntaxKind.LAMBDA_PARAMS) as [ps|].
    - apply wp_update. destruct (bind_parameters_runs
        (parameter_value incoming (typed_relation_rows ps (value_multiplicity incoming)))
        (repeated_names [] [] (lambda_parameter_names ps)) 0 (lambda_parameter_names ps) (scope (environment s)) He1); [|done].
      intros i. apply parameter_value_ok; [done|apply typed_rows_ok].
    - apply wp_ret. split_and!; [apply runs_end|done..]. }
  eapply wp_seq; [exact Hparams|]. clear Hparams. intros u s2 (Hr & He2 & Es2).
  eapply (wp_seq _ _ (executed s2)).
  - destruct (child_of_kind node SyntaxKind.CODE_BLOCK) as [block|] eqn:Eb.
    + apply child_of_kind_in in Eb as [Hb _]. destruct (small_child _ _ _ Hn Hb) as [Hpos Hblock].
      apply (statements_executed _ (h - 1)); [done| |done..]. eapply Forall_impl; [by apply small_children|]. intros c. apply small_mono. lia.
    + apply wp_ret. split_and!; [apply runs_end|done| |done]. exists []. by rewrite app_nil_r.
  - intros v s3 (Hr3 & He3 & (new & Es3 & Hnew) & Hv). apply wp_bind, wp_update, wp_ret. split_and!.
    + cbn. apply scope_restored. by eapply runs_trans.
    + exists new. cbn. by rewrite Es3, Es2.
    + done.
Qed.

Lemma empty_nodes h nodes : h < 2 → Forall (small h) nodes → nodes = [].
Proof. intros Hh [|n ns [_ Hw] _]; [done|]. destruct n. cbn in Hw. lia. Qed.

(** With fuel for what is nested in them, the methods evaluate their nodes. *)
Lemma evaluators_ok fuel :
  (∀ h nodes s, 3 * h + 3 ≤ fuel → Forall (small h) nodes → environment_ok (environment s) →
    wp (evaluate_inner_nodes (evaluators graph fuel) nodes) (evaluated s) s) ∧
  (∀ h node s, 3 * h + 2 ≤ fuel → small h node → environment_ok (environment s) →
    wp (evaluate_inner_node (evaluators graph fuel) node) (evaluated s) s) ∧
  (∀ h node incoming s, 3 * h + 1 ≤ fuel → small h node → value_ok incoming → environment_ok (environment s) →
    wp (evaluate_inner_lambda (evaluators graph fuel) node incoming) (evaluated s) s).
Proof.
  induction fuel as [|fuel (IHns & IHn & IHl)]; [split_and!; lia|].
  assert (∀ h, 0 < h → 3 * h + 2 ≤ fuel → inner_ok (evaluators graph fuel) h) as Hok.
  { intros h Hpos Hf. split; intros; [eapply (IHns (h - 1))|eapply IHn|eapply IHl]; try done; lia. }
  cbn [evaluators evaluate_inner_node evaluate_inner_nodes evaluate_inner_lambda]. split_and!.
  - intros h nodes s Hf Hn He. destruct (decide (h < 2)) as [Hh|Hh].
    + apply (empty_nodes _ _ Hh) in Hn as ->. apply wp_ret, evaluated_visited. split; [apply visited_refl|done].
    + apply (nodes_evaluated _ h); [apply Hok; lia|done..].
  - intros h node s Hf Hn He. unfold evaluate_node. destruct (is_lambda node).
    + apply (IHl h); [lia|done..].
    + apply (IHns (h - 1)); [|by apply small_children|done].
      destruct Hn as [_ Hw]. destruct node. cbn in Hw. lia.
  - intros h node incoming s Hf Hn Hi He. apply (lambda_evaluated _ h); [|done..].
    destruct Hn as [_ Hw]. destruct node. cbn in Hw. apply Hok; lia.
Qed.

(** The analysis always answers, and its sites are in order. *)
Lemma analysis_sites : ∃ found, analyze_m3_locals graph tree = Some found ∧ Forall site_ok found.
Proof.
  unfold analyze_m3_locals. set (s0 := {| environment := _; sites := [] |}).
  destruct (evaluators_ok (evaluation_fuel tree)) as (_ & Hn & _).
  destruct (wp_elim _ _ _ (Hn (element_weight (Node tree)) tree s0 ltac:(unfold evaluation_fuel; lia)
    (conj inside_here (le_n _)) ltac:(apply scope_environment_ok; split; [split; [apply bt_nil_sorted|constructor]|done])))
    as (v & s' & E & _ & (new & Hs & Hnew) & _).
  rewrite E. cbn. exists (sites s'). split; [done|]. by rewrite Hs.
Qed.
End sites.

(** ** Where values flow

    What the analyzer computes, without its state: the value of an expression
    and the references met on the way, for the variables in scope.  A chain of
    links starts at a class, a variable or a nested expression; each navigation
    goes on from the value of its receiver, [filter] passes its receiver on and
    [map] the value of its last lambda, and any other call, island or recovery
    gives an unknown value. *)

Section flows.
Context {R : Type} `{TextRangeNew R} (graph : ModelGraph R).

(** The variables in scope, the innermost first. *)
Abbreviation Scope := (list (Name * LocalValue R)).

Fixpoint value_in (ρ : Scope) (name : Name) : option (LocalValue R) :=
  match ρ with
  | [] => None
  | (bound, value) :: ρ => if decide (name = bound) then Some value else value_in ρ name
  end.

(** A reference: a class source, or a navigation with the value of its receiver
    or the variable that is not bound. *)
Inductive Reference :=
| ToClass (node : GreenNode R) (span : R) (path : QName)
| ToMember (node : GreenNode R) (span : R) (receiver : Result (LocalValue R) Name) (step : NavigationStep).

(** What is evaluated: the rest of a chain after a receiver, which may be a
    variable; the parts of a function call; the lambdas of an arrow call and the
    result so far; a lambda over its receiver; the rest of its statements. *)
Inductive Task :=
| Chain (receiver : LocalValue R) (variable : option Name) (nodes : list (GreenNode R))
| CallParts (children : list (GreenNode R))
| Lambdas (lambdas : list (GreenNode R)) (receiver result : LocalValue R)
| Lambda (node : GreenNode R) (receiver : LocalValue R)
| Statements (value : LocalValue R) (statements : list (GreenNode R)).

Inductive Link := Group | Source | Variable_ | Member | Arrow | Call | Function_ | Opaque.

Definition link (node : GreenNode R) : Link :=
  match node_kind node with
  | SyntaxKind.QUERY_EXPR | SyntaxKind.BINARY_EXPR | SyntaxKind.PAREN_EXPR | SyntaxKind.UNARY_EXPR => Group
  | SyntaxKind.ALL_EXPR => Source
  | SyntaxKind.VARIABLE_EXPR => Variable_
  | SyntaxKind.PROPERTY_NAV => Member
  | SyntaxKind.ARROW_CALL => Arrow
  | SyntaxKind.FUNCTION_CALL => Call
  | SyntaxKind.LAMBDA_EXPR => Function_
  | _ => Opaque
  end.

Definition whole (nodes : list (GreenNode R)) : Task := Chain unknown None nodes.
Definition arguments_of (node : GreenNode R) : Task := whole (List.filter (λ child, negb (is_lambda child)) (direct_nodes node)).
Definition evaluates (node : GreenNode R) : Task :=
  if is_lambda node then Lambda node unknown else whole (direct_nodes node).

(** The class of a source, and its reference. *)
Definition source_of (node : GreenNode R) : option (QName * R) :=
  child ← child_of_kind node SyntaxKind.QUALIFIED_NAME; (λ path, (path, node_range child)) <$> qualified_name child.

Definition source_value (node : GreenNode R) : LocalValue R :=
  match source_of node with
  | Some (path, _) => match class_all graph path with Found value => value | _ => unknown end
  | None => unknown
  end.

Definition source_reference (node : GreenNode R) : list Reference :=
  match source_of node with Some (path, span) => [ToClass node span path] | None => [] end.

(** The receiver of a navigation, what it gives, and its reference. *)
Definition receiver (ρ : Scope) (value : LocalValue R) (variable : option Name) : Result (LocalValue R) Name :=
  match variable with
  | Some name => match value_in ρ name with Some value => Ok value | None => Err name end
  | None => Ok value
  end.

Definition navigated (source : Result (LocalValue R) Name) (node : GreenNode R) : LocalValue R :=
  match source, navigation_step node with
  | Ok value, Some (step, _) => match resolve graph value [step] with Some (NavFound chain) => chain_value chain | _ => unknown end
  | _, _ => unknown
  end.

Definition navigation_reference (source : Result (LocalValue R) Name) (node : GreenNode R) : list Reference :=
  match navigation_step node with Some (step, span) => [ToMember node span source step] | None => [] end.

(** What an arrow call gives: by the last part of the name of what it calls. *)
Definition called (node : GreenNode R) : option Text :=
  simple_name <$> (child_of_kind node SyntaxKind.QUALIFIED_NAME ≫= qualified_name).

Definition call_value (node : GreenNode R) (value result : LocalValue R) : LocalValue R :=
  if decide (called node = Some (txt "filter")) then value
  else if decide (called node = Some (txt "map")) then result
  else unknown.

(** The scope of a lambda's body: a name that two parameters have is unknown,
    a parameter of a relation type is a row of it, and the first parameter is
    otherwise the receiver. *)
Definition occurrences (name : Name) (names : list Name) : nat := length (filter (λ other, other = name) names).

Fixpoint with_parameters (value_of : nat → Name → LocalValue R) (index : nat) (names : list Name) (ρ : Scope) : Scope :=
  match names with
  | [] => ρ
  | name :: names => with_parameters value_of (S index) names ((name, value_of index name) :: ρ)
  end.

Definition lambda_scope (node : GreenNode R) (value : LocalValue R) (ρ : Scope) : Scope :=
  match child_of_kind node SyntaxKind.LAMBDA_PARAMS with
  | None => ρ
  | Some parameters =>
      let names := lambda_parameter_names parameters in
      let rows := typed_relation_rows parameters (value_multiplicity value) in
      with_parameters (λ index name,
        if 1 <? occurrences name names then unknown else parameter_value value rows index) 0 names ρ
  end.

Definition let_scope (node : GreenNode R) (value : LocalValue R) (ρ : Scope) : Scope :=
  match let_binding_name node with Some name => (name, value) :: ρ | None => ρ end.

Inductive flows : Scope → Task → LocalValue R → list Reference → Prop :=
(** The links of a chain, and its end. *)
| flows_end ρ v x : flows ρ (Chain v x []) v []
| flows_group ρ v x node nodes w r refs1 refs2 :
    link node = Group → flows ρ (whole (direct_nodes node)) w refs1 → flows ρ (Chain w None nodes) r refs2 →
    flows ρ (Chain v x (node :: nodes)) r (refs1 ++ refs2)
| flows_source ρ v x node nodes r refs :
    link node = Source → flows ρ (Chain (source_value node) None nodes) r refs →
    flows ρ (Chain v x (node :: nodes)) r (source_reference node ++ refs)
| flows_variable ρ v x node nodes r refs :
    link node = Variable_ →
    flows ρ (Chain (default unknown (variable_name node ≫= value_in ρ)) (variable_name node) nodes) r refs →
    flows ρ (Chain v x (node :: nodes)) r refs
| flows_member ρ v x node nodes w r refs1 refs2 :
    link node = Member → flows ρ (arguments_of node) w refs1 →
    flows ρ (Chain (navigated (receiver ρ v x) node) None nodes) r refs2 →
    flows ρ (Chain v x (node :: nodes)) r (refs1 ++ navigation_reference (receiver ρ v x) node ++ refs2)
| flows_bare_arrow ρ v x node nodes r refs :
    link node = Arrow → child_of_kind node SyntaxKind.CALL_ARGS = None → flows ρ (Chain unknown None nodes) r refs →
    flows ρ (Chain v x (node :: nodes)) r refs
| flows_arrow ρ v x node nodes arguments w result r refs1 refs2 refs3 :
    link node = Arrow → child_of_kind node SyntaxKind.CALL_ARGS = Some arguments →
    flows ρ (arguments_of arguments) w refs1 →
    flows ρ (Lambdas (List.filter is_lambda (direct_nodes arguments)) v unknown) result refs2 →
    flows ρ (Chain (call_value node v result) None nodes) r refs3 →
    flows ρ (Chain v x (node :: nodes)) r (refs1 ++ refs2 ++ refs3)
| flows_call ρ v x node nodes w r refs1 refs2 :
    link node = Call → flows ρ (CallParts (direct_nodes node)) w refs1 → flows ρ (Chain unknown None nodes) r refs2 →
    flows ρ (Chain v x (node :: nodes)) r (refs1 ++ refs2)
| flows_function ρ v x node nodes w r refs1 refs2 :
    link node = Function_ → flows ρ (Lambda node unknown) w refs1 → flows ρ (Chain w None nodes) r refs2 →
    flows ρ (Chain v x (node :: nodes)) r (refs1 ++ refs2)
| flows_opaque ρ v x node nodes w r refs1 refs2 :
    link node = Opaque → flows ρ (evaluates node) w refs1 → flows ρ (Chain unknown None nodes) r refs2 →
    flows ρ (Chain v x (node :: nodes)) r (refs1 ++ refs2)
(** The parts of a function call. *)
| flows_parts_end ρ : flows ρ (CallParts []) unknown []
| flows_parts_arguments ρ child children w r refs1 refs2 :
    node_kind child = SyntaxKind.CALL_ARGS → flows ρ (arguments_of child) w refs1 → flows ρ (CallParts children) r refs2 →
    flows ρ (CallParts (child :: children)) r (refs1 ++ refs2)
| flows_parts_name ρ child children r refs :
    node_kind child = SyntaxKind.QUALIFIED_NAME → flows ρ (CallParts children) r refs →
    flows ρ (CallParts (child :: children)) r refs
| flows_parts_other ρ child children w r refs1 refs2 :
    node_kind child ≠ SyntaxKind.CALL_ARGS → node_kind child ≠ SyntaxKind.QUALIFIED_NAME →
    flows ρ (evaluates child) w refs1 → flows ρ (CallParts children) r refs2 →
    flows ρ (CallParts (child :: children)) r (refs1 ++ refs2)
(** The lambdas of an arrow call. *)
| flows_lambdas_end ρ v r : flows ρ (Lambdas [] v r) r []
| flows_lambdas ρ lambda lambdas v w r r' refs1 refs2 :
    flows ρ (Lambda lambda v) w refs1 → flows ρ (Lambdas lambdas v w) r' refs2 →
    flows ρ (Lambdas (lambda :: lambdas) v r) r' (refs1 ++ refs2)
(** A lambda and its statements. *)
| flows_no_body ρ node v : child_of_kind node SyntaxKind.CODE_BLOCK = None → flows ρ (Lambda node v) unknown []
| flows_lambda ρ node v block r refs :
    child_of_kind node SyntaxKind.CODE_BLOCK = Some block →
    flows (lambda_scope node v ρ) (Statements unknown (direct_nodes block)) r refs → flows ρ (Lambda node v) r refs
| flows_statements_end ρ v : flows ρ (Statements v []) v []
| flows_let ρ v node nodes w r refs1 refs2 :
    node_kind node = SyntaxKind.LET_STMT → flows ρ (whole (direct_nodes node)) w refs1 →
    flows (let_scope node w ρ) (Statements w nodes) r refs2 →
    flows ρ (Statements v (node :: nodes)) r (refs1 ++ refs2)
| flows_statement ρ v node nodes w r refs1 refs2 :
    node_kind node ≠ SyntaxKind.LET_STMT → flows ρ (evaluates node) w refs1 → flows ρ (Statements w nodes) r refs2 →
    flows ρ (Statements v (node :: nodes)) r (refs1 ++ refs2).

(** The flow is determined. *)
Lemma flows_deterministic ρ t v refs v' refs' : flows ρ t v refs → flows ρ t v' refs' → v = v' ∧ refs = refs'.
Proof.
  intros Hf. revert v' refs'.
  induction Hf; intros v' refs' Hf'; inversion Hf'; subst; try congruence; simplify_eq;
    repeat match goal with
    | IH : ∀ v refs, flows ?ρ ?t v refs → _ ∧ _, Hf : flows ?ρ ?t _ _ |- _ => apply IH in Hf as [<- <-]
    end; done.
Qed.

(** ** The analyzer computes the flow *)

(** The site of a reference. *)
Definition site_at (r : Reference) (site : LocalResolutionSite R) : Prop :=
  match r with
  | ToClass node span path =>
      site = {| site_span := node_range node; reference_span := span; site_outcome := ClassAll (class_all graph path) |}
  | ToMember node span source step =>
      site_span site = node_range node ∧ reference_span site = span ∧
      match source with
      | Ok value => ∃ outcome, site_outcome site = Navigation outcome ∧ resolve graph value [step] = Some outcome
      | Err name => site_outcome site = Navigation (NavUnderResolved (UnboundVariable name))
      end
  end.

(** The variables of an environment are those in scope. *)
Definition agrees (env : TypeEnvironment R) (ρ : Scope) : Prop :=
  env_ok env ∧ ∀ name, lookup env name = value_in ρ name.

Lemma agrees_bind env ρ name v : agrees env ρ → agrees (bind env name v).2 ((name, v) :: ρ).
Proof.
  intros [Hok Hl]. split; [by apply bind_ok|]. intros n. rewrite lookup_bind by done. cbn [value_in]. by rewrite Hl.
Qed.

Lemma agrees_scope env ρ : agrees env ρ → agrees (scope env) ρ.
Proof.
  intros [[Hr Hf] Hl]. split.
  - split; [done|]. apply Forall_app. split; [done|]. constructor; [apply bt_nil_sorted|done].
  - intros n. rewrite <-Hl. unfold lookup, scope. cbn [env_frames env_root]. by rewrite reverse_snoc.
Qed.

Lemma repeated_names_spec seen repeated names name :
  bt_sorted seen → bt_sorted repeated →
  is_Some (bt_get (repeated_names seen repeated names) name) ↔
  is_Some (bt_get repeated name) ∨ is_Some (bt_get seen name) ∧ 0 < occurrences name names ∨ 1 < occurrences name names.
Proof.
  revert seen repeated. induction names as [|n names IH]; intros seen repeated Hs Hr; cbn [repeated_names].
  { unfold occurrences. cbn. intuition lia. }
  assert (occurrences name (n :: names) = (if decide (n = name) then 1 else 0) + occurrences name names) as ->.
  { unfold occurrences. rewrite filter_cons. by destruct (decide (n = name)). }
  destruct (bt_get seen n) as [u|] eqn:En; rewrite IH by (try apply bt_insert_sorted; done);
    rewrite bt_lookup_insert by done; destruct (decide (name = n)) as [->|Hne];
    rewrite ?decide_True by done; try rewrite (decide_False (P:=n = name)) by congruence.
  - rewrite En. split; [intros _; right; left; split; [by eexists|lia]|intros _; left; by eexists].
  - done.
  - rewrite En, !is_Some_alt. split; [intros [?|[[_ ?]|?]]; [by left|right; right; lia..]|].
    intros [?|[[[] _]|?]]; [by left|]. right. left. split; [done|lia].
  - done.
Qed.

Lemma agrees_parameters value_of (names all : list Name) index env ρ :
  agrees env ρ →
  agrees (bind_parameters value_of (repeated_names [] [] all) index names env)
    (with_parameters (λ index name, if 1 <? occurrences name all then unknown else value_of index) index names ρ).
Proof.
  revert index env ρ. induction names as [|name names IH]; intros index env ρ He; [done|].
  cbn [bind_parameters with_parameters]. apply IH.
  pose proof (repeated_names_spec [] [] all name bt_nil_sorted bt_nil_sorted) as Hr. cbn [bt_get] in Hr.
  assert (match bt_get (repeated_names [] [] all) name with Some _ => unknown | None => value_of index end
    = (if 1 <? occurrences name all then unknown else value_of index)) as ->; [|by apply agrees_bind].
  destruct (bt_get _ name) as [u|] eqn:E, (Nat.ltb_spec 1 (occurrences name all)); try done; exfalso.
  - destruct (proj1 Hr) as [[? ?]|[[[? ?] _]|?]]; [by eexists|done..|lia].
  - destruct (proj2 Hr) as [? ?]; [by auto|done].
Qed.

(** What a method that ends has done: bindings are as before, and its value and
    its sites are those of the flow. *)
Definition logged (refs : list Reference) (s s' : LocalAnalyzer R) : Prop :=
  environment s' = environment s ∧ ∃ new, sites s' = sites s ++ new ∧ Forall2 site_at refs new.

Definition follows (ρ : Scope) (t : Task) (m : M (LocalAnalyzer R) (LocalValue R)) : Prop :=
  ∀ s v s', agrees (environment s) ρ → m s = Some (v, s') → ∃ refs, flows ρ t v refs ∧ logged refs s s'.

Lemma logged_nil s : logged [] s s.
Proof. split; [done|]. exists []. by rewrite app_nil_r. Qed.

Lemma logged_app refs1 refs2 s s1 s2 : logged refs1 s s1 → logged refs2 s1 s2 → logged (refs1 ++ refs2) s s2.
Proof.
  intros [He1 (n1 & Hs1 & Hn1)] [He2 (n2 & Hs2 & Hn2)]. split; [congruence|]. exists (n1 ++ n2).
  split; [by rewrite Hs2, Hs1, (assoc_L (++))|]. by apply Forall2_app.
Qed.

Lemma logged_one r site s s' : push_site site s = Some ((), s') → site_at r site → logged [r] s s'.
Proof. intros [= <-] Hr. split; [done|]. exists [site]. split; [done|by repeat constructor]. Qed.

Lemma logged_agrees refs s s' ρ : logged refs s s' → agrees (environment s) ρ → agrees (environment s') ρ.
Proof. by intros [-> _]. Qed.

Lemma run_bind {S A B} (m : M S A) (k : A → M S B) s b s' :
  (m ≫= k) s = Some (b, s') → ∃ a s1, m s = Some (a, s1) ∧ k a s1 = Some (b, s').
Proof. intros ([a s1] & Hm & Hk)%bind_Some. by exists a, s1. Qed.

Record inner_follows (inner : Evaluators R) : Prop := {
  follows_nodes ρ nodes : follows ρ (whole nodes) (evaluate_inner_nodes inner nodes);
  follows_node ρ node : follows ρ (evaluates node) (evaluate_inner_node inner node);
  follows_lambda ρ node v : follows ρ (Lambda node v) (evaluate_inner_lambda inner node v);
}.

Section follows.
Context (inner : Evaluators R) (Hinner : inner_follows inner).

Lemma arguments_follow ρ node s u s' :
  agrees (environment s) ρ → evaluate_call_arguments inner node s = Some (u, s') →
  ∃ w refs, flows ρ (arguments_of node) w refs ∧ logged refs s s'.
Proof.
  intros Ha (w & s1 & Hm & [= <- <-])%run_bind. exists w. by apply (follows_nodes _ Hinner).
Qed.

Lemma class_all_follows node s v s' :
  evaluate_class_all graph node s = Some (v, s') → v = source_value node ∧ logged (source_reference node) s s'.
Proof.
  unfold evaluate_class_all, source_value, source_reference, source_of.
  destruct (child_of_kind node SyntaxKind.QUALIFIED_NAME ≫= _) as [[path span]|].
  - intros ([] & s1 & Hp & [= <- <-])%run_bind. split; [done|]. by eapply logged_one.
  - intros [= <- <-]. split; [done|apply logged_nil].
Qed.

Lemma property_follows ρ node v x s r s' :
  agrees (environment s) ρ → evaluate_property_navigation graph inner node v x s = Some (r, s') →
  r = navigated (receiver ρ v x) node ∧
  ∃ w refs, flows ρ (arguments_of node) w refs ∧ logged (refs ++ navigation_reference (receiver ρ v x) node) s s'.
Proof.
  intros Ha (u & s1 & Hargs & Hm)%run_bind. apply (arguments_follow ρ) in Hargs as (w & refs & Hf & Hlog); [|done].
  pose proof (logged_agrees _ _ _ _ Hlog Ha) as [_ Hl]. unfold navigated, navigation_reference.
  destruct (navigation_step node) as [[step span]|].
  2:{ injection Hm as <- <-. split; [by destruct (receiver ρ v x)|]. exists w, refs. by rewrite app_nil_r. }
  apply run_bind in Hm as (env & s2 & [= <- <-] & Hm).
  destruct (navigation_outcome_at graph v x step (environment s1)) as [outcome|] eqn:Eo; [|done].
  apply run_bind in Hm as ([] & s2 & Hp & [= <- <-]).
  assert (default unknown (navigation_value outcome) = match receiver ρ v x with
    | Ok value => match resolve graph value [step] with Some (NavFound chain) => chain_value chain | _ => unknown end
    | Err _ => unknown end ∧
    site_at (ToMember node span (receiver ρ v x) step)
      {| site_span := node_range node; reference_span := span; site_outcome := Navigation outcome |}) as [-> Hsite].
  { unfold navigation_outcome_at in Eo. unfold receiver. destruct x as [name|]; [rewrite Hl in Eo; destruct (value_in ρ name) as [source|]|].
    - rewrite Eo. split; [by destruct outcome|]. split_and!; [done..|by exists outcome].
    - injection Eo as <-. done.
    - rewrite Eo. split; [by destruct outcome|]. split_and!; [done..|by exists outcome]. }
  split; [done|]. exists w, refs. split; [done|]. eapply logged_app; [exact Hlog|]. by eapply logged_one.
Qed.

Lemma lambdas_follow ρ lambdas v r : follows ρ (Lambdas lambdas v r) (evaluate_lambdas inner lambdas v r).
Proof.
  revert r. induction lambdas as [|l ls IH]; intros r s r' s' Ha; cbn [evaluate_lambdas].
  - intros [= <- <-]. exists []. split; [constructor|apply logged_nil].
  - intros (w & s1 & Hl & Hr)%run_bind. apply (follows_lambda _ Hinner ρ) in Hl as (refs1 & Hf1 & Hlog1); [|done].
    apply IH in Hr as (refs2 & Hf2 & Hlog2); [|by eapply logged_agrees].
    exists (refs1 ++ refs2). split; [by econstructor|by eapply logged_app].
Qed.

Lemma parts_follow ρ children s u s' :
  agrees (environment s) ρ → evaluate_call_children inner children s = Some (u, s') →
  ∃ refs, flows ρ (CallParts children) unknown refs ∧ logged refs s s'.
Proof.
  revert s. induction children as [|c cs IH]; intros s Ha; cbn [evaluate_call_children].
  - intros [= _ <-]. exists []. split; [constructor|apply logged_nil].
  - intros ([] & s1 & Hc & Hcs)%run_bind.
    destruct (bool_decide_reflect (node_kind c = SyntaxKind.CALL_ARGS)) as [Hk|Hk];
      [|destruct (bool_decide_reflect (node_kind c = SyntaxKind.QUALIFIED_NAME)) as [Hk'|Hk']]; cbn [negb] in Hc.
    + apply (arguments_follow ρ) in Hc as (w & refs1 & Hf1 & Hlog1); [|done].
      apply IH in Hcs as (refs2 & Hf2 & Hlog2); [|by eapply logged_agrees].
      exists (refs1 ++ refs2). split; [by eapply flows_parts_arguments|by eapply logged_app].
    + injection Hc as <-. apply IH in Hcs as (refs2 & Hf2 & Hlog2); [|done]. exists refs2. split; [by apply flows_parts_name|done].
    + apply run_bind in Hc as (w & s2 & Hc & [= <-]). apply (follows_node _ Hinner ρ) in Hc as (refs1 & Hf1 & Hlog1); [|done].
      apply IH in Hcs as (refs2 & Hf2 & Hlog2); [|by eapply logged_agrees].
      exists (refs1 ++ refs2). split; [by eapply flows_parts_other|by eapply logged_app].
Qed.

(** An arrow call, then the rest of its chain. *)
Lemma arrow_follows ρ v x node nodes :
  link node = Arrow → (∀ w, follows ρ (Chain w None nodes) (evaluate_nodes_from graph inner w None nodes)) →
  follows ρ (Chain v x (node :: nodes)) (w ← evaluate_arrow_call inner node v; evaluate_nodes_from graph inner w None nodes).
Proof.
  intros Hk Hnodes s r s' Ha (w & s1 & Hm & Hrest)%run_bind. unfold evaluate_arrow_call in Hm.
  destruct (child_of_kind node SyntaxKind.CALL_ARGS) as [arguments|] eqn:Ec.
  2:{ injection Hm as <- <-. apply Hnodes in Hrest as (refs & Hf & Hlog); [|done]. exists refs. split; [by apply flows_bare_arrow|done]. }
  apply run_bind in Hm as (u & s2 & Hargs & Hm). apply (follows_nodes _ Hinner ρ) in Hargs as (refs1 & Hf1 & Hlog1); [|done].
  pose proof (logged_agrees _ _ _ _ Hlog1 Ha) as Ha2.
  apply run_bind in Hm as (result & s3 & Hls & [= Hw ->]). apply (lambdas_follow ρ) in Hls as (refs2 & Hf2 & Hlog2); [|done].
  pose proof (logged_agrees _ _ _ _ Hlog2 Ha2) as Ha3.
  assert (w = call_value node v result) as ->.
  { subst w. unfold call_value, called. destruct (simple_name <$> _) as [name|]; [|done].
    unfold text_eqb. destruct (bool_decide_reflect (name = txt "filter")) as [->|Hne]; [by rewrite decide_True|rewrite decide_False by congruence].
    destruct (bool_decide_reflect (name = txt "map")) as [->|Hne']; [by rewrite decide_True|by rewrite decide_False by congruence]. }
  apply Hnodes in Hrest as (refs3 & Hf3 & Hlog3); [|done]. exists (refs1 ++ refs2 ++ refs3).
  split; [by eapply flows_arrow|]. eapply logged_app; [done|]. by eapply logged_app.
Qed.

Lemma nodes_follow ρ v x nodes : follows ρ (Chain v x nodes) (evaluate_nodes_from graph inner v x nodes).
Proof.
  revert v x. induction nodes as [|n ns IH]; intros v x s r s' Ha; cbn [evaluate_nodes_from].
  { intros [= <- <-]. exists []. split; [constructor|apply logged_nil]. }
  assert (∀ (m : M (LocalAnalyzer R) (LocalValue R)) t, follows ρ t m →
    (v ← m; evaluate_nodes_from graph inner v None ns) s = Some (r, s') →
    ∃ w refs1 refs2, flows ρ t w refs1 ∧ flows ρ (Chain w None ns) r refs2 ∧ logged (refs1 ++ refs2) s s') as Hvalue.
  { intros m t Hm (w & s1 & Hw & Hr)%run_bind. apply Hm in Hw as (refs1 & Hf1 & Hlog1); [|done].
    apply IH in Hr as (refs2 & Hf2 & Hlog2); [|by eapply logged_agrees].
    exists w, refs1, refs2. split_and!; [done..|by eapply logged_app]. }
  assert (∀ A (m : M (LocalAnalyzer R) A), (m;; evaluate_nodes_from graph inner unknown None ns) s = Some (r, s') →
    ∃ a s1, m s = Some (a, s1) ∧ ∀ refs1, logged refs1 s s1 →
      ∃ refs2, flows ρ (Chain unknown None ns) r refs2 ∧ logged (refs1 ++ refs2) s s') as Hskip.
  { intros A m (a & s1 & Hm & Hr)%run_bind. exists a, s1. split; [done|]. intros refs1 Hlog1.
    apply IH in Hr as (refs2 & Hf2 & Hlog2); [|by eapply logged_agrees]. exists refs2. split; [done|by eapply logged_app]. }
  assert (link n = Opaque → (evaluate_inner_node inner n;; evaluate_nodes_from graph inner unknown None ns) s = Some (r, s') →
    ∃ refs, flows ρ (Chain v x (n :: ns)) r refs ∧ logged refs s s') as Hopaque.
  { intros Hk (w & s1 & Hm & Hs1)%Hskip. apply (follows_node _ Hinner ρ) in Hm as (refs1 & Hf1 & Hlog1); [|done].
    destruct (Hs1 refs1 Hlog1) as (refs2 & Hf2 & Hlog2). exists (refs1 ++ refs2). split; [by eapply flows_opaque|done]. }
  destruct (node_kind n) eqn:Ek; try (apply Hopaque; unfold link; by rewrite Ek).
  all: assert (link n = link n) as Hk by done; unfold link in Hk at 2; rewrite Ek in Hk.
  all: first
    [ intros (w & refs1 & refs2 & Hf1 & Hf2 & Hlog)%(Hvalue _ _ (follows_nodes _ Hinner ρ _));
      exists (refs1 ++ refs2); split; [by eapply flows_group|done]
    | intros (w & refs1 & refs2 & Hf1 & Hf2 & Hlog)%(Hvalue _ _ (follows_lambda _ Hinner ρ _ _));
      exists (refs1 ++ refs2); split; [by eapply flows_function|done]
    | intros (w & s1 & [-> Hlog1]%class_all_follows & Hr)%run_bind;
      apply IH in Hr as (refs2 & Hf2 & Hlog2); [|by eapply logged_agrees];
      eexists; split; [by eapply flows_source|by eapply logged_app]
    | intros (w & s1 & (-> & u & refs1 & Hf1 & Hlog1)%(property_follows ρ) & Hr)%run_bind; [|done];
      apply IH in Hr as (refs2 & Hf2 & Hlog2); [|by eapply logged_agrees];
      eexists; split; [by eapply flows_member|rewrite (assoc_L (++)); by eapply logged_app]
    | by eapply arrow_follows
    | intros (u & s1 & (refs1 & Hf1 & Hlog1)%(parts_follow ρ) & Hs1)%Hskip; [|done];
      destruct (Hs1 refs1 Hlog1) as (refs2 & Hf2 & Hlog2); exists (refs1 ++ refs2); split; [by eapply flows_call|done]
    | idtac ].
  intros (env & s1 & [= <- <-] & Hr)%run_bind. apply IH in Hr as (refs & Hf & Hlog); [|done].
  exists refs. split; [|done]. apply flows_variable; [done|]. destruct (variable_name n) as [name|]; [|done].
  cbn in *. by rewrite (proj2 Ha) in Hf.
Qed.

Lemma statements_follow ρ v statements s r s' :
  agrees (environment s) ρ → evaluate_statements inner v statements s = Some (r, s') →
  runs (environment s) (environment s') ∧
  ∃ refs new, flows ρ (Statements v statements) r refs ∧ sites s' = sites s ++ new ∧ Forall2 site_at refs new.
Proof.
  revert ρ v s. induction statements as [|n ns IH]; intros ρ v s Ha; cbn [evaluate_statements].
  { intros [= <- <-]. split; [constructor|]. exists [], []. split_and!; [constructor|by rewrite app_nil_r|done]. }
  intros (w & s1 & Hn & Hr)%run_bind. destruct (bool_decide_reflect (node_kind n = SyntaxKind.LET_STMT)) as [Hk|Hk].
  - unfold evaluate_let in Hn. apply run_bind in Hn as (u & s2 & Hn & Hb).
    apply (follows_nodes _ Hinner ρ) in Hn as (refs1 & Hf1 & Hlog1); [|done].
    pose proof (logged_agrees _ _ _ _ Hlog1 Ha) as Ha2. destruct Hlog1 as [He1 (new1 & Hs1 & Hn1)].
    assert (u = w ∧ sites s1 = sites s2 ∧ runs (environment s) (environment s1) ∧ agrees (environment s1) (let_scope n w ρ))
      as (-> & Hs2 & Hrun & Ha1).
    { unfold let_scope. destruct (let_binding_name n) as [name|].
      - apply run_bind in Hb as ([] & s3 & [= <-] & [= -> <-]). cbn. rewrite He1. split_and!; [done..| |].
        + eapply runs_bind. constructor.
        + apply agrees_bind. by rewrite <-He1.
      - injection Hb as -> ->. rewrite <-He1. split_and!; [done..|constructor|done]. }
    apply (IH _ _ _ Ha1) in Hr as (Hrun2 & refs2 & new2 & Hf2 & Hs3 & Hn2). split; [by eapply runs_trans|].
    exists (refs1 ++ refs2), (new1 ++ new2). split_and!; [by eapply flows_let| |by apply Forall2_app].
    by rewrite Hs3, Hs2, Hs1, (assoc_L (++)).
  - apply (follows_node _ Hinner ρ) in Hn as (refs1 & Hf1 & He1 & new1 & Hs1 & Hn1); [|done].
    rewrite <-He1 in Ha |- *. apply (IH _ _ _ Ha) in Hr as (Hrun2 & refs2 & new2 & Hf2 & Hs3 & Hn2). split; [done|].
    exists (refs1 ++ refs2), (new1 ++ new2). split_and!; [by eapply flows_statement| |by apply Forall2_app].
    by rewrite Hs3, Hs1, (assoc_L (++)).
Qed.

Lemma lambda_follows ρ node v : follows ρ (Lambda node v) (evaluate_lambda inner node v).
Proof.
  intros s r s' Ha Hm. unfold evaluate_lambda in Hm. apply run_bind in Hm as ([] & s1 & [= <-] & Hm).
  apply run_bind in Hm as ([] & s2 & Hp & Hm). apply run_bind in Hm as (r' & s3 & Hb & Hm).
  apply run_bind in Hm as ([] & s4 & [= <-] & [= -> <-]).
  assert (runs (scope (environment s)) (environment s2) ∧ sites s2 = sites s ∧ agrees (environment s2) (lambda_scope node v ρ))
    as (Hrun & Hs2 & Ha2).
  { unfold lambda_scope. apply agrees_scope in Ha. destruct (child_of_kind node SyntaxKind.LAMBDA_PARAMS) as [ps|].
    - injection Hp as <-. cbn. split_and!; [|done|by apply agrees_parameters].
      apply bind_parameters_run.
    - injection Hp as <-. cbn. split_and!; [constructor|done..]. }
  destruct (child_of_kind node SyntaxKind.CODE_BLOCK) as [block|] eqn:Eb.
  - apply (statements_follow _ _ _ _ _ _ Ha2) in Hb as (Hrun2 & refs & new & Hf & Hs3 & Hn). exists refs.
    split; [by eapply flows_lambda|]. split; [cbn; apply scope_restored; by eapply runs_trans|].
    exists new. split; [by rewrite <-Hs2|done].
  - injection Hb as <- <-. exists []. split; [by apply flows_no_body|]. split; [cbn; by apply scope_restored|].
    exists []. by rewrite app_nil_r.
Qed.
End follows.

Lemma evaluators_follow fuel : inner_follows (evaluators graph fuel).
Proof.
  induction fuel as [|fuel IH]; [by split; intros ρ; intros; intros s r s' _|].
  split; intros ρ; cbn [evaluators evaluate_inner_node evaluate_inner_nodes evaluate_inner_lambda].
  - intros nodes. by apply nodes_follow.
  - intros node. unfold evaluate_node, evaluates. destruct (is_lambda node); [by apply follows_lambda|by apply follows_nodes].
  - intros node v. by apply lambda_follows.
Qed.

(** The analysis answers with the sites of the references of the tree, in the
    order of its flow. *)
Theorem analysis_follows tree : ∃ v refs sites,
  flows [] (evaluates tree) v refs ∧ analyze_m3_locals graph tree = Some sites ∧ Forall2 site_at refs sites.
Proof.
  destruct (analysis_sites graph tree) as (found & E & _). pose proof E as E'. unfold analyze_m3_locals in E'.
  apply bind_Some in E' as ([v s'] & Hm & [= Hs]).
  apply (follows_node _ (evaluators_follow _) []) in Hm as (refs & Hf & _ & new & Hn & Hnew).
  - exists v, refs, found. split_and!; [done..|]. by rewrite <-Hs, Hn.
  - split; [|done]. split; [apply bt_nil_sorted|]. by repeat constructor.
Qed.

(** The references of a tree are at its navigations. *)
Definition task_nodes (t : Task) : list (GreenNode R) :=
  match t with
  | Chain _ _ nodes | CallParts nodes | Lambdas nodes _ _ | Statements _ nodes => nodes
  | Lambda node _ => [node]
  end.

Definition member_inside (tree : GreenNode R) (r : Reference) : Prop :=
  match r with
  | ToMember node span _ step =>
      inside tree node ∧ node_kind node = SyntaxKind.PROPERTY_NAV ∧ navigation_step node = Some (step, span)
  | ToClass _ _ _ => True
  end.

Lemma inside_children (tree node : GreenNode R) : inside tree node → Forall (inside tree) (direct_nodes node).
Proof. intros Hi. apply Forall_forall. intros c Hc%direct_nodes_in. by eapply inside_child. Qed.

Lemma inside_arguments (tree node : GreenNode R) : inside tree node → Forall (inside tree) (task_nodes (arguments_of node)).
Proof. intros Hi. by apply Forall_List_filter, inside_children. Qed.

Lemma inside_evaluates (tree node : GreenNode R) : inside tree node → Forall (inside tree) (task_nodes (evaluates node)).
Proof. intros Hi. unfold evaluates. destruct (is_lambda node); [by constructor|by apply inside_children]. Qed.

Lemma inside_child_of_kind (tree node child : GreenNode R) kind :
  child_of_kind node kind = Some child → inside tree node → inside tree child.
Proof. intros [Hc%direct_nodes_in _]%child_of_kind_in Hi. by eapply inside_child. Qed.

Lemma link_member node : link node = Member → node_kind node = SyntaxKind.PROPERTY_NAV.
Proof. unfold link. by destruct (node_kind node). Qed.

Lemma flows_inside tree ρ t v refs :
  flows ρ t v refs → Forall (inside tree) (task_nodes t) → Forall (member_inside tree) refs.
Proof.
  induction 1; cbn [task_nodes whole] in *; intros Ht; try apply Forall_cons_1 in Ht as [Hn Hns];
    rewrite ?Forall_app; split_and?; try (by constructor);
    try match goal with IH : _ → Forall _ ?refs |- Forall _ ?refs => apply IH end;
    try done; eauto using inside_children, inside_arguments, inside_evaluates.
  - unfold source_reference. destruct (source_of node) as [[]|]; by repeat constructor.
  - unfold navigation_reference. destruct (navigation_step node) as [[step span]|] eqn:Es; [|done].
    constructor; [|done]. split_and!; [done|by apply link_member|done].
  - apply inside_arguments. by eapply inside_child_of_kind.
  - apply Forall_List_filter, inside_children. by eapply inside_child_of_kind.
  - apply inside_children. by eapply inside_child_of_kind.
Qed.

(** The value that a navigation of the tree is of. *)
Definition receives (tree node : GreenNode R) (value : LocalValue R) (step : NavigationStep) : Prop :=
  ∃ v refs span, flows [] (evaluates tree) v refs ∧ ToMember node span (Ok value) step ∈ refs.

Lemma receives_site tree node value step sites :
  analyze_m3_locals graph tree = Some sites → receives tree node value step →
  ∃ site outcome, site ∈ sites ∧ site_span site = node_range node ∧ site_outcome site = Navigation outcome ∧
    resolve graph value [step] = Some outcome.
Proof.
  intros E (v & refs & span & Hf & Hin). destruct (analysis_follows tree) as (v' & refs' & sites' & Hf' & E' & Hall).
  rewrite E in E'. injection E' as <-. destruct (flows_deterministic _ _ _ _ _ _ Hf Hf') as [_ <-].
  destruct (Forall2_elem_l _ _ _ _ Hall Hin) as (site & Hs & Hspan & _ & outcome & Ho & Hr). by exists site, outcome.
Qed.

Lemma site_receives tree sites site failure :
  analyze_m3_locals graph tree = Some sites → site ∈ sites → site_outcome site = Navigation (NavMissing failure) →
  ∃ node value step, receives tree node value step ∧ site_span site = node_range node ∧
    resolve graph value [step] = Some (NavMissing failure).
Proof.
  intros E Hs Ho. destruct (analysis_follows tree) as (v & refs & sites' & Hf & E' & Hall).
  rewrite E in E'. injection E' as <-. destruct (Forall2_elem_r _ _ _ _ Hall Hs) as (r & Hr & Hsite).
  destruct r as [node span path|node span [value|name] step]; cbn in Hsite; [subst site; discriminate Ho| |];
    destruct Hsite as (Hspan & _ & Hsite); [destruct Hsite as (outcome & Ho' & Hres)|congruence].
  rewrite Ho in Ho'. injection Ho' as <-. exists node, value, step. split_and!; [|done..]. by exists v, refs, span.
Qed.

Lemma receives_inside tree node value step :
  receives tree node value step → inside tree node ∧ node_kind node = SyntaxKind.PROPERTY_NAV ∧
    ∃ span, navigation_step node = Some (step, span).
Proof.
  intros (v & refs & span & Hf & Hin). apply (flows_inside tree) in Hf; [|apply inside_evaluates, inside_here].
  rewrite Forall_forall in Hf. destruct (Hf _ Hin) as (? & ? & ?). by split_and!; [..|exists span].
Qed.
End flows.
