(* ===== verification/Lints.v ===== *)
(** * The passes over syntax and locals

    [pure-analyzer-analysis/src/validate.rs] and [lint.rs]: the guards of shapes
    that the parser takes and Legend refuses, and the lints over the sites of
    [Locals].  Each is a pass of [Engine]. *)

From S2P Require Import Prelude Utf8 BTree StableSort StrOps Codes FixPlan Kinds Green Parsing Model Resolver ResolverProps Navigation NavigationProps Engine Locals FixPlanProps Lexing M3.

Definition INSERT_LATEST_ARGUMENT_TITLE : string := "insert `%latest` argument".
Definition LATEST_ARGUMENT : Text := txt "%latest".

Section lints.
Context {R : Type} `{TextRangeNew R}.

(** ** The guards of [ValidatePass] *)

(** [is_date_literal] and [is_bare_join_kind]. *)
Definition is_date_literal (kind : SyntaxKind) : bool :=
  match kind with SyntaxKind.DATE_TIME | SyntaxKind.STRICT_DATE | SyntaxKind.LATEST_DATE => true | _ => false end.

Definition is_bare_join_kind (node : GreenNode R) : bool :=
  bool_decide (node_kind node = SyntaxKind.QUALIFIED_NAME)
  && match List.filter (λ token, negb (kind_is_trivia (gt_kind token))) (direct_tokens node) with
     | [token] => bool_decide (gt_kind token = SyntaxKind.IDENT) && text_eqb (gt_text token) (txt "JoinKind")
     | _ => false
     end.

Section guards.
Context (file : FileId).

(** [parenthesized_tuple], [bracket_index], [milestoning_arguments],
    [join_kind_member] and [join_kind_references]: what each of them pushes. *)
Definition parenthesized_tuple (node : GreenNode R) : list (Diagnostic R) :=
  match List.find (λ token, bool_decide (gt_kind token = SyntaxKind.COMMA)) (direct_tokens node) with
  | Some comma =>
      [error_diagnostic ParenthesizedTuple "parenthesized value tuples are not valid Pure expressions" file (gt_range comma)]
  | None => []
  end.

Definition is_literal_index (contents : list (GreenToken R)) : bool :=
  match contents with
  | [token] => match gt_kind token with SyntaxKind.STRING | SyntaxKind.INTEGER => true | _ => false end
  | _ => false
  end.

Definition bracket_index (node : GreenNode R) : list (Diagnostic R) :=
  let contents := List.filter (λ token, negb
      match gt_kind token with SyntaxKind.BRACKET_OPEN | SyntaxKind.BRACKET_CLOSE => true | _ => false end)
    (List.filter (λ token, negb (kind_is_trivia (gt_kind token))) (tokens_of node)) in
  if negb (is_literal_index contents)
  then [error_diagnostic IllegalBracketIndex "a bracket index must be a string or integer literal" file (node_range node)]
  else [].

Definition milestoning_arguments (node : GreenNode R) : list (Diagnostic R) :=
  match child_of_kind node SyntaxKind.CALL_ARGS with
  | None => []
  | Some arguments =>
      let values := List.filter (λ token, negb
          match gt_kind token with
          | SyntaxKind.PAREN_OPEN | SyntaxKind.PAREN_CLOSE | SyntaxKind.COMMA => true | _ => false
          end)
        (List.filter (λ token, negb (kind_is_trivia (gt_kind token))) (tokens_of arguments)) in
      if (2 <? length values) && forallb (λ token, is_date_literal (gt_kind token)) values
      then [error_diagnostic MalformedMilestoningArguments
              "milestoning navigation accepts at most two date arguments" file (node_range arguments)]
      else []
  end.

Definition join_kind_member (property_nav : GreenNode R) : list (Diagnostic R) :=
  match List.find (λ token, negb (kind_is_trivia (gt_kind token)) && negb (bool_decide (gt_kind token = SyntaxKind.DOT)))
          (direct_tokens property_nav) with
  | None => []
  | Some member =>
      if bool_decide (gt_kind member = SyntaxKind.IDENT)
         && negb (text_eqb (gt_text member) (txt "INNER") || text_eqb (gt_text member) (txt "LEFT"))
      then [error_diagnostic UnknownJoinKind "unknown join kind; expected JoinKind.INNER or JoinKind.LEFT" file (gt_range member)]
      else []
  end.

(** The loop over [windows(2)]. *)
Fixpoint join_kind_pairs (children : list (GreenNode R)) : list (Diagnostic R) :=
  match children with
  | target :: ((property_nav :: _) as rest) =>
      (if bool_decide (node_kind property_nav = SyntaxKind.PROPERTY_NAV) && is_bare_join_kind target
       then join_kind_member property_nav else [])
      ++ join_kind_pairs rest
  | _ => []
  end.

Definition join_kind_references (node : GreenNode R) : list (Diagnostic R) := join_kind_pairs (direct_nodes node).

(** What [visit] pushes for a node itself, and [visit]. *)
Definition guard_node (node : GreenNode R) (parent : option SyntaxKind) : list (Diagnostic R) :=
  match node_kind node with
  | SyntaxKind.PAREN_EXPR =>
      if bool_decide (parent = Some SyntaxKind.CALL_ARGS) then [] else parenthesized_tuple node
  | SyntaxKind.BRACKET_INDEX => bracket_index node
  | SyntaxKind.PROPERTY_NAV => milestoning_arguments node
  | _ => []
  end ++ join_kind_references node.

Fixpoint visit (node : GreenNode R) (parent : option SyntaxKind) : list (Diagnostic R) :=
  guard_node node parent
  ++ let '(GreenNodeData kind children _) := node in
     concat ((λ element, match element with Node child => visit child (Some kind) | Token _ => [] end) <$> children).
End guards.

(** [ValidatePass]. *)
Definition ValidatePass : AnalysisPass R :=
  {| pass_name := "validate";
     pass_analyze input := input_parse_diagnostics input ++ visit (input_file input) (input_tree input) None |}.

(** ** The lints *)

(** The sites of the input; there are none without a model. *)
Definition sites_of (input : AnalysisInput R) : list (LocalResolutionSite R) :=
  match input_model input with
  | None => []
  | Some model => default [] (analyze_m3_locals model (input_tree input))
  end.

(** [NavigationLintPass], a site at a time. *)
Definition navigation_finding (input : AnalysisInput R) (site : LocalResolutionSite R) : option (Diagnostic R) :=
  match site_outcome site with
  | Navigation (NavMissing failure) =>
      match value_kind (chain_value (completed failure)) with
      | ClassValue _ =>
          Some (error_diagnostic UnknownProperty "property is not declared on this closed-world class"
                  (input_file input) (site_span site))
      | _ => None
      end
  | _ => None
  end.

Definition NavigationLintPass : AnalysisPass R :=
  {| pass_name := "navigation-lints";
     pass_analyze input := omap (navigation_finding input) (sites_of input) |}.

(** [property_navigation]: the first node, in order, of the span. *)
Fixpoint property_navigation (tree : GreenNode R) (span : R) : option (GreenNode R) :=
  if bool_decide (node_kind tree = SyntaxKind.PROPERTY_NAV) && bool_decide (node_range tree = span) then Some tree
  else let '(GreenNodeData _ children _) := tree in
       head (omap (λ element, match element with Node child => property_navigation child span | Token _ => None end) children).

(** [latest_argument_insertion_span] and [latest_argument_fix];
    [TextRange::empty] is a range of no length. *)
Definition latest_argument_insertion_span (tree : GreenNode R) (navigation_span : R) : option R :=
  navigation ← property_navigation tree navigation_span;
  arguments ← child_of_kind navigation SyntaxKind.CALL_ARGS;
  closing_parenthesis ← List.find (λ token, bool_decide (gt_kind token = SyntaxKind.PAREN_CLOSE)) (direct_tokens arguments);
  range_new (start (gt_range closing_parenthesis)) (start (gt_range closing_parenthesis)).

Definition latest_argument_fix (input : AnalysisInput R) (navigation_span : R) (expected actual : nat) : option (Fix R) :=
  if negb (expected =? 1) || negb (actual =? 0) || negb (bool_decide (input_parse_diagnostics input = [])) then None
  else
    insertion ← latest_argument_insertion_span (input_tree input) navigation_span;
    Some (single_arity_proven INSERT_LATEST_ARGUMENT_TITLE
            [{| te_file := input_file input; te_span := insertion; te_new_text := LATEST_ARGUMENT |}]).

Definition with_fix (d : Diagnostic R) (fix_ : option (Fix R)) : Diagnostic R :=
  {| diag_code := diag_code d; diag_severity := diag_severity d; diag_message := diag_message d;
     diag_primary := diag_primary d; diag_secondary := diag_secondary d; diag_fix := fix_; diag_url := diag_url d |}.

(** [MilestoningArityLintPass], a site at a time. *)
Definition milestoning_finding (input : AnalysisInput R) (site : LocalResolutionSite R) : option (Diagnostic R) :=
  match site_outcome site with
  | Navigation (NavWrongArity _ expected actual true _) =>
      Some (with_fix
        (error_diagnostic WrongMilestoningArity "generated milestoned navigation has the wrong number of dates"
           (input_file input) (site_span site))
        (latest_argument_fix input (site_span site) expected actual))
  | _ => None
  end.

Definition MilestoningArityLintPass : AnalysisPass R :=
  {| pass_name := "milestoning-arity-lints";
     pass_analyze input := omap (milestoning_finding input) (sites_of input) |}.

(** ** What the guards cover *)

(** The nodes of a tree with the kinds of their parents. *)
Inductive node_in (tree : GreenNode R) : GreenNode R → option SyntaxKind → Prop :=
| node_root : node_in tree tree None
| node_child node parent child : node_in tree node parent → Node child ∈ node_children node →
    node_in tree child (Some (node_kind node)).

(** The same, from the top. *)
Lemma node_in_below tree parent child node :
  Node child ∈ node_children tree → node_in child node parent →
  node_in tree node (match parent with Some k => Some k | None => Some (node_kind tree) end).
Proof.
  intros Hc. induction 1 as [|n p c Hn IH Hin]; [eapply node_child; [apply node_root|done]|].
  eapply node_child; [exact IH|done].
Qed.

Lemma node_in_cases tree node parent :
  node_in tree node parent ↔ (node = tree ∧ parent = None) ∨
    ∃ child p, Node child ∈ node_children tree ∧ node_in child node p ∧
      parent = match p with Some k => Some k | None => Some (node_kind tree) end.
Proof.
  split.
  - induction 1 as [|n p c Hn IH Hin]; [by left|]. right. destruct IH as [[-> ->]|(child & q & Hc & Hq & ->)].
    + exists c, None. split_and!; [done|apply node_root|done].
    + exists child, (Some (node_kind n)). split_and!; [done| |done]. by eapply node_child.
  - intros [[-> ->]|(child & p & Hc & Hn & ->)]; [apply node_root|by eapply node_in_below].
Qed.

Lemma visit_elem file tree parent d :
  d ∈ visit file tree parent ↔
  ∃ node p, node_in tree node p ∧ d ∈ guard_node file node (match p with Some k => Some k | None => parent end).
Proof.
  revert parent. apply (green_ind (λ tree, ∀ parent, d ∈ visit file tree parent ↔
      ∃ node p, node_in tree node p ∧ d ∈ guard_node file node (match p with Some k => Some k | None => parent end))
    (λ e, match e with Node tree => ∀ parent, d ∈ visit file tree parent ↔
      ∃ node p, node_in tree node p ∧ d ∈ guard_node file node (match p with Some k => Some k | None => parent end)
      | Token _ => True end)); [done|done|].
  intros k cs r IH parent. cbn [visit]. rewrite elem_of_app, (list_elem_of_In (concat _)), in_concat.
  rewrite Forall_forall in IH. split.
  - intros [Hd|(l & Hl & Hd)].
    + exists (GreenNodeData k cs r), None. split; [apply node_root|done].
    + apply list_elem_of_In, list_elem_of_fmap in Hl as (e & -> & He). destruct e as [child|t]; [|done].
      apply list_elem_of_In, (IH (Node child) He) in Hd as (node & p & Hn & Hd).
      exists node, (match p with Some q => Some q | None => Some k end). split; [|by destruct p].
      apply node_in_cases. right. by exists child, p.
  - intros (node & p & [[-> ->]|(child & q & Hc & Hn & ->)]%node_in_cases & Hd); [by left|right].
    exists (visit file child (Some k)). split.
    + apply list_elem_of_In, list_elem_of_fmap. by exists (Node child).
    + apply list_elem_of_In, (IH (Node child) Hc). exists node, q. split; [done|by destruct q].
Qed.
End lints.

(** ** What the lints say *)

Section theorems.
Context {R : Type} `{TextRangeNew R}.

Lemma sites_of_ok input graph :
  input_model input = Some graph → Forall (site_ok graph (input_tree input)) (sites_of input).
Proof.
  intros Hm. unfold sites_of. rewrite Hm. destruct (analysis_sites graph (input_tree input)) as (found & -> & Hf). done.
Qed.

(** A property that is missing from a receiver's class. *)
Lemma missing_in_class (graph : ModelGraph R) tree node value step class failure :
  receives graph tree node value step → value_kind value = ClassValue class →
  resolve graph value [step] = Some (NavMissing failure) →
  is_Some (class_at graph (rcl_path class)) ∧
  ∀ p, rtc (generalizes graph) (rcl_path class) p → silent graph p (step_name step) ∧ ¬ has_gap graph p.
Proof.
  intros Hrec Hk Hres. destruct (analysis_sites graph tree) as (sites & E & Hok).
  destruct (receives_site _ _ _ _ _ _ E Hrec) as (site & outcome & Hsite & _ & Ho & Hr).
  rewrite Hres in Hr. injection Hr as <-. destruct (one_step_missing _ _ _ _ Hres) as (Hc & _ & Hstep).
  rewrite Forall_forall in Hok. specialize (Hok site Hsite). unfold site_ok in Hok. rewrite Ho in Hok.
  destruct Hok as (_ & ? & _ & _ & _ & _ & [[name ?]|(source & Hsource & Hr)]); [done|].
  apply one_step_missing in Hr as (Hc' & _ & _). rewrite Hc in Hc'. subst source.
  assert (is_Some (class_at graph (rcl_path class))) as Hclass by (unfold value_ok in Hsource; by rewrite Hk in Hsource).
  split; [done|]. destruct (resolve_step_spec graph value step) as (r & Er & Hs). rewrite Hstep in Er. injection Er as <-.
  unfold step_ok in Hs. rewrite Hk in Hs. destruct Hs as [Hn|Hs]; [|done]. rewrite Hn in Hclass. by destruct Hclass.
Qed.


(** The milestoned navigations. *)
Lemma one_step_wrong_arity (graph : ModelGraph R) source step failure expected actual generated definition :
  resolve graph source [step] = Some (NavWrongArity failure expected actual generated definition) →
  chain_value (completed failure) = source ∧ actual = argument_count step ∧
  resolve_step graph source step = Some (StepWrongArity expected generated definition).
Proof.
  unfold resolve. cbn [resolve_from chain_new chain_value]. destruct (resolve_step graph source step) as [[]|]; try done.
  by intros [= <- -> <- -> ->].
Qed.

Lemma property_navigation_spec (tree : GreenNode R) span node :
  property_navigation tree span = Some node →
  inside tree node ∧ node_kind node = SyntaxKind.PROPERTY_NAV ∧ node_range node = span.
Proof.
  revert node. apply (green_ind (λ tree, ∀ node, property_navigation tree span = Some node →
      inside tree node ∧ node_kind node = SyntaxKind.PROPERTY_NAV ∧ node_range node = span)
    (λ e, match e with Node tree => ∀ node, property_navigation tree span = Some node →
      inside tree node ∧ node_kind node = SyntaxKind.PROPERTY_NAV ∧ node_range node = span | Token _ => True end)); [done|done|].
  intros k cs r IH node. cbn [property_navigation]. destruct (_ && _) eqn:E.
  - intros [= <-]. apply andb_true_iff in E as [Ek Er]. apply bool_decide_eq_true in Ek, Er. by split_and!; [apply inside_here|..].
  - intros Hh. rewrite Forall_forall in IH. apply head_Some_elem_of, list_elem_of_omap in Hh as ([child|t] & Hc & Hn); [|done].
    destruct (IH _ Hc _ Hn) as (Hi & Hk & Hr). split_and!; [|done..]. clear -Hc Hi.
    induction Hi as [|n c Hi IHi Hin]; [|by eapply inside_child]. eapply inside_child; [apply inside_here|done].
Qed.

(** C21. A finding of the milestoning lint is at a property navigation of the tree
    that supplies other than the number of dates of the generated member that it
    finds.  Its fix is there only for a missing date of an error-free tree: it is
    permitted to apply by itself, and inserts [%latest] where a parenthesis of the
    arguments of a navigation with the finding's span closes. *)
Theorem milestoning_findings_are_fixable (input : AnalysisInput R) d :
  d ∈ pass_analyze MilestoningArityLintPass input →
  ∃ graph node step (class : ResolvedClass R) (m : ResolvedMember R) expected,
    input_model input = Some graph ∧ inside (input_tree input) node ∧ node_kind node = SyntaxKind.PROPERTY_NAV ∧
    diag_code d = WrongMilestoningArity ∧ label_span (diag_primary d) = node_range node ∧
    (∃ span, navigation_step node = Some (step, span)) ∧ is_Some (class_at graph (rcl_path class)) ∧
    rm_name m = step_name step ∧ (∃ n, nearest graph (rcl_path class) (step_name step) n [m]) ∧
    rm_kind m = Qualified MilestonedPoint ∧ rm_target_temporal_arity m = Some expected ∧ argument_count step ≠ expected ∧
    ∀ f, diag_fix d = Some f →
      expected = 1 ∧ argument_count step = 0 ∧ input_parse_diagnostics input = [] ∧
      permits_machine_application (fix_provenance f) = true ∧
      ∃ navigation arguments closing insertion,
        inside (input_tree input) navigation ∧ node_range navigation = node_range node ∧
        child_of_kind navigation SyntaxKind.CALL_ARGS = Some arguments ∧ closing ∈ direct_tokens arguments ∧
        gt_kind closing = SyntaxKind.PAREN_CLOSE ∧
        start insertion = start (gt_range closing) ∧ end_ insertion = start (gt_range closing) ∧
        fix_edits f = [{| te_file := input_file input; te_span := insertion; te_new_text := txt "%latest" |}].
Proof.
  cbn [MilestoningArityLintPass pass_analyze]. rewrite list_elem_of_omap. intros (site & Hsite & Hd).
  destruct (input_model input) as [graph|] eqn:Hm; [|unfold sites_of in Hsite; rewrite Hm in Hsite; by apply elem_of_nil in Hsite].
  pose proof (sites_of_ok _ _ Hm) as Hok. rewrite Forall_forall in Hok. specialize (Hok site Hsite).
  unfold milestoning_finding in Hd. unfold site_ok in Hok.
  destruct (site_outcome site) as [|[| | | | |failure expected actual generated definition]] eqn:Eo; try done.
  destruct generated; [|done]. injection Hd as <-.
  destruct Hok as (node & step & Hin & Hk & Hspan & Hstep & [[name ?]|(source & Hsource & Hr)]); [done|].
  apply one_step_wrong_arity in Hr as (_ & -> & Hr).
  destruct (resolve_step_spec graph source step) as (r & Er & Hs). rewrite Hr in Er. injection Er as <-.
  unfold step_ok in Hs. unfold value_ok in Hsource. destruct (value_kind source) as [class| |row|] eqn:Ek; try done;
    [|by destruct Hs as (_ & _ & ? & _)].
  destruct Hs as (Hne & m & (Hname & Hnear) & Hexp & _ & Hgen). pose proof (proj1 Hgen eq_refl) as Hkind.
  exists graph, node, step, class, m, expected. split_and!; try done; [by eexists| |].
  - unfold expected_argument_count in Hexp. rewrite Hkind in Hexp. destruct (rm_target_temporal_arity m); [|done]. by injection Hexp as ->.
  - intros f. cbn [with_fix diag_fix]. unfold latest_argument_fix.
    destruct (Nat.eqb_spec expected 1) as [->|]; [|done]. destruct (Nat.eqb_spec (argument_count step) 0) as [E0|]; [|done].
    destruct (bool_decide_reflect (input_parse_diagnostics input = [])) as [Ep|]; [|done]. cbn [negb orb].
    intros (insertion & Hins & [= <-])%bind_Some. unfold latest_argument_insertion_span in Hins.
    apply bind_Some in Hins as (navigation & Hnav & (arguments & Harg & (closing & Hclose & Hins)%bind_Some)%bind_Some).
    apply property_navigation_spec in Hnav as (Hi & _ & Hrange). apply find_some in Hclose as [Hc Hck].
    destruct (range_new_ordered (start (gt_range closing)) (start (gt_range closing)) (le_n _)) as (r' & Er' & Hs1 & Hs2).
    rewrite Hins in Er'. injection Er' as <-. split_and!; try done.
    exists navigation, arguments, closing, insertion. apply bool_decide_eq_true in Hck.
    split_and!; try done; [by rewrite Hrange|by apply list_elem_of_In].
Qed.

(** The findings of the validation pass are those of the parser and those of
    its guards at the nodes of the tree, each node with the kind of its parent, and
    no node is left out. *)
Theorem validation_visits_every_node (input : AnalysisInput R) d :
  d ∈ pass_analyze ValidatePass input ↔
  d ∈ input_parse_diagnostics input ∨
  ∃ node parent, node_in (input_tree input) node parent ∧ d ∈ guard_node (input_file input) node parent.
Proof.
  cbn [ValidatePass pass_analyze]. rewrite elem_of_app, visit_elem.
  split; (intros [?|(node & p & Hn & Hd)]; [by left|right; exists node, p; split; [done|by destruct p]]).
Qed.
End theorems.

(** ** An example *)

(** A class of people with a name and an address at a date, and the input of a
    query that the parser takes as it is. *)
Definition sample_type (name : string) : TypeRef := TypeRef_new (txt name) [].
Definition sample_one : Multiplicity := {| lower := 1; upper := Some 1%N |}.

Definition person : ClassInfo (nat * nat) :=
  ClassInfo_new (txt "Person") [] None [(txt "name", PropInfo_declared (txt "name") (sample_type "String") sample_one)]
    [(txt "address", QpInfo_new (txt "address") (sample_type "Address") sample_one MilestonedPoint None)] 0.

Definition address : ClassInfo (nat * nat) := ClassInfo_new (txt "Address") [] (Some BusinessTemporal) [] [] 0.

Definition people : ModelGraph (nat * nat) :=
  {| classes := [(txt "Address", address); (txt "Person", person)];
     by_path := [(txt "Address", 0); (txt "Person", 1)]; paths_by_id := [txt "Address"; txt "Person"];
     associations := []; sources := []; graph_diagnostics := [] |}.

Definition sample_input (source : string) : option (AnalysisInput (nat * nat)) :=
  match parse_query (R:=nat * nat) (txt source) 0 with
  | Some (Ok {| green := tree; parse_diagnostics := [] |}) =>
      Some {| input_file := 0; input_source := txt source; input_tree := tree; input_parse_diagnostics := [];
              input_model := Some people |}
  | _ => None
  end.

Definition found_by (pass : AnalysisPass (nat * nat)) (source : string) : option (list (Diagnostic (nat * nat))) :=
  pass_analyze pass <$> sample_input source.


(** The analyzer looks at the last part of the name of a call only: a function
    of some package that is called [filter] is taken for the one that passes its
    receiver on, and a property of what it really gives is reported as missing. *)
Lemma qualified_filter_is_filter :
  length <$> found_by NavigationLintPass "Person.all()->my::filter(p|true).firm" = Some 1 ∧
  length <$> found_by NavigationLintPass "Person.all()->my::select(p|true).firm" = Some 0.
Proof. vm_compute. done. Qed.

(** The first parameter of a lambda has the receiver of the call whatever is
    called and whatever type it is declared with. *)
Lemma typed_parameter_is_receiver :
  length <$> found_by NavigationLintPass "Person.all()->my::pair(f: Firm[1]|$f.legalName)" = Some 1.
Proof. vm_compute. done. Qed.

(** The fix, through the engine and the plan, to the sources that it leaves. *)
Definition all_passes : list (AnalysisPass (nat * nat)) := [NavigationLintPass; ValidatePass; MilestoningArityLintPass].

Definition fixed (source : string) : option (list (FileId * Text)) :=
  input ← sample_input source;
  let found := engine_analyze (AnalysisEngine_new all_passes FindingPolicy_default) input in
  plan ← result_ok (FixPlan.build [{| pf_file := 0; pf_source := input_source input |}] found);
  sources ← FixPlan.apply plan [(0, input_source input)];
  result_ok sources.

Lemma milestoning_findings_are_fixable_witness :
  fixed "Person.all()->map(p|$p.address())" = Some [(0, txt "Person.all()->map(p|$p.address(%latest))")] ∧
  ∃ input d f, sample_input "Person.all()->map(p|$p.address())" = Some input ∧
    d ∈ pass_analyze MilestoningArityLintPass input ∧ diag_fix d = Some f ∧
    permits_machine_application (fix_provenance f) = true.
Proof.
  split; [vm_compute; reflexivity|].
  destruct (sample_input "Person.all()->map(p|$p.address())") as [input|] eqn:E; [|vm_compute in E; discriminate E].
  assert ((λ input, diag_fix <$> pass_analyze MilestoningArityLintPass input) <$> sample_input "Person.all()->map(p|$p.address())"
    = Some [Some (single_arity_proven INSERT_LATEST_ARGUMENT_TITLE
        [{| te_file := 0; te_span := (31, 0); te_new_text := LATEST_ARGUMENT |}])]) as Ef by (vm_compute; reflexivity).
  rewrite E in Ef. apply (inj Some) in Ef. change ((λ input, diag_fix <$> pass_analyze MilestoningArityLintPass input) input)
    with (diag_fix <$> pass_analyze MilestoningArityLintPass input) in Ef.
  destruct (pass_analyze MilestoningArityLintPass input) as [|d ds] eqn:Ed; [discriminate Ef|].
  rewrite fmap_cons in Ef. apply (f_equal head) in Ef. apply (inj Some) in Ef.
  assert (d ∈ pass_analyze MilestoningArityLintPass input) as Hd by (rewrite Ed; left).
  destruct (milestoning_findings_are_fixable input d Hd) as (g & n & st & c & m & e & _ & _ & _ & _ & _ & _ & _ & _ & _ & _ & _ & _ & Hfix).
  destruct (Hfix _ Ef) as (_ & _ & _ & Hp & _).
  exists input, d, (single_arity_proven INSERT_LATEST_ARGUMENT_TITLE
        [{| te_file := 0; te_span := (31, 0); te_new_text := LATEST_ARGUMENT |}]).
  split; [reflexivity|]. split; [rewrite Ed; left|]. split; [exact Ef|exact Hp].
Defined.
